(* ===== verification/_CoqProject ===== *)
-Q . S2P
Prelude.v
Machine.v
Text.v
Capability.v
LlmRequest.v
Circuit.v
CircuitFacts.v
CircuitProtocol.v
Retry.v
RouteDefinition.v
Selection.v
SelectionFacts.v
SelectionTheorems.v
Fallback.v
Readiness.v
LedgerAmount.v
LedgerModel.v
LedgerFacts.v
LedgerRepository.v
LedgerMemory.v
LedgerTheorems.v
LedgerService.v
Stream.v
StreamFacts.v
StreamTheorems.v
StreamTermination.v
Coalesce.v
LoopBudget.v
JsonShape.v
JsonShapeTheorems.v
Ordered.v
AuthCore.v
Authorization.v
AuthorizationTheorems.v
RealtimeRegistry.v
RealtimeRegistryTheorems.v
RealtimeDelivery.v
RealtimeDeliveryFacts.v
RealtimeDeliverySteps.v
RealtimeDeliveryTheorems.v
TaskDomain.v
TaskStore.v
TaskRepository.v
TaskFacts.v
TaskInvariant.v
TaskSteps.v
TaskSafety.v
TaskProgress.v
TaskHistory.v
TaskService.v
TaskTheorems.v
TaskServiceTheorems.v
TaskLimits.v
TaskExamples.v
FlagValues.v
FlagEvaluation.v
FlagEvaluationTheorems.v
JobPolicy.v
JobBackoff.v
JobWire.v
JobTheorems.v
EventWire.v
EventTheorems.v
Outbox.v
OutboxHistory.v
OutboxTheorems.v
Transactions.v
Idempotency.v
IdempotencyTheorems.v
SchedulerTypes.v
Scheduler.v
SchedulerFacts.v
SchedulerHistory.v
SchedulerTheorems.v
SchedulerLiveness.v
Supervisor.v
Inbox.v
InboxTheorems.v
Pgmq.v
PgmqTheorems.v
