(* ===== verification/Prelude.v ===== *)
(** * Omnius: a verification library

    Omnius is a workspace of Rust crates from which services are assembled.  The
    library models the crates that carry the program's own decisions: calls to
    language models, authorization, feature flags, delivery of real-time messages,
    durable tasks of the model context protocol, jobs and events with the
    transactional outbox that publishes them, requests that may be repeated,
    durable schedules, and the supervision of long-lived tasks.  Paths below are under [src/crates/].

    ** The parts and how they interact

    - [llm-core] describes requests, responses and provider errors, and keeps the
      registry of what each exact model revision can do ([capability.rs]).
    - [llm-routing] turns a request into a choice of model: a route definition
      lists candidates ([definition.rs]); selection filters them against the route,
      the request and the registry, ranks what is left and takes a permit from the
      circuit breaker ([selection.rs], [circuit.rs]); retries and hedges are
      decided by policy ([retry.rs], [hedge.rs]); a fallback to another candidate
      must be proved harmless ([fallback.rs]); readiness reports whether required
      routes can be served ([readiness.rs]).
    - [llm-usage-ledger] reserves budget before a call and settles it afterwards:
      exact amounts ([amount.rs]), reservations with their events ([types.rs],
      [model.rs]), a repository contract with an in-memory implementation
      ([repository.rs], [testing.rs]) and the service that runs transitions as
      compare-and-set loops ([service.rs]).
    - [llm-streaming] turns provider output into one sequenced, bounded stream and
      validates such streams ([event.rs]), after coalescing text ([coalesce.rs]).
    - [llm-tool-runtime] keeps the budget of an agent loop ([budget.rs]); it, the
      [validation] crate and [llm-structured-output] check the shape of JSON values
      before they use them ([runtime.rs], [lib.rs], [json_shape.rs]).
    - [realtime-core] keeps the connections of a process and their subscriptions
      ([registry.rs]) and a bounded queue of messages for each ([delivery.rs]): a
      publisher walks the subscriptions of a topic, reserves room and admits its
      message, which reaches the client while its subscription is still current.
    - [auth-core] holds principals with their scopes, and [authz-basic] decides
      whether a principal may act on a resource ([lib.rs] of both).
    - [mcp-tasks] runs tool calls that outlive their request: the state machine of a
      task and the rounds in which a tool asks its client for input ([domain.rs]),
      the transactions that keep tasks, leases, delivery receipts of the [inbox]
      crate and outbox events in step ([postgres.rs], [ports.rs]), the service a
      client talks to and the worker that executes ([service.rs], [worker.rs]).
    - [feature-flags] evaluates typed flags: keys and bounded values ([flag.rs]),
      contexts ([context.rs]), providers ([provider.rs]) and the evaluator, which
      caches answers and falls back to a default ([evaluator.rs], [exposure.rs]).
    - [jobs-core] is the contract between those who ask for background work and those
      who do it: bounded names ([text.rs]), policies with their retry schedule, the
      envelopes of jobs and events, deliveries and typed handlers ([lib.rs]).
    - [jobs-pgmq] runs those jobs on queues in the database: it leases a message, runs its
      handler once and archives, delays or buries the message while the lease is still its
      own ([lib.rs]).
    - [outbox] stores events in the transaction that causes them; relays claim them
      under a lease, publish them and settle them ([lib.rs]).
    - [postgres] repeats a transaction that failed for a transient reason
      ([transaction.rs]); [idempotency] remembers in the caller's transaction which
      request was started and how it was answered ([lib.rs]), and the creation handler
      of [reference-api] is built from both.
    - [scheduler] turns calendars into jobs: definitions and configuration
      ([types.rs]), plans of occurrences ([calendar.rs]), the transactions that
      administer schedules, claim them, store their runs and hand them to the queue
      ([repository.rs]), and the gate every execution passes ([handler.rs]).

    - [inbox] remembers in the consumer's transaction which event of which producer was
      received and processed, and forgets it after its retention ([lib.rs]).
    - [runtime] supervises the long-lived tasks of a service: it restarts them, stops the
      service when a required one is gone, and ends them all within their deadlines
      ([lib.rs]).  The cleanup of the inbox is such a task.

    ** Files

    Shared: [Prelude] (results, the state-with-errors monad [ST], automation,
    lists), [Machine] (integers at their width, [Duration] in nanoseconds, [Instant]
    as an integer), [Text] (UTF-8 byte strings), [Ordered] (sorting, removal of
    duplicates and binary search of slices).

    Routing: [Capability] models [capability.rs]; [LlmRequest] the fields of
    requests and provider errors that routing reads; [Circuit] all of [circuit.rs];
    [Retry] both [retry.rs] and [hedge.rs]; [RouteDefinition] models
    [definition.rs] and the fallback edges of [fallback.rs]; [Selection],
    [Fallback] and [Readiness] the files of those names.  [CircuitFacts],
    [CircuitProtocol], [SelectionFacts] and [SelectionTheorems] hold their proofs.

    Ledger: [LedgerAmount], [LedgerModel], [LedgerRepository] (the trait as the
    class [UsageLedgerRepository] with its contract [LawfulRepository], which lets a
    repository be unavailable, and the in-memory repository), [LedgerMemory] (the
    in-memory repository satisfies the contract, alone and behind a connection that
    may fail before or after a call takes effect), [LedgerService] (the service, proved against the contract only);
    [LedgerFacts] and [LedgerTheorems] hold lemmas and the store's theorems.

    Streaming: [Stream] models [event.rs] and [Coalesce] models [coalesce.rs];
    [StreamFacts], [StreamTheorems] and [StreamTermination] hold the proofs.

    Tools and JSON: [LoopBudget] models [budget.rs]; [JsonShape] the JSON walks of
    the three crates, with [JsonShapeTheorems].

    Real-time delivery: [RealtimeRegistry] models [registry.rs], its proofs are in
    [RealtimeRegistryTheorems]; [RealtimeDelivery]
    models [delivery.rs], with [RealtimeDeliveryFacts], [RealtimeDeliverySteps] and
    [RealtimeDeliveryTheorems].

    Authorization: [AuthCore] and [Authorization], with [AuthorizationTheorems].

    Tasks: [TaskDomain] models [domain.rs]; [TaskStore] the rows, the constraints
    and trigger of [migrations/2026082808_create_mcp_tasks.sql] and the inbox
    receipts; [TaskRepository] the methods of [postgres.rs]; [TaskService] the
    service and worker.  [TaskInvariant] states the store's invariant [store_ok];
    [TaskFacts], [TaskSteps] and [TaskSafety] prove that
    every method keeps it, [TaskProgress] that no method fails on a healthy store,
    [TaskHistory] how rows develop.  [TaskTheorems], [TaskServiceTheorems] and
    [TaskLimits] hold the theorems and [TaskExamples] a concrete history.

    Feature flags: [FlagValues] models [flag.rs]; [FlagEvaluation] the contexts,
    providers, the evaluator and the exposure records; [FlagEvaluationTheorems] holds
    the proofs.

    Jobs and events: [JobPolicy] models [text.rs] and the policies of [jobs-core],
    with [JobBackoff] for the retry schedule; [JobWire] the envelopes of jobs, their
    deliveries and the typed handler, with [JobTheorems]; [EventWire] metadata and
    event envelopes, with [EventTheorems].  [Pgmq] models the provider of [jobs-pgmq] and
    [PgmqTheorems] holds its histories and theorems.

    Outbox: [Outbox] models the crate's statements on the table of
    [migrations/2026082313_create_outbox_and_inbox.sql] and the relay's treatment of
    a batch; [OutboxHistory] has lemmas and the step relation over all
    transactions and its invariant, [OutboxTheorems] the theorems and a concrete
    history.

    Repeated requests: [Transactions] models [transaction.rs] with its theorem;
    [Idempotency] the idempotency crate, its table in
    [migrations/2026082302_add_idempotency_and_versions.sql] and the creation handler,
    with [IdempotencyTheorems].

    Scheduler: [SchedulerTypes] models [types.rs] and [calendar.rs]; [Scheduler] the
    tables of [migrations/2026082314_create_durable_schedules.sql], [repository.rs] and
    [handler.rs].  [SchedulerFacts] says what each transaction does, [SchedulerHistory]
    has the step relation, sorts its steps and keeps the invariant; [SchedulerTheorems]
    and [SchedulerLiveness] hold the theorems and a concrete history.

    Supervision and inbox: [Supervisor] models [lib.rs] of [runtime] with its theorems;
    [Inbox] the inbox crate and its table, with [InboxTheorems], which goes from the
    event envelope of [EventWire] to the processed receipt.

    ** How the code is read

    A method on [&mut self] that returns a [Result] is an [ST] computation: an
    error keeps the mutations made before it, so that atomicity is proved and not
    built in.  A database transaction is a [TaskStore.Txn] or [Scheduler.Tx]
    computation, which rolls back.  A [BTreeMap] or [HashMap] is a [gmap], a set a [gset], a [Vec] or
    [VecDeque] a list.  Integers are [Z] with their width written out where the code
    adds, subtracts or casts.  Panics that the code could reach (an index, an
    [unreachable!]) are values ([selection_fault], [Panicked]), so that their
    absence is a theorem.

    Concurrency is interleaving.  The circuit breaker's book is behind one mutex and
    every operation is one critical section: [CircuitProtocol.step] is a step
    relation over the book and all permits in flight, for requests a parameter
    describes; the bounds ask that a request names each scope once.  Selection locks the book
    several times: its state is [Selection.world], the shared book with the steps
    other clients take before each lock.  The ledger service calls its repository
    several times: [LedgerService.shared] holds the store and the rivals' actions
    before each call, which are only assumed to respect the contract; a call may find
    the repository unavailable, with or without having taken effect.  The slots of
    a loop budget are an atomic: [LoopBudget.step] interleaves the reads and the
    exchanges of all workers.  The delivery hub has one definition per critical
    section, and its theorems hold for every order of these sections and of the
    registry's methods in which no connection is opened a second time
    ([RealtimeDeliveryFacts.opens_once]).  Evaluations of flags interleave between their
    look at the cache, the provider's answer and the exposure
    ([FlagEvaluationTheorems.section]), with the requests and answers as history.  Task transactions lock the rows they change and are steps of
    [TaskTheorems.step]; between two calls of a service method or of the worker any
    number of other transactions may run ([TaskService.call]).  The outbox's
    statements are steps of [OutboxHistory.step], and a relay's [Turn] says what other
    transactions do before each event of its batch is settled
    ([OutboxTheorems.alongside]: any steps of the relation).  The idempotency store
    and the scheduler have step relations of the same kind
    ([IdempotencyTheorems.step], [SchedulerHistory.step]); a claim of a record names
    what its rivals do while it waits for the lock, and a scheduled delivery what they do
    before each of its statements.

    Consumers of the inbox are steps of [InboxTheorems.step], and workers on PGMQ of
    [PgmqTheorems.step]: each attempt is a flight from its lease to its settlement, which
    may be dropped at any point.  The supervisor is finer:
    [Supervisor.exec] performs one access to shared state of a task, of the coordinator
    or of a control, so that a run is a list of labels and covers every interleaving of
    threads between two accesses.

    Code outside the repository is a class with laws: [serde_json] is
    [JobWire.SerdeJson] with [SerdeJsonLaws] (reading back what was written up to its
    recursion limit, refusing what is deeper, and skipping a field at any depth), UUID text [JobPolicy.UuidText] with [UuidLaws], the database's
    conversions [Outbox.Database] with [DatabaseLaws], cron expressions and time zones
    [SchedulerTypes.Calendar] with [CalendarLaws], the conversion of a lifetime
    [Idempotency.TtlInterval] with [TtlLaws], digests and raw JSON values
    [Inbox.PayloadDigest] with [PayloadLaws], the functions of the PGMQ extension
    [Pgmq.Pgmq] with [PgmqTheorems.PgmqLaws] and digests [Pgmq.Sha256], a product in binary floating point
    [Supervisor.FloatDuration].  Each has an instance in the
    files' examples.

    ** What the theorems show

    - Circuit breaker: under every interleaving of requests that name each scope once,
      the probes in flight of a half-open scope respect the policy and no slot leaks
      ([CircuitProtocol.repeated_scope_overruns] is a request that does not); memory is bounded; acquiring is
      all or nothing; recording keeps exactly the reference window of evidence and
      opens exactly at the threshold; a completed probe closes, reopens or gives its
      slot back; isolated failures change no availability; scope keys do not
      collide.
    - Selection: sound under interference, optimal and complete without it, always
      with a report.  [SelectionFacts.serves] is the specification of a candidate
      that may serve a request, independent of the evaluation order of the code.
    - Fallback, readiness, retry: exact characterisations of when they say yes.
    - Ledger: hard ceilings hold, refusals are justified, reserving is idempotent,
      tenants are isolated, the event log balances, snapshots restore; every
      transition call settles under any lawful interference, or reports the outage
      that stopped it; commit and release exclude each other, a commit charges exactly what was used.
    - Streaming: the assembler refines a protocol stated on event histories
      ([StreamFacts.permitted]), and an event is handed out exactly when it is
      admissible, a slot is left and the bytes fit; streams have one shape, stay within their limits,
      have consistent tool calls and part life cycles; the validator accepts exactly
      what an assembler hands out; a started stream can always be ended; coalescing
      preserves text.
    - Loop budgets: no ceiling is ever passed and no slot leaks under any
      interleaving; each operation succeeds exactly when there is room.
    - JSON: the stack loops end, accept exactly what a recursive reference accepts,
      agree across crates and work in bounded memory.
    - Real-time delivery: the registry's indexes agree under any order of calls, a
      subscription that replaces another is never confused with it, the cursor
      visits every subscription of a topic once; while no connection is opened twice the
      hub's counters are the sums of its queues and within their limits, a revocation is refused only when
      revocations fill the queue, a held reservation is honoured, messages are
      received in order, and draining ends in one of two ways.
    - Authorization: an action is allowed exactly when a rule names it and the
      principal has what the rule asks; the decision agrees with a reference that
      searches without binary search or sorting.
    - Tasks: the store's invariant holds under every interleaving; on a healthy store,
      outside the last partial microsecond of a lifetime, no transaction fails, so what the code writes satisfies what the database and
      the decoder check; leases fence superseded workers; finished tasks never
      change; creation is idempotent; a claim carries the answered rounds; a
      successful cancellation has taken effect.  [TaskLimits] shows where the code
      falls short: an answer too large to read back, a redelivery acknowledged too
      early, an execution given up too late.
    - Feature flags: an evaluation is justified by the provider's answer to its request,
      a live answer the provider gave to the same request before, or the default; the cache stays within its bound, keys are exactly the documented
      grammar.
    - Jobs and events: a job or event that is encoded is read back unchanged, within the
      nesting that can be decoded (a deeper job fails for good), and a
      handler runs for its own delivery only; metadata stays within its bounds and a
      refused insertion changes nothing; the retry schedule ends for every sample and
      stays within its ceiling.
    - Jobs on PGMQ: a message that was sent stays accounted for, whatever workers die and
      transactions fail; each attempt has its own read count, no more start than the
      policy allows, and one whose lease was superseded changes nothing; an attempt that
      comes to its storage before its deadline settles its message as its outcome asks.
    - Outbox: no event is lost under any interleaving; a lease that was superseded can
      neither publish nor reschedule; claims serve the backlog in order; a relay that
      keeps to its timeouts settles its whole batch, alongside any other transactions,
      while its own statements do not fail; the backlog's categories add up.
    - Repeated requests: a repeated transaction takes effect once and stops within its
      attempts; an identity is started once per window; a claim answers what the history
      of its identity says; a creation happens once and is replayed exactly (with the
      store disabled, it is performed each time and nothing is recorded).
    - Scheduler: while a schedule keeps its revision its runs are exactly what its
      calendar and its policy ask for, one per occurrence; a claim that still owns its
      schedule always materializes, so that none gets stuck; live executions never
      exceed the schedule's limit; work that succeeded stays done; every revision is
      audited once.

    - Inbox: an event is processed once in its retention, and a repeated delivery is
      answered as a duplicate or a conflict; what a publisher encodes can be claimed and
      completed.
    - Supervisor: while shutdown is not requested every required task is there, unless
      the application's pre-drain hook panicked for it; shutdown
      ends after a bounded number of accesses with every task gone, whatever the tasks
      do; a task that was not aborted is reported with its final status, one that was
      aborted may be reported as running.

    ** Bounds and fuel

    All definitions are total.  The stack loops of [JsonShape] take fuel, and the
    number of nodes of the value is proved to be enough.  The compare-and-set loops
    run for the code's own sixteen attempts
    ([LedgerService.MAX_COMPARE_AND_SET_ATTEMPTS]), which is proved to be enough: a
    lost race means a rival moved the reservation forward, and no life cycle has more
    than two moves.  The jitter's rejection loop takes fuel: [JobBackoff] shows
    that one redraw is enough for every policy and sample, by enumerating the words its
    mixing function could map from one rejected sample to another.  Cancelling a task
    makes the code's three attempts.  Times of tasks are nanoseconds, cut to
    microseconds where the database keeps them ([TaskStore.postgres_timestamp]).  Repeated transactions run for the configured
    attempts, which is proved to be enough, and catching up for the policy's number of
    runs.  The circuit theorems count operations up to [u64::MAX], so that probe generations do not
    wrap.  Times are unbounded integers, except that a task's instants end with the
    last [OffsetDateTime]: overflow of an [Instant] is a panic of the standard
    library that takes centuries of uptime.

    ** What is not modelled

    Text of errors and [Debug] output; JSON schemas and serde, except for what
    [Stream], [TaskDomain] and [JobWire] need of it, which are parameters; SQL of the ledger
    ([postgres.rs]); sealing of task documents (a parameter that may refuse); wakers,
    metrics and the encoding of real-time messages; the bounded channel of
    [delivery.rs] in streaming, the polling tasks of outbox and scheduler and all other
    asynchronous plumbing; the other crates of the workspace.  Of these the
    polling loop of [jobs-pgmq], the repair of [llm-structured-output], the catalogue of
    [llm-tool-runtime] and [mcp-subscriptions] have decisions of their own; rate limits,
    caches, schema validation, providers, brokers and authentication back ends are
    mostly third-party code behind adapters. *)

From stdpp Require Export prelude gmap strings list sorting.
From Stdlib Require Export ZArith Lia.
#[global] Open Scope Z_scope.
#[global] Set Default Goal Selector "!".

(** ** Results

    [result E A] is Rust's [Result<A, E>]; the error type comes first so that
    [result E] is a monad. *)
Inductive result (E A : Type) : Type :=
| Ok (a : A)
| Err (e : E).
Arguments Ok {E A} a.
Arguments Err {E A} e.

#[global] Instance result_ret {E} : MRet (result E) := fun A a => Ok a.
#[global] Instance result_bind {E} : MBind (result E) :=
  fun A B f m => match m with Ok a => f a | Err e => Err e end.
#[global] Instance result_fmap {E} : FMap (result E) :=
  fun A B f m => match m with Ok a => Ok (f a) | Err e => Err e end.

(** [Result::map_err] and [Option::ok_or]. *)
Definition map_err {E F A} (f : E -> F) (m : result E A) : result F A :=
  match m with Ok a => Ok a | Err e => Err (f e) end.
Definition ok_or {E A} (o : option A) (e : E) : result E A :=
  match o with Some a => Ok a | None => Err e end.
(** An [if c { return Err(e); }] guard. *)
Definition guard_err {E} (c : bool) (e : E) : result E unit :=
  if c then Err e else Ok tt.
Definition is_ok {E A} (m : result E A) : bool :=
  match m with Ok _ => true | Err _ => false end.

(** ** State with errors

    [ST S E A] models a method that takes [&mut self] and returns a
    [Result<A, E>]: an error keeps every mutation made before it, as [?] does in
    Rust, so that atomicity is a theorem about an operation and not a feature of
    the encoding. *)
Definition ST (S E A : Type) : Type := S -> result E A * S.

#[global] Instance st_ret {S E} : MRet (ST S E) := fun A a s => (Ok a, s).
#[global] Instance st_bind {S E} : MBind (ST S E) :=
  fun A B f m s => match m s with (Ok a, s') => f a s' | (Err e, s') => (Err e, s') end.
Definition st_get {S E} : ST S E S := fun s => (Ok s, s).
Definition st_put {S E} (s : S) : ST S E unit := fun _ => (Ok tt, s).
Definition st_modify {S E} (f : S -> S) : ST S E unit := fun s => (Ok tt, f s).
Definition st_throw {S E A} (e : E) : ST S E A := fun s => (Err e, s).
(** Running a computation that only reads the state ([&self]). *)
Definition st_read {S E A} (f : S -> result E A) : ST S E A := fun s => (f s, s).

(** ** Automation *)
Create HintDb omnius.

(** Splits the first [match] of the hypothesis [H] on its scrutinee. *)
Ltac split_match_in H :=
  match type of H with
  | context [match ?x with _ => _ end] =>
      lazymatch x with
      | context [match _ with _ => _ end] => fail
      | _ => let E := fresh "E" in destruct x eqn:E
      end
  end.
(** Splits every [match] of [H], discarding the impossible branches. *)
Ltac split_matches H :=
  repeat (split_match_in H; simplify_eq H || idtac; try discriminate H).
(** Turns boolean tests in the context into propositions, then runs [lia]. *)
Ltac blia := repeat match goal with
  | H : (_ && _) = true |- _ => apply andb_prop in H as [? ?]
  | H : (_ || _) = false |- _ => apply orb_false_elim in H as [? ?]
  | H : negb _ = true |- _ => apply negb_true_iff in H
  | H : negb _ = false |- _ => apply negb_false_iff in H
  end; lia.

(** ** Results, options *)
Lemma bind_ok {E A B} (m : result E A) (f : A -> result E B) b :
  m ≫= f = Ok b -> exists a, m = Ok a /\ f a = Ok b.
Proof. destruct m; simpl; [eauto | discriminate]. Qed.

Lemma guard_ok {E} c (e : E) u : guard_err c e = Ok u -> c = false.
Proof. by destruct c. Qed.

Lemma ok_or_ok {E A} (o : option A) (e : E) a : ok_or o e = Ok a -> o = Some a.
Proof. destruct o; simpl; congruence. Qed.

Lemma map_err_ok {E F A} (f : E -> F) (m : result E A) a :
  map_err f m = Ok a -> m = Ok a.
Proof. destruct m; simpl; congruence. Qed.

(** Peels the binds, guards and [ok_or]s of a successful [result] computation. *)
Ltac inv_ok :=
  repeat match goal with
  | H : _ ≫= _ = Ok _ |- _ =>
      let a := fresh "v" in let H1 := fresh "Hok" in let H2 := fresh "Hok" in
      apply bind_ok in H as (a & H1 & H2)
  | H : guard_err _ _ = Ok _ |- _ => apply guard_ok in H
  | H : ok_or _ _ = Ok _ |- _ => apply ok_or_ok in H
  | H : map_err _ _ = Ok _ |- _ => apply map_err_ok in H
  | H : Ok _ = Ok _ |- _ => injection H as H
  | H : Err _ = Ok _ |- _ => discriminate H
  | H : mret _ = Ok _ |- _ => injection H as H
  end.

(** ** Lists *)
Section lists.
Context {A : Type}.
Implicit Types (l : list A) (p : A -> bool).

(** [VecDeque::pop_front] in a [while] loop over the front element. *)
Fixpoint drop_while p l : list A :=
  match l with
  | [] => []
  | x :: l' => if p x then drop_while p l' else l
  end.

Fixpoint take_while p l : list A :=
  match l with
  | [] => []
  | x :: l' => if p x then x :: take_while p l' else []
  end.

(** The last [n] elements: what is left after popping the front while the length
    exceeds [n]. *)
Definition lastn (n : nat) l : list A := drop (length l - n) l.

Lemma take_drop_while p l : take_while p l ++ drop_while p l = l.
Proof. induction l as [|x l IH]; simpl; [done|]. destruct (p x); simpl; congruence. Qed.

Lemma drop_while_suffix p l : drop_while p l `suffix_of` l.
Proof. exists (take_while p l). by rewrite take_drop_while. Qed.

Lemma drop_while_length p l : (length (drop_while p l) <= length l)%nat.
Proof. apply suffix_length, drop_while_suffix. Qed.

Lemma elem_of_drop_while p l x : x ∈ drop_while p l -> x ∈ l.
Proof.
  intros H. destruct (drop_while_suffix p l) as [k ->]. apply elem_of_app; eauto.
Qed.

Lemma drop_while_head p l x k : drop_while p l = x :: k -> p x = false.
Proof. induction l as [|y l IH]; simpl; [done|]. destruct (p y) eqn:E; naive_solver. Qed.

Lemma drop_while_idem p l : drop_while p (drop_while p l) = drop_while p l.
Proof.
  destruct (drop_while p l) as [|x k] eqn:E; [done|]. simpl.
  by rewrite (drop_while_head _ _ _ _ E).
Qed.

Lemma lastn_length n l : (length (lastn n l) <= n)%nat.
Proof. unfold lastn. rewrite length_drop. lia. Qed.

Lemma lastn_suffix n l : lastn n l `suffix_of` l.
Proof. exists (take (length l - n) l). unfold lastn. by rewrite take_drop. Qed.

Lemma lastn_all n l : (length l <= n)%nat -> lastn n l = l.
Proof. intros. unfold lastn. by replace (length l - n)%nat with 0%nat by lia. Qed.

Lemma elem_of_lastn n l x : x ∈ lastn n l -> x ∈ l.
Proof. intros H. destruct (lastn_suffix n l) as [k ->]. apply elem_of_app; eauto. Qed.

Lemma StronglySorted_suffix (R : relation A) l k :
  l `suffix_of` k -> StronglySorted R k -> StronglySorted R l.
Proof.
  intros [j ->]. induction j as [|x j IH]; simpl; [done|].
  inversion 1; subst; auto.
Qed.

(** On a list sorted for [R], dropping the prefix that satisfies a predicate
    closed under [R]-predecessors is filtering it out. *)
Lemma drop_while_filter (R : relation A) p l :
  (forall x y, R x y -> p y = true -> p x = true) ->
  StronglySorted R l ->
  drop_while p l = filter (fun x => p x = false) l.
Proof.
  intros Hclosed. induction l as [|x l IH]; intros Hs; [done|].
  inversion Hs as [|? ? Hs' Hall]; subst. simpl.
  destruct (p x) eqn:Ep.
  - rewrite filter_cons_False by congruence. by apply IH.
  - rewrite filter_cons_True by done. f_equal.
    clear IH Hs. induction l as [|y l IHl]; [done|].
    inversion Hall; inversion Hs'; subst.
    rewrite filter_cons_True; [f_equal; by apply IHl|].
    destruct (p y) eqn:Ey; [|done]. rewrite (Hclosed x y) in Ep; done.
Qed.

End lists.

#[export] Hint Resolve drop_while_suffix lastn_suffix : omnius.

(** ** Sums over maps *)
Section map_sum.
Context {A : Type}.
Implicit Types (f g : A -> Z) (m : gmap Z A).

Definition map_sum f m : Z := map_fold (fun _ x acc => f x + acc) 0 m.

Lemma map_sum_empty f : map_sum f ∅ = 0.
Proof. apply map_fold_empty. Qed.
Lemma map_sum_insert_None f m i x : m !! i = None -> map_sum f (<[i:=x]> m) = f x + map_sum f m.
Proof. intros H. unfold map_sum. rewrite map_fold_insert_L; [done | intros; lia | done]. Qed.
Lemma map_sum_delete f m i x : m !! i = Some x -> map_sum f (delete i m) = map_sum f m - f x.
Proof.
  intros H. rewrite <- (insert_delete_id m i x H) at 2.
  rewrite map_sum_insert_None by apply lookup_delete_eq. lia.
Qed.
Lemma map_sum_insert_Some f m i x y : m !! i = Some x -> map_sum f (<[i:=y]> m) = map_sum f m - f x + f y.
Proof.
  intros H. rewrite <- insert_delete_eq, map_sum_insert_None by apply lookup_delete_eq.
  rewrite (map_sum_delete f m i x H). lia.
Qed.
Lemma map_sum_nonneg f m : (forall i x, m !! i = Some x -> 0 <= f x) -> 0 <= map_sum f m.
Proof.
  induction m as [|i x m Hi IH] using map_ind; intros H; [by rewrite map_sum_empty|].
  rewrite map_sum_insert_None by done.
  assert (0 <= f x) by (apply (H i); apply lookup_insert_eq).
  assert (0 <= map_sum f m); [|lia]. apply IH. intros j y Hj. apply (H j).
  rewrite lookup_insert_ne by congruence. done.
Qed.
Lemma map_sum_ge f m i x : (forall i x, m !! i = Some x -> 0 <= f x) -> m !! i = Some x -> f x <= map_sum f m.
Proof.
  intros Hpos H. rewrite <- (insert_delete_id m i x H), map_sum_insert_None by apply lookup_delete_eq.
  assert (0 <= map_sum f (delete i m)); [|lia].
  apply map_sum_nonneg. intros j y [_ Hj]%lookup_delete_Some. eauto.
Qed.
Lemma map_sum_fmap f g m : (forall x, f x = g x) -> map_sum f m = map_sum g m.
Proof.
  intros H. induction m as [|i x m Hi IH] using map_ind; [by rewrite !map_sum_empty|].
  rewrite !map_sum_insert_None, H, IH by done. done.
Qed.
Lemma map_sum_zero f m : (forall i x, m !! i = Some x -> f x = 0) -> map_sum f m = 0.
Proof.
  induction m as [|i x m Hi IH] using map_ind; intros H; [apply map_sum_empty|].
  rewrite map_sum_insert_None by done. rewrite (H i x) by apply lookup_insert_eq.
  rewrite IH; [done|]. intros j y Hj. apply (H j). rewrite lookup_insert_ne by congruence. done.
Qed.
End map_sum.

Lemma map_sum_map {A B} (f : B -> Z) (h : A -> B) (m : gmap Z A) :
  map_sum f (h <$> m) = map_sum (fun x => f (h x)) m.
Proof.
  induction m as [|i x m Hi IH] using map_ind; [by rewrite fmap_empty, !map_sum_empty|].
  rewrite fmap_insert, !map_sum_insert_None, IH by (done || by rewrite lookup_fmap, Hi). done.
Qed.
Lemma map_sum_rel {A B} (f : A -> Z) (g : B -> Z) (m : gmap Z A) (m' : gmap Z B) :
  (forall i, f <$> m !! i = g <$> m' !! i) -> map_sum f m = map_sum g m'.
Proof.
  intros H. etrans; [symmetry; exact (map_sum_map (fun z => z) f m)|].
  etrans; [|exact (map_sum_map (fun z => z) g m')].
  f_equal. apply map_eq. intros i. by rewrite !lookup_fmap.
Qed.
