(* ===== verification/Machine.v ===== *)
(** * Machine integers, durations and instants

    Unsigned integers are [Z] values with the Rust operations the sources use
    written out at their width.  A [Duration] is its total number of nanoseconds,
    between [0] and [Duration::MAX]; an [Instant] is a number of nanoseconds on the
    process's monotonic clock (the clock's own end of range, hundreds of years
    away on every supported platform, is not modelled). *)
From S2P Require Import Prelude.

(** ** Widths *)
Definition u8_max : Z := 2 ^ 8 - 1.
Definition u16_max : Z := 2 ^ 16 - 1.
Definition u32_max : Z := 2 ^ 32 - 1.
Definition u64_max : Z := 2 ^ 64 - 1.
Definition u128_max : Z := 2 ^ 128 - 1.
Definition i16_max : Z := 2 ^ 15 - 1.
Definition i32_max : Z := 2 ^ 31 - 1.
Definition i64_max : Z := 2 ^ 63 - 1.
(** [usize] on the supported 64-bit targets. *)
Definition usize_max : Z := u64_max.

Definition in_range (max x : Z) : Prop := 0 <= x <= max.
Abbreviation is_u64 := (in_range u64_max).
Abbreviation is_u32 := (in_range u32_max).
Abbreviation is_u16 := (in_range u16_max).
Abbreviation is_usize := (in_range usize_max).

(** ** Operations on unsigned integers of maximum [max] *)
Definition checked_add (max a b : Z) : option Z :=
  if a + b <=? max then Some (a + b) else None.
Definition checked_sub (a b : Z) : option Z :=
  if b <=? a then Some (a - b) else None.
Definition saturating_add (max a b : Z) : Z := Z.min (a + b) max.
Definition saturating_sub (a b : Z) : Z := Z.max (a - b) 0.
Definition saturating_mul (max a b : Z) : Z := Z.min (a * b) max.
Definition wrapping_add (max a b : Z) : Z := (a + b) mod (max + 1).

Lemma checked_add_Some max a b c :
  checked_add max a b = Some c <-> c = a + b /\ a + b <= max.
Proof.
  unfold checked_add. destruct (Z.leb_spec (a + b) max); split.
  - intros [=]. lia.
  - by intros [-> _].
  - done.
  - lia.
Qed.

Lemma checked_add_None max a b : checked_add max a b = None <-> max < a + b.
Proof. unfold checked_add. destruct (Z.leb_spec (a + b) max); split; intros; done || lia. Qed.

Lemma checked_sub_Some a b c : checked_sub a b = Some c <-> c = a - b /\ b <= a.
Proof.
  unfold checked_sub. destruct (Z.leb_spec b a); split.
  - intros [=]. lia.
  - by intros [-> _].
  - done.
  - lia.
Qed.

Lemma wrapping_add_small max a b :
  0 <= a + b <= max -> wrapping_add max a b = a + b.
Proof. intros. unfold wrapping_add. apply Z.mod_small. lia. Qed.

(** ** Durations *)
Module Duration.
Definition nanos_per_sec : Z := 1000000000.
(** [Duration::MAX]: [u64::MAX] seconds and [999_999_999] nanoseconds. *)
Definition MAX : Z := u64_max * nanos_per_sec + (nanos_per_sec - 1).
Definition ZERO : Z := 0.
Definition from_secs (s : Z) : Z := s * nanos_per_sec.
Definition from_millis (ms : Z) : Z := ms * 1000000.
Definition is_zero (d : Z) : bool := d =? 0.
(** [Duration::new secs nanos] for [nanos] below one second. *)
Definition new (secs nanos : Z) : Z := secs * nanos_per_sec + nanos.
Definition saturating_add (a b : Z) : Z := Z.min (a + b) MAX.
Definition saturating_sub (a b : Z) : Z := Z.max (a - b) 0.
Definition saturating_mul (a b : Z) : Z := Z.min (a * b) MAX.
Definition valid (d : Z) : Prop := 0 <= d <= MAX.
End Duration.
Abbreviation is_duration := Duration.valid.

(** [Instant::saturating_duration_since]. *)
Definition saturating_duration_since (later earlier : Z) : Z := Z.max (later - earlier) 0.

Lemma Duration_from_millis_valid ms : is_u64 ms -> is_duration (Duration.from_millis ms).
Proof.
  unfold in_range, is_duration, Duration.valid, Duration.from_millis, Duration.MAX,
    Duration.nanos_per_sec. lia.
Qed.
