(* ===== verification/Text.v ===== *)
(** * Text: UTF-8 byte strings

    A Rust [String] is its sequence of UTF-8 bytes, which a Rocq [string] is too:
    [len] is [String.length].  Predicates on characters are read off the bytes:
    on valid UTF-8 the lead byte [0xC2] occurs only at the start of a two-byte
    character, so the two tests below agree with [char::is_control] and with
    [str::trim]. *)
From S2P Require Import Prelude.
From Stdlib Require Import Ascii.

(** [str::len]. *)
Definition len (s : string) : Z := Z.of_nat (String.length s).
Definition is_empty (s : string) : bool :=
  match s with EmptyString => true | _ => false end.
Definition byte_val (c : ascii) : Z := Z.of_N (N_of_ascii c).

Definition is_ascii_alphanumeric (c : ascii) : bool :=
  let b := byte_val c in
  ((48 <=? b) && (b <=? 57)) || ((65 <=? b) && (b <=? 90)) || ((97 <=? b) && (b <=? 122)).

(** [s.bytes().all(p)] *)
Fixpoint all_bytes (p : ascii -> bool) (s : string) : bool :=
  match s with
  | EmptyString => true
  | String c s' => p c && all_bytes p s'
  end.

(** [bytes.first().is_some_and(p)] *)
Definition first_byte (p : ascii -> bool) (s : string) : bool := match s with String c _ => p c | EmptyString => false end.

(** [str::starts_with]. *)
Fixpoint starts_with (pre s : string) : bool :=
  match pre, s with
  | EmptyString, _ => true
  | String a pre', String b s' => if ascii_dec a b then starts_with pre' s' else false
  | String _ _, EmptyString => false
  end.

(** [s.chars().any(char::is_control)]: category Cc is U+0000..U+001F, U+007F and
    U+0080..U+009F, the latter encoded as [0xC2 0x80..0x9F]. *)
Fixpoint has_control (s : string) : bool :=
  match s with
  | EmptyString => false
  | String c s' =>
      let b := byte_val c in
      (b <? 32) || (b =? 127) ||
      ((b =? 194) && match s' with
                     | String d _ => (128 <=? byte_val d) && (byte_val d <=? 159)
                     | EmptyString => false
                     end) ||
      has_control s'
  end.

(** [s.trim().is_empty()]: every character has the Unicode property White_Space.
    Beside the one-byte blanks these are U+0085, U+00A0, U+1680, U+2000..U+200A,
    U+2028, U+2029, U+202F, U+205F and U+3000. *)
Definition blank1 (a : Z) : bool := ((9 <=? a) && (a <=? 13)) || (a =? 32).
Definition blank2 (a b : Z) : bool := (a =? 194) && ((b =? 133) || (b =? 160)).
Definition blank3 (a b c : Z) : bool :=
  ((a =? 225) && (b =? 154) && (c =? 128)) ||
  ((a =? 226) && (b =? 128) && (((128 <=? c) && (c <=? 138)) || (c =? 168) || (c =? 169) || (c =? 175))) ||
  ((a =? 226) && (b =? 129) && (c =? 159)) ||
  ((a =? 227) && (b =? 128) && (c =? 128)).
Fixpoint is_blank (s : string) : bool :=
  match s with
  | EmptyString => true
  | String c1 s1 =>
      if blank1 (byte_val c1) then is_blank s1 else
      match s1 with
      | String c2 s2 =>
          if blank2 (byte_val c1) (byte_val c2) then is_blank s2 else
          match s2 with
          | String c3 s3 =>
              blank3 (byte_val c1) (byte_val c2) (byte_val c3) && is_blank s3
          | EmptyString => false
          end
      | EmptyString => false
      end
  end.

(** [str::split] at every byte [sep] accepts: always at least one part. *)
Fixpoint split (sep : ascii -> bool) (s : string) : list string :=
  match s with
  | EmptyString => [EmptyString]
  | String c s' =>
      if sep c then EmptyString :: split sep s'
      else match split sep s' with
           | part :: parts => String c part :: parts
           | [] => [String c EmptyString]
           end
  end.
Definition is_ascii_lowercase (c : ascii) : bool := (97 <=? byte_val c) && (byte_val c <=? 122).
Definition is_ascii_digit (c : ascii) : bool := (48 <=? byte_val c) && (byte_val c <=? 57).
Definition is_byte (b : ascii) (c : ascii) : bool := Ascii.eqb b c.

(** [str::trim_start]: the bytes after the leading white space, as in [is_blank]. *)
Fixpoint trim_start (s : string) : string :=
  match s with
  | EmptyString => EmptyString
  | String c1 s1 =>
      if blank1 (byte_val c1) then trim_start s1 else
      match s1 with
      | String c2 s2 =>
          if blank2 (byte_val c1) (byte_val c2) then trim_start s2 else
          match s2 with
          | String c3 s3 => if blank3 (byte_val c1) (byte_val c2) (byte_val c3) then trim_start s3 else s
          | EmptyString => s
          end
      | EmptyString => s
      end
  end.
(** The last character is white space. *)
Fixpoint ends_blank (s : string) : bool :=
  match s with
  | EmptyString => false
  | String c1 s1 =>
      match s1 with
      | EmptyString => blank1 (byte_val c1)
      | String c2 s2 =>
          match s2 with
          | EmptyString => blank2 (byte_val c1) (byte_val c2)
          | String c3 EmptyString => blank3 (byte_val c1) (byte_val c2) (byte_val c3)
          | _ => false
          end || ends_blank s1
      end
  end.
(** [s.trim() == s] *)
Definition is_trimmed (s : string) : bool := bool_decide (trim_start s = s) && negb (ends_blank s).

(** ** Lemmas *)
Lemma len_nonneg s : 0 <= len s.
Proof. unfold len. lia. Qed.

Lemma len_app s t : len (s +:+ t) = len s + len t.
Proof.
  unfold len. induction s as [|c s IH]; [done|].
  change (String c s +:+ t) with (String c (s +:+ t)).
  cbn [String.length]. lia.
Qed.

Lemma is_empty_len s : is_empty s = true <-> len s = 0.
Proof. destruct s; unfold len; simpl; split; intros; try done; lia. Qed.

Lemma all_bytes_app p s t : all_bytes p (s +:+ t) = all_bytes p s && all_bytes p t.
Proof.
  induction s as [|c s IH]; [done|].
  change (String c s +:+ t) with (String c (s +:+ t)).
  simpl. rewrite IH. by rewrite andb_assoc.
Qed.

Lemma all_bytes_mono (p q : ascii -> bool) s : (forall c, p c = true -> q c = true) -> all_bytes p s = true -> all_bytes q s = true.
Proof. intros Hpq. induction s as [|c s IH]; simpl; [done|]. intros [Hc Hs]%andb_prop. by rewrite Hpq, IH. Qed.

Lemma string_app_assoc (s t u : string) : s +:+ (t +:+ u) = (s +:+ t) +:+ u.
Proof.
  induction s as [|c s IH]; [done|].
  change (String c s +:+ (t +:+ u)) with (String c (s +:+ (t +:+ u))).
  change ((String c s +:+ t) +:+ u) with (String c ((s +:+ t) +:+ u)).
  by rewrite IH.
Qed.

(** A separator byte outside the alphabet of [s1] and [s2] splits uniquely. *)
Lemma separator_inj (p : ascii -> bool) sep s1 s2 t1 t2 :
  p sep = false -> all_bytes p s1 = true -> all_bytes p s2 = true ->
  s1 +:+ String sep t1 = s2 +:+ String sep t2 -> s1 = s2 /\ t1 = t2.
Proof.
  intros Hsep. revert s2. induction s1 as [|c s1 IH]; intros [|d s2] H1 H2 Heq.
  - by injection Heq.
  - change (EmptyString +:+ String sep t1) with (String sep t1) in Heq.
    change (String d s2 +:+ String sep t2) with (String d (s2 +:+ String sep t2)) in Heq.
    injection Heq as -> _. simpl in H2. by rewrite Hsep in H2.
  - change (EmptyString +:+ String sep t2) with (String sep t2) in Heq.
    change (String c s1 +:+ String sep t1) with (String c (s1 +:+ String sep t1)) in Heq.
    injection Heq as -> _. simpl in H1. by rewrite Hsep in H1.
  - change (String c s1 +:+ String sep t1) with (String c (s1 +:+ String sep t1)) in Heq.
    change (String d s2 +:+ String sep t2) with (String d (s2 +:+ String sep t2)) in Heq.
    injection Heq as -> Heq. simpl in H1, H2.
    apply andb_prop in H1 as [_ H1], H2 as [_ H2].
    destruct (IH s2 H1 H2 Heq) as [-> ->]. done.
Qed.

(** A string over an alphabet does not contain a byte outside it. *)
Lemma separator_absent (p : ascii -> bool) sep s t :
  p sep = false -> all_bytes p s = true -> s <> t +:+ String sep EmptyString.
Proof.
  intros Hsep Hs ->. rewrite all_bytes_app in Hs. simpl in Hs. rewrite Hsep in Hs.
  by rewrite andb_false_r in Hs.
Qed.

#[export] Hint Resolve len_nonneg : omnius.
