(* ===== verification/Capability.v ===== *)
(** * The model capability registry of [crates/llm-core/src/capability.rs]

    Exact provider/model/revision declarations with their evidence, capability
    requirements, and [admit_exact], the admission every routing decision rests
    on.  A [BTreeSet] is a [gset], a [BTreeMap] a [gmap]: only membership and
    cardinality are observed. *)
From S2P Require Import Prelude Machine Text.

(** ** Capabilities *)
Inductive ModelCapability :=
| TextInput | ImageInput | AudioInput | VideoInput | FileInput | ResourceInput
| TextOutput | StructuredOutput | ImageOutput | AudioOutput | VideoOutput | FileOutput
| ResourceOutput | AnnotationOutput | ExecutionStepOutput
| StrictJsonSchema | StrictToolOutput | Tools | ParallelToolCalls | Streaming
| ResumableConversations | Citations | Grounding | TokenScores | SafetyMetadata
| SearchResults | ProviderExecutedSteps | ReasoningSummaries | OpaqueReasoningState
| Embeddings | Reranking | Transcription | SpeechGeneration | ImageGeneration
| VideoGeneration | PromptCaching | CacheControls.

(** Every capability in declaration order, the order of the derived [Ord]. *)
Definition all_capabilities : list ModelCapability :=
  [TextInput; ImageInput; AudioInput; VideoInput; FileInput; ResourceInput;
   TextOutput; StructuredOutput; ImageOutput; AudioOutput; VideoOutput; FileOutput;
   ResourceOutput; AnnotationOutput; ExecutionStepOutput;
   StrictJsonSchema; StrictToolOutput; Tools; ParallelToolCalls; Streaming;
   ResumableConversations; Citations; Grounding; TokenScores; SafetyMetadata;
   SearchResults; ProviderExecutedSteps; ReasoningSummaries; OpaqueReasoningState;
   Embeddings; Reranking; Transcription; SpeechGeneration; ImageGeneration;
   VideoGeneration; PromptCaching; CacheControls].

Definition capability_index (c : ModelCapability) : nat :=
  match c with
  | TextInput => 0 | ImageInput => 1 | AudioInput => 2 | VideoInput => 3 | FileInput => 4
  | ResourceInput => 5 | TextOutput => 6 | StructuredOutput => 7 | ImageOutput => 8
  | AudioOutput => 9 | VideoOutput => 10 | FileOutput => 11 | ResourceOutput => 12
  | AnnotationOutput => 13 | ExecutionStepOutput => 14 | StrictJsonSchema => 15
  | StrictToolOutput => 16 | Tools => 17 | ParallelToolCalls => 18 | Streaming => 19
  | ResumableConversations => 20 | Citations => 21 | Grounding => 22 | TokenScores => 23
  | SafetyMetadata => 24 | SearchResults => 25 | ProviderExecutedSteps => 26
  | ReasoningSummaries => 27 | OpaqueReasoningState => 28 | Embeddings => 29
  | Reranking => 30 | Transcription => 31 | SpeechGeneration => 32 | ImageGeneration => 33
  | VideoGeneration => 34 | PromptCaching => 35 | CacheControls => 36
  end%nat.

Lemma capability_index_lookup c : all_capabilities !! capability_index c = Some c.
Proof. by destruct c. Qed.

#[global] Instance ModelCapability_eq_dec : EqDecision ModelCapability.
Proof.
  refine (fun a b => cast_if (decide (capability_index a = capability_index b))).
  - abstract (pose proof (capability_index_lookup a); pose proof (capability_index_lookup b);
      congruence).
  - abstract congruence.
Defined.

#[global] Instance ModelCapability_countable : Countable ModelCapability :=
  inj_countable capability_index (fun i => all_capabilities !! i) capability_index_lookup.

(** ** Declarations *)
Inductive CapabilityEvidenceSource := Configured | ProviderDocumentation | Cassette | ProviderDiscovery.

Record CapabilityEvidence := {
  evidence_source : CapabilityEvidenceSource;
  evidence_revision : string;
}.

Record ModelCapabilityKey := {
  provider : string;
  model : string;
  revision : string;
}.

#[global] Instance ModelCapabilityKey_eq_dec : EqDecision ModelCapabilityKey.
Proof. solve_decision. Defined.
#[global] Instance ModelCapabilityKey_countable : Countable ModelCapabilityKey.
Proof.
  apply (inj_countable' (fun k => (provider k, model k, revision k))
    (fun '(p, m, r) => {| provider := p; model := m; revision := r |})).
  by intros [].
Defined.

Inductive CapabilityRegistryError :=
| InvalidDeclaration
| InvalidRequirements
| DuplicateDeclaration
| UnknownModelRevision
| UnsupportedRequirements (missing : gset ModelCapability)
| RegionUnavailable
| InsufficientLimits.

Definition MAX_ID_BYTES : Z := 256.

Definition validate_id (value : string) : result CapabilityRegistryError unit :=
  if is_blank value || (MAX_ID_BYTES <? len value) then Err InvalidDeclaration else Ok tt.

Definition CapabilityEvidence_new (source : CapabilityEvidenceSource) (rev : string)
    : result CapabilityRegistryError CapabilityEvidence :=
  _ ← validate_id rev;
  Ok {| evidence_source := source; evidence_revision := rev |}.

Definition ModelCapabilityKey_new (p m r : string)
    : result CapabilityRegistryError ModelCapabilityKey :=
  let value := {| provider := p; model := m; revision := r |} in
  _ ← validate_id (provider value);
  _ ← validate_id (model value);
  _ ← validate_id (revision value);
  Ok value.

Record ModelCapabilityDeclaration := {
  decl_key : ModelCapabilityKey;
  decl_registry_revision : string;
  decl_evidence : gmap ModelCapability CapabilityEvidence;
  decl_regions : gset string;
  decl_max_context_tokens : option Z;
  decl_max_output_tokens : option Z;
}.

(** [for region in &regions { validate_id(region)?; }]: every failure is the same
    error, so the set's iteration order is not observable. *)
Definition validate_regions (regions : gset string) : result CapabilityRegistryError unit :=
  foldr (fun region acc => _ ← validate_id region; acc) (Ok tt) (elements regions).

Definition ModelCapabilityDeclaration_new (key : ModelCapabilityKey) (registry_revision : string)
    (evidence : gmap ModelCapability CapabilityEvidence) (regions : gset string)
    (max_context_tokens max_output_tokens : option Z)
    : result CapabilityRegistryError ModelCapabilityDeclaration :=
  _ ← validate_id registry_revision;
  _ ← validate_regions regions;
  if bool_decide (max_context_tokens = Some 0) || bool_decide (max_output_tokens = Some 0)
  then Err InvalidDeclaration
  else Ok {| decl_key := key; decl_registry_revision := registry_revision;
             decl_evidence := evidence; decl_regions := regions;
             decl_max_context_tokens := max_context_tokens;
             decl_max_output_tokens := max_output_tokens |}.

Definition supports (d : ModelCapabilityDeclaration) (c : ModelCapability) : bool :=
  bool_decide (is_Some (decl_evidence d !! c)).

(** ** Requirements *)
Record ModelCapabilityRequirements := {
  req_required : gset ModelCapability;
  req_preferred : gset ModelCapability;
  req_region : option string;
  req_minimum_context_tokens : option Z;
  req_minimum_output_tokens : option Z;
}.

Definition ModelCapabilityRequirements_new (required preferred : gset ModelCapability)
    (region : option string) (minimum_context_tokens minimum_output_tokens : option Z)
    : result CapabilityRegistryError ModelCapabilityRequirements :=
  if negb (bool_decide (required ## preferred))
     || bool_decide (minimum_context_tokens = Some 0)
     || bool_decide (minimum_output_tokens = Some 0)
  then Err InvalidRequirements
  else
    _ ← match region with
        | Some region => map_err (fun _ => InvalidRequirements) (validate_id region)
        | None => Ok tt
        end;
    Ok {| req_required := required; req_preferred := preferred; req_region := region;
          req_minimum_context_tokens := minimum_context_tokens;
          req_minimum_output_tokens := minimum_output_tokens |}.

(** ** Admission *)
Record ModelCapabilityAdmission := {
  adm_key : ModelCapabilityKey;
  adm_registry_revision : string;
  adm_unmet_preferred : gset ModelCapability;
}.

Record ModelCapabilityRegistry := {
  declarations : gmap ModelCapabilityKey ModelCapabilityDeclaration;
}.

(** [insert] returns the previous value, whose presence is the duplicate. *)
Fixpoint registry_insert_all (ds : list ModelCapabilityDeclaration)
    (acc : gmap ModelCapabilityKey ModelCapabilityDeclaration)
    : result CapabilityRegistryError (gmap ModelCapabilityKey ModelCapabilityDeclaration) :=
  match ds with
  | [] => Ok acc
  | d :: ds' =>
      match acc !! decl_key d with
      | Some _ => Err DuplicateDeclaration
      | None => registry_insert_all ds' (<[decl_key d := d]> acc)
      end
  end.

Definition ModelCapabilityRegistry_new (ds : list ModelCapabilityDeclaration)
    : result CapabilityRegistryError ModelCapabilityRegistry :=
  m ← registry_insert_all ds ∅;
  Ok {| declarations := m |}.

Definition registry_get (r : ModelCapabilityRegistry) (key : ModelCapabilityKey)
    : option ModelCapabilityDeclaration := declarations r !! key.

(** [minimum.is_some_and(|m| maximum.is_none_or(|x| x < m))] *)
Definition limit_insufficient (minimum maximum : option Z) : bool :=
  match minimum with
  | None => false
  | Some m => match maximum with None => true | Some x => x <? m end
  end.

(** The capabilities of [cs] the declaration does not support. *)
Definition unsupported (d : ModelCapabilityDeclaration) (cs : gset ModelCapability)
    : gset ModelCapability := filter (fun c => supports d c = false) cs.

Definition admit_exact (r : ModelCapabilityRegistry) (key : ModelCapabilityKey)
    (requirements : ModelCapabilityRequirements)
    : result CapabilityRegistryError ModelCapabilityAdmission :=
  declaration ← ok_or (declarations r !! key) UnknownModelRevision;
  let missing := unsupported declaration (req_required requirements) in
  if negb (bool_decide (missing = ∅)) then Err (UnsupportedRequirements missing)
  else if match req_region requirements with
          | Some region => negb (bool_decide (region ∈ decl_regions declaration))
          | None => false
          end
  then Err RegionUnavailable
  else if limit_insufficient (req_minimum_context_tokens requirements)
            (decl_max_context_tokens declaration)
       || limit_insufficient (req_minimum_output_tokens requirements)
            (decl_max_output_tokens declaration)
  then Err InsufficientLimits
  else Ok {| adm_key := decl_key declaration;
             adm_registry_revision := decl_registry_revision declaration;
             adm_unmet_preferred := unsupported declaration (req_preferred requirements) |}.

(** ** Registry invariant and admission *)

(** Every declaration is filed under its own key. *)
Definition registry_wf (r : ModelCapabilityRegistry) : Prop :=
  forall k d, declarations r !! k = Some d -> decl_key d = k.

(** What admission promises of the exact target. *)
Record admits (r : ModelCapabilityRegistry) (key : ModelCapabilityKey)
    (q : ModelCapabilityRequirements) (a : ModelCapabilityAdmission) : Prop := {
  admits_decl : exists d, declarations r !! key = Some d
    /\ adm_key a = decl_key d
    /\ adm_registry_revision a = decl_registry_revision d
    /\ (forall c, c ∈ req_required q -> supports d c = true)
    /\ (forall region, req_region q = Some region -> region ∈ decl_regions d)
    /\ (forall m, req_minimum_context_tokens q = Some m ->
          exists x, decl_max_context_tokens d = Some x /\ m <= x)
    /\ (forall m, req_minimum_output_tokens q = Some m ->
          exists x, decl_max_output_tokens d = Some x /\ m <= x)
    /\ (forall c, c ∈ adm_unmet_preferred a <-> c ∈ req_preferred q /\ supports d c = false);
}.

Lemma limit_insufficient_false mn mx :
  limit_insufficient mn mx = false <->
  forall m, mn = Some m -> exists x, mx = Some x /\ m <= x.
Proof.
  unfold limit_insufficient. destruct mn as [m|].
  - destruct mx as [x|].
    + destruct (Z.ltb_spec x m); split; [done| |intros _ ? [=]; subst; eauto|done].
      intros H'. destruct (H' m eq_refl) as (? & [= <-] & ?). lia.
    + split; [done|]. intros H'. destruct (H' m eq_refl) as (? & ? & _). done.
  - split; [done|done].
Qed.

Lemma unsupported_empty d cs :
  unsupported d cs = ∅ <-> forall c, c ∈ cs -> supports d c = true.
Proof.
  unfold unsupported. split.
  - intros He c Hc. destruct (supports d c) eqn:E; [done|].
    assert (c ∈ (∅ : gset ModelCapability)) as Hin; [|set_solver].
    rewrite <- He. apply elem_of_filter. eauto.
  - intros H. apply set_eq. intros c. rewrite elem_of_filter. split; [|set_solver].
    intros [E Hc]. rewrite H in E; done.
Qed.

Lemma registry_insert_all_wf ds acc m :
  registry_insert_all ds acc = Ok m ->
  (forall k d, acc !! k = Some d -> decl_key d = k) ->
  forall k d, m !! k = Some d -> decl_key d = k.
Proof.
  revert acc. induction ds as [|d0 ds IH]; simpl; intros acc H Hacc; [by inv_ok; subst|].
  destruct (acc !! decl_key d0); [done|]. apply (IH _ H). intros k d.
  rewrite lookup_insert. case_decide; [by intros [= <-]|by apply Hacc].
Qed.

Lemma ModelCapabilityRegistry_new_wf ds r :
  ModelCapabilityRegistry_new ds = Ok r -> registry_wf r.
Proof.
  unfold ModelCapabilityRegistry_new. intros H. inv_ok. subst. intros k d. simpl.
  eapply registry_insert_all_wf; [done|]. intros ? ?. by rewrite lookup_empty.
Qed.

(** [admit_exact] succeeds exactly when the exact target's own declaration meets
    every hard requirement. *)
Lemma admit_exact_ok r key q a : admit_exact r key q = Ok a <-> admits r key q a.
Proof.
  unfold admit_exact. destruct (declarations r !! key) as [d|] eqn:Hd; simpl.
  2:{ split; [done|]. intros [(d & Hd' & _)]. congruence. }
  destruct (bool_decide (unsupported d (req_required q) = ∅)) eqn:Em; simpl.
  2:{ split; [done|]. intros [(d' & Hd' & _ & _ & Hr & _)].
      rewrite Hd in Hd'. injection Hd' as <-. apply bool_decide_eq_false in Em.
      apply unsupported_empty in Hr. done. }
  apply bool_decide_eq_true in Em. pose proof (proj1 (unsupported_empty _ _) Em) as Em'.
  destruct (match req_region q with Some _ => _ | None => _ end) eqn:Er.
  { split; [done|]. intros [(d' & Hd' & _ & _ & _ & Hg & _)].
    rewrite Hd in Hd'. injection Hd' as <-.
    destruct (req_region q); [|done]. apply negb_true_iff, bool_decide_eq_false in Er.
    destruct Er; auto. }
  destruct (limit_insufficient _ _ || limit_insufficient _ _) eqn:El.
  { split; [done|]. intros [(d' & Hd' & _ & _ & _ & _ & Hc & Ho & _)].
    rewrite Hd in Hd'. injection Hd' as <-.
    apply limit_insufficient_false in Hc, Ho. rewrite Hc, Ho in El. done. }
  apply orb_false_elim in El as [Ec Eo].
  split.
  - intros [= <-]. constructor. exists d. simpl.
    split; [done|]. split; [done|]. split; [done|]. split; [exact Em'|]. split.
    { intros region Hr. rewrite Hr in Er. by apply negb_false_iff, bool_decide_eq_true in Er. }
    split; [by apply limit_insufficient_false|].
    split; [by apply limit_insufficient_false|].
    intros c. unfold unsupported. rewrite elem_of_filter. tauto.
  - intros [(d' & Hd' & Hk & Hrev & _ & _ & _ & _ & Hu)].
    rewrite Hd in Hd'. injection Hd' as <-. f_equal.
    destruct a as [ak ar au]; simpl in *. subst. f_equal.
    apply set_eq. intros c. rewrite Hu. unfold unsupported. rewrite elem_of_filter.
    tauto.
Qed.

Lemma validate_id_ok s u : validate_id s = Ok u -> is_blank s = false /\ len s <= MAX_ID_BYTES.
Proof.
  unfold validate_id. destruct (_ || _) eqn:E; [done|]. intros _.
  apply orb_false_elim in E as [? ?]. split; [done|lia].
Qed.
