(* ===== verification/LlmRequest.v ===== *)
(** * The canonical request and the provider error, as routing reads them

    [crates/llm-core/src/request.rs] and [crates/llm-core/src/provider.rs].  The
    records keep the fields the routing crate consults; the payload of a message
    part, JSON documents and sampling controls are never inspected by routing: a
    part keeps its kind, a JSON object is its text. *)
From S2P Require Import Prelude Machine Text.

(** ** Requests *)

(** One message part by kind. *)
Inductive LlmInputPart :=
| PText | PStructured | PImage | PAudio | PVideo | PFile | PResource | PToolResult.

Record LlmMessage := { content : list LlmInputPart }.

Record Route := {
  route_id : string;
  route_revision : option Z;
  required_capabilities : list string;
  preferred_capabilities : list string;
}.

Record GenerationConfig := { max_output_tokens : option Z }.

Inductive OutputMode := MAuto | MText | MStructured | MTools | MMedia.

Record OutputRequest := {
  mode : OutputMode;
  strict : option bool;
  mime_types : list string;
}.

Record ToolDefinition := { tool_name : string }.

Record RequestLimits := {
  deadline_ms : Z;
  max_model_turns : Z;
  max_tool_calls : Z;
  rl_max_input_bytes : option Z;
  rl_max_output_bytes : option Z;
  rl_max_cost_microunits : option Z;
}.

Record LlmRequest := {
  route : Route;
  messages : list LlmMessage;
  generation : option GenerationConfig;
  output : OutputRequest;
  tools : option (list ToolDefinition);
  tool_policy : option string;
  limits : RequestLimits;
}.

(** [request.tools().is_some_and(|tools| !tools.is_empty())
     || request.tool_policy().is_some()], the test routing uses twice. *)
Definition has_tool_semantics (r : LlmRequest) : bool :=
  match tools r with Some (_ :: _) => true | _ => false end
  || match tool_policy r with Some _ => true | None => false end.

(** Every part of every message, in order. *)
Definition all_parts (r : LlmRequest) : list LlmInputPart := mjoin (content <$> messages r).

(** The limits a constructed request carries ([RequestLimits::validate]). *)
Definition RequestLimits_valid (l : RequestLimits) : bool :=
  negb ((deadline_ms l =? 0) || (max_model_turns l =? 0)
        || bool_decide (rl_max_input_bytes l = Some 0)
        || bool_decide (rl_max_output_bytes l = Some 0)).

(** ** Provider errors *)
Inductive ProviderErrorKind :=
| EUnsupported | EProvider | ETransport | ETimeout | EThrottling | ESafety | ESchema.

Inductive RetryClass := Never | Safe | AfterRetryAfter.

Record ProviderError := {
  err_kind : ProviderErrorKind;
  err_retry : RetryClass;
  err_retry_after : option Z;
}.
