(* ===== verification/Circuit.v ===== *)
(** * The circuit breaker of [crates/llm-routing/src/circuit.rs]

    Scopes, policies, the rolling evidence of one scope, and the operations of
    [CircuitBreaker].  The breaker's state is the map behind its mutex; every
    operation is one critical section and so one state transformer on the map. *)
From S2P Require Import Prelude Machine Text Capability LlmRequest.
From Stdlib Require Import Ascii.

(** ** Scopes *)
Inductive CircuitScopeKind := KProvider | KEndpoint | KRegion | KModel.

#[global] Instance CircuitScopeKind_eq_dec : EqDecision CircuitScopeKind.
Proof. solve_decision. Defined.
#[global] Instance CircuitScopeKind_countable : Countable CircuitScopeKind.
Proof.
  apply (inj_countable
    (fun k => match k with KProvider => 0%nat | KEndpoint => 1%nat | KRegion => 2%nat | KModel => 3%nat end)
    (fun n => [KProvider; KEndpoint; KRegion; KModel] !! n)).
  by intros [].
Defined.

Record CircuitScope := { kind : CircuitScopeKind; key : string }.

#[global] Instance CircuitScope_eq_dec : EqDecision CircuitScope.
Proof. solve_decision. Defined.
#[global] Instance CircuitScope_countable : Countable CircuitScope.
Proof.
  apply (inj_countable' (fun s => (kind s, key s)) (fun '(k, s) => {| kind := k; key := s |})).
  by intros [].
Defined.

Inductive CircuitError := InvalidPolicy | InvalidScope | ScopeCapacityExceeded.

Definition MAX_SCOPE_ID_BYTES : Z := 256.

(** [byte.is_ascii_alphanumeric() || matches!(byte, b'-' | b'_' | b'.' | b':')] *)
Definition id_byte (c : ascii) : bool :=
  is_ascii_alphanumeric c
  || (byte_val c =? 45) || (byte_val c =? 95) || (byte_val c =? 46) || (byte_val c =? 58).

Definition validate_scope_id (value : string) : result CircuitError unit :=
  if is_empty value || (MAX_SCOPE_ID_BYTES <? len value) || negb (all_bytes id_byte value)
  then Err InvalidScope else Ok tt.

(** The separator [\u{1f}] of composite keys. *)
Definition unit_separator : ascii := ascii_of_nat 31.
Definition join_key (a b : string) : string := a +:+ String unit_separator b.

Definition scope_provider (p : string) : result CircuitError CircuitScope :=
  _ ← validate_scope_id p;
  Ok {| kind := KProvider; key := p |}.

Definition scope_endpoint (p e : string) : result CircuitError CircuitScope :=
  _ ← validate_scope_id p;
  _ ← validate_scope_id e;
  Ok {| kind := KEndpoint; key := join_key p e |}.

Definition scope_region (p r : string) : result CircuitError CircuitScope :=
  _ ← validate_scope_id p;
  _ ← validate_scope_id r;
  Ok {| kind := KRegion; key := join_key p r |}.

Definition scope_model (p m r : string) : result CircuitError CircuitScope :=
  _ ← validate_scope_id p;
  _ ← validate_scope_id m;
  _ ← validate_scope_id r;
  Ok {| kind := KModel; key := join_key p (join_key m r) |}.

(** The four keys of a candidate, an array of length 4 in the source. *)
Definition scopes_for_candidate (target : ModelCapabilityKey) (endpoint region : string)
    : result CircuitError (list CircuitScope) :=
  sp ← scope_provider (provider target);
  se ← scope_endpoint (provider target) endpoint;
  sr ← scope_region (provider target) region;
  sm ← scope_model (provider target) (model target) (revision target);
  Ok [sp; se; sr; sm].

(** ** Outcomes *)
Inductive FailureIsolation := Shared | Credential | Tenant | Caller.

Inductive CircuitOutcome :=
| Success | TransientFailure | Timeout | Throttled | ProviderFailure
| CredentialFailure | TenantFailure | CallerFailure.

#[global] Instance CircuitOutcome_eq_dec : EqDecision CircuitOutcome.
Proof. solve_decision. Defined.

Definition counts_toward_health (o : CircuitOutcome) : bool :=
  match o with
  | TransientFailure | Timeout | Throttled | ProviderFailure => true
  | _ => false
  end.

Definition from_provider_error (error : ProviderError) (isolation : FailureIsolation)
    : CircuitOutcome :=
  match isolation with
  | Credential => CredentialFailure
  | Tenant => TenantFailure
  | Caller => CallerFailure
  | Shared =>
      match err_kind error with
      | ETransport => TransientFailure
      | ETimeout => Timeout
      | EThrottling => Throttled
      | EProvider => ProviderFailure
      | EUnsupported | ESafety | ESchema => CallerFailure
      end
  end.

Inductive CircuitState := Closed | Open | HalfOpen.

#[global] Instance CircuitState_eq_dec : EqDecision CircuitState.
Proof. solve_decision. Defined.

(** ** Policy *)
Record CircuitPolicy := {
  max_scopes : Z;
  max_samples_per_scope : Z;
  window : Z;
  failure_threshold : Z;
  open_duration : Z;
  half_open_max_probes : Z;
}.

Definition CircuitPolicy_new (mscopes msamples w threshold opend probes : Z)
    : result CircuitError CircuitPolicy :=
  if (mscopes =? 0) || (msamples =? 0) || Duration.is_zero w || (threshold =? 0)
     || (msamples <? threshold) || Duration.is_zero opend || (probes =? 0)
  then Err InvalidPolicy
  else Ok {| max_scopes := mscopes; max_samples_per_scope := msamples; window := w;
             failure_threshold := threshold; open_duration := opend;
             half_open_max_probes := probes |}.

Definition CircuitPolicy_default : CircuitPolicy :=
  {| max_scopes := 1024; max_samples_per_scope := 64; window := Duration.from_secs 60;
     failure_threshold := 5; open_duration := Duration.from_secs 30;
     half_open_max_probes := 1 |}.

(** ** One scope *)
Record Evidence := { observed_at : Z; outcome : CircuitOutcome }.

Record ScopeEntry := {
  evidence : list Evidence;
  opened_until : option Z;
  half_open_probes : Z;
  probe_generation : Z;
}.

Definition ScopeEntry_default : ScopeEntry :=
  {| evidence := []; opened_until := None; half_open_probes := 0; probe_generation := 0 |}.

Definition entry_state (e : ScopeEntry) (now : Z) : CircuitState :=
  match opened_until e with
  | Some until => if now <? until then Open else HalfOpen
  | None => Closed
  end.

Definition entry_open (e : ScopeEntry) (until : Z) : ScopeEntry :=
  {| evidence := evidence e; opened_until := Some until; half_open_probes := 0;
     probe_generation := wrapping_add u64_max (probe_generation e) 1 |}.

Definition set_evidence (e : ScopeEntry) (ev : list Evidence) : ScopeEntry :=
  {| evidence := ev; opened_until := opened_until e; half_open_probes := half_open_probes e;
     probe_generation := probe_generation e |}.

Definition set_probes (e : ScopeEntry) (n : Z) : ScopeEntry :=
  {| evidence := evidence e; opened_until := opened_until e; half_open_probes := n;
     probe_generation := probe_generation e |}.

(** Writing [opened_until = None; half_open_probes = 0]. *)
Definition entry_close (e : ScopeEntry) : ScopeEntry :=
  {| evidence := evidence e; opened_until := None; half_open_probes := 0;
     probe_generation := probe_generation e |}.

Definition expired (now w : Z) (s : Evidence) : bool :=
  w <? saturating_duration_since now (observed_at s).

Definition evict_expired (e : ScopeEntry) (now w : Z) : ScopeEntry :=
  set_evidence e (drop_while (expired now w) (evidence e)).

Definition health_failures (e : ScopeEntry) : Z :=
  Z.of_nat (length (filter (fun s => counts_toward_health (outcome s) = true) (evidence e))).

(** [evidence.back().map_or(observed_at, |sample| sample.observed_at.max(observed_at))] *)
Definition timeline_of (e : ScopeEntry) (t : Z) : Z :=
  match last (evidence e) with
  | Some sample => Z.max (observed_at sample) t
  | None => t
  end.

(** [partition_point] followed by [insert]: the deque is partitioned by the
    predicate (it is sorted, see [evidence_sorted] below), so the binary search
    returns the length of the prefix that satisfies it. *)
Definition insert_evidence (ev : list Evidence) (s : Evidence) : list Evidence :=
  let before := fun x => observed_at x <=? observed_at s in
  take_while before ev ++ s :: drop_while before ev.

Definition record_evidence (e : ScopeEntry) (t : Z) (o : CircuitOutcome) (w max_samples : Z)
    : ScopeEntry * Z * CircuitState :=
  let timeline := timeline_of e t in
  let e1 := evict_expired e timeline w in
  let prior_state := entry_state e1 timeline in
  let e2 := set_evidence e1 (insert_evidence (evidence e1) {| observed_at := t; outcome := o |}) in
  let e3 := evict_expired e2 timeline w in
  let e4 := set_evidence e3 (lastn (Z.to_nat max_samples) (evidence e3)) in
  (e4, timeline, prior_state).

(** ** The breaker *)
Record ReservedProbe := { probe_scope : CircuitScope; generation : Z }.

#[global] Instance ReservedProbe_eq_dec : EqDecision ReservedProbe.
Proof. solve_decision. Defined.

(** A permit names its breaker by sharing it; the book is passed explicitly. *)
Record CircuitProbePermit := { permit_scopes : list ReservedProbe; active : bool }.

Definition is_required (p : CircuitProbePermit) : bool :=
  match permit_scopes p with [] => false | _ => true end.

(** The state transition of [record] on the entry of its scope. *)
Definition record_entry (p : CircuitPolicy) (t : Z) (o : CircuitOutcome) (entry : ScopeEntry)
    : ScopeEntry :=
  let '(e, timeline, prior_state) :=
    record_evidence entry t o (window p) (max_samples_per_scope p) in
  if bool_decide (o = Success) && bool_decide (prior_state = Closed) then entry_close e
  else if bool_decide (prior_state = Closed) && counts_toward_health o
          && (failure_threshold p <=? health_failures e)
  then entry_open e (timeline + open_duration p)
  else e.

Definition record (p : CircuitPolicy) (scope : CircuitScope) (t : Z) (o : CircuitOutcome)
    : ST (gmap CircuitScope ScopeEntry) CircuitError unit :=
  fun book =>
    if negb (bool_decide (is_Some (book !! scope))) && (max_scopes p <=? Z.of_nat (size book))
    then (Err ScopeCapacityExceeded, book)
    else
      let entry := default ScopeEntry_default (book !! scope) in
      (Ok tt, <[scope := record_entry p t o entry]> book).

Definition state (book : gmap CircuitScope ScopeEntry) (scope : CircuitScope) (now : Z)
    : CircuitState :=
  match book !! scope with Some entry => entry_state entry now | None => Closed end.

Definition candidate_states (book : gmap CircuitScope ScopeEntry) (scopes : list CircuitScope)
    (now : Z) : list CircuitState := (fun s => state book s now) <$> scopes.

(** The first loop of [acquire_scopes]: is there a scope that refuses? *)
Definition scope_refuses (p : CircuitPolicy) (book : gmap CircuitScope ScopeEntry) (now : Z)
    (scope : CircuitScope) : bool :=
  match book !! scope with
  | None => false
  | Some entry =>
      match entry_state entry now with
      | Open => true
      | HalfOpen => half_open_max_probes p <=? half_open_probes entry
      | Closed => false
      end
  end.

(** The second loop: take one slot in every half-open scope. *)
Fixpoint reserve_probes (now : Z) (scopes : list CircuitScope)
    (book : gmap CircuitScope ScopeEntry)
    : list ReservedProbe * gmap CircuitScope ScopeEntry :=
  match scopes with
  | [] => ([], book)
  | scope :: scopes' =>
      match book !! scope with
      | Some entry =>
          if bool_decide (entry_state entry now = HalfOpen) then
            let '(reserved, book') :=
              reserve_probes now scopes'
                (<[scope := set_probes entry (half_open_probes entry + 1)]> book) in
            ({| probe_scope := scope; generation := probe_generation entry |} :: reserved, book')
          else reserve_probes now scopes' book
      | None => reserve_probes now scopes' book
      end
  end.

Definition acquire_scopes (p : CircuitPolicy) (scopes : list CircuitScope) (now : Z)
    (book : gmap CircuitScope ScopeEntry)
    : option CircuitProbePermit * gmap CircuitScope ScopeEntry :=
  if existsb (scope_refuses p book now) scopes then (None, book)
  else
    let '(reserved, book') := reserve_probes now scopes book in
    (Some {| permit_scopes := reserved; active := true |}, book').

Definition try_acquire (p : CircuitPolicy) (scope : CircuitScope) (now : Z)
    (book : gmap CircuitScope ScopeEntry) := acquire_scopes p [scope] now book.

Definition try_acquire_candidate (p : CircuitPolicy) (scopes : list CircuitScope) (now : Z)
    (book : gmap CircuitScope ScopeEntry) := acquire_scopes p scopes now book.

Record CircuitEvidenceSummary := {
  summary_state : CircuitState;
  sample_count : Z;
  health_failure_count : Z;
}.

Definition evidence_summary (p : CircuitPolicy) (scope : CircuitScope) (now : Z)
    (book : gmap CircuitScope ScopeEntry)
    : CircuitEvidenceSummary * gmap CircuitScope ScopeEntry :=
  match book !! scope with
  | None => ({| summary_state := Closed; sample_count := 0; health_failure_count := 0 |}, book)
  | Some entry =>
      let e := evict_expired entry now (window p) in
      ({| summary_state := entry_state e now;
          sample_count := Z.of_nat (length (evidence e));
          health_failure_count := health_failures e |}, <[scope := e]> book)
  end.

(** The transition of one reserved probe in [complete_probe]. *)
Definition complete_entry (p : CircuitPolicy) (t : Z) (o : CircuitOutcome) (entry : ScopeEntry)
    : ScopeEntry :=
  let '(e, timeline, _) := record_evidence entry t o (window p) (max_samples_per_scope p) in
  if bool_decide (o = Success) then
    entry_close (set_evidence e [{| observed_at := timeline; outcome := o |}])
  else if counts_toward_health o then entry_open e (timeline + open_duration p)
  else set_probes e (saturating_sub (half_open_probes e) 1).

Definition complete_one (p : CircuitPolicy) (t : Z) (o : CircuitOutcome)
    (book : gmap CircuitScope ScopeEntry) (probe : ReservedProbe)
    : gmap CircuitScope ScopeEntry :=
  match book !! probe_scope probe with
  | None => book
  | Some entry =>
      if negb (probe_generation entry =? generation probe)
         || negb (bool_decide (entry_state entry (timeline_of entry t) = HalfOpen))
      then book
      else <[probe_scope probe := complete_entry p t o entry]> book
  end.

Definition complete_probe (p : CircuitPolicy) (probes : list ReservedProbe) (t : Z)
    (o : CircuitOutcome) (book : gmap CircuitScope ScopeEntry) : gmap CircuitScope ScopeEntry :=
  foldl (complete_one p t o) book probes.

Definition release_one (book : gmap CircuitScope ScopeEntry) (probe : ReservedProbe)
    : gmap CircuitScope ScopeEntry :=
  match book !! probe_scope probe with
  | Some entry =>
      if probe_generation entry =? generation probe
      then <[probe_scope probe := set_probes entry (saturating_sub (half_open_probes entry) 1)]> book
      else book
  | None => book
  end.

Definition release_probes (probes : list ReservedProbe) (book : gmap CircuitScope ScopeEntry)
    : gmap CircuitScope ScopeEntry := foldl release_one book probes.

(** [CircuitProbePermit::complete] and [CircuitProbePermit::release] (also its
    [Drop]): a permit acts once. *)
Definition permit_complete (p : CircuitPolicy) (t : Z) (o : CircuitOutcome)
    (permit : CircuitProbePermit) (book : gmap CircuitScope ScopeEntry)
    : CircuitProbePermit * gmap CircuitScope ScopeEntry :=
  if active permit then
    ({| permit_scopes := permit_scopes permit; active := false |},
     complete_probe p (permit_scopes permit) t o book)
  else (permit, book).

Definition permit_release (permit : CircuitProbePermit) (book : gmap CircuitScope ScopeEntry)
    : CircuitProbePermit * gmap CircuitScope ScopeEntry :=
  if active permit then
    ({| permit_scopes := permit_scopes permit; active := false |},
     release_probes (permit_scopes permit) book)
  else (permit, book).
