(* ===== verification/CircuitFacts.v ===== *)
(** * Facts about one circuit scope

    The rolling evidence of a scope against its reference definition, the opening
    condition, the isolation of non-shared failures, and the injectivity of the
    composite scope keys. *)
From S2P Require Import Prelude Machine Text Capability LlmRequest Circuit.
From Stdlib Require Import Ascii.

(** ** Evidence *)
Definition older (a b : Evidence) : Prop := observed_at a <= observed_at b.
Definition evidence_sorted (ev : list Evidence) : Prop := StronglySorted older ev.

(** The reference for the retained evidence: insert the sample, keep what lies in
    the window that ends at [timeline], then the newest [n] samples. *)
Definition retained (ev : list Evidence) (t : Z) (o : CircuitOutcome) (w : Z) (n : nat)
    (timeline : Z) : list Evidence :=
  lastn n (filter (fun x => expired timeline w x = false)
            (insert_evidence ev {| observed_at := t; outcome := o |})).

(** What an entry keeps between operations. *)
Record entry_wf (p : CircuitPolicy) (e : ScopeEntry) : Prop := {
  wf_sorted : evidence_sorted (evidence e);
  wf_bounded : Z.of_nat (length (evidence e)) <= max_samples_per_scope p;
  wf_probes : 0 <= half_open_probes e <= half_open_max_probes p;
  wf_closed : opened_until e = None -> half_open_probes e = 0;
}.

(** A policy the constructor accepts, at [usize] width. *)
Record policy_wf (p : CircuitPolicy) : Prop := {
  pwf_scopes : 0 < max_scopes p;
  pwf_samples : 0 < max_samples_per_scope p;
  pwf_window : 0 < window p;
  pwf_threshold : 0 < failure_threshold p <= max_samples_per_scope p;
  pwf_open : 0 < open_duration p;
  pwf_probes : 0 < half_open_max_probes p <= usize_max;
}.

Lemma CircuitPolicy_new_wf ms mp w th od pr p :
  is_usize ms -> is_usize mp -> is_duration w -> is_usize th -> is_duration od -> is_usize pr ->
  CircuitPolicy_new ms mp w th od pr = Ok p -> policy_wf p.
Proof.
  unfold CircuitPolicy_new, Duration.is_zero, in_range, is_duration, Duration.valid.
  intros. destruct (_ || _) eqn:E; [done|]. simplify_eq.
  repeat (apply orb_false_elim in E as [E ?]). split; simpl; lia.
Qed.

Lemma sorted_app (ev1 ev2 : list Evidence) :
  evidence_sorted ev1 -> evidence_sorted ev2 ->
  (forall a b, a ∈ ev1 -> b ∈ ev2 -> older a b) -> evidence_sorted (ev1 ++ ev2).
Proof.
  intros H1 H2 H. induction H1 as [|a ev1 Hs IH Hall]; [done|]. simpl.
  constructor; [apply IH; intros x y Hx Hy; apply H; set_solver|].
  apply Forall_app. split; [done|]. apply Forall_forall. intros b Hb.
  apply H; [left|]; done.
Qed.

Lemma take_while_spec (p : Evidence -> bool) ev x : x ∈ take_while p ev -> p x = true /\ x ∈ ev.
Proof.
  induction ev as [|y ev IH]; simpl; [by intros ?%not_elem_of_nil|].
  destruct (p y) eqn:E; [|by intros ?%not_elem_of_nil].
  rewrite !elem_of_cons. intros [->|Hx]; [tauto|]. specialize (IH Hx). tauto.
Qed.

Lemma sorted_take_while (p : Evidence -> bool) ev :
  evidence_sorted ev -> evidence_sorted (take_while p ev).
Proof.
  induction 1 as [|a ev Hs IH Hall]; simpl; [constructor|].
  destruct (p a); [|constructor]. constructor; [done|].
  rewrite Forall_forall in Hall |- *. intros x Hx. apply Hall. by apply (take_while_spec p).
Qed.

Lemma sorted_drop_while (p : Evidence -> bool) ev :
  evidence_sorted ev -> evidence_sorted (drop_while p ev).
Proof. eapply StronglySorted_suffix, drop_while_suffix. Qed.

Lemma sorted_lastn n ev : evidence_sorted ev -> evidence_sorted (lastn n ev).
Proof. eapply StronglySorted_suffix, lastn_suffix. Qed.

(** The elements left after the prefix at most [t] are all later than [t]. *)
Lemma drop_while_later t ev x :
  evidence_sorted ev -> x ∈ drop_while (fun y => observed_at y <=? t) ev -> t < observed_at x.
Proof.
  intros Hs. rewrite (drop_while_filter older) by (done || unfold older; lia).
  rewrite list_elem_of_filter. lia.
Qed.

Lemma insert_evidence_sorted ev s : evidence_sorted ev -> evidence_sorted (insert_evidence ev s).
Proof.
  intros Hs. unfold insert_evidence. apply sorted_app.
  - by apply sorted_take_while.
  - constructor; [by apply sorted_drop_while|]. apply Forall_forall. intros b Hb.
    apply drop_while_later in Hb; [|done]. unfold older. lia.
  - intros a b [Ha _]%take_while_spec. unfold older.
    rewrite elem_of_cons. intros [->|Hb]; [lia|].
    apply drop_while_later in Hb; [lia|done].
Qed.

Lemma insert_evidence_Permutation ev s : insert_evidence ev s ≡ₚ s :: ev.
Proof.
  unfold insert_evidence. rewrite <- Permutation_middle. by rewrite take_drop_while.
Qed.

Lemma timeline_of_ge e t : t <= timeline_of e t.
Proof. unfold timeline_of. destruct (last (evidence e)); lia. Qed.

(** Expiry is closed under taking older samples. *)
Lemma expired_older now w a b : older a b -> expired now w b = true -> expired now w a = true.
Proof. unfold older, expired, saturating_duration_since. lia. Qed.

Lemma evict_filter e now w :
  evidence_sorted (evidence e) ->
  evidence (evict_expired e now w) = filter (fun x => expired now w x = false) (evidence e).
Proof. intros. simpl. apply (drop_while_filter older); [by intros; eapply expired_older|done]. Qed.

(** Filtering commutes with the ordered insertion on sorted evidence: both sides
    are sorted and partition the same samples around [t]. *)
Lemma take_while_filter (p q : Evidence -> bool) ev :
  evidence_sorted ev -> (forall a b, older a b -> p b = true -> p a = true) ->
  take_while p (filter (fun x => q x = false) ev) = filter (fun x => q x = false) (take_while p ev).
Proof.
  intros Hs Hp. induction Hs as [|a ev Hs IH Hall]; [done|]. simpl.
  destruct (p a) eqn:Ep.
  - destruct (q a) eqn:Eq.
    + rewrite !filter_cons_False by congruence. done.
    + rewrite !filter_cons_True by done. simpl. rewrite Ep. by f_equal.
  - assert (forall x, x ∈ ev -> p x = false) as Hno.
    { intros x Hx. rewrite Forall_forall in Hall. destruct (p x) eqn:E; [|done].
      rewrite (Hp a x) in Ep; [done|by apply Hall|done]. }
    destruct (q a) eqn:Eq.
    + rewrite filter_cons_False by congruence. clear -Hno.
      induction ev as [|y ev IH]; [done|]. destruct (q y) eqn:Ey.
      * rewrite filter_cons_False by congruence. apply IH. intros. apply Hno. by right.
      * rewrite filter_cons_True by done. simpl. by rewrite (Hno y) by left.
    + rewrite filter_cons_True by done. simpl. by rewrite Ep.
Qed.

Lemma drop_while_filter_comm (p q : Evidence -> bool) ev :
  evidence_sorted ev -> (forall a b, older a b -> p b = true -> p a = true) ->
  drop_while p (filter (fun x => q x = false) ev) = filter (fun x => q x = false) (drop_while p ev).
Proof.
  intros Hs Hp.
  assert (evidence_sorted (filter (fun x => q x = false) ev)) as Hs'.
  { clear Hp. induction Hs as [|a ev Hs IH Hall]; [constructor|]. destruct (q a) eqn:E.
    - by rewrite filter_cons_False by congruence.
    - rewrite filter_cons_True by done. constructor; [done|].
      rewrite Forall_forall in Hall |- *. intros x [_ Hx]%list_elem_of_filter. by apply Hall. }
  rewrite !(drop_while_filter older) by done.
  rewrite !list_filter_filter. apply list_filter_iff. tauto.
Qed.

Lemma filter_insert_evidence (q : Evidence -> bool) ev s :
  evidence_sorted ev ->
  filter (fun x => q x = false)
    (insert_evidence (filter (fun x => q x = false) ev) s) =
  filter (fun x => q x = false) (insert_evidence ev s).
Proof.
  intros Hs. unfold insert_evidence.
  rewrite take_while_filter, drop_while_filter_comm by (done || unfold older; lia).
  rewrite !filter_app. f_equal.
  - rewrite list_filter_filter. apply list_filter_iff. tauto.
  - destruct (q s) eqn:E.
    + rewrite !filter_cons_False by congruence.
      rewrite list_filter_filter. apply list_filter_iff. tauto.
    + rewrite !filter_cons_True by done. f_equal.
      rewrite list_filter_filter. apply list_filter_iff. tauto.
Qed.

(** The evidence part of [record_evidence] is its reference. *)
Lemma record_evidence_retained e t o w ms :
  evidence_sorted (evidence e) ->
  record_evidence e t o w ms =
    (set_evidence e (retained (evidence e) t o w (Z.to_nat ms) (timeline_of e t)),
     timeline_of e t, entry_state e (timeline_of e t)).
Proof.
  intros Hs. unfold record_evidence. f_equal. f_equal.
  unfold evict_expired. cbn [set_evidence evidence opened_until half_open_probes probe_generation].
  unfold set_evidence. cbn. f_equal. unfold retained. f_equal.
  rewrite (drop_while_filter older); cycle 1.
  { intros a b. by apply expired_older. }
  { by apply insert_evidence_sorted, sorted_drop_while. }
  rewrite (drop_while_filter older (expired _ _) (evidence e)); cycle 1.
  { intros a b. by apply expired_older. }
  { done. }
  by apply filter_insert_evidence.
Qed.

Lemma retained_sorted ev t o w n tl : evidence_sorted ev -> evidence_sorted (retained ev t o w n tl).
Proof.
  intros Hs. apply sorted_lastn. rewrite <- (drop_while_filter older).
  - by apply sorted_drop_while, insert_evidence_sorted.
  - intros a b. by apply expired_older.
  - by apply insert_evidence_sorted.
Qed.

Lemma retained_length ev t o w n tl : (length (retained ev t o w n tl) <= n)%nat.
Proof. apply lastn_length. Qed.

(** Counting the health failures of a list of samples. *)
Definition failures (ev : list Evidence) : Z :=
  Z.of_nat (length (filter (fun s => counts_toward_health (outcome s) = true) ev)).

Lemma entry_state_set_evidence e ev now : entry_state (set_evidence e ev) now = entry_state e now.
Proof. done. Qed.

Lemma entry_state_Closed e now : entry_state e now = Closed <-> opened_until e = None.
Proof. unfold entry_state. destruct (opened_until e); [case_match|]; done. Qed.

(** ** Recording at one entry *)
Section recording.
Context (p : CircuitPolicy) (Hp : policy_wf p).

Lemma record_entry_eq t o e :
  evidence_sorted (evidence e) ->
  let tl := timeline_of e t in
  let ev := retained (evidence e) t o (window p) (Z.to_nat (max_samples_per_scope p)) tl in
  record_entry p t o e =
    if bool_decide (o = Success) && bool_decide (opened_until e = None)
    then entry_close (set_evidence e ev)
    else if bool_decide (opened_until e = None) && counts_toward_health o
            && (failure_threshold p <=? failures ev)
    then entry_open (set_evidence e ev) (tl + open_duration p)
    else set_evidence e ev.
Proof.
  intros Hs tl ev. unfold record_entry. rewrite record_evidence_retained by done.
  fold tl ev. cbn beta iota.
  replace (bool_decide (entry_state e tl = Closed)) with (bool_decide (opened_until e = None)).
  2:{ apply bool_decide_ext. by rewrite entry_state_Closed. }
  done.
Qed.

Lemma record_entry_wf t o e : entry_wf p e -> entry_wf p (record_entry p t o e).
Proof.
  intros [Hs Hb Hpr Hc]. rewrite record_entry_eq by done. cbn zeta.
  set (ev := retained _ _ _ _ _ _).
  assert (evidence_sorted ev) by (by apply retained_sorted).
  assert (Z.of_nat (length ev) <= max_samples_per_scope p).
  { pose proof (retained_length (evidence e) t o (window p)
      (Z.to_nat (max_samples_per_scope p)) (timeline_of e t)).
    pose proof (pwf_samples _ Hp). unfold ev. lia. }
  pose proof (pwf_probes _ Hp).
  repeat case_match; constructor; simpl; auto; lia.
Qed.

(** An entry that is open or half-open keeps its transition state under
    [record]: only a probe completion moves it. *)
Lemma record_entry_opened t o e u :
  evidence_sorted (evidence e) -> opened_until e = Some u ->
  opened_until (record_entry p t o e) = Some u
  /\ half_open_probes (record_entry p t o e) = half_open_probes e
  /\ probe_generation (record_entry p t o e) = probe_generation e.
Proof.
  intros Hs Hu. rewrite record_entry_eq by done. rewrite Hu. cbn zeta.
  rewrite (bool_decide_eq_false_2 (Some u = None)) by done.
  by rewrite andb_false_r.
Qed.

(** A closed entry opens exactly when the outcome counts toward health and the
    retained window holds at least [failure_threshold] failures. *)
Lemma record_entry_closed t o e :
  entry_wf p e -> opened_until e = None ->
  let tl := timeline_of e t in
  let ev := retained (evidence e) t o (window p) (Z.to_nat (max_samples_per_scope p)) tl in
  opened_until (record_entry p t o e) =
    if counts_toward_health o && (failure_threshold p <=? failures ev)
    then Some (tl + open_duration p) else None.
Proof.
  intros Hw Hu tl ev. rewrite record_entry_eq by apply Hw. fold tl ev. cbn zeta.
  rewrite Hu, (bool_decide_eq_true_2 (None = None)) by done.
  destruct (bool_decide (o = Success)) eqn:Eo; cbn [andb].
  - apply bool_decide_eq_true in Eo. by subst o.
  - destruct (counts_toward_health o && _) eqn:E; [done|]. by rewrite <- Hu.
Qed.

(** Whatever it records, an outcome that does not count toward health leaves the
    availability of the entry unchanged at every time. *)
Lemma record_entry_neutral t o e now :
  entry_wf p e -> counts_toward_health o = false ->
  entry_state (record_entry p t o e) now = entry_state e now.
Proof.
  intros Hw Hn. unfold entry_state. destruct (opened_until e) as [u|] eqn:Hu.
  - by destruct (record_entry_opened t o e u (wf_sorted _ _ Hw) Hu) as (-> & _).
  - rewrite record_entry_closed by done. cbn zeta. by rewrite Hn.
Qed.

Lemma evict_wf e now : entry_wf p e -> entry_wf p (evict_expired e now (window p)).
Proof.
  intros [Hs Hb Hpr Hc]. constructor; simpl; auto.
  - by apply sorted_drop_while.
  - pose proof (drop_while_length (expired now (window p)) (evidence e)). lia.
Qed.

Lemma default_wf : entry_wf p ScopeEntry_default.
Proof.
  pose proof (pwf_probes _ Hp). pose proof (pwf_samples _ Hp).
  constructor; simpl; try done; [constructor|lia|lia].
Qed.

Lemma complete_entry_wf t o e : entry_wf p e -> entry_wf p (complete_entry p t o e).
Proof.
  intros [Hs Hb Hpr Hc]. unfold complete_entry. rewrite record_evidence_retained by done.
  pose proof (pwf_samples _ Hp). pose proof (pwf_probes _ Hp).
  pose proof (retained_length (evidence e) t o (window p)
    (Z.to_nat (max_samples_per_scope p)) (timeline_of e t)).
  pose proof (retained_sorted (evidence e) t o (window p)
    (Z.to_nat (max_samples_per_scope p)) (timeline_of e t) Hs).
  repeat case_match; constructor; simpl; try done; try lia.
  - by repeat constructor.
  - unfold saturating_sub. lia.
  - intros Hn. unfold saturating_sub. apply Hc in Hn. lia.
Qed.

End recording.

(** ** Scope keys *)
Lemma validate_scope_id_ok s u : validate_scope_id s = Ok u -> all_bytes id_byte s = true.
Proof.
  unfold validate_scope_id. destruct (_ || _) eqn:E; [done|]. intros _.
  apply orb_false_elim in E as [_ E]. by apply negb_false_iff in E.
Qed.

Lemma unit_separator_not_id : id_byte unit_separator = false.
Proof. reflexivity. Qed.

Lemma join_key_inj a a' b b' :
  all_bytes id_byte a = true -> all_bytes id_byte a' = true ->
  join_key a b = join_key a' b' -> a = a' /\ b = b'.
Proof. intros Ha Ha'. by apply (separator_inj id_byte); [apply unit_separator_not_id|..]. Qed.

Lemma scopes_for_candidate_ok target e r ss :
  scopes_for_candidate target e r = Ok ss ->
  all_bytes id_byte (provider target) = true /\ all_bytes id_byte e = true
  /\ all_bytes id_byte r = true /\ all_bytes id_byte (model target) = true
  /\ all_bytes id_byte (revision target) = true
  /\ ss = [{| kind := KProvider; key := provider target |};
           {| kind := KEndpoint; key := join_key (provider target) e |};
           {| kind := KRegion; key := join_key (provider target) r |};
           {| kind := KModel; key := join_key (provider target)
                (join_key (model target) (revision target)) |}].
Proof.
  unfold scopes_for_candidate, scope_provider, scope_endpoint, scope_region, scope_model.
  intros H. inv_ok. subst.
  repeat match goal with H : validate_scope_id _ = Ok _ |- _ => apply validate_scope_id_ok in H end.
  tauto.
Qed.

Lemma scopes_for_candidate_NoDup target e r ss :
  scopes_for_candidate target e r = Ok ss -> NoDup ss /\ length ss = 4%nat.
Proof.
  intros (_ & _ & _ & _ & _ & ->)%scopes_for_candidate_ok. split; [|done].
  repeat (apply NoDup_cons; split;
    [rewrite ?not_elem_of_cons; repeat split; try congruence; apply not_elem_of_nil|]).
  apply NoDup_nil_2.
Qed.

(** ** What one recording does *)
Section recording_claims.
Context (p : CircuitPolicy).

(** Recording an outcome on a well-formed scope: the evidence kept is the
    reference set (the sample inserted in observation order, what lies in the
    rolling window, the newest [max_samples_per_scope]); a closed circuit opens,
    until the timeline plus [open_duration], exactly when the outcome counts
    toward health and the retained failures reach the threshold; a circuit that
    is open or half-open keeps its deadline, its probes and its generation. *)
Theorem record_entry_spec t o e :
  policy_wf p -> entry_wf p e ->
  let tl := timeline_of e t in
  let ev := retained (evidence e) t o (window p) (Z.to_nat (max_samples_per_scope p)) tl in
  let e' := record_entry p t o e in
  entry_wf p e' /\ evidence e' = ev /\
  match opened_until e with
  | Some u => opened_until e' = Some u /\ half_open_probes e' = half_open_probes e
              /\ probe_generation e' = probe_generation e
  | None => opened_until e' =
      if counts_toward_health o && (failure_threshold p <=? failures ev)
      then Some (tl + open_duration p) else None
  end.
Proof.
  intros Hp Hw tl ev e'. split_and!.
  - by apply record_entry_wf.
  - unfold e'. rewrite record_entry_eq by apply Hw. fold tl ev. cbn zeta.
    by repeat case_match.
  - destruct (opened_until e) as [u|] eqn:Hu.
    + by apply record_entry_opened; [apply Hw|].
    + by apply record_entry_closed.
Qed.

(** Failures isolated to one credential, tenant or caller never change what
    the shared breaker reports: recording them keeps the state of every scope at
    every time, whatever the provider error was. *)
Theorem isolated_failures_keep_availability b scope t error isolation r b' :
  policy_wf p -> (forall sc e, b !! sc = Some e -> entry_wf p e) -> isolation <> Shared ->
  record p scope t (from_provider_error error isolation) b = (r, b') ->
  forall sc now, state b' sc now = state b sc now.
Proof.
  intros Hp Hw Hiso Hr sc now.
  assert (counts_toward_health (from_provider_error error isolation) = false) as Hn.
  { by destruct isolation. }
  unfold record in Hr. destruct (negb _ && _); simplify_eq; [done|].
  unfold state. rewrite lookup_insert. case_decide as Hsc; [subst|done].
  destruct (b !! sc) as [e|] eqn:He; simpl.
  - apply (record_entry_neutral p); [by eapply Hw|done].
  - by rewrite (record_entry_neutral p _ _ ScopeEntry_default) by (done || by apply default_wf).
Qed.
End recording_claims.

Definition example_policy : CircuitPolicy :=
  {| max_scopes := 4; max_samples_per_scope := 3; window := 100; failure_threshold := 2;
     open_duration := 10; half_open_max_probes := 1 |}.
Definition example_scope : CircuitScope := {| kind := KRegion; key := "eu" |}.
Definition example_entry : ScopeEntry :=
  {| evidence := [{| observed_at := 5; outcome := Timeout |}]; opened_until := None;
     half_open_probes := 0; probe_generation := 0 |}.

Lemma example_policy_wf : policy_wf example_policy.
Proof. split; vm_compute; split; congruence. Qed.

Lemma example_entry_wf : entry_wf example_policy example_entry.
Proof.
  split; try (vm_compute; split; congruence).
  - repeat constructor.
  - vm_compute. congruence.
Qed.

Lemma record_entry_spec_witness :
  entry_wf example_policy (record_entry example_policy 3 Throttled example_entry)
  /\ opened_until (record_entry example_policy 3 Throttled example_entry) = Some 15.
Proof.
  destruct (record_entry_spec example_policy 3 Throttled example_entry
    example_policy_wf example_entry_wf) as (H1 & _ & H2).
  split; [exact H1|]. rewrite H2. reflexivity.
Defined.

Lemma isolated_failures_keep_availability_witness :
  state (record example_policy example_scope 6 CredentialFailure
           {[ example_scope := example_entry ]}).2 example_scope 20 = Closed.
Proof.
  rewrite (isolated_failures_keep_availability example_policy {[ example_scope := example_entry ]}
    example_scope 6 {| err_kind := EThrottling; err_retry := Never; err_retry_after := None |}
    Credential (Ok tt) _ example_policy_wf).
  - reflexivity.
  - intros sc e He. apply lookup_singleton_Some in He as [_ <-]. apply example_entry_wf.
  - congruence.
  - reflexivity.
Defined.

(** Circuit scopes of different targets never share evidence: two candidates
    whose scope keys agree on the endpoint, region or model entry agree on the
    provider and on the endpoint, region or model with its revision, since no
    accepted identifier contains the key separator. *)
Theorem candidate_scopes_injective t1 e1 r1 t2 e2 r2 ss1 ss2 :
  scopes_for_candidate t1 e1 r1 = Ok ss1 -> scopes_for_candidate t2 e2 r2 = Ok ss2 ->
  (ss1 !! 0%nat = ss2 !! 0%nat -> provider t1 = provider t2)
  /\ (ss1 !! 1%nat = ss2 !! 1%nat -> provider t1 = provider t2 /\ e1 = e2)
  /\ (ss1 !! 2%nat = ss2 !! 2%nat -> provider t1 = provider t2 /\ r1 = r2)
  /\ (ss1 !! 3%nat = ss2 !! 3%nat -> t1 = t2).
Proof.
  intros (P1 & E1 & R1 & M1 & V1 & ->)%scopes_for_candidate_ok
         (P2 & E2 & R2 & M2 & V2 & ->)%scopes_for_candidate_ok. simpl.
  split_and!; intros [= H].
  - done.
  - by apply join_key_inj.
  - by apply join_key_inj.
  - apply join_key_inj in H as [Hp H]; [|done..]. apply join_key_inj in H as [Hm Hr]; [|done..].
    destruct t1, t2; simpl in *; congruence.
Qed.

Lemma candidate_scopes_injective_witness :
  exists ss, scopes_for_candidate {| provider := "p"; model := "m"; revision := "1" |} "e" "r" = Ok ss
    /\ (ss !! 1%nat = ss !! 1%nat -> "p" = "p" /\ "e" = "e").
Proof.
  eexists. split; [reflexivity|].
  exact (proj1 (proj2 (candidate_scopes_injective
    {| provider := "p"; model := "m"; revision := "1" |} "e" "r"
    {| provider := "p"; model := "m"; revision := "1" |} "e" "r" _ _ eq_refl eq_refl))).
Defined.
