(* ===== verification/CircuitProtocol.v ===== *)
(** * The half-open probe protocol

    A breaker shared by any number of clients, as a transition system: its book,
    and the permits handed out so far, each with the time it was acquired at.
    Every operation of [CircuitBreaker] and [CircuitProbePermit] is a transition,
    in any order; [admissible acquired observed] says which completion times the
    clients may report for a permit, and [requested] which lists of scopes they may
    acquire together.  The theorems say what they need of both: the probe bound holds
    when no list repeats a scope, which is so for [try_acquire] and for the scopes of a
    candidate, and fails otherwise ([repeated_scope_overruns]). *)
From S2P Require Import Prelude Machine Text Capability LlmRequest Circuit CircuitFacts.

Record sys := {
  book : gmap CircuitScope ScopeEntry;
  permits : list (Z * CircuitProbePermit);
}.

(** The probes a list of permits still holds, and how often one of them occurs. *)
Definition held (pm : CircuitProbePermit) : list ReservedProbe :=
  if active pm then permit_scopes pm else [].
Definition count_probe (r : ReservedProbe) (l : list ReservedProbe) : Z :=
  Z.of_nat (length (filter (fun x => x = r) l)).
Definition all_held (ps : list (Z * CircuitProbePermit)) : list ReservedProbe :=
  mjoin ((fun ap => held ap.2) <$> ps).

(** Probes in flight for a scope at one generation. *)
Definition outstanding (s : sys) (scope : CircuitScope) (g : Z) : Z :=
  count_probe {| probe_scope := scope; generation := g |} (all_held (permits s)).

Section protocol.
Context (p : CircuitPolicy).
Context (admissible : Z -> Z -> Prop).
Context (requested : list CircuitScope -> Prop).

Inductive step : sys -> sys -> Prop :=
| step_record b b' ps scope t o r :
    record p scope t o b = (r, b') ->
    step {| book := b; permits := ps |} {| book := b'; permits := ps |}
| step_summary b b' ps scope now r :
    evidence_summary p scope now b = (r, b') ->
    step {| book := b; permits := ps |} {| book := b'; permits := ps |}
| step_acquire b b' ps scopes now pm :
    requested scopes -> acquire_scopes p scopes now b = (Some pm, b') ->
    step {| book := b; permits := ps |} {| book := b'; permits := ps ++ [(now, pm)] |}
| step_refused b b' ps scopes now :
    acquire_scopes p scopes now b = (None, b') ->
    step {| book := b; permits := ps |} {| book := b'; permits := ps |}
| step_complete b b' ps i acq pm pm' t o :
    ps !! i = Some (acq, pm) -> admissible acq t ->
    permit_complete p t o pm b = (pm', b') ->
    step {| book := b; permits := ps |} {| book := b'; permits := <[i := (acq, pm')]> ps |}
| step_release b b' ps i acq pm pm' :
    ps !! i = Some (acq, pm) -> permit_release pm b = (pm', b') ->
    step {| book := b; permits := ps |} {| book := b'; permits := <[i := (acq, pm')]> ps |}.

(** [reach n s]: [s] is reachable from an empty breaker by [n] operations. *)
Inductive reach : nat -> sys -> Prop :=
| reach_init : reach 0 {| book := ∅; permits := [] |}
| reach_step n s s' : reach n s -> step s s' -> reach (S n) s'.
End protocol.

(** ** Counting *)
Lemma count_probe_app r l1 l2 : count_probe r (l1 ++ l2) = count_probe r l1 + count_probe r l2.
Proof. unfold count_probe. rewrite filter_app, length_app. lia. Qed.

Lemma count_probe_nonneg r l : 0 <= count_probe r l.
Proof. unfold count_probe. lia. Qed.

Lemma count_probe_0 r l : r ∉ l -> count_probe r l = 0.
Proof.
  intros H. unfold count_probe. destruct (filter _ l) as [|x k] eqn:E; [done|].
  assert (x ∈ filter (fun x => x = r) l) as Hin by (rewrite E; by left).
  apply list_elem_of_filter in Hin as [-> ?]. done.
Qed.

Lemma count_probe_pos r l : r ∈ l -> 1 <= count_probe r l.
Proof.
  intros H. unfold count_probe.
  assert (r ∈ filter (fun x => x = r) l) as Hin by (by apply list_elem_of_filter).
  destruct (filter _ l); [by apply not_elem_of_nil in Hin|]. simpl. lia.
Qed.

Lemma count_probe_cons r x l :
  count_probe r (x :: l) = (if decide (x = r) then 1 else 0) + count_probe r l.
Proof.
  unfold count_probe. case_decide.
  - rewrite filter_cons_True by done. simpl. lia.
  - by rewrite filter_cons_False by done.
Qed.

(** A permit holds a scope at most once. *)
Lemma count_probe_NoDup r l :
  NoDup (probe_scope <$> l) -> count_probe r l = if decide (r ∈ l) then 1 else 0.
Proof.
  induction l as [|x l IH]; intros Hn; [done|].
  rewrite fmap_cons, NoDup_cons in Hn. destruct Hn as [Hx Hn].
  rewrite count_probe_cons, IH by done.
  destruct (decide (x = r)) as [->|Hne].
  - rewrite (decide_True (P := r ∈ r :: l)) by (by left).
    rewrite decide_False; [lia|]. intros Hr. apply Hx. by apply list_elem_of_fmap_2.
  - destruct (decide (r ∈ l)) as [Hr|Hr].
    + rewrite decide_True by (by right). lia.
    + rewrite decide_False; [lia|]. rewrite elem_of_cons. intros [->|]; done.
Qed.

Lemma all_held_snoc ps a pm : all_held (ps ++ [(a, pm)]) = all_held ps ++ held pm.
Proof.
  unfold all_held. rewrite fmap_app, join_app. simpl. by rewrite app_nil_r.
Qed.

Lemma all_held_cons ps a pm : all_held ((a, pm) :: ps) = held pm ++ all_held ps.
Proof. done. Qed.

Lemma elem_of_all_held ps r :
  r ∈ all_held ps <-> exists i a pm, ps !! i = Some (a, pm) /\ r ∈ held pm.
Proof.
  unfold all_held. rewrite list_elem_of_join. split.
  - intros (l & Hr & Hl). apply list_elem_of_fmap in Hl as ([a pm] & -> & Hin).
    apply list_elem_of_lookup in Hin as [i Hi]. eauto.
  - intros (i & a & pm & Hi & Hr). exists (held pm). split; [done|].
    apply list_elem_of_fmap. exists (a, pm). split; [done|]. by eapply list_elem_of_lookup_2.
Qed.

(** Replacing permit [i] by one that holds nothing takes its probes away. *)
Lemma count_all_held_insert ps i a pm pm' r :
  ps !! i = Some (a, pm) -> held pm' = [] ->
  count_probe r (all_held (<[i := (a, pm')]> ps)) =
  count_probe r (all_held ps) - count_probe r (held pm).
Proof.
  intros Hi Hh. revert i Hi. induction ps as [|[a0 x] ps IH]; intros [|i] Hi; try done.
  - simpl in Hi. simplify_eq. change (<[0%nat:=(a, pm')]> ((a, pm) :: ps)) with ((a, pm') :: ps).
    rewrite !all_held_cons, Hh, !count_probe_app. unfold count_probe at 1. simpl. lia.
  - change (<[S i:=(a, pm')]> ((a0, x) :: ps)) with ((a0, x) :: <[i:=(a, pm')]> ps).
    rewrite !all_held_cons, !count_probe_app, (IH i) by done. lia.
Qed.

(** ** Updates that touch one scope each *)
Section local_updates.
Context (f : gmap CircuitScope ScopeEntry -> ReservedProbe -> gmap CircuitScope ScopeEntry).
Context (h : ReservedProbe -> ScopeEntry -> ScopeEntry).
Hypothesis local : forall b r s,
  f b r !! s = if decide (s = probe_scope r) then h r <$> b !! s else b !! s.

Lemma foldl_local_other l b s : s ∉ probe_scope <$> l -> foldl f b l !! s = b !! s.
Proof.
  revert b. induction l as [|r l IH]; intros b Hs; [done|].
  rewrite fmap_cons, not_elem_of_cons in Hs. destruct Hs as [Hne Hs].
  simpl. rewrite IH by done. rewrite local. by rewrite decide_False.
Qed.

Lemma foldl_local_at l b r :
  NoDup (probe_scope <$> l) -> r ∈ l ->
  foldl f b l !! probe_scope r = h r <$> b !! probe_scope r.
Proof.
  revert b. induction l as [|x l IH]; intros b Hn Hr; [by apply not_elem_of_nil in Hr|].
  rewrite fmap_cons, NoDup_cons in Hn. destruct Hn as [Hx Hn]. simpl.
  apply elem_of_cons in Hr as [->|Hr].
  - rewrite foldl_local_other by done. rewrite local. by rewrite decide_True.
  - rewrite IH by done. rewrite local, decide_False; [done|].
    intros Heq. apply Hx. rewrite <- Heq. by apply list_elem_of_fmap_2.
Qed.
End local_updates.

(** The transition [complete_probe] makes at a reserved probe's entry. *)
Definition complete_at (p : CircuitPolicy) (t : Z) (o : CircuitOutcome) (r : ReservedProbe)
    (e : ScopeEntry) : ScopeEntry :=
  if negb (probe_generation e =? generation r)
     || negb (bool_decide (entry_state e (timeline_of e t) = HalfOpen))
  then e else complete_entry p t o e.

Definition release_at (r : ReservedProbe) (e : ScopeEntry) : ScopeEntry :=
  if probe_generation e =? generation r
  then set_probes e (saturating_sub (half_open_probes e) 1) else e.

Lemma complete_one_local p t o b r s :
  complete_one p t o b r !! s =
  if decide (s = probe_scope r) then complete_at p t o r <$> b !! s else b !! s.
Proof.
  unfold complete_one, complete_at. case_decide as Hs.
  - subst s. destruct (b !! probe_scope r) as [e|] eqn:He; [|done].
    simpl. case_match; [done|by rewrite lookup_insert_eq].
  - destruct (b !! probe_scope r) as [e|] eqn:He; [|done].
    case_match; [done|]. by rewrite lookup_insert_ne.
Qed.

Lemma release_one_local b r s :
  release_one b r !! s =
  if decide (s = probe_scope r) then release_at r <$> b !! s else b !! s.
Proof.
  unfold release_one, release_at. case_decide as Hs.
  - subst s. destruct (b !! probe_scope r) as [e|] eqn:He; [|done].
    simpl. case_match; [by rewrite lookup_insert_eq|done].
  - destruct (b !! probe_scope r) as [e|] eqn:He; [|done].
    case_match; [|done]. by rewrite lookup_insert_ne.
Qed.

(** [reserve_probes] over distinct scopes: each half-open scope gains one probe. *)
Lemma reserve_probes_spec now scopes b rs b' :
  NoDup scopes -> reserve_probes now scopes b = (rs, b') ->
  (probe_scope <$> rs) `sublist_of` scopes /\
  forall s,
    (s ∈ scopes -> (exists e, b !! s = Some e /\ entry_state e now = HalfOpen) ->
     s ∈ probe_scope <$> rs) /\
    ((b' !! s = b !! s /\ s ∉ probe_scope <$> rs) \/
     (exists e, s ∈ scopes /\ b !! s = Some e /\ entry_state e now = HalfOpen
        /\ b' !! s = Some (set_probes e (half_open_probes e + 1))
        /\ {| probe_scope := s; generation := probe_generation e |} ∈ rs)).
Proof.
  intros Hn. revert rs b b'. induction scopes as [|sc scopes IH]; intros rs b b' H; simpl in H.
  { simplify_eq. split; [done|]. intros s. split; [by intros ?%not_elem_of_nil|].
    left. split; [done|]. apply not_elem_of_nil. }
  rewrite NoDup_cons in Hn. destruct Hn as [Hsc Hn].
  destruct (b !! sc) as [e|] eqn:He; [destruct (bool_decide _) eqn:Eh|].
  - destruct (reserve_probes now scopes _) as [rs0 b0] eqn:Hr. simplify_eq.
    apply bool_decide_eq_true in Eh.
    specialize (IH Hn _ _ _ Hr) as [Hsub IH]. split; [by constructor|].
    assert (sc ∉ probe_scope <$> rs0) as Hout.
    { intros Hin. apply Hsc. by eapply elem_of_sublist. }
    intros s. destruct (IH s) as [IHa IHb].
    destruct (decide (s = sc)) as [->|Hne].
    + split; [intros; by left|]. right. exists e.
      destruct IHb as [[Hb _]|(e' & Hin & _)]; [|done].
      rewrite lookup_insert_eq in Hb. repeat split; try done; by left.
    + rewrite lookup_insert_ne in IHa, IHb by done.
      split.
      * intros Hs Hex. rewrite fmap_cons. right. apply IHa; [|done].
        by apply elem_of_cons in Hs as [?|?].
      * destruct IHb as [[Hb Hno]|(e' & Hin & H1 & H2 & H3 & H4)].
        -- left. split; [done|]. rewrite fmap_cons, not_elem_of_cons. done.
        -- right. exists e'. repeat split; try done; by right.
  - specialize (IH Hn _ _ _ H) as [Hsub IH]. split; [by apply sublist_cons|].
    apply bool_decide_eq_false in Eh.
    intros s. destruct (IH s) as [IHa IHb]. split.
    + intros Hs Hex. apply elem_of_cons in Hs as [->|Hs]; [|by apply IHa].
      destruct Hex as (e' & He' & Hh). rewrite He in He'. simplify_eq.
    + destruct IHb as [?|(e' & Hin & ?)]; [by left|right]. exists e'. split; [by right|done].
  - specialize (IH Hn _ _ _ H) as [Hsub IH]. split; [by apply sublist_cons|].
    intros s. destruct (IH s) as [IHa IHb]. split.
    + intros Hs Hex. apply elem_of_cons in Hs as [->|Hs]; [|by apply IHa].
      destruct Hex as (e' & He' & Hh). rewrite He in He'. simplify_eq.
    + destruct IHb as [?|(e' & Hin & ?)]; [by left|right]. exists e'. split; [by right|done].
Qed.

(** ** The invariant *)
Section invariant.
Context (p : CircuitPolicy) (Hp : policy_wf p).
Context (admissible : Z -> Z -> Prop).

(** Completions are observed no earlier than their permit was acquired. *)
Definition monotone : Prop := forall a t, admissible a t -> a <= t.

Abbreviation out ps sc g :=
  (count_probe {| probe_scope := sc; generation := g |} (all_held ps)).

(** The slots of one scope: the probes in flight at its generation never exceed
    the policy's bound; while it is not closed they are covered by the counter,
    and counted exactly when completion times are monotone. *)
Record slots_ok (ps : list (Z * CircuitProbePermit)) (sc : CircuitScope) (e : ScopeEntry)
    : Prop := {
  slots_max : out ps sc (probe_generation e) <= half_open_max_probes p;
  slots_counted : forall u, opened_until e = Some u ->
    out ps sc (probe_generation e) <= half_open_probes e
    /\ (monotone -> out ps sc (probe_generation e) = half_open_probes e);
  slots_time : forall u i a pm, monotone -> opened_until e = Some u -> ps !! i = Some (a, pm) ->
    {| probe_scope := sc; generation := probe_generation e |} ∈ held pm -> u <= a;
}.

Record inv (n : Z) (s : sys) : Prop := {
  inv_wf : forall sc e, book s !! sc = Some e -> entry_wf p e;
  inv_generation : forall sc e, book s !! sc = Some e -> 0 <= probe_generation e <= n;
  inv_slots : forall sc e, book s !! sc = Some e -> slots_ok (permits s) sc e;
  inv_size : Z.of_nat (size (book s)) <= max_scopes p;
  inv_NoDup : forall i a pm, permits s !! i = Some (a, pm) ->
    NoDup (probe_scope <$> permit_scopes pm);
  inv_held : forall r, r ∈ all_held (permits s) ->
    exists e, book s !! probe_scope r = Some e /\ generation r <= probe_generation e;
}.

(** [slots_ok] reads three fields of the entry. *)
Lemma slots_ok_ext ps sc e e' :
  opened_until e' = opened_until e -> half_open_probes e' = half_open_probes e ->
  probe_generation e' = probe_generation e -> slots_ok ps sc e -> slots_ok ps sc e'.
Proof. intros Hu Hh Hg [H1 H2 H3]. constructor; rewrite ?Hu, ?Hh, ?Hg; done. Qed.

(** No probe is in flight at a generation nobody reserved. *)
Lemma slots_ok_fresh ps sc e :
  {| probe_scope := sc; generation := probe_generation e |} ∉ all_held ps ->
  half_open_probes e = 0 -> slots_ok ps sc e.
Proof.
  intros Hno Hz. pose proof (pwf_probes _ Hp). constructor.
  - rewrite count_probe_0 by done. lia.
  - intros u _. rewrite count_probe_0 by done. lia.
  - intros u i a pm _ _ Hi Hin. destruct Hno. apply elem_of_all_held. eauto 10.
Qed.

(** Opening an entry starts a generation without probes. *)
Lemma slots_ok_open ps sc e until n :
  0 <= probe_generation e <= n -> n < u64_max ->
  (forall r, r ∈ all_held ps -> probe_scope r = sc -> generation r <= probe_generation e) ->
  slots_ok ps sc (entry_open e until) /\ probe_generation e < probe_generation (entry_open e until) <= n + 1.
Proof.
  intros Hg Hn Hheld.
  assert (probe_generation (entry_open e until) = probe_generation e + 1) as Heq.
  { unfold entry_open. cbn [probe_generation]. rewrite wrapping_add_small; lia. }
  split; [|lia]. apply slots_ok_fresh; [|done]. rewrite Heq. intros Hin.
  apply Hheld in Hin; simpl in *; [lia|done].
Qed.

Lemma record_entry_slots ps sc e t o n :
  entry_wf p e -> 0 <= probe_generation e <= n -> n < u64_max -> slots_ok ps sc e ->
  (forall r, r ∈ all_held ps -> probe_scope r = sc -> generation r <= probe_generation e) ->
  slots_ok ps sc (record_entry p t o e)
  /\ probe_generation e <= probe_generation (record_entry p t o e) <= n + 1.
Proof.
  intros Hw Hg Hn Hs Hheld.
  rewrite record_entry_eq by apply Hw. cbn zeta. set (ev := retained _ _ _ _ _ _).
  destruct (bool_decide (o = Success) && _) eqn:E1.
  - apply andb_prop in E1 as [_ E1]. apply bool_decide_eq_true in E1.
    split; [|simpl; lia]. apply (slots_ok_ext ps sc e); simpl; auto.
    symmetry. by apply (wf_closed _ _ Hw).
  - destruct (bool_decide _ && _ && _).
    + destruct (slots_ok_open ps sc (set_evidence e ev) (timeline_of e t + open_duration p) n)
        as [Hs' Hg']; [done..|]. split; [done|]. clear Hs'.
      change (probe_generation (set_evidence e ev)) with (probe_generation e) in Hg'. lia.
    + split; [|simpl; lia]. by apply (slots_ok_ext ps sc e).
Qed.

(** A permit that gives up its probes: the scopes it does not hold keep their slots. *)
Lemma slots_ok_drop ps i a pm pm' sc e :
  ps !! i = Some (a, pm) -> held pm' = [] ->
  {| probe_scope := sc; generation := probe_generation e |} ∉ held pm ->
  slots_ok ps sc e -> slots_ok (<[i := (a, pm')]> ps) sc e.
Proof.
  intros Hi Hh Hno [H1 H2 H3].
  assert (out (<[i:=(a, pm')]> ps) sc (probe_generation e) = out ps sc (probe_generation e)) as Heq.
  { rewrite (count_all_held_insert ps i a pm) by done.
    rewrite (count_probe_0 _ (held pm)) by done. lia. }
  constructor; rewrite ?Heq; [done|done|].
  intros u j b q Hm Hu Hj Hin. destruct (decide (i = j)) as [->|Hne].
  - rewrite list_lookup_insert_eq in Hj by (by eapply lookup_lt_Some). simplify_eq.
    rewrite Hh in Hin. by apply not_elem_of_nil in Hin.
  - rewrite list_lookup_insert_ne in Hj by done. eauto.
Qed.

(** A permit that gives up its probe of the current generation, with the counter
    decremented as often as needed. *)
Lemma slots_ok_return ps i a pm pm' sc e e' :
  ps !! i = Some (a, pm) -> held pm' = [] -> NoDup (probe_scope <$> held pm) ->
  {| probe_scope := sc; generation := probe_generation e |} ∈ held pm ->
  probe_generation e' = probe_generation e ->
  (forall u, opened_until e' = Some u -> opened_until e = Some u
     /\ (half_open_probes e' = saturating_sub (half_open_probes e) 1
         \/ (half_open_probes e' = half_open_probes e /\ ~ monotone))) ->
  slots_ok ps sc e -> slots_ok (<[i := (a, pm')]> ps) sc e'.
Proof.
  intros Hi Hh Hn Hin Hg He' [H1 H2 H3].
  set (r := {| probe_scope := sc; generation := probe_generation e |}) in *.
  assert (1 <= count_probe r (all_held ps)) as Hpos.
  { apply count_probe_pos, elem_of_all_held. eauto 10. }
  assert (count_probe r (all_held (<[i:=(a, pm')]> ps)) = count_probe r (all_held ps) - 1) as Heq.
  { rewrite (count_all_held_insert ps i a pm) by done.
    rewrite (count_probe_NoDup r (held pm)), decide_True by done. lia. }
  constructor; rewrite Hg; fold r; rewrite ?Heq.
  - lia.
  - intros u Hu. destruct (He' u Hu) as [Hu' Hc]. destruct (H2 u Hu') as [Hle Hmono].
    unfold saturating_sub in Hc. split.
    + lia.
    + intros Hm. destruct Hc as [Hc|[_ Hnm]]; [|done]. specialize (Hmono Hm). lia.
  - intros u j b q Hm Hu Hj Hin'. destruct (He' u Hu) as [Hu' _].
    destruct (decide (i = j)) as [->|Hne].
    + rewrite list_lookup_insert_eq in Hj by (by eapply lookup_lt_Some). simplify_eq.
      rewrite Hh in Hin'. by apply not_elem_of_nil in Hin'.
    + rewrite list_lookup_insert_ne in Hj by done. eauto.
Qed.

(** The entry of a held probe after its permit completed or was released. *)
Lemma complete_at_slots ps i a pm pm' sc e t o n g :
  ps !! i = Some (a, pm) -> held pm' = [] -> NoDup (probe_scope <$> held pm) ->
  {| probe_scope := sc; generation := g |} ∈ held pm -> admissible a t ->
  entry_wf p e -> 0 <= probe_generation e <= n -> n < u64_max -> slots_ok ps sc e ->
  (forall r, r ∈ all_held ps -> probe_scope r = sc -> generation r <= probe_generation e) ->
  (forall r, r ∈ all_held (<[i := (a, pm')]> ps) -> r ∈ all_held ps) ->
  let e' := complete_at p t o {| probe_scope := sc; generation := g |} e in
  slots_ok (<[i := (a, pm')]> ps) sc e' /\ probe_generation e <= probe_generation e' <= n + 1.
Proof.
  intros Hi Hh Hn Hin Hadm Hw Hg Hlt Hs Hheld Hsub. unfold complete_at. cbn zeta. simpl generation.
  destruct (Z.eqb_spec (probe_generation e) g) as [<-|Hne]; simpl negb.
  2:{ simpl orb. split; [|lia]. eapply slots_ok_drop; try done. intros Hin'.
      apply Hne. assert (NoDup (held pm)) as Hnd by (by eapply NoDup_fmap_1).
      apply list_elem_of_lookup in Hin as [j Hj], Hin' as [k Hk].
      assert (j = k) as <-.
      { eapply NoDup_lookup; [exact Hn| |]; rewrite list_lookup_fmap, ?Hj, ?Hk; done. }
      congruence. }
  rewrite orb_false_l. destruct (bool_decide (entry_state e (timeline_of e t) = HalfOpen)) eqn:Eh;
    simpl negb; cbn iota.
  - apply bool_decide_eq_true in Eh.
    unfold complete_entry. rewrite record_evidence_retained by apply Hw.
    set (ev := retained _ _ _ _ _ _). destruct (bool_decide (o = Success)).
    + split; [|simpl; lia]. eapply (slots_ok_return ps i a pm pm' sc e); try done.
    + destruct (counts_toward_health o).
      * destruct (slots_ok_open (<[i:=(a, pm')]> ps) sc (set_evidence e ev)
          (timeline_of e t + open_duration p) n) as [Hs' Hg']; [done|done| |].
        { intros r Hr. apply Hheld. auto. }
        split; [done|]. clear Hs'.
        change (probe_generation (set_evidence e ev)) with (probe_generation e) in Hg'. lia.
      * split; [|simpl; lia]. eapply (slots_ok_return ps i a pm pm' sc e); try done. eauto.
  - split; [|lia]. apply bool_decide_eq_false in Eh.
    eapply (slots_ok_return ps i a pm pm' sc e); try done.
    intros u Hu. split; [done|]. right. split; [done|]. intros Hm. apply Eh.
    pose proof (slots_time _ _ _ Hs u i a pm Hm Hu Hi Hin). specialize (Hm _ _ Hadm).
    unfold entry_state. rewrite Hu. pose proof (timeline_of_ge e t).
    destruct (Z.ltb_spec (timeline_of e t) u); [lia|done].
Qed.

Lemma release_at_slots ps i a pm pm' sc e g :
  ps !! i = Some (a, pm) -> held pm' = [] -> NoDup (probe_scope <$> held pm) ->
  {| probe_scope := sc; generation := g |} ∈ held pm -> slots_ok ps sc e ->
  let e' := release_at {| probe_scope := sc; generation := g |} e in
  slots_ok (<[i := (a, pm')]> ps) sc e' /\ probe_generation e' = probe_generation e.
Proof.
  intros Hi Hh Hn Hin Hs. unfold release_at. cbn zeta. simpl generation.
  destruct (Z.eqb_spec (probe_generation e) g) as [<-|Hne].
  - split; [|done]. eapply (slots_ok_return ps i a pm pm' sc e); try done. eauto.
  - split; [|done]. eapply slots_ok_drop; try done. intros Hin'. apply Hne.
    apply list_elem_of_lookup in Hin as [j Hj], Hin' as [k Hk].
    assert (j = k) as <-.
    { eapply NoDup_lookup; [exact Hn| |]; rewrite list_lookup_fmap, ?Hj, ?Hk; done. }
    congruence.
Qed.

(** Updating one entry of the book, permits unchanged. *)
Lemma inv_update n b ps sc e e' :
  inv n {| book := b; permits := ps |} -> b !! sc = Some e ->
  entry_wf p e' -> slots_ok ps sc e' -> probe_generation e <= probe_generation e' <= n + 1 ->
  inv (n + 1) {| book := <[sc := e']> b; permits := ps |}.
Proof.
  intros [Hw Hg Hs Hz Hnd Hh] He Hw' Hs' Hg'. simpl in *. constructor; simpl.
  - intros s x. rewrite lookup_insert. case_decide; [by intros [= <-]|apply Hw].
  - intros s x. rewrite lookup_insert. case_decide.
    + intros [= <-]. apply Hg in He. lia.
    + intros Hx. apply Hg in Hx. lia.
  - intros s x. rewrite lookup_insert. case_decide; [subst; by intros [= <-]|apply Hs].
  - rewrite map_size_insert_Some by eauto. done.
  - done.
  - intros r Hr. destruct (Hh r Hr) as (x & Hx & Hle). rewrite lookup_insert.
    case_decide as Heq; [|eauto]. exists e'. split; [done|].
    rewrite Heq in He. rewrite He in Hx. simplify_eq. lia.
Qed.

Lemma inv_held_generation n s sc e :
  inv n s -> book s !! sc = Some e ->
  forall r, r ∈ all_held (permits s) -> probe_scope r = sc -> generation r <= probe_generation e.
Proof.
  intros Hinv He r Hr <-. destruct (inv_held _ _ Hinv r Hr) as (x & Hx & Hle).
  rewrite He in Hx. by simplify_eq.
Qed.

Lemma step_record_inv n b ps scope t o r b' :
  n < u64_max -> 0 <= n -> inv n {| book := b; permits := ps |} -> record p scope t o b = (r, b') ->
  inv (n + 1) {| book := b'; permits := ps |}.
Proof.
  intros Hlt H0 Hinv Hr. pose proof (inv_wf _ _ Hinv) as Hw. pose proof (inv_generation _ _ Hinv) as Hg.
  pose proof (inv_slots _ _ Hinv) as Hs. simpl in *.
  unfold record in Hr. destruct (b !! scope) as [e|] eqn:He.
  - rewrite (bool_decide_eq_true_2 (is_Some _)) in Hr by eauto. simpl in Hr. simplify_eq.
    destruct (record_entry_slots ps scope e t o n) as [? ?]; eauto.
    { eapply (inv_held_generation n {| book := b; permits := ps |}); eauto. }
    eapply inv_update; eauto. apply record_entry_wf; eauto.
  - rewrite (bool_decide_eq_false_2 (is_Some _)) in Hr by (by intros [? ?]). simpl in Hr.
    destruct (Z.leb_spec (max_scopes p) (Z.of_nat (size b))); simplify_eq.
    + destruct Hinv as [H1 H2 H3 H4 H5 H6]. constructor; simpl in *; auto.
      intros s e Hse. apply H2 in Hse. lia.
    + assert (forall r, r ∈ all_held ps -> probe_scope r = scope -> False) as Hnone.
      { intros r Hr <-. destruct (inv_held _ _ Hinv r Hr) as (x & Hx & _). simpl in Hx. congruence. }
      destruct (record_entry_slots ps scope ScopeEntry_default t o 0) as [Hs' Hg'].
      { by apply default_wf. }
      { simpl; lia. }
      { lia. }
      { apply slots_ok_fresh; [|done]. intros Hin. by apply Hnone in Hin. }
      { intros r Hr Hsc. by destruct (Hnone r). }
      simpl in Hg'. destruct Hinv as [H1 H2 H3 H4 H5 H6]. simpl in *. constructor; simpl.
      * intros s x. rewrite lookup_insert. case_decide; [|apply H1]. intros [= <-].
        apply record_entry_wf; [done|by apply default_wf].
      * intros s x. rewrite lookup_insert. case_decide.
        -- intros [= <-]. lia.
        -- intros Hx. apply H2 in Hx. lia.
      * intros s x. rewrite lookup_insert. case_decide; [subst; by intros [= <-]|apply H3].
      * rewrite map_size_insert_None by done. lia.
      * done.
      * intros r Hr. destruct (H6 r Hr) as (x & Hx & Hle). exists x.
        rewrite lookup_insert_ne; [done|]. intros ->. by apply (Hnone r).
Qed.

Lemma step_summary_inv n b ps scope now r b' :
  0 <= n -> inv n {| book := b; permits := ps |} -> evidence_summary p scope now b = (r, b') ->
  inv (n + 1) {| book := b'; permits := ps |}.
Proof.
  intros H0 Hinv Hr. unfold evidence_summary in Hr. destruct (b !! scope) as [e|] eqn:He; simplify_eq.
  - pose proof (inv_generation _ _ Hinv _ _ He). eapply inv_update; eauto.
    + apply evict_wf. by eapply (inv_wf _ _ Hinv).
    + eapply (slots_ok_ext ps scope e); [done..|]. by apply (inv_slots _ _ Hinv).
    + simpl in *. lia.
  - destruct Hinv as [H1 H2 H3 H4 H5 H6]. constructor; simpl in *; auto.
    intros s e Hse. apply H2 in Hse. lia.
Qed.

Lemma size_same (b b' : gmap CircuitScope ScopeEntry) :
  (forall s, is_Some (b' !! s) <-> is_Some (b !! s)) -> size b' = size b.
Proof.
  intros H. rewrite <- !size_dom. f_equal. apply set_eq. intros s. by rewrite !elem_of_dom.
Qed.

Lemma slots_ok_snoc ps now pm sc e :
  {| probe_scope := sc; generation := probe_generation e |} ∉ held pm ->
  slots_ok ps sc e -> slots_ok (ps ++ [(now, pm)]) sc e.
Proof.
  intros Hno [H1 H2 H3].
  assert (out (ps ++ [(now, pm)]) sc (probe_generation e) = out ps sc (probe_generation e)) as Heq.
  { rewrite all_held_snoc, count_probe_app, (count_probe_0 _ (held pm)) by done. lia. }
  constructor; rewrite ?Heq; [done|done|].
  intros u i a q Hm Hu Hi Hin. apply lookup_app_Some in Hi as [Hi|[Hge Hi]]; [eauto|].
  apply list_lookup_singleton_Some in Hi as [_ Hi]. simplify_eq. done.
Qed.

(** A half-open scope with a free slot gains one probe, acquired now. *)
Lemma slots_ok_reserve ps now pm sc e :
  NoDup (probe_scope <$> held pm) ->
  {| probe_scope := sc; generation := probe_generation e |} ∈ held pm ->
  entry_state e now = HalfOpen -> half_open_probes e < half_open_max_probes p ->
  slots_ok ps sc e ->
  slots_ok (ps ++ [(now, pm)]) sc (set_probes e (half_open_probes e + 1)).
Proof.
  intros Hn Hin Hst Hlt [H1 H2 H3].
  assert (exists u, opened_until e = Some u /\ u <= now) as (u & Hu & Hle).
  { unfold entry_state in Hst. destruct (opened_until e) as [u|]; [|done].
    exists u. split; [done|]. destruct (Z.ltb_spec now u); [done|lia]. }
  assert (out (ps ++ [(now, pm)]) sc (probe_generation e)
          = out ps sc (probe_generation e) + 1) as Heq.
  { rewrite all_held_snoc, count_probe_app, (count_probe_NoDup _ (held pm)), decide_True by done.
    lia. }
  destruct (H2 u Hu) as [Hb Hm].
  constructor; simpl; rewrite ?Heq; [lia| |].
  - intros u' _. split; [lia|]. intros Hmono. specialize (Hm Hmono). lia.
  - intros u' i a q Hmono Hu' Hi Hin'.
    apply lookup_app_Some in Hi as [Hi|[Hge Hi]]; [by eapply (H3 u' i a q)|].
    apply list_lookup_singleton_Some in Hi as [_ Hi]. simplify_eq. done.
Qed.

Lemma step_acquire_inv n b ps scopes now pm b' :
  0 <= n -> NoDup scopes -> inv n {| book := b; permits := ps |} ->
  acquire_scopes p scopes now b = (Some pm, b') ->
  inv (n + 1) {| book := b'; permits := ps ++ [(now, pm)] |}.
Proof.
  intros H0 Hnd [Hw Hg Hs Hz Hpn Hh] Ha. simpl in *. unfold acquire_scopes in Ha.
  destruct (existsb _ scopes) eqn:Er; [done|].
  destruct (reserve_probes now scopes b) as [rs b0] eqn:Hr. simplify_eq.
  pose proof (reserve_probes_spec _ _ _ _ _ Hnd Hr) as [Hsub Hspec].
  assert (NoDup (probe_scope <$> rs)) as Hrn by (by eapply sublist_NoDup).
  assert (forall sc e, sc ∈ scopes -> b !! sc = Some e -> entry_state e now = HalfOpen ->
    half_open_probes e < half_open_max_probes p) as Hfree.
  { intros sc e Hsc He Hst. destruct (Z.ltb_spec (half_open_probes e) (half_open_max_probes p)); [done|].
    assert (scope_refuses p b now sc = true) as Href.
    { unfold scope_refuses. rewrite He, Hst. lia. }
    assert (existsb (scope_refuses p b now) scopes = true) as Hex.
    { apply existsb_exists. exists sc. split; [by apply list_elem_of_In|done]. }
    congruence. }
  constructor; simpl.
  - intros sc e' He'. destruct (Hspec sc) as [_ [[Hb _]|(e & Hsc & He & Hst & Hb & _)]].
    + rewrite Hb in He'. eauto.
    + rewrite Hb in He'. simplify_eq. destruct (Hw _ _ He) as [? ? ? ?].
      specialize (Hfree _ _ Hsc He Hst). constructor; simpl; auto; [lia|].
      unfold entry_state in Hst. intros Hn. by rewrite Hn in Hst.
  - intros sc e' He'. destruct (Hspec sc) as [_ [[Hb _]|(e & Hsc & He & Hst & Hb & _)]].
    + rewrite Hb in He'. apply Hg in He'. lia.
    + rewrite Hb in He'. simplify_eq. apply Hg in He. simpl. lia.
  - intros sc e' He'. destruct (Hspec sc) as [_ [[Hb Hno]|(e & Hsc & He & Hst & Hb & Hin)]].
    + rewrite Hb in He'. apply slots_ok_snoc; [|by apply Hs].
      simpl. intros Hin. apply Hno. by apply (list_elem_of_fmap_2 probe_scope) in Hin.
    + rewrite Hb in He'. simplify_eq. apply slots_ok_reserve; auto. eauto.
  - rewrite (size_same b b'); [done|]. intros sc.
    destruct (Hspec sc) as [_ [[Hb _]|(e & _ & He & _ & Hb & _)]]; rewrite Hb; [done|].
    rewrite He. split; eauto.
  - intros i a q Hi. apply lookup_app_Some in Hi as [Hi|[Hge Hi]]; [by eapply Hpn|].
    apply list_lookup_singleton_Some in Hi as [_ Hi]. simplify_eq. done.
  - intros r Hr'. rewrite all_held_snoc in Hr'. simpl in Hr'.
    assert (exists e, b !! probe_scope r = Some e /\ generation r <= probe_generation e)
      as (e & He & Hle).
    { apply elem_of_app in Hr' as [Hr'|Hr']; [eauto|].
      destruct (Hspec (probe_scope r)) as [_ [[_ Hno]|(e & Hsc & He & Hst & Hb & Hin)]].
      - destruct Hno. by apply list_elem_of_fmap_2.
      - exists e. split; [done|].
        change (r ∈ rs) in Hr'. apply list_elem_of_lookup in Hr' as [j Hj], Hin as [k Hk].
        assert (j = k) as <-.
        { eapply NoDup_lookup; [exact Hrn| |]; rewrite list_lookup_fmap, ?Hj, ?Hk; done. }
        rewrite Hj in Hk. injection Hk as Hk. apply (f_equal generation) in Hk. simpl in Hk. lia. }
    destruct (Hspec (probe_scope r)) as [_ [[Hb _]|(e' & _ & He' & _ & Hb & _)]]; rewrite Hb.
    + eauto.
    + rewrite He in He'. simplify_eq. eexists. split; [done|]. simpl. lia.
Qed.

Lemma all_held_drop ps i a pm pm' r :
  ps !! i = Some (a, pm) -> held pm' = [] ->
  r ∈ all_held (<[i := (a, pm')]> ps) -> r ∈ all_held ps.
Proof.
  intros Hi Hh. rewrite !elem_of_all_held. intros (j & b & q & Hj & Hr).
  destruct (decide (i = j)) as [->|Hne].
  - rewrite list_lookup_insert_eq in Hj by (by eapply lookup_lt_Some). simplify_eq.
    rewrite Hh in Hr. by apply not_elem_of_nil in Hr.
  - rewrite list_lookup_insert_ne in Hj by done. eauto 10.
Qed.

(** A permit that gives up all its probes, each of its scopes updated locally. *)
Lemma step_drop_inv n b b' ps i a pm h :
  0 <= n -> inv n {| book := b; permits := ps |} -> ps !! i = Some (a, pm) -> active pm = true ->
  (forall sc, sc ∉ probe_scope <$> permit_scopes pm -> b' !! sc = b !! sc) ->
  (forall r, r ∈ permit_scopes pm -> b' !! probe_scope r = h r <$> b !! probe_scope r) ->
  let ps' := <[i := (a, {| permit_scopes := permit_scopes pm; active := false |})]> ps in
  (forall r e, r ∈ held pm -> b !! probe_scope r = Some e ->
     entry_wf p (h r e) /\ slots_ok ps' (probe_scope r) (h r e)
     /\ probe_generation e <= probe_generation (h r e) <= n + 1) ->
  inv (n + 1) {| book := b'; permits := ps' |}.
Proof.
  intros H0 Hinv Hi Hact Hother Hat ps' Hh'.
  assert (held pm = permit_scopes pm) as Hheld by (unfold held; by rewrite Hact).
  assert (forall sc e', b' !! sc = Some e' -> exists e, b !! sc = Some e /\
    ((e' = e /\ sc ∉ probe_scope <$> permit_scopes pm)
     \/ exists r, r ∈ held pm /\ probe_scope r = sc /\ e' = h r e)) as Hcase.
  { intros sc e' He'. destruct (decide (sc ∈ probe_scope <$> permit_scopes pm)) as [Hin|Hno].
    - apply list_elem_of_fmap in Hin as (r & -> & Hr). rewrite Hat in He' by done.
      apply fmap_Some in He' as (e & He & ->). exists e. rewrite Hheld. eauto 10.
    - rewrite Hother in He' by done. eauto 10. }
  destruct Hinv as [Hw Hg Hs Hz Hpn Hhd]. simpl in *. constructor; simpl.
  - intros sc e' He'. apply Hcase in He' as (e & He & [[-> _]|(r & Hr & <- & ->)]); [eauto|].
    by apply Hh'.
  - intros sc e' He'. apply Hcase in He' as (e & He & [[-> _]|(r & Hr & <- & ->)]).
    + apply Hg in He. lia.
    + destruct (Hh' r e Hr He) as (_ & _ & ?). apply Hg in He. lia.
  - intros sc e' He'. apply Hcase in He' as (e & He & [[-> Hno]|(r & Hr & <- & ->)]).
    + eapply slots_ok_drop; eauto. rewrite Hheld. intros Hin. apply Hno.
      by apply (list_elem_of_fmap_2 probe_scope) in Hin.
    + by apply Hh'.
  - rewrite (size_same b b'); [done|]. intros sc.
    destruct (decide (sc ∈ probe_scope <$> permit_scopes pm)) as [Hin|Hno].
    + apply list_elem_of_fmap in Hin as (r & -> & Hr). rewrite Hat by done.
      by rewrite fmap_is_Some.
    + by rewrite Hother.
  - intros j b0 q Hj. destruct (decide (i = j)) as [->|Hne].
    + unfold ps' in Hj. rewrite list_lookup_insert_eq in Hj by (by eapply lookup_lt_Some).
      simplify_eq. simpl. by eapply Hpn.
    + unfold ps' in Hj. rewrite list_lookup_insert_ne in Hj by done. by eapply Hpn.
  - intros r Hr. apply (all_held_drop ps i a pm) in Hr; [|done..].
    destruct (Hhd r Hr) as (e & He & Hle).
    destruct (decide (probe_scope r ∈ probe_scope <$> permit_scopes pm)) as [Hin|Hno].
    + apply list_elem_of_fmap in Hin as (q & Hq & Hqin). rewrite Hq in *.
      rewrite Hat, He by done. simpl. eexists. split; [done|].
      destruct (Hh' q e) as (_ & _ & ?); [by rewrite Hheld|done|]. lia.
    + rewrite Hother by done. eauto.
Qed.

Lemma inv_weaken n s : inv n s -> inv (n + 1) s.
Proof.
  intros [H1 H2 H3 H4 H5 H6]. constructor; auto. intros sc e He. apply H2 in He. lia.
Qed.

Lemma release_at_wf r e : entry_wf p e -> entry_wf p (release_at r e).
Proof.
  intros [H1 H2 H3 H4]. unfold release_at. case_match; [|by constructor].
  constructor; simpl; auto; unfold saturating_sub; [lia|]. intros Hn. rewrite H4 by done. done.
Qed.

Lemma step_complete_inv n b b' ps i a pm pm' t o :
  0 <= n -> n < u64_max -> inv n {| book := b; permits := ps |} ->
  ps !! i = Some (a, pm) -> admissible a t -> permit_complete p t o pm b = (pm', b') ->
  inv (n + 1) {| book := b'; permits := <[i := (a, pm')]> ps |}.
Proof.
  intros H0 Hlt Hinv Hi Hadm Hc. unfold permit_complete in Hc.
  destruct (active pm) eqn:Hact; simplify_eq.
  - assert (held pm = permit_scopes pm) as Hheld by (unfold held; by rewrite Hact).
    pose proof (inv_NoDup _ _ Hinv _ _ _ Hi) as Hnd. unfold complete_probe.
    eapply (step_drop_inv n b _ ps i a pm (complete_at p t o)); try done.
    + intros sc Hsc. eapply foldl_local_other; [apply complete_one_local|done].
    + intros r Hr. eapply foldl_local_at; [apply complete_one_local|done..].
    + intros [sc g] e Hr He. simpl in *. split.
      * unfold complete_at. case_match; [by eapply (inv_wf _ _ Hinv)|].
        apply complete_entry_wf; [done|]. by eapply (inv_wf _ _ Hinv).
      * eapply (complete_at_slots ps i a pm); try done.
        -- by rewrite Hheld.
        -- by eapply (inv_wf _ _ Hinv).
        -- by eapply (inv_generation _ _ Hinv).
        -- by eapply (inv_slots _ _ Hinv).
        -- by eapply (inv_held_generation n {| book := b; permits := ps |}).
        -- intros r. by eapply all_held_drop.
  - rewrite list_insert_id by done. by apply inv_weaken.
Qed.

Lemma step_release_inv n b b' ps i a pm pm' :
  0 <= n -> inv n {| book := b; permits := ps |} ->
  ps !! i = Some (a, pm) -> permit_release pm b = (pm', b') ->
  inv (n + 1) {| book := b'; permits := <[i := (a, pm')]> ps |}.
Proof.
  intros H0 Hinv Hi Hc. unfold permit_release in Hc.
  destruct (active pm) eqn:Hact; simplify_eq.
  - assert (held pm = permit_scopes pm) as Hheld by (unfold held; by rewrite Hact).
    pose proof (inv_NoDup _ _ Hinv _ _ _ Hi) as Hnd. unfold release_probes.
    eapply (step_drop_inv n b _ ps i a pm release_at); try done.
    + intros sc Hsc. eapply foldl_local_other; [apply release_one_local|done].
    + intros r Hr. eapply foldl_local_at; [apply release_one_local|done..].
    + intros [sc g] e Hr He. simpl in *.
      pose proof (inv_generation _ _ Hinv _ _ He) as Hge.
      destruct (release_at_slots ps i a pm
        {| permit_scopes := permit_scopes pm; active := false |} sc e g) as [Hs Hg];
        [done|done|by rewrite Hheld|done|by eapply (inv_slots _ _ Hinv)|].
      split; [|split; [done|lia]].
      apply release_at_wf. by eapply (inv_wf _ _ Hinv).
  - rewrite list_insert_id by done. by apply inv_weaken.
Qed.

(** Every operation preserves the invariant; a generation cannot wrap before
    [u64_max] operations. *)
Lemma step_inv requested n s s' : (forall l, requested l -> NoDup l) ->
  0 <= n -> n < u64_max -> inv n s -> step p admissible requested s s' -> inv (n + 1) s'.
Proof.
  intros Hreq H0 Hlt Hinv Hs. inversion Hs; subst;
    eauto using step_record_inv, step_summary_inv, step_acquire_inv, step_complete_inv, step_release_inv.
  unfold acquire_scopes in *. destruct (existsb _ _); [|by destruct (reserve_probes _ _ _)].
  simplify_eq. by apply inv_weaken.
Qed.

Lemma reach_inv requested n s : (forall l, requested l -> NoDup l) ->
  reach p admissible requested n s -> Z.of_nat n <= u64_max -> inv (Z.of_nat n) s.
Proof.
  intros Hreq. induction 1 as [|n s s' Hr IH Hs]; intros Hn.
  - constructor; simpl; try (intros *; rewrite lookup_empty; done); try done.
    + pose proof (pwf_scopes _ Hp). rewrite map_size_empty. lia.
    + intros r Hr. by apply not_elem_of_nil in Hr.
  - replace (Z.of_nat (S n)) with (Z.of_nat n + 1) by lia.
    eapply step_inv; eauto with lia.
Qed.
End invariant.

(** ** What clients of the breaker rely on *)
Section guarantees.
Context (p : CircuitPolicy) (admissible : Z -> Z -> Prop) (requested : list CircuitScope -> Prop).

(** C1. In every state reachable by any interleaving of at most [u64::MAX] breaker and
    permit operations in which no acquisition names a scope twice, the half-open probes in
    flight for a scope at its current generation never exceed the policy's
    [half_open_max_probes].  The code's own acquisitions are of that kind: [try_acquire]
    names one scope, and the four scopes of a candidate differ.  A caller of
    [try_acquire_candidate] that repeats a scope overruns the bound. *)
Theorem circuit_probe_bound n s scope e :
  policy_wf p -> (forall l, requested l -> NoDup l) -> reach p admissible requested n s -> Z.of_nat n <= u64_max ->
  book s !! scope = Some e ->
  0 <= outstanding s scope (probe_generation e) <= half_open_max_probes p.
Proof.
  intros Hp Hq Hr Hn He. split; [apply count_probe_nonneg|].
  eapply slots_max, inv_slots; [|done]. by apply (reach_inv p Hp admissible requested).
Qed.

(** C2. No probe slot leaks: when completions are reported no earlier than their
    permit was acquired and no acquisition names a scope twice, a half-open scope with fewer probes in flight than the
    policy allows always grants the next probe, and the permit reserves it. *)
Theorem circuit_probe_available n s scope e u now :
  policy_wf p -> (forall a t, admissible a t -> a <= t) -> (forall l, requested l -> NoDup l) ->
  reach p admissible requested n s -> Z.of_nat n <= u64_max ->
  book s !! scope = Some e -> opened_until e = Some u -> u <= now ->
  outstanding s scope (probe_generation e) < half_open_max_probes p ->
  exists pm b', try_acquire p scope now (book s) = (Some pm, b')
    /\ permit_scopes pm = [{| probe_scope := scope; generation := probe_generation e |}]
    /\ is_required pm = true.
Proof.
  intros Hp Hm Hq Hr Hn He Hu Hle Hout.
  pose proof (reach_inv p Hp admissible requested n s Hq Hr Hn) as Hinv.
  destruct (slots_counted _ _ _ _ _ (inv_slots _ _ _ _ Hinv _ _ He) u Hu) as [_ Heq].
  specialize (Heq Hm). unfold outstanding in Hout.
  assert (entry_state e now = HalfOpen) as Hst.
  { unfold entry_state. rewrite Hu. by destruct (Z.ltb_spec now u); [lia|]. }
  unfold try_acquire, acquire_scopes. cbn [existsb reserve_probes]. unfold scope_refuses.
  rewrite He, Hst. destruct (Z.leb_spec (half_open_max_probes p) (half_open_probes e)); [lia|].
  cbn [orb].   rewrite bool_decide_eq_true_2 by done. eauto.
Qed.

(** The breaker's memory is bounded: a book reachable without repeated scopes tracks at most
    [max_scopes] scopes, each with at most [max_samples_per_scope] samples in
    observation order, and its probe counters stay within the policy. *)
Theorem circuit_book_bounded n s :
  policy_wf p -> (forall l, requested l -> NoDup l) -> reach p admissible requested n s -> Z.of_nat n <= u64_max ->
  Z.of_nat (size (book s)) <= max_scopes p
  /\ (forall scope e, book s !! scope = Some e ->
        evidence_sorted (evidence e)
        /\ Z.of_nat (length (evidence e)) <= max_samples_per_scope p
        /\ 0 <= half_open_probes e <= half_open_max_probes p).
Proof.
  intros Hp Hq Hr Hn. destruct (reach_inv p Hp admissible requested n s Hq Hr Hn) as [Hw _ _ Hz _ _].
  split; [done|]. intros scope e He. destruct (Hw _ _ He). done.
Qed.
End guarantees.

(** A run that opens a scope, lets it become half-open and takes its only probe. *)
Definition demo_scope : CircuitScope := {| kind := KProvider; key := "openai" |}.
Definition demo_policy : CircuitPolicy :=
  {| max_scopes := 2; max_samples_per_scope := 2; window := 100; failure_threshold := 1;
     open_duration := 10; half_open_max_probes := 1 |}.
Definition demo_book : gmap CircuitScope ScopeEntry :=
  (record demo_policy demo_scope 0 Timeout ∅).2.
Definition demo_taken := acquire_scopes demo_policy [demo_scope] 10 demo_book.

Lemma demo_policy_wf : policy_wf demo_policy.
Proof. split; vm_compute; split; congruence. Qed.

Lemma demo_open requested : reach demo_policy Z.le requested 1 {| book := demo_book; permits := [] |}.
Proof.
  eapply reach_step; [apply reach_init|].
  eapply (step_record demo_policy Z.le requested ∅ demo_book [] demo_scope 0 Timeout). reflexivity.
Qed.

Lemma demo_probing :
  reach demo_policy Z.le (fun l => NoDup l) 2
    {| book := demo_taken.2;
       permits := [(10, default {| permit_scopes := []; active := false |} demo_taken.1)] |}.
Proof.
  eapply reach_step; [apply demo_open|].
  eapply (step_acquire demo_policy Z.le (fun l => NoDup l) demo_book demo_taken.2 [] [demo_scope] 10).
  - apply NoDup_singleton.
  - reflexivity.
Qed.

Lemma circuit_probe_bound_witness :
  exists e, demo_taken.2 !! demo_scope = Some e /\ 0 <= outstanding {| book := demo_taken.2;
       permits := [(10, default {| permit_scopes := []; active := false |} demo_taken.1)] |}
       demo_scope (probe_generation e) <= half_open_max_probes demo_policy.
Proof.
  eexists. split; [reflexivity|].
  apply (circuit_probe_bound demo_policy Z.le (fun l => NoDup l) 2
    {| book := demo_taken.2;
       permits := [(10, default {| permit_scopes := []; active := false |} demo_taken.1)] |}
    demo_scope).
  - apply demo_policy_wf.
  - done.
  - apply demo_probing.
  - vm_compute. congruence.
  - reflexivity.
Defined.

Lemma circuit_probe_available_witness :
  exists pm b', try_acquire demo_policy demo_scope 10 demo_book = (Some pm, b')
    /\ permit_scopes pm = [{| probe_scope := demo_scope; generation := 1 |}]
    /\ is_required pm = true.
Proof.
  apply (circuit_probe_available demo_policy Z.le (fun l => NoDup l) 1 {| book := demo_book; permits := [] |}
    demo_scope {| evidence := [{| observed_at := 0; outcome := Timeout |}];
                  opened_until := Some 10; half_open_probes := 0; probe_generation := 1 |} 10).
  - apply demo_policy_wf.
  - done.
  - done.
  - apply demo_open.
  - vm_compute. congruence.
  - vm_compute. reflexivity.
  - reflexivity.
  - lia.
  - vm_compute. reflexivity.
Defined.

Lemma circuit_book_bounded_witness :
  Z.of_nat (size demo_taken.2) <= max_scopes demo_policy.
Proof.
  refine (proj1 (circuit_book_bounded demo_policy Z.le (fun l => NoDup l) 2
    {| book := demo_taken.2;
       permits := [(10, default {| permit_scopes := []; active := false |} demo_taken.1)] |}
    demo_policy_wf (fun _ Hl => Hl) demo_probing _)).
  vm_compute. congruence.
Defined.

(** What a repeated scope does: [acquire_scopes] checks it against the count before the
    call and then takes a slot for each mention, so that four probes are in flight where
    the policy allows one. *)
Definition demo_repeated := acquire_scopes demo_policy [demo_scope; demo_scope; demo_scope; demo_scope] 10 demo_book.
Lemma repeated_scope_overruns :
  exists n s e, reach demo_policy Z.le (fun _ => True) n s /\ book s !! demo_scope = Some e
    /\ half_open_max_probes demo_policy = 1 /\ outstanding s demo_scope (probe_generation e) = 4.
Proof.
  eexists 2%nat, {| book := demo_repeated.2; permits := [(10, default {| permit_scopes := []; active := false |} demo_repeated.1)] |}, _.
  split; [|split; [reflexivity | split; reflexivity]]. eapply reach_step; [apply demo_open|].
  by eapply (step_acquire demo_policy Z.le (fun _ => True) demo_book demo_repeated.2 [] [demo_scope; demo_scope; demo_scope; demo_scope] 10).
Qed.

(** ** One acquisition, one completion *)
Lemma state_lookup b sc now :
  state b sc now = HalfOpen <-> exists e, b !! sc = Some e /\ entry_state e now = HalfOpen.
Proof. unfold state. destruct (b !! sc) as [e|]; split.
  - eauto.
  - by intros (? & [= ->] & ?).
  - done.
  - by intros (? & ? & ?).
Qed.

(** Acquiring a candidate is all or nothing: a refusal leaves the book alone
    and some scope was open or out of half-open slots; a grant means no scope was
    open, takes exactly one slot in every half-open scope, and changes no other
    entry. *)
Theorem acquire_all_or_nothing p scopes now b r b' :
  NoDup scopes -> try_acquire_candidate p scopes now b = (r, b') ->
  match r with
  | None => b' = b /\ exists sc, sc ∈ scopes /\ (state b sc now = Open \/
      exists e, b !! sc = Some e /\ state b sc now = HalfOpen
        /\ half_open_max_probes p <= half_open_probes e)
  | Some pm => active pm = true
      /\ (forall sc, sc ∈ scopes -> state b sc now <> Open)
      /\ (forall sc, sc ∈ probe_scope <$> permit_scopes pm
            <-> sc ∈ scopes /\ state b sc now = HalfOpen)
      /\ (forall sc, b' !! sc =
            if decide (sc ∈ probe_scope <$> permit_scopes pm)
            then (fun e => set_probes e (half_open_probes e + 1)) <$> b !! sc else b !! sc)
  end.
Proof.
  intros Hn Ha. unfold try_acquire_candidate, acquire_scopes in Ha.
  destruct (existsb (scope_refuses p b now) scopes) eqn:Er.
  - injection Ha as <- <-. split; [done|]. apply existsb_exists in Er as (sc & Hsc & Hr).
    exists sc. split; [by apply list_elem_of_In|]. unfold scope_refuses in Hr. unfold state.
    destruct (b !! sc) as [e|]; [|done]. destruct (entry_state e now) eqn:Est; [done|by left|right].
    exists e. split_and!; [done..|lia].
  - destruct (reserve_probes now scopes b) as [rs b0] eqn:Hr. simplify_eq. simpl.
    destruct (reserve_probes_spec _ _ _ _ _ Hn Hr) as [Hsub Hspec]. split_and!.
    + done.
    + intros sc Hsc Hst. assert (existsb (scope_refuses p b now) scopes = true); [|congruence].
      apply existsb_exists. exists sc. split; [by apply list_elem_of_In|].
      unfold scope_refuses, state in *. destruct (b !! sc); [by rewrite Hst|done].
    + intros sc. rewrite state_lookup. destruct (Hspec sc) as [Hin Hcase]. split.
      * intros Hrs. destruct Hcase as [[_ Hno]|(e & ? & ? & ? & _)]; [done|eauto].
      * intros [? ?]. auto.
    + intros sc. destruct (Hspec sc) as [_ [[Hb Hno]|(e & ? & He & ? & Hb & Hin)]].
      * by rewrite decide_False.
      * rewrite decide_True; [by rewrite Hb, He|].
        by apply (list_elem_of_fmap_2 probe_scope) in Hin.
Qed.

Definition half_open_entry : ScopeEntry :=
  {| evidence := []; opened_until := Some 5; half_open_probes := 0; probe_generation := 3 |}.

Lemma acquire_all_or_nothing_witness :
  try_acquire_candidate demo_policy [demo_scope] 7 {[ demo_scope := half_open_entry ]} =
    (Some {| permit_scopes := [{| probe_scope := demo_scope; generation := 3 |}]; active := true |},
     <[demo_scope := set_probes half_open_entry 1]> {[ demo_scope := half_open_entry ]})
  /\ state {[ demo_scope := half_open_entry ]} demo_scope 7 <> Open.
Proof.
  split; [reflexivity|].
  pose proof (acquire_all_or_nothing demo_policy [demo_scope] 7 {[ demo_scope := half_open_entry ]}
    _ _ (NoDup_singleton _) eq_refl) as H.
  destruct H as (_ & H & _). apply H. left.
Defined.

(** Completing a permit is decisive and happens once: for a scope still
    half-open at the generation the probe was reserved in, success closes the
    circuit, a health failure reopens it for [open_duration] in a new generation,
    any other outcome only gives the slot back; a probe of an older generation
    leaves the scope alone; and a completed permit changes nothing again. *)
Theorem probe_completion p pm t o b pm' b' r e :
  NoDup (probe_scope <$> permit_scopes pm) -> r ∈ permit_scopes pm -> active pm = true ->
  b !! probe_scope r = Some e -> entry_wf p e ->
  permit_complete p t o pm b = (pm', b') ->
  (forall t' o' b'', permit_complete p t' o' pm' b'' = (pm', b'') /\ permit_release pm' b'' = (pm', b''))
  /\ exists e', b' !! probe_scope r = Some e' /\
     if bool_decide (generation r = probe_generation e)
        && bool_decide (entry_state e (timeline_of e t) = HalfOpen)
     then if bool_decide (o = Success)
          then (forall now, entry_state e' now = Closed)
               /\ evidence e' = [{| observed_at := timeline_of e t; outcome := Success |}]
          else if counts_toward_health o
          then opened_until e' = Some (timeline_of e t + open_duration p)
               /\ half_open_probes e' = 0
               /\ probe_generation e' = wrapping_add u64_max (probe_generation e) 1
          else opened_until e' = opened_until e
               /\ half_open_probes e' = saturating_sub (half_open_probes e) 1
     else e' = e.
Proof.
  intros Hn Hr Hact He Hw Hc. unfold permit_complete in Hc. rewrite Hact in Hc. simplify_eq.
  split; [done|]. unfold complete_probe.
  erewrite foldl_local_at; [|apply complete_one_local|done..]. rewrite He. simpl.
  eexists. split; [done|]. unfold complete_at.
  rewrite Z.eqb_sym, (bool_decide_ext (generation r = _) (is_true (generation r =? probe_generation e))).
  2:{ unfold is_true. lia. }
  destruct (generation r =? probe_generation e); simpl; [|done].
  destruct (bool_decide (entry_state _ _ = HalfOpen)); simpl; [|done].
  unfold complete_entry. rewrite record_evidence_retained by apply Hw.
  destruct (bool_decide (o = Success)) eqn:Eo; [|by destruct (counts_toward_health o)].
  apply bool_decide_eq_true in Eo. subst. done.
Qed.

Lemma half_open_entry_wf : entry_wf demo_policy half_open_entry.
Proof. split; simpl; try (split; congruence); try lia; try done; repeat constructor. Qed.

Lemma probe_completion_witness :
  exists e', (permit_complete demo_policy 7 Success
     {| permit_scopes := [{| probe_scope := demo_scope; generation := 3 |}]; active := true |}
     {[ demo_scope := half_open_entry ]}).2 !! demo_scope = Some e'
  /\ entry_state e' 7 = Closed.
Proof.
  destruct (probe_completion demo_policy
     {| permit_scopes := [{| probe_scope := demo_scope; generation := 3 |}]; active := true |}
     7 Success {[ demo_scope := half_open_entry ]} _ _
     {| probe_scope := demo_scope; generation := 3 |} half_open_entry
     (NoDup_singleton _) (list_elem_of_here _ _) eq_refl (lookup_singleton_eq _ _) half_open_entry_wf eq_refl)
    as [_ (e' & He & H)].
  exists e'. split; [exact He|]. apply H.
Defined.
