(* ===== verification/Retry.v ===== *)
(** * Retry, deadline and hedge policy

    [crates/llm-routing/src/retry.rs] and [crates/llm-routing/src/hedge.rs]: phase
    deadlines, the retry budget with jittered exponential backoff, the retry
    decision, and the admission of hedged duplicates.  Durations are nanoseconds. *)
From S2P Require Import Prelude Machine Text LlmRequest.

Inductive RetryPolicyError := InvalidDeadline | InvalidRetryPolicy | InvalidJitterSample.

Record DeadlinePolicy := {
  connect : Z;
  first_byte : Z;
  idle_stream : Z;
  total : Z;
  tool_turn : Z;
}.

Definition DeadlinePolicy_new (c f i t u : Z) : result RetryPolicyError DeadlinePolicy :=
  if Duration.is_zero c || Duration.is_zero f || Duration.is_zero i || Duration.is_zero t
     || Duration.is_zero u || (t <? c) || (t <? f) || (t <? i) || (t <? u)
  then Err InvalidDeadline
  else Ok {| connect := c; first_byte := f; idle_stream := i; total := t; tool_turn := u |}.

Definition DeadlinePolicy_default : DeadlinePolicy :=
  {| connect := Duration.from_secs 2; first_byte := Duration.from_secs 10;
     idle_stream := Duration.from_secs 30; total := Duration.from_secs 60;
     tool_turn := Duration.from_secs 30 |}.

Record RetryPolicy := {
  max_attempts : Z;
  base_backoff : Z;
  max_backoff : Z;
  jitter_basis_points : Z;
  deadlines : DeadlinePolicy;
}.

Definition RetryPolicy_new (attempts base maxb jitter : Z) (d : DeadlinePolicy)
    : result RetryPolicyError RetryPolicy :=
  if (attempts =? 0) || Duration.is_zero base || (maxb <? base) || (10000 <? jitter)
  then Err InvalidRetryPolicy
  else Ok {| max_attempts := attempts; base_backoff := base; max_backoff := maxb;
             jitter_basis_points := jitter; deadlines := d |}.

Definition RetryPolicy_default : RetryPolicy :=
  {| max_attempts := 3; base_backoff := Duration.from_millis 100;
     max_backoff := Duration.from_secs 2; jitter_basis_points := 5000;
     deadlines := DeadlinePolicy_default |}.

(** [JitterSample(u16)] is the number it wraps. *)
Definition JitterSample_new (basis_points : Z) : result RetryPolicyError Z :=
  if 10000 <? basis_points then Err InvalidJitterSample else Ok basis_points.

Record RetryContext := {
  attempts_started : Z;
  elapsed : Z;
  full_deadline : Z;
  idempotent : bool;
  visible_stream_output : bool;
  jitter : Z;
}.

Definition RetryContext_for_request (policy : RetryPolicy) (request : LlmRequest)
    (started elapsed : Z) (idem visible : bool) (j : Z) : RetryContext :=
  let request_deadline := Duration.from_millis (deadline_ms (limits request)) in
  {| attempts_started := started; elapsed := elapsed;
     full_deadline := Z.min (total (deadlines policy)) request_deadline;
     idempotent := idem; visible_stream_output := visible; jitter := j |}.

Inductive RetryStopReason :=
| ProviderClassNever | MissingRetryAfter | NonIdempotent | VisibleStreamOutput
| AttemptBudgetExhausted | DeadlineExhausted.

Inductive RetryDecision := RetryAfter (delay : Z) | Stop (reason : RetryStopReason).

Definition scale_duration (duration basis_points : Z) : Z :=
  let nanos := saturating_mul u128_max duration basis_points / 10000 in
  let seconds := nanos / Duration.nanos_per_sec in
  if u64_max <? seconds then Duration.MAX
  else
    let subsecond := nanos mod Duration.nanos_per_sec in
    if u32_max <? subsecond then Duration.MAX
    else Duration.new seconds subsecond.

Definition exponential_backoff (policy : RetryPolicy) (started j : Z) : Z :=
  let exponent := Z.min (saturating_sub started 1) 31 in
  let multiplier := Z.shiftl 1 exponent in
  let capped := Z.min (Duration.saturating_mul (base_backoff policy) multiplier)
                      (max_backoff policy) in
  let spread := scale_duration capped (jitter_basis_points policy) in
  let floor := Duration.saturating_sub capped spread in
  Duration.saturating_add floor (scale_duration spread j).

Definition decide_retry (policy : RetryPolicy) (error : ProviderError) (context : RetryContext)
    : RetryDecision :=
  if visible_stream_output context then Stop VisibleStreamOutput
  else if negb (idempotent context) then Stop NonIdempotent
  else if max_attempts policy <=? attempts_started context then Stop AttemptBudgetExhausted
  else
    match err_retry error, err_retry_after error with
    | Never, _ => Stop ProviderClassNever
    | AfterRetryAfter, None => Stop MissingRetryAfter
    | _, retry_after =>
        let exponential :=
          exponential_backoff policy (attempts_started context) (jitter context) in
        let delay := match retry_after with
                     | Some ra => Z.max exponential ra
                     | None => exponential
                     end in
        let deadline := Z.min (full_deadline context) (total (deadlines policy)) in
        let remaining := Duration.saturating_sub deadline (elapsed context) in
        let minimum_attempt_window :=
          Z.min (connect (deadlines policy)) (first_byte (deadlines policy)) in
        if remaining <? Duration.saturating_add delay minimum_attempt_window
        then Stop DeadlineExhausted
        else RetryAfter delay
    end.

(** ** Hedging *)
Inductive LoserCancellationPolicy := AbortProviderRequest | ProviderCancellation.
Inductive HedgeBillingPolicy := WinnerOnly | DuplicateChargeWithinBudget.

Record HedgePolicy := {
  enabled : bool;
  hedge_delay : Z;
  loser_cancellation : option LoserCancellationPolicy;
  billing : option HedgeBillingPolicy;
}.

Inductive HedgePolicyError := InvalidDelay.

Definition HedgePolicy_disabled : HedgePolicy :=
  {| enabled := false; hedge_delay := Duration.ZERO; loser_cancellation := None; billing := None |}.

Definition HedgePolicy_enabled (delay : Z) (lc : option LoserCancellationPolicy)
    (b : option HedgeBillingPolicy) : result HedgePolicyError HedgePolicy :=
  if Duration.is_zero delay then Err InvalidDelay
  else Ok {| enabled := true; hedge_delay := delay; loser_cancellation := lc; billing := b |}.

Record HedgeAdmission := {
  admitted_delay : Z;
  admitted_cancellation : LoserCancellationPolicy;
  admitted_billing : HedgeBillingPolicy;
}.

Inductive HedgeRejectionReason :=
| HDisabled | HToolRequest | HNonIdempotent | HMissingLoserCancellation | HMissingBillingPolicy.

Definition admit_hedge (policy : HedgePolicy) (request : LlmRequest) (idem : bool)
    : result HedgeRejectionReason HedgeAdmission :=
  _ ← guard_err (negb (enabled policy)) HDisabled;
  _ ← guard_err (has_tool_semantics request) HToolRequest;
  _ ← guard_err (negb idem) HNonIdempotent;
  lc ← ok_or (loser_cancellation policy) HMissingLoserCancellation;
  b ← ok_or (billing policy) HMissingBillingPolicy;
  Ok {| admitted_delay := hedge_delay policy; admitted_cancellation := lc;
        admitted_billing := b |}.

(** ** Arithmetic of the backoff *)

(** A policy the constructors accept, at the fields' widths. *)
Record retry_policy_wf (p : RetryPolicy) : Prop := {
  rwf_base : 0 < base_backoff p;
  rwf_max : base_backoff p <= max_backoff p <= Duration.MAX;
  rwf_jitter : 0 <= jitter_basis_points p <= 10000;
  rwf_connect : 0 < connect (deadlines p) <= total (deadlines p);
  rwf_first : 0 < first_byte (deadlines p) <= total (deadlines p);
  rwf_total : total (deadlines p) <= Duration.MAX;
}.

Lemma retry_policy_new_wf a b m j c f i t u d p :
  is_duration b -> is_duration m -> is_u16 j ->
  is_duration c -> is_duration f -> is_duration t ->
  DeadlinePolicy_new c f i t u = Ok d -> RetryPolicy_new a b m j d = Ok p -> retry_policy_wf p.
Proof.
  unfold is_duration, in_range, DeadlinePolicy_new, RetryPolicy_new, Duration.is_zero.
  intros Hb Hm Hj Hc Hf Ht Hd Hp. destruct (_ || _) eqn:E1 in Hd; [done|].
  destruct (_ || _) eqn:E2 in Hp; [done|]. simplify_eq.
  repeat (apply orb_false_elim in E1 as [E1 ?]). repeat (apply orb_false_elim in E2 as [E2 ?]).
  split; simpl; lia.
Qed.

(** The two [Duration::MAX] branches of [scale_duration] are dead, and neither
    the product nor the division loses more than the fractional basis points. *)
Lemma scale_duration_eq d bp :
  is_duration d -> 0 <= bp <= 10000 -> scale_duration d bp = d * bp / 10000.
Proof.
  unfold is_duration. intros Hd Hbp. unfold scale_duration, saturating_mul.
  assert (0 <= d * bp <= Duration.MAX * 10000) as Hprod by nia.
  assert (Duration.MAX * 10000 <= u128_max) by (vm_compute; congruence).
  rewrite Z.min_l by lia. set (n := d * bp / 10000).
  assert (0 <= n <= Duration.MAX) as Hn.
  { subst n. split; [apply Z.div_pos; lia|]. apply Z.div_le_upper_bound; lia. }
  pose proof (Z.div_mod n Duration.nanos_per_sec ltac:(done)) as Hdm.
  pose proof (Z.mod_pos_bound n Duration.nanos_per_sec ltac:(done)) as Hmod.
  assert (n / Duration.nanos_per_sec <= u64_max) as Hs.
  { apply Z.lt_succ_r. apply Z.div_lt_upper_bound; [done|].
    unfold Duration.MAX, Duration.nanos_per_sec in *. lia. }
  destruct (Z.ltb_spec u64_max (n / Duration.nanos_per_sec)); [lia|].
  destruct (Z.ltb_spec u32_max (n mod Duration.nanos_per_sec)).
  { unfold u32_max, Duration.nanos_per_sec in *. lia. }
  unfold Duration.new. lia.
Qed.

Lemma scale_duration_bounds d bp :
  is_duration d -> 0 <= bp <= 10000 -> 0 <= scale_duration d bp <= d.
Proof.
  intros Hd Hbp. rewrite scale_duration_eq by done. unfold is_duration in Hd. split.
  - apply Z.div_pos; nia.
  - apply Z.div_le_upper_bound; nia.
Qed.

(** The backoff before jitter: doubled per attempt and capped. *)
Definition capped_backoff (p : RetryPolicy) (started : Z) : Z :=
  Z.min (base_backoff p * 2 ^ Z.min (Z.max (started - 1) 0) 31) (max_backoff p).

Lemma exponential_backoff_eq p started j :
  retry_policy_wf p -> 0 <= j <= 10000 ->
  let capped := capped_backoff p started in
  let spread := capped * jitter_basis_points p / 10000 in
  exponential_backoff p started j = capped - spread + spread * j / 10000
  /\ 0 <= spread <= capped /\ 0 < capped <= max_backoff p.
Proof.
  intros Hp Hj. cbn zeta. pose proof (rwf_base _ Hp). pose proof (rwf_max _ Hp).
  unfold exponential_backoff. rewrite Z.shiftl_1_l.
  replace (Z.min (Duration.saturating_mul (base_backoff p) (2 ^ Z.min (saturating_sub started 1) 31))
             (max_backoff p)) with (capped_backoff p started).
  2:{ unfold capped_backoff, Duration.saturating_mul, saturating_sub. lia. }
  assert (0 < capped_backoff p started <= max_backoff p) as Hc.
  { unfold capped_backoff. assert (0 < 2 ^ Z.min (Z.max (started - 1) 0) 31) by (apply Z.pow_pos_nonneg; lia).
    nia. }
  set (c := capped_backoff p started) in *.
  assert (is_duration c) as Hd by (unfold is_duration, Duration.valid; lia).
  pose proof (scale_duration_bounds c _ Hd (rwf_jitter _ Hp)) as Hs.
  rewrite (scale_duration_eq c) in * by (done || apply Hp).
  set (s := c * jitter_basis_points p / 10000) in *.
  assert (is_duration s) as Hds by (unfold is_duration, Duration.valid in *; lia).
  pose proof (scale_duration_bounds s _ Hds Hj) as Hs'.
  rewrite (scale_duration_eq s) in * by done.
  unfold Duration.saturating_add, Duration.saturating_sub. unfold is_duration, Duration.valid in *.
  split; lia.
Qed.

(** Rounding the spread down never undoes a larger cap. *)
Lemma jittered_mono c c' bp j :
  0 <= c <= c' -> 0 <= bp <= 10000 -> 0 <= j <= 10000 ->
  c - c * bp / 10000 + (c * bp / 10000) * j / 10000
  <= c' - c' * bp / 10000 + (c' * bp / 10000) * j / 10000.
Proof.
  intros Hc Hbp Hj. set (s := c * bp / 10000). set (s' := c' * bp / 10000).
  assert (s <= s') by (apply Z.div_le_mono; nia).
  assert (s' <= s + (c' - c)).
  { subst s s'. replace (c' * bp) with (c * bp + (c' - c) * bp) by ring.
    transitivity ((c * bp + (c' - c) * 10000) / 10000); [apply Z.div_le_mono; nia|].
    rewrite Z.div_add by lia. lia. }
  assert (s * j / 10000 <= s' * j / 10000) by (apply Z.div_le_mono; nia). lia.
Qed.

Lemma capped_backoff_mono p a b :
  retry_policy_wf p -> a <= b -> capped_backoff p a <= capped_backoff p b.
Proof.
  intros Hp Hab. unfold capped_backoff. pose proof (rwf_base _ Hp).
  assert (2 ^ Z.min (Z.max (a - 1) 0) 31 <= 2 ^ Z.min (Z.max (b - 1) 0) 31)
    by (apply Z.pow_le_mono_r; lia). nia.
Qed.

(** The backoff of an accepted policy is the capped exponential reduced by at
    most its jitter spread: it lies between [capped - spread] and [capped], never
    above [max_backoff], never overflows, reaches the cap at full jitter, and
    does not shrink as more attempts were started. *)
Theorem exponential_backoff_bounds p started j :
  retry_policy_wf p -> 0 <= j <= 10000 ->
  let capped := capped_backoff p started in
  let spread := capped * jitter_basis_points p / 10000 in
  capped - spread <= exponential_backoff p started j <= capped
  /\ capped <= max_backoff p
  /\ exponential_backoff p started 10000 = capped
  /\ (forall later, started <= later ->
        exponential_backoff p started j <= exponential_backoff p later j).
Proof.
  intros Hp Hj capped spread.
  destruct (exponential_backoff_eq p started j Hp Hj) as (Heq & Hs & Hc).
  destruct (exponential_backoff_eq p started 10000 Hp ltac:(lia)) as (Hfull & _).
  fold capped spread in Heq, Hs, Hc, Hfull.
  assert (0 <= spread * j / 10000 <= spread).
  { split; [apply Z.div_pos; nia|apply Z.div_le_upper_bound; nia]. }
  rewrite Z.div_mul in Hfull by lia. split_and!; [lia..|].
  intros later Hl. destruct (exponential_backoff_eq p later j Hp Hj) as (Heq' & _).
  rewrite Heq, Heq'. apply jittered_mono; [|apply Hp|done].
  split; [lia|]. by apply capped_backoff_mono.
Qed.

(** The delay of a retry: the backoff, raised to the provider's retry-after. *)
Definition retry_delay (p : RetryPolicy) (error : ProviderError) (started j : Z) : Z :=
  Z.max (exponential_backoff p started j) (default 0 (err_retry_after error)).

(** A retry is granted exactly when nothing was shown to the consumer, the
    operation is idempotent, attempts are left, the provider allows it (with a
    retry-after where its class requires one), and the delay together with one
    minimal attempt window still fits both the request's and the route's
    deadline; the delay is then the backoff raised to the provider's retry-after.
    No saturation falsifies the deadline test, since a request deadline is far
    below [Duration::MAX]. *)
Theorem decide_retry_iff p request error started el idem visible j delay :
  retry_policy_wf p -> 0 <= j <= 10000 -> is_u64 (deadline_ms (limits request)) ->
  is_duration el -> (forall ra, err_retry_after error = Some ra -> is_duration ra) ->
  let deadline := Z.min (total (deadlines p)) (Duration.from_millis (deadline_ms (limits request))) in
  let window := Z.min (connect (deadlines p)) (first_byte (deadlines p)) in
  decide_retry p error (RetryContext_for_request p request started el idem visible j) = RetryAfter delay
  <-> visible = false /\ idem = true /\ started < max_attempts p
      /\ err_retry error <> Never
      /\ (err_retry error = AfterRetryAfter -> is_Some (err_retry_after error))
      /\ el + delay + window <= deadline
      /\ delay = retry_delay p error started j.
Proof.
  intros Hp Hj Hdl Hel Hra deadline window.
  destruct (exponential_backoff_eq p started j Hp Hj) as (Heq & Hs & Hc).
  assert (0 <= exponential_backoff p started j) as Hpos.
  { rewrite Heq. assert (0 <= capped_backoff p started * jitter_basis_points p / 10000 * j / 10000)
      by (apply Z.div_pos; nia). lia. }
  assert (deadline < Duration.MAX) as Hlt.
  { subst deadline. unfold in_range in Hdl. unfold Duration.from_millis, Duration.MAX,
      Duration.nanos_per_sec in *. unfold u64_max in *. lia. }
  pose proof (rwf_connect _ Hp). pose proof (rwf_first _ Hp).
  assert (0 < window) by (subst window; lia). clear Heq.
  unfold decide_retry, RetryContext_for_request. cbn -[exponential_backoff Z.min Z.max].
  fold deadline window. rewrite (Z.min_l deadline) by (subst deadline; lia).
  assert (forall d, 0 <= d -> (Duration.saturating_sub deadline el <? Duration.saturating_add d window)
      = negb (el + d + window <=? deadline)) as Htest.
  { intros d Hd. unfold Duration.saturating_sub, Duration.saturating_add.
    unfold is_duration, Duration.valid in Hel.
    assert (0 < Duration.MAX) by done. lia. }
  assert (forall d, 0 <= d -> ((if Duration.saturating_sub deadline el <? Duration.saturating_add d window
        then Stop DeadlineExhausted else RetryAfter d) = RetryAfter delay
      <-> el + delay + window <= deadline /\ delay = d)) as Hdec.
  { intros d Hd. rewrite Htest by done. destruct (Z.leb_spec (el + d + window) deadline); simpl.
    - split; [intros [=]; subst; done|]. by intros [_ ->].
    - split; [done|]. intros [? ->]. lia. }
  unfold retry_delay.
  destruct visible; [split; [done|by intros (?&_)]|].
  destruct idem; [|split; [done|by intros (_&?&_)]]. cbn [negb].
  destruct (Z.leb_spec (max_attempts p) started); [split; [done|lia]|].
  destruct (err_retry error) eqn:Er; destruct (err_retry_after error) as [ra|] eqn:Ea;
    cbn [default from_option id].
  1,2: split; [done|]; intros (_&_&_&Hn&_); done.
  all: try (specialize (Hra _ eq_refl); unfold is_duration, Duration.valid in Hra).
  4: split; [done|]; intros (_&_&_&_&Hn&_); by destruct (Hn eq_refl).
  all: rewrite Hdec by lia; rewrite ?(Z.max_l _ 0) by done.
  all: split; [intros [? ->]; split_and!; eauto; done|tauto].
Qed.

Definition text_request (route : Route) (ms : Z) : LlmRequest :=
  {| route := route; messages := [{| content := [PText] |}]; generation := None;
     output := {| mode := MText; strict := None; mime_types := [] |};
     tools := None; tool_policy := None;
     limits := {| deadline_ms := ms; max_model_turns := 1; max_tool_calls := 0;
                  rl_max_input_bytes := None; rl_max_output_bytes := None;
                  rl_max_cost_microunits := None |} |}.
Definition example_route : Route :=
  {| route_id := "route-a"; route_revision := Some 1; required_capabilities := [];
     preferred_capabilities := [] |}.

Lemma RetryPolicy_default_wf : retry_policy_wf RetryPolicy_default.
Proof. split; vm_compute; (split || idtac); congruence. Qed.

Lemma exponential_backoff_bounds_witness :
  exponential_backoff RetryPolicy_default 3 10000 = 400000000.
Proof.
  destruct (exponential_backoff_bounds RetryPolicy_default 3 0 RetryPolicy_default_wf)
    as (_ & _ & H & _); [lia|]. rewrite H. reflexivity.
Defined.

Lemma decide_retry_iff_witness :
  decide_retry RetryPolicy_default
    {| err_kind := EThrottling; err_retry := AfterRetryAfter; err_retry_after := Some 500000000 |}
    (RetryContext_for_request RetryPolicy_default (text_request example_route 10000)
       1 1000000000 true false 0) = RetryAfter 500000000.
Proof.
  apply (decide_retry_iff RetryPolicy_default (text_request example_route 10000)
    {| err_kind := EThrottling; err_retry := AfterRetryAfter; err_retry_after := Some 500000000 |}
    1 1000000000 true false 0 500000000 RetryPolicy_default_wf).
  - lia.
  - vm_compute; split; congruence.
  - vm_compute; split; congruence.
  - intros ra [= <-]. vm_compute; split; congruence.
  - split_and!; try reflexivity; try done; vm_compute; congruence.
Defined.
