(* ===== verification/RouteDefinition.v ===== *)
(** * Route definitions

    [crates/llm-routing/src/definition.rs] with the fallback edges of
    [crates/llm-routing/src/fallback.rs]: identifiers, boundaries, candidate and
    route limits, ranks, and the validation of an immutable route revision.  The
    identifier newtypes are the strings they wrap. *)
From S2P Require Import Prelude Machine Text Capability LlmRequest Circuit CircuitFacts Retry.

Inductive RouteBuildError :=
| InvalidIdentifier | InvalidRevision | InvalidLimit | OverlappingCapabilities
| EmptyCandidates | TooManyCandidates | DuplicateCandidate | UnknownFallbackCandidate
| InvalidCircuitScope.

Definition ROUTE_MAX_ID_BYTES : Z := 128.
Definition MAX_CANDIDATES : Z := 65535.

Definition validate_identifier (value : string) : result RouteBuildError unit :=
  if is_empty value || (ROUTE_MAX_ID_BYTES <? len value) || negb (all_bytes id_byte value)
  then Err InvalidIdentifier else Ok tt.

(** The constructor every identifier newtype gets from [bounded_identifier!]. *)
Definition identifier_new (value : string) : result RouteBuildError string :=
  _ ← validate_identifier value;
  Ok value.

(** [RouteRevision(NonZeroU64)] *)
Definition RouteRevision_new (value : Z) : result RouteBuildError Z :=
  if value =? 0 then Err InvalidRevision else Ok value.

Inductive DataClassification := Public | Internal | Confidential | Restricted.

(** The derived order: the position of the constructor. *)
Definition classification_level (c : DataClassification) : Z :=
  match c with Public => 0 | Internal => 1 | Confidential => 2 | Restricted => 3 end.

Record SemanticBoundary := {
  residency : string;
  max_classification : DataClassification;
  safety_policy_revision : string;
}.

Record CandidateLimits := {
  cl_max_context_tokens : Z;
  cl_max_output_tokens : Z;
  cl_max_input_bytes : option Z;
  cl_max_output_bytes : option Z;
}.

Definition CandidateLimits_new (ctx out : Z) (inb outb : option Z)
    : result RouteBuildError CandidateLimits :=
  if (ctx =? 0) || (out =? 0) || bool_decide (inb = Some 0) || bool_decide (outb = Some 0)
  then Err InvalidLimit
  else Ok {| cl_max_context_tokens := ctx; cl_max_output_tokens := out;
             cl_max_input_bytes := inb; cl_max_output_bytes := outb |}.

Definition optional_capacity_covers (target source : option Z) : bool :=
  match target, source with
  | _, None => true
  | Some target, Some source => source <=? target
  | None, Some _ => false
  end.

Definition covers (self source : CandidateLimits) : bool :=
  (cl_max_context_tokens source <=? cl_max_context_tokens self)
  && (cl_max_output_tokens source <=? cl_max_output_tokens self)
  && optional_capacity_covers (cl_max_input_bytes self) (cl_max_input_bytes source)
  && optional_capacity_covers (cl_max_output_bytes self) (cl_max_output_bytes source).

Record CandidateRank := {
  quality_tier : Z;
  expected_latency : Z;
  estimated_cost_microunits : Z;
}.

Definition CandidateRank_new (tier latency cost : Z) : result RouteBuildError CandidateRank :=
  if Duration.is_zero latency then Err InvalidLimit
  else Ok {| quality_tier := tier; expected_latency := latency;
             estimated_cost_microunits := cost |}.

Record RouteCandidate := {
  cand_id : string;
  target : ModelCapabilityKey;
  endpoint : string;
  region : string;
  boundary : SemanticBoundary;
  cand_limits : CandidateLimits;
  rank : CandidateRank;
  cand_enabled : bool;
  circuit_scopes : list CircuitScope;
}.

Definition RouteCandidate_new (id : string) (t : ModelCapabilityKey) (e r : string)
    (b : SemanticBoundary) (l : CandidateLimits) (k : CandidateRank) (en : bool)
    : result RouteBuildError RouteCandidate :=
  scopes ← map_err (fun _ => InvalidCircuitScope) (scopes_for_candidate t e r);
  Ok {| cand_id := id; target := t; endpoint := e; region := r; boundary := b;
        cand_limits := l; rank := k; cand_enabled := en; circuit_scopes := scopes |}.

Record RouteLimits := {
  minimum_context_tokens : Z;
  required_output_tokens : Z;
  route_max_input_bytes : option Z;
  route_max_output_bytes : option Z;
  route_max_cost_microunits : option Z;
}.

Definition RouteLimits_new (ctx out : Z) (inb outb cost : option Z)
    : result RouteBuildError RouteLimits :=
  if (ctx =? 0) || (out =? 0) || bool_decide (inb = Some 0) || bool_decide (outb = Some 0)
  then Err InvalidLimit
  else Ok {| minimum_context_tokens := ctx; required_output_tokens := out;
             route_max_input_bytes := inb; route_max_output_bytes := outb;
             route_max_cost_microunits := cost |}.

(** ** Fallback edges *)
Record FallbackRule := { rule_from : string; rule_to : string }.

#[global] Instance FallbackRule_eq_dec : EqDecision FallbackRule.
Proof. solve_decision. Defined.

Inductive FallbackPolicyError := SelfFallback | DuplicateRule.

Definition FallbackRule_new (from to : string) : result FallbackPolicyError FallbackRule :=
  if bool_decide (from = to) then Err SelfFallback
  else Ok {| rule_from := from; rule_to := to |}.

(** The loop of [FallbackPolicy::new]: [seen] is [rules[..position]]. *)
Fixpoint fallback_duplicate (seen rules : list FallbackRule) : bool :=
  match rules with
  | [] => false
  | rule :: rest => bool_decide (rule ∈ seen) || fallback_duplicate (seen ++ [rule]) rest
  end.

Definition FallbackPolicy_new (rules : list FallbackRule)
    : result FallbackPolicyError (list FallbackRule) :=
  if fallback_duplicate [] rules then Err DuplicateRule else Ok rules.

Definition allows (rules : list FallbackRule) (from to : string) : bool :=
  existsb (fun rule => bool_decide (rule_from rule = from) && bool_decide (rule_to rule = to)) rules.

(** ** Routes *)
Record RoutePolicy := {
  required_route : bool;
  policy_required : gset ModelCapability;
  policy_preferred : gset ModelCapability;
  policy_residency : string;
  data_classification : DataClassification;
  latency_target : Z;
  route_limits : RouteLimits;
  retry : RetryPolicy;
  fallback : list FallbackRule;
  hedge : HedgePolicy;
}.

Definition RoutePolicy_new (rr : bool) (required preferred : gset ModelCapability)
    (res : string) (dc : DataClassification) (latency : Z) (l : RouteLimits) (rt : RetryPolicy)
    (f : list FallbackRule) (h : HedgePolicy) : result RouteBuildError RoutePolicy :=
  _ ← guard_err (negb (bool_decide (required ## preferred))) OverlappingCapabilities;
  _ ← guard_err (Duration.is_zero latency) InvalidLimit;
  Ok {| required_route := rr; policy_required := required; policy_preferred := preferred;
        policy_residency := res; data_classification := dc; latency_target := latency;
        route_limits := l; retry := rt; fallback := f; hedge := h |}.

Record RouteDefinition := {
  rd_id : string;
  rd_revision : Z;
  observability_name : string;
  policy : RoutePolicy;
  candidates : list RouteCandidate;
}.

(** [candidates.iter().any(|c| !ids.insert(c.id().clone()))]: stops at the first
    duplicate; otherwise [ids] holds every identifier. *)
Fixpoint insert_ids (cs : list RouteCandidate) (ids : gset string) : bool * gset string :=
  match cs with
  | [] => (false, ids)
  | c :: cs' =>
      if bool_decide (cand_id c ∈ ids) then (true, ids)
      else insert_ids cs' ({[ cand_id c ]} ∪ ids)
  end.

Definition RouteDefinition_new (id : string) (revision : Z) (name : string) (p : RoutePolicy)
    (cs : list RouteCandidate) : result RouteBuildError RouteDefinition :=
  _ ← guard_err (match cs with [] => true | _ => false end) EmptyCandidates;
  _ ← guard_err (MAX_CANDIDATES <? Z.of_nat (length cs)) TooManyCandidates;
  let '(duplicate, ids) := insert_ids cs ∅ in
  _ ← guard_err duplicate DuplicateCandidate;
  _ ← guard_err (existsb (fun rule => negb (bool_decide (rule_from rule ∈ ids))
                              || negb (bool_decide (rule_to rule ∈ ids))) (fallback p))
        UnknownFallbackCandidate;
  Ok {| rd_id := id; rd_revision := revision; observability_name := name; policy := p;
        candidates := cs |}.

Definition candidate (rd : RouteDefinition) (id : string) : option RouteCandidate :=
  find (fun c => bool_decide (cand_id c = id)) (candidates rd).

(** ** What construction guarantees *)

(** A candidate built by its constructor carries the scopes of its own target. *)
Definition candidate_wf (c : RouteCandidate) : Prop :=
  scopes_for_candidate (target c) (endpoint c) (region c) = Ok (circuit_scopes c).

(** Limits built by their constructor. *)
Definition limits_wf (l : RouteLimits) : Prop :=
  0 < minimum_context_tokens l /\ 0 < required_output_tokens l.

(** A route built by its constructor from constructed candidates and limits. *)
Record route_wf (rd : RouteDefinition) : Prop := {
  rwf_nonempty : candidates rd <> [];
  rwf_count : Z.of_nat (length (candidates rd)) <= MAX_CANDIDATES;
  rwf_ids : NoDup (cand_id <$> candidates rd);
  rwf_fallback : forall rule, rule ∈ fallback (policy rd) ->
    rule_from rule ∈ cand_id <$> candidates rd /\ rule_to rule ∈ cand_id <$> candidates rd;
  rwf_candidates : forall c, c ∈ candidates rd -> candidate_wf c;
  rwf_limits : limits_wf (route_limits (policy rd));
}.

Lemma RouteLimits_new_wf ctx out inb outb cost l :
  is_u64 ctx -> is_u64 out -> RouteLimits_new ctx out inb outb cost = Ok l -> limits_wf l.
Proof.
  unfold RouteLimits_new, limits_wf, in_range. intros Hc Ho H. destruct (_ || _) eqn:E in H; [done|].
  simplify_eq. simpl. blia.
Qed.

Lemma RouteCandidate_new_wf id t e r b l k en c :
  RouteCandidate_new id t e r b l k en = Ok c -> candidate_wf c.
Proof. unfold RouteCandidate_new, candidate_wf. intros H. inv_ok. by subst. Qed.

Lemma insert_ids_ok cs ids ids' :
  insert_ids cs ids = (false, ids') ->
  NoDup (cand_id <$> cs) /\ (forall x, x ∈ cand_id <$> cs -> x ∉ ids)
  /\ (forall x, x ∈ ids' <-> x ∈ ids \/ x ∈ cand_id <$> cs).
Proof.
  revert ids. induction cs as [|c cs IH]; simpl; intros ids H.
  - simplify_eq. split_and!; [constructor|by intros ? ?%not_elem_of_nil|].
    intros x. rewrite elem_of_nil. tauto.
  - case_bool_decide as Hc; [done|]. destruct (IH _ H) as (Hn & Hd & Hi). split_and!.
    + constructor; [|done]. intros Hin. apply (Hd _ Hin), elem_of_union. left.
      by apply elem_of_singleton.
    + intros x. rewrite elem_of_cons. intros [->|Hx]; [done|]. intros Hin.
      apply (Hd _ Hx), elem_of_union. by right.
    + intros x. rewrite Hi, elem_of_union, elem_of_singleton, elem_of_cons. tauto.
Qed.

Lemma RouteDefinition_new_wf id rev name p cs rd :
  (forall c, c ∈ cs -> candidate_wf c) -> limits_wf (route_limits p) ->
  RouteDefinition_new id rev name p cs = Ok rd -> route_wf rd.
Proof.
  intros Hcs Hl. unfold RouteDefinition_new.
  destruct (insert_ids cs ∅) as [dup ids] eqn:Hids. intros H. inv_ok. subst dup rd.
  apply insert_ids_ok in Hids as (Hn & _ & Hi). split; simpl; try done.
  - by destruct cs.
  - lia.
  - intros rule Hr. match goal with H : existsb _ _ = false |- _ => rename H into He end.
    rewrite <- not_true_iff_false, existsb_exists in He.
    assert (forall x, x ∈ ids -> x ∈ cand_id <$> cs) as Hsub.
    { intros x Hx. apply Hi in Hx as [Hx|]; [|done]. by apply elem_of_empty in Hx. }
    split; apply Hsub; apply dec_stable; intros Hno; apply He; exists rule;
      (split; [by apply list_elem_of_In|]); rewrite (bool_decide_eq_false_2 _ Hno); simpl;
      by rewrite ?orb_true_r.
Qed.

Lemma candidate_Some rd id c :
  candidate rd id = Some c -> c ∈ candidates rd /\ cand_id c = id.
Proof.
  unfold candidate. intros [Hin Hb]%find_some. split; [by apply list_elem_of_In|].
  by apply bool_decide_eq_true in Hb.
Qed.

Lemma allows_true rules from to :
  allows rules from to = true <-> {| rule_from := from; rule_to := to |} ∈ rules.
Proof.
  unfold allows. rewrite existsb_exists. split.
  - intros ([f t] & Hin & Hb). apply andb_prop in Hb as [Hf Ht].
    apply bool_decide_eq_true in Hf, Ht. simpl in *. subst. by apply list_elem_of_In.
  - intros Hin. eexists. split; [by apply list_elem_of_In|]. simpl.
    by rewrite !bool_decide_eq_true_2.
Qed.

(** The region of a constructed candidate is an identifier the registry accepts. *)
Lemma id_byte_not_blank s : all_bytes id_byte s = true -> is_empty s = false -> is_blank s = false.
Proof.
  destruct s as [|c s]; [done|]. simpl. intros [Hc _]%andb_prop _.
  assert (48 <= byte_val c <= 122 \/ byte_val c = 45 \/ byte_val c = 46) as Hr.
  { unfold id_byte, is_ascii_alphanumeric in Hc. lia. }
  unfold blank1, blank2, blank3. destruct ((9 <=? byte_val c) && _ || _) eqn:E; [lia|].
  destruct s as [|c2 s]; [done|]. destruct ((byte_val c =? 194) && _) eqn:E2; [lia|].
  destruct s as [|c3 s]; [done|]. apply andb_false_iff. left. lia.
Qed.

Lemma candidate_region_valid c : candidate_wf c -> validate_id (region c) = Ok tt.
Proof.
  unfold candidate_wf, scopes_for_candidate, scope_region. intros H. inv_ok.
  match goal with H : validate_scope_id (region c) = _ |- _ => rename H into Hr end.
  unfold validate_scope_id in Hr. destruct (_ || _) eqn:E in Hr; [done|].
  apply orb_false_elim in E as [E Eb]. apply orb_false_elim in E as [Ee El].
  apply negb_false_iff in Eb. unfold validate_id.
  rewrite (id_byte_not_blank _ Eb Ee). simpl. unfold MAX_SCOPE_ID_BYTES in El.
  unfold MAX_ID_BYTES. by rewrite El.
Qed.
