(* ===== verification/Selection.v ===== *)
(** * Candidate selection

    [crates/llm-routing/src/selection.rs]: the requirements of a request, the
    hard filters of one candidate, the deterministic ranking, and the selection
    that acquires half-open probes.  Selection locks the shared circuit book
    several times; between two of its critical sections other clients may run.
    [world] carries the book and what the others do before each of the next
    critical sections (nothing, once the list is empty). *)
From S2P Require Import Prelude Machine Text Capability LlmRequest Circuit.
From S2P Require Import CircuitFacts CircuitProtocol Retry RouteDefinition.

(** ** Requirements *)
Inductive RejectionReason :=
| Disabled | ResidencyMismatch | ClassificationUnsupported | LatencyTargetExceeded
| ContextCapacityInsufficient | OutputTokenCapacityInsufficient
| InputByteCapacityInsufficient | OutputByteCapacityInsufficient | BudgetExceeded
| UnsupportedRequestSemantics | CapabilityDeclarationMissing
| RequiredCapabilityUnavailable | CapabilityRegionUnavailable
| CapabilityLimitsInsufficient | CircuitUnavailable (kind : CircuitScopeKind).

#[global] Instance RejectionReason_eq_dec : EqDecision RejectionReason.
Proof. solve_decision. Defined.

Record RequestRequirements := {
  rq_required : gset ModelCapability;
  rq_preferred : gset ModelCapability;
  unknown_required : bool;
  unknown_preferred_count : Z;
  strict_structured_output : bool;
  rq_minimum_context_tokens : Z;
  rq_required_output_tokens : Z;
  required_input_bytes : option Z;
  required_output_bytes : option Z;
  rq_max_cost_microunits : option Z;
}.

Definition for_route (route : RouteDefinition) : RequestRequirements :=
  let l := route_limits (policy route) in
  {| rq_required := {[ TextInput ]} ∪ policy_required (policy route);
     rq_preferred := policy_preferred (policy route);
     unknown_required := false;
     unknown_preferred_count := 0;
     strict_structured_output := false;
     rq_minimum_context_tokens := minimum_context_tokens l;
     rq_required_output_tokens := required_output_tokens l;
     required_input_bytes := route_max_input_bytes l;
     required_output_bytes := route_max_output_bytes l;
     rq_max_cost_microunits := route_max_cost_microunits l |}.

Definition parse_capability (value : string) : option ModelCapability :=
  match value with
  | "text_input" => Some TextInput
  | "image_input" => Some ImageInput
  | "audio_input" => Some AudioInput
  | "video_input" => Some VideoInput
  | "file_input" => Some FileInput
  | "resource_input" => Some ResourceInput
  | "text_output" => Some TextOutput
  | "structured_output" => Some StructuredOutput
  | "image_output" => Some ImageOutput
  | "audio_output" => Some AudioOutput
  | "video_output" => Some VideoOutput
  | "file_output" => Some FileOutput
  | "resource_output" => Some ResourceOutput
  | "annotation_output" => Some AnnotationOutput
  | "execution_step_output" => Some ExecutionStepOutput
  | "strict_json_schema" => Some StrictJsonSchema
  | "strict_tool_output" => Some StrictToolOutput
  | "tools" => Some Tools
  | "parallel_tool_calls" => Some ParallelToolCalls
  | "streaming" => Some Streaming
  | "resumable_conversations" => Some ResumableConversations
  | "citations" => Some Citations
  | "grounding" => Some Grounding
  | "token_scores" => Some TokenScores
  | "safety_metadata" => Some SafetyMetadata
  | "search_results" => Some SearchResults
  | "provider_executed_steps" => Some ProviderExecutedSteps
  | "reasoning_summaries" => Some ReasoningSummaries
  | "opaque_reasoning_state" => Some OpaqueReasoningState
  | "embeddings" => Some Embeddings
  | "reranking" => Some Reranking
  | "transcription" => Some Transcription
  | "speech_generation" => Some SpeechGeneration
  | "image_generation" => Some ImageGeneration
  | "video_generation" => Some VideoGeneration
  | "prompt_caching" => Some PromptCaching
  | "cache_controls" => Some CacheControls
  | _ => None
  end%string.

(** Field updates of [requirements]. *)
Definition require (c : ModelCapability) (q : RequestRequirements) : RequestRequirements :=
  {| rq_required := {[ c ]} ∪ rq_required q; rq_preferred := rq_preferred q;
     unknown_required := unknown_required q; unknown_preferred_count := unknown_preferred_count q;
     strict_structured_output := strict_structured_output q;
     rq_minimum_context_tokens := rq_minimum_context_tokens q;
     rq_required_output_tokens := rq_required_output_tokens q;
     required_input_bytes := required_input_bytes q;
     required_output_bytes := required_output_bytes q;
     rq_max_cost_microunits := rq_max_cost_microunits q |}.

Definition prefer (c : ModelCapability) (q : RequestRequirements) : RequestRequirements :=
  {| rq_required := rq_required q; rq_preferred := {[ c ]} ∪ rq_preferred q;
     unknown_required := unknown_required q; unknown_preferred_count := unknown_preferred_count q;
     strict_structured_output := strict_structured_output q;
     rq_minimum_context_tokens := rq_minimum_context_tokens q;
     rq_required_output_tokens := rq_required_output_tokens q;
     required_input_bytes := required_input_bytes q;
     required_output_bytes := required_output_bytes q;
     rq_max_cost_microunits := rq_max_cost_microunits q |}.

Definition set_unknown (q : RequestRequirements) (unknown : bool) (count : Z) (strict : bool)
    : RequestRequirements :=
  {| rq_required := rq_required q; rq_preferred := rq_preferred q;
     unknown_required := unknown; unknown_preferred_count := count;
     strict_structured_output := strict;
     rq_minimum_context_tokens := rq_minimum_context_tokens q;
     rq_required_output_tokens := rq_required_output_tokens q;
     required_input_bytes := required_input_bytes q;
     required_output_bytes := required_output_bytes q;
     rq_max_cost_microunits := rq_max_cost_microunits q |}.

Definition add_required (q : RequestRequirements) (name : string) : RequestRequirements :=
  match parse_capability name with
  | Some c => require c q
  | None => set_unknown q true (unknown_preferred_count q) (strict_structured_output q)
  end.

Definition add_preferred (q : RequestRequirements) (name : string) : RequestRequirements :=
  match parse_capability name with
  | Some c => prefer c q
  | None => set_unknown q (unknown_required q) (unknown_preferred_count q + 1)
              (strict_structured_output q)
  end.

(** Does the route or the request already declare a media output? *)
Definition is_media (c : ModelCapability) : bool :=
  match c with
  | ImageOutput | AudioOutput | VideoOutput | FileOutput | ResourceOutput => true
  | _ => false
  end.

Definition media_capability (mime_type : string) : ModelCapability :=
  if starts_with "image/" mime_type then ImageOutput
  else if starts_with "audio/" mime_type then AudioOutput
  else if starts_with "video/" mime_type then VideoOutput
  else FileOutput.

Definition derive_media_output (request : LlmRequest) (q : RequestRequirements)
    : RequestRequirements :=
  match mime_types (output request) with
  | [] =>
      let declares := existsb is_media (elements (rq_required q)) in
      set_unknown q (unknown_required q || negb declares) (unknown_preferred_count q)
        (strict_structured_output q)
  | mimes => foldl (fun q mime => require (media_capability mime) q) q mimes
  end.

(** [part_capability] is the match of the message loop; its wildcard arm stands
    for kinds the non-exhaustive enum does not have yet. *)
Definition part_capability (part : LlmInputPart) : option ModelCapability :=
  match part with
  | PText | PStructured => None
  | PImage => Some ImageInput
  | PAudio => Some AudioInput
  | PVideo => Some VideoInput
  | PFile => Some FileInput
  | PResource => Some ResourceInput
  | PToolResult => Some Tools
  end.

Definition require_part (q : RequestRequirements) (part : LlmInputPart) : RequestRequirements :=
  match part_capability part with Some c => require c q | None => q end.

Definition derive_request_semantics (request : LlmRequest) (q : RequestRequirements)
    : RequestRequirements :=
  let q1 := foldl require_part (require TextInput q) (all_parts request) in
  let q2 := if has_tool_semantics request then require Tools q1 else q1 in
  match mode (output request) with
  | MAuto => q2
  | MText => require TextOutput q2
  | MStructured =>
      if bool_decide (strict (output request) = Some true)
      then set_unknown q2 (unknown_required q2) (unknown_preferred_count q2) true
      else require StructuredOutput q2
  | MTools => require Tools q2
  | MMedia => derive_media_output request q2
  end.

Definition capacity_satisfies (available required : option Z) : bool :=
  match available, required with
  | _, None => true
  | Some available, Some required => required <=? available
  | None, Some _ => false
  end.

Definition max_optional (left right : option Z) : option Z :=
  match left, right with
  | Some l, Some r => Some (if r <? l then l else r)
  | Some v, None | None, Some v => Some v
  | None, None => None
  end.

Definition min_optional (left right : option Z) : option Z :=
  match left, right with
  | Some l, Some r => Some (if l <? r then l else r)
  | Some v, None | None, Some v => Some v
  | None, None => None
  end.

Definition for_request (route : RouteDefinition) (request : LlmRequest) : RequestRequirements :=
  let q0 := for_route route in
  let q1 := foldl add_required q0 (required_capabilities (LlmRequest.route request)) in
  let q2 := foldl add_preferred q1 (preferred_capabilities (LlmRequest.route request)) in
  let q3 := derive_request_semantics request q2 in
  let requested := g ← LlmRequest.generation request; max_output_tokens g in
  {| rq_required := rq_required q3;
     rq_preferred := rq_preferred q3 ∖ rq_required q3;
     unknown_required := unknown_required q3;
     unknown_preferred_count := unknown_preferred_count q3;
     strict_structured_output := strict_structured_output q3;
     rq_minimum_context_tokens := rq_minimum_context_tokens q3;
     rq_required_output_tokens :=
       match requested with
       | Some tokens => Z.max (rq_required_output_tokens q3) tokens
       | None => rq_required_output_tokens q3
       end;
     required_input_bytes :=
       max_optional (required_input_bytes q3) (rl_max_input_bytes (limits request));
     required_output_bytes :=
       max_optional (required_output_bytes q3) (rl_max_output_bytes (limits request));
     rq_max_cost_microunits :=
       min_optional (rq_max_cost_microunits q3) (rl_max_cost_microunits (limits request)) |}.

(** ** The shared book under interleaving *)
Abbreviation circuit_book := (gmap CircuitScope ScopeEntry).

Record world := {
  shared : circuit_book;
  others : list (circuit_book -> circuit_book);
}.

(** Entering a critical section: the others ran up to here. *)
Definition lock (w : world) : world :=
  match others w with
  | [] => w
  | f :: fs => {| shared := f (shared w); others := fs |}
  end.

Definition locked_states (scopes : list CircuitScope) (now : Z) (w : world)
    : list CircuitState * world :=
  let w' := lock w in (candidate_states (shared w') scopes now, w').

Definition locked_acquire (p : CircuitPolicy) (scopes : list CircuitScope) (now : Z) (w : world)
    : option CircuitProbePermit * world :=
  let w' := lock w in
  let '(permit, b) := try_acquire_candidate p scopes now (shared w') in
  (permit, {| shared := b; others := others w' |}).

(** ** One candidate *)
Record CandidateEvaluation := {
  reasons : list RejectionReason;
  admission : option ModelCapabilityAdmission;
  health_penalty : Z;
}.

Definition push_if (c : bool) (r : RejectionReason) : list RejectionReason :=
  if c then [r] else [].

Definition registry_rejection (error : CapabilityRegistryError) : RejectionReason :=
  match error with
  | UnknownModelRevision | InvalidDeclaration | InvalidRequirements | DuplicateDeclaration =>
      CapabilityDeclarationMissing
  | UnsupportedRequirements _ => RequiredCapabilityUnavailable
  | RegionUnavailable => CapabilityRegionUnavailable
  | InsufficientLimits => CapabilityLimitsInsufficient
  end.

(** The checks against the route policy and the request's limits. *)
Definition policy_reasons (route : RouteDefinition) (c : RouteCandidate) (q : RequestRequirements)
    : list RejectionReason :=
  push_if (negb (cand_enabled c)) Disabled
  ++ push_if (negb (bool_decide (residency (boundary c) = policy_residency (policy route))))
       ResidencyMismatch
  ++ push_if (classification_level (max_classification (boundary c))
              <? classification_level (data_classification (policy route)))
       ClassificationUnsupported
  ++ push_if (latency_target (policy route) <? expected_latency (rank c)) LatencyTargetExceeded
  ++ push_if (cl_max_context_tokens (cand_limits c) <? rq_minimum_context_tokens q)
       ContextCapacityInsufficient
  ++ push_if (cl_max_output_tokens (cand_limits c) <? rq_required_output_tokens q)
       OutputTokenCapacityInsufficient
  ++ push_if (negb (capacity_satisfies (cl_max_input_bytes (cand_limits c)) (required_input_bytes q)))
       InputByteCapacityInsufficient
  ++ push_if (negb (capacity_satisfies (cl_max_output_bytes (cand_limits c)) (required_output_bytes q)))
       OutputByteCapacityInsufficient
  ++ push_if (match rq_max_cost_microunits q with
              | Some ceiling => ceiling <? estimated_cost_microunits (rank c)
              | None => false
              end) BudgetExceeded
  ++ push_if (unknown_required q) UnsupportedRequestSemantics.

(** The alternative a strict structured output falls on, and whether it is missing. *)
Definition strict_alternative (registry : ModelCapabilityRegistry) (c : RouteCandidate)
    (q : RequestRequirements) : gset ModelCapability * bool :=
  if strict_structured_output q then
    match registry_get registry (target c) with
    | Some declaration =>
        if supports declaration StrictJsonSchema then ({[ StrictJsonSchema ]} ∪ rq_required q, false)
        else if supports declaration StrictToolOutput then ({[ StrictToolOutput ]} ∪ rq_required q, false)
        else (rq_required q, true)
    | None => (rq_required q, false)
    end
  else (rq_required q, false).

(** What [ModelCapabilityRequirements::new] is called with. *)
Definition core_requirements (registry : ModelCapabilityRegistry) (c : RouteCandidate)
    (q : RequestRequirements) : result CapabilityRegistryError ModelCapabilityRequirements :=
  let required := (strict_alternative registry c q).1 in
  ModelCapabilityRequirements_new required (rq_preferred q ∖ required) (Some (region c))
    (Some (rq_minimum_context_tokens q)) (Some (rq_required_output_tokens q)).

(** The registry's verdict: the reasons it adds, or the admission. *)
Definition registry_verdict (registry : ModelCapabilityRegistry) (c : RouteCandidate)
    (q : RequestRequirements) : list RejectionReason * option ModelCapabilityAdmission :=
  match core_requirements registry c q with
  | Ok core =>
      match admit_exact registry (target c) core with
      | Ok a => ([], Some a)
      | Err error => ([registry_rejection error], None)
      end
  | Err _ => ([UnsupportedRequestSemantics], None)
  end.

(** Everything [evaluate_candidate] decides before it looks at circuits. *)
Definition evaluate_static (route : RouteDefinition) (c : RouteCandidate) (q : RequestRequirements)
    (registry : ModelCapabilityRegistry) : list RejectionReason * option ModelCapabilityAdmission :=
  let '(more, adm) := registry_verdict registry c q in
  let rs := policy_reasons route c q ++ more in
  let missing := (strict_alternative registry c q).2
                 && negb (bool_decide (RequiredCapabilityUnavailable ∈ rs)) in
  (rs ++ push_if missing RequiredCapabilityUnavailable, adm).

(** The loop over [scopes.zip(states)]. *)
Definition circuit_reasons (scopes : list CircuitScope) (states : list CircuitState)
    : list RejectionReason :=
  mjoin ((fun ss => push_if (bool_decide (ss.2 = Open)) (CircuitUnavailable (kind ss.1)))
         <$> zip scopes states).

Definition penalty (states : list CircuitState) : Z :=
  foldl (fun n s => if bool_decide (s = HalfOpen) then saturating_add u8_max n 1 else n) 0 states.

Definition evaluate_candidate (route : RouteDefinition) (c : RouteCandidate)
    (q : RequestRequirements) (registry : ModelCapabilityRegistry) (circuit_context : option Z)
    (w : world) : CandidateEvaluation * world :=
  let '(rs, adm) := evaluate_static route c q registry in
  match circuit_context with
  | None => ({| reasons := rs; admission := adm; health_penalty := 0 |}, w)
  | Some now =>
      let '(states, w') := locked_states (circuit_scopes c) now w in
      ({| reasons := rs ++ circuit_reasons (circuit_scopes c) states; admission := adm;
          health_penalty := penalty states |}, w')
  end.

(** ** Ranking *)
Record EligibleCandidate := {
  position : Z;
  el_candidate : RouteCandidate;
  el_admission : ModelCapabilityAdmission;
  el_unknown_preferred : Z;
  el_penalty : Z;
}.

Definition unmet_preferred (a : ModelCapabilityAdmission) (unknown : Z) : Z :=
  saturating_add usize_max (Z.of_nat (size (adm_unmet_preferred a))) unknown.

(** The components of the ranking tuple; [Reverse] negates. *)
Definition ranking_key (e : EligibleCandidate) : list Z :=
  [ unmet_preferred (el_admission e) (el_unknown_preferred e);
    el_penalty e;
    - quality_tier (rank (el_candidate e));
    expected_latency (rank (el_candidate e));
    estimated_cost_microunits (rank (el_candidate e));
    position e ].

(** The lexicographic order on keys. *)
Fixpoint lex_le (a b : list Z) : bool :=
  match a, b with
  | [], _ => true
  | _ :: _, [] => false
  | x :: a', y :: b' => (x <? y) || ((x =? y) && lex_le a' b')
  end.

Definition compare_eligible (l r : EligibleCandidate) : Prop :=
  lex_le (ranking_key l) (ranking_key r) = true.

#[global] Instance compare_eligible_dec : RelDecision compare_eligible.
Proof. intros l r. unfold compare_eligible. apply _. Defined.

(** ** Selection *)
Inductive SelectionError :=
| RouteIdentityMismatch | RouteRevisionRequired | RouteRevisionMismatch.

(** A call may return an error or reach the [unreachable!] of its position check. *)
Inductive selection_fault := Rejected (e : SelectionError) | PositionOverflow.

Record CandidateRejection := { rejected_position : Z; rejected_reasons : list RejectionReason }.

Record SelectedCandidate := {
  candidate_position : Z;
  candidate_id : string;
  capability_registry_revision : string;
  unmet_preferred_count : Z;
  probe_permit : CircuitProbePermit;
}.

Record SelectionReport := {
  selected : option SelectedCandidate;
  rejections : list CandidateRejection;
}.

Definition validate_request_route (route : RouteDefinition) (request : LlmRequest)
    : result SelectionError unit :=
  if negb (bool_decide (route_id (LlmRequest.route request) = rd_id route))
  then Err RouteIdentityMismatch
  else match route_revision (LlmRequest.route request) with
       | None => Err RouteRevisionRequired
       | Some revision =>
           if negb (revision =? rd_revision route) then Err RouteRevisionMismatch else Ok tt
       end.

(** The first loop: [pos] is the position of the head of [cs]. *)
Fixpoint classify (route : RouteDefinition) (q : RequestRequirements)
    (registry : ModelCapabilityRegistry) (now pos : Z) (cs : list RouteCandidate) (w : world)
    : option (list EligibleCandidate * list CandidateRejection) * world :=
  match cs with
  | [] => (Some ([], []), w)
  | c :: cs' =>
      if u16_max <? pos then (None, w)
      else
        let '(ev, w1) := evaluate_candidate route c q registry (Some now) w in
        let '(rest, w2) := classify route q registry now (pos + 1) cs' w1 in
        (match rest with
         | None => None
         | Some (es, rs) =>
             Some (match reasons ev with
                   | [] =>
                       match admission ev with
                       | Some a =>
                           ({| position := pos; el_candidate := c; el_admission := a;
                               el_unknown_preferred := unknown_preferred_count q;
                               el_penalty := health_penalty ev |} :: es, rs)
                       | None => (es, rs)
                       end
                   | r :: more =>
                       (es, {| rejected_position := pos; rejected_reasons := r :: more |} :: rs)
                   end)
         end, w2)
  end.

(** [find_map] over the zipped states. *)
Definition unavailable_kind (scopes : list CircuitScope) (states : list CircuitState)
    : CircuitScopeKind :=
  match find (fun ss => negb (bool_decide (ss.2 = Closed))) (zip scopes states) with
  | Some ss => kind ss.1
  | None => KProvider
  end.

(** The second loop: acquire the best candidate that grants, rejecting the others
    tried before it. *)
Fixpoint acquire_first (p : CircuitPolicy) (now : Z) (es : list EligibleCandidate) (w : world)
    : option SelectedCandidate * list CandidateRejection * world :=
  match es with
  | [] => (None, [], w)
  | e :: es' =>
      let scopes := circuit_scopes (el_candidate e) in
      match locked_acquire p scopes now w with
      | (Some permit, w1) =>
          (Some {| candidate_position := position e;
                   candidate_id := cand_id (el_candidate e);
                   capability_registry_revision := adm_registry_revision (el_admission e);
                   unmet_preferred_count :=
                     unmet_preferred (el_admission e) (el_unknown_preferred e);
                   probe_permit := permit |}, [], w1)
      | (None, w1) =>
          let '(states, w2) := locked_states scopes now w1 in
          let rejection :=
            {| rejected_position := position e;
               rejected_reasons := [CircuitUnavailable (unavailable_kind scopes states)] |} in
          let '(sel, rs, w3) := acquire_first p now es' w2 in
          (sel, rejection :: rs, w3)
      end
  end.

Definition rejection_le (l r : CandidateRejection) : Prop :=
  rejected_position l <= rejected_position r.
#[global] Instance rejection_le_dec : RelDecision rejection_le.
Proof. intros l r. unfold rejection_le. apply _. Defined.

Definition select_candidate (p : CircuitPolicy) (route : RouteDefinition) (request : LlmRequest)
    (registry : ModelCapabilityRegistry) (now : Z)
    : ST world selection_fault SelectionReport :=
  fun w =>
    match validate_request_route route request with
    | Err e => (Err (Rejected e), w)
    | Ok _ =>
        let requirements := for_request route request in
        match classify route requirements registry now 0 (candidates route) w with
        | (None, w1) => (Err PositionOverflow, w1)
        | (Some (eligible, rejected), w1) =>
            let '(sel, more, w2) :=
              acquire_first p now (merge_sort compare_eligible eligible) w1 in
            (Ok {| selected := sel;
                   rejections := merge_sort rejection_le (rejected ++ more) |}, w2)
        end
    end.

Inductive CandidateAdmissionError := Ineligible.

Definition admit_candidate_without_circuit (route : RouteDefinition) (request : LlmRequest)
    (c : RouteCandidate) (registry : ModelCapabilityRegistry)
    : result CandidateAdmissionError ModelCapabilityAdmission :=
  let '(rs, adm) := evaluate_static route c (for_request route request) registry in
  match rs with
  | [] => ok_or adm Ineligible
  | _ => Err Ineligible
  end.

Definition candidate_available_for_readiness (route : RouteDefinition) (c : RouteCandidate)
    (registry : ModelCapabilityRegistry) (now : Z) (w : world) : bool * world :=
  let '(states, w') := locked_states (circuit_scopes c) now w in
  if existsb (fun s => negb (bool_decide (s = Closed))) states then (false, w')
  else
    (match (evaluate_static route c (for_route route) registry).1 with
     | [] => true
     | _ => false
     end, w').
