(* ===== verification/SelectionFacts.v ===== *)
(** * Correctness of candidate selection

    [serves] is the specification of the hard filters, stated over the route, the
    request and the registry alone.  The filters implement it exactly, selection
    returns a candidate that serves the request under every interleaving with
    other clients, and without interference it returns the best ranked one whose
    circuits grant. *)
From S2P Require Import Prelude Machine Text Capability LlmRequest Circuit.
From S2P Require Import CircuitFacts CircuitProtocol Retry RouteDefinition Selection.

(** ** What a request requires *)

(** The capabilities a request needs from its target, by where they come from. *)
Inductive needs (route : RouteDefinition) (request : LlmRequest) : ModelCapability -> Prop :=
| needs_text : needs route request TextInput
| needs_policy c : c ∈ policy_required (policy route) -> needs route request c
| needs_named name c :
    name ∈ required_capabilities (LlmRequest.route request) -> parse_capability name = Some c ->
    needs route request c
| needs_part part c :
    part ∈ all_parts request -> part_capability part = Some c -> needs route request c
| needs_tools : has_tool_semantics request = true -> needs route request Tools
| needs_text_output : mode (output request) = MText -> needs route request TextOutput
| needs_structured :
    mode (output request) = MStructured -> strict (output request) <> Some true ->
    needs route request StructuredOutput
| needs_tool_output : mode (output request) = MTools -> needs route request Tools
| needs_media mime :
    mode (output request) = MMedia -> mime ∈ mime_types (output request) ->
    needs route request (media_capability mime).

(** The request's semantics are all known to routing: every required capability
    name parses, and a media output without types has a declared media capability. *)
Definition semantics_known (route : RouteDefinition) (request : LlmRequest) : Prop :=
  (forall name, name ∈ required_capabilities (LlmRequest.route request) ->
     is_Some (parse_capability name))
  /\ (mode (output request) = MMedia -> mime_types (output request) = [] ->
      exists c, needs route request c /\ is_media c = true).

Lemma foldl_add_required names q :
  let q' := foldl add_required q names in
  (forall c, c ∈ rq_required q' <->
     c ∈ rq_required q \/ exists n, n ∈ names /\ parse_capability n = Some c)
  /\ (unknown_required q' = false <->
      unknown_required q = false /\ forall n, n ∈ names -> is_Some (parse_capability n))
  /\ strict_structured_output q' = strict_structured_output q
  /\ rq_minimum_context_tokens q' = rq_minimum_context_tokens q
  /\ rq_required_output_tokens q' = rq_required_output_tokens q
  /\ required_input_bytes q' = required_input_bytes q
  /\ required_output_bytes q' = required_output_bytes q
  /\ rq_max_cost_microunits q' = rq_max_cost_microunits q.
Proof.
  revert q. induction names as [|n names IH]; intros q; cbn zeta; simpl.
  { split_and!; try done.
    - intros c. setoid_rewrite elem_of_nil. naive_solver.
    - setoid_rewrite elem_of_nil. naive_solver. }
  destruct (IH (add_required q n)) as (Hr & Hu & -> & -> & -> & -> & -> & ->).
  unfold add_required in *. destruct (parse_capability n) as [c0|] eqn:En.
  - split_and!; try done.
    + intros c. rewrite Hr. simpl. rewrite elem_of_union, elem_of_singleton.
      setoid_rewrite elem_of_cons. naive_solver.
    + rewrite Hu. simpl. setoid_rewrite elem_of_cons. naive_solver.
  - split_and!; try done.
    + intros c. rewrite Hr. simpl. setoid_rewrite elem_of_cons. naive_solver.
    + rewrite Hu. simpl. setoid_rewrite elem_of_cons. split; [naive_solver|].
      intros [_ H]. destruct (H n) as [? ?]; [by left|congruence].
Qed.

Lemma foldl_add_preferred names q :
  let q' := foldl add_preferred q names in
  rq_required q' = rq_required q
  /\ unknown_required q' = unknown_required q
  /\ strict_structured_output q' = strict_structured_output q
  /\ rq_minimum_context_tokens q' = rq_minimum_context_tokens q
  /\ rq_required_output_tokens q' = rq_required_output_tokens q
  /\ required_input_bytes q' = required_input_bytes q
  /\ required_output_bytes q' = required_output_bytes q
  /\ rq_max_cost_microunits q' = rq_max_cost_microunits q.
Proof.
  revert q. induction names as [|n names IH]; intros q; cbn zeta; simpl; [done|].
  destruct (IH (add_preferred q n)) as (-> & -> & -> & -> & -> & -> & -> & ->).
  unfold add_preferred. by destruct (parse_capability n).
Qed.

(** Requiring one capability after another touches only the required set. *)
Lemma foldl_require {A} (f : RequestRequirements -> A -> RequestRequirements)
    (g : A -> option ModelCapability) xs q :
  (forall q x, f q x = match g x with Some c => require c q | None => q end) ->
  let q' := foldl f q xs in
  (forall c, c ∈ rq_required q' <-> c ∈ rq_required q \/ exists x, x ∈ xs /\ g x = Some c)
  /\ unknown_required q' = unknown_required q
  /\ strict_structured_output q' = strict_structured_output q
  /\ rq_minimum_context_tokens q' = rq_minimum_context_tokens q
  /\ rq_required_output_tokens q' = rq_required_output_tokens q
  /\ required_input_bytes q' = required_input_bytes q
  /\ required_output_bytes q' = required_output_bytes q
  /\ rq_max_cost_microunits q' = rq_max_cost_microunits q.
Proof.
  intros Hf. revert q. induction xs as [|x xs IH]; intros q; cbn zeta; simpl.
  { split_and!; try done. intros c. setoid_rewrite elem_of_nil. naive_solver. }
  destruct (IH (f q x)) as (Hr & -> & -> & -> & -> & -> & -> & ->). rewrite Hf in *.
  destruct (g x) as [c0|] eqn:Eg.
  - split_and!; try done. intros c. rewrite Hr. simpl.
    rewrite elem_of_union, elem_of_singleton. setoid_rewrite elem_of_cons. naive_solver.
  - split_and!; try done. intros c. rewrite Hr. setoid_rewrite elem_of_cons. naive_solver.
Qed.

(** The capabilities a request needs apart from its output mode. *)
Definition needs_input (route : RouteDefinition) (request : LlmRequest) (c : ModelCapability) : Prop :=
  c = TextInput \/ c ∈ policy_required (policy route)
  \/ (exists n, n ∈ required_capabilities (LlmRequest.route request) /\ parse_capability n = Some c)
  \/ (exists x, x ∈ all_parts request /\ part_capability x = Some c)
  \/ (c = Tools /\ has_tool_semantics request = true).

Section requirements.
Context (route : RouteDefinition) (request : LlmRequest).

(** The requirements when [derive_request_semantics] reaches the output mode. *)
Definition before_mode : RequestRequirements :=
  let q := foldl add_preferred
    (foldl add_required (for_route route) (required_capabilities (LlmRequest.route request)))
    (preferred_capabilities (LlmRequest.route request)) in
  let q1 := foldl require_part (require TextInput q) (all_parts request) in
  if has_tool_semantics request then require Tools q1 else q1.

Lemma before_mode_spec :
  (forall c, c ∈ rq_required before_mode <-> needs_input route request c)
  /\ (unknown_required before_mode = false <->
      forall n, n ∈ required_capabilities (LlmRequest.route request) -> is_Some (parse_capability n))
  /\ strict_structured_output before_mode = false
  /\ rq_minimum_context_tokens before_mode = minimum_context_tokens (route_limits (policy route))
  /\ rq_required_output_tokens before_mode = required_output_tokens (route_limits (policy route))
  /\ required_input_bytes before_mode = route_max_input_bytes (route_limits (policy route))
  /\ required_output_bytes before_mode = route_max_output_bytes (route_limits (policy route))
  /\ rq_max_cost_microunits before_mode = route_max_cost_microunits (route_limits (policy route)).
Proof.
  unfold before_mode.
  destruct (foldl_add_required (required_capabilities (LlmRequest.route request)) (for_route route))
    as (Hr1 & Hu1 & Hs1 & Hc1 & Ho1 & Hi1 & Hb1 & Hm1).
  set (qa := foldl add_required _ _) in *.
  destruct (foldl_add_preferred (preferred_capabilities (LlmRequest.route request)) qa)
    as (Hr2 & Hu2 & Hs2 & Hc2 & Ho2 & Hi2 & Hb2 & Hm2).
  set (qb := foldl add_preferred _ _) in *.
  destruct (foldl_require require_part part_capability (all_parts request) (require TextInput qb))
    as (Hr3 & Hu3 & Hs3 & Hc3 & Ho3 & Hi3 & Hb3 & Hm3); [done|].
  set (qc := foldl require_part _ _) in *. simpl in Hr3, Hu3, Hs3, Hc3, Ho3, Hi3, Hb3, Hm3.
  assert (forall c, c ∈ rq_required qc <->
    c = TextInput \/ c ∈ policy_required (policy route)
    \/ (exists n, n ∈ required_capabilities (LlmRequest.route request) /\ parse_capability n = Some c)
    \/ (exists x, x ∈ all_parts request /\ part_capability x = Some c)) as Hqc.
  { intros c. rewrite Hr3, Hr2, elem_of_union, elem_of_singleton, Hr1. simpl.
    rewrite elem_of_union, elem_of_singleton. tauto. }
  split_and!.
  - intros c. unfold needs_input. destruct (has_tool_semantics request); simpl.
    + rewrite elem_of_union, elem_of_singleton, Hqc. tauto.
    + rewrite Hqc. intuition discriminate.
  - assert (unknown_required (if has_tool_semantics request then require Tools qc else qc)
            = unknown_required qa) as -> by (destruct (has_tool_semantics request); simpl; congruence).
    rewrite Hu1. simpl. tauto.
  - destruct (has_tool_semantics request); simpl; rewrite Hs3, Hs2, Hs1; done.
  - destruct (has_tool_semantics request); simpl; rewrite Hc3, Hc2, Hc1; done.
  - destruct (has_tool_semantics request); simpl; rewrite Ho3, Ho2, Ho1; done.
  - destruct (has_tool_semantics request); simpl; rewrite Hi3, Hi2, Hi1; done.
  - destruct (has_tool_semantics request); simpl; rewrite Hb3, Hb2, Hb1; done.
  - destruct (has_tool_semantics request); simpl; rewrite Hm3, Hm2, Hm1; done.
Qed.

Lemma derive_before_mode q :
  foldl add_preferred
    (foldl add_required (for_route route) (required_capabilities (LlmRequest.route request)))
    (preferred_capabilities (LlmRequest.route request)) = q ->
  derive_request_semantics request q =
    match mode (output request) with
    | MAuto => before_mode
    | MText => require TextOutput before_mode
    | MStructured =>
        if bool_decide (strict (output request) = Some true)
        then set_unknown before_mode (unknown_required before_mode)
               (unknown_preferred_count before_mode) true
        else require StructuredOutput before_mode
    | MTools => require Tools before_mode
    | MMedia => derive_media_output request before_mode
    end.
Proof. by intros <-. Qed.

Lemma needs_iff c :
  needs route request c <->
  needs_input route request c \/
  match mode (output request) with
  | MAuto => False
  | MText => c = TextOutput
  | MStructured => strict (output request) <> Some true /\ c = StructuredOutput
  | MTools => c = Tools
  | MMedia => exists mime, mime ∈ mime_types (output request) /\ c = media_capability mime
  end.
Proof.
  unfold needs_input. split.
  - intros [| | | | |Hm|Hm Hs|Hm|mime Hm Hin]; try rewrite Hm; eauto 10.
  - intros [[->|[H|[(n & ? & ?)|[(x & ? & ?)|[-> ?]]]]]|H]; eauto using needs.
    destruct (mode (output request)) eqn:Hm; try done; subst; eauto using needs.
    + destruct H as [? ->]. by apply needs_structured.
    + destruct H as (mime & ? & ->). by apply needs_media.
Qed.

Lemma media_existsb q :
  existsb is_media (elements (rq_required q)) = true <->
  exists c, c ∈ rq_required q /\ is_media c = true.
Proof.
  rewrite existsb_exists. split; intros (c & Hc & Hm); exists c; split; try done.
  - apply list_elem_of_In in Hc. by apply elem_of_elements.
  - apply list_elem_of_In. by apply elem_of_elements.
Qed.

(** What [for_request] computes, in terms of the request. *)
Lemma for_request_required c : c ∈ rq_required (for_request route request) <-> needs route request c.
Proof.
  destruct before_mode_spec as (Hr & _). unfold for_request.
  rewrite (derive_before_mode _ eq_refl). cbn [rq_required]. rewrite needs_iff.
  destruct (mode (output request)) eqn:Hm; simpl.
  - rewrite Hr. tauto.
  - rewrite elem_of_union, elem_of_singleton, Hr. tauto.
  - case_bool_decide; simpl; [rewrite Hr; tauto|].
    rewrite elem_of_union, elem_of_singleton, Hr. tauto.
  - rewrite elem_of_union, elem_of_singleton, Hr. tauto.
  - unfold derive_media_output. destruct (mime_types (output request)) as [|m ms] eqn:Ems.
    + simpl. rewrite Hr. setoid_rewrite elem_of_nil. naive_solver.
    + destruct (foldl_require (fun q mime => require (media_capability mime) q)
        (fun m => Some (media_capability m)) (m :: ms) before_mode) as [-> _]; [done|].
      rewrite Hr. naive_solver.
Qed.

Lemma for_request_unknown :
  unknown_required (for_request route request) = false <-> semantics_known route request.
Proof.
  destruct before_mode_spec as (Hr & Hu & _). unfold for_request, semantics_known.
  rewrite (derive_before_mode _ eq_refl). cbn [unknown_required].
  destruct (mode (output request)) eqn:Hm; simpl; try (rewrite Hu; intuition congruence).
  - case_bool_decide; simpl; rewrite Hu; intuition congruence.
  - unfold derive_media_output. destruct (mime_types (output request)) as [|m ms] eqn:Ems.
    + simpl. rewrite orb_false_iff, Hu, negb_false_iff, media_existsb.
      setoid_rewrite Hr. setoid_rewrite needs_iff. rewrite Hm, Ems.
      setoid_rewrite elem_of_nil. naive_solver.
    + destruct (foldl_require (fun q mime => require (media_capability mime) q)
        (fun m => Some (media_capability m)) (m :: ms) before_mode) as (_ & -> & _); [done|].
      rewrite Hu. naive_solver.
Qed.

Lemma for_request_strict :
  strict_structured_output (for_request route request) = true <->
  mode (output request) = MStructured /\ strict (output request) = Some true.
Proof.
  destruct before_mode_spec as (_ & _ & Hs & _). unfold for_request.
  rewrite (derive_before_mode _ eq_refl). cbn [strict_structured_output].
  destruct (mode (output request)) eqn:Hm; simpl; try (rewrite Hs; intuition congruence).
  - case_bool_decide; simpl; rewrite ?Hs; intuition congruence.
  - unfold derive_media_output. destruct (mime_types (output request)) as [|m ms].
    + simpl. rewrite Hs. intuition congruence.
    + destruct (foldl_require (fun q mime => require (media_capability mime) q)
        (fun m => Some (media_capability m)) (m :: ms) before_mode) as (_ & _ & -> & _); [done|].
      rewrite Hs. intuition congruence.
Qed.

Lemma derive_limits :
  let q := derive_request_semantics request (foldl add_preferred
    (foldl add_required (for_route route) (required_capabilities (LlmRequest.route request)))
    (preferred_capabilities (LlmRequest.route request))) in
  let l := route_limits (policy route) in
  rq_minimum_context_tokens q = minimum_context_tokens l
  /\ rq_required_output_tokens q = required_output_tokens l
  /\ required_input_bytes q = route_max_input_bytes l
  /\ required_output_bytes q = route_max_output_bytes l
  /\ rq_max_cost_microunits q = route_max_cost_microunits l.
Proof.
  destruct before_mode_spec as (_ & _ & _ & Hrest). cbn zeta.
  rewrite (derive_before_mode _ eq_refl).
  destruct (mode (output request)); try (case_bool_decide); try exact Hrest.
  unfold derive_media_output. destruct (mime_types (output request)) as [|m ms]; [exact Hrest|].
  destruct (foldl_require (fun q mime => require (media_capability mime) q)
    (fun m => Some (media_capability m)) (m :: ms) before_mode)
    as (_ & _ & _ & -> & -> & -> & -> & ->); done.
Qed.
End requirements.

(** ** The hard filters *)

(** The declaration of the exact target meets every requirement. *)
Record declared (route : RouteDefinition) (request : LlmRequest) (c : RouteCandidate)
    (d : ModelCapabilityDeclaration) : Prop := {
  dc_supports : forall cap, needs route request cap -> supports d cap = true;
  dc_strict : mode (output request) = MStructured -> strict (output request) = Some true ->
    supports d StrictJsonSchema = true \/ supports d StrictToolOutput = true;
  dc_region : region c ∈ decl_regions d;
  dc_context : exists x, decl_max_context_tokens d = Some x
    /\ minimum_context_tokens (route_limits (policy route)) <= x;
  dc_output : exists x, decl_max_output_tokens d = Some x
    /\ required_output_tokens (route_limits (policy route)) <= x
    /\ (forall g n, LlmRequest.generation request = Some g -> max_output_tokens g = Some n -> n <= x);
}.

(** An optional ceiling on a capacity that must be declared when it is demanded. *)
Definition capacity_covers (available demand : option Z) : Prop :=
  forall n, demand = Some n -> exists a, available = Some a /\ n <= a.

(** The candidate may serve the request: the contract of the hard filters. *)
Record serves (route : RouteDefinition) (request : LlmRequest) (registry : ModelCapabilityRegistry)
    (c : RouteCandidate) : Prop := {
  sv_enabled : cand_enabled c = true;
  sv_residency : residency (boundary c) = policy_residency (policy route);
  sv_classification : classification_level (data_classification (policy route))
    <= classification_level (max_classification (boundary c));
  sv_latency : expected_latency (rank c) <= latency_target (policy route);
  sv_context : minimum_context_tokens (route_limits (policy route))
    <= cl_max_context_tokens (cand_limits c);
  sv_output : required_output_tokens (route_limits (policy route))
      <= cl_max_output_tokens (cand_limits c)
    /\ (forall g n, LlmRequest.generation request = Some g -> max_output_tokens g = Some n ->
          n <= cl_max_output_tokens (cand_limits c));
  sv_input_bytes : capacity_covers (cl_max_input_bytes (cand_limits c))
      (route_max_input_bytes (route_limits (policy route)))
    /\ capacity_covers (cl_max_input_bytes (cand_limits c)) (rl_max_input_bytes (limits request));
  sv_output_bytes : capacity_covers (cl_max_output_bytes (cand_limits c))
      (route_max_output_bytes (route_limits (policy route)))
    /\ capacity_covers (cl_max_output_bytes (cand_limits c)) (rl_max_output_bytes (limits request));
  sv_cost : forall ceiling,
    route_max_cost_microunits (route_limits (policy route)) = Some ceiling
    \/ rl_max_cost_microunits (limits request) = Some ceiling ->
    estimated_cost_microunits (rank c) <= ceiling;
  sv_known : semantics_known route request;
  sv_declared : exists d, declarations registry !! target c = Some d /\ declared route request c d;
}.

Lemma push_if_nil b r : push_if b r = [] <-> b = false.
Proof. by destruct b. Qed.

Lemma capacity_satisfies_iff available demand :
  capacity_satisfies available demand = true <-> capacity_covers available demand.
Proof.
  unfold capacity_covers. destruct available as [a|], demand as [n|]; simpl; split; try done.
  - intros H m [= <-]. exists a. split; [done|lia].
  - intros H. destruct (H n eq_refl) as (? & [= <-] & ?). lia.
  - intros H. by destruct (H n eq_refl) as (? & ? & _).
Qed.

Lemma capacity_covers_max available a b :
  capacity_covers available (max_optional a b) <->
  capacity_covers available a /\ capacity_covers available b.
Proof.
  unfold capacity_covers, max_optional. destruct a as [x|], b as [y|]; try naive_solver.
  destruct (Z.ltb_spec y x); split.
  - intros H'. destruct (H' x eq_refl) as (v & ? & ?). split; intros n [= <-]; exists v; split; lia || done.
  - intros [H' _]. exact H'.
  - intros H'. destruct (H' y eq_refl) as (v & ? & ?). split; intros n [= <-]; exists v; split; lia || done.
  - intros [_ H']. exact H'.
Qed.

Lemma min_optional_ceiling a b x :
  match min_optional a b with Some ceiling => ceiling <? x | None => false end = false <->
  forall ceiling, a = Some ceiling \/ b = Some ceiling -> x <= ceiling.
Proof.
  destruct a as [u|], b as [v|]; simpl.
  - destruct (Z.ltb_spec u v); rewrite Z.ltb_ge; split.
    + intros ? ? [[= <-]|[= <-]]; lia.
    + intros H'. apply H'. by left.
    + intros ? ? [[= <-]|[= <-]]; lia.
    + intros H'. apply H'. by right.
  - rewrite Z.ltb_ge. split; [intros ? ? [[= <-]|?]; done|]. intros H'. apply H'. by left.
  - rewrite Z.ltb_ge. split; [intros ? ? [?|[= <-]]; done|]. intros H'. apply H'. by right.
  - naive_solver.
Qed.

(** The output tokens a candidate must support. *)
Lemma requested_output_le route request n :
  rq_required_output_tokens (for_request route request) <= n <->
  required_output_tokens (route_limits (policy route)) <= n
  /\ (forall g m, LlmRequest.generation request = Some g -> max_output_tokens g = Some m -> m <= n).
Proof.
  unfold for_request. cbn [rq_required_output_tokens].
  destruct (derive_limits route request) as (_ & Ho & _). rewrite Ho.
  destruct (LlmRequest.generation request) as [g|]; simpl.
  - destruct (max_output_tokens g) as [m|] eqn:Em; split.
    + intros H. split; [lia|]. intros ? ? [= <-] Hm. rewrite Em in Hm. simplify_eq. lia.
    + intros [? H]. specialize (H g m eq_refl Em). lia.
    + intros ?. split; [done|]. intros ? ? [= <-]. congruence.
    + by intros [? _].
  - split; [|by intros [? _]]. intros ?. split; [done|]. intros ? ? [=].
Qed.

Section filters.
Context (route : RouteDefinition) (request : LlmRequest) (registry : ModelCapabilityRegistry).
Let q := for_request route request.

Lemma policy_reasons_nil c :
  policy_reasons route c q = [] <->
  cand_enabled c = true
  /\ residency (boundary c) = policy_residency (policy route)
  /\ classification_level (data_classification (policy route))
     <= classification_level (max_classification (boundary c))
  /\ expected_latency (rank c) <= latency_target (policy route)
  /\ minimum_context_tokens (route_limits (policy route)) <= cl_max_context_tokens (cand_limits c)
  /\ rq_required_output_tokens q <= cl_max_output_tokens (cand_limits c)
  /\ capacity_covers (cl_max_input_bytes (cand_limits c)) (required_input_bytes q)
  /\ capacity_covers (cl_max_output_bytes (cand_limits c)) (required_output_bytes q)
  /\ match rq_max_cost_microunits q with
     | Some ceiling => ceiling <? estimated_cost_microunits (rank c)
     | None => false
     end = false
  /\ unknown_required q = false.
Proof.
  assert (rq_minimum_context_tokens q = minimum_context_tokens (route_limits (policy route))) as Hc
    by apply (derive_limits route request).
  unfold policy_reasons. rewrite !app_nil, !push_if_nil, !negb_false_iff, !Z.ltb_ge, Hc.
  rewrite !capacity_satisfies_iff, bool_decide_eq_true. tauto.
Qed.

Lemma strict_alternative_spec c :
  (strict_alternative registry c q).2 = false ->
  let required := (strict_alternative registry c q).1 in
  (forall d, declarations registry !! target c = Some d ->
     ((forall cap, cap ∈ required -> supports d cap = true) <->
      (forall cap, needs route request cap -> supports d cap = true)
      /\ (mode (output request) = MStructured -> strict (output request) = Some true ->
          supports d StrictJsonSchema = true \/ supports d StrictToolOutput = true))).
Proof.
  intros Hm required d Hd. subst required. revert Hm. unfold strict_alternative, registry_get.
  rewrite Hd. pose proof (for_request_strict route request) as Hst. fold q in Hst.
  assert (forall cap, cap ∈ rq_required q <-> needs route request cap) as Hn
    by apply for_request_required. setoid_rewrite <- Hn.
  destruct (strict_structured_output q).
  - destruct (supports d StrictJsonSchema) eqn:Ej; [|destruct (supports d StrictToolOutput) eqn:Et];
      simpl; [intros _|intros _|done]; setoid_rewrite elem_of_union; setoid_rewrite elem_of_singleton;
      naive_solver.
  - simpl. intros _. split; [|tauto]. intros H. split; [done|]. intros. exfalso. intuition congruence.
Qed.

Lemma strict_alternative_missing c d :
  declarations registry !! target c = Some d -> (strict_alternative registry c q).2 = true ->
  mode (output request) = MStructured /\ strict (output request) = Some true
  /\ supports d StrictJsonSchema = false /\ supports d StrictToolOutput = false.
Proof.
  unfold strict_alternative, registry_get. intros ->.
  pose proof (for_request_strict route request) as Hst. fold q in Hst.
  destruct (strict_structured_output q); [|done].
  destruct (supports d StrictJsonSchema), (supports d StrictToolOutput); try done. tauto.
Qed.

(** What the static evaluation returns, whenever it finds no reason. *)
Lemma evaluate_static_nil c :
  (evaluate_static route c q registry).1 = [] <->
  policy_reasons route c q = [] /\ (strict_alternative registry c q).2 = false
  /\ exists core a, core_requirements registry c q = Ok core
       /\ admit_exact registry (target c) core = Ok a
       /\ evaluate_static route c q registry = ([], Some a).
Proof.
  unfold evaluate_static, registry_verdict.
  destruct (core_requirements registry c q) as [core|e] eqn:Ecore.
  2:{ simpl. rewrite !app_nil. split; [naive_solver|]. intros (_ & _ & ? & ? & [=] & _). }
  destruct (admit_exact registry (target c) core) as [a|e] eqn:Ea.
  2:{ simpl. rewrite !app_nil. split; [naive_solver|].
      intros (_ & _ & ? & ? & [= <-] & He & _). congruence. }
  cbn [fst]. rewrite !app_nil, push_if_nil, andb_false_iff. split.
  - intros [[Hp _] Hm]. rewrite Hp in *. simpl in *. split; [done|].
    assert ((strict_alternative registry c q).2 = false) as Hs.
    { by destruct Hm as [?|?]. }
    split; [done|]. exists core, a. rewrite Hs. done.
  - intros (Hp & Hs & _). split; [done|]. by left.
Qed.

(** The filters accept only what serves the request... *)
Lemma evaluate_static_sound c :
  (evaluate_static route c q registry).1 = [] -> serves route request registry c.
Proof.
  intros (Hp & Hs & core & a & Hcore & Ha & _)%evaluate_static_nil.
  apply policy_reasons_nil in Hp as (? & ? & ? & ? & ? & Hout & Hin & Houtb & Hcost & Hu).
  apply requested_output_le in Hout as Hout'. apply for_request_unknown in Hu.
  unfold q, for_request in Hin, Houtb, Hcost.
  cbn [required_input_bytes required_output_bytes rq_max_cost_microunits] in Hin, Houtb, Hcost.
  destruct (derive_limits route request) as (Hlc & _ & Hli & Hlo & Hlm).
  rewrite Hli in Hin. rewrite Hlo in Houtb. rewrite Hlm in Hcost.
  apply capacity_covers_max in Hin, Houtb.
  pose proof (proj1 (min_optional_ceiling _ _ _) Hcost) as Hcost'. clear Hcost.
  constructor; auto.
  apply admit_exact_ok in Ha. destruct Ha as [(d & Hd & _ & _ & Hreq & Hreg & Hctx & Hto & _)].
  exists d. split; [done|].
  unfold core_requirements, ModelCapabilityRequirements_new in Hcore.
  destruct (_ || _) in Hcore; [done|]. inv_ok. subst core. simpl in *.
  apply (strict_alternative_spec c Hs d Hd) in Hreq as [Hneeds Hstrict].
  destruct (Hctx _ eq_refl) as (x & ? & ?). destruct (Hto _ eq_refl) as (y & Hy & Hle).
  apply requested_output_le in Hle as [? ?].
  constructor; auto; [|eauto 10].
  exists x. split; [done|]. by rewrite Hlc in *.
Qed.

Lemma core_requirements_ok c :
  limits_wf (route_limits (policy route)) -> validate_id (region c) = Ok tt ->
  exists core, core_requirements registry c q = Ok core.
Proof.
  intros [Hc Ho] Hr. unfold core_requirements, ModelCapabilityRequirements_new.
  destruct (derive_limits route request) as (Hlc & Hlo & _).
  set (required := (strict_alternative registry c q).1).
  rewrite (bool_decide_eq_true_2 (required ## rq_preferred q ∖ required)) by set_solver.
  assert (0 < rq_minimum_context_tokens q).
  { unfold q, for_request. cbn [rq_minimum_context_tokens]. by rewrite Hlc. }
  assert (0 < rq_required_output_tokens q).
  { assert (required_output_tokens (route_limits (policy route)) <= rq_required_output_tokens q);
      [|lia]. by apply (requested_output_le route request). }
  rewrite (bool_decide_eq_false_2 (Some (rq_minimum_context_tokens q) = Some 0)) by (intros E%(inj Some); lia).
  rewrite (bool_decide_eq_false_2 (Some (rq_required_output_tokens q) = Some 0)) by (intros E%(inj Some); lia).
  cbn [negb orb]. rewrite Hr. eexists. reflexivity.
Qed.

(** ... and reject nothing that does. *)
Lemma evaluate_static_complete c :
  limits_wf (route_limits (policy route)) -> validate_id (region c) = Ok tt ->
  serves route request registry c -> (evaluate_static route c q registry).1 = [].
Proof.
  intros Hl Hr Hs. destruct (core_requirements_ok c Hl Hr) as [core Hcore].
  destruct (sv_declared _ _ _ _ Hs) as (d & Hd & Hdc).
  assert (policy_reasons route c q = []) as Hp.
  { apply policy_reasons_nil. destruct Hs as [? ? ? ? ? Hout Hin Houtb Hcost Hkn _].
    apply (requested_output_le route request) in Hout. apply for_request_unknown in Hkn.
    destruct (derive_limits route request) as (_ & _ & Hli & Hlo & Hlm).
    split_and!; auto; unfold q, for_request;
      cbn [required_input_bytes required_output_bytes rq_max_cost_microunits];
      rewrite ?Hli, ?Hlo, ?Hlm.
    - by apply capacity_covers_max.
    - by apply capacity_covers_max.
    - by apply min_optional_ceiling. }
  assert ((strict_alternative registry c q).2 = false) as Hsa.
  { destruct (strict_alternative registry c q).2 eqn:E; [|done].
    destruct (strict_alternative_missing c d Hd E) as (Hm & Hst & H1 & H2).
    destruct (dc_strict _ _ _ _ Hdc Hm Hst); congruence. }
  apply evaluate_static_nil. split_and!; [done..|].
  assert (exists a, admit_exact registry (target c) core = Ok a) as [a Ha].
  { eexists {| adm_key := decl_key d; adm_registry_revision := decl_registry_revision d;
               adm_unmet_preferred := unsupported d (req_preferred core) |}.
    apply admit_exact_ok. constructor. exists d. simpl.
    unfold core_requirements, ModelCapabilityRequirements_new in Hcore.
    destruct (_ || _) in Hcore; [done|]. inv_ok. subst core. simpl.
    destruct Hdc as [Hsup Hstr Hreg (x & Hx & Hxle) (y & Hy & Hyle)].
    split_and!; auto.
    - apply (strict_alternative_spec c Hsa d Hd). done.
    - by intros ? [= <-].
    - intros m [= <-]. exists x. split; [done|].
      destruct (derive_limits route request) as (Hlc & _).
      unfold q, for_request. cbn [rq_minimum_context_tokens]. by rewrite Hlc.
    - intros m [= <-]. exists y. split; [done|]. by apply (requested_output_le route request).
    - intros cap. unfold unsupported. rewrite elem_of_filter. tauto. }
  exists core, a. split_and!; [done..|]. unfold evaluate_static, registry_verdict.
  rewrite Hcore, Ha, Hp, Hsa. done.
Qed.
End filters.

(** ** Preferences *)

(** What the route and the request would like: capabilities, and names routing
    does not know. *)
Definition wished (route : RouteDefinition) (request : LlmRequest) : gset ModelCapability :=
  policy_preferred (policy route)
  ∪ list_to_set (omap parse_capability (preferred_capabilities (LlmRequest.route request))).
Definition unknown_wishes (request : LlmRequest) : Z :=
  Z.of_nat (length (filter (fun n => parse_capability n = None)
    (preferred_capabilities (LlmRequest.route request)))).

Definition same_wishes (q q' : RequestRequirements) : Prop :=
  rq_preferred q' = rq_preferred q /\ unknown_preferred_count q' = unknown_preferred_count q.

Lemma foldl_same_wishes {A} (f : RequestRequirements -> A -> RequestRequirements) xs q :
  (forall q x, same_wishes q (f q x)) -> same_wishes q (foldl f q xs).
Proof.
  intros Hf. revert q. induction xs as [|x xs IH]; intros q; simpl; [done|].
  destruct (IH (f q x)) as [H1 H2], (Hf q x) as [H3 H4]. split; congruence.
Qed.

Lemma derive_same_wishes request q : same_wishes q (derive_request_semantics request q).
Proof.
  assert (Hbase : same_wishes q (foldl require_part (require TextInput q) (all_parts request))).
  { apply (foldl_same_wishes require_part (all_parts request) (require TextInput q)).
    intros q' x. unfold require_part. by destruct (part_capability x). }
  unfold derive_request_semantics. set (q1 := foldl require_part _ _) in *.
  assert (H2 : same_wishes q (if has_tool_semantics request then require Tools q1 else q1))
    by (destruct (has_tool_semantics request); apply Hbase).
  revert H2. generalize (if has_tool_semantics request then require Tools q1 else q1).
  intros q2 H2. destruct (mode (output request)); try apply H2.
  - case_bool_decide; apply H2.
  - unfold derive_media_output. destruct (mime_types (output request)) as [|m ms]; [apply H2|].
    destruct (foldl_same_wishes (fun q mime => require (media_capability mime) q) (m :: ms) q2)
      as [H3 H4]; [done|]. destruct H2. split; congruence.
Qed.

Lemma foldl_add_preferred_wishes names q :
  let q' := foldl add_preferred q names in
  rq_preferred q' = rq_preferred q ∪ list_to_set (omap parse_capability names)
  /\ unknown_preferred_count q' = unknown_preferred_count q
       + Z.of_nat (length (filter (fun n => parse_capability n = None) names)).
Proof.
  revert q. induction names as [|n names IH]; intros q; cbn zeta; simpl.
  { split; [set_solver | lia]. }
  destruct (IH (add_preferred q n)) as [-> ->]. rewrite filter_cons. unfold add_preferred.
  destruct (parse_capability n) as [c|] eqn:En; simpl.
  - split; [set_solver | done].
  - split; [done | simpl; lia].
Qed.

Lemma for_request_wishes route request :
  rq_preferred (for_request route request)
    = wished route request ∖ rq_required (for_request route request)
  /\ unknown_preferred_count (for_request route request) = unknown_wishes request.
Proof.
  unfold for_request. cbn [rq_preferred rq_required unknown_preferred_count].
  set (qa := foldl add_required _ _).
  destruct (derive_same_wishes request
    (foldl add_preferred qa (preferred_capabilities (LlmRequest.route request)))) as [-> ->].
  destruct (foldl_add_preferred_wishes (preferred_capabilities (LlmRequest.route request)) qa)
    as [-> ->].
  assert (same_wishes (for_route route) qa) as [-> ->].
  { apply foldl_same_wishes. intros q n. unfold add_required. by destruct (parse_capability n). }
  done.
Qed.
