(* ===== verification/SelectionTheorems.v ===== *)
(** * What selection guarantees

    The two loops of [select_candidate] described as one pass over the candidates
    with the circuit states each evaluation saw, and the theorems on its result:
    soundness under every interleaving; optimality, totality and the report's
    completeness when nobody interferes. *)
From S2P Require Import Prelude Machine Text Capability LlmRequest Circuit.
From S2P Require Import CircuitFacts CircuitProtocol Retry RouteDefinition Selection SelectionFacts.

(** ** The lexicographic order *)
Lemma lex_le_refl a : lex_le a a = true.
Proof. induction a as [|x a IH]; simpl; [done|]. rewrite IH, Z.eqb_refl. lia. Qed.

Lemma lex_le_trans a b c : lex_le a b = true -> lex_le b c = true -> lex_le a c = true.
Proof.
  revert b c. induction a as [|x a IH]; intros [|y b] [|z c]; simpl; try done.
  rewrite !orb_true_iff, !andb_true_iff. intros [?|[? Hab]] [?|[? Hbc]]; [left; lia..|].
  right. split; [lia|]. by apply (IH b).
Qed.

Lemma lex_le_total a b : lex_le a b = true \/ lex_le b a = true.
Proof.
  revert b. induction a as [|x a IH]; intros [|y b]; simpl; try by auto.
  rewrite !orb_true_iff, !andb_true_iff. destruct (Z.lt_trichotomy x y) as [?|[->|?]].
  - left. left. lia.
  - rewrite Z.eqb_refl. destruct (IH b); auto.
  - right. left. lia.
Qed.

#[global] Instance compare_eligible_trans : Transitive compare_eligible.
Proof. intros a b c. apply lex_le_trans. Qed.
#[global] Instance compare_eligible_total : Total compare_eligible.
Proof. intros a b. apply lex_le_total. Qed.
#[global] Instance rejection_le_trans : Transitive rejection_le.
Proof. intros a b c. unfold rejection_le. lia. Qed.
#[global] Instance rejection_le_total : Total rejection_le.
Proof. intros a b. unfold rejection_le. lia. Qed.

(** ** The first loop as one pass *)

(** One evaluated candidate: its position and the circuit states that were seen. *)
Definition entry : Type := Z * RouteCandidate * list CircuitState.

Section pass.
Context (route : RouteDefinition) (q : RequestRequirements) (registry : ModelCapabilityRegistry).

Definition entry_reasons (x : entry) : list RejectionReason :=
  (evaluate_static route x.1.2 q registry).1 ++ circuit_reasons (circuit_scopes x.1.2) x.2.

Definition eligible_of (x : entry) : option EligibleCandidate :=
  match entry_reasons x, (evaluate_static route x.1.2 q registry).2 with
  | [], Some a => Some {| position := x.1.1; el_candidate := x.1.2; el_admission := a;
                          el_unknown_preferred := unknown_preferred_count q;
                          el_penalty := penalty x.2 |}
  | _, _ => None
  end.

Definition rejection_of (x : entry) : option CandidateRejection :=
  match entry_reasons x with
  | [] => None
  | rs => Some {| rejected_position := x.1.1; rejected_reasons := rs |}
  end.

Fixpoint entries (pos : Z) (cs : list RouteCandidate) (sts : list (list CircuitState))
    : list entry :=
  match cs, sts with
  | c :: cs', st :: sts' => (pos, c, st) :: entries (pos + 1) cs' sts'
  | _, _ => []
  end.

Lemma elem_of_entries pos cs sts x :
  x ∈ entries pos cs sts <->
  exists i, cs !! i = Some x.1.2 /\ sts !! i = Some x.2 /\ x.1.1 = pos + Z.of_nat i.
Proof.
  revert pos sts. induction cs as [|c cs IH]; intros pos [|st sts]; simpl.
  - rewrite elem_of_nil. split; [done|]. by intros (i & ? & _).
  - rewrite elem_of_nil. split; [done|]. by intros (i & ? & _).
  - rewrite elem_of_nil. split; [done|]. by intros (i & ? & ? & _).
  - rewrite elem_of_cons, IH. destruct x as [[ps c'] st']; simpl. split.
    + intros [[= -> -> ->]|(i & ? & ? & ?)].
      * exists 0%nat. split_and!; [done..|lia].
      * exists (S i). split_and!; [done..|lia].
    + intros ([|i] & Hc & Hs & Hp); simpl in *.
      * left. simplify_eq. f_equal. f_equal. lia.
      * right. exists i. split_and!; [done..|lia].
Qed.

Lemma classify_eq now pos cs w res w' :
  0 <= pos -> pos + Z.of_nat (length cs) <= u16_max + 1 ->
  classify route q registry now pos cs w = (res, w') ->
  exists sts, length sts = length cs
    /\ res = Some (omap eligible_of (entries pos cs sts), omap rejection_of (entries pos cs sts))
    /\ (others w = [] -> w' = w
        /\ sts = (fun c => candidate_states (shared w) (circuit_scopes c) now) <$> cs).
Proof.
  revert pos w res w'. induction cs as [|c cs IH]; intros pos w res w' H0 Hn H; simpl in H.
  { simplify_eq. exists []. done. }
  rewrite length_cons in Hn. destruct (Z.ltb_spec u16_max pos); [lia|].
  unfold evaluate_candidate, locked_states in H.
  destruct (evaluate_static route c q registry) as [rs adm] eqn:Est. cbn zeta in H.
  set (st := candidate_states (shared (lock w)) (circuit_scopes c) now) in *.
  destruct (classify route q registry now (pos + 1) cs (lock w)) as [rest w2] eqn:Hc.
  destruct (IH (pos + 1) (lock w) rest w2) as (sts & Hl & -> & Hseq); [lia..|done|].
  exists (st :: sts). split; [simpl; by rewrite Hl|]. split.
  - simplify_eq. simpl. unfold eligible_of, rejection_of, entry_reasons. simpl.
    rewrite Est. cbn [fst snd]. by destruct (rs ++ circuit_reasons (circuit_scopes c) st), adm.
  - intros Ho. assert (lock w = w) as Hlock by (unfold lock; by rewrite Ho).
    unfold st in *. rewrite Hlock in Hseq. destruct (Hseq Ho) as [-> ->].
    injection H as _ <-. by rewrite fmap_cons, Hlock.
Qed.

Lemma eligible_of_Some x e :
  eligible_of x = Some e <->
  evaluate_static route x.1.2 q registry = ([], Some (el_admission e))
  /\ circuit_reasons (circuit_scopes x.1.2) x.2 = []
  /\ e = {| position := x.1.1; el_candidate := x.1.2; el_admission := el_admission e;
            el_unknown_preferred := unknown_preferred_count q; el_penalty := penalty x.2 |}.
Proof.
  unfold eligible_of, entry_reasons.
  destruct (evaluate_static route x.1.2 q registry) as [rs adm] eqn:Est. cbn [fst snd]. split.
  - intros H. destruct (rs ++ _) eqn:Er; [|done]. apply app_nil in Er as [-> Hc].
    destruct adm as [a|]; [|done]. injection H as <-. done.
  - intros ([= -> ->] & -> & ->). done.
Qed.

Lemma rejection_of_Some x r :
  rejection_of x = Some r <->
  rejected_position r = x.1.1 /\ rejected_reasons r = entry_reasons x /\ entry_reasons x <> [].
Proof.
  unfold rejection_of. destruct (entry_reasons x) as [|y ys]; split; try done.
  - by intros (_ & _ & ?).
  - by intros [= <-].
  - intros (? & ? & _). destruct r; simpl in *; by subst.
Qed.
End pass.

(** ** The second loop *)
Definition selected_of (e : EligibleCandidate) (permit : CircuitProbePermit) : SelectedCandidate :=
  {| candidate_position := position e; candidate_id := cand_id (el_candidate e);
     capability_registry_revision := adm_registry_revision (el_admission e);
     unmet_preferred_count := unmet_preferred (el_admission e) (el_unknown_preferred e);
     probe_permit := permit |}.

(** Would the circuits of the candidate grant, on this book? *)
Definition grants (p : CircuitPolicy) (now : Z) (b : circuit_book) (c : RouteCandidate) : bool :=
  bool_decide (is_Some (try_acquire_candidate p (circuit_scopes c) now b).1).

Lemma acquire_first_sound p now es w s rs w' :
  acquire_first p now es w = (Some s, rs, w') ->
  exists e b permit, e ∈ es /\ s = selected_of e permit
    /\ try_acquire_candidate p (circuit_scopes (el_candidate e)) now b = (Some permit, shared w').
Proof.
  revert w s rs w'. induction es as [|e es IH]; intros w s rs w' H; [done|].
  cbn [acquire_first] in H. unfold locked_acquire in H.
  destruct (try_acquire_candidate p _ now (shared (lock w))) as [[permit|] b] eqn:Ha.
  - simplify_eq. exists e, (shared (lock w)), permit. split; [by left|done].
  - unfold locked_states in H. cbn zeta in H.
    destruct (acquire_first p now es _) as [[sel rs0] w3] eqn:Hf. simplify_eq.
    destruct (IH _ _ _ _ Hf) as (e' & b' & pm & Hin & ? & ?).
    exists e', b', pm. split; [by right|done].
Qed.

Lemma acquire_first_rejections p now es w sel rs w' :
  acquire_first p now es w = (sel, rs, w') ->
  forall r, r ∈ rs -> exists e kind, e ∈ es /\ rejected_position r = position e
    /\ rejected_reasons r = [CircuitUnavailable kind].
Proof.
  revert w sel rs w'. induction es as [|e es IH]; intros w sel rs w' H r Hr.
  { simpl in H. simplify_eq. by apply not_elem_of_nil in Hr. }
  cbn [acquire_first] in H. unfold locked_acquire in H.
  destruct (try_acquire_candidate p _ now (shared (lock w))) as [[permit|] b] eqn:Ha.
  { simplify_eq. by apply not_elem_of_nil in Hr. }
  unfold locked_states in H. cbn zeta in H.
  destruct (acquire_first p now es _) as [[sel0 rs0] w3] eqn:Hf. simplify_eq.
  apply elem_of_cons in Hr as [->|Hr].
  - exists e. eexists. split; [by left|done].
  - destruct (IH _ _ _ _ Hf r Hr) as (e' & k & ? & ?). exists e', k. split; [by right|done].
Qed.

(** Without interference the loop stops at the first candidate that grants on the
    book it started with, and the refused ones before it left the book alone. *)
Lemma acquire_first_sequential p now es b sel rs w' :
  acquire_first p now es {| shared := b; others := [] |} = (sel, rs, w') ->
  exists es1 es2, es = es1 ++ es2
    /\ (forall e, e ∈ es1 -> grants p now b (el_candidate e) = false)
    /\ (rejected_position <$> rs) = (position <$> es1)
    /\ match es2 with
       | [] => sel = None /\ w' = {| shared := b; others := [] |}
       | e :: _ => grants p now b (el_candidate e) = true
           /\ exists permit, sel = Some (selected_of e permit)
       end.
Proof.
  revert sel rs w'. induction es as [|e es IH]; intros sel rs w' H.
  { simpl in H. simplify_eq. exists [], []. split_and!; try done. by intros ? ?%not_elem_of_nil. }
  cbn [acquire_first] in H. unfold locked_acquire in H. cbn [lock others shared] in H.
  destruct (try_acquire_candidate p (circuit_scopes (el_candidate e)) now b) as [[permit|] b'] eqn:Ha.
  - simplify_eq. exists [], (e :: es). split_and!; try done.
    + by intros ? ?%not_elem_of_nil.
    + unfold grants. rewrite Ha. by apply bool_decide_eq_true_2.
    + exists permit. done.
  - assert (b' = b) as ->.
    { unfold try_acquire_candidate, acquire_scopes in Ha.
      destruct (existsb _ _); [congruence|]. by destruct (reserve_probes _ _ _). }
    unfold locked_states in H. cbn [lock others shared] in H. cbn zeta in H.
    destruct (acquire_first p now es _) as [[sel0 rs0] w3] eqn:Hf. simplify_eq.
    destruct (IH _ _ _ eq_refl) as (es1 & es2 & -> & Hno & Hpos & Hsel).
    exists (e :: es1), es2. split_and!; try done.
    + intros e'. rewrite elem_of_cons. intros [->|?]; [|auto].
      unfold grants. rewrite Ha. by apply bool_decide_eq_false_2; intros [? ?].
    + rewrite !fmap_cons. simpl. by rewrite Hpos.
Qed.

(** ** The selection *)
Section selection.
Context (p : CircuitPolicy) (route : RouteDefinition) (request : LlmRequest)
  (registry : ModelCapabilityRegistry) (now : Z).
Let q := for_request route request.

(** The entries of the route's candidates on a book nobody else changes. *)
Definition seen (b : circuit_book) : list entry :=
  entries 0 (candidates route)
    ((fun c => candidate_states b (circuit_scopes c) now) <$> candidates route).

Lemma elem_of_seen b x :
  x ∈ seen b <-> exists i, candidates route !! i = Some x.1.2 /\ x.1.1 = Z.of_nat i
    /\ x.2 = candidate_states b (circuit_scopes x.1.2) now.
Proof.
  unfold seen. rewrite elem_of_entries. split.
  - intros (i & Hc & Hs & Hp). exists i. rewrite list_lookup_fmap, Hc in Hs. simpl in Hs.
    simplify_eq. split_and!; [done|lia|done].
  - intros (i & Hc & Hp & Hs). exists i. rewrite list_lookup_fmap, Hc, Hs.
    split_and!; [done..|lia].
Qed.

(** The rank a candidate that passes the hard filters and has no open circuit
    gets, or [None]. *)
Definition rank_of (b : circuit_book) (i : Z) (c : RouteCandidate) : option (list Z) :=
  ranking_key <$> eligible_of route q registry
    (i, c, candidate_states b (circuit_scopes c) now).

Lemma circuit_reasons_nil scopes b :
  circuit_reasons scopes (candidate_states b scopes now) = [] <->
  forall sc, sc ∈ scopes -> state b sc now <> Open.
Proof.
  unfold circuit_reasons, candidate_states. induction scopes as [|sc scopes IH]; simpl.
  - split; [by intros _ ? ?%not_elem_of_nil|done].
  - rewrite app_nil, push_if_nil, bool_decide_eq_false, IH. setoid_rewrite elem_of_cons.
    split; [|eauto 10]. intros [? ?] s [->|?]; eauto.
Qed.

Lemma grants_not_open b c :
  grants p now b c = true ->
  circuit_reasons (circuit_scopes c) (candidate_states b (circuit_scopes c) now) = [].
Proof.
  unfold grants. rewrite bool_decide_eq_true, circuit_reasons_nil. intros [pm Hg] sc Hsc Hopen.
  unfold try_acquire_candidate, acquire_scopes in Hg.
  assert (existsb (scope_refuses p b now) (circuit_scopes c) = true) as Hex.
  { apply existsb_exists. exists sc. split; [by apply list_elem_of_In|].
    unfold scope_refuses, state in *. destruct (b !! sc); [by rewrite Hopen|done]. }
  rewrite Hex in Hg. done.
Qed.

Lemma rank_of_Some b i c :
  route_wf route -> c ∈ candidates route ->
  serves route request registry c -> grants p now b c = true -> is_Some (rank_of b i c).
Proof.
  intros Hw Hc Hs Hg. unfold rank_of.
  pose proof (evaluate_static_complete route request registry c (rwf_limits _ Hw)
    (candidate_region_valid _ (rwf_candidates _ Hw _ Hc)) Hs) as Hnil.
  apply evaluate_static_nil in Hnil as (_ & _ & core & a & _ & _ & Hst).
  assert (eligible_of route q registry (i, c, candidate_states b (circuit_scopes c) now) =
    Some {| position := i; el_candidate := c; el_admission := a;
            el_unknown_preferred := unknown_preferred_count q;
            el_penalty := penalty (candidate_states b (circuit_scopes c) now) |}) as ->.
  { apply eligible_of_Some. simpl. split_and!; [done|by apply grants_not_open|done]. }
  by eexists.
Qed.

(** [select_candidate] opened up, for a well-formed route. *)
Lemma select_candidate_ok w rep w' :
  route_wf route -> select_candidate p route request registry now w = (Ok rep, w') ->
  validate_request_route route request = Ok tt /\
  exists sts more w1, length sts = length (candidates route)
    /\ acquire_first p now (merge_sort compare_eligible
          (omap (eligible_of route q registry) (entries 0 (candidates route) sts))) w1
       = (selected rep, more, w')
    /\ rejections rep = merge_sort rejection_le
         (omap (rejection_of route q registry) (entries 0 (candidates route) sts) ++ more)
    /\ (others w = [] -> w1 = w /\ entries 0 (candidates route) sts = seen (shared w)).
Proof.
  intros Hw H. unfold select_candidate in H. fold q in H.
  destruct (validate_request_route route request) as [[]|e]; [|done]. split; [done|].
  destruct (classify route q registry now 0 (candidates route) w) as [res w1] eqn:Hc.
  apply classify_eq in Hc as (sts & Hl & -> & Hseq).
  2: done. 2:{ pose proof (rwf_count _ Hw). unfold MAX_CANDIDATES, u16_max in *. lia. }
  destruct (acquire_first _ _ _ w1) as [[sel more] w2] eqn:Ha. simplify_eq. simpl.
  exists sts, more, w1. split_and!; [done..|].
  intros Ho. destruct (Hseq Ho) as [-> ->]. done.
Qed.

Lemma select_candidate_total w :
  route_wf route -> validate_request_route route request = Ok tt ->
  exists rep w', select_candidate p route request registry now w = (Ok rep, w').
Proof.
  intros Hw Hv. unfold select_candidate. rewrite Hv. fold q.
  destruct (classify route q registry now 0 (candidates route) w) as [res w1] eqn:Hc.
  apply classify_eq in Hc as (sts & Hl & -> & Hseq).
  2: done. 2:{ pose proof (rwf_count _ Hw). unfold MAX_CANDIDATES, u16_max in *. lia. }
  destruct (acquire_first _ _ _ w1) as [[sel more] w2]. eauto.
Qed.

Lemma elem_of_eligible sts e :
  e ∈ merge_sort compare_eligible
        (omap (eligible_of route q registry) (entries 0 (candidates route) sts)) <->
  exists x, x ∈ entries 0 (candidates route) sts /\ eligible_of route q registry x = Some e.
Proof. rewrite merge_sort_Permutation, list_elem_of_omap. done. Qed.

(** C27. Under every interleaving with other breaker clients, a candidate that
    selection returns sits at the reported position, matches the request's exact
    route revision, and serves the request: enabled, in the route's residency and
    classification, within latency, capacity and both cost ceilings, with every
    capability the route and the request need declared for its exact target; and
    its permit was granted by the breaker. *)
Theorem selection_sound w rep w' s :
  route_wf route -> select_candidate p route request registry now w = (Ok rep, w') ->
  selected rep = Some s ->
  route_id (LlmRequest.route request) = rd_id route
  /\ route_revision (LlmRequest.route request) = Some (rd_revision route)
  /\ exists c b, 0 <= candidate_position s
    /\ candidates route !! Z.to_nat (candidate_position s) = Some c
    /\ candidate_id s = cand_id c
    /\ serves route request registry c
    /\ try_acquire_candidate p (circuit_scopes c) now b = (Some (probe_permit s), shared w').
Proof.
  intros Hw H Hsel. apply select_candidate_ok in H as (Hv & sts & more & w1 & _ & Ha & _ & _); [|done].
  rewrite Hsel in Ha. unfold validate_request_route in Hv.
  case_bool_decide; [|done]. destruct (route_revision _) as [rev|]; [|done]. simpl in Hv.
  destruct (Z.eqb_spec rev (rd_revision route)); [|done]. subst rev. split; [done|]. split; [done|].
  apply acquire_first_sound in Ha as (e & b & permit & He & -> & Hg).
  apply elem_of_eligible in He as (x & Hx & He).
  apply elem_of_entries in Hx as (i & Hi & _ & Hp).
  apply eligible_of_Some in He as (Hst & _ & Heq).
  assert (position e = x.1.1 /\ el_candidate e = x.1.2) as [Hpe Hce] by (by rewrite Heq).
  exists x.1.2, b. simpl. rewrite Hpe, Hce, Hp in *. split_and!; try done; [lia|..].
  - by rewrite Z.add_0_l, Nat2Z.id.
  - apply evaluate_static_sound. fold q. by rewrite Hst.
Qed.

(** The merit of a candidate with declaration [d], smaller first: wishes it does
    not meet, half-open circuits, quality tier (higher first), latency, cost,
    position in the route. *)
Definition merit (b : circuit_book) (i : Z) (c : RouteCandidate) (d : ModelCapabilityDeclaration)
    : list Z :=
  [ Z.min (Z.of_nat (size (filter (fun cap => supports d cap = false) (wished route request)))
           + unknown_wishes request) usize_max;
    Z.min (Z.of_nat (length (filter (fun sc => state b sc now = HalfOpen) (circuit_scopes c)))) u8_max;
    - quality_tier (rank c); expected_latency (rank c); estimated_cost_microunits (rank c); i ].

Lemma penalty_count b scopes :
  penalty (candidate_states b scopes now)
  = Z.min (Z.of_nat (length (filter (fun sc => state b sc now = HalfOpen) scopes))) u8_max.
Proof.
  unfold penalty, candidate_states.
  assert (Hgo : forall n, 0 <= n <= u8_max ->
    foldl (fun n s => if bool_decide (s = HalfOpen) then saturating_add u8_max n 1 else n) n
      ((fun s => state b s now) <$> scopes)
    = Z.min (n + Z.of_nat (length (filter (fun sc => state b sc now = HalfOpen) scopes))) u8_max).
  { induction scopes as [|sc scopes IH]; intros n Hn; csimpl; [lia|].
    rewrite filter_cons. unfold saturating_add in *.
    case_bool_decide as Hs; [rewrite decide_True by done | rewrite decide_False by done]; simpl;
      rewrite IH; lia. }
  rewrite Hgo; [lia|]. unfold u8_max. lia.
Qed.

Lemma unmet_wishes c core adm d :
  core_requirements registry c q = Ok core -> admit_exact registry (target c) core = Ok adm ->
  declarations registry !! target c = Some d ->
  adm_unmet_preferred adm = filter (fun cap => supports d cap = false) (wished route request).
Proof.
  destruct (for_request_wishes route request) as [Hpref _]. fold q in Hpref. clearbody q.
  intros Hcore Ha Hd. apply admit_exact_ok in Ha.
  destruct Ha as [(d' & Hd' & _ & _ & Hreq & _ & _ & _ & Hun)]. rewrite Hd in Hd'. injection Hd' as <-.
  unfold core_requirements, ModelCapabilityRequirements_new in Hcore.
  destruct (_ || _) in Hcore; [done|]. inv_ok. subst core. cbn [req_required req_preferred] in *.
  rewrite Hpref in Hun.
  assert (Hsub : rq_required q ⊆ (strict_alternative registry c q).1).
  { unfold strict_alternative. repeat case_match; simpl; set_solver. }
  apply set_eq. intros cap. rewrite Hun, elem_of_filter, !elem_of_difference. split; [tauto|].
  intros [Hs Hw]. split_and!; try done; intros Hin; [apply Hsub in Hin|]; apply Hreq in Hin; congruence.
Qed.

(** The code's ranking key of an eligible candidate is its merit. *)
Lemma ranking_key_merit b i c e :
  eligible_of route q registry (i, c, candidate_states b (circuit_scopes c) now) = Some e ->
  exists d, declarations registry !! target c = Some d /\ ranking_key e = merit b i c d.
Proof.
  intros (Hst & _ & He)%eligible_of_Some. cbn [fst snd] in *.
  assert ((evaluate_static route c q registry).1 = []) as Hnil by (by rewrite Hst).
  apply evaluate_static_nil in Hnil as (_ & _ & core & a & Hcore & Ha & Hst').
  fold q in Hcore, Hst'. rewrite Hst in Hst'. injection Hst' as Hadm.
  pose proof Ha as Hdecl. apply admit_exact_ok in Hdecl. destruct Hdecl as [(d & Hd & _)].
  exists d. split; [done|]. rewrite He. unfold ranking_key, merit, unmet_preferred, saturating_add.
  cbn [el_admission el_unknown_preferred position el_candidate el_penalty].
  rewrite Hadm, (unmet_wishes _ _ _ _ Hcore Ha Hd), penalty_count.
  destruct (for_request_wishes route request) as [_ Hu]. fold q in Hu. by rewrite Hu.
Qed.

(** C32. Without interference selection is optimal: the merit of the returned
    candidate (unmet wishes, half-open circuits, quality tier, latency, cost,
    position, compared in that order) is at least as good as the merit of every
    candidate that serves the request and whose circuits would grant. *)
Theorem selection_optimal b rep w' s i c :
  route_wf route ->
  select_candidate p route request registry now {| shared := b; others := [] |} = (Ok rep, w') ->
  selected rep = Some s ->
  candidates route !! i = Some c -> serves route request registry c -> grants p now b c = true ->
  exists cs ds dc, candidates route !! Z.to_nat (candidate_position s) = Some cs
    /\ declarations registry !! target cs = Some ds /\ declarations registry !! target c = Some dc
    /\ lex_le (merit b (candidate_position s) cs ds) (merit b (Z.of_nat i) c dc) = true.
Proof.
  intros Hw H Hsel Hi Hsv Hg. apply select_candidate_ok in H as (_ & sts & more & w1 & _ & Ha & _ & Hseq);
    [|done]. destruct (Hseq eq_refl) as [-> Hent]. cbn [shared] in Hent. rewrite Hsel in Ha.
  destruct (rank_of_Some b (Z.of_nat i) c Hw) as [k' Hk'];
    [by eapply list_elem_of_lookup_2|done..|].
  pose proof Hk' as Hk. unfold rank_of in Hk. fold q in Hk.
  apply fmap_Some in Hk as (ec & Hec & ->).
  assert (ec ∈ merge_sort compare_eligible (omap (eligible_of route q registry)
    (entries 0 (candidates route) sts))) as Hin.
  { apply elem_of_eligible. eexists. split; [|exact Hec]. rewrite Hent. apply elem_of_seen.
    exists i. done. }
  pose proof (StronglySorted_merge_sort compare_eligible (omap (eligible_of route q registry)
    (entries 0 (candidates route) sts))) as Hsort.
  apply acquire_first_sequential in Ha as (es1 & [|e es2] & Heq & Hno & _ & Hlast); [by destruct Hlast|].
  destruct Hlast as [_ [permit [= ->]]]. rewrite Heq in Hin, Hsort.
  assert (el_candidate ec = c) as Hcc by (apply eligible_of_Some in Hec as (_ & _ & ->); done).
  assert (compare_eligible e ec) as Hle.
  { apply elem_of_app in Hin as [Hin|Hin]; [apply Hno in Hin; congruence|].
    apply elem_of_cons in Hin as [->|Hin]; [apply lex_le_refl|].
    apply StronglySorted_app_1_r in Hsort. inversion Hsort as [|? ? _ Hall]; subst.
    rewrite Forall_forall in Hall. by apply Hall. }
  assert (e ∈ merge_sort compare_eligible (omap (eligible_of route q registry)
    (entries 0 (candidates route) sts))) as He.
  { rewrite Heq. apply elem_of_app. right. by left. }
  apply elem_of_eligible in He as (x & Hx & He). rewrite Hent in Hx.
  apply elem_of_seen in Hx as (j & Hj & Hpj & Hst). destruct x as [[ps cs] st]. simpl in *. subst.
  pose proof He as Hpe. apply eligible_of_Some in Hpe as (_ & _ & Hpe).
  assert (position e = Z.of_nat j) as Hpj by (by rewrite Hpe).
  destruct (ranking_key_merit _ _ _ _ He) as (ds & Hds & Hks).
  destruct (ranking_key_merit _ _ _ _ Hec) as (dc & Hdc & Hkc).
  exists cs, ds, dc. unfold selected_of. simpl. rewrite Hpj, Nat2Z.id.
  split_and!; try done. unfold compare_eligible in Hle. by rewrite Hks, Hkc in Hle.
Qed.

(** What the entries of one pass contribute to the report. *)
Lemma report_covers b more i c :
  candidates route !! i = Some c ->
  (exists e, e ∈ omap (eligible_of route q registry) (seen b) /\ position e = Z.of_nat i
     /\ el_candidate e = c)
  \/ (exists r, r ∈ merge_sort rejection_le (omap (rejection_of route q registry) (seen b) ++ more)
       /\ rejected_position r = Z.of_nat i).
Proof.
  intros Hi. set (x := (Z.of_nat i, c, candidate_states b (circuit_scopes c) now) : entry).
  assert (x ∈ seen b) as Hx by (apply elem_of_seen; by exists i).
  destruct (entry_reasons route q registry x) as [|y ys] eqn:Er.
  - left. pose proof Er as Er'. unfold entry_reasons in Er'. apply app_nil in Er' as [Hst Hci].
    apply evaluate_static_nil in Hst as (_ & _ & core & a & _ & _ & Hst).
    exists {| position := Z.of_nat i; el_candidate := c; el_admission := a;
              el_unknown_preferred := unknown_preferred_count q; el_penalty := penalty x.2 |}.
    split; [|done]. apply list_elem_of_omap. exists x. split; [done|].
    by apply eligible_of_Some.
  - right. exists {| rejected_position := Z.of_nat i; rejected_reasons := y :: ys |}.
    split; [|done]. rewrite merge_sort_Permutation. apply elem_of_app. left.
    apply list_elem_of_omap. exists x. split; [done|]. apply rejection_of_Some. simpl.
    by rewrite Er.
Qed.

(** Every rejection names a candidate and gives a reason. *)
Lemma report_rejections w rep w' :
  route_wf route -> select_candidate p route request registry now w = (Ok rep, w') ->
  StronglySorted rejection_le (rejections rep)
  /\ forall r, r ∈ rejections rep -> rejected_reasons r <> []
       /\ is_Some (candidates route !! Z.to_nat (rejected_position r)).
Proof.
  intros Hw H. apply select_candidate_ok in H as (_ & sts & more & w1 & Hl & Ha & -> & _); [|done].
  split; [by apply StronglySorted_merge_sort; apply _|]. intros r; rewrite merge_sort_Permutation.
  assert (forall x, x ∈ entries 0 (candidates route) sts ->
    is_Some (candidates route !! Z.to_nat x.1.1)) as Hpos.
  { intros x (i & Hi & _ & ->)%elem_of_entries. rewrite Z.add_0_l, Nat2Z.id. by rewrite Hi. }
  rewrite elem_of_app, list_elem_of_omap. intros [(x & Hx & Hr)|Hr].
  - apply rejection_of_Some in Hr as (-> & -> & ?). auto.
  - destruct (acquire_first_rejections _ _ _ _ _ _ _ Ha r Hr) as (e & k & He & -> & ->).
    split; [done|]. apply elem_of_eligible in He as (x & Hx & He).
    apply eligible_of_Some in He as (_ & _ & ->). by apply Hpos.
Qed.

(** Nothing selected means that no serving candidate was granted. *)
Lemma select_none b rep w' :
  route_wf route ->
  select_candidate p route request registry now {| shared := b; others := [] |} = (Ok rep, w') ->
  selected rep = None -> forall c, c ∈ candidates route -> serves route request registry c ->
  grants p now b c = false.
Proof.
  intros Hw H Hsel c Hc Hsv.
  apply select_candidate_ok in H as (_ & sts & more & w1 & _ & Ha & _ & Hseq); [|done].
  destruct (Hseq eq_refl) as [-> Hent]. cbn [shared] in Hent. rewrite Hent in Ha.
  apply acquire_first_sequential in Ha as (es1 & es2 & Heq & Hno & _ & Hlast).
  destruct (grants p now b c) eqn:Hg; [|done].
  apply list_elem_of_lookup in Hc as [i Hi].
  destruct (rank_of_Some b (Z.of_nat i) c Hw) as [k Hk];
    [by eapply list_elem_of_lookup_2|done..|].
  unfold rank_of in Hk. apply fmap_Some in Hk as (e & He & _).
  assert (e ∈ es1 ++ es2) as Hin.
  { rewrite <- Heq, merge_sort_Permutation. apply list_elem_of_omap. eexists. split; [|done].
    apply elem_of_seen. by exists i. }
  destruct es2; [|destruct Hlast as [_ [? ?]]; congruence]. rewrite app_nil_r in Hin.
  apply Hno in Hin. apply eligible_of_Some in He as (_ & _ & He). rewrite He in Hin.
  simpl in Hin. congruence.
Qed.

(** Selection on a validated route always returns a report, under every
    interleaving; without interference it selects exactly when some candidate
    serves the request and is granted by its circuits, and when it selects
    nothing the book is unchanged and every candidate is rejected with a reason,
    in candidate order. *)
Theorem selection_complete w :
  route_wf route -> validate_request_route route request = Ok tt ->
  exists rep w', select_candidate p route request registry now w = (Ok rep, w')
  /\ StronglySorted rejection_le (rejections rep)
  /\ (forall r, r ∈ rejections rep -> rejected_reasons r <> []
        /\ is_Some (candidates route !! Z.to_nat (rejected_position r)))
  /\ (others w = [] ->
      (selected rep = None <->
        forall c, c ∈ candidates route -> serves route request registry c ->
                  grants p now (shared w) c = false)
      /\ (selected rep = None -> w' = w
          /\ forall i c, candidates route !! i = Some c ->
               exists r, r ∈ rejections rep /\ rejected_position r = Z.of_nat i)).
Proof.
  intros Hw Hv. destruct (select_candidate_total w Hw Hv) as (rep & w' & H).
  exists rep, w'. split; [done|]. destruct (report_rejections w rep w' Hw H) as [Hs Hr].
  split; [done|]. split; [done|]. intros Ho. pose proof H as Hrun.
  apply select_candidate_ok in H as (_ & sts & more & w1 & _ & Ha & Hrej & Hseq); [|done].
  destruct (Hseq Ho) as [-> Hent]. destruct w as [b o]. simpl in Ho. subst o. cbn [shared] in *.
  rewrite Hent in *. pose proof Ha as Hf.
  apply acquire_first_sequential in Hf as (es1 & es2 & Heq & Hno & Hpos & Hlast).
  split.
  - split.
    + intros Hsel. by eapply select_none.
    + intros Hnone. destruct es2 as [|e es2]; [by destruct Hlast|].
      destruct Hlast as [Hg _]. assert (e ∈ es1 ++ e :: es2) as Hin
        by (apply elem_of_app; right; by left).
      rewrite <- Heq, merge_sort_Permutation in Hin. apply list_elem_of_omap in Hin as (x & Hx & He).
      apply elem_of_seen in Hx as (i & Hi & _ & _). apply eligible_of_Some in He as (Hst & _ & He).
      rewrite He in Hg. simpl in Hg. rewrite Hnone in Hg; [done| |].
      * by eapply list_elem_of_lookup_2.
      * apply evaluate_static_sound. fold q. by rewrite Hst.
  - intros Hsel. destruct es2; [|destruct Hlast as [_ [? ?]]; congruence].
    rewrite app_nil_r in Heq. split; [by destruct Hlast|].
    intros i c Hi. destruct (report_covers b more i c Hi) as [(e & He & Hpe & _)|?];
      [|by rewrite Hrej].
    rewrite <- (merge_sort_Permutation compare_eligible), Heq in He.
    apply (list_elem_of_fmap_2 position) in He. rewrite <- Hpos, Hpe in He.
    apply list_elem_of_fmap in He as (r & Hrp & Hr'). exists r. split; [|done].
    rewrite Hrej, merge_sort_Permutation. apply elem_of_app. by right.
Qed.
End selection.

(** ** A concrete route *)
Module Fixture.
Definition key (p : string) : ModelCapabilityKey :=
  {| provider := p; model := "model"; revision := "1" |}.
Definition cand (id p : string) (tier : Z) : RouteCandidate :=
  {| cand_id := id; target := key p; endpoint := "endpoint"; region := "eu";
     boundary := {| residency := "eu-only"; max_classification := Confidential;
                    safety_policy_revision := "safety-1" |};
     cand_limits := {| cl_max_context_tokens := 8000; cl_max_output_tokens := 2000;
                       cl_max_input_bytes := None; cl_max_output_bytes := None |};
     rank := {| quality_tier := tier; expected_latency := 10; estimated_cost_microunits := 5 |};
     cand_enabled := true;
     circuit_scopes := match scopes_for_candidate (key p) "endpoint" "eu" with
                       | Ok ss => ss | Err _ => [] end |}.
Definition pol : RoutePolicy :=
  {| required_route := true; policy_required := {[ TextOutput ]}; policy_preferred := ∅;
     policy_residency := "eu-only"; data_classification := Internal; latency_target := 100;
     route_limits := {| minimum_context_tokens := 1000; required_output_tokens := 100;
                        route_max_input_bytes := None; route_max_output_bytes := None;
                        route_max_cost_microunits := Some 50 |};
     retry := RetryPolicy_default;
     fallback := [{| rule_from := "best"; rule_to := "good" |}];
     hedge := HedgePolicy_disabled |}.
Definition rt : RouteDefinition :=
  {| rd_id := "route-a"; rd_revision := 1; observability_name := "route-a"; policy := pol;
     candidates := [cand "good" "p1" 1; cand "best" "p2" 7] |}.
Definition request : LlmRequest := text_request example_route 10000.
Definition decl (p : string) : ModelCapabilityDeclaration :=
  {| decl_key := key p; decl_registry_revision := "registry-1";
     decl_evidence :=
       <[TextInput := {| evidence_source := Configured; evidence_revision := "1" |}]>
       (<[TextOutput := {| evidence_source := Configured; evidence_revision := "1" |}]> ∅);
     decl_regions := {[ "eu"%string ]};
     decl_max_context_tokens := Some 16000; decl_max_output_tokens := Some 4000 |}.
Definition registry : ModelCapabilityRegistry :=
  {| declarations := <[key "p1" := decl "p1"]> (<[key "p2" := decl "p2"]> ∅) |}.

Definition run := select_candidate CircuitPolicy_default rt request registry 0
  {| shared := ∅; others := [] |}.
Definition report : SelectionReport :=
  match run.1 with Ok r => r | Err _ => {| selected := None; rejections := [] |} end.
Definition chosen : SelectedCandidate :=
  default {| candidate_position := 0; candidate_id := ""; capability_registry_revision := "";
             unmet_preferred_count := 0;
             probe_permit := {| permit_scopes := []; active := false |} |} (selected report).

Lemma rt_wf : route_wf rt.
Proof.
  split.
  - done.
  - vm_compute. congruence.
  - apply (bool_decide_unpack _). vm_compute. exact I.
  - intros rule. simpl. rewrite elem_of_cons, elem_of_nil. intros [->|[]]. simpl.
    rewrite !elem_of_cons. tauto.
  - intros c. cbn [candidates rt]. rewrite !elem_of_cons, elem_of_nil. intros [->|[->|[]]]; reflexivity.
  - vm_compute. done.
Qed.

Lemma good_serves : serves rt request registry (cand "good" "p1" 1).
Proof. apply evaluate_static_sound. vm_compute. reflexivity. Qed.
End Fixture.

Lemma selection_sound_witness :
  candidate_id Fixture.chosen = "best"%string
  /\ exists c b, 0 <= candidate_position Fixture.chosen
    /\ candidates Fixture.rt !! Z.to_nat (candidate_position Fixture.chosen) = Some c
    /\ candidate_id Fixture.chosen = cand_id c
    /\ serves Fixture.rt Fixture.request Fixture.registry c
    /\ try_acquire_candidate CircuitPolicy_default (circuit_scopes c) 0 b
       = (Some (probe_permit Fixture.chosen), shared Fixture.run.2).
Proof.
  split; [vm_compute; reflexivity|].
  refine (proj2 (proj2 (selection_sound CircuitPolicy_default Fixture.rt Fixture.request
    Fixture.registry 0 {| shared := ∅; others := [] |} Fixture.report Fixture.run.2 Fixture.chosen
    Fixture.rt_wf _ _))); vm_compute; reflexivity.
Defined.

Lemma selection_optimal_witness :
  exists cs ds dc,
    candidates Fixture.rt !! Z.to_nat (candidate_position Fixture.chosen) = Some cs
    /\ declarations Fixture.registry !! target cs = Some ds
    /\ declarations Fixture.registry !! target (Fixture.cand "good" "p1" 1) = Some dc
    /\ lex_le (merit Fixture.rt Fixture.request 0 ∅ (candidate_position Fixture.chosen) cs ds)
         (merit Fixture.rt Fixture.request 0 ∅ 0 (Fixture.cand "good" "p1" 1) dc) = true.
Proof.
  refine (selection_optimal CircuitPolicy_default Fixture.rt Fixture.request
    Fixture.registry 0 ∅ Fixture.report Fixture.run.2 Fixture.chosen 0 (Fixture.cand "good" "p1" 1)
    Fixture.rt_wf _ _ _ Fixture.good_serves _); vm_compute; reflexivity.
Defined.

Lemma selection_complete_witness :
  exists rep w', select_candidate CircuitPolicy_default Fixture.rt Fixture.request
    Fixture.registry 0 {| shared := ∅; others := [] |} = (Ok rep, w')
  /\ StronglySorted rejection_le (rejections rep).
Proof.
  destruct (selection_complete CircuitPolicy_default Fixture.rt Fixture.request Fixture.registry 0
    {| shared := ∅; others := [] |} Fixture.rt_wf eq_refl) as (rep & w' & H & Hs & _).
  exists rep, w'. split; assumption.
Defined.
