(* ===== verification/Fallback.v ===== *)
(** * Fallback proofs

    [crates/llm-routing/src/fallback.rs]: the proof obligation a caller discharges
    before it moves from one candidate to another, and what a chain of such moves
    preserves. *)
From S2P Require Import Prelude Machine Text Capability LlmRequest Circuit.
From S2P Require Import CircuitFacts CircuitProtocol Retry RouteDefinition Selection SelectionFacts.
From S2P Require Import SelectionTheorems.

Inductive FallbackReason := ProviderUnavailable | RetryExhausted | DeadlineRisk | CircuitOpen.

Record FallbackProof := {
  proof_revision : Z;
  proof_from : string;
  proof_to : string;
  proof_reason : FallbackReason;
  proof_registry_revision : string;
}.

Inductive FallbackProofError :=
| CallerProhibited | UndeclaredFallback | UnknownCandidate | RouteMismatch
| SemanticDowngrade | CandidateIneligible.

(** The guard on the two boundaries and limits. *)
Definition downgrades (primary fallback : RouteCandidate) : bool :=
  negb (bool_decide (residency (boundary primary) = residency (boundary fallback)))
  || negb (bool_decide (safety_policy_revision (boundary primary)
                        = safety_policy_revision (boundary fallback)))
  || (classification_level (max_classification (boundary fallback))
      <? classification_level (max_classification (boundary primary)))
  || negb (covers (cand_limits fallback) (cand_limits primary)).

Definition prove_fallback (route : RouteDefinition) (request : LlmRequest)
    (registry : ModelCapabilityRegistry) (from to : string) (reason : FallbackReason)
    (caller_allows_fallback : bool) : result FallbackProofError FallbackProof :=
  _ ← map_err (fun _ => RouteMismatch) (validate_request_route route request);
  _ ← guard_err (negb caller_allows_fallback) CallerProhibited;
  _ ← guard_err (negb (allows (fallback (policy route)) from to)) UndeclaredFallback;
  primary ← ok_or (candidate route from) UnknownCandidate;
  fb ← ok_or (candidate route to) UnknownCandidate;
  _ ← guard_err (downgrades primary fb) SemanticDowngrade;
  admission ← map_err (fun _ => CandidateIneligible)
                (admit_candidate_without_circuit route request fb registry);
  Ok {| proof_revision := rd_revision route; proof_from := from; proof_to := to;
        proof_reason := reason;
        proof_registry_revision := adm_registry_revision admission |}.

(** ** What no fallback weakens *)

(** [c'] keeps the guarantees [c] gives: same residency and safety policy, at
    least its classification and its capacities. *)
Record preserves (c c' : RouteCandidate) : Prop := {
  ps_residency : residency (boundary c') = residency (boundary c);
  ps_safety : safety_policy_revision (boundary c') = safety_policy_revision (boundary c);
  ps_classification : classification_level (max_classification (boundary c))
    <= classification_level (max_classification (boundary c'));
  ps_context : cl_max_context_tokens (cand_limits c) <= cl_max_context_tokens (cand_limits c');
  ps_output : cl_max_output_tokens (cand_limits c) <= cl_max_output_tokens (cand_limits c');
  ps_input_bytes : capacity_covers (cl_max_input_bytes (cand_limits c'))
    (cl_max_input_bytes (cand_limits c));
  ps_output_bytes : capacity_covers (cl_max_output_bytes (cand_limits c'))
    (cl_max_output_bytes (cand_limits c));
}.

Lemma capacity_covers_refl a : capacity_covers a a.
Proof. intros n ->. exists n. split; [done|lia]. Qed.

Lemma capacity_covers_trans a b c :
  capacity_covers b a -> capacity_covers c b -> capacity_covers c a.
Proof.
  intros Hba Hcb n Hn. destruct (Hba n Hn) as (m & Hm & ?). destruct (Hcb m Hm) as (k & ? & ?).
  exists k. split; [done|lia].
Qed.

#[global] Instance preserves_preorder : PreOrder preserves.
Proof.
  split.
  - intros c. constructor; (lia || apply capacity_covers_refl || done).
  - intros a b c [] []. constructor; try congruence; try lia; by eapply capacity_covers_trans.
Qed.

Lemma optional_capacity_covers_iff t s :
  optional_capacity_covers t s = true <-> capacity_covers t s.
Proof.
  change (optional_capacity_covers t s) with (capacity_satisfies t s). apply capacity_satisfies_iff.
Qed.

Lemma downgrades_false c c' : downgrades c c' = false <-> preserves c c'.
Proof.
  unfold downgrades, covers.
  rewrite !orb_false_iff, !negb_false_iff, !bool_decide_eq_true, !andb_true_iff, Z.ltb_ge, !Z.leb_le,
    !optional_capacity_covers_iff.
  split; [intros [[[? ?] ?] [[[? ?] ?] ?]]; by constructor|].
  intros []. split_and!; done.
Qed.

Lemma admit_without_circuit_ok route request c registry a :
  admit_candidate_without_circuit route request c registry = Ok a ->
  serves route request registry c.
Proof.
  unfold admit_candidate_without_circuit.
  destruct (evaluate_static _ _ _ _) as [rs adm] eqn:E. destruct rs; [|done]. intros _.
  apply evaluate_static_sound. by rewrite E.
Qed.

Lemma admit_without_circuit_complete route request c registry :
  limits_wf (route_limits (policy route)) -> validate_id (region c) = Ok tt ->
  serves route request registry c ->
  exists a, admit_candidate_without_circuit route request c registry = Ok a.
Proof.
  intros Hl Hr Hs. pose proof (evaluate_static_complete route request registry c Hl Hr Hs) as Hnil.
  apply evaluate_static_nil in Hnil as (_ & _ & core & a & _ & _ & Hst).
  exists a. unfold admit_candidate_without_circuit. by rewrite Hst.
Qed.

(** A fallback is proved exactly when the request names this route revision,
    the caller allows fallbacks, the route declares the edge, both candidates
    exist, the target keeps every guarantee of the source and itself serves the
    request; every failed condition is an error. *)
Theorem prove_fallback_iff route request registry from to reason allowed :
  route_wf route ->
  ((exists pf, prove_fallback route request registry from to reason allowed = Ok pf) <->
   validate_request_route route request = Ok tt /\ allowed = true
   /\ {| rule_from := from; rule_to := to |} ∈ fallback (policy route)
   /\ exists c c', candidate route from = Some c /\ candidate route to = Some c'
        /\ preserves c c' /\ serves route request registry c').
Proof.
  intros Hw. unfold prove_fallback. split.
  - intros [pf H]. inv_ok.
    match goal with H : validate_request_route _ _ = Ok ?u |- _ => destruct u end.
    split_and!; try done.
    + by apply negb_false_iff.
    + apply allows_true. by apply negb_false_iff.
    + do 2 eexists. split_and!; [done..| |].
      * by apply downgrades_false.
      * by eapply admit_without_circuit_ok.
  - intros (Hv & -> & Hin & c & c' & Hc & Hc' & Hp & Hs).
    destruct (candidate_Some _ _ _ Hc') as [Hmem _].
    destruct (admit_without_circuit_complete route request c' registry (rwf_limits _ Hw)
      (candidate_region_valid _ (rwf_candidates _ Hw _ Hmem)) Hs) as [a Ha].
    apply allows_true in Hin. apply downgrades_false in Hp.
    rewrite Hv. cbn. rewrite Hin. cbn. rewrite Hc. cbn. rewrite Hc'. cbn. rewrite Hp. cbn.
    rewrite Ha. eexists. reflexivity.
Qed.

(** A run of proved fallbacks through one route. *)
Inductive fallback_chain (route : RouteDefinition) (request : LlmRequest)
    (registry : ModelCapabilityRegistry) : string -> string -> Prop :=
| chain_start id : fallback_chain route request registry id id
| chain_step a b c reason pf :
    fallback_chain route request registry a b ->
    prove_fallback route request registry b c reason true = Ok pf ->
    fallback_chain route request registry a c.

(** However many fallbacks follow each other, the candidate reached preserves
    every guarantee of the one the request started with. *)
Theorem fallback_chain_preserves route request registry a b c :
  fallback_chain route request registry a b ->
  candidate route a = Some c -> exists c', candidate route b = Some c' /\ preserves c c'.
Proof.
  intros H Ha. induction H as [id|a b d reason pf H IH Hpf].
  - exists c. split; [done|]. reflexivity.
  - destruct (IH Ha) as (c1 & Hb & Hp). unfold prove_fallback in Hpf. inv_ok.
    match goal with H1 : candidate route b = Some ?x, H2 : downgrades ?x ?y = false,
      H3 : candidate route d = Some ?y |- _ =>
        exists y; split; [exact H3|]; rewrite Hb in H1; injection H1 as <-;
        apply downgrades_false in H2 end.
    by transitivity c1.
Qed.

Lemma prove_fallback_iff_witness :
  exists pf, prove_fallback Fixture.rt Fixture.request Fixture.registry "best" "good"
    ProviderUnavailable true = Ok pf.
Proof.
  apply (prove_fallback_iff Fixture.rt Fixture.request Fixture.registry "best" "good"
    ProviderUnavailable true Fixture.rt_wf).
  split; [reflexivity|]. split; [reflexivity|]. split; [left|].
  exists (Fixture.cand "best" "p2" 7), (Fixture.cand "good" "p1" 1).
  split; [reflexivity|]. split; [reflexivity|]. split.
  - apply downgrades_false. reflexivity.
  - apply Fixture.good_serves.
Defined.

Lemma fallback_chain_preserves_witness :
  exists c', candidate Fixture.rt "good" = Some c' /\ preserves (Fixture.cand "best" "p2" 7) c'.
Proof.
  refine (fallback_chain_preserves Fixture.rt Fixture.request Fixture.registry "best" "good"
    (Fixture.cand "best" "p2" 7) _ eq_refl).
  eapply (chain_step _ _ _ "best" "best" "good" RetryExhausted).
  - apply chain_start.
  - vm_compute. reflexivity.
Defined.
