(* ===== verification/Readiness.v ===== *)
(** * Required-route readiness

    [crates/llm-routing/src/readiness.rs]: the process is ready when every required
    route has a candidate that passes the route's own filters with all circuits
    closed; and what readiness promises to the next request. *)
From S2P Require Import Prelude Machine Text Capability LlmRequest Circuit.
From S2P Require Import CircuitFacts CircuitProtocol Retry RouteDefinition Selection SelectionFacts.
From S2P Require Import SelectionTheorems.

Record RequiredRouteReadiness := {
  required_route_count : Z;
  unavailable_route_count : Z;
}.

Definition is_ready (r : RequiredRouteReadiness) : bool := unavailable_route_count r =? 0.

(** [candidates.iter().any(...)]: stops at the first available candidate. *)
Fixpoint any_available (route : RouteDefinition) (registry : ModelCapabilityRegistry) (now : Z)
    (cs : list RouteCandidate) (w : world) : bool * world :=
  match cs with
  | [] => (false, w)
  | c :: cs' =>
      let '(ok, w') := candidate_available_for_readiness route c registry now w in
      if ok then (true, w') else any_available route registry now cs' w'
  end.

(** The loop of [evaluate_at] over the required routes, with its two counters. *)
Fixpoint evaluate_routes (registry : ModelCapabilityRegistry) (now : Z)
    (routes : list RouteDefinition) (acc : RequiredRouteReadiness) (w : world)
    : RequiredRouteReadiness * world :=
  match routes with
  | [] => (acc, w)
  | route :: rest =>
      if required_route (policy route) then
        let '(available, w') := any_available route registry now (candidates route) w in
        evaluate_routes registry now rest
          {| required_route_count := required_route_count acc + 1;
             unavailable_route_count :=
               unavailable_route_count acc + (if available then 0 else 1) |} w'
      else evaluate_routes registry now rest acc w
  end.

Definition evaluate_at (routes : list RouteDefinition) (registry : ModelCapabilityRegistry)
    (now : Z) (w : world) : RequiredRouteReadiness * world :=
  evaluate_routes registry now routes
    {| required_route_count := 0; unavailable_route_count := 0 |} w.

(** ** Readiness without interference *)

(** A candidate is available on a book: closed circuits and no static reason. *)
Definition available (route : RouteDefinition) (registry : ModelCapabilityRegistry) (now : Z)
    (b : circuit_book) (c : RouteCandidate) : Prop :=
  (forall sc, sc ∈ circuit_scopes c -> state b sc now = Closed)
  /\ (evaluate_static route c (for_route route) registry).1 = [].

Section sequential.
Context (registry : ModelCapabilityRegistry) (now : Z) (b : circuit_book).
Let w := {| shared := b; others := [] |}.

Lemma candidate_available_spec route c :
  exists ok, candidate_available_for_readiness route c registry now w = (ok, w)
    /\ (ok = true <-> available route registry now b c).
Proof.
  unfold candidate_available_for_readiness, locked_states, available. cbn [lock others shared w].
  assert (existsb (fun s => negb (bool_decide (s = Closed)))
            (candidate_states b (circuit_scopes c) now) = false <->
          forall sc, sc ∈ circuit_scopes c -> state b sc now = Closed) as Hcl.
  { rewrite <- not_true_iff_false, existsb_exists. unfold candidate_states. split.
    - intros Hno sc Hsc. apply dec_stable. intros Hne. apply Hno. exists (state b sc now).
      split; [apply list_elem_of_In; by apply (list_elem_of_fmap_2 (fun s => state b s now))|].
      by rewrite bool_decide_eq_false_2.
    - intros H (s & Hs & Hb). apply list_elem_of_In, list_elem_of_fmap in Hs as (sc & -> & Hsc).
      rewrite H in Hb by done. done. }
  destruct (existsb _ _) eqn:E; eexists; (split; [reflexivity|]).
  - split; [done|]. intros [H _]. apply Hcl in H. done.
  - destruct ((evaluate_static route c (for_route route) registry).1); split; try done.
    + intros _. split; [by apply Hcl|done].
    + by intros [_ ?].
Qed.

Lemma any_available_spec route cs :
  exists ok, any_available route registry now cs w = (ok, w)
    /\ (ok = true <-> exists c, c ∈ cs /\ available route registry now b c).
Proof.
  induction cs as [|c cs (ok & Hrun & IH)]; simpl.
  { exists false. split; [done|]. split; [done|]. by intros (? & ?%not_elem_of_nil & _). }
  destruct (candidate_available_spec route c) as (okc & -> & Hc). destruct okc.
  - exists true. split; [done|]. split; [|done]. intros _. exists c. split; [by left|by apply Hc].
  - exists ok. split; [done|]. rewrite IH. split.
    + intros (x & ? & ?). exists x. split; [by right|done].
    + intros (x & Hx & Ha). apply elem_of_cons in Hx as [->|Hx]; [by apply Hc in Ha|eauto].
Qed.

Lemma evaluate_routes_spec routes acc :
  0 <= unavailable_route_count acc ->
  exists r, evaluate_routes registry now routes acc w = (r, w)
    /\ unavailable_route_count acc <= unavailable_route_count r
    /\ (unavailable_route_count r = 0 <-> unavailable_route_count acc = 0 /\
        forall route, route ∈ routes -> required_route (policy route) = true ->
          exists c, c ∈ candidates route /\ available route registry now b c).
Proof.
  revert acc. induction routes as [|route routes IH]; intros acc H0; simpl.
  { exists acc. split_and!; [done..|]. split; [|tauto]. intros ?. split; [done|].
    by intros ? ?%not_elem_of_nil. }
  setoid_rewrite elem_of_cons. destruct (required_route (policy route)) eqn:Er.
  - destruct (any_available_spec route (candidates route)) as (ok & -> & Hok).
    edestruct (IH {| required_route_count := required_route_count acc + 1;
                     unavailable_route_count :=
                       unavailable_route_count acc + (if ok then 0 else 1) |}) as (r & -> & Hle & Hr);
      [simpl; destruct ok; lia|]. simpl in Hle, Hr.
    exists r. split; [done|]. split; [destruct ok; lia|]. rewrite Hr. split.
    + intros [Hz Hall]. destruct ok; [|lia]. split; [lia|].
      intros x [->|Hx] Hreq; [by apply Hok|by apply Hall].
    + intros [Hz Hall]. assert (ok = true) as -> by (apply Hok; apply Hall; auto).
      split; [lia|]. auto.
  - destruct (IH acc H0) as (r & -> & Hle & Hr). exists r. split; [done|]. split; [done|].
    rewrite Hr. split; intros [? Hall]; (split; [done|]).
    + intros x [->|Hx] Hreq; [congruence|auto].
    + auto.
Qed.
End sequential.

(** ** From readiness to selection *)

(** A request that asks for nothing beyond what its route already requires. *)
Record adds_nothing (route : RouteDefinition) (request : LlmRequest) : Prop := {
  an_route : validate_request_route route request = Ok tt;
  an_needs : forall c, needs route request c -> c = TextInput \/ c ∈ policy_required (policy route);
  an_known : semantics_known route request;
  an_strict : ~ (mode (output request) = MStructured /\ strict (output request) = Some true);
  an_tokens : forall g n, LlmRequest.generation request = Some g -> max_output_tokens g = Some n ->
    n <= required_output_tokens (route_limits (policy route));
  an_input : rl_max_input_bytes (limits request) = None
    \/ rl_max_input_bytes (limits request) = route_max_input_bytes (route_limits (policy route));
  an_output : rl_max_output_bytes (limits request) = None
    \/ rl_max_output_bytes (limits request) = route_max_output_bytes (route_limits (policy route));
  an_cost : rl_max_cost_microunits (limits request) = None
    \/ rl_max_cost_microunits (limits request)
       = route_max_cost_microunits (route_limits (policy route));
}.

(** The request with no semantics of its own, whose requirements are the route's. *)
Definition bare_request (route : RouteDefinition) : LlmRequest :=
  {| LlmRequest.route := {| route_id := rd_id route; route_revision := Some (rd_revision route);
                 required_capabilities := []; preferred_capabilities := [] |};
     messages := []; LlmRequest.generation := None;
     output := {| mode := MAuto; strict := None; mime_types := [] |};
     tools := None; tool_policy := None;
     limits := {| deadline_ms := 1; max_model_turns := 1; max_tool_calls := 0;
                  rl_max_input_bytes := None; rl_max_output_bytes := None;
                  rl_max_cost_microunits := None |} |}.

Lemma for_route_bare route c registry :
  (evaluate_static route c (for_route route) registry).1
  = (evaluate_static route c (for_request route (bare_request route)) registry).1.
Proof.
  assert (for_request route (bare_request route) =
    {| rq_required := {[ TextInput ]} ∪ policy_required (policy route);
       rq_preferred := policy_preferred (policy route) ∖ ({[ TextInput ]} ∪ policy_required (policy route));
       unknown_required := false; unknown_preferred_count := 0; strict_structured_output := false;
       rq_minimum_context_tokens := minimum_context_tokens (route_limits (policy route));
       rq_required_output_tokens := required_output_tokens (route_limits (policy route));
       required_input_bytes := route_max_input_bytes (route_limits (policy route));
       required_output_bytes := route_max_output_bytes (route_limits (policy route));
       rq_max_cost_microunits := route_max_cost_microunits (route_limits (policy route)) |}) as ->.
  { unfold for_request, derive_request_semantics, for_route, bare_request, all_parts. simpl.
    replace ({[TextInput]} ∪ ({[TextInput]} ∪ policy_required (policy route)))
      with ({[TextInput]} ∪ policy_required (policy route)) by set_solver.
    unfold max_optional, min_optional. f_equal.
    - by destruct (route_max_input_bytes _).
    - by destruct (route_max_output_bytes _).
    - by destruct (route_max_cost_microunits _). }
  unfold evaluate_static, registry_verdict, core_requirements, policy_reasons, strict_alternative.
  simpl. replace (policy_preferred (policy route) ∖ ({[TextInput]} ∪ policy_required (policy route))
    ∖ ({[TextInput]} ∪ policy_required (policy route)))
    with (policy_preferred (policy route) ∖ ({[TextInput]} ∪ policy_required (policy route)))
    by set_solver.
  done.
Qed.

Lemma bare_serves route request registry c :
  adds_nothing route request -> serves route (bare_request route) registry c ->
  serves route request registry c.
Proof.
  intros An [? ? ? ? ? [Ho _] [Hi _] [Hb _] Hcost _ (d & Hd & Hdc)].
  constructor; try done.
  - split; [done|]. intros g n Hg Hn. pose proof (an_tokens _ _ An g n Hg Hn). lia.
  - split; [done|]. by destruct (an_input _ _ An) as [->| ->].
  - split; [done|]. by destruct (an_output _ _ An) as [->| ->].
  - intros ceiling [Hc|Hc]; [apply Hcost; by left|].
    destruct (an_cost _ _ An) as [Hn|He]; [congruence|]. apply Hcost. left. congruence.
  - by apply (an_known _ _ An).
  - exists d. split; [done|]. destruct Hdc as [Hs Hst ? ? (y & Hy & Hyle & _)].
    constructor; try done.
    + intros cap Hcap. apply Hs. destruct (an_needs _ _ An cap Hcap) as [->|?]; by constructor.
    + intros Hm Hst'. by destruct (an_strict _ _ An).
    + exists y. split_and!; [done..|]. intros g n Hg Hn.
      pose proof (an_tokens _ _ An g n Hg Hn). lia.
Qed.

Lemma closed_grants p now b c :
  (forall sc, sc ∈ circuit_scopes c -> state b sc now = Closed) -> grants p now b c = true.
Proof.
  intros Hcl. unfold grants. apply bool_decide_eq_true_2.
  unfold try_acquire_candidate, acquire_scopes.
  replace (existsb (scope_refuses p b now) (circuit_scopes c)) with false.
  - destruct (reserve_probes now (circuit_scopes c) b). by eexists.
  - symmetry. rewrite <- not_true_iff_false, existsb_exists. intros (sc & Hsc & Hr).
    apply list_elem_of_In, Hcl in Hsc. unfold scope_refuses, state in *.
    destruct (b !! sc); [by rewrite Hsc in Hr|done].
Qed.

(** Readiness is meaningful: evaluating it changes no circuit, it reports
    ready exactly when every required route has an available candidate, and then
    a request to a required route that asks for nothing beyond the route's own
    requirements is given a candidate by selection at that moment. *)
Theorem ready_routes_select p routes registry now b route request :
  (forall rd, rd ∈ routes -> route_wf rd) ->
  route ∈ routes -> required_route (policy route) = true -> adds_nothing route request ->
  exists r, evaluate_at routes registry now {| shared := b; others := [] |}
              = (r, {| shared := b; others := [] |})
  /\ (is_ready r = true <->
      forall rd, rd ∈ routes -> required_route (policy rd) = true ->
        exists c, c ∈ candidates rd /\ available rd registry now b c)
  /\ (is_ready r = true ->
      exists rep w' s,
        select_candidate p route request registry now {| shared := b; others := [] |} = (Ok rep, w')
        /\ selected rep = Some s).
Proof.
  intros Hwf Hin Hreq An. unfold evaluate_at.
  destruct (evaluate_routes_spec registry now b routes
    {| required_route_count := 0; unavailable_route_count := 0 |}) as (r & Hrun & _ & Hr); [done|].
  exists r. split; [done|]. simpl in Hr. unfold is_ready. rewrite Z.eqb_eq.
  split; [rewrite Hr; tauto|]. intros Hz. apply Hr in Hz as [_ Hall].
  destruct (Hall route Hin Hreq) as (c & Hc & Hcl & Hst).
  rewrite for_route_bare in Hst. apply evaluate_static_sound in Hst.
  apply (bare_serves _ request) in Hst; [|done].
  destruct (select_candidate_total p route request registry now {| shared := b; others := [] |}
    (Hwf _ Hin) (an_route _ _ An)) as (rep & w' & Hsel).
  exists rep, w'. destruct (selected rep) as [s|] eqn:Es; [by exists s|]. exfalso.
  pose proof (select_none p route request registry now b rep w' (Hwf _ Hin) Hsel Es c Hc Hst) as Hg.
  rewrite closed_grants in Hg by done. done.
Qed.

Lemma fixture_adds_nothing : adds_nothing Fixture.rt Fixture.request.
Proof.
  split; try (by left); try done.
  - intros c [H|H]%needs_iff.
    + destruct H as [->|[H|[(n & Hn & _)|[(x & Hx & Hp)|[_ ?]]]]]; [by left|by right| | |done].
      * by apply not_elem_of_nil in Hn.
      * simpl in Hx. apply elem_of_cons in Hx as [->|Hx]; [done|by apply not_elem_of_nil in Hx].
    + simpl in H. subst. right. simpl. by apply elem_of_singleton.
  - split; [|done]. by intros ? ?%not_elem_of_nil.
  - by intros [? _].
Qed.

Lemma fixture_routes_wf rd : rd ∈ [Fixture.rt] -> route_wf rd.
Proof. rewrite elem_of_cons, elem_of_nil. intros [->|[]]. apply Fixture.rt_wf. Qed.

Lemma ready_routes_select_witness :
  exists r, evaluate_at [Fixture.rt] Fixture.registry 0 {| shared := ∅; others := [] |}
    = (r, {| shared := ∅; others := [] |})
    /\ (is_ready r = true ->
        exists rep w' s,
          select_candidate CircuitPolicy_default Fixture.rt Fixture.request Fixture.registry 0
            {| shared := ∅; others := [] |} = (Ok rep, w') /\ selected rep = Some s).
Proof.
  destruct (ready_routes_select CircuitPolicy_default [Fixture.rt] Fixture.registry 0 ∅ Fixture.rt
    Fixture.request fixture_routes_wf (list_elem_of_here _ _) eq_refl fixture_adds_nothing)
    as (r & Hr & _ & Hsel).
  exists r. split; [exact Hr|exact Hsel].
Defined.
