(* ===== verification/LedgerAmount.v ===== *)
(** * Exact usage arithmetic

    [crates/llm-usage-ledger/src/amount.rs]: amounts are [u64], every addition and
    subtraction is checked, adjustments are signed [i128] differences of [u64]s and
    therefore exact.  [UsageAmount] and [CostMicrounits] are the numbers they wrap. *)
From S2P Require Import Prelude Machine.

Inductive ArithmeticError := Arithmetic.

Definition UsageAmount_checked_add (a b : Z) : result ArithmeticError Z :=
  ok_or (checked_add u64_max a b) Arithmetic.
Definition UsageAmount_checked_sub (a b : Z) : result ArithmeticError Z :=
  ok_or (checked_sub a b) Arithmetic.

Record UsageVector := {
  requests : Z;
  concurrent_streams : Z;
  tokens : Z;
  units : Z;
  tool_calls : Z;
  media_bytes : Z;
  cost_microunits : Z;
}.

#[global] Instance UsageVector_eq_dec : EqDecision UsageVector.
Proof. solve_decision. Defined.

Definition UsageVector_zero : UsageVector :=
  {| requests := 0; concurrent_streams := 0; tokens := 0; units := 0; tool_calls := 0;
     media_bytes := 0; cost_microunits := 0 |}.

(** The same operation on every field, first failure first. *)
Definition vector_map2 (f : Z -> Z -> result ArithmeticError Z) (a b : UsageVector)
    : result ArithmeticError UsageVector :=
  r ← f (requests a) (requests b);
  s ← f (concurrent_streams a) (concurrent_streams b);
  t ← f (tokens a) (tokens b);
  u ← f (units a) (units b);
  c ← f (tool_calls a) (tool_calls b);
  m ← f (media_bytes a) (media_bytes b);
  k ← f (cost_microunits a) (cost_microunits b);
  Ok {| requests := r; concurrent_streams := s; tokens := t; units := u; tool_calls := c;
        media_bytes := m; cost_microunits := k |}.

Definition UsageVector_checked_add := vector_map2 UsageAmount_checked_add.
Definition UsageVector_checked_sub := vector_map2 UsageAmount_checked_sub.

Definition max_u64 (left right : Z) : Z := if right <=? left then left else right.

Definition vector_conservative_max (a b : UsageVector) : UsageVector :=
  {| requests := max_u64 (requests a) (requests b);
     concurrent_streams := max_u64 (concurrent_streams a) (concurrent_streams b);
     tokens := max_u64 (tokens a) (tokens b);
     units := max_u64 (units a) (units b);
     tool_calls := max_u64 (tool_calls a) (tool_calls b);
     media_bytes := max_u64 (media_bytes a) (media_bytes b);
     cost_microunits := max_u64 (cost_microunits a) (cost_microunits b) |}.

Definition vector_without_concurrency (a : UsageVector) : UsageVector :=
  {| requests := requests a; concurrent_streams := 0; tokens := tokens a; units := units a;
     tool_calls := tool_calls a; media_bytes := media_bytes a;
     cost_microunits := cost_microunits a |}.

Definition vector_is_zero (a : UsageVector) : bool :=
  (requests a =? 0) && (concurrent_streams a =? 0) && (tokens a =? 0) && (units a =? 0)
  && (tool_calls a =? 0) && (media_bytes a =? 0) && (cost_microunits a =? 0).

(** ** Breakdowns *)
Record UsageBreakdown := {
  primary : UsageVector;
  retry : UsageVector;
  repair : UsageVector;
  tool : UsageVector;
}.

#[global] Instance UsageBreakdown_eq_dec : EqDecision UsageBreakdown.
Proof. solve_decision. Defined.

Definition UsageBreakdown_primary (p : UsageVector) : UsageBreakdown :=
  {| primary := p; retry := UsageVector_zero; repair := UsageVector_zero; tool := UsageVector_zero |}.

(** [UsageBreakdown::default()] *)
Definition UsageBreakdown_default : UsageBreakdown := UsageBreakdown_primary UsageVector_zero.

Definition checked_total (b : UsageBreakdown) : result ArithmeticError UsageVector :=
  t1 ← UsageVector_checked_add (primary b) (retry b);
  t2 ← UsageVector_checked_add t1 (repair b);
  UsageVector_checked_add t2 (tool b).

Definition includes_dispatched_request (b : UsageBreakdown) : result ArithmeticError bool :=
  total ← checked_total b;
  Ok (0 <? requests total).

Definition conservative_max (a b : UsageBreakdown) : UsageBreakdown :=
  {| primary := vector_conservative_max (primary a) (primary b);
     retry := vector_conservative_max (retry a) (retry b);
     repair := vector_conservative_max (repair a) (repair b);
     tool := vector_conservative_max (tool a) (tool b) |}.

Definition without_concurrency (a : UsageBreakdown) : UsageBreakdown :=
  {| primary := vector_without_concurrency (primary a);
     retry := vector_without_concurrency (retry a);
     repair := vector_without_concurrency (repair a);
     tool := vector_without_concurrency (tool a) |}.

Definition breakdown_is_zero (b : UsageBreakdown) : bool :=
  vector_is_zero (primary b) && vector_is_zero (retry b) && vector_is_zero (repair b)
  && vector_is_zero (tool b).

(** ** Adjustments: fields are [i128] *)
Record UsageDelta := {
  d_requests : Z;
  d_concurrent_streams : Z;
  d_tokens : Z;
  d_units : Z;
  d_tool_calls : Z;
  d_media_bytes : Z;
  d_cost_microunits : Z;
}.

#[global] Instance UsageDelta_eq_dec : EqDecision UsageDelta.
Proof. solve_decision. Defined.

Definition UsageDelta_between (current previous : UsageBreakdown)
    : result ArithmeticError UsageDelta :=
  c ← checked_total current;
  p ← checked_total previous;
  Ok {| d_requests := requests c - requests p;
        d_concurrent_streams := concurrent_streams c - concurrent_streams p;
        d_tokens := tokens c - tokens p;
        d_units := units c - units p;
        d_tool_calls := tool_calls c - tool_calls p;
        d_media_bytes := media_bytes c - media_bytes p;
        d_cost_microunits := cost_microunits c - cost_microunits p |}.

(** ** Metrics *)
Inductive BudgetMetric :=
| Requests | ConcurrentStreams | Tokens | Units | ToolCalls | MediaBytes | CostMicrounits.

Definition metric (m : BudgetMetric) (v : UsageVector) : Z :=
  match m with
  | Requests => requests v
  | ConcurrentStreams => concurrent_streams v
  | Tokens => tokens v
  | Units => units v
  | ToolCalls => tool_calls v
  | MediaBytes => media_bytes v
  | CostMicrounits => cost_microunits v
  end.

Definition delta_metric (m : BudgetMetric) (d : UsageDelta) : Z :=
  match m with
  | Requests => d_requests d
  | ConcurrentStreams => d_concurrent_streams d
  | Tokens => d_tokens d
  | Units => d_units d
  | ToolCalls => d_tool_calls d
  | MediaBytes => d_media_bytes d
  | CostMicrounits => d_cost_microunits d
  end.

(** The mathematical total of a breakdown, without any bound. *)
Definition total_metric (m : BudgetMetric) (b : UsageBreakdown) : Z :=
  metric m (primary b) + metric m (retry b) + metric m (repair b) + metric m (tool b).

Definition vector_wf (v : UsageVector) : Prop := forall m, is_u64 (metric m v).
Definition breakdown_wf (b : UsageBreakdown) : Prop :=
  vector_wf (primary b) /\ vector_wf (retry b) /\ vector_wf (repair b) /\ vector_wf (tool b).

Lemma vector_ext a b : (forall m, metric m a = metric m b) -> a = b.
Proof.
  intros H. destruct a, b. pose proof (H Requests). pose proof (H ConcurrentStreams).
  pose proof (H Tokens). pose proof (H Units). pose proof (H ToolCalls).
  pose proof (H MediaBytes). pose proof (H CostMicrounits). simpl in *. by subst.
Qed.

(** A fieldwise operation succeeds exactly when it does on every metric. *)
Lemma vector_map2_ok f a b c :
  vector_map2 f a b = Ok c <-> forall m, f (metric m a) (metric m b) = Ok (metric m c).
Proof.
  unfold vector_map2. split.
  - intros H. inv_ok. subst. by intros [].
  - intros H. pose proof (H Requests). pose proof (H ConcurrentStreams).
    pose proof (H Tokens). pose proof (H Units). pose proof (H ToolCalls).
    pose proof (H MediaBytes). pose proof (H CostMicrounits). simpl in *.
    repeat match goal with E : f _ _ = Ok _ |- _ => rewrite E; clear E; simpl end.
    by destruct c.
Qed.

Lemma UsageAmount_checked_add_ok a b c :
  UsageAmount_checked_add a b = Ok c <-> c = a + b /\ a + b <= u64_max.
Proof.
  unfold UsageAmount_checked_add. rewrite <- checked_add_Some.
  destruct (checked_add u64_max a b); simpl; split; congruence.
Qed.

Lemma UsageVector_checked_add_ok a b c :
  UsageVector_checked_add a b = Ok c <->
  forall m, metric m c = metric m a + metric m b /\ metric m a + metric m b <= u64_max.
Proof.
  unfold UsageVector_checked_add. rewrite vector_map2_ok.
  by setoid_rewrite UsageAmount_checked_add_ok.
Qed.

(** The pointwise sum of two vectors. *)
Definition vector_sum (a b : UsageVector) : UsageVector :=
  {| requests := requests a + requests b;
     concurrent_streams := concurrent_streams a + concurrent_streams b;
     tokens := tokens a + tokens b; units := units a + units b;
     tool_calls := tool_calls a + tool_calls b; media_bytes := media_bytes a + media_bytes b;
     cost_microunits := cost_microunits a + cost_microunits b |}.

Lemma metric_vector_sum m a b : metric m (vector_sum a b) = metric m a + metric m b.
Proof. by destruct m. Qed.

Lemma checked_total_ok b v :
  breakdown_wf b ->
  (checked_total b = Ok v <->
   forall m, metric m v = total_metric m b /\ total_metric m b <= u64_max).
Proof.
  intros (Hp & Hr & Hre & Ht). unfold checked_total, total_metric. split.
  - intros H. inv_ok. intros m.
    repeat match goal with H : UsageVector_checked_add _ _ = Ok _ |- _ =>
      apply UsageVector_checked_add_ok with (m := m) in H end. lia.
  - intros H.
    assert (UsageVector_checked_add (primary b) (retry b) = Ok (vector_sum (primary b) (retry b))) as ->.
    { apply UsageVector_checked_add_ok. intros m. rewrite metric_vector_sum.
      specialize (H m). specialize (Hre m). specialize (Ht m). unfold in_range in *. lia. }
    simpl. set (s := vector_sum (primary b) (retry b)).
    assert (UsageVector_checked_add s (repair b) = Ok (vector_sum s (repair b))) as ->.
    { apply UsageVector_checked_add_ok. intros m. unfold s. rewrite !metric_vector_sum.
      specialize (H m). specialize (Ht m). unfold in_range in *. lia. }
    simpl. apply UsageVector_checked_add_ok. intros m. unfold s. rewrite !metric_vector_sum.
    specialize (H m). lia.
Qed.

Lemma checked_total_exists b :
  breakdown_wf b -> (forall m, total_metric m b <= u64_max) ->
  exists v, checked_total b = Ok v.
Proof.
  intros Hw H.
  exists (vector_sum (vector_sum (vector_sum (primary b) (retry b)) (repair b)) (tool b)).
  apply checked_total_ok; [done|]. intros m. rewrite !metric_vector_sum. by split.
Qed.

Lemma delta_between_metric c p d vc vp :
  checked_total c = Ok vc -> checked_total p = Ok vp -> UsageDelta_between c p = Ok d ->
  forall m, delta_metric m d = metric m vc - metric m vp.
Proof.
  unfold UsageDelta_between. intros -> ->. intros [= <-] m. by destruct m.
Qed.

(** An adjustment is representable: it never leaves the [i128] range, and exists
    exactly when both totals do. *)
Lemma UsageDelta_between_ok c p d :
  breakdown_wf c -> breakdown_wf p ->
  UsageDelta_between c p = Ok d ->
  (forall m, delta_metric m d = total_metric m c - total_metric m p)
  /\ (forall m, - 2 ^ 127 <= delta_metric m d < 2 ^ 127).
Proof.
  intros Hc Hp H. pose proof H as H'. unfold UsageDelta_between in H'. inv_ok.
  match goal with H1 : checked_total c = Ok ?x, H2 : checked_total p = Ok ?y |- _ =>
    pose proof (proj1 (checked_total_ok c x Hc) H1) as Hx;
    pose proof (proj1 (checked_total_ok p y Hp) H2) as Hy;
    pose proof (delta_between_metric c p d x y H1 H2 H) as Hd end.
  split; intros m; rewrite (Hd m); specialize (Hx m) as [-> ?]; specialize (Hy m) as [-> ?].
  - done.
  - assert (forall b, breakdown_wf b -> 0 <= total_metric m b) as Hpos.
    { intros b (B1 & B2 & B3 & B4). unfold total_metric.
      specialize (B1 m). specialize (B2 m). specialize (B3 m). specialize (B4 m).
      unfold in_range in *. lia. }
    pose proof (Hpos c Hc). pose proof (Hpos p Hp). unfold u64_max in *. lia.
Qed.

Lemma max_u64_max a b : max_u64 a b = Z.max a b.
Proof. unfold max_u64. destruct (Z.leb_spec b a); lia. Qed.

Lemma metric_conservative_max m a b :
  metric m (vector_conservative_max a b) = Z.max (metric m a) (metric m b).
Proof. destruct m; simpl; apply max_u64_max. Qed.

Lemma metric_without_concurrency m a :
  metric m (vector_without_concurrency a) =
  match m with ConcurrentStreams => 0 | _ => metric m a end.
Proof. by destruct m. Qed.

Lemma breakdown_wf_without b : breakdown_wf b -> breakdown_wf (without_concurrency b).
Proof.
  intros (H1 & H2 & H3 & H4). split_and!; intros m; simpl; rewrite metric_without_concurrency;
    destruct m; try apply H1; try apply H2; try apply H3; try apply H4; unfold in_range; done.
Qed.

Lemma breakdown_wf_max a b :
  breakdown_wf a -> breakdown_wf b -> breakdown_wf (conservative_max a b).
Proof.
  intros (H1 & H2 & H3 & H4) (G1 & G2 & G3 & G4). split_and!; intros m; simpl;
    rewrite metric_conservative_max;
    specialize (H1 m); specialize (H2 m); specialize (H3 m); specialize (H4 m);
    specialize (G1 m); specialize (G2 m); specialize (G3 m); specialize (G4 m);
    unfold in_range in *; lia.
Qed.

Lemma breakdown_wf_default : breakdown_wf UsageBreakdown_default.
Proof. split_and!; intros []; done. Qed.
