(* ===== verification/LedgerModel.v ===== *)
(** * Reservations, budgets and ledger events

    [crates/llm-usage-ledger/src/types.rs] and [model.rs]: the scope of a budget,
    hard ceilings, provider evidence, the reservation with its lifecycle, and the
    append-only event of every transition. *)
From S2P Require Import Prelude Machine Text LedgerAmount.

(** ** Scopes *)
Inductive BudgetDimension :=
| Tenant | Principal | ApiKey | Provider | Model | Route | Tool | Operation | Job.

#[global] Instance BudgetDimension_eq_dec : EqDecision BudgetDimension.
Proof. solve_decision. Defined.

(** The derived order: the position of the constructor. *)
Definition dimension_index (d : BudgetDimension) : Z :=
  match d with
  | Tenant => 0 | Principal => 1 | ApiKey => 2 | Provider => 3 | Model => 4 | Route => 5
  | Tool => 6 | Operation => 7 | Job => 8
  end.

Record BudgetScope := {
  tenant : string;
  principal : option string;
  api_key : option string;
  scope_provider : option string;
  scope_model : option string;
  scope_route : option string;
  scope_tool : option string;
  operation : option string;
  job : option string;
}.

#[global] Instance BudgetScope_eq_dec : EqDecision BudgetScope.
Proof. solve_decision. Defined.

Record DimensionSet := {
  has_principal : bool;
  has_api_key : bool;
  has_provider : bool;
  has_model : bool;
  has_route : bool;
  has_tool : bool;
  has_operation : bool;
  has_job : bool;
}.

#[global] Instance DimensionSet_eq_dec : EqDecision DimensionSet.
Proof. solve_decision. Defined.

Definition is_some {A} (o : option A) : bool := match o with Some _ => true | None => false end.

Definition dimensions (s : BudgetScope) : DimensionSet :=
  {| has_principal := is_some (principal s); has_api_key := is_some (api_key s);
     has_provider := is_some (scope_provider s); has_model := is_some (scope_model s);
     has_route := is_some (scope_route s); has_tool := is_some (scope_tool s);
     has_operation := is_some (operation s); has_job := is_some (job s) |}.

Definition contains_dimension (s : BudgetScope) (d : BudgetDimension) : bool :=
  match d with
  | Tenant => true
  | Principal => is_some (principal s)
  | ApiKey => is_some (api_key s)
  | Provider => is_some (scope_provider s)
  | Model => is_some (scope_model s)
  | Route => is_some (scope_route s)
  | Tool => is_some (scope_tool s)
  | Operation => is_some (operation s)
  | Job => is_some (job s)
  end.

Definition matches_dimension (s other : BudgetScope) (d : BudgetDimension) : bool :=
  if negb (bool_decide (tenant s = tenant other)) then false
  else match d with
       | Tenant => true
       | Principal => bool_decide (principal s = principal other)
       | ApiKey => bool_decide (api_key s = api_key other)
       | Provider => bool_decide (scope_provider s = scope_provider other)
       | Model => bool_decide (scope_model s = scope_model other)
       | Route => bool_decide (scope_route s = scope_route other)
       | Tool => bool_decide (scope_tool s = scope_tool other)
       | Operation => bool_decide (operation s = operation other)
       | Job => bool_decide (job s = job other)
       end.

(** Identifiers ([bounded_id!]) and versions. *)
Definition LEDGER_MAX_IDENTIFIER_BYTES : Z := 128.
Definition ledger_id_byte (c : Ascii.ascii) : bool :=
  is_ascii_alphanumeric c || (byte_val c =? 45) || (byte_val c =? 95) || (byte_val c =? 46)
  || (byte_val c =? 47) || (byte_val c =? 58) || (byte_val c =? 64).

Inductive IdentifierError := BadIdentifier.

Definition ledger_validate_identifier (value : string) : result IdentifierError unit :=
  if is_empty value || (LEDGER_MAX_IDENTIFIER_BYTES <? len value)
     || negb (all_bytes ledger_id_byte value)
  then Err BadIdentifier else Ok tt.

Inductive VersionOverflow := VersionExhaustedError.

Definition INITIAL : Z := 0.
Definition checked_next (version : Z) : result VersionOverflow Z :=
  ok_or (checked_add u64_max version 1) VersionExhaustedError.

(** ** Ceilings *)
Inductive BudgetValue := UsageValue (v : Z) | CostValue (v : Z).

Record BudgetExhaustion := {
  ex_dimension : BudgetDimension;
  ex_metric : BudgetMetric;
  ex_current : BudgetValue;
  ex_requested : BudgetValue;
  ex_maximum : BudgetValue;
}.

Record BudgetCeilings := {
  max_requests : option Z;
  max_concurrent_streams : option Z;
  max_tokens : option Z;
  max_units : option Z;
  max_tool_calls : option Z;
  max_media_bytes : option Z;
  max_cost : option Z;
}.

#[global] Instance BudgetCeilings_eq_dec : EqDecision BudgetCeilings.
Proof. solve_decision. Defined.

Definition ceilings_is_empty (c : BudgetCeilings) : bool :=
  negb (is_some (max_requests c)) && negb (is_some (max_concurrent_streams c))
  && negb (is_some (max_tokens c)) && negb (is_some (max_units c))
  && negb (is_some (max_tool_calls c)) && negb (is_some (max_media_bytes c))
  && negb (is_some (max_cost c)).

Definition ceiling (c : BudgetCeilings) (m : BudgetMetric) : option Z :=
  match m with
  | Requests => max_requests c
  | ConcurrentStreams => max_concurrent_streams c
  | Tokens => max_tokens c
  | Units => max_units c
  | ToolCalls => max_tool_calls c
  | MediaBytes => max_media_bytes c
  | CostMicrounits => max_cost c
  end.

Definition budget_value (m : BudgetMetric) (v : Z) : BudgetValue :=
  match m with CostMicrounits => CostValue v | _ => UsageValue v end.

Definition exceeds (current requested maximum : Z) : bool :=
  match checked_add u64_max current requested with
  | Some total => maximum <? total
  | None => true
  end.

(** One [usage_limit!] expansion, and the cost check, which has the same shape. *)
Definition limit_exhaustion (c : BudgetCeilings) (d : BudgetDimension)
    (current requested : UsageVector) (m : BudgetMetric) : option BudgetExhaustion :=
  match ceiling c m with
  | Some maximum =>
      if exceeds (metric m current) (metric m requested) maximum then
        Some {| ex_dimension := d; ex_metric := m;
                ex_current := budget_value m (metric m current);
                ex_requested := budget_value m (metric m requested);
                ex_maximum := budget_value m maximum |}
      else None
  | None => None
  end.

(** The order of the checks. *)
Definition metrics_in_order : list BudgetMetric :=
  [Requests; ConcurrentStreams; Tokens; Units; ToolCalls; MediaBytes; CostMicrounits].

Definition first_exhaustion (c : BudgetCeilings) (d : BudgetDimension)
    (current requested : UsageVector) : option BudgetExhaustion :=
  head (omap (limit_exhaustion c d current requested) metrics_in_order).

Record BudgetPolicy := { policy_dimension : BudgetDimension; ceilings : BudgetCeilings }.

#[global] Instance BudgetPolicy_eq_dec : EqDecision BudgetPolicy.
Proof. solve_decision. Defined.

(** ** Provider evidence *)
Record Usage := {
  u_input_tokens : option Z;
  u_output_tokens : option Z;
  cached_input_tokens : option Z;
  cache_read_tokens : option Z;
  cache_write_tokens : option Z;
  reasoning_tokens : option Z;
  audio_input_tokens : option Z;
  audio_output_tokens : option Z;
  image_input_units : option Z;
  image_output_units : option Z;
  video_input_units : option Z;
  video_output_units : option Z;
  tool_execution_units : option Z;
  actual_cost_microunits : option Z;
}.

Inductive UsageEvidence :=
| Actual (b : UsageBreakdown) | Missing | Ambiguous (b : UsageBreakdown).

#[global] Instance UsageEvidence_eq_dec : EqDecision UsageEvidence.
Proof. solve_decision. Defined.

Inductive UsageStatus := SEstimated | SActual | SMissing | SAmbiguous.

#[global] Instance UsageStatus_eq_dec : EqDecision UsageStatus.
Proof. solve_decision. Defined.

Definition max_known (values : list (option Z)) : Z := foldr Z.max 0 (omap id values).

Definition sum_known (values : list (option Z)) : result ArithmeticError Z :=
  foldl (fun acc v => sum ← acc; UsageAmount_checked_add sum v) (Ok 0) (omap id values).

Definition from_provider_usage (usage : Usage) : result ArithmeticError UsageEvidence :=
  let input_details := [cached_input_tokens usage; cache_read_tokens usage;
                        cache_write_tokens usage; audio_input_tokens usage] in
  let output_details := [reasoning_tokens usage; audio_output_tokens usage] in
  let detailed := existsb is_some input_details || existsb is_some output_details in
  let input_tokens := match u_input_tokens usage with
                      | Some v => v | None => max_known input_details end in
  let output_tokens := match u_output_tokens usage with
                       | Some v => v | None => max_known output_details end in
  total ← UsageAmount_checked_add input_tokens output_tokens;
  let unit_values := [image_input_units usage; image_output_units usage;
                      video_input_units usage; video_output_units usage;
                      tool_execution_units usage] in
  let units_observed := existsb is_some unit_values in
  observed_units ← sum_known unit_values;
  let any_observed := is_some (u_input_tokens usage) || is_some (u_output_tokens usage)
    || is_some (actual_cost_microunits usage) || detailed || units_observed in
  if negb any_observed then Ok Missing
  else
    let observed := UsageBreakdown_primary
      {| requests := 1; concurrent_streams := 0; tokens := total; units := observed_units;
         tool_calls := 0; media_bytes := 0;
         cost_microunits := default 0 (actual_cost_microunits usage) |} in
    if is_some (u_input_tokens usage) && is_some (u_output_tokens usage)
       && is_some (actual_cost_microunits usage)
    then Ok (Actual observed) else Ok (Ambiguous observed).

Definition evidence_status (e : UsageEvidence) : UsageStatus :=
  match e with Actual _ => SActual | Missing => SMissing | Ambiguous _ => SAmbiguous end.

(** ** Requests *)
Record ReservationRequest := {
  rq_id : string;
  rq_idempotency_key : string;
  rq_fingerprint : list Z;
  rq_scope : BudgetScope;
  rq_estimate : UsageBreakdown;
  rq_policies : list BudgetPolicy;
}.

Inductive RequestError := BadRequest.

Definition policy_le (a b : BudgetPolicy) : Prop :=
  dimension_index (policy_dimension a) <= dimension_index (policy_dimension b).
#[global] Instance policy_le_dec : RelDecision policy_le.
Proof. intros a b. unfold policy_le. apply _. Defined.

(** The loop over the sorted policies with its [prior] dimension. *)
Fixpoint check_policies (scope : BudgetScope) (prior : option BudgetDimension)
    (policies : list BudgetPolicy) : bool :=
  match policies with
  | [] => true
  | p :: rest =>
      if ceilings_is_empty (ceilings p) || negb (contains_dimension scope (policy_dimension p))
         || bool_decide (prior = Some (policy_dimension p))
      then false
      else check_policies scope (Some (policy_dimension p)) rest
  end.

(** [sort_unstable_by_key] orders equal dimensions arbitrarily; they are rejected
    next, so the order among them is not observable. *)
Definition ReservationRequest_new (id key : string) (fp : list Z) (scope : BudgetScope)
    (estimate : UsageBreakdown) (policies : list BudgetPolicy)
    : result RequestError ReservationRequest :=
  total ← map_err (fun _ => BadRequest) (checked_total estimate);
  _ ← guard_err (vector_is_zero total || (requests total =? 0)) BadRequest;
  let sorted := merge_sort policy_le policies in
  _ ← guard_err (negb (check_policies scope None sorted)) BadRequest;
  Ok {| rq_id := id; rq_idempotency_key := key; rq_fingerprint := fp; rq_scope := scope;
        rq_estimate := estimate; rq_policies := sorted |}.

(** ** Reservations *)
Inductive ReservationState :=
| Reserved | Committed (e : UsageEvidence) | Reconciled (b : UsageBreakdown) | Released.

#[global] Instance ReservationState_eq_dec : EqDecision ReservationState.
Proof. solve_decision. Defined.

Inductive ReservationStateKind := KReserved | KCommitted | KReconciled | KReleased.

#[global] Instance ReservationStateKind_eq_dec : EqDecision ReservationStateKind.
Proof. solve_decision. Defined.

Definition state_kind (s : ReservationState) : ReservationStateKind :=
  match s with
  | Reserved => KReserved | Committed _ => KCommitted | Reconciled _ => KReconciled
  | Released => KReleased
  end.

Definition usage_status (s : ReservationState) : UsageStatus :=
  match s with
  | Reserved | Released => SEstimated
  | Committed e => evidence_status e
  | Reconciled _ => SActual
  end.

Record Reservation := {
  id : string;
  idempotency_key : string;
  fingerprint : list Z;
  scope : BudgetScope;
  estimate : UsageBreakdown;
  policies : list BudgetPolicy;
  state : ReservationState;
  version : Z;
}.

#[global] Instance Reservation_eq_dec : EqDecision Reservation.
Proof. solve_decision. Defined.

Definition from_request (r : ReservationRequest) : Reservation :=
  {| id := rq_id r; idempotency_key := rq_idempotency_key r; fingerprint := rq_fingerprint r;
     scope := rq_scope r; estimate := rq_estimate r; policies := rq_policies r;
     state := Reserved; version := INITIAL |}.

Definition effective_usage (r : Reservation) : UsageBreakdown :=
  match state r with
  | Reserved => estimate r
  | Committed Missing => without_concurrency (estimate r)
  | Committed (Ambiguous observed) => without_concurrency (conservative_max (estimate r) observed)
  | Committed (Actual actual) | Reconciled actual => without_concurrency actual
  | Released => UsageBreakdown_primary UsageVector_zero
  end.

Definition is_replay_of (r : Reservation) (request : ReservationRequest) : bool :=
  bool_decide (idempotency_key r = rq_idempotency_key request)
  && bool_decide (fingerprint r = rq_fingerprint request)
  && bool_decide (scope r = rq_scope request)
  && bool_decide (estimate r = rq_estimate request)
  && bool_decide (policies r = rq_policies request).

Definition transition (r : Reservation) (s : ReservationState) : result VersionOverflow Reservation :=
  v ← checked_next (version r);
  Ok {| id := id r; idempotency_key := idempotency_key r; fingerprint := fingerprint r;
        scope := scope r; estimate := estimate r; policies := policies r; state := s;
        version := v |}.

Inductive ReservationRestoreError := BadSnapshot.

Definition restorable (s : ReservationState) (v : Z) : bool :=
  match s with
  | Reserved => v =? INITIAL
  | Committed (Actual _) => false
  | Committed Missing | Committed (Ambiguous _) | Released => v =? 1
  | Reconciled _ => (v =? 1) || (v =? 2)
  end.

Definition restore (request : ReservationRequest) (s : ReservationState) (v : Z)
    : result ReservationRestoreError Reservation :=
  _ ← guard_err (negb (restorable s v)) BadSnapshot;
  let r := {| id := rq_id request; idempotency_key := rq_idempotency_key request;
              fingerprint := rq_fingerprint request; scope := rq_scope request;
              estimate := rq_estimate request; policies := rq_policies request;
              state := s; version := v |} in
  _ ← map_err (fun _ => BadSnapshot) (checked_total (effective_usage r));
  Ok r.

(** ** Events *)
Inductive LedgerEventKind := EvReserved | EvCommitted | EvReconciled | EvReleased.

#[global] Instance LedgerEventKind_eq_dec : EqDecision LedgerEventKind.
Proof. solve_decision. Defined.

Record LedgerEvent := {
  ev_version : Z;
  ev_kind : LedgerEventKind;
  ev_state : ReservationStateKind;
  ev_usage_status : UsageStatus;
  ev_dimensions : DimensionSet;
  ev_effective_usage : UsageBreakdown;
  ev_adjustment : UsageDelta;
}.

#[global] Instance LedgerEvent_eq_dec : EqDecision LedgerEvent.
Proof. solve_decision. Defined.

Definition for_transition (kind : LedgerEventKind) (previous : UsageBreakdown) (r : Reservation)
    : result ArithmeticError LedgerEvent :=
  adjustment ← UsageDelta_between (effective_usage r) previous;
  Ok {| ev_version := version r; ev_kind := kind; ev_state := state_kind (state r);
        ev_usage_status := usage_status (state r); ev_dimensions := dimensions (scope r);
        ev_effective_usage := effective_usage r; ev_adjustment := adjustment |}.

Definition initial (request : ReservationRequest) : result ArithmeticError (Reservation * LedgerEvent) :=
  let reservation := from_request request in
  event ← for_transition EvReserved UsageBreakdown_default reservation;
  Ok (reservation, event).

Inductive AuditAction := AuditReserve | AuditCommit | AuditReconcile | AuditRelease.
Inductive AuditOutcome := Succeeded | BudgetExhaustedOutcome | ConflictOutcome.

Record AuditLedgerEvent := {
  au_action : AuditAction;
  au_outcome : AuditOutcome;
  au_state : ReservationStateKind;
  au_usage_status : UsageStatus;
  au_dimensions : DimensionSet;
  au_version : Z;
}.

Definition audit_projection (e : LedgerEvent) : AuditLedgerEvent :=
  {| au_action := match ev_kind e with
                  | EvReserved => AuditReserve | EvCommitted => AuditCommit
                  | EvReconciled => AuditReconcile | EvReleased => AuditRelease end;
     au_outcome := Succeeded; au_state := ev_state e; au_usage_status := ev_usage_status e;
     au_dimensions := ev_dimensions e; au_version := ev_version e |}.

Record LedgerOperation := {
  op_reservation : Reservation;
  op_event : LedgerEvent;
  replayed : bool;
}.

Inductive TenantBoundaryError := WrongTenant.

Definition ensure_tenant (t : string) (r : Reservation) : result TenantBoundaryError unit :=
  if bool_decide (t = tenant (scope r)) then Ok tt else Err WrongTenant.
