(* ===== verification/LedgerFacts.v ===== *)
(** * Facts about budgets, evidence and reservations *)
From S2P Require Import Prelude Machine Text LedgerAmount LedgerModel.

(** ** Ceilings *)
Lemma exceeds_false c r mx : exceeds c r mx = false <-> c + r <= u64_max /\ c + r <= mx.
Proof.
  unfold exceeds. destruct (checked_add u64_max c r) as [t|] eqn:E.
  - apply checked_add_Some in E as [-> ?]. rewrite Z.ltb_ge. tauto.
  - apply checked_add_None in E. split; [done|lia].
Qed.

Lemma elem_of_metrics m : m ∈ metrics_in_order.
Proof. unfold metrics_in_order. rewrite !elem_of_cons. destruct m; tauto. Qed.

Lemma omap_nil_iff {A B} (f : A -> option B) l : omap f l = [] <-> forall x, x ∈ l -> f x = None.
Proof.
  split.
  - intros H x Hx. destruct (f x) as [y|] eqn:E; [|done].
    assert (y ∈ omap f l) as Hin by (apply list_elem_of_omap; eauto).
    rewrite H in Hin. by apply not_elem_of_nil in Hin.
  - induction l as [|x l IH]; intros H; [done|]. simpl. rewrite H by (by left).
    apply IH. intros y Hy. apply H. by right.
Qed.

(** No ceiling is exhausted exactly when every capped metric fits. *)
Lemma first_exhaustion_None c d current requested :
  first_exhaustion c d current requested = None <->
  forall m mx, ceiling c m = Some mx ->
    metric m current + metric m requested <= u64_max
    /\ metric m current + metric m requested <= mx.
Proof.
  unfold first_exhaustion. rewrite head_None, omap_nil_iff. split.
  - intros H m mx Hc. specialize (H m (elem_of_metrics m)). unfold limit_exhaustion in H.
    rewrite Hc in H. apply exceeds_false. by destruct (exceeds _ _ _).
  - intros H m _. unfold limit_exhaustion. destruct (ceiling c m) as [mx|] eqn:Hc; [|done].
    apply H, exceeds_false in Hc. by rewrite Hc.
Qed.

(** A reported exhaustion is a capped metric that the request really exceeds. *)
Lemma first_exhaustion_Some c d current requested ex :
  first_exhaustion c d current requested = Some ex ->
  exists m mx, ceiling c m = Some mx
    /\ (u64_max < metric m current + metric m requested
        \/ mx < metric m current + metric m requested)
    /\ ex = {| ex_dimension := d; ex_metric := m;
               ex_current := budget_value m (metric m current);
               ex_requested := budget_value m (metric m requested);
               ex_maximum := budget_value m mx |}.
Proof.
  unfold first_exhaustion. intros H. apply head_Some in H as [l' H].
  assert (ex ∈ omap (limit_exhaustion c d current requested) metrics_in_order) as Hin
    by (rewrite H; by left).
  apply list_elem_of_omap in Hin as (m & _ & Hm). unfold limit_exhaustion in Hm.
  destruct (ceiling c m) as [mx|] eqn:Hc; [|done].
  destruct (exceeds _ _ _) eqn:E; [|done]. injection Hm as <-. exists m, mx.
  split_and!; [done| |done]. apply not_false_iff_true in E. rewrite exceeds_false in E. lia.
Qed.

(** ** Well-formed reservations *)
Definition evidence_wf (e : UsageEvidence) : Prop :=
  match e with Actual b | Ambiguous b => breakdown_wf b | Missing => True end.

Definition state_wf (s : ReservationState) : Prop :=
  match s with
  | Committed e => evidence_wf e
  | Reconciled b => breakdown_wf b
  | Reserved | Released => True
  end.

(** The fields are [u64]s and the accounted usage has a representable total. *)
Record reservation_wf (r : Reservation) : Prop := {
  rv_estimate : breakdown_wf (estimate r);
  rv_state : state_wf (state r);
  rv_total : forall m, total_metric m (effective_usage r) <= u64_max;
}.

Lemma effective_usage_wf r :
  breakdown_wf (estimate r) -> state_wf (state r) -> breakdown_wf (effective_usage r).
Proof.
  intros He Hs. unfold effective_usage.
  destruct (state r) as [|[b| |b]|b|]; simpl in Hs; try done.
  - by apply breakdown_wf_without.
  - by apply breakdown_wf_without.
  - by apply breakdown_wf_without, breakdown_wf_max.
  - by apply breakdown_wf_without.
  - apply breakdown_wf_default.
Qed.

Lemma total_metric_nonneg m b : breakdown_wf b -> 0 <= total_metric m b.
Proof.
  intros (H1 & H2 & H3 & H4). unfold total_metric.
  specialize (H1 m). specialize (H2 m). specialize (H3 m). specialize (H4 m).
  unfold in_range in *. lia.
Qed.

(** ** The lifecycle *)

(** The version a state can carry. *)
Definition version_of (s : ReservationState) (v : Z) : Prop :=
  match s with
  | Reserved => v = 0
  | Committed _ | Released => v = 1
  | Reconciled _ => v = 1 \/ v = 2
  end.

(** The moves between states. *)
Inductive lifecycle : ReservationState -> ReservationState -> Prop :=
| life_commit e : lifecycle Reserved (Committed e)
| life_actual b : lifecycle Reserved (Reconciled b)
| life_release : lifecycle Reserved Released
| life_reconcile e b : lifecycle (Committed e) (Reconciled b).

Lemma lifecycle_version s s' v : lifecycle s s' -> version_of s v -> version_of s' (v + 1).
Proof. destruct 1; simpl; lia. Qed.

(** The lifecycle has no cycles. *)
Definition progress (s : ReservationState) : Z :=
  match s with Reserved => 0 | Committed _ => 1 | Reconciled _ | Released => 2 end.

Lemma lifecycle_progress s s' : rtc lifecycle s s' -> s' = s \/ progress s < progress s'.
Proof.
  induction 1 as [s|s s1 s' H1 _ IH]; [by left|]. right.
  assert (progress s < progress s1) by (destruct H1; simpl; lia).
  destruct IH as [->|?]; lia.
Qed.

Lemma lifecycle_antisym s s' : rtc lifecycle s s' -> rtc lifecycle s' s -> s' = s.
Proof. intros [?|?]%lifecycle_progress [?|?]%lifecycle_progress; done || lia. Qed.

(** Released and reconciled reservations are final. *)
Lemma lifecycle_final s s' :
  rtc lifecycle s s' -> (s = Released \/ exists b, s = Reconciled b) -> s' = s.
Proof.
  intros H. destruct H as [|s s1 s' H _]; [done|]. intros [->|[b ->]]; inversion H.
Qed.

(** Nothing leads back to [Reserved]. *)
Lemma lifecycle_not_reserved s s' : rtc lifecycle s s' -> s <> Reserved -> s' <> Reserved.
Proof. induction 1 as [|? ? ? H _ IH]; [done|]. intros _. apply IH. by destruct H. Qed.

Lemma transition_ok r s n :
  transition r s = Ok n <->
  version r + 1 <= u64_max /\
  n = {| id := id r; idempotency_key := idempotency_key r; fingerprint := fingerprint r;
         scope := scope r; estimate := estimate r; policies := policies r; state := s;
         version := version r + 1 |}.
Proof.
  unfold transition, checked_next. destruct (checked_add u64_max (version r) 1) as [v|] eqn:E.
  - apply checked_add_Some in E as [-> ?]. simpl. split; [by intros [= <-]|by intros [_ ->]].
  - apply checked_add_None in E. simpl. split; [done|lia].
Qed.

(** ** Events *)
Lemma for_transition_ok kind prev r e :
  for_transition kind prev r = Ok e ->
  ev_version e = version r /\ ev_kind e = kind /\ ev_state e = state_kind (state r)
  /\ ev_usage_status e = usage_status (state r) /\ ev_dimensions e = dimensions (scope r)
  /\ ev_effective_usage e = effective_usage r
  /\ UsageDelta_between (effective_usage r) prev = Ok (ev_adjustment e).
Proof. unfold for_transition. intros H. inv_ok. by subst. Qed.

Lemma for_transition_exists kind prev r :
  breakdown_wf prev -> (forall m, total_metric m prev <= u64_max) -> reservation_wf r ->
  exists e, for_transition kind prev r = Ok e.
Proof.
  intros Hp Ht [He Hs Htot]. unfold for_transition, UsageDelta_between.
  destruct (checked_total_exists (effective_usage r)) as [v Hv];
    [by apply effective_usage_wf|done|].
  destruct (checked_total_exists prev) as [u Hu]; [done..|].
  rewrite Hv, Hu. eexists. reflexivity.
Qed.

(** An event adjusts the accounted usage by exactly the difference it records. *)
Lemma for_transition_adjustment kind prev r e m :
  breakdown_wf prev -> reservation_wf r -> for_transition kind prev r = Ok e ->
  delta_metric m (ev_adjustment e) = total_metric m (effective_usage r) - total_metric m prev.
Proof.
  intros Hp [He Hs _] H. apply for_transition_ok in H as (_ & _ & _ & _ & _ & _ & H).
  apply UsageDelta_between_ok in H as [-> _]; [done|by apply effective_usage_wf|done].
Qed.

(** ** Requests *)
Lemma check_policies_ok scope prior ps :
  StronglySorted policy_le ps -> check_policies scope prior ps = true ->
  NoDup (policy_dimension <$> ps)
  /\ (forall p, p ∈ ps -> ceilings_is_empty (ceilings p) = false
        /\ contains_dimension scope (policy_dimension p) = true).
Proof.
  revert prior. induction ps as [|p ps IH]; intros prior Hs Hc; simpl in *.
  { split; [constructor|]. by intros ? ?%not_elem_of_nil. }
  destruct (_ || _) eqn:E; [done|]. apply orb_false_elim in E as [E _].
  apply orb_false_elim in E as [Ee Ed]. apply negb_false_iff in Ed.
  inversion Hs as [|? ? Hs' Hall]; subst. destruct (IH _ Hs' Hc) as [Hn Hp]. split.
  - constructor; [|done]. intros Hin. apply list_elem_of_fmap in Hin as (p' & Heq & Hin).
    destruct ps as [|p2 ps]; [by apply not_elem_of_nil in Hin|].
    simpl in Hc. destruct (_ || _) eqn:E2 in Hc; [done|].
    apply orb_false_elim in E2 as [_ E2]. apply bool_decide_eq_false in E2.
    apply E2. f_equal. inversion Hs' as [|? ? _ Hall2]; subst.
    rewrite Forall_forall in Hall, Hall2.
    assert (policy_le p p2) by (apply Hall; by left).
    assert (policy_le p2 p') as H2.
    { apply elem_of_cons in Hin as [->|Hin]; [unfold policy_le; lia|by apply Hall2]. }
    unfold policy_le in *. rewrite <- Heq in H2.
    destruct (policy_dimension p), (policy_dimension p2); simpl in *; lia || done.
  - intros p' Hin. apply elem_of_cons in Hin as [->|Hin]; [done|by apply Hp].
Qed.

#[global] Instance policy_le_trans : Transitive policy_le.
Proof. intros a b c. unfold policy_le. lia. Qed.
#[global] Instance policy_le_total : Total policy_le.
Proof. intros a b. unfold policy_le. lia. Qed.

(** What the request constructor establishes. *)
Record request_wf (r : ReservationRequest) : Prop := {
  rqw_estimate : breakdown_wf (rq_estimate r);
  rqw_total : exists v, checked_total (rq_estimate r) = Ok v /\ requests v <> 0;
  rqw_dimensions : NoDup (policy_dimension <$> rq_policies r);
  rqw_policies : forall p, p ∈ rq_policies r ->
    ceilings_is_empty (ceilings p) = false
    /\ contains_dimension (rq_scope r) (policy_dimension p) = true;
}.

Lemma ReservationRequest_new_wf i k fp sc est ps r :
  breakdown_wf est -> ReservationRequest_new i k fp sc est ps = Ok r ->
  request_wf r /\ rq_policies r ≡ₚ ps.
Proof.
  intros Hw. unfold ReservationRequest_new. intros H. inv_ok. subst r.
  match goal with H : negb (check_policies _ _ _) = false |- _ =>
    apply negb_false_iff, check_policies_ok in H as [? ?];
      [|by apply StronglySorted_merge_sort; apply _] end.
  match goal with H : _ || _ = false |- _ => apply orb_false_elim in H as [_ ?] end.
  split; [|apply merge_sort_Permutation]. constructor; simpl; try done.
  eexists. split; [done|]. lia.
Qed.

(** ** Snapshots *)

(** The request a stored reservation was made from. *)
Definition request_of (r : Reservation) : ReservationRequest :=
  {| rq_id := id r; rq_idempotency_key := idempotency_key r; rq_fingerprint := fingerprint r;
     rq_scope := scope r; rq_estimate := estimate r; rq_policies := policies r |}.

Lemma restorable_version s v : restorable s v = true -> version_of s v.
Proof. destruct s as [|[| |]| |]; simpl; try done; unfold INITIAL; lia. Qed.

(** Snapshots round-trip: every well-formed reservation in a state the service
    stores is restored from its request, state and version exactly as it was, and
    nothing is restored whose state does not fit its version, whose actual usage
    was left unreconciled, or whose accounted usage overflows. *)
Theorem restore_roundtrip r :
  reservation_wf r -> version_of (state r) (version r) ->
  (forall b, state r <> Committed (Actual b)) ->
  restore (request_of r) (state r) (version r) = Ok r
  /\ forall q s v r', restore q s v = Ok r' ->
       request_of r' = q /\ state r' = s /\ version r' = v /\ version_of s v
       /\ (forall b, s <> Committed (Actual b))
       /\ is_ok (checked_total (effective_usage r')) = true.
Proof.
  intros Hw Hv Hna. split.
  - unfold restore.
    assert (restorable (state r) (version r) = true) as ->.
    { destruct (state r) as [|[b| |b]|b|] eqn:E; simpl in Hv |- *; unfold INITIAL; try lia.
      by destruct (Hna b). }
    assert ({| id := rq_id (request_of r); idempotency_key := rq_idempotency_key (request_of r);
      fingerprint := rq_fingerprint (request_of r); scope := rq_scope (request_of r);
      estimate := rq_estimate (request_of r); policies := rq_policies (request_of r);
      state := state r; version := version r |} = r) as -> by (by destruct r).
    destruct (checked_total_exists (effective_usage r)) as [u ->]; [|apply Hw|done].
    apply effective_usage_wf; apply Hw.
  - intros q s v r' H. unfold restore in H. inv_ok. subst r'.
    match goal with H : negb _ = false |- _ => apply negb_false_iff in H; rename H into Hrs end.
    split_and!; try done.
    + by destruct q.
    + by apply restorable_version.
    + intros b ->. done.
    + match goal with H : checked_total _ = Ok _ |- _ => by rewrite H end.
Qed.

Definition example_reservation : Reservation :=
  {| id := "r1"; idempotency_key := "k1"; fingerprint := [1; 2];
     scope := {| tenant := "acme"; principal := None; api_key := None; scope_provider := None;
                 scope_model := None; scope_route := None; scope_tool := None; operation := None;
                 job := None |};
     estimate := UsageBreakdown_primary
       {| requests := 1; concurrent_streams := 1; tokens := 60; units := 0; tool_calls := 0;
          media_bytes := 0; cost_microunits := 0 |};
     policies := []; state := Committed Missing; version := 1 |}.

Lemma example_reservation_wf : reservation_wf example_reservation.
Proof.
  split.
  - split_and!; intros []; done.
  - done.
  - intros []; vm_compute; congruence.
Qed.

Lemma restore_roundtrip_witness :
  restore (request_of example_reservation) (Committed Missing) 1 = Ok example_reservation.
Proof.
  refine (proj1 (restore_roundtrip example_reservation example_reservation_wf eq_refl _)).
  intros b. discriminate.
Defined.
