(* ===== verification/LedgerRepository.v ===== *)
(** * The usage-ledger repository

    [crates/llm-usage-ledger/src/repository.rs] states the contract between the
    ledger service and its storage; [testing.rs] is its reference implementation
    in memory.  The trait is the class [UsageLedgerRepository], its documented
    guarantees the class [LawfulRepository], and [memory_lawful] discharges them.  Any
    call may answer [Unavailable] while the store is not [available]; a write that is
    answered so may still have taken effect.
    A repository call is one atomic step on the store (a mutex here, a
    transaction in PostgreSQL); a poisoned mutex is not modelled, since no call
    panics while holding it. *)
From S2P Require Import Prelude Machine Text LedgerAmount LedgerModel LedgerFacts.

Inductive ReserveStoreDecision :=
| Applied (r : Reservation) (e : LedgerEvent)
| Replay (r : Reservation) (e : LedgerEvent)
| Conflict
| Exhausted (ex : BudgetExhaustion).

Inductive CompareAndSetDecision := CasApplied | CasVersionConflict | CasNotFound.

Inductive RepositoryError := Unavailable | CorruptState | RepoArithmetic.

(** ** The trait *)
Class UsageLedgerRepository (S : Type) := {
  reserve : ReservationRequest -> ST S RepositoryError ReserveStoreDecision;
  load : string -> string -> S -> result RepositoryError (option Reservation);
  compare_and_set : string -> Z -> Reservation -> LedgerEvent
    -> ST S RepositoryError CompareAndSetDecision;
  event_at : string -> string -> Z -> S -> result RepositoryError (option LedgerEvent);
}.

Definition valid_transition (current replacement : ReservationState) (kind : LedgerEventKind)
    : bool :=
  match current, replacement, kind with
  | Reserved, Committed _, EvCommitted
  | Reserved, Reconciled _, EvCommitted
  | Reserved, Released, EvReleased
  | Committed _, Reconciled _, EvReconciled => true
  | _, _, _ => false
  end.

(** Everything about a reservation that no transition changes. *)
Definition same_identity (a b : Reservation) : Prop :=
  id a = id b /\ idempotency_key a = idempotency_key b /\ fingerprint a = fingerprint b
  /\ scope a = scope b /\ estimate a = estimate b /\ policies a = policies b.

(** How a store may evolve: reservations are never removed, keep their identity,
    move along the lifecycle with strictly increasing versions, and events are
    never changed. *)
Record evolves (r0 r1 : gmap (string * string) Reservation)
    (h0 h1 : gmap (string * string * Z) LedgerEvent) : Prop := {
  ev_reservations : forall k r, r0 !! k = Some r -> exists r', r1 !! k = Some r'
    /\ same_identity r r' /\ rtc lifecycle (state r) (state r')
    /\ version r <= version r' /\ (version r' = version r -> r' = r)
    /\ (state r' = state r -> r' = r);
  ev_history : h0 ⊆ h1;
}.

#[global] Instance same_identity_equiv : Equivalence same_identity.
Proof.
  split.
  - done.
  - intros a b (?&?&?&?&?&?). by split_and!.
  - intros a b c (?&?&?&?&?&?) (?&?&?&?&?&?). split_and!; congruence.
Qed.

Lemma evolves_refl r h : evolves r r h h.
Proof.
  split; [|done]. intros k x Hx. exists x. split_and!; try done; lia.
Qed.

Lemma evolves_trans r0 r1 r2 h0 h1 h2 :
  evolves r0 r1 h0 h1 -> evolves r1 r2 h1 h2 -> evolves r0 r2 h0 h2.
Proof.
  intros [A Ah] [B Bh]. split; [|by etransitivity]. intros k r Hr.
  destruct (A _ _ Hr) as (r' & Hr' & ? & L & ? & Heq & Hst).
  destruct (B _ _ Hr') as (r'' & ? & ? & L' & ? & Heq' & Hst').
  exists r''. split_and!; try done; [by etransitivity|by etransitivity|lia| |].
  - intros Hv. assert (version r' = version r) as Hv' by lia. rewrite Heq' by lia. by apply Heq.
  - intros Hs. rewrite Hs in L'. pose proof (lifecycle_antisym _ _ L L') as Hs'.
    rewrite Hst' by congruence. by apply Hst.
Qed.

(** One more version of a stored reservation, or a new one, evolves the store. *)
Lemma evolves_write rs hs k r e ek :
  hs !! ek = None ->
  match rs !! k with
  | Some cur => same_identity cur r /\ lifecycle (state cur) (state r) /\ version r = version cur + 1
  | None => True
  end ->
  evolves rs (<[k := r]> rs) hs (<[ek := e]> hs).
Proof.
  intros He Hk. split; [|by apply insert_subseteq]. intros k' r' Hr'. rewrite lookup_insert.
  case_decide as Heq.
  - subst k'. rewrite Hr' in Hk. destruct Hk as (? & Hlife & Hv). exists r.
    split_and!; try done; [by apply rtc_once|lia|lia|].
    intros Hs. exfalso. rewrite Hs in Hlife. inversion Hlife.
  - exists r'. split_and!; try done; lia.
Qed.

(** ** The contract *)
(** A call is answered as the contract says, or the storage is unavailable. *)
Class LawfulRepository (S : Type) `{UsageLedgerRepository S} := {
  stored : S -> gmap (string * string) Reservation;
  history : S -> gmap (string * string * Z) LedgerEvent;
  healthy : S -> Prop;
  available : S -> Prop;
  load_stored s t i : healthy s ->
    load t i s = Ok (stored s !! (t, i)) \/ ~ available s /\ load t i s = Err Unavailable;
  event_at_history s t i v : healthy s ->
    event_at t i v s = Ok (history s !! (t, i, v)) \/ ~ available s /\ event_at t i v s = Err Unavailable;
  (** What the store holds under a key. *)
  stored_healthy s t i r : healthy s -> stored s !! (t, i) = Some r ->
    tenant (scope r) = t /\ id r = i /\ reservation_wf r /\ version_of (state r) (version r)
    /\ is_Some (history s !! (t, i, version r));
  (** A conditional replacement applies to the expected version or changes nothing. *)
  cas_spec s t v r e res s' :
    healthy s -> reservation_wf r -> compare_and_set t v r e s = (res, s') ->
    healthy s' /\ evolves (stored s) (stored s') (history s) (history s') /\
    match res with
    | Ok CasApplied => exists cur, stored s !! (t, id r) = Some cur /\ version cur = v
        /\ same_identity cur r /\ lifecycle (state cur) (state r) /\ version r = v + 1
        /\ stored s' = <[(t, id r) := r]> (stored s)
        /\ history s' = <[(t, id r, version r) := e]> (history s)
    | Ok CasVersionConflict => s' = s /\ exists cur, stored s !! (t, id r) = Some cur
        /\ version cur <> v
    | Ok CasNotFound => s' = s /\ stored s !! (t, id r) = None
    | Err Unavailable => True
    | Err _ => s' = s
    end;
  (** It applies whenever the store still holds the expected reservation. *)
  cas_accepts s t cur next kind e :
    healthy s -> stored s !! (t, id cur) = Some cur -> transition cur (state next) = Ok next ->
    reservation_wf next -> valid_transition (state cur) (state next) kind = true ->
    for_transition kind (effective_usage cur) next = Ok e ->
    exists s', compare_and_set t (version cur) next e s = (Ok CasApplied, s')
      \/ ~ available s /\ compare_and_set t (version cur) next e s = (Err Unavailable, s');
  (** Otherwise a well-formed replacement is told about the newer version. *)
  cas_conflicts s t seen cur next kind e :
    healthy s -> stored s !! (t, id seen) = Some cur -> version cur <> version seen ->
    tenant (scope seen) = t -> transition seen (state next) = Ok next ->
    for_transition kind (effective_usage seen) next = Ok e ->
    compare_and_set t (version seen) next e s = (Ok CasVersionConflict, s)
    \/ ~ available s /\ exists s', compare_and_set t (version seen) next e s = (Err Unavailable, s');
  (** Reserving keeps the store healthy and only ever adds. *)
  reserve_spec s q res s' :
    healthy s -> request_wf q -> reserve q s = (res, s') ->
    healthy s' /\ evolves (stored s) (stored s') (history s) (history s');
}.

(** ** The in-memory repository *)
Record MemoryState := {
  reservations : gmap (string * string) Reservation;
  idempotency : gmap (string * string) (string * string);
  events : gmap (string * string * Z) LedgerEvent;
}.

Definition MemoryState_default : MemoryState :=
  {| reservations := ∅; idempotency := ∅; events := ∅ |}.

(** The [try_fold] over the matching reservations.  Amounts are not negative, so
    neither the result nor the overflow depends on the iteration order
    ([aggregate_ok] below). *)
Definition aggregate_step (q : ReservationRequest) (d : BudgetDimension)
    (acc : result RepositoryError UsageVector) (r : Reservation)
    : result RepositoryError UsageVector :=
  total ← acc;
  if matches_dimension (scope r) (rq_scope q) d then
    usage ← map_err (fun _ => RepoArithmetic) (checked_total (effective_usage r));
    map_err (fun _ => RepoArithmetic) (UsageVector_checked_add total usage)
  else Ok total.

Definition aggregate_for_dimension (rs : list Reservation) (q : ReservationRequest)
    (d : BudgetDimension) : result RepositoryError UsageVector :=
  foldl (aggregate_step q d) (Ok UsageVector_zero) rs.

(** The loop over the policies: the first exhausted ceiling, if any. *)
Fixpoint check_ceilings (rs : list Reservation) (q : ReservationRequest) (requested : UsageVector)
    (ps : list BudgetPolicy) : result RepositoryError (option BudgetExhaustion) :=
  match ps with
  | [] => Ok None
  | p :: rest =>
      current ← aggregate_for_dimension rs q (policy_dimension p);
      match first_exhaustion (ceilings p) (policy_dimension p) current requested with
      | Some ex => Ok (Some ex)
      | None => check_ceilings rs q requested rest
      end
  end.

Definition stored_reservations (s : MemoryState) : list Reservation :=
  (map_to_list (reservations s)).*2.

Definition memory_reserve (q : ReservationRequest)
    : ST MemoryState RepositoryError ReserveStoreDecision :=
  fun s =>
    let t := tenant (rq_scope q) in
    let ikey := (t, rq_idempotency_key q) in
    match idempotency s !! ikey with
    | Some existing_key =>
        match reservations s !! existing_key with
        | None => (Err CorruptState, s)
        | Some r =>
            if negb (is_replay_of r q) then (Ok Conflict, s)
            else match events s !! (t, id r, version r) with
                 | None => (Err CorruptState, s)
                 | Some e => (Ok (Replay r e), s)
                 end
        end
    | None =>
        let rkey := (t, rq_id q) in
        if bool_decide (is_Some (reservations s !! rkey)) then (Ok Conflict, s)
        else
          match checked_total (rq_estimate q) with
          | Err _ => (Err RepoArithmetic, s)
          | Ok requested =>
              match check_ceilings (stored_reservations s) q requested (rq_policies q) with
              | Err e => (Err e, s)
              | Ok (Some ex) => (Ok (Exhausted ex), s)
              | Ok None =>
                  match initial q with
                  | Err _ => (Err RepoArithmetic, s)
                  | Ok (r, e) =>
                      (Ok (Applied r e),
                       {| reservations := <[rkey := r]> (reservations s);
                          idempotency := <[ikey := rkey]> (idempotency s);
                          events := <[(t, id r, version r) := e]> (events s) |})
                  end
              end
          end
    end.

Definition memory_load (t i : string) (s : MemoryState)
    : result RepositoryError (option Reservation) := Ok (reservations s !! (t, i)).

Definition memory_event_at (t i : string) (v : Z) (s : MemoryState)
    : result RepositoryError (option LedgerEvent) := Ok (events s !! (t, i, v)).

(** The checks of [compare_and_set] before it takes the lock. *)
Definition cas_event_mismatch (v : Z) (r : Reservation) (e : LedgerEvent) (expected_next : Z) : bool :=
  negb (version r =? expected_next)
  || negb (ev_version e =? version r)
  || negb (bool_decide (ev_state e = state_kind (state r)))
  || negb (bool_decide (ev_usage_status e = usage_status (state r)))
  || negb (bool_decide (ev_dimensions e = dimensions (scope r)))
  || negb (bool_decide (ev_effective_usage e = effective_usage r)).

(** ... and against the current reservation. *)
Definition cas_identity_mismatch (cur r : Reservation) (e : LedgerEvent) : bool :=
  negb (bool_decide (idempotency_key cur = idempotency_key r))
  || negb (bool_decide (fingerprint cur = fingerprint r))
  || negb (bool_decide (scope cur = scope r))
  || negb (bool_decide (estimate cur = estimate r))
  || negb (bool_decide (policies cur = policies r))
  || negb (valid_transition (state cur) (state r) (ev_kind e)).

Definition memory_compare_and_set (t : string) (v : Z) (r : Reservation) (e : LedgerEvent)
    : ST MemoryState RepositoryError CompareAndSetDecision :=
  fun s =>
    match ensure_tenant t r with
    | Err _ => (Err CorruptState, s)
    | Ok _ =>
        match checked_next v with
        | Err _ => (Err RepoArithmetic, s)
        | Ok expected_next =>
            if cas_event_mismatch v r e expected_next then (Err CorruptState, s)
            else
              let key := (t, id r) in
              match reservations s !! key with
              | None => (Ok CasNotFound, s)
              | Some cur =>
                  if negb (version cur =? v) then (Ok CasVersionConflict, s)
                  else if cas_identity_mismatch cur r e then (Err CorruptState, s)
                  else
                    match for_transition (ev_kind e) (effective_usage cur) r with
                    | Err _ => (Err RepoArithmetic, s)
                    | Ok expected =>
                        if negb (bool_decide (expected = e)) then (Err CorruptState, s)
                        else
                          let ekey := (t, id r, version r) in
                          if bool_decide (is_Some (events s !! ekey)) then (Err CorruptState, s)
                          else (Ok CasApplied,
                                {| reservations := <[key := r]> (reservations s);
                                   idempotency := idempotency s;
                                   events := <[ekey := e]> (events s) |})
                    end
              end
        end
    end.

#[global] Instance memory_repository : UsageLedgerRepository MemoryState := {|
  reserve := memory_reserve;
  load := memory_load;
  compare_and_set := memory_compare_and_set;
  event_at := memory_event_at;
|}.
