(* ===== verification/LedgerMemory.v ===== *)
(** * The in-memory repository fulfils the contract

    The invariant of [MemoryState]: keys agree with their reservations, the
    idempotency index is exact, every version has its one immutable event, and the
    events' adjustments add up to the accounted usage.  The same repository behind a
    connection that fails fulfils it too. *)
From S2P Require Import Prelude Machine Text LedgerAmount LedgerModel LedgerFacts LedgerRepository.

(** The sum of the adjustments of the first [n] events of a reservation. *)
Fixpoint adjusted (h : gmap (string * string * Z) LedgerEvent) (t i : string) (m : BudgetMetric)
    (n : nat) : Z :=
  match n with
  | O => 0
  | S n' => adjusted h t i m n'
      + match h !! (t, i, Z.of_nat n') with
        | Some e => delta_metric m (ev_adjustment e)
        | None => 0
        end
  end.

Record memory_inv (s : MemoryState) : Prop := {
  mi_stored : forall t i r, reservations s !! (t, i) = Some r ->
    tenant (scope r) = t /\ id r = i /\ reservation_wf r /\ version_of (state r) (version r)
    /\ idempotency s !! (t, idempotency_key r) = Some (t, i);
  mi_index : forall t k key, idempotency s !! (t, k) = Some key ->
    exists r, reservations s !! key = Some r /\ key.1 = t /\ idempotency_key r = k;
  mi_events : forall t i v, is_Some (events s !! (t, i, v)) <->
    exists r, reservations s !! (t, i) = Some r /\ 0 <= v <= version r;
  mi_latest : forall t i r e, reservations s !! (t, i) = Some r ->
    events s !! (t, i, version r) = Some e ->
    ev_state e = state_kind (state r) /\ ev_effective_usage e = effective_usage r;
  mi_balance : forall t i r m, reservations s !! (t, i) = Some r ->
    adjusted (events s) t i m (S (Z.to_nat (version r))) = total_metric m (effective_usage r);
}.

Lemma version_of_nonneg s v : version_of s v -> 0 <= v <= 2.
Proof. destruct s; simpl; lia. Qed.

Lemma memory_inv_default : memory_inv MemoryState_default.
Proof.
  constructor; simpl.
  - intros t i r. by rewrite lookup_empty.
  - intros t k key. by rewrite lookup_empty.
  - intros t i v. rewrite lookup_empty. split; [by intros [? ?]|].
    intros (r & Hr & _). by rewrite lookup_empty in Hr.
  - intros t i r e. by rewrite lookup_empty.
  - intros t i r m. by rewrite lookup_empty.
Qed.

(** Recording an event of another reservation or of a later version keeps the sum. *)
Lemma adjusted_insert_other h t i m n t' i' v e :
  (t, i) <> (t', i') \/ Z.of_nat n <= v ->
  adjusted (<[(t', i', v) := e]> h) t i m n = adjusted h t i m n.
Proof.
  intros H. induction n as [|n IH]; [done|]. simpl.
  rewrite IH by (destruct H; [by left|right; lia]).
  rewrite lookup_insert_ne; [done|]. intros [= -> -> ->]. destruct H as [H|H]; [done|lia].
Qed.

(** ** Storing one more version *)
Section store.
Context (s : MemoryState) (t : string) (r : Reservation) (e : LedgerEvent)
  (index : gmap (string * string) (string * string)).

(** The store after the write both operations end with. *)
Definition write : MemoryState :=
  {| reservations := <[(t, id r) := r]> (reservations s); idempotency := index;
     events := <[(t, id r, version r) := e]> (events s) |}.

Context (Hinv : memory_inv s) (Hten : tenant (scope r) = t) (Hwf : reservation_wf r)
  (Hver : version_of (state r) (version r)).
(** The stored version, if any, is the one before. *)
Context (previous : option Reservation)
  (Hprev : reservations s !! (t, id r) = previous)
  (Hnext : match previous with
           | Some cur => version r = version cur + 1 /\ idempotency_key r = idempotency_key cur
                         /\ index = idempotency s
           | None => version r = 0 /\ idempotency s !! (t, idempotency_key r) = None
                     /\ index = <[(t, idempotency_key r) := (t, id r)]> (idempotency s)
           end).
Context (Hev : ev_state e = state_kind (state r) /\ ev_effective_usage e = effective_usage r)
  (Hadj : forall m, delta_metric m (ev_adjustment e) = total_metric m (effective_usage r)
     - match previous with Some cur => total_metric m (effective_usage cur) | None => 0 end).

Lemma index_of_other t' i' r' :
  (t', i') <> (t, id r) -> reservations s !! (t', i') = Some r' ->
  index !! (t', idempotency_key r') = Some (t', i').
Proof.
  intros Hne Hr. pose proof (mi_stored _ Hinv _ _ _ Hr) as (_ & _ & _ & _ & Hi).
  destruct previous as [cur|]; destruct Hnext as (_ & Hk & ->); [done|].
  rewrite lookup_insert_ne; [done|]. intros [= <- Heq]. rewrite Heq in Hk. congruence.
Qed.

Lemma index_of_self : index !! (t, idempotency_key r) = Some (t, id r).
Proof.
  destruct previous as [cur|]; destruct Hnext as (_ & Hk & ->).
  - rewrite Hk. by apply (mi_stored _ Hinv).
  - by rewrite lookup_insert_eq.
Qed.

Lemma write_inv : memory_inv write.
Proof.
  pose proof (version_of_nonneg _ _ Hver) as Hv. constructor; simpl.
  - intros t' i' r'. rewrite lookup_insert. case_decide as Hk.
    + injection Hk as <- <-. intros [= <-]. split_and!; try done. apply index_of_self.
    + intros Hr. pose proof (mi_stored _ Hinv _ _ _ Hr) as (? & ? & ? & ? & _).
      split_and!; try done. by apply index_of_other.
  - intros t' k key Hkey.
    assert ((t', k, key) = (t, idempotency_key r, (t, id r)) \/ idempotency s !! (t', k) = Some key)
      as [[= -> -> ->]|Hold].
    { destruct previous; destruct Hnext as (_ & _ & ->); [by right|].
      rewrite lookup_insert in Hkey. case_decide as Heq; [|by right].
      injection Heq as <- <-. injection Hkey as <-. by left. }
    + exists r. by rewrite lookup_insert_eq.
    + destruct (mi_index _ Hinv _ _ _ Hold) as (r' & Hr' & Ht' & Hk).
      destruct (decide ((t, id r) = key)) as [<-|Hne]; [|exists r'; by rewrite lookup_insert_ne].
      exists r. rewrite lookup_insert_eq. split_and!; try done.
      rewrite Hr' in Hprev. rewrite <- Hprev in Hnext. destruct Hnext as (_ & -> & _). done.
  - intros t' i' v. destruct (decide ((t, id r) = (t', i'))) as [[= <- <-]|Hne].
    + rewrite lookup_insert_eq. rewrite lookup_insert. case_decide as Hk.
      * injection Hk as <-. split; [|by eauto]. intros _. exists r. split; [done|lia].
      * rewrite (mi_events _ Hinv), Hprev. split.
        -- intros (cur & -> & ?). exists r. destruct Hnext as (-> & _). split; [done|lia].
        -- intros (? & [= <-] & ?). assert (v <> version r) by congruence.
           destruct previous as [cur|]; [|lia]. exists cur. destruct Hnext as (? & _).
           split; [done|lia].
    + rewrite !lookup_insert_ne by congruence. by apply (mi_events _ Hinv).
  - intros t' i' r' e'. rewrite lookup_insert. case_decide as Hk.
    + injection Hk as <- <-. intros [= <-]. rewrite lookup_insert_eq. by intros [= <-].
    + intros Hr. rewrite lookup_insert_ne by congruence. by apply (mi_latest _ Hinv).
  - intros t' i' r' m. rewrite lookup_insert. case_decide as Hk.
    + injection Hk as <- <-. intros [= <-]. cbn [adjusted].
      rewrite Z2Nat.id by lia. rewrite lookup_insert_eq, Hadj.
      rewrite adjusted_insert_other by (right; rewrite Z2Nat.id by lia; lia).
      destruct previous as [cur|].
      * destruct Hnext as (-> & _).
        pose proof (mi_stored _ Hinv _ _ _ Hprev) as (_ & _ & _ & Hvc & _).
        apply version_of_nonneg in Hvc.
        replace (Z.to_nat (version cur + 1)) with (S (Z.to_nat (version cur))) by lia.
        rewrite (mi_balance _ Hinv _ _ _ _ Hprev). lia.
      * destruct Hnext as (-> & _). simpl. lia.
    + intros Hr.
      transitivity (adjusted (<[(t, id r, version r):=e]> (events s)) t' i' m
        (S (Z.to_nat (version r')))); [done|].
      rewrite adjusted_insert_other by (left; congruence). by apply (mi_balance _ Hinv).
Qed.
End store.

(** ** Aggregation *)

(** The usage accounted to a dimension: an exact, unbounded sum. *)
Definition used (m : BudgetMetric) (sc : BudgetScope) (d : BudgetDimension)
    (rs : list Reservation) : Z :=
  foldr Z.add 0 ((fun r => total_metric m (effective_usage r))
    <$> filter (fun r => matches_dimension (scope r) sc d = true) rs).

Lemma used_cons m sc d r rs :
  used m sc d (r :: rs) =
  (if matches_dimension (scope r) sc d then total_metric m (effective_usage r) else 0)
  + used m sc d rs.
Proof.
  unfold used. destruct (matches_dimension (scope r) sc d) eqn:E.
  - by rewrite filter_cons_True by done.
  - by rewrite filter_cons_False by congruence.
Qed.

Lemma used_nonneg m sc d rs :
  (forall r, r ∈ rs -> reservation_wf r) -> 0 <= used m sc d rs.
Proof.
  induction rs as [|r rs IH]; intros H; [done|]. rewrite used_cons.
  assert (0 <= used m sc d rs) by (apply IH; intros; apply H; by right).
  destruct (H r) as [He Hs _]; [by left|].
  pose proof (total_metric_nonneg m _ (effective_usage_wf r He Hs)).
  destruct (matches_dimension _ _ _); lia.
Qed.

Lemma used_permutation m sc d rs rs' : rs ≡ₚ rs' -> used m sc d rs = used m sc d rs'.
Proof.
  induction 1 as [| | |]; rewrite ?used_cons; try lia.
Qed.

Lemma aggregate_err_stays q d rs err : foldl (aggregate_step q d) (Err err) rs = Err err.
Proof. by induction rs. Qed.

(** The only error of an aggregation is an overflow. *)
Lemma aggregate_err q d rs acc err :
  foldl (aggregate_step q d) (Ok acc) rs = Err err -> err = RepoArithmetic.
Proof.
  revert acc. induction rs as [|r rs IH]; intros acc; [done|]. simpl.
  destruct (matches_dimension _ _ _); [|apply IH].
  destruct (checked_total _) as [u|?]; simpl.
  - destruct (UsageVector_checked_add acc u); simpl; [apply IH|].
    rewrite aggregate_err_stays. by intros [=].
  - rewrite aggregate_err_stays. by intros [=].
Qed.

(** The checked fold succeeds exactly when the true sums are representable, and
    then returns them. *)
Lemma aggregate_from q d rs acc v :
  (forall r, r ∈ rs -> reservation_wf r) -> vector_wf acc ->
  (foldl (aggregate_step q d) (Ok acc) rs = Ok v <->
   forall m, metric m v = metric m acc + used m (rq_scope q) d rs
     /\ metric m acc + used m (rq_scope q) d rs <= u64_max).
Proof.
  revert acc. induction rs as [|r rs IH]; intros acc Hrs Hacc.
  { simpl. unfold used. simpl. split.
    - intros [= ->] m. specialize (Hacc m). unfold in_range in Hacc. lia.
    - intros H. f_equal. apply vector_ext. intros m. specialize (H m). lia. }
  assert (forall r, r ∈ rs -> reservation_wf r) as Hrs' by (intros; apply Hrs; by right).
  destruct (Hrs r) as [He Hs Ht]; [by left|].
  pose proof (effective_usage_wf r He Hs) as Hew. setoid_rewrite used_cons. simpl.
  destruct (matches_dimension (scope r) (rq_scope q) d).
  2:{ rewrite (IH acc) by done. by setoid_rewrite Z.add_0_l. }
  destruct (checked_total_exists _ Hew Ht) as [u Hu]. rewrite Hu. simpl.
  pose proof (proj1 (checked_total_ok _ u Hew) Hu) as Hum.
  destruct (UsageVector_checked_add acc u) as [acc'|err] eqn:Ea; simpl.
  - pose proof (proj1 (UsageVector_checked_add_ok _ _ _) Ea) as Ha. rewrite (IH acc').
    + split; intros H m; specialize (H m); destruct (Ha m), (Hum m); lia.
    + done.
    + intros m. destruct (Ha m), (Hum m). specialize (Hacc m).
      pose proof (total_metric_nonneg m _ Hew). unfold in_range in *. lia.
  - rewrite aggregate_err_stays. split; [done|]. intros H. exfalso.
    assert (UsageVector_checked_add acc u = Ok (vector_sum acc u)) as Hok; [|congruence].
    apply UsageVector_checked_add_ok. intros m. rewrite metric_vector_sum.
    destruct (H m) as [_ Hle]. destruct (Hum m) as [Hme _].
    pose proof (used_nonneg m (rq_scope q) d rs Hrs'). lia.
Qed.

Lemma aggregate_ok q d rs v :
  (forall r, r ∈ rs -> reservation_wf r) ->
  (aggregate_for_dimension rs q d = Ok v <->
   forall m, metric m v = used m (rq_scope q) d rs /\ used m (rq_scope q) d rs <= u64_max).
Proof.
  intros H. unfold aggregate_for_dimension. rewrite aggregate_from; [|done|by intros []].
  split; intros Hm m; specialize (Hm m); destruct m; simpl in *; lia.
Qed.

(** The policy loop lets a request through exactly when every ceiling holds. *)
Lemma check_ceilings_None rs q requested ps :
  (forall r, r ∈ rs -> reservation_wf r) ->
  check_ceilings rs q requested ps = Ok None ->
  forall p m mx, p ∈ ps -> ceiling (ceilings p) m = Some mx ->
    used m (rq_scope q) (policy_dimension p) rs + metric m requested <= mx
    /\ used m (rq_scope q) (policy_dimension p) rs + metric m requested <= u64_max.
Proof.
  intros Hrs. induction ps as [|p0 ps IH]; intros H p m mx Hp Hm; [by apply not_elem_of_nil in Hp|].
  simpl in H. apply bind_ok in H as (cur & Hcur & H).
  pose proof (proj1 (aggregate_ok _ _ _ _ Hrs) Hcur) as Hsum.
  destruct (first_exhaustion _ _ _ _) eqn:Ef; [done|].
  apply elem_of_cons in Hp as [->|Hp]; [|by eapply IH].
  pose proof (proj1 (first_exhaustion_None _ _ _ _) Ef m mx Hm) as Hle.
  destruct (Hsum m) as [<- _]. lia.
Qed.

Lemma check_ceilings_Some rs q requested ps ex :
  (forall r, r ∈ rs -> reservation_wf r) ->
  check_ceilings rs q requested ps = Ok (Some ex) ->
  exists p m mx, p ∈ ps /\ ceiling (ceilings p) m = Some mx
    /\ ex_dimension ex = policy_dimension p /\ ex_metric ex = m
    /\ (mx < used m (rq_scope q) (policy_dimension p) rs + metric m requested
        \/ u64_max < used m (rq_scope q) (policy_dimension p) rs + metric m requested).
Proof.
  intros Hrs. induction ps as [|p0 ps IH]; intros H; [done|].
  simpl in H. apply bind_ok in H as (cur & Hcur & H). pose proof (proj1 (aggregate_ok _ _ _ _ Hrs) Hcur) as Hsum.
  destruct (first_exhaustion _ _ _ _) as [ex'|] eqn:Ef.
  - injection H as ->. apply first_exhaustion_Some in Ef as (m & mx & Hc & Hlt & ->).
    exists p0, m, mx. destruct (Hsum m) as [<- _]. split_and!; try done; [by left|tauto].
  - destruct (IH H) as (p & m & mx & Hin & ?). exists p, m, mx. split; [by right|done].
Qed.

(** ** The operations *)
Lemma elem_of_stored s r : r ∈ stored_reservations s -> exists k, reservations s !! k = Some r.
Proof.
  unfold stored_reservations. intros Hr. apply list_elem_of_fmap in Hr as ([k r'] & -> & Hr).
  apply elem_of_map_to_list in Hr. eauto.
Qed.

Lemma stored_wf s : memory_inv s -> forall r, r ∈ stored_reservations s -> reservation_wf r.
Proof.
  intros Hi r ([t i] & Hr)%elem_of_stored. by apply (mi_stored _ Hi) in Hr as (_ & _ & ? & _).
Qed.

Lemma request_reservation_wf q : request_wf q -> reservation_wf (from_request q).
Proof.
  intros [He (v & Hv & _) _ _]. constructor; simpl; try done.
  intros m. by apply (proj1 (checked_total_ok _ v He) Hv).
Qed.

(** What [memory_reserve] does on each of its branches. *)
Lemma memory_reserve_cases q s res s' :
  memory_inv s -> request_wf q -> memory_reserve q s = (res, s') ->
  let t := tenant (rq_scope q) in
  match res with
  | Ok (Applied r e) =>
      r = from_request q /\ idempotency s !! (t, rq_idempotency_key q) = None
      /\ reservations s !! (t, rq_id q) = None
      /\ for_transition EvReserved UsageBreakdown_default r = Ok e
      /\ s' = write s t r e (<[(t, rq_idempotency_key q) := (t, rq_id q)]> (idempotency s))
      /\ exists v, checked_total (rq_estimate q) = Ok v
           /\ check_ceilings (stored_reservations s) q v (rq_policies q) = Ok None
  | Ok (Replay r e) =>
      s' = s /\ is_replay_of r q = true /\ reservations s !! (t, id r) = Some r
      /\ events s !! (t, id r, version r) = Some e
  | Ok Conflict =>
      s' = s /\ ((exists r, reservations s !! (t, rq_id q) = Some r)
                \/ exists r i, reservations s !! (t, i) = Some r
                     /\ idempotency_key r = rq_idempotency_key q /\ is_replay_of r q = false)
  | Ok (Exhausted ex) =>
      s' = s /\ exists v, checked_total (rq_estimate q) = Ok v
        /\ check_ceilings (stored_reservations s) q v (rq_policies q) = Ok (Some ex)
  | Err err => s' = s /\ err = RepoArithmetic
  end.
Proof.
  intros Hi Hq H t. unfold memory_reserve in H. fold t in H.
  destruct (idempotency s !! (t, rq_idempotency_key q)) as [[t1 i1]|] eqn:Eix.
  - destruct (mi_index _ Hi _ _ _ Eix) as (r & Hr & Ht1 & Hk). simpl in Ht1. subst t1.
    rewrite Hr in H. destruct (is_replay_of r q) eqn:Erep; simpl in H.
    + pose proof (mi_stored _ Hi _ _ _ Hr) as (_ & Hid & _ & Hv & _). subst i1.
      apply version_of_nonneg in Hv.
      destruct (events s !! (t, id r, version r)) as [e|] eqn:Ee; [by injection H as <- <-|].
      assert (is_Some (events s !! (t, id r, version r))) as [? ?]; [|congruence].
      apply (mi_events _ Hi). exists r. split; [done|lia].
    + simplify_eq. split; [done|]. right. eauto.
  - case_bool_decide as Hex; [simplify_eq; split; [done|]; left; by destruct Hex; eauto|].
    apply eq_None_not_Some in Hex.
    destruct (rqw_total _ Hq) as (v & Hv & _). rewrite Hv in H.
    destruct (check_ceilings _ _ _ _) as [[ex|]|err] eqn:Ec.
    + simplify_eq. eauto.
    + unfold initial in H.
      destruct (for_transition_exists EvReserved UsageBreakdown_default (from_request q)
        breakdown_wf_default ltac:(by intros []) (request_reservation_wf _ Hq)) as [e He].
      rewrite He in H. simpl in H. simplify_eq. split_and!; try done. eauto.
    + injection H as <- <-. split; [done|]. clear -Ec. revert Ec.
      induction (rq_policies q) as [|p ps IH]; simpl; [done|].
      destruct (aggregate_for_dimension _ _ _) as [c|e0] eqn:Ea; simpl.
      * by destruct (first_exhaustion _ _ _ _).
      * intros [= ->]. by apply aggregate_err in Ea.
Qed.

Lemma for_transition_zero_adjustment r e m :
  reservation_wf r -> for_transition EvReserved UsageBreakdown_default r = Ok e ->
  delta_metric m (ev_adjustment e) = total_metric m (effective_usage r) - 0.
Proof.
  intros Hw He. rewrite (for_transition_adjustment _ _ _ _ m breakdown_wf_default Hw He).
  by destruct m.
Qed.

Lemma memory_reserve_inv q s res s' :
  memory_inv s -> request_wf q -> memory_reserve q s = (res, s') -> memory_inv s'.
Proof.
  intros Hi Hq H. pose proof (memory_reserve_cases _ _ _ _ Hi Hq H) as Hc. cbn zeta in Hc.
  destruct res as [[r e|r e| |ex]|err]; try (by destruct Hc as [-> _]).
  destruct Hc as (-> & Hix & Hno & He & -> & _).
  pose proof (request_reservation_wf _ Hq) as Hw.
  apply (write_inv s _ (from_request q) e _ Hi eq_refl Hw eq_refl None); try done.
  - by apply for_transition_ok in He as (_ & _ & ? & _ & _ & ? & _).
  - intros m. by apply for_transition_zero_adjustment.
Qed.

(** What [memory_compare_and_set] does on each of its branches. *)
Lemma memory_cas_cases t v r e s res s' :
  memory_compare_and_set t v r e s = (res, s') ->
  match res with
  | Ok CasApplied =>
      tenant (scope r) = t /\ version r = v + 1 /\ exists cur,
        reservations s !! (t, id r) = Some cur /\ version cur = v
        /\ idempotency_key cur = idempotency_key r /\ fingerprint cur = fingerprint r
        /\ scope cur = scope r /\ estimate cur = estimate r /\ policies cur = policies r
        /\ valid_transition (state cur) (state r) (ev_kind e) = true
        /\ for_transition (ev_kind e) (effective_usage cur) r = Ok e
        /\ s' = write s t r e (idempotency s)
  | Ok CasVersionConflict =>
      s' = s /\ exists cur, reservations s !! (t, id r) = Some cur /\ version cur <> v
  | Ok CasNotFound => s' = s /\ reservations s !! (t, id r) = None
  | Err _ => s' = s
  end.
Proof.
  unfold memory_compare_and_set, ensure_tenant. intros H.
  case_bool_decide as Ht; [|by simplify_eq].
  destruct (checked_next v) as [n|] eqn:En; [|by simplify_eq].
  destruct (cas_event_mismatch v r e n) eqn:Em; [by simplify_eq|].
  destruct (reservations s !! (t, id r)) as [cur|] eqn:Er; [|by simplify_eq].
  destruct (Z.eqb_spec (version cur) v) as [Hv|Hv]; simpl in H; [|simplify_eq; eauto].
  destruct (cas_identity_mismatch cur r e) eqn:Ei; [by simplify_eq|].
  destruct (for_transition _ _ _) as [x|] eqn:Ef; [|by simplify_eq].
  case_bool_decide as Hx; simpl in H; [|by simplify_eq].
  case_bool_decide; simplify_eq; [done|].
  unfold checked_next in En. apply ok_or_ok, checked_add_Some in En as [-> _].
  unfold cas_event_mismatch in Em. repeat (apply orb_false_elim in Em as [Em _]).
  apply negb_false_iff, Z.eqb_eq in Em.
  unfold cas_identity_mismatch in Ei. repeat (apply orb_false_elim in Ei as [Ei ?]).
  repeat match goal with H : negb _ = false |- _ => apply negb_false_iff in H end.
  repeat match goal with H : bool_decide _ = true |- _ => apply bool_decide_eq_true in H end.
  split_and!; try done. exists cur. split_and!; done.
Qed.

Lemma valid_transition_lifecycle s s' k : valid_transition s s' k = true -> lifecycle s s'.
Proof. destruct s, s', k; simpl; try done; constructor. Qed.

Lemma memory_cas_inv t v r e s res s' :
  memory_inv s -> reservation_wf r -> memory_compare_and_set t v r e s = (res, s') -> memory_inv s'.
Proof.
  intros Hi Hw H. apply memory_cas_cases in H. destruct res as [[| |]|err];
    [|by destruct H as [-> _]|by destruct H as [-> _]|by subst].
  destruct H as (Ht & Hvr & cur & Hcur & Hv & Hk & _ & Hsc & _ & _ & Hvt & Hft & ->).
  pose proof (mi_stored _ Hi _ _ _ Hcur) as (_ & _ & [Hce Hcs Hct] & Hcv & _).
  apply (write_inv s t r e _ Hi Ht Hw) with (previous := Some cur).
  - rewrite Hvr, <- Hv. eapply lifecycle_version; [by eapply valid_transition_lifecycle|done].
  - done.
  - by rewrite Hvr, Hv, Hk.
  - by apply for_transition_ok in Hft as (_ & _ & ? & _ & _ & ? & _).
  - intros m. eapply for_transition_adjustment; [|done..]. by apply effective_usage_wf.
Qed.

(** ** The contract is met *)
Lemma fresh_event s t i v :
  memory_inv s ->
  match reservations s !! (t, i) with Some cur => version cur < v | None => True end ->
  events s !! (t, i, v) = None.
Proof.
  intros Hi Hv. apply eq_None_not_Some. intros (r & Hr & ?)%(mi_events _ Hi).
  rewrite Hr in Hv. lia.
Qed.

Lemma memory_cas_spec s t v r e res s' :
  memory_inv s -> reservation_wf r -> memory_compare_and_set t v r e s = (res, s') ->
  memory_inv s' /\ evolves (reservations s) (reservations s') (events s) (events s') /\
  match res with
  | Ok CasApplied => exists cur, reservations s !! (t, id r) = Some cur /\ version cur = v
      /\ same_identity cur r /\ lifecycle (state cur) (state r) /\ version r = v + 1
      /\ reservations s' = <[(t, id r) := r]> (reservations s)
      /\ events s' = <[(t, id r, version r) := e]> (events s)
  | Ok CasVersionConflict => s' = s /\ exists cur, reservations s !! (t, id r) = Some cur
      /\ version cur <> v
  | Ok CasNotFound => s' = s /\ reservations s !! (t, id r) = None
  | Err _ => s' = s
  end.
Proof.
  intros Hi Hw H. pose proof (memory_cas_inv _ _ _ _ _ _ _ Hi Hw H) as Hi'.
  apply memory_cas_cases in H. split; [done|].
  destruct res as [[| |]|err].
  2,3: destruct H as [-> H]; split; [apply evolves_refl|done].
  2: subst; split; [apply evolves_refl|done].
  destruct H as (Ht & Hvr & cur & Hcur & Hv & Hk & Hf & Hsc & He & Hpo & Hvt & Hft & ->).
  assert (same_identity cur r) as Hid.
  { pose proof (mi_stored _ Hi _ _ _ Hcur) as (_ & ? & _). by split_and!. }
  apply valid_transition_lifecycle in Hvt. split.
  - apply evolves_write; [|rewrite Hcur; split_and!; try done; lia].
    apply fresh_event; [done|]. rewrite Hcur. lia.
  - exists cur. by split_and!.
Qed.

Lemma memory_reserve_spec s q res s' :
  memory_inv s -> request_wf q -> memory_reserve q s = (res, s') ->
  memory_inv s' /\ evolves (reservations s) (reservations s') (events s) (events s').
Proof.
  intros Hi Hq H. split; [by eapply memory_reserve_inv|].
  pose proof (memory_reserve_cases _ _ _ _ Hi Hq H) as Hc. cbn zeta in Hc.
  destruct res as [[r e|r e| |ex]|err]; try (destruct Hc as [-> _]; apply evolves_refl).
  destruct Hc as (-> & _ & Hno & _ & -> & _). simpl.
  apply evolves_write; [|by rewrite Hno]. apply fresh_event; [done|]. by rewrite Hno.
Qed.

(** The checks before the lock pass for a transition built by the service. *)
Lemma cas_prechecks t seen next kind e :
  tenant (scope seen) = t -> transition seen (state next) = Ok next ->
  for_transition kind (effective_usage seen) next = Ok e ->
  ensure_tenant t next = Ok tt /\ checked_next (version seen) = Ok (version next)
  /\ cas_event_mismatch (version seen) next e (version next) = false
  /\ id next = id seen /\ ev_kind e = kind.
Proof.
  intros Ht Htr He. apply transition_ok in Htr as [Hmax Hn].
  apply for_transition_ok in He as (Hv & Hk & Hst & Hus & Hdim & Heff & _).
  assert (scope next = scope seen /\ id next = id seen /\ version next = version seen + 1)
    as (Hsc & Hid & Hver) by (rewrite Hn; done).
  split_and!; try done.
  - unfold ensure_tenant. by rewrite Hsc, bool_decide_eq_true_2.
  - unfold checked_next. rewrite (proj2 (checked_add_Some u64_max (version seen) 1 (version next))); [done|].
    split; [exact Hver|done].
  - unfold cas_event_mismatch. rewrite Hv, Z.eqb_refl, !bool_decide_eq_true_2 by done. done.
Qed.

Lemma memory_cas_accepts s t cur next kind e :
  memory_inv s -> reservations s !! (t, id cur) = Some cur ->
  transition cur (state next) = Ok next -> reservation_wf next ->
  valid_transition (state cur) (state next) kind = true ->
  for_transition kind (effective_usage cur) next = Ok e ->
  exists s', memory_compare_and_set t (version cur) next e s = (Ok CasApplied, s').
Proof.
  intros Hi Hcur Htr Hw Hvt He.
  pose proof (mi_stored _ Hi _ _ _ Hcur) as (Ht & _ & _).
  destruct (cas_prechecks _ _ _ _ _ Ht Htr He) as (H1 & H2 & H3 & H4 & H5).
  unfold memory_compare_and_set. rewrite H1, H2, H3, H4, Hcur, Z.eqb_refl. simpl.
  assert (cas_identity_mismatch cur next e = false) as ->.
  { apply transition_ok in Htr as [_ Hn]. unfold cas_identity_mismatch.
    rewrite H5, Hvt, !bool_decide_eq_true_2 by (by rewrite Hn). done. }
  rewrite H5, He, bool_decide_eq_true_2 by done. simpl.
  rewrite bool_decide_eq_false_2; [eauto|]. rewrite fresh_event; [by intros [? ?]|done|].
  rewrite Hcur. apply transition_ok in Htr as [_ ->]. simpl. lia.
Qed.

Lemma memory_cas_conflicts s t seen cur next kind e :
  memory_inv s -> reservations s !! (t, id seen) = Some cur -> version cur <> version seen ->
  tenant (scope seen) = t -> transition seen (state next) = Ok next ->
  for_transition kind (effective_usage seen) next = Ok e ->
  memory_compare_and_set t (version seen) next e s = (Ok CasVersionConflict, s).
Proof.
  intros Hi Hcur Hv Ht Htr He.
  destruct (cas_prechecks _ _ _ _ _ Ht Htr He) as (H1 & H2 & H3 & H4 & _).
  unfold memory_compare_and_set. rewrite H1, H2, H3, H4, Hcur.
  destruct (Z.eqb_spec (version cur) (version seen)); [done|]. done.
Qed.

Lemma memory_stored s t i r : memory_inv s -> reservations s !! (t, i) = Some r ->
  tenant (scope r) = t /\ id r = i /\ reservation_wf r /\ version_of (state r) (version r)
  /\ is_Some (events s !! (t, i, version r)).
Proof.
  intros Hi Hr. pose proof (mi_stored _ Hi _ _ _ Hr) as (? & ? & ? & Hv & _).
  split_and!; try done. apply (mi_events _ Hi). exists r. apply version_of_nonneg in Hv.
  split; [done|lia].
Qed.

#[global] Program Instance memory_lawful : LawfulRepository MemoryState := {|
  stored := reservations;
  history := events;
  healthy := memory_inv;
  available _ := True;
|}.
Next Obligation. by left. Qed.
Next Obligation. by left. Qed.
Next Obligation. exact memory_stored. Qed.
Next Obligation.
  intros s t v r e res s' Hs Hr Hc. destruct (memory_cas_spec s t v r e res s' Hs Hr Hc) as (H1 & H2 & H3). split_and!; [done..|]. by destruct res as [[]|[]].
Qed.
Next Obligation. intros s t cur next kind e Hs Hc Ht Hn Hv Hf. destruct (memory_cas_accepts s t cur next kind e Hs Hc Ht Hn Hv Hf) as [s' E]. exists s'. by left. Qed.
Next Obligation. intros s t seen cur next kind e Hs Hc Hv Ht Htr Hf. left. by apply (memory_cas_conflicts s t seen cur next kind e). Qed.
Next Obligation. exact memory_reserve_spec. Qed.

(** ** Storage behind an unreliable connection

    The reference repository behind a connection that may be down, or lose the answer of a
    call that took effect.  It satisfies the same contract. *)
Inductive Connection := Up | Down | Deaf.
#[global] Instance Connection_eq : EqDecision Connection.
Proof. solve_decision. Defined.
Record Remote := { connection : Connection; remote : MemoryState }.
Definition remote_query {A} (f : MemoryState -> result RepositoryError A) (s : Remote) : result RepositoryError A :=
  match connection s with Up => f (remote s) | Down | Deaf => Err Unavailable end.
Definition remote_call {A} (f : ST MemoryState RepositoryError A) : ST Remote RepositoryError A := fun s =>
  let '(res, m) := f (remote s) in
  match connection s with
  | Up => (res, {| connection := Up; remote := m |})
  | Down => (Err Unavailable, s)
  | Deaf => (Err Unavailable, {| connection := Deaf; remote := m |})
  end.
#[global] Instance remote_repository : UsageLedgerRepository Remote := {|
  reserve q := remote_call (reserve q);
  load t i := remote_query (load t i);
  compare_and_set t v r e := remote_call (compare_and_set t v r e);
  event_at t i v := remote_query (event_at t i v);
|}.
Lemma remote_call_cases {A} (f : ST MemoryState RepositoryError A) s res s' : remote_call f s = (res, s') ->
  exists res0 m, f (remote s) = (res0, m)
    /\ (connection s = Up /\ res = res0 /\ s' = {| connection := Up; remote := m |}
        \/ connection s <> Up /\ res = Err Unavailable /\ (s' = s \/ s' = {| connection := connection s; remote := m |})).
Proof.
  unfold remote_call. destruct (f (remote s)) as [res0 m]. exists res0, m. split; [done|].
  destruct (connection s); simplify_eq; naive_solver.
Qed.
Lemma remote_down {A} (f : ST MemoryState RepositoryError A) s : connection s <> Up -> exists s', remote_call f s = (Err Unavailable, s').
Proof. unfold remote_call. destruct (f (remote s)) as [res0 m]. destruct (connection s); [done|by eexists..]. Qed.
Lemma remote_up s : connection s = Up -> {| connection := Up; remote := remote s |} = s.
Proof. destruct s. simpl. by intros ->. Qed.
Lemma remote_evolves {A} (f : ST MemoryState RepositoryError A) s res s' : memory_inv (remote s) ->
  (forall res0 m, f (remote s) = (res0, m) -> memory_inv m /\ evolves (reservations (remote s)) (reservations m) (events (remote s)) (events m)) ->
  remote_call f s = (res, s') ->
  memory_inv (remote s') /\ evolves (reservations (remote s)) (reservations (remote s')) (events (remote s)) (events (remote s')).
Proof.
  intros Hi Hf (res0 & m & E & Hc)%remote_call_cases. specialize (Hf _ _ E).
  destruct Hc as [(_ & _ & ->)|(_ & _ & [-> | ->])]; [done| |done]. split; [done|apply evolves_refl].
Qed.
#[global] Program Instance remote_lawful : LawfulRepository Remote := {|
  stored s := reservations (remote s);
  history s := events (remote s);
  healthy s := memory_inv (remote s);
  available s := connection s = Up;
|}.
Next Obligation. intros s t i _. unfold load, remote_repository, remote_query. destruct (connection s); auto. Qed.
Next Obligation. intros s t i v _. unfold event_at, remote_repository, remote_query. destruct (connection s); auto. Qed.
Next Obligation. intros s t i r Hi Hr. by apply memory_stored. Qed.
Next Obligation.
  intros s t v r e res s' Hi Hw H. pose proof (fun res0 m => memory_cas_spec (remote s) t v r e res0 m Hi Hw) as Hcas.
  destruct (remote_evolves _ _ _ _ Hi (fun res0 m E => let '(conj a (conj b _)) := Hcas res0 m E in conj a b) H) as [H1 H2].
  split_and!; [done..|]. apply remote_call_cases in H as (res0 & m & E & Hc). specialize (Hcas _ _ E) as (_ & _ & Hcas).
  destruct Hc as [(Hup & -> & ->)|(_ & -> & _)]; [|done].
  destruct res0 as [[]|[]]; [done | destruct Hcas as [-> ?]; by rewrite remote_up | destruct Hcas as [-> ?]; by rewrite remote_up
    | done | subst m; by apply remote_up | subst m; by apply remote_up].
Qed.
Next Obligation.
  intros s t cur next kind e Hs Hc Ht Hn Hv Hf. destruct (memory_cas_accepts (remote s) t cur next kind e Hs Hc Ht Hn Hv Hf) as [m E].
  destruct (decide (connection s = Up)) as [Hup|Hup]; [|destruct (remote_down (compare_and_set t (version cur) next e) s Hup) as [s' ?]; exists s'; by right].
  eexists. left. unfold compare_and_set at 1, remote_repository, remote_call. simpl. by rewrite E, Hup.
Qed.
Next Obligation.
  intros s t seen cur next kind e Hs Hc Hv Ht Htr Hf. pose proof (memory_cas_conflicts (remote s) t seen cur next kind e Hs Hc Hv Ht Htr Hf) as E.
  destruct (decide (connection s = Up)) as [Hup|Hup]; [|right; split; [done|]; by apply remote_down].
  left. unfold compare_and_set at 1, remote_repository, remote_call. simpl. by rewrite E, Hup, remote_up.
Qed.
Next Obligation.
  intros s q res s' Hi Hq. apply remote_evolves; [done|]. intros res0 m. by apply (memory_reserve_spec (remote s) q).
Qed.
