(* ===== verification/LedgerTheorems.v ===== *)
(** * What the ledger's storage guarantees

    Ceilings hold when a reservation is applied, refusals are justified, replays
    are idempotent, the event log balances, and tenants do not see each other. *)
From S2P Require Import Prelude Machine Text LedgerAmount LedgerModel LedgerFacts.
From S2P Require Import LedgerRepository LedgerMemory.

Lemma matches_dimension_refl sc d : matches_dimension sc sc d = true.
Proof.
  unfold matches_dimension. rewrite bool_decide_eq_true_2 by done. simpl.
  destruct d; by rewrite ?bool_decide_eq_true_2.
Qed.

Lemma stored_reservations_insert s k r :
  reservations s !! k = None ->
  (map_to_list (<[k := r]> (reservations s))).*2 ≡ₚ r :: stored_reservations s.
Proof. intros H. unfold stored_reservations. by rewrite map_to_list_insert. Qed.

(** C3. Hard ceilings: when a reservation is applied, the exact usage accounted in
    every budgeted dimension of its scope, the new reservation included, is
    within the ceiling of every capped metric (and within [u64]). *)
Theorem reserve_respects_ceilings s q r e s' :
  memory_inv s -> request_wf q -> memory_reserve q s = (Ok (Applied r e), s') ->
  forall p m mx, p ∈ rq_policies q -> ceiling (ceilings p) m = Some mx ->
    used m (rq_scope q) (policy_dimension p) (stored_reservations s') <= mx
    /\ used m (rq_scope q) (policy_dimension p) (stored_reservations s') <= u64_max.
Proof.
  intros Hi Hq H p m mx Hp Hm.
  pose proof (memory_reserve_cases _ _ _ _ Hi Hq H) as (-> & _ & Hno & _ & -> & v & Hv & Hc).
  pose proof (check_ceilings_None _ _ _ _ (stored_wf _ Hi) Hc p m mx Hp Hm) as Hle.
  unfold stored_reservations at 1 2. simpl.
  rewrite (used_permutation _ _ _ _ _ (stored_reservations_insert s _ _ Hno)), used_cons.
  change (scope (from_request q)) with (rq_scope q). rewrite matches_dimension_refl.
  change (effective_usage (from_request q)) with (rq_estimate q).
  pose proof (proj1 (checked_total_ok _ v (rqw_estimate _ Hq)) Hv m) as [<- _]. lia.
Qed.

(** A refusal is justified and free of effects: the store is unchanged, and
    the reported metric of a policy of the request would have exceeded its
    ceiling (or [u64]) together with what is already accounted. *)
Theorem reserve_exhaustion_justified s q ex s' :
  memory_inv s -> request_wf q -> memory_reserve q s = (Ok (Exhausted ex), s') ->
  s' = s /\ exists p mx, p ∈ rq_policies q /\ ceiling (ceilings p) (ex_metric ex) = Some mx
    /\ ex_dimension ex = policy_dimension p
    /\ Z.min mx u64_max
       < used (ex_metric ex) (rq_scope q) (policy_dimension p) (stored_reservations s)
         + total_metric (ex_metric ex) (rq_estimate q).
Proof.
  intros Hi Hq H. pose proof (memory_reserve_cases _ _ _ _ Hi Hq H) as (-> & v & Hv & Hc).
  split; [done|]. apply check_ceilings_Some in Hc as (p & m & mx & Hp & Hm & Hd & -> & Hlt);
    [|by apply stored_wf].
  exists p, mx. split_and!; try done.
  pose proof (proj1 (checked_total_ok _ v (rqw_estimate _ Hq)) Hv m) as [<- _]. lia.
Qed.

Lemma is_replay_of_same r r' q : same_identity r r' -> is_replay_of r' q = is_replay_of r q.
Proof. intros (_ & H1 & H2 & H3 & H4 & H5). unfold is_replay_of. by rewrite H1, H2, H3, H4, H5. Qed.

Lemma is_replay_of_from_request q : is_replay_of (from_request q) q = true.
Proof. unfold is_replay_of. by rewrite !bool_decide_eq_true_2. Qed.

(** Reserving is idempotent: after a reservation was applied, and whatever
    happened to the store since, the same request is answered with the current
    version of that very reservation and its event, and nothing is written or
    charged again. *)
Theorem reserve_replays s q r e s1 s2 :
  memory_inv s -> request_wf q -> memory_reserve q s = (Ok (Applied r e), s1) ->
  memory_inv s2 -> evolves (reservations s1) (reservations s2) (events s1) (events s2) ->
  exists r' e', memory_reserve q s2 = (Ok (Replay r' e'), s2)
    /\ same_identity r r' /\ reservations s2 !! (tenant (rq_scope q), rq_id q) = Some r'
    /\ events s2 !! (tenant (rq_scope q), rq_id q, version r') = Some e'.
Proof.
  intros Hi Hq H Hi2 Hev. pose proof (memory_reserve_cases _ _ _ _ Hi Hq H) as (-> & _ & _ & _ & -> & _).
  destruct (ev_reservations _ _ _ _ Hev (tenant (rq_scope q), rq_id q) (from_request q))
    as (r' & Hr' & Hid & _); [simpl; by rewrite lookup_insert_eq|].
  pose proof (mi_stored _ Hi2 _ _ _ Hr') as (_ & Hidr & _ & Hv & Hix). apply version_of_nonneg in Hv.
  assert (is_Some (events s2 !! (tenant (rq_scope q), rq_id q, version r'))) as [e' He'].
  { apply (mi_events _ Hi2). exists r'. split; [done|lia]. }
  exists r', e'. split_and!; try done. unfold memory_reserve.
  assert (idempotency_key r' = rq_idempotency_key q) as Hk by (destruct Hid as (_ & Hk & _); done).
  rewrite <- Hk, Hix, Hr'. rewrite (is_replay_of_same (from_request q)) by done.
  rewrite is_replay_of_from_request. simpl. by rewrite Hidr, He'.
Qed.

(** ** Reachable stores *)
Inductive ledger_reachable : MemoryState -> Prop :=
| reachable_empty : ledger_reachable MemoryState_default
| reachable_reserve s q res s' :
    ledger_reachable s -> request_wf q -> memory_reserve q s = (res, s') -> ledger_reachable s'
| reachable_cas s t v r e res s' :
    ledger_reachable s -> reservation_wf r -> memory_compare_and_set t v r e s = (res, s') ->
    ledger_reachable s'.

Lemma reachable_inv s : ledger_reachable s -> memory_inv s.
Proof.
  induction 1; [apply memory_inv_default|by eapply memory_reserve_inv|by eapply memory_cas_inv].
Qed.

(** C31. The event log is a complete double entry: in every store reachable by
    reserving and conditional replacement, each reservation has exactly the
    events of versions [0] to its own (at most [2]), the last one records its
    state, and the adjustments of all of them add up to the usage it accounts
    for, in every metric. *)
Theorem ledger_balances s t i r :
  ledger_reachable s -> reservations s !! (t, i) = Some r ->
  0 <= version r <= 2
  /\ (forall v, is_Some (events s !! (t, i, v)) <-> 0 <= v <= version r)
  /\ (forall e, events s !! (t, i, version r) = Some e ->
        ev_state e = state_kind (state r) /\ ev_effective_usage e = effective_usage r)
  /\ (forall m, adjusted (events s) t i m (S (Z.to_nat (version r)))
               = total_metric m (effective_usage r)).
Proof.
  intros Hs Hr. apply reachable_inv in Hs.
  pose proof (mi_stored _ Hs _ _ _ Hr) as (_ & _ & _ & Hv & _). apply version_of_nonneg in Hv.
  split; [done|]. split_and!.
  - intros v. rewrite (mi_events _ Hs). split; [|by eauto]. intros (r' & Hr' & ?). congruence.
  - intros e He. by apply (mi_latest _ Hs t i r e).
  - intros m. by apply (mi_balance _ Hs).
Qed.

(** ** Tenants *)

(** The part of a store that belongs to one tenant. *)
Definition tenant_reservations (t : string) (s : MemoryState) : gmap (string * string) Reservation :=
  filter (fun kr => kr.1.1 = t) (reservations s).

(** Two stores look the same to a tenant. *)
Record agree (t : string) (s1 s2 : MemoryState) : Prop := {
  ag_reservations : forall i, reservations s1 !! (t, i) = reservations s2 !! (t, i);
  ag_idempotency : forall k, idempotency s1 !! (t, k) = idempotency s2 !! (t, k);
  ag_events : forall i v, events s1 !! (t, i, v) = events s2 !! (t, i, v);
}.

Lemma tenant_reservations_agree t s1 s2 :
  agree t s1 s2 -> tenant_reservations t s1 = tenant_reservations t s2.
Proof.
  intros H. apply map_eq. intros [t' i]. unfold tenant_reservations.
  rewrite !map_lookup_filter. destruct (decide (t' = t)) as [->|Hne].
  - by rewrite (ag_reservations _ _ _ H).
  - destruct (reservations s1 !! (t', i)), (reservations s2 !! (t', i)); simpl;
      by rewrite ?option_guard_False.
Qed.

(** Aggregation only reads the reservations of the request's tenant. *)
Lemma used_tenant (M : gmap (string * string) Reservation) m sc d :
  (forall t i r, M !! (t, i) = Some r -> tenant (scope r) = t) ->
  used m sc d (map_to_list M).*2
  = used m sc d (map_to_list (filter (fun kr => kr.1.1 = tenant sc) M)).*2.
Proof.
  induction M as [|[t i] r M Hno IH] using map_ind; intros Hk.
  { by rewrite map_filter_empty. }
  assert (forall t' i' r', M !! (t', i') = Some r' -> tenant (scope r') = t') as Hk'.
  { intros t' i' r' Hr'. apply (Hk t' i'). rewrite lookup_insert_ne; [done|]. congruence. }
  rewrite (used_permutation _ _ _ _ (r :: (map_to_list M).*2)) by (by rewrite map_to_list_insert).
  rewrite used_cons, IH by done. assert (tenant (scope r) = t) as Ht.
  { apply (Hk t i). by rewrite lookup_insert_eq. }
  destruct (decide (t = tenant sc)) as [Heq|Hne].
  - rewrite map_filter_insert_True by done.
    rewrite (used_permutation _ _ _ (map_to_list (<[_ := _]> _)).*2
      (r :: (map_to_list (filter (fun kr => kr.1.1 = tenant sc) M)).*2)).
    + by rewrite used_cons.
    + rewrite map_to_list_insert; [done|]. apply map_lookup_filter_None. by left.
  - rewrite map_filter_insert_False by done. rewrite map_filter_delete.
    rewrite delete_id by (apply map_lookup_filter_None; by left).
    assert (matches_dimension (scope r) sc d = false) as ->; [|lia].
    unfold matches_dimension. rewrite bool_decide_eq_false_2 by congruence. done.
Qed.

Lemma used_agree s1 s2 m sc d :
  memory_inv s1 -> memory_inv s2 -> agree (tenant sc) s1 s2 ->
  used m sc d (stored_reservations s1) = used m sc d (stored_reservations s2).
Proof.
  intros Hi1 Hi2 Ha. unfold stored_reservations.
  rewrite (used_tenant (reservations s1)), (used_tenant (reservations s2)).
  - pose proof (tenant_reservations_agree _ _ _ Ha) as Heq. unfold tenant_reservations in Heq.
    by rewrite Heq.
  - intros t i r Hr. by apply (mi_stored _ Hi2) in Hr as [? _].
  - intros t i r Hr. by apply (mi_stored _ Hi1) in Hr as [? _].
Qed.

Lemma aggregate_agree s1 s2 q d :
  memory_inv s1 -> memory_inv s2 -> agree (tenant (rq_scope q)) s1 s2 ->
  aggregate_for_dimension (stored_reservations s1) q d
  = aggregate_for_dimension (stored_reservations s2) q d.
Proof.
  intros Hi1 Hi2 Ha.
  assert (forall v, aggregate_for_dimension (stored_reservations s1) q d = Ok v <->
    aggregate_for_dimension (stored_reservations s2) q d = Ok v) as Hiff.
  { intros v. rewrite !aggregate_ok by (by apply stored_wf).
    setoid_rewrite (used_agree s1 s2); done. }
  destruct (aggregate_for_dimension (stored_reservations s1) q d) as [v1|e1] eqn:E1.
  - symmetry. by apply Hiff.
  - destruct (aggregate_for_dimension (stored_reservations s2) q d) as [v2|e2] eqn:E2.
    + by apply Hiff.
    + apply aggregate_err in E1, E2. by subst.
Qed.

Lemma check_ceilings_agree s1 s2 q v ps :
  memory_inv s1 -> memory_inv s2 -> agree (tenant (rq_scope q)) s1 s2 ->
  check_ceilings (stored_reservations s1) q v ps = check_ceilings (stored_reservations s2) q v ps.
Proof.
  intros Hi1 Hi2 Ha. induction ps as [|p ps IH]; [done|]. simpl.
  rewrite (aggregate_agree s1 s2) by done. destruct (aggregate_for_dimension _ _ _); [|done].
  simpl. by rewrite IH.
Qed.

(** The same write at a tenant's key keeps the tenant's view equal, and the other
    tenants' views as they were. *)
Lemma agree_write (t : string) (s1 s2 : MemoryState) (r : Reservation) (e : LedgerEvent) (i1 i2 : gmap (string * string) (string * string)) :
  agree t s1 s2 -> (forall k, i1 !! (t, k) = i2 !! (t, k)) ->
  agree t (write s1 t r e i1) (write s2 t r e i2).
Proof.
  intros [Hr Hi He] Hix. constructor; simpl; [|done|].
  - intros i. rewrite !lookup_insert. by case_decide.
  - intros i v. rewrite !lookup_insert. by case_decide.
Qed.

Lemma agree_other (t t' : string) (s : MemoryState) (r : Reservation) (e : LedgerEvent) (i' : gmap (string * string) (string * string)) :
  t' <> t -> (forall k, idempotency s !! (t', k) = i' !! (t', k)) -> agree t' s (write s t r e i').
Proof.
  intros Hne Hix. constructor; simpl; [|done|].
  - intros i. rewrite lookup_insert_ne; [done|congruence].
  - intros i v. rewrite lookup_insert_ne; [done|congruence].
Qed.

Lemma agree_refl t s : agree t s s.
Proof. done. Qed.

(** Tenants are isolated: what a reservation request is answered depends only
    on its own tenant's part of the store, and neither reserving nor replacing
    changes anything another tenant can see. *)
Theorem tenant_isolation s1 s2 q res1 s1' res2 s2' t' :
  memory_inv s1 -> memory_inv s2 -> request_wf q -> agree (tenant (rq_scope q)) s1 s2 ->
  memory_reserve q s1 = (res1, s1') -> memory_reserve q s2 = (res2, s2') ->
  res1 = res2 /\ agree (tenant (rq_scope q)) s1' s2'
  /\ (t' <> tenant (rq_scope q) -> agree t' s1 s1')
  /\ (forall t v r e res s', t' <> t -> memory_compare_and_set t v r e s1 = (res, s') ->
       agree t' s1 s').
Proof.
  intros Hi1 Hi2 Hq Ha H1 H2. set (t := tenant (rq_scope q)) in *.
  assert (forall t v r e res s', t' <> t -> memory_compare_and_set t v r e s1 = (res, s') ->
       agree t' s1 s') as Hcas.
  { intros t0 v r e res s' Hne H. apply memory_cas_cases in H.
    destruct res as [[| |]|]; [|by destruct H as [-> _]|by destruct H as [-> _]|by subst].
    destruct H as (_ & _ & cur & _ & _ & _ & _ & _ & _ & _ & _ & _ & ->). by apply agree_other. }
  unfold memory_reserve in H1, H2. fold t in H1, H2.
  rewrite (ag_idempotency _ _ _ Ha) in H1.
  destruct (idempotency s2 !! (t, rq_idempotency_key q)) as [[t1 i1]|] eqn:Eix.
  - destruct (mi_index _ Hi2 _ _ _ Eix) as (r & _ & Ht1 & _). simpl in Ht1. subst t1.
    rewrite (ag_reservations _ _ _ Ha) in H1. destruct (reservations s2 !! (t, i1)) as [r0|].
    + destruct (negb (is_replay_of r0 q)); [by simplify_eq|].
      rewrite (ag_events _ _ _ Ha) in H1. destruct (events s2 !! (t, id r0, version r0)); by simplify_eq.
    + by simplify_eq.
  - rewrite (ag_reservations _ _ _ Ha) in H1. case_bool_decide; [by simplify_eq|].
    destruct (checked_total (rq_estimate q)) as [v|]; [|by simplify_eq].
    rewrite (check_ceilings_agree s1 s2) in H1 by done.
    destruct (check_ceilings (stored_reservations s2) q v (rq_policies q)) as [[ex|]|]; [by simplify_eq| |by simplify_eq].
    destruct (initial q) as [[r e]|] eqn:Ein; [|by simplify_eq].
    assert (id r = rq_id q /\ version r = 0) as [Hid _].
    { unfold initial in Ein. inv_ok. by subst. }
    injection H1 as <- <-. injection H2 as <- <-. rewrite <- Hid. split_and!; try done.
    + apply agree_write; [done|]. intros k. rewrite !lookup_insert. case_decide; [done|].
      apply (ag_idempotency _ _ _ Ha).
    + intros Hne. apply agree_other; [done|]. intros k. rewrite lookup_insert_ne; [done|congruence].
Qed.

(** ** A concrete ledger *)
Module LedgerFixture.
Definition vec (n tok : Z) : UsageVector :=
  {| requests := n; concurrent_streams := 1; tokens := tok; units := 0; tool_calls := 0;
     media_bytes := 0; cost_microunits := 0 |}.
Definition sc : BudgetScope :=
  {| tenant := "acme"; principal := None; api_key := None; scope_provider := None;
     scope_model := None; scope_route := None; scope_tool := None; operation := None; job := None |}.
Definition pol : BudgetPolicy :=
  {| policy_dimension := Tenant;
     ceilings := {| max_requests := None; max_concurrent_streams := None; max_tokens := Some 100;
                    max_units := None; max_tool_calls := None; max_media_bytes := None;
                    max_cost := None |} |}.
Definition req (i k : string) (tok : Z) : ReservationRequest :=
  {| rq_id := i; rq_idempotency_key := k; rq_fingerprint := []; rq_scope := sc;
     rq_estimate := UsageBreakdown_primary (vec 1 tok); rq_policies := [pol] |}.
Definition first := memory_reserve (req "r1" "k1" 60) MemoryState_default.
Definition full := memory_reserve (req "r2" "k2" 60) first.2.

Lemma req_wf i k : request_wf (req i k 60).
Proof.
  split; simpl.
  - split_and!; intros []; done.
  - exists (vec 1 60). split; [reflexivity|done].
  - apply NoDup_singleton.
  - intros p. rewrite elem_of_cons, elem_of_nil. intros [->|[]]. done.
Qed.

Lemma first_reachable : ledger_reachable first.2.
Proof.
  eapply (reachable_reserve MemoryState_default (req "r1" "k1" 60) first.1);
    [constructor|apply req_wf|reflexivity].
Qed.

Definition r1 : Reservation := from_request (req "r1" "k1" 60).
Definition e1 : LedgerEvent :=
  match for_transition EvReserved UsageBreakdown_default r1 with
  | Ok e => e
  | Err _ => {| ev_version := 0; ev_kind := EvReserved; ev_state := KReserved;
                ev_usage_status := SEstimated; ev_dimensions := dimensions sc;
                ev_effective_usage := UsageBreakdown_default;
                ev_adjustment := {| d_requests := 0; d_concurrent_streams := 0; d_tokens := 0;
                  d_units := 0; d_tool_calls := 0; d_media_bytes := 0; d_cost_microunits := 0 |} |}
  end.

Lemma first_run : memory_reserve (req "r1" "k1" 60) MemoryState_default = (Ok (Applied r1 e1), first.2).
Proof. vm_compute. reflexivity. Qed.
End LedgerFixture.

Lemma reserve_respects_ceilings_witness :
  used Tokens LedgerFixture.sc Tenant (stored_reservations LedgerFixture.first.2) <= 100.
Proof.
  apply (reserve_respects_ceilings MemoryState_default (LedgerFixture.req "r1" "k1" 60)
    LedgerFixture.r1 LedgerFixture.e1 LedgerFixture.first.2 memory_inv_default
    (LedgerFixture.req_wf _ _) LedgerFixture.first_run LedgerFixture.pol Tokens 100).
  - left.
  - reflexivity.
Defined.

Lemma reserve_exhaustion_justified_witness :
  LedgerFixture.full.2 = LedgerFixture.first.2.
Proof.
  refine (proj1 (reserve_exhaustion_justified LedgerFixture.first.2 (LedgerFixture.req "r2" "k2" 60)
    {| ex_dimension := Tenant; ex_metric := Tokens; ex_current := UsageValue 60;
       ex_requested := UsageValue 60; ex_maximum := UsageValue 100 |}
    LedgerFixture.full.2 (reachable_inv _ LedgerFixture.first_reachable)
    (LedgerFixture.req_wf _ _) _)).
  vm_compute. reflexivity.
Defined.

Lemma reserve_replays_witness :
  exists r' e', memory_reserve (LedgerFixture.req "r1" "k1" 60) LedgerFixture.first.2
    = (Ok (Replay r' e'), LedgerFixture.first.2) /\ same_identity LedgerFixture.r1 r'.
Proof.
  destruct (reserve_replays MemoryState_default (LedgerFixture.req "r1" "k1" 60)
    LedgerFixture.r1 LedgerFixture.e1 LedgerFixture.first.2 LedgerFixture.first.2
    memory_inv_default (LedgerFixture.req_wf _ _) LedgerFixture.first_run
    (reachable_inv _ LedgerFixture.first_reachable) (evolves_refl _ _))
    as (r' & e' & H & Hid & _).
  exists r', e'. split; [exact H|exact Hid].
Defined.

Lemma ledger_balances_witness :
  adjusted (events LedgerFixture.first.2) "acme" "r1" Tokens 1 = 60.
Proof.
  destruct (ledger_balances LedgerFixture.first.2 "acme" "r1" LedgerFixture.r1
    LedgerFixture.first_reachable) as (_ & _ & _ & H).
  - vm_compute. reflexivity.
  - exact (H Tokens).
Defined.

Lemma tenant_isolation_witness :
  agree "globex" LedgerFixture.first.2 LedgerFixture.full.2.
Proof.
  refine (proj1 (proj2 (proj2 (tenant_isolation LedgerFixture.first.2 LedgerFixture.first.2
    (LedgerFixture.req "r2" "k2" 60) LedgerFixture.full.1 LedgerFixture.full.2
    LedgerFixture.full.1 LedgerFixture.full.2 "globex"
    (reachable_inv _ LedgerFixture.first_reachable) (reachable_inv _ LedgerFixture.first_reachable)
    (LedgerFixture.req_wf _ _) (agree_refl _ _) _ _))) _).
  - reflexivity.
  - reflexivity.
  - discriminate.
Defined.
