(* ===== verification/LedgerService.v ===== *)
(** * The usage-ledger service

    [crates/llm-usage-ledger/src/service.rs]: reserve, commit, reconcile and
    release over any repository that keeps the contract.  A service call makes
    several repository calls; rivals may use the same store before each of them
    ([rivals] lists what they do), and the storage may become unavailable and available
    again between them.  The theorems rely only on the rivals respecting the contract,
    and hold for every interleaving. *)
From S2P Require Import Prelude Machine Text LedgerAmount LedgerModel LedgerFacts.
From S2P Require Import LedgerRepository LedgerMemory LedgerTheorems.

Inductive LedgerError :=
| LRepository (e : RepositoryError)
| LBudgetExhausted (ex : BudgetExhaustion)
| LIdempotencyConflict | LNotFound | LTransitionConflict | LArithmetic | LUnderreportedUsage
| LConcurrentModification | LVersionExhausted | LCorruptState.

Definition MAX_COMPARE_AND_SET_ATTEMPTS : nat := 16.

Section service.
Context {S : Type} `{UsageLedgerRepository S}.

(** The store, and what rivals do to it before each of our next repository calls. *)
Record shared := { store : S; rivals : list (S -> S) }.

Definition arrive (w : shared) : shared :=
  match rivals w with
  | [] => w
  | f :: fs => {| store := f (store w); rivals := fs |}
  end.

(** A repository call that writes, and one that reads; [?] converts the error. *)
Definition call {A} (f : ST S RepositoryError A) : ST shared LedgerError A :=
  fun w =>
    let w1 := arrive w in
    let '(res, s) := f (store w1) in
    (map_err LRepository res, {| store := s; rivals := rivals w1 |}).

Definition query {A} (f : S -> result RepositoryError A) : ST shared LedgerError A :=
  fun w => let w1 := arrive w in (map_err LRepository (f (store w1)), w1).

Definition service_reserve (q : ReservationRequest) : ST shared LedgerError LedgerOperation :=
  d ← call (reserve q);
  match d with
  | Applied r e => mret {| op_reservation := r; op_event := e; replayed := false |}
  | Replay r e => mret {| op_reservation := r; op_event := e; replayed := true |}
  | Conflict => st_throw LIdempotencyConflict
  | Exhausted ex => st_throw (LBudgetExhausted ex)
  end.

Definition load_required (t i : string) : ST shared LedgerError Reservation :=
  o ← query (load t i);
  match o with Some r => mret r | None => st_throw LNotFound end.

Definition replay (t : string) (r : Reservation) : ST shared LedgerError LedgerOperation :=
  o ← query (event_at t (id r) (version r));
  match o with
  | Some e => mret {| op_reservation := r; op_event := e; replayed := true |}
  | None => st_throw LCorruptState
  end.

Definition apply_transition (t : string) (current : Reservation) (s : ReservationState)
    (kind : LedgerEventKind) : ST shared LedgerError (option LedgerOperation) :=
  match transition current s with
  | Err _ => st_throw LVersionExhausted
  | Ok next =>
      match for_transition kind (effective_usage current) next with
      | Err _ => st_throw LArithmetic
      | Ok event =>
          d ← call (compare_and_set t (version current) next event);
          match d with
          | CasApplied =>
              mret (Some {| op_reservation := next; op_event := event; replayed := false |})
          | CasVersionConflict => mret None
          | CasNotFound => st_throw LCorruptState
          end
      end
  end.

Definition ensure_dispatched_requests_are_preserved (actual : UsageBreakdown)
    : result LedgerError unit :=
  preserved ← map_err (fun _ => LArithmetic) (includes_dispatched_request actual);
  guard_err (negb preserved) LUnderreportedUsage.

(** What one iteration does with the reservation it loaded: answer a duplicate,
    fail, or try one transition. *)
Inductive plan := PReplay | PFail (e : LedgerError) | PMove (s : ReservationState) (k : LedgerEventKind).

Definition commit_plan (evidence : UsageEvidence) (current : Reservation) : plan :=
  match match evidence with
        | Actual actual => ensure_dispatched_requests_are_preserved actual
        | _ => Ok tt
        end with
  | Err e => PFail e
  | Ok _ =>
      match state current with
      | Committed existing =>
          if bool_decide (existing = evidence) then PReplay else PFail LTransitionConflict
      | Reconciled actual =>
          match evidence with
          | Actual provided =>
              if bool_decide (provided = actual) then PReplay else PFail LTransitionConflict
          | _ => PFail LTransitionConflict
          end
      | Reserved =>
          PMove (match evidence with
                 | Actual actual => Reconciled actual
                 | Missing => Committed Missing
                 | Ambiguous observed => Committed (Ambiguous observed)
                 end) EvCommitted
      | Released => PFail LTransitionConflict
      end
  end.

Definition reconcile_plan (actual : UsageBreakdown) (current : Reservation) : plan :=
  match ensure_dispatched_requests_are_preserved actual with
  | Err e => PFail e
  | Ok _ =>
      match state current with
      | Reconciled existing =>
          if bool_decide (existing = actual) then PReplay else PFail LTransitionConflict
      | Committed _ => PMove (Reconciled actual) EvReconciled
      | Reserved | Released => PFail LTransitionConflict
      end
  end.

Definition release_plan (current : Reservation) : plan :=
  match state current with
  | Released => PReplay
  | Reserved => PMove Released EvReleased
  | Committed _ | Reconciled _ => PFail LTransitionConflict
  end.

(** The bounded compare-and-set loop the three transitions share. *)
Fixpoint attempts (n : nat) (t i : string) (decide_plan : Reservation -> plan)
    : ST shared LedgerError LedgerOperation :=
  match n with
  | O => st_throw LConcurrentModification
  | Datatypes.S n' =>
      current ← load_required t i;
      match decide_plan current with
      | PReplay => replay t current
      | PFail e => st_throw e
      | PMove s k =>
          o ← apply_transition t current s k;
          match o with
          | Some operation => mret operation
          | None => attempts n' t i decide_plan
          end
      end
  end.

Definition commit (t i : string) (evidence : UsageEvidence) : ST shared LedgerError LedgerOperation :=
  attempts MAX_COMPARE_AND_SET_ATTEMPTS t i (commit_plan evidence).

Definition reconcile (t i : string) (actual : UsageBreakdown) : ST shared LedgerError LedgerOperation :=
  match checked_total actual with
  | Err _ => st_throw LArithmetic
  | Ok _ => attempts MAX_COMPARE_AND_SET_ATTEMPTS t i (reconcile_plan actual)
  end.

Definition release (t i : string) : ST shared LedgerError LedgerOperation :=
  attempts MAX_COMPARE_AND_SET_ATTEMPTS t i release_plan.
End service.
Arguments shared S : clear implicits.

(** ** Rely and guarantee *)
Section correctness.
Context {S : Type} `{LawfulRepository S}.
Implicit Types (w : shared S).

(** Rivals use the store through the contract. *)
Definition respectful (f : S -> S) : Prop :=
  forall s, healthy s -> healthy (f s)
    /\ evolves (stored s) (stored (f s)) (history s) (history (f s)).

(** A world we may start from, and how worlds evolve. *)
Definition sound w : Prop := healthy (store w) /\ Forall respectful (rivals w).
Definition follows w w' : Prop :=
  evolves (stored (store w)) (stored (store w')) (history (store w)) (history (store w')).

Lemma follows_refl w : follows w w.
Proof. apply evolves_refl. Qed.
Lemma follows_trans w1 w2 w3 : follows w1 w2 -> follows w2 w3 -> follows w1 w3.
Proof. apply evolves_trans. Qed.

Lemma arrive_sound w : sound w -> sound (arrive w) /\ follows w (arrive w).
Proof.
  intros [Hh Hr]. unfold arrive. destruct (rivals w) as [|f fs] eqn:E.
  - split; [split; [done|by rewrite E]|apply follows_refl].
  - inversion Hr as [|? ? Hf Hfs]; subst. destruct (Hf _ Hh) as [? ?]. done.
Qed.

(** What an operation may rely on and must guarantee. *)
Definition guarantees {A} (m : ST (shared S) LedgerError A) : Prop :=
  forall w res w', sound w -> m w = (res, w') -> sound w' /\ follows w w'.

Lemma guarantees_ret {A} (a : A) : guarantees (mret a).
Proof. intros w res w' Hs [= <- <-]. split; [done|apply follows_refl]. Qed.

Lemma guarantees_throw {A} e : guarantees (st_throw (A := A) e).
Proof. intros w res w' Hs [= <- <-]. split; [done|apply follows_refl]. Qed.

Lemma guarantees_bind {A B} (m : ST (shared S) LedgerError A) (f : A -> ST (shared S) LedgerError B) :
  guarantees m -> (forall a, guarantees (f a)) -> guarantees (m ≫= f).
Proof.
  intros Hm Hf w res w' Hs Hb. unfold mbind, st_bind in Hb.
  destruct (m w) as [[a|e] w1] eqn:E.
  - destruct (Hm _ _ _ Hs E) as [? ?]. destruct (Hf a _ _ _ ltac:(done) Hb) as [? ?].
    split; [done|]. by eapply follows_trans.
  - simplify_eq. by eapply Hm.
Qed.

Lemma guarantees_query {A} (f : S -> result RepositoryError A) : guarantees (query f).
Proof. intros w res w' Hs [= <- <-]. by apply arrive_sound. Qed.

(** Some state of the run stored [cur] under the key. *)
Definition seen w w' (t i : string) (cur : Reservation) : Prop :=
  exists w1, sound w1 /\ follows w w1 /\ follows w1 w' /\ stored (store w1) !! (t, i) = Some cur.

Lemma seen_before w0 w w' t i cur : follows w0 w -> seen w w' t i cur -> seen w0 w' t i cur.
Proof. intros Hf (w1 & ? & ? & ? & ?). exists w1. split_and!; try done. by eapply follows_trans. Qed.

(** Some state of the run was unavailable. *)
Definition outage w w' : Prop :=
  exists w1, sound w1 /\ follows w w1 /\ follows w1 w' /\ ~ available (store w1).

Lemma outage_before w0 w w' : follows w0 w -> outage w w' -> outage w0 w'.
Proof. intros Hf (w1 & ? & ? & ? & ?). exists w1. split_and!; try done. by eapply follows_trans. Qed.

(** How a settled call ends: with the answer to a duplicate, with one applied
    transition that is now stored together with its event, or with an error that
    its plan, the absence of the reservation, the arithmetic, or an unavailable
    store explains. *)
Inductive settled (decide_plan : Reservation -> plan) (t i : string) w w'
    : result LedgerError LedgerOperation -> Prop :=
| settled_replay cur e :
    seen w w' t i cur -> decide_plan cur = PReplay ->
    history (store w') !! (t, i, version cur) = Some e ->
    settled decide_plan t i w w' (Ok {| op_reservation := cur; op_event := e; replayed := true |})
| settled_move cur s k next e :
    seen w w' t i cur -> decide_plan cur = PMove s k -> transition cur s = Ok next ->
    for_transition k (effective_usage cur) next = Ok e ->
    stored (store w') !! (t, i) = Some next ->
    history (store w') !! (t, i, version next) = Some e ->
    settled decide_plan t i w w' (Ok {| op_reservation := next; op_event := e; replayed := false |})
| settled_missing :
    (forall cur, stored (store w) !! (t, i) = Some cur -> False) ->
    settled decide_plan t i w w' (Err LNotFound)
| settled_fail cur e :
    seen w w' t i cur -> decide_plan cur = PFail e -> settled decide_plan t i w w' (Err e)
| settled_overflow cur s k :
    seen w w' t i cur -> decide_plan cur = PMove s k ->
    settled decide_plan t i w w' (Err LArithmetic)
| settled_outage :
    outage w w' -> settled decide_plan t i w w' (Err (LRepository Unavailable)).

Lemma settled_before decide_plan t i w0 w w' res :
  follows w0 w -> settled decide_plan t i w w' res -> settled decide_plan t i w0 w' res.
Proof.
  intros Hf Hs. destruct Hs.
  - econstructor; eauto using seen_before.
  - eapply settled_move; eauto using seen_before.
  - apply settled_missing. intros cur Hcur.
    destruct (ev_reservations _ _ _ _ Hf _ _ Hcur) as (cur' & ? & _). eauto.
  - eapply settled_fail; eauto using seen_before.
  - eapply settled_overflow; eauto using seen_before.
  - apply settled_outage. by eapply outage_before.
Qed.

Lemma load_required_spec t i w res w' :
  sound w -> load_required t i w = (res, w') ->
  sound w' /\ follows w w' /\
  match res with
  | Ok cur => stored (store w') !! (t, i) = Some cur
  | Err e => e = LNotFound /\ stored (store w') !! (t, i) = None \/ e = LRepository Unavailable /\ outage w w'
  end.
Proof.
  intros Hs Hl. destruct (arrive_sound w Hs) as [Hs1 Hf1].
  unfold load_required, query, mbind, st_bind in Hl.
  destruct (load_stored _ t i (proj1 Hs1)) as [E|[Hna E]]; rewrite E in Hl; simpl in Hl.
  2:{ injection Hl as <- <-. split_and!; [apply Hs1..|done|]. right. split; [done|].
      exists (arrive w). split_and!; [apply Hs1..|done|apply follows_refl|done]. }
  clear E. destruct (stored (store (arrive w)) !! (t, i)) as [r|] eqn:E; unfold mret, st_ret, st_throw in Hl;
    simplify_eq; split_and!; auto.
Qed.

Lemma replay_spec t i cur w res w' :
  sound w -> stored (store w) !! (t, i) = Some cur -> replay t cur w = (res, w') ->
  sound w' /\ follows w w' /\
  (res = Err (LRepository Unavailable) /\ outage w w' \/ exists e,
    res = Ok {| op_reservation := cur; op_event := e; replayed := true |}
    /\ history (store w') !! (t, i, version cur) = Some e).
Proof.
  intros Hs Hcur Hr. destruct (arrive_sound w Hs) as [Hs1 Hf1].
  destruct (stored_healthy _ _ _ _ (proj1 Hs) Hcur) as (_ & Hid & _ & _ & [e He]).
  pose proof (lookup_weaken _ _ _ _ He (ev_history _ _ _ _ Hf1)) as He1.
  unfold replay, query, mbind, st_bind in Hr.
  destruct (event_at_history _ t (id cur) (version cur) (proj1 Hs1)) as [E|[Hna E]]; rewrite E in Hr; simpl in Hr.
  2:{ injection Hr as <- <-. split_and!; [apply Hs1..|done|]. left. split; [done|].
      exists (arrive w). split_and!; [apply Hs1..|done|apply follows_refl|done]. }
  rewrite Hid, He1 in Hr. simpl in Hr.
  unfold mret, st_ret in Hr. simplify_eq. eauto 10.
Qed.

Lemma for_transition_wf kind prev r e :
  breakdown_wf (estimate r) -> state_wf (state r) -> for_transition kind prev r = Ok e ->
  reservation_wf r.
Proof.
  intros He Hst Hf. apply for_transition_ok in Hf as (_ & _ & _ & _ & _ & _ & Hd).
  unfold UsageDelta_between in Hd. inv_ok. constructor; [done|done|]. intros m.
  match goal with Hc : checked_total (effective_usage r) = Ok ?v |- _ =>
    by apply (proj1 (checked_total_ok _ v (effective_usage_wf r He Hst)) Hc m) end.
Qed.

(** One compare-and-set after a load: it applies, or a rival moved on. *)
Lemma apply_transition_spec t i cur s k w res w' :
  sound w -> stored (store w) !! (t, i) = Some cur ->
  valid_transition (state cur) s k = true -> state_wf s ->
  apply_transition t cur s k w = (res, w') ->
  sound w' /\ follows w w' /\
  match res with
  | Ok (Some op) => exists next e, transition cur s = Ok next
      /\ for_transition k (effective_usage cur) next = Ok e
      /\ op = {| op_reservation := next; op_event := e; replayed := false |}
      /\ stored (store w') !! (t, i) = Some next
      /\ history (store w') !! (t, i, version next) = Some e
  | Ok None => exists cur', stored (store w') !! (t, i) = Some cur' /\ version cur' <> version cur
      /\ rtc lifecycle (state cur) (state cur')
  | Err e => e = LArithmetic \/ e = LRepository Unavailable /\ outage w w'
  end.
Proof.
  intros Hs Hcur Hvt Hsw Ha. unfold apply_transition in Ha.
  destruct (stored_healthy _ _ _ _ (proj1 Hs) Hcur) as (Ht & Hid & Hcw & Hver & _).
  apply version_of_nonneg in Hver.
  destruct (transition cur s) as [next|] eqn:Htr.
  2:{ exfalso. assert (exists n, transition cur s = Ok n) as [n Hok]; [|congruence].
      eexists. apply transition_ok. split; [unfold u64_max; lia|reflexivity]. }
  pose proof (proj1 (transition_ok _ _ _) Htr) as [_ Hn].
  assert (state next = s /\ id next = id cur /\ estimate next = estimate cur) as (Hst & Hidn & Hest)
    by (by rewrite Hn).
  destruct (for_transition k (effective_usage cur) next) as [e|] eqn:Hft.
  2:{ injection Ha as <- <-. split_and!; [apply Hs..|apply follows_refl|by left]. }
  assert (reservation_wf next) as Hnw.
  { eapply for_transition_wf; [|by rewrite Hst|done]. rewrite Hest. apply Hcw. }
  destruct (arrive_sound w Hs) as [Hs1 Hf1].
  destruct (ev_reservations _ _ _ _ Hf1 _ _ Hcur) as (cur1 & Hcur1 & _ & Hlife & _ & Heq & _).
  unfold call, mbind, st_bind in Ha. rewrite <- Hst in Htr, Hvt.
  assert (forall s', ~ available (store (arrive w)) -> compare_and_set t (version cur) next e (store (arrive w)) = (Err Unavailable, s') ->
    sound {| store := s'; rivals := rivals (arrive w) |} /\ follows w {| store := s'; rivals := rivals (arrive w) |}
    /\ outage w {| store := s'; rivals := rivals (arrive w) |}) as Hout.
  { intros s' Hna Hc. destruct (cas_spec _ _ _ _ _ _ _ (proj1 Hs1) Hnw Hc) as (Hh' & Hev & _).
    split; [split; [done|apply Hs1]|]. split; [by eapply evolves_trans|]. exists (arrive w). by split_and!; [apply Hs1..|done|done|]. }
  destruct (decide (version cur1 = version cur)) as [Hv|Hv].
  - rewrite (Heq Hv) in Hcur1. rewrite <- Hid in Hcur1.
    destruct (cas_accepts _ _ _ _ _ _ (proj1 Hs1) Hcur1 Htr Hnw Hvt Hft) as [s' [Hc|[Hna Hc]]].
    2:{ rewrite Hc in Ha. injection Ha as <- <-. destruct (Hout s' Hna Hc) as (? & ? & ?). auto. }
    rewrite Hc in Ha. unfold mret, st_ret in Ha. simpl in Ha. injection Ha as <- <-.
    destruct (cas_spec _ _ _ _ _ _ _ (proj1 Hs1) Hnw Hc)
      as (Hh' & Hev & x & _ & _ & _ & _ & _ & Hst' & Hhi').
    split; [split; [done|apply Hs1]|]. split; [by eapply evolves_trans|].
    exists next, e. simpl. rewrite Hst', Hhi', <- Hid, <- Hidn, !lookup_insert_eq.
    split_and!; done.
  - rewrite <- Hid in Hcur1.
    destruct (cas_conflicts _ _ _ _ _ _ _ (proj1 Hs1) Hcur1 Hv Ht Htr Hft) as [Hc|[Hna [s' Hc]]]; rewrite Hc in Ha.
    2:{ injection Ha as <- <-. destruct (Hout s' Hna Hc) as (? & ? & ?). auto. }
    unfold mret, st_ret in Ha. simpl in Ha. injection Ha as <- <-.
    split; [done|]. split; [done|]. exists cur1. simpl. by rewrite <- Hid.
Qed.

(** A plan only makes valid moves, and none again once the reservation moved. *)
Record plan_ok (decide_plan : Reservation -> plan) : Prop := {
  po_valid : forall cur s k, decide_plan cur = PMove s k ->
    valid_transition (state cur) s k = true /\ state_wf s;
  po_once : forall cur s k cur', decide_plan cur = PMove s k -> tc lifecycle (state cur) (state cur') ->
    forall s' k', decide_plan cur' <> PMove s' k';
}.

(** An attempt that finds a reservation its plan will not move settles at once. *)
Lemma attempts_no_move decide_plan n t i cur0 w res w' :
  sound w -> stored (store w) !! (t, i) = Some cur0 ->
  (forall cur, rtc lifecycle (state cur0) (state cur) -> forall s k, decide_plan cur <> PMove s k) ->
  attempts (Datatypes.S n) t i decide_plan w = (res, w') ->
  sound w' /\ follows w w' /\ settled decide_plan t i w w' res.
Proof.
  intros Hs Hcur0 Hno Hrun. cbn [attempts] in Hrun. unfold mbind at 1, st_bind at 1 in Hrun.
  destruct (load_required t i w) as [[cur|e] w1] eqn:Hl;
    destruct (load_required_spec _ _ _ _ _ Hs Hl) as (Hs1 & Hf1 & Hcur);
    destruct (ev_reservations _ _ _ _ Hf1 _ _ Hcur0) as (c & Hc & _ & Hlife & _).
  - rewrite Hcur in Hc. injection Hc as <-.
    destruct (decide_plan cur) as [|e|s k] eqn:Ep.
    + destruct (replay_spec _ _ _ _ _ _ Hs1 Hcur Hrun) as (Hs2 & Hf2 & [[-> Ho]|(e & -> & He)]);
        (split; [done|]; split; [by eapply follows_trans|]);
        [apply settled_outage; by eapply outage_before|].
      eapply settled_replay; [exists w1; done|done|done].
    + injection Hrun as <- <-. split; [done|]. split; [done|].
      eapply settled_fail; [exists w1; split_and!; [apply Hs1..|done|apply follows_refl|done]|done].
    + destruct (Hno _ Hlife s k Ep).
  - destruct Hcur as [[_ Hnone]|[-> Ho]]; [congruence|]. injection Hrun as <- <-.
    split_and!; [apply Hs1..|done|by apply settled_outage].
Qed.

(** A conflict means that the reservation has left the state it was loaded in. *)
Lemma conflict_moved t i cur cur' s k w1 w2 :
  sound w1 -> sound w2 ->
  stored (store w1) !! (t, i) = Some cur -> stored (store w2) !! (t, i) = Some cur' ->
  valid_transition (state cur) s k = true -> version cur' <> version cur ->
  rtc lifecycle (state cur) (state cur') -> tc lifecycle (state cur) (state cur').
Proof.
  intros Hs1 Hs2 Hcur Hcur' Hvt Hv Hlife. apply rtc_tc in Hlife as [Heq|?]; [|done].
  exfalso. apply Hv.
  destruct (stored_healthy _ _ _ _ (proj1 Hs1) Hcur) as (_ & _ & _ & V1 & _).
  destruct (stored_healthy _ _ _ _ (proj1 Hs2) Hcur') as (_ & _ & _ & V2 & _).
  rewrite <- Heq in V2. destruct (state cur); simpl in *; try lia.
Qed.

(** Two attempts always settle: after a conflict the reservation has left the
    state the plan moves from. *)
Lemma attempts_settle decide_plan n t i w res w' :
  plan_ok decide_plan -> sound w ->
  attempts (Datatypes.S (Datatypes.S n)) t i decide_plan w = (res, w') ->
  sound w' /\ follows w w' /\ settled decide_plan t i w w' res.
Proof.
  intros Hp Hs Hrun.
  remember (Datatypes.S n) as n1 eqn:En1. cbn [attempts] in Hrun.
  unfold mbind at 1, st_bind at 1 in Hrun.
  destruct (load_required t i w) as [[cur|e] w1] eqn:Hl;
    destruct (load_required_spec _ _ _ _ _ Hs Hl) as (Hs1 & Hf1 & Hcur).
  2:{ destruct Hcur as [[-> Hnone]|[-> Ho]]; injection Hrun as <- <-; (split; [done|]; split; [done|]); [|by apply settled_outage].
      apply settled_missing. intros c Hc.
      destruct (ev_reservations _ _ _ _ Hf1 _ _ Hc) as (c' & Hc' & _). congruence. }
  assert (seen w w1 t i cur) as Hseen.
  { exists w1. split_and!; [apply Hs1..|done|apply follows_refl|done]. }
  destruct (decide_plan cur) as [|e|s k] eqn:Ep.
  - destruct (replay_spec _ _ _ _ _ _ Hs1 Hcur Hrun) as (Hs2 & Hf2 & [[-> Ho]|(e & -> & He)]);
      (split; [done|]; split; [by eapply follows_trans|]);
      [apply settled_outage; by eapply outage_before|].
    eapply settled_replay; [exists w1; done|done|done].
  - injection Hrun as <- <-. split; [done|]. split; [done|]. by eapply settled_fail.
  - destruct (po_valid _ Hp _ _ _ Ep) as [Hvt Hsw].
    unfold mbind, st_bind in Hrun.
    destruct (apply_transition t cur s k w1) as [[[op|]|e] w2] eqn:Ha;
      destruct (apply_transition_spec _ _ _ _ _ _ _ _ Hs1 Hcur Hvt Hsw Ha) as (Hs2 & Hf2 & Hres).
    + destruct Hres as (next & e & Htr & Hft & -> & Hst & Hhi). injection Hrun as <- <-.
      split; [done|]. split; [by eapply follows_trans|].
      eapply settled_move; [exists w1; done|done..].
    + destruct Hres as (cur' & Hcur' & Hv & Hlife).
      pose proof (conflict_moved _ _ _ _ _ _ _ _ Hs1 Hs2 Hcur Hcur' Hvt Hv Hlife) as Htc.
      rewrite En1 in Hrun.
      destruct (attempts_no_move decide_plan n t i cur' w2 res w' Hs2 Hcur') as (Hs3 & Hf3 & Hset).
      * intros c Hc. apply (po_once _ Hp cur s k); [done|]. by eapply tc_rtc_r.
      * done.
      * split; [done|]. split; [by apply (follows_trans _ w1); [|apply (follows_trans _ w2)]|].
        eapply settled_before; [|done]. by eapply follows_trans.
    + injection Hrun as <- <-. split; [done|]. split; [by eapply follows_trans|].
      destruct Hres as [->|[-> Ho]]; [eapply settled_overflow; [exists w1; done|done]|].
      apply settled_outage. by eapply outage_before.
Qed.

Lemma lifecycle_tc_progress s s' : tc lifecycle s s' -> progress s < progress s'.
Proof.
  induction 1 as [s s' Hl|s s1 s' Hl _ IH].
  - destruct Hl; simpl; lia.
  - assert (progress s < progress s1) by (destruct Hl; simpl; lia). lia.
Qed.

Lemma commit_plan_ok evidence : evidence_wf evidence -> plan_ok (commit_plan evidence).
Proof.
  intros Hw. split.
  - intros cur s k. unfold commit_plan. destruct evidence; simpl in Hw;
      repeat case_match; intros [= <- <-]; done.
  - intros cur s k cur' Hp Htc s' k' Hp'. apply lifecycle_tc_progress in Htc.
    unfold commit_plan in Hp, Hp'.
    destruct (match evidence with Actual _ => _ | _ => _ end); [|done].
    destruct (state cur); simpl in Htc; repeat case_match; try done; simpl in Htc; lia.
Qed.

Lemma reconcile_plan_ok actual : breakdown_wf actual -> plan_ok (reconcile_plan actual).
Proof.
  intros Hw. split.
  - intros cur s k. unfold reconcile_plan. repeat case_match; intros [= <- <-]; done.
  - intros cur s k cur' Hp Htc s' k' Hp'. apply lifecycle_tc_progress in Htc.
    unfold reconcile_plan in Hp, Hp'.
    destruct (ensure_dispatched_requests_are_preserved actual); [|done].
    destruct (state cur); simpl in Htc; repeat case_match; try done; simpl in Htc; lia.
Qed.

Lemma release_plan_ok : plan_ok release_plan.
Proof.
  split.
  - intros cur s k. unfold release_plan. case_match; intros [= <- <-]; done.
  - intros cur s k cur' Hp Htc s' k' Hp'. apply lifecycle_tc_progress in Htc.
    unfold release_plan in Hp, Hp'. destruct (state cur); simpl in Htc;
      case_match; try done; simpl in Htc; lia.
Qed.

(** The plans fail for reasons of their own only. *)
Definition planned_error (e : LedgerError) : Prop :=
  e = LTransitionConflict \/ e = LArithmetic \/ e = LUnderreportedUsage.

Lemma ensure_dispatched_error actual e :
  ensure_dispatched_requests_are_preserved actual = Err e -> planned_error e.
Proof.
  unfold ensure_dispatched_requests_are_preserved, planned_error.
  destruct (includes_dispatched_request actual) as [b|]; simpl; [|by intros [= <-]; auto].
  destruct b; simpl; [done|]. intros [= <-]; auto.
Qed.

Lemma commit_plan_error evidence cur e : commit_plan evidence cur = PFail e -> planned_error e.
Proof.
  unfold commit_plan. destruct (match evidence with Actual _ => _ | _ => _ end) eqn:E.
  - unfold planned_error. repeat case_match; intros [= <-]; auto.
  - intros [= <-]. destruct evidence; try done. by eapply ensure_dispatched_error.
Qed.

Lemma reconcile_plan_error actual cur e : reconcile_plan actual cur = PFail e -> planned_error e.
Proof.
  unfold reconcile_plan. destruct (ensure_dispatched_requests_are_preserved actual) eqn:E.
  - unfold planned_error. repeat case_match; intros [= <-]; auto.
  - intros [= <-]. by eapply ensure_dispatched_error.
Qed.

Lemma release_plan_error cur e : release_plan cur = PFail e -> planned_error e.
Proof. unfold release_plan, planned_error. case_match; intros [= <-]; auto. Qed.

Lemma settled_errors decide_plan t i w w' e :
  (forall cur e, decide_plan cur = PFail e -> planned_error e) ->
  settled decide_plan t i w w' (Err e) ->
  e = LNotFound \/ planned_error e \/ e = LRepository Unavailable /\ outage w w'.
Proof.
  intros Hp Hs. inversion Hs; subst; eauto. right. left. unfold planned_error. auto.
Qed.

Definition transition_call : Type := string -> string -> ST (shared S) LedgerError LedgerOperation.

(** The three calls on one reservation, with well-formed arguments. *)
Inductive is_transition_call : transition_call -> Prop :=
| call_commit evidence : evidence_wf evidence -> is_transition_call (fun t i => commit t i evidence)
| call_reconcile actual : breakdown_wf actual -> is_transition_call (fun t i => reconcile t i actual)
| call_release : is_transition_call release.

(** C4. The compare-and-set loop always settles: under every interleaving with
    rivals that respect the repository's contract, whenever the storage is or is not
    available, a commit, reconcile or release call keeps the store healthy and only moves
    it forward, and it ends with a result, with one of the four expected errors, or, if
    the storage was unavailable at some moment of the call, with that error; it never runs
    out of its sixteen attempts, never exhausts the version, and never finds corrupt
    state. *)
Theorem transition_calls_settle f t i w res w' :
  is_transition_call f -> sound w -> f t i w = (res, w') ->
  sound w' /\ follows w w' /\
  match res with
  | Ok op => stored (store w') !! (t, i) <> None
      /\ history (store w') !! (t, i, version (op_reservation op)) = Some (op_event op)
  | Err e => e = LNotFound \/ e = LTransitionConflict \/ e = LArithmetic \/ e = LUnderreportedUsage
      \/ e = LRepository Unavailable /\ outage w w'
  end.
Proof.
  intros Hf Hs Hrun.
  assert (forall dp, plan_ok dp -> (forall cur e, dp cur = PFail e -> planned_error e) ->
    attempts MAX_COMPARE_AND_SET_ATTEMPTS t i dp w = (res, w') ->
    sound w' /\ follows w w' /\
    match res with
    | Ok op => stored (store w') !! (t, i) <> None
        /\ history (store w') !! (t, i, version (op_reservation op)) = Some (op_event op)
    | Err e => e = LNotFound \/ e = LTransitionConflict \/ e = LArithmetic \/ e = LUnderreportedUsage
        \/ e = LRepository Unavailable /\ outage w w'
    end) as Hall.
  { intros dp Hp He Ha.
    destruct (attempts_settle dp 14 t i w res w' Hp Hs Ha) as (? & ? & Hset).
    split; [done|]. split; [done|]. destruct res as [op|e].
    2:{ apply settled_errors in Hset; [|done]. unfold planned_error in Hset. tauto. }
    inversion Hset as [cur e (w1 & _ & _ & Hf1 & Hc) _ Hh|cur s k next e _ _ _ _ Hst Hh| | | |]; subst.
    - destruct (ev_reservations _ _ _ _ Hf1 _ _ Hc) as (c & Hc' & _). split; [congruence|done].
    - split; [congruence|done]. }
  destruct Hf as [evidence Hw|actual Hw|].
  - apply (Hall (commit_plan evidence)); [by apply commit_plan_ok|apply commit_plan_error|done].
  - unfold reconcile in Hrun. destruct (checked_total actual).
    + apply (Hall (reconcile_plan actual)); [by apply reconcile_plan_ok|apply reconcile_plan_error|done].
    + injection Hrun as <- <-. split_and!; [apply Hs..|apply follows_refl|auto].
  - apply (Hall release_plan); [apply release_plan_ok|apply release_plan_error|done].
Qed.

(** ** One winner *)
Lemma seen_state w w' t i r cur :
  stored (store w) !! (t, i) = Some r -> seen w w' t i cur ->
  rtc lifecycle (state r) (state cur) /\ (state cur = state r -> cur = r).
Proof.
  intros Hr (w1 & _ & Hf & _ & Hc). destruct (ev_reservations _ _ _ _ Hf _ _ Hr)
    as (r' & Hr' & _ & ? & _ & _ & ?). rewrite Hc in Hr'. by injection Hr' as <-.
Qed.

(** The reservation carries dispatched work, or was given back. *)
Definition incurred (s : ReservationState) : Prop :=
  match s with Committed _ | Reconciled _ => True | _ => False end.

Lemma lifecycle_incurred s s' : rtc lifecycle s s' -> incurred s -> incurred s'.
Proof. induction 1 as [|s s1 s' Hl _ IH]; [done|]. intros Hi. apply IH. by destruct Hl. Qed.

Lemma commit_incurred t i evidence w op w' :
  evidence_wf evidence -> sound w -> commit t i evidence w = (Ok op, w') ->
  exists r, stored (store w') !! (t, i) = Some r /\ incurred (state r).
Proof.
  intros Hw Hs Hrun.
  destruct (attempts_settle _ 14 t i w _ w' (commit_plan_ok _ Hw) Hs Hrun) as (_ & _ & Hset).
  inversion Hset as [cur e (w1 & _ & _ & Hf & Hc) Hp _|cur s k next e _ Hp Htr _ Hst _| | | |]; subst.
  - destruct (ev_reservations _ _ _ _ Hf _ _ Hc) as (r & Hr & _ & Hl & _). exists r.
    split; [done|]. eapply lifecycle_incurred; [done|]. unfold commit_plan in Hp.
    by repeat case_match.
  - exists next. split; [done|]. apply transition_ok in Htr as [_ ->]. simpl.
    unfold commit_plan in Hp. repeat case_match; simplify_eq; done.
Qed.

Lemma release_released t i w op w' :
  sound w -> release t i w = (Ok op, w') ->
  exists r, stored (store w') !! (t, i) = Some r /\ state r = Released.
Proof.
  intros Hs Hrun.
  destruct (attempts_settle _ 14 t i w _ w' release_plan_ok Hs Hrun) as (_ & _ & Hset).
  inversion Hset as [cur e (w1 & _ & _ & Hf & Hc) Hp _|cur s k next e _ Hp Htr _ Hst _| | | |]; subst.
  - destruct (ev_reservations _ _ _ _ Hf _ _ Hc) as (r & Hr & _ & Hl & _). exists r.
    split; [done|]. unfold release_plan in Hp. destruct (state cur) eqn:E; try done.
    by apply (lifecycle_final Released); [|left].
  - exists next. split; [done|]. apply transition_ok in Htr as [_ ->]. simpl.
    unfold release_plan in Hp. by repeat case_match; simplify_eq.
Qed.

(** A commit and a release of the same reservation exclude each other, for
    good and under every interleaving: once a commit has returned a result, any
    later release is refused with a transition conflict, or fails on an unavailable
    store; once a release has returned a result, no later commit succeeds. *)
Theorem commit_release_exclusive t i evidence w1 w2 w3 :
  evidence_wf evidence -> sound w1 -> sound w2 ->
  (forall w0 op res, sound w0 -> commit t i evidence w0 = (Ok op, w1) -> follows w1 w2 ->
     release t i w2 = (res, w3) -> res = Err LTransitionConflict \/ res = Err (LRepository Unavailable))
  /\ (forall w0 op res, sound w0 -> release t i w0 = (Ok op, w1) -> follows w1 w2 ->
     commit t i evidence w2 = (res, w3) -> exists e, res = Err e).
Proof.
  intros Hw Hs1 Hs2. split; intros w0 op res Hs0 Hfirst Hf Hsecond.
  - destruct (commit_incurred _ _ _ _ _ _ Hw Hs0 Hfirst) as (r & Hr & Hi).
    destruct (ev_reservations _ _ _ _ Hf _ _ Hr) as (r2 & Hr2 & _ & Hl2 & _).
    destruct (attempts_settle _ 14 t i w2 _ w3 release_plan_ok Hs2 Hsecond) as (_ & _ & Hset).
    assert (forall cur, seen w2 w3 t i cur -> release_plan cur = PFail LTransitionConflict) as Hfail.
    { intros cur Hseen. destruct (seen_state _ _ _ _ _ _ Hr2 Hseen) as [Hl _].
      pose proof (lifecycle_incurred _ _ Hl (lifecycle_incurred _ _ Hl2 Hi)) as Hi'.
      unfold release_plan. by destruct (state cur). }
    inversion Hset as [cur e Hseen Hp _|cur s k next e Hseen Hp _ _ _ _|Hno|cur e Hseen Hp|
      cur s k Hseen Hp|]; subst; auto; try (rewrite (Hfail cur Hseen) in Hp; left; congruence); try (rewrite (Hfail cur Hseen) in Hp; congruence).
    by destruct (Hno _ Hr2).
  - destruct (release_released _ _ _ _ _ Hs0 Hfirst) as (r & Hr & Hst).
    destruct (ev_reservations _ _ _ _ Hf _ _ Hr) as (r2 & Hr2 & _ & Hl2 & _).
    destruct (attempts_settle _ 14 t i w2 _ w3 (commit_plan_ok _ Hw) Hs2 Hsecond) as (_ & _ & Hset).
    assert (forall cur, seen w2 w3 t i cur -> exists e, commit_plan evidence cur = PFail e) as Hfail.
    { intros cur Hseen. destruct (seen_state _ _ _ _ _ _ Hr2 Hseen) as [Hl _].
      assert (state r2 = Released) as Hst2.
      { rewrite Hst in Hl2. apply (lifecycle_final Released); [done|by left]. }
      assert (state cur = Released) as Hstc.
      { rewrite Hst2 in Hl. apply (lifecycle_final Released); [done|by left]. }
      unfold commit_plan. rewrite Hstc.
      destruct (match evidence with Actual _ => _ | _ => _ end); eauto. }
    inversion Hset as [cur e Hseen Hp _|cur s k next e Hseen Hp _ _ _ _|Hno|cur e Hseen Hp|
      cur s k Hseen Hp|]; subst; eauto; destruct (Hfail cur Hseen) as [? ?]; congruence.
Qed.

(** What a committed transition stores and charges: a non-duplicate commit
    found the reservation reserved, left everything but its state and version
    unchanged, and recorded the one event whose adjustment is, in every metric,
    the difference between the new accounted usage and the estimate. *)
Theorem commit_accounts t i evidence w op w' m :
  evidence_wf evidence -> sound w -> commit t i evidence w = (Ok op, w') -> replayed op = false ->
  stored (store w') !! (t, i) = Some (op_reservation op)
  /\ history (store w') !! (t, i, 1) = Some (op_event op)
  /\ exists cur, seen w w' t i cur /\ state cur = Reserved /\ same_identity cur (op_reservation op)
    /\ version (op_reservation op) = 1
    /\ state (op_reservation op) = match evidence with
         | Actual actual => Reconciled actual | e => Committed e end
    /\ delta_metric m (ev_adjustment (op_event op))
       = total_metric m (effective_usage (op_reservation op)) - total_metric m (estimate cur).
Proof.
  intros Hw Hs Hrun Hnew.
  destruct (attempts_settle _ 14 t i w _ w' (commit_plan_ok _ Hw) Hs Hrun) as (_ & _ & Hset).
  inversion Hset as [cur e|cur s k next e Hseen Hp Htr Hft Hst Hh| | | |]; subst; [done|].
  destruct (po_valid _ (commit_plan_ok _ Hw) _ _ _ Hp) as [_ Hsw].
  destruct Hseen as (w1 & Hs1 & Hf1 & Hf2 & Hc).
  destruct (stored_healthy _ _ _ _ (proj1 Hs1) Hc) as (_ & _ & Hcw & Hv & _).
  assert (state cur = Reserved /\ s = match evidence with
    | Actual actual => Reconciled actual | e => Committed e end) as [Hres Hnext].
  { unfold commit_plan in Hp. by repeat case_match; simplify_eq. }
  rewrite Hres in Hv. simpl in Hv. pose proof (proj1 (transition_ok _ _ _) Htr) as [_ Hn].
  assert (version next = 1 /\ state next = s /\ estimate next = estimate cur) as (Hv1 & Hs' & He')
    by (rewrite Hn; simpl; split_and!; lia || done).
  simpl. rewrite Hv1 in Hh. split_and!; try done. exists cur. split_and!; try done.
  - by exists w1.
  - by rewrite Hn.
  - congruence.
  - assert (effective_usage cur = estimate cur) as <- by (unfold effective_usage; by rewrite Hres).
    eapply for_transition_adjustment; [|eapply for_transition_wf; [|by rewrite Hs'|done]|done].
    + apply effective_usage_wf; apply Hcw.
    + rewrite He'. apply Hcw.
Qed.
End correctness.

(** ** A concrete run over the in-memory repository *)
Module ServiceFixture.
Definition rival (s : MemoryState) : MemoryState :=
  (memory_reserve (LedgerFixture.req "r9" "k9" 60) s).2.
Definition start : shared MemoryState :=
  {| store := LedgerFixture.first.2; rivals := [rival; rival] |}.
Definition committed := commit "acme" "r1" Missing start.

Lemma rival_respectful : respectful rival.
Proof.
  intros s Hs. apply (memory_reserve_spec s (LedgerFixture.req "r9" "k9" 60)
    (memory_reserve (LedgerFixture.req "r9" "k9" 60) s).1).
  - exact Hs.
  - apply LedgerFixture.req_wf.
  - unfold rival. apply surjective_pairing.
Qed.

Lemma start_sound : sound start.
Proof.
  split.
  - apply reachable_inv, LedgerFixture.first_reachable.
  - apply Forall_cons_2; [apply rival_respectful|].
    apply Forall_cons_2; [apply rival_respectful|apply Forall_nil_2].
Qed.

Definition next : Reservation :=
  {| id := "r1"; idempotency_key := "k1"; fingerprint := []; scope := LedgerFixture.sc;
     estimate := estimate LedgerFixture.r1; policies := [LedgerFixture.pol];
     state := Committed Missing; version := 1 |}.
Definition op : LedgerOperation :=
  match committed.1 with
  | Ok op => op
  | Err _ => {| op_reservation := next; op_event := LedgerFixture.e1; replayed := true |}
  end.

Lemma committed_run : commit "acme" "r1" Missing start = (Ok op, committed.2).
Proof. vm_compute. reflexivity. Qed.

Lemma committed_sound : sound committed.2.
Proof.
  destruct (attempts_settle (commit_plan Missing) 14 "acme" "r1" start (Ok op) committed.2
    (commit_plan_ok Missing I) start_sound committed_run) as [H _]. exact H.
Qed.

(** The answer of the compare-and-set is lost: the release is reported unavailable and is
    in the store nevertheless, and a second call answers it as a duplicate. *)
Definition cut (c : Connection) (s : Remote) : Remote := {| connection := c; remote := remote s |}.
Definition cut_start : shared Remote :=
  {| store := {| connection := Up; remote := LedgerFixture.first.2 |}; rivals := [cut Up; cut Deaf; cut Up] |}.
Lemma lost_answer : (release "acme" "r1" cut_start).1 = Err (LRepository Unavailable)
  /\ match (release "acme" "r1" (release "acme" "r1" cut_start).2).1 with Ok o => replayed o = true | Err _ => False end.
Proof. split; vm_compute; reflexivity. Qed.
End ServiceFixture.

Lemma transition_calls_settle_witness :
  sound (release "acme" "r1" ServiceFixture.start).2.
Proof.
  refine (proj1 (transition_calls_settle release "acme" "r1" ServiceFixture.start
    (release "acme" "r1" ServiceFixture.start).1 (release "acme" "r1" ServiceFixture.start).2
    call_release ServiceFixture.start_sound _)).
  apply surjective_pairing.
Defined.

Lemma commit_release_exclusive_witness :
  (release "acme" "r1" ServiceFixture.committed.2).1 = Err LTransitionConflict
  \/ (release "acme" "r1" ServiceFixture.committed.2).1 = Err (LRepository Unavailable).
Proof.
  refine (proj1 (commit_release_exclusive "acme" "r1" Missing ServiceFixture.committed.2
    ServiceFixture.committed.2 (release "acme" "r1" ServiceFixture.committed.2).2
    I ServiceFixture.committed_sound ServiceFixture.committed_sound)
    ServiceFixture.start ServiceFixture.op _ ServiceFixture.start_sound
    ServiceFixture.committed_run (follows_refl _) _).
  apply surjective_pairing.
Defined.

Lemma commit_accounts_witness :
  stored (store ServiceFixture.committed.2) !! ("acme"%string, "r1"%string)
    = Some (op_reservation ServiceFixture.op)
  /\ exists cur, delta_metric ConcurrentStreams (ev_adjustment (op_event ServiceFixture.op))
       = total_metric ConcurrentStreams (effective_usage (op_reservation ServiceFixture.op))
         - total_metric ConcurrentStreams (estimate cur).
Proof.
  destruct (commit_accounts "acme" "r1" Missing ServiceFixture.start ServiceFixture.op
    ServiceFixture.committed.2 ConcurrentStreams I ServiceFixture.start_sound
    ServiceFixture.committed_run eq_refl) as (H1 & _ & cur & _ & _ & _ & _ & _ & H).
  split; [exact H1|]. exists cur. exact H.
Defined.
