(* ===== verification/Stream.v ===== *)
(** * Canonical model streams: [crates/llm-streaming/src/event.rs]

    The assembler that sequences one request's stream, the validator that replays
    it, and the byte-counting writers.  JSON encoding is serde's: [to_writer] gives
    the lengths of the chunks [serde_json::to_writer] writes for a value, or
    [None] where it fails.  Output parts keep the fields the stream reads; the
    rest of a part is its text, opaque here. *)
From S2P Require Import Prelude Machine Text.
#[local] Open Scope string_scope.
#[local] Open Scope Z_scope.

(** ** Limits *)
Record StreamLimits := {
  max_events : Z;
  max_parts : Z;
  max_public_items : Z;
  max_text_bytes : Z;
  max_event_bytes : Z;
}.

(** [StreamLimits::new]: the event ceiling starts as the text ceiling. *)
Definition StreamLimits_new (events parts items text : Z) : StreamLimits :=
  {| max_events := events; max_parts := parts; max_public_items := items;
     max_text_bytes := text; max_event_bytes := text |}.
Definition with_max_event_bytes (l : StreamLimits) (n : Z) : StreamLimits :=
  {| max_events := max_events l; max_parts := max_parts l; max_public_items := max_public_items l;
     max_text_bytes := max_text_bytes l; max_event_bytes := n |}.
Definition StreamLimits_default : StreamLimits :=
  with_max_event_bytes (StreamLimits_new 65536 1024 4096 (16 * 1024 * 1024)) (32 * 1024 * 1024).

(** ** Output parts, as the stream reads them *)
Inductive StructuredValidation := Valid | Invalid | NotRequested.
Record StructuredOutputPart := {
  structured_id : string; validation : StructuredValidation; structured_rest : string }.
Record ToolCallOutputPart := {
  call_part_id : string; call_id : string; call_name : string; call_rest : string }.
Record ToolResultOutputPart := {
  result_id : string; result_call_id : string; result_rest : string }.
(** Reasoning, citation, image, audio, video and file parts: an identity and the
    part's own text. *)
Record IdentifiedPart := { identified_id : string; identified_rest : string }.

#[global] Instance StructuredValidation_eq_dec : EqDecision StructuredValidation.
Proof. solve_decision. Defined.
#[global] Instance StructuredOutputPart_eq_dec : EqDecision StructuredOutputPart.
Proof. solve_decision. Defined.
#[global] Instance ToolCallOutputPart_eq_dec : EqDecision ToolCallOutputPart.
Proof. solve_decision. Defined.
#[global] Instance ToolResultOutputPart_eq_dec : EqDecision ToolResultOutputPart.
Proof. solve_decision. Defined.
#[global] Instance IdentifiedPart_eq_dec : EqDecision IdentifiedPart.
Proof. solve_decision. Defined.

Inductive StreamPartKind :=
| KText | KStructured | KToolCall | KToolResult | KSafeReasoning | KMedia | KCitation.
#[global] Instance StreamPartKind_eq_dec : EqDecision StreamPartKind.
Proof. solve_decision. Defined.

Inductive StreamToolCallDelta := Name (name : string) | ArgumentsFragment (fragment : string).
#[global] Instance StreamToolCallDelta_eq_dec : EqDecision StreamToolCallDelta.
Proof. solve_decision. Defined.

Inductive StreamMedia :=
| Image (p : IdentifiedPart) | Audio (p : IdentifiedPart)
| Video (p : IdentifiedPart) | File (p : IdentifiedPart).
#[global] Instance StreamMedia_eq_dec : EqDecision StreamMedia.
Proof. solve_decision. Defined.
Definition media_id (m : StreamMedia) : string :=
  match m with Image p | Audio p | Video p | File p => identified_id p end.

(** ** Errors *)
Inductive StreamInvariantError :=
| UnsupportedSchemaVersion | RequestCorrelationMismatch | NonMonotonicSequence
| ResponseNotStarted | DuplicateResponseStart | InvalidIdentity | DuplicatePart | UnknownPart
| PartKindMismatch | EventAfterPartComplete | DuplicatePartComplete | MissingPartValue
| DuplicatePartValue | EmptyTextDelta | StructuredValueNotValidated | CorrelationMismatch
| DuplicateToolCallIdentity | DuplicateTerminal | EventAfterTerminal | OpenPartAtTerminal
| PartialWithoutPublicContent | MissingTerminal | TerminalSnapshotMismatch | EventLimitExceeded
| PartLimitExceeded | PublicContentLimitExceeded | TextLimitExceeded | EventPayloadLimitExceeded
| UnknownToolCallIdentity | InvalidInternalState.

(** How an assembler operation stops: with one of its errors, or by the panic of
    an out-of-range index. *)
Inductive stop := Raised (e : StreamInvariantError) | Panicked.

Definition STREAM_MAX_ID_BYTES : Z := 256.
Definition stream_validate_id (value : string) : result StreamInvariantError unit :=
  guard_err (is_empty value || (STREAM_MAX_ID_BYTES <? len value) || has_control value) InvalidIdentity.

(** A structured part is wrapped only when it was validated. *)
Record ValidatedStructuredComplete := { validated_part : StructuredOutputPart }.
#[global] Instance ValidatedStructuredComplete_eq_dec : EqDecision ValidatedStructuredComplete.
Proof. solve_decision. Defined.
Definition try_from_part (part : StructuredOutputPart)
    : result StreamInvariantError ValidatedStructuredComplete :=
  if bool_decide (validation part = Valid) then Ok {| validated_part := part |}
  else Err StructuredValueNotValidated.

(** ** Content and events *)
Inductive AcceptedPublicContent :=
| AText (part_id text : string)
| AStructured (p : ValidatedStructuredComplete)
| AToolCall (correlation_id : string) (p : ToolCallOutputPart)
| AToolResult (p : ToolResultOutputPart)
| ASafeReasoning (p : IdentifiedPart)
| AMedia (m : StreamMedia)
| ACitation (p : IdentifiedPart).
#[global] Instance AcceptedPublicContent_eq_dec : EqDecision AcceptedPublicContent.
Proof. solve_decision. Defined.

Inductive StreamWarningCode :=
| ProviderExtensionOmitted | PrivateReasoningOmitted | TextCoalesced | EstimatedUsage.
#[global] Instance StreamWarningCode_eq_dec : EqDecision StreamWarningCode.
Proof. solve_decision. Defined.
Inductive StreamBudgetDimension := ModelTurns | ToolCalls | WallClock | Tokens | Cost | Concurrency.
#[global] Instance StreamBudgetDimension_eq_dec : EqDecision StreamBudgetDimension.
Proof. solve_decision. Defined.
Inductive StreamFailureKind := FailProtocol | FailTransport | FailInternal.
#[global] Instance StreamFailureKind_eq_dec : EqDecision StreamFailureKind.
Proof. solve_decision. Defined.
Inductive StreamInterruption := Transport | Protocol | ConsumerDisconnected | Deadline.
#[global] Instance StreamInterruption_eq_dec : EqDecision StreamInterruption.
Proof. solve_decision. Defined.
Inductive StreamTerminalState :=
| Completed | ProviderRefused | SafetyRefused | InvalidStructuredData | ToolExecutionFailed
| BudgetExhausted (d : StreamBudgetDimension) | Cancelled | Failed (k : StreamFailureKind)
| PartialInterrupted (i : StreamInterruption).
#[global] Instance StreamTerminalState_eq_dec : EqDecision StreamTerminalState.
Proof. solve_decision. Defined.

Record StreamTerminal := {
  terminal_state : StreamTerminalState;
  accepted_public_content : list AcceptedPublicContent;
}.
#[global] Instance StreamTerminal_eq_dec : EqDecision StreamTerminal.
Proof. solve_decision. Defined.

Inductive LlmStreamEventData :=
| ResponseStart (response_id : string)
| PartStart (part_id : string) (kind : StreamPartKind)
| TextDelta (part_id text : string)
| StructuredComplete (p : ValidatedStructuredComplete)
| ToolCallDelta (part_id correlation_id : string) (delta : StreamToolCallDelta)
| ToolCallComplete (correlation_id : string) (p : ToolCallOutputPart)
| ToolResultComplete (p : ToolResultOutputPart)
| SafeReasoning (p : IdentifiedPart)
| Media (m : StreamMedia)
| Citation (p : IdentifiedPart)
| UsageSnapshot (usage : string)
| Warning (code : StreamWarningCode)
| PartComplete (part_id : string).
#[global] Instance LlmStreamEventData_eq_dec : EqDecision LlmStreamEventData.
Proof. solve_decision. Defined.

Inductive LlmStreamPayload := Event (data : LlmStreamEventData) | Terminal (t : StreamTerminal).
#[global] Instance LlmStreamPayload_eq_dec : EqDecision LlmStreamPayload.
Proof. solve_decision. Defined.

Inductive SchemaVersion := V1_0_0.
Definition CURRENT : SchemaVersion := V1_0_0.
#[global] Instance SchemaVersion_eq_dec : EqDecision SchemaVersion.
Proof. solve_decision. Defined.

Record LlmStreamEvent := {
  schema_version : SchemaVersion;
  event_request_id : string;
  sequence : Z;
  payload : LlmStreamPayload;
}.
#[global] Instance LlmStreamEvent_eq_dec : EqDecision LlmStreamEvent.
Proof. solve_decision. Defined.

(** Wire names of the terminal states: adjacently tagged, snake case. *)
Definition budget_name (d : StreamBudgetDimension) : string :=
  match d with
  | ModelTurns => "model_turns" | ToolCalls => "tool_calls" | WallClock => "wall_clock"
  | Tokens => "tokens" | Cost => "cost" | Concurrency => "concurrency"
  end.
Definition failure_name (k : StreamFailureKind) : string :=
  match k with FailProtocol => "protocol" | FailTransport => "transport" | FailInternal => "internal" end.
Definition interruption_name (i : StreamInterruption) : string :=
  match i with
  | Transport => "transport" | Protocol => "protocol"
  | ConsumerDisconnected => "consumer_disconnected" | Deadline => "deadline"
  end.
Definition state_name (s : StreamTerminalState) : string :=
  match s with
  | Completed => "completed" | ProviderRefused => "provider_refused"
  | SafetyRefused => "safety_refused" | InvalidStructuredData => "invalid_structured_data"
  | ToolExecutionFailed => "tool_execution_failed" | BudgetExhausted _ => "budget_exhausted"
  | Cancelled => "cancelled" | Failed _ => "failed" | PartialInterrupted _ => "partial_interrupted"
  end.
Definition state_detail (s : StreamTerminalState) : option string :=
  match s with
  | BudgetExhausted d => Some (budget_name d)
  | Failed k => Some (failure_name k)
  | PartialInterrupted i => Some (interruption_name i)
  | _ => None
  end.

(** ** Encoding *)

(** What is handed to [serde_json::to_writer]: a text, an accepted item, an event
    ([LlmStreamEventRef] borrows an event's fields and encodes as the event). *)
Inductive Json :=
| JText (text : string) | JContent (c : AcceptedPublicContent) | JEvent (e : LlmStreamEvent).

Class Serde := to_writer : Json -> option (list Z).

(** A terminal state is an object with the member [state] and, with a detail, the
    member [detail]: twelve bytes of punctuation and member name each. *)
Definition state_bytes (s : StreamTerminalState) : Z :=
  12 + len (state_name s)
  + match state_detail s with Some d => 12 + len d | None => 0 end.

(** An array: brackets, the elements, a comma between two of them. *)
Definition separator (l : list AcceptedPublicContent) : Z := match l with [] => 0 | _ => 1 end.

(** [CountingWriter]: each chunk is added with [checked_add]. *)
Fixpoint counting_write (written : Z) (chunks : list Z) : option Z :=
  match chunks with
  | [] => Some written
  | c :: cs => match checked_add usize_max written c with
               | Some w => counting_write w cs
               | None => None
               end
  end.

(** [BudgetWriter]: a chunk larger than what remains is refused. *)
Fixpoint budget_write (remaining : Z) (chunks : list Z) : bool :=
  match chunks with
  | [] => true
  | c :: cs => if remaining <? c then false else budget_write (remaining - c) cs
  end.

Definition serialized_size `{Serde} (v : Json) : option Z :=
  match to_writer v with Some chunks => counting_write 0 chunks | None => None end.
Definition serialized_fits `{Serde} (v : Json) (limit : Z) : bool :=
  match to_writer v with Some chunks => budget_write limit chunks | None => false end.

(** ** The assembler's state *)
Record PartState := { kind : StreamPartKind; complete : bool; value_emitted : bool }.

Record LlmStreamAssembler := {
  request_id : string;
  limits : StreamLimits;
  next_sequence : Z;
  response_started : bool;
  terminal : bool;
  parts : gmap string PartState;
  tool_correlations : gmap string string;
  tool_names : gmap string string;
  tool_call_ids : gset string;
  completed_tool_correlations : gset string;
  accepted : list AcceptedPublicContent;
  text_indices : gmap string nat;
  text_bytes : Z;
  accepted_serialized_bytes : Z;
}.

Definition assembler_new (rid : string) (l : StreamLimits) : LlmStreamAssembler :=
  {| request_id := rid; limits := l; next_sequence := 0; response_started := false;
     terminal := false; parts := ∅; tool_correlations := ∅; tool_names := ∅; tool_call_ids := ∅;
     completed_tool_correlations := ∅; accepted := []; text_indices := ∅; text_bytes := 0;
     accepted_serialized_bytes := 2 |}.

(** Field assignments. *)
Definition with_started (a : LlmStreamAssembler) : LlmStreamAssembler :=
  {| request_id := request_id a; limits := limits a; next_sequence := next_sequence a;
     response_started := true; terminal := terminal a; parts := parts a;
     tool_correlations := tool_correlations a; tool_names := tool_names a;
     tool_call_ids := tool_call_ids a;
     completed_tool_correlations := completed_tool_correlations a; accepted := accepted a;
     text_indices := text_indices a; text_bytes := text_bytes a;
     accepted_serialized_bytes := accepted_serialized_bytes a |}.
Definition with_parts (a : LlmStreamAssembler) (ps : gmap string PartState) : LlmStreamAssembler :=
  {| request_id := request_id a; limits := limits a; next_sequence := next_sequence a;
     response_started := response_started a; terminal := terminal a; parts := ps;
     tool_correlations := tool_correlations a; tool_names := tool_names a;
     tool_call_ids := tool_call_ids a;
     completed_tool_correlations := completed_tool_correlations a; accepted := accepted a;
     text_indices := text_indices a; text_bytes := text_bytes a;
     accepted_serialized_bytes := accepted_serialized_bytes a |}.
Definition with_tools (a : LlmStreamAssembler) (tc tn : gmap string string) (ids done : gset string)
    : LlmStreamAssembler :=
  {| request_id := request_id a; limits := limits a; next_sequence := next_sequence a;
     response_started := response_started a; terminal := terminal a; parts := parts a;
     tool_correlations := tc; tool_names := tn; tool_call_ids := ids;
     completed_tool_correlations := done; accepted := accepted a;
     text_indices := text_indices a; text_bytes := text_bytes a;
     accepted_serialized_bytes := accepted_serialized_bytes a |}.
Definition with_accepted (a : LlmStreamAssembler) (l : list AcceptedPublicContent)
    (ix : gmap string nat) (tb : Z) : LlmStreamAssembler :=
  {| request_id := request_id a; limits := limits a; next_sequence := next_sequence a;
     response_started := response_started a; terminal := terminal a; parts := parts a;
     tool_correlations := tool_correlations a; tool_names := tool_names a;
     tool_call_ids := tool_call_ids a;
     completed_tool_correlations := completed_tool_correlations a; accepted := l;
     text_indices := ix; text_bytes := tb;
     accepted_serialized_bytes := accepted_serialized_bytes a |}.
Definition with_progress (a : LlmStreamAssembler) (n : Z) (t : bool) (bytes : Z)
    : LlmStreamAssembler :=
  {| request_id := request_id a; limits := limits a; next_sequence := n;
     response_started := response_started a; terminal := t; parts := parts a;
     tool_correlations := tool_correlations a; tool_names := tool_names a;
     tool_call_ids := tool_call_ids a;
     completed_tool_correlations := completed_tool_correlations a; accepted := accepted a;
     text_indices := text_indices a; text_bytes := text_bytes a;
     accepted_serialized_bytes := bytes |}.

(** ** Checks that only read the assembler ([&self]) *)
Definition require_open_kind (a : LlmStreamAssembler) (pid : string) (expected : StreamPartKind)
    : result StreamInvariantError unit :=
  match parts a !! pid with
  | None => Err UnknownPart
  | Some part =>
      if complete part then Err EventAfterPartComplete
      else if negb (bool_decide (kind part = expected)) then Err PartKindMismatch
      else Ok tt
  end.

Definition require_pending_value_kind (a : LlmStreamAssembler) (pid : string)
    (expected : StreamPartKind) : result StreamInvariantError unit :=
  _ ← require_open_kind a pid expected;
  match parts a !! pid with
  | Some part => if value_emitted part then Err DuplicatePartValue else Ok tt
  | None => Ok tt
  end.

Definition ensure_public_item_slot (a : LlmStreamAssembler) : result StreamInvariantError unit :=
  guard_err (max_public_items (limits a) <=? Z.of_nat (length (accepted a)))
    PublicContentLimitExceeded.

Definition ensure_nonterminal_slot (a : LlmStreamAssembler) : result StreamInvariantError unit :=
  terminal_sequence ← ok_or (checked_add u64_max (next_sequence a) 1) EventLimitExceeded;
  guard_err (max_events (limits a) <=? terminal_sequence) EventLimitExceeded.

Definition ensure_event_slot (a : LlmStreamAssembler) : result StreamInvariantError unit :=
  guard_err (max_events (limits a) <=? next_sequence a) EventLimitExceeded.

Definition event (a : LlmStreamAssembler) (p : LlmStreamPayload) : LlmStreamEvent :=
  {| schema_version := CURRENT; event_request_id := request_id a;
     sequence := next_sequence a; payload := p |}.

Section operations.
Context `{Serde}.

Definition new_public_item_bytes (a : LlmStreamAssembler) (c : AcceptedPublicContent)
    : result StreamInvariantError Z :=
  let separator := if bool_decide (accepted a = []) then 0 else 1 in
  ok_or (size ← serialized_size (JContent c); checked_add usize_max size separator)
    EventPayloadLimitExceeded.

Definition added_bytes (a : LlmStreamAssembler) (data : LlmStreamEventData)
    : result StreamInvariantError Z :=
  match data with
  | TextDelta pid text =>
      match text_indices a !! pid with
      | Some _ =>
          ok_or (size ← serialized_size (JText text); checked_sub size 2)
            EventPayloadLimitExceeded
      | None => new_public_item_bytes a (AText pid text)
      end
  | StructuredComplete p => new_public_item_bytes a (AStructured p)
  | ToolCallComplete cid p => new_public_item_bytes a (AToolCall cid p)
  | ToolResultComplete p => new_public_item_bytes a (AToolResult p)
  | SafeReasoning p => new_public_item_bytes a (ASafeReasoning p)
  | Media m => new_public_item_bytes a (AMedia m)
  | Citation p => new_public_item_bytes a (ACitation p)
  | _ => Ok 0
  end.

Definition prospective_accepted_bytes (a : LlmStreamAssembler) (data : LlmStreamEventData)
    : result StreamInvariantError Z :=
  added ← added_bytes a data;
  ok_or (checked_add usize_max (accepted_serialized_bytes a) added) EventPayloadLimitExceeded.

Definition ensure_terminal_snapshot_fits (a : LlmStreamAssembler) (bytes : Z)
    : result StreamInvariantError unit :=
  terminal_sequence ← ok_or (checked_add u64_max (next_sequence a) 1) EventLimitExceeded;
  let t := {| schema_version := CURRENT; event_request_id := request_id a;
              sequence := terminal_sequence;
              payload := Terminal {| terminal_state := PartialInterrupted ConsumerDisconnected;
                                     accepted_public_content := [] |} |} in
  empty_terminal_bytes ← ok_or (serialized_size (JEvent t)) EventPayloadLimitExceeded;
  terminal_bytes ← ok_or (checked_add usize_max empty_terminal_bytes (saturating_sub bytes 2))
                     EventPayloadLimitExceeded;
  guard_err (max_event_bytes (limits a) <? terminal_bytes) EventPayloadLimitExceeded.

Definition nonterminal_event_fits (a : LlmStreamAssembler) (data : LlmStreamEventData) : bool :=
  serialized_fits (JEvent (event a (Event data))) (max_event_bytes (limits a)).

(** ** Operations that change the assembler ([&mut self]) *)
Definition Op (A : Type) : Type := ST LlmStreamAssembler stop A.
(** A check's error ends the operation. *)
Definition raise {A} (r : result StreamInvariantError A) : Op A := st_read (fun _ => map_err Raised r).
Definition fail {A} (e : StreamInvariantError) : Op A := st_throw (Raised e).

Definition mark_value_emitted (pid : string) : Op unit :=
  a ← st_get;
  match parts a !! pid with
  | None => fail InvalidInternalState
  | Some part =>
      st_put (with_parts a (<[pid := {| kind := kind part; complete := complete part;
                                        value_emitted := true |}]> (parts a)))
  end.

Definition push_public (c : AcceptedPublicContent) : Op unit :=
  a ← st_get;
  _ ← raise (ensure_public_item_slot a);
  st_put (with_accepted a (accepted a ++ [c]) (text_indices a) (text_bytes a)).

Definition complete_public_part (pid : string) (expected : StreamPartKind)
    (c : AcceptedPublicContent) : Op unit :=
  a ← st_get;
  _ ← raise (require_pending_value_kind a pid expected);
  _ ← push_public c;
  mark_value_emitted pid.

(** [text: accumulated] of [self.accepted\[index\]] grows in place; the index is
    checked by the language. *)
Definition apply_text_delta (pid text : string) : Op unit :=
  a ← st_get;
  _ ← raise (require_open_kind a pid KText);
  _ ← raise (guard_err (is_empty text) EmptyTextDelta);
  next ← raise (ok_or (checked_add usize_max (text_bytes a) (len text)) TextLimitExceeded);
  _ ← raise (guard_err (max_text_bytes (limits a) <? next) TextLimitExceeded);
  match text_indices a !! pid with
  | Some index =>
      match accepted a !! index with
      | None => st_throw Panicked
      | Some (AText p accumulated) =>
          st_put (with_accepted a (<[index := AText p (accumulated +:+ text)]> (accepted a))
                    (text_indices a) next)
      | Some _ => fail InvalidInternalState
      end
  | None =>
      _ ← raise (ensure_public_item_slot a);
      st_put (with_accepted a (accepted a ++ [AText pid text])
                (<[pid := length (accepted a)]> (text_indices a)) next)
  end.

(** [map.get(key).is_some_and(|existing| existing != value)] *)
Definition differs (m : gmap string string) (k v : string) : bool :=
  match m !! k with Some existing => negb (bool_decide (existing = v)) | None => false end.
(** [map.entry(key).or_insert_with(|| value)] *)
Definition or_insert (m : gmap string string) (k v : string) : gmap string string :=
  match m !! k with Some _ => m | None => <[k := v]> m end.

Definition apply_tool_call_delta (pid cid : string) (delta : StreamToolCallDelta) : Op unit :=
  a ← st_get;
  _ ← raise (require_pending_value_kind a pid KToolCall);
  _ ← raise (guard_err (bool_decide (cid ∈ completed_tool_correlations a))
               DuplicateToolCallIdentity);
  _ ← raise (stream_validate_id cid);
  _ ← raise match delta with
            | Name name =>
                _ ← stream_validate_id name;
                guard_err (differs (tool_names a) cid name) CorrelationMismatch
            | ArgumentsFragment _ => Ok tt
            end;
  _ ← raise (guard_err (differs (tool_correlations a) cid pid) CorrelationMismatch);
  st_put (with_tools a (or_insert (tool_correlations a) cid pid)
            match delta with
            | Name name => or_insert (tool_names a) cid name
            | ArgumentsFragment _ => tool_names a
            end (tool_call_ids a) (completed_tool_correlations a)).

Definition apply_tool_call_complete (cid : string) (p : ToolCallOutputPart) : Op unit :=
  a ← st_get;
  _ ← raise (require_pending_value_kind a (call_part_id p) KToolCall);
  _ ← raise (stream_validate_id cid);
  _ ← raise (guard_err (bool_decide (cid ∈ completed_tool_correlations a)
                        || bool_decide (call_id p ∈ tool_call_ids a)) DuplicateToolCallIdentity);
  _ ← raise (guard_err (differs (tool_correlations a) cid (call_part_id p)
                        || differs (tool_names a) cid (call_name p)) CorrelationMismatch);
  _ ← raise (ensure_public_item_slot a);
  let a := with_tools a (or_insert (tool_correlations a) cid (call_part_id p)) (tool_names a)
             ({[call_id p]} ∪ tool_call_ids a) ({[cid]} ∪ completed_tool_correlations a) in
  _ ← st_put (with_accepted a (accepted a ++ [AToolCall cid p]) (text_indices a) (text_bytes a));
  mark_value_emitted (call_part_id p).

Definition apply_part_start (pid : string) (k : StreamPartKind) : Op unit :=
  a ← st_get;
  _ ← raise (stream_validate_id pid);
  _ ← raise (guard_err (bool_decide (is_Some (parts a !! pid))) DuplicatePart);
  _ ← raise (guard_err (max_parts (limits a) <=? Z.of_nat (base.size (parts a))) PartLimitExceeded);
  st_put (with_parts a (<[pid := {| kind := k; complete := false; value_emitted := false |}]> (parts a))).

Definition apply_part_complete (pid : string) : Op unit :=
  a ← st_get;
  match parts a !! pid with
  | None => fail UnknownPart
  | Some part =>
      if complete part then fail DuplicatePartComplete
      else if negb (bool_decide (kind part = KText)) && negb (value_emitted part)
      then fail MissingPartValue
      else st_put (with_parts a (<[pid := {| kind := kind part; complete := true;
                                             value_emitted := value_emitted part |}]> (parts a)))
  end.

Definition apply (data : LlmStreamEventData) : Op unit :=
  a ← st_get;
  match data with
  | ResponseStart rid =>
      if response_started a || negb (next_sequence a =? 0) then fail DuplicateResponseStart
      else _ ← raise (stream_validate_id rid); st_put (with_started a)
  | _ =>
      if negb (response_started a) then fail ResponseNotStarted else
      match data with
      | ResponseStart _ => fail DuplicateResponseStart
      | PartStart pid k => apply_part_start pid k
      | TextDelta pid text => apply_text_delta pid text
      | StructuredComplete p =>
          complete_public_part (structured_id (validated_part p)) KStructured (AStructured p)
      | ToolCallDelta pid cid delta => apply_tool_call_delta pid cid delta
      | ToolCallComplete cid p => apply_tool_call_complete cid p
      | ToolResultComplete p =>
          _ ← raise (require_pending_value_kind a (result_id p) KToolResult);
          _ ← raise (guard_err (negb (bool_decide (result_call_id p ∈ tool_call_ids a)))
                       UnknownToolCallIdentity);
          _ ← push_public (AToolResult p);
          mark_value_emitted (result_id p)
      | SafeReasoning p => complete_public_part (identified_id p) KSafeReasoning (ASafeReasoning p)
      | Media m => complete_public_part (media_id m) KMedia (AMedia m)
      | Citation p => complete_public_part (identified_id p) KCitation (ACitation p)
      | UsageSnapshot _ | Warning _ => mret tt
      | PartComplete pid => apply_part_complete pid
      end
  end.

Definition advance_sequence : Op unit :=
  a ← st_get;
  next ← raise (ok_or (checked_add u64_max (next_sequence a) 1) EventLimitExceeded);
  st_put (with_progress a next (terminal a) (accepted_serialized_bytes a)).

Definition emit (data : LlmStreamEventData) : Op LlmStreamEvent :=
  a ← st_get;
  _ ← raise (guard_err (terminal a) EventAfterTerminal);
  _ ← raise (ensure_nonterminal_slot a);
  _ ← raise (guard_err (negb (nonterminal_event_fits a data)) EventPayloadLimitExceeded);
  bytes ← raise (prospective_accepted_bytes a data);
  _ ← raise (ensure_terminal_snapshot_fits a bytes);
  _ ← apply data;
  _ ← st_modify (fun a => with_progress a (next_sequence a) (terminal a) bytes);
  a ← st_get;
  let ev := event a (Event data) in
  _ ← advance_sequence;
  mret ev.

Definition is_partial (s : StreamTerminalState) : bool :=
  match s with PartialInterrupted _ => true | _ => false end.
(** [self.parts.values().any(|part| !part.complete)] *)
Definition any_open (ps : gmap string PartState) : bool :=
  existsb (fun kv => negb (complete kv.2)) (map_to_list ps).

Definition terminate (s : StreamTerminalState) : Op LlmStreamEvent :=
  a ← st_get;
  _ ← raise (guard_err (terminal a) DuplicateTerminal);
  _ ← raise (ensure_event_slot a);
  _ ← raise (guard_err (negb (response_started a)) ResponseNotStarted);
  _ ← raise (if is_partial s
             then guard_err (bool_decide (accepted a = [])) PartialWithoutPublicContent
             else guard_err (any_open (parts a)) OpenPartAtTerminal);
  let ev := event a (Terminal {| terminal_state := s; accepted_public_content := accepted a |}) in
  _ ← raise (guard_err (negb (serialized_fits (JEvent ev) (max_event_bytes (limits a))))
               EventPayloadLimitExceeded);
  _ ← st_put (with_progress a (next_sequence a) true (accepted_serialized_bytes a));
  _ ← advance_sequence;
  mret ev.

Definition finish (a : LlmStreamAssembler) : result StreamInvariantError unit :=
  if terminal a then Ok tt else Err MissingTerminal.

(** ** The validator: its state is an assembler; an event is replayed on a clone
    that replaces it only when the replayed event is the one received. *)
Definition validator_new (rid : string) (l : StreamLimits) : LlmStreamAssembler :=
  assembler_new rid l.

Definition accept (e : LlmStreamEvent) : Op unit :=
  a ← st_get;
  _ ← raise (guard_err (negb (bool_decide (schema_version e = CURRENT))) UnsupportedSchemaVersion);
  _ ← raise (guard_err (negb (bool_decide (event_request_id e = request_id a)))
               RequestCorrelationMismatch);
  _ ← raise (guard_err (negb (sequence e =? next_sequence a)) NonMonotonicSequence);
  match (match payload e with
         | Event data => emit data a
         | Terminal t => terminate (terminal_state t) a
         end) with
  | (Err stopped, _) => st_throw stopped
  | (Ok expected, candidate) =>
      if bool_decide (expected = e) then st_put candidate else fail TerminalSnapshotMismatch
  end.
End operations.
