(* ===== verification/StreamFacts.v ===== *)
(** * Streams: the protocol as a function of the history, and its implementation

    The assembler keeps maps, sets and an index into the accepted content.  Here
    the protocol is stated on the list of events so far, without any of them:
    [permitted] says which event may follow a history, [content_of] what has been
    accepted, [within] the ceilings.  [represents] relates the assembler's state
    to its history, and [apply_refines] shows that [apply] accepts exactly what
    the protocol permits, keeps the relation, and changes nothing when it
    refuses. *)
From S2P Require Import Prelude Machine Text Stream.

(** ** The protocol on histories *)
Definition history : Type := list LlmStreamEventData.

(** The first answer of [f] in the history. *)
Definition first_of {B} (f : LlmStreamEventData -> option B) (ds : history) : option B :=
  head (omap f ds).

(** The part and kind an event gives the one complete value of. *)
Definition value_of (d : LlmStreamEventData) : option (string * StreamPartKind) :=
  match d with
  | StructuredComplete p => Some (structured_id (validated_part p), KStructured)
  | ToolCallComplete _ p => Some (call_part_id p, KToolCall)
  | ToolResultComplete p => Some (result_id p, KToolResult)
  | SafeReasoning p => Some (identified_id p, KSafeReasoning)
  | Media m => Some (media_id m, KMedia)
  | Citation p => Some (identified_id p, KCitation)
  | _ => None
  end.

Definition is_value (pid : string) (d : LlmStreamEventData) : bool :=
  match value_of d with Some (i, _) => bool_decide (i = pid) | None => false end.
Definition is_close (pid : string) (d : LlmStreamEventData) : bool :=
  match d with PartComplete i => bool_decide (i = pid) | _ => false end.
Definition is_call (id : string) (d : LlmStreamEventData) : bool :=
  match d with ToolCallComplete _ p => bool_decide (call_id p = id) | _ => false end.
Definition is_finish (cid : string) (d : LlmStreamEventData) : bool :=
  match d with ToolCallComplete c _ => bool_decide (c = cid) | _ => false end.
Definition starts (pid : string) (d : LlmStreamEventData) : option StreamPartKind :=
  match d with
  | PartStart i k => if bool_decide (i = pid) then Some k else None
  | _ => None
  end.
Definition correlates (cid : string) (d : LlmStreamEventData) : option string :=
  match d with
  | ToolCallDelta pid c _ => if bool_decide (c = cid) then Some pid else None
  | ToolCallComplete c p => if bool_decide (c = cid) then Some (call_part_id p) else None
  | _ => None
  end.
Definition names (cid : string) (d : LlmStreamEventData) : option string :=
  match d with
  | ToolCallDelta _ c (Name n) => if bool_decide (c = cid) then Some n else None
  | _ => None
  end.
Definition is_start (d : LlmStreamEventData) : bool :=
  match d with PartStart _ _ => true | _ => false end.

Definition started (ds : history) (pid : string) : option StreamPartKind := first_of (starts pid) ds.
Definition closed (ds : history) (pid : string) : bool := existsb (is_close pid) ds.
Definition valued (ds : history) (pid : string) : bool := existsb (is_value pid) ds.
Definition called (ds : history) (id : string) : bool := existsb (is_call id) ds.
Definition finished (ds : history) (cid : string) : bool := existsb (is_finish cid) ds.
Definition correlated (ds : history) (cid : string) : option string := first_of (correlates cid) ds.
Definition named (ds : history) (cid : string) : option string := first_of (names cid) ds.

Definition open_as (ds : history) (pid : string) (k : StreamPartKind) : bool :=
  bool_decide (started ds pid = Some k) && negb (closed ds pid).
Definition agrees (o : option string) (v : string) : bool :=
  match o with Some x => bool_decide (x = v) | None => true end.

(** The event may follow the history. *)
Definition permitted (ds : history) (d : LlmStreamEventData) : bool :=
  match d with
  | ResponseStart _ => bool_decide (ds = [])
  | _ =>
      negb (bool_decide (ds = [])) &&
      match d with
      | PartStart pid _ => bool_decide (started ds pid = None)
      | TextDelta pid text => open_as ds pid KText && negb (is_empty text)
      | ToolCallDelta pid cid delta =>
          open_as ds pid KToolCall && negb (valued ds pid) && negb (finished ds cid)
          && agrees (correlated ds cid) pid
          && match delta with Name n => agrees (named ds cid) n | ArgumentsFragment _ => true end
      | PartComplete pid =>
          negb (closed ds pid)
          && match started ds pid with
             | Some k => bool_decide (k = KText) || valued ds pid
             | None => false
             end
      | _ =>
          match value_of d with
          | Some (pid, k) => open_as ds pid k && negb (valued ds pid)
          | None => true
          end
          && match d with
             | ToolCallComplete cid p =>
                 negb (finished ds cid) && negb (called ds (call_id p))
                 && agrees (correlated ds cid) (call_part_id p) && agrees (named ds cid) (call_name p)
             | ToolResultComplete p => called ds (result_call_id p)
             | _ => true
             end
      end
  end.

(** Identities an event introduces, which must be valid. *)
Definition identities (d : LlmStreamEventData) : list string :=
  match d with
  | ResponseStart rid => [rid]
  | PartStart pid _ => [pid]
  | ToolCallDelta _ cid (Name n) => [cid; n]
  | ToolCallDelta _ cid _ | ToolCallComplete cid _ => [cid]
  | _ => []
  end.
Definition valid_identity (s : string) : bool := is_ok (stream_validate_id s).

(** Accepted content: text joins the item its part started, anything else is a
    new item. *)
Fixpoint add_text (pid text : string) (l : list AcceptedPublicContent) : list AcceptedPublicContent :=
  match l with
  | [] => [AText pid text]
  | AText p s :: l' =>
      if bool_decide (p = pid) then AText p (s +:+ text) :: l' else AText p s :: add_text pid text l'
  | c :: l' => c :: add_text pid text l'
  end.

(** The item a complete value is retained as. *)
Definition item_of (d : LlmStreamEventData) : option AcceptedPublicContent :=
  match d with
  | StructuredComplete p => Some (AStructured p)
  | ToolCallComplete cid p => Some (AToolCall cid p)
  | ToolResultComplete p => Some (AToolResult p)
  | SafeReasoning p => Some (ASafeReasoning p)
  | Media m => Some (AMedia m)
  | Citation p => Some (ACitation p)
  | _ => None
  end.
Definition absorb (l : list AcceptedPublicContent) (d : LlmStreamEventData) : list AcceptedPublicContent :=
  match d with
  | TextDelta pid text => add_text pid text l
  | _ => match item_of d with Some c => l ++ [c] | None => l end
  end.
Definition content_of (ds : history) : list AcceptedPublicContent := foldl absorb [] ds.

Definition text_of (d : LlmStreamEventData) : Z :=
  match d with TextDelta _ text => len text | _ => 0 end.
Definition text_total (ds : history) : Z := foldl (fun n d => n + text_of d) 0 ds.
Definition part_count (ds : history) : nat := length (List.filter is_start ds).

(** The ceilings on what the assembler retains. *)
Record within (l : StreamLimits) (ds : history) : Prop := {
  within_parts : Z.of_nat (part_count ds) <= max_parts l;
  within_items : Z.of_nat (length (content_of ds)) <= max_public_items l;
  within_text : text_total ds <= max_text_bytes l;
}.

(** Positive machine-width ceilings, as [NonZeroU64] and [NonZeroUsize] are. *)
Record limits_wf (l : StreamLimits) : Prop := {
  lw_events : 0 < max_events l <= u64_max;
  lw_parts : 0 < max_parts l <= usize_max;
  lw_items : 0 < max_public_items l <= usize_max;
  lw_text : 0 < max_text_bytes l <= usize_max;
  lw_bytes : 0 < max_event_bytes l <= usize_max;
}.

(** ** Growing a history *)
Lemma first_of_snoc {B} (f : LlmStreamEventData -> option B) ds d :
  first_of f (ds ++ [d]) = match first_of f ds with Some b => Some b | None => f d end.
Proof.
  unfold first_of. rewrite omap_app. destruct (omap f ds); simpl; [|done].
  by destruct (f d).
Qed.

Lemma existsb_snoc {A} (f : A -> bool) ds d : existsb f (ds ++ [d]) = existsb f ds || f d.
Proof. rewrite existsb_app. simpl. by rewrite orb_false_r. Qed.

Lemma started_snoc ds d pid :
  started (ds ++ [d]) pid = match started ds pid with Some k => Some k | None => starts pid d end.
Proof. apply first_of_snoc. Qed.
Lemma closed_snoc ds d pid : closed (ds ++ [d]) pid = closed ds pid || is_close pid d.
Proof. apply existsb_snoc. Qed.
Lemma valued_snoc ds d pid : valued (ds ++ [d]) pid = valued ds pid || is_value pid d.
Proof. apply existsb_snoc. Qed.

Lemma called_snoc ds d id : called (ds ++ [d]) id = called ds id || is_call id d.
Proof. apply existsb_snoc. Qed.
Lemma finished_snoc ds d cid : finished (ds ++ [d]) cid = finished ds cid || is_finish cid d.
Proof. apply existsb_snoc. Qed.
Lemma correlated_snoc ds d cid :
  correlated (ds ++ [d]) cid
  = match correlated ds cid with Some p => Some p | None => correlates cid d end.
Proof. apply first_of_snoc. Qed.
Lemma named_snoc ds d cid :
  named (ds ++ [d]) cid = match named ds cid with Some n => Some n | None => names cid d end.
Proof. apply first_of_snoc. Qed.

Lemma content_of_snoc ds d : content_of (ds ++ [d]) = absorb (content_of ds) d.
Proof. unfold content_of. by rewrite foldl_app. Qed.

Lemma text_total_snoc ds d : text_total (ds ++ [d]) = text_total ds + text_of d.
Proof. unfold text_total. by rewrite foldl_app. Qed.

Lemma part_count_snoc ds d :
  part_count (ds ++ [d]) = (part_count ds + if is_start d then 1 else 0)%nat.
Proof.
  unfold part_count. rewrite List.filter_app, length_app. simpl. by destruct (is_start d).
Qed.

Lemma text_total_nonneg ds : 0 <= text_total ds.
Proof.
  induction ds as [|d ds IH] using rev_ind; [done|]. rewrite text_total_snoc.
  pose proof (len_nonneg (match d with TextDelta _ t => t | _ => EmptyString end)).
  destruct d; simpl in *; lia.
Qed.

(** ** Accepted text by position *)
Fixpoint text_index (pid : string) (l : list AcceptedPublicContent) : option nat :=
  match l with
  | [] => None
  | AText p _ :: l' => if bool_decide (p = pid) then Some 0%nat else S <$> text_index pid l'
  | _ :: l' => S <$> text_index pid l'
  end.

Lemma text_index_Some pid l i :
  text_index pid l = Some i ->
  exists s, l !! i = Some (AText pid s)
    /\ forall text, add_text pid text l = <[i := AText pid (s +:+ text)]> l.
Proof.
  revert i. induction l as [|c l IH]; simpl; [done|]. intros i Hi.
  destruct c; simpl in *; try case_bool_decide; simplify_eq; [by eauto| | | | | | |];
    destruct (text_index pid l) as [j|]; simplify_eq/=;
    destruct (IH j eq_refl) as (s & Hs & Hadd); exists s; split; try done;
    intros t; by rewrite Hadd.
Qed.

Lemma text_index_None pid text l :
  text_index pid l = None -> add_text pid text l = l ++ [AText pid text].
Proof.
  induction l as [|c l IH]; simpl; [done|].
  destruct c; try case_bool_decide; simpl; try done;
    destruct (text_index pid l); simpl; try done; intros _; by rewrite IH.
Qed.

Lemma text_index_app pid l c :
  text_index pid (l ++ [c]) =
  match text_index pid l with
  | Some i => Some i
  | None => match c with
            | AText p _ => if bool_decide (p = pid) then Some (length l) else None
            | _ => None
            end
  end.
Proof.
  induction l as [|x l IH]; simpl; [destruct c; simpl; try case_bool_decide; done|].
  destruct x; simpl; try case_bool_decide; try done; rewrite IH;
    destruct (text_index pid l); simpl; try done; destruct c; simpl; try done;
    case_bool_decide; done.
Qed.

Lemma text_index_insert pid p s t l i :
  l !! i = Some (AText p s) -> text_index pid (<[i := AText p t]> l) = text_index pid l.
Proof.
  revert i. induction l as [|c l IH]; intros [|i] Hi; simplify_eq/=; try done.
  destruct c; simpl; rewrite ?IH by done; done.
Qed.

Lemma length_add_text pid text l :
  length (add_text pid text l)
  = match text_index pid l with Some _ => length l | None => S (length l) end.
Proof.
  induction l as [|c l IH]; simpl; [done|].
  destruct c; simpl; try case_bool_decide; simpl; try done; rewrite IH;
    by destruct (text_index pid l).
Qed.

Lemma bool_decide_ext_orb (P Q R : Prop) `{!Decision P, !Decision Q, !Decision R} :
  (R <-> P \/ Q) -> bool_decide R = bool_decide P || bool_decide Q.
Proof. intros HR. repeat case_bool_decide; naive_solver. Qed.

(** ** The state represents the history *)
Definition part_at (ds : history) (pid : string) : option PartState :=
  (fun k => {| kind := k; complete := closed ds pid; value_emitted := valued ds pid |})
    <$> started ds pid.

Record represents (a : LlmStreamAssembler) (ds : history) : Prop := {
  rep_started : response_started a = negb (bool_decide (ds = []));
  rep_parts : forall pid, parts a !! pid = part_at ds pid;
  rep_part_count : base.size (parts a) = part_count ds;
  rep_fresh : forall pid, started ds pid = None -> closed ds pid = false /\ valued ds pid = false;
  rep_correlations : forall cid, tool_correlations a !! cid = correlated ds cid;
  rep_names : forall cid, tool_names a !! cid = named ds cid;
  rep_calls : forall id, bool_decide (id ∈ tool_call_ids a) = called ds id;
  rep_completed : forall cid, bool_decide (cid ∈ completed_tool_correlations a) = finished ds cid;
  rep_accepted : accepted a = content_of ds;
  rep_indices : forall pid, text_indices a !! pid = text_index pid (content_of ds);
  rep_text_bytes : text_bytes a = text_total ds;
}.

(** A check that passes exactly when [b] holds, and never reports an internal
    inconsistency. *)
Definition checks (r : result StreamInvariantError unit) (b : bool) : Prop :=
  match r with Ok _ => b = true | Err e => b = false /\ e <> InvalidInternalState end.

(** An operation that moves to [a1] exactly when [P] holds and otherwise stops with
    an error and leaves the assembler alone. *)
Definition decides (m : result stop unit * LlmStreamAssembler) (a a1 : LlmStreamAssembler)
    (P : Prop) : Prop :=
  (P /\ m = (Ok tt, a1))
  \/ (~ P /\ exists e, m = (Err (Raised e), a) /\ e <> InvalidInternalState).

Lemma decides_check r b (k : unit -> Op unit) a a1 P :
  checks r b -> (b = true -> decides (k tt a) a a1 P) ->
  decides ((x ← raise r; k x) a) a a1 (b = true /\ P).
Proof.
  unfold checks, decides. intros Hr Hk. unfold mbind, st_bind, raise, st_read. simpl.
  destruct r as [[]|e]; simpl.
  - destruct (Hk Hr) as [[HP Hm]|[HP He]]; [left; tauto | right; tauto].
  - destruct Hr as [-> He]. right. split; [naive_solver | eauto].
Qed.

Lemma decides_iff m a a1 P Q : (P <-> Q) -> decides m a a1 P -> decides m a a1 Q.
Proof. unfold decides. tauto. Qed.

Lemma decides_put a a1 : decides (st_put a1 a) a a1 True.
Proof. by left. Qed.

Lemma decides_fail e a a1 (P : Prop) : e <> InvalidInternalState -> ~ P -> decides (fail e a) a a1 P.
Proof. right. eauto. Qed.

Lemma checks_guard (b : bool) e : e <> InvalidInternalState -> checks (guard_err b e) (negb b).
Proof. by destruct b. Qed.

Lemma checks_guard_not (b : bool) e : e <> InvalidInternalState -> checks (guard_err (negb b) e) b.
Proof. by destruct b. Qed.

Lemma checks_bind r1 b1 r2 b2 :
  checks r1 b1 -> checks r2 b2 -> checks (_ ← r1; r2) (b1 && b2).
Proof. destruct r1 as [[]|]; simpl; [by intros -> | by intros [-> ?]]. Qed.

Lemma checks_identity s : checks (stream_validate_id s) (valid_identity s).
Proof.
  unfold valid_identity, stream_validate_id.
  by destruct (is_empty s || (STREAM_MAX_ID_BYTES <? len s) || has_control s).
Qed.

Section checks.
Context (a : LlmStreamAssembler) (ds : history) (R : represents a ds).

Lemma checks_open pid k : checks (require_open_kind a pid k) (open_as ds pid k).
Proof using R.
  unfold require_open_kind, open_as. rewrite (rep_parts _ _ R). unfold part_at.
  destruct (started ds pid) as [k'|]; simpl; [|done].
  destruct (closed ds pid); simpl; [by rewrite andb_false_r|].
  rewrite andb_true_r. destruct (decide (k' = k)) as [->|Hk].
  - by rewrite !bool_decide_true.
  - rewrite !bool_decide_false by congruence. done.
Qed.

Lemma checks_pending pid k :
  checks (require_pending_value_kind a pid k) (open_as ds pid k && negb (valued ds pid)).
Proof using R.
  unfold require_pending_value_kind. pose proof (checks_open pid k) as Ho. unfold checks in Ho.
  destruct (require_open_kind a pid k) as [[]|e]; simpl in *.
  - rewrite Ho. simpl. revert Ho. unfold open_as. intros [Hs _]%andb_prop.
    apply bool_decide_eq_true in Hs. rewrite (rep_parts _ _ R). unfold part_at. rewrite Hs. simpl.
    by destruct (valued ds pid).
  - destruct Ho as [-> He]. done.
Qed.

Lemma differs_agrees m o k v : m !! k = o -> differs m k v = negb (agrees o v).
Proof. unfold differs, agrees. intros ->. by destruct o. Qed.

Lemma or_insert_lookup m k v i :
  or_insert m k v !! i
  = match m !! i with Some x => Some x | None => if bool_decide (k = i) then Some v else None end.
Proof.
  unfold or_insert. destruct (decide (k = i)) as [->|Hne].
  - rewrite (bool_decide_true (i = i)) by done.
    destruct (m !! i) eqn:E; [by rewrite E | by rewrite lookup_insert_eq].
  - rewrite (bool_decide_false (k = i)) by done.
    destruct (m !! k); [|rewrite lookup_insert_ne by done]; by destruct (m !! i).
Qed.

Lemma open_part pid k :
  open_as ds pid k = true ->
  parts a !! pid = Some {| kind := k; complete := false; value_emitted := valued ds pid |}.
Proof using R.
  unfold open_as. intros [Hs Hc]%andb_prop. apply bool_decide_eq_true in Hs.
  apply negb_true_iff in Hc. rewrite (rep_parts _ _ R). unfold part_at. by rewrite Hs, Hc.
Qed.
End checks.

(** ** What each event does to the assembler *)
Definition has_room (a : LlmStreamAssembler) : bool :=
  negb (max_public_items (limits a) <=? Z.of_nat (length (accepted a))).

(** A complete value: the item is retained and the part has its value. *)
Definition valued_state (a : LlmStreamAssembler) (pid : string) (k : StreamPartKind)
    (c : AcceptedPublicContent) : LlmStreamAssembler :=
  with_parts (with_accepted a (accepted a ++ [c]) (text_indices a) (text_bytes a))
    (<[pid := {| kind := k; complete := false; value_emitted := true |}]> (parts a)).

Definition text_state (a : LlmStreamAssembler) (pid text : string) : LlmStreamAssembler :=
  with_accepted a (add_text pid text (accepted a))
    (match text_indices a !! pid with
     | Some _ => text_indices a
     | None => <[pid := length (accepted a)]> (text_indices a)
     end) (text_bytes a + len text).

Definition delta_state (a : LlmStreamAssembler) (pid cid : string) (delta : StreamToolCallDelta)
    : LlmStreamAssembler :=
  with_tools a (or_insert (tool_correlations a) cid pid)
    match delta with
    | Name name => or_insert (tool_names a) cid name
    | ArgumentsFragment _ => tool_names a
    end (tool_call_ids a) (completed_tool_correlations a).

Definition called_state (a : LlmStreamAssembler) (cid : string) (p : ToolCallOutputPart)
    : LlmStreamAssembler :=
  with_tools a (or_insert (tool_correlations a) cid (call_part_id p)) (tool_names a)
    ({[call_id p]} ∪ tool_call_ids a) ({[cid]} ∪ completed_tool_correlations a).

Section events.
Context (a : LlmStreamAssembler) (ds : history) (R : represents a ds).

Lemma mark_value_state pid k (a1 : LlmStreamAssembler) :
  parts a1 = parts a -> open_as ds pid k = true ->
  mark_value_emitted pid a1
  = (Ok tt, with_parts a1 (<[pid := {| kind := k; complete := false; value_emitted := true |}]> (parts a))).
Proof using R.
  intros Hp Ho. unfold mark_value_emitted, mbind, st_bind, st_get. simpl.
  rewrite Hp, (open_part _ _ R _ _ Ho). done.
Qed.

Lemma push_and_mark pid k c :
  open_as ds pid k = true ->
  decides ((_ ← push_public c; mark_value_emitted pid) a) a (valued_state a pid k c)
    (has_room a = true).
Proof using R.
  intros Ho. unfold has_room, push_public, mbind, st_bind, st_get, raise, st_read, decides, st_put. simpl.
  unfold ensure_public_item_slot.
  destruct (max_public_items (limits a) <=? Z.of_nat (length (accepted a))); simpl.
  - right. split; [done | eauto].
  - left. split; [done|]. by rewrite (mark_value_state pid k).
Qed.

Lemma complete_decides pid k c :
  decides (complete_public_part pid k c a) a (valued_state a pid k c)
    (open_as ds pid k && negb (valued ds pid) = true /\ has_room a = true).
Proof using R.
  apply (decides_check _ _ (fun _ => _ ← push_public c; mark_value_emitted pid)).
  { by apply checks_pending. }
  intros [Ho _]%andb_prop. by apply push_and_mark.
Qed.

Lemma result_decides p :
  response_started a = true ->
  decides (apply (ToolResultComplete p) a) a
    (valued_state a (result_id p) KToolResult (AToolResult p))
    (open_as ds (result_id p) KToolResult && negb (valued ds (result_id p)) = true
     /\ called ds (result_call_id p) = true /\ has_room a = true).
Proof using R.
  intros Hst. unfold apply. unfold mbind at 1, st_bind at 1, st_get. rewrite Hst. simpl.
  eapply (decides_check _ _ (fun _ => _ ← raise _; _ ← push_public _; mark_value_emitted _)).
  { by apply checks_pending. }
  intros [Ho _]%andb_prop.
  eapply (decides_check _ _ (fun _ => _ ← push_public _; mark_value_emitted _)).
  { rewrite <- (rep_calls _ _ R). by apply checks_guard_not. }
  intros _. by apply push_and_mark.
Qed.

Lemma text_decides pid text :
  limits_wf (limits a) ->
  decides (apply_text_delta pid text a) a (text_state a pid text)
    (open_as ds pid KText = true /\ is_empty text = false
     /\ text_total ds + len text <= max_text_bytes (limits a)
     /\ (text_index pid (content_of ds) = None -> has_room a = true)).
Proof using R.
  intros L. destruct (lw_text _ L) as [_ Hmax].
  assert (Hidx : text_indices a !! pid = text_index pid (accepted a)).
  { by rewrite (rep_indices _ _ R), (rep_accepted _ _ R). }
  unfold apply_text_delta. unfold mbind at 1, st_bind at 1, st_get. simpl.
  eapply decides_iff; [|eapply (decides_check _ _ (fun _ => _ ← raise _; _)); [by apply checks_open|]];
    [apply (and_iff_compat_l (open_as ds pid KText = true)) |]; [reflexivity|].
  intros _. eapply decides_iff; [|eapply (decides_check _ _ (fun _ => next ← raise _; _)); [by apply checks_guard|]];
    [apply and_iff_compat_r; apply negb_true_iff |].
  intros _. unfold mbind, st_bind, raise, st_read. simpl. unfold checked_add.
  rewrite (rep_text_bytes _ _ R), <- (rep_accepted _ _ R), <- Hidx.
  destruct (Z.leb_spec (text_total ds + len text) usize_max); simpl;
    [|right; split; [lia | eauto]].
  destruct (Z.ltb_spec (max_text_bytes (limits a)) (text_total ds + len text)); simpl;
    [right; split; [lia | eauto]|].
  unfold text_state. rewrite (rep_text_bytes _ _ R).
  destruct (text_indices a !! pid) as [i|] eqn:Ei.
  - destruct (text_index_Some pid (accepted a) i) as (s & Hs & Hadd); [congruence|].
    rewrite Hs, Hadd. left. split; [split; [lia | done] | done].
  - rewrite (text_index_None pid text (accepted a)) by congruence.
    unfold ensure_public_item_slot, has_room.
    destruct (max_public_items (limits a) <=? Z.of_nat (length (accepted a))); simpl.
    + right. split; [naive_solver | eauto].
    + left. split; [split; [lia | done] | done].
Qed.

Lemma delta_decides pid cid delta :
  decides (apply_tool_call_delta pid cid delta a) a (delta_state a pid cid delta)
    (open_as ds pid KToolCall && negb (valued ds pid) = true
     /\ negb (finished ds cid) = true /\ valid_identity cid = true
     /\ match delta with
        | Name n => valid_identity n && agrees (named ds cid) n
        | ArgumentsFragment _ => true
        end = true
     /\ agrees (correlated ds cid) pid = true /\ True).
Proof using R.
  unfold apply_tool_call_delta. unfold mbind at 1, st_bind at 1, st_get. simpl.
  eapply (decides_check _ _ (fun _ => _ ← raise _; _)); [by apply checks_pending|]; intros _.
  eapply (decides_check _ _ (fun _ => _ ← raise _; _)).
  { rewrite <- (rep_completed _ _ R). by apply checks_guard. }
  intros _. eapply (decides_check _ _ (fun _ => _ ← raise _; _)); [by apply checks_identity|].
  intros _. eapply (decides_check _ _ (fun _ => _ ← raise _; _)).
  { destruct delta as [n|]; [|done]. apply checks_bind; [by apply checks_identity|].
    rewrite (differs_agrees _ _ _ _ (rep_names _ _ R cid)). by apply checks_guard_not. }
  intros _. eapply (decides_check _ _ (fun _ => st_put _)); [|intros _; apply decides_put].
  rewrite (differs_agrees _ _ _ _ (rep_correlations _ _ R cid)). by apply checks_guard_not.
Qed.

Lemma call_decides cid p :
  decides (apply_tool_call_complete cid p a) a
    (valued_state (called_state a cid p) (call_part_id p) KToolCall (AToolCall cid p))
    (open_as ds (call_part_id p) KToolCall && negb (valued ds (call_part_id p)) = true
     /\ valid_identity cid = true
     /\ negb (finished ds cid || called ds (call_id p)) = true
     /\ agrees (correlated ds cid) (call_part_id p) && agrees (named ds cid) (call_name p) = true
     /\ has_room a = true /\ True).
Proof using R.
  unfold apply_tool_call_complete. unfold mbind at 1, st_bind at 1, st_get. simpl.
  eapply (decides_check _ _ (fun _ => _ ← raise _; _)); [by apply checks_pending|].
  intros [Ho _]%andb_prop.
  eapply (decides_check _ _ (fun _ => _ ← raise _; _)); [by apply checks_identity|].
  intros _. eapply (decides_check _ _ (fun _ => _ ← raise _; _)).
  { rewrite <- (rep_completed _ _ R), <- (rep_calls _ _ R). by apply checks_guard. }
  intros _. eapply (decides_check _ _ (fun _ => _ ← raise _; _)).
  { rewrite (differs_agrees _ _ _ _ (rep_correlations _ _ R cid)),
      (differs_agrees _ _ _ _ (rep_names _ _ R cid)), <- negb_andb.
    by apply checks_guard_not. }
  intros _. eapply (decides_check _ _ (fun _ => _ ← st_put _; _)); [by apply checks_guard|].
  intros _. left. split; [done|].
  unfold mbind, st_bind, st_put. by rewrite (mark_value_state _ KToolCall).
Qed.

Lemma part_start_decides pid k :
  decides (apply_part_start pid k a) a
    (with_parts a (<[pid := {| kind := k; complete := false; value_emitted := false |}]> (parts a)))
    (valid_identity pid = true /\ bool_decide (started ds pid = None) = true
     /\ negb (max_parts (limits a) <=? Z.of_nat (part_count ds)) = true /\ True).
Proof using R.
  unfold apply_part_start. unfold mbind at 1, st_bind at 1, st_get. simpl.
  eapply (decides_check _ _ (fun _ => _ ← raise _; _)); [by apply checks_identity|]; intros _.
  eapply (decides_check _ _ (fun _ => _ ← raise _; _)).
  { replace (bool_decide (started ds pid = None)) with (negb (bool_decide (is_Some (parts a !! pid)))).
    { by apply checks_guard. }
    rewrite (rep_parts _ _ R). unfold part_at. by destruct (started ds pid). }
  intros _. eapply (decides_check _ _ (fun _ => st_put _)); [|intros _; apply decides_put].
  rewrite <- (rep_part_count _ _ R). by apply checks_guard.
Qed.

Lemma part_complete_decides pid :
  decides (apply_part_complete pid a) a
    (with_parts a (match started ds pid with
       | Some k => <[pid := {| kind := k; complete := true; value_emitted := valued ds pid |}]> (parts a)
       | None => parts a end))
    (negb (closed ds pid)
     && match started ds pid with
        | Some k => bool_decide (k = KText) || valued ds pid
        | None => false
        end = true).
Proof using R.
  unfold apply_part_complete. unfold mbind at 1, st_bind at 1, st_get. simpl.
  rewrite (rep_parts _ _ R). unfold part_at. destruct (started ds pid) as [k|]; simpl.
  - destruct (closed ds pid); simpl; [by apply decides_fail|].
    destruct (bool_decide (k = KText)) eqn:Ek, (valued ds pid); simpl;
      solve [by left | by apply decides_fail].
  - rewrite andb_false_r. by apply decides_fail.
Qed.
End events.

(** The event is acceptable after the history: permitted, with valid identities,
    and within the ceilings. *)
Record admissible (l : StreamLimits) (ds : history) (d : LlmStreamEventData) : Prop := {
  adm_permitted : permitted ds d = true;
  adm_identities : forallb valid_identity (identities d) = true;
  adm_within : within l (ds ++ [d]);
}.

(** The state [apply] moves to. *)
Definition post (a : LlmStreamAssembler) (ds : history) (d : LlmStreamEventData) : LlmStreamAssembler :=
  match d with
  | ResponseStart _ => with_started a
  | PartStart pid k =>
      with_parts a (<[pid := {| kind := k; complete := false; value_emitted := false |}]> (parts a))
  | TextDelta pid text => text_state a pid text
  | ToolCallDelta pid cid delta => delta_state a pid cid delta
  | ToolCallComplete cid p =>
      valued_state (called_state a cid p) (call_part_id p) KToolCall (AToolCall cid p)
  | PartComplete pid =>
      with_parts a (match started ds pid with
        | Some k => <[pid := {| kind := k; complete := true; value_emitted := valued ds pid |}]> (parts a)
        | None => parts a end)
  | UsageSnapshot _ | Warning _ => a
  | _ => match value_of d, item_of d with
         | Some (pid, k), Some c => valued_state a pid k c
         | _, _ => a
         end
  end.

Lemma within_snoc l ds d :
  within l ds ->
  (within l (ds ++ [d]) <->
   (is_start d = true -> negb (max_parts l <=? Z.of_nat (part_count ds)) = true)
   /\ text_total ds + text_of d <= max_text_bytes l
   /\ Z.of_nat (length (absorb (content_of ds) d)) <= max_public_items l).
Proof.
  intros [Hp Hi Ht]. rewrite negb_true_iff, Z.leb_gt. split.
  - intros [Hp' Hi' Ht']. rewrite part_count_snoc, content_of_snoc, text_total_snoc in *.
    repeat split; [|done|done]. intros Hs. rewrite Hs in Hp'. lia.
  - intros (Hp' & Ht' & Hi').
    split; rewrite ?part_count_snoc, ?content_of_snoc, ?text_total_snoc; [|done|done].
    destruct (is_start d); [specialize (Hp' eq_refl)|]; lia.
Qed.

Section refines.
Context (a : LlmStreamAssembler) (ds : history).
Context (R : represents a ds) (L : limits_wf (limits a)) (W : within (limits a) ds).
Context (N : next_sequence a = Z.of_nat (length ds)).

Lemma room_iff c :
  has_room a = true <-> Z.of_nat (length (content_of ds ++ [c])) <= max_public_items (limits a).
Proof using R.
  unfold has_room. rewrite (rep_accepted _ _ R), negb_true_iff, Z.leb_gt, length_app. simpl. lia.
Qed.

Lemma room_text pid text :
  text_total ds + len text <= max_text_bytes (limits a) /\
  (text_index pid (content_of ds) = None -> has_room a = true)
  <-> text_total ds + len text <= max_text_bytes (limits a) /\
  Z.of_nat (length (add_text pid text (content_of ds))) <= max_public_items (limits a).
Proof using R W.
  rewrite (room_iff (AText pid text)), length_app, length_add_text. simpl.
  pose proof (within_items _ _ W).
  destruct (text_index pid (content_of ds)); split; intros [Ht Hr]; (split; [done|]).
  - done.
  - done.
  - specialize (Hr eq_refl). lia.
  - intros _. lia.
Qed.

(** What acceptance asks beyond the protocol, for a history within the ceilings. *)
Lemma admissible_iff d :
  admissible (limits a) ds d <->
  permitted ds d = true /\ forallb valid_identity (identities d) = true
  /\ (is_start d = true -> negb (max_parts (limits a) <=? Z.of_nat (part_count ds)) = true)
  /\ text_total ds + text_of d <= max_text_bytes (limits a)
  /\ Z.of_nat (length (absorb (content_of ds) d)) <= max_public_items (limits a).
Proof using W.
  rewrite <- (within_snoc _ _ _ W). split; [intros []; tauto | intros (?&?&?); by split].
Qed.

Lemma text_fits_already : text_total ds + 0 <= max_text_bytes (limits a).
Proof using W. pose proof (within_text _ _ W). lia. Qed.

Lemma value_admissible d pid k c :
  value_of d = Some (pid, k) -> item_of d = Some c -> ds <> [] ->
  admissible (limits a) ds d <->
  permitted ds d = true /\ forallb valid_identity (identities d) = true /\ has_room a = true.
Proof using R W.
  intros Hv Hc Hne. rewrite admissible_iff.
  assert (is_start d = false /\ text_of d = 0 /\ absorb (content_of ds) d = content_of ds ++ [c]
    ) as (-> & -> & ->) by (destruct d; simplify_eq/=; done).
  rewrite (room_iff c). pose proof text_fits_already. naive_solver.
Qed.

Lemma quiet_admissible d :
  is_start d = false -> text_of d = 0 -> absorb (content_of ds) d = content_of ds ->
  admissible (limits a) ds d <->
  permitted ds d = true /\ forallb valid_identity (identities d) = true.
Proof using W.
  intros Hs Ht Hc. rewrite admissible_iff, Hs, Ht, Hc. pose proof text_fits_already.
  pose proof (within_items _ _ W). naive_solver.
Qed.

Lemma response_start_decides rid :
  decides (apply (ResponseStart rid) a) a (with_started a)
    (admissible (limits a) ds (ResponseStart rid)).
Proof using R W N.
  eapply decides_iff; [symmetry; by apply quiet_admissible|]. simpl.
  unfold apply. unfold mbind at 1, st_bind at 1, st_get. rewrite (rep_started _ _ R), N.
  destruct ds as [|d0 ds']; [|by apply decides_fail; naive_solver].
  change (bool_decide _) with true. simpl.
  eapply decides_iff; [|eapply (decides_check _ _ (fun _ => st_put _));
    [apply checks_identity | intros _; apply decides_put]].
  rewrite andb_true_r. tauto.
Qed.

Ltac unfold_value Hne :=
  match goal with
  | |- context [admissible _ _ ?d] => rewrite (value_admissible d _ _ _ eq_refl eq_refl Hne)
  end.

(** [apply] accepts exactly the admissible events. *)
Lemma apply_decides d :
  decides (apply d a) a (post a ds d) (admissible (limits a) ds d).
Proof using R L W N.
  destruct (decide (ds = [])) as [Hnil|Hne].
  { destruct d; try apply response_start_decides; unfold apply;
      unfold mbind at 1, st_bind at 1, st_get; rewrite (rep_started _ _ R), Hnil;
      (apply decides_fail; [done|]); by intros [Hp _ _]. }
  assert (Hst : response_started a = true).
  { rewrite (rep_started _ _ R). by rewrite bool_decide_false. }
  destruct d as [rid|pid k|pid text|p|pid cid delta|cid p|p|p|m|p|u|w|pid];
    first [apply response_start_decides | idtac].
  all: try (eapply decides_iff; [|by apply result_decides];
    unfold_value Hne; simpl;
    rewrite (bool_decide_false (ds = [])), !andb_true_iff by done; tauto).
  all: unfold apply; unfold mbind at 1, st_bind at 1, st_get; rewrite Hst; simpl.
  all: try (eapply decides_iff; [|by apply complete_decides];
    unfold_value Hne; simpl;
    rewrite (bool_decide_false (ds = [])), !andb_true_iff by done; tauto).
  all: try (left; split; [|done]; apply quiet_admissible; try done; simpl;
    by rewrite bool_decide_false).
  - eapply decides_iff; [|by apply part_start_decides]. rewrite admissible_iff. simpl.
    rewrite (bool_decide_false (ds = [])), andb_true_r by done. simpl.
    pose proof text_fits_already. pose proof (within_items _ _ W). naive_solver.
  - eapply decides_iff; [|by apply text_decides]. rewrite admissible_iff. simpl.
    rewrite room_text, (bool_decide_false (ds = [])) by done. simpl. rewrite andb_true_iff, negb_true_iff.
    split; intros; destruct_and!; repeat split; done.
  - eapply decides_iff; [|by apply delta_decides]. rewrite quiet_admissible by done. simpl.
    rewrite (bool_decide_false (ds = [])), !andb_true_iff by done.
    destruct delta; simpl; rewrite ?andb_true_iff; tauto.
  - eapply decides_iff; [|by apply call_decides].
    unfold_value Hne. simpl.
    rewrite (bool_decide_false (ds = [])), negb_orb, !andb_true_iff by done. tauto.
  - eapply decides_iff; [|by apply part_complete_decides]. rewrite quiet_admissible by done. simpl.
    rewrite (bool_decide_false (ds = [])) by done. simpl. tauto.
Qed.

(** ** [post] represents the longer history *)
Lemma part_at_snoc d pid :
  part_at (ds ++ [d]) pid
  = (fun k => {| kind := k; complete := closed ds pid || is_close pid d;
                 value_emitted := valued ds pid || is_value pid d |})
      <$> match started ds pid with Some k => Some k | None => starts pid d end.
Proof using Type.
  unfold part_at. by rewrite started_snoc, closed_snoc, valued_snoc.
Qed.

Lemma part_at_same d pid :
  starts pid d = None -> is_close pid d = false -> is_value pid d = false ->
  part_at (ds ++ [d]) pid = part_at ds pid.
Proof using Type.
  intros Hs Hc Hv. rewrite part_at_snoc, Hs, Hc, Hv, !orb_false_r. unfold part_at.
  by destruct (started ds pid).
Qed.

Lemma value_parts d pid k :
  value_of d = Some (pid, k) -> open_as ds pid k = true ->
  forall i, <[pid := {| kind := k; complete := false; value_emitted := true |}]> (parts a) !! i
            = part_at (ds ++ [d]) i.
Proof using R.
  intros Hv [Hs Hc]%andb_prop i. apply bool_decide_eq_true in Hs. apply negb_true_iff in Hc.
  destruct (decide (pid = i)) as [<-|Hne].
  - rewrite lookup_insert_eq, part_at_snoc, Hs, Hc. unfold is_value. rewrite Hv. simpl.
    rewrite bool_decide_true, orb_true_r by done. by destruct d.
  - rewrite lookup_insert_ne, (rep_parts _ _ R) by done. rewrite part_at_same; [done|..].
    + by destruct d.
    + by destruct d.
    + unfold is_value. rewrite Hv. by rewrite bool_decide_false.
Qed.

Lemma permitted_value d pid k :
  value_of d = Some (pid, k) -> permitted ds d = true ->
  open_as ds pid k = true /\ valued ds pid = false.
Proof using Type.
  intros Hv Hp. destruct d; simplify_eq/=; rewrite !andb_true_iff, !negb_true_iff in Hp; tauto.
Qed.

Lemma parts_post d :
  permitted ds d = true -> forall i, parts (post a ds d) !! i = part_at (ds ++ [d]) i.
Proof using R.
  intros Hp. destruct (value_of d) as [[pid k]|] eqn:Hv.
  - destruct (permitted_value _ _ _ Hv Hp) as [Ho _].
    pose proof (value_parts _ _ _ Hv Ho) as Hparts. by destruct d; simplify_eq/=.
  - intros i. destruct d as [rid|pid k|pid text|p|pid cid delta|cid p|p|p|m|p|u|w|pid];
      simplify_eq/=; rewrite ?(rep_parts _ _ R); try (symmetry; by apply part_at_same).
    + apply andb_prop in Hp as [_ Hp]. apply bool_decide_eq_true in Hp.
      destruct (rep_fresh _ _ R pid Hp) as [Hc Hva].
      destruct (decide (pid = i)) as [<-|Hne].
      * rewrite lookup_insert_eq, part_at_snoc, Hp, Hc, Hva. simpl.
        by rewrite bool_decide_true.
      * rewrite lookup_insert_ne, (rep_parts _ _ R) by done. symmetry.
        apply part_at_same; simpl; by rewrite ?bool_decide_false.
    + rewrite !andb_true_iff in Hp. destruct Hp as (_ & _ & Hp).
      destruct (started ds pid) as [k|] eqn:Es; [|done].
      destruct (decide (pid = i)) as [<-|Hne].
      * rewrite lookup_insert_eq, part_at_snoc, Es. simpl.
        rewrite bool_decide_true, orb_true_r, orb_false_r by done. done.
      * rewrite lookup_insert_ne, (rep_parts _ _ R) by done. symmetry.
        apply part_at_same; simpl; by rewrite ?bool_decide_false.
Qed.

Lemma part_count_post d :
  permitted ds d = true -> base.size (parts (post a ds d)) = part_count (ds ++ [d]).
Proof using R.
  intros Hp. rewrite part_count_snoc, <- (rep_part_count _ _ R).
  assert (Hreplace : forall pid st, is_Some (parts a !! pid) ->
    base.size (<[pid := st]> (parts a)) = base.size (parts a)).
  { intros pid st Hs. by apply map_size_insert_Some. }
  destruct (value_of d) as [[pid k]|] eqn:Hv.
  - destruct (permitted_value _ _ _ Hv Hp) as [Ho _].
    pose proof (open_part _ _ R _ _ Ho) as Hpart.
    destruct d; simplify_eq/=; rewrite Hreplace by eauto; lia.
  - destruct d as [rid|pid k|pid text|p|pid cid delta|cid p|p|p|m|p|u|w|pid];
      simplify_eq/=; try lia.
    + apply andb_prop in Hp as [_ Hp]. apply bool_decide_eq_true in Hp.
      rewrite map_size_insert_None; [lia|]. rewrite (rep_parts _ _ R). unfold part_at. by rewrite Hp.
    + rewrite !andb_true_iff in Hp. destruct Hp as (_ & _ & Hp).
      destruct (started ds pid) as [k|] eqn:Es; [|done].
      rewrite Hreplace; [lia|]. rewrite (rep_parts _ _ R). unfold part_at. rewrite Es. eauto.
Qed.

Lemma fresh_post d pid :
  permitted ds d = true -> started (ds ++ [d]) pid = None ->
  closed (ds ++ [d]) pid = false /\ valued (ds ++ [d]) pid = false.
Proof using R.
  rewrite started_snoc, closed_snoc, valued_snoc. intros Hp Hs.
  destruct (started ds pid) eqn:Es; [done|].
  destruct (rep_fresh _ _ R pid Es) as [-> ->]. simpl. split.
  - destruct d as [| | | | | | | | | | | |i]; try done. simpl in *.
    destruct (decide (i = pid)) as [->|]; [|by apply bool_decide_false].
    by rewrite Es, !andb_false_r in Hp.
  - unfold is_value. destruct (value_of d) as [[i k]|] eqn:Hv; [|done].
    destruct (permitted_value _ _ _ Hv Hp) as [[Ho _]%andb_prop _].
    apply bool_decide_eq_true in Ho. apply bool_decide_false. congruence.
Qed.

Lemma tools_post d :
  (forall cid, tool_correlations (post a ds d) !! cid = correlated (ds ++ [d]) cid)
  /\ (forall cid, tool_names (post a ds d) !! cid = named (ds ++ [d]) cid)
  /\ (forall id, bool_decide (id ∈ tool_call_ids (post a ds d)) = called (ds ++ [d]) id)
  /\ (forall cid, bool_decide (cid ∈ completed_tool_correlations (post a ds d))
                  = finished (ds ++ [d]) cid).
Proof using R.
  clear L W N. assert (Hset : forall x y (s : gset string) b, bool_decide (x ∈ s) = b ->
    bool_decide (x ∈ {[y]} ∪ s) = b || bool_decide (y = x)).
  { intros x y s b <-. apply bool_decide_ext_orb. set_solver. }
  repeat split; intros x;
    rewrite ?correlated_snoc, ?named_snoc, ?called_snoc, ?finished_snoc;
    [rewrite <- (rep_correlations _ _ R) | rewrite <- (rep_names _ _ R)
    | rewrite <- (rep_calls _ _ R) | rewrite <- (rep_completed _ _ R)];
    destruct d as [rid|pid k|pid text|p|pid cid delta|cid p|p|p|m|p|u|w|pid]; simpl;
    rewrite ?orb_false_r; try done; try apply or_insert_lookup;
    try (by destruct (tool_correlations a !! x)); try (by destruct (tool_names a !! x)).
  all: try by apply Hset.
  destruct delta; [apply or_insert_lookup | by destruct (tool_names a !! x)].
Qed.

Lemma content_post d :
  permitted ds d = true ->
  accepted (post a ds d) = content_of (ds ++ [d])
  /\ (forall pid, text_indices (post a ds d) !! pid = text_index pid (content_of (ds ++ [d])))
  /\ text_bytes (post a ds d) = text_total (ds ++ [d]).
Proof using R.
  intros Hp. rewrite content_of_snoc, text_total_snoc, <- (rep_accepted _ _ R), <- (rep_text_bytes _ _ R).
  assert (Hix : forall i, text_indices a !! i = text_index i (accepted a)).
  { intros i. by rewrite (rep_indices _ _ R), (rep_accepted _ _ R). }
  assert (Hitem : forall i c, (forall q s, c <> AText q s) ->
    text_indices a !! i = text_index i (accepted a ++ [c])).
  { intros i c Hc. rewrite Hix, text_index_app. destruct (text_index i (accepted a)); [done|].
    destruct c; try done. by destruct (Hc part_id text). }
  destruct d as [rid|pid k|pid text|p|pid cid delta|cid p|p|p|m|p|u|w|pid]; simpl;
    (split; [done | split; [|lia]]); intros i; try apply Hix; try by apply Hitem.
  destruct (text_index pid (accepted a)) as [j|] eqn:Ej; rewrite Hix, Ej.
  - destruct (text_index_Some _ _ _ Ej) as (s & Hs & ->). by rewrite (text_index_insert _ _ _ _ _ _ Hs), Hix.
  - rewrite (text_index_None _ _ _ Ej), text_index_app, <- Hix.
    destruct (decide (pid = i)) as [<-|Hne].
    + rewrite lookup_insert_eq, Hix, Ej. by rewrite bool_decide_true.
    + rewrite lookup_insert_ne by done. rewrite (bool_decide_false (pid = i)) by done.
      by destruct (text_indices a !! i).
Qed.

Lemma represents_post d : permitted ds d = true -> represents (post a ds d) (ds ++ [d]).
Proof using R.
  clear L W N. intros Hp. destruct (tools_post d) as (?&?&?&?), (content_post d Hp) as (?&?&?).
  split; try done.
  - rewrite bool_decide_false by (by destruct ds).
    assert (Hst : (exists rid, d = ResponseStart rid) \/ response_started a = true).
    { rewrite (rep_started _ _ R). destruct d; simpl in Hp; eauto;
        right; by apply andb_prop in Hp as [? _]. }
    destruct Hst as [[rid ->]|Hst]; [done|]. by destruct d; simpl.
  - by apply parts_post.
  - by apply part_count_post.
  - intros pid. by apply fresh_post.
Qed.
End refines.

Lemma represents_new rid l : represents (assembler_new rid l) [].
Proof. by split. Qed.
