(* ===== verification/StreamTheorems.v ===== *)
(** * Streams: what every reachable assembler and validator guarantees

    Any sequence of [emit] and [terminate] calls, refused ones included, from a new
    assembler: the events it handed out are numbered, bounded and end with one
    terminal event whose snapshot is the accepted content; tool results refer to
    completed calls; a validator accepts exactly those event lists; and a stream
    that has started can always be ended. *)
From S2P Require Import Prelude Machine Text Stream StreamFacts.

(** The non-terminal events of a list, in order. *)
Definition data_of (e : LlmStreamEvent) : option LlmStreamEventData :=
  match payload e with Event d => Some d | Terminal _ => None end.
Definition datas (es : list LlmStreamEvent) : history := omap data_of es.

Inductive call := Emit (d : LlmStreamEventData) | Terminate (s : StreamTerminalState).

Section runs.
Context `{Serde}.

Definition exec (c : call) : Op LlmStreamEvent :=
  match c with Emit d => emit d | Terminate s => terminate s end.

(** [reach rid l a es]: calls on a new assembler led to [a] and handed out [es]. *)
Inductive reach (rid : string) (l : StreamLimits) : LlmStreamAssembler -> list LlmStreamEvent -> Prop :=
| reach_new : reach rid l (assembler_new rid l) []
| reach_call a es c ev a' :
    reach rid l a es -> exec c a = (Ok ev, a') -> reach rid l a' (es ++ [ev])
| reach_refused a es c s a' :
    reach rid l a es -> exec c a = (Err s, a') -> reach rid l a' es.

(** The validator on a list of events, stopping at the first refusal. *)
Fixpoint accept_all (es : list LlmStreamEvent) : Op unit :=
  match es with [] => mret tt | e :: es' => _ ← accept e; accept_all es' end.

(** ** The two operations as checks followed by an update *)
Definition bytes_after (a : LlmStreamAssembler) (d : LlmStreamEventData)
    : result StreamInvariantError Z :=
  _ ← guard_err (negb (nonterminal_event_fits a d)) EventPayloadLimitExceeded;
  bytes ← prospective_accepted_bytes a d;
  _ ← ensure_terminal_snapshot_fits a bytes;
  Ok bytes.

Lemma emit_eq d a :
  emit d a =
  match (_ ← guard_err (terminal a) EventAfterTerminal; _ ← ensure_nonterminal_slot a;
         bytes_after a d) with
  | Err e => (Err (Raised e), a)
  | Ok bytes =>
      match apply d a with
      | (Err s, a1) => (Err s, a1)
      | (Ok _, a1) =>
          let a2 := with_progress a1 (next_sequence a1) (terminal a1) bytes in
          match advance_sequence a2 with
          | (Ok _, a3) => (Ok (event a2 (Event d)), a3)
          | (Err s, a3) => (Err s, a3)
          end
      end
  end.
Proof.
  unfold emit, bytes_after, mbind, st_bind, result_bind, st_get, st_modify, raise, st_read. simpl.
  destruct (terminal a); [done|]. simpl.
  destruct (ensure_nonterminal_slot a) as [[]|]; [|done]. simpl.
  destruct (nonterminal_event_fits a d); [|done]. simpl.
  destruct (prospective_accepted_bytes a d) as [bytes|]; [|done]. simpl.
  destruct (ensure_terminal_snapshot_fits a bytes) as [[]|]; [|done]. simpl.
  destruct (apply d a) as [[[]|] a1]; [|done]. simpl.
  by destruct (advance_sequence _) as [[[]|] a3].
Qed.

Lemma advance_sequence_ok a :
  next_sequence a < u64_max ->
  advance_sequence a
  = (Ok tt, with_progress a (next_sequence a + 1) (terminal a) (accepted_serialized_bytes a)).
Proof.
  intros Hn. unfold advance_sequence, mbind, st_bind, st_get, raise, st_read, checked_add. simpl.
  destruct (Z.leb_spec (next_sequence a + 1) u64_max); [done | lia].
Qed.

Definition terminal_event (a : LlmStreamAssembler) (s : StreamTerminalState) : LlmStreamEvent :=
  event a (Terminal {| terminal_state := s; accepted_public_content := accepted a |}).

Definition terminate_checks (a : LlmStreamAssembler) (s : StreamTerminalState)
    : result StreamInvariantError unit :=
  _ ← guard_err (terminal a) DuplicateTerminal;
  _ ← ensure_event_slot a;
  _ ← guard_err (negb (response_started a)) ResponseNotStarted;
  _ ← (if is_partial s then guard_err (bool_decide (accepted a = [])) PartialWithoutPublicContent
       else guard_err (any_open (parts a)) OpenPartAtTerminal);
  guard_err (negb (serialized_fits (JEvent (terminal_event a s)) (max_event_bytes (limits a))))
    EventPayloadLimitExceeded.

Lemma terminate_eq s a :
  next_sequence a < u64_max \/ max_events (limits a) <= u64_max ->
  terminate s a =
  match terminate_checks a s with
  | Err e => (Err (Raised e), a)
  | Ok _ => (Ok (terminal_event a s),
             with_progress a (next_sequence a + 1) true (accepted_serialized_bytes a))
  end.
Proof.
  intros Hn. unfold terminate, terminate_checks, mbind, st_bind, result_bind, st_get, st_put,
    raise, st_read. simpl.
  destruct (terminal a); [done|]. simpl.
  unfold ensure_event_slot. destruct (Z.leb_spec (max_events (limits a)) (next_sequence a)); [done|].
  simpl. destruct (response_started a); [|done]. simpl.
  destruct (if is_partial s then _ else _) as [[]|]; [|done]. simpl. fold (terminal_event a s).
  destruct (serialized_fits (JEvent (terminal_event a s)) _); [|done]. simpl.
  rewrite advance_sequence_ok; [done | simpl; lia].
Qed.

(** ** The invariant *)

(** The [i]-th event of a stream. *)
Definition numbered (rid : string) (n : nat) (p : LlmStreamPayload) : LlmStreamEvent :=
  {| schema_version := CURRENT; event_request_id := rid; sequence := Z.of_nat n; payload := p |}.

(** A history in which every event was acceptable when it was added. *)
Definition lawful (l : StreamLimits) (ds : history) : Prop :=
  forall pre d post, ds = pre ++ d :: post -> admissible l pre d.

(** A partial interruption keeps some content; any other ending closes every part. *)
Definition endable (ds : history) (s : StreamTerminalState) : Prop :=
  if is_partial s then content_of ds <> []
  else forall pid k, started ds pid = Some k -> closed ds pid = true.

(** What ends a stream: nothing yet, or the one terminal event with the content
    accepted before it. *)
Inductive ending (rid : string) : bool -> list LlmStreamEvent -> Prop :=
| ending_open es : length (datas es) = length es -> ending rid false es
| ending_terminal es s :
    length (datas es) = length es -> es <> [] -> endable (datas es) s ->
    ending rid true (es ++ [numbered rid (length es)
      (Terminal {| terminal_state := s; accepted_public_content := content_of (datas es) |})]).

Record inv (rid : string) (l : StreamLimits) (a : LlmStreamAssembler) (es : list LlmStreamEvent)
    : Prop := {
  inv_request : request_id a = rid;
  inv_limits : limits a = l;
  inv_represents : represents a (datas es);
  inv_within : within l (datas es);
  inv_sequence : next_sequence a = Z.of_nat (length es);
  inv_numbered : forall i e, es !! i = Some e -> e = numbered rid i (payload e);
  inv_ending : ending rid (terminal a) es;
  inv_slots : terminal a = false -> es <> [] -> Z.of_nat (length es) < max_events l;
  inv_length : Z.of_nat (length es) <= max_events l;
  inv_lawful : lawful l (datas es);
  inv_fits : Forall (fun e => serialized_fits (JEvent e) (max_event_bytes l) = true) es;
}.

Lemma datas_snoc es e :
  datas (es ++ [e]) = datas es ++ match data_of e with Some d => [d] | None => [] end.
Proof. unfold datas. rewrite omap_app. simpl. by destruct (data_of e). Qed.

Lemma lawful_snoc l ds d : lawful l ds -> admissible l ds d -> lawful l (ds ++ [d]).
Proof.
  intros Hl Hd pre x post. destruct post as [|y post _] using rev_ind.
  - intros [-> [= ->]]%app_inj_tail. done.
  - rewrite app_comm_cons, app_assoc. intros [-> _]%app_inj_tail. by eapply Hl.
Qed.

Lemma numbered_snoc rid es p :
  (forall i e, es !! i = Some e -> e = numbered rid i (payload e)) ->
  forall i e, (es ++ [numbered rid (length es) p]) !! i = Some e -> e = numbered rid i (payload e).
Proof.
  intros Hes i e [He|[Hi He]]%lookup_app_Some; [by apply Hes|].
  apply list_lookup_singleton_Some in He as [Hz <-]. simpl.
  by replace i with (length es) by lia.
Qed.

Lemma frame_post a ds d :
  request_id (post a ds d) = request_id a /\ limits (post a ds d) = limits a
  /\ next_sequence (post a ds d) = next_sequence a /\ terminal (post a ds d) = terminal a.
Proof. by destruct d. Qed.

Lemma represents_progress a ds n t b :
  represents a ds -> represents (with_progress a n t b) ds.
Proof. intros []. by split. Qed.

Lemma inv_new rid l : limits_wf l -> inv rid l (assembler_new rid l) [].
Proof.
  intros [He Hp Hi Ht Hb]. split; simpl; try done.
  - split; cbn; lia.
  - by constructor.
  - lia.
  - by intros [] ? ?.
Qed.

(** The byte checks and slots never report an internal inconsistency. *)
Definition quiet {A} (r : result StreamInvariantError A) : Prop :=
  forall e, r = Err e -> e <> InvalidInternalState.

Lemma quiet_bind {A B} (r : result StreamInvariantError A) (k : A -> result StreamInvariantError B) :
  quiet r -> (forall x, quiet (k x)) -> quiet (r ≫= k).
Proof. intros Hr Hk e. destruct r as [x|e']; simpl; [apply Hk | intros [= ->]; by apply Hr]. Qed.

Lemma quiet_guard b e : e <> InvalidInternalState -> quiet (guard_err b e).
Proof. intros He e'. destruct b; simpl; congruence. Qed.

Lemma quiet_ok_or {A} (o : option A) e : e <> InvalidInternalState -> quiet (ok_or o e).
Proof. intros He e'. destruct o; simpl; congruence. Qed.

Ltac quiet_tac :=
  repeat first
    [ apply quiet_bind; [|intros ?]
    | apply quiet_guard; done
    | apply quiet_ok_or; done
    | by intros ? ?
    | case_match ].

Lemma prechecks_quiet a d :
  quiet (_ ← guard_err (terminal a) EventAfterTerminal; _ ← ensure_nonterminal_slot a;
         bytes_after a d).
Proof.
  unfold bytes_after, ensure_nonterminal_slot, prospective_accepted_bytes, added_bytes,
    new_public_item_bytes, ensure_terminal_snapshot_fits. quiet_tac.
Qed.

Lemma terminate_quiet a s : quiet (terminate_checks a s).
Proof. unfold terminate_checks, ensure_event_slot. quiet_tac. Qed.

Lemma bytes_after_fits a d bytes :
  bytes_after a d = Ok bytes ->
  serialized_fits (JEvent (event a (Event d))) (max_event_bytes (limits a)) = true.
Proof.
  unfold bytes_after. fold (nonterminal_event_fits a d). by destruct (nonterminal_event_fits a d).
Qed.

Section step.
Context (rid : string) (l : StreamLimits) (L : limits_wf l).
Context (a : LlmStreamAssembler) (es : list LlmStreamEvent) (I : inv rid l a es).

Lemma inv_open : terminal a = false -> length (datas es) = length es.
Proof using I.
  intros Ht. pose proof (inv_ending _ _ _ _ I) as He. rewrite Ht in He. by inversion He.
Qed.

Lemma slot_spec :
  match ensure_nonterminal_slot a with
  | Ok _ => Z.of_nat (length es) + 1 < max_events l
  | Err _ => max_events l <= Z.of_nat (length es) + 1
  end.
Proof using I L.
  unfold ensure_nonterminal_slot, checked_add. rewrite (inv_sequence _ _ _ _ I), (inv_limits _ _ _ _ I).
  pose proof (lw_events _ L). destruct (Z.leb_spec (Z.of_nat (length es) + 1) u64_max); simpl; [|lia].
  by destruct (Z.leb_spec (max_events l) (Z.of_nat (length es) + 1)); simpl.
Qed.

Definition emit_outcome (d : LlmStreamEventData) (res : result stop LlmStreamEvent)
    (a' : LlmStreamAssembler) : Prop :=
  match res with
  | Ok ev => terminal a = false /\ admissible l (datas es) d
      /\ Z.of_nat (length es) + 1 < max_events l
      /\ ev = numbered rid (length es) (Event d)
      /\ exists bytes, bytes_after a d = Ok bytes
        /\ a' = with_progress (post a (datas es) d) (next_sequence a + 1) false bytes
  | Err s => a' = a /\ (exists e, s = Raised e /\ e <> InvalidInternalState)
      /\ (terminal a = false -> Z.of_nat (length es) + 1 < max_events l ->
          is_ok (bytes_after a d) = true -> ~ admissible l (datas es) d)
  end.

Lemma emit_step d res a' : emit d a = (res, a') -> emit_outcome d res a'.
Proof using I L.
  rewrite emit_eq. pose proof (prechecks_quiet a d) as Hq. pose proof slot_spec as Hslot.
  destruct (terminal a) eqn:Ht; simpl in *.
  { intros [= <- <-]. split; [done|]. split; [eauto | congruence]. }
  destruct (ensure_nonterminal_slot a) as [[]|e]; simpl in *.
  2:{ intros [= <- <-]. split; [done|]. split; [eauto | intros; lia]. }
  destruct (bytes_after a d) as [bytes|e] eqn:Eb; simpl in *.
  2:{ intros [= <- <-]. split; [done|]. split; [eauto|]. by rewrite Eb. }
  pose proof (inv_open Ht) as Ho. pose proof (inv_limits _ _ _ _ I) as Hl.
  assert (Hd : decides (apply d a) a (post a (datas es) d) (admissible l (datas es) d)).
  { rewrite <- Hl. apply apply_decides; rewrite ?Hl; try apply I; [done|].
    rewrite (inv_sequence _ _ _ _ I). lia. }
  destruct (frame_post a (datas es) d) as (Hr & _ & Hn & Hpt).
  destruct Hd as [[Hadm ->]|[Hnot (e & -> & He)]].
  - rewrite advance_sequence_ok by (simpl; rewrite Hn, (inv_sequence _ _ _ _ I);
      pose proof (lw_events _ L); lia).
    simpl. intros [= <- <-]. split_and!; try done.
    + unfold event, numbered. simpl. by rewrite Hr, Hn, (inv_request _ _ _ _ I), (inv_sequence _ _ _ _ I).
    + exists bytes. split; [done|]. unfold with_progress. simpl. by rewrite Hn, Hpt, Ht.
  - intros [= <- <-]. split; [done|]. split; eauto.
Qed.

Lemma inv_emit d ev a' : emit d a = (Ok ev, a') -> inv rid l a' (es ++ [ev]).
Proof using I L.
  intros He. pose proof (emit_step _ _ _ He) as (Ht & Hadm & Hmax & -> & bytes & Hb & ->).
  destruct (frame_post a (datas es) d) as (Hr & Hl & Hn & _).
  split; rewrite ?datas_snoc; simpl.
  - by rewrite Hr, (inv_request _ _ _ _ I).
  - by rewrite Hl, (inv_limits _ _ _ _ I).
  - apply represents_progress, represents_post; [apply I | apply Hadm].
  - apply Hadm.
  - rewrite (inv_sequence _ _ _ _ I), length_app. simpl. lia.
  - apply numbered_snoc, I.
  - constructor. rewrite datas_snoc, !length_app, (inv_open Ht). done.
  - rewrite length_app. simpl. lia.
  - rewrite length_app. simpl. lia.
  - apply lawful_snoc; [apply I | done].
  - apply Forall_app. split; [apply I|]. apply Forall_singleton.
    apply bytes_after_fits in Hb. rewrite (inv_limits _ _ _ _ I) in Hb. rewrite <- Hb. f_equal.
    f_equal. unfold event, numbered. by rewrite (inv_request _ _ _ _ I), (inv_sequence _ _ _ _ I).
Qed.

Definition terminate_outcome (s : StreamTerminalState) (res : result stop LlmStreamEvent)
    (a' : LlmStreamAssembler) : Prop :=
  match res with
  | Ok ev => terminate_checks a s = Ok tt
      /\ ev = numbered rid (length es)
           (Terminal {| terminal_state := s; accepted_public_content := content_of (datas es) |})
      /\ a' = with_progress a (next_sequence a + 1) true (accepted_serialized_bytes a)
  | Err st => a' = a /\ exists e, st = Raised e /\ e <> InvalidInternalState
      /\ terminate_checks a s = Err e
  end.

Lemma terminal_event_numbered s :
  terminal_event a s = numbered rid (length es)
    (Terminal {| terminal_state := s; accepted_public_content := content_of (datas es) |}).
Proof using I.
  unfold terminal_event, event, numbered.
  by rewrite (inv_request _ _ _ _ I), (inv_sequence _ _ _ _ I),
    (rep_accepted _ _ (inv_represents _ _ _ _ I)).
Qed.

Lemma endable_iff s :
  (if is_partial s then guard_err (bool_decide (accepted a = [])) PartialWithoutPublicContent
   else guard_err (any_open (parts a)) OpenPartAtTerminal) = Ok tt <-> endable (datas es) s.
Proof using I.
  pose proof (inv_represents _ _ _ _ I) as R. unfold endable. destruct (is_partial s).
  - rewrite (rep_accepted _ _ R). by case_bool_decide.
  - assert (Hopen : any_open (parts a) = true <->
      exists pid part, parts a !! pid = Some part /\ complete part = false).
    { unfold any_open. rewrite existsb_exists. split.
      - intros ([pid part] & Hin & Hc). exists pid, part.
        apply list_elem_of_In, elem_of_map_to_list in Hin. by apply negb_true_iff in Hc.
      - intros (pid & part & Hp & Hc). exists (pid, part). simpl. rewrite Hc. split; [|done].
        by apply list_elem_of_In, elem_of_map_to_list. }
    split.
    + intros Hg%guard_ok pid k Hs. destruct (closed (datas es) pid) eqn:Ec; [done|].
      rewrite <- Hg. apply Hopen. eexists pid, _. rewrite (rep_parts _ _ R). unfold part_at.
      by rewrite Hs, Ec.
    + intros Hall. destruct (any_open (parts a)); [|done]. exfalso.
      destruct (proj1 Hopen eq_refl) as (pid & part & Hp & Hc). rewrite (rep_parts _ _ R) in Hp.
      unfold part_at in Hp. destruct (started (datas es) pid) as [k|] eqn:Es; simplify_eq/=.
      by rewrite (Hall _ _ Es) in Hc.
Qed.

Lemma terminate_step s res a' : terminate s a = (res, a') -> terminate_outcome s res a'.
Proof using I L.
  rewrite terminate_eq by (right; rewrite (inv_limits _ _ _ _ I); apply L).
  pose proof (terminate_quiet a s) as Hq.
  destruct (terminate_checks a s) as [[]|e] eqn:Ec; intros [= <- <-]; simpl.
  - repeat split; [done|]. apply terminal_event_numbered.
  - split; [done|]. exists e. repeat split; [by apply Hq | done].
Qed.

Lemma inv_terminate s ev a' : terminate s a = (Ok ev, a') -> inv rid l a' (es ++ [ev]).
Proof using I L.
  intros He. pose proof (terminate_step _ _ _ He) as (Hc & -> & ->).
  unfold terminate_checks, ensure_event_slot in Hc. inv_ok.
  rewrite (inv_sequence _ _ _ _ I), (inv_limits _ _ _ _ I) in *.
  split; rewrite ?datas_snoc, ?app_nil_r; simpl; try apply I.
  - apply represents_progress, I.
  - rewrite length_app. simpl. lia.
  - apply numbered_snoc, I.
  - constructor; [by apply inv_open| |by apply endable_iff; destruct v2]. intros ->.
    match goal with H : negb (response_started a) = false |- _ =>
      apply negb_false_iff in H; by rewrite (rep_started _ _ (inv_represents _ _ _ _ I)) in H end.
  - done.
  - rewrite length_app. simpl. lia.
  - apply Forall_app. split; [apply I|]. apply Forall_singleton.
    rewrite <- terminal_event_numbered. by apply negb_false_iff.
Qed.
End step.

Lemma stream_reach_inv rid l a es : limits_wf l -> reach rid l a es -> inv rid l a es.
Proof.
  intros L. induction 1 as [|a es c ev a' _ IH He|a es c s a' _ IH He].
  - by apply inv_new.
  - destruct c; [by eapply inv_emit | by eapply inv_terminate].
  - destruct c; simpl in He; [apply (emit_step _ _ L _ _ IH) in He as [-> _]
      | apply (terminate_step _ _ L _ _ IH) in He as [-> _]]; done.
Qed.
End runs.

(** ** Guarantees *)
Section guarantees.
Context `{Serde} (rid : string) (l : StreamLimits).

(** When an event may follow the events so far: the stream is open, a slot is left for the
    terminal event, the numbered event is within the limit of an event, the snapshot of
    the terminal event will be too, and the protocol admits it. *)
Record emittable (a : LlmStreamAssembler) (es : list LlmStreamEvent) (d : LlmStreamEventData) : Prop := {
  em_open : terminal a = false;
  em_slot : Z.of_nat (length es) + 1 < max_events l;
  em_event : serialized_fits (JEvent (numbered rid (length es) (Event d))) (max_event_bytes l) = true;
  em_snapshot : exists bytes, prospective_accepted_bytes a d = Ok bytes /\ ensure_terminal_snapshot_fits a bytes = Ok tt;
  em_admissible : admissible l (datas es) d;
}.
Lemma bytes_after_emittable a es d : inv rid l a es ->
  is_ok (bytes_after a d) = true <-> serialized_fits (JEvent (numbered rid (length es) (Event d))) (max_event_bytes l) = true
    /\ exists bytes, prospective_accepted_bytes a d = Ok bytes /\ ensure_terminal_snapshot_fits a bytes = Ok tt.
Proof.
  intros I. assert (Hfit : nonterminal_event_fits a d = serialized_fits (JEvent (numbered rid (length es) (Event d))) (max_event_bytes l)).
  { unfold nonterminal_event_fits, event, numbered. by rewrite (inv_limits _ _ _ _ I), (inv_request _ _ _ _ I), (inv_sequence _ _ _ _ I). }
  rewrite <- Hfit. unfold bytes_after. destruct (nonterminal_event_fits a d); simpl; [|naive_solver].
  destruct (prospective_accepted_bytes a d) as [bytes|]; simpl; [|naive_solver].
  destruct (ensure_terminal_snapshot_fits a bytes) as [[]|] eqn:E; simpl; naive_solver congruence.
Qed.

(** C28. The assembler implements the protocol on histories: an emitted event is
    handed out exactly when the stream is open, a slot is left for the terminal
    event, the event and the terminal event's snapshot fit their limit, and the event is
    admissible after the events so far; it carries the next number; a refusal changes
    nothing, and it is never a panic or an internal inconsistency. *)
Theorem emit_refines a es d res a' :
  limits_wf l -> reach rid l a es -> emit d a = (res, a') ->
  match res with
  | Ok ev => emittable a es d /\ ev = numbered rid (length es) (Event d)
  | Err s => ~ emittable a es d /\ a' = a /\ exists e, s = Raised e /\ e <> InvalidInternalState
  end.
Proof.
  intros L Hr He. pose proof (stream_reach_inv _ _ _ _ L Hr) as I. pose proof (emit_step _ _ L _ _ I _ _ _ He) as Ho.
  destruct res as [ev|s]; simpl in Ho.
  - destruct Ho as (Ht & Ha & Hs & -> & bytes & Hb & _). split; [|done].
    destruct (proj1 (bytes_after_emittable a es d I)) as [H1 H2]; [by rewrite Hb|]. by split.
  - destruct Ho as (-> & Hq & Hno). split_and!; [|done..]. intros [H1 H2 H3 H4 H5]. apply Hno; [done..| |done]. by apply (bytes_after_emittable a es d I).
Qed.

Lemma datas_length es : (length (datas es) <= length es)%nat.
Proof.
  unfold datas. induction es as [|x es IH]; csimpl; [done|]. destruct (data_of x); csimpl; lia.
Qed.

Lemma all_events es :
  length (datas es) = length es -> forall i e, es !! i = Some e -> exists d, payload e = Event d.
Proof.
  induction es as [|x es IH]; csimpl; [done|]. unfold datas. csimpl. intros Hl.
  pose proof (datas_length es) as Hle. unfold data_of at 1 in Hl. unfold datas in *.
  destruct (payload x) as [d|tm] eqn:Ep; csimpl in Hl; [|lia].
  intros [|i] e He; simplify_eq/=; [eauto|]. apply (IH ltac:(lia) i e He).
Qed.

Lemma first_data b es e :
  ending rid b es -> head es = Some e -> exists d, payload e = Event d /\ head (datas es) = Some d.
Proof.
  assert (Hgo : forall k, length (datas k) = length k -> head k = Some e ->
    exists d, payload e = Event d /\ head (datas k) = Some d).
  { intros k Hk He. destruct k as [|x k]; [done|]. injection He as ->.
    destruct (all_events _ Hk 0%nat e eq_refl) as [d Hd]. exists d. split; [done|].
    unfold datas. csimpl. unfold data_of at 1. by rewrite Hd. }
  destruct 1 as [k Hk|k s Hk Hne Hend]; [by apply Hgo|]. intros He.
  destruct (Hgo k Hk) as (d & Hd & Hds); [by destruct k|]. exists d. split; [done|].
  rewrite datas_snoc. by destruct (datas k).
Qed.

Lemma terminal_last b es i e tm :
  ending rid b es -> es !! i = Some e -> payload e = Terminal tm ->
  S i = length es /\ accepted_public_content tm = content_of (datas es).
Proof.
  destruct 1 as [k Hk|k s Hk Hne Hend]; intros He Ht.
  - destruct (all_events _ Hk _ _ He) as [d Hd]. congruence.
  - apply lookup_app_Some in He as [He|[Hi He]].
    + destruct (all_events _ Hk _ _ He) as [d Hd]. congruence.
    + apply list_lookup_singleton_Some in He as [Hz <-]. simplify_eq/=.
      rewrite length_app, datas_snoc, app_nil_r. simpl. split; [lia | done].
Qed.

Lemma lawful_start ds d : lawful l ds -> head ds = Some d -> exists r, d = ResponseStart r.
Proof.
  intros Hl Hd. destruct ds as [|x ds]; simplify_eq/=.
  pose proof (adm_permitted _ _ _ (Hl [] d ds eq_refl)) as Hp. destruct d; eauto; done.
Qed.

(** Every stream has the same shape: consecutive numbers from zero under one
    request identity and schema version, a response start first, at most one
    terminal event, which is the last and carries exactly the content accepted
    before it; [finish] succeeds exactly when that terminal event was emitted. *)
Theorem stream_shape a es :
  limits_wf l -> reach rid l a es ->
  (forall i e, es !! i = Some e ->
     sequence e = Z.of_nat i /\ event_request_id e = rid /\ schema_version e = CURRENT)
  /\ (forall e, head es = Some e -> exists r, payload e = Event (ResponseStart r))
  /\ (forall i e t, es !! i = Some e -> payload e = Terminal t ->
        S i = length es /\ accepted_public_content t = content_of (datas es))
  /\ (finish a = Ok tt <-> exists e t, last es = Some e /\ payload e = Terminal t).
Proof.
  intros L Hr. pose proof (stream_reach_inv _ _ _ _ L Hr) as I. split_and!.
  - intros i e He. by rewrite (inv_numbered _ _ _ _ I _ _ He).
  - intros e He. pose proof (inv_lawful _ _ _ _ I) as Hl.
    destruct (first_data _ _ _ (inv_ending _ _ _ _ I) He) as (d & Hd & Hds).
    destruct (lawful_start _ _ Hl Hds) as [r ->]. eauto.
  - intros i e t He Ht. by apply (terminal_last _ _ _ _ _ (inv_ending _ _ _ _ I) He Ht).
  - unfold finish. pose proof (inv_ending _ _ _ _ I) as He. destruct (terminal a).
    + split; [|done]. intros _. inversion He as [|es' s Hl Hne Hend]; subst.
      rewrite last_snoc. eauto.
    + split; [done|]. intros (e & t & Hlast & Ht). exfalso.
      rewrite last_lookup in Hlast. inversion He as [es' Hl|]; subst.
      destruct (all_events _ Hl _ _ Hlast) as [d Hd]. congruence.
Qed.

Lemma budget_write_sound chunks remaining :
  0 <= remaining -> budget_write remaining chunks = true -> foldr Z.add 0 chunks <= remaining.
Proof.
  revert remaining. induction chunks as [|c cs IH]; simpl; [lia|]. intros n Hn.
  destruct (Z.ltb_spec n c); [done|]. intros Hb. apply IH in Hb; lia.
Qed.

(** Bytes of text among the accepted content. *)
Definition item_text (c : AcceptedPublicContent) : Z :=
  match c with AText _ s => len s | _ => 0 end.
Definition retained_text (cs : list AcceptedPublicContent) : Z := foldr Z.add 0 (item_text <$> cs).

Lemma retained_text_add pid s cs : retained_text (add_text pid s cs) = retained_text cs + len s.
Proof.
  unfold retained_text. induction cs as [|c cs IH]; csimpl; [lia|].
  destruct c; csimpl; try case_bool_decide; csimpl; rewrite ?IH, ?len_app; lia.
Qed.

Lemma retained_text_content ds : retained_text (content_of ds) = text_total ds.
Proof.
  induction ds as [|d ds IH] using rev_ind; [done|].
  rewrite content_of_snoc, text_total_snoc, <- IH.
  assert (Hnew : forall c, item_text c = 0 ->
    retained_text (content_of ds ++ [c]) = retained_text (content_of ds) + 0).
  { intros c Hc. unfold retained_text. rewrite fmap_app, foldr_app. cbn. by rewrite Hc, !Z.add_0_r. }
  destruct d; simpl; rewrite ?retained_text_add, ?Hnew by done; lia.
Qed.

(** The assembler's memory and output stay within the configured ceilings,
    whatever is fed to it: event count (the terminal event included), parts,
    retained items, retained text bytes, and the encoded size of every event. *)
Theorem stream_bounded a es :
  limits_wf l -> reach rid l a es ->
  Z.of_nat (length es) <= max_events l
  /\ Z.of_nat (base.size (parts a)) <= max_parts l
  /\ Z.of_nat (length (accepted a)) <= max_public_items l
  /\ retained_text (accepted a) <= max_text_bytes l
  /\ (forall e, e ∈ es -> exists chunks, to_writer (JEvent e) = Some chunks
        /\ foldr Z.add 0 chunks <= max_event_bytes l).
Proof.
  intros L Hr. pose proof (stream_reach_inv _ _ _ _ L Hr) as I.
  destruct (inv_within _ _ _ _ I) as [Hp Hi Ht]. pose proof (inv_represents _ _ _ _ I) as R.
  rewrite (rep_part_count _ _ R), (rep_accepted _ _ R), retained_text_content.
  split_and!; try done; [apply I|]. intros e He.
  pose proof (proj1 (Forall_forall _ _) (inv_fits _ _ _ _ I) e He) as Hf. unfold serialized_fits in Hf.
  destruct (to_writer (JEvent e)) as [chunks|]; [|done]. exists chunks. split; [done|].
  apply budget_write_sound; [pose proof (lw_bytes _ L); lia | done].
Qed.

(** ** Lawful histories *)
Lemma lawful_inv ds d : lawful l (ds ++ [d]) -> lawful l ds /\ admissible l ds d.
Proof.
  intros Hl. split; [|by apply (Hl ds d [])]. intros pre x post ->.
  apply (Hl pre x (post ++ [d])). by rewrite <- app_assoc.
Qed.

Lemma existsb_elem {A} (f : A -> bool) ds : existsb f ds = true <-> exists d, d ∈ ds /\ f d = true.
Proof.
  rewrite existsb_exists. split; intros (d & Hd & Hf); exists d; by rewrite list_elem_of_In in *.
Qed.

Lemma called_iff ds id :
  called ds id = true <-> exists cid q, ToolCallComplete cid q ∈ ds /\ call_id q = id.
Proof.
  unfold called. rewrite existsb_elem. split.
  - intros (d & Hd & Hc). destruct d; try done. simpl in Hc. apply bool_decide_eq_true in Hc. eauto.
  - intros (cid & q & Hd & <-). eexists. split; [done|]. simpl. by apply bool_decide_eq_true.
Qed.

Lemma finished_iff ds cid : finished ds cid = true <-> exists q, ToolCallComplete cid q ∈ ds.
Proof.
  unfold finished. rewrite existsb_elem. split.
  - intros (d & Hd & Hc). destruct d; try done. simpl in Hc. apply bool_decide_eq_true in Hc as ->. eauto.
  - intros (q & Hd). eexists. split; [done|]. simpl. by apply bool_decide_eq_true.
Qed.

Lemma lawful_correlated ds cid d pid :
  lawful l ds -> d ∈ ds -> correlates cid d = Some pid -> correlated ds cid = Some pid.
Proof.
  induction ds as [|x ds IH] using rev_ind; [by intros _ ?%elem_of_nil|].
  intros [Hl [Hp _ _]]%lawful_inv Hd Hc. rewrite correlated_snoc.
  apply elem_of_app in Hd as [Hd|Hd%list_elem_of_singleton]; [by rewrite (IH Hl Hd Hc)|]. subst x.
  destruct (correlated ds cid) as [p'|] eqn:Ec; [|done]. f_equal.
  destruct d; simplify_eq/=; case_bool_decide; simplify_eq/=; rewrite Ec in Hp; simpl in Hp;
    rewrite !andb_true_iff in Hp; destruct_and!; by eapply bool_decide_eq_true.
Qed.

Lemma lawful_named ds cid d n :
  lawful l ds -> d ∈ ds -> names cid d = Some n -> named ds cid = Some n.
Proof.
  induction ds as [|x ds IH] using rev_ind; [by intros _ ?%elem_of_nil|].
  intros [Hl [Hp _ _]]%lawful_inv Hd Hc. rewrite named_snoc.
  apply elem_of_app in Hd as [Hd|Hd%list_elem_of_singleton]; [by rewrite (IH Hl Hd Hc)|]. subst x.
  destruct (named ds cid) as [n'|] eqn:Ec; [|done]. f_equal.
  destruct d as [| | | |pid c delta| | | | | | | |]; simplify_eq/=. destruct delta; simplify_eq/=.
  case_bool_decide; simplify_eq/=. rewrite Ec in Hp. simpl in Hp.
  rewrite !andb_true_iff in Hp. destruct_and!. by eapply bool_decide_eq_true.
Qed.

Lemma lawful_after pre d post x :
  lawful l (pre ++ d :: post) -> x ∈ post ->
  exists mid, permitted (pre ++ d :: mid) x = true.
Proof.
  intros Hl (p1 & p2 & ->)%list_elem_of_split. exists p1. eapply adm_permitted, Hl.
  by rewrite <- app_assoc.
Qed.

Lemma lawful_call_name ds cid p n :
  lawful l ds -> ToolCallComplete cid p ∈ ds -> named ds cid = Some n -> n = call_name p.
Proof.
  induction ds as [|x ds IH] using rev_ind; [by intros _ ?%elem_of_nil|].
  intros [Hl [Hp _ _]]%lawful_inv Hd. rewrite named_snoc.
  apply elem_of_app in Hd as [Hd|Hd%list_elem_of_singleton].
  - destruct (named ds cid) as [n'|]; [intros [= ->]; by apply IH|].
    destruct x as [| | | |pid c delta| | | | | | | |]; try done. destruct delta; [|done]. simpl.
    case_bool_decide; [|done]. subst. simpl in Hp.
    rewrite (proj2 (finished_iff ds cid)) in Hp by eauto. simpl in Hp.
    by rewrite !andb_false_r in Hp.
  - subst x. simpl. destruct (named ds cid) as [n'|] eqn:En; [|done]. intros [= ->].
    simpl in Hp. rewrite En in Hp. simpl in Hp. rewrite !andb_true_iff in Hp. destruct_and!.
    by eapply bool_decide_eq_true.
Qed.

(** Identities of completed tool calls, in order. *)
Definition completed_call (d : LlmStreamEventData) : option string :=
  match d with ToolCallComplete _ p => Some (call_id p) | _ => None end.
Definition completed_correlation (d : LlmStreamEventData) : option string :=
  match d with ToolCallComplete cid _ => Some cid | _ => None end.

Lemma lawful_NoDup (f : LlmStreamEventData -> option string) ds :
  (forall pre d x, permitted pre d = true -> f d = Some x -> x ∉ omap f pre) ->
  lawful l ds -> NoDup (omap f ds).
Proof.
  intros Hf. induction ds as [|d ds IH] using rev_ind; [by constructor|].
  intros [Hl [Hp _ _]]%lawful_inv. rewrite omap_app. csimpl. destruct (f d) as [x|] eqn:Ed;
    [|rewrite app_nil_r; by apply IH].
  apply NoDup_app. split_and!; [by apply IH | | by apply NoDup_singleton].
  intros y Hy ->%list_elem_of_singleton. by eapply Hf.
Qed.

(** Tool traffic is consistent in every stream: no two completed calls share a
    call or correlation identity; every tool result answers a call completed
    before it; the deltas of a call name the part and the tool of its completion,
    and none follows the completion. *)
Theorem tool_calls_consistent a es :
  limits_wf l -> reach rid l a es ->
  NoDup (omap completed_call (datas es)) /\ NoDup (omap completed_correlation (datas es))
  /\ (forall pre p post, datas es = pre ++ ToolResultComplete p :: post ->
        exists cid q, ToolCallComplete cid q ∈ pre /\ call_id q = result_call_id p)
  /\ (forall pid cid delta p, ToolCallDelta pid cid delta ∈ datas es ->
        ToolCallComplete cid p ∈ datas es ->
        pid = call_part_id p /\ forall n, delta = Name n -> n = call_name p)
  /\ (forall pre cid p post pid delta, datas es = pre ++ ToolCallComplete cid p :: post ->
        ToolCallDelta pid cid delta ∉ post).
Proof.
  intros L Hr. pose proof (inv_lawful _ _ _ _ (stream_reach_inv _ _ _ _ L Hr)) as Hl. split_and!.
  - apply lawful_NoDup; [|done]. intros pre d x Hp Hd Hx. destruct d; simplify_eq/=.
    apply list_elem_of_omap in Hx as (y & Hy & Hc). destruct y; simplify_eq/=.
    rewrite (proj2 (called_iff pre (call_id p))) in Hp by eauto.
    by rewrite !andb_false_r in Hp.
  - apply lawful_NoDup; [|done]. intros pre d x Hp Hd Hx. destruct d; simplify_eq/=.
    apply list_elem_of_omap in Hx as (y & Hy & Hc). destruct y; simplify_eq/=.
    rewrite (proj2 (finished_iff pre x)) in Hp by eauto. simpl in Hp. by rewrite !andb_false_r in Hp.
  - intros pre p post Hds. pose proof (adm_permitted _ _ _ (Hl _ _ _ Hds)) as Hp. simpl in Hp.
    rewrite !andb_true_iff in Hp. apply called_iff. tauto.
  - intros pid cid delta p Hd Hc.
    assert (H1 : correlated (datas es) cid = Some pid).
    { eapply lawful_correlated; [done|apply Hd|]. simpl. by rewrite bool_decide_true. }
    assert (H2 : correlated (datas es) cid = Some (call_part_id p)).
    { eapply lawful_correlated; [done|apply Hc|]. simpl. by rewrite bool_decide_true. }
    split; [congruence|]. intros n ->. eapply lawful_call_name; [done|done|].
    eapply lawful_named; [done|apply Hd|]. simpl. by rewrite bool_decide_true.
  - intros pre cid p post pid delta Hds Hin. rewrite Hds in Hl.
    destruct (lawful_after _ _ _ _ Hl Hin) as [mid Hp]. simpl in Hp.
    rewrite (proj2 (finished_iff (pre ++ ToolCallComplete cid p :: mid) cid)) in Hp
      by (exists p; set_solver).
    simpl in Hp. by rewrite !andb_false_r in Hp.
Qed.

Lemma started_elem ds pid k : started ds pid = Some k -> PartStart pid k ∈ ds.
Proof.
  induction ds as [|d ds IH] using rev_ind; [done|]. rewrite started_snoc, elem_of_app.
  destruct (started ds pid); [intros [= ->]; left; by apply IH|]. intros Hs. right.
  destruct d; simplify_eq/=. case_bool_decide; simplify_eq. by apply list_elem_of_singleton.
Qed.

Lemma lawful_started ds pid k : lawful l ds -> PartStart pid k ∈ ds -> started ds pid = Some k.
Proof.
  induction ds as [|x ds IH] using rev_ind; [by intros _ ?%elem_of_nil|].
  intros [Hl [Hp _ _]]%lawful_inv Hd. rewrite started_snoc.
  apply elem_of_app in Hd as [Hd|Hd%list_elem_of_singleton]; [by rewrite (IH Hl Hd)|]. subst x.
  simpl in *. apply andb_prop in Hp as [_ Hp]. apply bool_decide_eq_true in Hp as ->.
  by rewrite bool_decide_true.
Qed.

Lemma closed_iff ds pid : closed ds pid = true <-> PartComplete pid ∈ ds.
Proof.
  unfold closed. rewrite existsb_elem. split.
  - intros (d & Hd & Hc). destruct d; try done. simpl in Hc. by apply bool_decide_eq_true in Hc as ->.
  - intros Hd. eexists. split; [done|]. simpl. by apply bool_decide_eq_true.
Qed.

(** The parts started, given a value, and completed, in order. *)
Definition started_id (d : LlmStreamEventData) : option string :=
  match d with PartStart pid _ => Some pid | _ => None end.
Definition valued_id (d : LlmStreamEventData) : option string := fst <$> value_of d.
Definition closed_id (d : LlmStreamEventData) : option string :=
  match d with PartComplete pid => Some pid | _ => None end.
(** The part, and the kind it must have, an event adds content to. *)
Definition content_part (d : LlmStreamEventData) : option (string * StreamPartKind) :=
  match d with
  | TextDelta pid _ => Some (pid, KText)
  | ToolCallDelta pid _ _ => Some (pid, KToolCall)
  | _ => value_of d
  end.

Lemma first_start ds pid : pid ∈ omap started_id ds -> exists k, started ds pid = Some k.
Proof.
  induction ds as [|d ds IH] using rev_ind; [by intros ?%elem_of_nil|].
  rewrite omap_app, elem_of_app, started_snoc. intros [Hd|Hd].
  - destruct (IH Hd) as [k ->]. eauto.
  - destruct (started ds pid); [eauto|]. apply list_elem_of_omap in Hd as (x & Hx & Hp).
    apply list_elem_of_singleton in Hx as ->. destruct d; simplify_eq/=.
    rewrite bool_decide_true by done. eauto.
Qed.

Lemma valued_iff ds pid : valued ds pid = true <-> pid ∈ omap valued_id ds.
Proof.
  unfold valued. rewrite existsb_elem, list_elem_of_omap. unfold is_value, valued_id.
  split; intros (d & Hd & Hv); exists d; (split; [done|]);
    destruct (value_of d) as [[i k]|]; simplify_eq/=; try done.
  - by apply bool_decide_eq_true in Hv as ->.
  - by apply bool_decide_eq_true.
Qed.

Lemma permitted_content pre d pid k :
  permitted pre d = true -> content_part d = Some (pid, k) -> open_as pre pid k = true.
Proof.
  intros Hp Hc. destruct d; simplify_eq/=; rewrite !andb_true_iff in Hp; tauto.
Qed.

(** Every part goes through its life cycle: it is started once, receives
    content only of its announced kind, after its start and before its
    completion, has at most one complete value and one completion; and a stream
    that ends other than by interruption has completed every part, with a value
    for every part that is not text. *)
Theorem part_lifecycle a es :
  limits_wf l -> reach rid l a es ->
  NoDup (omap started_id (datas es)) /\ NoDup (omap valued_id (datas es))
  /\ NoDup (omap closed_id (datas es))
  /\ (forall pre d post pid k, datas es = pre ++ d :: post -> content_part d = Some (pid, k) ->
        PartStart pid k ∈ pre /\ PartComplete pid ∉ pre)
  /\ (forall e tm pid k, last es = Some e -> payload e = Terminal tm ->
        is_partial (terminal_state tm) = false -> PartStart pid k ∈ datas es ->
        PartComplete pid ∈ datas es /\ (k <> KText -> pid ∈ omap valued_id (datas es))).
Proof.
  intros L Hr. pose proof (stream_reach_inv _ _ _ _ L Hr) as I. pose proof (inv_lawful _ _ _ _ I) as Hl.
  split_and!.
  - apply lawful_NoDup; [|done]. intros pre d x Hp Hd Hx. destruct d; simplify_eq/=.
    apply andb_prop in Hp as [_ Hp]. apply bool_decide_eq_true in Hp.
    destruct (first_start _ _ Hx) as [k Hk]. congruence.
  - apply lawful_NoDup; [|done]. intros pre d x Hp Hd Hx%valued_iff. unfold valued_id in Hd.
    destruct (value_of d) as [[pid k]|] eqn:Hv; simplify_eq/=.
    destruct (permitted_value _ _ _ _ Hv Hp) as [_ Hno]. congruence.
  - apply lawful_NoDup; [|done]. intros pre d x Hp Hd Hx. destruct d; simplify_eq/=.
    rewrite (proj2 (closed_iff pre x)) in Hp; [by rewrite andb_false_r in Hp|].
    apply list_elem_of_omap in Hx as (y & Hy & Hc). by destruct y; simplify_eq/=.
  - intros pre d post pid k Hds Hc. pose proof (adm_permitted _ _ _ (Hl _ _ _ Hds)) as Hp.
    destruct (andb_prop _ _ (permitted_content _ _ _ _ Hp Hc)) as [Hs%bool_decide_eq_true Hn].
    split; [by apply started_elem|]. rewrite <- closed_iff. by apply negb_true_iff in Hn as ->.
  - intros e tm pid k Hlast Htm Hpart Hs.
    assert (Hcl : closed (datas es) pid = true).
    { pose proof (inv_ending _ _ _ _ I) as He. inversion He as [k' Hk|k' s Hk Hne Hend]; subst es.
      - rewrite last_lookup in Hlast. destruct (all_events _ Hk _ _ Hlast). congruence.
      - rewrite last_snoc in Hlast. simplify_eq/=. rewrite datas_snoc, app_nil_r in *.
        unfold endable in Hend. rewrite Hpart in Hend. eapply Hend, lawful_started; done. }
    apply closed_iff in Hcl. split; [done|]. intros Hk.
    destruct (list_elem_of_split _ _ Hcl) as (pre & post & Hds).
    pose proof (adm_permitted _ _ _ (Hl _ _ _ Hds)) as Hp. simpl in Hp.
    destruct (started pre pid) as [k'|] eqn:Es; [|by rewrite !andb_false_r in Hp].
    apply started_elem in Es.
    assert (k' = k) as ->.
    { apply (lawful_started _ _ _ Hl) in Hs.
      rewrite (lawful_started _ pid k' Hl) in Hs by (rewrite Hds; set_solver). congruence. }
    rewrite (bool_decide_false (k = KText)), !andb_true_iff in Hp by done. destruct Hp as (_ & _ & Hv).
    apply valued_iff in Hv. rewrite Hds, omap_app, elem_of_app. by left.
Qed.

(** ** The validator *)
Definition call_of (e : LlmStreamEvent) : call :=
  match payload e with Event d => Emit d | Terminal tm => Terminate (terminal_state tm) end.

Lemma accept_eq e v :
  accept e v =
  if negb (bool_decide (schema_version e = CURRENT)) then (Err (Raised UnsupportedSchemaVersion), v)
  else if negb (bool_decide (event_request_id e = request_id v))
  then (Err (Raised RequestCorrelationMismatch), v)
  else if negb (sequence e =? next_sequence v) then (Err (Raised NonMonotonicSequence), v)
  else match exec (call_of e) v with
       | (Err s, _) => (Err s, v)
       | (Ok expected, candidate) =>
           if bool_decide (expected = e) then (Ok tt, candidate)
           else (Err (Raised TerminalSnapshotMismatch), v)
       end.
Proof.
  unfold accept, exec, call_of, mbind, st_bind, st_get, raise, st_read. simpl.
  destruct (negb (bool_decide (schema_version e = CURRENT))); [done|]. simpl.
  destruct (negb (bool_decide (event_request_id e = request_id v))); [done|]. simpl.
  destruct (negb (sequence e =? next_sequence v)); [done|]. simpl.
  destruct (payload e).
  - destruct (emit data v) as [[ev|s] c]; [|done]. by case_bool_decide.
  - destruct (terminate (terminal_state t) v) as [[ev|s] c]; [|done]. by case_bool_decide.
Qed.

Lemma exec_numbered v es c e v' :
  limits_wf l -> inv rid l v es -> exec c v = (Ok e, v') ->
  e = numbered rid (length es) (payload e) /\ call_of e = c.
Proof.
  intros L I He. destruct c as [d|s]; simpl in He.
  - by destruct (emit_step _ _ L _ _ I _ _ _ He) as (_ & _ & _ & -> & _).
  - by destruct (terminate_step _ _ L _ _ I _ _ _ He) as (_ & -> & _).
Qed.

Lemma accept_iff v es e v' :
  limits_wf l -> inv rid l v es ->
  accept e v = (Ok tt, v') <-> exists c, exec c v = (Ok e, v').
Proof.
  intros L I. rewrite accept_eq. split.
  - repeat (case_match; try done). intros [= <-].
    match goal with H : bool_decide (_ = e) = true |- _ => apply bool_decide_eq_true in H; subst end.
    eauto.
  - intros [c Hc]. destruct (exec_numbered _ _ _ _ _ L I Hc) as [He Hcall].
    rewrite Hcall, Hc. clear Hcall Hc. rewrite He. simpl.
    rewrite (inv_request _ _ _ _ I), (inv_sequence _ _ _ _ I), Z.eqb_refl, !bool_decide_true by done.
    done.
Qed.

Lemma accept_all_snoc es e v :
  accept_all (es ++ [e]) v =
  match accept_all es v with (Ok _, v') => accept e v' | (Err s, v') => (Err s, v') end.
Proof.
  revert v. induction es as [|x es IH]; intros v; simpl;
    unfold mbind, st_bind, mret, st_ret.
  - by destruct (accept e v) as [[[]|] ?].
  - destruct (accept x v) as [[[]|s] v']; [apply IH | done].
Qed.

Lemma accept_all_reach es v :
  limits_wf l -> accept_all es (validator_new rid l) = (Ok tt, v) -> reach rid l v es.
Proof.
  intros L. revert v. induction es as [|e es IH] using rev_ind; intros v.
  - intros [= <-]. constructor.
  - rewrite accept_all_snoc. destruct (accept_all es _) as [[[]|s] v1]; [|done]. intros Ha.
    specialize (IH v1 eq_refl). pose proof (stream_reach_inv _ _ _ _ L IH) as I.
    apply (accept_iff _ _ _ _ L I) in Ha as [c Hc]. by eapply reach_call.
Qed.

(** C30. The validator accepts exactly the streams an assembler with the same
    request identity and limits hands out, and ends in that assembler's state;
    it refuses any other event without changing state, and never panics. *)
Theorem validator_accepts_iff es v :
  limits_wf l ->
  (accept_all es (validator_new rid l) = (Ok tt, v) <-> reach rid l v es)
  /\ (reach rid l v es -> forall e s v', accept e v = (Err s, v') ->
       v' = v /\ exists er, s = Raised er /\ er <> InvalidInternalState).
Proof.
  intros L. split; [split; [by apply accept_all_reach|]|].
  - induction 1 as [|a es c ev a' Hr IH He|a es c s a' Hr IH He]; [done| |].
    + rewrite accept_all_snoc, IH. apply (accept_iff _ _ _ _ L (stream_reach_inv _ _ _ _ L Hr)). eauto.
    + pose proof (stream_reach_inv _ _ _ _ L Hr) as I.
      destruct c; simpl in He; [apply (emit_step _ _ L _ _ I) in He as [-> _]
        | apply (terminate_step _ _ L _ _ I) in He as [-> _]]; done.
  - intros Hr e s v' Ha. pose proof (stream_reach_inv _ _ _ _ L Hr) as I. rewrite accept_eq in Ha.
    repeat (case_match; simplify_eq; try by eauto). split; [done|].
    match goal with H : exec (call_of e) _ = _ |- _ => rename H into He end.
    destruct (call_of e); simpl in He.
    + apply (emit_step _ _ L _ _ I) in He as (_ & Hs & _). done.
    + apply (terminate_step _ _ L _ _ I) in He as (_ & er & Hs & Hne & _). eauto.
Qed.
End guarantees.

(** ** A concrete encoder and a concrete stream *)
Module StreamFixture.
#[local] Open Scope string_scope.
#[local] Open Scope Z_scope.

(** Escaped bytes of a JSON string. *)
Fixpoint escaped (s : string) : Z :=
  match s with
  | EmptyString => 0
  | String c s' =>
      let b := byte_val c in
      (if (b =? 34) || (b =? 92) || ((8 <=? b) && (b <=? 13) && negb (b =? 11)) then 2
       else if b <? 32 then 6 else 1) + escaped s'
  end.
Definition quoted (s : string) : Z := 2 + escaped s.

(** Sizes in the shape of the compact encoding. *)
Definition content_size (c : AcceptedPublicContent) : Z :=
  match c with
  | AText pid text => 60 + quoted pid + quoted text
  | AStructured p => 80 + quoted (structured_id (validated_part p)) + len (structured_rest (validated_part p))
  | AToolCall cid p => 100 + quoted cid + quoted (call_part_id p) + quoted (call_id p)
                       + quoted (call_name p) + len (call_rest p)
  | AToolResult p => 80 + quoted (result_id p) + quoted (result_call_id p) + len (result_rest p)
  | AMedia m => 60 + quoted (media_id m)
  | ASafeReasoning p | ACitation p => 60 + quoted (identified_id p) + len (identified_rest p)
  end.
Fixpoint contents_size (l : list AcceptedPublicContent) : Z :=
  match l with [] => 0 | c :: l' => content_size c + separator l' + contents_size l' end.
Definition data_size (d : LlmStreamEventData) : Z :=
  match item_of d with
  | Some c => content_size c
  | None => 40 + match d with TextDelta pid text => quoted pid + quoted text | _ => 60 end
  end.
Definition frame_size (rid : string) (n : Z) : Z := 70 + quoted rid + (if n <? 10 then 1 else 20).

Definition compact (v : Json) : option (list Z) :=
  match v with
  | JText text => Some [Z.abs (quoted text)]
  | JContent c => Some [Z.abs (content_size c)]
  | JEvent e =>
      Some (map Z.abs (frame_size (event_request_id e) (sequence e) ::
        match payload e with
        | Event d => [data_size d]
        | Terminal tm => [state_bytes (terminal_state tm); 2 + contents_size (accepted_public_content tm)]
        end))
  end.
#[export] Instance compact_serde : Serde := compact.

Definition lim : StreamLimits := with_max_event_bytes (StreamLimits_new 16 4 4 20) 1000.
Lemma lim_wf : limits_wf lim.
Proof. split; vm_compute; split; congruence. Qed.

Definition the_call : ToolCallOutputPart :=
  {| call_part_id := "c"; call_id := "call-1"; call_name := "search"; call_rest := "{}" |}.
Definition the_result : ToolResultOutputPart :=
  {| result_id := "t"; result_call_id := "call-1"; result_rest := "[]" |}.

(** A text part in two deltas, a tool call and its result; the refused calls are
    an empty delta, a repeated call and a premature end. *)
Definition calls : list call :=
  [ Emit (ResponseStart "resp"); Emit (PartStart "p" KText); Emit (TextDelta "p" "hello ");
    Emit (TextDelta "p" EmptyString); Emit (PartStart "c" KToolCall);
    Emit (ToolCallDelta "c" "k" (Name "search")); Terminate Completed;
    Emit (ToolCallComplete "k" the_call); Emit (ToolCallComplete "k" the_call);
    Emit (PartStart "t" KToolResult); Emit (ToolResultComplete the_result);
    Emit (TextDelta "p" "world"); Emit (PartComplete "p"); Emit (PartComplete "c");
    Emit (PartComplete "t") ].

Fixpoint run (cs : list call) (a : LlmStreamAssembler) (es : list LlmStreamEvent)
    : LlmStreamAssembler * list LlmStreamEvent :=
  match cs with
  | [] => (a, es)
  | c :: cs' => match exec c a with
                | (Ok ev, a') => run cs' a' (es ++ [ev])
                | (Err _, a') => run cs' a' es
                end
  end.

Lemma run_reach rid l cs a es : reach rid l a es -> reach rid l (run cs a es).1 (run cs a es).2.
Proof.
  revert a es. induction cs as [|c cs IH]; intros a es Hr; simpl; [done|].
  destruct (exec c a) as [[ev|s] a'] eqn:E; apply IH;
    [eapply reach_call; eauto | eapply reach_refused; eauto].
Qed.

Definition before : LlmStreamAssembler * list LlmStreamEvent := run calls (assembler_new "req" lim) [].
Definition ended : LlmStreamAssembler * list LlmStreamEvent := run [Terminate Completed] before.1 before.2.
Lemma before_reach : reach "req" lim before.1 before.2.
Proof. apply run_reach. constructor. Qed.
Lemma ended_reach : reach "req" lim ended.1 ended.2.
Proof. apply run_reach, before_reach. Qed.
End StreamFixture.
Import StreamFixture.

Lemma emit_refines_witness :
  exists a', emit (PartComplete "p"%string) StreamFixture.before.1 = (Err (Raised DuplicatePartComplete), a')
  /\ a' = StreamFixture.before.1
  /\ ~ admissible StreamFixture.lim (datas StreamFixture.before.2) (PartComplete "p"%string).
Proof.
  eexists. split; [vm_compute; reflexivity|].
  destruct (emit_refines "req" StreamFixture.lim StreamFixture.before.1 StreamFixture.before.2
    (PartComplete "p") (Err (Raised DuplicatePartComplete)) StreamFixture.before.1
    StreamFixture.lim_wf StreamFixture.before_reach) as (Hno & _).
  { vm_compute. reflexivity. }
  split; [vm_compute; reflexivity|]. intros Ha. apply Hno. split; [| | | |exact Ha].
  - vm_compute. reflexivity.
  - vm_compute. reflexivity.
  - vm_compute. reflexivity.
  - eexists. split; [vm_compute; reflexivity|]. vm_compute. reflexivity.
Defined.

Lemma stream_shape_witness :
  (forall i e, StreamFixture.ended.2 !! i = Some e -> sequence e = Z.of_nat i)
  /\ finish StreamFixture.ended.1 = Ok tt /\ length StreamFixture.ended.2 = 13%nat.
Proof.
  destruct (stream_shape "req" StreamFixture.lim StreamFixture.ended.1 StreamFixture.ended.2
    StreamFixture.lim_wf StreamFixture.ended_reach) as (Hn & _ & _ & _).
  split; [intros i e He; apply (Hn i e He) | split; vm_compute; reflexivity].
Defined.

Lemma stream_bounded_witness :
  Z.of_nat (length StreamFixture.ended.2) <= 16 /\ retained_text (accepted StreamFixture.ended.1) <= 20.
Proof.
  destruct (stream_bounded "req" StreamFixture.lim StreamFixture.ended.1 StreamFixture.ended.2
    StreamFixture.lim_wf StreamFixture.ended_reach) as (Hn & _ & _ & Ht & _).
  split; [exact Hn | exact Ht].
Defined.

Lemma tool_calls_consistent_witness :
  omap completed_call (datas StreamFixture.ended.2) = ["call-1"%string]
  /\ forall pre post, datas StreamFixture.ended.2
       = pre ++ ToolResultComplete StreamFixture.the_result :: post ->
     exists cid q, ToolCallComplete cid q ∈ pre /\ call_id q = "call-1"%string.
Proof.
  destruct (tool_calls_consistent "req" StreamFixture.lim StreamFixture.ended.1 StreamFixture.ended.2
    StreamFixture.lim_wf StreamFixture.ended_reach) as (_ & _ & Hres & _).
  split; [vm_compute; reflexivity|]. intros pre post Hds. exact (Hres pre _ post Hds).
Defined.

Lemma part_lifecycle_witness :
  PartStart "c"%string KToolCall ∈ datas StreamFixture.ended.2
  /\ PartComplete "c"%string ∈ datas StreamFixture.ended.2
  /\ "c"%string ∈ omap valued_id (datas StreamFixture.ended.2).
Proof.
  assert (Hin : PartStart "c"%string KToolCall ∈ datas StreamFixture.ended.2).
  { apply list_elem_of_lookup. exists 3%nat. vm_compute. reflexivity. }
  split; [exact Hin|].
  destruct (part_lifecycle "req" StreamFixture.lim StreamFixture.ended.1 StreamFixture.ended.2
    StreamFixture.lim_wf StreamFixture.ended_reach) as (_ & _ & _ & _ & Hend).
  edestruct Hend as [Hc Hv]; [vm_compute; reflexivity..|exact Hin|].
  split; [exact Hc | apply Hv; discriminate].
Defined.

Lemma validator_accepts_iff_witness :
  accept_all StreamFixture.ended.2 (validator_new "req" StreamFixture.lim)
  = (Ok tt, StreamFixture.ended.1).
Proof.
  apply (validator_accepts_iff "req" StreamFixture.lim StreamFixture.ended.2 StreamFixture.ended.1
    StreamFixture.lim_wf).
  exact StreamFixture.ended_reach.
Defined.
