(* ===== verification/StreamTermination.v ===== *)
(** * Streams: a stream that has started can always be ended

    [emit] reserves a slot and enough encoded bytes for the terminal event, the
    longest terminal state included.  What the argument needs of [serde_json] is
    stated as laws on sizes: [SerdeLaws]. *)
From S2P Require Import Prelude Machine Text Stream StreamFacts StreamTheorems.
#[local] Open Scope string_scope.
#[local] Open Scope Z_scope.

(** The encoded size of a value. *)
Definition encoded `{Serde} (v : Json) : Z :=
  match to_writer v with Some chunks => foldr Z.add 0 chunks | None => 0 end.

Fixpoint elements_bytes `{Serde} (l : list AcceptedPublicContent) : Z :=
  match l with
  | [] => 0
  | c :: l' => encoded (JContent c) + separator l' + elements_bytes l'
  end.
Definition array_bytes `{Serde} (l : list AcceptedPublicContent) : Z := 2 + elements_bytes l.

(** Documented behaviour of compact JSON encoding with serde's derived encoders:
    encoding these values does not fail; a struct's size is the sum of its fields'
    sizes and a frame that does not depend on them; a string is quoted and escaped
    character by character. *)
Class SerdeLaws `{Serde} := {
  frame : string -> Z -> Z;
  law_total v : exists chunks, to_writer v = Some chunks /\ Forall (fun c => 0 <= c) chunks;
  law_terminal rid n s items :
    encoded (JEvent {| schema_version := CURRENT; event_request_id := rid; sequence := n;
                       payload := Terminal {| terminal_state := s; accepted_public_content := items |} |})
    = frame rid n + state_bytes s + array_bytes items;
  law_text pid t u :
    encoded (JContent (AText pid (t +:+ u)))
    = encoded (JContent (AText pid t)) + (encoded (JText u) - 2);
}.

Lemma state_bytes_max s : state_bytes s <= state_bytes (PartialInterrupted ConsumerDisconnected).
Proof. destruct s as [| | | | |[]| |[]|[]]; vm_compute; congruence. Qed.

Lemma sum_nonneg chunks : Forall (fun c => 0 <= c) chunks -> 0 <= foldr Z.add 0 chunks.
Proof. induction 1; simpl; lia. Qed.

Lemma counting_write_sum chunks w n :
  counting_write w chunks = Some n -> n = w + foldr Z.add 0 chunks.
Proof.
  revert w. induction chunks as [|c cs IH]; intros w; simpl; [intros [= ->]; lia|].
  unfold checked_add. destruct (w + c <=? usize_max); [|done]. intros ->%IH. lia.
Qed.

Lemma budget_write_complete chunks n :
  Forall (fun c => 0 <= c) chunks -> foldr Z.add 0 chunks <= n -> budget_write n chunks = true.
Proof.
  intros Hc. revert n. induction Hc as [|c cs Hc Hcs IH]; intros n; simpl; [done|]. intros Hn.
  pose proof (sum_nonneg _ Hcs). destruct (Z.ltb_spec n c); [lia|]. apply IH. lia.
Qed.

Section laws.
Context `{SerdeLaws}.

Lemma encoded_nonneg v : 0 <= encoded v.
Proof. unfold encoded. destruct (law_total v) as (cs & -> & Hc). by apply sum_nonneg. Qed.

Lemma serialized_size_encoded v n : serialized_size v = Some n -> n = encoded v.
Proof.
  unfold serialized_size, encoded. destruct (to_writer v); [|done].
  intros ->%counting_write_sum. lia.
Qed.

Lemma serialized_fits_complete v n : encoded v <= n -> serialized_fits v n = true.
Proof.
  unfold serialized_fits, encoded. destruct (law_total v) as (cs & -> & Hc).
  by apply budget_write_complete.
Qed.

Lemma array_bytes_snoc l c :
  array_bytes (l ++ [c]) = array_bytes l + encoded (JContent c) + (if bool_decide (l = []) then 0 else 1).
Proof.
  unfold array_bytes. induction l as [|x l IH]; simpl; [lia|].
  destruct l as [|y l]; simpl in *; lia.
Qed.

Lemma array_bytes_add_text pid text l :
  is_Some (text_index pid l) ->
  array_bytes (add_text pid text l) = array_bytes l + (encoded (JText text) - 2).
Proof.
  unfold array_bytes. induction l as [|c l IH]; simpl; [by intros []|]. intros Hs.
  assert (Hskip : is_Some (text_index pid l) ->
    elements_bytes (c :: add_text pid text l) = elements_bytes (c :: l) + (encoded (JText text) - 2)).
  { intros Hl. specialize (IH Hl). simpl.
    assert (separator (add_text pid text l) = separator l) as ->; [|lia].
    destruct l as [|[]]; simpl; try done; [by destruct Hl | by case_bool_decide]. }
  simpl in Hskip.
  destruct c; simpl in *;
    try (rewrite fmap_is_Some in Hs; specialize (Hskip Hs); lia).
  case_bool_decide; simpl.
  - rewrite law_text. lia.
  - rewrite fmap_is_Some in Hs. specialize (Hskip Hs). lia.
Qed.

Lemma array_bytes_ge l : 2 <= array_bytes l.
Proof.
  unfold array_bytes. induction l as [|c l IH]; simpl; [lia|].
  pose proof (encoded_nonneg (JContent c)). unfold separator. destruct l; lia.
Qed.

(** ** The reserved bytes *)
Lemma added_bytes_exact a ds d n :
  represents a ds -> added_bytes a d = Ok n ->
  array_bytes (absorb (accepted a) d) = array_bytes (accepted a) + n.
Proof.
  intros R. assert (Hitem : forall c, new_public_item_bytes a c = Ok n ->
    array_bytes (accepted a ++ [c]) = array_bytes (accepted a) + n).
  { intros c Hc. unfold new_public_item_bytes in Hc. inv_ok.
    apply bind_Some in Hc as (size & Hs & Hadd). apply serialized_size_encoded in Hs as ->.
    apply checked_add_Some in Hadd as [-> _]. rewrite array_bytes_snoc. lia. }
  destruct d as [rid|pid k|pid text|p|pid cid delta|cid p|p|p|m|p|u|w|pid]; simpl;
    try (intros [= <-]; lia); try apply Hitem.
  pose proof (rep_indices _ _ R pid) as Hix. rewrite <- (rep_accepted _ _ R) in Hix. rewrite Hix.
  destruct (text_index pid (accepted a)) as [i|] eqn:Ei.
  - intros Hn%ok_or_ok. apply bind_Some in Hn as (size & Hs & Hsub).
    apply serialized_size_encoded in Hs as ->. apply checked_sub_Some in Hsub as [-> _].
    apply array_bytes_add_text. eauto.
  - rewrite (text_index_None _ _ _ Ei). apply Hitem.
Qed.

Lemma bytes_after_exact a ds d n :
  represents a ds -> accepted_serialized_bytes a = array_bytes (accepted a) -> bytes_after a d = Ok n ->
  n = array_bytes (absorb (accepted a) d)
  /\ frame (request_id a) (next_sequence a + 1)
     + state_bytes (PartialInterrupted ConsumerDisconnected) + n <= max_event_bytes (limits a).
Proof.
  intros R Ht Hb. unfold bytes_after, prospective_accepted_bytes, ensure_terminal_snapshot_fits in Hb.
  inv_ok. subst.
  repeat match goal with H : checked_add _ _ _ = Some _ |- _ => apply checked_add_Some in H as [-> _] end.
  match goal with H : added_bytes a d = Ok ?m |- _ =>
    pose proof (added_bytes_exact _ _ _ _ R H) as Hadd end.
  match goal with H : serialized_size _ = Some _ |- _ => apply serialized_size_encoded in H; subst end.
  rewrite law_terminal in *. unfold saturating_sub in *.
  pose proof (array_bytes_ge (absorb (accepted a) d)). change (array_bytes []) with 2 in *.
  split; [lia | blia].
Qed.

(** The running byte count is the size of the accepted content, and the largest
    terminal event of an open stream fits. *)
Record reserved (rid : string) (l : StreamLimits) (a : LlmStreamAssembler)
    (es : list LlmStreamEvent) : Prop := {
  reserved_exact : accepted_serialized_bytes a = array_bytes (accepted a);
  reserved_fits : terminal a = false -> es <> [] ->
    frame rid (next_sequence a) + state_bytes (PartialInterrupted ConsumerDisconnected)
      + accepted_serialized_bytes a <= max_event_bytes l;
}.

Lemma reserved_emit rid l a es d ev a' :
  limits_wf l -> inv rid l a es -> reserved rid l a es -> emit d a = (Ok ev, a') ->
  reserved rid l a' (es ++ [ev]).
Proof.
  intros L I [Hx _] He.
  destruct (emit_step _ _ L _ _ I _ _ _ He) as (_ & Hadm & _ & _ & bytes & Hb & ->).
  pose proof (inv_represents _ _ _ _ I) as R.
  destruct (bytes_after_exact _ _ _ _ R Hx Hb) as [-> Hfit].
  rewrite (inv_request _ _ _ _ I), (inv_limits _ _ _ _ I) in Hfit.
  destruct (content_post _ _ R d (adm_permitted _ _ _ Hadm)) as [Hacc _].
  split; simpl; [|done]. by rewrite Hacc, content_of_snoc, (rep_accepted _ _ R).
Qed.

Lemma reach_reserved rid l a es : limits_wf l -> reach rid l a es -> reserved rid l a es.
Proof.
  intros L. induction 1 as [|a es c ev a' Hr IH He|a es c s a' Hr IH He].
  - by split.
  - pose proof (stream_reach_inv _ _ _ _ L Hr) as I. destruct c as [d|s]; simpl in He.
    + by eapply reserved_emit.
    + destruct (terminate_step _ _ L _ _ I _ _ _ He) as (_ & _ & ->). destruct IH. by split.
  - pose proof (stream_reach_inv _ _ _ _ L Hr) as I.
    destruct c; simpl in He; [apply (emit_step _ _ L _ _ I) in He as [-> _]
      | apply (terminate_step _ _ L _ _ I) in He as [-> _]]; done.
Qed.

(** C29. A stream that has started and is not ended can be ended at any time, in
    any state its content allows: [terminate] succeeds exactly when every part is
    closed, or, for an interruption, when some content was accepted; it never
    lacks an event slot or encoded bytes, since every emitted event reserved
    them. *)
Theorem started_streams_can_end rid l a es s :
  limits_wf l -> reach rid l a es -> es <> [] -> terminal a = false ->
  (exists ev a', terminate s a = (Ok ev, a')) <-> endable (datas es) s.
Proof.
  intros L Hr Hne Ht. pose proof (stream_reach_inv _ _ _ _ L Hr) as I.
  destruct (reach_reserved _ _ _ _ L Hr) as [Hx Hfit]. specialize (Hfit Ht Hne).
  rewrite terminate_eq by (right; rewrite (inv_limits _ _ _ _ I); apply L).
  pose proof (endable_iff _ _ _ _ I s) as Hend.
  assert (Hbytes : serialized_fits (JEvent (terminal_event a s)) (max_event_bytes l) = true).
  { apply serialized_fits_complete. unfold terminal_event, event.
    rewrite law_terminal, <- Hx, (inv_request _ _ _ _ I). pose proof (state_bytes_max s). lia. }
  pose proof (inv_slots _ _ _ _ I Ht Hne) as Hslot.
  assert (Hst : response_started a = true).
  { rewrite (rep_started _ _ (inv_represents _ _ _ _ I)). apply negb_true_iff, bool_decide_false.
    intros Hd%(f_equal length). rewrite (inv_open _ _ _ _ I Ht) in Hd. by destruct es. }
  unfold terminate_checks, ensure_event_slot.
  rewrite Ht, Hst, (inv_limits _ _ _ _ I), (inv_sequence _ _ _ _ I), Hbytes.
  destruct (Z.leb_spec (max_events l) (Z.of_nat (length es))); [lia|]. simpl.
  rewrite <- Hend. destruct (if is_partial s then _ else _) as [[]|e]; simpl; naive_solver.
Qed.
End laws.

(** ** The laws hold of the concrete encoder *)
Module EncoderFixture.
Import StreamFixture.

Lemma escaped_nonneg s : 0 <= escaped s.
Proof.
  induction s as [|c s IH]; simpl; [lia|].
  repeat case_match; lia.
Qed.

Lemma escaped_app s t : escaped (s +:+ t) = escaped s + escaped t.
Proof. induction s as [|c s IH]; simpl; [done|]. rewrite IH. lia. Qed.

Lemma content_size_nonneg c : 0 <= content_size c.
Proof.
  pose proof escaped_nonneg as He. pose proof len_nonneg as Hl. unfold content_size, quoted.
  destruct c as [pid s|p|cid p|p|p|m|p].
  - pose proof (He pid). pose proof (He s). lia.
  - pose proof (He (structured_id (validated_part p))).
    pose proof (Hl (structured_rest (validated_part p))). lia.
  - pose proof (He cid). pose proof (He (call_part_id p)). pose proof (He (call_id p)).
    pose proof (He (call_name p)). pose proof (Hl (call_rest p)). lia.
  - pose proof (He (result_id p)). pose proof (He (result_call_id p)). pose proof (Hl (result_rest p)). lia.
  - pose proof (He (identified_id p)). pose proof (Hl (identified_rest p)). lia.
  - pose proof (He (media_id m)). lia.
  - pose proof (He (identified_id p)). pose proof (Hl (identified_rest p)). lia.
Qed.

Lemma encoded_content c : encoded (JContent c) = content_size c.
Proof.
  unfold encoded. cbn [to_writer compact_serde compact foldr]. pose proof (content_size_nonneg c). lia.
Qed.

Lemma contents_size_elements l : contents_size l = elements_bytes l /\ 0 <= contents_size l.
Proof.
  induction l as [|c l [IH Hl]]; simpl; [done|]. rewrite encoded_content, IH.
  pose proof (content_size_nonneg c). unfold separator. destruct l; lia.
Qed.

#[export] Instance compact_laws : SerdeLaws.
Proof.
  refine {| frame := frame_size |}.
  - intros v. destruct v as [s|c|[? ? ? [d|tm]]]; eexists; (split; [reflexivity|]);
      repeat constructor; lia.
  - intros rid n s items. unfold encoded, array_bytes.
    destruct (contents_size_elements items) as [<- Hc].
    cbn [to_writer compact_serde compact payload event_request_id sequence terminal_state
      accepted_public_content map foldr].
    assert (0 <= state_bytes s).
    { unfold state_bytes. pose proof (len_nonneg (state_name s)).
      destruct (state_detail s) as [x|]; [pose proof (len_nonneg x)|]; lia. }
    assert (0 <= frame_size rid n).
    { unfold frame_size, quoted. pose proof (escaped_nonneg rid). case_match; lia. }
    lia.
  - intros pid t u. rewrite !encoded_content. unfold encoded.
    cbn [to_writer compact_serde compact foldr content_size]. unfold quoted. rewrite escaped_app.
    pose proof (escaped_nonneg u). lia.
Defined.
End EncoderFixture.
Import StreamFixture EncoderFixture.

Lemma started_streams_can_end_witness :
  (exists ev a', terminate Completed StreamFixture.before.1 = (Ok ev, a'))
  /\ (exists ev a', terminate (PartialInterrupted Deadline) StreamFixture.before.1 = (Ok ev, a')).
Proof.
  split.
  - apply (started_streams_can_end "req" StreamFixture.lim StreamFixture.before.1
      StreamFixture.before.2 Completed StreamFixture.lim_wf StreamFixture.before_reach);
      [vm_compute; discriminate | vm_compute; reflexivity|].
    change (forall pid k, started (datas StreamFixture.before.2) pid = Some k ->
      closed (datas StreamFixture.before.2) pid = true).
    assert (Hall : Forall (fun d => match d with
      | PartStart pid _ => closed (datas StreamFixture.before.2) pid = true | _ => True end)
      (datas StreamFixture.before.2)).
    { vm_compute. repeat constructor. }
    intros pid k Hs%started_elem. exact (proj1 (Forall_forall _ _) Hall _ Hs).
  - apply (started_streams_can_end "req" StreamFixture.lim StreamFixture.before.1
      StreamFixture.before.2 _ StreamFixture.lim_wf StreamFixture.before_reach);
      vm_compute; try discriminate; reflexivity.
Defined.
