(* ===== verification/Coalesce.v ===== *)
(** * Text coalescing before sequencing: [crates/llm-streaming/src/coalesce.rs] *)
From S2P Require Import Prelude Machine Text.

Record BoundedTextCoalescer := { max_bytes : Z; buffered : string }.
Inductive TextCoalesceError := FragmentTooLarge.

Definition BoundedTextCoalescer_new (n : Z) : BoundedTextCoalescer :=
  {| max_bytes := n; buffered := EmptyString |}.
Definition set_buffered (c : BoundedTextCoalescer) (s : string) : BoundedTextCoalescer :=
  {| max_bytes := max_bytes c; buffered := s |}.

Definition push (fragment : string) : ST BoundedTextCoalescer TextCoalesceError (option string) :=
  c ← st_get;
  if max_bytes c <? len fragment then st_throw FragmentTooLarge
  else if is_empty fragment then mret None
  else if match checked_add usize_max (len (buffered c)) (len fragment) with
          | Some combined => combined <=? max_bytes c
          | None => false
          end
  then _ ← st_put (set_buffered c (buffered c +:+ fragment)); mret None
  else _ ← st_put (set_buffered c fragment); mret (Some (buffered c)).

Definition flush (c : BoundedTextCoalescer) : option string * BoundedTextCoalescer :=
  if is_empty (buffered c) then (None, c) else (Some (buffered c), set_buffered c EmptyString).

Definition buffered_bytes (c : BoundedTextCoalescer) : Z := len (buffered c).

(** ** A whole part *)

(** Fragments pushed in order, the ready texts collected, a refused fragment
    dropped by the caller; then the last flush. *)
Fixpoint feed (fragments : list string) (c : BoundedTextCoalescer)
    : list string * BoundedTextCoalescer :=
  match fragments with
  | [] => ([], c)
  | f :: fs =>
      let '(r, c1) := push f c in
      let '(out, c2) := feed fs c1 in
      (match r with Ok (Some ready) => ready :: out | _ => out end, c2)
  end.
Definition coalesce (n : Z) (fragments : list string) : list string :=
  let '(out, c) := feed fragments (BoundedTextCoalescer_new n) in
  out ++ match (flush c).1 with Some s => [s] | None => [] end.

Definition join (l : list string) : string := foldr String.append EmptyString l.
Definition fitting (n : Z) (fragments : list string) : list string :=
  List.filter (fun f => len f <=? n) fragments.
(** No two neighbours would have fitted into one event. *)
Fixpoint tight (n : Z) (l : list string) : Prop :=
  match l with
  | a :: (b :: _) as l' => n < len a + len b /\ tight n l'
  | _ => True
  end.

Lemma join_app l k : join (l ++ k) = join l +:+ join k.
Proof.
  induction l as [|s l IH]; simpl; [done|]. by rewrite IH, string_app_assoc.
Qed.

Lemma app_empty_r s : s +:+ EmptyString = s.
Proof.
  induction s as [|c s IH]; [done|].
  change (String c (s +:+ EmptyString) = String c s). by rewrite IH.
Qed.

(** One push: the text kept and handed out is the text so far with the fragment. *)
Lemma push_spec f c r c' :
  max_bytes c <= usize_max -> len (buffered c) <= max_bytes c -> push f c = (r, c') ->
  max_bytes c' = max_bytes c /\ len (buffered c') <= max_bytes c
  /\ match r with
     | Err _ => c' = c /\ max_bytes c < len f
     | Ok None => len f <= max_bytes c /\ buffered c' = buffered c +:+ f
     | Ok (Some ready) => len f <= max_bytes c /\ ready = buffered c /\ buffered c' = f
         /\ f <> EmptyString /\ ready <> EmptyString /\ max_bytes c < len ready + len f
     end.
Proof.
  intros Hmax Hlen. unfold push, mbind, st_bind, st_get, mret, st_ret, st_put, st_throw, checked_add. simpl.
  destruct (Z.ltb_spec (max_bytes c) (len f)); [intros [= <- <-]; auto|].
  destruct f as [|x f]; simpl.
  { intros [= <- <-]. rewrite app_empty_r. auto. }
  destruct (Z.leb_spec (len (buffered c) + len (String x f)) usize_max).
  - destruct (Z.leb_spec (len (buffered c) + len (String x f)) (max_bytes c)); intros [= <- <-]; simpl.
    + rewrite len_app. auto.
    + split_and!; try done. intros E. rewrite E in *. unfold len at 1 in H1. simpl in H1. lia.
  - intros [= <- <-]. simpl. split_and!; try done; [|lia]. intros E. rewrite E in *.
    unfold len at 1 in H0. simpl in H0. lia.
Qed.

Lemma feed_spec fs c out c' :
  max_bytes c <= usize_max -> len (buffered c) <= max_bytes c -> feed fs c = (out, c') ->
  max_bytes c' = max_bytes c /\ len (buffered c') <= max_bytes c
  /\ join out +:+ buffered c' = buffered c +:+ join (fitting (max_bytes c) fs)
  /\ Forall (fun s => s <> EmptyString /\ len s <= max_bytes c) out
  /\ tight (max_bytes c) (out ++ [buffered c'])
  /\ (exists h k, out ++ [buffered c'] = h :: k /\ len (buffered c) <= len h).
Proof.
  revert c out c'. induction fs as [|f fs IH]; intros c out c' Hmax Hlen; simpl.
  { intros [= <- <-]. simpl. rewrite app_empty_r. split_and!; try done. eexists _, _. eauto using Z.le_refl. }
  destruct (push f c) as [r c1] eqn:Ep. destruct (feed fs c1) as [out1 c2] eqn:Ef. intros [= <- <-].
  destruct (push_spec _ _ _ _ Hmax Hlen Ep) as (Hm & Hl & Hr).
  destruct (IH c1 out1 c2 ltac:(lia) ltac:(lia) Ef) as (Hm2 & Hl2 & Hj & Hall & Ht & h & k & Hk & Hh).
  rewrite Hm in *.
  destruct r as [[ready|]|e].
  - destruct Hr as (Hfit & -> & Hb & _ & Hne & Hbig). rewrite Hb in Hj, Hh.
    destruct (Z.leb_spec (len f) (max_bytes c)); [|lia]. simpl. rewrite Hk in *.
    split_and!; [done|done|by rewrite <- string_app_assoc, Hj| |lia|done|].
    { constructor; [split; [done|lia] | done]. }
    eexists _, _. eauto using Z.le_refl.
  - destruct Hr as (Hfit & Hb). rewrite Hb in Hj.
    destruct (Z.leb_spec (len f) (max_bytes c)); [|lia]. simpl.
    split_and!; [done|done|by rewrite Hj, string_app_assoc|done|done|].
    rewrite Hb, len_app in Hh. pose proof (len_nonneg f). exists h, k. split; [done|lia].
  - destruct Hr as (-> & Hbig). destruct (Z.leb_spec (len f) (max_bytes c)); [lia|]. eauto 10.
Qed.

(** Coalescing loses, reorders and splits nothing: the texts handed out for a
    part join to exactly the fragments that fit the ceiling, each is nonempty and
    within the ceiling, and no two neighbours would have fitted into one. *)
Theorem coalesce_preserves n fragments :
  0 < n <= usize_max ->
  join (coalesce n fragments) = join (fitting n fragments)
  /\ Forall (fun s => s <> EmptyString /\ len s <= n) (coalesce n fragments)
  /\ tight n (coalesce n fragments).
Proof.
  intros Hn. unfold coalesce, flush.
  destruct (feed fragments (BoundedTextCoalescer_new n)) as [out c] eqn:Ef.
  apply feed_spec in Ef; simpl; [|lia|unfold len; simpl; lia].
  destruct Ef as (_ & Hl & Hj & Hall & Ht & _). simpl in *.
  destruct (buffered c) as [|x s] eqn:Eb; simpl.
  - rewrite app_empty_r in Hj. rewrite app_nil_r. split_and!; [done|done|].
    clear -Ht. revert Ht. generalize (@EmptyString). intros e.
    induction out as [|a [|b out] IH]; simpl in *; tauto.
  - rewrite join_app. split_and!; [simpl; rewrite app_empty_r; exact Hj| |done].
    apply Forall_app. split; [done|]. by apply Forall_singleton.
Qed.

Lemma coalesce_preserves_witness :
  coalesce 4 ["ab"; EmptyString; "cd"; "e"; "toolong"; "fgh"]%string = ["abcd"; "efgh"]%string
  /\ tight 4 ["abcd"; "efgh"]%string.
Proof.
  split; [vm_compute; reflexivity|].
  apply (coalesce_preserves 4 ["ab"; EmptyString; "cd"; "e"; "toolong"; "fgh"]%string). vm_compute. split; congruence.
Defined.
