(* ===== verification/LoopBudget.v ===== *)
(** * Agent-loop budgets: [crates/llm-tool-runtime/src/budget.rs]

    The counters are behind one mutex, so each operation on them is one step; the
    number of concurrent workers is an atomic that is raised by a
    compare-and-exchange loop, whose reads and exchanges interleave freely.  No
    critical section panics, so the mutex is never poisoned and [InternalState] is
    never returned.  Times are instants in nanoseconds; adding a duration to one is
    [OffsetDateTime::checked_add] of the [time] crate, a parameter. *)
From S2P Require Import Prelude Machine.

Inductive LoopBudgetDimension := ModelTurns | ToolCalls | WallClock | Tokens | Cost | Concurrency.
Inductive LoopBudgetBuildError := NegativeWallClock | DeadlineOverflow.
Inductive LoopBudgetError := Exhausted (d : LoopBudgetDimension) | InternalState.

Record LoopBudgetLimits := {
  max_model_turns : Z;
  max_tool_calls : Z;
  max_wall_clock : Z;
  max_tokens : Z;
  max_cost_microunits : Z;
  max_concurrency : Z;
}.

Definition LoopBudgetLimits_new (turns calls wall tokens cost concurrency : Z)
    : result LoopBudgetBuildError LoopBudgetLimits :=
  if wall <? 0 then Err NegativeWallClock
  else Ok {| max_model_turns := turns; max_tool_calls := calls; max_wall_clock := wall;
             max_tokens := tokens; max_cost_microunits := cost; max_concurrency := concurrency |}.

Record LoopBudgetState := {
  model_turns : Z;
  tool_calls : Z;
  tokens : Z;
  cost_microunits : Z;
}.
Definition LoopBudgetState_default : LoopBudgetState :=
  {| model_turns := 0; tool_calls := 0; tokens := 0; cost_microunits := 0 |}.

Record AgentLoopBudget := {
  limits : LoopBudgetLimits;
  started_at : Z;
  deadline : Z;
  counters : LoopBudgetState;
  active : Z;
}.

Definition AgentLoopBudget_new (checked_add_datetime : Z -> Z -> option Z) (l : LoopBudgetLimits)
    (started : Z) : result LoopBudgetBuildError AgentLoopBudget :=
  deadline ← ok_or (checked_add_datetime started (max_wall_clock l)) DeadlineOverflow;
  Ok {| limits := l; started_at := started; deadline := deadline;
        counters := LoopBudgetState_default; active := 0 |}.

Definition with_counters (b : AgentLoopBudget) (s : LoopBudgetState) : AgentLoopBudget :=
  {| limits := limits b; started_at := started_at b; deadline := deadline b; counters := s;
     active := active b |}.
Definition with_active (b : AgentLoopBudget) (n : Z) : AgentLoopBudget :=
  {| limits := limits b; started_at := started_at b; deadline := deadline b;
     counters := counters b; active := n |}.

Definition check_usage_capacity (s : LoopBudgetState) (l : LoopBudgetLimits)
    : result LoopBudgetError unit :=
  _ ← guard_err (max_tokens l <=? tokens s) (Exhausted Tokens);
  guard_err (max_cost_microunits l <=? cost_microunits s) (Exhausted Cost).

Definition check_wall_and_static (b : AgentLoopBudget) (now : Z) : result LoopBudgetError unit :=
  _ ← guard_err (deadline b <=? now) (Exhausted WallClock);
  guard_err (max_concurrency (limits b) =? 0) (Exhausted Concurrency).

Definition check_at (b : AgentLoopBudget) (now : Z) : result LoopBudgetError unit :=
  _ ← guard_err (deadline b <=? now) (Exhausted WallClock);
  _ ← guard_err (max_model_turns (limits b) <=? model_turns (counters b)) (Exhausted ModelTurns);
  _ ← guard_err (max_tool_calls (limits b) <=? tool_calls (counters b)) (Exhausted ToolCalls);
  _ ← check_usage_capacity (counters b) (limits b);
  guard_err (max_concurrency (limits b) =? 0) (Exhausted Concurrency).

Definition Op (A : Type) : Type := ST AgentLoopBudget LoopBudgetError A.

Definition reserve_model_turn_at (now : Z) : Op unit :=
  b ← st_get;
  let s := counters b in
  _ ← st_read (fun _ => check_wall_and_static b now);
  _ ← st_read (fun _ => check_usage_capacity s (limits b));
  _ ← st_read (fun _ => guard_err (max_model_turns (limits b) <=? model_turns s) (Exhausted ModelTurns));
  next ← st_read (fun _ => ok_or (checked_add u32_max (model_turns s) 1) (Exhausted ModelTurns));
  st_put (with_counters b {| model_turns := next; tool_calls := tool_calls s; tokens := tokens s;
                             cost_microunits := cost_microunits s |}).

Definition reserve_tool_call_at (now : Z) : Op unit :=
  b ← st_get;
  let s := counters b in
  _ ← st_read (fun _ => check_wall_and_static b now);
  _ ← st_read (fun _ => check_usage_capacity s (limits b));
  _ ← st_read (fun _ => guard_err (max_tool_calls (limits b) <=? tool_calls s) (Exhausted ToolCalls));
  next ← st_read (fun _ => ok_or (checked_add u32_max (tool_calls s) 1) (Exhausted ToolCalls));
  st_put (with_counters b {| model_turns := model_turns s; tool_calls := next; tokens := tokens s;
                             cost_microunits := cost_microunits s |}).

Definition charge_usage_at (more_tokens more_cost now : Z) : Op unit :=
  b ← st_get;
  let s := counters b in
  _ ← st_read (fun _ => guard_err (deadline b <=? now) (Exhausted WallClock));
  next_tokens ← st_read (fun _ => ok_or (checked_add u64_max (tokens s) more_tokens) (Exhausted Tokens));
  _ ← st_read (fun _ => guard_err (max_tokens (limits b) <? next_tokens) (Exhausted Tokens));
  next_cost ← st_read (fun _ =>
    ok_or (checked_add u64_max (cost_microunits s) more_cost) (Exhausted Cost));
  _ ← st_read (fun _ => guard_err (max_cost_microunits (limits b) <? next_cost) (Exhausted Cost));
  st_put (with_counters b {| model_turns := model_turns s; tool_calls := tool_calls s;
                             tokens := next_tokens; cost_microunits := next_cost |}).

(** ** The concurrency slots *)

(** Before the loop of [try_reserve_concurrency_at]. *)
Definition concurrency_entry (b : AgentLoopBudget) (now : Z) : result LoopBudgetError unit :=
  check_wall_and_static b now.

(** One iteration with the value [current] read before: refuse, exchange, or go
    round with the value observed.  The weak exchange may fail although the value
    is the expected one ([spurious]). *)
Inductive attempt := Refused | Granted | Again (observed : Z).
Definition exchange (b : AgentLoopBudget) (current : Z) (spurious : bool) : attempt * AgentLoopBudget :=
  if max_concurrency (limits b) <=? current then (Refused, b)
  else if (active b =? current) && negb spurious then (Granted, with_active b (current + 1))
  else (Again (active b), b).

(** [LoopConcurrencyPermit::drop]: [fetch_sub] wraps. *)
Definition release (b : AgentLoopBudget) : AgentLoopBudget :=
  with_active b ((active b - 1) mod (usize_max + 1)).

Record LoopBudgetSnapshot := {
  snap_model_turns : Z;
  snap_tool_calls : Z;
  snap_tokens : Z;
  snap_cost_microunits : Z;
  active_concurrency : Z;
}.
Definition snapshot (b : AgentLoopBudget) : LoopBudgetSnapshot :=
  {| snap_model_turns := model_turns (counters b); snap_tool_calls := tool_calls (counters b);
     snap_tokens := tokens (counters b); snap_cost_microunits := cost_microunits (counters b);
     active_concurrency := active b |}.

(** ** One worker alone: the loop with the failures the exchange may have *)
Fixpoint reserve_loop (current : Z) (spurious : list bool) (b : AgentLoopBudget)
    : result LoopBudgetError unit * AgentLoopBudget :=
  match exchange b current (match spurious with s :: _ => s | [] => false end) with
  | (Refused, b') => (Err (Exhausted Concurrency), b')
  | (Granted, b') => (Ok tt, b')
  | (Again observed, b') =>
      match spurious with
      | _ :: rest => reserve_loop observed rest b'
      | [] => (Err InternalState, b')
      end
  end.
Definition try_reserve_concurrency_at (now : Z) (spurious : list bool) : Op unit :=
  b ← st_get;
  _ ← st_read (fun _ => concurrency_entry b now);
  reserve_loop (active b) spurious.

(** ** Workers together *)
Record sys := { budget : AgentLoopBudget; loops : list Z; permits : nat }.

Inductive step : sys -> sys -> Prop :=
| step_turn b ls n now r b' :
    reserve_model_turn_at now b = (r, b') ->
    step {| budget := b; loops := ls; permits := n |} {| budget := b'; loops := ls; permits := n |}
| step_call b ls n now r b' :
    reserve_tool_call_at now b = (r, b') ->
    step {| budget := b; loops := ls; permits := n |} {| budget := b'; loops := ls; permits := n |}
| step_charge b ls n tk c now r b' :
    0 <= tk <= u64_max -> 0 <= c <= u64_max -> charge_usage_at tk c now b = (r, b') ->
    step {| budget := b; loops := ls; permits := n |} {| budget := b'; loops := ls; permits := n |}
| step_enter b ls n now :
    concurrency_entry b now = Ok tt ->
    step {| budget := b; loops := ls; permits := n |}
         {| budget := b; loops := ls ++ [active b]; permits := n |}
| step_exchange b ls1 current ls2 n spurious r b' :
    exchange b current spurious = (r, b') ->
    step {| budget := b; loops := ls1 ++ current :: ls2; permits := n |}
         {| budget := b';
            loops := ls1 ++ match r with Again o => [o] | _ => [] end ++ ls2;
            permits := match r with Granted => S n | _ => n end |}
| step_release b ls n :
    step {| budget := b; loops := ls; permits := S n |}
         {| budget := release b; loops := ls; permits := n |}.

Inductive reachable (b : AgentLoopBudget) : sys -> Prop :=
| reachable_start : reachable b {| budget := b; loops := []; permits := 0 |}
| reachable_step s s' : reachable b s -> step s s' -> reachable b s'.

(** Limits at the width of their Rust types. *)
Record limits_wf (l : LoopBudgetLimits) : Prop := {
  lw_turns : 0 <= max_model_turns l <= u32_max;
  lw_calls : 0 <= max_tool_calls l <= u32_max;
  lw_tokens : 0 <= max_tokens l <= u64_max;
  lw_cost : 0 <= max_cost_microunits l <= u64_max;
  lw_concurrency : 0 <= max_concurrency l <= usize_max;
}.

(** Nothing has been spent beyond the ceilings. *)
Record affordable (l : LoopBudgetLimits) (s : LoopBudgetState) : Prop := {
  af_turns : 0 <= model_turns s <= max_model_turns l;
  af_calls : 0 <= tool_calls s <= max_tool_calls l;
  af_tokens : 0 <= tokens s <= max_tokens l;
  af_cost : 0 <= cost_microunits s <= max_cost_microunits l;
}.

(** A dimension in which [tk] more tokens, [c] more cost or one more of the rest
    does not fit. *)
Definition no_room (b : AgentLoopBudget) (now tk c : Z) (d : LoopBudgetDimension) : Prop :=
  match d with
  | ModelTurns => max_model_turns (limits b) < model_turns (counters b) + 1
  | ToolCalls => max_tool_calls (limits b) < tool_calls (counters b) + 1
  | WallClock => deadline b <= now
  | Tokens => max_tokens (limits b) < tokens (counters b) + tk
  | Cost => max_cost_microunits (limits b) < cost_microunits (counters b) + c
  | Concurrency => max_concurrency (limits b) < active b + 1
  end.
Definition refused {A} (b : AgentLoopBudget) (now tk c : Z) (r : result LoopBudgetError A)
    (b' : AgentLoopBudget) : Prop :=
  b' = b /\ exists d, r = Err (Exhausted d) /\ no_room b now tk c d.

(** ** Correctness *)
Ltac open_op := unfold mbind, st_bind, result_bind, st_get, st_read, st_put, mret, st_ret.

Lemma reserve_model_turn_cases now b :
  affordable (limits b) (counters b) -> limits_wf (limits b) ->
  let s := counters b in let l := limits b in
  (now < deadline b /\ max_concurrency l <> 0 /\ tokens s < max_tokens l
   /\ cost_microunits s < max_cost_microunits l /\ model_turns s < max_model_turns l
   /\ reserve_model_turn_at now b = (Ok tt, with_counters b
        {| model_turns := model_turns s + 1; tool_calls := tool_calls s; tokens := tokens s;
           cost_microunits := cost_microunits s |}))
  \/ (exists d, reserve_model_turn_at now b = (Err (Exhausted d), b)
      /\ match d with
         | WallClock => deadline b <= now
         | Concurrency => max_concurrency l = 0
         | Tokens => tokens s = max_tokens l
         | Cost => cost_microunits s = max_cost_microunits l
         | ModelTurns => model_turns s = max_model_turns l
         | ToolCalls => False
         end).
Proof.
  intros A L. cbn zeta. unfold reserve_model_turn_at, check_wall_and_static, check_usage_capacity.
  open_op. destruct A, L. unfold checked_add.
  destruct (Z.leb_spec (deadline b) now); simpl; [right; by exists WallClock|].
  destruct (Z.eqb_spec (max_concurrency (limits b)) 0); simpl; [right; by exists Concurrency|].
  destruct (Z.leb_spec (max_tokens (limits b)) (tokens (counters b))); simpl;
    [right; exists Tokens; split; [done | lia]|].
  destruct (Z.leb_spec (max_cost_microunits (limits b)) (cost_microunits (counters b))); simpl;
    [right; exists Cost; split; [done | lia]|].
  destruct (Z.leb_spec (max_model_turns (limits b)) (model_turns (counters b))); simpl;
    [right; exists ModelTurns; split; [done | lia]|].
  destruct (Z.leb_spec (model_turns (counters b) + 1) u32_max); simpl; [left; auto 10 | lia].
Qed.

Lemma reserve_tool_call_cases now b :
  affordable (limits b) (counters b) -> limits_wf (limits b) ->
  let s := counters b in let l := limits b in
  (now < deadline b /\ max_concurrency l <> 0 /\ tokens s < max_tokens l
   /\ cost_microunits s < max_cost_microunits l /\ tool_calls s < max_tool_calls l
   /\ reserve_tool_call_at now b = (Ok tt, with_counters b
        {| model_turns := model_turns s; tool_calls := tool_calls s + 1; tokens := tokens s;
           cost_microunits := cost_microunits s |}))
  \/ (exists d, reserve_tool_call_at now b = (Err (Exhausted d), b)
      /\ match d with
         | WallClock => deadline b <= now
         | Concurrency => max_concurrency l = 0
         | Tokens => tokens s = max_tokens l
         | Cost => cost_microunits s = max_cost_microunits l
         | ToolCalls => tool_calls s = max_tool_calls l
         | ModelTurns => False
         end).
Proof.
  intros A L. cbn zeta. unfold reserve_tool_call_at, check_wall_and_static, check_usage_capacity.
  open_op. destruct A, L. unfold checked_add.
  destruct (Z.leb_spec (deadline b) now); simpl; [right; by exists WallClock|].
  destruct (Z.eqb_spec (max_concurrency (limits b)) 0); simpl; [right; by exists Concurrency|].
  destruct (Z.leb_spec (max_tokens (limits b)) (tokens (counters b))); simpl;
    [right; exists Tokens; split; [done | lia]|].
  destruct (Z.leb_spec (max_cost_microunits (limits b)) (cost_microunits (counters b))); simpl;
    [right; exists Cost; split; [done | lia]|].
  destruct (Z.leb_spec (max_tool_calls (limits b)) (tool_calls (counters b))); simpl;
    [right; exists ToolCalls; split; [done | lia]|].
  destruct (Z.leb_spec (tool_calls (counters b) + 1) u32_max); simpl; [left; auto 10 | lia].
Qed.

Lemma charge_usage_cases tk c now b :
  limits_wf (limits b) ->
  let s := counters b in let l := limits b in
  (now < deadline b /\ tokens s + tk <= max_tokens l /\ cost_microunits s + c <= max_cost_microunits l
   /\ charge_usage_at tk c now b = (Ok tt, with_counters b
        {| model_turns := model_turns s; tool_calls := tool_calls s; tokens := tokens s + tk;
           cost_microunits := cost_microunits s + c |}))
  \/ (exists d, charge_usage_at tk c now b = (Err (Exhausted d), b)
      /\ match d with
         | WallClock => deadline b <= now
         | Tokens => max_tokens l < tokens s + tk
         | Cost => max_cost_microunits l < cost_microunits s + c
         | _ => False
         end).
Proof.
  intros L. cbn zeta. unfold charge_usage_at. open_op. destruct L. unfold checked_add.
  destruct (Z.leb_spec (deadline b) now); simpl; [right; by exists WallClock|].
  destruct (Z.leb_spec (tokens (counters b) + tk) u64_max); simpl;
    [|right; exists Tokens; split; [done | lia]].
  destruct (Z.ltb_spec (max_tokens (limits b)) (tokens (counters b) + tk)); simpl;
    [right; exists Tokens; split; [done | lia]|].
  destruct (Z.leb_spec (cost_microunits (counters b) + c) u64_max); simpl;
    [|right; exists Cost; split; [done | lia]].
  destruct (Z.ltb_spec (max_cost_microunits (limits b)) (cost_microunits (counters b) + c)); simpl;
    [right; exists Cost; split; [done | lia]|].
  left. auto.
Qed.

(** One worker with a bounded number of spurious failures settles. *)
Lemma reserve_loop_settles spurious b :
  let granted := active b < max_concurrency (limits b) in
  (granted /\ reserve_loop (active b) spurious b = (Ok tt, with_active b (active b + 1)))
  \/ (~ granted /\ reserve_loop (active b) spurious b = (Err (Exhausted Concurrency), b)).
Proof.
  cbn zeta. induction spurious as [|s spurious IH]; simpl; unfold exchange;
    destruct (Z.leb_spec (max_concurrency (limits b)) (active b));
    try (right; split; [lia | done]); rewrite Z.eqb_refl; simpl.
  - left. split; [lia | done].
  - destruct s; simpl; [exact IH|]. left. split; [lia | done].
Qed.

Lemma check_at_ok b now :
  let s := counters b in let l := limits b in
  check_at b now = Ok tt <-> now < deadline b /\ model_turns s < max_model_turns l
    /\ tool_calls s < max_tool_calls l /\ tokens s < max_tokens l
    /\ cost_microunits s < max_cost_microunits l /\ max_concurrency l <> 0.
Proof.
  cbn zeta. unfold check_at, check_usage_capacity. split; [intros H; inv_ok; blia|].
  intros (?&?&?&?&?&?).
  repeat match goal with |- context [?a <=? ?b] => destruct (Z.leb_spec a b); [lia|] end.
  by destruct (Z.eqb_spec (max_concurrency (limits b)) 0).
Qed.

(** The operations on a loop budget say yes exactly when the dimensions they
    consume have room: a model turn or tool call needs time, concurrency, tokens,
    cost and its own count left; a charge must fit tokens and cost together; a
    concurrency slot must be free, whatever spurious failures the exchange has; the
    plain check needs all of it at once.  Every refusal names a dimension that is exhausted and changes nothing. *)
Theorem loop_budget_exact b now :
  affordable (limits b) (counters b) -> limits_wf (limits b) -> 0 <= active b ->
  let s := counters b in let l := limits b in
  let open := now < deadline b /\ max_concurrency l <> 0 /\ tokens s < max_tokens l
              /\ cost_microunits s < max_cost_microunits l in
  (forall r b', reserve_model_turn_at now b = (r, b') ->
     (r = Ok tt <-> open /\ model_turns s < max_model_turns l) /\ (r <> Ok tt -> refused b now 1 1 r b'))
  /\ (forall r b', reserve_tool_call_at now b = (r, b') ->
     (r = Ok tt <-> open /\ tool_calls s < max_tool_calls l) /\ (r <> Ok tt -> refused b now 1 1 r b'))
  /\ (forall tk c r b', charge_usage_at tk c now b = (r, b') ->
     (r = Ok tt <-> now < deadline b /\ tokens s + tk <= max_tokens l
                    /\ cost_microunits s + c <= max_cost_microunits l)
     /\ (r <> Ok tt -> refused b now tk c r b'))
  /\ (forall spurious r b', try_reserve_concurrency_at now spurious b = (r, b') ->
     (r = Ok tt <-> now < deadline b /\ max_concurrency l <> 0 /\ active b < max_concurrency l)
     /\ (r <> Ok tt -> refused b now 0 0 r b'))
  /\ (check_at b now = Ok tt <-> open /\ model_turns s < max_model_turns l
                                /\ tool_calls s < max_tool_calls l).
Proof.
  intros A L Ha. cbn zeta. unfold refused. split_and!.
  - intros r b'. destruct (reserve_model_turn_cases now b A L) as [(?&?&?&?&?&->)|(d & -> & Hd)];
      intros [= <- <-]; [split; [tauto | done] | split].
    + split; [done | intros ((?&?&?&?)&?); exfalso; destruct d; lia].
    + intros _. split; [done|]. exists d. split; [done|]. destruct d; simpl; done || lia.
  - intros r b'. destruct (reserve_tool_call_cases now b A L) as [(?&?&?&?&?&->)|(d & -> & Hd)];
      intros [= <- <-]; [split; [tauto | done] | split].
    + split; [done | intros ((?&?&?&?)&?); exfalso; destruct d; lia].
    + intros _. split; [done|]. exists d. split; [done|]. destruct d; simpl; done || lia.
  - intros tk c r b'. destruct (charge_usage_cases tk c now b L) as [(?&?&?&->)|(d & -> & Hd)];
      intros [= <- <-]; [split; [tauto | done] | split].
    + split; [done | intros (?&?&?); exfalso; destruct d; lia].
    + intros _. split; [done|]. exists d. split; [done|]. destruct d; simpl; done || lia.
  - intros spurious r b'. unfold try_reserve_concurrency_at, concurrency_entry, check_wall_and_static.
    open_op.
    destruct (Z.leb_spec (deadline b) now); simpl.
    { intros [= <- <-]. split; [split; [done | lia]|]. intros _. split; [done | by exists WallClock]. }
    destruct (Z.eqb_spec (max_concurrency (limits b)) 0); simpl.
    { intros [= <- <-]. split; [split; [done | lia]|]. intros _. split; [done|].
      exists Concurrency. simpl. split; [done | lia]. }
    destruct (reserve_loop_settles spurious b) as [[Hg ->]|[Hg ->]]; intros [= <- <-].
    + split; [tauto | done].
    + split; [split; [done | tauto]|]. intros _. split; [done|]. exists Concurrency. simpl. split; [done | lia].
  - rewrite check_at_ok. tauto.
Qed.

(** ** All workers *)
Record sys_inv (l : LoopBudgetLimits) (s : sys) : Prop := {
  si_limits : limits (budget s) = l;
  si_counters : affordable l (counters (budget s));
  si_active : active (budget s) = Z.of_nat (permits s);
  si_permits : Z.of_nat (permits s) <= max_concurrency l;
}.

Lemma budget_step_inv l s s' : limits_wf l -> sys_inv l s -> step s s' -> sys_inv l s'.
Proof.
  intros L [Hl Hc Ha Hp] Hs.
  destruct Hs as [b ls n now r b' H|b ls n now r b' H|b ls n tk c now r b' Htk Hco H
    |b ls n now _|b ls1 cur ls2 n sp r b' H|b ls n]; simpl in *; subst l.
  - destruct (reserve_model_turn_cases now b Hc L) as [(?&?&?&?&?&E)|(d & E & _)];
      rewrite E in H; simplify_eq; split; simpl; try done. destruct Hc. split; simpl; lia.
  - destruct (reserve_tool_call_cases now b Hc L) as [(?&?&?&?&?&E)|(d & E & _)];
      rewrite E in H; simplify_eq; split; simpl; try done. destruct Hc. split; simpl; lia.
  - destruct (charge_usage_cases tk c now b L) as [(?&?&?&E)|(d & E & _)];
      rewrite E in H; simplify_eq; split; simpl; try done. destruct Hc. split; simpl; lia.
  - by split.
  - unfold exchange in H. destruct (Z.leb_spec (max_concurrency (limits b)) cur); [by simplify_eq|].
    destruct (Z.eqb_spec (active b) cur), sp; simplify_eq/=; split; simpl; try done; lia.
  - destruct L. split; simpl; try done; [|lia]. rewrite Ha, Z.mod_small by lia. lia.
Qed.

(** C33. Whatever the workers of a loop do, in any interleaving: turns, tool calls,
    tokens and cost never exceed their ceilings, and the concurrency counter is
    exactly the number of live permits, which never exceeds its ceiling; no
    counter overflows or underflows. *)
Theorem loop_budget_bounded checked_add_datetime l started b s :
  limits_wf l -> AgentLoopBudget_new checked_add_datetime l started = Ok b -> reachable b s ->
  affordable l (counters (budget s))
  /\ active (budget s) = Z.of_nat (permits s) /\ Z.of_nat (permits s) <= max_concurrency l.
Proof.
  intros L Hb Hr. unfold AgentLoopBudget_new in Hb. inv_ok. subst b.
  assert (sys_inv l s) as [_ ? ? ?]; [|done].
  induction Hr as [|s s' _ IH Hs]; [|by eapply budget_step_inv].
  destruct L. split; simpl; try done; [split; simpl; lia | lia].
Qed.

Definition demo_limits : LoopBudgetLimits :=
  {| max_model_turns := 2; max_tool_calls := 3; max_wall_clock := 100; max_tokens := 1000;
     max_cost_microunits := 50; max_concurrency := 1 |}.
Definition demo_budget : AgentLoopBudget :=
  {| limits := demo_limits; started_at := 0; deadline := 100; counters := LoopBudgetState_default;
     active := 0 |}.
Lemma demo_limits_wf : limits_wf demo_limits.
Proof. split; vm_compute; split; congruence. Qed.
Lemma demo_affordable : affordable demo_limits LoopBudgetState_default.
Proof. split; vm_compute; split; congruence. Qed.

Lemma loop_budget_exact_witness :
  (charge_usage_at 600 10 5 demo_budget).1 = Ok tt
  /\ (charge_usage_at 600 51 5 demo_budget).1 <> Ok tt
  /\ (try_reserve_concurrency_at 5 [true; true] demo_budget).1 = Ok tt.
Proof.
  destruct (loop_budget_exact demo_budget 5 demo_affordable demo_limits_wf (Z.le_refl 0)) as (_ & _ & Hc & Ht & _).
  split_and!.
  - apply (Hc 600 10 _ (charge_usage_at 600 10 5 demo_budget).2); vm_compute; [done|].
    split_and!; congruence.
  - vm_compute. discriminate.
  - apply (Ht [true; true] _ (try_reserve_concurrency_at 5 [true; true] demo_budget).2); vm_compute; [done|].
    split_and!; congruence.
Defined.

(** Two workers race for the only slot: one is granted, the other goes round. *)
Lemma loop_budget_bounded_witness :
  exists s, reachable demo_budget s /\ permits s = 1%nat /\ active (budget s) = 1.
Proof.
  assert (Hr : reachable demo_budget
    {| budget := with_active demo_budget 1; loops := [1]; permits := 1 |}).
  { eapply reachable_step; [eapply reachable_step; [eapply reachable_step;
      [eapply reachable_step; [constructor|]|]|]|].
    - apply (step_enter demo_budget [] 0 5). reflexivity.
    - apply (step_enter demo_budget [0] 0 5). reflexivity.
    - apply (step_exchange demo_budget [] 0 [0] 0 false Granted (with_active demo_budget 1)). reflexivity.
    - apply (step_exchange (with_active demo_budget 1) [] 0 [] 1 false (Again 1)
        (with_active demo_budget 1)). reflexivity. }
  eexists. split; [exact Hr|]. split; [reflexivity|].
  exact (proj1 (proj2 (loop_budget_bounded (fun a d => Some (a + d)) demo_limits 0 demo_budget _
    demo_limits_wf eq_refl Hr))).
Defined.
