(* ===== verification/JsonShape.v ===== *)
(** * Bounds on JSON values before they are used

    Models the structure checks of three crates: [crates/validation/src/lib.rs],
    [crates/llm-structured-output/src/json_shape.rs] and the end of
    [crates/llm-tool-runtime/src/runtime.rs].  Each walks a value with an explicit
    stack.  A [Value] is the enumeration the code matches on: numbers are their text
    (the workspace builds serde_json with arbitrary precision) and an object is the
    sequence of its members in iteration order.  The head of a model stack is the
    end of the [Vec]. *)
From S2P Require Import Prelude Machine Text.

Inductive Value :=
| Null
| Bool (b : bool)
| Number (text : string)
| Str (s : string)
| Array (items : list Value)
| Object (members : list (string * Value)).

(** ** Limits and errors of the validation crate *)
Record JsonValidationLimits := {
  max_payload_bytes : Z;
  max_schema_bytes : Z;
  max_depth : Z;
  max_nodes : Z;
  max_array_items : Z;
  max_object_properties : Z;
  max_string_bytes : Z;
  max_errors : Z;
}.
Inductive JsonStructureError := TooDeep | TooManyNodes | ArrayTooLong | ObjectTooLarge | StringTooLong.
Inductive JsonLimitError := LimitsInvalid.

Definition MAX_VALIDATION_ERRORS : Z := 100.
Definition MAX_CONFIGURED_PAYLOAD_BYTES : Z := 16 * 1024 * 1024.
Definition MAX_CONFIGURED_SCHEMA_BYTES : Z := 4 * 1024 * 1024.
Definition MAX_CONFIGURED_DEPTH : Z := 64.
Definition MAX_CONFIGURED_NODES : Z := 200000.
Definition MAX_CONFIGURED_ARRAY_ITEMS : Z := 100000.
Definition MAX_CONFIGURED_OBJECT_PROPERTIES : Z := 10000.
Definition MAX_CONFIGURED_STRING_BYTES : Z := 4 * 1024 * 1024.

Definition limits_validate (l : JsonValidationLimits) : result JsonLimitError JsonValidationLimits :=
  let valid :=
    (0 <? max_payload_bytes l) && (max_payload_bytes l <=? MAX_CONFIGURED_PAYLOAD_BYTES)
    && (0 <? max_schema_bytes l) && (max_schema_bytes l <=? MAX_CONFIGURED_SCHEMA_BYTES)
    && (0 <? max_depth l) && (max_depth l <=? MAX_CONFIGURED_DEPTH)
    && (0 <? max_nodes l) && (max_nodes l <=? MAX_CONFIGURED_NODES)
    && (0 <? max_array_items l) && (max_array_items l <=? MAX_CONFIGURED_ARRAY_ITEMS)
    && (0 <? max_object_properties l) && (max_object_properties l <=? MAX_CONFIGURED_OBJECT_PROPERTIES)
    && (0 <? max_string_bytes l) && (max_string_bytes l <=? MAX_CONFIGURED_STRING_BYTES)
    && (0 <? max_errors l) && (max_errors l <=? MAX_VALIDATION_ERRORS) in
  if valid then Ok l else Err LimitsInvalid.

(** ** Stack loops

    [while let Some(x) = stack.pop() { .. }]: one iteration takes the popped
    element, what is left of the stack and the loop's other variables.  [None] is
    a loop that has not ended after [fuel] iterations. *)
Section drain.
Context {A S E : Type} (visit : A -> list A -> S -> result E (list A * S)).
Fixpoint drain (fuel : nat) (stack : list A) (s : S) : option (result E S) :=
  match stack with
  | [] => Some (Ok s)
  | x :: rest =>
      match fuel with
      | O => None
      | Datatypes.S fuel' =>
          match visit x rest s with
          | Err e => Some (Err e)
          | Ok (stack', s') => drain fuel' stack' s'
          end
      end
  end.
End drain.

(** [stack.extend(items.map(f))] *)
Definition extend {A B} (f : A -> B) (items : list A) (stack : list B) : list B :=
  rev (map f items) ++ stack.

(** The loop over the members of an object: check each, then push its value. *)
Fixpoint push_members {B E} (check : string -> Value -> result E unit) (f : Value -> B)
    (members : list (string * Value)) (stack : list B) : result E (list B) :=
  match members with
  | [] => Ok stack
  | (name, child) :: members' =>
      _ ← check name child;
      push_members check f members' (f child :: stack)
  end.

Definition count {A} (l : list A) : Z := Z.of_nat (length l).

(** ** The validation crate *)
Definition check_name (l : JsonValidationLimits) (property : string) (_ : Value)
    : result JsonStructureError unit :=
  guard_err (max_string_bytes l <? len property) StringTooLong.

Definition shape_visit (l : JsonValidationLimits) (x : Value * Z) (stack : list (Value * Z)) (nodes : Z)
    : result JsonStructureError (list (Value * Z) * Z) :=
  let '(value, depth) := x in
  _ ← guard_err (max_depth l <? depth) TooDeep;
  let nodes := saturating_add usize_max nodes 1 in
  _ ← guard_err (max_nodes l <? nodes) TooManyNodes;
  match value with
  | Str s =>
      if max_string_bytes l <? len s then Err StringTooLong else Ok (stack, nodes)
  | Array values =>
      _ ← guard_err (max_array_items l <? count values) ArrayTooLong;
      let retained := saturating_add usize_max nodes (count stack) in
      _ ← guard_err (saturating_sub (max_nodes l) retained <? count values) TooManyNodes;
      Ok (extend (fun child => (child, saturating_add usize_max depth 1)) values stack, nodes)
  | Object values =>
      _ ← guard_err (max_object_properties l <? count values) ObjectTooLarge;
      let retained := saturating_add usize_max nodes (count stack) in
      _ ← guard_err (saturating_sub (max_nodes l) retained <? count values) TooManyNodes;
      stack' ← push_members (check_name l) (fun child => (child, saturating_add usize_max depth 1))
                 values stack;
      Ok (stack', nodes)
  | Null | Bool _ | Number _ => Ok (stack, nodes)
  end.

Definition validate_json_shape (fuel : nat) (root : Value) (l : JsonValidationLimits)
    : option (result JsonStructureError unit) :=
  (fun r => _ ← r; Ok tt) <$> drain (shape_visit l) fuel [(root, 0)] 0.

Inductive SchemaAdapterError :=
| InvalidLimits (e : JsonLimitError) | TooLarge | Malformed | Structure (e : JsonStructureError)
| NonLocalReference | InvalidSchema.
Definition is_reference_name (name : string) : bool :=
  bool_decide (name = "$ref") || bool_decide (name = "$dynamicRef").
Definition as_str (v : Value) : option string := match v with Str s => Some s | _ => None end.
Definition non_local (name : string) (child : Value) : bool :=
  is_reference_name name
  && match as_str child with Some target => negb (starts_with "#" target) | None => false end.

Definition reject_visit (value : Value) (stack : list Value) (u : unit)
    : result SchemaAdapterError (list Value * unit) :=
  match value with
  | Array values => Ok (extend id values stack, u)
  | Object values =>
      stack' ← push_members (fun name child => guard_err (non_local name child) NonLocalReference) id
                 values stack;
      Ok (stack', u)
  | Null | Bool _ | Number _ | Str _ => Ok (stack, u)
  end.
Definition reject_non_local_references (fuel : nat) (schema : Value)
    : option (result SchemaAdapterError unit) :=
  drain reject_visit fuel [schema] tt.

(** ** Structured output *)
Inductive ShapeNode := ValueNode (v : Value) | ObjectNode (members : list (string * Value)).
Inductive SchemaDefinition := ObjectSchema (members : list (string * Value)) | BooleanSchema (b : bool).

Definition admit_children (child_count nodes retained_nodes max_nodes : Z)
    : result JsonStructureError unit :=
  let retained := saturating_add usize_max nodes retained_nodes in
  guard_err (saturating_sub max_nodes retained <? child_count) TooManyNodes.

Definition admit_object (property_count : Z) (values : list (string * Value))
    (nodes retained_nodes depth : Z) (l : JsonValidationLimits) (stack : list (ShapeNode * Z))
    : result JsonStructureError (list (ShapeNode * Z)) :=
  _ ← guard_err (max_object_properties l <? property_count) ObjectTooLarge;
  _ ← admit_children property_count nodes retained_nodes (max_nodes l);
  push_members (check_name l) (fun child => (ValueNode child, saturating_add usize_max depth 1))
    values stack.

Definition nodes_visit (l : JsonValidationLimits) (x : ShapeNode * Z) (stack : list (ShapeNode * Z))
    (nodes : Z) : result JsonStructureError (list (ShapeNode * Z) * Z) :=
  let '(node, depth) := x in
  _ ← guard_err (max_depth l <? depth) TooDeep;
  let nodes := saturating_add usize_max nodes 1 in
  _ ← guard_err (max_nodes l <? nodes) TooManyNodes;
  match node with
  | ValueNode (Str s) =>
      if max_string_bytes l <? len s then Err StringTooLong else Ok (stack, nodes)
  | ValueNode (Array values) =>
      _ ← guard_err (max_array_items l <? count values) ArrayTooLong;
      _ ← admit_children (count values) nodes (count stack) (max_nodes l);
      Ok (extend (fun child => (ValueNode child, saturating_add usize_max depth 1)) values stack, nodes)
  | ValueNode (Object values) | ObjectNode values =>
      stack' ← admit_object (count values) values nodes (count stack) depth l stack;
      Ok (stack', nodes)
  | ValueNode (Null | Bool _ | Number _) => Ok (stack, nodes)
  end.

Definition validate_nodes (fuel : nat) (root : ShapeNode) (l : JsonValidationLimits)
    : option (result JsonStructureError unit) :=
  (fun r => _ ← r; Ok tt) <$> drain (nodes_visit l) fuel [(root, 0)] 0.
Definition validate_value_shape (fuel : nat) (v : Value) (l : JsonValidationLimits) :=
  validate_nodes fuel (ValueNode v) l.
Definition validate_schema_shape (fuel : nat) (schema : SchemaDefinition) (l : JsonValidationLimits)
    : option (result JsonStructureError unit) :=
  match schema with
  | BooleanSchema _ => Some (Ok tt)
  | ObjectSchema members => validate_nodes fuel (ObjectNode members) l
  end.

(** ** The tool runtime: leaving the loop with [return false] or [return true] is
    its only error. *)
Definition MAX_JSON_DEPTH : Z := 64.
Definition MAX_JSON_NODES : Z := 4096.

Definition within_visit (max_depth max_nodes : Z) (x : Value * Z) (stack : list (Value * Z)) (nodes : Z)
    : result unit (list (Value * Z) * Z) :=
  let '(current, depth) := x in
  nodes ← match checked_add usize_max nodes 1 with
          | Some nodes => if nodes <=? max_nodes then Ok nodes else Err tt
          | None => Err tt
          end;
  _ ← guard_err (max_depth <? depth) tt;
  next_depth ← ok_or (checked_add usize_max depth 1) tt;
  match current with
  | Array items => Ok (extend (fun item => (item, next_depth)) items stack, nodes)
  | Object properties => Ok (extend (fun p => (p.2, next_depth)) properties stack, nodes)
  | Null | Bool _ | Number _ | Str _ => Ok (stack, nodes)
  end.
Definition json_shape_within (fuel : nat) (value : Value) (max_depth max_nodes : Z) : option bool :=
  is_ok <$> drain (within_visit max_depth max_nodes) fuel [(value, 0)] 0.

Definition reference_visit (current : Value) (stack : list Value) (u : unit)
    : result unit (list Value * unit) :=
  match current with
  | Object properties =>
      stack' ← push_members (fun name child => guard_err (non_local name child) tt) id properties stack;
      Ok (stack', u)
  | Array items => Ok (extend id items stack, u)
  | Null | Bool _ | Number _ | Str _ => Ok (stack, u)
  end.
Definition has_non_local_reference (fuel : nat) (value : Value) : option bool :=
  (fun r => negb (is_ok r)) <$> drain reference_visit fuel [value] tt.
