(* ===== verification/JsonShapeTheorems.v ===== *)
(** * What the JSON walks guarantee: the properties of [JsonShape] *)
From S2P Require Import Prelude Machine Text JsonShape.

(** ** The JSON walks of [JsonShape]: what they accept, and that they end

    The reference is the plain recursive traversal [flatten]: every node of a value
    with its depth, the root having depth zero. *)

Definition children (v : Value) : list Value :=
  match v with Array items => items | Object members => map snd members | _ => [] end.
Fixpoint flatten (d : Z) (v : Value) : list (Value * Z) :=
  (v, d) :: match v with
            | Array items => concat (map (flatten (d + 1)) items)
            | Object members => concat (map (fun p => flatten (d + 1) p.2) members)
            | _ => []
            end.
Definition subvalues (v : Value) : list Value := map fst (flatten 0 v).

(** One node is within the limits. *)
Definition node_fits (l : JsonValidationLimits) (x : Value * Z) : Prop :=
  x.2 <= max_depth l
  /\ match x.1 with
     | Str s => len s <= max_string_bytes l
     | Array items => count items <= max_array_items l
     | Object members => count members <= max_object_properties l
                         /\ Forall (fun p => len p.1 <= max_string_bytes l) members
     | _ => True
     end.
(** A whole value is. *)
Definition fits (l : JsonValidationLimits) (v : Value) : Prop :=
  Forall (node_fits l) (flatten 0 v) /\ count (flatten 0 v) <= max_nodes l.

(** Why a value may be refused. *)
Definition node_violates (l : JsonValidationLimits) (e : JsonStructureError) (x : Value * Z) : Prop :=
  match e with
  | TooDeep => max_depth l < x.2
  | TooManyNodes => False
  | ArrayTooLong => exists items, x.1 = Array items /\ max_array_items l < count items
  | ObjectTooLarge => exists members, x.1 = Object members /\ max_object_properties l < count members
  | StringTooLong =>
      (exists s, x.1 = Str s /\ max_string_bytes l < len s)
      \/ exists members p, x.1 = Object members /\ p ∈ members /\ max_string_bytes l < len p.1
  end.
Definition violates (l : JsonValidationLimits) (e : JsonStructureError) (v : Value) : Prop :=
  Exists (node_violates l e) (flatten 0 v) \/ e = TooManyNodes /\ max_nodes l < count (flatten 0 v).

(** A member that refers to another document. *)
Definition refers_elsewhere (v : Value) : Prop :=
  exists members name target, v = Object members /\ (name, Str target) ∈ members
    /\ (name = "$ref" \/ name = "$dynamicRef") /\ starts_with "#" target = false.

(** A node within the limits violates none. *)
Lemma node_fits_no_violation l e x : node_violates l e x -> ~ node_fits l x.
Proof.
  destruct x as [v d]. unfold node_fits. simpl. intros Hv [Hd Hf]. destruct e; simpl in Hv.
  - lia.
  - done.
  - destruct Hv as (items & -> & ?). lia.
  - destruct Hv as (ms & -> & ?). lia.
  - destruct Hv as [(s & -> & ?)|(ms & p & -> & Hp & ?)]; [lia|].
    destruct Hf as [_ Hf]. rewrite Forall_forall in Hf. specialize (Hf p Hp). simpl in Hf. lia.
Qed.

(** ** Traversals *)
Lemma flatten_unfold d v : flatten d v = (v, d) :: concat (map (flatten (d + 1)) (children v)).
Proof. destruct v; simpl; try done. by rewrite map_map. Qed.

Lemma flatten_value d v : map fst (flatten d v) = v :: concat (map (fun c => map fst (flatten (d + 1) c)) (children v)).
Proof.
  rewrite flatten_unfold. simpl. f_equal. induction (children v) as [|c cs IH]; simpl; [done|].
  by rewrite map_app, IH.
Qed.

(** An induction principle that reaches through the nesting. *)
Fixpoint depth_of (v : Value) : nat :=
  S (match v with
     | Array items => foldr Nat.max 0%nat (map depth_of items)
     | Object members => foldr Nat.max 0%nat (map (fun p => depth_of p.2) members)
     | _ => 0
     end).
Lemma child_depth v c : c ∈ children v -> (depth_of c < depth_of v)%nat.
Proof.
  destruct v; simpl; intros Hc; try by apply not_elem_of_nil in Hc.
  - induction items as [|x items IH]; [by apply not_elem_of_nil in Hc|].
    apply elem_of_cons in Hc as [->|Hc]; simpl; [lia|]. apply IH in Hc. lia.
  - induction members as [|x items IH]; [by apply not_elem_of_nil in Hc|].
    apply elem_of_cons in Hc as [->|Hc]; simpl; [lia|]. apply IH in Hc. lia.
Qed.
Lemma Value_children_ind (P : Value -> Prop) :
  (forall v, (forall c, c ∈ children v -> P c) -> P v) -> forall v, P v.
Proof.
  intros H v. induction v as [v IH] using (induction_ltof1 _ depth_of). apply H.
  intros c Hc. by apply IH, child_depth.
Qed.

Lemma concat_map_ext {A B} (f g : A -> list B) l :
  (forall x, x ∈ l -> f x = g x) -> concat (map f l) = concat (map g l).
Proof.
  induction l as [|x l IH]; simpl; intros H; [done|].
  rewrite (H x) by constructor. f_equal. apply IH. intros y Hy. apply H. by constructor.
Qed.

Lemma flatten_depth_irrelevant v : forall d, map fst (flatten d v) = subvalues v.
Proof.
  unfold subvalues. induction v as [v IH] using Value_children_ind. intros d. rewrite !flatten_value. f_equal.
  apply concat_map_ext. intros c Hc. by rewrite (IH c Hc (d + 1)), (IH c Hc (0 + 1)).
Qed.
Lemma subvalues_unfold v : subvalues v = v :: concat (map subvalues (children v)).
Proof.
  unfold subvalues at 1. rewrite flatten_value. f_equal. apply concat_map_ext.
  intros c _. apply flatten_depth_irrelevant.
Qed.

(** Everything still to be visited. *)
Definition pending (stack : list (Value * Z)) : list (Value * Z) :=
  concat (map (fun x => flatten x.2 x.1) stack).
Definition pending_values (stack : list Value) : list Value := concat (map subvalues stack).

Lemma concat_map_perm {A B} (f : A -> list B) l k :
  l ≡ₚ k -> concat (map f l) ≡ₚ concat (map f k).
Proof. intros H. rewrite <- !flat_map_concat_map. by apply Permutation_flat_map. Qed.

Lemma pending_pop v d rest :
  pending ((v, d) :: rest) ≡ₚ (v, d) :: pending (extend (fun c => (c, d + 1)) (children v) rest).
Proof.
  unfold pending, extend. cbn [map concat]. rewrite map_app, concat_app.
  cbn [fst snd]. rewrite flatten_unfold. simpl. constructor. apply Permutation_app_tail.
  rewrite (concat_map_perm _ _ _ (symmetry (Permutation_rev _))), map_map. reflexivity.
Qed.
Lemma pending_values_pop v rest :
  pending_values (v :: rest) ≡ₚ v :: pending_values (extend id (children v) rest).
Proof.
  unfold pending_values, extend. cbn [map concat]. rewrite map_app, concat_app, subvalues_unfold.
  simpl. constructor. apply Permutation_app_tail.
  rewrite (concat_map_perm _ _ _ (symmetry (Permutation_rev _))), map_map. reflexivity.
Qed.
Lemma pending_length stack : (length stack <= length (pending stack))%nat.
Proof.
  unfold pending. induction stack as [|[v d] stack IH]; simpl; [lia|].
  rewrite flatten_unfold, length_app. simpl. lia.
Qed.

(** ** Stack loops in general

    [todo] counts what is left to visit, [holds] is what the loop decides and
    [blamed] what an error stands for. *)
Section drain_facts.
Context {A S E : Type} (visit : A -> list A -> S -> result E (list A * S)).
Context (inv : list A -> S -> Prop) (todo : list A -> nat).
Context (holds : list A -> S -> Prop) (blamed : E -> list A -> S -> Prop).
Hypothesis holds_nil : forall s, inv [] s -> holds [] s.
Hypothesis todo_cons : forall x rest, (0 < todo (x :: rest))%nat.
Hypothesis visit_ok : forall x rest s stack' s', inv (x :: rest) s ->
  visit x rest s = Ok (stack', s') ->
  inv stack' s' /\ (todo stack' < todo (x :: rest))%nat
  /\ (holds stack' s' -> holds (x :: rest) s)
  /\ (forall e, blamed e stack' s' -> blamed e (x :: rest) s).
Hypothesis visit_err : forall x rest s e, inv (x :: rest) s ->
  visit x rest s = Err e -> blamed e (x :: rest) s.

Lemma drain_decides fuel : forall stack s, inv stack s -> (todo stack <= fuel)%nat ->
  exists r, drain visit fuel stack s = Some r
    /\ match r with Ok _ => holds stack s | Err e => blamed e stack s end.
Proof.
  induction fuel as [|fuel IH]; intros [|x rest] s Hinv Hfuel; simpl.
  1,3: eexists; split; [done | by apply holds_nil].
  - pose proof (todo_cons x rest). lia.
  - destruct (visit x rest s) as [[stack' s']|e] eqn:E1.
    + destruct (visit_ok _ _ _ _ _ Hinv E1) as (Hi & Ht & Hh & Hb).
      destruct (IH stack' s' Hi) as (r & Hr & Hd); [lia|]. exists r. split; [done|].
      destruct r; auto.
    + eexists. split; [done|]. by apply visit_err.
Qed.
End drain_facts.

(** Two loops whose iterations agree on related elements agree. *)
Lemma drain_simulates {A B S E} (f : A -> B) (va : A -> list A -> S -> result E (list A * S))
    (vb : B -> list B -> S -> result E (list B * S)) :
  (forall x rest s, vb (f x) (map f rest) s
     = match va x rest s with Ok (st, s') => Ok (map f st, s') | Err e => Err e end) ->
  forall fuel stack s, drain vb fuel (map f stack) s = drain va fuel stack s.
Proof.
  intros H fuel. induction fuel as [|fuel IH]; intros [|x rest] s; simpl; try done.
  rewrite H. destruct (va x rest s) as [[st s']|e]; [apply IH | done].
Qed.

Lemma map_extend {A B C} (g : B -> C) (f : A -> B) items stack :
  map g (extend f items stack) = extend (fun x => g (f x)) items (map g stack).
Proof. unfold extend. by rewrite map_app, map_rev, map_map. Qed.
Lemma count_map {A B} (f : A -> B) l : count (map f l) = count l.
Proof. unfold count. by rewrite length_map. Qed.
Lemma count_nonneg {A} (l : list A) : 0 <= count l.
Proof. unfold count. lia. Qed.
Lemma count_extend {A B} (f : A -> B) items stack : count (extend f items stack) = count items + count stack.
Proof. unfold count, extend. rewrite length_app, length_rev, length_map. lia. Qed.
Lemma map_push_members {B C E} (g : B -> C) (check : string -> Value -> result E unit) f members stack :
  push_members check (fun c => g (f c)) members (map g stack)
  = match push_members check f members stack with Ok st => Ok (map g st) | Err e => Err e end.
Proof.
  revert stack. induction members as [|[n c] ms IH]; intros stack; simpl; [done|].
  destruct (check n c); simpl; [|done]. apply (IH (f c :: stack)).
Qed.

(** Pushing the members of an object pushes its children, unless a check fails. *)
Lemma push_members_spec {B E} (check : string -> Value -> result E unit) (f : Value -> B) members stack :
  match push_members check f members stack with
  | Ok st => st = extend f (map snd members) stack /\ Forall (fun p => check p.1 p.2 = Ok tt) members
  | Err e => exists p, p ∈ members /\ check p.1 p.2 = Err e
  end.
Proof.
  revert stack. induction members as [|[n c] ms IH]; intros stack; simpl; [by split|].
  destruct (check n c) as [[]|e] eqn:Ec; simpl.
  - specialize (IH (f c :: stack)). destruct (push_members check f ms (f c :: stack)).
    + destruct IH as [-> IH]. split; [|by constructor]. unfold extend. simpl. by rewrite <- app_assoc.
    + destruct IH as (p & ? & ?). exists p. split; [by constructor | done].
  - exists (n, c). split; [by constructor | done].
Qed.

(** ** The bounded walk *)
Lemma limits_validate_bounds l l' : limits_validate l = Ok l' ->
  l' = l /\ 0 < max_nodes l < usize_max /\ 0 < max_depth l < usize_max.
Proof.
  unfold limits_validate, MAX_CONFIGURED_NODES, MAX_CONFIGURED_DEPTH. cbn zeta.
  match goal with |- context [if ?c then _ else _] => destruct c eqn:E end; [|done].
  intros [= ->]. split; [done|]. change usize_max with 18446744073709551615. blia.
Qed.

Section shape.
Context (l : JsonValidationLimits).
Hypothesis Hnodes : 0 < max_nodes l < usize_max.
Hypothesis Hdepth : 0 < max_depth l < usize_max.

Lemma sat_next d : d <= max_depth l -> saturating_add usize_max d 1 = d + 1.
Proof. unfold saturating_add. lia. Qed.
Lemma sat_budget n r k : 0 <= n -> 0 <= r -> 0 <= k ->
  (saturating_sub (max_nodes l) (saturating_add usize_max n r) <? k) = false -> n + r <= max_nodes l ->
  n + r + k <= max_nodes l.
Proof. unfold saturating_sub, saturating_add. lia. Qed.

Definition shape_inv (stack : list (Value * Z)) (nodes : Z) : Prop :=
  0 <= nodes /\ nodes + count stack <= max_nodes l.

Lemma shape_visit_ok v d rest nodes st n' :
  shape_inv ((v, d) :: rest) nodes -> shape_visit l (v, d) rest nodes = Ok (st, n') ->
  node_fits l (v, d) /\ st = extend (fun c => (c, d + 1)) (children v) rest /\ n' = nodes + 1
  /\ shape_inv st n'.
Proof.
  unfold shape_inv. intros [Hn Hc] H. replace (count ((v, d) :: rest)) with (count rest + 1) in Hc
    by (unfold count; simpl; lia).
  pose proof (count_nonneg rest). unfold shape_visit in H. inv_ok. rename Hok2 into H.
  assert (Hs : saturating_add usize_max nodes 1 = nodes + 1) by (unfold saturating_add; lia).
  rewrite Hs, sat_next in * by lia. unfold node_fits. simpl.
  destruct v; try (injection H as <- <-; split_and!; try done; try lia).
  - destruct (Z.ltb_spec (max_string_bytes l) (len s)); [done|]. injection H as <- <-.
    split_and!; try done; lia.
  - inv_ok. subst st n'. rewrite count_extend. pose proof (count_nonneg items).
    epose proof (sat_budget _ _ (count items) _ _ _ ltac:(eassumption) _).
    split_and!; try done; lia.
  - inv_ok. subst st n'.
    match goal with Hp : push_members _ _ _ _ = Ok _ |- _ =>
      pose proof (push_members_spec (check_name l) (fun c => (c, d + 1)) members rest) as Hm;
      rewrite Hp in Hm end. destruct Hm as [-> Hall].
    rewrite count_extend, count_map. pose proof (count_nonneg members).
    epose proof (sat_budget _ _ (count members) _ _ _ ltac:(eassumption) _).
    split_and!; try done; try lia.
    eapply Forall_impl; [exact Hall|]. intros p Hp. apply guard_ok in Hp. lia.
Unshelve. all: lia.
Qed.

Lemma shape_visit_err v d rest nodes e :
  shape_inv ((v, d) :: rest) nodes -> shape_visit l (v, d) rest nodes = Err e ->
  node_violates l e (v, d)
  \/ e = TooManyNodes /\ max_nodes l < nodes + 1 + count rest + count (children v).
Proof.
  unfold shape_inv. intros [Hn Hc] H. replace (count ((v, d) :: rest)) with (count rest + 1) in Hc
    by (unfold count; simpl; lia).
  pose proof (count_nonneg rest). unfold shape_visit, mbind, result_bind, guard_err in H.
  assert (Hs : saturating_add usize_max nodes 1 = nodes + 1) by (unfold saturating_add; lia).
  rewrite Hs in H.
  destruct (Z.ltb_spec (max_depth l) d); [injection H as <-; by left|].
  destruct (Z.ltb_spec (max_nodes l) (nodes + 1)); [injection H as <-; lia|].
  rewrite sat_next in H by lia. unfold saturating_sub, saturating_add in H.
  destruct v; try discriminate H; simpl.
  - destruct (Z.ltb_spec (max_string_bytes l) (len s)); [|done]. injection H as <-. left. left. eauto.
  - destruct (Z.ltb_spec (max_array_items l) (count items)); [injection H as <-; left; simpl; eauto|].
    match type of H with context [?a <? ?b] => destruct (Z.ltb_spec a b) end; [|done].
    injection H as <-. right. split; [done | lia].
  - destruct (Z.ltb_spec (max_object_properties l) (count members)); [injection H as <-; left; simpl; eauto|].
    match type of H with context [?a <? ?b] => destruct (Z.ltb_spec a b) end.
    { injection H as <-. right. rewrite count_map. split; [done | lia]. }
    pose proof (push_members_spec (check_name l) (fun c => (c, d + 1)) members rest) as Hm.
    destruct (push_members _ _ members rest); [done|]. injection H as <-.
    destruct Hm as (p & Hp & Hg). unfold check_name, guard_err in Hg.
    destruct (Z.ltb_spec (max_string_bytes l) (len p.1)); [|done]. injection Hg as <-.
    left. right. eauto.
Qed.

Lemma shape_drain fuel v : (length (flatten 0 v) <= fuel)%nat ->
  exists r, drain (shape_visit l) fuel [(v, 0)] 0 = Some r
    /\ match r with Ok _ => fits l v | Err e => violates l e v end.
Proof.
  intros Hf.
  destruct (drain_decides (shape_visit l) shape_inv (fun st => length (pending st))
    (fun st n => Forall (node_fits l) (pending st) /\ n + count (pending st) <= max_nodes l)
    (fun e st n => Exists (node_violates l e) (pending st)
                   \/ e = TooManyNodes /\ max_nodes l < n + count (pending st))) with
    (fuel := fuel) (stack := [(v, 0)]) (s := 0) as (r & Hr & Hd).
  - intros n [? Hc]. split; [constructor|]. exact Hc.
  - intros x rest. pose proof (pending_length (x :: rest)). simpl in *. lia.
  - intros [w d] rest n st n' Hi Hv. apply shape_visit_ok in Hv as (Hfit & -> & -> & Hi'); [|done].
    pose proof (pending_pop w d rest) as Hp. pose proof (Permutation_length Hp) as Hlen.
    unfold count. split_and!; simpl in *; try done; try lia.
    + intros [? ?]. split; [rewrite Hp; by constructor | lia].
    + intros e [?|[? ?]]; [left; eapply Permutation_Exists; [symmetry; exact Hp | by constructor] | right; split; [done | lia]].
  - intros [w d] rest n e Hi Hv. apply shape_visit_err in Hv as [Hv|[-> Hv]]; [| |done].
    + left. eapply Permutation_Exists; [symmetry; apply pending_pop | by constructor].
    + right. split; [done|]. unfold count in *. rewrite pending_pop. simpl.
      pose proof (pending_length (extend (fun c => (c, d + 1)) (children w) rest)) as Hl.
      unfold extend in Hl at 1. rewrite length_app, length_rev, length_map in Hl. lia.
  - split; [done|]. unfold count. simpl. lia.
  - unfold pending. simpl. rewrite app_nil_r. exact Hf.
  - exists r. split; [exact Hr|]. unfold pending in Hd. simpl in Hd. rewrite app_nil_r in Hd. destruct r; exact Hd.
Qed.
End shape.

(** ** Structured output walks as the validation crate does *)
Definition plain (x : ShapeNode * Z) : Value * Z :=
  (match x.1 with ValueNode v => v | ObjectNode ms => Object ms end, x.2).

Lemma push_plain l d ms rest :
  push_members (check_name l) (fun c => (c, d)) ms (map plain rest)
  = match push_members (check_name l) (fun c => (ValueNode c, d)) ms rest with
    | Ok st => Ok (map plain st) | Err e => Err e
    end.
Proof. exact (map_push_members plain (check_name l) (fun c => (ValueNode c, d)) ms rest). Qed.

Lemma nodes_visit_plain l x rest nodes :
  shape_visit l (plain x) (map plain rest) nodes
  = match nodes_visit l x rest nodes with Ok (st, n) => Ok (map plain st, n) | Err e => Err e end.
Proof.
  destruct x as [node d]. unfold plain at 1. simpl.
  destruct (max_depth l <? d); [done|]. simpl.
  destruct (max_nodes l <? _); [done|]. simpl.
  destruct node as [v|ms]; [destruct v|]; simpl; try done.
  - by destruct (max_string_bytes l <? _).
  - rewrite count_map. unfold admit_children. destruct (max_array_items l <? _); [done|]. simpl.
    destruct (_ <? _); [done|]. simpl. by rewrite map_extend.
  - rewrite count_map. unfold admit_object, admit_children. destruct (max_object_properties l <? _); [done|].
    simpl. destruct (_ <? _); [done|]. simpl. rewrite push_plain.
    by destruct (push_members _ _ members rest).
  - rewrite count_map. unfold admit_object, admit_children. destruct (max_object_properties l <? _); [done|].
    simpl. destruct (_ <? _); [done|]. simpl. rewrite push_plain.
    by destruct (push_members _ _ ms rest).
Qed.

Lemma validate_nodes_plain fuel node l :
  validate_nodes fuel node l = validate_json_shape fuel (plain (node, 0)).1 l.
Proof.
  unfold validate_nodes, validate_json_shape. f_equal. symmetry.
  apply (drain_simulates plain (nodes_visit l) (shape_visit l) (nodes_visit_plain l) fuel [(node, 0)]).
Qed.

(** C34. Under validated limits the bounded JSON check always ends, after no more
    iterations than the value has nodes; it accepts exactly the values whose
    nesting, node count, arrays, objects, strings and property names are all within
    their limits, and the error of a refusal names a limit that is exceeded.  The
    separate walk of structured output gives the same answer, error included, for
    values and for schemas. *)
Theorem json_shape_exact l v fuel :
  limits_validate l = Ok l -> (length (flatten 0 v) <= fuel)%nat ->
  exists r, validate_json_shape fuel v l = Some r
    /\ (r = Ok tt <-> fits l v) /\ (forall e, r = Err e -> violates l e v)
    /\ validate_value_shape fuel v l = Some r
    /\ forall members, v = Object members -> validate_schema_shape fuel (ObjectSchema members) l = Some r.
Proof.
  intros Hl Hf. apply limits_validate_bounds in Hl as (_ & Hn & Hd).
  destruct (shape_drain l Hn Hd fuel v Hf) as (r & Hr & Hs).
  set (r' := (_ ← r; Ok tt) : result JsonStructureError unit).
  assert (Hv : validate_json_shape fuel v l = Some r') by (unfold validate_json_shape; by rewrite Hr).
  exists r'. split_and!.
  - exact Hv.
  - subst r'. destruct r as [n|e]; simpl; [done|]. split; [done|]. intros [Hall Hc].
    destruct Hs as [Hx|[-> Hx]]; [|lia]. exfalso.
    apply Exists_exists in Hx as (x & Hx & Hbad). rewrite Forall_forall in Hall.
    by apply (node_fits_no_violation l e x), Hall.
  - subst r'. intros e He. destruct r; simpl in He; [done|]. by injection He as <-.
  - unfold validate_value_shape. by rewrite validate_nodes_plain.
  - intros members ->. simpl. by rewrite validate_nodes_plain.
Qed.

(** ** Working memory *)

(** The states a stack loop passes through. *)
Inductive iterates {A S E} (visit : A -> list A -> S -> result E (list A * S))
    : list A * S -> list A * S -> Prop :=
| iterates_refl c : iterates visit c c
| iterates_step x rest s st s' c :
    visit x rest s = Ok (st, s') -> iterates visit (st, s') c -> iterates visit (x :: rest, s) c.

Lemma shape_iterates l c c' :
  0 < max_nodes l < usize_max -> 0 < max_depth l < usize_max ->
  iterates (shape_visit l) c c' ->
  shape_inv l c.1 c.2 -> Forall (fun x => 0 <= x.2 <= max_depth l + 1) c.1 ->
  shape_inv l c'.1 c'.2 /\ Forall (fun x => 0 <= x.2 <= max_depth l + 1) c'.1.
Proof.
  intros Hn Hd Hit. induction Hit as [c|[v d] rest s st s' c Hv _ IH]; [done|].
  simpl. intros Hi Ha. inversion Ha as [|? ? Hx Hrest]; subst. simpl in Hx.
  apply shape_visit_ok in Hv as (Hf & -> & -> & Hi'); [|done..]. apply IH; [done|].
  destruct Hf as [Hf _]. simpl in Hf |- *. unfold extend. apply Forall_app. split; [|done].
  apply Forall_rev. apply Forall_map. apply Forall_forall. simpl. lia.
Qed.

(** While it walks, the bounded JSON check never holds more than [max_nodes]
    nodes, those visited and those waiting together, and none deeper than one level
    below the depth limit: a hostile value cannot make the check itself use more
    memory than the limits allow. *)
Theorem json_walk_memory_bounded l v stack nodes :
  limits_validate l = Ok l -> iterates (shape_visit l) ([(v, 0)], 0) (stack, nodes) ->
  0 <= nodes /\ nodes + count stack <= max_nodes l
  /\ Forall (fun x => 0 <= x.2 <= max_depth l + 1) stack.
Proof.
  intros Hl Hit. apply limits_validate_bounds in Hl as (_ & Hn & Hd).
  destruct (shape_iterates _ _ _ Hn Hd Hit) as [[? ?] ?]; simpl.
  - unfold shape_inv, count. simpl. lia.
  - repeat constructor; simpl; lia.
  - done.
Qed.

(** ** The tool runtime's check *)
Section within.
Context (md mn : Z).
Hypothesis Hmd : 0 <= md < usize_max.
Hypothesis Hmn : 0 <= mn <= usize_max.

Lemma within_visit_ok v d rest nodes st n' :
  within_visit md mn (v, d) rest nodes = Ok (st, n') ->
  d <= md /\ st = extend (fun c => (c, d + 1)) (children v) rest /\ n' = nodes + 1 /\ n' <= mn.
Proof.
  unfold within_visit. intros H. destruct (checked_add usize_max nodes 1) as [k|] eqn:Ek; [|done].
  apply checked_add_Some in Ek as [-> _]. destruct (Z.leb_spec (nodes + 1) mn); [|done].
  simpl in H. destruct (Z.ltb_spec md d); [done|]. simpl in H.
  destruct (checked_add usize_max d 1) as [k|] eqn:Ek; [|done]. simpl in H.
  apply checked_add_Some in Ek as [-> _].
  destruct v; injection H as <- <-; split_and!; try done; try lia.
  unfold extend. simpl. by rewrite map_map.
Qed.
Lemma within_visit_err v d rest nodes u :
  within_visit md mn (v, d) rest nodes = Err u -> md < d \/ mn < nodes + 1.
Proof.
  unfold within_visit. intros H. destruct (checked_add usize_max nodes 1) as [k|] eqn:Ek.
  2: { apply checked_add_None in Ek. lia. }
  apply checked_add_Some in Ek as [-> _]. destruct (Z.leb_spec (nodes + 1) mn); [|lia].
  simpl in H. destruct (Z.ltb_spec md d); [lia|]. simpl in H.
  destruct (checked_add usize_max d 1) as [k|] eqn:Ek; simpl in H.
  - by destruct v.
  - apply checked_add_None in Ek. lia.
Qed.

Lemma within_drain fuel v : (length (flatten 0 v) <= fuel)%nat ->
  exists r, drain (within_visit md mn) fuel [(v, 0)] 0 = Some r
    /\ (is_ok r = true <-> Forall (fun x => x.2 <= md) (flatten 0 v) /\ count (flatten 0 v) <= mn).
Proof.
  intros Hf.
  set (good := fun st n => Forall (fun x : Value * Z => x.2 <= md) (pending st) /\ n + count (pending st) <= mn).
  destruct (drain_decides (within_visit md mn) (fun _ n => n <= mn) (fun st => length (pending st))
    good (fun _ st n => ~ good st n)) with (fuel := fuel) (stack := [(v, 0)]) (s := 0) as (r & Hr & Hd);
    try (intros *; unfold good).
  - split; [constructor|]. unfold count. simpl. lia.
  - pose proof (pending_length (x :: rest)). simpl in *. lia.
  - destruct x as [w d]. intros _ Hv. apply within_visit_ok in Hv as (Hfit & -> & -> & Hle).
    pose proof (pending_pop w d rest) as Hp. pose proof (Permutation_length Hp) as Hlen.
    unfold count. simpl in *. split_and!; try lia.
    + intros [? ?]. split; [rewrite Hp; by constructor | lia].
    + intros _ Hn [Ha ?]. apply Hn. rewrite Hp in Ha. inversion Ha. split; [done | lia].
  - destruct x as [w d]. intros _ Hv [Ha Hc]. pose proof (pending_pop w d rest) as Hp. rewrite Hp in Ha.
    pose proof (Permutation_length Hp) as Hlen. unfold count in Hc. simpl in Hlen.
    inversion Ha; subst. apply within_visit_err in Hv as [?|?]; simpl in *; lia.
  - lia.
  - unfold pending. simpl. rewrite app_nil_r. exact Hf.
  - exists r. split; [exact Hr|]. unfold good, pending in Hd. simpl in Hd. rewrite app_nil_r in Hd.
    destruct r; naive_solver.
Qed.
End within.

(** The tool runtime's check of arguments and results always ends and accepts
    exactly the values whose nodes number at most [max_nodes], none of them nested
    deeper than [max_depth]. *)
Theorem json_shape_within_exact v md mn fuel :
  0 <= md < usize_max -> 0 <= mn <= usize_max -> (length (flatten 0 v) <= fuel)%nat ->
  exists b, json_shape_within fuel v md mn = Some b
    /\ (b = true <-> Forall (fun x => x.2 <= md) (flatten 0 v) /\ count (flatten 0 v) <= mn).
Proof.
  intros Hmd Hmn Hf. destruct (within_drain md mn Hmd Hmn fuel v Hf) as (r & Hr & Hs).
  exists (is_ok r). unfold json_shape_within. by rewrite Hr.
Qed.

(** ** References *)
Lemma starts_with_hash t : negb (starts_with "#" t) = true <-> starts_with "#" t = false.
Proof. by destruct (starts_with "#" t). Qed.

Lemma non_local_spec name child :
  non_local name child = true <->
  exists target, child = Str target /\ (name = "$ref" \/ name = "$dynamicRef")
    /\ starts_with "#" target = false.
Proof.
  unfold non_local, is_reference_name. rewrite andb_true_iff, orb_true_iff, !bool_decide_eq_true.
  destruct child as [| | |t| |]; cbn [as_str]; try (split; [by intros [_ ?] | by intros (? & ? & _)]).
  rewrite starts_with_hash. split; [by intros [? ?]; exists t | by intros (? & [= <-] & ? & ?)].
Qed.

Section references.
Context {E : Type} (err : E).
Definition walk (value : Value) (stack : list Value) (u : unit) : result E (list Value * unit) :=
  match value with
  | Array values => Ok (extend id values stack, u)
  | Object values =>
      stack' ← push_members (fun name child => guard_err (non_local name child) err) id values stack;
      Ok (stack', u)
  | _ => Ok (stack, u)
  end.

Lemma walk_cases v rest u :
  match walk v rest u with
  | Ok (st, _) => st = extend id (children v) rest /\ ~ refers_elsewhere v
  | Err _ => refers_elsewhere v
  end.
Proof.
  unfold refers_elsewhere. destruct v; simpl; try (split; [done | naive_solver]).
  pose proof (push_members_spec (fun name child => guard_err (non_local name child) err) id members rest) as Hm.
  destruct (push_members _ id members rest) as [st|e]; simpl.
  - destruct Hm as [-> Hall]. split; [done|]. intros (ms & n & t & [= <-] & Hin & Hn & Ht).
    rewrite Forall_forall in Hall. specialize (Hall _ Hin). simpl in Hall. apply guard_ok in Hall.
    assert (non_local n (Str t) = true) by (apply non_local_spec; eauto). congruence.
  - destruct Hm as ([n c] & Hin & Hg). simpl in Hg. destruct (non_local n c) eqn:Hnl; [|done].
    apply non_local_spec in Hnl as (t & -> & ? & ?). eauto 10.
Qed.

Lemma walk_drain_err fuel stack u e : drain walk fuel stack u = Some (Err e) -> e = err.
Proof.
  revert stack u. induction fuel as [|fuel IH]; intros [|v rest] u; simpl; try done.
  destruct (walk v rest u) as [[st u']|e'] eqn:Hw; [apply IH|]. intros [= ->].
  destruct v; try discriminate Hw. simpl in Hw.
  pose proof (push_members_spec (fun name child => guard_err (non_local name child) err) id members rest) as Hm.
  destruct (push_members _ id members rest); [done|]. injection Hw as ->.
  destruct Hm as (p & _ & Hg). unfold guard_err in Hg. by destruct (non_local p.1 p.2); simplify_eq.
Qed.

Lemma walk_drain fuel v : (length (flatten 0 v) <= fuel)%nat ->
  exists r, drain walk fuel [v] tt = Some r
    /\ (is_ok r = false <-> Exists refers_elsewhere (subvalues v)).
Proof.
  intros Hf.
  destruct (drain_decides walk (fun _ _ => True) (fun st => length (pending_values st))
    (fun st _ => ~ Exists refers_elsewhere (pending_values st))
    (fun _ st _ => Exists refers_elsewhere (pending_values st)))
    with (fuel := fuel) (stack := [v]) (s := tt) as (r & Hr & Hd); try intros *.
  - intros _ _ Hx. by apply Exists_nil in Hx.
  - pose proof (Permutation_length (pending_values_pop x rest)). simpl in *. lia.
  - intros _ Hv. pose proof (walk_cases x rest s) as Hc. rewrite Hv in Hc. destruct Hc as [-> Hc].
    pose proof (pending_values_pop x rest) as Hp. pose proof (Permutation_length Hp) as Hlen. simpl in Hlen.
    split_and!; [done | lia | |].
    + intros Hn Hx. apply (Permutation_Exists Hp) in Hx. inversion Hx; tauto.
    + intros _ Hx. apply (Permutation_Exists (symmetry Hp)). by constructor.
  - intros _ Hv. pose proof (walk_cases x rest s) as Hc. rewrite Hv in Hc.
    apply (Permutation_Exists (symmetry (pending_values_pop x rest))). by constructor.
  - done.
  - unfold pending_values. simpl. rewrite app_nil_r. unfold subvalues. rewrite length_map. exact Hf.
  - exists r. split; [exact Hr|]. unfold pending_values in Hd. simpl in Hd. rewrite app_nil_r in Hd.
    by destruct r.
Qed.
End references.

(** The two searches for references to other documents, of the tool runtime
    and of the validation crate, always end and agree: they object exactly when
    some object anywhere in the schema has a [$ref] or [$dynamicRef] member that is
    a string not starting with [#]. *)
Theorem non_local_references_found v fuel : (length (flatten 0 v) <= fuel)%nat ->
  exists b, has_non_local_reference fuel v = Some b
    /\ (b = true <-> Exists refers_elsewhere (subvalues v))
    /\ reject_non_local_references fuel v = Some (if b then Err NonLocalReference else Ok tt).
Proof.
  intros Hf. destruct (walk_drain tt fuel v Hf) as (r & Hr & Hs).
  destruct (walk_drain NonLocalReference fuel v Hf) as (r' & Hr' & Hs').
  exists (negb (is_ok r)). unfold has_non_local_reference, reject_non_local_references.
  change (drain reference_visit fuel [v] tt) with (drain (walk tt) fuel [v] tt).
  change (drain reject_visit fuel [v] tt) with (drain (walk NonLocalReference) fuel [v] tt).
  rewrite Hr, Hr'. split_and!; [done | by rewrite negb_true_iff |].
  rewrite <- Hs' in Hs. destruct r as [|u]; [destruct r' as [[]|]; [done|] | destruct r' as [|e]].
  - exfalso. simpl in Hs. clear -Hs. intuition discriminate.
  - exfalso. simpl in Hs. clear -Hs. intuition discriminate.
  - simpl. by rewrite (walk_drain_err NonLocalReference fuel [v] tt e Hr').
Qed.

(** ** Witnesses *)
Definition demo_limits : JsonValidationLimits :=
  {| max_payload_bytes := 100; max_schema_bytes := 100; max_depth := 2; max_nodes := 4;
     max_array_items := 3; max_object_properties := 3; max_string_bytes := 10; max_errors := 1 |}.
Definition demo_schema : Value :=
  Object [("items", Array [Bool true; Object [("$ref", Str "other.json")]])].

Lemma json_shape_exact_witness :
  validate_json_shape 5 demo_schema demo_limits = Some (Err TooManyNodes)
  /\ violates demo_limits TooManyNodes demo_schema
  /\ fits demo_limits (Array [Null; Str "ok"]).
Proof.
  destruct (json_shape_exact demo_limits demo_schema 5) as (r & Hr & _ & He & _); [reflexivity | vm_compute; lia |].
  destruct (json_shape_exact demo_limits (Array [Null; Str "ok"]) 3) as (r' & Hr' & Ha & _);
    [reflexivity | vm_compute; lia |].
  assert (Hc : validate_json_shape 5 demo_schema demo_limits = Some (Err TooManyNodes)) by reflexivity.
  split_and!; [exact Hc | |].
  - apply He. rewrite Hc in Hr. by injection Hr.
  - apply Ha. assert (Hc' : validate_json_shape 3 (Array [Null; Str "ok"]) demo_limits = Some (Ok tt)) by reflexivity.
    rewrite Hc' in Hr'. by injection Hr'.
Defined.

Lemma json_walk_memory_bounded_witness :
  0 <= 1 /\ 1 + count [(Str "ok", 1); (Null, 1)] <= max_nodes demo_limits
  /\ Forall (fun x : Value * Z => 0 <= x.2 <= max_depth demo_limits + 1) [(Str "ok", 1); (Null, 1)].
Proof.
  apply (json_walk_memory_bounded demo_limits (Array [Null; Str "ok"])); [reflexivity|].
  eapply iterates_step; [reflexivity | apply iterates_refl].
Defined.

Lemma json_shape_within_exact_witness :
  exists b, json_shape_within 5 demo_schema MAX_JSON_DEPTH MAX_JSON_NODES = Some b /\ b = true.
Proof.
  destruct (json_shape_within_exact demo_schema MAX_JSON_DEPTH MAX_JSON_NODES 5) as (b & Hb & Hiff);
    [by vm_compute | by vm_compute | vm_compute; lia |].
  exists b. split; [exact Hb|]. apply Hiff. split; [repeat constructor; by vm_compute | by vm_compute].
Defined.

Lemma non_local_references_found_witness : Exists refers_elsewhere (subvalues demo_schema).
Proof.
  destruct (non_local_references_found demo_schema 5) as (b & Hb & Hiff & _); [vm_compute; lia|].
  apply Hiff. assert (Hc : has_non_local_reference 5 demo_schema = Some true) by reflexivity.
  rewrite Hc in Hb. by injection Hb.
Defined.
