(* ===== verification/Ordered.v ===== *)
(** * Ordered types and ordered slices

    Rust's [Ord] as a type class with its laws, and what the crates use of the
    standard library on ordered slices: [sort_unstable], [dedup] and
    [binary_search_by], the last as the loop of the standard library. *)
From S2P Require Import Prelude.
From Stdlib Require Import Ascii.

Class Ord (A : Type) := cmp : A -> A -> comparison.
Class OrdLaws (A : Type) `{Ord A} := {
  cmp_eq (x y : A) : cmp x y = Eq <-> x = y;
  cmp_opp (x y : A) : cmp y x = CompOpp (cmp x y);
  cmp_trans (x y z : A) : cmp x y = Lt -> cmp y z = Lt -> cmp x z = Lt;
}.
(** [Ordering::then]: the second comparison decides ties. *)
Definition then_cmp (c d : comparison) : comparison := match c with Eq => d | _ => c end.

#[global] Instance Z_ord : Ord Z := Z.compare.
#[global] Instance Z_ord_laws : OrdLaws Z.
Proof.
  split; unfold cmp, Z_ord.
  - apply Z.compare_eq_iff.
  - intros. apply Z.compare_antisym.
  - intros x y z. rewrite !Z.compare_lt_iff. lia.
Qed.
(** Strings compare byte by byte. *)
Definition byte_cmp (a b : ascii) : comparison := N.compare (N_of_ascii a) (N_of_ascii b).
Fixpoint string_cmp (s t : string) : comparison :=
  match s, t with
  | EmptyString, EmptyString => Eq
  | EmptyString, String _ _ => Lt
  | String _ _, EmptyString => Gt
  | String a s, String b t => then_cmp (byte_cmp a b) (string_cmp s t)
  end.
#[global] Instance string_ord : Ord string := string_cmp.
Lemma byte_cmp_eq a b : byte_cmp a b = Eq <-> a = b.
Proof.
  unfold byte_cmp. rewrite N.compare_eq_iff. split; [|by intros ->].
  intros H. by rewrite <- (ascii_N_embedding a), H, ascii_N_embedding.
Qed.
#[global] Instance string_ord_laws : OrdLaws string.
Proof.
  split; unfold cmp, string_ord.
  - induction x as [|a x IH]; intros [|b y]; simpl; try done. unfold then_cmp.
    destruct (byte_cmp a b) eqn:E.
    + apply byte_cmp_eq in E as ->. rewrite IH. split; [by intros -> | congruence].
    + split; [done|]. intros [= -> ->]. by rewrite (proj2 (byte_cmp_eq b b) eq_refl) in E.
    + split; [done|]. intros [= -> ->]. by rewrite (proj2 (byte_cmp_eq b b) eq_refl) in E.
  - induction x as [|a x IH]; intros [|b y]; simpl; try done. unfold then_cmp, byte_cmp.
    rewrite N.compare_antisym. destruct (N.compare _ _); simpl; auto.
  - induction x as [|a x IH]; intros [|b y] [|c z]; simpl; try done. unfold then_cmp, byte_cmp.
    destruct (N.compare_spec (N_of_ascii a) (N_of_ascii b)) as [E1|E1|E1],
      (N.compare_spec (N_of_ascii b) (N_of_ascii c)) as [E2|E2|E2],
      (N.compare_spec (N_of_ascii a) (N_of_ascii c)) as [E3|E3|E3]; try done; try lia. apply IH.
Qed.
#[global] Instance pair_ord {A B} `{Ord A, Ord B} : Ord (A * B) :=
  fun x y => then_cmp (cmp x.1 y.1) (cmp x.2 y.2).

Section lemmas.
Context {A : Type} `{OrdLaws A}.
Lemma cmp_refl (x : A) : cmp x x = Eq.
Proof. by apply cmp_eq. Qed.
Lemma cmp_gt (x y : A) : cmp x y = Gt <-> cmp y x = Lt.
Proof. rewrite (cmp_opp x y). by destruct (cmp x y). Qed.
Lemma cmp_lt_neq (x y : A) : cmp x y = Lt -> x <> y.
Proof. intros Hlt ->. by rewrite cmp_refl in Hlt. Qed.
End lemmas.
#[global] Instance pair_ord_laws {A B} `{OrdLaws A, OrdLaws B} : OrdLaws (A * B).
Proof.
  split; unfold cmp, pair_ord, then_cmp.
  - intros [a b] [a' b']. simpl. destruct (cmp a a') eqn:E.
    + apply cmp_eq in E as ->. rewrite cmp_eq. split; congruence.
    + split; [done|]. intros [= -> ->]. by rewrite cmp_refl in E.
    + split; [done|]. intros [= -> ->]. by rewrite cmp_refl in E.
  - intros [a b] [a' b']. simpl. rewrite (cmp_opp a a'), (cmp_opp b b'). by destruct (cmp a a').
  - intros [a b] [a' b'] [a'' b'']. simpl.
    destruct (cmp a a') eqn:E1; [apply cmp_eq in E1 as ->| |done];
    (destruct (cmp a' a'') eqn:E2; [apply cmp_eq in E2 as ->| |done]); rewrite ?cmp_refl, ?E1, ?E2; try done.
    + apply cmp_trans.
    + by rewrite (cmp_trans _ _ _ E1 E2).
Qed.

(** ** Slices *)
Section slices.
Context {A : Type}.

(** [sort_unstable_by]: for the comparisons used, elements that compare equal are
    equal, or the caller rejects them, so the order of ties does not matter. *)
Fixpoint insert_sorted (c : A -> A -> comparison) (x : A) (l : list A) : list A :=
  match l with
  | [] => [x]
  | y :: l' => match c x y with Gt => y :: insert_sorted c x l' | _ => x :: l end
  end.
Definition sort_by (c : A -> A -> comparison) (l : list A) : list A := foldr (insert_sorted c) [] l.

(** [dedup]: of consecutive equal elements the first stays. *)
Fixpoint dedup `{EqDecision A} (l : list A) : list A :=
  match l with
  | [] => []
  | x :: l' => match l' with
               | y :: _ => if decide (x = y) then dedup l' else x :: dedup l'
               | [] => [x]
               end
  end.

(** The loop of [binary_search_by]; [f] compares an element with the target.  Every
    turn shrinks [size], so the length of the slice is enough fuel. *)
Fixpoint search_loop (fuel : nat) (f : A -> comparison) (l : list A) (base size : nat) : option nat :=
  if (1 <? size)%nat then
    match fuel with
    | O => None
    | S fuel' =>
        let half := (size / 2)%nat in
        let mid := (base + half)%nat in
        match l !! mid with
        | Some x => search_loop fuel' f l (match f x with Gt => base | _ => mid end) (size - half)
        | None => None
        end
    end
  else Some base.
Definition binary_search_by (f : A -> comparison) (l : list A) : result nat nat :=
  match search_loop (length l) f l 0 (length l) with
  | Some base =>
      match f <$> l !! base with
      | Some Eq => Ok base
      | Some Lt => Err (S base)
      | Some Gt => Err base
      | None => Err 0%nat
      end
  | None => Err 0%nat
  end.
Definition binary_search `{Ord A} (x : A) (l : list A) : result nat nat := binary_search_by (fun y => cmp y x) l.
End slices.

(** ** Sorting *)
Section sorting.
Context {A : Type}.

Lemma insert_sorted_perm c (x : A) l : insert_sorted c x l ≡ₚ x :: l.
Proof.
  induction l as [|y l IH]; simpl; [done|]. destruct (c x y); try done. rewrite IH. apply perm_swap.
Qed.
Lemma sort_by_perm c (l : list A) : sort_by c l ≡ₚ l.
Proof. induction l as [|x l IH]; simpl; [done|]. by rewrite insert_sorted_perm, IH. Qed.

(** Sorted by a key of an ordered type. *)
Context {K : Type} `{OrdLaws K} (key : A -> K).
Definition by_key (x y : A) : comparison := cmp (key x) (key y).
Definition key_le (x y : A) : Prop := by_key x y <> Gt.
Definition key_lt (x y : A) : Prop := by_key x y = Lt.
Lemma key_le_trans x y z : key_le x y -> key_le y z -> key_le x z.
Proof.
  unfold key_le, by_key. intros H1 H2 H3. destruct (cmp (key x) (key y)) eqn:E1; [|clear H1|done].
  - apply cmp_eq in E1. rewrite E1 in H3. done.
  - destruct (cmp (key y) (key z)) eqn:E2; [|clear H2|done].
    + apply cmp_eq in E2. rewrite E2 in E1. congruence.
    + pose proof (cmp_trans _ _ _ E1 E2). congruence.
Qed.
Lemma insert_sorted_sorted x l : StronglySorted key_le l -> StronglySorted key_le (insert_sorted by_key x l).
Proof.
  induction 1 as [|y l Hl IH Hy]; simpl; [by repeat constructor|].
  destruct (by_key x y) eqn:E.
  1, 2: constructor; [by constructor|]; constructor; [unfold key_le; by rewrite E|];
    eapply Forall_impl; [exact Hy|]; intros z Hz; eapply key_le_trans; [|exact Hz]; unfold key_le; by rewrite E.
  constructor; [done|]. rewrite Forall_forall in Hy |- *. intros z Hz. rewrite insert_sorted_perm in Hz.
  apply elem_of_cons in Hz as [->|Hz]; [|by apply Hy]. unfold key_le, by_key in *.
  rewrite cmp_opp, E. done.
Qed.
Lemma sort_by_sorted l : StronglySorted key_le (sort_by by_key l).
Proof. induction l; simpl; [constructor | by apply insert_sorted_sorted]. Qed.
End sorting.

(** ** Removing duplicates *)
Section dedup.
Context {A : Type} `{OrdLaws A} `{EqDecision A}.
#[local] Abbreviation le := (key_le (fun x : A => x)).
#[local] Abbreviation lt := (key_lt (fun x : A => x)).

Lemma dedup_elem (x : A) l : x ∈ dedup l <-> x ∈ l.
Proof.
  induction l as [|y l IH]; [done|]. simpl. destruct l as [|z l]; [done|].
  destruct (decide (y = z)) as [->|]; rewrite ?elem_of_cons, IH; set_solver.
Qed.
Lemma dedup_sorted l : StronglySorted le l -> StronglySorted lt (dedup l).
Proof.
  induction l as [|x l IH]; intros Hs; simpl; [constructor|]. inversion Hs as [|? ? Hl Hx]; subst.
  destruct l as [|y l]; [by repeat constructor|]. specialize (IH Hl). destruct (decide (x = y)) as [->|Hne]; [done|].
  constructor; [done|]. apply Forall_forall. intros z Hz. rewrite dedup_elem in Hz.
  apply Forall_cons in Hx as [Hxy _]. unfold key_lt, by_key in *.
  assert (Hlt : cmp x y = Lt).
  { unfold key_le, by_key in Hxy. destruct (cmp x y) eqn:E; [|done|done]. by apply cmp_eq in E. }
  apply elem_of_cons in Hz as [->|Hz]; [done|]. inversion Hl as [|? ? _ Hy]; subst.
  rewrite Forall_forall in Hy. specialize (Hy _ Hz). unfold key_le, by_key in Hy.
  destruct (cmp y z) eqn:E; [by apply cmp_eq in E as <- | by eapply cmp_trans | done].
Qed.

(** [v.sort_unstable(); v.dedup();] *)
Definition normalize (l : list A) : list A := dedup (sort_by cmp l).
Lemma normalize_elem x l : x ∈ normalize l <-> x ∈ l.
Proof. unfold normalize. rewrite dedup_elem. by rewrite sort_by_perm. Qed.
Lemma normalize_sorted l : StronglySorted lt (normalize l).
Proof. apply dedup_sorted. apply (sort_by_sorted (fun x : A => x)). Qed.
Lemma lt_sorted_NoDup l : StronglySorted lt l -> NoDup l.
Proof.
  induction 1 as [|x l Hl IH Hx]; [constructor|]. constructor; [|done]. intros Hin. rewrite Forall_forall in Hx.
  specialize (Hx _ Hin). unfold key_lt, by_key in Hx. by rewrite cmp_refl in Hx.
Qed.
Lemma normalize_length l : length (normalize l) = length (remove_dups l).
Proof.
  apply Permutation_length, NoDup_Permutation; [apply lt_sorted_NoDup, normalize_sorted | apply NoDup_remove_dups |].
  intros x. by rewrite normalize_elem, elem_of_remove_dups.
Qed.
End dedup.

(** ** Binary search *)
Section search.
Context {A : Type} (f : A -> comparison) (l : list A).

(** Past a hit, or past a greater element, everything is greater. *)
Definition partitioned : Prop := forall i j x y, (i < j)%nat -> l !! i = Some x -> l !! j = Some y -> f x <> Lt -> f y = Gt.
Definition search_inv (base size : nat) : Prop :=
  (1 <= size)%nat /\ (base + size <= length l)%nat
  /\ (forall j y, (base + size <= j)%nat -> l !! j = Some y -> f y = Gt)
  /\ (base = 0%nat \/ forall x, l !! base = Some x -> f x <> Gt).

Lemma search_loop_inv fuel base size : partitioned -> search_inv base size -> (size <= fuel)%nat ->
  exists b, search_loop fuel f l base size = Some b /\ search_inv b 1.
Proof.
  intros Hp. revert base size. induction fuel as [|fuel IH]; intros base size (H1 & H2 & H3 & H4) Hf; [lia|].
  cbn [search_loop]. destruct (Nat.ltb_spec 1 size) as [Hs|Hs].
  - assert (Hh : (1 <= size / 2 < size)%nat) by (split; [apply Nat.div_le_lower_bound; lia | apply Nat.div_lt; lia]).
    pose proof (Nat.Div0.mul_div_le size 2) as Hd. set (half := (size / 2)%nat) in *. destruct (l !! (base + half)%nat) as [x|] eqn:Hx.
    2: { apply lookup_ge_None in Hx. lia. }
    apply IH; [|lia]. destruct (f x) eqn:Ef; (split; [lia|]; split; [lia|]; split).
    + intros j y Hj Hy. apply (H3 j y); [lia | done].
    + right. intros x' Hx'. simplify_eq. by rewrite Ef.
    + intros j y Hj Hy. apply (H3 j y); [lia | done].
    + right. intros x' Hx'. simplify_eq. by rewrite Ef.
    + intros j y Hj Hy. destruct (decide ((base + size <= j)%nat)); [by apply (H3 j)|].
      destruct (decide (j = (base + half)%nat)) as [->|]; [congruence|].
      apply (Hp (base + half)%nat j x y); [lia | done | done | by rewrite Ef].
    + done.
  - assert (size = 1%nat) as -> by lia. exists base. split; [done|]. by split_and!.
Qed.

Lemma binary_search_by_ok i : partitioned -> binary_search_by f l = Ok i -> exists x, l !! i = Some x /\ f x = Eq.
Proof.
  intros _. unfold binary_search_by. destruct (search_loop _ _ _ _ _) as [b|]; [|done].
  destruct (l !! b) as [x|] eqn:Hx; simpl; [|done]. destruct (f x) eqn:Ef; try done. intros [= <-]. eauto.
Qed.
Lemma binary_search_by_hit i x : partitioned -> l !! i = Some x -> f x = Eq -> binary_search_by f l = Ok i.
Proof.
  intros Hp Hi Hf. assert (Hl : (1 <= length l)%nat) by (apply lookup_lt_Some in Hi; lia).
  destruct (search_loop_inv (length l) 0 (length l)) as (b & Hb & H1 & H2 & H3 & H4); [done | | lia |].
  { split_and!; [lia | lia | | by left]. intros j y Hj Hy. apply lookup_lt_Some in Hy. lia. }
  unfold binary_search_by. rewrite Hb. assert (i = b) as <-.
  { destruct (decide (i = b)); [done|]. exfalso. destruct (decide ((b < i)%nat)) as [Hlt|Hge].
    - specialize (H3 i x ltac:(lia) Hi). congruence.
    - destruct (l !! b) as [y|] eqn:Hy; [|apply lookup_ge_None in Hy; lia].
      destruct H4 as [->|H4]; [lia|]. apply (H4 y eq_refl). apply (Hp i b x y); [lia | done | done |]. by rewrite Hf. }
  rewrite Hi. simpl. by rewrite Hf.
Qed.
End search.

Section search_sorted.
Context {A : Type} `{OrdLaws A}.

Lemma sorted_lookup {B} (R : B -> B -> Prop) l i j x y : StronglySorted R l -> (i < j)%nat ->
  l !! i = Some x -> l !! j = Some y -> R x y.
Proof.
  intros Hs. revert i j. induction Hs as [|z l Hl IH Hz]; intros [|i] [|j] Hij Hi Hj; simpl in *; try lia; try done.
  - simplify_eq. rewrite Forall_forall in Hz. apply Hz. by eapply list_elem_of_lookup_2.
  - apply (IH i j); [lia | done | done].
Qed.
Lemma sorted_partitioned {B} (key : B -> A) t l : StronglySorted (key_lt key) l ->
  partitioned (fun y => cmp (key y) t) l.
Proof.
  intros Hs i j x y Hij Hi Hj Hx. pose proof (sorted_lookup _ _ _ _ _ _ Hs Hij Hi Hj) as Hlt.
  unfold key_lt, by_key in Hlt. apply cmp_gt. destruct (cmp (key x) t) eqn:E; [|done|].
  - apply cmp_eq in E as <-. done.
  - apply cmp_gt in E. by eapply cmp_trans.
Qed.

(** On a strictly sorted slice the search finds exactly the members. *)
Lemma binary_search_elem (x : A) l : StronglySorted (key_lt (fun y : A => y)) l ->
  is_ok (binary_search x l) = true <-> x ∈ l.
Proof.
  intros Hs. pose proof (sorted_partitioned (fun y : A => y) x l Hs) as Hp. unfold binary_search. split.
  - destruct (binary_search_by _ _) as [i|] eqn:E; [|done]. intros _.
    destruct (binary_search_by_ok _ _ _ Hp E) as (y & Hy & Hc). apply cmp_eq in Hc as ->. by eapply list_elem_of_lookup_2.
  - intros [i Hi]%list_elem_of_lookup_1. erewrite binary_search_by_hit; [done | done | exact Hi | apply cmp_refl].
Qed.
End search_sorted.

(** ** The first elements of an order *)
Lemma sort_take_elem {A K} `{OrdLaws K} (key : A -> K) n l x : x ∈ take n (sort_by (by_key key) l) -> x ∈ l.
Proof. intros Hx. apply elem_of_take in Hx as (i & Hi & _). apply list_elem_of_lookup_2 in Hi. by rewrite sort_by_perm in Hi. Qed.
Lemma sort_take_nodup {A K} `{OrdLaws K} (key : A -> K) n (f : A -> Z) l : NoDup (f <$> l) -> NoDup (f <$> take n (sort_by (by_key key) l)).
Proof.
  intros Hl. rewrite fmap_take. eapply sublist_NoDup; [|apply sublist_take]. by rewrite sort_by_perm.
Qed.
Lemma nodup_fmap_filter {A B} (f : A -> B) (P : A -> Prop) `{forall x, Decision (P x)} l : NoDup (f <$> l) -> NoDup (f <$> filter P l).
Proof.
  induction l as [|x l IH]; [done|]. rewrite fmap_cons, NoDup_cons. intros [Hx Hl]. rewrite filter_cons. destruct (decide _); [|by apply IH].
  rewrite fmap_cons. apply NoDup_cons. split; [|by apply IH]. intros (y & Hy & [_ Hin]%list_elem_of_filter)%list_elem_of_fmap.
  apply Hx, list_elem_of_fmap. by exists y.
Qed.
(** The selection is a prefix of the order: what is left out comes after it. *)
Lemma sort_take_first {A K} `{OrdLaws K} (key : A -> K) n l x y :
  x ∈ take n (sort_by (by_key key) l) -> y ∈ l -> y ∉ take n (sort_by (by_key key) l) -> key_le key x y.
Proof.
  intros Hx Hy Hn. pose proof (sort_by_sorted key l) as Hs. rewrite <- (take_drop n (sort_by (by_key key) l)) in Hs.
  assert (Hd : y ∈ drop n (sort_by (by_key key) l)).
  { assert (Hy' : y ∈ sort_by (by_key key) l) by (by rewrite sort_by_perm). rewrite <- (take_drop n) in Hy'.
    apply elem_of_app in Hy' as [|]; done. }
  revert Hs Hx Hd. generalize (take n (sort_by (by_key key) l)) as a, (drop n (sort_by (by_key key) l)) as b. intros a b.
  induction a as [|z a IH]; intros Hs Hx Hd; [by apply not_elem_of_nil in Hx|]. inversion Hs as [|? ? Hs' Hz]; subst.
  apply elem_of_cons in Hx as [->|Hx]; [|by apply IH]. rewrite Forall_forall in Hz. apply Hz. apply elem_of_app. by right.
Qed.
Lemma sort_take_full {A K} `{OrdLaws K} (key : A -> K) n l y :
  y ∈ l -> y ∉ take n (sort_by (by_key key) l) -> length (take n (sort_by (by_key key) l)) = n.
Proof.
  intros Hy Hn. rewrite length_take. destruct (decide (n <= length (sort_by (by_key key) l))%nat); [lia|].
  exfalso. apply Hn. rewrite take_ge by lia. by rewrite sort_by_perm.
Qed.
