(* ===== verification/AuthCore.v ===== *)
(** * Principals: [crates/auth-core/src/lib.rs]

    Identifiers are UUIDs, integers in their order here; instants are nanoseconds, so
    normalising the offset to UTC changes nothing.  Checking that an identifier is a
    version 7 UUID is the business of the [uuid] crate and is left out. *)
From S2P Require Import Prelude Text Ordered.
From Stdlib Require Import Ascii.

Definition MAX_SCOPE_BYTES : Z := 128.
Definition MAX_PRINCIPAL_SCOPES : Z := 128.

Inductive PrincipalKind := User | ServiceAccount.
Inductive AuthMethod := Password | Session | Jwt | Oidc | ApiKey | WebAuthn | Totp.
Inductive AssuranceLevel := Aal1 | Aal2 | Aal3.
Definition assurance_rank (a : AssuranceLevel) : Z := match a with Aal1 => 1 | Aal2 => 2 | Aal3 => 3 end.
#[global] Instance AssuranceLevel_ord : Ord AssuranceLevel := fun a b => cmp (assurance_rank a) (assurance_rank b).

Inductive ScopeError := ScopeEmpty | ScopeTooLong | ScopeInvalidCharacter.
Definition Scope : Type := string.
Definition scope_byte (c : ascii) : bool :=
  let b := byte_val c in
  (b =? 33) || ((35 <=? b) && (b <=? 91)) || ((93 <=? b) && (b <=? 126)).
Definition Scope_new (value : string) : result ScopeError Scope :=
  _ ← guard_err (is_empty value) ScopeEmpty;
  _ ← guard_err (MAX_SCOPE_BYTES <? len value) ScopeTooLong;
  _ ← guard_err (negb (all_bytes scope_byte value)) ScopeInvalidCharacter;
  Ok value.

Record Principal := {
  subject_id : Z;
  principal_kind : PrincipalKind;
  principal_tenant_id : option Z;
  auth_method : AuthMethod;
  authenticated_at : Z;
  assurance : AssuranceLevel;
  scopes : list Scope;
}.
Inductive PrincipalError := TooManyScopes.
Definition Principal_new (subject : Z) (kind : PrincipalKind) (tenant : option Z) (method : AuthMethod) (at_ : Z)
    (level : AssuranceLevel) (granted : list Scope) : result PrincipalError Principal :=
  let granted := normalize granted in
  _ ← guard_err (MAX_PRINCIPAL_SCOPES <? Z.of_nat (length granted)) TooManyScopes;
  Ok {| subject_id := subject; principal_kind := kind; principal_tenant_id := tenant; auth_method := method;
        authenticated_at := at_; assurance := level; scopes := granted |}.
