(* ===== verification/Authorization.v ===== *)
(** * Authorization: [crates/authz-basic/src/lib.rs]

    The permission matrix, the normalised context, and the decision, with the sorting
    and binary searching the source does.  The service records a metric per
    decision; that is left out. *)
From S2P Require Import Prelude Text Ordered AuthCore.
From Stdlib Require Import Ascii.

Definition MAX_IDENTIFIER_BYTES : Z := 128.
Definition MAX_ATTRIBUTE_VALUE_BYTES : Z := 256.
Definition MAX_RULES : Z := 512.
Definition MAX_GRANTS : Z := 32.
Definition MAX_RULE_SCOPES : Z := 128.
Definition MAX_CONDITIONS : Z := 32.
Definition MAX_CONTEXT_ITEMS : Z := 128.
Definition MAX_ATTRIBUTES : Z := 32.

Inductive IdentifierError := IdEmpty | IdTooLong | IdInvalidCharacter.
(** [:], [.], [_] and [-] beside letters and digits. *)
Definition identifier_byte (c : ascii) : bool :=
  let b := byte_val c in is_ascii_alphanumeric c || (b =? 58) || (b =? 46) || (b =? 95) || (b =? 45).
Definition validate_identifier (value : string) : result IdentifierError unit :=
  _ ← guard_err (is_empty value) IdEmpty;
  _ ← guard_err (MAX_IDENTIFIER_BYTES <? len value) IdTooLong;
  guard_err (negb (all_bytes identifier_byte value)) IdInvalidCharacter.
(** The types of the macro [policy_identifier]. *)
Definition Action : Type := string.
Definition ResourceKind : Type := string.
Definition Role : Type := string.
Definition Capability : Type := string.
Definition AttributeKey : Type := string.
Definition AttributeValue : Type := string.
Definition policy_identifier_new (value : string) : result IdentifierError string :=
  _ ← validate_identifier value; Ok value.
Definition AttributeValue_new (value : string) : result IdentifierError AttributeValue :=
  _ ← guard_err (is_empty value) IdEmpty;
  _ ← guard_err (MAX_ATTRIBUTE_VALUE_BYTES <? len value) IdTooLong;
  _ ← guard_err (has_control value) IdInvalidCharacter;
  Ok value.

Inductive Grant :=
| GrantRole (r : Role)
| GrantOwner
| GrantAdministrativeCapability (c : Capability).
#[global] Instance Grant_eq : EqDecision Grant.
Proof. unfold Role, Capability. solve_decision. Defined.
(** The derived order: by constructor, then by payload. *)
Definition grant_rank (g : Grant) : Z :=
  match g with GrantRole _ => 0 | GrantOwner => 1 | GrantAdministrativeCapability _ => 2 end.
Definition grant_payload (g : Grant) : string :=
  match g with GrantRole r => r | GrantOwner => EmptyString | GrantAdministrativeCapability c => c end.
#[global] Instance Grant_ord : Ord Grant :=
  fun a b => cmp (grant_rank a, grant_payload a) (grant_rank b, grant_payload b).
#[global] Instance Grant_ord_laws : OrdLaws Grant.
Proof.
  split; unfold cmp, Grant_ord.
  - intros a b. rewrite cmp_eq. split; [|by intros ->]. destruct a, b; simpl; congruence.
  - intros a b. apply cmp_opp.
  - intros a b c. apply cmp_trans.
Qed.

Record Condition := { cond_key : AttributeKey; cond_value : AttributeValue }.
Inductive PolicyError := MissingGrant | CollectionLimit | DuplicateRule.
Record PolicyRule := {
  action : Action;
  resource_kind : ResourceKind;
  grants : list Grant;
  required_scopes : list Scope;
  minimum_assurance : AssuranceLevel;
  require_tenant_membership : bool;
  conditions : list Condition;
}.
Definition PolicyRule_new (act : Action) (kind : ResourceKind) (gs : list Grant) : result PolicyError PolicyRule :=
  let gs := normalize gs in
  _ ← guard_err (match gs with [] => true | _ => false end) MissingGrant;
  _ ← guard_err (MAX_GRANTS <? Z.of_nat (length gs)) CollectionLimit;
  Ok {| action := act; resource_kind := kind; grants := gs; required_scopes := []; minimum_assurance := Aal1;
        require_tenant_membership := false; conditions := [] |}.
Definition with_required_scopes (ss : list Scope) (r : PolicyRule) : result PolicyError PolicyRule :=
  let ss := normalize ss in
  _ ← guard_err (MAX_RULE_SCOPES <? Z.of_nat (length ss)) CollectionLimit;
  Ok {| action := action r; resource_kind := resource_kind r; grants := grants r; required_scopes := ss;
        minimum_assurance := minimum_assurance r; require_tenant_membership := require_tenant_membership r;
        conditions := conditions r |}.
Definition with_minimum_assurance (a : AssuranceLevel) (r : PolicyRule) : PolicyRule :=
  {| action := action r; resource_kind := resource_kind r; grants := grants r; required_scopes := required_scopes r;
     minimum_assurance := a; require_tenant_membership := require_tenant_membership r; conditions := conditions r |}.
Definition requiring_tenant_membership (r : PolicyRule) : PolicyRule :=
  {| action := action r; resource_kind := resource_kind r; grants := grants r; required_scopes := required_scopes r;
     minimum_assurance := minimum_assurance r; require_tenant_membership := true; conditions := conditions r |}.
Definition with_condition (c : Condition) (r : PolicyRule) : result PolicyError PolicyRule :=
  _ ← guard_err (MAX_CONDITIONS <=? Z.of_nat (length (conditions r))) CollectionLimit;
  Ok {| action := action r; resource_kind := resource_kind r; grants := grants r;
        required_scopes := required_scopes r; minimum_assurance := minimum_assurance r;
        require_tenant_membership := require_tenant_membership r; conditions := conditions r ++ [c] |}.

Definition rule_key (r : PolicyRule) : string * string := (action r, resource_kind r).
Fixpoint adjacent_duplicate (l : list PolicyRule) : bool :=
  match l with
  | x :: (y :: _) as l' => bool_decide (rule_key x = rule_key y) || adjacent_duplicate l'
  | _ => false
  end.
Definition PolicyMatrix : Type := list PolicyRule.
Definition PolicyMatrix_new (rules : list PolicyRule) : result PolicyError PolicyMatrix :=
  _ ← guard_err (MAX_RULES <? Z.of_nat (length rules)) CollectionLimit;
  let rules := sort_by (by_key rule_key) rules in
  _ ← guard_err (adjacent_duplicate rules) DuplicateRule;
  Ok rules.

Record Resource := { res_kind : ResourceKind; owner_id : option Z; resource_tenant_id : option Z }.
Definition Resource_new (kind : ResourceKind) : Resource :=
  {| res_kind := kind; owner_id := None; resource_tenant_id := None |}.
Definition owned_by (owner : Z) (r : Resource) : Resource :=
  {| res_kind := res_kind r; owner_id := Some owner; resource_tenant_id := resource_tenant_id r |}.
Definition in_tenant (tenant : Z) (r : Resource) : Resource :=
  {| res_kind := res_kind r; owner_id := owner_id r; resource_tenant_id := Some tenant |}.

(** ** Context *)
Inductive ContextError := ContextLimit.
Record AuthorizationContext := {
  roles : list Role;
  tenant_memberships : list Z;
  administrative_capabilities : list Capability;
  attributes : list (AttributeKey * AttributeValue);
}.
(** Collecting pairs into a [BTreeMap] and back: keys in order, the last value wins. *)
Fixpoint btree_insert (k : AttributeKey) (v : AttributeValue) (l : list (AttributeKey * AttributeValue))
    : list (AttributeKey * AttributeValue) :=
  match l with
  | [] => [(k, v)]
  | (k', v') :: l' => match cmp k k' with
                      | Lt => (k, v) :: l
                      | Eq => (k, v) :: l'
                      | Gt => (k', v') :: btree_insert k v l'
                      end
  end.
Definition btree_collect (l : list (AttributeKey * AttributeValue)) : list (AttributeKey * AttributeValue) :=
  foldl (fun m kv => btree_insert kv.1 kv.2 m) [] l.
Definition AuthorizationContext_new (rs : list Role) (ts : list Z) (cs : list Capability)
    (attrs : list (AttributeKey * AttributeValue)) : result ContextError AuthorizationContext :=
  let rs := normalize rs in
  let ts := normalize ts in
  let cs := normalize cs in
  let attrs := btree_collect attrs in
  let over (n : nat) (limit : Z) := limit <? Z.of_nat n in
  _ ← guard_err (over (length rs) MAX_CONTEXT_ITEMS || over (length ts) MAX_CONTEXT_ITEMS
                 || over (length cs) MAX_CONTEXT_ITEMS || over (length attrs) MAX_ATTRIBUTES) ContextLimit;
  Ok {| roles := rs; tenant_memberships := ts; administrative_capabilities := cs; attributes := attrs |}.
Definition attribute (ctx : AuthorizationContext) (key : AttributeKey) : option AttributeValue :=
  match binary_search_by (fun kv => cmp kv.1 key) (attributes ctx) with
  | Ok i => snd <$> attributes ctx !! i
  | Err _ => None
  end.

(** ** Decision *)
Inductive DenyReason :=
| UnknownAction | MissingPolicy | MissingResourceContext | MissingTenantContext | TenantMismatch
| NotTenantMember | InsufficientScope | InsufficientAssurance | ContextCondition | NotEntitled | EvaluatorFailure.
Inductive Decision := Allow | Deny (r : DenyReason).
Record AuthorizationRequest := {
  req_principal : Principal;
  req_action : Action;
  req_resource : Resource;
  req_context : AuthorizationContext;
}.

Definition grant_holds (req : AuthorizationRequest) (g : Grant) : bool :=
  match g with
  | GrantRole r => is_ok (binary_search r (roles (req_context req)))
  | GrantOwner => bool_decide (owner_id (req_resource req) = Some (subject_id (req_principal req)))
  | GrantAdministrativeCapability c => is_ok (binary_search c (administrative_capabilities (req_context req)))
  end.
(** The gates of a rule, in their order, then its grants. *)
Definition evaluate_rule (rule : PolicyRule) (req : AuthorizationRequest) : Decision :=
  if existsb (fun s => negb (is_ok (binary_search s (scopes (req_principal req))))) (required_scopes rule)
  then Deny InsufficientScope else
  if bool_decide (cmp (assurance (req_principal req)) (minimum_assurance rule) = Lt) then Deny InsufficientAssurance else
  if existsb (fun c => negb (bool_decide (attribute (req_context req) (cond_key c) = Some (cond_value c))))
       (conditions rule)
  then Deny ContextCondition else
  let entitled := existsb (grant_holds req) (grants rule) in
  let has_owner_grant := bool_decide (GrantOwner ∈ grants rule) in
  let decide_grants :=
    if entitled then Allow
    else if has_owner_grant && bool_decide (owner_id (req_resource req) = None) then Deny MissingResourceContext
    else Deny NotEntitled in
  if require_tenant_membership rule then
    match resource_tenant_id (req_resource req) with
    | None => Deny MissingTenantContext
    | Some t =>
        if negb (bool_decide (principal_tenant_id (req_principal req) = Some t)) then Deny TenantMismatch
        else if negb (is_ok (binary_search t (tenant_memberships (req_context req)))) then Deny NotTenantMember
        else decide_grants
    end
  else decide_grants.
Definition evaluate_matrix (matrix : PolicyMatrix) (req : AuthorizationRequest) : Decision :=
  match List.find (fun r => bool_decide (action r = req_action req)
                            && bool_decide (resource_kind r = res_kind (req_resource req))) matrix with
  | None => if existsb (fun r => bool_decide (action r = req_action req)) matrix
            then Deny MissingPolicy else Deny UnknownAction
  | Some rule => evaluate_rule rule req
  end.

(** The provider interface and the service that fails closed. *)
Class AuthorizationProvider (P E : Type) := evaluate : P -> AuthorizationRequest -> result E Decision.
Inductive Infallible := .
#[global] Instance BasicPolicy : AuthorizationProvider PolicyMatrix Infallible :=
  fun m req => Ok (evaluate_matrix m req).
Definition authorize {P E} `{AuthorizationProvider P E} (provider : P) (principal : Principal) (act : Action)
    (resource : Resource) (context : AuthorizationContext) : Decision :=
  match evaluate provider {| req_principal := principal; req_action := act; req_resource := resource;
                             req_context := context |} with
  | Ok d => d
  | Err _ => Deny EvaluatorFailure
  end.
