(* ===== verification/AuthorizationTheorems.v ===== *)
(** * What authorization decides

    The decision on sorted, deduplicated and binary-searched data is the first
    failing gate on the data as it was supplied. *)
From S2P Require Import Prelude Text Ordered AuthCore Authorization.

(** ** The reference decision, on unnormalised inputs *)
Section reference.
Context (subject : Z) (tenant : option Z) (level : AssuranceLevel) (granted : list Scope).
Context (rs : list Role) (ts : list Z) (cs : list Capability) (attrs : list (AttributeKey * AttributeValue)).
Context (resource : Resource).

(** The value supplied last for a key. *)
Definition last_value (key : AttributeKey) : option AttributeValue :=
  snd <$> List.find (fun kv => bool_decide (kv.1 = key)) (rev attrs).
Definition entitles (g : Grant) : bool :=
  match g with
  | GrantRole r => bool_decide (r ∈ rs)
  | GrantOwner => bool_decide (owner_id resource = Some subject)
  | GrantAdministrativeCapability c => bool_decide (c ∈ cs)
  end.
Definition in_memberships (t : option Z) : bool := match t with Some t => bool_decide (t ∈ ts) | None => false end.
Definition gates (rule : PolicyRule) : list (bool * DenyReason) :=
  let tenants := require_tenant_membership rule in
  let unentitled := negb (existsb entitles (grants rule)) in
  [ (negb (bool_decide (required_scopes rule ⊆ granted)), InsufficientScope);
    (assurance_rank level <? assurance_rank (minimum_assurance rule), InsufficientAssurance);
    (negb (forallb (fun c => bool_decide (last_value (cond_key c) = Some (cond_value c))) (conditions rule)),
       ContextCondition);
    (tenants && bool_decide (resource_tenant_id resource = None), MissingTenantContext);
    (tenants && negb (bool_decide (tenant = resource_tenant_id resource)), TenantMismatch);
    (tenants && negb (in_memberships (resource_tenant_id resource)), NotTenantMember);
    (unentitled && bool_decide (GrantOwner ∈ grants rule) && bool_decide (owner_id resource = None),
       MissingResourceContext);
    (unentitled, NotEntitled) ].
Definition first_failure (l : list (bool * DenyReason)) : Decision :=
  match List.find fst l with Some (_, r) => Deny r | None => Allow end.
Definition reference_decision (rules : list PolicyRule) (act : Action) : Decision :=
  match List.find (fun r => bool_decide (rule_key r = (act, res_kind resource))) rules with
  | Some rule => first_failure (gates rule)
  | None => Deny (if existsb (fun r => bool_decide (action r = act)) rules then MissingPolicy else UnknownAction)
  end.
End reference.

(** ** Attributes *)
Definition attr_sorted (l : list (AttributeKey * AttributeValue)) : Prop := StronglySorted (key_lt fst) l.
Lemma btree_insert_elem k v x l : attr_sorted l ->
  x ∈ btree_insert k v l <-> x = (k, v) \/ (x ∈ l /\ x.1 <> k).
Proof.
  induction 1 as [|[k' v'] l Hl IH Hk]; simpl; [set_solver|].
  assert (Hne : forall y, y ∈ l -> cmp k' y.1 = Lt) by (rewrite Forall_forall in Hk; exact Hk).
  destruct (cmp k k') eqn:E; rewrite ?elem_of_cons, ?IH.
  - apply cmp_eq in E as <-. split; [|set_solver]. intros [->|Hx]; [by left|]. right. split; [by right|].
    intros <-. specialize (Hne _ Hx). by rewrite cmp_refl in Hne.
  - split; [|set_solver]. intros [->|Hx]; [by left|]. right. split; [set_solver|].
    intros <-. destruct Hx as [->|Hx]; [by rewrite cmp_refl in E|]. specialize (Hne _ Hx).
    pose proof (cmp_trans _ _ _ E Hne) as Hc. by rewrite cmp_refl in Hc.
  - split; [|set_solver]. intros [->|[->|[Hx Hx']]]; [|by left |by right; split; [right|]].
    right. split; [by left|]. simpl. intros <-. by rewrite cmp_refl in E.
Qed.
Lemma btree_insert_sorted k v l : attr_sorted l -> attr_sorted (btree_insert k v l).
Proof.
  induction 1 as [|[k' v'] l Hl IH Hk]; simpl; [by repeat constructor|].
  destruct (cmp k k') eqn:E.
  - apply cmp_eq in E as <-. by constructor.
  - constructor; [by constructor|]. constructor; [done|]. eapply Forall_impl; [exact Hk|]. intros y Hy.
    unfold key_lt, by_key in *. simpl in *. by eapply cmp_trans.
  - constructor; [done|]. apply Forall_forall. intros y Hy. apply btree_insert_elem in Hy as [->|[Hy _]]; [| |done].
    + by apply cmp_gt.
    + rewrite Forall_forall in Hk. by apply Hk.
Qed.

Lemma find_app {A} (p : A -> bool) l k :
  List.find p (l ++ k) = match List.find p l with Some x => Some x | None => List.find p k end.
Proof. induction l as [|x l IH]; simpl; [done|]. by destruct (p x). Qed.

Lemma btree_collect_spec attrs : attr_sorted (btree_collect attrs) /\
  forall k v, (k, v) ∈ btree_collect attrs <-> last_value attrs k = Some v.
Proof.
  unfold btree_collect. induction attrs as [|[k v] attrs [IHs IH]] using rev_ind; simpl.
  { split; [constructor|]. intros k v. split; [set_solver | done]. }
  rewrite foldl_app. simpl. set (m := foldl _ _ _) in *. split; [by apply btree_insert_sorted|].
  intros k' v'. rewrite btree_insert_elem by done. unfold last_value in *. rewrite rev_app_distr. simpl.
  case_bool_decide as Hk; simpl.
  - subst k'. split; [by intros [[= ->]|[_ ?]] | intros [= ->]; by left].
  - rewrite <- IH. set_solver.
Qed.

Lemma attribute_last rs ts cs attrs ctx key : AuthorizationContext_new rs ts cs attrs = Ok ctx ->
  attribute ctx key = last_value attrs key.
Proof.
  unfold AuthorizationContext_new. cbn. destruct (_ || _); [done|]. intros [= <-]. unfold attribute. simpl.
  destruct (btree_collect_spec attrs) as [Hs Hspec].
  pose proof (sorted_partitioned fst key _ Hs) as Hp.
  destruct (last_value attrs key) as [v|] eqn:E.
  - apply Hspec, list_elem_of_lookup_1 in E as [i Hi].
    erewrite binary_search_by_hit; [|done | exact Hi | apply cmp_refl]. by rewrite Hi.
  - destruct (binary_search_by _ _) as [i|] eqn:Eb; [|done].
    destruct (binary_search_by_ok _ _ _ Hp Eb) as ([k v] & Hi & Hc). apply cmp_eq in Hc. simpl in Hc. subst k.
    apply list_elem_of_lookup_2, Hspec in Hi. congruence.
Qed.

(** ** The matrix *)
Lemma adjacent_NoDup l : StronglySorted (key_le rule_key) l ->
  adjacent_duplicate l = false <-> NoDup (map rule_key l).
Proof.
  induction 1 as [|x l Hl IH Hx]; [split; [intros _; constructor | done]|]. destruct l as [|y l]; simpl.
  { split; [|done]. intros _. apply NoDup_singleton. }
  rewrite orb_false_iff, IH, bool_decide_eq_false. cbn [map]. rewrite (NoDup_cons (rule_key x)).
  split; intros [H1 H2]; (split; [|done]); [|intros He; apply H1; rewrite He; apply elem_of_cons; by left].
  apply Forall_cons in Hx as [Hxy Hx]. apply StronglySorted_inv in Hl as [_ Hy].
  intros Hin. apply elem_of_cons in Hin as [?|(z & Hz & Hin)%list_elem_of_fmap]; [done|].
  rewrite Forall_forall in Hy. specialize (Hy _ Hin). unfold key_le, by_key in *. rewrite <- Hz in Hy.
  apply H1, cmp_eq. destruct (cmp (rule_key x) (rule_key y)) eqn:E; [done | | done].
  exfalso. apply Hy. by apply cmp_gt.
Qed.

Lemma matrix_duplicates rules : adjacent_duplicate (sort_by (by_key rule_key) rules) = false <->
  NoDup (map rule_key rules).
Proof. rewrite adjacent_NoDup by apply sort_by_sorted. by rewrite sort_by_perm. Qed.
Lemma matrix_new_ok rules m : PolicyMatrix_new rules = Ok m -> NoDup (map rule_key rules) /\ m ≡ₚ rules.
Proof.
  unfold PolicyMatrix_new. cbn. destruct (MAX_RULES <? _); simpl; [done|].
  pose proof (matrix_duplicates rules) as Hd. destruct (adjacent_duplicate _); [done|]. intros [= <-].
  split; [by apply Hd | apply sort_by_perm].
Qed.

(** A permission matrix is accepted exactly when it has at most 512 rows and no
    two of them govern the same action on the same kind of resource; it then holds
    the given rows, sorted.  Too many rows are reported before duplicates. *)
Theorem matrix_new_exact rules :
  match PolicyMatrix_new rules with
  | Ok m => Z.of_nat (length rules) <= MAX_RULES /\ NoDup (map rule_key rules) /\ m ≡ₚ rules
      /\ StronglySorted (key_le rule_key) m
  | Err CollectionLimit => MAX_RULES < Z.of_nat (length rules)
  | Err DuplicateRule => Z.of_nat (length rules) <= MAX_RULES /\ ~ NoDup (map rule_key rules)
  | Err MissingGrant => False
  end.
Proof.
  unfold PolicyMatrix_new. cbn. destruct (MAX_RULES <? _) eqn:E; simpl; [lia|].
  pose proof (matrix_duplicates rules) as Hd. destruct (adjacent_duplicate _); simpl.
  - split; [lia|]. by rewrite <- Hd.
  - split_and!; [lia | by apply Hd | apply sort_by_perm | apply sort_by_sorted].
Qed.

Lemma find_perm (p : PolicyRule -> bool) rules m : m ≡ₚ rules -> NoDup (map rule_key rules) ->
  (forall x y, p x = true -> p y = true -> rule_key x = rule_key y) -> List.find p m = List.find p rules.
Proof.
  intros Hp Hnd Hkey.
  assert (Hone : forall x y, x ∈ rules -> y ∈ rules -> p x = true -> p y = true -> x = y).
  { intros x y Hx Hy Px Py. specialize (Hkey _ _ Px Py). clear -Hx Hy Hkey Hnd.
    induction rules as [|z rules IH]; [set_solver|]. simpl in Hnd. apply NoDup_cons in Hnd as [Hz Hnd].
    apply elem_of_cons in Hx as [->|Hx], Hy as [->|Hy]; [done | | | by apply IH].
    - destruct Hz. rewrite Hkey. by apply list_elem_of_fmap_2.
    - destruct Hz. rewrite <- Hkey. by apply list_elem_of_fmap_2. }
  destruct (List.find p m) as [x|] eqn:E1, (List.find p rules) as [y|] eqn:E2; [| | |done].
  - apply find_some in E1 as [H1 P1], E2 as [H2 P2]. f_equal. apply Hone; try done; [|by apply list_elem_of_In].
    rewrite <- Hp. by apply list_elem_of_In.
  - apply find_some in E1 as [H1%list_elem_of_In P1]. rewrite Hp in H1. apply list_elem_of_In in H1.
    by rewrite (find_none _ _ E2 _ H1) in P1.
  - apply find_some in E2 as [H2%list_elem_of_In P2]. rewrite <- Hp in H2. apply list_elem_of_In in H2.
    by rewrite (find_none _ _ E1 _ H2) in P2.
Qed.
Lemma find_ext {A} (p r : A -> bool) l : (forall x, p x = r x) -> List.find p l = List.find r l.
Proof. intros H. induction l as [|x l IH]; simpl; [done|]. by rewrite H, IH. Qed.
Lemma existsb_perm {A} (p : A -> bool) l k : l ≡ₚ k -> existsb p l = existsb p k.
Proof.
  induction 1 as [|x l k _ IH|x y l|l k j _ IH1 _ IH2]; simpl; [done | by rewrite IH | | congruence].
  rewrite !orb_assoc. f_equal. apply orb_comm.
Qed.

(** ** The decision *)
Lemma search_normalize {A} `{OrdLaws A} `{EqDecision A} (x : A) l :
  is_ok (binary_search x (normalize l)) = bool_decide (x ∈ l).
Proof.
  apply eq_true_iff_eq. rewrite binary_search_elem by apply normalize_sorted.
  by rewrite normalize_elem, bool_decide_eq_true.
Qed.
Lemma existsb_ext {A} (p r : A -> bool) l : (forall x, p x = r x) -> existsb p l = existsb r l.
Proof. intros H. induction l as [|x l IH]; simpl; [done|]. by rewrite H, IH. Qed.
Lemma existsb_negb {A} (p : A -> bool) l : existsb (fun x => negb (p x)) l = negb (forallb p l).
Proof. induction l as [|x l IH]; simpl; [done|]. by rewrite IH, negb_andb. Qed.

Lemma context_searches rs ts cs attrs ctx : AuthorizationContext_new rs ts cs attrs = Ok ctx ->
  (forall r, is_ok (binary_search r (roles ctx)) = bool_decide (r ∈ rs))
  /\ (forall t, is_ok (binary_search t (tenant_memberships ctx)) = bool_decide (t ∈ ts))
  /\ (forall c, is_ok (binary_search c (administrative_capabilities ctx)) = bool_decide (c ∈ cs)).
Proof.
  unfold AuthorizationContext_new. cbn. destruct (_ || _); [done|]. intros [= <-]. simpl.
  split_and!; intros; apply search_normalize.
Qed.
Lemma assurance_lt a b : bool_decide (cmp a b = Lt) = (assurance_rank a <? assurance_rank b).
Proof. by destruct a, b. Qed.

Lemma evaluate_rule_gates rule subject kind tenant method at_ level granted p rs ts cs attrs ctx act resource :
  Principal_new subject kind tenant method at_ level granted = Ok p ->
  AuthorizationContext_new rs ts cs attrs = Ok ctx ->
  evaluate_rule rule {| req_principal := p; req_action := act; req_resource := resource; req_context := ctx |}
  = first_failure (gates subject tenant level granted rs ts cs attrs resource rule).
Proof.
  intros Hp Hctx. unfold Principal_new in Hp. cbn in Hp. destruct (_ <? _); [done|]. injection Hp as <-.
  pose proof (context_searches _ _ _ _ _ Hctx) as (Hr & Ht & Hc).
  unfold evaluate_rule, first_failure, gates. cbn [req_principal req_context req_resource scopes assurance
    principal_tenant_id subject_id List.find fst snd].
  assert (existsb (fun s => negb (is_ok (binary_search s (normalize granted)))) (required_scopes rule)
    = negb (bool_decide (required_scopes rule ⊆ granted))) as ->.
  { rewrite existsb_negb. f_equal. apply eq_true_iff_eq. rewrite bool_decide_eq_true, forallb_forall.
    split; intros H s Hs.
    - apply list_elem_of_In, H in Hs. by rewrite search_normalize, bool_decide_eq_true in Hs.
    - rewrite search_normalize. apply bool_decide_eq_true_2, H. by apply list_elem_of_In. }
  rewrite assurance_lt. destruct (negb (bool_decide (_ ⊆ _))); [done|]. destruct (assurance_rank level <? _); [done|].
  rewrite existsb_negb.
  assert (forallb (fun c => bool_decide (attribute ctx (cond_key c) = Some (cond_value c))) (conditions rule)
    = forallb (fun c => bool_decide (last_value attrs (cond_key c) = Some (cond_value c))) (conditions rule)) as ->.
  { apply eq_true_iff_eq. rewrite !forallb_forall. split; intros H c Hin; specialize (H c Hin);
      by rewrite (attribute_last _ _ _ _ _ _ Hctx) in *. }
  destruct (negb (forallb _ _)); [done|].
  assert (Hent : existsb (grant_holds {| req_principal := {| subject_id := subject; principal_kind := kind;
      principal_tenant_id := tenant; auth_method := method; authenticated_at := at_; assurance := level;
      scopes := normalize granted |}; req_action := act; req_resource := resource; req_context := ctx |}) (grants rule)
    = existsb (entitles subject rs cs resource) (grants rule)).
  { apply existsb_ext. intros []; simpl; [apply Hr | done | apply Hc]. }
  rewrite Hent. destruct (require_tenant_membership rule); cbn [andb].
  2: { destruct (existsb (entitles _ _ _ _) _); simpl; [done|]. by destruct (_ && _). }
  destruct (resource_tenant_id resource) as [t|]; simpl; [|done].
  rewrite Ht. destruct (bool_decide (tenant = Some t)); simpl; [|done].
  destruct (bool_decide (t ∈ ts)); simpl; [|done]. destruct (existsb (entitles _ _ _ _) _); simpl; [done|]. by destruct (_ && _).
Qed.

Lemma evaluate_matrix_reference rules m subject kind tenant method at_ level granted p rs ts cs attrs ctx act resource :
  PolicyMatrix_new rules = Ok m -> Principal_new subject kind tenant method at_ level granted = Ok p ->
  AuthorizationContext_new rs ts cs attrs = Ok ctx ->
  evaluate_matrix m {| req_principal := p; req_action := act; req_resource := resource; req_context := ctx |}
  = reference_decision subject tenant level granted rs ts cs attrs resource rules act.
Proof.
  intros Hm Hp Hctx. destruct (matrix_new_ok _ _ Hm) as [Hnd Hperm].
  unfold evaluate_matrix, reference_decision.
  cbn [req_action req_resource].
  assert (List.find (fun r => bool_decide (action r = act) && bool_decide (resource_kind r = res_kind resource)) m
    = List.find (fun r => bool_decide (rule_key r = (act, res_kind resource))) rules) as ->.
  { rewrite <- (find_perm (fun r => bool_decide (rule_key r = (act, res_kind resource))) rules m Hperm Hnd).
    - apply find_ext. intros r. unfold rule_key. apply eq_true_iff_eq.
      rewrite andb_true_iff, !bool_decide_eq_true. split; [by intros [-> ->] | by intros [= -> ->]].
    - intros x y Hx%bool_decide_eq_true Hy%bool_decide_eq_true. congruence. }
  destruct (List.find _ rules) as [rule|] eqn:E.
  - by eapply evaluate_rule_gates.
  - rewrite (existsb_perm _ _ _ Hperm). by destruct (existsb _ _).
Qed.

(** Authorization against a valid matrix, with a principal and a context made by
    their constructors, is the reference decision on the rows, scopes, roles,
    memberships, capabilities and attributes as they were given: the one row for the
    action and resource decides by its first failing gate, in the order scope,
    assurance, conditions, tenant, grants; without a row the request is denied. *)
Theorem authorize_reference rules m subject kind tenant method at_ level granted p rs ts cs attrs ctx act resource :
  PolicyMatrix_new rules = Ok m -> Principal_new subject kind tenant method at_ level granted = Ok p ->
  AuthorizationContext_new rs ts cs attrs = Ok ctx ->
  authorize m p act resource ctx
  = reference_decision subject tenant level granted rs ts cs attrs resource rules act.
Proof. intros. unfold authorize. cbn [evaluate BasicPolicy]. by eapply evaluate_matrix_reference. Qed.

(** ** What an allowed request has shown *)
Lemma first_failure_allow l : first_failure l = Allow <-> Forall (fun g => g.1 = false) l.
Proof.
  unfold first_failure. induction l as [|[[] r] l IH]; simpl.
  - split; [constructor | done].
  - split; [done|]. by inversion 1.
  - rewrite IH, Forall_cons. simpl. tauto.
Qed.

Lemma gates_clear subject tenant level granted rs ts cs attrs resource rule :
  first_failure (gates subject tenant level granted rs ts cs attrs resource rule) = Allow <->
  (forall s, s ∈ required_scopes rule -> s ∈ granted)
  /\ assurance_rank (minimum_assurance rule) <= assurance_rank level
  /\ (forall c, c ∈ conditions rule -> last_value attrs (cond_key c) = Some (cond_value c))
  /\ (require_tenant_membership rule = true ->
        exists t, resource_tenant_id resource = Some t /\ tenant = Some t /\ t ∈ ts)
  /\ exists g, g ∈ grants rule /\ entitles subject rs cs resource g = true.
Proof.
  rewrite first_failure_allow. unfold gates. rewrite !Forall_cons. cbn [fst].
  rewrite !negb_false_iff, bool_decide_eq_true, Z.ltb_ge, forallb_forall, existsb_exists.
  assert (Ht : (require_tenant_membership rule && bool_decide (resource_tenant_id resource = None) = false
     /\ require_tenant_membership rule && negb (bool_decide (tenant = resource_tenant_id resource)) = false
     /\ require_tenant_membership rule && negb (in_memberships ts (resource_tenant_id resource)) = false)
    <-> (require_tenant_membership rule = true ->
         exists t, resource_tenant_id resource = Some t /\ tenant = Some t /\ t ∈ ts)).
  { destruct (require_tenant_membership rule); simpl; [|naive_solver].
    rewrite !negb_false_iff, bool_decide_eq_false, bool_decide_eq_true.
    destruct (resource_tenant_id resource) as [t|]; simpl; [rewrite bool_decide_eq_true|]; naive_solver. }
  split.
  - intros (H1 & H2 & H3 & H4 & H5 & H6 & _ & (g & Hg & He) & _). split_and!; [exact H1 | exact H2 | | by apply Ht |].
    + intros c Hc%list_elem_of_In. by apply H3, bool_decide_eq_true in Hc.
    + exists g. split; [by apply list_elem_of_In | done].
  - intros (H1 & H2 & H3 & H4 & g & Hg & He). apply Ht in H4 as (H4 & H5 & H6).
    assert (existsb (entitles subject rs cs resource) (grants rule) = true) as ->.
    { apply existsb_exists. exists g. split; [by apply list_elem_of_In | done]. }
    split_and!; try done; [|exists g; split; [by apply list_elem_of_In | done]].
    intros c Hc%list_elem_of_In. apply bool_decide_eq_true_2. by apply H3.
Qed.
Lemma find_unique rules rule : NoDup (map rule_key rules) -> rule ∈ rules ->
  forall k, resource_kind rule = k -> List.find (fun r => bool_decide (rule_key r = (action rule, k))) rules = Some rule.
Proof.
  intros Hnd Hin k <-. induction rules as [|r rules IH]; [set_solver|]. simpl in *.
  apply NoDup_cons in Hnd as [Hr Hnd]. case_bool_decide as Hk.
  - apply elem_of_cons in Hin as [->|Hin]; [done|]. destruct Hr. rewrite Hk. change (rule_key rule ∈ map rule_key rules).
    by apply list_elem_of_fmap_2.
  - apply elem_of_cons in Hin as [->|Hin]; [by destruct Hk | by apply IH].
Qed.

(** C36. Nothing is allowed without a row that permits it: a request is allowed exactly
    when one of the given rows is for its action and resource kind, the principal was
    granted every scope the row requires and has its assurance, the last value given
    for each conditioned attribute is the required one, the tenant is the resource's
    and a membership where the row asks for that, and one of the row's grants holds. *)
Theorem allowed_iff rules m subject kind tenant method at_ level granted p rs ts cs attrs ctx act resource :
  PolicyMatrix_new rules = Ok m -> Principal_new subject kind tenant method at_ level granted = Ok p ->
  AuthorizationContext_new rs ts cs attrs = Ok ctx ->
  authorize m p act resource ctx = Allow <->
  exists rule, rule ∈ rules /\ action rule = act /\ resource_kind rule = res_kind resource
    /\ (forall s, s ∈ required_scopes rule -> s ∈ granted)
    /\ assurance_rank (minimum_assurance rule) <= assurance_rank level
    /\ (forall c, c ∈ conditions rule -> last_value attrs (cond_key c) = Some (cond_value c))
    /\ (require_tenant_membership rule = true ->
          exists t, resource_tenant_id resource = Some t /\ tenant = Some t /\ t ∈ ts)
    /\ exists g, g ∈ grants rule /\ entitles subject rs cs resource g = true.
Proof.
  intros Hm Hp Hctx. destruct (matrix_new_ok _ _ Hm) as [Hnd Hperm].
  unfold authorize. cbn [evaluate BasicPolicy].
  rewrite (evaluate_matrix_reference _ _ _ _ _ _ _ _ _ _ _ _ _ _ _ _ _ Hm Hp Hctx). unfold reference_decision. split.
  - destruct (List.find _ rules) as [rule|] eqn:E; [|done]. apply find_some in E as [Hin%list_elem_of_In Hk%bool_decide_eq_true].
    intros (H1 & H2 & H3 & H4 & H5)%gates_clear. injection Hk as <- Hk. exists rule. by split_and!.
  - intros (rule & Hin & <- & Hk & Hrest). rewrite (find_unique rules rule Hnd Hin _ Hk).
    by apply gates_clear.
Qed.

Definition demo_rules : list PolicyRule :=
  [ {| action := "note.write"; resource_kind := "note"; grants := [GrantRole "editor"; GrantOwner];
       required_scopes := ["notes"]; minimum_assurance := Aal2; require_tenant_membership := true;
       conditions := [{| cond_key := "region"; cond_value := "eu" |}] |} ].
Definition demo_note : Resource := in_tenant 3 (owned_by 7 (Resource_new "note")).
Definition demo_principal : Principal :=
  {| subject_id := 7; principal_kind := User; principal_tenant_id := Some 3; auth_method := Session;
     authenticated_at := 0; assurance := Aal2; scopes := ["admin"; "notes"] |}.
Definition demo_context : AuthorizationContext :=
  {| roles := []; tenant_memberships := [1; 3]; administrative_capabilities := []; attributes := [("region", "eu")] |}.
Lemma authorize_reference_witness :
  authorize demo_rules demo_principal "note.write" demo_note demo_context = Allow.
Proof.
  refine (eq_trans (authorize_reference demo_rules demo_rules 7 User (Some 3) Session 0 Aal2 ["notes"; "admin"; "notes"] demo_principal
    [] [3; 1; 3] [] [("region", "us"); ("region", "eu")] demo_context "note.write" demo_note
    eq_refl eq_refl eq_refl) _). reflexivity.
Defined.
Lemma allowed_iff_witness : exists rule, rule ∈ demo_rules /\ action rule = "note.write".
Proof.
  destruct (proj1 (allowed_iff demo_rules demo_rules 7 User (Some 3) Session 0 Aal2 ["notes"; "admin"; "notes"] demo_principal
    [] [3; 1; 3] [] [("region", "us"); ("region", "eu")] demo_context "note.write" demo_note
    eq_refl eq_refl eq_refl) eq_refl) as (rule & H1 & H2 & _). exists rule. split; assumption.
Defined.
