(* ===== verification/RealtimeRegistry.v ===== *)
(** * The realtime connection registry: [crates/realtime-core/src/registry.rs]

    One mutex guards connections, subscriptions and the tenant and topic index, so
    every method is one step on [RegistryState]; no critical section panics, and
    the mutex is never poisoned.  UUIDs are integers in their order, and the
    identifier that [ConnectionId::new] draws is an argument. *)
From S2P Require Import Prelude Machine AuthCore.

Definition MAX_CONNECTIONS : Z := 65536.
Definition MAX_SUBSCRIPTIONS : Z := 262144.
Definition MAX_SUBSCRIPTIONS_PER_CONNECTION : Z := 4096.

Inductive RegistryConfigError := ZeroCapacity | ExceedsHardLimit | PerConnectionExceedsTotal.
Record RegistryConfig := {
  max_connections : Z;
  max_subscriptions : Z;
  max_subscriptions_per_connection : Z;
}.

Definition RegistryConfig_new (conns subs per_conn : Z) : result RegistryConfigError RegistryConfig :=
  _ ← guard_err ((conns =? 0) || (subs =? 0) || (per_conn =? 0)) ZeroCapacity;
  _ ← guard_err ((MAX_CONNECTIONS <? conns) || (MAX_SUBSCRIPTIONS <? subs)
                 || (MAX_SUBSCRIPTIONS_PER_CONNECTION <? per_conn)) ExceedsHardLimit;
  _ ← guard_err (subs <? per_conn) PerConnectionExceedsTotal;
  Ok {| max_connections := conns; max_subscriptions := subs;
        max_subscriptions_per_connection := per_conn |}.

Inductive ConnectionState := Registered | Active | Closing | Closed.
Inductive SubscriptionState := SubActive | SubRevoked | SubRemoved.
#[global] Instance ConnectionState_eq : EqDecision ConnectionState.
Proof. solve_decision. Defined.
#[global] Instance SubscriptionState_eq : EqDecision SubscriptionState.
Proof. solve_decision. Defined.

Inductive RegistryError :=
| ConnectionCapacity | SubscriptionCapacity | PerConnectionSubscriptionCapacity
| ConnectionNotFound | SubscriptionNotFound | InvalidState | DuplicateSubscription
| SubscriptionConflict | TenantMismatch | Unavailable.

Record ConnectionRecord := {
  conn_id : Z;
  principal : Principal;
  conn_state : ConnectionState;
  conn_subscriptions : gset Z;
}.
Record ConnectionSnapshot := {
  csnap_id : Z;
  csnap_principal : Principal;
  csnap_state : ConnectionState;
  subscription_count : Z;
}.
Definition connection_snapshot (c : ConnectionRecord) : ConnectionSnapshot :=
  {| csnap_id := conn_id c; csnap_principal := principal c; csnap_state := conn_state c;
     subscription_count := Z.of_nat (size (conn_subscriptions c)) |}.

(** A [SubscriptionSnapshot] is a copy of every field of the record. *)
Record SubscriptionRecord := {
  sub_id : Z;
  sub_connection_id : Z;
  sub_subject_id : Z;
  sub_tenant_id : Z;
  sub_topic : string;
  sub_cursor : option string;
  generation : Z;
  sub_state : SubscriptionState;
}.
Abbreviation SubscriptionSnapshot := SubscriptionRecord.
Definition subscription_snapshot (s : SubscriptionRecord) : SubscriptionSnapshot := s.

Abbreviation TopicIndex := (gmap Z (gmap string (gset Z))).
Record RegistryState := {
  connections : gmap Z ConnectionRecord;
  subscriptions : gmap Z SubscriptionRecord;
  tenant_topics : TopicIndex;
  next_subscription_generation : Z;
}.
Definition RegistryState_default : RegistryState :=
  {| connections := ∅; subscriptions := ∅; tenant_topics := ∅; next_subscription_generation := 0 |}.

Definition set_conn_state (st : ConnectionState) (c : ConnectionRecord) : ConnectionRecord :=
  {| conn_id := conn_id c; principal := principal c; conn_state := st;
     conn_subscriptions := conn_subscriptions c |}.
Definition set_conn_subscriptions (s : gset Z) (c : ConnectionRecord) : ConnectionRecord :=
  {| conn_id := conn_id c; principal := principal c; conn_state := conn_state c;
     conn_subscriptions := s |}.
Definition set_sub_state (st : SubscriptionState) (s : SubscriptionRecord) : SubscriptionRecord :=
  {| sub_id := sub_id s; sub_connection_id := sub_connection_id s; sub_subject_id := sub_subject_id s;
     sub_tenant_id := sub_tenant_id s; sub_topic := sub_topic s; sub_cursor := sub_cursor s;
     generation := generation s; sub_state := st |}.
Definition with_connections (m : gmap Z ConnectionRecord) (r : RegistryState) : RegistryState :=
  {| connections := m; subscriptions := subscriptions r; tenant_topics := tenant_topics r;
     next_subscription_generation := next_subscription_generation r |}.
Definition with_subscriptions (m : gmap Z SubscriptionRecord) (r : RegistryState) : RegistryState :=
  {| connections := connections r; subscriptions := m; tenant_topics := tenant_topics r;
     next_subscription_generation := next_subscription_generation r |}.
Definition with_topics (m : TopicIndex) (r : RegistryState) : RegistryState :=
  {| connections := connections r; subscriptions := subscriptions r; tenant_topics := m;
     next_subscription_generation := next_subscription_generation r |}.
Definition with_next_generation (g : Z) (r : RegistryState) : RegistryState :=
  {| connections := connections r; subscriptions := subscriptions r; tenant_topics := tenant_topics r;
     next_subscription_generation := g |}.

(** ** The index *)
Definition remove_topic_index (m : TopicIndex) (tenant : Z) (topic : string) (id : Z) : TopicIndex :=
  match m !! tenant with
  | Some topics =>
      let '(topics1, remove_topic) :=
        match topics !! topic with
        | Some subs =>
            let subs' := subs ∖ {[id]} in (<[topic := subs']> topics, bool_decide (subs' = ∅))
        | None => (topics, false)
        end in
      let topics2 := if remove_topic then delete topic topics1 else topics1 in
      if bool_decide (topics2 = ∅) then delete tenant m else <[tenant := topics2]> m
  | None => m
  end.
(** [entry(tenant).or_default().entry(topic).or_default().insert(id)] *)
Definition insert_topic_index (m : TopicIndex) (tenant : Z) (topic : string) (id : Z) : TopicIndex :=
  let topics := default ∅ (m !! tenant) in
  <[tenant := <[topic := {[id]} ∪ default ∅ (topics !! topic)]> topics]> m.

(** ** Operations *)
Section operations.
Context (config : RegistryConfig).
Definition Op (A : Type) : Type := ST RegistryState RegistryError A.

Definition register (id : Z) (p : Principal) : Op ConnectionSnapshot :=
  r ← st_get;
  if max_connections config <=? Z.of_nat (size (connections r)) then st_throw ConnectionCapacity
  else if bool_decide (is_Some (connections r !! id)) then st_throw Unavailable
  else
    let record := {| conn_id := id; principal := p; conn_state := Registered;
                     conn_subscriptions := ∅ |} in
    _ ← st_put (with_connections (<[id := record]> (connections r)) r);
    mret (connection_snapshot record).

Definition set_state (id : Z) (st : ConnectionState) (c : ConnectionRecord) : Op ConnectionSnapshot :=
  let c' := set_conn_state st c in
  _ ← st_modify (fun r => with_connections (<[id := c']> (connections r)) r);
  mret (connection_snapshot c').

Definition activate (id : Z) : Op ConnectionSnapshot :=
  r ← st_get;
  match connections r !! id with
  | None => st_throw ConnectionNotFound
  | Some c =>
      match conn_state c with
      | Registered => set_state id Active c
      | Active => mret (connection_snapshot c)
      | Closing | Closed => st_throw InvalidState
      end
  end.

Definition begin_close (id : Z) : Op ConnectionSnapshot :=
  r ← st_get;
  match connections r !! id with
  | None => st_throw ConnectionNotFound
  | Some c =>
      match conn_state c with
      | Registered | Active => set_state id Closing c
      | Closing => mret (connection_snapshot c)
      | Closed => st_throw InvalidState
      end
  end.

(** One iteration of the loop of [close]. *)
Definition drop_subscription (id : Z) (r : RegistryState) : RegistryState :=
  match subscriptions r !! id with
  | Some s =>
      with_topics (remove_topic_index (tenant_topics r) (sub_tenant_id s) (sub_topic s) (sub_id s))
        (with_subscriptions (delete id (subscriptions r)) r)
  | None => r
  end.
Definition close (id : Z) : Op ConnectionState :=
  r ← st_get;
  match connections r !! id with
  | None => mret Closed
  | Some c =>
      _ ← st_put (foldr drop_subscription (with_connections (delete id (connections r)) r)
                    (elements (conn_subscriptions c)));
      mret Closed
  end.

Definition connection (r : RegistryState) (id : Z) : option ConnectionSnapshot :=
  connection_snapshot <$> connections r !! id.

Definition add_subscription (connection_id id tenant : Z) (topic : string) (cursor : option string)
    : Op SubscriptionSnapshot :=
  r ← st_get;
  match subscriptions r !! id with
  | Some existing =>
      if bool_decide (sub_connection_id existing = connection_id)
         && bool_decide (sub_tenant_id existing = tenant)
         && bool_decide (sub_topic existing = topic)
         && bool_decide (sub_cursor existing = cursor)
      then st_throw DuplicateSubscription else st_throw SubscriptionConflict
  | None =>
      if max_subscriptions config <=? Z.of_nat (size (subscriptions r)) then st_throw SubscriptionCapacity
      else match connections r !! connection_id with
      | None => st_throw ConnectionNotFound
      | Some c =>
          if bool_decide (conn_state c <> Active) then st_throw InvalidState
          else if bool_decide (principal_tenant_id (principal c) <> Some tenant) then st_throw TenantMismatch
          else if max_subscriptions_per_connection config <=? Z.of_nat (size (conn_subscriptions c))
          then st_throw PerConnectionSubscriptionCapacity
          else match checked_add u64_max (next_subscription_generation r) 1 with
          | None => st_throw Unavailable
          | Some g =>
              let record :=
                {| sub_id := id; sub_connection_id := connection_id;
                   sub_subject_id := subject_id (principal c); sub_tenant_id := tenant;
                   sub_topic := topic; sub_cursor := cursor; generation := g; sub_state := SubActive |} in
              _ ← st_put
                {| connections := <[connection_id :=
                     set_conn_subscriptions ({[id]} ∪ conn_subscriptions c) c]> (connections r);
                   subscriptions := <[id := record]> (subscriptions r);
                   tenant_topics := insert_topic_index (tenant_topics r) tenant topic id;
                   next_subscription_generation := g |};
              mret (subscription_snapshot record)
          end
      end
  end.

Definition subscription_for_connection (r : RegistryState) (connection_id id : Z)
    : option SubscriptionSnapshot :=
  s ← subscriptions r !! id;
  if bool_decide (sub_connection_id s = connection_id) then Some (subscription_snapshot s) else None.
Definition subscription (r : RegistryState) (id : Z) : option SubscriptionSnapshot :=
  subscription_snapshot <$> subscriptions r !! id.

Definition is_subscription_current_active (r : RegistryState) (id g : Z) : bool :=
  match subscriptions r !! id with
  | None => false
  | Some s =>
      if bool_decide (generation s <> g) || bool_decide (sub_state s <> SubActive) then false
      else match connections r !! sub_connection_id s with
           | Some c => bool_decide (conn_state c = Active)
           | None => false
           end
  end.
Definition is_subscription_current_generation (r : RegistryState) (id g : Z) : bool :=
  match subscriptions r !! id with
  | Some s => bool_decide (generation s = g)
  | None => false
  end.

Definition remove_subscription_locked (connection_id id : Z) : Op SubscriptionSnapshot :=
  r ← st_get;
  match subscriptions r !! id with
  | None => st_throw SubscriptionNotFound
  | Some s =>
      if bool_decide (sub_connection_id s <> connection_id) then st_throw SubscriptionNotFound
      else
        let conns := match connections r !! connection_id with
                     | Some c => <[connection_id :=
                         set_conn_subscriptions (conn_subscriptions c ∖ {[id]}) c]> (connections r)
                     | None => connections r
                     end in
        _ ← st_put
          {| connections := conns; subscriptions := delete id (subscriptions r);
             tenant_topics := remove_topic_index (tenant_topics r) (sub_tenant_id s) (sub_topic s) (sub_id s);
             next_subscription_generation := next_subscription_generation r |};
        mret (subscription_snapshot (set_sub_state SubRemoved s))
  end.
Definition remove_subscription (connection_id id : Z) : Op SubscriptionSnapshot :=
  remove_subscription_locked connection_id id.
Definition remove_subscription_if_current (connection_id : Z) (expected : SubscriptionSnapshot)
    : Op SubscriptionSnapshot :=
  r ← st_get;
  match subscriptions r !! sub_id expected with
  | None => st_throw SubscriptionNotFound
  | Some current =>
      if bool_decide (sub_connection_id current <> connection_id)
         || bool_decide (sub_connection_id expected <> connection_id)
      then st_throw SubscriptionNotFound
      else if bool_decide (generation current <> generation expected) then st_throw SubscriptionConflict
      else remove_subscription_locked connection_id (sub_id expected)
  end.

Inductive RevocationReason := AuthorizationChanged | MembershipChanged | IdentityRevoked | ResourceRemoved.
(** The control message of a revocation, without the identifier drawn for it. *)
Record ControlIntent := {
  intent_connection_id : Z;
  intent_subscription_id : Z;
  intent_generation : Z;
  intent_reason : RevocationReason;
}.

Definition revoke_subscription_locked (id : Z) (expected_generation : option Z) (reason : RevocationReason)
    : Op ControlIntent :=
  r ← st_get;
  match subscriptions r !! id with
  | None => st_throw SubscriptionNotFound
  | Some s =>
      if match expected_generation with Some g => bool_decide (g <> generation s) | None => false end
      then st_throw SubscriptionConflict
      else if bool_decide (sub_state s <> SubActive) then st_throw InvalidState
      else
        _ ← st_put
          (with_topics (remove_topic_index (tenant_topics r) (sub_tenant_id s) (sub_topic s) id)
             (with_subscriptions (<[id := set_sub_state SubRevoked s]> (subscriptions r)) r));
        mret {| intent_connection_id := sub_connection_id s; intent_subscription_id := id;
                intent_generation := generation s; intent_reason := reason |}
  end.
Definition revoke_subscription (id : Z) (reason : RevocationReason) : Op ControlIntent :=
  revoke_subscription_locked id None reason.
Definition revoke_subscription_if_current (expected : SubscriptionSnapshot) (reason : RevocationReason)
    : Op ControlIntent :=
  revoke_subscription_locked (sub_id expected) (Some (generation expected)) reason.

Definition connection_count (r : RegistryState) : Z := Z.of_nat (size (connections r)).
Definition total_subscription_count (r : RegistryState) : Z := Z.of_nat (size (subscriptions r)).
End operations.

(** ** Traversal of a topic *)
Record TopicSubscriptionCursor := {
  cur_tenant_id : Z;
  cur_topic : string;
  after : option Z;
  exhausted : bool;
}.
Definition subscriptions_for_topic (tenant : Z) (topic : string) : TopicSubscriptionCursor :=
  {| cur_tenant_id := tenant; cur_topic := topic; after := None; exhausted := false |}.

(** The smallest element above [after], and the smallest element for [None]. *)
Definition beyond (after : option Z) (i : Z) : bool :=
  match after with Some a => a <? i | None => true end.
Definition least (l : list Z) : option Z :=
  foldr (fun i acc => Some (match acc with Some j => Z.min i j | None => i end)) None l.
Definition next_id (after : option Z) (ids : gset Z) : option Z :=
  least (filter (fun i => beyond after i = true) (elements ids)).

Definition set_exhausted (c : TopicSubscriptionCursor) : TopicSubscriptionCursor :=
  {| cur_tenant_id := cur_tenant_id c; cur_topic := cur_topic c; after := after c; exhausted := true |}.
Definition set_after (i : Z) (c : TopicSubscriptionCursor) : TopicSubscriptionCursor :=
  {| cur_tenant_id := cur_tenant_id c; cur_topic := cur_topic c; after := Some i; exhausted := exhausted c |}.

(** The loop under the lock; [None] when it has not ended after [fuel] rounds. *)
Fixpoint next_loop (fuel : nat) (r : RegistryState) (c : TopicSubscriptionCursor)
    : option (option SubscriptionSnapshot * TopicSubscriptionCursor) :=
  match fuel with
  | O => None
  | S fuel' =>
      match tenant_topics r !! cur_tenant_id c ≫= (fun topics => topics !! cur_topic c) with
      | None => Some (None, set_exhausted c)
      | Some ids =>
          match next_id (after c) ids with
          | None => Some (None, set_exhausted c)
          | Some i =>
              let c' := set_after i c in
              match subscriptions r !! i with
              | Some s => if bool_decide (sub_state s = SubActive) then Some (Some (subscription_snapshot s), c')
                          else next_loop fuel' r c'
              | None => next_loop fuel' r c'
              end
          end
      end
  end.
Definition next_subscription (fuel : nat) (r : RegistryState) (c : TopicSubscriptionCursor)
    : option (option SubscriptionSnapshot * TopicSubscriptionCursor) :=
  if exhausted c then Some (None, c) else next_loop fuel r c.
