(* ===== verification/RealtimeRegistryTheorems.v ===== *)
(** * What the realtime registry guarantees *)
From S2P Require Import Prelude Machine AuthCore RealtimeRegistry.

(** ** The registry's representation invariant, and that every operation keeps it *)

(** ** The topic index as a set per tenant and topic *)
Definition members (m : TopicIndex) (tenant : Z) (topic : string) : gset Z :=
  default ∅ (m !! tenant ≫= fun topics => topics !! topic).
(** Neither empty sets nor empty tenants are kept. *)
Definition index_tight (m : TopicIndex) : Prop :=
  forall tenant topics, m !! tenant = Some topics ->
    topics <> ∅ /\ forall topic ids, topics !! topic = Some ids -> ids <> ∅.

Lemma members_remove m t k i t' k' :
  members (remove_topic_index m t k i) t' k'
  = if decide (t' = t /\ k' = k) then members m t k ∖ {[i]} else members m t' k'.
Proof.
  unfold members, remove_topic_index. destruct (m !! t) as [topics|] eqn:Et.
  2: { case_decide as Hd; [|done]. destruct Hd as [-> ->]. rewrite Et. simpl. set_solver. }
  destruct (topics !! k) as [ids|] eqn:Ek.
  - set (topics2 := if bool_decide (ids ∖ {[i]} = ∅) then delete k (<[k:=ids ∖ {[i]}]> topics)
                    else <[k:=ids ∖ {[i]}]> topics).
    assert (H2 : forall k', default ∅ (topics2 !! k') =
      if decide (k' = k) then ids ∖ {[i]} else default ∅ (topics !! k')).
    { intros k2. subst topics2. case_bool_decide as Hb; case_decide as Hk; subst.
      - by rewrite lookup_delete_eq, Hb.
      - by rewrite lookup_delete_ne, lookup_insert_ne by done.
      - by rewrite lookup_insert_eq.
      - by rewrite lookup_insert_ne by done. }
    case_bool_decide as Hb.
    + destruct (decide (t' = t)) as [->|Hne].
      * rewrite lookup_delete_eq, Et. simpl. specialize (H2 k'). rewrite Hb, lookup_empty in H2. simpl in H2.
        case_decide as Hd; case_decide; try tauto; subst; rewrite ?Ek; done.
      * rewrite lookup_delete_ne by done. rewrite decide_False by tauto. done.
    + destruct (decide (t' = t)) as [->|Hne].
      * rewrite lookup_insert_eq, Et. simpl. rewrite H2.
        case_decide; case_decide; try tauto; subst; by rewrite ?Ek.
      * rewrite lookup_insert_ne by done. rewrite decide_False by tauto. done.
  - case_bool_decide as Hb.
    + subst topics. destruct (decide (t' = t)) as [->|Hne].
      * rewrite lookup_delete_eq, Et. simpl. case_decide; rewrite lookup_empty; set_solver.
      * rewrite lookup_delete_ne, decide_False by (done || tauto). done.
    + rewrite insert_id by done. case_decide as Hd; [|done]. destruct Hd as [-> ->].
      rewrite Et. simpl. rewrite Ek. set_solver.
Qed.

Lemma members_insert m t k i t' k' :
  members (insert_topic_index m t k i) t' k'
  = if decide (t' = t /\ k' = k) then {[i]} ∪ members m t k else members m t' k'.
Proof.
  unfold members, insert_topic_index. destruct (decide (t' = t)) as [->|Hne].
  - rewrite lookup_insert_eq. simpl. destruct (decide (k' = k)) as [->|Hk].
    + rewrite lookup_insert_eq, decide_True by done. simpl. by destruct (m !! t).
    + rewrite lookup_insert_ne, decide_False by (done || tauto). by destruct (m !! t).
  - rewrite lookup_insert_ne, decide_False by (done || tauto). done.
Qed.

Lemma index_tight_remove m t k i : index_tight m -> index_tight (remove_topic_index m t k i).
Proof.
  intros Hm. unfold remove_topic_index. destruct (m !! t) as [topics|] eqn:Et; [|done].
  destruct (Hm _ _ Et) as [_ Hids].
  assert (Hgen : forall topics2 : gmap string (gset Z), (topics2 <> ∅ -> forall k2 ids, topics2 !! k2 = Some ids -> ids <> ∅) ->
    index_tight (if bool_decide (topics2 = ∅) then delete t m else <[t:=topics2]> m)).
  { intros topics2 H2 t2 topics3. case_bool_decide as Hb.
    - intros [_ H3]%lookup_delete_Some. eauto.
    - intros [[<- <-]|[_ H3]]%lookup_insert_Some; eauto. }
  destruct (topics !! k) as [ids|] eqn:Ek; apply Hgen; [|by eauto].
  intros _ k2 ids2. case_bool_decide as Hb.
  - intros [Hne H2]%lookup_delete_Some. rewrite lookup_insert_ne in H2 by done. eauto.
  - intros [[<- <-]|[_ H2]]%lookup_insert_Some; eauto.
Qed.
Lemma index_tight_insert m t k i : index_tight m -> index_tight (insert_topic_index m t k i).
Proof.
  intros Hm t2 topics2. unfold insert_topic_index.
  intros [[<- <-]|[_ H2]]%lookup_insert_Some; [|by eauto]. split.
  - apply insert_non_empty.
  - intros k2 ids [[<- <-]|[_ H2]]%lookup_insert_Some; [set_solver|].
    destruct (m !! t) as [topics|] eqn:Et; simpl in H2; [|by rewrite lookup_empty in H2].
    by apply (Hm _ _ Et) in H2.
Qed.

(** ** The invariant

    Connections and subscriptions point at each other, the index holds exactly the
    active subscriptions under their own tenant and topic, a subscription belongs to
    the tenant its connection was authenticated for, generations are unique and
    never reused, and every capacity holds. *)
Record registry_wf (cfg : RegistryConfig) (r : RegistryState) : Prop := {
  wf_conn_key c conn : connections r !! c = Some conn -> conn_id conn = c /\ conn_state conn <> Closed;
  wf_sub_key i s : subscriptions r !! i = Some s -> sub_id s = i /\ sub_state s <> SubRemoved;
  wf_owner i s : subscriptions r !! i = Some s ->
    exists conn, connections r !! sub_connection_id s = Some conn /\ i ∈ conn_subscriptions conn
      /\ principal_tenant_id (principal conn) = Some (sub_tenant_id s)
      /\ subject_id (principal conn) = sub_subject_id s;
  wf_owned c conn i : connections r !! c = Some conn -> i ∈ conn_subscriptions conn ->
    exists s, subscriptions r !! i = Some s /\ sub_connection_id s = c;
  wf_index t k i : i ∈ members (tenant_topics r) t k <->
    exists s, subscriptions r !! i = Some s /\ sub_tenant_id s = t /\ sub_topic s = k
      /\ sub_state s = SubActive;
  wf_tight : index_tight (tenant_topics r);
  wf_generation i s : subscriptions r !! i = Some s ->
    1 <= generation s <= next_subscription_generation r;
  wf_generation_inj i j s s' : subscriptions r !! i = Some s -> subscriptions r !! j = Some s' ->
    generation s = generation s' -> i = j;
  wf_next : 0 <= next_subscription_generation r <= u64_max;
  wf_conn_cap : Z.of_nat (size (connections r)) <= max_connections cfg;
  wf_sub_cap : Z.of_nat (size (subscriptions r)) <= max_subscriptions cfg;
  wf_per_conn c conn : connections r !! c = Some conn ->
    Z.of_nat (size (conn_subscriptions conn)) <= max_subscriptions_per_connection cfg;
}.

(** ** Dropping the subscriptions of a connection *)
Definition names_entry (r : RegistryState) (i : Z) (t : Z) (k : string) (j : Z) : Prop :=
  exists s, subscriptions r !! j = Some s /\ sub_id s = i /\ sub_tenant_id s = t /\ sub_topic s = k.

Lemma drop_one r j :
  let r' := drop_subscription j r in
  connections r' = connections r
  /\ next_subscription_generation r' = next_subscription_generation r
  /\ (forall i, subscriptions r' !! i = if decide (i = j) then None else subscriptions r !! i)
  /\ (index_tight (tenant_topics r) -> index_tight (tenant_topics r'))
  /\ (forall t k i, i ∈ members (tenant_topics r') t k <->
       i ∈ members (tenant_topics r) t k /\ ~ names_entry r i t k j).
Proof.
  cbn zeta. unfold drop_subscription, names_entry.
  destruct (subscriptions r !! j) as [s|] eqn:Es; simpl; split_and!; try done.
  - intros i. case_decide as Hd; [subst; by rewrite lookup_delete_eq | by rewrite lookup_delete_ne].
  - apply index_tight_remove.
  - intros t k i. rewrite members_remove. case_decide as Hd.
    + destruct Hd as [-> ->]. rewrite elem_of_difference, elem_of_singleton. naive_solver.
    + naive_solver.
  - intros i. case_decide; congruence.
  - intros t k i. naive_solver.
Qed.

Lemma drop_subscriptions r l :
  let r' := foldr drop_subscription r l in
  connections r' = connections r
  /\ next_subscription_generation r' = next_subscription_generation r
  /\ (forall i, subscriptions r' !! i = if decide (i ∈ l) then None else subscriptions r !! i)
  /\ (index_tight (tenant_topics r) -> index_tight (tenant_topics r'))
  /\ (forall t k i, i ∈ members (tenant_topics r') t k <->
       i ∈ members (tenant_topics r) t k /\ ~ exists j, j ∈ l /\ names_entry r i t k j).
Proof.
  cbn zeta. induction l as [|j l (IHc & IHn & IHs & IHt & IHm)]; cbn [foldr].
  { split_and!; try done. intros. set_solver. }
  destruct (drop_one (foldr drop_subscription r l) j) as (Hc & Hn & Hs & Ht & Hm).
  split_and!; [congruence | congruence | | tauto |].
  - intros i. rewrite Hs, IHs. repeat case_decide; set_solver.
  - intros t k i. rewrite Hm, IHm. setoid_rewrite elem_of_cons.
    unfold names_entry at 2. rewrite IHs. unfold names_entry. case_decide; naive_solver.
Qed.

Lemma size_restricted {A} (m m' : gmap Z A) : (forall i x, m' !! i = Some x -> m !! i = Some x) ->
  (size m' <= size m)%nat.
Proof. intros H. apply map_subseteq_size. apply map_subseteq_spec. exact H. Qed.

Section preservation.
Context (cfg : RegistryConfig).
Hypothesis Hcfg : 0 < max_connections cfg /\ 0 < max_subscriptions cfg
  /\ 0 < max_subscriptions_per_connection cfg.

Lemma registry_default_wf : registry_wf cfg RegistryState_default.
Proof.
  split; simpl; try (intros *; rewrite ?lookup_empty; done).
  - intros t k i. unfold members. rewrite lookup_empty. simpl. split; [set_solver|].
    intros (s & Hs & _). by rewrite lookup_empty in Hs.
  - rewrite map_size_empty. lia.
  - rewrite map_size_empty. lia.
Qed.

(** Replacing a connection's record by one with the same principal and
    subscriptions. *)
Lemma set_state_wf r c conn st : registry_wf cfg r -> connections r !! c = Some conn -> st <> Closed ->
  registry_wf cfg (with_connections (<[c := set_conn_state st conn]> (connections r)) r).
Proof.
  intros [] Hc Hst. destruct (wf_conn_key0 _ _ Hc) as [Hid _]. split; simpl; try done.
  - intros c2 conn2 [[<- <-]|[_ H2]]%lookup_insert_Some; [done | eauto].
  - intros i s Hs. destruct (wf_owner0 _ _ Hs) as (conn2 & H2 & Hrest).
    destruct (decide (sub_connection_id s = c)) as [He|Hne].
    + exists (set_conn_state st conn). rewrite He, lookup_insert_eq. split; [done|].
      rewrite He, Hc in H2. by injection H2 as ->.
    + exists conn2. by rewrite lookup_insert_ne.
  - intros c2 conn2 i [[<- <-]|[_ H2]]%lookup_insert_Some; simpl; eauto.
  - rewrite map_size_insert_Some by eauto. done.
  - intros c2 conn2 [[<- <-]|[_ H2]]%lookup_insert_Some; simpl; eauto.
Qed.

Lemma register_wf id p r : registry_wf cfg r -> registry_wf cfg (register cfg id p r).2.
Proof.
  intros Hwf. unfold register. simpl. unfold mbind, st_bind, st_get.
  destruct (Z.leb_spec (max_connections cfg) (Z.of_nat (size (connections r)))); [done|].
  case_bool_decide as Hs; [done|]. apply eq_None_not_Some in Hs. simpl.
  destruct Hwf. split; simpl; try done.
  - intros c2 conn2 [[<- <-]|[_ H2]]%lookup_insert_Some; [done | eauto].
  - intros i s H2. destruct (wf_owner0 _ _ H2) as (conn2 & H3 & Hrest). exists conn2.
    rewrite lookup_insert_ne by congruence. done.
  - intros c2 conn2 i [[<- <-]|[_ H2]]%lookup_insert_Some; simpl; [set_solver | eauto].
  - rewrite map_size_insert_None by done. lia.
  - intros c2 conn2 [[<- <-]|[_ H2]]%lookup_insert_Some; [|eauto].
    cbn [conn_subscriptions]. rewrite size_empty. lia.
Qed.

Lemma activate_wf c r : registry_wf cfg r -> registry_wf cfg (activate c r).2.
Proof.
  intros Hwf. unfold activate, set_state. unfold mbind, st_bind, st_get.
  destruct (connections r !! c) as [conn|] eqn:Hc; [|done].
  destruct (conn_state conn); try done. by apply set_state_wf.
Qed.
Lemma begin_close_wf c r : registry_wf cfg r -> registry_wf cfg (begin_close c r).2.
Proof.
  intros Hwf. unfold begin_close, set_state. unfold mbind, st_bind, st_get.
  destruct (connections r !! c) as [conn|] eqn:Hc; [|done].
  destruct (conn_state conn); try done; by apply set_state_wf.
Qed.

Lemma close_wf c r : registry_wf cfg r -> registry_wf cfg (close c r).2.
Proof.
  intros Hwf. unfold close. unfold mbind, st_bind, st_get.
  destruct (connections r !! c) as [conn|] eqn:Hc; [|done]. cbn [snd st_put mret st_ret].
  set (r0 := with_connections (delete c (connections r)) r).
  destruct (drop_subscriptions r0 (elements (conn_subscriptions conn))) as (Ec & En & Es & Et & Em).
  set (r' := foldr drop_subscription r0 (elements (conn_subscriptions conn))) in *.
  destruct Hwf.
  assert (Hs' : forall i s, subscriptions r' !! i = Some s ->
    subscriptions r !! i = Some s /\ sub_connection_id s <> c).
  { intros i s. rewrite Es. case_decide as Hd; [done|]. intros H. split; [done|]. intros He. apply Hd.
    apply elem_of_elements. destruct (wf_owner0 _ _ H) as (conn2 & H2 & Hin & _).
    rewrite He in H2. simplify_eq. done. }
  split; rewrite ?Ec, ?En; try done; cbn [connections with_connections r0].
  - intros c2 conn2 [_ H]%lookup_delete_Some. eauto.
  - intros i s [H _]%Hs'. eauto.
  - intros i s [H Hne]%Hs'. destruct (wf_owner0 _ _ H) as (conn2 & H2 & Hrest). exists conn2.
    rewrite lookup_delete_ne by done. done.
  - intros c2 conn2 i [Hne H]%lookup_delete_Some Hin.
    destruct (wf_owned0 _ _ _ H Hin) as (s & Hs & Hsc). exists s. split; [|done].
    rewrite Es. rewrite decide_False; [done|]. intros Hel%elem_of_elements.
    destruct (wf_owned0 _ _ _ Hc Hel) as (s2 & Hs2 & ?). congruence.
  - intros t k i. rewrite Em. change (tenant_topics r0) with (tenant_topics r).
    rewrite wf_index0. split.
    + intros ((s & Hs & <- & <- & Ha) & Hn). exists s. split; [|done]. rewrite Es.
      rewrite decide_False; [done|]. intros Hel. apply Hn. exists i. split; [done|].
      exists s. split_and!; try done. by apply wf_sub_key0.
    + intros (s & Hs & <- & <- & Ha). pose proof Hs as [H Hne]%Hs'. split; [by exists s|].
      intros (j & Hj & s2 & Hs2 & Hid & _). apply wf_sub_key0 in Hs2 as Hk. destruct Hk as [Hk _].
      assert (i = j) as -> by congruence. rewrite Es, decide_True in Hs by done. done.
  - by apply Et.
  - intros i s [H _]%Hs'. eauto.
  - intros i j s s' [H _]%Hs' [H' _]%Hs'. eauto.
  - etransitivity; [|exact wf_conn_cap0].
    pose proof (size_restricted (connections r) (delete c (connections r))) as Hsz.
    change (connections r0) with (delete c (connections r)).
    enough (size (delete c (connections r)) <= size (connections r))%nat by lia.
    apply Hsz. intros i x [_ H]%lookup_delete_Some. done.
  - etransitivity; [|exact wf_sub_cap0].
    pose proof (size_restricted (subscriptions r) (subscriptions r')) as Hsz.
    enough (size (subscriptions r') <= size (subscriptions r))%nat by lia.
    apply Hsz. intros i x [H _]%Hs'. done.
  - intros c2 conn2 [_ H]%lookup_delete_Some. eauto.
Qed.

Lemma add_subscription_wf c i t k cur r :
  registry_wf cfg r -> registry_wf cfg (add_subscription cfg c i t k cur r).2.
Proof.
  intros Hwf. unfold add_subscription. unfold mbind, st_bind, st_get.
  destruct (subscriptions r !! i) as [s0|] eqn:Hi; [by destruct (_ && _)|].
  destruct (Z.leb_spec (max_subscriptions cfg) (Z.of_nat (size (subscriptions r)))); [done|].
  destruct (connections r !! c) as [conn|] eqn:Hc; [|done].
  case_bool_decide as Hst; [done|]. case_bool_decide as Hten; [done|].
  destruct (Z.leb_spec (max_subscriptions_per_connection cfg) (Z.of_nat (size (conn_subscriptions conn))));
    [done|].
  destruct (checked_add u64_max (next_subscription_generation r) 1) as [g|] eqn:Hg; [|done].
  apply checked_add_Some in Hg as [-> Hg]. cbn [snd st_put mret st_ret]. destruct Hwf.
  assert (Hten' : principal_tenant_id (principal conn) = Some t)
    by (destruct (decide (principal_tenant_id (principal conn) = Some t)); tauto).
  assert (Hfresh : forall c2 conn2, connections r !! c2 = Some conn2 -> i ∉ conn_subscriptions conn2).
  { intros c2 conn2 H2 Hin. destruct (wf_owned0 _ _ _ H2 Hin) as (s & Hs & _). congruence. }
  split; cbn [connections subscriptions tenant_topics next_subscription_generation].
  - intros c2 conn2 [[<- <-]|[_ H2]]%lookup_insert_Some; [|eauto]. simpl. eauto.
  - intros j s [[<- <-]|[_ H2]]%lookup_insert_Some; [done | eauto].
  - intros j s [[<- <-]|[Hne H2]]%lookup_insert_Some.
    + eexists. cbn [sub_connection_id]. rewrite lookup_insert_eq. split; [done|]. simpl. split_and!; try done. set_solver.
    + destruct (wf_owner0 _ _ H2) as (conn2 & H3 & Hin & Hrest).
      destruct (decide (sub_connection_id s = c)) as [He|Hne2].
      * exists (set_conn_subscriptions ({[i]} ∪ conn_subscriptions conn) conn).
        rewrite He, lookup_insert_eq. rewrite He in H3. simplify_eq. split_and!; simpl; try done; [set_solver | tauto..].
      * exists conn2. rewrite lookup_insert_ne by done. done.
  - intros c2 conn2 j [[<- <-]|[Hne H2]]%lookup_insert_Some; cbn [conn_subscriptions set_conn_subscriptions].
    + intros [->%elem_of_singleton|Hin]%elem_of_union.
      * eexists. rewrite lookup_insert_eq. done.
      * destruct (wf_owned0 _ _ _ Hc Hin) as (s & Hs & ?). exists s.
        rewrite lookup_insert_ne by congruence. done.
    + intros Hin. destruct (wf_owned0 _ _ _ H2 Hin) as (s & Hs & ?). exists s.
      rewrite lookup_insert_ne by congruence. done.
  - intros t2 k2 j. rewrite members_insert. destruct (decide (j = i)) as [->|Hne].
    + rewrite lookup_insert_eq. case_decide as Hd.
      * destruct Hd as [-> ->]. split; [intros _; eexists; done | set_solver].
      * rewrite wf_index0, Hi. naive_solver.
    + rewrite lookup_insert_ne by done. rewrite <- wf_index0. case_decide as Hd; [|done].
      destruct Hd as [-> ->]. set_solver.
  - by apply index_tight_insert.
  - intros j s [[<- <-]|[_ H2]]%lookup_insert_Some; simpl; [lia|]. apply wf_generation0 in H2. lia.
  - intros j1 j2 s1 s2 [[<- <-]|[_ H1]]%lookup_insert_Some [[<- <-]|[_ H2]]%lookup_insert_Some; simpl; try done.
    + apply wf_generation0 in H2. lia.
    + apply wf_generation0 in H1. lia.
    + eauto.
  - lia.
  - rewrite map_size_insert_Some by eauto. done.
  - rewrite map_size_insert_None by done. lia.
  - intros c2 conn2 [[<- <-]|[_ H2]]%lookup_insert_Some; [|eauto]. cbn [conn_subscriptions set_conn_subscriptions].
    rewrite size_union by (specialize (Hfresh _ _ Hc); set_solver). rewrite size_singleton. lia.
Qed.

Lemma remove_locked_wf c i r : registry_wf cfg r -> registry_wf cfg (remove_subscription_locked c i r).2.
Proof.
  intros Hwf. unfold remove_subscription_locked. unfold mbind, st_bind, st_get.
  destruct (subscriptions r !! i) as [s0|] eqn:Hi; [|done].
  case_bool_decide as Hb; [done|]. destruct Hwf.
  destruct (wf_owner0 _ _ Hi) as (conn & Hc & Hin & Hrest). rewrite Hb in Hc. rewrite Hc.
  destruct (wf_sub_key0 _ _ Hi) as [Hkey _]. cbn [snd st_put mret st_ret].
  split; cbn [connections subscriptions tenant_topics next_subscription_generation]; try done.
  - intros c2 conn2 [[<- <-]|[_ H2]]%lookup_insert_Some; [|by eauto]. simpl. by eauto.
  - intros j s [_ H2]%lookup_delete_Some. by eauto.
  - intros j s [Hne H2]%lookup_delete_Some. destruct (wf_owner0 _ _ H2) as (conn2 & H3 & Hin2 & Hrest2).
    destruct (decide (sub_connection_id s = c)) as [He|Hne2].
    + exists (set_conn_subscriptions (conn_subscriptions conn ∖ {[i]}) conn).
      rewrite He, lookup_insert_eq. rewrite He in H3. simplify_eq. simpl. split_and!; try done; [set_solver | tauto..].
    + exists conn2. rewrite lookup_insert_ne by done. done.
  - intros c2 conn2 j [[<- <-]|[Hne H2]]%lookup_insert_Some; cbn [conn_subscriptions set_conn_subscriptions].
    + intros [Hj Hji]%elem_of_difference. destruct (wf_owned0 _ _ _ Hc Hj) as (s & Hs & ?). exists s.
      rewrite lookup_delete_ne by set_solver. done.
    + intros Hj. destruct (wf_owned0 _ _ _ H2 Hj) as (s & Hs & ?). exists s.
      rewrite lookup_delete_ne by congruence. done.
  - intros t k j. rewrite members_remove, Hkey. destruct (decide (j = i)) as [->|Hne].
    + rewrite lookup_delete_eq. split; [|naive_solver]. case_decide as Hd; [set_solver|].
      rewrite wf_index0, Hi. naive_solver.
    + rewrite lookup_delete_ne by done. rewrite <- wf_index0. case_decide as Hd; [|done].
      destruct Hd as [-> ->]. set_solver.
  - by apply index_tight_remove.
  - intros j s [_ H2]%lookup_delete_Some. by eauto.
  - intros j1 j2 s1 s2 [_ H1]%lookup_delete_Some [_ H2]%lookup_delete_Some. by eauto.
  - rewrite map_size_insert_Some by eauto. done.
  - rewrite map_size_delete_Some by eauto. lia.
  - intros c2 conn2 [[<- <-]|[_ H2]]%lookup_insert_Some; [|by eauto]. cbn [conn_subscriptions set_conn_subscriptions].
    etransitivity; [|exact (wf_per_conn0 _ _ Hc)]. apply inj_le. apply subseteq_size. set_solver.
Qed.

Lemma remove_if_current_wf c e r : registry_wf cfg r -> registry_wf cfg (remove_subscription_if_current c e r).2.
Proof.
  intros Hwf. unfold remove_subscription_if_current. unfold mbind, st_bind at 1, st_get.
  destruct (subscriptions r !! sub_id e) as [s0|]; [|done].
  destruct (_ || _); [done|]. case_bool_decide; [done|]. by apply remove_locked_wf.
Qed.

Lemma revoke_locked_wf i g reason r : registry_wf cfg r -> registry_wf cfg (revoke_subscription_locked i g reason r).2.
Proof.
  intros Hwf. unfold revoke_subscription_locked. unfold mbind, st_bind, st_get.
  destruct (subscriptions r !! i) as [s0|] eqn:Hi; [|done].
  destruct (match g with Some _ => _ | None => _ end); [done|]. case_bool_decide as Hb; [done|].
  destruct Hwf. cbn [snd st_put mret st_ret].
  split; cbn [connections subscriptions tenant_topics next_subscription_generation with_topics with_subscriptions]; try done.
  - intros j s [[<- <-]|[_ H2]]%lookup_insert_Some; [|by eauto]. simpl. split; [|done]. by apply wf_sub_key0.
  - intros j s [[<- <-]|[_ H2]]%lookup_insert_Some; [|by eauto]. exact (wf_owner0 _ _ Hi).
  - intros c2 conn2 j H2 Hj. destruct (wf_owned0 _ _ _ H2 Hj) as (s & Hs & Hsc).
    destruct (decide (j = i)) as [->|Hne].
    + rewrite lookup_insert_eq. eexists. split; [done|]. simpl. congruence.
    + exists s. by rewrite lookup_insert_ne.
  - intros t k j. rewrite members_remove. destruct (decide (j = i)) as [->|Hne].
    + rewrite lookup_insert_eq. split; [|intros (s & [= <-] & _ & _ & ?); done]. case_decide as Hd; [set_solver|].
      rewrite wf_index0, Hi. naive_solver.
    + rewrite lookup_insert_ne by done. rewrite <- wf_index0. case_decide as Hd; [|done].
      destruct Hd as [-> ->]. set_solver.
  - by apply index_tight_remove.
  - intros j s [[<- <-]|[_ H2]]%lookup_insert_Some; [|by eauto]. exact (wf_generation0 _ _ Hi).
  - intros j1 j2 s1 s2 [[<- <-]|[_ H1]]%lookup_insert_Some [[<- <-]|[_ H2]]%lookup_insert_Some; simpl; by eauto.
  - rewrite map_size_insert_Some by eauto. done.
Qed.
End preservation.

(** ** Histories of calls *)
Inductive call :=
| CRegister (id : Z) (p : Principal)
| CActivate (c : Z)
| CBeginClose (c : Z)
| CClose (c : Z)
| CAdd (c i tenant : Z) (topic : string) (cursor : option string)
| CRemove (c i : Z)
| CRemoveIfCurrent (c : Z) (expected : SubscriptionSnapshot)
| CRevoke (i : Z) (reason : RevocationReason)
| CRevokeIfCurrent (expected : SubscriptionSnapshot) (reason : RevocationReason).

Definition perform (cfg : RegistryConfig) (k : call) (r : RegistryState) : RegistryState :=
  match k with
  | CRegister id p => (register cfg id p r).2
  | CActivate c => (activate c r).2
  | CBeginClose c => (begin_close c r).2
  | CClose c => (close c r).2
  | CAdd c i t k cur => (add_subscription cfg c i t k cur r).2
  | CRemove c i => (remove_subscription c i r).2
  | CRemoveIfCurrent c e => (remove_subscription_if_current c e r).2
  | CRevoke i reason => (revoke_subscription i reason r).2
  | CRevokeIfCurrent e reason => (revoke_subscription_if_current e reason r).2
  end.
Definition performs (cfg : RegistryConfig) (ks : list call) (r : RegistryState) : RegistryState :=
  foldl (fun r k => perform cfg k r) r ks.

Lemma RegistryConfig_new_positive a b c cfg : 0 <= a -> 0 <= b -> 0 <= c -> RegistryConfig_new a b c = Ok cfg ->
  0 < max_connections cfg /\ 0 < max_subscriptions cfg /\ 0 < max_subscriptions_per_connection cfg.
Proof. unfold RegistryConfig_new. intros. inv_ok. subst cfg. simpl. blia. Qed.

Lemma perform_wf cfg k r :
  0 < max_connections cfg /\ 0 < max_subscriptions cfg /\ 0 < max_subscriptions_per_connection cfg ->
  registry_wf cfg r -> registry_wf cfg (perform cfg k r).
Proof.
  intros Hcfg Hwf. destruct k; cbn [perform];
    unfold remove_subscription, revoke_subscription, revoke_subscription_if_current;
    auto using register_wf, activate_wf, begin_close_wf, close_wf, add_subscription_wf, remove_locked_wf,
      remove_if_current_wf, revoke_locked_wf.
Qed.
Lemma performs_wf cfg ks r :
  0 < max_connections cfg /\ 0 < max_subscriptions cfg /\ 0 < max_subscriptions_per_connection cfg ->
  registry_wf cfg r -> registry_wf cfg (performs cfg ks r).
Proof.
  intros Hcfg. revert r. induction ks as [|k ks IH]; intros r Hwf; [done|]. simpl. apply IH. by apply perform_wf.
Qed.

(** Whatever calls are made on a registry, in whatever order the lock serves
    them: connections and subscriptions point at each other, the topic index holds
    exactly the active subscriptions, each under the tenant its connection was
    authenticated for, nothing of a closed connection is left, generations are
    unique and all three capacities hold. *)
Theorem registry_invariant conns subs per_conn cfg calls :
  0 <= conns -> 0 <= subs -> 0 <= per_conn -> RegistryConfig_new conns subs per_conn = Ok cfg ->
  registry_wf cfg (performs cfg calls RegistryState_default).
Proof.
  intros H1 H2 H3 Hcfg. pose proof (RegistryConfig_new_positive _ _ _ _ H1 H2 H3 Hcfg) as Hp.
  apply performs_wf; [done|]. by apply registry_default_wf.
Qed.

Definition demo_config : RegistryConfig :=
  {| max_connections := 2; max_subscriptions := 4; max_subscriptions_per_connection := 3 |}.
Definition alice : Principal :=
  {| subject_id := 7; principal_kind := User; principal_tenant_id := Some 1; auth_method := Session;
     authenticated_at := 0; assurance := Aal1; scopes := [] |}.
Definition demo_calls : list call :=
  [CRegister 10 alice; CActivate 10; CAdd 10 100 1 "orders" None; CAdd 10 101 1 "orders" None;
   CRevoke 100 MembershipChanged; CRegister 11 alice; CActivate 11; CAdd 11 102 1 "orders" None; CClose 11].

Lemma registry_invariant_witness :
  exists s, subscriptions (performs demo_config demo_calls RegistryState_default) !! 101 = Some s
    /\ sub_tenant_id s = 1 /\ sub_state s = SubActive.
Proof.
  pose proof (registry_invariant 2 4 3 demo_config demo_calls ltac:(lia) ltac:(lia) ltac:(lia) eq_refl) as Hwf.
  assert (Hin : 101 ∈ members (tenant_topics (performs demo_config demo_calls RegistryState_default)) 1 "orders")
    by (refine (bool_decide_unpack _ _); vm_compute; exact I).
  apply (wf_index _ _ Hwf) in Hin as (s & Hs & Ht & _ & Ha). exact (ex_intro _ s (conj Hs (conj Ht Ha))).
Defined.

(** ** Generations identify subscriptions for ever *)
Definition same_subscription (s s' : SubscriptionRecord) : Prop :=
  set_sub_state SubActive s = set_sub_state SubActive s'.

(** Where a generation may still occur: only as the subscription it was given to. *)
Definition only_as (s : SubscriptionRecord) (r : RegistryState) : Prop :=
  generation s <= next_subscription_generation r
  /\ forall j s', subscriptions r !! j = Some s' -> generation s' = generation s ->
     j = sub_id s /\ same_subscription s s'.
(** Where it no longer occurs. *)
Definition gone (s : SubscriptionRecord) (r : RegistryState) : Prop :=
  generation s <= next_subscription_generation r
  /\ forall j s', subscriptions r !! j = Some s' -> generation s' <> generation s.

(** What a call does to the subscriptions: it keeps some of them as they are but
    for their state, and may add one of a new generation. *)
Definition keeps (r r' : RegistryState) : Prop :=
  next_subscription_generation r <= next_subscription_generation r'
  /\ forall j s', subscriptions r' !! j = Some s' ->
     (exists s, subscriptions r !! j = Some s /\ same_subscription s s')
     \/ next_subscription_generation r < generation s'.

Lemma keeps_same r r' : subscriptions r' = subscriptions r ->
  next_subscription_generation r' = next_subscription_generation r -> keeps r r'.
Proof. intros E1 E2. split; [lia|]. rewrite E1. intros j s' Hs'. left. by exists s'. Qed.

(** Unfolds a call into its branches; those that leave the subscriptions alone are
    done. *)
Ltac open_call := unfold mbind, st_bind, st_get, st_put, st_modify, st_throw, mret, st_ret;
  repeat match goal with
  | |- context [match ?x with _ => _ end] =>
      lazymatch x with context [match _ with _ => _ end] => fail | _ => destruct x eqn:? end
  end; try (by apply keeps_same).

Lemma keeps_remove c i r : keeps r (remove_subscription_locked c i r).2.
Proof.
  unfold remove_subscription_locked. open_call.
  all: split; simpl; [lia|]; intros j s' [_ Hs']%lookup_delete_Some; left; by exists s'.
Qed.
Lemma keeps_revoke i g reason r : keeps r (revoke_subscription_locked i g reason r).2.
Proof.
  unfold revoke_subscription_locked. open_call.
  all: split; simpl; [lia|]; intros j s' [[<- <-]|[_ Hs']]%lookup_insert_Some; left;
    [by eexists | by exists s'].
Qed.
Lemma keeps_close c r : keeps r (close c r).2.
Proof.
  unfold close, mbind, st_bind, st_get. destruct (connections r !! c) as [conn|]; [|by apply keeps_same].
  cbn [snd st_put mret st_ret].
  destruct (drop_subscriptions (with_connections (delete c (connections r)) r)
    (elements (conn_subscriptions conn))) as (_ & Hn & Hs & _). split; [rewrite Hn; simpl; lia|].
  intros j s'. rewrite Hs. case_decide; [done|]. left. by exists s'.
Qed.
Lemma keeps_add cfg c i t k cur r : keeps r (add_subscription cfg c i t k cur r).2.
Proof.
  unfold add_subscription. open_call.
  match goal with H : checked_add _ _ _ = Some _ |- _ => apply checked_add_Some in H as [-> _] end.
  split; simpl; [lia|].
  intros j s' [[<- <-]|[_ Hs']]%lookup_insert_Some; [right; simpl; lia | left; by exists s'].
Qed.

Lemma perform_keeps cfg k r : keeps r (perform cfg k r).
Proof.
  destruct k; cbn [perform]; unfold remove_subscription, revoke_subscription, revoke_subscription_if_current;
    auto using keeps_remove, keeps_revoke, keeps_close, keeps_add.
  - unfold register. open_call.
  - unfold activate, set_state. open_call.
  - unfold begin_close, set_state. open_call.
  - unfold remove_subscription_if_current. unfold mbind, st_bind at 1, st_get.
    destruct (subscriptions r !! sub_id expected); [|by apply keeps_same].
    destruct (_ || _); [by apply keeps_same|]. case_bool_decide; [by apply keeps_same|]. apply keeps_remove.
Qed.

Lemma only_as_performs cfg s ks r : only_as s r -> only_as s (performs cfg ks r).
Proof.
  revert r. induction ks as [|k ks IH]; intros r H; [done|]. apply (IH (perform cfg k r)).
  destruct H as [Hle H]. destruct (perform_keeps cfg k r) as [Hn Hk]. split; [lia|].
  intros j s' Hs' Hg. destruct (Hk _ _ Hs') as [(s0 & Hs0 & He)|Hlt]; [|lia].
  assert (generation s0 = generation s') by (unfold same_subscription in He; by injection He).
  destruct (H _ _ Hs0) as [? ?]; [congruence|]. split; [done|]. unfold same_subscription in *. congruence.
Qed.
Lemma gone_performs cfg s ks r : gone s r -> gone s (performs cfg ks r).
Proof.
  revert r. induction ks as [|k ks IH]; intros r H; [done|]. apply (IH (perform cfg k r)).
  destruct H as [Hle H]. destruct (perform_keeps cfg k r) as [Hn Hk]. split; [lia|].
  intros j s' Hs' Hg. destruct (Hk _ _ Hs') as [(s0 & Hs0 & He)|Hlt]; [|lia].
  assert (generation s0 = generation s') by (unfold same_subscription in He; by injection He).
  apply (H _ _ Hs0). congruence.
Qed.

Lemma snapshot_only_as cfg r i s : registry_wf cfg r -> subscriptions r !! i = Some s -> only_as s r.
Proof.
  intros Hwf Hs. split; [apply (wf_generation _ _ Hwf) in Hs; lia|]. intros j s' Hs' Hg.
  assert (j = i) as -> by (eapply (wf_generation_inj _ _ Hwf); eauto). simplify_eq. split; [|done].
  symmetry. by apply (wf_sub_key _ _ Hwf).
Qed.

Lemma remove_if_current_effect r i snap c out r'' : sub_id snap = i ->
  (forall s, subscriptions r !! i = Some s -> generation s = generation snap -> same_subscription snap s) ->
  remove_subscription_if_current c snap r = (Ok out, r'') ->
  same_subscription snap out /\ sub_connection_id snap = c /\ subscriptions r'' = delete i (subscriptions r).
Proof.
  intros Hid Honly. unfold remove_subscription_if_current, remove_subscription_locked.
  unfold mbind, st_bind, st_get. rewrite Hid. destruct (subscriptions r !! i) as [s|] eqn:Hs; [|done].
  case_bool_decide as Hc; [done|]. case_bool_decide as Hc2; [done|]. simpl.
  case_bool_decide as Hg; [done|]. rewrite Hs, bool_decide_eq_false_2 by tauto.
  intros [= <- <-]. simpl. split_and!; [|done|done].
  apply (Honly s); done.
Qed.

Lemma revoke_if_current_effect r i snap reason intent r'' : sub_id snap = i ->
  (forall s, subscriptions r !! i = Some s -> generation s = generation snap -> same_subscription snap s) ->
  revoke_subscription_if_current snap reason r = (Ok intent, r'') ->
  (exists s, subscriptions r !! i = Some s /\ same_subscription snap s /\ sub_state s = SubActive)
  /\ intent_connection_id intent = sub_connection_id snap
  /\ is_subscription_current_active r'' i (generation snap) = false
  /\ is_subscription_current_generation r'' i (generation snap) = true.
Proof.
  intros Hid Honly. unfold revoke_subscription_if_current, revoke_subscription_locked.
  unfold mbind, st_bind, st_get. rewrite Hid. destruct (subscriptions r !! i) as [s|] eqn:Hs; [|done].
  case_bool_decide as Hg; [done|]. case_bool_decide as Ha; [done|]. intros [= <- <-].
  assert (Hsame : same_subscription snap s) by (apply Honly; congruence).
  unfold is_subscription_current_active, is_subscription_current_generation. simpl. rewrite lookup_insert_eq.
  split_and!.
  - eauto.
  - unfold same_subscription in Hsame. by injection Hsame.
  - case_bool_decide; [done|]. by case_bool_decide.
  - simpl. by apply bool_decide_eq_true.
Qed.

(** A snapshot stands for one subscription for ever.  Whatever happens after it
    was taken: removing or revoking through it can only hit that same subscription,
    never another that took over its identifier; the generation counts as active
    only while that subscription is active, indexed, and on an active connection;
    and once the generation is gone it never comes back. *)
Theorem generation_identity cfg ks ks' i snap :
  0 < max_connections cfg /\ 0 < max_subscriptions cfg /\ 0 < max_subscriptions_per_connection cfg ->
  let r := performs cfg ks RegistryState_default in
  let r' := performs cfg ks' r in
  subscription r i = Some snap ->
  (forall c out r'', remove_subscription_if_current c snap r' = (Ok out, r'') ->
     same_subscription snap out /\ sub_connection_id snap = c
     /\ subscriptions r'' = delete i (subscriptions r'))
  /\ (forall reason intent r'', revoke_subscription_if_current snap reason r' = (Ok intent, r'') ->
     (exists s, subscriptions r' !! i = Some s /\ same_subscription snap s /\ sub_state s = SubActive)
     /\ intent_connection_id intent = sub_connection_id snap
     /\ is_subscription_current_active r'' i (generation snap) = false
     /\ is_subscription_current_generation r'' i (generation snap) = true)
  /\ (is_subscription_current_active r' i (generation snap) = true ->
     exists s conn, subscriptions r' !! i = Some s /\ same_subscription snap s /\ sub_state s = SubActive
       /\ i ∈ members (tenant_topics r') (sub_tenant_id snap) (sub_topic snap)
       /\ connections r' !! sub_connection_id snap = Some conn /\ conn_state conn = Active
       /\ principal_tenant_id (principal conn) = Some (sub_tenant_id snap))
  /\ (is_subscription_current_generation r' i (generation snap) = false ->
     forall ks'', is_subscription_current_generation (performs cfg ks'' r') i (generation snap) = false).
Proof.
  intros Hcfg r r' Hsnap. unfold subscription, subscription_snapshot in Hsnap. rewrite option_fmap_id in Hsnap.
  assert (Hwf : registry_wf cfg r) by (apply performs_wf, registry_default_wf; done).
  assert (Hwf' : registry_wf cfg r') by (by apply performs_wf).
  assert (Hid : sub_id snap = i) by (by apply (wf_sub_key _ _ Hwf)).
  pose proof (only_as_performs cfg snap ks' r (snapshot_only_as _ _ _ _ Hwf Hsnap)) as [Hle Honly].
  change (performs cfg ks' r) with r' in Hle, Honly.
  assert (Hfields : forall s, same_subscription snap s ->
    sub_id s = i /\ sub_connection_id s = sub_connection_id snap /\ sub_tenant_id s = sub_tenant_id snap
    /\ sub_topic s = sub_topic snap /\ generation s = generation snap).
  { intros s Hs. unfold same_subscription in Hs. injection Hs. intros. subst i. split_and!; congruence. }
  split_and!.
  - intros c out r''. apply remove_if_current_effect; [done | intros s Hs Hg; exact (proj2 (Honly _ _ Hs Hg))].
  - intros reason intent r''. apply revoke_if_current_effect; [done | intros s Hs Hg; exact (proj2 (Honly _ _ Hs Hg))].
  - unfold is_subscription_current_active. destruct (subscriptions r' !! i) as [s|] eqn:Hs; [|done].
    case_bool_decide as Hg; [done|]. case_bool_decide as Ha; [done|]. simpl.
    destruct (Honly _ _ Hs) as [_ Hsame]; [done|]. destruct (Hfields _ Hsame) as (_ & Hc & Ht & Hk & _).
    destruct (wf_owner _ _ Hwf' _ _ Hs) as (conn & Hconn & _ & Hten & _). rewrite Hconn, <- Hc, <- Ht, <- Hk.
    intros Hst%bool_decide_eq_true. exists s, conn. split_and!; try done.
    apply (wf_index _ _ Hwf'). by exists s.
  - unfold is_subscription_current_generation at 1. intros Hg ks''.
    assert (Hgone : gone snap r').
    { split; [done|]. intros j s Hs Hgen. destruct (Honly _ _ Hs Hgen) as [-> _].
      rewrite Hid in Hs. rewrite Hs in Hg. by case_bool_decide. }
    destruct (gone_performs cfg snap ks'' r' Hgone) as [_ Hno]. unfold is_subscription_current_generation.
    destruct (subscriptions (performs cfg ks'' r') !! i) as [s|] eqn:Hs; [|done].
    apply bool_decide_eq_false. by eapply Hno.
Qed.

Lemma generation_identity_witness :
  let r := performs demo_config [CRegister 10 alice; CActivate 10; CAdd 10 100 1 "orders" None]
             RegistryState_default in
  exists snap, subscription r 100 = Some snap
    /\ is_subscription_current_generation (performs demo_config
         [CClose 10; CRegister 11 alice; CActivate 11; CAdd 11 100 1 "orders" None] r) 100 (generation snap) = false.
Proof.
  cbn zeta. eexists. split; [vm_compute; reflexivity|].
  pose proof (generation_identity demo_config [CRegister 10 alice; CActivate 10; CAdd 10 100 1 "orders" None]
    [CClose 10] 100 _ ltac:(vm_compute; split_and!; reflexivity) ltac:(vm_compute; reflexivity)) as (_ & _ & _ & H).
  apply (H ltac:(vm_compute; reflexivity) [CRegister 11 alice; CActivate 11; CAdd 11 100 1 "orders" None]).
Defined.

(** ** Traversing a topic *)
Lemma least_spec l : match least l with
  | Some i => i ∈ l /\ forall j, j ∈ l -> i <= j
  | None => l = []
  end.
Proof.
  induction l as [|x l IH]; simpl; [done|]. destruct (least l) as [j|].
  - destruct IH as [Hin Hmin]. split.
    + destruct (Z.min_spec x j) as [[_ ->]|[_ ->]]; set_solver.
    + intros k [->|Hk]%elem_of_cons; [lia|]. apply Hmin in Hk. lia.
  - subst l. split; [set_solver|]. intros j ->%list_elem_of_singleton. lia.
Qed.

Lemma next_id_spec a ids : match next_id a ids with
  | Some i => i ∈ ids /\ beyond a i = true /\ forall j, j ∈ ids -> beyond a j = true -> i <= j
  | None => forall j, j ∈ ids -> beyond a j = false
  end.
Proof.
  unfold next_id. pose proof (least_spec (filter (fun i => beyond a i = true) (elements ids))) as H.
  destruct (least _) as [i|].
  - destruct H as [[Hb Hin]%list_elem_of_filter Hmin]. split_and!; [set_solver | done |].
    intros j Hj Hjb. apply Hmin. apply list_elem_of_filter. set_solver.
  - intros j Hj. destruct (beyond a j) eqn:Hb; [|done].
    assert (Hin : j ∈ filter (fun i => beyond a i = true) (elements ids))
      by (apply list_elem_of_filter; set_solver).
    rewrite H in Hin. set_solver.
Qed.

Definition topic_members (r : RegistryState) (c : TopicSubscriptionCursor) : gset Z :=
  members (tenant_topics r) (cur_tenant_id c) (cur_topic c).
(** Members still ahead of the cursor. *)
Definition ahead (r : RegistryState) (c : TopicSubscriptionCursor) : list Z :=
  filter (fun i => beyond (after c) i = true) (elements (topic_members r c)).

(** What one call yields: the cursor moves to the subscription yielded, passing only
    members that are not active, or to the end. *)
Definition yields (r : RegistryState) (c : TopicSubscriptionCursor)
    (o : option SubscriptionSnapshot) (c' : TopicSubscriptionCursor) : Prop :=
  cur_tenant_id c' = cur_tenant_id c /\ cur_topic c' = cur_topic c
  /\ match o with
     | Some s => exists i, after c' = Some i /\ exhausted c' = exhausted c /\ i ∈ ahead r c
         /\ subscriptions r !! i = Some s /\ sub_state s = SubActive
         /\ forall j, j ∈ ahead r c -> j < i -> forall s', subscriptions r !! j = Some s' -> sub_state s' <> SubActive
     | None => exhausted c' = true
         /\ forall j s', j ∈ ahead r c -> subscriptions r !! j = Some s' -> sub_state s' <> SubActive
     end.

Lemma ahead_lookup r c j : j ∈ ahead r c <-> beyond (after c) j = true /\ j ∈ topic_members r c.
Proof. unfold ahead. rewrite list_elem_of_filter, elem_of_elements. done. Qed.

Lemma ahead_set_after r c i : i ∈ ahead r c ->
  (forall j, j ∈ ahead r (set_after i c) <-> j ∈ ahead r c /\ i < j)
  /\ (length (ahead r (set_after i c)) < length (ahead r c))%nat.
Proof.
  intros Hi.
  assert (Hb : forall j, j ∈ ahead r (set_after i c) <-> j ∈ ahead r c /\ i < j).
  { intros j. rewrite !ahead_lookup in *. unfold topic_members in *. simpl.
    rewrite Z.ltb_lt. split; [|tauto]. intros [Hlt Hm]. split_and!; try done.
    destruct Hi as [Hi _]. unfold beyond in *. destruct (after c); [lia | done]. }
  split; [done|].
  assert (Hsub : i :: ahead r (set_after i c) ⊆+ ahead r c).
  { apply NoDup_submseteq.
    - constructor; [rewrite Hb; lia|]. apply NoDup_filter, NoDup_elements.
    - intros j [->|Hj]%elem_of_cons; [done|]. by apply Hb in Hj as [Hj _]. }
  apply submseteq_length in Hsub. simpl in Hsub. lia.
Qed.

Lemma next_loop_yields fuel r c : (length (ahead r c) < fuel)%nat ->
  exists o c', next_loop fuel r c = Some (o, c') /\ yields r c o c'.
Proof.
  revert c. induction fuel as [|fuel IH]; intros c Hf; [lia|]. cbn [next_loop].
  assert (Hm : topic_members r c
    = default ∅ (tenant_topics r !! cur_tenant_id c ≫= fun topics => topics !! cur_topic c)) by done.
  destruct (tenant_topics r !! cur_tenant_id c ≫= _) as [ids|] eqn:Hids; simpl in Hm.
  2: { exists None, (set_exhausted c). split; [done|]. split_and!; try done.
       intros j s' [_ Hj]%ahead_lookup. rewrite Hm in Hj. by apply elem_of_empty in Hj. }
  pose proof (next_id_spec (after c) ids) as Hn. destruct (next_id (after c) ids) as [i|].
  2: { exists None, (set_exhausted c). split; [done|]. split_and!; try done.
       intros j s' [Hb Hj]%ahead_lookup. rewrite Hm in Hj. rewrite (Hn _ Hj) in Hb. done. }
  destruct Hn as (Hin & Hb & Hmin).
  assert (Hi : i ∈ ahead r c) by (apply ahead_lookup; rewrite Hm; done).
  destruct (ahead_set_after r c i Hi) as [Ha Hl].
  assert (Hskip : (forall s, subscriptions r !! i = Some s -> sub_state s <> SubActive) ->
    exists o c', next_loop fuel r (set_after i c) = Some (o, c') /\ yields r c o c').
  { intros Hno. destruct (IH (set_after i c)) as (o & c' & Ho & Ht & Hk & Hy); [lia|].
    exists o, c'. split; [done|]. split_and!; try done. destruct o as [s|].
    - destruct Hy as (k & Hk1 & Hk2 & Hk3 & Hk4 & Hk5 & Hk6). exists k. apply Ha in Hk3 as [Hk3 Hik].
      split_and!; try done. intros j Hj Hjk s' Hs'.
      destruct (decide (j = i)) as [->|Hne]; [by apply Hno|]. apply (Hk6 j); try done. apply Ha. split; [done|].
      apply ahead_lookup in Hj as [Hjb Hj]. rewrite Hm in Hj. specialize (Hmin _ Hj Hjb). lia.
    - destruct Hy as [He Hy]. split; [done|]. intros j s' Hj Hs'.
      destruct (decide (j = i)) as [->|Hne]; [by apply Hno|]. apply (Hy j); [|done]. apply Ha. split; [done|].
      apply ahead_lookup in Hj as [Hjb Hj]. rewrite Hm in Hj. specialize (Hmin _ Hj Hjb). lia. }
  destruct (subscriptions r !! i) as [s|] eqn:Hs; [|by apply Hskip].
  case_bool_decide as Hact; [|by apply Hskip; intros s' [= <-]].
  exists (Some s), (set_after i c). split; [done|]. split_and!; try done. exists i. split_and!; try done.
  intros j Hj Hlt. apply ahead_lookup in Hj as [Hjb Hj]. rewrite Hm in Hj. specialize (Hmin _ Hj Hjb). lia.
Qed.

(** A traversal whose calls meet the registry in the states [rs], one per call,
    with anything in between; each call may take as many rounds as it needs. *)
Fixpoint traverse (rs : list RegistryState) (c : TopicSubscriptionCursor)
    : option (list SubscriptionSnapshot * TopicSubscriptionCursor) :=
  match rs with
  | [] => Some ([], c)
  | r :: rs' =>
      '(o, c1) ← next_subscription (S (length (ahead r c))) r c;
      '(out, c2) ← traverse rs' c1;
      Some (match o with Some s => s :: out | None => out end, c2)
  end.

Lemma next_subscription_yields r c : exhausted c = false ->
  exists o c', next_subscription (S (length (ahead r c))) r c = Some (o, c') /\ yields r c o c'.
Proof. intros He. unfold next_subscription. rewrite He. apply next_loop_yields. lia. Qed.

Definition traversed (t : Z) (k : string) (rs : list RegistryState) (c : TopicSubscriptionCursor)
    (out : list SubscriptionSnapshot) (c' : TopicSubscriptionCursor) : Prop :=
  StronglySorted Z.lt (map sub_id out)
  /\ Forall (fun s => beyond (after c) (sub_id s) = true) out
  /\ Forall (fun s => sub_state s = SubActive /\ sub_tenant_id s = t /\ sub_topic s = k
                      /\ exists r, r ∈ rs /\ subscriptions r !! sub_id s = Some s) out
  /\ (exhausted c' = true -> forall i, beyond (after c) i = true ->
        (forall r, r ∈ rs -> i ∈ members (tenant_topics r) t k) -> i ∈ map sub_id out).

Lemma traverse_exhausted rs c : exhausted c = true -> traverse rs c = Some ([], c).
Proof.
  intros He. induction rs as [|r rs IH]; [done|]. cbn [traverse]. unfold next_subscription at 1.
  rewrite He. simpl. by rewrite IH.
Qed.

Lemma traverse_spec cfg rs c : exhausted c = false -> Forall (registry_wf cfg) rs ->
  exists out c', traverse rs c = Some (out, c') /\ traversed (cur_tenant_id c) (cur_topic c) rs c out c'.
Proof.
  revert c. induction rs as [|r rs IH]; intros c He Hwf.
  { exists [], c. split; [done|]. split_and!; [constructor.. | congruence]. }
  inversion Hwf as [|? ? Hr Hrs]; subst. cbn [traverse].
  destruct (next_subscription_yields r c He) as (o & c1 & -> & Ht & Hk & Hy). simpl.
  destruct o as [s|].
  - destruct Hy as (i & Haft & Hex & Hi & Hs & Hact & Hmin).
    destruct (wf_sub_key _ _ Hr _ _ Hs) as [Hid _]. apply ahead_lookup in Hi as [Hb Hi].
    destruct (proj1 (wf_index _ _ Hr _ _ _) Hi) as (s2 & Hs2 & Hst & Hsk & _).
    assert (s2 = s) as -> by congruence.
    destruct (IH c1) as (out & c2 & Htr & Hsorted & Hafter & Hall & Hdone); [congruence | done |].
    rewrite Htr. exists (s :: out), c2. split; [done|]. rewrite Haft in Hafter. simpl in Hafter.
    split_and!.
    + simpl. constructor; [done|]. apply Forall_map. eapply Forall_impl; [exact Hafter|]. simpl. lia.
    + constructor; [by rewrite Hid|]. eapply Forall_impl; [exact Hafter|]. simpl. intros s' Hs'.
      unfold beyond in *. destruct (after c); lia || done.
    + constructor; [by split_and!; try done; exists r; rewrite Hid; split; [constructor | done]|].
      rewrite Ht, Hk in Hall. eapply Forall_impl; [exact Hall|]. simpl.
      intros s' (? & ? & ? & r' & ? & ?). split_and!; try done. exists r'. split; [by constructor | done].
    + intros Hfin j Hj Hin. simpl. apply elem_of_cons. rewrite Hid.
      assert (Hji : ~ j < i).
      { intros Hlt. assert (Hjr : j ∈ topic_members r c) by (apply Hin; constructor).
        destruct (proj1 (wf_index _ _ Hr _ _ _) Hjr) as (s' & Hs' & _ & _ & Ha').
        refine (Hmin j _ Hlt s' Hs' Ha'). by apply ahead_lookup. }
      destruct (decide (j = i)) as [->|Hne]; [by left|]. right. apply Hdone; [done| |].
      * rewrite Haft. simpl. lia.
      * intros r' Hr'. rewrite Ht, Hk. apply Hin. by constructor.
  - destruct Hy as [Hex Hno]. rewrite traverse_exhausted by done. exists [], c1. split; [done|].
    split_and!; [constructor.. |]. intros _ i Hi Hin. exfalso.
    assert (Hm : i ∈ topic_members r c) by (apply Hin; constructor).
    destruct (proj1 (wf_index _ _ Hr _ _ _) Hm) as (s' & Hs' & _ & _ & Ha').
    refine (Hno i s' _ Hs' Ha'). by apply ahead_lookup.
Qed.

(** Traversing a topic while the registry changes under it: every call returns;
    subscriptions come in increasing order of their identifiers, each at most once
    and each active under exactly this tenant and topic when it was yielded; and a
    subscription that was active all along has been yielded when the traversal
    ends. *)
Theorem topic_traversal cfg rs tenant topic : Forall (registry_wf cfg) rs ->
  exists out c', traverse rs (subscriptions_for_topic tenant topic) = Some (out, c')
    /\ StronglySorted Z.lt (map sub_id out)
    /\ Forall (fun s => sub_state s = SubActive /\ sub_tenant_id s = tenant /\ sub_topic s = topic
                        /\ exists r, r ∈ rs /\ subscriptions r !! sub_id s = Some s) out
    /\ (exhausted c' = true -> forall i,
          (forall r, r ∈ rs -> i ∈ members (tenant_topics r) tenant topic) -> i ∈ map sub_id out).
Proof.
  intros Hwf. destruct (traverse_spec cfg rs (subscriptions_for_topic tenant topic)) as (out & c' & Ht & H); try done.
  destruct H as (Hs & _ & Ha & Hd). exists out, c'. split_and!; try done. intros He i. by apply Hd.
Qed.

Lemma topic_traversal_witness :
  let r := performs demo_config demo_calls RegistryState_default in
  exists out c', traverse [r; r] (subscriptions_for_topic 1 "orders") = Some (out, c') /\ 101 ∈ map sub_id out.
Proof.
  cbn zeta. set (r := performs demo_config demo_calls RegistryState_default).
  assert (Hwf : registry_wf demo_config r) by (apply performs_wf; [|apply registry_default_wf]; vm_compute; done).
  assert (Hin : 101 ∈ members (tenant_topics r) 1 "orders")
    by (refine (bool_decide_unpack _ _); vm_compute; exact I).
  assert (He : (snd <$> traverse [r; r] (subscriptions_for_topic 1 "orders"))
    = Some {| cur_tenant_id := 1; cur_topic := "orders"; after := Some 101; exhausted := true |})
    by (vm_compute; reflexivity).
  clearbody r.
  destruct (topic_traversal demo_config [r; r] 1 "orders") as (out & c' & Ht & _ & _ & Hall);
    [exact (Forall_cons_2 _ _ _ Hwf (Forall_cons_2 _ _ _ Hwf (Forall_nil_2 _)))|].
  exists out, c'. split; [done|]. apply Hall.
  - rewrite Ht in He. simpl in He. by injection He as ->.
  - intros r' [->|[->|H]%elem_of_cons]%elem_of_cons; [exact Hin | exact Hin | by apply not_elem_of_nil in H].
Defined.
