(* ===== verification/RealtimeDelivery.v ===== *)
(** * The realtime delivery hub: [crates/realtime-core/src/delivery.rs]

    One mutex guards [HubState]; the registry has its own.  A method takes the two
    locks one after the other and other threads run in between, so each critical
    section is a definition of its own ([..._locked] in the source, or named here
    after its method), and the methods compose them.

    A [usize] subtraction that would underflow gives a negative number here; that
    none is reachable is part of the invariant.  Wakers, notifications and the
    diagnostic counters of [DeliveryMetrics] are left out: no decision reads them; so is
    the registry's failure on a lock poisoned by a panic.
    Encoding an envelope is the business of [protocol.rs]: a message to admit comes
    with its encoded bytes or with the failure to encode it. *)
From S2P Require Import Prelude Machine Text AuthCore RealtimeRegistry.

Definition MAX_DELIVERY_MESSAGES_PER_CONNECTION : Z := 4096.
Definition MAX_DELIVERY_BYTES_PER_CONNECTION : Z := 64 * 1024 * 1024.
Definition MAX_DELIVERY_TOTAL_BYTES : Z := 64 * 1024 * 1024 * 1024.
Definition MAX_DELIVERY_DRAIN_TIMEOUT : Z := 300 * 1000000000.
Definition MIN_DELIVERY_DRAIN_TIMEOUT : Z := 10 * 1000000.
Definition MAX_ENVELOPE_BYTES : Z := 16 * 1024.

Inductive DeliveryQueueConfigError :=
| ZeroQueueCapacity | ExceedsQueueHardLimit | PerConnectionBytesExceedTotal | InvalidDrainTimeout.
Record DeliveryQueueConfig := {
  max_messages_per_connection : Z;
  max_bytes_per_connection : Z;
  max_total_bytes : Z;
  drain_timeout : Z;
}.
Definition DeliveryQueueConfig_new (messages bytes total timeout : Z)
    : result DeliveryQueueConfigError DeliveryQueueConfig :=
  _ ← guard_err ((messages =? 0) || (bytes =? 0) || (total =? 0)) ZeroQueueCapacity;
  _ ← guard_err ((MAX_DELIVERY_MESSAGES_PER_CONNECTION <? messages)
                 || (MAX_DELIVERY_BYTES_PER_CONNECTION <? bytes)
                 || (MAX_DELIVERY_TOTAL_BYTES <? total)) ExceedsQueueHardLimit;
  _ ← guard_err (total <? bytes) PerConnectionBytesExceedTotal;
  _ ← guard_err ((timeout <? MIN_DELIVERY_DRAIN_TIMEOUT) || (MAX_DELIVERY_DRAIN_TIMEOUT <? timeout))
        InvalidDrainTimeout;
  Ok {| max_messages_per_connection := messages; max_bytes_per_connection := bytes;
        max_total_bytes := total; drain_timeout := timeout |}.

Inductive DeliveryPriority := Normal | High.
#[global] Instance DeliveryPriority_eq : EqDecision DeliveryPriority.
Proof. solve_decision. Defined.
Inductive DeliveryTerminal := SlowConsumerTerminal | DrainingTerminal.
Inductive DeliveryError :=
| IntakeClosed | ConnectionNotActive | ReceiverAlreadyOpen | QueueConnectionCapacity
| ReservationTooLarge | SlowConsumer | QueueClosed | Encoding | DeliveryUnavailable | ConnectionRequired.

Record StoredMessage := {
  encoded : string;
  message_type : string;
  priority : DeliveryPriority;
  msg_generation : option (Z * Z);
  sequence : Z;
}.
Record QueueRecord := {
  high : list StoredMessage;
  normal : list StoredMessage;
  queued_bytes : Z;
  reserved_messages : Z;
  reserved_bytes : Z;
  reservation_epoch : Z;
  terminal : option DeliveryTerminal;
  receiver_open : bool;
  closed : bool;
}.
Definition QueueRecord_new : QueueRecord :=
  {| high := []; normal := []; queued_bytes := 0; reserved_messages := 0; reserved_bytes := 0;
     reservation_epoch := 0; terminal := None; receiver_open := true; closed := false |}.
Definition queued_messages (q : QueueRecord) : Z := Z.of_nat (length (high q) + length (normal q)).

Record HubState := {
  intake_open : bool;
  draining : bool;
  queues : gmap Z QueueRecord;
  hub_queued_messages : Z;
  hub_queued_bytes : Z;
  hub_reserved_messages : Z;
  hub_reserved_bytes : Z;
  high_priority_messages : Z;
  next_normal_sequence : Z;
}.
Definition HubState_default : HubState :=
  {| intake_open := true; draining := false; queues := ∅; hub_queued_messages := 0;
     hub_queued_bytes := 0; hub_reserved_messages := 0; hub_reserved_bytes := 0;
     high_priority_messages := 0; next_normal_sequence := 0 |}.

(** Field updates. *)
Definition set_messages (h n : list StoredMessage) (bytes : Z) (q : QueueRecord) : QueueRecord :=
  {| high := h; normal := n; queued_bytes := bytes; reserved_messages := reserved_messages q;
     reserved_bytes := reserved_bytes q; reservation_epoch := reservation_epoch q;
     terminal := terminal q; receiver_open := receiver_open q; closed := closed q |}.
Definition set_reserved (messages bytes epoch : Z) (q : QueueRecord) : QueueRecord :=
  {| high := high q; normal := normal q; queued_bytes := queued_bytes q; reserved_messages := messages;
     reserved_bytes := bytes; reservation_epoch := epoch; terminal := terminal q;
     receiver_open := receiver_open q; closed := closed q |}.
Definition set_lifecycle (t : option DeliveryTerminal) (receiver close : bool) (q : QueueRecord) : QueueRecord :=
  {| high := high q; normal := normal q; queued_bytes := queued_bytes q;
     reserved_messages := reserved_messages q; reserved_bytes := reserved_bytes q;
     reservation_epoch := reservation_epoch q; terminal := t; receiver_open := receiver; closed := close |}.
Definition with_queues (m : gmap Z QueueRecord) (s : HubState) : HubState :=
  {| intake_open := intake_open s; draining := draining s; queues := m;
     hub_queued_messages := hub_queued_messages s; hub_queued_bytes := hub_queued_bytes s;
     hub_reserved_messages := hub_reserved_messages s; hub_reserved_bytes := hub_reserved_bytes s;
     high_priority_messages := high_priority_messages s; next_normal_sequence := next_normal_sequence s |}.
(** Changes of the hub's totals. *)
Definition add_queued (messages bytes highs : Z) (s : HubState) : HubState :=
  {| intake_open := intake_open s; draining := draining s; queues := queues s;
     hub_queued_messages := hub_queued_messages s + messages; hub_queued_bytes := hub_queued_bytes s + bytes;
     hub_reserved_messages := hub_reserved_messages s; hub_reserved_bytes := hub_reserved_bytes s;
     high_priority_messages := high_priority_messages s + highs;
     next_normal_sequence := next_normal_sequence s |}.
Definition add_reserved (messages bytes : Z) (s : HubState) : HubState :=
  {| intake_open := intake_open s; draining := draining s; queues := queues s;
     hub_queued_messages := hub_queued_messages s; hub_queued_bytes := hub_queued_bytes s;
     hub_reserved_messages := hub_reserved_messages s + messages;
     hub_reserved_bytes := hub_reserved_bytes s + bytes;
     high_priority_messages := high_priority_messages s; next_normal_sequence := next_normal_sequence s |}.
Definition with_next_sequence (n : Z) (s : HubState) : HubState :=
  {| intake_open := intake_open s; draining := draining s; queues := queues s;
     hub_queued_messages := hub_queued_messages s; hub_queued_bytes := hub_queued_bytes s;
     hub_reserved_messages := hub_reserved_messages s; hub_reserved_bytes := hub_reserved_bytes s;
     high_priority_messages := high_priority_messages s; next_normal_sequence := n |}.
Definition with_intake (open drain : bool) (s : HubState) : HubState :=
  {| intake_open := open; draining := drain; queues := queues s;
     hub_queued_messages := hub_queued_messages s; hub_queued_bytes := hub_queued_bytes s;
     hub_reserved_messages := hub_reserved_messages s; hub_reserved_bytes := hub_reserved_bytes s;
     high_priority_messages := high_priority_messages s; next_normal_sequence := next_normal_sequence s |}.

(** ** Critical sections on one queue *)
Definition bytes_of (m : StoredMessage) : Z := len (encoded m).
Definition total_bytes (l : list StoredMessage) : Z := foldr (fun m acc => bytes_of m + acc) 0 l.

Definition release_reservation_locked (c bytes epoch : Z) (s : HubState) : HubState :=
  match queues s !! c with
  | Some q =>
      if bool_decide (reservation_epoch q = epoch) then
        let q' := set_reserved (reserved_messages q - 1) (reserved_bytes q - bytes) epoch q in
        let s' := add_reserved (-1) (- bytes) (with_queues (<[c := q']> (queues s)) s) in
        if closed q && negb (receiver_open q) && (reserved_messages q' =? 0)
        then with_queues (delete c (queues s')) s' else s'
      else s
  | None => s
  end.

Definition invalidate_reservations_locked (c : Z) (s : HubState) : HubState :=
  match queues s !! c with
  | Some q =>
      add_reserved (- reserved_messages q) (- reserved_bytes q)
        (with_queues (<[c := set_reserved 0 0 (wrapping_add u64_max (reservation_epoch q) 1) q]> (queues s)) s)
  | None => s
  end.

Definition clear_queue_locked (c : Z) (s : HubState) : HubState :=
  match queues s !! c with
  | Some q =>
      add_queued (- queued_messages q) (- queued_bytes q) (- Z.of_nat (length (high q)))
        (with_queues (<[c := set_messages [] [] 0 q]> (queues s)) s)
  | None => s
  end.

Definition is_generation (g : Z * Z) (m : StoredMessage) : bool := bool_decide (msg_generation m = Some g).
Definition purge_generation_locked (c : Z) (g : Z * Z) (s : HubState) : HubState :=
  match queues s !! c with
  | Some q =>
      let kept := filter (fun m => is_generation g m = false) (normal q) in
      let removed := filter (fun m => is_generation g m = true) (normal q) in
      add_queued (- Z.of_nat (length removed)) (- total_bytes removed) 0
        (with_queues (<[c := set_messages (high q) kept (queued_bytes q - total_bytes removed) q]> (queues s)) s)
  | None => s
  end.

(** The loop of [make_room_for_high_locked]: [queued_bytes] of the queue is only
    adjusted after the loop. *)
Definition lacks_room (cfg : DeliveryQueueConfig) (bytes : Z) (q : QueueRecord) : bool :=
  (max_messages_per_connection cfg <=? queued_messages q + reserved_messages q)
  || (max_bytes_per_connection cfg <? queued_bytes q + reserved_bytes q + bytes).
Fixpoint evict (cfg : DeliveryQueueConfig) (bytes : Z) (q : QueueRecord) (n : list StoredMessage)
    : list StoredMessage * list StoredMessage :=
  if lacks_room cfg bytes (set_messages (high q) n (queued_bytes q) q) then
    match n with
    | [] => ([], [])
    | m :: rest => let '(removed, kept) := evict cfg bytes q rest in (m :: removed, kept)
    end
  else ([], n).
Definition make_room_for_high_locked (cfg : DeliveryQueueConfig) (c bytes : Z) (s : HubState) : HubState :=
  match queues s !! c with
  | Some q =>
      let '(removed, kept) := evict cfg bytes q (normal q) in
      add_queued (- Z.of_nat (length removed)) (- total_bytes removed) 0
        (with_queues (<[c := set_messages (high q) kept (queued_bytes q - total_bytes removed) q]> (queues s)) s)
  | None => s
  end.

(** The connection whose oldest ordinary message is the oldest of all. *)
Definition older (x : Z * Z) (best : option (Z * Z)) : option (Z * Z) :=
  match best with
  | Some b => if x.2 <=? b.2 then Some x else Some b
  | None => Some x
  end.
Definition oldest_normal (m : gmap Z QueueRecord) : option Z :=
  fst <$> foldr older None
    (omap (fun cq : Z * QueueRecord => (fun msg => (cq.1, sequence msg)) <$> head (normal cq.2)) (map_to_list m)).
Fixpoint make_global_room_for_high_locked (fuel : nat) (cfg : DeliveryQueueConfig) (bytes : Z) (s : HubState)
    : option HubState :=
  if max_total_bytes cfg <? hub_queued_bytes s + hub_reserved_bytes s + bytes then
    match oldest_normal (queues s) with
    | None => Some s
    | Some c =>
        match queues s !! c with
        | None => Some s
        | Some q =>
            match normal q with
            | [] => Some s
            | m :: rest =>
                match fuel with
                | O => None
                | S fuel' =>
                    make_global_room_for_high_locked fuel' cfg bytes
                      (add_queued (-1) (- bytes_of m) 0
                        (with_queues (<[c := set_messages (high q) rest (queued_bytes q - bytes_of m) q]>
                          (queues s)) s))
                end
            end
        end
    end
  else Some s.
Definition normal_count (s : HubState) : nat :=
  map_fold (fun _ q acc => (length (normal q) + acc)%nat) 0%nat (queues s).

Definition mark_slow_locked (c : Z) (s : HubState) : bool * HubState :=
  let already_terminal := match queues s !! c with
                          | Some q => closed q || bool_decide (is_Some (terminal q))
                          | None => true
                          end in
  if already_terminal then (false, s)
  else
    let s1 := invalidate_reservations_locked c (clear_queue_locked c s) in
    (true, match queues s1 !! c with
           | Some q => with_queues (<[c := set_lifecycle (Some SlowConsumerTerminal) (receiver_open q) (closed q) q]>
                         (queues s1)) s1
           | None => s1
           end).

(** ** Critical sections of the methods *)

(** [open_connection], second half. *)
Definition open_locked (max_queues c : Z) : ST HubState DeliveryError unit :=
  s ← st_get;
  if negb (intake_open s) then st_throw IntakeClosed
  else if bool_decide (is_Some (queues s !! c)) then st_throw ReceiverAlreadyOpen
  else if max_queues <=? Z.of_nat (size (queues s)) then st_throw QueueConnectionCapacity
  else st_put (with_queues (<[c := QueueRecord_new]> (queues s)) s).

Definition begin_drain (s : HubState) : HubState :=
  if draining s then s else with_intake false true s.

(** [reserve_addressed] under the hub lock. *)
Inductive ReserveOutcome :=
| Granted (epoch : Z)
| Rejected (e : DeliveryError)
| RejectedFull (became_slow : bool).
Definition is_finished (q : QueueRecord) : bool := closed q || bool_decide (is_Some (terminal q)).
Definition make_room (cfg : DeliveryQueueConfig) (c bytes : Z) (p : DeliveryPriority) (s : HubState)
    : option HubState :=
  match p with
  | High => let s' := make_room_for_high_locked cfg c bytes s in
            make_global_room_for_high_locked (normal_count s') cfg bytes s'
  | Normal => Some s
  end.
Definition reserve_locked (cfg : DeliveryQueueConfig) (c : Z) (p : DeliveryPriority) (bytes : Z)
    (purge_generation : option (Z * Z)) (s : HubState) : option (ReserveOutcome * HubState) :=
  if negb (intake_open s) then Some (Rejected IntakeClosed, s) else
  match queues s !! c with
  | None => Some (Rejected ConnectionNotActive, s)
  | Some q =>
      if is_finished q then Some (Rejected QueueClosed, s) else
      let s1 := match purge_generation with Some g => purge_generation_locked c g s | None => s end in
      s2 ← make_room cfg c bytes p s1;
      let exceeds_connection := match queues s2 !! c with
                                | Some q2 => lacks_room cfg bytes q2
                                | None => true
                                end in
      let exceeds_total := max_total_bytes cfg <? hub_queued_bytes s2 + hub_reserved_bytes s2 + bytes in
      if exceeds_connection || exceeds_total then
        let '(slow, s3) := mark_slow_locked c s2 in Some (RejectedFull slow, s3)
      else match queues s2 !! c with
           | Some q2 =>
               Some (Granted (reservation_epoch q2),
                 add_reserved 1 bytes
                   (with_queues (<[c := set_reserved (reserved_messages q2 + 1) (reserved_bytes q2 + bytes)
                                          (reservation_epoch q2) q2]> (queues s2)) s2))
           | None => Some (Rejected QueueClosed, s2)
           end
  end.

Record DeliveryReservation := {
  res_connection_id : Z;
  res_priority : DeliveryPriority;
  res_bytes : Z;
  res_epoch : Z;
}.
(** [release]; a reservation is dropped once, so [active] is ownership of it. *)
Definition drop_reservation (res : DeliveryReservation) (s : HubState) : HubState :=
  release_reservation_locked (res_connection_id res) (res_bytes res) (res_epoch res) s.

Definition set_sequence (n : Z) (m : StoredMessage) : StoredMessage :=
  {| encoded := encoded m; message_type := message_type m; priority := priority m;
     msg_generation := msg_generation m; sequence := n |}.
Definition push_message (c : Z) (m : StoredMessage) (s : HubState) : result DeliveryError unit * HubState :=
  match queues s !! c with
  | None => (Err QueueClosed, s)
  | Some q =>
      let q' := match priority m with
                | Normal => set_messages (high q) (normal q ++ [m]) (queued_bytes q + bytes_of m) q
                | High => set_messages (high q ++ [m]) (normal q) (queued_bytes q + bytes_of m) q
                end in
      (Ok tt, add_queued 1 (bytes_of m) (match priority m with High => 1 | Normal => 0 end)
                (with_queues (<[c := q']> (queues s)) s))
  end.
(** [admit_stored] under the hub lock; the flag says whether the reservation is
    still to be released by its drop. *)
Definition admit_locked (res : DeliveryReservation) (stored : StoredMessage) (s : HubState)
    : (result DeliveryError unit * bool) * HubState :=
  let c := res_connection_id res in
  match queues s !! c with
  | None => (Err QueueClosed, true, s)
  | Some q =>
      if is_finished q then (Err QueueClosed, true, s) else
      let s1 := match priority stored, msg_generation stored with
                | High, Some g => purge_generation_locked c g s
                | _, _ => s
                end in
      match priority stored with
      | Normal =>
          let stored := set_sequence (next_normal_sequence s1) stored in
          match checked_add u64_max (next_normal_sequence s1) 1 with
          | None => (Err DeliveryUnavailable, true, s1)
          | Some n =>
              let '(r, s2) := push_message c stored (drop_reservation res (with_next_sequence n s1)) in
              (r, false, s2)
          end
      | High =>
          let '(r, s2) := push_message c stored (drop_reservation res s1) in (r, false, s2)
      end
  end.

(** [poll_recv] under the hub lock. *)
Inductive PollOutcome :=
| QueueGone
| TerminalItem (t : DeliveryTerminal)
| Popped (m : StoredMessage)
| QueueFinished
| NothingYet.
Definition pop_message (q : QueueRecord) : option (StoredMessage * QueueRecord) :=
  match high q, normal q with
  | m :: h, n => Some (m, set_messages h n (queued_bytes q - bytes_of m) q)
  | [], m :: n => Some (m, set_messages [] n (queued_bytes q - bytes_of m) q)
  | [], [] => None
  end.
Definition poll_locked (c : Z) (s : HubState) : PollOutcome * HubState :=
  match queues s !! c with
  | None => (QueueGone, s)
  | Some q =>
      match terminal q with
      | Some t => (TerminalItem t,
          with_queues (<[c := set_lifecycle None (receiver_open q) true q]> (queues s)) s)
      | None =>
          match pop_message q with
          | Some (m, q') =>
              (Popped m, add_queued (-1) (- bytes_of m) (match priority m with High => -1 | Normal => 0 end)
                           (with_queues (<[c := q']> (queues s)) s))
          | None => if closed q then (QueueFinished, s) else (NothingYet, s)
          end
      end
  end.

(** [close_connection] under the hub lock. *)
Definition close_connection_locked (c : Z) (s : HubState) : HubState :=
  match queues s !! c with
  | None => s
  | Some _ =>
      let s1 := invalidate_reservations_locked c (clear_queue_locked c s) in
      with_queues (delete c (queues s1)) s1
  end.
(** [ConnectionDeliveryReceiver::close] under its own lock. *)
Definition receiver_close_locked (c : Z) (s : HubState) : HubState :=
  match queues s !! c with
  | None => s
  | Some q =>
      let s' := with_queues (<[c := set_lifecycle (terminal q) false (closed q) q]> (queues s)) s in
      if closed q && (reserved_messages q =? 0) then with_queues (delete c (queues s')) s' else s'
  end.

(** [finish_drain] under the hub lock: what was dropped and whom to close. *)
Definition signal_drain (q : QueueRecord) : QueueRecord :=
  if receiver_open q && negb (closed q)
  then set_lifecycle (Some DrainingTerminal) (receiver_open q) (closed q) q else q.
Definition finish_drain_locked (deadline_expired : bool) (s : HubState) : (Z * list Z) * HubState :=
  let dropped := if deadline_expired then hub_queued_messages s else 0 in
  let s1 := if deadline_expired
            then foldr (fun c s => invalidate_reservations_locked c (clear_queue_locked c s)) s
                   (map_to_list (queues s)).*1
            else s in
  let connections := (filter (fun cq : Z * QueueRecord =>
    (receiver_open cq.2 && negb (closed cq.2)) = true) (map_to_list (queues s1))).*1 in
  (dropped, connections, with_queues (signal_drain <$> queues s1) s1).
Definition drained (s : HubState) : bool := (hub_queued_messages s =? 0) && (hub_reserved_messages s =? 0).

(** ** The methods, composed as the source composes them *)
Record world := { registry : RegistryState; hub : HubState }.

Definition connection_is_active (r : RegistryState) (c : Z) : bool :=
  match connection r c with
  | Some snap => bool_decide (csnap_state snap = Active)
  | None => false
  end.
(** [let _ = registry.begin_close(c); let _ = registry.close(c);] *)
Definition close_registry (c : Z) (r : RegistryState) : RegistryState := (close c (begin_close c r).2).2.

Definition open_connection (rcfg : RegistryConfig) (c : Z) (w : world) : result DeliveryError unit * world :=
  if connection_is_active (registry w) c then
    let '(r, h) := open_locked (max_connections rcfg) c (hub w) in
    (r, {| registry := registry w; hub := h |})
  else (Err ConnectionNotActive, w).

Definition reserve_addressed (cfg : DeliveryQueueConfig) (c : Z) (p : DeliveryPriority) (bytes : Z)
    (purge_generation : option (Z * Z)) (w : world) : option (result DeliveryError DeliveryReservation * world) :=
  if (bytes =? 0) || (MAX_ENVELOPE_BYTES <? bytes) || (max_bytes_per_connection cfg <? bytes)
  then Some (Err ReservationTooLarge, w)
  else if negb (connection_is_active (registry w) c) then Some (Err ConnectionNotActive, w)
  else
    '(o, h) ← reserve_locked cfg c p bytes purge_generation (hub w);
    Some match o with
    | Granted epoch =>
        (Ok {| res_connection_id := c; res_priority := p; res_bytes := bytes; res_epoch := epoch |},
         {| registry := registry w; hub := h |})
    | Rejected e => (Err e, {| registry := registry w; hub := h |})
    | RejectedFull slow =>
        (Err SlowConsumer,
         {| registry := if slow then close_registry c (registry w) else registry w; hub := h |})
    end.

(** Is the message still wanted?  Data needs an active subscription, a revocation
    only that its generation has not been replaced. *)
Definition is_current (r : RegistryState) (m : StoredMessage) : bool :=
  match msg_generation m with
  | Some (i, g) => match priority m with
                   | Normal => is_subscription_current_active r i g
                   | High => is_subscription_current_generation r i g
                   end
  | None => true
  end.

(** [admit_stored] and the drop of the consumed reservation. *)
Definition admit_stored (res : DeliveryReservation) (stored : StoredMessage) (w : world)
    : result DeliveryError unit * world :=
  if res_bytes res <? bytes_of stored then
    (Err ReservationTooLarge, {| registry := registry w; hub := drop_reservation res (hub w) |})
  else if negb (is_current (registry w) stored) then
    (Ok tt, {| registry := registry w; hub := drop_reservation res (hub w) |})
  else
    let '(r, active, h) := admit_locked res stored (hub w) in
    (r, {| registry := registry w; hub := if active then drop_reservation res h else h |}).

(** [poll_recv]: skips what is no longer wanted. *)
Inductive PollResult := ReadyNone | ReadyTerminal (t : DeliveryTerminal) | ReadyMessage (m : StoredMessage) | Pending.
Fixpoint poll_recv (fuel : nat) (c : Z) (w : world) : option (PollResult * world) :=
  match fuel with
  | O => None
  | S fuel' =>
      let '(o, h) := poll_locked c (hub w) in
      let w' := {| registry := registry w; hub := h |} in
      match o with
      | QueueGone | QueueFinished => Some (ReadyNone, w')
      | TerminalItem t => Some (ReadyTerminal t, w')
      | NothingYet => Some (Pending, w')
      | Popped m => if is_current (registry w) m then Some (ReadyMessage m, w') else poll_recv fuel' c w'
      end
  end.

Definition close_connection (c : Z) (w : world) : world :=
  match queues (hub w) !! c with
  | None => {| registry := (close c (registry w)).2; hub := hub w |}
  | Some _ => {| registry := close_registry c (registry w); hub := close_connection_locked c (hub w) |}
  end.
Definition receiver_close (c : Z) (is_open : bool) (w : world) : world :=
  let w1 := if is_open then close_connection c w else w in
  {| registry := registry w1; hub := receiver_close_locked c (hub w1) |}.

Definition finish_drain (deadline_expired : bool) (w : world) : Z * world :=
  let '(dropped, conns, h) := finish_drain_locked deadline_expired (hub w) in
  (dropped, {| registry := foldr close_registry (registry w) conns; hub := h |}).
Definition force_close (w : world) : Z * world :=
  finish_drain true {| registry := registry w; hub := begin_drain (hub w) |}.
