(* ===== verification/RealtimeDeliveryFacts.v ===== *)
(** * The delivery hub under all interleavings

    The hub, the reservations its clients hold, and one step per critical section.
    Registry calls do not touch the hub and may happen at any time, so they need no
    step.  [opened] remembers the connections that ever had a queue, and [allowed]
    says which connections [open_connection] is called for, given those.  The code
    only refuses a connection that has a queue at the moment; the accounting also
    needs [opens_once], that no connection is opened a second time, because a
    reservation names its queue by the connection and an epoch that starts again at
    zero ([reopening_underflows] of the theorems). *)
From S2P Require Import Prelude Machine Text AuthCore RealtimeRegistry RealtimeDelivery.

Record sys := {
  s_hub : HubState;
  live : list DeliveryReservation;
  opened : gset Z;
  seen_drained : bool;
}.
Definition sys_start : sys :=
  {| s_hub := HubState_default; live := []; opened := ∅; seen_drained := false |}.
Definition with_hub (h : HubState) (Y : sys) : sys :=
  {| s_hub := h; live := live Y; opened := opened Y; seen_drained := seen_drained Y |}.

Section steps.
Context (rcfg : RegistryConfig) (cfg : DeliveryQueueConfig) (allowed : gset Z -> Z -> Prop).

Definition opens_once : Prop := forall o c, allowed o c -> c ∉ o.

(** A closed queue stays closed, and a receiver closes itself only after it has seen
    its queue gone or closed, or has closed the connection. *)
Inductive step : sys -> sys -> Prop :=
| step_open h l o d c h' :
    allowed o c -> open_locked (max_connections rcfg) c h = (Ok tt, h') ->
    step {| s_hub := h; live := l; opened := o; seen_drained := d |}
         {| s_hub := h'; live := l; opened := {[c]} ∪ o; seen_drained := d |}
| step_begin_drain Y : step Y (with_hub (begin_drain (s_hub Y)) Y)
| step_reserve h l o d c p bytes g out h' :
    0 < bytes <= max_bytes_per_connection cfg -> reserve_locked cfg c p bytes g h = Some (out, h') ->
    step {| s_hub := h; live := l; opened := o; seen_drained := d |}
         {| s_hub := h';
            live := match out with
                    | Granted e => {| res_connection_id := c; res_priority := p; res_bytes := bytes;
                                      res_epoch := e |} :: l
                    | _ => l
                    end;
            opened := o; seen_drained := d |}
| step_admit h l1 res l2 o d stored r active h' :
    bytes_of stored <= res_bytes res -> admit_locked res stored h = (r, active, h') ->
    step {| s_hub := h; live := l1 ++ res :: l2; opened := o; seen_drained := d |}
         {| s_hub := h'; live := if active then l1 ++ res :: l2 else l1 ++ l2; opened := o; seen_drained := d |}
| step_drop h l1 res l2 o d :
    step {| s_hub := h; live := l1 ++ res :: l2; opened := o; seen_drained := d |}
         {| s_hub := drop_reservation res h; live := l1 ++ l2; opened := o; seen_drained := d |}
| step_poll Y c : step Y (with_hub (poll_locked c (s_hub Y)).2 Y)
| step_close Y c : step Y (with_hub (close_connection_locked c (s_hub Y)) Y)
| step_receiver_close Y c :
    (forall q, queues (s_hub Y) !! c = Some q -> closed q = true) ->
    step Y (with_hub (receiver_close_locked c (s_hub Y)) Y)
| step_see_drained h l o d :
    draining h = true -> drained h = true ->
    step {| s_hub := h; live := l; opened := o; seen_drained := d |}
         {| s_hub := h; live := l; opened := o; seen_drained := true |}
| step_finish_drain Y expired :
    draining (s_hub Y) = true -> expired = true \/ seen_drained Y = true ->
    step Y (with_hub (finish_drain_locked expired (s_hub Y)).2 Y).

Inductive reachable : nat -> sys -> Prop :=
| reachable_start : reachable 0 sys_start
| reachable_step n Y Y' : reachable n Y -> step Y Y' -> reachable (S n) Y'.

End steps.

(** ** The invariant *)
Section invariant.
Context (cfg : DeliveryQueueConfig).

Definition mine (l : list DeliveryReservation) (c e : Z) : list DeliveryReservation :=
  filter (fun r => res_connection_id r = c /\ res_epoch r = e) l.
Definition sum_bytes (l : list DeliveryReservation) : Z := foldr (fun r acc => res_bytes r + acc) 0 l.
Definition high_count (q : QueueRecord) : Z := Z.of_nat (length (high q)).

(** A reservation is only ever invalidated together with its queue being finished. *)
Definition current_for (r : DeliveryReservation) (q : QueueRecord) : Prop :=
  res_epoch r <= reservation_epoch q /\ (is_finished q = false -> res_epoch r = reservation_epoch q).

Record queue_wf (n : Z) (next : Z) (l : list DeliveryReservation) (c : Z) (q : QueueRecord) : Prop := {
  qw_bytes : queued_bytes q = total_bytes (high q) + total_bytes (normal q);
  qw_res_messages : reserved_messages q = Z.of_nat (length (mine l c (reservation_epoch q)));
  qw_res_bytes : reserved_bytes q = sum_bytes (mine l c (reservation_epoch q));
  qw_messages : queued_messages q + reserved_messages q <= max_messages_per_connection cfg;
  qw_room : queued_bytes q + reserved_bytes q <= max_bytes_per_connection cfg;
  qw_high : Forall (fun m => priority m = High) (high q);
  qw_normal : Forall (fun m => priority m = Normal /\ 0 <= sequence m < next) (normal q);
  qw_sorted : StronglySorted Z.lt (map sequence (normal q));
  qw_finished : is_finished q = true -> high q = [] /\ normal q = [] /\ mine l c (reservation_epoch q) = [];
  qw_receiver : receiver_open q = false -> closed q = true;
  qw_epoch : 0 <= reservation_epoch q <= n;
}.

Record hub_totals (h : HubState) : Prop := {
  ht_messages : hub_queued_messages h = map_sum queued_messages (queues h);
  ht_bytes : hub_queued_bytes h = map_sum queued_bytes (queues h);
  ht_res_messages : hub_reserved_messages h = map_sum reserved_messages (queues h);
  ht_res_bytes : hub_reserved_bytes h = map_sum reserved_bytes (queues h);
  ht_high : high_priority_messages h = map_sum high_count (queues h);
}.

Record hub_inv (n : Z) (Y : sys) : Prop := {
  hi_queue c q : queues (s_hub Y) !! c = Some q -> queue_wf n (next_normal_sequence (s_hub Y)) (live Y) c q;
  hi_totals : hub_totals (s_hub Y);
  hi_bound : hub_queued_bytes (s_hub Y) + hub_reserved_bytes (s_hub Y) <= max_total_bytes cfg;
  hi_live r : r ∈ live Y -> 0 < res_bytes r /\ res_connection_id r ∈ opened Y
    /\ forall q, queues (s_hub Y) !! res_connection_id r = Some q -> current_for r q;
  hi_opened c q : queues (s_hub Y) !! c = Some q -> c ∈ opened Y;
  hi_sequences c c' q q' m m' : queues (s_hub Y) !! c = Some q -> queues (s_hub Y) !! c' = Some q' ->
    m ∈ normal q -> m' ∈ normal q' -> sequence m = sequence m' -> c = c';
  hi_next : 0 <= next_normal_sequence (s_hub Y) <= u64_max;
  hi_draining : draining (s_hub Y) = true -> intake_open (s_hub Y) = false;
  hi_seen : seen_drained Y = true -> draining (s_hub Y) = true
    /\ hub_queued_messages (s_hub Y) = 0 /\ hub_reserved_messages (s_hub Y) = 0;
}.

(** ** Basic facts *)
Lemma bytes_of_nonneg m : 0 <= bytes_of m.
Proof. apply len_nonneg. Qed.
Lemma total_bytes_nonneg l : 0 <= total_bytes l.
Proof. induction l as [|m l IH]; simpl; [lia|]. pose proof (bytes_of_nonneg m). lia. Qed.
Lemma total_bytes_app l k : total_bytes (l ++ k) = total_bytes l + total_bytes k.
Proof. induction l as [|m l IH]; simpl; [done|]. lia. Qed.
Lemma total_bytes_filter (P : StoredMessage -> bool) l :
  total_bytes (filter (fun m => P m = true) l) + total_bytes (filter (fun m => P m = false) l) = total_bytes l
  /\ (length (filter (fun m => P m = true) l) + length (filter (fun m => P m = false) l) = length l)%nat.
Proof.
  induction l as [|m l IH]; [done|]. rewrite !filter_cons. destruct (P m) eqn:E.
  - rewrite decide_True, decide_False by congruence. simpl. lia.
  - rewrite decide_False, decide_True by congruence. simpl. lia.
Qed.
Lemma queued_messages_nonneg q : 0 <= queued_messages q.
Proof. unfold queued_messages. lia. Qed.
Lemma sum_bytes_nonneg l : (forall r, r ∈ l -> 0 < res_bytes r) -> 0 <= sum_bytes l.
Proof.
  induction l as [|r l IH]; simpl; intros H; [lia|]. specialize (H r) as Hr.
  assert (0 <= sum_bytes l) by (apply IH; intros; apply H; set_solver). specialize (Hr ltac:(set_solver)). lia.
Qed.

Lemma queue_wf_mono n n' next next' l l' c q :
  queue_wf n next l c q -> n <= n' -> next <= next' -> (forall e, mine l' c e = mine l c e) ->
  queue_wf n' next' l' c q.
Proof.
  intros [] Hn Hx Hm. split; rewrite ?Hm; try done; [|lia].
  eapply Forall_impl; [exact qw_normal0|]. intros m [? ?]. split; [done | lia].
Qed.

(** ** Changing one queue

    What has to be checked when a critical section replaces the record [q] of one
    connection by [q'] and the reservations by [l']. *)
Record local_update (n n' : Z) (Y : sys) (h' : HubState) (l' : list DeliveryReservation)
    (c : Z) (q q' : QueueRecord) : Prop := {
  lu_steps : n <= n';
  lu_queues : queues h' = <[c := q']> (queues (s_hub Y));
  lu_messages : hub_queued_messages h' = hub_queued_messages (s_hub Y) - queued_messages q + queued_messages q';
  lu_bytes : hub_queued_bytes h' = hub_queued_bytes (s_hub Y) - queued_bytes q + queued_bytes q';
  lu_res_messages :
    hub_reserved_messages h' = hub_reserved_messages (s_hub Y) - reserved_messages q + reserved_messages q';
  lu_res_bytes : hub_reserved_bytes h' = hub_reserved_bytes (s_hub Y) - reserved_bytes q + reserved_bytes q';
  lu_high : high_priority_messages h' = high_priority_messages (s_hub Y) - high_count q + high_count q';
  lu_bound : hub_queued_bytes h' + hub_reserved_bytes h' <= max_total_bytes cfg;
  lu_next : next_normal_sequence (s_hub Y) <= next_normal_sequence h' <= u64_max;
  lu_intake : intake_open h' = intake_open (s_hub Y);
  lu_draining : draining h' = draining (s_hub Y);
  lu_wf : queue_wf n' (next_normal_sequence h') l' c q';
  lu_others c2 e : c2 <> c -> mine l' c2 e = mine (live Y) c2 e;
  lu_live r : r ∈ l' -> 0 < res_bytes r /\ res_connection_id r ∈ opened Y
    /\ (res_connection_id r = c -> current_for r q')
    /\ (res_connection_id r <> c -> r ∈ live Y);
  lu_normal m : m ∈ normal q' -> m ∈ normal q \/ next_normal_sequence (s_hub Y) <= sequence m;
  lu_seen : seen_drained Y = true -> hub_queued_messages h' = 0 /\ hub_reserved_messages h' = 0;
}.

Lemma hub_update n n' Y h' l' c q q' :
  hub_inv n Y -> queues (s_hub Y) !! c = Some q -> local_update n n' Y h' l' c q q' ->
  hub_inv n' {| s_hub := h'; live := l'; opened := opened Y; seen_drained := seen_drained Y |}.
Proof.
  intros [] Hq []. split; cbn [s_hub live opened seen_drained].
  - intros c2 q2. rewrite lu_queues0. intros [[<- <-]|[Hne H2]]%lookup_insert_Some; [done|].
    eapply queue_wf_mono; [by apply hi_queue0 | lia | lia |]. intros e. by apply lu_others0.
  - destruct hi_totals0. split; rewrite lu_queues0, (map_sum_insert_Some _ _ _ _ _ Hq); lia.
  - done.
  - intros r Hr. destruct (lu_live0 r Hr) as (H1 & H2 & H3 & H4). split_and!; try done.
    intros q2. rewrite lu_queues0. intros [[Hc <-]|[Hne H5]]%lookup_insert_Some; [by apply H3|].
    apply hi_live0 in H4 as (_ & _ & H6); [|done]. by apply H6.
  - intros c2 q2. rewrite lu_queues0. intros [[<- <-]|[Hne H2]]%lookup_insert_Some; by eapply hi_opened0.
  - intros c1 c2 q1 q2 m1 m2. rewrite lu_queues0.
    assert (Hlt : forall c0 q0 m0, queues (s_hub Y) !! c0 = Some q0 -> m0 ∈ normal q0 ->
      sequence m0 < next_normal_sequence (s_hub Y)).
    { intros c0 q0 m0 H0 Hm0. destruct (hi_queue0 _ _ H0). rewrite Forall_forall in qw_normal0.
      apply qw_normal0 in Hm0 as [_ ?]. lia. }
    intros [[<- <-]|[Hne1 H1]]%lookup_insert_Some [[<- <-]|[Hne2 H2]]%lookup_insert_Some Hm1 Hm2 He; try done.
    + destruct (lu_normal0 _ Hm1) as [Hm|Hf]; [by eapply hi_sequences0|]. specialize (Hlt _ _ _ H2 Hm2). lia.
    + destruct (lu_normal0 _ Hm2) as [Hm|Hf]; [by eapply hi_sequences0|]. specialize (Hlt _ _ _ H1 Hm1). lia.
    + by eapply hi_sequences0.
  - lia.
  - rewrite lu_draining0, lu_intake0. done.
  - intros Hs. rewrite lu_draining0. split; [by apply hi_seen0 | by apply lu_seen0].
Qed.

(** A queue that holds nothing is removed. *)
Lemma inv_remove n Y c q :
  hub_inv n Y -> queues (s_hub Y) !! c = Some q -> high q = [] -> normal q = [] ->
  mine (live Y) c (reservation_epoch q) = [] ->
  hub_inv n (with_hub (with_queues (delete c (queues (s_hub Y))) (s_hub Y)) Y).
Proof.
  intros [] Hq Hh Hn Hm. destruct (hi_queue0 _ _ Hq). rewrite Hm in *. simpl in *. rewrite Hh, Hn in *. simpl in *.
  split; cbn [s_hub live opened seen_drained with_hub with_queues queues]; try done.
  - intros c2 q2 [_ H2]%lookup_delete_Some. by apply hi_queue0.
  - destruct hi_totals0. split; cbn [with_queues queues hub_queued_messages hub_queued_bytes
      hub_reserved_messages hub_reserved_bytes high_priority_messages];
      rewrite (map_sum_delete _ _ _ _ Hq); unfold queued_messages, high_count in *; rewrite ?Hh, ?Hn; simpl; lia.
  - intros r Hr. destruct (hi_live0 _ Hr) as (? & ? & H3). split_and!; try done.
    intros q2 [_ H2]%lookup_delete_Some. by apply H3.
  - intros c2 q2 [_ H2]%lookup_delete_Some. by eapply hi_opened0.
  - intros c1 c2 q1 q2 m1 m2 [_ H1]%lookup_delete_Some [_ H2]%lookup_delete_Some. by eapply hi_sequences0.
Qed.

(** ** Dropping queued messages *)
Lemma total_bytes_sublist l k : l `sublist_of` k -> total_bytes l <= total_bytes k.
Proof. induction 1; simpl; [lia | lia |]. pose proof (bytes_of_nonneg x). lia. Qed.
Lemma sorted_sublist (f : StoredMessage -> Z) l k :
  l `sublist_of` k -> StronglySorted Z.lt (map f k) -> StronglySorted Z.lt (map f l).
Proof.
  induction 1 as [|x l k Hs IH|x l k Hs IH]; simpl; [done| |].
  - inversion 1 as [|? ? Hk Hall]; subst. constructor; [by apply IH|]. apply Forall_map. rewrite Forall_map in Hall.
    apply Forall_forall. intros y Hy. rewrite Forall_forall in Hall. apply Hall. by eapply elem_of_sublist.
  - inversion 1; subst. by apply IH.
Qed.
Lemma Forall_sublist (P : StoredMessage -> Prop) l k : l `sublist_of` k -> Forall P k -> Forall P l.
Proof. intros Hs. rewrite !Forall_forall. intros H x Hx. apply H. by eapply elem_of_sublist. Qed.

Lemma set_messages_finished h n b q : is_finished (set_messages h n b q) = is_finished q.
Proof. done. Qed.

Lemma queue_wf_shrink n next l c q h' n' b :
  queue_wf n next l c q -> h' `sublist_of` high q -> n' `sublist_of` normal q ->
  b = total_bytes h' + total_bytes n' -> queue_wf n next l c (set_messages h' n' b q).
Proof.
  intros [] Hh Hn Hb. pose proof (sublist_length _ _ Hh). pose proof (sublist_length _ _ Hn).
  pose proof (total_bytes_sublist _ _ Hh). pose proof (total_bytes_sublist _ _ Hn).
  unfold queued_messages in *.
  split; unfold queued_messages; cbn [high normal queued_bytes reserved_messages reserved_bytes reservation_epoch
      terminal receiver_open closed set_messages]; try done; try lia.
  - by eapply Forall_sublist.
  - by eapply Forall_sublist.
  - by eapply sorted_sublist.
  - rewrite set_messages_finished. intros Hf. destruct (qw_finished0 Hf) as (E1 & E2 & E3).
    rewrite E1 in Hh. rewrite E2 in Hn. apply sublist_nil_r in Hh, Hn. done.
Qed.

Lemma inv_shrink n Y c q h' n' dm db dh :
  hub_inv n Y -> queues (s_hub Y) !! c = Some q -> h' `sublist_of` high q -> n' `sublist_of` normal q ->
  dm = Z.of_nat (length h' + length n') - queued_messages q ->
  db = total_bytes h' + total_bytes n' - queued_bytes q ->
  dh = Z.of_nat (length h') - high_count q ->
  hub_inv n (with_hub (add_queued dm db dh (with_queues
    (<[c := set_messages h' n' (queued_bytes q + db) q]> (queues (s_hub Y))) (s_hub Y))) Y).
Proof.
  intros HI Hq Hh Hn -> -> ->. pose proof HI as HI0. destruct HI0.
  destruct (hi_queue0 _ _ Hq).
  pose proof (total_bytes_sublist _ _ Hh). pose proof (total_bytes_sublist _ _ Hn).
  pose proof (sublist_length _ _ Hh). pose proof (sublist_length _ _ Hn).
  apply (hub_update n n Y _ (live Y) c q (set_messages h' n' (total_bytes h' + total_bytes n') q)); [exact HI | exact Hq |].
  replace (queued_bytes q + (total_bytes h' + total_bytes n' - queued_bytes q)) with (total_bytes h' + total_bytes n') by lia.
  unfold high_count in *.
  split; cbn [queues add_queued with_queues hub_queued_messages hub_queued_bytes hub_reserved_messages
    hub_reserved_bytes high_priority_messages next_normal_sequence intake_open draining set_messages
    queued_bytes reserved_messages reserved_bytes normal high reservation_epoch]; try done; try lia.
  - unfold queued_messages. simpl. lia.
  - unfold high_count. simpl. lia.
  - apply queue_wf_shrink; [by apply hi_queue0 | done | done | lia].
  - intros r Hr. destruct (hi_live0 _ Hr) as (? & ? & H5). split_and!; try done. intros <-. exact (H5 _ Hq).
  - intros m Hm. left. by eapply elem_of_sublist.
  - intros Hs. destruct (hi_seen0 Hs) as (_ & Hz & ?).
    assert (queued_messages q <= hub_queued_messages (s_hub Y)).
    { destruct hi_totals0. rewrite ht_messages0. apply (map_sum_ge _ _ c); [|done].
      intros. apply queued_messages_nonneg. }
    unfold queued_messages in *. lia.
Qed.

Lemma purge_inv n Y c g : hub_inv n Y -> hub_inv n (with_hub (purge_generation_locked c g (s_hub Y)) Y).
Proof.
  intros HI. unfold purge_generation_locked. destruct (queues (s_hub Y) !! c) as [q|] eqn:Hq; [|by destruct Y].
  destruct (total_bytes_filter (is_generation g) (normal q)) as [Hb Hl].
  pose proof (qw_bytes _ _ _ _ _ (hi_queue _ _ HI _ _ Hq)) as Hqb.
  apply (inv_shrink n Y c q (high q) (filter (fun m => is_generation g m = false) (normal q)));
    [done | done | done | apply sublist_filter | unfold queued_messages; lia | lia | unfold high_count; lia].
Qed.

Lemma evict_split bytes q l removed kept : evict cfg bytes q l = (removed, kept) -> l = removed ++ kept.
Proof.
  revert removed kept. induction l as [|m l IH]; intros removed kept; simpl.
  - destruct (lacks_room _ _ _); by intros [= <- <-].
  - destruct (lacks_room _ _ _); [|by intros [= <- <-]].
    destruct (evict cfg bytes q l) as [rm kp]. intros [= <- <-]. simpl. by rewrite (IH rm kp).
Qed.

Lemma make_room_inv n Y c bytes :
  hub_inv n Y -> hub_inv n (with_hub (make_room_for_high_locked cfg c bytes (s_hub Y)) Y).
Proof.
  intros HI. unfold make_room_for_high_locked. destruct (queues (s_hub Y) !! c) as [q|] eqn:Hq; [|by destruct Y].
  destruct (evict cfg bytes q (normal q)) as [removed kept] eqn:E. apply evict_split in E.
  pose proof (qw_bytes _ _ _ _ _ (hi_queue _ _ HI _ _ Hq)) as Hqb.
  rewrite E, total_bytes_app in Hqb.
  apply (inv_shrink n Y c q (high q) kept); [done | done | done | | | lia | unfold high_count; lia].
  - rewrite E. by apply sublist_inserts_l.
  - unfold queued_messages. rewrite E, length_app. lia.
Qed.

Lemma clear_inv n Y c : hub_inv n Y -> hub_inv n (with_hub (clear_queue_locked c (s_hub Y)) Y).
Proof.
  intros HI. unfold clear_queue_locked. destruct (queues (s_hub Y) !! c) as [q|] eqn:Hq; [|by destruct Y].
  replace (set_messages [] [] 0 q) with (set_messages [] [] (queued_bytes q + (0 - queued_bytes q)) q) by (f_equal; lia).
  apply (inv_shrink n Y c q [] []); [done | done | apply sublist_nil_l | apply sublist_nil_l | simpl; lia | simpl; lia |].
  unfold high_count. simpl. lia.
Qed.

(** ** Making room in the whole hub *)
Definition normal_len (q : QueueRecord) : Z := Z.of_nat (length (normal q)).
Lemma normal_count_sum h : Z.of_nat (normal_count h) = map_sum normal_len (queues h).
Proof.
  unfold normal_count, map_sum. rewrite !map_fold_foldr. unfold normal_len.
  induction (map_to_list (queues h)) as [|[c q] l IH]; simpl; [done|]. lia.
Qed.

Lemma older_spec x best : exists b, older x best = Some b /\ b.2 <= x.2
  /\ (b = x \/ best = Some b) /\ forall b', best = Some b' -> b.2 <= b'.2.
Proof.
  destruct best as [b|]; simpl; [|exists x; split_and!; auto; [lia|done]].
  destruct (Z.leb_spec x.2 b.2).
  - exists x. split_and!; auto; [lia|]. by intros ? [= <-].
  - exists b. split_and!; auto; [lia|]. intros ? [= <-]. lia.
Qed.
Lemma foldr_older l : match foldr older None l with
  | None => l = []
  | Some b => b ∈ l /\ forall x, x ∈ l -> b.2 <= x.2
  end.
Proof.
  induction l as [|x l IH]; simpl; [done|].
  destruct (older_spec x (foldr older None l)) as (b & -> & Hx & Hb & Hmin).
  destruct (foldr older None l) as [b0|].
  - destruct IH as [Hin Hall]. specialize (Hmin _ eq_refl). split.
    + destruct Hb as [->|[= <-]]; set_solver.
    + intros y [->|Hy]%elem_of_cons; [done|]. specialize (Hall _ Hy). lia.
  - subst l. destruct Hb as [->|]; [|done]. split; [set_solver|]. intros y ->%list_elem_of_singleton. lia.
Qed.

(** [oldest_normal] picks the queue whose first ordinary message has the least
    sequence number of all queues. *)
Lemma oldest_normal_spec m : match oldest_normal m with
  | None => forall c q, m !! c = Some q -> normal q = []
  | Some c => exists q x rest, m !! c = Some q /\ normal q = x :: rest /\
      forall c' q' y rest', m !! c' = Some q' -> normal q' = y :: rest' -> sequence x <= sequence y
  end.
Proof.
  unfold oldest_normal. set (l := omap _ (map_to_list m)). pose proof (foldr_older l) as H.
  assert (Hl : forall c s, (c, s) ∈ l <-> exists q x rest, m !! c = Some q /\ normal q = x :: rest /\ sequence x = s).
  { intros c s. unfold l. rewrite list_elem_of_omap. split.
    - intros ([c0 q] & Hin%elem_of_map_to_list & He). simpl in He.
      destruct (normal q) as [|x rest] eqn:E; [done|]. simpl in He. injection He as -> <-. eauto 10.
    - intros (q & x & rest & Hq & Hn & <-). exists (c, q). rewrite elem_of_map_to_list. simpl. by rewrite Hn. }
  destruct (foldr older None l) as [[c s]|]; simpl.
  - destruct H as [Hin Hmin]. apply Hl in Hin as (q & x & rest & Hq & Hn & <-). exists q, x, rest.
    split_and!; [done | done |]. intros c' q' y rest' Hq' Hn'.
    apply (Hmin (c', sequence y)). apply Hl. eauto 10.
  - intros c q Hq. destruct (normal q) as [|x rest] eqn:E; [done|]. exfalso.
    assert ((c, sequence x) ∈ l) as Hx by (apply Hl; eauto 10). rewrite H in Hx. set_solver.
Qed.

(** What making room may change: ordinary messages leave queues, nothing else. *)
Record trimmed (h h' : HubState) : Prop := {
  tr_intake : intake_open h' = intake_open h;
  tr_draining : draining h' = draining h;
  tr_next : next_normal_sequence h' = next_normal_sequence h;
  tr_res_messages : hub_reserved_messages h' = hub_reserved_messages h;
  tr_res_bytes : hub_reserved_bytes h' = hub_reserved_bytes h;
  tr_high : high_priority_messages h' = high_priority_messages h;
  tr_none c : queues h !! c = None -> queues h' !! c = None;
  tr_queue c q : queues h !! c = Some q -> exists k b, k `sublist_of` normal q
    /\ queues h' !! c = Some (set_messages (high q) k b q);
}.
Lemma trimmed_refl h : trimmed h h.
Proof. split; try done. intros c q Hq. exists (normal q), (queued_bytes q). split; [done|]. by destruct q. Qed.
Lemma trimmed_trans h1 h2 h3 : trimmed h1 h2 -> trimmed h2 h3 -> trimmed h1 h3.
Proof.
  intros [] []. split; try congruence; eauto.
  intros c q Hq. destruct (tr_queue0 _ _ Hq) as (k & b & Hk & H2). destruct (tr_queue1 _ _ H2) as (k' & b' & Hk' & H3).
  simpl in *. exists k', b'. split; [by etrans|]. done.
Qed.
Lemma trimmed_one h c q k b dm db :
  queues h !! c = Some q -> k `sublist_of` normal q ->
  trimmed h (add_queued dm db 0 (with_queues (<[c := set_messages (high q) k b q]> (queues h)) h)).
Proof.
  intros Hq Hk. split; simpl; try done.
  - lia.
  - intros c' Hc'. rewrite lookup_insert_ne by congruence. done.
  - intros c' q' Hq'. destruct (decide (c = c')) as [<-|Hne].
    + rewrite lookup_insert_eq. simplify_eq. eauto.
    + rewrite lookup_insert_ne by done. exists (normal q'), (queued_bytes q'). split; [done|]. by destruct q'.
Qed.
Lemma purge_trimmed c g h : trimmed h (purge_generation_locked c g h).
Proof.
  unfold purge_generation_locked. destruct (queues h !! c) eqn:Hq; [|apply trimmed_refl].
  apply trimmed_one; [done | apply sublist_filter].
Qed.
Lemma make_room_trimmed c bytes h : trimmed h (make_room_for_high_locked cfg c bytes h).
Proof.
  unfold make_room_for_high_locked. destruct (queues h !! c) as [q|] eqn:Hq; [|apply trimmed_refl].
  destruct (evict cfg bytes q (normal q)) as [removed kept] eqn:E. apply evict_split in E.
  apply trimmed_one; [done |]. rewrite E. by apply sublist_inserts_l.
Qed.

Lemma global_room fuel n Y bytes :
  hub_inv n Y -> (normal_count (s_hub Y) <= fuel)%nat ->
  exists h', make_global_room_for_high_locked fuel cfg bytes (s_hub Y) = Some h'
    /\ hub_inv n (with_hub h' Y) /\ trimmed (s_hub Y) h'.
Proof.
  revert Y. induction fuel as [|fuel IH]; intros Y HI Hf; simpl.
  all: destruct (_ <? _); [|exists (s_hub Y); destruct Y; auto using trimmed_refl].
  all: pose proof (oldest_normal_spec (queues (s_hub Y))) as Ho.
  all: destruct (oldest_normal _) as [c|]; [|exists (s_hub Y); destruct Y; auto using trimmed_refl].
  all: destruct Ho as (q & x & rest & Hq & Hn & _); rewrite Hq, Hn.
  - exfalso. pose proof (normal_count_sum (s_hub Y)) as Hs.
    assert (normal_len q <= map_sum normal_len (queues (s_hub Y))) as Hle.
    { apply (map_sum_ge _ _ c); [unfold normal_len; intros; lia | done]. }
    unfold normal_len in Hle at 1. rewrite Hn in Hle. simpl in Hle. lia.
  - set (h1 := add_queued _ _ _ _). 
    assert (Hn1 : rest `sublist_of` normal q) by (rewrite Hn; by apply sublist_cons).
    assert (Ht : trimmed (s_hub Y) h1) by (apply trimmed_one; done).
    pose proof (qw_bytes _ _ _ _ _ (hi_queue _ _ HI _ _ Hq)) as Hqb. rewrite Hn in Hqb. simpl in Hqb.
    destruct (IH (with_hub h1 Y)) as (h' & H1 & H2 & H3).
    + apply (inv_shrink n Y c q (high q) rest); [done | done | done | done | | lia | unfold high_count; lia].
      unfold queued_messages. rewrite Hn. simpl. lia.
    + cbn [s_hub with_hub]. apply Nat2Z.inj_le. rewrite normal_count_sum. subst h1. cbn [queues add_queued with_queues].
      rewrite (map_sum_insert_Some _ _ _ _ _ Hq), <- normal_count_sum. unfold normal_len. rewrite Hn.
      cbn [normal set_messages length]. lia.
    + exists h'. split_and!; [done | by destruct Y | by eapply trimmed_trans].
Qed.

(** ** Reservations *)
Lemma make_room_total n Y c bytes p : hub_inv n Y ->
  exists h', make_room cfg c bytes p (s_hub Y) = Some h' /\ hub_inv n (with_hub h' Y) /\ trimmed (s_hub Y) h'.
Proof.
  intros HI. destruct p; simpl.
  - exists (s_hub Y). destruct Y. auto using trimmed_refl.
  - pose proof (make_room_inv n Y c bytes HI) as H1.
    destruct (global_room _ n _ bytes H1 (le_n _)) as (h' & E & H2 & H3).
    exists h'. split_and!; [done | done |]. eapply trimmed_trans; [apply make_room_trimmed | exact H3].
Qed.

Lemma mine_cons r l c e : mine (r :: l) c e
  = if decide (res_connection_id r = c /\ res_epoch r = e) then r :: mine l c e else mine l c e.
Proof. reflexivity. Qed.
Lemma mine_elem r l c e : r ∈ mine l c e <-> r ∈ l /\ res_connection_id r = c /\ res_epoch r = e.
Proof. unfold mine. rewrite list_elem_of_filter. tauto. Qed.
Lemma mine_nil_later l c e : (forall r, r ∈ l -> res_connection_id r = c -> res_epoch r < e) -> mine l c e = [].
Proof.
  intros H. apply elem_of_nil_inv. intros r [Hr [Hc He]]%mine_elem. specialize (H r Hr Hc). lia.
Qed.

Lemma inv_mono n n' Y : hub_inv n Y -> n <= n' -> hub_inv n' Y.
Proof.
  intros [] Hn. split; try done. intros c q Hq. eapply queue_wf_mono; [by apply hi_queue0 | done | done |]. done.
Qed.
Lemma hub_totals_nonneg n Y c q : hub_inv n Y -> queues (s_hub Y) !! c = Some q ->
  (0 <= queued_messages q <= hub_queued_messages (s_hub Y)) /\
  (0 <= reserved_messages q <= hub_reserved_messages (s_hub Y)).
Proof.
  intros [] Hq. destruct hi_totals0. rewrite ht_messages0, ht_res_messages0.
  assert (forall c q, queues (s_hub Y) !! c = Some q -> 0 <= reserved_messages q) as Hr.
  { intros c0 q0 H0. destruct (hi_queue0 _ _ H0). lia. }
  split; split; [apply queued_messages_nonneg | | eauto |].
  - apply (map_sum_ge _ _ c); [|done]. intros. apply queued_messages_nonneg.
  - by apply (map_sum_ge _ _ c).
Qed.
Lemma reserved_bytes_nonneg n Y c q : hub_inv n Y -> queues (s_hub Y) !! c = Some q -> 0 <= reserved_bytes q.
Proof.
  intros [] Hq. destruct (hi_queue0 _ _ Hq). rewrite qw_res_bytes0. apply sum_bytes_nonneg.
  intros r [Hr _]%mine_elem. by apply hi_live0.
Qed.

(** A queue is emptied, its reservations invalidated and the queue finished. *)
Definition retired (t : option DeliveryTerminal) (cl : bool) (q : QueueRecord) : QueueRecord :=
  set_lifecycle t (receiver_open q) cl (set_reserved 0 0 (reservation_epoch q + 1) (set_messages [] [] 0 q)).
Lemma mine_retired n Y c q : hub_inv n Y -> queues (s_hub Y) !! c = Some q ->
  mine (live Y) c (reservation_epoch q + 1) = [].
Proof.
  intros [] Hq. apply mine_nil_later. intros r Hr Hc. destruct (hi_live0 _ Hr) as (_ & _ & H).
  rewrite Hc in H. destruct (H _ Hq). lia.
Qed.
Lemma retired_wf n Y c q t cl : hub_inv n Y -> queues (s_hub Y) !! c = Some q -> 0 <= max_messages_per_connection cfg ->
  0 <= max_bytes_per_connection cfg ->
  (receiver_open q = false -> cl = true) -> queue_wf (n + 1) (next_normal_sequence (s_hub Y)) (live Y) c (retired t cl q).
Proof.
  intros HI Hq Hm Hb Hr. pose proof (mine_retired _ _ _ _ HI Hq) as Hmine. destruct HI. destruct (hi_queue0 _ _ Hq).
  split; unfold retired; simpl; rewrite ?Hmine; try done; try lia; by constructor.
Qed.

Lemma retire_inv n Y c q t cl : hub_inv n Y -> queues (s_hub Y) !! c = Some q ->
  is_finished (retired t cl q) = true -> (receiver_open q = false -> cl = true) ->
  hub_inv (n + 1) (with_hub (add_reserved (- reserved_messages q) (- reserved_bytes q)
    (add_queued (- queued_messages q) (- queued_bytes q) (- high_count q)
      (with_queues (<[c := retired t cl q]> (queues (s_hub Y))) (s_hub Y)))) Y).
Proof.
  intros HI Hq Hfin Hro. pose proof (hub_totals_nonneg _ _ _ _ HI Hq) as [[? ?] [? ?]].
  pose proof (reserved_bytes_nonneg _ _ _ _ HI Hq).
  pose proof HI as []. destruct (hi_queue0 _ _ Hq).
  pose proof (total_bytes_nonneg (high q)). pose proof (total_bytes_nonneg (normal q)).
  eapply (hub_update n (n + 1) Y _ (live Y) c q (retired t cl q)); [exact HI | exact Hq |].
  split; cbn [queues add_queued add_reserved with_queues hub_queued_messages hub_queued_bytes hub_reserved_messages
    hub_reserved_bytes high_priority_messages next_normal_sequence intake_open draining]; try done; try lia.
  - change (queued_messages (retired t cl q)) with 0. lia.
  - change (queued_bytes (retired t cl q)) with 0. lia.
  - change (reserved_messages (retired t cl q)) with 0. lia.
  - change (reserved_bytes (retired t cl q)) with 0. lia.
  - change (high_count (retired t cl q)) with 0. lia.
  - apply retired_wf; try done; lia.
  - intros r Hr. destruct (hi_live0 _ Hr) as (? & ? & Hcur). split_and!; try done. intros <-.
    split; [|congruence]. destruct (Hcur _ Hq). unfold retired. simpl. lia.
  - intros m Hm. set_solver.
  - intros Hs. destruct (hi_seen0 Hs) as (_ & Hz & ?). lia.
Qed.

(** The two critical sections that retire a queue, on a queue that exists. *)
Lemma retire_compute c q h : queues h !! c = Some q -> 0 <= reservation_epoch q < u64_max ->
  invalidate_reservations_locked c (clear_queue_locked c h)
  = add_reserved (- reserved_messages q) (- reserved_bytes q)
    (add_queued (- queued_messages q) (- queued_bytes q) (- high_count q)
      (with_queues (<[c := set_reserved 0 0 (reservation_epoch q + 1) (set_messages [] [] 0 q)]> (queues h)) h)).
Proof.
  intros Hq He. unfold invalidate_reservations_locked, clear_queue_locked. rewrite Hq.
  cbn [queues add_queued with_queues]. rewrite lookup_insert_eq, insert_insert_eq.
  cbn [reservation_epoch set_messages reserved_messages reserved_bytes].
  rewrite wrapping_add_small by lia. done.
Qed.

Lemma mark_slow_inv n Y c : hub_inv n Y -> n < u64_max -> hub_inv (n + 1) (with_hub (mark_slow_locked c (s_hub Y)).2 Y).
Proof.
  intros HI Hn. unfold mark_slow_locked.
  destruct (queues (s_hub Y) !! c) as [q|] eqn:Hq; simpl; [|destruct Y; apply (inv_mono n); [done|lia]].
  destruct (closed q || _) eqn:Hfin; simpl; [destruct Y; apply (inv_mono n); [done|lia]|].
  pose proof (hi_queue _ _ HI _ _ Hq) as [].
  rewrite (retire_compute c q) by (done || lia). cbn [queues add_queued add_reserved with_queues].
  rewrite lookup_insert_eq, insert_insert_eq.
  refine (retire_inv n Y c q (Some SlowConsumerTerminal) (closed q) HI Hq _ qw_receiver0).
  unfold is_finished, retired; simpl. by rewrite orb_true_r.
Qed.

Lemma close_inv n Y c : hub_inv n Y -> n < u64_max -> hub_inv (n + 1) (with_hub (close_connection_locked c (s_hub Y)) Y).
Proof.
  intros HI Hn. unfold close_connection_locked.
  destruct (queues (s_hub Y) !! c) as [q|] eqn:Hq; [|destruct Y; apply (inv_mono n); [done|lia]].
  pose proof (hi_queue _ _ HI _ _ Hq) as [].
  rewrite (retire_compute c q) by (done || lia). cbn [queues add_queued add_reserved with_queues].
  pose proof (retire_inv n Y c q None true HI Hq eq_refl (fun _ => eq_refl)) as H.
  eapply (inv_remove _ _ c (retired None true q)) in H; [| | done | done |].
  - cbn [s_hub with_hub queues add_queued add_reserved with_queues] in H. rewrite delete_insert_eq in H |- *. exact H.
  - cbn. by rewrite lookup_insert_eq.
  - cbn. by apply (mine_retired n).
Qed.

(** ** Granting and giving back reservations *)
Lemma intake_not_seen n Y : hub_inv n Y -> intake_open (s_hub Y) = true -> seen_drained Y = false.
Proof.
  intros [] Hi. destruct (seen_drained Y) eqn:E; [|done]. destruct (hi_seen0 eq_refl) as [Hd _].
  apply hi_draining0 in Hd. congruence.
Qed.

Lemma grant_inv n Y c p bytes q : hub_inv n Y -> intake_open (s_hub Y) = true -> 0 < bytes ->
  queues (s_hub Y) !! c = Some q -> is_finished q = false -> lacks_room cfg bytes q = false ->
  hub_queued_bytes (s_hub Y) + hub_reserved_bytes (s_hub Y) + bytes <= max_total_bytes cfg ->
  hub_inv n {| s_hub := add_reserved 1 bytes (with_queues (<[c := set_reserved (reserved_messages q + 1)
                 (reserved_bytes q + bytes) (reservation_epoch q) q]> (queues (s_hub Y))) (s_hub Y));
               live := {| res_connection_id := c; res_priority := p; res_bytes := bytes;
                          res_epoch := reservation_epoch q |} :: live Y;
               opened := opened Y; seen_drained := seen_drained Y |}.
Proof.
  intros HI Hin Hb Hq Hfin Hroom Htot. pose proof (intake_not_seen _ _ HI Hin) as Hseen.
  pose proof HI as []. destruct (hi_queue0 _ _ Hq).
  apply orb_false_iff in Hroom as [H1%Z.leb_gt H2%Z.ltb_ge].
  eapply (hub_update n n Y _ _ c q (set_reserved (reserved_messages q + 1) (reserved_bytes q + bytes) (reservation_epoch q) q));
    [exact HI | exact Hq |].
  split; cbn [queues add_queued add_reserved with_queues hub_queued_messages hub_queued_bytes hub_reserved_messages
    hub_reserved_bytes high_priority_messages next_normal_sequence intake_open draining set_reserved
    reserved_messages reserved_bytes queued_bytes normal]; try done; try lia.
  - unfold queued_messages. simpl. lia.
  - unfold high_count. simpl. lia.
  - split; unfold queued_messages in *; cbn [set_reserved high normal queued_bytes reserved_messages reserved_bytes
      reservation_epoch terminal receiver_open closed]; rewrite ?mine_cons; cbn [res_connection_id res_epoch];
      rewrite ?decide_True by done; simpl; try done; try lia.
    unfold is_finished in *; simpl in *. congruence.
  - intros c2 e Hne. rewrite mine_cons, decide_False; [done|]. simpl. intros [? ?]. congruence.
  - intros r [->|Hr]%elem_of_cons; simpl.
    + split_and!; try done. by eapply hi_opened0.
    + destruct (hi_live0 _ Hr) as (? & ? & Hc). split_and!; try done. intros <-. exact (Hc _ Hq).
  - intros m Hm. by left.
  - congruence.
Qed.

Lemma mine_app l k c e : mine (l ++ k) c e = mine l c e ++ mine k c e.
Proof. apply filter_app. Qed.
Lemma mine_middle l1 res l2 c e : ~ (res_connection_id res = c /\ res_epoch res = e) ->
  mine (l1 ++ res :: l2) c e = mine (l1 ++ l2) c e.
Proof. intros H. rewrite !mine_app, mine_cons, decide_False by done. done. Qed.
Lemma sum_bytes_app l k : sum_bytes (l ++ k) = sum_bytes l + sum_bytes k.
Proof. induction l as [|r l IH]; simpl; [done|]. lia. Qed.

(** A reservation of an earlier epoch, or of a queue that is gone, holds nothing. *)
Lemma inv_forget n h l1 res l2 o d :
  hub_inv n {| s_hub := h; live := l1 ++ res :: l2; opened := o; seen_drained := d |} ->
  (forall q, queues h !! res_connection_id res = Some q -> reservation_epoch q <> res_epoch res) ->
  hub_inv n {| s_hub := h; live := l1 ++ l2; opened := o; seen_drained := d |}.
Proof.
  intros [] Hold. simpl in *. split; try done; simpl.
  - intros c q Hq. destruct (hi_queue0 _ _ Hq).
    assert (He : mine (l1 ++ res :: l2) c (reservation_epoch q) = mine (l1 ++ l2) c (reservation_epoch q)).
    { apply mine_middle. intros [<- He]. by apply (Hold _ Hq). }
    rewrite He in *. by split.
  - intros r Hr. apply hi_live0. set_solver.
Qed.

Lemma drop_inv n h l1 res l2 o d :
  hub_inv n {| s_hub := h; live := l1 ++ res :: l2; opened := o; seen_drained := d |} ->
  hub_inv n {| s_hub := drop_reservation res h; live := l1 ++ l2; opened := o; seen_drained := d |}.
Proof.
  intros HI. unfold drop_reservation, release_reservation_locked. set (c := res_connection_id res).
  destruct (queues h !! c) as [q|] eqn:Hq; [|apply (inv_forget _ _ _ _ _ _ _ HI); unfold c in *; congruence].
  case_bool_decide as He; [|apply (inv_forget _ _ _ _ _ _ _ HI); unfold c in *; congruence].
  assert (Hmem : res ∈ mine (l1 ++ res :: l2) c (reservation_epoch q)).
  { apply mine_elem. split_and!; [set_solver | done | done]. }
  pose proof HI as []. simpl in *. destruct (hi_queue0 _ _ Hq).
  assert (Hopen : closed q = false).
  { destruct (closed q) eqn:E; [|done].
    assert (is_finished q = true) as (_ & _ & Hm)%qw_finished0 by (unfold is_finished; by rewrite E). rewrite Hm in Hmem. set_solver. }
  rewrite Hopen. cbn [andb]. rewrite He in *.
  assert (Hmine : Z.of_nat (length (mine (l1 ++ res :: l2) c (res_epoch res)))
      = Z.of_nat (length (mine (l1 ++ l2) c (res_epoch res))) + 1
    /\ sum_bytes (mine (l1 ++ res :: l2) c (res_epoch res))
      = sum_bytes (mine (l1 ++ l2) c (res_epoch res)) + res_bytes res).
  { rewrite !mine_app, mine_cons, decide_True by done. rewrite !sum_bytes_app, !length_app. simpl. lia. }
  destruct Hmine as [Hmm Hmb].
  assert (0 < res_bytes res) by (apply hi_live0; set_solver).
  eapply (hub_update n n {| s_hub := h; live := l1 ++ res :: l2; opened := o; seen_drained := d |} _ _ c q (set_reserved (reserved_messages q - 1) (reserved_bytes q - res_bytes res) (res_epoch res) q));
    [exact HI | exact Hq |].
  split; cbn [s_hub live opened queues add_queued add_reserved with_queues hub_queued_messages hub_queued_bytes
    hub_reserved_messages hub_reserved_bytes high_priority_messages next_normal_sequence intake_open draining
    set_reserved reserved_messages reserved_bytes queued_bytes normal]; try done; try lia.
  - unfold queued_messages. simpl. lia.
  - unfold high_count. simpl. lia.
  - split; unfold queued_messages in *; cbn [set_reserved high normal queued_bytes reserved_messages reserved_bytes
      reservation_epoch terminal receiver_open closed]; try done; try lia.
    intros Hf. destruct (qw_finished0 Hf) as (_ & _ & Hm). rewrite Hm in Hmem. set_solver.
  - intros c2 e Hne. symmetry. apply mine_middle. intros [? ?]. by subst.
  - intros r Hr. destruct (hi_live0 r) as (? & ? & Hc); [set_solver|]. split_and!; try done; [|set_solver].
    intros Hrc. specialize (Hc q ltac:(by rewrite Hrc)). unfold current_for in *. simpl. by rewrite He in Hc.
  - intros m Hm. by left.
  - intros Hs. destruct (hi_seen0 Hs) as (_ & Hz & Hr).
    pose proof (hub_totals_nonneg _ _ _ _ HI Hq) as [[? ?] [? ?]]. simpl in *. lia.
Qed.
End invariant.
