(* ===== verification/RealtimeDeliverySteps.v ===== *)
(** * Every critical section of the delivery hub keeps its invariant *)
From S2P Require Import Prelude Machine Text AuthCore RealtimeRegistry RealtimeDelivery RealtimeDeliveryFacts.

Lemma StronglySorted_snoc l x : StronglySorted Z.lt l -> Forall (fun y => y < x) l -> StronglySorted Z.lt (l ++ [x]).
Proof.
  induction 1 as [|y l Hl IH Hy]; simpl; [by repeat constructor|]. inversion 1; subst. constructor; [by apply IH|].
  apply Forall_app. split; [done|]. by repeat constructor.
Qed.

Section steps.
Context (rcfg : RegistryConfig) (cfg : DeliveryQueueConfig).
#[local] Abbreviation hub_inv := (hub_inv cfg).

(** ** Admitting a message *)
Lemma drop_next k res h : drop_reservation res (with_next_sequence k h) = with_next_sequence k (drop_reservation res h).
Proof.
  unfold drop_reservation, release_reservation_locked. cbn [queues with_next_sequence].
  destruct (queues h !! _) as [q|]; [|done]. destruct (bool_decide _); [|done].
  destruct (_ && _ && _); done.
Qed.
Lemma push_next k c m h : (push_message c m (with_next_sequence k h)).2 = with_next_sequence k (push_message c m h).2.
Proof. unfold push_message. cbn [queues with_next_sequence]. by destruct (queues h !! c). Qed.

(** What admission of [m] does to its queue. *)
Definition pushed (m : StoredMessage) (q : QueueRecord) : QueueRecord :=
  match priority m with
  | Normal => set_messages (high q) (normal q ++ [m]) (queued_bytes q + bytes_of m) q
  | High => set_messages (high q ++ [m]) (normal q) (queued_bytes q + bytes_of m) q
  end.

Lemma push_wf n next next' l c q m :
  queue_wf cfg n next l c q -> is_finished q = false -> next <= next' ->
  queued_messages q + reserved_messages q + 1 <= max_messages_per_connection cfg ->
  queued_bytes q + reserved_bytes q + bytes_of m <= max_bytes_per_connection cfg ->
  (priority m = Normal -> 0 <= next /\ sequence m = next /\ next < next') ->
  queue_wf cfg n next' l c (pushed m q).
Proof.
  intros [] Hfin Hn Hm Hb Hs. unfold queued_messages in *.
  assert (Hnorm : Forall (fun m => priority m = Normal /\ 0 <= sequence m < next') (normal q)).
  { eapply Forall_impl; [exact qw_normal|]. intros ? [? ?]. split; [done | lia]. }
  assert (Hfin' : forall h k b, is_finished (set_messages h k b q) = false) by done.
  split; unfold queued_messages, pushed; destruct (priority m) eqn:Hp; rewrite ?Hfin';
    cbn [set_messages high normal queued_bytes reserved_messages reserved_bytes
      reservation_epoch terminal receiver_open closed]; rewrite ?length_app, ?total_bytes_app; simpl; try done; try lia.
  - apply Forall_app. split; [done|]. constructor; [done | constructor].
  - apply Forall_app. split; [done|]. constructor; [|constructor]. destruct (Hs eq_refl). split; [done|lia].
  - rewrite map_app. simpl. destruct (Hs eq_refl) as (_ & -> & _). apply StronglySorted_snoc; [done|].
    apply Forall_map. eapply Forall_impl; [exact qw_normal|]. simpl. intros ? [_ ?]. lia.
Qed.

Lemma push_inv n Y c q m k :
  hub_inv n Y -> queues (s_hub Y) !! c = Some q -> is_finished q = false -> seen_drained Y = false ->
  queued_messages q + reserved_messages q + 1 <= max_messages_per_connection cfg ->
  queued_bytes q + reserved_bytes q + bytes_of m <= max_bytes_per_connection cfg ->
  hub_queued_bytes (s_hub Y) + hub_reserved_bytes (s_hub Y) + bytes_of m <= max_total_bytes cfg ->
  next_normal_sequence (s_hub Y) <= k <= u64_max ->
  (priority m = Normal -> sequence m = next_normal_sequence (s_hub Y) /\ next_normal_sequence (s_hub Y) < k) ->
  hub_inv n (with_hub (with_next_sequence k (push_message c m (s_hub Y)).2) Y).
Proof.
  intros HI Hq Hfin Hseen Hm Hb Ht Hk Hs. pose proof HI as []. 
  assert (Hwf : queue_wf cfg n k (live Y) c (pushed m q)).
  { eapply push_wf; [by apply hi_queue | done | lia | lia | lia |]. intros Hp. destruct (Hs Hp). lia. }
  eapply (hub_update cfg n n Y _ (live Y) c q (pushed m q)); [exact HI | exact Hq |].
  unfold push_message. rewrite Hq. fold (pushed m q).
  split; cbn [snd with_next_sequence queues add_queued with_queues hub_queued_messages hub_queued_bytes hub_reserved_messages
    hub_reserved_bytes high_priority_messages next_normal_sequence intake_open draining]; try done; try lia.
  1-5: unfold queued_messages, high_count, pushed; destruct (priority m); simpl; rewrite ?length_app; simpl; lia.
  - intros r Hr. destruct (hi_live _ Hr) as (? & ? & Hc). split_and!; try done. intros <-.
    specialize (Hc _ Hq). unfold pushed. destruct (priority m); exact Hc.
  - intros m' Hm'. unfold pushed in Hm'. destruct (priority m) eqn:Hp; simpl in Hm'; [|by left].
    apply elem_of_app in Hm' as [?| ->%list_elem_of_singleton]; [by left|]. right. destruct (Hs eq_refl). lia.
  - congruence.
Qed.

Lemma not_finished_open q : is_finished q = false -> closed q = false /\ terminal q = None.
Proof.
  unfold is_finished. intros [-> H]%orb_false_iff. split; [done|]. destruct (terminal q); [|done].
  apply bool_decide_eq_false in H. destruct H. eauto.
Qed.
Lemma drop_current res h q :
  queues h !! res_connection_id res = Some q -> is_finished q = false -> res_epoch res = reservation_epoch q ->
  drop_reservation res h = add_reserved (-1) (- res_bytes res) (with_queues (<[res_connection_id res :=
    set_reserved (reserved_messages q - 1) (reserved_bytes q - res_bytes res) (reservation_epoch q) q]> (queues h)) h).
Proof.
  intros Hq [Hc _]%not_finished_open He. unfold drop_reservation, release_reservation_locked.
  rewrite Hq, bool_decide_eq_true_2, Hc by done. simpl. by rewrite He.
Qed.

(** A reservation of a queue that is not finished is counted in it. *)
Lemma live_counted n Y res q : hub_inv n Y -> res ∈ live Y -> queues (s_hub Y) !! res_connection_id res = Some q ->
  is_finished q = false -> res_epoch res = reservation_epoch q /\ 1 <= reserved_messages q
    /\ seen_drained Y = false.
Proof.
  intros HI Hr Hq Hfin. pose proof (hub_totals_nonneg _ _ _ _ _ HI Hq) as [_ [? ?]].
  pose proof HI as []. destruct (hi_live _ Hr) as (_ & _ & Hc). destruct (Hc _ Hq) as [_ He].
  specialize (He Hfin). destruct (hi_queue _ _ Hq).
  assert (Hmem : res ∈ mine (live Y) (res_connection_id res) (reservation_epoch q)).
  { apply mine_elem. by split_and!. }
  assert (1 <= reserved_messages q).
  { rewrite qw_res_messages. destruct (mine _ _ _); [set_solver|]. simpl. lia. }
  split_and!; [done | done|]. destruct (seen_drained Y) eqn:E; [|done]. destruct (hi_seen eq_refl) as (_ & _ & ?). lia.
Qed.

(** The reservation is exchanged for the message. *)
Lemma exchange_inv n h l1 res l2 o d q m k :
  let Y := {| s_hub := h; live := l1 ++ res :: l2; opened := o; seen_drained := d |} in
  hub_inv n Y -> queues h !! res_connection_id res = Some q -> is_finished q = false -> bytes_of m <= res_bytes res ->
  next_normal_sequence h <= k <= u64_max ->
  (priority m = Normal -> sequence m = next_normal_sequence h /\ next_normal_sequence h < k) ->
  hub_inv n {| s_hub := (push_message (res_connection_id res) m (drop_reservation res (with_next_sequence k h))).2;
               live := l1 ++ l2; opened := o; seen_drained := d |}.
Proof.
  intros Y HI Hq Hfin Hb Hk Hs.
  destruct (live_counted n Y res q HI ltac:(set_solver) Hq Hfin) as (He & Hr & Hseen).
  pose proof (hi_bound _ _ _ HI) as Hbound. pose proof (hi_queue _ _ _ HI _ _ Hq) as []. simpl in Hbound, Hseen.
  pose proof (drop_inv _ _ _ _ _ _ _ _ HI) as HI2. rewrite drop_next, push_next.
  pose proof (drop_current _ _ _ Hq Hfin He) as Hdrop.
  eapply (push_inv n {| s_hub := drop_reservation res h; live := l1 ++ l2; opened := o; seen_drained := d |});
    cbn [s_hub seen_drained] in *; [exact HI2 | by rewrite Hdrop; cbn; rewrite lookup_insert_eq | done | done |..];
    rewrite ?Hdrop; simpl; [unfold queued_messages in *; simpl; lia | lia | lia | done | done].
Qed.

Lemma admit_inv n h l1 res l2 o d stored r active h' :
  hub_inv n {| s_hub := h; live := l1 ++ res :: l2; opened := o; seen_drained := d |} ->
  bytes_of stored <= res_bytes res -> admit_locked res stored h = (r, active, h') ->
  hub_inv n {| s_hub := h'; live := if active then l1 ++ res :: l2 else l1 ++ l2; opened := o; seen_drained := d |}.
Proof.
  intros HI Hb. unfold admit_locked. set (c := res_connection_id res).
  destruct (queues h !! c) as [q|] eqn:Hq; [|by intros [= <- <- <-]].
  destruct (is_finished q) eqn:Hfin; [by intros [= <- <- <-]|].
  set (s1 := match priority stored with Normal => h | High => _ end).
  assert (hub_inv n {| s_hub := s1; live := l1 ++ res :: l2; opened := o; seen_drained := d |}
    /\ trimmed h s1) as [HI1 Htr].
  { unfold s1. destruct (priority stored), (msg_generation stored); auto using trimmed_refl.
    split; [exact (purge_inv _ n _ c p HI) | apply purge_trimmed]. }
  destruct (tr_queue _ _ Htr _ _ Hq) as (k & b & _ & Hq1).
  pose proof (hi_next _ _ _ HI1) as Hnext. simpl in Hnext.
  destruct (priority stored) eqn:Hp.
  - destruct (checked_add _ _ _) as [nx|] eqn:Hadd; [|by intros [= <- <- <-]].
    apply checked_add_Some in Hadd as [-> Hle].
    destruct (push_message _ _ _) as [r0 h0] eqn:Hpush. intros [= <- <- <-].
    replace h0 with (push_message c (set_sequence (next_normal_sequence s1) stored)
      (drop_reservation res (with_next_sequence (next_normal_sequence s1 + 1) s1))).2 by (by rewrite Hpush).
    eapply exchange_inv; [exact HI1 | exact Hq1 | exact Hfin | exact Hb | lia | simpl; intros; lia].
  - destruct (push_message _ _ _) as [r0 h0] eqn:Hpush. intros [= <- <- <-].
    replace h0 with (push_message c stored
      (drop_reservation res (with_next_sequence (next_normal_sequence s1) s1))).2
      by (replace (with_next_sequence (next_normal_sequence s1) s1) with s1 by (by destruct s1); by rewrite Hpush).
    eapply exchange_inv; [exact HI1 | exact Hq1 | exact Hfin | exact Hb | lia | congruence].
Qed.

(** ** Receiving and closing *)
Lemma inv_lifecycle n Y c q t ro cl :
  hub_inv n Y -> queues (s_hub Y) !! c = Some q -> is_finished q = true ->
  is_finished (set_lifecycle t ro cl q) = true -> (ro = false -> cl = true) ->
  hub_inv n (with_hub (with_queues (<[c := set_lifecycle t ro cl q]> (queues (s_hub Y))) (s_hub Y)) Y).
Proof.
  intros HI Hq Hfin Hfin' Hro. pose proof HI as [].
  eapply (hub_update cfg n n Y _ (live Y) c q (set_lifecycle t ro cl q)); [exact HI | exact Hq |].
  pose proof (hi_queue _ _ Hq) as [].
  split; cbn [queues with_queues hub_queued_messages hub_queued_bytes hub_reserved_messages hub_reserved_bytes
    high_priority_messages next_normal_sequence intake_open draining]; try done; try lia.
  - unfold queued_messages. simpl. lia.
  - simpl. lia.
  - simpl. lia.
  - simpl. lia.
  - unfold high_count. simpl. lia.
  - split; try done. intros _. by apply qw_finished.
  - intros r Hr. destruct (hi_live _ Hr) as (? & ? & Hc). split_and!; try done. intros <-.
    split; [apply (Hc _ Hq) | congruence].
  - intros m Hm. by left.
  - intros Hs. by apply hi_seen.
Qed.

Lemma poll_inv n Y c : hub_inv n Y -> hub_inv n (with_hub (poll_locked c (s_hub Y)).2 Y).
Proof.
  intros HI. unfold poll_locked. destruct (queues (s_hub Y) !! c) as [q|] eqn:Hq; [|by destruct Y].
  pose proof (hi_queue _ _ _ HI _ _ Hq) as []. destruct (terminal q) as [t|] eqn:Ht; simpl.
  - apply inv_lifecycle; try done. unfold is_finished. rewrite Ht, bool_decide_eq_true_2 by eauto. by rewrite orb_true_r.
  - unfold pop_message. destruct (high q) as [|m h] eqn:Hh; [destruct (normal q) as [|m k] eqn:Hn|]; simpl.
    + destruct (closed q); by destruct Y.
    + apply Forall_cons in qw_normal as [[-> _] _].
      apply (inv_shrink cfg n Y c q [] k); rewrite ?Hh, ?Hn; try done; [by apply sublist_cons | | |];
        unfold queued_messages, high_count in *; rewrite ?Hh, ?Hn; simpl in *; lia.
    + apply Forall_cons in qw_high as [-> _].
      apply (inv_shrink cfg n Y c q h (normal q)); rewrite ?Hh; try done; [by apply sublist_cons | | |];
        unfold queued_messages, high_count in *; rewrite ?Hh; simpl in *; lia.
Qed.

Lemma receiver_close_inv n Y c : hub_inv n Y -> (forall q, queues (s_hub Y) !! c = Some q -> closed q = true) ->
  hub_inv n (with_hub (receiver_close_locked c (s_hub Y)) Y).
Proof.
  intros HI Hcl. unfold receiver_close_locked. destruct (queues (s_hub Y) !! c) as [q|] eqn:Hq; [|by destruct Y].
  pose proof (hi_queue _ _ _ HI _ _ Hq) as []. specialize (Hcl _ eq_refl).
  assert (is_finished q = true) as (Hh & Hn & Hm)%qw_finished by (unfold is_finished; by rewrite Hcl).
  rewrite Hm in qw_res_messages. simpl in qw_res_messages. rewrite Hcl, qw_res_messages. simpl.
  rewrite delete_insert_eq. eapply inv_remove; eauto.
Qed.

Lemma begin_drain_inv n Y : hub_inv n Y -> hub_inv n (with_hub (begin_drain (s_hub Y)) Y).
Proof.
  intros HI. unfold begin_drain. destruct (draining (s_hub Y)) eqn:E; [by destruct Y|]. destruct HI.
  destruct hi_totals. split; simpl; try done. intros Hs. destruct (hi_seen Hs). congruence.
Qed.

Lemma open_inv n h l o d c h' :
  hub_inv n {| s_hub := h; live := l; opened := o; seen_drained := d |} -> 0 <= n ->
  0 <= max_messages_per_connection cfg -> 0 <= max_bytes_per_connection cfg ->
  c ∉ o -> open_locked (max_connections rcfg) c h = (Ok tt, h') ->
  hub_inv n {| s_hub := h'; live := l; opened := {[c]} ∪ o; seen_drained := d |}.
Proof.
  intros [] Hn Hmm Hmb Hc. simpl in *. unfold open_locked, mbind, st_bind, st_get, st_throw, st_put. cbn.
  destruct (intake_open h) eqn:Hi; simpl; [|done]. case_bool_decide as He; [discriminate|].
  destruct (_ <=? _); [discriminate|]. cbn. intros [= <-].
  assert (Hnone : queues h !! c = None) by (apply eq_None_not_Some; done).
  assert (Hmine : forall e, mine l c e = []).
  { intros e. apply elem_of_nil_inv. intros r (Hr & Hrc & _)%mine_elem. destruct (hi_live _ Hr) as (_ & ? & _). congruence. }
  destruct hi_totals.
  split; simpl; try done.
  - intros c2 q2 [[<- <-]|[Hne H2]]%lookup_insert_Some; [|by apply hi_queue].
    split; simpl; rewrite ?Hmine; try done; try (by constructor); unfold queued_messages; simpl; lia.
  - split; simpl; rewrite map_sum_insert_None by done; unfold queued_messages, high_count in *; simpl; lia.
  - intros r Hr. destruct (hi_live _ Hr) as (? & ? & Hcur). split_and!; [done | set_solver |].
    intros q2 [[? _]|[_ H2]]%lookup_insert_Some; [congruence | by apply Hcur].
  - intros c2 q2 [[<- <-]|[Hne H2]]%lookup_insert_Some; [set_solver|]. apply hi_opened in H2. set_solver.
  - intros c1 c2 q1 q2 m1 m2 [[<- <-]|[Hne1 H1]]%lookup_insert_Some [[<- <-]|[Hne2 H2]]%lookup_insert_Some; simpl;
      [set_solver | set_solver | set_solver | by eapply hi_sequences].
  - by rewrite Hi.
Qed.

(** ** Draining *)
Definition wiped (q : QueueRecord) : QueueRecord :=
  set_reserved 0 0 (wrapping_add u64_max (reservation_epoch q) 1) (set_messages [] [] 0 q).
Lemma wipe_one c h : hub_totals h ->
  let h' := invalidate_reservations_locked c (clear_queue_locked c h) in
  hub_totals h' /\ intake_open h' = intake_open h /\ draining h' = draining h
    /\ next_normal_sequence h' = next_normal_sequence h
    /\ forall c', queues h' !! c' = if decide (c = c') then wiped <$> queues h !! c' else queues h !! c'.
Proof.
  intros [] h'. unfold h', invalidate_reservations_locked, clear_queue_locked.
  destruct (queues h !! c) as [q|] eqn:Hq.
  - cbn [queues add_queued with_queues]. rewrite lookup_insert_eq, insert_insert_eq. simpl. split_and!; try done.
    + split; cbn [add_reserved add_queued with_queues queues hub_queued_messages hub_queued_bytes hub_reserved_messages
        hub_reserved_bytes high_priority_messages set_messages reserved_messages reserved_bytes];
        rewrite (map_sum_insert_Some _ _ _ _ _ Hq); unfold queued_messages, high_count in *; simpl; lia.
    + intros c'. destruct (decide (c = c')) as [<-|Hne]; [by rewrite lookup_insert_eq, Hq | by rewrite lookup_insert_ne].
  - rewrite Hq. split_and!; try done. intros c'. destruct (decide (c = c')) as [<-|]; [by rewrite Hq | done].
Qed.
Lemma wipe_all l h : NoDup l -> hub_totals h ->
  let h' := foldr (fun c s => invalidate_reservations_locked c (clear_queue_locked c s)) h l in
  hub_totals h' /\ intake_open h' = intake_open h /\ draining h' = draining h
    /\ next_normal_sequence h' = next_normal_sequence h
    /\ forall c, queues h' !! c = if decide (c ∈ l) then wiped <$> queues h !! c else queues h !! c.
Proof.
  intros Hnd Ht. induction Hnd as [|c l Hc Hnd IH]; simpl.
  - by split_and!.
  - destruct IH as (H1 & H2 & H3 & H4 & H5). simpl in *. set (h1 := foldr _ h l) in *.
    destruct (wipe_one c h1 H1) as (G1 & G2 & G3 & G4 & G5). simpl in *.
    split_and!; try congruence. intros c'. rewrite G5, H5. 
    destruct (decide (c = c')) as [<-|Hne].
    + rewrite (decide_False (P := c ∈ l)), decide_True by set_solver. done.
    + destruct (decide (c' ∈ l)); [rewrite decide_True by set_solver | rewrite decide_False by set_solver]; done.
Qed.

(** Every queue empty, without reservations and finished. *)
Record at_rest (n : Z) (l : list DeliveryReservation) (c : Z) (q q' : QueueRecord) : Prop := {
  ar_high : high q' = [];
  ar_normal : normal q' = [];
  ar_bytes : queued_bytes q' = 0;
  ar_res_messages : reserved_messages q' = 0;
  ar_res_bytes : reserved_bytes q' = 0;
  ar_mine : mine l c (reservation_epoch q') = [];
  ar_epoch : 0 <= reservation_epoch q <= reservation_epoch q' /\ reservation_epoch q' <= n;
  ar_finished : is_finished q' = true;
  ar_receiver : receiver_open q' = false -> closed q' = true;
}.
Lemma at_rest_inv n n' Y h' f : hub_inv n Y -> hub_totals h' ->
  (forall c, queues h' !! c = f <$> queues (s_hub Y) !! c) ->
  (forall c q, queues (s_hub Y) !! c = Some q -> at_rest n' (live Y) c q (f q)) ->
  intake_open h' = intake_open (s_hub Y) -> draining h' = draining (s_hub Y) ->
  next_normal_sequence h' = next_normal_sequence (s_hub Y) -> 0 <= max_total_bytes cfg ->
  hub_inv n' (with_hub h' Y).
Proof.
  intros [] Ht Hf Hrest Hi Hd Hn Hmax.
  assert (Hq : forall c q', queues h' !! c = Some q' -> exists q, queues (s_hub Y) !! c = Some q /\ f q = q'
    /\ at_rest n' (live Y) c q q').
  { intros c q'. rewrite Hf. intros (q & H & ->)%fmap_Some_1. eauto. }
  assert (Hz : forall g, (forall c q q', at_rest n' (live Y) c q q' -> g q' = 0) -> map_sum g (queues h') = 0).
  { intros g Hg. apply map_sum_zero. intros c q' (q & _ & _ & H)%Hq. eauto. }
  destruct Ht as [E1 E2 E3 E4 E5].
  assert (hub_queued_bytes h' = 0) by (rewrite E2; apply Hz; by destruct 1).
  assert (hub_reserved_bytes h' = 0) by (rewrite E4; apply Hz; by destruct 1).
  split; cbn [s_hub with_hub live opened seen_drained]; try done.
  - intros c q' (q & Hold & <- & [])%Hq. destruct (hi_queue _ _ Hold). pose proof (queued_messages_nonneg q).
    pose proof (total_bytes_nonneg (high q)). pose proof (total_bytes_nonneg (normal q)).
    assert (0 <= reserved_bytes q).
    { rewrite qw_res_bytes. apply sum_bytes_nonneg. intros r [Hr _]%mine_elem. by apply hi_live. }
    split; unfold queued_messages in *; rewrite ?ar_high0, ?ar_normal0, ?ar_mine0; simpl; try done; try (by constructor); try lia.
  - lia.
  - intros r Hr. destruct (hi_live _ Hr) as (? & ? & Hc). split_and!; [done | done |].
    intros q' (q & Hold & <- & [])%Hq. destruct (Hc _ Hold). split; [lia | congruence].
  - intros c q' (q & Hold & _)%Hq. by eapply hi_opened.
  - intros c1 c2 q1 q2 m1 m2 (? & _ & _ & [])%Hq _ Hm1. rewrite ar_normal0 in Hm1. set_solver.
  - by rewrite Hn.
  - by rewrite Hd, Hi.
  - intros Hs. rewrite Hd. split_and!; [by apply hi_seen | rewrite E1 | rewrite E3]; apply Hz;
      destruct 1; unfold queued_messages; rewrite ?ar_high0, ?ar_normal0; done.
Qed.

Lemma signal_totals h : hub_totals h -> hub_totals (with_queues (signal_drain <$> queues h) h).
Proof.
  intros []. split; simpl; rewrite map_sum_map; etrans; try eassumption; apply map_sum_fmap; intros q;
    unfold signal_drain; by destruct (_ && _).
Qed.
Lemma signal_finished q : (receiver_open q = false -> closed q = true) -> is_finished (signal_drain q) = true.
Proof.
  intros H. unfold signal_drain, is_finished. destruct (receiver_open q), (closed q) eqn:E; simpl; try done.
  - by rewrite E.
  - by rewrite E.
  - by specialize (H eq_refl).
Qed.
Lemma signal_at_rest n l c q q' : (receiver_open q' = false -> closed q' = true) -> high q' = [] -> normal q' = [] ->
  queued_bytes q' = 0 -> reserved_messages q' = 0 -> reserved_bytes q' = 0 -> mine l c (reservation_epoch q') = [] ->
  0 <= reservation_epoch q <= reservation_epoch q' /\ reservation_epoch q' <= n ->
  at_rest n l c q (signal_drain q').
Proof.
  intros Hro. intros. pose proof (signal_finished q' Hro) as Hf. revert Hf. unfold signal_drain. destruct (_ && _); by split.
Qed.

Lemma total_limit_nonneg n Y : hub_inv n Y -> 0 <= max_total_bytes cfg.
Proof.
  intros HI. pose proof HI as []. destruct hi_totals. assert (0 <= hub_queued_bytes (s_hub Y)).
  { rewrite ht_bytes. apply map_sum_nonneg. intros c q Hq. destruct (hi_queue _ _ Hq). rewrite qw_bytes.
    pose proof (total_bytes_nonneg (high q)). pose proof (total_bytes_nonneg (normal q)). lia. }
  assert (0 <= hub_reserved_bytes (s_hub Y)); [|lia].
  rewrite ht_res_bytes. apply map_sum_nonneg. intros c q Hq. by eapply reserved_bytes_nonneg.
Qed.

(** Nothing queued and nothing reserved in the hub: nothing in any queue. *)
Lemma drained_queue n Y c q : hub_inv n Y -> drained (s_hub Y) = true -> queues (s_hub Y) !! c = Some q ->
  high q = [] /\ normal q = [] /\ queued_bytes q = 0 /\ reserved_messages q = 0 /\ reserved_bytes q = 0
    /\ mine (live Y) c (reservation_epoch q) = [].
Proof.
  intros HI [Hm%Z.eqb_eq Hr%Z.eqb_eq]%andb_true_iff Hq.
  pose proof (hub_totals_nonneg _ _ _ _ _ HI Hq) as [[? ?] [? ?]]. pose proof (hi_queue _ _ _ HI _ _ Hq) as [].
  unfold queued_messages in *.
  assert (Hh : high q = []) by (apply nil_length_inv; lia). assert (Hn : normal q = []) by (apply nil_length_inv; lia).
  rewrite Hh, Hn in qw_bytes. assert (Hmine : mine (live Y) c (reservation_epoch q) = []) by (apply nil_length_inv; lia).
  rewrite Hmine in *. by split_and!.
Qed.

Lemma finish_drain_rest n Y expired : hub_inv n Y -> 0 <= n < u64_max ->
  expired = true \/ seen_drained Y = true ->
  let h' := (finish_drain_locked expired (s_hub Y)).2 in
  hub_totals h' /\ intake_open h' = intake_open (s_hub Y) /\ draining h' = draining (s_hub Y)
  /\ next_normal_sequence h' = next_normal_sequence (s_hub Y)
  /\ exists f, (forall c, queues h' !! c = (fun q => signal_drain (f q)) <$> queues (s_hub Y) !! c)
     /\ forall c q, queues (s_hub Y) !! c = Some q -> at_rest (n + 1) (live Y) c q (signal_drain (f q))
          /\ receiver_open (f q) = receiver_open q /\ closed (f q) = closed q.
Proof.
  intros HI Hn Hor. pose proof HI as []. destruct expired; simpl.
  - pose proof (wipe_all (map_to_list (queues (s_hub Y))).*1 (s_hub Y) (NoDup_fst_map_to_list _) hi_totals)
      as (H1 & H2 & H3 & H4 & H5). simpl in *. set (h1 := foldr _ _ _) in *.
    split_and!; [by apply signal_totals | done..|]. exists wiped. split.
    + intros c. rewrite lookup_fmap, H5. destruct (queues (s_hub Y) !! c) as [q|] eqn:Hq.
      * rewrite decide_True; [done|]. apply list_elem_of_fmap. exists (c, q). by rewrite elem_of_map_to_list.
      * by destruct (decide _).
    + intros c q Hq. destruct (hi_queue _ _ Hq). split; [|done].
      apply signal_at_rest; try done; unfold wiped; cbn [reservation_epoch set_reserved];
        rewrite wrapping_add_small by lia; [by eapply mine_retired | lia].
  - destruct Hor as [|Hs]; [done|]. destruct (hi_seen Hs) as (_ & Hm & Hr).
    assert (Hdr : drained (s_hub Y) = true) by (unfold drained; by rewrite Hm, Hr).
    split_and!; [by apply signal_totals | done..|]. exists (fun q => q). split; [intros c; apply lookup_fmap|].
    intros c q Hq. destruct (hi_queue _ _ Hq). split; [|done].
    destruct (drained_queue _ _ _ _ HI Hdr Hq) as (? & ? & ? & ? & ? & ?).
    apply signal_at_rest; try done. lia.
Qed.
Lemma finish_drain_inv n Y expired : hub_inv n Y -> 0 <= n < u64_max -> draining (s_hub Y) = true ->
  expired = true \/ seen_drained Y = true -> hub_inv (n + 1) (with_hub (finish_drain_locked expired (s_hub Y)).2 Y).
Proof.
  intros HI Hn Hd Hor. pose proof (total_limit_nonneg _ _ HI) as Hmax.
  destruct (finish_drain_rest _ _ _ HI Hn Hor) as (H1 & H2 & H3 & H4 & f & H5 & H6).
  eapply (at_rest_inv n (n + 1) Y _ (fun q => signal_drain (f q))); try done. intros c q Hq. by apply H6.
Qed.

(** ** Reserving *)
Lemma reserve_inv n h l o d c p bytes g out h' :
  hub_inv n {| s_hub := h; live := l; opened := o; seen_drained := d |} -> n < u64_max -> 0 < bytes ->
  reserve_locked cfg c p bytes g h = Some (out, h') ->
  hub_inv (n + 1) {| s_hub := h';
    live := match out with
            | Granted e => {| res_connection_id := c; res_priority := p; res_bytes := bytes; res_epoch := e |} :: l
            | _ => l
            end; opened := o; seen_drained := d |}.
Proof.
  intros HI Hn Hb. unfold reserve_locked. set (Y := {| s_hub := h; live := l; opened := o; seen_drained := d |}) in *.
  assert (Hsame : hub_inv (n + 1) Y) by (eapply inv_mono; [exact HI | lia]).
  destruct (intake_open h) eqn:Hi; [|by intros [= <- <-]]. cbn [negb].
  destruct (queues h !! c) as [q|] eqn:Hq; [|by intros [= <- <-]].
  destruct (is_finished q) eqn:Hfin; [by intros [= <- <-]|].
  set (s1 := match g with Some g => _ | None => _ end).
  assert (hub_inv n (with_hub s1 Y) /\ trimmed h s1) as [HI1 Ht1].
  { unfold s1. destruct g; [split; [by apply (purge_inv _ n Y) | apply purge_trimmed]|].
    split; [done | apply trimmed_refl]. }
  destruct (make_room_total cfg n (with_hub s1 Y) c bytes p HI1) as (s2 & Hs2 & HI2 & Ht2). cbn [s_hub with_hub] in *.
  rewrite Hs2. cbn [mbind option_bind].
  pose proof (trimmed_trans _ _ _ Ht1 Ht2) as Ht. destruct (tr_queue _ _ Ht _ _ Hq) as (k & b & _ & Hq2). rewrite Hq2.
  destruct (lacks_room _ _ _ || _) eqn:Hroom.
  - pose proof (mark_slow_inv cfg n (with_hub s2 Y) c HI2 Hn) as Hslow. cbn [s_hub with_hub] in Hslow.
    destruct (mark_slow_locked c s2) as [slow s3]. intros [= <- <-]. exact Hslow.
  - apply orb_false_iff in Hroom as [Hr1 Hr2%Z.ltb_ge]. intros [= <- <-].
    eapply inv_mono; [|instantiate (1 := n); lia].
    refine (grant_inv cfg n (with_hub s2 Y) c p bytes (set_messages (high q) k b q) HI2 _ Hb Hq2 Hfin Hr1 Hr2). simpl. by rewrite (tr_intake _ _ Ht).
Qed.

Lemma hub_step_inv allowed n Y Y' : opens_once allowed -> hub_inv n Y -> 0 <= n < u64_max -> 0 <= max_messages_per_connection cfg ->
  0 <= max_bytes_per_connection cfg -> step rcfg cfg allowed Y Y' -> hub_inv (n + 1) Y'.
Proof.
  intros Honce HI Hn Hmm Hmb Hstep. inversion Hstep; subst.
  - eapply inv_mono; [eapply open_inv; eauto; lia | lia].
  - eapply inv_mono; [by apply begin_drain_inv | lia].
  - eapply reserve_inv; eauto; lia.
  - eapply inv_mono; [by eapply admit_inv | lia].
  - eapply inv_mono; [by apply drop_inv | lia].
  - eapply inv_mono; [by apply poll_inv | lia].
  - apply close_inv; [done | lia].
  - eapply inv_mono; [by apply receiver_close_inv | lia].
  - eapply inv_mono; [|instantiate (1 := n); lia]. destruct HI. simpl in *. split; simpl; try done.
    intros _. apply andb_true_iff in H0 as [?%Z.eqb_eq ?%Z.eqb_eq]. done.
  - by apply finish_drain_inv.
Qed.

Theorem hub_reachable_inv allowed n Y : opens_once allowed -> reachable rcfg cfg allowed n Y -> Z.of_nat n <= u64_max -> 0 <= max_messages_per_connection cfg ->
  0 <= max_bytes_per_connection cfg -> 0 <= max_total_bytes cfg -> hub_inv (Z.of_nat n) Y.
Proof.
  intros Honce Hr Hn Hmm Hmb Hmt. induction Hr as [|n Y Y' Hr IH Hs].
  - split; simpl; try done; try (by split). intros r Hr. set_solver.
  - rewrite Nat2Z.inj_succ. eapply hub_step_inv; eauto; [apply IH|]; lia.
Qed.
End steps.
