(* ===== verification/RealtimeDeliveryTheorems.v ===== *)
(** * What the delivery hub promises

    Exact accounting under every interleaving, reservations that are honoured, the
    order of reception, when a revocation may be refused, and draining. *)
From S2P Require Import Prelude Machine Text AuthCore RealtimeRegistry RealtimeDelivery RealtimeDeliveryFacts.
From S2P Require Import RealtimeDeliverySteps.

Lemma config_bounds messages bytes total timeout cfg :
  DeliveryQueueConfig_new messages bytes total timeout = Ok cfg -> 0 <= messages -> 0 <= bytes -> 0 <= total ->
  0 < max_messages_per_connection cfg <= MAX_DELIVERY_MESSAGES_PER_CONNECTION
  /\ 0 < max_bytes_per_connection cfg <= max_total_bytes cfg
  /\ max_total_bytes cfg <= MAX_DELIVERY_TOTAL_BYTES.
Proof.
  unfold DeliveryQueueConfig_new, mbind, result_bind, guard_err. intros H Hm Hb Ht.
  destruct (_ || _) eqn:E1 in H; [done|]. destruct (_ || _) eqn:E2 in H; [done|].
  destruct (total <? bytes) eqn:E3; [done|]. destruct (_ || _) eqn:E4 in H; [done|]. injection H as <-. simpl.
  rewrite !orb_false_iff, !Z.eqb_neq in E1. rewrite !orb_false_iff, !Z.ltb_ge in E2. apply Z.ltb_ge in E3. lia.
Qed.

(** The messages a queue holds, in the order it yields them. *)
Definition pending (q : QueueRecord) : list StoredMessage := high q ++ normal q.

Section claims.
Context (rcfg : RegistryConfig) (cfg : DeliveryQueueConfig) (allowed : gset Z -> Z -> Prop).

Lemma high_of_pending n next l c q : queue_wf cfg n next l c q ->
  filter (fun m => priority m = High) (pending q) = high q.
Proof.
  intros []. unfold pending. rewrite filter_app.
  assert (filter (fun m => priority m = High) (normal q) = []) as ->.
  { apply elem_of_nil_inv. intros m [Hp Hm]%list_elem_of_filter. rewrite Forall_forall in qw_normal.
    destruct (qw_normal _ Hm). congruence. }
  rewrite app_nil_r. clear -qw_high. induction qw_high as [|m h Hm Hh IH]; [done|]. rewrite filter_cons, decide_True, IH by done. done.
Qed.

(** C35. Exact accounting, where no connection is opened a second time ([opens_once],
    which callers have to ensure: the hub does not).  After any interleaving of the
    critical sections (up to [u64::MAX] of them) with that proviso, the hub's totals
    are exactly what its queues hold, each queue's counters are exactly its messages
    and the reservations outstanding for it, no counter is negative, and no connection
    or hub limit is exceeded.  Without the proviso the counters can become negative:
    [reopening_underflows]. *)
Theorem hub_accounting n Y messages bytes total timeout :
  DeliveryQueueConfig_new messages bytes total timeout = Ok cfg -> 0 <= messages -> 0 <= bytes -> 0 <= total ->
  Z.of_nat n <= u64_max -> opens_once allowed -> reachable rcfg cfg allowed n Y ->
  let h := s_hub Y in
  hub_queued_messages h = map_sum (fun q => Z.of_nat (length (pending q))) (queues h)
  /\ hub_queued_bytes h = map_sum (fun q => total_bytes (pending q)) (queues h)
  /\ high_priority_messages h
     = map_sum (fun q => Z.of_nat (length (filter (fun m => priority m = High) (pending q)))) (queues h)
  /\ hub_reserved_messages h = map_sum reserved_messages (queues h)
  /\ hub_reserved_bytes h = map_sum reserved_bytes (queues h)
  /\ 0 <= hub_queued_bytes h /\ 0 <= hub_reserved_bytes h
  /\ hub_queued_bytes h + hub_reserved_bytes h <= max_total_bytes cfg
  /\ forall c q, queues h !! c = Some q ->
       let mine := filter (fun r => res_connection_id r = c /\ res_epoch r = reservation_epoch q) (live Y) in
       queued_bytes q = total_bytes (pending q)
       /\ reserved_messages q = Z.of_nat (length mine) /\ reserved_bytes q = sum_bytes mine
       /\ 0 <= queued_bytes q /\ 0 <= reserved_bytes q
       /\ Z.of_nat (length (pending q)) + reserved_messages q <= max_messages_per_connection cfg
       /\ queued_bytes q + reserved_bytes q <= max_bytes_per_connection cfg.
Proof.
  intros Hcfg Hm Hb Ht Hn Honce Hr. destruct (config_bounds _ _ _ _ _ Hcfg Hm Hb Ht) as (? & ? & ?).
  assert (HI : hub_inv cfg (Z.of_nat n) Y) by (eapply hub_reachable_inv; eauto; lia).
  assert (Hq : forall c q, queues (s_hub Y) !! c = Some q -> queued_bytes q = total_bytes (pending q)
    /\ 0 <= queued_bytes q /\ 0 <= reserved_bytes q).
  { intros c q Hq. destruct (hi_queue _ _ _ HI _ _ Hq). unfold pending. rewrite total_bytes_app.
    pose proof (total_bytes_nonneg (high q)). pose proof (total_bytes_nonneg (normal q)).
    split_and!; [lia | lia | by eapply reserved_bytes_nonneg]. }
  pose proof HI as []. destruct hi_totals. split_and!; try done.
  - rewrite ht_messages. apply map_sum_fmap. intros q. unfold queued_messages, pending. by rewrite length_app.
  - rewrite ht_bytes. apply map_sum_rel. intros c. destruct (queues (s_hub Y) !! c) as [q|] eqn:E; [|done]. simpl. f_equal. by apply (Hq c).
  - rewrite ht_high. apply map_sum_rel. intros c. destruct (queues (s_hub Y) !! c) as [q|] eqn:E; [|done]. simpl.
    by erewrite high_of_pending by eauto.
  - rewrite ht_bytes. apply map_sum_nonneg. intros c q Hold. by apply (Hq c).
  - rewrite ht_res_bytes. apply map_sum_nonneg. intros c q Hold. by apply (Hq c).
  - intros c q Hold. destruct (hi_queue _ _ Hold). destruct (Hq _ _ Hold) as (? & ? & ?).
    unfold queued_messages, pending in *. rewrite length_app in *. split_and!; done.
Qed.

(** A reservation is a promise: in every reachable state, a message that fits its
    reservation is admitted unless the queue has gone or is finished (for an ordinary
    message, unless all [u64] sequence numbers are spent).  It goes to the end of
    its priority's line; a revocation takes the ordinary messages of its generation
    with it; no other connection notices. *)
Theorem reservation_honoured n Y messages bytes total timeout res stored q :
  DeliveryQueueConfig_new messages bytes total timeout = Ok cfg -> 0 <= messages -> 0 <= bytes -> 0 <= total ->
  Z.of_nat n <= u64_max -> opens_once allowed -> reachable rcfg cfg allowed n Y -> res ∈ live Y -> bytes_of stored <= res_bytes res ->
  queues (s_hub Y) !! res_connection_id res = Some q -> is_finished q = false ->
  (priority stored = Normal -> next_normal_sequence (s_hub Y) < u64_max) ->
  exists h' q', admit_locked res stored (s_hub Y) = (Ok tt, false, h')
    /\ queues h' !! res_connection_id res = Some q'
    /\ match priority stored with
       | Normal => high q' = high q
           /\ normal q' = normal q ++ [set_sequence (next_normal_sequence (s_hub Y)) stored]
       | High => high q' = high q ++ [stored]
           /\ normal q' = match msg_generation stored with
                          | Some g => filter (fun m => is_generation g m = false) (normal q)
                          | None => normal q
                          end
       end
    /\ reserved_messages q' = reserved_messages q - 1
    /\ reserved_bytes q' = reserved_bytes q - res_bytes res
    /\ forall c, c <> res_connection_id res -> queues h' !! c = queues (s_hub Y) !! c.
Proof.
  intros Hcfg Hm Hb Ht Hn Honce Hr Hres Hfit Hq Hfin Hseq. destruct (config_bounds _ _ _ _ _ Hcfg Hm Hb Ht) as (? & ? & ?).
  assert (HI : hub_inv cfg (Z.of_nat n) Y) by (eapply hub_reachable_inv; eauto; lia).
  destruct (live_counted _ _ _ _ _ HI Hres Hq Hfin) as (He & _ & _).
  unfold admit_locked. rewrite Hq, Hfin. destruct (priority stored) eqn:Hp.
  - assert (checked_add u64_max (next_normal_sequence (s_hub Y)) 1 = Some (next_normal_sequence (s_hub Y) + 1)) as ->.
    { apply checked_add_Some. specialize (Hseq eq_refl). lia. }
    rewrite drop_next, (drop_current _ _ _ Hq Hfin He). unfold push_message. simpl.
    rewrite lookup_insert_eq. simpl. rewrite Hp. do 2 eexists. split; [done|]. simpl.
    rewrite lookup_insert_eq. split_and!; try done. intros c Hc. by rewrite !lookup_insert_ne.
  - set (s1 := match msg_generation stored with Some g => _ | None => _ end).
    assert (exists b, queues s1 !! res_connection_id res = Some (set_messages (high q)
        match msg_generation stored with
        | Some g => filter (fun m => is_generation g m = false) (normal q)
        | None => normal q
        end b q) /\ forall c, c <> res_connection_id res -> queues s1 !! c = queues (s_hub Y) !! c) as (b & Hq1 & Hoth).
    { unfold s1, purge_generation_locked. rewrite Hq. destruct (msg_generation stored); simpl.
      - rewrite lookup_insert_eq. eexists. split; [done|]. intros c Hc. by rewrite lookup_insert_ne.
      - exists (queued_bytes q). rewrite Hq. by destruct q. }
    rewrite (drop_current _ _ _ Hq1 Hfin He). unfold push_message. cbn [queues add_reserved with_queues].
    rewrite lookup_insert_eq, Hp. do 2 eexists. split; [done|]. simpl.
    rewrite lookup_insert_eq. split_and!; try done. intros c Hc. rewrite !lookup_insert_ne by done. by apply Hoth.
Qed.

(** ** Refusals *)
Lemma evict_exhausts bytes q l removed kept : evict cfg bytes q l = (removed, kept) ->
  lacks_room cfg bytes (set_messages (high q) kept (queued_bytes q) q) = true -> kept = [].
Proof.
  revert removed kept. induction l as [|m l IH]; intros removed kept; simpl.
  - destruct (lacks_room _ _ _); by intros [= <- <-].
  - destruct (lacks_room cfg bytes (set_messages _ (m :: l) _ _)) eqn:E.
    + destruct (evict cfg bytes q l) as [rm kp]. intros [= <- <-]. by apply (IH rm).
    + intros [= <- <-]. congruence.
Qed.
Lemma lacks_room_mono bytes q b b' h k : b <= b' ->
  lacks_room cfg bytes (set_messages h k b q) = true -> lacks_room cfg bytes (set_messages h k b' q) = true.
Proof.
  intros Hb. unfold lacks_room, queued_messages. cbn. rewrite !orb_true_iff, !Z.ltb_lt. intros [->|]; [by left|right; lia].
Qed.
Lemma make_room_exhausts c bytes h q : queues h !! c = Some q ->
  exists k b, queues (make_room_for_high_locked cfg c bytes h) !! c = Some (set_messages (high q) k b q)
    /\ (lacks_room cfg bytes (set_messages (high q) k b q) = true -> k = []).
Proof.
  intros Hq. unfold make_room_for_high_locked. rewrite Hq.
  destruct (evict cfg bytes q (normal q)) as [removed kept] eqn:E. simpl. rewrite lookup_insert_eq. do 2 eexists.
  split; [done|]. intros Hl. eapply evict_exhausts; [exact E|]. eapply lacks_room_mono; [|exact Hl].
  pose proof (total_bytes_nonneg removed). lia.
Qed.
Lemma global_room_exhausts fuel bytes h h' : make_global_room_for_high_locked fuel cfg bytes h = Some h' ->
  max_total_bytes cfg < hub_queued_bytes h' + hub_reserved_bytes h' + bytes ->
  forall c q, queues h' !! c = Some q -> normal q = [].
Proof.
  revert h. induction fuel as [|fuel IH]; intros h; simpl.
  all: destruct (_ <? _) eqn:E; [|intros [= <-]; apply Z.ltb_ge in E; lia].
  all: pose proof (oldest_normal_spec (queues h)) as Ho.
  all: destruct (oldest_normal (queues h)) as [c0|]; [|by intros [= <-]].
  all: destruct Ho as (q & x & rest & Hq & Hn & _); rewrite Hq, Hn; try done.
  intros H. by apply (IH _ H).
Qed.

Lemma lacks_room_split bytes q : lacks_room cfg bytes q = true <->
  max_messages_per_connection cfg <= queued_messages q + reserved_messages q
  \/ max_bytes_per_connection cfg < queued_bytes q + reserved_bytes q + bytes.
Proof. unfold lacks_room. by rewrite orb_true_iff, Z.leb_le, Z.ltb_lt. Qed.

(** Making room for a revocation leaves a connection without room only with no
    ordinary message left to drop. *)
Lemma room_after n Y c bytes h2 q : hub_inv cfg n Y -> queues (s_hub Y) !! c = Some q ->
  make_room cfg c bytes High (s_hub Y) = Some h2 -> hub_inv cfg n (with_hub h2 Y) ->
  exists k, queues h2 !! c = Some (set_messages (high q) k (total_bytes (high q) + total_bytes k) q)
    /\ k `sublist_of` normal q
    /\ (lacks_room cfg bytes (set_messages (high q) k (total_bytes (high q) + total_bytes k) q) = true -> k = []).
Proof.
  intros HI Hq Hroom HI2. simpl in Hroom. set (h1 := make_room_for_high_locked cfg c bytes (s_hub Y)) in *.
  pose proof (make_room_inv cfg n Y c bytes HI) as HI1. fold h1 in HI1.
  pose proof (make_room_trimmed cfg c bytes (s_hub Y)) as Ht1. fold h1 in Ht1.
  destruct (global_room cfg _ n _ bytes HI1 (le_n _)) as (h2' & E2 & _ & Ht2). cbn [s_hub with_hub] in *.
  assert (h2' = h2) as -> by congruence.
  destruct (make_room_exhausts c bytes _ _ Hq) as (k1 & b1 & Hq1 & Hex1). fold h1 in Hq1.
  destruct (tr_queue _ _ Ht1 _ _ Hq) as (k1' & b1' & Hsub1 & Hq1'). rewrite Hq1 in Hq1'. injection Hq1' as <- <-.
  destruct (tr_queue _ _ Ht2 _ _ Hq1) as (k & b & Hsub & Hq2). simpl in Hsub, Hq2.
  pose proof (qw_bytes _ _ _ _ _ _ (hi_queue _ _ _ HI1 _ _ Hq1)) as Hb1.
  pose proof (qw_bytes _ _ _ _ _ _ (hi_queue _ _ _ HI2 _ _ Hq2)) as Hb2. simpl in Hb1, Hb2. subst b.
  exists k. split_and!; [done | by etrans|]. intros Hl.
  assert (k1 = []) as ->; [|by apply sublist_nil_r in Hsub]. apply Hex1. apply lacks_room_split in Hl.
  apply lacks_room_split. unfold queued_messages in *. simpl in *. apply sublist_length in Hsub as Hlen.
  pose proof (total_bytes_sublist _ _ Hsub). lia.
Qed.

(** Revocations get through: in every reachable state reserving room for a
    high-priority message returns.  If it is refused for lack of room, the
    connection's own high-priority messages and outstanding reservations already
    fill it, or those of all connections fill the hub: ordinary messages are never
    the reason.  If it is granted, only ordinary messages have been dropped. *)
Theorem high_refused_only_when_full n Y messages bytes_limit total timeout c bytes g :
  DeliveryQueueConfig_new messages bytes_limit total timeout = Ok cfg ->
  0 <= messages -> 0 <= bytes_limit -> 0 <= total -> Z.of_nat n <= u64_max -> opens_once allowed -> reachable rcfg cfg allowed n Y ->
  exists out h', reserve_locked cfg c High bytes g (s_hub Y) = Some (out, h')
    /\ (forall slow, out = RejectedFull slow -> slow = true /\ exists q, queues (s_hub Y) !! c = Some q
         /\ (max_messages_per_connection cfg <= Z.of_nat (length (high q)) + reserved_messages q
             \/ max_bytes_per_connection cfg < total_bytes (high q) + reserved_bytes q + bytes
             \/ max_total_bytes cfg
                < map_sum (fun q => total_bytes (high q)) (queues (s_hub Y)) + hub_reserved_bytes (s_hub Y) + bytes))
    /\ (forall e, out = Granted e -> forall c' q, queues (s_hub Y) !! c' = Some q ->
          exists q', queues h' !! c' = Some q' /\ high q' = high q /\ normal q' `sublist_of` normal q).
Proof.
  intros Hcfg Hm Hb Ht Hn Honce Hr. destruct (config_bounds _ _ _ _ _ Hcfg Hm Hb Ht) as (? & ? & ?).
  assert (HI : hub_inv cfg (Z.of_nat n) Y) by (eapply hub_reachable_inv; eauto; lia).
  unfold reserve_locked. destruct (intake_open (s_hub Y)) eqn:Hi; [|by do 2 eexists; split; [reflexivity|]]. cbn [negb].
  destruct (queues (s_hub Y) !! c) as [q|] eqn:Hq; [|by do 2 eexists; split; [reflexivity|]].
  destruct (is_finished q) eqn:Hfin; [by do 2 eexists; split; [reflexivity|]|].
  set (s1 := match g with Some g => _ | None => _ end).
  assert (hub_inv cfg (Z.of_nat n) (with_hub s1 Y) /\ trimmed (s_hub Y) s1) as [HI1 Ht1].
  { unfold s1. destruct g; [split; [by apply purge_inv | apply purge_trimmed]|].
    destruct Y; split; [done | apply trimmed_refl]. }
  destruct (make_room_total cfg _ (with_hub s1 Y) c bytes High HI1) as (s2 & Hs2 & HI2 & Ht2). cbn [s_hub with_hub] in *.
  pose proof (trimmed_trans _ _ _ Ht1 Ht2) as Htr.
  rewrite Hs2. cbn [mbind option_bind]. destruct (tr_queue _ _ Ht1 _ _ Hq) as (k1 & b1 & Hk1 & Hq1).
  destruct (room_after _ (with_hub s1 Y) c bytes s2 _ HI1 Hq1 Hs2 HI2) as (k & Hq2 & Hk & Hex). simpl in Hq2, Hk, Hex.
  rewrite Hq2. destruct (lacks_room _ _ _ || _) eqn:Hroom.
  - unfold mark_slow_locked. rewrite Hq2. cbn [closed terminal set_messages]. fold (is_finished q). rewrite Hfin.
    do 2 eexists. split; [reflexivity|]. split; [|done]. intros slow [= <-]. split; [done|]. exists q. split; [done|].
    apply orb_true_iff in Hroom as [Hl|Hg%Z.ltb_lt].
    + rewrite (Hex Hl) in Hl. apply lacks_room_split in Hl. unfold queued_messages in Hl. simpl in Hl. lia.
    + do 2 right. cbn [make_room] in Hs2. pose proof (global_room_exhausts _ _ _ _ Hs2 Hg) as Hnil.
      rewrite <- (tr_res_bytes _ _ Htr). destruct (hi_totals _ _ _ HI2). cbn [s_hub with_hub] in *.
      assert (map_sum (fun q => total_bytes (high q)) (queues (s_hub Y)) = hub_queued_bytes s2); [|lia].
      rewrite ht_bytes. apply map_sum_rel. intros c'. destruct (queues (s_hub Y) !! c') as [q'|] eqn:Hq'.
      * destruct (tr_queue _ _ Htr _ _ Hq') as (k' & b' & _ & Hq2'). rewrite Hq2'. simpl. f_equal.
        pose proof (qw_bytes _ _ _ _ _ _ (hi_queue _ _ _ HI2 _ _ Hq2')) as Hb'. apply Hnil in Hq2'. simpl in *.
        subst k'. simpl in Hb'. lia.
      * by rewrite (tr_none _ _ Htr _ Hq').
  - do 2 eexists. split; [reflexivity|]. split; [done|]. intros e _ c' q' Hq'. simpl.
    destruct (decide (c = c')) as [<-|Hne].
    + rewrite lookup_insert_eq. simplify_eq. eexists. split; [done|]. simpl. split; [done|]. by etrans.
    + rewrite lookup_insert_ne by done. destruct (tr_queue _ _ Htr _ _ Hq') as (k' & b' & Hk' & Hq2').
      eexists. split; [done|]. by simpl.
Qed.

(** ** Receiving *)

(** The first message still wanted, and what follows it. *)
Fixpoint first_current (r : RegistryState) (l : list StoredMessage) : option (StoredMessage * list StoredMessage) :=
  match l with
  | [] => None
  | m :: l => if is_current r m then Some (m, l) else first_current r l
  end.
Lemma pop_pending q : match pop_message q with
  | Some (m, q') => pending q = m :: pending q' /\ terminal q' = terminal q /\ closed q' = closed q
  | None => pending q = []
  end.
Proof.
  unfold pop_message, pending. destruct (high q) as [|m h] eqn:Hh; simpl; [|done].
  by destruct (normal q) as [|m k] eqn:Hn; simpl.
Qed.

Lemma poll_recv_skips fuel c w q : queues (hub w) !! c = Some q -> terminal q = None ->
  (length (pending q) < fuel)%nat ->
  exists w' q', poll_recv fuel c w = Some (match first_current (registry w) (pending q) with
                                           | Some (m, _) => ReadyMessage m
                                           | None => if closed q then ReadyNone else Pending
                                           end, w')
    /\ registry w' = registry w /\ queues (hub w') !! c = Some q'
    /\ pending q' = match first_current (registry w) (pending q) with Some (_, l) => l | None => [] end
    /\ forall c', c' <> c -> queues (hub w') !! c' = queues (hub w) !! c'.
Proof.
  revert w q. induction fuel as [|fuel IH]; intros w q Hq Ht Hf; [lia|]. simpl. unfold poll_locked. rewrite Hq, Ht.
  pose proof (pop_pending q) as Hpop. destruct (pop_message q) as [[m q1]|].
  - destruct Hpop as (Hp & Ht1 & Hc1). rewrite Hp in *. simpl in *. destruct (is_current (registry w) m) eqn:Hcur.
    + do 2 eexists. split; [done|]. simpl. split; [done|]. rewrite lookup_insert_eq. split_and!; try done.
      intros c' Hc'. by rewrite lookup_insert_ne.
    + set (w1 := {| registry := registry w; hub := _ |}).
      destruct (IH w1 q1) as (w' & q' & E & Hr & Hq' & Hp' & Hoth);
        [by unfold w1; simpl; rewrite lookup_insert_eq | congruence | lia |].
      rewrite Hc1 in E. exists w', q'. split_and!; try done. intros c' Hc'. rewrite Hoth by done. unfold w1. simpl.
      by rewrite lookup_insert_ne.
  - rewrite Hpop. simpl. destruct (closed q); do 2 eexists; (split; [done|]); by destruct w.
Qed.

(** What is left of a list whose ordinary messages are in order. *)
Lemma first_current_suffix r l m rest : first_current r l = Some (m, rest) ->
  is_current r m = true /\ exists skipped, l = skipped ++ m :: rest /\ Forall (fun x => is_current r x = false) skipped.
Proof.
  induction l as [|x l IH]; simpl; [done|]. destruct (is_current r x) eqn:E.
  - intros [= -> ->]. split; [done|]. by exists [].
  - intros [Hc (sk & -> & Hsk)]%IH. split; [done|]. exists (x :: sk). split; [done|]. by constructor.
Qed.
Definition before (m m' : StoredMessage) : Prop :=
  priority m = High \/ (priority m' = Normal /\ sequence m < sequence m').
Lemma pending_ordered n next l c q : queue_wf cfg n next l c q -> StronglySorted before (pending q).
Proof.
  intros []. unfold pending. clear -qw_high qw_normal qw_sorted. induction qw_high as [|m h Hm Hh IH]; simpl.
  - induction (normal q) as [|m k IH]; [constructor|]. apply Forall_cons in qw_normal as [[? ?] Hk].
    inversion qw_sorted as [|? ? Hs Hall]; subst. constructor; [by apply IH|].
    rewrite Forall_map in Hall. rewrite Forall_forall in Hk, Hall. apply Forall_forall. intros m' Hm'.
    right. split; [by apply Hk | by apply Hall].
  - constructor; [done|]. apply Forall_forall. intros m' _. by left.
Qed.

(** Reception: polling a queue returns.  A terminal notice comes first and closes
    the queue.  Otherwise the receiver gets the first message still wanted (data of
    an active subscription, a revocation of a generation not replaced), the messages
    before it are discarded as stale, and every message behind it comes after it in
    the hub's order: revocations before ordinary messages, ordinary messages in the
    order of their admission.  With nothing wanted left, it is pending or at its
    end.  No other queue is touched. *)
Theorem reception_order n Y r messages bytes total timeout c q fuel :
  DeliveryQueueConfig_new messages bytes total timeout = Ok cfg -> 0 <= messages -> 0 <= bytes -> 0 <= total ->
  Z.of_nat n <= u64_max -> opens_once allowed -> reachable rcfg cfg allowed n Y -> queues (s_hub Y) !! c = Some q ->
  (length (pending q) < fuel)%nat ->
  exists res w' q', poll_recv fuel c {| registry := r; hub := s_hub Y |} = Some (res, w')
    /\ registry w' = r /\ queues (hub w') !! c = Some q'
    /\ (forall c', c' <> c -> queues (hub w') !! c' = queues (s_hub Y) !! c')
    /\ match terminal q with
       | Some t => res = ReadyTerminal t /\ closed q' = true /\ pending q' = pending q
       | None =>
           match first_current r (pending q) with
           | Some (m, rest) => res = ReadyMessage m /\ is_current r m = true /\ pending q' = rest
               /\ Forall (before m) rest
           | None => res = (if closed q then ReadyNone else Pending) /\ pending q' = []
           end
       end.
Proof.
  intros Hcfg Hm Hb Ht Hn Honce Hr Hq Hf. destruct (config_bounds _ _ _ _ _ Hcfg Hm Hb Ht) as (? & ? & ?).
  assert (HI : hub_inv cfg (Z.of_nat n) Y) by (eapply hub_reachable_inv; eauto; lia).
  destruct (terminal q) as [t|] eqn:Et.
  - destruct fuel as [|fuel]; [lia|]. simpl. unfold poll_locked. rewrite Hq, Et. do 3 eexists. split; [done|]. simpl.
    rewrite lookup_insert_eq. split_and!; try done. intros c' Hc'. by rewrite lookup_insert_ne.
  - destruct (poll_recv_skips fuel c {| registry := r; hub := s_hub Y |} q Hq Et Hf) as (w' & q' & E & Hreg & Hq' & Hp & Hoth).
    simpl in *. do 3 eexists. split; [exact E|]. split_and!; [done | done | done |].
    destruct (first_current r (pending q)) as [[m rest]|] eqn:Ef; [|done].
    destruct (first_current_suffix _ _ _ _ Ef) as [Hcur (sk & Hl & _)]. split_and!; try done.
    pose proof (pending_ordered _ _ _ _ _ (hi_queue _ _ _ HI _ _ Hq)) as Hs. rewrite Hl in Hs.
    clear -Hs. induction sk as [|x sk IH]; simpl in Hs; inversion Hs; subst; [done | by apply IH].
Qed.

(** ** Draining *)

(** Draining: once draining, every reservation is refused.  [finish_drain], when
    the deadline has expired or the hub has been seen drained, reports exactly the
    number of messages that were still queued as dropped (none, when it was seen
    drained).  Afterwards nothing is queued or reserved, a queue that was open ends
    with the draining notice, and reservations still held can neither admit a
    message nor disturb the counters. *)
Theorem drain_outcome n Y messages bytes total timeout expired :
  DeliveryQueueConfig_new messages bytes total timeout = Ok cfg -> 0 <= messages -> 0 <= bytes -> 0 <= total ->
  Z.of_nat n < u64_max -> opens_once allowed -> reachable rcfg cfg allowed n Y ->
  draining (s_hub Y) = true -> expired = true \/ seen_drained Y = true ->
  let '(dropped, _, h') := finish_drain_locked expired (s_hub Y) in
  (forall c p b g, reserve_locked cfg c p b g (s_hub Y) = Some (Rejected IntakeClosed, s_hub Y))
  /\ dropped = map_sum (fun q => Z.of_nat (length (pending q))) (queues (s_hub Y))
  /\ hub_queued_messages h' = 0 /\ hub_queued_bytes h' = 0
  /\ hub_reserved_messages h' = 0 /\ hub_reserved_bytes h' = 0
  /\ (forall c q, queues (s_hub Y) !! c = Some q -> exists q', queues h' !! c = Some q' /\ pending q' = []
        /\ is_finished q' = true
        /\ (receiver_open q = true -> closed q = false -> terminal q' = Some DrainingTerminal))
  /\ (forall res stored, res ∈ live Y ->
        admit_locked res stored h' = (Err QueueClosed, true, h') /\ drop_reservation res h' = h').
Proof.
  intros Hcfg Hm Hb Ht Hn Honce Hr Hd Hor. destruct (config_bounds _ _ _ _ _ Hcfg Hm Hb Ht) as (? & ? & ?).
  assert (HI : hub_inv cfg (Z.of_nat n) Y) by (eapply hub_reachable_inv; eauto; lia).
  assert (0 <= Z.of_nat n < u64_max) as Hn' by lia.
  pose proof (finish_drain_rest cfg _ _ _ HI Hn' Hor) as (H1' & _ & _ & _ & f & Hf & Hrest).
  destruct (finish_drain_locked expired (s_hub Y)) as [[dropped conns] h'] eqn:Efin. cbn [snd] in *.
  assert (Hz : forall g, (forall n l c q q', at_rest n l c q q' -> g q' = 0) -> map_sum g (queues h') = 0).
  { intros g Hg. apply map_sum_zero. intros c q'. rewrite Hf. intros (q & Hq & ->)%fmap_Some_1.
    eapply Hg. by apply Hrest. }
  pose proof (hi_draining _ _ _ HI Hd) as Hi. destruct H1'. split_and!.
  - intros. unfold reserve_locked. by rewrite Hi.
  - assert (map_sum (fun q => Z.of_nat (length (pending q))) (queues (s_hub Y)) = hub_queued_messages (s_hub Y)) as ->.
    { destruct (hi_totals _ _ _ HI) as [-> _ _ _ _]. apply map_sum_fmap. intros q. unfold pending, queued_messages.
      by rewrite length_app. }
    injection Efin as <- _ _. destruct expired; [done|]. destruct Hor as [|Hs]; [done|].
    symmetry. by apply (hi_seen _ _ _ HI).
  - rewrite ht_messages. apply Hz. intros ????? []. unfold queued_messages. by rewrite ar_high, ar_normal.
  - rewrite ht_bytes. apply Hz. by intros ????? [].
  - rewrite ht_res_messages. apply Hz. by intros ????? [].
  - rewrite ht_res_bytes. apply Hz. by intros ????? [].
  - intros c q Hq. destruct (Hrest c q Hq) as ([] & Hro & Hcl). exists (signal_drain (f q)). rewrite Hf, Hq.
    split_and!; [done | unfold pending; by rewrite ar_high, ar_normal | done |].
    intros Hopen Hclosed. unfold signal_drain. by rewrite Hro, Hcl, Hopen, Hclosed.
  - intros res stored Hres. unfold admit_locked, drop_reservation, release_reservation_locked. rewrite Hf.
    destruct (queues (s_hub Y) !! res_connection_id res) as [q|] eqn:Hq; simpl; [|done].
    destruct (Hrest _ q Hq) as ([] & _ & _). rewrite ar_finished. split; [done|].
    case_bool_decide as He; [|done]. exfalso.
    assert (res ∈ mine (live Y) (res_connection_id res) (reservation_epoch (signal_drain (f q)))) as Hin
      by (by apply mine_elem). rewrite ar_mine in Hin. set_solver.
Qed.
End claims.

(** ** Concrete runs *)
Definition demo_registry : RegistryConfig :=
  {| max_connections := 2; max_subscriptions := 2; max_subscriptions_per_connection := 2 |}.
Definition demo_delivery : DeliveryQueueConfig :=
  {| max_messages_per_connection := 4; max_bytes_per_connection := 100; max_total_bytes := 200;
     drain_timeout := 10000000 |}.
Definition demo_message (p : DeliveryPriority) (body : string) : StoredMessage :=
  {| encoded := body; message_type := "note"; priority := p; msg_generation := None; sequence := 0 |}.
Definition demo_reservation (p : DeliveryPriority) (bytes : Z) : DeliveryReservation :=
  {| res_connection_id := 1; res_priority := p; res_bytes := bytes; res_epoch := 0 |}.

Definition demo_open : HubState := Eval vm_compute in (open_locked 2 1 HubState_default).2.
Definition demo_reserved : HubState :=
  Eval vm_compute in match reserve_locked demo_delivery 1 Normal 10 None demo_open with Some (_, h) => h | None => demo_open end.
Definition demo_admitted : HubState :=
  Eval vm_compute in (admit_locked (demo_reservation Normal 10) (demo_message Normal "hello") demo_reserved).2.
Definition demo_sys (h : HubState) (l : list DeliveryReservation) : sys :=
  {| s_hub := h; live := l; opened := {[1]} ∪ ∅; seen_drained := false |}.

(** Each connection is opened once. *)
Definition fresh_only (o : gset Z) (c : Z) : Prop := c ∉ o.
Lemma fresh_once : opens_once fresh_only.
Proof. by intros o c. Qed.
Lemma demo_reserved_reachable :
  reachable demo_registry demo_delivery fresh_only 2 (demo_sys demo_reserved [demo_reservation Normal 10]).
Proof.
  eapply reachable_step; [eapply reachable_step; [apply reachable_start|]|].
  - apply (step_open _ _ _ HubState_default [] ∅ false 1 demo_open); [unfold fresh_only; set_solver | vm_compute; reflexivity].
  - apply (step_reserve _ _ _ demo_open [] _ false 1 Normal 10 None (Granted 0) demo_reserved); [simpl; lia|].
    vm_compute. reflexivity.
Qed.
Lemma demo_admitted_reachable : reachable demo_registry demo_delivery fresh_only 3 (demo_sys demo_admitted []).
Proof.
  eapply reachable_step; [apply demo_reserved_reachable|].
  apply (step_admit _ _ _ demo_reserved [] (demo_reservation Normal 10) [] _ false (demo_message Normal "hello") (Ok tt) false);
    [vm_compute; discriminate | vm_compute; reflexivity].
Qed.

Lemma hub_accounting_witness :
  hub_queued_bytes demo_admitted = 5
  /\ hub_queued_bytes demo_admitted = map_sum (fun q => total_bytes (pending q)) (queues demo_admitted).
Proof.
  split; [reflexivity|].
  apply (hub_accounting demo_registry demo_delivery fresh_only 3 (demo_sys demo_admitted []) 4 100 200 10000000);
    [reflexivity | lia | lia | lia | vm_compute; discriminate | apply fresh_once | apply demo_admitted_reachable].
Defined.
Lemma reservation_honoured_witness :
  exists h', admit_locked (demo_reservation Normal 10) (demo_message Normal "hello") demo_reserved = (Ok tt, false, h').
Proof.
  destruct (reservation_honoured demo_registry demo_delivery fresh_only 2 (demo_sys demo_reserved [demo_reservation Normal 10])
    4 100 200 10000000 (demo_reservation Normal 10) (demo_message Normal "hello")
    (set_reserved 1 10 0 QueueRecord_new)) as (h' & _ & H & _);
    [reflexivity | lia | lia | lia | vm_compute; discriminate | apply fresh_once | apply demo_reserved_reachable | set_solver
    | vm_compute; discriminate | reflexivity | reflexivity | intros _; vm_compute; reflexivity |].
  exists h'. exact H.
Defined.
Lemma high_refused_only_when_full_witness :
  exists out h', reserve_locked demo_delivery 1 High 100 None demo_admitted = Some (out, h') /\ out = Granted 0
    /\ exists q', queues h' !! 1 = Some q' /\ normal q' = [].
Proof.
  destruct (high_refused_only_when_full demo_registry demo_delivery fresh_only 3 (demo_sys demo_admitted []) 4 100 200 10000000 1 100 None)
    as (out & h' & H & _ & _);
    [reflexivity | lia | lia | lia | vm_compute; discriminate | apply fresh_once | apply demo_admitted_reachable |].
  exists out, h'. split; [exact H|]. vm_compute in H. injection H as <- <-. split; [reflexivity|].
  eexists. split; [vm_compute; reflexivity | reflexivity].
Defined.
Lemma reception_order_witness :
  exists w', poll_recv 2 1 {| registry := RegistryState_default; hub := demo_admitted |}
    = Some (ReadyMessage (demo_message Normal "hello"), w') /\ hub_queued_messages (hub w') = 0.
Proof.
  destruct (reception_order demo_registry demo_delivery fresh_only 3 (demo_sys demo_admitted []) RegistryState_default 4 100 200
    10000000 1 (set_messages [] [demo_message Normal "hello"] 5 QueueRecord_new) 2) as (res & w' & q' & H & _);
    [reflexivity | lia | lia | lia | vm_compute; discriminate | apply fresh_once | apply demo_admitted_reachable | reflexivity
    | simpl; lia |].
  vm_compute in H. injection H as <- <-. eexists. split; reflexivity.
Defined.
Lemma drain_outcome_witness :
  (finish_drain_locked true (begin_drain demo_admitted)).1.1 = 1
  /\ hub_queued_messages (finish_drain_locked true (begin_drain demo_admitted)).2 = 0.
Proof.
  split; [reflexivity|].
  assert (reachable demo_registry demo_delivery fresh_only 4 (with_hub (begin_drain demo_admitted) (demo_sys demo_admitted []))) as Hr
    by (eapply reachable_step; [apply demo_admitted_reachable | apply step_begin_drain]).
  pose proof (drain_outcome demo_registry demo_delivery fresh_only 4 _ 4 100 200 10000000 true eq_refl ltac:(lia) ltac:(lia) ltac:(lia)
    ltac:(vm_compute; reflexivity) fresh_once Hr eq_refl (or_introl eq_refl)) as H.
  exact (proj1 (proj2 (proj2 H))).
Defined.

(** ** Two behaviours of the code *)

(** [make_room_for_high_locked] compares the queue's byte counter, which it only
    adjusts after its loop: once a connection's byte limit is in the way, all of its
    ordinary messages are dropped, even when dropping one would have been enough. *)
Theorem byte_pressure_drops_everything cfg bytes q l :
  max_bytes_per_connection cfg < queued_bytes q + reserved_bytes q + bytes -> evict cfg bytes q l = (l, []).
Proof.
  intros H. assert (Hl : forall k, lacks_room cfg bytes (set_messages (high q) k (queued_bytes q) q) = true).
  { intros k. apply lacks_room_split. right. exact H. }
  induction l as [|m l IH]; simpl; rewrite Hl; [done|]. by rewrite IH.
Qed.
Example byte_pressure_overshoots :
  let m := demo_message Normal "0123456789" in
  let q := set_messages [] [m; m; m] 30 QueueRecord_new in
  let cfg := {| max_messages_per_connection := 4; max_bytes_per_connection := 35; max_total_bytes := 200;
                drain_timeout := 10000000 |} in
  evict cfg 10 q (normal q) = ([m; m; m], [])
  /\ lacks_room cfg 10 (set_messages [] [m; m] 20 q) = false.
Proof. split; reflexivity. Qed.

(** [close_connection] removes the queue before it closes the connection in the
    registry.  If [open_connection] runs in between, the new queue starts again at
    epoch zero, and a reservation of the old queue is released against the new one:
    the hub arrives at a negative number of reserved messages. *)
Lemma reopening_underflows :
  exists Y, reachable demo_registry demo_delivery (fun _ _ => True) 5 Y /\ hub_reserved_messages (s_hub Y) = -1.
Proof.
  set (h := (open_locked 2 1 (close_connection_locked 1 demo_reserved)).2).
  exists {| s_hub := drop_reservation (demo_reservation Normal 10) h; live := []; opened := {[1]} ∪ ({[1]} ∪ ∅);
            seen_drained := false |}. split; [|vm_compute; reflexivity].
  assert (demo_reach : reachable demo_registry demo_delivery (fun _ _ => True) 2
            (demo_sys demo_reserved [demo_reservation Normal 10])).
  { eapply reachable_step; [eapply reachable_step; [apply reachable_start|]|].
    - apply (step_open _ _ _ HubState_default [] ∅ false 1 demo_open); [done | vm_compute; reflexivity].
    - apply (step_reserve _ _ _ demo_open [] _ false 1 Normal 10 None (Granted 0) demo_reserved); [simpl; lia|].
      vm_compute. reflexivity. }
  eapply reachable_step; [eapply reachable_step; [eapply reachable_step; [exact demo_reach|]|]|].
  - apply (step_close _ _ _ _ 1).
  - apply (step_open _ _ _ (close_connection_locked 1 demo_reserved) [demo_reservation Normal 10] ({[1]} ∪ ∅) false 1 h);
      [done | vm_compute; reflexivity].
  - apply (step_drop _ _ _ h [] (demo_reservation Normal 10) [] ({[1]} ∪ ({[1]} ∪ ∅)) false).
Qed.
