(* ===== verification/TaskDomain.v ===== *)
(** * Durable MCP tasks: [crates/mcp-tasks/src/domain.rs]

    Task snapshots, input rounds and the optimistic state machine.  JSON values, their
    encoding, the protocol crate's input requests and SHA-256 are third-party code
    and parameters ([TaskPayloads]).  Instants are nanoseconds; [time_max] is the
    last instant an [OffsetDateTime] holds.  Identifiers are integers. *)
From S2P Require Import Prelude Machine Text Ordered AuthCore.
From Stdlib Require Import Ascii.

Definition MAX_TASK_INPUT_BYTES : Z := 1048576.
Definition MAX_INPUT_REQUESTS : Z := 64.
Definition MAX_INPUT_KEY_BYTES : Z := 128.
Definition MAX_RESERVATION_REF_BYTES : Z := 256.
Definition MAX_REQUEST_STATE_BYTES : Z := 8192.

Inductive TaskValueError := ValueEmpty | ValueTooLong | ValueInvalid.

Record TaskOwner := { owner_subject_id : Z; owner_tenant_id : option Z }.
#[global] Instance TaskOwner_eq : EqDecision TaskOwner.
Proof. solve_decision. Defined.
Definition from_principal (p : Principal) : TaskOwner :=
  {| owner_subject_id := subject_id p; owner_tenant_id := principal_tenant_id p |}.

Definition is_ascii_graphic (c : ascii) : bool := (33 <=? byte_val c) && (byte_val c <=? 126).
Definition validate_graphic (value : string) (max : Z) : result TaskValueError unit :=
  _ ← guard_err (is_empty value) ValueEmpty;
  _ ← guard_err (max <? len value) ValueTooLong;
  guard_err (negb (all_bytes is_ascii_graphic value)) ValueInvalid.
Definition BudgetReservationRef_new (value : string) : result TaskValueError string :=
  _ ← validate_graphic value MAX_RESERVATION_REF_BYTES; Ok value.
Definition TaskRequestState_new (value : string) : result TaskValueError string :=
  _ ← guard_err (is_empty value || (MAX_REQUEST_STATE_BYTES <? len value) || negb (all_bytes is_ascii_graphic value))
        ValueInvalid;
  Ok value.
Definition InputKey_new (value : string) : result TaskValueError string :=
  _ ← validate_graphic value MAX_INPUT_KEY_BYTES; Ok value.

(** [TaskGeneration] and [TaskVersion] are non-zero [u64]. *)
Definition INITIAL : Z := 1.
Definition TaskGeneration_new (value : Z) : result TaskValueError Z :=
  if value =? 0 then Err ValueInvalid else Ok value.
Definition TaskVersion_new (value : Z) : result TaskValueError Z :=
  if value =? 0 then Err ValueInvalid else Ok value.
Definition generation_next (g : Z) : option Z := checked_add u64_max g 1.

Definition MILLI : Z := 1000000.
Record TaskConfig := { ttl : Z; poll_interval : Z; expiry_batch_size : Z }.
Definition TaskConfig_new (ttl poll batch : Z) : result TaskValueError TaskConfig :=
  _ ← guard_err ((ttl <? MILLI) || (8760 * 3600 * 1000 * MILLI <? ttl) || (poll <? 100 * MILLI)
                 || (60 * 1000 * MILLI <? poll) || (batch =? 0) || (1000 <? batch)) ValueInvalid;
  Ok {| ttl := ttl; poll_interval := poll; expiry_batch_size := batch |}.

Record CapabilityKey := { capability_id : string; capability_version : string }.
#[global] Instance CapabilityKey_eq : EqDecision CapabilityKey.
Proof. solve_decision. Defined.
Inductive TenantMode := GlobalMode | TenantScoped | PrincipalScoped.
Inductive ConfirmationEvidence := NotProvided | Confirmed | NotRequiredByPolicy.
Record BudgetBounds := { max_input_bytes : Z; max_output_bytes : Z; max_work_units : Z }.
Record TaskBudget := { bounds : BudgetBounds; reservation : string }.
#[global] Instance TaskBudget_eq : EqDecision TaskBudget.
Proof. assert (EqDecision BudgetBounds) by solve_decision. solve_decision. Defined.
Record TaskIdempotency := { idem_key : string; fingerprint : string }.
Record TaskIdentity := { request_id : Z; correlation_id : Z; causation_id : option Z }.

Class TaskPayloads := {
  Value : Type;
  Value_eq :: EqDecision Value;
  is_object : Value -> bool;
  to_vec : Value -> option string;
  (** What decoding as an [rmcp] input request and encoding again gives back. *)
  normalized_request : Value -> option Value;
  (** The length of an encoded round or response batch. *)
  exchanges_len : gmap string (Value * option Value) -> option Z;
  responses_len : gmap string Value -> option Z;
  (** The length of an encoded round: its number, its request state, its exchanges. *)
  round_len : Z -> string -> gmap string (Value * option Value) -> option Z;
  sha256_segments : list string -> string;
  ToolResult : Type;
  time_max : Z;
}.

Section domain.
Context `{TaskPayloads}.

Definition validate_json_object (v : Value) (max : Z) : result TaskValueError unit :=
  _ ← guard_err (negb (is_object v)) ValueInvalid;
  match to_vec v with
  | None => Err ValueInvalid
  | Some bytes => guard_err (max <? len bytes) ValueTooLong
  end.
Definition validate_len (n : option Z) (max : Z) : result TaskValueError unit :=
  match n with
  | None => Err ValueInvalid
  | Some n => guard_err (max <? n) ValueTooLong
  end.

Definition for_invocation (capability : CapabilityKey) (input : Value) : result TaskValueError string :=
  match to_vec input with
  | None => Err ValueInvalid
  | Some bytes =>
      _ ← guard_err (MAX_TASK_INPUT_BYTES <? len bytes) ValueTooLong;
      Ok (sha256_segments [capability_id capability; capability_version capability; bytes])
  end.

Record TaskExecution := {
  ex_capability : CapabilityKey;
  tenant_mode : TenantMode;
  confirmation : ConfirmationEvidence;
  ex_input : Value;
  ex_idempotency_key : string;
  ex_budget : TaskBudget;
}.
Definition TaskExecution_new (capability : CapabilityKey) (mode : TenantMode) (evidence : ConfirmationEvidence)
    (input : Value) (key : string) (budget : TaskBudget) : result TaskValueError TaskExecution :=
  _ ← validate_json_object input MAX_TASK_INPUT_BYTES;
  Ok {| ex_capability := capability; tenant_mode := mode; confirmation := evidence; ex_input := input;
        ex_idempotency_key := key; ex_budget := budget |}.

(** ** Input rounds *)
Record InputExchange := { request : Value; response : option Value }.
Definition is_pending (e : InputExchange) : bool := match response e with None => true | Some _ => false end.
Definition InputExchange_pending (v : Value) : result TaskValueError InputExchange :=
  _ ← validate_json_object v MAX_TASK_INPUT_BYTES;
  match normalized_request v with
  | None => Err ValueInvalid
  | Some n => _ ← guard_err (negb (bool_decide (n = v))) ValueInvalid; Ok {| request := v; response := None |}
  end.

Record InputRound := { number : Z; request_state : string; exchanges : gmap string InputExchange }.
Definition as_pairs (m : gmap string InputExchange) : gmap string (Value * option Value) :=
  (fun e => (request e, response e)) <$> m.
Definition InputRound_new (n : Z) (state : string) (m : gmap string InputExchange) : result TaskValueError InputRound :=
  _ ← guard_err ((n =? 0) || bool_decide (size m = 0%nat) || (MAX_INPUT_REQUESTS <? Z.of_nat (size m))) ValueInvalid;
  _ ← validate_len (exchanges_len (as_pairs m)) MAX_TASK_INPUT_BYTES;
  Ok {| number := n; request_state := state; exchanges := m |}.
(** [round.pending().next().is_none()] *)
Definition all_answered (m : gmap string InputExchange) : bool :=
  bool_decide (map_Forall (fun _ e => is_pending e = false) m).

Definition InputResponses : Type := gmap string Value.
(** [InputResponses::new] over the pairs in key order. *)
Fixpoint validate_responses (l : list (string * Value)) : result TaskValueError unit :=
  match l with
  | [] => Ok tt
  | (k, v) :: l' =>
      _ ← validate_json_object v MAX_TASK_INPUT_BYTES;
      _ ← InputKey_new k;
      validate_responses l'
  end.
Definition InputResponses_new (m : gmap string Value) : result TaskValueError InputResponses :=
  _ ← guard_err (bool_decide (size m = 0%nat) || (MAX_INPUT_REQUESTS <? Z.of_nat (size m))) ValueInvalid;
  _ ← validate_responses (sort_by (by_key fst) (map_to_list m));
  _ ← validate_len (responses_len m) MAX_TASK_INPUT_BYTES;
  Ok m.

(** One key of [InputRound::apply]. *)
Definition answer (k : string) (v : Value) (acc : gmap string InputExchange * bool)
    : gmap string InputExchange * bool :=
  match acc.1 !! k with
  | Some e => match response e with
              | None => (<[k := {| request := request e; response := Some v |}]> acc.1, true)
              | Some _ => acc
              end
  | None => acc
  end.
Record InputRoundUpdate := { updated_round : InputRound; changed : bool; complete : bool }.
Definition apply_responses (round : InputRound) (responses : InputResponses) : InputRoundUpdate :=
  let '(m, ch) := map_fold answer (exchanges round, false) responses in
  {| updated_round := {| number := number round; request_state := request_state round; exchanges := m |};
     changed := ch; complete := all_answered m |}.
Definition exchange_succeeds (e : InputExchange) (candidate : option InputExchange) : bool :=
  match candidate with
  | Some e' => bool_decide (request e = request e')
               && match response e with Some v => bool_decide (response e' = Some v) | None => true end
  | None => false
  end.
Definition is_response_successor (current next : InputRound) : bool :=
  bool_decide (number current = number next)
  && bool_decide (request_state current = request_state next)
  && bool_decide (size (exchanges current) = size (exchanges next))
  && bool_decide (map_Forall (fun k e => exchange_succeeds e (exchanges next !! k) = true) (exchanges current)).

(** ** States and transitions *)
Inductive TaskStatus := Working_ | InputRequired_ | Completed_ | Failed_ | Cancelled_.
Inductive TaskFailureCode :=
| CapabilityRejected | DeadlineExceeded | ExecutionFailed | InvalidResult | Expired | Indeterminate.
Inductive TaskState :=
| Working
| InputRequired (round : InputRound)
| Completed (result : ToolResult)
| Failed (failure : TaskFailureCode)
| Cancelled.
Inductive TaskTransition :=
| RequireInput (round : InputRound)
| RecordInput (round : InputRound)
| Resume (answered_round : InputRound) (job_id generation : Z)
| RequestCancellation
| Complete (result : ToolResult)
| Fail (failure : TaskFailureCode)
| Cancel.
Inductive TaskTransitionError := StaleVersion | TerminalState | InvalidTransition | NonMonotonicTime | Exhausted.
Definition status (s : TaskState) : TaskStatus :=
  match s with
  | Working => Working_ | InputRequired _ => InputRequired_ | Completed _ => Completed_
  | Failed _ => Failed_ | Cancelled => Cancelled_
  end.
Definition is_terminal (s : TaskState) : bool :=
  match status s with Completed_ | Failed_ | Cancelled_ => true | _ => false end.

Record TaskSnapshot := {
  task_id : Z;
  owner : TaskOwner;
  capability : CapabilityKey;
  identity : TaskIdentity;
  idempotency : TaskIdempotency;
  budget : TaskBudget;
  current_job_id : Z;
  generation : Z;
  version : Z;
  state : TaskState;
  cancellation_requested : bool;
  created_at : Z;
  updated_at : Z;
  expires_at : Z;
  poll_interval_ms : Z;
}.
Definition saturating_add_time (t d : Z) : Z := Z.min (t + d) time_max.
Definition checked_add_time (t d : Z) : option Z := if t + d <=? time_max then Some (t + d) else None.

Definition initial (id : Z) (own : TaskOwner) (cap : CapabilityKey) (ident : TaskIdentity) (idem : TaskIdempotency)
    (bud : TaskBudget) (job created : Z) (config : TaskConfig) : TaskSnapshot :=
  {| task_id := id; owner := own; capability := cap; identity := ident; idempotency := idem; budget := bud;
     current_job_id := job; generation := INITIAL; version := INITIAL; state := Working;
     cancellation_requested := false; created_at := created; updated_at := created;
     expires_at := saturating_add_time created (ttl config); poll_interval_ms := poll_interval config `div` MILLI |}.
Definition set_times (created updated expires : Z) (s : TaskSnapshot) : TaskSnapshot :=
  {| task_id := task_id s; owner := owner s; capability := capability s; identity := identity s;
     idempotency := idempotency s; budget := budget s; current_job_id := current_job_id s;
     generation := generation s; version := version s; state := state s;
     cancellation_requested := cancellation_requested s; created_at := created; updated_at := updated;
     expires_at := expires; poll_interval_ms := poll_interval_ms s |}.
Definition is_working (s : TaskState) : bool := match s with Working => true | _ => false end.
(** Nothing has happened to the task yet. *)
Definition is_fresh (s : TaskSnapshot) : bool :=
  (generation s =? INITIAL) && (version s =? INITIAL) && is_working (state s)
  && negb (cancellation_requested s) && (created_at s =? updated_at s).
Definition with_authoritative_creation_time (now : Z) (s : TaskSnapshot) : result TaskValueError TaskSnapshot :=
  _ ← guard_err (negb (is_fresh s)) ValueInvalid;
  let lifetime := expires_at s - created_at s in
  _ ← guard_err (lifetime <=? 0) ValueInvalid;
  match checked_add_time now lifetime with
  | None => Err ValueInvalid
  | Some expires => Ok (set_times now now expires s)
  end.

(** The checks of [TaskSnapshot::restore] beyond the validity of a stored round. *)
Definition MAX_TTL_MILLIS : Z := 365 * 24 * 60 * 60 * 1000.
Definition expiry_timing_is_valid (s : TaskSnapshot) : bool :=
  match state s with
  | Failed Expired => expires_at s <=? updated_at s
  | _ => updated_at s <? expires_at s
  end.
Definition restorable (s : TaskSnapshot) : bool :=
  let ttl_millis := Z.quot (expires_at s - created_at s) MILLI in
  (created_at s <=? updated_at s) && (0 <? ttl_millis) && (ttl_millis <=? MAX_TTL_MILLIS)
  && (100 <=? poll_interval_ms s) && (poll_interval_ms s <=? 60000) && (generation s <=? version s)
  && negb (match state s with Cancelled => negb (cancellation_requested s) | _ => false end)
  && expiry_timing_is_valid s.
(** [validate_restored_state]: a stored round is built again from its parts. *)
Fixpoint validate_exchanges (l : list (string * InputExchange)) : result TaskValueError unit :=
  match l with
  | [] => Ok tt
  | (k, e) :: l' =>
      _ ← InputKey_new k;
      _ ← InputExchange_pending (request e);
      _ ← match response e with Some v => validate_json_object v MAX_TASK_INPUT_BYTES | None => Ok tt end;
      validate_exchanges l'
  end.
Definition validate_restored_state (s : TaskState) : result TaskValueError unit :=
  match s with
  | InputRequired round =>
      _ ← TaskRequestState_new (request_state round);
      _ ← validate_exchanges (sort_by (by_key fst) (map_to_list (exchanges round)));
      _ ← InputRound_new (number round) (request_state round) (exchanges round);
      Ok tt
  | _ => Ok tt
  end.
Definition restore (s : TaskSnapshot) : result TaskValueError TaskSnapshot :=
  _ ← validate_restored_state (state s);
  _ ← guard_err (negb (restorable s)) ValueInvalid;
  Ok s.

(** [transitioned]: the fields every transition sets, then the transition's own. *)
Definition moved (s : TaskSnapshot) (now : Z) (st : TaskState) (cancel : bool) (job gen : Z) : TaskSnapshot :=
  {| task_id := task_id s; owner := owner s; capability := capability s; identity := identity s;
     idempotency := idempotency s; budget := budget s; current_job_id := job; generation := gen;
     version := version s + 1; state := st; cancellation_requested := cancel; created_at := created_at s;
     updated_at := now; expires_at := expires_at s; poll_interval_ms := poll_interval_ms s |}.
Definition to_state (s : TaskSnapshot) (now : Z) (st : TaskState) : TaskSnapshot :=
  moved s now st (cancellation_requested s) (current_job_id s) (generation s).
Definition transition_body (s : TaskSnapshot) (tr : TaskTransition) (now : Z) : result TaskTransitionError TaskSnapshot :=
  let late := expires_at s <=? now in
  match tr with
  | RequireInput round =>
      _ ← guard_err (negb (is_working (state s)) || late) InvalidTransition;
      Ok (to_state s now (InputRequired round))
  | RecordInput round =>
      match state s with
      | InputRequired current =>
          _ ← guard_err (negb (is_response_successor current round) || all_answered (exchanges round) || late)
                InvalidTransition;
          Ok (to_state s now (InputRequired round))
      | _ => Err InvalidTransition
      end
  | Resume answered job gen =>
      match generation_next (generation s) with
      | None => Err Exhausted
      | Some expected =>
          match state s with
          | InputRequired current =>
              _ ← guard_err (negb (is_response_successor current answered) || negb (all_answered (exchanges answered))
                             || negb (gen =? expected) || late) InvalidTransition;
              Ok (moved s now Working false job gen)
          | _ => Err InvalidTransition
          end
      end
  | RequestCancellation =>
      if cancellation_requested s then Ok s
      else
        _ ← guard_err late InvalidTransition;
        Ok (moved s now (state s) true (current_job_id s) (generation s))
  | Complete result =>
      _ ← guard_err late InvalidTransition;
      Ok (to_state s now (Completed result))
  | Fail failure =>
      let expired := match failure with Expired => true | _ => false end in
      _ ← guard_err ((expired && negb late) || (negb expired && late)) InvalidTransition;
      Ok (to_state s now (Failed failure))
  | Cancel =>
      _ ← guard_err late InvalidTransition;
      Ok (moved s now Cancelled true (current_job_id s) (generation s))
  end.
Definition transitioned (s : TaskSnapshot) (expected_version : Z) (tr : TaskTransition) (now : Z)
    : result TaskTransitionError TaskSnapshot :=
  _ ← guard_err (negb (version s =? expected_version)) StaleVersion;
  _ ← guard_err (is_terminal (state s)) TerminalState;
  _ ← guard_err (now <=? updated_at s) NonMonotonicTime;
  match checked_add u64_max (version s) 1 with
  | None => Err Exhausted
  | Some _ => transition_body s tr now
  end.
End domain.
