(* ===== verification/TaskStore.v ===== *)
(** * The durable task repository: [crates/mcp-tasks/src/postgres.rs]

    The tables, and one transaction per repository method.  A transaction that locks
    a row ([FOR UPDATE]) is atomic and rolls back when it fails, so a method maps the
    tables to its outcome and the new tables, or to an error.  The constraints and
    the trigger of [migrations/2026082808_create_mcp_tasks.sql] are checked where
    rows are written; a failing database call changes nothing and is left out.
    Digests of keys are the keys themselves.  Sealing and opening documents is the
    deployment's key service, a parameter that may refuse ([TaskProtector]), and so
    is the length of a document that [serde_json] writes.  The relational columns that
    repeat a field of the sealed document are that field.  Times are in nanoseconds.
    The database keeps microseconds, so a column with a time is the field cut to a
    microsecond ([postgres_timestamp]); readings of the database clock are whole
    microseconds, and [created_at], [updated_at] and [lease_claimed_at] are such
    readings, so that only the ends of lifetimes and leases are cut. *)
From S2P Require Import Prelude Machine Text Ordered AuthCore TaskDomain.

Inductive RepositoryError := Unavailable | Integrity | TransactionConflict.

Section store.
Context `{TaskPayloads}.

Record LeaseFence := {
  lease_job_id : Z;
  lease_generation : Z;
  lease_version : Z;
  lease_claimed_at : Z;
  lease_expires_at : Z;
}.
Record TaskRecord := { snapshot : TaskSnapshot; execution : TaskExecution; lease : option LeaseFence }.

(** Outbox events carry the job envelope to enqueue. *)
Inductive IntentKind := ExecutionIntent | CancellationIntent.
Record Intent := {
  intent_kind : IntentKind;
  intent_job_id : Z;
  intent_task_id : Z;
  intent_generation : Z;
  intent_tenant : option Z;
  intent_correlation : Z;
  intent_causation : option Z;
}.
(** The delivery of a job as an inbox event; its payload names task and generation. *)
Record InboxEvent := {
  event_id : Z;
  event_tenant : option Z;
  event_correlation : Z;
  event_causation : option Z;
  event_task : Z;
  event_generation : Z;
}.
#[global] Instance InboxEvent_eq : EqDecision InboxEvent.
Proof. solve_decision. Defined.
Record Receipt := { receipt_event : InboxEvent; received_at : Z; processed_at : option Z }.
Record StoredRound := { completed_generation : Z; round_task_version : Z; completed_round : InputRound }.
Record TaskEvent := { te_task : Z; te_version : Z; te_generation : Z; te_kind : string; te_at : Z }.

(** [mcp_task_idempotency_scope_unique] *)
Definition IdemScope : Type := Z * option Z * string * string * string.
Record Db := {
  tasks : gmap Z TaskRecord;
  idem_index : gmap IdemScope (string * Z);
  input_keys : gset (Z * string);
  input_rounds : gmap (Z * Z) StoredRound;
  receipts : gmap Z Receipt;
  outbox : list Intent;
  task_events : list TaskEvent;
}.

(** ** Transactions *)
Definition Txn (A : Type) : Type := Db -> result RepositoryError (A * Db).
#[global] Instance txn_ret : MRet Txn := fun A a d => Ok (a, d).
#[global] Instance txn_bind : MBind Txn := fun A B f m d => match m d with Ok (a, d') => f a d' | Err e => Err e end.
Definition txn_get : Txn Db := fun d => Ok (d, d).
Definition txn_put (d : Db) : Txn unit := fun _ => Ok (tt, d).
Definition txn_fail {A} (e : RepositoryError) : Txn A := fun _ => Err e.
Definition txn_guard (bad : bool) (e : RepositoryError) : Txn unit := if bad then txn_fail e else mret tt.
Definition txn_result {E A} (r : result E A) (e : RepositoryError) : Txn A :=
  match r with Ok a => mret a | Err _ => txn_fail e end.

(** The key service, and the length of the document of a task as it is encoded. *)
Class TaskProtector := {
  task_document_len : TaskSnapshot -> TaskExecution -> option Z;
  seal_task : TaskSnapshot -> TaskExecution -> result RepositoryError unit;
  open_task : TaskSnapshot -> result RepositoryError unit;
  seal_round : TaskSnapshot -> InputRound -> result RepositoryError unit;
  open_round : TaskSnapshot -> InputRound -> result RepositoryError unit;
}.
Definition txn_external (r : result RepositoryError unit) : Txn unit :=
  match r with Ok _ => mret tt | Err e => txn_fail e end.
(** The readings of the database clock in one transaction: on entry, when a receipt
    is inserted, when it is completed. *)
Record Readings := { now : Z; received : Z; processed : Z }.

Definition with_tasks (m : gmap Z TaskRecord) (d : Db) : Db :=
  {| tasks := m; idem_index := idem_index d; input_keys := input_keys d; input_rounds := input_rounds d;
     receipts := receipts d; outbox := outbox d; task_events := task_events d |}.
Definition with_idem_index (m : gmap IdemScope (string * Z)) (d : Db) : Db :=
  {| tasks := tasks d; idem_index := m; input_keys := input_keys d; input_rounds := input_rounds d;
     receipts := receipts d; outbox := outbox d; task_events := task_events d |}.
Definition with_input_keys (k : gset (Z * string)) (d : Db) : Db :=
  {| tasks := tasks d; idem_index := idem_index d; input_keys := k; input_rounds := input_rounds d;
     receipts := receipts d; outbox := outbox d; task_events := task_events d |}.
Definition with_input_rounds (m : gmap (Z * Z) StoredRound) (d : Db) : Db :=
  {| tasks := tasks d; idem_index := idem_index d; input_keys := input_keys d; input_rounds := m;
     receipts := receipts d; outbox := outbox d; task_events := task_events d |}.
Definition with_receipts (m : gmap Z Receipt) (d : Db) : Db :=
  {| tasks := tasks d; idem_index := idem_index d; input_keys := input_keys d; input_rounds := input_rounds d;
     receipts := m; outbox := outbox d; task_events := task_events d |}.
Definition with_outbox (o : list Intent) (d : Db) : Db :=
  {| tasks := tasks d; idem_index := idem_index d; input_keys := input_keys d; input_rounds := input_rounds d;
     receipts := receipts d; outbox := o; task_events := task_events d |}.
Definition with_task_events (e : list TaskEvent) (d : Db) : Db :=
  {| tasks := tasks d; idem_index := idem_index d; input_keys := input_keys d; input_rounds := input_rounds d;
     receipts := receipts d; outbox := outbox d; task_events := e |}.

Definition TASK_DOCUMENT_MAX_BYTES : Z := 18 * 1024 * 1024.
Definition document_fits (P : TaskProtector) (s : TaskSnapshot) (x : TaskExecution) : result TaskValueError unit :=
  validate_len (@task_document_len P s x) TASK_DOCUMENT_MAX_BYTES.
(** A time as the database keeps it; the multiple of a microsecond below a time that
    can be represented can be represented. *)
Definition postgres_timestamp (t : Z) : Z := t / 1000 * 1000.

(** ** Reading a row *)
Definition validate_stored_consistency (s : TaskSnapshot) (x : TaskExecution) : bool :=
  match for_invocation (ex_capability x) (ex_input x) with
  | Err _ => false
  | Ok digest => bool_decide (capability s = ex_capability x) && bool_decide (budget s = ex_budget x)
                 && bool_decide (idem_key (idempotency s) = ex_idempotency_key x)
                 && bool_decide (fingerprint (idempotency s) = digest)
  end.
Definition decode_stored_task (s : TaskSnapshot) (x : TaskExecution) : bool :=
  is_ok (BudgetReservationRef_new (reservation (ex_budget x)))
  && is_ok (TaskExecution_new (ex_capability x) (tenant_mode x) (confirmation x) (ex_input x) (ex_idempotency_key x)
              (ex_budget x))
  && is_ok (BudgetReservationRef_new (reservation (budget s)))
  && is_ok (TaskGeneration_new (generation s)) && is_ok (TaskVersion_new (version s))
  && is_ok (restore s) && validate_stored_consistency s x.
Definition lease_consistent (s : TaskSnapshot) (l : option LeaseFence) : bool :=
  match l with
  | None => true
  | Some l => (lease_claimed_at l <? lease_expires_at l) && (lease_job_id l =? current_job_id s)
              && (lease_generation l =? generation s) && (lease_version l <=? version s)
              && (0 <? lease_generation l) && (0 <? lease_version l)
  end
  && if is_working (state s) then
       match cancellation_requested s, l with
       | true, Some l => bool_decide (checked_add u64_max (lease_version l) 1 = Some (version s))
       | false, Some l => version s =? lease_version l
       | false, None => true
       | true, None => false
       end
     else match l with None => true | Some _ => false end.
Definition decode_task_record (P : TaskProtector) (r : TaskRecord) : Txn TaskRecord :=
  _ ← txn_external (@open_task P (snapshot r));
  _ ← txn_result (document_fits P (snapshot r) (execution r)) Integrity;
  _ ← txn_guard (negb (decode_stored_task (snapshot r) (execution r) && lease_consistent (snapshot r) (lease r)))
        Integrity;
  mret r.
Definition select_task_for_update (id : Z) : Txn (option TaskRecord) := d ← txn_get; mret (tasks d !! id).
Definition select_owned_task_for_update (own : TaskOwner) (id : Z) : Txn (option TaskRecord) :=
  d ← txn_get;
  mret match tasks d !! id with
       | Some r => if decide (owner (snapshot r) = own) then Some r else None
       | None => None
       end.

(** ** Writing rows *)
Definition counter_to_i64 (n : Z) : Txn unit := txn_guard (i64_max <? n) Integrity.
Definition status_eqb (a b : TaskStatus) : bool :=
  match a, b with
  | Working_, Working_ | InputRequired_, InputRequired_ | Completed_, Completed_ | Failed_, Failed_
  | Cancelled_, Cancelled_ => true
  | _, _ => false
  end.
(** The [CHECK] constraints of [mcp_tasks]. *)
Definition row_constraints (r : TaskRecord) : bool :=
  let s := snapshot r in
  (0 <? generation s) && (0 <? version s) && (generation s <=? version s)
  && (negb (status_eqb (status (state s)) Cancelled_) || cancellation_requested s)
  && (created_at s <=? updated_at s) && (created_at s <? postgres_timestamp (expires_at s))
  && match lease r with
     | None => true
     | Some l => (lease_job_id l =? current_job_id s) && (lease_generation l =? generation s)
                 && (0 <? lease_generation l) && (0 <? lease_version l) && (lease_claimed_at l <? lease_expires_at l)
                 && status_eqb (status (state s)) Working_
                 && (if cancellation_requested s then lease_version l + 1 =? version s else lease_version l =? version s)
     end
  && (negb (version s =? 1) || is_fresh s)
  && (negb (status_eqb (status (state s)) InputRequired_) || (generation s <? version s)).
(** The trigger [protect_mcp_task_transition], for an update of the sealed state. *)
Definition status_move (old new : TaskStatus) : bool :=
  match old, new with
  | Working_, _ => true
  | InputRequired_, (InputRequired_ | Working_ | Failed_ | Cancelled_) => true
  | _, _ => false
  end.
Definition transition_allowed (old new : TaskSnapshot) : bool :=
  bool_decide (task_id new = task_id old) && bool_decide (owner new = owner old)
  && bool_decide (capability new = capability old)
  && bool_decide (idem_key (idempotency new) = idem_key (idempotency old))
  && bool_decide (fingerprint (idempotency new) = fingerprint (idempotency old))
  && (created_at new =? created_at old) && (postgres_timestamp (expires_at new) =? postgres_timestamp (expires_at old))
  && negb (is_terminal (state old))
  && (version new =? version old + 1) && (updated_at old <? updated_at new)
  && status_move (status (state old)) (status (state new))
  && (if generation new =? generation old + 1
      then status_eqb (status (state old)) InputRequired_ && status_eqb (status (state new)) Working_
           && negb (current_job_id new =? current_job_id old)
      else (generation new =? generation old) && (current_job_id new =? current_job_id old))
  && (negb (cancellation_requested old) || cancellation_requested new || (generation new =? generation old + 1)).

Definition persist_task (P : TaskProtector) (s : TaskSnapshot) (x : TaskExecution) (expected_version : Z)
    (l : option LeaseFence) : Txn unit :=
  _ ← txn_guard (negb (validate_stored_consistency s x)) Integrity;
  _ ← txn_result (document_fits P s x) Integrity;
  _ ← txn_external (@seal_task P s x);
  _ ← counter_to_i64 (generation s);
  _ ← counter_to_i64 (version s);
  d ← txn_get;
  match tasks d !! task_id s with
  | Some old =>
      let new := {| snapshot := s; execution := x; lease := l |} in
      if negb (version (snapshot old) =? expected_version) then txn_fail TransactionConflict
      else if negb (transition_allowed (snapshot old) s && row_constraints new) then txn_fail Integrity
      else txn_put (with_tasks (<[task_id s := new]> (tasks d)) d)
  | None => txn_fail TransactionConflict
  end.
(** [persist_lease]; an update that changes nothing is refused by the trigger. *)
Definition persist_lease (id expected_version : Z) (l : option LeaseFence) : Txn unit :=
  d ← txn_get;
  match tasks d !! id with
  | Some old =>
      let new := {| snapshot := snapshot old; execution := execution old; lease := l |} in
      if negb (version (snapshot old) =? expected_version) then txn_fail TransactionConflict
      else if is_terminal (state (snapshot old)) || match lease old, l with None, None => true | _, _ => false end
              || negb (row_constraints new) then txn_fail Integrity
      else txn_put (with_tasks (<[id := new]> (tasks d)) d)
  | None => txn_fail TransactionConflict
  end.
Definition insert_task_event (s : TaskSnapshot) (kind : string) (at_ : Z) : Txn unit :=
  _ ← counter_to_i64 (version s);
  _ ← counter_to_i64 (generation s);
  d ← txn_get;
  txn_put (with_task_events (task_events d ++ [{| te_task := task_id s; te_version := version s;
    te_generation := generation s; te_kind := kind; te_at := at_ |}]) d).
Definition append_outbox (i : Intent) : Txn unit := d ← txn_get; txn_put (with_outbox (outbox d ++ [i]) d).

(** ** Receipts: [crates/inbox/src/lib.rs] *)
Inductive DeliveryReceipt := ReceiptClaimed (e : InboxEvent) (at_ : Z) | ReceiptDuplicate.
Definition delivery_inbox_event (s : TaskSnapshot) (job : Z) : InboxEvent :=
  {| event_id := job; event_tenant := owner_tenant_id (owner s); event_correlation := correlation_id (identity s);
     event_causation := causation_id (identity s); event_task := task_id s; event_generation := generation s |}.
Definition claim_delivery_receipt (s : TaskSnapshot) (job : Z) (R : Readings) : Txn DeliveryReceipt :=
  let e := delivery_inbox_event s job in
  d ← txn_get;
  match receipts d !! job with
  | None =>
      _ ← txn_put (with_receipts (<[job := {| receipt_event := e; received_at := received R; processed_at := None |}]>
                     (receipts d)) d);
      mret (ReceiptClaimed e (received R))
  | Some existing =>
      if negb (bool_decide (receipt_event existing = e)) then txn_fail Integrity
      else match processed_at existing with
           | Some _ => mret ReceiptDuplicate
           | None => txn_fail Integrity
           end
  end.
Definition resume_delivery_receipt (s : TaskSnapshot) (job : Z) : Txn DeliveryReceipt :=
  let e := delivery_inbox_event s job in
  d ← txn_get;
  match receipts d !! job with
  | None => txn_fail Integrity
  | Some existing =>
      if negb (bool_decide (receipt_event existing = e)) then txn_fail Integrity
      else match processed_at existing with
           | Some _ => txn_fail Integrity
           | None => mret (ReceiptClaimed e (received_at existing))
           end
  end.
(** The receipt a claim stands for, still unprocessed. *)
Definition owned_receipt (e : InboxEvent) (at_ : Z) (d : Db) : option Receipt :=
  match receipts d !! event_id e with
  | Some r => if bool_decide (receipt_event r = e) && (received_at r =? at_)
                 && match processed_at r with None => true | Some _ => false end
              then Some r else None
  | None => None
  end.
Definition release_delivery_receipt (claim : DeliveryReceipt) : Txn unit :=
  match claim with
  | ReceiptDuplicate => txn_fail Integrity
  | ReceiptClaimed e at_ =>
      d ← txn_get;
      match owned_receipt e at_ d with
      | Some _ => txn_put (with_receipts (delete (event_id e) (receipts d)) d)
      | None => txn_fail Integrity
      end
  end.
Definition complete_delivery_receipt (claim : DeliveryReceipt) (R : Readings) : Txn unit :=
  match claim with
  | ReceiptDuplicate => txn_fail Integrity
  | ReceiptClaimed e at_ =>
      _ ← txn_guard (processed R <? at_) Integrity;
      d ← txn_get;
      match owned_receipt e at_ d with
      | Some r => txn_put (with_receipts (<[event_id e := {| receipt_event := e; received_at := at_;
                             processed_at := Some (processed R) |}]> (receipts d)) d)
      | None => txn_fail Integrity
      end
  end.
Definition complete_optional (claim : option DeliveryReceipt) (R : Readings) : Txn unit :=
  match claim with Some c => complete_delivery_receipt c R | None => mret tt end.
Definition resume_if_leased (r : TaskRecord) : Txn (option DeliveryReceipt) :=
  match lease r with
  | Some _ => c ← resume_delivery_receipt (snapshot r) (current_job_id (snapshot r)); mret (Some c)
  | None => mret None
  end.
(** [cleanup_expired_with]: of the processed receipts, those it selects. *)
Definition cleanup_receipts (selected : gset Z) (d : Db) : Db :=
  with_receipts (filter (fun kv => ~ (kv.1 ∈ selected /\ is_Some (processed_at kv.2))) (receipts d)) d.
End store.
