(* ===== verification/TaskRepository.v ===== *)
(** * The transactions of the durable task repository: [crates/mcp-tasks/src/postgres.rs]

    One definition per method of [PostgresTaskRepository], over the rows and
    receipts of [TaskStore].  An early [Ok] return commits what was written before
    it; an error rolls the transaction back. *)
From S2P Require Import Prelude Machine Text Ordered AuthCore TaskDomain TaskStore.

Section repository.
Context `{TaskPayloads}.

(** ** Requests and outcomes: [ports.rs] *)
Record StoredTask := { st_snapshot : TaskSnapshot; st_execution : TaskExecution }.
Record AtomicCreate := { create_task : StoredTask; execution_intent_of : Intent }.
Inductive CreateOutcome := Created (s : TaskSnapshot) | Existing (s : TaskSnapshot) | FingerprintConflict.
Record AtomicInputUpdate := {
  up_owner : TaskOwner;
  up_task_id : Z;
  up_version : Z;
  up_generation : Z;
  up_round : Z;
  up_responses : InputResponses;
  resume_intent : Intent;
}.
Inductive InputUpdateOutcome := UpdateNotFound | Acknowledged (s : TaskSnapshot) | Resumed (s : TaskSnapshot).
Record AtomicCancellation := {
  cn_owner : TaskOwner;
  cn_task_id : Z;
  cn_version : Z;
  cn_generation : Z;
  cancellation_intent_of : Intent;
}.
Inductive CancellationOutcome :=
| CancelNotFound
| CancelStale (s : TaskSnapshot)
| CancelTerminal (s : TaskSnapshot)
| CancelDone (s : TaskSnapshot)
| Signalled (s : TaskSnapshot)
| AlreadyRequested (s : TaskSnapshot).
Record ExecutionClaim := { claim_task_id : Z; claim_generation : Z; claim_job_id : Z }.
Record TaskLease := {
  leased_task : StoredTask;
  leased_version : Z;
  leased_at : Z;
  input_history : list InputRound;
}.
Inductive ClaimOutcome := Leased (l : TaskLease) | Inactive | ClaimStale | ClaimNotFound.
(** The fence a worker presents: [AbandonExecution], and the same fields of
    [RequireInput] and [SettleExecution]. *)
Record Fence := { fence_task : Z; fence_generation : Z; fence_version : Z; fence_claimed_at : Z; fence_job : Z }.
Inductive AbandonOutcome := Released | AbandonCancelled | AbandonStale | AbandonNotFound.
Inductive TerminalSettlement := SettleCompleted (r : ToolResult) | SettleFailed (f : TaskFailureCode) | SettleCancelled.
Inductive SettlementOutcome := Applied (s : TaskSnapshot) | SettleStale | SettleNotFound.
Record ExpiryReport := { expired : list Z; saturated : bool }.

(** ** Validation of requests *)
Definition validate_event_identity (s : TaskSnapshot) (i : Intent) : bool :=
  bool_decide (intent_tenant i = owner_tenant_id (owner s))
  && (intent_correlation i =? correlation_id (identity s))
  && bool_decide (intent_causation i = causation_id (identity s)).
Definition validate_execution_intent (s : TaskSnapshot) (i : Intent) : bool :=
  (intent_job_id i =? current_job_id s) && (intent_task_id i =? task_id s)
  && (intent_generation i =? generation s) && validate_event_identity s i.
Definition validate_resume_intent (s : TaskSnapshot) (i : Intent) : bool :=
  (intent_task_id i =? task_id s) && bool_decide (generation_next (generation s) = Some (intent_generation i))
  && validate_event_identity s i.
Definition validate_cancellation_intent (s : TaskSnapshot) (i : Intent) : bool :=
  (intent_task_id i =? task_id s) && (intent_generation i =? generation s) && validate_event_identity s i.
Definition validate_new_task (t : StoredTask) (i : Intent) : bool :=
  validate_stored_consistency (st_snapshot t) (st_execution t) && is_fresh (st_snapshot t)
  && validate_execution_intent (st_snapshot t) i.
Definition validate_existing_identity (existing requested : TaskSnapshot) : bool :=
  bool_decide (owner existing = owner requested) && bool_decide (capability existing = capability requested)
  && bool_decide (idem_key (idempotency existing) = idem_key (idempotency requested))
  && bool_decide (fingerprint (idempotency existing) = fingerprint (idempotency requested)).
Definition terminal_event_kind (s : TaskSnapshot) : string :=
  match state s with
  | Completed _ => "completed"
  | Failed Expired => "expired"
  | Failed _ => "failed"
  | Cancelled => "cancelled"
  | Working | InputRequired _ => "settled"
  end.

(** ** Input keys and completed rounds *)
Definition sorted_keys {A} (m : gmap string A) : list string :=
  sort_by (by_key (fun k => k)) (fst <$> map_to_list m).
Fixpoint insert_input_keys (id n : Z) (keys : list string) : Txn unit :=
  match keys with
  | [] => mret tt
  | k :: keys' =>
      _ ← counter_to_i64 n;
      d ← txn_get;
      if decide ((id, k) ∈ input_keys d) then txn_fail Integrity
      else _ ← txn_put (with_input_keys ({[(id, k)]} ∪ input_keys d) d); insert_input_keys id n keys'
  end.
Definition validate_new_input_keys (id : Z) (round : InputRound) : Txn unit :=
  insert_input_keys id (number round) (sorted_keys (exchanges round)).

Definition INPUT_ROUND_MAX_BYTES : Z := 1200000.
Definition document_len (round : InputRound) : option Z :=
  round_len (number round) (request_state round) (as_pairs (exchanges round)).
(** The row's primary key and the constraint [mcp_task_input_rounds_sequence_valid]. *)
Definition insert_input_history (P : TaskProtector) (s : TaskSnapshot) (gen : Z) (round : InputRound) : Txn unit :=
  _ ← txn_result (validate_len (document_len round) INPUT_ROUND_MAX_BYTES) Integrity;
  _ ← txn_guard (negb (all_answered (exchanges round))) Integrity;
  _ ← txn_external (@seal_round _ P s round);
  _ ← counter_to_i64 (number round);
  _ ← counter_to_i64 gen;
  _ ← counter_to_i64 (version s);
  d ← txn_get;
  if bool_decide (is_Some (input_rounds d !! (task_id s, number round)))
     || negb ((0 <? number round) && (gen =? number round) && (gen <? version s))
  then txn_fail Integrity
  else txn_put (with_input_rounds (<[(task_id s, number round) := {| completed_generation := gen;
         round_task_version := version s; completed_round := round |}]> (input_rounds d)) d).

Definition without_response (e : InputExchange) : InputExchange := {| request := request e; response := None |}.
Fixpoint validate_completed (l : list (string * InputExchange)) : result TaskValueError unit :=
  match l with
  | [] => Ok tt
  | (k, e) :: l' =>
      _ ← InputKey_new k;
      _ ← InputExchange_pending (request e);
      _ ← guard_err (is_pending e) ValueInvalid;
      validate_completed l'
  end.
Definition decode_completed_round (round : InputRound) : result TaskValueError InputRound :=
  _ ← validate_len (document_len round) INPUT_ROUND_MAX_BYTES;
  _ ← validate_completed (sort_by (by_key fst) (map_to_list (exchanges round)));
  st ← TaskRequestState_new (request_state round);
  pending ← InputRound_new (number round) st (without_response <$> exchanges round);
  responses ← InputResponses_new (omap response (exchanges round));
  let restored := apply_responses pending responses in
  _ ← guard_err (negb (changed restored) || negb (complete restored)) ValueInvalid;
  Ok (updated_round restored).
(** The task's completed rounds in the order of their numbers. *)
Definition round_rows (id : Z) (d : Db) : list (Z * StoredRound) :=
  sort_by (by_key fst)
    ((fun kv => (kv.1.2, kv.2)) <$> filter (fun kv => kv.1.1 = id) (map_to_list (input_rounds d))).
Fixpoint decode_history (P : TaskProtector) (s : TaskSnapshot) (expected : Z) (rows : list (Z * StoredRound))
    : Txn (list InputRound) :=
  match rows with
  | [] => mret []
  | (n, row) :: rows' =>
      _ ← txn_guard (negb ((n =? expected) && (completed_generation row =? expected)
                           && (0 <? round_task_version row) && (round_task_version row <=? version s))) Integrity;
      _ ← txn_external (@open_round _ P s (completed_round row));
      round ← txn_result (decode_completed_round (completed_round row)) Integrity;
      _ ← txn_guard (negb (number round =? expected)) Integrity;
      rest ← decode_history P s (expected + 1) rows';
      mret (round :: rest)
  end.
Definition load_input_history (P : TaskProtector) (s : TaskSnapshot) : Txn (list InputRound) :=
  d ← txn_get;
  let rows := round_rows (task_id s) d in
  _ ← txn_guard (negb (Z.of_nat (length rows) =? generation s - 1)) Integrity;
  decode_history P s 1 rows.

(** ** State changes *)
(** A transition of the locked row, persisted and recorded in the event log. *)
Definition commit_transition (P : TaskProtector) (r : TaskRecord) (tr : TaskTransition) (at_ : Z)
    (l : option LeaseFence) (kind : TaskSnapshot -> string) : Txn TaskSnapshot :=
  let s := snapshot r in
  next ← txn_result (transitioned s (version s) tr at_) Integrity;
  _ ← persist_task P next (execution r) (version s) l;
  _ ← insert_task_event next (kind next) at_;
  mret next.
(** The task's lifetime is over: it fails, and the receipt of a running execution is completed. *)
Definition expire_record (P : TaskProtector) (r : TaskRecord) (R : Readings) : Txn TaskSnapshot :=
  receipt ← resume_if_leased r;
  next ← commit_transition P r (Fail Expired) (now R) None (fun _ => "expired");
  _ ← complete_optional receipt R;
  mret next.

(** ** The repository *)
Definition idem_scope (s : TaskSnapshot) : IdemScope :=
  (owner_subject_id (owner s), owner_tenant_id (owner s), capability_id (capability s),
   capability_version (capability s), idem_key (idempotency s)).
(** The foreign key of the index makes its task identifiers those of [mcp_tasks]. *)
Definition insert_task (P : TaskProtector) (s : TaskSnapshot) (x : TaskExecution) (i : Intent) : Txn CreateOutcome :=
  d ← txn_get;
  _ ← txn_guard (bool_decide (is_Some (tasks d !! task_id s))) Integrity;
  _ ← txn_result (document_fits P s x) Integrity;
  _ ← txn_external (@seal_task _ P s x);
  let r := {| snapshot := s; execution := x; lease := None |} in
  _ ← txn_guard (negb (row_constraints r)) Integrity;
  _ ← txn_put (with_tasks (<[task_id s := r]> (tasks d))
                 (with_idem_index (<[idem_scope s := (fingerprint (idempotency s), task_id s)]> (idem_index d)) d));
  _ ← insert_task_event s "created" (created_at s);
  _ ← append_outbox i;
  mret (Created s).
Definition create_atomic (P : TaskProtector) (q : AtomicCreate) (R : Readings) : Txn CreateOutcome :=
  let t := create_task q in
  _ ← txn_guard (negb (validate_new_task t (execution_intent_of q))) Integrity;
  s ← txn_result (with_authoritative_creation_time (now R) (st_snapshot t)) Integrity;
  _ ← counter_to_i64 (generation s);
  _ ← counter_to_i64 (version s);
  d ← txn_get;
  match idem_index d !! idem_scope s with
  | None => insert_task P s (st_execution t) (execution_intent_of q)
  | Some (digest, existing) =>
      if negb (bool_decide (digest = fingerprint (idempotency s))) then mret FingerprintConflict
      else
        row ← select_task_for_update existing;
        match row with
        | None => txn_fail Integrity
        | Some row =>
            r ← decode_task_record P row;
            _ ← txn_guard (negb (validate_existing_identity (snapshot r) s)) Integrity;
            mret (Existing (snapshot r))
        end
  end.

Definition get (P : TaskProtector) (own : TaskOwner) (id : Z) (R : Readings) : Txn (option TaskSnapshot) :=
  row ← select_owned_task_for_update own id;
  match row with
  | None => mret None
  | Some row =>
      r ← decode_task_record P row;
      if negb (is_terminal (state (snapshot r))) && (expires_at (snapshot r) <=? now R)
      then next ← expire_record P r R; mret (Some next)
      else mret (Some (snapshot r))
  end.

Definition update_input_atomic (P : TaskProtector) (q : AtomicInputUpdate) (R : Readings) : Txn InputUpdateOutcome :=
  row ← select_owned_task_for_update (up_owner q) (up_task_id q);
  match row with
  | None => mret UpdateNotFound
  | Some row =>
      r ← decode_task_record P row;
      let s := snapshot r in
      if negb (version s =? up_version q) || negb (generation s =? up_generation q) then mret (Acknowledged s)
      else match state s with
      | InputRequired round =>
          if negb (number round =? up_round q) then mret (Acknowledged s)
          else if expires_at s <=? now R then
            next ← commit_transition P r (Fail Expired) (now R) None (fun _ => "expired");
            mret (Acknowledged next)
          else
            let update := apply_responses round (up_responses q) in
            if negb (changed update) then mret (Acknowledged s)
            else if complete update then
              _ ← txn_guard (negb (validate_resume_intent s (resume_intent q))) Integrity;
              let answered := updated_round update in
              next ← txn_result (transitioned s (up_version q)
                       (Resume answered (intent_job_id (resume_intent q)) (intent_generation (resume_intent q)))
                       (now R)) Integrity;
              _ ← insert_input_history P next (up_generation q) answered;
              _ ← persist_task P next (execution r) (up_version q) None;
              _ ← insert_task_event next "resumed" (now R);
              _ ← append_outbox (resume_intent q);
              mret (Resumed next)
            else
              next ← commit_transition P r (RecordInput (updated_round update)) (now R) None
                       (fun _ => "input_recorded");
              mret (Acknowledged next)
      | _ => mret (Acknowledged s)
      end
  end.

(** A live lease of the current execution. *)
Definition lease_live (s : TaskSnapshot) (l : option LeaseFence) (at_ : Z) : bool :=
  match l with
  | Some l => (lease_job_id l =? current_job_id s) && (lease_generation l =? generation s) && (at_ <? lease_expires_at l)
  | None => false
  end.
Definition cancel_atomic (P : TaskProtector) (q : AtomicCancellation) (R : Readings) : Txn CancellationOutcome :=
  row ← select_owned_task_for_update (cn_owner q) (cn_task_id q);
  match row with
  | None => mret CancelNotFound
  | Some row =>
      r ← decode_task_record P row;
      let s := snapshot r in
      if negb (version s =? cn_version q) || negb (generation s =? cn_generation q) then mret (CancelStale s)
      else if is_terminal (state s) then mret (CancelTerminal s)
      else if cancellation_requested s then mret (AlreadyRequested s)
      else if expires_at s <=? now R then next ← expire_record P r R; mret (CancelTerminal next)
      else
        _ ← txn_guard (negb (validate_cancellation_intent s (cancellation_intent_of q))) Integrity;
        if lease_live s (lease r) (now R) then
          next ← commit_transition P r RequestCancellation (now R) (lease r) (fun _ => "cancellation_requested");
          _ ← append_outbox (cancellation_intent_of q);
          mret (Signalled next)
        else
          receipt ← resume_if_leased r;
          next ← commit_transition P r Cancel (now R) None (fun _ => "cancelled");
          _ ← complete_optional receipt R;
          _ ← append_outbox (cancellation_intent_of q);
          mret (CancelDone next)
  end.

(** [TaskExecutionJob::POLICY.timeout()] *)
Definition EXECUTION_TIMEOUT : Z := 3600 * Duration.nanos_per_sec.
Definition lease_is_live (l : option LeaseFence) (at_ : Z) : bool :=
  match l with Some l => at_ <? lease_expires_at l | None => false end.
Definition claim_or_resume (r : TaskRecord) (job : Z) (R : Readings) : Txn DeliveryReceipt :=
  match lease r with
  | Some _ => resume_delivery_receipt (snapshot r) job
  | None => claim_delivery_receipt (snapshot r) job R
  end.
(** The claim of a task that is over or whose cancellation was requested. *)
Definition claim_inactive (P : TaskProtector) (r : TaskRecord) (job : Z) (R : Readings) : Txn ClaimOutcome :=
  receipt ← claim_or_resume r job R;
  match receipt with
  | ReceiptDuplicate => mret ClaimStale
  | ReceiptClaimed _ _ =>
      let tr := if expires_at (snapshot r) <=? now R then Fail Expired else Cancel in
      _ ← commit_transition P r tr (now R) None terminal_event_kind;
      _ ← complete_delivery_receipt receipt R;
      mret Inactive
  end.
Definition release_stale (r : TaskRecord) (job : Z) : Txn unit :=
  match lease r with
  | Some _ => stale ← resume_delivery_receipt (snapshot r) job; release_delivery_receipt stale
  | None => mret tt
  end.
Definition claim_execution (P : TaskProtector) (q : ExecutionClaim) (R : Readings) : Txn ClaimOutcome :=
  row ← select_task_for_update (claim_task_id q);
  match row with
  | None => mret ClaimNotFound
  | Some row =>
      r ← decode_task_record P row;
      let s := snapshot r in
      let job := claim_job_id q in
      if negb (current_job_id s =? job) || negb (generation s =? claim_generation q) || negb (is_working (state s))
      then mret ClaimStale
      else if lease_is_live (lease r) (now R) then mret ClaimStale
      else if (expires_at s <=? now R) || cancellation_requested s then claim_inactive P r job R
      else
        _ ← release_stale r job;
        receipt ← claim_delivery_receipt s job R;
        match receipt with
        | ReceiptDuplicate => mret ClaimStale
        | ReceiptClaimed _ _ =>
            history ← load_input_history P s;
            let l := {| lease_job_id := job; lease_generation := claim_generation q; lease_version := version s;
                        lease_claimed_at := now R;
                        lease_expires_at := postgres_timestamp
                          (Z.min (saturating_add_time (now R) EXECUTION_TIMEOUT) (expires_at s)) |} in
            _ ← persist_lease (task_id s) (version s) (Some l);
            _ ← insert_task_event s "execution_claimed" (now R);
            mret (Leased {| leased_task := {| st_snapshot := s; st_execution := execution r |};
                            leased_version := version s; leased_at := now R; input_history := history |})
        end
  end.

Definition exact_lease (l : option LeaseFence) (f : Fence) : bool :=
  match l with
  | Some l => (lease_job_id l =? fence_job f) && (lease_generation l =? fence_generation f)
              && (lease_version l =? fence_version f) && (lease_claimed_at l =? fence_claimed_at f)
  | None => false
  end.
Definition abandon_execution (P : TaskProtector) (f : Fence) (R : Readings) : Txn AbandonOutcome :=
  row ← select_task_for_update (fence_task f);
  match row with
  | None => mret AbandonNotFound
  | Some row =>
      r ← decode_task_record P row;
      let s := snapshot r in
      if negb (exact_lease (lease r) f) || negb (current_job_id s =? fence_job f)
         || negb (generation s =? fence_generation f) then mret AbandonStale
      else
        let advanced := cancellation_requested s && is_working (state s)
                        && (version s =? saturating_add u64_max (fence_version f) 1) in
        _ ← txn_guard (negb (version s =? fence_version f) && negb advanced) Integrity;
        receipt ← resume_delivery_receipt s (fence_job f);
        if version s =? fence_version f then
          _ ← release_delivery_receipt receipt;
          _ ← persist_lease (task_id s) (version s) None;
          _ ← insert_task_event s "execution_released" (now R);
          mret Released
        else
          _ ← commit_transition P r Cancel (now R) None (fun _ => "cancelled");
          _ ← complete_delivery_receipt receipt R;
          mret AbandonCancelled
  end.

Definition require_input (P : TaskProtector) (f : Fence) (round : InputRound) (R : Readings) : Txn SettlementOutcome :=
  row ← select_task_for_update (fence_task f);
  match row with
  | None => mret SettleNotFound
  | Some row =>
      r ← decode_task_record P row;
      let s := snapshot r in
      if negb (exact_lease (lease r) f) || negb (generation s =? fence_generation f)
         || negb (version s =? fence_version f) || negb (current_job_id s =? fence_job f)
         || negb (is_working (state s)) || cancellation_requested s || (expires_at s <=? now R)
      then mret SettleStale
      else
        _ ← validate_new_input_keys (fence_task f) round;
        receipt ← resume_delivery_receipt s (fence_job f);
        next ← commit_transition P r (RequireInput round) (now R) None (fun _ => "input_required");
        _ ← complete_delivery_receipt receipt R;
        mret (Applied next)
  end.

Definition settlement_transition (s : TaskSnapshot) (t : TerminalSettlement) (at_ : Z) : TaskTransition :=
  if expires_at s <=? at_ then Fail Expired
  else match t with
       | SettleCompleted result => Complete result
       | SettleFailed failure => Fail failure
       | SettleCancelled => Cancel
       end.
Definition settle_execution (P : TaskProtector) (f : Fence) (t : TerminalSettlement) (R : Readings)
    : Txn SettlementOutcome :=
  row ← select_task_for_update (fence_task f);
  match row with
  | None => mret SettleNotFound
  | Some row =>
      r ← decode_task_record P row;
      let s := snapshot r in
      let advanced := cancellation_requested s && (version s =? saturating_add u64_max (fence_version f) 1) in
      if negb (exact_lease (lease r) f) || negb (current_job_id s =? fence_job f)
         || negb (generation s =? fence_generation f) || negb (is_working (state s))
         || (negb (version s =? fence_version f) && negb advanced)
      then mret SettleStale
      else
        receipt ← resume_delivery_receipt s (fence_job f);
        next ← commit_transition P r (settlement_transition s t (now R)) (now R) None terminal_event_kind;
        _ ← complete_delivery_receipt receipt R;
        mret (Applied next)
  end.

(** [expire_batch]: rows another transaction has locked are skipped.  The rows are
    selected and sorted by their column, and compared with the clock again after
    decoding. *)
Definition due (at_ : Z) (locked : gset Z) (r : TaskRecord) : bool :=
  negb (is_terminal (state (snapshot r))) && (postgres_timestamp (expires_at (snapshot r)) <=? at_)
  && negb (bool_decide (task_id (snapshot r) ∈ locked)).
Definition expiry_rows (at_ : Z) (locked : gset Z) (d : Db) : list TaskRecord :=
  sort_by (by_key (fun r => (postgres_timestamp (expires_at (snapshot r)), task_id (snapshot r))))
    (filter (fun r => due at_ locked r = true) (snd <$> map_to_list (tasks d))).
Fixpoint expire_rows (P : TaskProtector) (at_ : Z) (processed_for : Z -> Z) (rows : list TaskRecord) : Txn (list Z) :=
  match rows with
  | [] => mret []
  | row :: rows' =>
      r ← decode_task_record P row;
      _ ← txn_guard (is_terminal (state (snapshot r)) || (at_ <? expires_at (snapshot r))) Integrity;
      next ← expire_record P r {| now := at_; received := at_; processed := processed_for (task_id (snapshot r)) |};
      rest ← expire_rows P at_ processed_for rows';
      mret (task_id next :: rest)
  end.
Definition expire_batch (P : TaskProtector) (limit : Z) (locked : gset Z) (at_ : Z) (processed_for : Z -> Z)
    : Txn ExpiryReport :=
  _ ← txn_guard (i64_max <? limit) Integrity;
  d ← txn_get;
  done ← expire_rows P at_ processed_for (take (Z.to_nat limit) (expiry_rows at_ locked d));
  mret {| expired := done; saturated := Z.of_nat (length done) =? limit |}.
End repository.
