(* ===== verification/TaskFacts.v ===== *)
(** * Lemmas about durable tasks

    How answers change a round, what a stored snapshot must satisfy, and which
    snapshots the transitions lead to. *)
From S2P Require Import Prelude Machine Text Ordered AuthCore TaskDomain TaskStore TaskRepository.

Section facts.
Context `{TaskPayloads}.

(** ** Times in the database *)
Lemma postgres_timestamp_spec t : postgres_timestamp t <= t < postgres_timestamp t + 1000.
Proof. unfold postgres_timestamp. Z.div_mod_to_equations. lia. Qed.
Lemma postgres_timestamp_mono a b : a <= b -> postgres_timestamp a <= postgres_timestamp b.
Proof. unfold postgres_timestamp. intros Hab. apply (Z.div_le_mono _ _ 1000) in Hab; lia. Qed.
Lemma postgres_timestamp_whole t : t mod 1000 = 0 -> postgres_timestamp t = t.
Proof. unfold postgres_timestamp. intros Ht. Z.div_mod_to_equations. lia. Qed.

(** ** Answering a round *)
Definition answered (e : InputExchange) (v : option Value) : InputExchange :=
  match response e, v with
  | None, Some v => {| request := request e; response := Some v |}
  | _, _ => e
  end.
Definition answered_map (m : gmap string InputExchange) (rs : gmap string Value) : gmap string InputExchange :=
  map_imap (fun k e => Some (answered e (rs !! k))) m.
Definition answers_something (m : gmap string InputExchange) (rs : gmap string Value) : Prop :=
  exists k e v, m !! k = Some e /\ is_pending e = true /\ rs !! k = Some v.

Lemma lookup_answered_map m rs k : answered_map m rs !! k = (fun e => answered e (rs !! k)) <$> m !! k.
Proof. unfold answered_map. rewrite map_lookup_imap. by destruct (m !! k). Qed.
Lemma answered_map_empty m : answered_map m ∅ = m.
Proof.
  apply map_eq. intros k. rewrite lookup_answered_map, lookup_empty.
  destruct (m !! k) as [e|]; [|done]. simpl. unfold answered. by destruct (response e).
Qed.
Lemma answer_step m rs k v b : rs !! k = None ->
  answer k v (answered_map m rs, b) =
  (answered_map m (<[k:=v]> rs), b || match m !! k with Some e => is_pending e | None => false end).
Proof.
  intros Hk. unfold answer. simpl. rewrite lookup_answered_map.
  assert (Hsame : forall e, m !! k = Some e -> is_pending e = false -> answered_map m (<[k:=v]> rs) = answered_map m rs).
  { intros e He Hp. apply map_eq. intros k'. rewrite !lookup_answered_map.
    destruct (decide (k' = k)) as [->|Hne]; [|by rewrite lookup_insert_ne].
    rewrite He. simpl. unfold answered, is_pending in *. by destruct (response e). }
  destruct (m !! k) as [e|] eqn:He; simpl.
  - rewrite Hk. unfold answered at 1. destruct (response e) eqn:Hr; rewrite ?Hr.
    + rewrite (Hsame e eq_refl) by (unfold is_pending; by rewrite Hr). unfold is_pending. by rewrite Hr, orb_false_r.
    + unfold is_pending. rewrite Hr, orb_true_r. f_equal. apply map_eq. intros k'.
      rewrite lookup_answered_map. destruct (decide (k' = k)) as [->|Hne].
      * rewrite !lookup_insert_eq, He. simpl. unfold answered. by rewrite Hr.
      * rewrite !lookup_insert_ne, lookup_answered_map by done. done.
  - rewrite orb_false_r. f_equal. apply map_eq. intros k'. rewrite !lookup_answered_map.
    destruct (decide (k' = k)) as [->|Hne]; [by rewrite He | by rewrite lookup_insert_ne].
Qed.
Lemma apply_responses_spec round rs :
  exchanges (updated_round (apply_responses round rs)) = answered_map (exchanges round) rs /\
  (changed (apply_responses round rs) = true <-> answers_something (exchanges round) rs).
Proof.
  unfold apply_responses.
  assert (Hfold : let p := map_fold answer (exchanges round, false) rs in
                  p.1 = answered_map (exchanges round) rs /\ (p.2 = true <-> answers_something (exchanges round) rs)).
  { apply (map_fold_weak_ind (fun p rs => p.1 = answered_map (exchanges round) rs /\
      (p.2 = true <-> answers_something (exchanges round) rs))).
    - rewrite answered_map_empty. split; [done|]. split; [done|]. by intros (k & e & v & _ & _ & ?).
    - intros k v rs' [m b] Hk [Hm Hb]. simpl in Hm, Hb. subst m. rewrite answer_step by done. simpl. split; [done|].
      rewrite orb_true_iff, Hb. unfold answers_something. split.
      + intros [(k' & e & v' & ? & ? & ?)|Hp].
        * exists k', e, v'. rewrite lookup_insert_ne by naive_solver. done.
        * destruct (exchanges round !! k) as [e|] eqn:He; [|done]. exists k, e, v. by rewrite lookup_insert_eq.
      + intros (k' & e & v' & He & Hp & Hv). destruct (decide (k' = k)) as [->|Hne].
        * right. by rewrite He.
        * rewrite lookup_insert_ne in Hv by done. left. eauto 10. }
  destruct (map_fold answer (exchanges round, false) rs) as [m b]. exact Hfold.
Qed.
Lemma apply_responses_fixed round rs :
  number (updated_round (apply_responses round rs)) = number round /\
  request_state (updated_round (apply_responses round rs)) = request_state round /\
  complete (apply_responses round rs) = all_answered (exchanges (updated_round (apply_responses round rs))).
Proof. unfold apply_responses. by destruct (map_fold _ _ _). Qed.

Lemma answered_request e v : request (answered e v) = request e.
Proof. unfold answered. by destruct (response e), v. Qed.
Lemma answered_successor e v : exchange_succeeds e (Some (answered e v)) = true.
Proof.
  unfold exchange_succeeds. rewrite answered_request, bool_decide_eq_true_2 by done. simpl.
  unfold answered. destruct (response e) eqn:Hr, v; simpl; rewrite ?Hr; try done; by apply bool_decide_eq_true.
Qed.
Lemma answered_map_dom m rs : dom (answered_map m rs) = dom m.
Proof.
  apply set_eq. intros k. rewrite !elem_of_dom, lookup_answered_map. by destruct (m !! k); simpl; split; intros [? ?].
Qed.
Lemma answered_map_size m rs : size (answered_map m rs) = size m.
Proof. by rewrite <- !size_dom, answered_map_dom. Qed.
(** Answering is what the state machine accepts as a successor. *)
Lemma apply_responses_successor round rs :
  is_response_successor round (updated_round (apply_responses round rs)) = true.
Proof.
  unfold is_response_successor. destruct (apply_responses_fixed round rs) as (-> & -> & _).
  destruct (apply_responses_spec round rs) as [-> _].
  rewrite !bool_decide_eq_true_2 by (rewrite ?answered_map_size; done). simpl.
  apply bool_decide_eq_true. intros k e He. rewrite lookup_answered_map, He. apply answered_successor.
Qed.
Lemma without_response_answered m rs : without_response <$> answered_map m rs = without_response <$> m.
Proof.
  apply map_eq. intros k. rewrite !lookup_fmap, lookup_answered_map.
  destruct (m !! k) as [e|]; [|done]. simpl. unfold without_response. by rewrite answered_request.
Qed.

(** ** Stored snapshots *)
Definition static_ok (s : TaskSnapshot) (x : TaskExecution) : Prop :=
  is_ok (BudgetReservationRef_new (reservation (ex_budget x))) = true /\
  is_ok (TaskExecution_new (ex_capability x) (tenant_mode x) (confirmation x) (ex_input x) (ex_idempotency_key x)
           (ex_budget x)) = true /\
  is_ok (BudgetReservationRef_new (reservation (budget s))) = true /\ validate_stored_consistency s x = true.
Lemma is_ok_nonzero z : is_ok (TaskGeneration_new z) = true <-> z <> 0.
Proof. unfold TaskGeneration_new. destruct (Z.eqb_spec z 0); simpl; split; congruence. Qed.
Lemma restore_ok s : is_ok (restore s) = true <-> validate_restored_state (state s) = Ok tt /\ restorable s = true.
Proof.
  unfold restore. destruct (validate_restored_state (state s)) as [[]|]; simpl; [|split; [done | by intros []]].
  destruct (restorable s); simpl; split; try done. by intros [].
Qed.
Lemma decode_spec s x : decode_stored_task s x = true <->
  static_ok s x /\ generation s <> 0 /\ version s <> 0 /\ validate_restored_state (state s) = Ok tt /\ restorable s = true.
Proof.
  unfold decode_stored_task, static_ok. rewrite !andb_true_iff, restore_ok.
  change TaskVersion_new with TaskGeneration_new. rewrite !is_ok_nonzero. tauto.
Qed.
Lemma restorable_spec s : restorable s = true <->
  created_at s <= updated_at s /\ 0 < Z.quot (expires_at s - created_at s) MILLI <= MAX_TTL_MILLIS /\
  100 <= poll_interval_ms s <= 60000 /\ generation s <= version s /\
  (state s = Cancelled -> cancellation_requested s = true) /\
  (state s = Failed Expired -> expires_at s <= updated_at s) /\
  (state s <> Failed Expired -> updated_at s < expires_at s).
Proof.
  unfold restorable, expiry_timing_is_valid. rewrite !andb_true_iff, negb_true_iff, !Z.leb_le, Z.ltb_lt.
  assert (E1 : (match state s with Cancelled => negb (cancellation_requested s) | _ => false end) = false <->
    (state s = Cancelled -> cancellation_requested s = true)).
  { destruct (state s); split; try done. - intros Hn _. by apply negb_false_iff. - intros Hc. by rewrite Hc. }
  assert (E2 : (match state s with Failed Expired => expires_at s <=? updated_at s | _ => updated_at s <? expires_at s end)
                = true <->
    (state s = Failed Expired -> expires_at s <= updated_at s) /\ (state s <> Failed Expired -> updated_at s < expires_at s)).
  { destruct (state s) as [| | |f|]; [| | |destruct f|]; rewrite ?Z.leb_le, ?Z.ltb_lt; split;
      try (intros ?; split; [congruence | done]); try (intros ?; split; [done | congruence]);
      try (intros [_ Hne]; apply Hne; congruence); by intros [? _]; auto. }
  rewrite E1, E2. tauto.
Qed.

(** ** Transitions *)
Lemma transitioned_ok s ev tr t n : transitioned s ev tr t = Ok n ->
  version s = ev /\ is_terminal (state s) = false /\ updated_at s < t /\ version s < u64_max /\
  transition_body s tr t = Ok n.
Proof.
  unfold transitioned, checked_add. intros Ht. inv_ok. destruct (Z.leb_spec (version s + 1) u64_max); [|done].
  repeat split; try done; blia.
Qed.
(** What no transition changes. *)
Record same_identity (s n : TaskSnapshot) : Prop := {
  same_task_id : task_id n = task_id s;
  same_owner : owner n = owner s;
  same_capability : capability n = capability s;
  same_ident : identity n = identity s;
  same_idempotency : idempotency n = idempotency s;
  same_budget : budget n = budget s;
  same_created : created_at n = created_at s;
  same_expires : expires_at n = expires_at s;
  same_poll : poll_interval_ms n = poll_interval_ms s;
}.
Definition is_cancel_request (tr : TaskTransition) : bool := match tr with RequestCancellation => true | _ => false end.
(** Every transition but the repeated request moves the task one version on. *)
Lemma transition_moves s tr t n : transition_body s tr t = Ok n ->
  (n = s /\ tr = RequestCancellation /\ cancellation_requested s = true) \/
  exists st c job gen, n = moved s t st c job gen.
Proof.
  destruct tr; unfold transition_body, to_state; intros Ht.
  - inv_ok. subst. right. by do 4 eexists.
  - destruct (state s); try done. inv_ok. subst. right. by do 4 eexists.
  - destruct (generation_next _); [|done]. destruct (state s); try done. inv_ok. subst. right. by do 4 eexists.
  - destruct (cancellation_requested s); inv_ok; subst; [by left|]. right. by do 4 eexists.
  - inv_ok. subst. right. by do 4 eexists.
  - inv_ok. subst. right. by do 4 eexists.
  - inv_ok. subst. right. by do 4 eexists.
Qed.
Lemma moved_identity s t st c job gen : same_identity s (moved s t st c job gen).
Proof. by split. Qed.
Lemma transition_identity s ev tr t n : transitioned s ev tr t = Ok n -> same_identity s n.
Proof.
  intros (_ & _ & _ & _ & Hb)%transitioned_ok.
  apply transition_moves in Hb as [(-> & _)|(st & c & job & gen & ->)]; by split.
Qed.
Lemma static_ok_same s n x : same_identity s n -> static_ok s x -> static_ok n x.
Proof.
  intros I (H1 & H2 & H3 & H4). unfold static_ok, validate_stored_consistency in *.
  by rewrite (same_budget _ _ I), (same_capability _ _ I), (same_idempotency _ _ I).
Qed.
(** The rounds a transition brings in. *)
Definition transition_round_ok (tr : TaskTransition) : Prop :=
  match tr with
  | RequireInput r | RecordInput r => validate_restored_state (InputRequired r) = Ok tt
  | _ => True
  end.
Lemma restorable_moved s t st c job gen : restorable s = true -> updated_at s < t ->
  gen <= version s + 1 -> (st = Cancelled -> c = true) ->
  (st = Failed Expired -> expires_at s <= t) -> (st <> Failed Expired -> t < expires_at s) ->
  restorable (moved s t st c job gen) = true.
Proof. rewrite !restorable_spec. simpl. intros (? & ? & ? & ? & ? & ? & ?). naive_solver lia. Qed.
Lemma is_terminal_not_expired s : is_terminal (state s) = false -> state s <> Failed Expired.
Proof. unfold is_terminal. by destruct (state s). Qed.
Lemma not_terminal_restored s : is_terminal (state s) = false -> restorable s = true -> updated_at s < expires_at s.
Proof. intros Ht%is_terminal_not_expired Hr%restorable_spec. naive_solver. Qed.

Lemma transition_restorable s ev tr t n : restorable s = true -> transitioned s ev tr t = Ok n -> restorable n = true.
Proof.
  intros Hr (_ & Hnt & Hlt & _ & Hb)%transitioned_ok.
  pose proof (proj1 (restorable_spec s) Hr) as (_ & _ & _ & Hgen & _).
  destruct tr as [rd|rd|rd job gen| |res|fl|]; unfold transition_body, to_state, generation_next, checked_add in Hb.
  - inv_ok. subst. apply restorable_moved; try done; blia.
  - destruct (state s); try done. inv_ok. subst. apply restorable_moved; try done; blia.
  - destruct (Z.leb_spec (generation s + 1) u64_max); [|done]. destruct (state s); try done. inv_ok. subst.
    apply restorable_moved; try done; blia.
  - destruct (cancellation_requested s); inv_ok; subst; [done|].
    apply restorable_moved; try done; [blia | intros He; by apply is_terminal_not_expired in Hnt | intros _; blia].
  - inv_ok. subst. apply restorable_moved; try done; blia.
  - inv_ok. subst. apply restorable_moved; try done; [blia | |].
    + intros [= ->]. destruct (Z.leb_spec (expires_at s) t); [done|]. by simpl in *.
    + intros Hne. destruct (Z.leb_spec (expires_at s) t); [|done].
      destruct fl; simpl in *; done || congruence.
  - inv_ok. subst. apply restorable_moved; try done; blia.
Qed.
Lemma transition_decodes s x ev tr t n : transition_round_ok tr -> 0 < generation s ->
  decode_stored_task s x = true -> transitioned s ev tr t = Ok n -> decode_stored_task n x = true.
Proof.
  intros Hround Hpos (Hst & _ & _ & Hval & Hr)%decode_spec Ht. apply decode_spec.
  pose proof (transition_identity _ _ _ _ _ Ht) as I. pose proof (transition_restorable _ _ _ _ _ Hr Ht) as Hr'.
  pose proof (proj1 (restorable_spec n) Hr') as (_ & _ & _ & Hgen & _).
  split; [by apply (static_ok_same s)|]. apply transitioned_ok in Ht as (_ & Hnt & Hlt & _ & Hb).
  enough (0 < generation n /\ validate_restored_state (state n) = Ok tt) as [? ?] by (repeat split; done || lia).
  clear Hgen. destruct tr as [rd|rd|rd job gen| |res|fl|]; unfold transition_body, to_state, generation_next, checked_add in Hb.
  - inv_ok. by subst.
  - destruct (state s); try done. inv_ok. by subst.
  - destruct (Z.leb_spec (generation s + 1) u64_max); [|done]. destruct (state s); try done. inv_ok. subst. simpl.
    split; [blia | done].
  - destruct (cancellation_requested s); inv_ok; by subst.
  - inv_ok. by subst.
  - inv_ok. by subst.
  - inv_ok. by subst.
Qed.
End facts.
