(* ===== verification/TaskInvariant.v ===== *)
(** * The invariant of the task store

    [store_ok] says what holds of the tables between transactions: every row can be
    decoded, a lease stands for exactly one unprocessed receipt, the completed rounds
    of a task are those of its earlier generations, its execution was requested once
    per generation, its event log has every version.  The second half inverts
    transactions and shows that a change of one row keeps the invariant. *)
From S2P Require Import Prelude Machine Text Ordered AuthCore TaskDomain TaskStore TaskRepository TaskFacts.

Section invariant.
Context `{TaskPayloads}.

(** ** What one row satisfies *)
Definition pending_form (round : InputRound) : result TaskValueError InputRound :=
  InputRound_new (number round) (request_state round) (without_response <$> exchanges round).
Record local_ok (r : TaskRecord) : Prop := {
  lo_decodes : decode_stored_task (snapshot r) (execution r) = true;
  lo_lease : lease_consistent (snapshot r) (lease r) = true;
  lo_constraints : row_constraints r = true;
  lo_version : version (snapshot r) <= i64_max;
  lo_round : match state (snapshot r) with
             | InputRequired round => number round = generation (snapshot r) /\ is_ok (pending_form round) = true
             | _ => True
             end;
}.
(** The receipt of the current job: unprocessed exactly while the task is leased. *)
Definition receipt_matches (s : TaskSnapshot) (l : option LeaseFence) (o : option Receipt) : Prop :=
  match o with
  | Some rc => receipt_event rc = delivery_inbox_event s (current_job_id s) /\ (is_Some l <-> processed_at rc = None)
  | None => l = None
  end.
(** One completed round for every earlier generation. *)
Definition round_row_ok (s : TaskSnapshot) (n : Z) (row : StoredRound) : Prop :=
  1 <= n < generation s /\ completed_generation row = n /\ number (completed_round row) = n /\
  0 < round_task_version row <= version s /\ decode_completed_round (completed_round row) = Ok (completed_round row).
Definition history_ok (rounds : gmap (Z * Z) StoredRound) (s : TaskSnapshot) : Prop :=
  forall n, match rounds !! (task_id s, n) with
            | Some row => round_row_ok s n row
            | None => ~ (1 <= n < generation s)
            end.
(** The execution requests of a task, in the order they were sent. *)
Definition is_execution (i : Intent) : bool := match intent_kind i with ExecutionIntent => true | _ => false end.
Definition exec_intents (id : Z) (o : list Intent) : list Intent :=
  filter (fun i => is_execution i && (intent_task_id i =? id) = true) o.
Definition intents_ok (o : list Intent) (s : TaskSnapshot) : Prop :=
  intent_generation <$> exec_intents (task_id s) o = seqZ 1 (generation s) /\
  intent_job_id <$> last (exec_intents (task_id s) o) = Some (current_job_id s).
(** The event log has an entry for every version. *)
Definition events_ok (ev : list TaskEvent) (s : TaskSnapshot) : Prop :=
  forall v, 1 <= v <= version s -> exists e, e ∈ ev /\ te_task e = task_id s /\ te_version e = v.
(** The keys asked in round [n]. *)
Definition asked (rounds : gmap (Z * Z) StoredRound) (s : TaskSnapshot) (n : Z) : gset string :=
  match rounds !! (task_id s, n) with
  | Some row => dom (exchanges (completed_round row))
  | None => match state s with
            | InputRequired round => if n =? generation s then dom (exchanges round) else ∅
            | _ => ∅
            end
  end.
Definition keys_ok (d : Db) (s : TaskSnapshot) : Prop :=
  (forall n k, k ∈ asked (input_rounds d) s n -> (task_id s, k) ∈ input_keys d) /\
  (forall n m k, k ∈ asked (input_rounds d) s n -> k ∈ asked (input_rounds d) s m -> n = m).

Record row_ok (d : Db) (id : Z) (r : TaskRecord) : Prop := {
  ro_id : task_id (snapshot r) = id;
  ro_local : local_ok r;
  ro_index : idem_index d !! idem_scope (snapshot r) = Some (fingerprint (idempotency (snapshot r)), id);
  ro_receipt : receipt_matches (snapshot r) (lease r) (receipts d !! current_job_id (snapshot r));
  ro_history : history_ok (input_rounds d) (snapshot r);
  ro_intents : intents_ok (outbox d) (snapshot r);
  ro_events : events_ok (task_events d) (snapshot r);
  ro_keys : keys_ok d (snapshot r);
}.
Record store_ok (d : Db) : Prop := {
  so_rows : forall id r, tasks d !! id = Some r -> row_ok d id r;
  so_jobs : forall id id' r r', tasks d !! id = Some r -> tasks d !! id' = Some r' ->
    current_job_id (snapshot r) = current_job_id (snapshot r') -> id = id';
  so_index : forall scope dig id, idem_index d !! scope = Some (dig, id) ->
    exists r, tasks d !! id = Some r /\ idem_scope (snapshot r) = scope /\ fingerprint (idempotency (snapshot r)) = dig;
  so_receipts : forall job rc, receipts d !! job = Some rc -> processed_at rc = None ->
    exists id r, tasks d !! id = Some r /\ current_job_id (snapshot r) = job;
  so_absent : forall id, tasks d !! id = None ->
    exec_intents id (outbox d) = [] /\ forall n, input_rounds d !! (id, n) = None;
}.
(** A job identifier no row and no receipt knows. *)
Definition fresh_job (d : Db) (job : Z) : Prop :=
  receipts d !! job = None /\ forall id r, tasks d !! id = Some r -> current_job_id (snapshot r) <> job.

(** ** A change of one row *)
Definition rounds_agree (id : Z) (m m' : gmap (Z * Z) StoredRound) : Prop := forall n, m' !! (id, n) = m !! (id, n).
Lemma row_ok_frame d d' id r : row_ok d id r ->
  idem_index d' !! idem_scope (snapshot r) = idem_index d !! idem_scope (snapshot r) ->
  receipts d' !! current_job_id (snapshot r) = receipts d !! current_job_id (snapshot r) ->
  rounds_agree id (input_rounds d) (input_rounds d') -> exec_intents id (outbox d') = exec_intents id (outbox d) ->
  task_events d `prefix_of` task_events d' -> input_keys d ⊆ input_keys d' -> row_ok d' id r.
Proof.
  intros [Hid Hl Hi Hr Hh Hx He [Hk1 Hk2]] Ei Er Eh Ex [ev Ee] Ek.
  assert (Ha : forall n, asked (input_rounds d') (snapshot r) n = asked (input_rounds d) (snapshot r) n).
  { intros n. unfold asked. by rewrite Hid, Eh. }
  split; try done.
  - by rewrite Ei.
  - by rewrite Er.
  - intros n. rewrite Hid, Eh, <- Hid. apply Hh.
  - unfold intents_ok. by rewrite Hid, Ex, <- Hid.
  - intros v Hv. destruct (He v Hv) as (e & ? & ?). exists e. rewrite Ee, elem_of_app. tauto.
  - split; intros n; rewrite ?Ha; [intros k Hin; apply Ek; by eapply Hk1|].
    intros m. rewrite Ha. apply Hk2.
Qed.
Lemma store_ok_row d d' id r r' : store_ok d -> tasks d !! id = Some r -> tasks d' = <[id:=r']> (tasks d) ->
  idem_index d' = idem_index d -> same_identity (snapshot r) (snapshot r') ->
  (forall job, job <> current_job_id (snapshot r) -> receipts d' !! job = receipts d !! job) ->
  (current_job_id (snapshot r') = current_job_id (snapshot r) \/
   fresh_job d (current_job_id (snapshot r')) /\ lease r = None /\ receipts d' = receipts d) ->
  (forall id', id' <> id -> rounds_agree id' (input_rounds d) (input_rounds d') /\
                            exec_intents id' (outbox d') = exec_intents id' (outbox d)) ->
  task_events d `prefix_of` task_events d' -> input_keys d ⊆ input_keys d' ->
  local_ok r' -> receipt_matches (snapshot r') (lease r') (receipts d' !! current_job_id (snapshot r')) ->
  history_ok (input_rounds d') (snapshot r') -> intents_ok (outbox d') (snapshot r') ->
  events_ok (task_events d') (snapshot r') -> keys_ok d' (snapshot r') -> store_ok d'.
Proof.
  intros [Srows Sjobs Sidx Srec Sabs] Hr Ht Hi I Hrec Hjob Hother Hev Hkeys L' R' H' X' E' K'.
  pose proof (Srows id r Hr) as Rr.
  assert (Hjobs : forall id0 r0, id0 <> id -> tasks d !! id0 = Some r0 ->
            current_job_id (snapshot r0) <> current_job_id (snapshot r) /\
            current_job_id (snapshot r0) <> current_job_id (snapshot r')).
  { intros id0 r0 Hne Hr0. assert (current_job_id (snapshot r0) <> current_job_id (snapshot r)).
    { intros E. by apply Hne, (Sjobs _ _ _ _ Hr0 Hr). }
    split; [done|]. destruct Hjob as [->|([_ Hf] & _)]; [done|]. by eapply Hf. }
  split.
  - intros id0 r0. rewrite Ht. destruct (decide (id0 = id)) as [->|Hne].
    + rewrite lookup_insert_eq. intros [= <-]. split; try done.
      * by rewrite (same_task_id _ _ I), (ro_id _ _ _ Rr).
      * pose proof (ro_index _ _ _ Rr) as Hidx. rewrite Hi. unfold idem_scope in *.
        by rewrite (same_owner _ _ I), (same_capability _ _ I), (same_idempotency _ _ I).
    + rewrite lookup_insert_ne by done. intros Hr0. destruct (Hother id0 Hne) as [Hro Hio].
      apply (row_ok_frame d); try done; [by apply Srows | by rewrite Hi |]. apply Hrec, (Hjobs id0 r0); done.
  - intros id1 id2 r1 r2. rewrite Ht. destruct (decide (id1 = id)) as [->|Hne1], (decide (id2 = id)) as [->|Hne2];
      rewrite ?lookup_insert_eq, ?lookup_insert_ne by done; [done| | |apply Sjobs].
    + intros [= <-] Hr2 E. exfalso. by apply (proj2 (Hjobs _ _ Hne2 Hr2)).
    + intros Hr1 [= <-] E. exfalso. by apply (proj2 (Hjobs _ _ Hne1 Hr1)).
  - intros scope dig id0. rewrite Hi. intros Hs. destruct (Sidx _ _ _ Hs) as (r0 & Hr0 & Hsc & Hdig).
    rewrite Ht. destruct (decide (id0 = id)) as [->|Hne].
    + exists r'. rewrite lookup_insert_eq. split; [done|]. simplify_eq. unfold idem_scope.
      by rewrite (same_owner _ _ I), (same_capability _ _ I), (same_idempotency _ _ I).
    + exists r0. by rewrite lookup_insert_ne.
  - intros job rc Hrc Hp. rewrite Ht. destruct (decide (job = current_job_id (snapshot r))) as [->|Hne].
    + destruct Hjob as [E|([Hf _] & Hl & E)].
      * exists id, r'. rewrite lookup_insert_eq. done.
      * exfalso. rewrite E in Hrc. pose proof (ro_receipt _ _ _ Rr) as Hm. unfold receipt_matches in Hm.
        rewrite Hrc, Hl in Hm. destruct Hm as [_ Hm]. by apply Hm in Hp as [].
    + rewrite Hrec in Hrc by done. destruct (Srec _ _ Hrc Hp) as (id0 & r0 & Hr0 & Hj0).
      exists id0, r0. rewrite lookup_insert_ne; [done|]. intros <-. by simplify_eq.
  - intros id0. rewrite Ht. intros [Hn Hne]%lookup_insert_None. destruct (Sabs _ Hn) as [Hx Hn'].
    destruct (Hother id0) as [Hro ->]; [done|]. split; [done|]. intros n. by rewrite Hro.
Qed.
End invariant.

(** ** What the pieces of a task transaction do

    Inversion of transactions, and the effect on the tables of each helper the
    repository methods are made of. *)
Section effects.
Context `{TaskPayloads}.

(** ** Inversion *)
Lemma txn_bind_ok {A B} (m : Txn A) (f : A -> Txn B) d b d' : (m ≫= f) d = Ok (b, d') ->
  exists a d1, m d = Ok (a, d1) /\ f a d1 = Ok (b, d').
Proof. unfold mbind, txn_bind. destruct (m d) as [[a d1]|]; [eauto | done]. Qed.
Lemma txn_ret_ok {A} (a b : A) d d' : mret (M := Txn) a d = Ok (b, d') -> b = a /\ d' = d.
Proof. unfold mret, txn_ret. naive_solver. Qed.
Lemma txn_guard_ok bad e d u d' : txn_guard bad e d = Ok (u, d') -> bad = false /\ d' = d.
Proof. unfold txn_guard, txn_fail, mret, txn_ret. destruct bad; naive_solver. Qed.
Lemma txn_result_ok {E A} (r : result E A) e d a d' : txn_result r e d = Ok (a, d') -> r = Ok a /\ d' = d.
Proof. unfold txn_result, txn_fail, mret, txn_ret. destruct r; naive_solver. Qed.
Lemma txn_external_ok r d u d' : txn_external r d = Ok (u, d') -> is_ok r = true /\ d' = d.
Proof. unfold txn_external, txn_fail, mret, txn_ret. destruct r; naive_solver. Qed.
Lemma txn_get_ok d a d' : txn_get d = Ok (a, d') -> a = d /\ d' = d.
Proof. unfold txn_get. naive_solver. Qed.
Lemma txn_put_ok n d u d' : txn_put n d = Ok (u, d') -> u = tt /\ d' = n.
Proof. unfold txn_put. naive_solver. Qed.
Lemma counter_ok n d u d' : counter_to_i64 n d = Ok (u, d') -> n <= i64_max /\ d' = d.
Proof. unfold counter_to_i64. intros [Hn ->]%txn_guard_ok. split; [blia | done]. Qed.
End effects.

Ltac txn_subst H :=
  first [destruct H as [-> ->] | destruct H as [? ->] | destruct H as [-> ?] | destruct H].
Ltac inv_txn :=
  repeat match goal with
  | H : @mbind Txn _ _ _ _ _ _ = Ok (_, _) |- _ =>
      let a := fresh "a" in let d := fresh "d" in let H1 := fresh "Hx" in let H2 := fresh "Hx" in
      apply txn_bind_ok in H as (a & d & H1 & H2); cbv beta in H2
  | H : @mret Txn _ _ _ _ = Ok (_, _) |- _ => apply txn_ret_ok in H; txn_subst H
  | H : txn_guard _ _ _ = Ok (_, _) |- _ =>
      apply txn_guard_ok in H; txn_subst H
  | H : txn_result _ _ _ = Ok (_, _) |- _ =>
      apply txn_result_ok in H; txn_subst H
  | H : txn_external _ _ = Ok (_, _) |- _ => apply txn_external_ok in H; txn_subst H
  | H : counter_to_i64 _ _ = Ok (_, _) |- _ => apply counter_ok in H; txn_subst H
  | H : txn_fail _ _ = Ok _ |- _ => discriminate H
  | H : txn_get _ = Ok (_, _) |- _ => apply txn_get_ok in H; txn_subst H
  | H : txn_put _ _ = Ok (_, _) |- _ => apply txn_put_ok in H; txn_subst H
  end.

Section helpers.
Context `{TaskPayloads}.
Implicit Types (P : TaskProtector).

Lemma decode_record_ok P r d r' d' : decode_task_record P r d = Ok (r', d') -> r' = r /\ d' = d.
Proof. unfold decode_task_record. intros Hd. by inv_txn. Qed.
Lemma decode_record_fits P r d r' d' : decode_task_record P r d = Ok (r', d') ->
  document_fits P (snapshot r) (execution r) = Ok tt.
Proof.
  unfold decode_task_record. intros Hd. inv_txn.
  match goal with u : unit |- _ => by destruct u end.
Qed.
Lemma select_task_ok id d o d' : select_task_for_update id d = Ok (o, d') -> o = tasks d !! id /\ d' = d.
Proof. unfold select_task_for_update. intros Hs. by inv_txn. Qed.
Lemma select_owned_ok own id d o d' : select_owned_task_for_update own id d = Ok (o, d') ->
  d' = d /\ forall r, o = Some r -> tasks d !! id = Some r /\ owner (snapshot r) = own.
Proof.
  unfold select_owned_task_for_update. intros Hs. inv_txn. split; [done|]. intros r.
  destruct (tasks d !! id) as [r0|]; [|done]. by case_decide; intros [= ->].
Qed.

(** ** Rows and events *)
Definition event_for (s : TaskSnapshot) (kind : string) (t : Z) : TaskEvent :=
  {| te_task := task_id s; te_version := version s; te_generation := generation s; te_kind := kind; te_at := t |}.
Definition put_row (r : TaskRecord) (kind : string) (t : Z) (d : Db) : Db :=
  with_task_events (task_events d ++ [event_for (snapshot r) kind t])
    (with_tasks (<[task_id (snapshot r) := r]> (tasks d)) d).
Lemma insert_event_ok s kind t d u d' : insert_task_event s kind t d = Ok (u, d') ->
  d' = with_task_events (task_events d ++ [event_for s kind t]) d.
Proof. unfold insert_task_event. intros Hi. by inv_txn. Qed.
Lemma append_outbox_ok i d u d' : append_outbox i d = Ok (u, d') -> d' = with_outbox (outbox d ++ [i]) d.
Proof. unfold append_outbox. intros Hi. by inv_txn. Qed.
Lemma persist_task_ok P s x ev l d u d' : persist_task P s x ev l d = Ok (u, d') ->
  exists old, tasks d !! task_id s = Some old /\ transition_allowed (snapshot old) s = true /\
    row_constraints {| snapshot := s; execution := x; lease := l |} = true /\ version s <= i64_max /\
    d' = with_tasks (<[task_id s := {| snapshot := s; execution := x; lease := l |}]> (tasks d)) d.
Proof.
  unfold persist_task. intros Hp. inv_txn.
  destruct (tasks _ !! task_id s) as [old|] eqn:Eo; [|by inv_txn].
  exists old. destruct (negb (version (snapshot old) =? ev)); [by inv_txn|].
  destruct (negb (_ && _)) eqn:Ec; [by inv_txn|]. apply negb_false_iff, andb_true_iff in Ec as [Ea Er]. by inv_txn.
Qed.
Lemma persist_lease_ok id ev l d u d' : persist_lease id ev l d = Ok (u, d') ->
  exists old, tasks d !! id = Some old /\ is_terminal (state (snapshot old)) = false /\
    row_constraints {| snapshot := snapshot old; execution := execution old; lease := l |} = true /\
    d' = with_tasks (<[id := {| snapshot := snapshot old; execution := execution old; lease := l |}]> (tasks d)) d.
Proof.
  unfold persist_lease. intros Hp. inv_txn. destruct (tasks _ !! id) as [old|]; [|by inv_txn]. exists old.
  destruct (negb (version (snapshot old) =? ev)); [by inv_txn|].
  destruct (_ || negb _) eqn:Ec; [by inv_txn|]. apply orb_false_iff in Ec as [[Et _]%orb_false_iff Er%negb_false_iff].
  by inv_txn.
Qed.
Lemma commit_transition_ok P r tr t l kind d n d' : commit_transition P r tr t l kind d = Ok (n, d') ->
  let r' := {| snapshot := n; execution := execution r; lease := l |} in
  transitioned (snapshot r) (version (snapshot r)) tr t = Ok n /\ row_constraints r' = true /\
  version n <= i64_max /\ (exists old, tasks d !! task_id n = Some old /\ transition_allowed (snapshot old) n = true) /\
  d' = put_row r' (kind n) t d.
Proof.
  unfold commit_transition. intros Hc. inv_txn.
  match goal with H : persist_task _ _ _ _ _ _ = _ |- _ => apply persist_task_ok in H as (old & ? & ? & ? & ? & ->) end.
  match goal with H : insert_task_event _ _ _ _ = _ |- _ => apply insert_event_ok in H as -> end. eauto 10.
Qed.

(** ** Receipts *)
Definition done_receipt (e : InboxEvent) (at_ p : Z) : Receipt :=
  {| receipt_event := e; received_at := at_; processed_at := Some p |}.
Lemma resume_receipt_ok s job d c d' : resume_delivery_receipt s job d = Ok (c, d') ->
  d' = d /\ exists rc, receipts d !! job = Some rc /\ processed_at rc = None /\
    c = ReceiptClaimed (delivery_inbox_event s job) (received_at rc).
Proof.
  unfold resume_delivery_receipt. intros Hr. inv_txn. destruct (receipts _ !! job) as [rc|]; [|by inv_txn].
  destruct (negb _); [by inv_txn|]. destruct (processed_at rc) eqn:Ep; inv_txn. eauto.
Qed.
Lemma claim_receipt_ok s job R d c d' : claim_delivery_receipt s job R d = Ok (c, d') ->
  let e := delivery_inbox_event s job in
  (c = ReceiptDuplicate /\ d' = d /\ is_Some (receipts d !! job)) \/
  (receipts d !! job = None /\ c = ReceiptClaimed e (received R) /\
   d' = with_receipts (<[job := {| receipt_event := e; received_at := received R; processed_at := None |}]> (receipts d)) d).
Proof.
  unfold claim_delivery_receipt. intros Hr. inv_txn. destruct (receipts _ !! job) as [rc|] eqn:Er.
  - destruct (negb _); [by inv_txn|]. destruct (processed_at rc); inv_txn. left. eauto.
  - inv_txn. by right.
Qed.
Lemma owned_receipt_event e at_ d r : owned_receipt e at_ d = Some r ->
  receipts d !! event_id e = Some r /\ receipt_event r = e /\ received_at r = at_ /\ processed_at r = None.
Proof.
  unfold owned_receipt. destruct (receipts d !! event_id e) as [rc|]; [|done]. destruct (_ && _) eqn:Eb; [|done].
  intros [= ->]. apply andb_true_iff in Eb as [[Ee%bool_decide_eq_true Ea%Z.eqb_eq]%andb_true_iff Ep].
  by destruct (processed_at r).
Qed.
Lemma complete_receipt_ok e at_ R d u d' : complete_delivery_receipt (ReceiptClaimed e at_) R d = Ok (u, d') ->
  d' = with_receipts (<[event_id e := done_receipt e at_ (processed R)]> (receipts d)) d.
Proof.
  unfold complete_delivery_receipt. intros Hc. inv_txn. destruct (owned_receipt _ _ _); by inv_txn.
Qed.
Lemma release_receipt_ok e at_ d u d' : release_delivery_receipt (ReceiptClaimed e at_) d = Ok (u, d') ->
  d' = with_receipts (delete (event_id e) (receipts d)) d.
Proof. unfold release_delivery_receipt. intros Hc. inv_txn. destruct (owned_receipt _ _ _); by inv_txn. Qed.
End helpers.
