(* ===== verification/TaskSteps.v ===== *)
(** * Every task transaction keeps the invariant *)
From S2P Require Import Prelude Machine Text Ordered AuthCore TaskDomain TaskStore TaskRepository TaskFacts.
From S2P Require Import TaskInvariant.

Section steps.
Context `{TaskPayloads}.
Implicit Types (P : TaskProtector) (d : Db).

(** ** Successor rounds *)
Lemma successor_spec a b : is_response_successor a b = true ->
  number b = number a /\ request_state b = request_state a /\
  without_response <$> exchanges b = without_response <$> exchanges a.
Proof.
  unfold is_response_successor. rewrite !andb_true_iff, !bool_decide_eq_true. intros (((Hn & Hs) & Hsz) & Hall).
  repeat split; try done.
  assert (Hsub : forall k e, exchanges a !! k = Some e -> exists e', exchanges b !! k = Some e' /\ request e' = request e).
  { intros k e He. specialize (Hall k e He). simpl in Hall. unfold exchange_succeeds in Hall.
    destruct (exchanges b !! k) as [e'|]; [|done]. exists e'.
    apply andb_true_iff in Hall as [Hreq%bool_decide_eq_true _]. done. }
  assert (Hdom : dom (exchanges a) = dom (exchanges b)).
  { apply set_eq. intros k. assert (Hin : dom (exchanges a) ⊆ dom (exchanges b)).
    { intros k'. rewrite !elem_of_dom. intros [e He]. destruct (Hsub k' e He) as (e' & ? & _). eauto. }
    assert (Heq : dom (exchanges a) ≡ dom (exchanges b)) by (apply set_subseteq_size_equiv; [done | by rewrite !size_dom, Hsz]).
    apply Heq. }
  apply map_eq. intros k. rewrite !lookup_fmap. destruct (exchanges a !! k) as [e|] eqn:He.
  - destruct (Hsub k e He) as (e' & -> & Hr). simpl. unfold without_response. by rewrite Hr.
  - apply not_elem_of_dom in He. rewrite Hdom in He. apply not_elem_of_dom in He. by rewrite He.
Qed.
Lemma without_response_dom (m m' : gmap string InputExchange) :
  without_response <$> m' = without_response <$> m -> dom m' = dom m.
Proof. intros E. by rewrite <- (dom_fmap_L without_response m'), E, dom_fmap_L. Qed.

(** ** Transitions within one generation *)
Definition plain (tr : TaskTransition) : bool := match tr with Resume _ _ _ => false | _ => true end.
Lemma transition_plain s ev tr t n : transitioned s ev tr t = Ok n -> plain tr = true ->
  (tr = RequestCancellation -> cancellation_requested s = false) ->
  current_job_id n = current_job_id s /\ generation n = generation s /\ version n = version s + 1 /\ updated_at n = t.
Proof.
  intros (_ & _ & _ & _ & Hb)%transitioned_ok Hp Hc.
  destruct tr as [rd|rd|rd job gen| |res|fl|]; try done; unfold transition_body, to_state in Hb.
  - inv_ok. by subst.
  - destruct (state s); try done. inv_ok. by subst.
  - rewrite Hc in Hb by done. inv_ok. by subst.
  - inv_ok. by subst.
  - inv_ok. by subst.
  - inv_ok. by subst.
Qed.
(** The round of a task after such a transition. *)
Definition round_carried (s n : TaskSnapshot) : Prop :=
  match state n with
  | InputRequired b => exists a, state s = InputRequired a /\ number b = number a /\ request_state b = request_state a /\
      without_response <$> exchanges b = without_response <$> exchanges a
  | _ => True
  end.
Lemma transition_round s ev tr t n : transitioned s ev tr t = Ok n -> plain tr = true ->
  (forall rd, tr <> RequireInput rd) -> round_carried s n.
Proof.
  intros (_ & _ & _ & _ & Hb)%transitioned_ok Hp Hr. unfold round_carried.
  destruct tr as [rd|rd|rd job gen| |res|fl|]; try done; unfold transition_body, to_state in Hb.
  - by destruct (Hr rd).
  - destruct (state s) as [|a| | |] eqn:Es; try done. inv_ok. subst. simpl. exists a. split; [done|].
    match goal with G : (_ || _) = false |- _ => apply orb_false_iff in G as [[G _]%orb_false_iff _] end.
    by apply successor_spec, negb_false_iff.
  - destruct (cancellation_requested s); inv_ok; subst; simpl;
      match goal with |- match state ?x with _ => _ end => destruct (state x) end; eauto.
  - inv_ok. by subst.
  - inv_ok. by subst.
  - inv_ok. by subst.
Qed.
Lemma asked_carried rounds s n m : task_id n = task_id s -> generation n = generation s -> round_carried s n ->
  asked rounds n m ⊆ asked rounds s m.
Proof.
  intros Hid Hg Hc. unfold asked, round_carried in *. rewrite Hid, Hg. destruct (rounds !! _); [done|].
  destruct (state n) as [|b| | |]; try set_solver. destruct Hc as (a & -> & _ & _ & Hd).
  destruct (m =? generation s); [|done]. by rewrite (without_response_dom _ _ Hd).
Qed.

(** ** One row moves on *)
Definition log_extends d d' n kind t : Prop := task_events d' = task_events d ++ [event_for n kind t].
Lemma events_ok_next d d' s n kind t : log_extends d d' n kind t -> task_id n = task_id s -> version n = version s + 1 ->
  events_ok (task_events d) s -> events_ok (task_events d') n.
Proof.
  intros -> Hid Hv He v Hr. destruct (decide (v = version n)) as [->|Hne].
  - exists (event_for n kind t). rewrite elem_of_app, list_elem_of_singleton. auto.
  - destruct (He v) as (e & Hin & Ht & Hve); [lia|]. exists e. rewrite elem_of_app, Ht, Hid. auto.
Qed.
Lemma history_ok_next rounds s n : task_id n = task_id s -> generation n = generation s -> version s <= version n ->
  history_ok rounds s -> history_ok rounds n.
Proof.
  intros Hid Hg Hv Hh m. specialize (Hh m). rewrite Hid, Hg. destruct (rounds !! _); [|done].
  unfold round_row_ok in *. rewrite Hg. naive_solver lia.
Qed.
Lemma exec_intents_app id o o' : exec_intents id (o ++ o') = exec_intents id o ++ exec_intents id o'.
Proof. apply filter_app. Qed.

(** The tables after a transition within a generation; the receipt is settled apart. *)
Record moves_on d d' (id : Z) (r r' : TaskRecord) (tr : TaskTransition) (t : Z) (kind : string) : Prop := {
  mo_old : tasks d !! id = Some r;
  mo_new : tasks d' = <[id := r']> (tasks d);
  mo_next : transitioned (snapshot r) (version (snapshot r)) tr t = Ok (snapshot r');
  mo_exec : execution r' = execution r;
  mo_constraints : row_constraints r' = true;
  mo_version : version (snapshot r') <= i64_max;
  mo_index : idem_index d' = idem_index d;
  mo_rounds : input_rounds d' = input_rounds d;
  mo_outbox : exists o, outbox d' = outbox d ++ o /\ Forall (fun i => intent_kind i = CancellationIntent) o;
  mo_log : log_extends d d' (snapshot r') kind t;
  mo_receipts : forall job, job <> current_job_id (snapshot r) -> receipts d' !! job = receipts d !! job;
}.
Lemma no_exec_intents id o : Forall (fun i => intent_kind i = CancellationIntent) o -> exec_intents id o = [].
Proof.
  induction 1 as [|i o Hi _ IH]; [done|]. unfold exec_intents, is_execution in *. rewrite filter_cons_False; [done|].
  by rewrite Hi.
Qed.
Lemma constraints_positive r : row_constraints r = true -> 0 < generation (snapshot r) <= version (snapshot r).
Proof. unfold row_constraints. rewrite !andb_true_iff. lia. Qed.
Lemma store_ok_moves d d' id r r' tr t kind : store_ok d -> moves_on d d' id r r' tr t kind -> plain tr = true ->
  (tr = RequestCancellation -> cancellation_requested (snapshot r) = false) -> transition_round_ok tr ->
  lease_consistent (snapshot r') (lease r') = true ->
  receipt_matches (snapshot r') (lease r') (receipts d' !! current_job_id (snapshot r)) ->
  input_keys d ⊆ input_keys d' ->
  match state (snapshot r') with
  | InputRequired round => number round = generation (snapshot r) /\ is_ok (pending_form round) = true
  | _ => True
  end ->
  keys_ok d' (snapshot r') -> store_ok d'.
Proof.
  intros S M Hp Hc Hrd Hl Hrm Hk Hround Hkeys. destruct M as [Mold Mnew Mnext Mexec Mcon Mver Midx Mrounds Mout Mlog Mrec].
  pose proof (so_rows _ S _ _ Mold) as [Rid Rl Ri Rr Rh Rx Re Rk].
  destruct (transition_plain _ _ _ _ _ Mnext Hp Hc) as (Hjob & Hgen & Hver & _).
  pose proof (transition_identity _ _ _ _ _ Mnext) as I. pose proof (same_task_id _ _ I) as Hid.
  destruct Mout as (o & Eo & Ho).
  assert (Hx : forall i, exec_intents i (outbox d') = exec_intents i (outbox d)).
  { intros i. by rewrite Eo, exec_intents_app, (no_exec_intents i o), app_nil_r. }
  apply (store_ok_row d d' id r r'); try done.
  - by left.
  - intros id' _. split; [|done]. intros m. by rewrite Mrounds.
  - rewrite Mlog. by apply prefix_app_r.
  - split; try done; [|by rewrite Hgen]. rewrite Mexec.
    apply (transition_decodes (snapshot r) _ (version (snapshot r)) tr t); try done; [|by apply lo_decodes].
    by apply constraints_positive, lo_constraints.
  - by rewrite Hjob.
  - rewrite Mrounds. apply (history_ok_next _ (snapshot r)); done || lia.
  - unfold intents_ok. by rewrite Hid, Hx, Hgen, Hjob.
  - by apply (events_ok_next d d' (snapshot r) _ kind t).
Qed.
(** The same when no new round is asked: keys and round come along. *)
Lemma keys_ok_carried d d' s n : task_id n = task_id s -> generation n = generation s -> round_carried s n ->
  input_rounds d' = input_rounds d -> input_keys d ⊆ input_keys d' -> keys_ok d s -> keys_ok d' n.
Proof.
  intros Hid Hg Hc Er Hk [K1 K2]. split.
  - intros m k. rewrite Er, Hid. intros Hin%(asked_carried _ s); [|done..]. by apply Hk, (K1 m).
  - intros m m' k. rewrite Er. intros H1%(asked_carried _ s) H2%(asked_carried _ s); [|done..]. by apply (K2 m m' k).
Qed.
Lemma store_ok_carried d d' id r r' tr t kind : store_ok d -> moves_on d d' id r r' tr t kind -> plain tr = true ->
  (forall rd, tr <> RequireInput rd) ->
  (tr = RequestCancellation -> cancellation_requested (snapshot r) = false) -> transition_round_ok tr ->
  lease_consistent (snapshot r') (lease r') = true ->
  receipt_matches (snapshot r') (lease r') (receipts d' !! current_job_id (snapshot r)) ->
  input_keys d' = input_keys d -> store_ok d'.
Proof.
  intros S M Hp Hri Hc Hrd Hl Hrm Hk. pose proof (so_rows _ S _ _ (mo_old _ _ _ _ _ _ _ _ M)) as [_ Rl _ _ _ _ _ Rk].
  destruct (transition_plain _ _ _ _ _ (mo_next _ _ _ _ _ _ _ _ M) Hp Hc) as (Hjob & Hgen & Hver & _).
  pose proof (transition_identity _ _ _ _ _ (mo_next _ _ _ _ _ _ _ _ M)) as I.
  pose proof (transition_round _ _ _ _ _ (mo_next _ _ _ _ _ _ _ _ M) Hp Hri) as Hcar.
  apply (store_ok_moves d d' id r r' tr t kind); try done; [by rewrite Hk| |].
  - unfold round_carried in Hcar. destruct (state (snapshot r')) as [|b| | |]; try done.
    destruct Hcar as (a & Ea & Hn & Hs & Hw). pose proof (lo_round _ Rl) as Hlr. rewrite Ea in Hlr.
    unfold pending_form. by rewrite Hn, Hs, Hw.
  - apply (keys_ok_carried d d' (snapshot r)); try done; [apply (same_task_id _ _ I) | by destruct M | by rewrite Hk].
Qed.

(** ** Transitions that end the execution *)
Definition closing (tr : TaskTransition) : bool :=
  match tr with RecordInput _ | Complete _ | Fail _ | Cancel | RequireInput _ => true | _ => false end.
Lemma closing_not_working s ev tr t n : transitioned s ev tr t = Ok n -> closing tr = true ->
  is_working (state n) = false.
Proof.
  intros (_ & _ & _ & _ & Hb)%transitioned_ok Hc.
  destruct tr as [rd|rd|rd job gen| |res|fl|]; try done; unfold transition_body, to_state in Hb;
    try (destruct (state s); try done); inv_ok; by subst.
Qed.
Lemma closing_plain tr : closing tr = true -> plain tr = true /\ tr <> RequestCancellation.
Proof. by destruct tr. Qed.
Lemma unleased_consistent n : is_working (state n) = false \/ cancellation_requested n = false ->
  lease_consistent n None = true.
Proof. unfold lease_consistent. intros [-> | ->]; [done|]. by destruct (is_working _). Qed.
Lemma delivery_event_same s n job : same_identity s n -> generation n = generation s ->
  delivery_inbox_event n job = delivery_inbox_event s job.
Proof.
  intros I Hg. unfold delivery_inbox_event. by rewrite (same_owner _ _ I), (same_ident _ _ I), (same_task_id _ _ I), Hg.
Qed.
(** The receipt of the job is completed, or there was no execution. *)
Definition receipt_settled d d' (r : TaskRecord) : Prop :=
  let job := current_job_id (snapshot r) in
  (lease r = None /\ receipts d' !! job = receipts d !! job) \/
  exists at_ p, receipts d' !! job = Some (done_receipt (delivery_inbox_event (snapshot r) job) at_ p).
Lemma settled_matches d d' id r n : store_ok d -> tasks d !! id = Some r -> receipt_settled d d' r ->
  same_identity (snapshot r) n -> generation n = generation (snapshot r) ->
  current_job_id n = current_job_id (snapshot r) ->
  receipt_matches n None (receipts d' !! current_job_id (snapshot r)).
Proof.
  intros S Hr Hs I Hg Hj. pose proof (ro_receipt _ _ _ (so_rows _ S _ _ Hr)) as Hm. unfold receipt_matches in *.
  rewrite Hj, (delivery_event_same (snapshot r) n) by done. destruct Hs as [[Hl ->]|(at_ & p & ->)].
  - rewrite Hl in Hm. done.
  - simpl. split; [done|]. split; [by intros [] | done].
Qed.
Lemma store_ok_closed d d' id r n tr t kind : store_ok d ->
  moves_on d d' id r {| snapshot := n; execution := execution r; lease := None |} tr t kind -> closing tr = true ->
  (forall rd, tr <> RequireInput rd) -> transition_round_ok tr -> receipt_settled d d' r ->
  input_keys d' = input_keys d -> store_ok d'.
Proof.
  intros S M Hc Hri Hrd Hs Hk. destruct (closing_plain tr Hc) as [Hp Hnc].
  pose proof (mo_next _ _ _ _ _ _ _ _ M) as Hn. simpl in Hn.
  destruct (transition_plain _ _ _ _ _ Hn Hp) as (Hjob & Hgen & _ & _); [done|].
  eapply store_ok_carried; try done; simpl.
  - apply unleased_consistent. left. by eapply closing_not_working.
  - eapply settled_matches; try done; [apply M | by eapply transition_identity].
Qed.

(** What was written, read off a chain of updates. *)
Lemma moves_on_intro d d1 id r n tr t l kind : store_ok d -> tasks d !! id = Some r ->
  let r' := {| snapshot := n; execution := execution r; lease := l |} in
  transitioned (snapshot r) (version (snapshot r)) tr t = Ok n -> row_constraints r' = true -> version n <= i64_max ->
  tasks d1 = <[task_id n := r']> (tasks d) -> idem_index d1 = idem_index d -> input_rounds d1 = input_rounds d ->
  (exists o, outbox d1 = outbox d ++ o /\ Forall (fun i => intent_kind i = CancellationIntent) o) ->
  log_extends d d1 n kind t ->
  (forall job, job <> current_job_id (snapshot r) -> receipts d1 !! job = receipts d !! job) ->
  moves_on d d1 id r r' tr t kind.
Proof.
  intros S Hr r' Hn Hc Hv Ht Hi Hro Ho Hlog Hrec. split; try done.
  by rewrite Ht, (same_task_id _ _ (transition_identity _ _ _ _ _ Hn)), (ro_id _ _ _ (so_rows _ S _ _ Hr)).
Qed.
End steps.
#[export] Hint Resolve Forall_nil : omnius.
Ltac solve_moves :=
  apply moves_on_intro; simpl; try done;
  try solve [exists []; rewrite app_nil_r; auto with omnius | eexists; split; [done | repeat constructor; done]];
  try (intros; by rewrite ?lookup_insert_ne, ?lookup_delete_ne by congruence).

Section operations.
Context `{TaskPayloads}.
Implicit Types (P : TaskProtector) (d : Db).

Lemma resume_if_leased_ok r d c d' : resume_if_leased r d = Ok (c, d') ->
  let e := delivery_inbox_event (snapshot r) (current_job_id (snapshot r)) in
  d' = d /\ ((lease r = None /\ c = None) \/ exists at_, c = Some (ReceiptClaimed e at_)).
Proof.
  unfold resume_if_leased. intros Hc. destruct (lease r).
  - inv_txn. match goal with H : resume_delivery_receipt _ _ _ = _ |- _ => apply resume_receipt_ok in H as (-> & rc & _ & _ & ->) end.
    split; [done|]. right. eauto.
  - inv_txn. auto.
Qed.
(** Ending an execution: its receipt is resumed, the row moves on, the receipt is completed. *)
Lemma close_optional_ok P d id r tr t R kind n c d1 d2 d3 u : store_ok d -> tasks d !! id = Some r ->
  closing tr = true -> (forall rd, tr <> RequireInput rd) -> transition_round_ok tr ->
  resume_if_leased r d = Ok (c, d1) -> commit_transition P r tr t None kind d1 = Ok (n, d2) ->
  complete_optional c R d2 = Ok (u, d3) -> store_ok d3 /\ moves_on d d3 id r {| snapshot := n; execution := execution r; lease := None |} tr t (kind n).
Proof.
  intros S Hr Hc Hri Hrd (-> & Hl)%resume_if_leased_ok (Hn & Hcon & Hv & _ & ->)%commit_transition_ok Hcomp.
  destruct Hl as [[Hl ->]|(at_ & ->)]; simpl in Hcomp.
  - inv_txn. assert (M : moves_on d (put_row {| snapshot := n; execution := execution r; lease := None |} (kind n) t d)
                          id r {| snapshot := n; execution := execution r; lease := None |} tr t (kind n)) by solve_moves.
    split; [|done]. eapply store_ok_closed; try done. by left.
  - apply complete_receipt_ok in Hcomp as ->.
    match goal with |- store_ok ?d' /\ _ => assert (M : moves_on d d' id r {| snapshot := n; execution := execution r; lease := None |} tr t (kind n)) by solve_moves end.
    split; [|done]. eapply store_ok_closed; try done. right. exists at_, (processed R). simpl. apply lookup_insert_eq.
Qed.
End operations.

(** ** Input rounds in the store

    Validation of a stored round is validation of its exchanges one by one, so an
    answered round that still fits can be read back, from the row while answers are
    missing and from the history once it is complete. *)
Section rounds.
Context `{TaskPayloads}.
Implicit Types (P : TaskProtector) (d : Db).

Definition object_ok (v : Value) : Prop := validate_json_object v MAX_TASK_INPUT_BYTES = Ok tt.
Definition exchange_ok (k : string) (e : InputExchange) : Prop :=
  is_ok (InputKey_new k) = true /\ is_ok (InputExchange_pending (request e)) = true /\
  forall v, response e = Some v -> object_ok v.
Definition fits (n : option Z) : Prop := validate_len n MAX_TASK_INPUT_BYTES = Ok tt.

Lemma is_ok_ok {E A} (m : result E A) : is_ok m = true <-> exists a, m = Ok a.
Proof. destruct m; simpl; split; eauto; [done | by intros []]. Qed.
Lemma sorted_elem {A} (m : gmap string A) (k : string) (x : A) :
  (k, x) ∈ sort_by (by_key fst) (map_to_list m) <-> m !! k = Some x.
Proof. by rewrite sort_by_perm, elem_of_map_to_list. Qed.

Lemma validate_exchanges_iff l : validate_exchanges l = Ok tt <-> forall k e, (k, e) ∈ l -> exchange_ok k e.
Proof.
  induction l as [|[k e] l IH]; simpl; [split; [intros _ ? ?; by rewrite elem_of_nil | done]|]. split.
  - intros Hv. inv_ok. intros k' e'. rewrite elem_of_cons. intros [[= -> ->]|Hin]; [|by apply IH].
    unfold exchange_ok. rewrite Hok, Hok1. repeat split; try done. intros w Hw. rewrite Hw in *. by destruct v1.
  - intros Hall. destruct (Hall k e) as (Hk & Hr & Ho); [by left|].
    apply is_ok_ok in Hk as [? ->]. apply is_ok_ok in Hr as [? ->]. simpl.
    rewrite (proj2 IH) by (intros; apply Hall; by right). destruct (response e) as [v|]; [|done]. by rewrite (Ho v eq_refl).
Qed.
Lemma validate_completed_iff l : validate_completed l = Ok tt <->
  forall k e, (k, e) ∈ l -> is_ok (InputKey_new k) = true /\ is_ok (InputExchange_pending (request e)) = true /\ is_pending e = false.
Proof.
  induction l as [|[k e] l IH]; simpl; [split; [intros _ ? ?; by rewrite elem_of_nil | done]|]. split.
  - intros Hv. inv_ok. intros k' e'. rewrite elem_of_cons. intros [[= -> ->]|Hin]; [|by apply IH]. by rewrite Hok, Hok1.
  - intros Hall. destruct (Hall k e) as (Hk & Hr & ->); [by left|].
    apply is_ok_ok in Hk as [? ->]. apply is_ok_ok in Hr as [? ->]. simpl. apply IH. intros; apply Hall. by right.
Qed.
Lemma validate_responses_iff l : validate_responses l = Ok tt <->
  forall k v, (k, v) ∈ l -> object_ok v /\ is_ok (InputKey_new k) = true.
Proof.
  induction l as [|[k v] l IH]; simpl; [split; [intros _ ? ?; by rewrite elem_of_nil | done]|]. split.
  - intros Hv. inv_ok. intros k' v'. rewrite elem_of_cons. intros [[= -> ->]|Hin]; [|by apply IH].
    unfold object_ok. rewrite Hok, Hok1. by destruct v0.
  - intros Hall. destruct (Hall k v) as (Ho & Hk); [by left|]. unfold object_ok in Ho. rewrite Ho.
    apply is_ok_ok in Hk as [? ->]. simpl. apply IH. intros; apply Hall. by right.
Qed.

(** ** A round that can be stored *)
Record round_ok (round : InputRound) : Prop := {
  rd_state : TaskRequestState_new (request_state round) = Ok (request_state round);
  rd_exchanges : forall k e, exchanges round !! k = Some e -> exchange_ok k e;
  rd_number : number round <> 0;
  rd_size : (0 < size (exchanges round))%nat /\ Z.of_nat (size (exchanges round)) <= MAX_INPUT_REQUESTS;
}.
Lemma request_state_new s st : TaskRequestState_new s = Ok st -> st = s.
Proof. unfold TaskRequestState_new. intros Hs. inv_ok. done. Qed.
Lemma round_new_iff n st m r : InputRound_new n st m = Ok r <->
  r = {| number := n; request_state := st; exchanges := m |} /\ n <> 0 /\
  ((0 < size m)%nat /\ Z.of_nat (size m) <= MAX_INPUT_REQUESTS) /\ fits (exchanges_len (as_pairs m)).
Proof.
  unfold InputRound_new, fits, guard_err. destruct (Z.eqb_spec n 0) as [E|E]; simpl; [split; [done | naive_solver]|].
  case_bool_decide as Hs; simpl; [split; [done | naive_solver lia]|].
  destruct (Z.ltb_spec MAX_INPUT_REQUESTS (Z.of_nat (size m))); simpl; [split; [done | naive_solver lia]|].
  destruct (validate_len _ _) as [[]|]; simpl; split; try naive_solver lia.
Qed.
Lemma restored_round_iff round : validate_restored_state (InputRequired round) = Ok tt <->
  round_ok round /\ fits (exchanges_len (as_pairs (exchanges round))).
Proof.
  unfold validate_restored_state. split.
  - intros Hv. inv_ok. apply request_state_new in Hok as Est. subst.
    match goal with G : InputRound_new _ _ _ = _ |- _ => apply round_new_iff in G as (_ & Hn & Hs & Hf) end.
    match goal with G : validate_exchanges _ = Ok ?u |- _ => destruct u; pose proof (proj1 (validate_exchanges_iff _) G) as Hex end.
    split; [|done]. split; try done. intros k e He. by apply Hex, sorted_elem.
  - intros [[Hst Hex Hn Hs] Hf]. rewrite Hst. simpl.
    rewrite (proj2 (validate_exchanges_iff _)) by (intros k e Hin%sorted_elem; by apply Hex). simpl.
    by rewrite (proj2 (round_new_iff _ _ _ _) (conj eq_refl (conj Hn (conj Hs Hf)))).
Qed.

(** ** Answers *)
Record responses_ok (rs : gmap string Value) : Prop := {
  rs_values : forall k v, rs !! k = Some v -> object_ok v;
}.
Lemma responses_new_ok rs r : InputResponses_new rs = Ok r -> r = rs /\ responses_ok rs.
Proof.
  unfold InputResponses_new. intros Hr. inv_ok. subst. split; [done|]. split. intros k w Hw.
  match goal with G : validate_responses _ = Ok ?u |- _ => destruct u; pose proof (proj1 (validate_responses_iff _) G) as Hall end.
  by apply (Hall k w), sorted_elem.
Qed.
Lemma answered_round_ok round rs : round_ok round -> responses_ok rs -> round_ok (updated_round (apply_responses round rs)).
Proof.
  intros [Hst Hex Hn Hs] [Hrs]. destruct (apply_responses_fixed round rs) as (En & Es & _).
  destruct (apply_responses_spec round rs) as [Em _]. split; rewrite ?En, ?Es, ?Em, ?answered_map_size; try done.
  intros k e. rewrite lookup_answered_map. destruct (exchanges round !! k) as [e0|] eqn:He; [|done]. simpl. intros [= <-].
  destruct (Hex k e0 He) as (Hk & Hr & Ho). split; [done|]. rewrite answered_request. split; [done|].
  unfold answered. destruct (response e0) eqn:Er; [intros w; rewrite Er; by apply Ho|].
  destruct (rs !! k) as [v|] eqn:Ev; [|intros w; rewrite Er; done]. simpl. intros w [= <-]. by eapply Hrs.
Qed.
Lemma answered_pending_form round rs :
  pending_form (updated_round (apply_responses round rs)) = pending_form round.
Proof.
  unfold pending_form. destruct (apply_responses_fixed round rs) as (-> & -> & _).
  destruct (apply_responses_spec round rs) as [-> _]. by rewrite without_response_answered.
Qed.

(** ** Reading a completed round back *)
Lemma all_answered_iff m : all_answered m = true <-> forall k e, m !! k = Some e -> is_pending e = false.
Proof. unfold all_answered. by rewrite bool_decide_eq_true. Qed.
Lemma reanswered m : all_answered m = true -> answered_map (without_response <$> m) (omap response m) = m.
Proof.
  rewrite all_answered_iff. intros Hall. apply map_eq. intros k. rewrite lookup_answered_map, lookup_fmap, lookup_omap.
  destruct (m !! k) as [e|] eqn:He; [|done]. simpl. specialize (Hall k e He). unfold answered, is_pending in *. simpl.
  destruct (response e) eqn:Er; [|done]. f_equal. destruct e. simpl in *. by subst.
Qed.
Lemma decode_completed_ok round : round_ok round -> is_ok (pending_form round) = true -> all_answered (exchanges round) = true ->
  validate_len (document_len round) INPUT_ROUND_MAX_BYTES = Ok tt -> fits (responses_len (omap response (exchanges round))) ->
  decode_completed_round round = Ok round.
Proof.
  intros [Hst Hex Hn [Hs1 Hs2]] Hp Hall Hdoc Hlen. unfold decode_completed_round. rewrite Hdoc. simpl.
  pose proof (proj1 (all_answered_iff _) Hall) as Hall'.
  rewrite (proj2 (validate_completed_iff _)) by (intros k e Hin%sorted_elem; destruct (Hex k e Hin) as (? & ? & _); eauto).
  simpl. rewrite Hst. simpl. apply is_ok_ok in Hp as [pf Hpf]. unfold pending_form in Hpf. rewrite Hpf. simpl.
  assert (Hsz : size (omap response (exchanges round)) = size (exchanges round)).
  { rewrite <- !size_dom. f_equal. apply set_eq. intros k. rewrite !elem_of_dom, lookup_omap.
    destruct (exchanges round !! k) as [e|] eqn:He; simpl; [|done]. specialize (Hall' k e He). unfold is_pending in Hall'.
    destruct (response e); [|done]. split; eauto. }
  assert (Hresp : InputResponses_new (omap response (exchanges round)) = Ok (omap response (exchanges round))).
  { unfold InputResponses_new. rewrite Hsz. rewrite bool_decide_eq_false_2 by lia.
    destruct (Z.ltb_spec MAX_INPUT_REQUESTS (Z.of_nat (size (exchanges round)))); [lia|]. simpl.
    rewrite (proj2 (validate_responses_iff _)); [simpl; unfold fits in Hlen; by rewrite Hlen|].
    intros k v Hin%sorted_elem. rewrite lookup_omap in Hin. destruct (exchanges round !! k) as [e|] eqn:He; [|done].
    destruct (Hex k e He) as (? & _ & Ho). split; [by apply Ho | done]. }
  rewrite Hresp. simpl. apply round_new_iff in Hpf as (Epf & _). subst pf.
  set (pend := {| number := number round; request_state := request_state round; exchanges := without_response <$> exchanges round |}).
  destruct (apply_responses_fixed pend (omap response (exchanges round))) as (En & Es & Ec).
  destruct (apply_responses_spec pend (omap response (exchanges round))) as [Em Hch].
  rewrite Ec, Em. simpl. rewrite (reanswered _ Hall), Hall. simpl.
  rewrite (proj2 Hch); simpl.
  - f_equal. destruct (updated_round _) as [n st m]. simpl in *. destruct round. simpl in *.
    rewrite (reanswered _ Hall) in Em. by subst.
  - destruct (map_choose (exchanges round)) as (k & e & He); [intros E; rewrite E, map_size_empty in Hs1; lia|].
    specialize (Hall' k e He). unfold is_pending in Hall'. destruct (response e) as [v|] eqn:Er; [|done].
    exists k, (without_response e), v. simpl. by rewrite lookup_fmap, lookup_omap, He.
Qed.
End rounds.
