(* ===== verification/TaskSafety.v ===== *)
(** * The task store keeps its invariant

    One lemma per repository method, the steps of the store under any interleaving
    of methods, and the invariant of every reachable store. *)
From S2P Require Import Prelude Machine Text Ordered AuthCore TaskDomain TaskStore TaskRepository TaskFacts TaskInvariant.
From S2P Require Import TaskSteps.

(** Opens a method on the row it locks; a missing row changes nothing. *)
Ltac open_row r Hr := inv_txn;
  match goal with
  | H : select_owned_task_for_update _ _ _ = Ok (?o, _) |- _ =>
      apply select_owned_ok in H as [-> H]; destruct o as [r|]; [destruct (H r eq_refl) as [Hr _] | by inv_txn]
  | H : select_task_for_update _ _ = Ok (?o, _) |- _ =>
      apply select_task_ok in H as [Hr ->]; destruct o as [r|]; [symmetry in Hr | by inv_txn]
  end; inv_txn;
  match goal with H : decode_task_record _ _ _ = Ok _ |- _ => apply decode_record_ok in H as [-> ->] end.
(** Takes the first test of a transaction; the branch that returns at once changes nothing. *)
Ltac early E := match goal with H : (if ?b then _ else _) _ = Ok _ |- _ => destruct b eqn:E; [by inv_txn|] end.

Section operations.
Context `{TaskPayloads}.
Implicit Types (P : TaskProtector) (d : Db).

Lemma expire_record_ok P d id r R n d' : store_ok d -> tasks d !! id = Some r -> expire_record P r R d = Ok (n, d') ->
  store_ok d' /\ moves_on d d' id r {| snapshot := n; execution := execution r; lease := None |} (Fail Expired) (now R) "expired".
Proof.
  unfold expire_record. intros S Hr He. inv_txn. by eapply (close_optional_ok P d id r (Fail Expired) (now R) R (fun _ => "expired"%string)).
Qed.
Lemma get_ok P own id R d o d' : store_ok d -> get P own id R d = Ok (o, d') -> store_ok d'.
Proof.
  unfold get. intros S Hg. open_row r Hr. destruct (_ && _); inv_txn; [|done].
  match goal with H : expire_record _ _ _ _ = _ |- _ => by apply (expire_record_ok _ _ _ _ _ _ _ S Hr) in H as [? _] end.
Qed.
(** The batch: rows selected together stay as selected until they are handled. *)
Lemma expire_rows_ok P t pf rows : forall d o d', store_ok d ->
  NoDup ((fun r => task_id (snapshot r)) <$> rows) ->
  Forall (fun r => tasks d !! task_id (snapshot r) = Some r) rows ->
  expire_rows P t pf rows d = Ok (o, d') -> store_ok d'.
Proof.
  induction rows as [|r rows IH]; intros d o d' S Hnd Hall He; simpl in He; [by inv_txn|]. inv_txn.
  match goal with H : decode_task_record _ _ _ = _ |- _ => apply decode_record_ok in H as [-> ->] end.
  inversion_clear Hnd as [|? ? Hnin Hnd']. inversion_clear Hall as [|? ? Hr Hall'].
  match goal with H : expire_record _ _ _ _ = _ |- _ => apply (expire_record_ok _ _ _ _ _ _ _ S Hr) in H as [S' M] end.
  eapply IH; [exact S' | done | | done]. rewrite (mo_new _ _ _ _ _ _ _ _ M).
  apply Forall_forall. intros r' Hin. rewrite lookup_insert_ne; [by eapply Forall_forall in Hall'|].
  intros E. apply Hnin. rewrite E. apply list_elem_of_fmap. eauto.
Qed.
Lemma expiry_rows_elem t locked d r : store_ok d -> r ∈ expiry_rows t locked d ->
  tasks d !! task_id (snapshot r) = Some r /\ due t locked r = true.
Proof.
  intros S. unfold expiry_rows. rewrite sort_by_perm, list_elem_of_filter, list_elem_of_fmap.
  intros (Hdue & [id r0] & -> & Hin%elem_of_map_to_list). simpl in *. by rewrite (ro_id _ _ _ (so_rows _ S _ _ Hin)).
Qed.
Lemma expiry_rows_NoDup t locked d : store_ok d -> NoDup ((fun r => task_id (snapshot r)) <$> expiry_rows t locked d).
Proof.
  intros S. assert (Hperm : (fun r => task_id (snapshot r)) <$> expiry_rows t locked d ≡ₚ
    (fun r => task_id (snapshot r)) <$> filter (fun r => due t locked r = true) (snd <$> map_to_list (tasks d))).
  { apply fmap_Permutation, sort_by_perm. }
  rewrite Hperm. clear Hperm. pose proof (NoDup_fst_map_to_list (tasks d)) as Hnd.
  assert (Hids : forall id r, (id, r) ∈ map_to_list (tasks d) -> task_id (snapshot r) = id).
  { intros id r Hin%elem_of_map_to_list. apply (ro_id _ _ _ (so_rows _ S _ _ Hin)). }
  induction (map_to_list (tasks d)) as [|[id r] l IH]; [constructor|]. simpl in *.
  inversion_clear Hnd as [|? ? Hnin Hnd']. assert (IH' := IH Hnd' ltac:(intros; apply Hids; by constructor)).
  rewrite filter_cons. case_decide; [|done]. simpl. constructor; [|done]. rewrite (Hids id r) by constructor.
  rewrite list_elem_of_fmap. intros (r' & Hid & Hin). apply list_elem_of_filter in Hin as [_ Hin].
  apply list_elem_of_fmap in Hin as ([id' r''] & -> & Hin). simpl in *. apply Hnin.
  apply list_elem_of_fmap. exists (id', r''). split; [|done]. simpl. rewrite Hid. apply Hids. by constructor.
Qed.
Lemma expire_batch_ok P limit locked t pf d o d' : store_ok d -> expire_batch P limit locked t pf d = Ok (o, d') ->
  store_ok d'.
Proof.
  unfold expire_batch. intros S He. inv_txn.
  match goal with H : expire_rows _ _ _ _ _ = _ |- _ => eapply expire_rows_ok in H; [exact H | done | |] end.
  - rewrite fmap_take. eapply sublist_NoDup; [apply expiry_rows_NoDup, S | apply sublist_take].
  - apply Forall_forall. intros r Hin. apply (expiry_rows_elem t locked d r S). by eapply subseteq_take.
Qed.

(** ** Cancellation *)
Lemma add_cancel_intent d i : store_ok d -> intent_kind i = CancellationIntent -> store_ok (with_outbox (outbox d ++ [i]) d).
Proof.
  intros S Hi. assert (Hx : forall id, exec_intents id (outbox d ++ [i]) = exec_intents id (outbox d)).
  { intros id. rewrite exec_intents_app, (no_exec_intents id [i]) by (by constructor). apply app_nil_r. }
  destruct S as [S1 S2 S3 S4 S5]. split; simpl; try done.
  - intros id r Hr. apply (row_ok_frame d); simpl; by auto.
  - intros id Hn. rewrite Hx. by apply S5.
Qed.
Lemma cancel_consistent r n at_ t : lease_consistent (snapshot r) (lease r) = true -> lease_live (snapshot r) (lease r) at_ = true ->
  cancellation_requested (snapshot r) = false -> version (snapshot r) < u64_max ->
  transition_body (snapshot r) RequestCancellation t = Ok n -> lease_consistent n (lease r) = true.
Proof.
  unfold lease_live, transition_body. intros Hl Hlive Hc Hv Hb. rewrite Hc in Hb. inv_ok. subst n.
  destruct (lease r) as [l|]; [|done]. unfold lease_consistent in *. simpl. rewrite Hc in Hl.
  destruct (is_working (state (snapshot r))); [|by rewrite andb_false_r in Hl]. rewrite !andb_true_iff in *.
  unfold checked_add. destruct Hl as [Hl He%Z.eqb_eq]. rewrite He in *.
  destruct (Z.leb_spec (lease_version l + 1) u64_max); [|lia].
  split; [|by apply bool_decide_eq_true]. naive_solver lia.
Qed.
Lemma cancel_ok P q R d o d' : store_ok d -> intent_kind (cancellation_intent_of q) = CancellationIntent ->
  cancel_atomic P q R d = Ok (o, d') -> store_ok d'.
Proof.
  unfold cancel_atomic. intros S Hk Hc. open_row r Hr. early E1. early E2. early E3.
  match goal with H : (if ?b then _ else _) _ = Ok _ |- _ => destruct b eqn:E4 end.
  { inv_txn. match goal with H : expire_record _ _ _ _ = _ |- _ =>
      by apply (expire_record_ok _ _ _ _ _ _ _ S Hr) in H as [? _] end. }
  inv_txn. match goal with H : (if ?b then _ else _) _ = Ok _ |- _ => destruct b eqn:E5 end; inv_txn;
    match goal with H : append_outbox _ _ = _ |- _ => apply append_outbox_ok in H as -> end; apply add_cancel_intent; try done.
  - match goal with H : commit_transition _ _ _ _ _ _ _ = _ |- _ => apply commit_transition_ok in H as (Hn & Hcon & Hv & _ & ->) end.
    pose proof (so_rows _ S _ _ Hr) as Rr.
    match goal with |- store_ok ?d' => assert (M : moves_on d d' (cn_task_id q) r
      {| snapshot := a0; execution := execution r; lease := lease r |} RequestCancellation (now R) "cancellation_requested")
      by solve_moves end.
    apply (store_ok_carried _ _ _ _ _ _ _ _ S M); try done.
    + simpl. apply transitioned_ok in Hn as (_ & _ & _ & Hu & Hb).
      by apply (cancel_consistent r _ (now R) (now R)); [apply Rr | | | |].
    + simpl. destruct (transition_plain _ _ _ _ _ Hn) as (Hjob & Hgen & _); [done | done |].
      pose proof (ro_receipt _ _ _ Rr) as Hm. unfold receipt_matches in *.
      rewrite Hjob, (delivery_event_same (snapshot r)); [done | by eapply transition_identity | done].
  - by eapply (close_optional_ok P d _ r Cancel (now R) R (fun _ => "cancelled"%string)).
Qed.

(** ** Settlement *)
(** An execution ends with its receipt resumed first. *)
Lemma close_ok P d id r tr t R kind job n c d1 d2 d3 u : store_ok d -> tasks d !! id = Some r ->
  current_job_id (snapshot r) = job -> closing tr = true -> (forall rd, tr <> RequireInput rd) -> transition_round_ok tr ->
  resume_delivery_receipt (snapshot r) job d = Ok (c, d1) -> commit_transition P r tr t None kind d1 = Ok (n, d2) ->
  complete_delivery_receipt c R d2 = Ok (u, d3) -> store_ok d3.
Proof.
  intros S Hr <- Hc Hri Hrd (-> & rc & Hrc & Hp & ->)%resume_receipt_ok Hcom Hcomp.
  pose proof (ro_receipt _ _ _ (so_rows _ S _ _ Hr)) as Hm. unfold receipt_matches in Hm. rewrite Hrc in Hm.
  destruct Hm as [He Hl]. apply Hl in Hp as Hsome. destruct Hsome as [l El].
  assert (Hres : resume_if_leased r d = Ok (Some (ReceiptClaimed (delivery_inbox_event (snapshot r) (current_job_id (snapshot r)))
            (received_at rc)), d)).
  { unfold resume_if_leased, resume_delivery_receipt, mbind, txn_bind, txn_get. rewrite El, Hrc, He, Hp.
    by rewrite bool_decide_eq_true_2. }
  by destruct (close_optional_ok P d id r tr t R kind n _ _ _ _ _ S Hr Hc Hri Hrd Hres Hcom Hcomp).
Qed.
Lemma settlement_closing s t at_ : closing (settlement_transition s t at_) = true /\
  (forall rd, settlement_transition s t at_ <> RequireInput rd) /\ transition_round_ok (settlement_transition s t at_).
Proof. unfold settlement_transition. destruct (_ <=? _); [done|]. by destruct t. Qed.
Lemma settle_ok P f t R d o d' : store_ok d -> settle_execution P f t R d = Ok (o, d') -> store_ok d'.
Proof.
  unfold settle_execution. intros S Hs. open_row r Hr. early E1. inv_txn. rewrite !orb_false_iff, !negb_false_iff, Z.eqb_eq in E1.
  destruct (settlement_closing (snapshot r) t (now R)) as (Hc & Hri & Hrd).
  by eapply (close_ok P d _ r _ (now R) R terminal_event_kind (fence_job f)); [done | done | naive_solver | ..].
Qed.

(** ** Leases *)
Definition with_lease (r : TaskRecord) (l : option LeaseFence) : TaskRecord :=
  {| snapshot := snapshot r; execution := execution r; lease := l |}.
Lemma constraints_lease s x l : row_constraints {| snapshot := s; execution := x; lease := Some l |} = true ->
  version s <= i64_max -> lease_consistent s (Some l) = true.
Proof.
  unfold row_constraints, lease_consistent. simpl. rewrite !andb_true_iff. intros Hc Hv.
  destruct Hc as [[[_ Hl] _] _]. destruct Hl as [[[[[[Hj Hg] Hg0] Hv0] Ht] Hst] Hver].
  assert (is_working (state s) = true) as -> by (by destruct (state s)).
  assert (lease_version l <= version s <= i64_max) by (destruct (cancellation_requested s); lia).
  unfold checked_add, i64_max, u64_max in *. destruct (cancellation_requested s).
  - apply Z.eqb_eq in Hver. destruct (Z.leb_spec (lease_version l + 1) (2 ^ 64 - 1)); [|lia].
    rewrite bool_decide_eq_true_2 by (f_equal; lia). repeat split; try done; lia.
  - repeat split; try done; lia.
Qed.
Lemma store_ok_lease d d' id r l ev : store_ok d -> tasks d !! id = Some r -> tasks d' = <[id := with_lease r l]> (tasks d) ->
  idem_index d' = idem_index d -> input_rounds d' = input_rounds d -> outbox d' = outbox d -> input_keys d' = input_keys d ->
  task_events d' = task_events d ++ ev -> (forall job, job <> current_job_id (snapshot r) -> receipts d' !! job = receipts d !! job) ->
  lease_consistent (snapshot r) l = true -> row_constraints (with_lease r l) = true ->
  receipt_matches (snapshot r) l (receipts d' !! current_job_id (snapshot r)) -> store_ok d'.
Proof.
  intros S Hr Ht Hi Hro Ho Hk He Hrec Hl Hc Hm. pose proof (so_rows _ S _ _ Hr) as [Rid Rl Ri Rr Rh Rx Re Rk].
  apply (store_ok_row d d' id r (with_lease r l)); simpl; try done.
  - by left.
  - intros id' _. rewrite Ho. split; [|done]. intros n. by rewrite Hro.
  - rewrite He. by apply prefix_app_r.
  - by rewrite Hk.
  - destruct Rl. by split.
  - by rewrite Hro.
  - by rewrite Ho.
  - intros v Hv. destruct (Re v Hv) as (e & ? & ?). exists e. rewrite He, elem_of_app. tauto.
  - unfold keys_ok in *. by rewrite Hro, Hk.
Qed.
Lemma abandon_ok P f R d o d' : store_ok d -> abandon_execution P f R d = Ok (o, d') -> store_ok d'.
Proof.
  unfold abandon_execution. intros S Ha. open_row r Hr. early E1. inv_txn.
  rewrite !orb_false_iff, !negb_false_iff, !Z.eqb_eq in E1. destruct E1 as [[Hex Hjob] Hgen].
  pose proof (so_rows _ S _ _ Hr) as Rr. pose proof (ro_id _ _ _ Rr) as Hid.
  match goal with H : (if ?b then _ else _) _ = Ok _ |- _ => destruct b eqn:Ev end; inv_txn.
  - match goal with H : resume_delivery_receipt _ _ _ = _ |- _ => apply resume_receipt_ok in H as (-> & rc & Hrc & Hp & ->) end.
    match goal with H : release_delivery_receipt _ _ = _ |- _ => apply release_receipt_ok in H as -> end.
    match goal with H : persist_lease _ _ _ _ = _ |- _ => apply persist_lease_ok in H as (old & Hold & _ & Hcon & ->) end.
    match goal with H : insert_task_event _ _ _ _ = _ |- _ => apply insert_event_ok in H as -> end.
    simpl in Hold. rewrite Hid in Hold. assert (old = r) as -> by congruence.
    eapply (store_ok_lease d _ (fence_task f) r None); simpl; try done.
    + by rewrite Hid.
    + intros job Hne. rewrite lookup_delete_ne; [done | congruence].
    + apply unleased_consistent. pose proof (lo_lease _ (ro_local _ _ _ Rr)) as Hl. unfold lease_consistent in Hl.
      destruct (is_working (state (snapshot r))); [right|by left]. unfold exact_lease in Hex.
      destruct (lease r) as [l|]; [|done]. apply Z.eqb_eq in Ev. destruct (cancellation_requested (snapshot r)); [|done].
      apply andb_true_iff in Hl as [_ [Hl _]%bool_decide_eq_true%checked_add_Some]. blia.
    + rewrite Hjob, lookup_delete_eq. done.
  - by eapply (close_ok P d _ r Cancel (now R) R (fun _ => "cancelled"%string) (fence_job f)).
Qed.
Lemma decode_history_same P s rows : forall n d h d', decode_history P s n rows d = Ok (h, d') -> d' = d.
Proof.
  induction rows as [|[n' row] rows IH]; intros n d h d' Hd; simpl in Hd; inv_txn; [done|]. by eapply IH.
Qed.
Lemma load_history_same P s d h d' : load_input_history P s d = Ok (h, d') -> d' = d.
Proof. unfold load_input_history. intros Hl. inv_txn. by eapply decode_history_same. Qed.
Lemma release_stale_ok d id r d' u : store_ok d -> tasks d !! id = Some r ->
  release_stale r (current_job_id (snapshot r)) d = Ok (u, d') ->
  (lease r = None /\ d' = d) \/ d' = with_receipts (delete (current_job_id (snapshot r)) (receipts d)) d.
Proof.
  intros S Hr. unfold release_stale. destruct (lease r); intros Hs; inv_txn; [right|by left].
  match goal with H : resume_delivery_receipt _ _ _ = _ |- _ => apply resume_receipt_ok in H as (-> & rc & Hrc & Hp & ->) end.
  match goal with H : release_delivery_receipt _ _ = _ |- _ => by apply release_receipt_ok in H as -> end.
Qed.
Lemma claim_inactive_ok P d id r R o d' : store_ok d -> tasks d !! id = Some r ->
  claim_inactive P r (current_job_id (snapshot r)) R d = Ok (o, d') -> store_ok d'.
Proof.
  intros S Hr. unfold claim_inactive. intros Hc. inv_txn. destruct a as [e at_|]; inv_txn.
  - set (tr := if _ <=? _ then Fail Expired else Cancel) in *.
    assert (Htr : closing tr = true /\ (forall rd, tr <> RequireInput rd) /\ transition_round_ok tr)
      by (unfold tr; by destruct (_ <=? _)). destruct Htr as (Hcl & Hri & Hrd).
    unfold claim_or_resume in *. destruct (lease r) eqn:El; [by eapply (close_ok P d id r tr)|].
    match goal with H : claim_delivery_receipt _ _ _ _ = _ |- _ => apply claim_receipt_ok in H as [(? & _)|(Hn & [= -> ->] & ->)]; [done|] end.
    match goal with H : commit_transition _ _ _ _ _ _ _ = _ |- _ => apply commit_transition_ok in H as (Ht & Hcon & Hv & _ & ->) end.
    match goal with H : complete_delivery_receipt _ _ _ = _ |- _ => apply complete_receipt_ok in H as -> end.
    match type of Ht with _ = Ok ?n => match goal with |- store_ok ?d' => assert (M : moves_on d d' id r
      {| snapshot := n; execution := execution r; lease := None |} tr (now R) (terminal_event_kind n)) by solve_moves end end.
    eapply store_ok_closed; try done. right. exists (received R), (processed R). simpl. apply lookup_insert_eq.
  - unfold claim_or_resume in *. destruct (lease r).
    + match goal with H : resume_delivery_receipt _ _ _ = _ |- _ => by apply resume_receipt_ok in H as (-> & rc & _ & _ & ?) end.
    + match goal with H : claim_delivery_receipt _ _ _ _ = _ |- _ => by apply claim_receipt_ok in H as [(_ & -> & _)|(_ & ? & _)] end.
Qed.
Lemma claim_ok P q R d o d' : store_ok d -> claim_execution P q R d = Ok (o, d') -> store_ok d'.
Proof.
  unfold claim_execution. intros S Hc. open_row r Hr. early E1. rewrite !orb_false_iff, !negb_false_iff, !Z.eqb_eq in E1.
  destruct E1 as [[Hjob Hgen] Hw]. rewrite <- Hjob in *. early E2.
  match goal with H : (if ?b then _ else _) _ = Ok _ |- _ => destruct b eqn:E3 end; [by eapply claim_inactive_ok|].
  apply orb_false_iff in E3 as [Hexp Hcan]. pose proof (so_rows _ S _ _ Hr) as Rr. pose proof (ro_id _ _ _ Rr) as Hid.
  inv_txn. match goal with H : release_stale _ _ _ = _ |- _ => pose proof (release_stale_ok d _ r _ _ S Hr H) as Hrel; clear H end.
  match goal with H : claim_delivery_receipt _ _ _ _ = _ |- _ =>
    apply claim_receipt_ok in H as [(-> & -> & Hdup)|(Hnone & -> & ->)]; simpl in * end.
  - inv_txn. destruct Hrel as [[_ ->]| ->]; [done|]. simpl in Hdup. rewrite lookup_delete_eq in Hdup. by destruct Hdup.
  - inv_txn. match goal with H : load_input_history _ _ _ = _ |- _ => apply load_history_same in H as -> end.
    match goal with H : persist_lease _ _ _ _ = _ |- _ => apply persist_lease_ok in H as (old & Hold & _ & Hcon & ->) end.
    match goal with H : insert_task_event _ _ _ _ = _ |- _ => apply insert_event_ok in H as -> end.
    assert (old = r) as ->. { destruct Hrel as [[_ ->]| ->]; simpl in Hold; congruence. }
    match type of Hcon with row_constraints {| snapshot := _; execution := _; lease := ?l |} = _ =>
      eapply (store_ok_lease d _ _ r l); simpl; try done end.
    all: destruct Hrel as [[_ ->]| ->]; simpl; try done; try (by rewrite Hid).
    all: try (intros job Hne; by rewrite lookup_insert_ne, ?lookup_delete_ne by done).
    all: try (eapply constraints_lease; [exact Hcon | apply Rr]).
    all: rewrite lookup_insert_eq; simpl; split; [done | by split].
Qed.

(** ** Asking for input *)
Lemma insert_keys_ok id n keys : forall d u d', insert_input_keys id n keys d = Ok (u, d') ->
  d' = with_input_keys (list_to_set (pair id <$> keys) ∪ input_keys d) d /\ Forall (fun k => (id, k) ∉ input_keys d) keys.
Proof.
  induction keys as [|k keys IH]; intros d u d' Hi; simpl in *.
  - inv_txn. split; [|done]. destruct d. unfold with_input_keys. simpl. f_equal. by rewrite (left_id_L ∅ (∪)).
  - inv_txn. case_decide as Hk; inv_txn.
    match goal with H : insert_input_keys _ _ _ _ = _ |- _ => apply IH in H as [-> Hall] end. simpl in *. split.
    + unfold with_input_keys. simpl. f_equal. set_solver.
    + constructor; [done|]. eapply Forall_impl; [exact Hall|]. set_solver.
Qed.
(** A round a worker asks: valid, unanswered, numbered after the task's generation. *)
Record asked_round (round : InputRound) (gen : Z) : Prop := {
  ar_valid : validate_restored_state (InputRequired round) = Ok tt;
  ar_pending : forall k e, exchanges round !! k = Some e -> is_pending e = true;
  ar_number : number round = gen;
}.
Lemma asked_round_pending_form round gen : asked_round round gen -> is_ok (pending_form round) = true.
Proof.
  intros [Hv Hp _]. apply restored_round_iff in Hv as [Hok Hf]. unfold pending_form.
  assert (without_response <$> exchanges round = exchanges round) as ->.
  { apply map_eq. intros k. rewrite lookup_fmap. destruct (exchanges round !! k) as [e|] eqn:He; [|done]. simpl. f_equal.
    specialize (Hp k e He). unfold is_pending, without_response in *. destruct e as [req resp]. simpl in *. by destruct resp. }
  apply is_ok_ok. eexists. apply round_new_iff. split; [done|]. destruct Hok. done.
Qed.
Lemma sorted_keys_elem {A} (m : gmap string A) k : k ∈ sorted_keys m <-> k ∈ dom m.
Proof.
  unfold sorted_keys. rewrite sort_by_perm, list_elem_of_fmap, elem_of_dom. split.
  - intros ([k' x] & -> & Hin%elem_of_map_to_list). eauto.
  - intros [x Hx]. exists (k, x). by rewrite elem_of_map_to_list.
Qed.
Lemma require_input_round s ev rd t n : transitioned s ev (RequireInput rd) t = Ok n -> state n = InputRequired rd.
Proof. intros (_ & _ & _ & _ & Hb)%transitioned_ok. unfold transition_body, to_state in Hb. inv_ok. by subst. Qed.
Lemma require_ok P f round R d o d' : store_ok d -> asked_round round (fence_generation f) ->
  require_input P f round R d = Ok (o, d') -> store_ok d'.
Proof.
  unfold require_input. intros S A Hq. open_row r Hr. early E1. inv_txn.
  rewrite !orb_false_iff, !negb_false_iff, !Z.eqb_eq in E1. destruct E1 as [[[[[[_ Hgen] _] Hjob] Hw] _] _].
  match goal with H : validate_new_input_keys _ _ _ = _ |- _ => apply insert_keys_ok in H as [-> Hnew] end.
  match goal with H : resume_delivery_receipt _ _ _ = _ |- _ => apply resume_receipt_ok in H as (-> & rc & Hrc & Hp & ->) end.
  match goal with H : commit_transition _ _ _ _ _ _ _ = _ |- _ => apply commit_transition_ok in H as (Ht & Hcon & Hv & _ & ->) end.
  match goal with H : complete_delivery_receipt _ _ _ = _ |- _ => apply complete_receipt_ok in H as -> end.
  match type of Ht with _ = Ok ?m => rename m into n end. pose proof (so_rows _ S _ _ Hr) as Rr.
  pose proof (ro_id _ _ _ Rr) as Hid. pose proof (require_input_round _ _ _ _ _ Ht) as Hst.
  match goal with |- store_ok ?d' => assert (M : moves_on d d' (fence_task f) r
    {| snapshot := n; execution := execution r; lease := None |} (RequireInput round) (now R) "input_required") by solve_moves end.
  destruct (transition_plain _ _ _ _ _ Ht) as (Ej & Eg & _ & _); [done | done |].
  pose proof (transition_identity _ _ _ _ _ Ht) as I. pose proof (same_task_id _ _ I) as Ei.
  apply (store_ok_moves _ _ _ _ _ _ _ _ S M); simpl; try done.
  - apply (ar_valid _ _ A).
  - apply unleased_consistent. left. by rewrite Hst.
  - rewrite <- Hjob, lookup_insert_eq. split; [simpl; symmetry; rewrite Ej; by apply delivery_event_same|]. simpl.
    split; [by intros [] | done].
  - set_solver.
  - rewrite Hst. split; [by rewrite (ar_number _ _ A), Hgen | by eapply asked_round_pending_form].
  - assert (Hnone : input_rounds d !! (task_id n, generation n) = None).
    { pose proof (ro_history _ _ _ Rr (generation (snapshot r))) as Hh. rewrite Ei, Eg.
      destruct (input_rounds d !! _) as [row|]; [|done]. unfold round_row_ok in Hh. lia. }
    assert (Hask : forall m k, k ∈ asked (input_rounds d) n m ->
              (m = generation n /\ k ∈ dom (exchanges round)) \/ k ∈ asked (input_rounds d) (snapshot r) m).
    { intros m k. unfold asked. rewrite Ei. destruct (input_rounds d !! (task_id (snapshot r), m)); [by right|]. rewrite Hst.
      destruct (Z.eqb_spec m (generation n)); [by left | set_solver]. }
    assert (Hfresh : forall k, k ∈ dom (exchanges round) -> (task_id (snapshot r), k) ∉ input_keys d).
    { intros k Hk%sorted_keys_elem. rewrite Hid. eapply Forall_forall in Hnew; done. }
    destruct (ro_keys _ _ _ Rr) as [K1 K2]. unfold keys_ok. simpl. rewrite Ei. split.
    + intros m k [[_ Hk%sorted_keys_elem]|Hk]%Hask; [|by apply elem_of_union_r, (K1 m)].
      apply elem_of_union_l, elem_of_list_to_set, list_elem_of_fmap. rewrite Hid. eauto.
    + intros m m' k [[-> Hk]|Hk]%Hask [[-> Hk']|Hk']%Hask; try done.
      * by apply K1, Hfresh in Hk'.
      * by apply K1, Hfresh in Hk.
      * by eapply K2.
Qed.

(** ** Answers *)
(** The answered round stays within the bounds that reading it back checks. *)
Definition answer_fits (round : InputRound) (rs : gmap string Value) : Prop :=
  let u := apply_responses round rs in
  if complete u then fits (responses_len (omap response (exchanges (updated_round u))))
  else fits (exchanges_len (as_pairs (exchanges (updated_round u)))).
Lemma insert_history_ok P s g round d u d' : insert_input_history P s g round d = Ok (u, d') ->
  validate_len (document_len round) INPUT_ROUND_MAX_BYTES = Ok tt /\ g = number round /\
  d' = with_input_rounds (<[(task_id s, number round) := {| completed_generation := g; round_task_version := version s;
         completed_round := round |}]> (input_rounds d)) d.
Proof.
  unfold insert_input_history. intros Hi. inv_txn. destruct a.
  destruct (_ || negb _) eqn:E; inv_txn. rewrite !orb_false_iff, negb_false_iff, !andb_true_iff, Z.eqb_eq in E. tauto.
Qed.
Lemma resume_moves s ev rd job gen t n : transitioned s ev (Resume rd job gen) t = Ok n ->
  n = moved s t Working false job gen /\ gen = generation s + 1.
Proof.
  intros (_ & _ & _ & _ & Hb)%transitioned_ok. unfold transition_body, generation_next, checked_add in Hb.
  destruct (_ <=? _); [|done]. destruct (state s); try done. inv_ok. subst. split; [done|]. blia.
Qed.
Lemma resumed_local r rd ev job gen t n x : local_ok r -> transitioned (snapshot r) ev (Resume rd job gen) t = Ok n ->
  row_constraints {| snapshot := n; execution := x; lease := None |} = true -> execution r = x -> version n <= i64_max ->
  local_ok {| snapshot := n; execution := x; lease := None |}.
Proof.
  intros L Ht Hc Hx Hv. destruct (resume_moves _ _ _ _ _ _ _ Ht) as [En _]. split; simpl; try done.
  - rewrite <- Hx. apply (transition_decodes (snapshot r) _ ev (Resume rd job gen) t); try done; [by apply constraints_positive, L | apply L].
  - rewrite En. by apply unleased_consistent; right.
  - by rewrite En.
Qed.
Lemma intents_ok_next o i s n : intents_ok o s -> 0 <= generation s -> task_id n = task_id s ->
  intent_kind i = ExecutionIntent -> intent_task_id i = task_id s -> intent_generation i = generation s + 1 ->
  generation n = generation s + 1 -> current_job_id n = intent_job_id i -> intents_ok (o ++ [i]) n.
Proof.
  intros [Hg Hl] Hpos Hid Hk Ht Hig Hgn Hj. unfold intents_ok. rewrite Hid, exec_intents_app.
  assert (exec_intents (task_id s) [i] = [i]) as ->.
  { unfold exec_intents, is_execution. rewrite filter_cons_True; [done|]. by rewrite Hk, Ht, Z.eqb_refl. }
  rewrite fmap_app, last_snoc, Hg, Hgn, Hj. simpl. rewrite Hig, seqZ_app by lia. split; [|done]. f_equal.
  by rewrite (Z.add_comm 1).
Qed.
Lemma history_ok_next_round rounds s n row : history_ok rounds s -> 0 < generation s -> task_id n = task_id s ->
  generation n = generation s + 1 -> version s <= version n -> round_row_ok n (generation s) row ->
  history_ok (<[(task_id s, generation s) := row]> rounds) n.
Proof.
  intros Hh Hpos Hid Hg Hv Hrow m. rewrite Hid. destruct (decide (m = generation s)) as [->|Hne].
  - by rewrite lookup_insert_eq.
  - rewrite lookup_insert_ne by congruence. specialize (Hh m). destruct (rounds !! _); [|lia].
    unfold round_row_ok in *. naive_solver lia.
Qed.
Lemma keys_ok_answered d s n round row : keys_ok d s -> history_ok (input_rounds d) s -> task_id n = task_id s ->
  state s = InputRequired round -> state n = Working ->
  dom (exchanges (completed_round row)) = dom (exchanges round) ->
  keys_ok (with_input_rounds (<[(task_id s, generation s) := row]> (input_rounds d)) d) n.
Proof.
  intros [K1 K2] Hh Hid Hs Hn Hdom.
  assert (Hask : forall m, asked (<[(task_id s, generation s) := row]> (input_rounds d)) n m ⊆ asked (input_rounds d) s m).
  { intros m. unfold asked. rewrite Hid, Hs, Hn. destruct (decide (m = generation s)) as [->|Hne].
    - rewrite lookup_insert_eq, Z.eqb_refl, Hdom. specialize (Hh (generation s)).
      destruct (input_rounds d !! _); [|done]. unfold round_row_ok in Hh. lia.
    - rewrite lookup_insert_ne by congruence. destruct (input_rounds d !! _); [done | set_solver]. }
  split; simpl; rewrite ?Hid; [intros m k Hk%Hask; by eapply K1 | intros m m' k Hk%Hask Hk'%Hask; by eapply K2].
Qed.
Lemma resume_ok P d id r q R u n d1 d2 d3 a1 a2 a3 round : store_ok d -> tasks d !! id = Some r ->
  intent_kind (resume_intent q) = ExecutionIntent -> responses_ok (up_responses q) ->
  fresh_job d (intent_job_id (resume_intent q)) -> answer_fits round (up_responses q) ->
  state (snapshot r) = InputRequired round -> up_generation q = generation (snapshot r) ->
  u = apply_responses round (up_responses q) -> complete u = true ->
  validate_resume_intent (snapshot r) (resume_intent q) = true ->
  transitioned (snapshot r) (up_version q) (Resume (updated_round u) (intent_job_id (resume_intent q))
    (intent_generation (resume_intent q))) (now R) = Ok n ->
  insert_input_history P n (up_generation q) (updated_round u) d = Ok (a1, d1) ->
  persist_task P n (execution r) (up_version q) None d1 = Ok (a2, d2) ->
  insert_task_event n "resumed" (now R) d2 = Ok (a3, d3) ->
  store_ok (with_outbox (outbox d3 ++ [resume_intent q]) d3).
Proof.
  intros S Hr Hk Hrs Hfresh Hfit Hst Hgen -> Hcomp Hval Ht (Hdoc & Hnum & ->)%insert_history_ok
    (old & Hold & _ & Hcon & Hv & ->)%persist_task_ok ->%insert_event_ok.
  pose proof (so_rows _ S _ _ Hr) as Rr. destruct Rr as [Rid Rl Ri Rrec Rh Rx Re Rk].
  destruct (resume_moves _ _ _ _ _ _ _ Ht) as [En Eg]. pose proof (transition_identity _ _ _ _ _ Ht) as I.
  pose proof (same_task_id _ _ I) as Eid. pose proof (lo_round _ Rl) as Hround. rewrite Hst in Hround.
  destruct Hround as [Hrn Hpf]. destruct (apply_responses_fixed round (up_responses q)) as (Hn' & _ & Hc').
  destruct (apply_responses_spec round (up_responses q)) as [Hex _].
  assert (Hpos : 0 < generation (snapshot r)) by (apply (constraints_positive r), Rl).
  assert (Hlease : lease r = None).
  { pose proof (lo_lease _ Rl) as Hl. unfold lease_consistent in Hl. rewrite Hst in Hl. simpl in Hl.
    destruct (lease r); [by rewrite andb_false_r in Hl | done]. }
  unfold validate_resume_intent in Hval. rewrite !andb_true_iff in Hval. destruct Hval as [[Hit%Z.eqb_eq _] _].
  set (row := {| completed_generation := up_generation q; round_task_version := version n;
                 completed_round := updated_round (apply_responses round (up_responses q)) |}).
  assert (Hrow : round_row_ok n (generation (snapshot r)) row).
  { unfold round_row_ok, row. simpl. rewrite En. simpl. rewrite Hn', Hrn. repeat split; try lia.
    - pose proof (constraints_positive _ (lo_constraints _ Rl)). lia.
    - pose proof (lo_decodes _ Rl) as (_ & _ & _ & Hvr & _)%decode_spec. rewrite Hst in Hvr.
      apply restored_round_iff in Hvr as [Hrok _]. apply decode_completed_ok; try done.
      + by apply answered_round_ok.
      + by rewrite answered_pending_form.
      + by rewrite <- Hc'.
      + unfold answer_fits in Hfit. by rewrite Hcomp in Hfit. }
  rewrite Hn', Hrn, Eid, Rid in *.
  match goal with |- store_ok ?d' => set (d9 := d') end.
  apply (store_ok_row d d9 id r {| snapshot := n; execution := execution r; lease := None |}); simpl; try done.
  - right. by rewrite En.
  - intros id' Hne. split; [intros m; apply lookup_insert_ne; congruence|].
    rewrite exec_intents_app. unfold exec_intents at 2. rewrite filter_cons_False; [apply app_nil_r|].
    rewrite Hit. destruct (Z.eqb_spec id id'); [congruence | by rewrite andb_false_r].
  - by apply prefix_app_r.
  - by eapply resumed_local.
  - rewrite En. simpl. destruct Hfresh as [Hf _]. by rewrite Hf.
  - rewrite <- Rid. apply history_ok_next_round; try done; rewrite En; simpl; lia.
  - apply (intents_ok_next _ _ (snapshot r)); try done; rewrite ?En; simpl; done || lia.
  - apply (events_ok_next d d9 (snapshot r) n "resumed" (now R)); try done; [congruence | by rewrite En].
  - assert (K : keys_ok (with_input_rounds (<[(task_id (snapshot r), generation (snapshot r)) := row]> (input_rounds d)) d) n).
    { apply (keys_ok_answered d (snapshot r) n round row); try done; [congruence | by rewrite En|].
      unfold row. simpl. by rewrite Hex, answered_map_dom. }
    rewrite Rid in K. exact K.
Qed.
Lemma update_ok P q R d o d' : store_ok d -> intent_kind (resume_intent q) = ExecutionIntent ->
  responses_ok (up_responses q) -> fresh_job d (intent_job_id (resume_intent q)) ->
  (forall r round, tasks d !! up_task_id q = Some r -> state (snapshot r) = InputRequired round ->
     answer_fits round (up_responses q)) ->
  update_input_atomic P q R d = Ok (o, d') -> store_ok d'.
Proof.
  unfold update_input_atomic. intros S Hk Hrs Hf Hfit Hu. open_row r Hr. early E1.
  rewrite !orb_false_iff, !negb_false_iff, !Z.eqb_eq in E1. destruct E1 as [Hver Hgen].
  destruct (state (snapshot r)) as [|round| | |] eqn:Hst; try by inv_txn. early E2.
  pose proof (so_rows _ S _ _ Hr) as Rr. specialize (Hfit r round Hr Hst).
  assert (Hlease : lease r = None).
  { pose proof (lo_lease _ (ro_local _ _ _ Rr)) as Hl. unfold lease_consistent in Hl. rewrite Hst in Hl. simpl in Hl.
    destruct (lease r); [by rewrite andb_false_r in Hl | done]. }
  match goal with H : (if ?b then _ else _) _ = Ok _ |- _ => destruct b eqn:E3 end.
  { inv_txn. eapply (close_optional_ok P d _ r (Fail Expired) (now R) R (fun _ => "expired"%string) _ None); try done.
    unfold resume_if_leased. by rewrite Hlease. }
  early E4. match goal with H : (if ?b then _ else _) _ = Ok _ |- _ => destruct b eqn:E5 end; inv_txn.
  - match goal with H : append_outbox _ _ = _ |- _ => apply append_outbox_ok in H as -> end.
    eapply (resume_ok P d _ r q R); try done. by apply negb_false_iff.
  - eapply (close_optional_ok P d _ r (RecordInput _) (now R) R (fun _ => "input_recorded"%string) _ None); try done.
    + simpl. pose proof (lo_decodes _ (ro_local _ _ _ Rr)) as (_ & _ & _ & Hvr & _)%decode_spec. rewrite Hst in Hvr.
      apply restored_round_iff in Hvr as [Hrok _]. apply restored_round_iff. split; [by apply answered_round_ok|].
      unfold answer_fits in Hfit. by rewrite E5 in Hfit.
    + unfold resume_if_leased. by rewrite Hlease.
Qed.

(** ** Creation *)
Lemma creation_time_ok t s s' x : decode_stored_task s x = true -> with_authoritative_creation_time t s = Ok s' ->
  decode_stored_task s' x = true /\ is_fresh s' = true /\ created_at s' = t /\ idem_scope s' = idem_scope s /\
  task_id s' = task_id s /\ current_job_id s' = current_job_id s /\ fingerprint (idempotency s') = fingerprint (idempotency s).
Proof.
  intros (Hst & Hg & Hv & Hval & Hr)%decode_spec Hw. unfold with_authoritative_creation_time, checked_add_time in Hw. inv_ok.
  destruct (_ <=? time_max); [|done]. inv_ok. subst s'. apply negb_false_iff in Hok. apply restorable_spec in Hr.
  assert (Hf : is_fresh (set_times t t (t + (expires_at s - created_at s)) s) = true).
  { unfold is_fresh in *. simpl. rewrite Z.eqb_refl. rewrite !andb_true_iff in *. tauto. }
  split; [|done]. apply decode_spec. simpl. repeat split; try done; [apply Hst..|]. apply restorable_spec. simpl.
  replace (t + (expires_at s - created_at s) - t) with (expires_at s - created_at s) by lia.
  assert (Hw : state s = Working).
  { unfold is_fresh in Hf. simpl in Hf. rewrite !andb_true_iff in Hf. destruct (state s); naive_solver. }
  rewrite Hw in *. destruct Hr as (_ & ? & ? & ? & _). repeat split; try done; lia.
Qed.
Lemma store_ok_create d s x i : store_ok d -> decode_stored_task s x = true -> is_fresh s = true ->
  let r := {| snapshot := s; execution := x; lease := None |} in
  row_constraints r = true -> fresh_job d (current_job_id s) -> tasks d !! task_id s = None ->
  idem_index d !! idem_scope s = None -> intent_kind i = ExecutionIntent -> validate_execution_intent s i = true ->
  store_ok {| tasks := <[task_id s := r]> (tasks d);
              idem_index := <[idem_scope s := (fingerprint (idempotency s), task_id s)]> (idem_index d);
              input_keys := input_keys d; input_rounds := input_rounds d; receipts := receipts d;
              outbox := outbox d ++ [i]; task_events := task_events d ++ [event_for s "created" (created_at s)] |}.
Proof.
  intros S Hdec Hf r Hcon [Hf1 Hf2] Hnt Hni Hk Hval. destruct (so_absent _ S _ Hnt) as [Hx Hrd].
  unfold validate_execution_intent in Hval. rewrite !andb_true_iff, !Z.eqb_eq in Hval.
  destruct Hval as [[[Hij Hit] Hig] _]. unfold is_fresh in Hf. rewrite !andb_true_iff, !Z.eqb_eq, negb_true_iff in Hf.
  destruct Hf as [[[[Hg Hv] Hw] Hc] _]. assert (Hst : state s = Working) by (by destruct (state s)).
  assert (Hxo : forall id, id <> task_id s -> exec_intents id (outbox d ++ [i]) = exec_intents id (outbox d)).
  { intros id Hne. rewrite exec_intents_app. unfold exec_intents at 2. rewrite filter_cons_False; [apply app_nil_r|].
    rewrite Hit. destruct (Z.eqb_spec (task_id s) id); [congruence | by rewrite andb_false_r]. }
  unfold INITIAL in *. destruct S as [S1 S2 S3 S4 S5]. split; simpl.
  - intros id r0. destruct (decide (id = task_id s)) as [->|Hne].
    + rewrite lookup_insert_eq. intros [= <-]. split; simpl; try done.
      * split; simpl; try done; [by apply unleased_consistent; right | unfold i64_max; lia | by rewrite Hst].
      * by rewrite lookup_insert_eq.
      * by rewrite Hf1.
      * intros n. rewrite Hrd. lia.
      * unfold intents_ok. rewrite exec_intents_app, Hx. simpl. unfold exec_intents, is_execution.
        rewrite filter_cons_True by (by rewrite Hk, Hit, Z.eqb_refl). simpl. by rewrite Hig, Hg, Hij.
      * intros v Hvr. exists (event_for s "created" (created_at s)). rewrite elem_of_app, list_elem_of_singleton.
        simpl. split; [auto | split; [done | lia]].
      * unfold keys_ok, asked. simpl. rewrite Hst. split; intros n k; rewrite Hrd; set_solver.
    + rewrite lookup_insert_ne by done. intros Hr0. apply (row_ok_frame d); simpl; try done; [by apply S1| | |].
      * rewrite lookup_insert_ne; [done|]. intros E. rewrite E in Hni. by rewrite (ro_index _ _ _ (S1 _ _ Hr0)) in Hni.
      * by apply Hxo.
      * by apply prefix_app_r.
  - intros id1 id2 r1 r2. destruct (decide (id1 = task_id s)) as [->|Hne1], (decide (id2 = task_id s)) as [->|Hne2];
      rewrite ?lookup_insert_eq, ?lookup_insert_ne by done; [done| | |apply S2].
    + intros [= <-] Hr2 E. exfalso. by apply (Hf2 _ _ Hr2).
    + intros Hr1 [= <-] E. exfalso. by apply (Hf2 _ _ Hr1).
  - intros scope dig id. destruct (decide (scope = idem_scope s)) as [->|Hne].
    + rewrite lookup_insert_eq. intros [= <- <-]. exists r. by rewrite lookup_insert_eq.
    + rewrite lookup_insert_ne by done. intros Hs. destruct (S3 _ _ _ Hs) as (r0 & Hr0 & ?).
      exists r0. rewrite lookup_insert_ne by congruence. done.
  - intros job rc Hrc Hp. destruct (S4 _ _ Hrc Hp) as (id & r0 & Hr0 & Hj). exists id, r0.
    by rewrite lookup_insert_ne by congruence.
  - intros id [Hn Hne]%lookup_insert_None. rewrite Hxo by done. by apply S5.
Qed.
Lemma create_ok P q R d o d' : store_ok d ->
  decode_stored_task (st_snapshot (create_task q)) (st_execution (create_task q)) = true ->
  fresh_job d (current_job_id (st_snapshot (create_task q))) -> intent_kind (execution_intent_of q) = ExecutionIntent ->
  create_atomic P q R d = Ok (o, d') -> store_ok d'.
Proof.
  unfold create_atomic. intros S Hdec Hf Hk Hc. inv_txn.
  match goal with H : with_authoritative_creation_time _ _ = Ok ?s' |- _ => rename s' into s; rename H into Hs end.
  destruct (creation_time_ok _ _ _ _ Hdec Hs) as (Hdec' & Hfr & _ & Hsc & Hid & Hjob & _).
  destruct (idem_index d !! idem_scope s) as [[dig ex]|] eqn:Ei.
  - early E. inv_txn.
    match goal with H : select_task_for_update _ _ = _ |- _ => apply select_task_ok in H as [-> ->] end.
    destruct (tasks d !! ex); inv_txn.
    by match goal with H : decode_task_record _ _ _ = _ |- _ => apply decode_record_ok in H as [-> ->] end.
  - unfold insert_task in *. inv_txn.
    match goal with H : append_outbox _ _ = _ |- _ => apply append_outbox_ok in H as -> end.
    match goal with H : insert_task_event _ _ _ _ = _ |- _ => apply insert_event_ok in H as -> end.
    match goal with H : bool_decide (is_Some _) = false |- _ => apply bool_decide_eq_false, eq_None_not_Some in H end.
    apply (store_ok_create d s (st_execution (create_task q)) (execution_intent_of q)); try done.
    + by apply negb_false_iff.
    + by rewrite Hjob.
    + match goal with H : negb (validate_new_task _ _) = false |- _ => rename H into Hv end.
      apply negb_false_iff in Hv. unfold validate_new_task in Hv. rewrite !andb_true_iff in Hv. destruct Hv as [[_ Hf0] Hv].
      unfold validate_execution_intent, validate_event_identity in *.
      unfold with_authoritative_creation_time, checked_add_time in Hs. inv_ok. destruct (_ <=? time_max); [|done]. inv_ok. by subst s.
Qed.
(** ** Clean-up of old receipts *)
Lemma cleanup_ok selected d : store_ok d -> store_ok (cleanup_receipts selected d).
Proof.
  intros [S1 S2 S3 S4 S5]. unfold cleanup_receipts.
  assert (Hl : forall job rc, filter (fun kv : Z * Receipt => ~ (kv.1 ∈ selected /\ is_Some (processed_at kv.2))) (receipts d) !! job = Some rc ->
                receipts d !! job = Some rc).
  { intros job rc [? _]%map_lookup_filter_Some. done. }
  split; simpl; try done.
  - intros id r Hr. destruct (S1 id r Hr) as [Rid Rl Ri Rr Rh Rx Re Rk]. split; simpl; try done.
    unfold receipt_matches in *. destruct (filter _ _ !! _) as [rc|] eqn:E.
    + by rewrite (Hl _ _ E) in Rr.
    + destruct (receipts d !! _) as [rc|] eqn:Er; [|done]. destruct Rr as [_ Rr].
      apply map_lookup_filter_None in E as [E|E]; [congruence|]. specialize (E rc Er). simpl in E.
      destruct (lease r); [|done]. destruct E. intros [_ [p Hp]]. assert (processed_at rc = None) by (by apply Rr). congruence.
  - intros job rc Hrc%Hl Hp. by eapply S4.
Qed.
End operations.
