(* ===== verification/TaskProgress.v ===== *)
(** * Task transactions succeed on a healthy store

    With a key service that answers, documents within their limit, a clock past the
    recorded times and counters below their limit, no method fails: the trigger and
    the constraints accept every row the methods write, and the receipts are where
    the methods look for them.  Claiming and expiring also need a clock that is not in
    the last, partial microsecond of a lifetime ([clear_microsecond]). *)
From S2P Require Import Prelude Machine Text Ordered AuthCore TaskDomain TaskStore TaskRepository TaskFacts TaskInvariant.
From S2P Require Import TaskSteps TaskSafety.

Section progress.
Context `{TaskPayloads}.
Implicit Types (P : TaskProtector) (d : Db).

Record cooperative P : Prop := {
  co_seal_task : forall s x, @seal_task _ P s x = Ok tt;
  co_open_task : forall s, @open_task _ P s = Ok tt;
  co_seal_round : forall s r, @seal_round _ P s r = Ok tt;
  co_open_round : forall s r, @open_round _ P s r = Ok tt;
}.
Definition runs {A} (m : Txn A) d : Prop := exists a d', m d = Ok (a, d').
Definition clock_past d (t : Z) : Prop := forall id r, tasks d !! id = Some r -> updated_at (snapshot r) < t.
Definition receipts_past d (t : Z) : Prop := forall job rc, receipts d !! job = Some rc -> received_at rc <= t.
Definition counters_left d : Prop := forall id r, tasks d !! id = Some r -> version (snapshot r) < i64_max.
(** The states a task may get into: one that can be restored, or its round with answers. *)
Definition admissible_state (s : TaskSnapshot) (st : TaskState) : Prop :=
  validate_restored_state st = Ok tt \/
  exists round rs, state s = InputRequired round /\ responses_ok rs /\ st = InputRequired (updated_round (apply_responses round rs)).
(** The document of the task stays within its limit, whichever of these states it is in. *)
Definition row_fits P (r : TaskRecord) : Prop := forall n, same_identity (snapshot r) n ->
  admissible_state (snapshot r) (state n) -> document_fits P n (execution r) = Ok tt.
Definition documents_fit P d : Prop := forall id r, tasks d !! id = Some r -> row_fits P r.
(** A lifetime that is not over has not ended as the database keeps it either. *)
Definition clear_microsecond d (t : Z) : Prop :=
  t < postgres_timestamp time_max /\
  forall id r, tasks d !! id = Some r -> t < expires_at (snapshot r) -> t < postgres_timestamp (expires_at (snapshot r)).
(** The same of one row: room for a version and its document, a clock past its last change and past its receipt. *)
Record row_ready P d (r : TaskRecord) (t p : Z) : Prop := {
  rr_document : row_fits P r;
  rr_version : version (snapshot r) < i64_max;
  rr_clock : updated_at (snapshot r) < t;
  rr_receipt : forall rc, receipts d !! current_job_id (snapshot r) = Some rc -> received_at rc <= p;
}.

Lemma bind_runs {A B} (m : Txn A) (f : A -> Txn B) d a d1 : m d = Ok (a, d1) -> (m ≫= f) d = f a d1.
Proof. intros E. unfold mbind, txn_bind. by rewrite E. Qed.

(** ** What the database accepts *)
Definition storable_move (s : TaskSnapshot) (tr : TaskTransition) : Prop :=
  match tr with
  | Complete _ => is_working (state s) = true
  | Resume _ job _ => job <> current_job_id s
  | RequestCancellation => cancellation_requested s = false
  | _ => True
  end.
Lemma row_constraints_unleased s x : 0 < generation s <= version s -> (state s = Cancelled -> cancellation_requested s = true) ->
  created_at s <= updated_at s -> created_at s < postgres_timestamp (expires_at s) -> version s <> 1 ->
  (status (state s) = InputRequired_ -> generation s < version s) ->
  row_constraints {| snapshot := s; execution := x; lease := None |} = true.
Proof.
  intros Hg Hc Hu He Hv Hi. unfold row_constraints. simpl. destruct (Z.eqb_spec (version s) 1); [done|]. simpl.
  rewrite !andb_true_iff. repeat split; try lia.
  - destruct (state s); try done. by rewrite Hc.
  - destruct (state s) eqn:E; try done. simpl. specialize (Hi eq_refl). lia.
Qed.
Lemma transition_states s ev tr t n : transitioned s ev tr t = Ok n -> storable_move s tr ->
  status_move (status (state s)) (status (state n)) = true /\
  (cancellation_requested s = true -> cancellation_requested n = true \/ exists rd j g, tr = Resume rd j g).
Proof.
  intros (_ & Hnt & _ & _ & Hb)%transitioned_ok Hm. unfold is_terminal in Hnt.
  destruct tr as [rd|rd|rd job gen| |res|fl|]; simpl in Hm; unfold transition_body, to_state in Hb.
  - inv_ok. subst. simpl. split; [by destruct (state s) | auto].
  - destruct (state s) eqn:Es; try done. inv_ok. subst. simpl. auto.
  - destruct (generation_next _); [|done]. destruct (state s) eqn:Es; try done. inv_ok. subst. split; [done | eauto].
  - rewrite Hm in Hb. inv_ok. subst. simpl. split; [by destruct (state s) | auto].
  - inv_ok. subst. simpl. split; [by destruct (state s) | auto].
  - inv_ok. subst. simpl. split; [by destruct (state s) | auto].
  - inv_ok. subst. simpl. split; [by destruct (state s) | auto].
Qed.
Lemma transition_accepted s ev tr t n : transitioned s ev tr t = Ok n -> storable_move s tr -> transition_allowed s n = true.
Proof.
  intros Ht Hm. pose proof (transition_identity _ _ _ _ _ Ht) as I. destruct (transition_states _ _ _ _ _ Ht Hm) as [Hst Hcan].
  pose proof (transitioned_ok _ _ _ _ _ Ht) as (_ & Hnt & Hlt & _ & Hb). destruct I as [E1 E2 E3 _ E5 _ E7 E8 _].
  assert (Hshape : version n = version s + 1 /\ updated_at n = t /\
    ((generation n = generation s /\ current_job_id n = current_job_id s /\ forall rd j g, tr <> Resume rd j g) \/
     (generation n = generation s + 1 /\ current_job_id n <> current_job_id s /\ status (state s) = InputRequired_ /\ status (state n) = Working_))).
  { destruct (plain tr) eqn:Ep.
    - destruct (transition_plain _ _ _ _ _ Ht Ep) as (? & ? & ? & ?); [by intros ->|].
      repeat split; try done. left. repeat split; try done. intros rd j g ->. done.
    - destruct tr as [| |rd job gen| | | |]; try done. destruct (resume_moves _ _ _ _ _ _ _ Ht) as [-> ->]. simpl.
      repeat split; try done. right. repeat split; try done. unfold transition_body in Hb. destruct (generation_next _); [|done].
      by destruct (state s). }
  destruct Hshape as (Hv & Hu & Hshape). unfold transition_allowed.
  rewrite E1, E2, E3, E5, E7, E8, Hv, Hu, Hnt, Hst, !Z.eqb_refl, !bool_decide_eq_true_2 by done.
  destruct (Z.ltb_spec (updated_at s) t); [|lia]. simpl. destruct Hshape as [(Hg & Hj & Hnr)|(Hg & Hj & Hs & Hn)].
  - rewrite Hg, Hj, !Z.eqb_refl. destruct (Z.eqb_spec (generation s) (generation s + 1)); [lia|]. simpl.
    destruct (cancellation_requested s); [|done]. simpl. destruct (Hcan eq_refl) as [-> |(rd & j & g & ->)]; [done|].
    by destruct (Hnr rd j g).
  - rewrite Hg, Z.eqb_refl, Hs, Hn, orb_true_r. simpl. destruct (Z.eqb_spec (current_job_id n) (current_job_id s)); [done|].
    done.
Qed.
Lemma row_created_before s x : decode_stored_task s x = true ->
  created_at s < expires_at s /\ created_at s < postgres_timestamp (expires_at s).
Proof.
  intros (_ & _ & _ & _ & Hr)%decode_spec. apply restorable_spec in Hr as (_ & [Ht _] & _). unfold MILLI in Ht.
  pose proof (postgres_timestamp_spec (expires_at s)). destruct (Z_lt_le_dec (expires_at s - created_at s) 1000); [|lia].
  pose proof (Z.quot_le_mono (expires_at s - created_at s) 1000 1000000). change (1000 ÷ 1000000) with 0 in *. lia.
Qed.
Lemma transition_row_accepted r ev tr t n : local_ok r -> transitioned (snapshot r) ev tr t = Ok n ->
  storable_move (snapshot r) tr -> row_constraints {| snapshot := n; execution := execution r; lease := None |} = true.
Proof.
  intros L Ht Hm. pose proof (constraints_positive _ (lo_constraints _ L)) as Hpos. pose proof (lo_decodes _ L) as Hdec.
  destruct (row_created_before _ _ Hdec) as [_ Hce]. apply decode_spec in Hdec as (_ & _ & _ & _ & Hr).
  pose proof (transition_restorable _ _ _ _ _ Hr Ht) as (Hcu & _ & _ & Hgv & Hcan & _)%restorable_spec.
  pose proof (transition_identity _ _ _ _ _ Ht) as I. rewrite <- (same_created _ _ I), <- (same_expires _ _ I) in Hce.
  assert (Hsh : version n = version (snapshot r) + 1 /\ 0 < generation n /\
    (status (state n) = InputRequired_ -> generation n = generation (snapshot r))).
  { destruct (plain tr) eqn:Ep.
    - destruct (transition_plain _ _ _ _ _ Ht Ep) as (? & ? & ? & _); [by intros ->|]. repeat split; auto; lia.
    - destruct tr; try done. destruct (resume_moves _ _ _ _ _ _ _ Ht) as [-> ->]. simpl. repeat split; done || lia. }
  destruct Hsh as (Hv & Hg & Hi). apply row_constraints_unleased; try done; try lia. intros Hs%Hi. lia.
Qed.

(** ** The helpers run *)
Lemma guard_runs b e d : b = false -> txn_guard b e d = Ok (tt, d).
Proof. by intros ->. Qed.
Lemma counter_runs n d : n <= i64_max -> counter_to_i64 n d = Ok (tt, d).
Proof. intros Hn. apply guard_runs. lia. Qed.
Lemma stored_fits P d id r : store_ok d -> tasks d !! id = Some r -> row_fits P r ->
  document_fits P (snapshot r) (execution r) = Ok tt.
Proof.
  intros S Hr Hf. apply Hf; [by split|]. left.
  by apply (proj1 (decode_spec _ _) (lo_decodes _ (ro_local _ _ _ (so_rows _ S _ _ Hr)))).
Qed.
Lemma decode_runs P d id r : cooperative P -> store_ok d -> tasks d !! id = Some r -> row_fits P r ->
  decode_task_record P r d = Ok (r, d).
Proof.
  intros C S Hr Hf. pose proof (stored_fits P d id r S Hr Hf) as Hdoc. destruct (ro_local _ _ _ (so_rows _ S _ _ Hr)) as [L1 L2 _ _ _]. unfold decode_task_record.
  rewrite (bind_runs _ _ d tt d) by (by rewrite (co_open_task P C)). rewrite (bind_runs _ _ d tt d) by (by rewrite Hdoc).
  by rewrite (bind_runs _ _ d tt d) by (by rewrite L1, L2).
Qed.
Lemma event_runs s kind t d : version s <= i64_max -> generation s <= i64_max -> runs (insert_task_event s kind t) d.
Proof.
  intros Hv Hg. unfold runs, insert_task_event. rewrite (bind_runs _ _ d tt d) by (by apply counter_runs).
  rewrite (bind_runs _ _ d tt d) by (by apply counter_runs). by do 2 eexists.
Qed.
Lemma persist_runs P d r n l : cooperative P -> static_ok n (execution r) -> version n <= i64_max ->
  generation n <= version n -> tasks d !! task_id n = Some r -> transition_allowed (snapshot r) n = true ->
  row_constraints {| snapshot := n; execution := execution r; lease := l |} = true ->
  document_fits P n (execution r) = Ok tt ->
  persist_task P n (execution r) (version (snapshot r)) l d =
    Ok (tt, with_tasks (<[task_id n := {| snapshot := n; execution := execution r; lease := l |}]> (tasks d)) d).
Proof.
  intros C (_ & _ & _ & Hcons) Hv Hg Hr Hall Hcon Hdoc. unfold persist_task.
  rewrite (bind_runs _ _ d tt d) by (by rewrite Hcons). rewrite (bind_runs _ _ d tt d) by (by rewrite Hdoc). rewrite (bind_runs _ _ d tt d) by (by rewrite (co_seal_task P C)).
  rewrite (bind_runs _ _ d tt d) by (apply counter_runs; lia). rewrite (bind_runs _ _ d tt d) by (by apply counter_runs).
  rewrite (bind_runs _ _ d d d) by done. rewrite Hr, Z.eqb_refl, Hall, Hcon. done.
Qed.
(** A transition of a locked row commits. *)
Lemma commit_runs P d d1 id r tr t l kind n : cooperative P -> store_ok d -> version (snapshot r) < i64_max ->
  tasks d !! id = Some r -> tasks d1 = tasks d -> storable_move (snapshot r) tr ->
  transitioned (snapshot r) (version (snapshot r)) tr t = Ok n ->
  row_constraints {| snapshot := n; execution := execution r; lease := l |} = true ->
  document_fits P n (execution r) = Ok tt ->
  commit_transition P r tr t l kind d1 =
    Ok (n, put_row {| snapshot := n; execution := execution r; lease := l |} (kind n) t d1).
Proof.
  intros C S Hc Hr Ht1 Hm Ht Hcon Hdoc. pose proof (so_rows _ S _ _ Hr) as [Rid Rl _ _ _ _ _ _].
  pose proof (constraints_positive _ (lo_constraints _ Rl)) as Hpos. pose proof (constraints_positive _ Hcon) as Hpos'. simpl in Hpos'.
  pose proof (transition_identity _ _ _ _ _ Ht) as I.
  assert (Hst : static_ok n (execution r)).
  { apply (static_ok_same (snapshot r)); [done|]. by apply (proj1 (decode_spec _ _) (lo_decodes _ Rl)). }
  assert (Hv : version n <= i64_max).
  { destruct (plain tr) eqn:Ep.
    - destruct (transition_plain _ _ _ _ _ Ht Ep) as (? & ? & ? & _); [by intros ->|]. lia.
    - destruct tr; try done. destruct (resume_moves _ _ _ _ _ _ _ Ht) as [-> _]. simpl. lia. }
  unfold commit_transition. rewrite (bind_runs _ _ d1 n d1) by (by rewrite Ht).
  erewrite bind_runs; [|apply (persist_runs P d1 r n l); try done; [lia| |by eapply transition_accepted]].
  2: { by rewrite Ht1, (same_task_id _ _ I), Rid. }
  unfold insert_task_event, mbind, txn_bind. rewrite !counter_runs by lia. done.
Qed.
(** The document of the next version fits, where the transition brings in no invalid round. *)
Lemma next_fits P d id r tr t n : store_ok d -> tasks d !! id = Some r -> row_fits P r -> transition_round_ok tr ->
  transitioned (snapshot r) (version (snapshot r)) tr t = Ok n -> document_fits P n (execution r) = Ok tt.
Proof.
  intros S Hr Hf Hrd Hn. pose proof (ro_local _ _ _ (so_rows _ S _ _ Hr)) as Rl. apply Hf; [by eapply transition_identity|]. left.
  eapply (proj1 (decode_spec n (execution r))). eapply (transition_decodes _ _ _ tr); try done; [|apply Rl].
  apply (constraints_positive _ (lo_constraints _ Rl)).
Qed.
Lemma resume_runs d id r l : store_ok d -> tasks d !! id = Some r -> lease r = Some l ->
  exists rc, receipts d !! current_job_id (snapshot r) = Some rc /\
    receipt_event rc = delivery_inbox_event (snapshot r) (current_job_id (snapshot r)) /\ processed_at rc = None /\
    forall d1, receipts d1 = receipts d -> resume_delivery_receipt (snapshot r) (current_job_id (snapshot r)) d1 =
      Ok (ReceiptClaimed (delivery_inbox_event (snapshot r) (current_job_id (snapshot r))) (received_at rc), d1).
Proof.
  intros S Hr Hl. pose proof (ro_receipt _ _ _ (so_rows _ S _ _ Hr)) as Hm. unfold receipt_matches in Hm.
  destruct (receipts d !! _) as [rc|] eqn:Erc; [|congruence]. destruct Hm as [He Hp]. rewrite Hl in Hp.
  assert (Hnone : processed_at rc = None) by (by apply Hp). exists rc. repeat split; try done. intros d1 E.
  unfold resume_delivery_receipt, mbind, txn_bind, txn_get. by rewrite E, Erc, He, bool_decide_eq_true_2, Hnone.
Qed.
Lemma complete_runs e rc R d : receipts d !! event_id e = Some rc -> receipt_event rc = e -> processed_at rc = None ->
  received_at rc <= processed R -> runs (complete_delivery_receipt (ReceiptClaimed e (received_at rc)) R) d.
Proof.
  intros Hrc He Hp Ht. unfold runs, complete_delivery_receipt. rewrite (bind_runs _ _ d tt d) by (apply guard_runs; lia).
  rewrite (bind_runs _ _ d d d) by done. unfold owned_receipt. rewrite Hrc, He, bool_decide_eq_true_2, Z.eqb_refl, Hp by done.
  by do 2 eexists.
Qed.
(** An execution that ends: its receipt is found and completed. *)
Lemma close_runs P d d1 id r tr t R kind l : cooperative P -> store_ok d ->
  row_ready P d r t (processed R) -> tasks d !! id = Some r -> lease r = Some l -> tasks d1 = tasks d -> receipts d1 = receipts d ->
  storable_move (snapshot r) tr -> transition_round_ok tr ->
  is_ok (transitioned (snapshot r) (version (snapshot r)) tr t) = true ->
  exists c e at_ n d2 d3, c = ReceiptClaimed e at_ /\
    resume_delivery_receipt (snapshot r) (current_job_id (snapshot r)) d1 = Ok (c, d1) /\
    commit_transition P r tr t None kind d1 = Ok (n, d2) /\ complete_delivery_receipt c R d2 = Ok (tt, d3).
Proof.
  intros C S Hrow Hr Hl Et Er Hm Hrd Hok. apply is_ok_ok in Hok as [n Hn].
  pose proof (next_fits P d id r tr t n S Hr (rr_document _ _ _ _ _ Hrow) Hrd Hn) as Hdoc.
  destruct (resume_runs _ _ _ _ S Hr Hl) as (rc & Hrc & He & Hnone & Hres).
  pose proof (ro_local _ _ _ (so_rows _ S _ _ Hr)) as Rl.
  pose proof (transition_row_accepted _ _ _ _ _ Rl Hn Hm) as Hcon.
  pose proof (commit_runs P d d1 id r tr t None kind n C S (rr_version _ _ _ _ _ Hrow) Hr Et Hm Hn Hcon Hdoc) as Hcom.
  set (e := delivery_inbox_event (snapshot r) (current_job_id (snapshot r))) in *.
  destruct (complete_runs e rc R (put_row {| snapshot := n; execution := execution r; lease := None |} (kind n) t d1))
    as ([] & d3 & Hd3); try done; [simpl; by rewrite Er | by eapply rr_receipt|].
  exists (ReceiptClaimed e (received_at rc)), e, (received_at rc), n,
    (put_row {| snapshot := n; execution := execution r; lease := None |} (kind n) t d1), d3.
  by rewrite Hres.
Qed.
Lemma close_optional_runs P d id r tr t R kind : cooperative P -> store_ok d ->
  row_ready P d r t (processed R) -> tasks d !! id = Some r -> storable_move (snapshot r) tr -> transition_round_ok tr ->
  is_ok (transitioned (snapshot r) (version (snapshot r)) tr t) = true ->
  exists c n d2 d3, resume_if_leased r d = Ok (c, d) /\ commit_transition P r tr t None kind d = Ok (n, d2) /\
    complete_optional c R d2 = Ok (tt, d3).
Proof.
  intros C S Hrow Hr Hm Hrd Hok. unfold resume_if_leased. destruct (lease r) as [l|] eqn:Hl.
  - destruct (close_runs P d d id r tr t R kind l) as (c & e & at_ & n & d2 & d3 & -> & Hres & Hcom & Hd3); try done.
    exists (Some (ReceiptClaimed e at_)), n, d2, d3. by rewrite (bind_runs _ _ _ _ _ Hres).
  - apply is_ok_ok in Hok as [n Hn]. pose proof (ro_local _ _ _ (so_rows _ S _ _ Hr)) as Rl.
    pose proof (next_fits P d id r tr t n S Hr (rr_document _ _ _ _ _ Hrow) Hrd Hn) as Hdoc.
    pose proof (transition_row_accepted _ _ _ _ _ Rl Hn Hm) as Hcon.
    rewrite (commit_runs P d d id r tr t None kind n C S (rr_version _ _ _ _ _ Hrow) Hr eq_refl Hm Hn Hcon Hdoc).
    by exists None, n, (put_row {| snapshot := n; execution := execution r; lease := None |} (kind n) t d),
      (put_row {| snapshot := n; execution := execution r; lease := None |} (kind n) t d).
Qed.

(** ** Transitions that succeed *)
Definition timely (s : TaskSnapshot) (tr : TaskTransition) (t : Z) : Prop :=
  match tr with
  | Fail Expired => expires_at s <= t
  | RequireInput _ => t < expires_at s /\ state s = Working
  | RecordInput rd => t < expires_at s /\ exists a, state s = InputRequired a /\ is_response_successor a rd = true /\
      all_answered (exchanges rd) = false
  | Resume rd _ g => t < expires_at s /\ g = generation s + 1 /\ g <= u64_max /\
      exists a, state s = InputRequired a /\ is_response_successor a rd = true /\ all_answered (exchanges rd) = true
  | _ => t < expires_at s
  end.
Lemma transition_runs P d r tr t p : row_ready P d r t p ->
  is_terminal (state (snapshot r)) = false -> timely (snapshot r) tr t ->
  is_ok (transitioned (snapshot r) (version (snapshot r)) tr t) = true.
Proof.
  intros [_ Hc Ht _] Hnt Htm. unfold transitioned, checked_add.
  rewrite Z.eqb_refl, Hnt. simpl. destruct (Z.leb_spec t (updated_at (snapshot r))); [lia|]. simpl.
  unfold i64_max, u64_max in *. destruct (Z.leb_spec (version (snapshot r) + 1) (2 ^ 64 - 1)); [|lia].
  destruct tr as [rd|rd|rd job gen| |res|fl|]; simpl in Htm; unfold transition_body, generation_next, checked_add.
  - destruct Htm as [Hlt ->]. simpl. by destruct (Z.leb_spec (expires_at (snapshot r)) t); [lia|].
  - destruct Htm as (Hlt & a & -> & -> & ->). simpl. by destruct (Z.leb_spec (expires_at (snapshot r)) t); [lia|].
  - destruct Htm as (Hlt & -> & Hg & a & -> & -> & ->). unfold u64_max in *.
    destruct (Z.leb_spec (generation (snapshot r) + 1) (2 ^ 64 - 1)); [|lia]. rewrite Z.eqb_refl. simpl.
    by destruct (Z.leb_spec (expires_at (snapshot r)) t); [lia|].
  - destruct (cancellation_requested _); [done|]. by destruct (Z.leb_spec (expires_at (snapshot r)) t); [lia|].
  - by destruct (Z.leb_spec (expires_at (snapshot r)) t); [lia|].
  - by destruct fl, (Z.leb_spec (expires_at (snapshot r)) t); try lia.
  - by destruct (Z.leb_spec (expires_at (snapshot r)) t); [lia|].
Qed.

(** ** The methods run *)
Record healthy P d (R : Readings) : Prop := {
  he_protector : cooperative P;
  he_store : store_ok d;
  he_documents : documents_fit P d;
  he_counters : counters_left d;
  he_clock : clock_past d (now R) /\ now R < time_max;
  he_receipts : receipts_past d (processed R) /\ received R <= processed R;
}.
Lemma healthy_row P d R id r : healthy P d R -> tasks d !! id = Some r -> row_ready P d r (now R) (processed R).
Proof. intros [_ _ Hd Hc [Ht _] [Hp _]] Hr. split; [by eapply Hd | by eapply Hc | by eapply Ht |]. intros rc. apply Hp. Qed.
Lemma expire_record_runs P d id r R : cooperative P -> store_ok d -> row_ready P d r (now R) (processed R) ->
  tasks d !! id = Some r -> is_terminal (state (snapshot r)) = false ->
  expires_at (snapshot r) <= now R -> runs (expire_record P r R) d.
Proof.
  intros C S Hrow Hr Hnt He.
  destruct (close_optional_runs P d id r (Fail Expired) (now R) R (fun _ => "expired"%string)) as (c & n & d2 & d3 & E1 & E2 & E3);
    try done; [by apply (transition_runs P d _ _ _ (processed R))|].
  exists n, d3. unfold expire_record. by rewrite (bind_runs _ _ _ _ _ E1), (bind_runs _ _ _ _ _ E2), (bind_runs _ _ _ _ _ E3).
Qed.
Lemma select_runs id d : select_task_for_update id d = Ok (tasks d !! id, d).
Proof. done. Qed.
Lemma select_owned_runs own id d : exists o, select_owned_task_for_update own id d = Ok (o, d) /\
  forall r, o = Some r -> tasks d !! id = Some r.
Proof.
  unfold select_owned_task_for_update. eexists. split; [done|]. intros r. destruct (tasks d !! id); [|done].
  by case_decide; intros [= ->].
Qed.
Lemma get_runs P d R own id : healthy P d R -> runs (get P own id R) d.
Proof.
  intros He. unfold get. destruct (select_owned_runs own id d) as (o & E & Ho). unfold runs.
  rewrite (bind_runs _ _ _ _ _ E). destruct o as [r|]; [|by do 2 eexists]. specialize (Ho r eq_refl).
  rewrite (bind_runs _ _ _ _ _ (decode_runs P d id r (he_protector _ _ _ He) (he_store _ _ _ He) Ho (he_documents _ _ _ He _ _ Ho))).
  destruct (_ && _) eqn:Eb; [|by do 2 eexists]. apply andb_true_iff in Eb as [Hnt%negb_true_iff Hex].
  destruct (expire_record_runs P d id r R (he_protector _ _ _ He) (he_store _ _ _ He) (healthy_row _ _ _ _ _ He Ho) Ho Hnt) as (n & d' & En); [lia|]. rewrite (bind_runs _ _ _ _ _ En). by do 2 eexists.
Qed.
Lemma settle_runs P d R f t : healthy P d R -> t <> SettleFailed Expired -> runs (settle_execution P f t R) d.
Proof.
  intros He Ht. pose proof (he_protector _ _ _ He) as C. pose proof (he_store _ _ _ He) as S.
  pose proof (he_documents _ _ _ He) as Hdoc. unfold settle_execution, runs.
  rewrite (bind_runs _ _ _ _ _ (select_runs _ _)). destruct (tasks d !! fence_task f) as [r|] eqn:Hr; [|by do 2 eexists].
  rewrite (bind_runs _ _ _ _ _ (decode_runs P d _ r C S Hr (Hdoc _ _ Hr))).
  match goal with |- context [if ?b then _ else _] => destruct b eqn:E1 end; [by do 2 eexists|].
  rewrite !orb_false_iff, !negb_false_iff, !Z.eqb_eq in E1. destruct E1 as [[[[Hex Hj] _] Hw] _].
  assert (Hst : state (snapshot r) = Working) by (by destruct (state (snapshot r))).
  destruct (lease r) as [l|] eqn:Hl; [|done]. rewrite <- Hj in *.
  destruct (close_runs P d d (fence_task f) r (settlement_transition (snapshot r) t (now R)) (now R) R terminal_event_kind l)
    as (c & e & at_ & n & d2 & d3 & -> & Hres & Hcom & Hd3); try done.
  - by eapply healthy_row.
  - unfold settlement_transition. destruct (_ <=? _); [done|]. by destruct t.
  - unfold settlement_transition. destruct (_ <=? _); [done|]. by destruct t.
  - apply (transition_runs P d _ _ _ (processed R)); try done; [by eapply healthy_row | by rewrite Hst|].
    unfold settlement_transition. destruct (Z.leb_spec (expires_at (snapshot r)) (now R)); [done|]. destruct t as [|fl|]; try done.
    by destruct fl.
  - rewrite (bind_runs _ _ _ _ _ Hres), (bind_runs _ _ _ _ _ Hcom), (bind_runs _ _ _ _ _ Hd3). by do 2 eexists.
Qed.
Lemma claim_receipt_runs d id r R : store_ok d -> tasks d !! id = Some r -> lease r = None ->
  exists c d1, claim_delivery_receipt (snapshot r) (current_job_id (snapshot r)) R d = Ok (c, d1) /\
    ((c = ReceiptDuplicate /\ d1 = d) \/
     c = ReceiptClaimed (delivery_inbox_event (snapshot r) (current_job_id (snapshot r))) (received R)).
Proof.
  intros S Hr Hl. pose proof (ro_receipt _ _ _ (so_rows _ S _ _ Hr)) as Hm. unfold receipt_matches in Hm.
  unfold claim_delivery_receipt, mbind, txn_bind, txn_get. destruct (receipts d !! _) as [rc|].
  - destruct Hm as [He Hp]. rewrite He, bool_decide_eq_true_2, Hl in * by done.
    destruct (processed_at rc); [by do 2 eexists; split; [done | left]|]. destruct Hp as [_ Hp]. by destruct (Hp eq_refl).
  - do 2 eexists. split; [done|]. by right.
Qed.
Lemma claim_inactive_runs P d id r R : healthy P d R -> tasks d !! id = Some r -> state (snapshot r) = Working ->
  (expires_at (snapshot r) <= now R \/ cancellation_requested (snapshot r) = true) ->
  runs (claim_inactive P r (current_job_id (snapshot r)) R) d.
Proof.
  intros He Hr Hst Hwhy. pose proof (healthy_row _ _ _ _ _ He Hr) as Hrow. destruct He as [C S Hdoc _ _ [_ Hrp]]. unfold runs, claim_inactive, claim_or_resume.
  set (tr := if _ <=? _ then Fail Expired else Cancel).
  assert (Hrd : transition_round_ok tr /\ storable_move (snapshot r) tr) by (unfold tr; by destruct (_ <=? _)). destruct Hrd as [Hrd Hm].
  assert (Hok : is_ok (transitioned (snapshot r) (version (snapshot r)) tr (now R)) = true).
  { apply (transition_runs P d _ _ _ (processed R)); try done; [by rewrite Hst|]. unfold tr.
    destruct (Z.leb_spec (expires_at (snapshot r)) (now R)); done. }
  destruct (lease r) as [l|] eqn:Hl.
  - destruct (close_runs P d d id r tr (now R) R terminal_event_kind l) as (c & e & at_ & n & d2 & d3 & -> & Hres & Hcom & Hd3); try done.
    rewrite (bind_runs _ _ _ _ _ Hres), (bind_runs _ _ _ _ _ Hcom), (bind_runs _ _ _ _ _ Hd3). by do 2 eexists.
  - destruct (claim_receipt_runs d id r R S Hr Hl) as (c & d1 & E1 & [[-> ->]| ->]);
      rewrite (bind_runs _ _ _ _ _ E1); [by do 2 eexists|].
    apply claim_receipt_ok in E1 as [(? & _)|(Hnone & _ & ->)]; [done|]. apply is_ok_ok in Hok as [n Hn].
    pose proof (ro_local _ _ _ (so_rows _ S _ _ Hr)) as Rl. pose proof (transition_row_accepted _ _ _ _ _ Rl Hn Hm) as Hcon.
    pose proof (next_fits P d id r tr (now R) n S Hr (rr_document _ _ _ _ _ Hrow) Hrd Hn) as Hfit.
    erewrite bind_runs; [|eapply (commit_runs P d _ id r tr (now R) None terminal_event_kind n); try done; by destruct Hrow].
    match goal with |- context [(_ ≫= _) ?d9] =>
      destruct (complete_runs (delivery_inbox_event (snapshot r) (current_job_id (snapshot r)))
        {| receipt_event := delivery_inbox_event (snapshot r) (current_job_id (snapshot r)); received_at := received R; processed_at := None |}
        R d9) as ([] & d3 & Hd3); try done; [simpl; apply lookup_insert_eq|] end.
    rewrite (bind_runs _ _ _ _ _ Hd3). by do 2 eexists.
Qed.
(** The history of a row that can be claimed. *)
Lemma round_rows_elem id d n row : (n, row) ∈ round_rows id d <-> input_rounds d !! (id, n) = Some row.
Proof.
  unfold round_rows. rewrite sort_by_perm, list_elem_of_fmap. split.
  - intros ([[id' n'] row'] & [= -> ->] & [Hid Hin]%list_elem_of_filter). simpl in *. subst. by apply elem_of_map_to_list in Hin.
  - intros Hl. exists ((id, n), row). split; [done|]. by rewrite list_elem_of_filter, elem_of_map_to_list.
Qed.
Lemma round_rows_NoDup id d : NoDup (fst <$> round_rows id d).
Proof.
  unfold round_rows. rewrite sort_by_perm. pose proof (NoDup_fst_map_to_list (input_rounds d)) as Hnd.
  induction (map_to_list (input_rounds d)) as [|[[id' n] row] l IH]; [constructor|]. simpl in Hnd.
  inversion_clear Hnd as [|? ? Hnin Hnd']. specialize (IH Hnd'). rewrite filter_cons. simpl. case_decide as Hid; [|done].
  simpl. constructor; [|done]. rewrite list_elem_of_fmap. intros ([n' row'] & En & Hin). simpl in En. subst n' id'.
  apply list_elem_of_fmap in Hin as ([[id'' n''] row''] & [= -> ->] & [Hid Hin]%list_elem_of_filter). simpl in *. subst.
  apply Hnin, list_elem_of_fmap. by exists ((id, n''), row'').
Qed.
Lemma seqZ_sorted m n : StronglySorted Z.le (seqZ m n).
Proof.
  destruct (Z_lt_le_dec n 0); [rewrite seqZ_nil by lia; constructor|].
  revert m. pattern n. apply Z_of_nat_prop; [|done]. clear. intros n. induction n as [|n IH]; intros m; [constructor|].
  rewrite seqZ_cons by lia. replace (Z.pred (Z.of_nat (S n))) with (Z.of_nat n) by lia. constructor; [apply IH|].
  apply Forall_forall. intros k Hk%elem_of_seqZ. lia.
Qed.
Lemma round_rows_numbers d id r : store_ok d -> tasks d !! id = Some r ->
  fst <$> round_rows id d = seqZ 1 (generation (snapshot r) - 1).
Proof.
  intros S Hr. pose proof (so_rows _ S _ _ Hr) as [Rid _ _ _ Rh _ _ _]. apply (StronglySorted_unique Z.le).
  - unfold round_rows. match goal with |- context [sort_by _ ?l] => pose proof (sort_by_sorted fst l) as Hs; induction Hs as [|x l' _ IH Hall] end;
      simpl; constructor; [done|]. apply Forall_fmap. eapply Forall_impl; [exact Hall|]. intros y Hy. unfold key_le, by_key in Hy. simpl.
    by apply Z.compare_le_iff.
  - apply seqZ_sorted.
  - apply NoDup_Permutation; [apply round_rows_NoDup | apply NoDup_seqZ|]. intros n. rewrite elem_of_seqZ, list_elem_of_fmap.
    specialize (Rh n). rewrite Rid in Rh. split.
    + intros ([n' row] & -> & Hin%round_rows_elem). simpl in *. rewrite Hin in Rh. unfold round_row_ok in Rh. lia.
    + intros Hn. destruct (input_rounds d !! (id, n)) as [row|] eqn:E; [|lia]. exists (n, row). split; [done|]. by apply round_rows_elem.
Qed.
Lemma decode_history_runs P s d rows : forall n, cooperative P ->
  (forall m row, (m, row) ∈ rows -> round_row_ok s m row) -> fst <$> rows = seqZ n (Z.of_nat (length rows)) ->
  decode_history P s n rows d = Ok (completed_round ∘ snd <$> rows, d).
Proof.
  induction rows as [|[m row] rows IH]; intros n C Hall Hseq; simpl; [done|]. simpl in Hseq.
  rewrite seqZ_cons in Hseq by lia. injection Hseq as -> Hseq. destruct (Hall n row) as (Hr & Hg & Hn & Hv & Hd); [by left|].
  rewrite (bind_runs _ _ d tt d) by (apply guard_runs; rewrite Z.eqb_refl, Hg, Z.eqb_refl; simpl; lia).
  rewrite (bind_runs _ _ d tt d) by (by rewrite (co_open_round P C)). rewrite (bind_runs _ _ d (completed_round row) d) by (by rewrite Hd).
  rewrite (bind_runs _ _ d tt d) by (apply guard_runs; rewrite Hn, Z.eqb_refl; done).
  erewrite bind_runs; [done|]. apply IH; [done | intros; apply Hall; by right|].
  etrans; [exact Hseq|]. f_equal; lia.
Qed.
(** What a claim loads: the completed rounds of the earlier generations, in order. *)
Lemma load_history_runs P d d1 id r : cooperative P -> store_ok d -> tasks d !! id = Some r -> input_rounds d1 = input_rounds d ->
  load_input_history P (snapshot r) d1 = Ok (completed_round ∘ snd <$> round_rows id d, d1).
Proof.
  intros C S Hr E. pose proof (round_rows_numbers d id r S Hr) as Hnum. pose proof (so_rows _ S _ _ Hr) as [Rid Rl _ _ Rh _ _ _].
  assert (Hrr : round_rows (task_id (snapshot r)) d1 = round_rows id d) by (unfold round_rows; by rewrite E, Rid).
  assert (Hlen : Z.of_nat (length (round_rows id d)) = generation (snapshot r) - 1).
  { rewrite <- (length_fmap fst), Hnum, length_seqZ. pose proof (constraints_positive _ (lo_constraints _ Rl)). lia. }
  unfold load_input_history. rewrite (bind_runs _ _ d1 d1 d1) by done. rewrite Hrr.
  rewrite (bind_runs _ _ d1 tt d1) by (apply guard_runs; rewrite Hlen, Z.eqb_refl; done).
  apply decode_history_runs; [done| |by rewrite Hnum, Hlen].
  intros m row Hin%round_rows_elem. specialize (Rh m). by rewrite Rid, Hin in Rh.
Qed.
Lemma persist_lease_runs d id r l d1 : store_ok d -> tasks d !! id = Some r -> tasks d1 = tasks d ->
  is_terminal (state (snapshot r)) = false -> (is_Some (lease r) \/ is_Some l) -> row_constraints (with_lease r l) = true ->
  exists d2, persist_lease (task_id (snapshot r)) (version (snapshot r)) l d1 = Ok (tt, d2).
Proof.
  intros S Hr E Hnt Hl Hcon. pose proof (ro_id _ _ _ (so_rows _ S _ _ Hr)) as Hid. unfold persist_lease.
  rewrite (bind_runs _ _ d1 d1 d1) by done. rewrite E, Hid, Hr, Z.eqb_refl, Hnt. unfold with_lease in Hcon. rewrite Hcon. simpl.
  destruct (lease r), l; simpl; eauto. by destruct Hl as [[] | []].
Qed.
Lemma release_runs e rc d : receipts d !! event_id e = Some rc -> receipt_event rc = e -> processed_at rc = None ->
  release_delivery_receipt (ReceiptClaimed e (received_at rc)) d = Ok (tt, with_receipts (delete (event_id e) (receipts d)) d).
Proof.
  intros Hrc He Hp. unfold release_delivery_receipt. rewrite (bind_runs _ _ d d d) by done. unfold owned_receipt.
  by rewrite Hrc, He, bool_decide_eq_true_2, Z.eqb_refl, Hp.
Qed.
(** Releasing a stale receipt makes room for the new one. *)
Lemma reclaim_runs d id r R : store_ok d -> tasks d !! id = Some r ->
  exists d1 c d2, release_stale r (current_job_id (snapshot r)) d = Ok (tt, d1) /\
    claim_delivery_receipt (snapshot r) (current_job_id (snapshot r)) R d1 = Ok (c, d2) /\
    tasks d2 = tasks d /\ input_rounds d2 = input_rounds d.
Proof.
  intros S Hr. unfold release_stale. destruct (lease r) as [l|] eqn:Hl.
  - destruct (resume_runs _ _ _ _ S Hr Hl) as (rc & Hrc & He & Hnone & Hres). rewrite (bind_runs _ _ _ _ _ (Hres d eq_refl)).
    rewrite (release_runs _ rc d) by done. do 3 eexists. split; [done|]. unfold claim_delivery_receipt, mbind, txn_bind, txn_get. simpl.
    rewrite lookup_delete_eq. done.
  - destruct (claim_receipt_runs d id r R S Hr Hl) as (c & d2 & E & _). exists d, c, d2. split; [done|]. split; [done|].
    apply claim_receipt_ok in E as [(_ & -> & _)|(_ & _ & ->)]; done.
Qed.
Lemma lease_constraints r l : row_constraints r = true ->
  match l with
  | None => True
  | Some l => lease_job_id l = current_job_id (snapshot r) /\ lease_generation l = generation (snapshot r) /\
      lease_version l = version (snapshot r) /\ lease_claimed_at l < lease_expires_at l /\
      state (snapshot r) = Working /\ cancellation_requested (snapshot r) = false
  end -> row_constraints (with_lease r l) = true.
Proof.
  intros Hc Hl. pose proof (constraints_positive _ Hc). unfold row_constraints, with_lease in *. simpl.
  rewrite !andb_true_iff in *. repeat split; try tauto. destruct l as [l|]; [|done].
  destruct Hl as (-> & -> & -> & ? & Hw & Hn). rewrite Hn, Hw, !Z.eqb_refl, !andb_true_iff. simpl. lia.
Qed.
Lemma claim_runs P d R q : healthy P d R -> clear_microsecond d (now R) -> runs (claim_execution P q R) d.
Proof.
  intros He Hclear. pose proof He as [C S Hdoc Hc [Hclk Hmax] [Hp Hrp]]. unfold claim_execution, runs.
  rewrite (bind_runs _ _ _ _ _ (select_runs _ _)). destruct (tasks d !! claim_task_id q) as [r|] eqn:Hr; [|by do 2 eexists].
  rewrite (bind_runs _ _ _ _ _ (decode_runs P d _ r C S Hr (Hdoc _ _ Hr))).
  match goal with |- context [if ?b then _ else _] => destruct b eqn:E1 end; [by do 2 eexists|].
  rewrite !orb_false_iff, !negb_false_iff, !Z.eqb_eq in E1. destruct E1 as [[Hj Hg] Hw].
  assert (Hst : state (snapshot r) = Working) by (by destruct (state (snapshot r))). rewrite <- Hj, <- Hg in *.
  match goal with |- context [if ?b then _ else _] => destruct b eqn:E2 end; [by do 2 eexists|].
  match goal with |- context [if ?b then _ else _] => destruct b eqn:E3 end.
  { apply (claim_inactive_runs P d (claim_task_id q) r R He Hr Hst). apply orb_true_iff in E3 as [E3|E3]; [left; lia | by right]. }
  apply orb_false_iff in E3 as [Hexp Hcan]. destruct (reclaim_runs d _ r R S Hr) as (d1 & c & d2 & Erel & Ecl & Et & Er).
  rewrite (bind_runs _ _ _ _ _ Erel), (bind_runs _ _ _ _ _ Ecl). destruct c as [e at_|]; [|by do 2 eexists].
  rewrite (bind_runs _ _ _ _ _ (load_history_runs P d d2 _ r C S Hr Er)).
  match goal with |- context [persist_lease _ _ ?l] => destruct (persist_lease_runs d _ r l d2 S Hr Et) as (d3 & E4) end.
  - by rewrite Hst.
  - right. eauto.
  - apply lease_constraints; [apply (so_rows _ S _ _ Hr)|]. simpl. repeat split; try done. unfold saturating_add_time, EXECUTION_TIMEOUT, Duration.nanos_per_sec.
    apply Z.leb_gt, (proj2 Hclear _ _ Hr) in Hexp. destruct Hclear as [Hend _].
    assert (now R < postgres_timestamp (now R + 3600 * 1000000000)).
    { pose proof (postgres_timestamp_spec (now R + 3600 * 1000000000)). lia. }
    destruct (Z.min_dec (now R + 3600 * 1000000000) time_max) as [-> | ->],
      (Z.min_dec (now R + 3600 * 1000000000) (expires_at (snapshot r))), (Z.min_dec time_max (expires_at (snapshot r))); congruence.
  - rewrite (bind_runs _ _ _ _ _ E4). pose proof (Hc _ _ Hr).
    pose proof (constraints_positive _ (lo_constraints _ (ro_local _ _ _ (so_rows _ S _ _ Hr)))).
    destruct (event_runs (snapshot r) "execution_claimed" (now R) d3) as ([] & d4 & E5); [lia..|].
    rewrite (bind_runs _ _ _ _ _ E5). by do 2 eexists.
Qed.
Lemma cancel_runs P d R q : healthy P d R ->
  (forall r, tasks d !! cn_task_id q = Some r -> generation (snapshot r) = cn_generation q ->
     validate_cancellation_intent (snapshot r) (cancellation_intent_of q) = true) ->
  runs (cancel_atomic P q R) d.
Proof.
  intros He Hval. pose proof He as [C S Hdoc Hc [Hclk _] [Hp _]]. unfold cancel_atomic, runs.
  destruct (select_owned_runs (cn_owner q) (cn_task_id q) d) as (o & E & Ho).
  rewrite (bind_runs _ _ _ _ _ E). destruct o as [r|]; [|by do 2 eexists]. specialize (Ho r eq_refl).
  rewrite (bind_runs _ _ _ _ _ (decode_runs P d _ r C S Ho (Hdoc _ _ Ho))).
  match goal with |- context [if ?b then _ else _] => destruct b eqn:E1 end; [by do 2 eexists|].
  rewrite !orb_false_iff, !negb_false_iff, !Z.eqb_eq in E1. destruct E1 as [Hv Hg].
  destruct (is_terminal (state (snapshot r))) eqn:Hnt; [by do 2 eexists|].
  destruct (cancellation_requested (snapshot r)) eqn:Hcan; [by do 2 eexists|].
  destruct (Z.leb_spec (expires_at (snapshot r)) (now R)) as [Hle|Hlt].
  { destruct (expire_record_runs P d _ r R C S (healthy_row _ _ _ _ _ He Ho) Ho Hnt Hle) as (n & d' & En). rewrite (bind_runs _ _ _ _ _ En). by do 2 eexists. }
  rewrite (bind_runs _ _ d tt d) by (apply guard_runs; by rewrite (Hval r Ho Hg)). destruct (lease_live _ _ _) eqn:Hlive.
  - assert (Hok : is_ok (transitioned (snapshot r) (version (snapshot r)) RequestCancellation (now R)) = true)
      by (apply (transition_runs P d _ _ _ (processed R)); try done; by eapply healthy_row). apply is_ok_ok in Hok as [n Hn].
    pose proof (ro_local _ _ _ (so_rows _ S _ _ Ho)) as Rl.
    assert (Hcon : row_constraints {| snapshot := n; execution := execution r; lease := lease r |} = true).
    { pose proof (transition_row_accepted r _ RequestCancellation _ n Rl Hn Hcan) as Hc0.
      pose proof (transitioned_ok _ _ _ _ _ Hn) as (_ & _ & _ & _ & Hb). unfold transition_body in Hb. rewrite Hcan in Hb. inv_ok. subst n.
      pose proof (lo_constraints _ Rl) as Hr0. unfold row_constraints in *. simpl in *. rewrite !andb_true_iff in *.
      repeat split; try tauto. unfold lease_live in Hlive. destruct (lease r) as [l|]; [|done]. rewrite Hcan in *.
      rewrite !andb_true_iff in *. repeat split; try tauto. lia. }
    pose proof (next_fits P d _ r RequestCancellation (now R) n S Ho (Hdoc _ _ Ho) I Hn) as Hfit.
    erewrite bind_runs; [|by eapply (commit_runs P d d); try done; eapply Hc]. by do 2 eexists.
  - destruct (close_optional_runs P d (cn_task_id q) r Cancel (now R) R (fun _ => "cancelled"%string)) as (c & n & d2 & d3 & E1 & E2 & E3);
      try done; [by eapply healthy_row | apply (transition_runs P d _ _ _ (processed R)); try done; by eapply healthy_row|].
    rewrite (bind_runs _ _ _ _ _ E1), (bind_runs _ _ _ _ _ E2), (bind_runs _ _ _ _ _ E3). by do 2 eexists.
Qed.
(** A worker that gives up: once cancellation was requested, only before the task expires. *)
Lemma abandon_runs P d R f : healthy P d R ->
  (forall r, tasks d !! fence_task f = Some r -> cancellation_requested (snapshot r) = true -> now R < expires_at (snapshot r)) ->
  runs (abandon_execution P f R) d.
Proof.
  intros He Hlate. pose proof He as [C S Hdoc Hc [Hclk _] [Hp _]]. unfold abandon_execution, runs.
  rewrite (bind_runs _ _ _ _ _ (select_runs _ _)). destruct (tasks d !! fence_task f) as [r|] eqn:Hr; [|by do 2 eexists].
  rewrite (bind_runs _ _ _ _ _ (decode_runs P d _ r C S Hr (Hdoc _ _ Hr))).
  match goal with |- context [if ?b then _ else _] => destruct b eqn:E1 end; [by do 2 eexists|].
  rewrite !orb_false_iff, !negb_false_iff, !Z.eqb_eq in E1. destruct E1 as [[Hex Hj] Hg].
  unfold exact_lease in Hex. destruct (lease r) as [l|] eqn:Hl; [|done]. rewrite !andb_true_iff, !Z.eqb_eq in Hex.
  destruct Hex as [[[_ _] Hlv] _]. rewrite <- Hj in *. pose proof (so_rows _ S _ _ Hr) as Rr.
  pose proof (lo_lease _ (ro_local _ _ _ Rr)) as Hlc. rewrite Hl in Hlc. unfold lease_consistent in Hlc.
  apply andb_true_iff in Hlc as [_ Hlc]. destruct (is_working (state (snapshot r))) eqn:Hw; [|done].
  assert (Hst : state (snapshot r) = Working) by (by destruct (state (snapshot r))).
  pose proof (Hc _ _ Hr) as Hver. unfold i64_max in Hver.
  match goal with |- context [txn_guard ?b _] => assert (Hgd : b = false) end.
  { destruct (cancellation_requested (snapshot r)); [|apply Z.eqb_eq in Hlc; lia].
    apply bool_decide_eq_true, checked_add_Some in Hlc as [Hlc Hb]. simpl. unfold saturating_add. rewrite Z.min_l by lia. lia. }
  rewrite (bind_runs _ _ d tt d) by (by apply guard_runs). clear Hgd.
  destruct (resume_runs _ _ _ _ S Hr Hl) as (rc & Hrc & Hev & Hnone & Hres). rewrite (bind_runs _ _ _ _ _ (Hres d eq_refl)).
  destruct (Z.eqb_spec (version (snapshot r)) (fence_version f)) as [Hvf|Hvf].
  - rewrite (bind_runs _ _ _ _ _ (release_runs (delivery_inbox_event (snapshot r) (current_job_id (snapshot r))) rc d Hrc Hev Hnone)).
    destruct (persist_lease_runs d (fence_task f) r None (with_receipts (delete (current_job_id (snapshot r)) (receipts d)) d) S Hr) as (d3 & E4); try done.
    + by rewrite Hst.
    + left. by rewrite Hl.
    + apply lease_constraints; [apply Rr | done].
    + rewrite (bind_runs _ _ _ _ _ E4). pose proof (constraints_positive _ (lo_constraints _ (ro_local _ _ _ Rr))).
      destruct (event_runs (snapshot r) "execution_released" (now R) d3) as ([] & d4 & E5); [unfold i64_max; lia..|].
      rewrite (bind_runs _ _ _ _ _ E5). by do 2 eexists.
  - destruct (cancellation_requested (snapshot r)) eqn:Hcan; [|apply Z.eqb_eq in Hlc; lia].
    destruct (close_runs P d d (fence_task f) r Cancel (now R) R (fun _ => "cancelled"%string) l)
      as (c & e & at_ & n & d2 & d3 & -> & Hres' & Hcom & Hd3); try done.
    { by eapply healthy_row. }
    { apply (transition_runs P d _ _ _ (processed R)); try done; [by eapply healthy_row | by rewrite Hst|]. by apply (Hlate r). }
    rewrite Hres in Hres' by done. injection Hres' as <- <-.
    rewrite (bind_runs _ _ _ _ _ Hcom), (bind_runs _ _ _ _ _ Hd3). by do 2 eexists.
Qed.
Lemma insert_keys_runs id n keys : forall d, n <= i64_max -> NoDup keys -> Forall (fun k => (id, k) ∉ input_keys d) keys ->
  exists d', insert_input_keys id n keys d = Ok (tt, d') /\ tasks d' = tasks d /\ receipts d' = receipts d.
Proof.
  induction keys as [|k keys IH]; intros d Hn Hnd Hall; simpl; [eauto|].
  inversion_clear Hnd as [|? ? Hnin Hnd']. inversion_clear Hall as [|? ? Hk Hall'].
  rewrite (bind_runs _ _ d tt d) by (by apply counter_runs). rewrite (bind_runs _ _ d d d) by done.
  rewrite decide_False by done. rewrite (bind_runs _ _ d tt (with_input_keys ({[(id, k)]} ∪ input_keys d) d)) by done.
  apply (IH (with_input_keys ({[(id, k)]} ∪ input_keys d) d)); [done | done|]. apply Forall_forall. intros k' Hk'. eapply Forall_forall in Hall'; [|done]. simpl. set_solver.
Qed.
Lemma sorted_keys_NoDup {A} (m : gmap string A) : NoDup (sorted_keys m).
Proof. unfold sorted_keys. rewrite sort_by_perm. apply NoDup_fst_map_to_list. Qed.
Lemma require_runs P d R f round : healthy P d R -> asked_round round (fence_generation f) -> number round <= i64_max ->
  (forall k, k ∈ dom (exchanges round) -> (fence_task f, k) ∉ input_keys d) -> runs (require_input P f round R) d.
Proof.
  intros He A Hnum Hkeys. pose proof He as [C S Hdoc Hc [Hclk _] [Hp _]]. unfold require_input, runs.
  rewrite (bind_runs _ _ _ _ _ (select_runs _ _)). destruct (tasks d !! fence_task f) as [r|] eqn:Hr; [|by do 2 eexists].
  rewrite (bind_runs _ _ _ _ _ (decode_runs P d _ r C S Hr (Hdoc _ _ Hr))).
  match goal with |- context [if ?b then _ else _] => destruct b eqn:E1 end; [by do 2 eexists|].
  rewrite !orb_false_iff, !negb_false_iff, !Z.eqb_eq in E1. destruct E1 as [[[[[[Hex _] _] Hj] Hw] _] Hexp].
  assert (Hst : state (snapshot r) = Working) by (by destruct (state (snapshot r))).
  destruct (lease r) as [l|] eqn:Hl; [|done]. rewrite <- Hj in *.
  destruct (insert_keys_runs (fence_task f) (number round) (sorted_keys (exchanges round)) d) as (d1 & E & Et & Er); try done.
  { apply sorted_keys_NoDup. } { apply Forall_forall. intros k Hk%sorted_keys_elem. by apply Hkeys. }
  unfold validate_new_input_keys. rewrite (bind_runs _ _ _ _ _ E).
  destruct (close_runs P d d1 (fence_task f) r (RequireInput round) (now R) R (fun _ => "input_required"%string) l)
    as (c & e & at_ & n & d2 & d3 & -> & Hres & Hcom & Hd3); try done.
  - by eapply healthy_row.
  - apply A.
  - apply (transition_runs P d _ _ _ (processed R)); try done; [by eapply healthy_row | by rewrite Hst|]. simpl. split; [lia | done].
  - rewrite (bind_runs _ _ _ _ _ Hres), (bind_runs _ _ _ _ _ Hcom), (bind_runs _ _ _ _ _ Hd3). by do 2 eexists.
Qed.
(** The batch: expiring one row leaves the others ready. *)
Lemma expire_rows_runs P t pf rows : forall d, cooperative P -> store_ok d ->
  (forall r, r ∈ rows -> tasks d !! task_id (snapshot r) = Some r /\ row_ready P d r t (pf (task_id (snapshot r))) /\
     is_terminal (state (snapshot r)) = false /\ expires_at (snapshot r) <= t) ->
  NoDup ((fun r => task_id (snapshot r)) <$> rows) -> runs (expire_rows P t pf rows) d.
Proof.
  induction rows as [|r rows IH]; intros d C S Hrows Hnd; [by do 2 eexists|]. unfold runs. simpl.
  inversion_clear Hnd as [|? ? Hnin Hnd']. destruct (Hrows r) as (Hr & Hready & Hnt & Hex); [by left|].
  rewrite (bind_runs _ _ _ _ _ (decode_runs P d _ r C S Hr (rr_document _ _ _ _ _ Hready))).
  rewrite (bind_runs _ _ d tt d) by (apply guard_runs; rewrite Hnt; simpl; lia).
  destruct (expire_record_runs P d _ r {| now := t; received := t; processed := pf (task_id (snapshot r)) |} C S Hready Hr Hnt Hex)
    as (n & d1 & E). rewrite (bind_runs _ _ _ _ _ E).
  apply (expire_record_ok _ _ _ _ _ _ _ S Hr) in E as [S1 M]. destruct (IH d1 C S1) as (a & d2 & E2); [|done|].
  - intros r' Hin. destruct (Hrows r') as (Hr' & [Hf Hv Hu Hrc] & Hnt' & Hex'); [by right|].
    assert (Hne : task_id (snapshot r) <> task_id (snapshot r')).
    { intros En. apply Hnin, list_elem_of_fmap. eauto. }
    rewrite (mo_new _ _ _ _ _ _ _ _ M), lookup_insert_ne by done. repeat split; try done. intros rc.
    rewrite (mo_receipts _ _ _ _ _ _ _ _ M); [apply Hrc|]. intros Ej. by apply Hne, (so_jobs _ S _ _ _ _ Hr Hr').
  - rewrite (bind_runs _ _ _ _ _ E2). by do 2 eexists.
Qed.
Lemma expire_batch_runs P d R limit locked pf : healthy P d R -> clear_microsecond d (now R) -> limit <= i64_max ->
  (forall id, processed R <= pf id) -> runs (expire_batch P limit locked (now R) pf) d.
Proof.
  intros He Hclear Hl Hpf. unfold expire_batch, runs. rewrite (bind_runs _ _ d tt d) by (apply guard_runs; lia).
  rewrite (bind_runs _ _ d d d) by done. pose proof (he_store _ _ _ He) as S.
  destruct (expire_rows_runs P (now R) pf (take (Z.to_nat limit) (expiry_rows (now R) locked d)) d) as (a & d1 & E);
    [apply He | done| | |].
  - intros r Hin%subseteq_take. destruct (expiry_rows_elem _ _ _ _ S Hin) as [Hr Hdue]. unfold due in Hdue.
    rewrite !andb_true_iff, !negb_true_iff in Hdue. destruct (healthy_row _ _ _ _ _ He Hr) as [Hf Hv Hu Hrc].
    destruct Hdue as [[Hnt Hdue%Z.leb_le] _]. pose proof (proj2 Hclear _ _ Hr).
    repeat split; try done; try tauto; [|lia]. intros rc Hx. specialize (Hrc rc Hx). specialize (Hpf (task_id (snapshot r))). lia.
  - rewrite fmap_take. eapply sublist_NoDup; [apply expiry_rows_NoDup, S | apply sublist_take].
  - rewrite (bind_runs _ _ _ _ _ E). by do 2 eexists.
Qed.
Lemma insert_history_runs P d id r n rd : cooperative P -> store_ok d -> tasks d !! id = Some r ->
  validate_len (document_len rd) INPUT_ROUND_MAX_BYTES = Ok tt -> all_answered (exchanges rd) = true ->
  number rd = generation (snapshot r) -> task_id n = task_id (snapshot r) -> generation (snapshot r) < version n <= i64_max ->
  exists d1, insert_input_history P n (generation (snapshot r)) rd d = Ok (tt, d1) /\ tasks d1 = tasks d.
Proof.
  intros C S Hr Hdoc Hall Hnum Hid Hv. pose proof (so_rows _ S _ _ Hr) as Rr.
  pose proof (constraints_positive _ (lo_constraints _ (ro_local _ _ _ Rr))) as Hpos. unfold insert_input_history.
  rewrite (bind_runs _ _ d tt d) by (by rewrite Hdoc). rewrite (bind_runs _ _ d tt d) by (apply guard_runs; by rewrite Hall).
  rewrite (bind_runs _ _ d tt d) by (by rewrite (co_seal_round P C)).
  rewrite !(bind_runs _ _ d tt d) by (apply counter_runs; lia). rewrite (bind_runs _ _ d d d) by done.
  rewrite Hnum, Hid, bool_decide_eq_false_2.
  2: { pose proof (ro_history _ _ _ Rr (generation (snapshot r))) as Hh. intros [row Hrw]. rewrite Hrw in Hh. unfold round_row_ok in Hh. lia. }
  assert ((0 <? generation (snapshot r)) && (generation (snapshot r) =? generation (snapshot r)) && (generation (snapshot r) <? version n) = true)
    as -> by lia. simpl. eauto.
Qed.
(** Answers that fit are accepted. *)
Lemma update_runs P d R q : healthy P d R -> responses_ok (up_responses q) -> fresh_job d (intent_job_id (resume_intent q)) ->
  (forall r round, tasks d !! up_task_id q = Some r -> state (snapshot r) = InputRequired round ->
     validate_len (document_len (updated_round (apply_responses round (up_responses q)))) INPUT_ROUND_MAX_BYTES = Ok tt /\
     answer_fits round (up_responses q) /\ validate_resume_intent (snapshot r) (resume_intent q) = true) ->
  runs (update_input_atomic P q R) d.
Proof.
  intros He Hrs Hf Hq. pose proof He as [C S Hdoc Hc [Hclk _] [Hp _]]. unfold update_input_atomic, runs.
  destruct (select_owned_runs (up_owner q) (up_task_id q) d) as (o & E & Ho).
  rewrite (bind_runs _ _ _ _ _ E). destruct o as [r|]; [|by do 2 eexists]. specialize (Ho r eq_refl).
  rewrite (bind_runs _ _ _ _ _ (decode_runs P d _ r C S Ho (Hdoc _ _ Ho))).
  match goal with |- context [if ?b then _ else _] => destruct b eqn:E1 end; [by do 2 eexists|].
  rewrite !orb_false_iff, !negb_false_iff, !Z.eqb_eq in E1. destruct E1 as [Hv Hg].
  destruct (state (snapshot r)) as [|round| | |] eqn:Hst; try by do 2 eexists.
  match goal with |- context [if ?b then _ else _] => destruct b eqn:E2 end; [by do 2 eexists|].
  destruct (Hq r round Ho Hst) as (Hlen & Hfit & Hval). pose proof (healthy_row _ _ _ _ _ He Ho) as Hrow.
  pose proof (so_rows _ S _ _ Ho) as Rr. pose proof (ro_local _ _ _ Rr) as Rl. pose proof (lo_round _ Rl) as Hrd. rewrite Hst in Hrd.
  pose proof (constraints_positive _ (lo_constraints _ Rl)) as Hpos.
  assert (Hnt : is_terminal (state (snapshot r)) = false) by (by rewrite Hst). destruct (Z.leb_spec (expires_at (snapshot r)) (now R)).
  { destruct (close_optional_runs P d (up_task_id q) r (Fail Expired) (now R) R (fun _ => "expired"%string))
      as (c & n & d2 & d3 & _ & E3 & _); try done; [by apply (transition_runs P d _ _ _ (processed R))|].
    rewrite (bind_runs _ _ _ _ _ E3). by do 2 eexists. }
  destruct (negb (changed _)); [by do 2 eexists|]. destruct (apply_responses_fixed round (up_responses q)) as (Hn & _ & Hcomp).
  pose proof (apply_responses_successor round (up_responses q)) as Hsucc.
  assert (Hvr : round_ok round). { pose proof (lo_decodes _ Rl) as (_ & _ & _ & Hvr & _)%decode_spec. rewrite Hst in Hvr.
    by apply restored_round_iff in Hvr as [? _]. }
  destruct (complete _) eqn:Ec.
  - rewrite (bind_runs _ _ d tt d) by (apply guard_runs; by rewrite Hval). unfold validate_resume_intent in Hval.
    rewrite !andb_true_iff in Hval. destruct Hval as [[_ Hgn%bool_decide_eq_true%checked_add_Some] _].
    set (tr := Resume _ _ _). assert (Htr : is_ok (transitioned (snapshot r) (version (snapshot r)) tr (now R)) = true).
    { apply (transition_runs P d _ _ _ (processed R)); try done. destruct Hgn. simpl. repeat split; try done; try lia.
      exists round. by rewrite <- Hcomp. }
    assert (Hm : storable_move (snapshot r) tr). { simpl. intros Ej. destruct Hf as [_ Hf]. by apply (Hf _ _ Ho). }
    apply is_ok_ok in Htr as [n Hnx]. rewrite <- Hv. rewrite (bind_runs _ _ d n d) by (by rewrite Hnx).
    destruct (resume_moves _ _ _ _ _ _ _ Hnx) as [En _]. pose proof (transition_identity _ _ _ _ _ Hnx) as Id.
    pose proof (rr_version _ _ _ _ _ Hrow). destruct Hrd as [Hnum Hpf].
    destruct (insert_history_runs P d (up_task_id q) r n (updated_round (apply_responses round (up_responses q)))) as (d1 & Eh & Et);
      try done; [by rewrite Hn | apply (same_task_id _ _ Id) | rewrite En; simpl; lia|].
    rewrite <- Hg.
    rewrite (bind_runs _ _ _ _ _ Eh).
    assert (Hcon : row_constraints {| snapshot := n; execution := execution r; lease := None |} = true)
      by (by eapply (transition_row_accepted r _ tr)).
    pose proof (next_fits P d _ r tr (now R) n S Ho (Hdoc _ _ Ho) I Hnx) as Hnf.
    erewrite bind_runs.
    2: { apply (persist_runs P d1 r n None); try done.
      - apply (static_ok_same (snapshot r)); [done|]. by apply (proj1 (decode_spec _ _) (lo_decodes _ Rl)).
      - rewrite En. simpl. lia.
      - apply (constraints_positive _ Hcon).
      - by rewrite Et, (same_task_id _ _ Id), (ro_id _ _ _ Rr).
      - by eapply transition_accepted. }
    match goal with |- context [(_ ≫= _) ?d9] => destruct (event_runs n "resumed" (now R) d9) as ([] & d4 & E5) end;
      [rewrite En; simpl; destruct Hgn; lia..|]. rewrite (bind_runs _ _ _ _ _ E5). by do 2 eexists.
  - set (tr := RecordInput _). assert (Hrdo : transition_round_ok tr).
    { simpl. apply restored_round_iff. split; [by apply answered_round_ok|]. unfold answer_fits in Hfit. by rewrite Ec in Hfit. }
    destruct (close_optional_runs P d (up_task_id q) r tr (now R) R (fun _ => "input_recorded"%string))
      as (c & n & d2 & d3 & _ & E3 & _); try done.
    { apply (transition_runs P d _ _ _ (processed R)); try done. simpl. split; [done|]. exists round. by rewrite <- Hcomp. }
    rewrite (bind_runs _ _ _ _ _ E3). by do 2 eexists.
Qed.
Lemma TaskOwner_ext (a b : TaskOwner) :
  owner_subject_id a = owner_subject_id b -> owner_tenant_id a = owner_tenant_id b -> a = b.
Proof. destruct a, b. simpl. congruence. Qed.
Lemma CapabilityKey_ext (a b : CapabilityKey) :
  capability_id a = capability_id b -> capability_version a = capability_version b -> a = b.
Proof. destruct a, b. simpl. congruence. Qed.
(** A new task is stored, or the one its key already stands for is found. *)
Lemma create_runs P d R q : healthy P d R -> let s := st_snapshot (create_task q) in
  decode_stored_task s (st_execution (create_task q)) = true -> validate_new_task (create_task q) (execution_intent_of q) = true ->
  now R + (expires_at s - created_at s) <= time_max -> tasks d !! task_id s = None ->
  document_fits P (set_times (now R) (now R) (now R + (expires_at s - created_at s)) s) (st_execution (create_task q)) = Ok tt -> runs (create_atomic P q R) d.
Proof.
  intros He s Hdec Hval Hmax Hnew Hfit. pose proof He as [C S Hdoc _ _ _]. unfold create_atomic, runs.
  rewrite (bind_runs _ _ d tt d) by (apply guard_runs; by rewrite Hval). destruct (row_created_before _ _ Hdec) as [Hce _].
  assert (Hw : with_authoritative_creation_time (now R) s = Ok (set_times (now R) (now R) (now R + (expires_at s - created_at s)) s)).
  { unfold validate_new_task in Hval. rewrite !andb_true_iff in Hval. destruct Hval as [[_ Hf] _].
    unfold with_authoritative_creation_time, checked_add_time, guard_err. unfold s in *. rewrite Hf. simpl.
    destruct (Z.leb_spec (expires_at (st_snapshot (create_task q)) - created_at (st_snapshot (create_task q))) 0); [lia|]. simpl.
    destruct (Z.leb_spec (now R + (expires_at (st_snapshot (create_task q)) - created_at (st_snapshot (create_task q)))) time_max); [done | lia]. }
  destruct (creation_time_ok _ _ _ _ Hdec Hw) as (Hdec' & Hfr & _). set (s' := set_times _ _ _ s) in *.
  rewrite (bind_runs _ _ d s' d) by (unfold s in Hw; by rewrite Hw).
  unfold is_fresh, INITIAL in Hfr. rewrite !andb_true_iff, !Z.eqb_eq, negb_true_iff in Hfr.
  destruct Hfr as [[[[Hg Hv] Hwk] Hcan] Hcu]. assert (Hid : task_id s' = task_id s) by done.
  destruct (row_created_before _ _ Hdec') as [_ Hce']. clearbody s'. assert (Hst : state s' = Working) by (by destruct (state s')).
  rewrite !(bind_runs _ _ d tt d) by (apply counter_runs; unfold i64_max; lia). rewrite (bind_runs _ _ d d d) by done.
  destruct (idem_index d !! idem_scope s') as [[dig id]|] eqn:Ei.
  - destruct (so_index _ S _ _ _ Ei) as (r & Hr & Hsc & Hdig). case_bool_decide as Hd; simpl; [|by do 2 eexists].
    rewrite (bind_runs _ _ _ _ _ (select_runs _ _)), Hr, (bind_runs _ _ _ _ _ (decode_runs P d _ r C S Hr (Hdoc _ _ Hr))).
    rewrite (bind_runs _ _ d tt d); [by do 2 eexists|]. apply guard_runs. unfold validate_existing_identity.
    unfold idem_scope in Hsc. injection Hsc as Ho1 Ho2 Hc1 Hc2 Hkey.
    assert (owner (snapshot r) = owner s') as -> by (by apply TaskOwner_ext).
    assert (capability (snapshot r) = capability s') as -> by (by apply CapabilityKey_ext).
    by rewrite Hkey, Hdig, Hd, !bool_decide_eq_true_2.
  - unfold insert_task. rewrite (bind_runs _ _ d d d) by done.
    rewrite (bind_runs _ _ d tt d) by (apply guard_runs, bool_decide_eq_false_2; rewrite Hid, Hnew; by intros []).
    rewrite (bind_runs _ _ d tt d) by (by rewrite Hfit). rewrite (bind_runs _ _ d tt d) by (by rewrite (co_seal_task P C)).
    assert (Hcon : row_constraints {| snapshot := s'; execution := st_execution (create_task q); lease := None |} = true).
    { unfold row_constraints, is_fresh, INITIAL. simpl. rewrite Hg, Hv, Hst, Hcan. simpl. rewrite !andb_true_iff. lia. }
    rewrite (bind_runs _ _ d tt d) by (apply guard_runs; by rewrite Hcon). erewrite bind_runs by done.
    match goal with |- context [(_ ≫= _) ?d9] => destruct (event_runs s' "created" (created_at s') d9) as ([] & d4 & E5) end;
      [unfold i64_max; lia..|]. rewrite (bind_runs _ _ _ _ _ E5). by do 2 eexists.
Qed.
End progress.
