(* ===== verification/TaskHistory.v ===== *)
(** * How the task store evolves

    Every transaction only adds rows and moves rows on: what identifies a task never
    changes, versions never decrease, a finished task never changes at all, and a
    lease is only kept, dropped or replaced by one claimed now.  Shown piece by piece
    along the structure of the transactions. *)
From S2P Require Import Prelude Machine Text Ordered AuthCore TaskDomain TaskStore TaskRepository TaskFacts TaskInvariant.
From S2P Require Import TaskSteps TaskSafety.

Section history.
Context `{TaskPayloads}.
Implicit Types (P : TaskProtector) (d : Db).

Record row_evolves (t : Z) (r r' : TaskRecord) : Prop := {
  re_id : task_id (snapshot r') = task_id (snapshot r);
  re_owner : owner (snapshot r') = owner (snapshot r);
  re_scope : idem_scope (snapshot r') = idem_scope (snapshot r);
  re_fingerprint : fingerprint (idempotency (snapshot r')) = fingerprint (idempotency (snapshot r));
  re_expires : postgres_timestamp (expires_at (snapshot r')) = postgres_timestamp (expires_at (snapshot r));
  re_version : version (snapshot r) <= version (snapshot r');
  re_terminal : is_terminal (state (snapshot r)) = true -> r' = r;
  re_lease : lease r' = None \/ lease r' = lease r \/ exists l, lease r' = Some l /\ lease_claimed_at l = t;
}.
Definition evolves (t : Z) d d' : Prop := forall id r, tasks d !! id = Some r ->
  exists r', tasks d' !! id = Some r' /\ row_evolves t r r'.
Definition evolving {A} (t : Z) (m : Txn A) : Prop := forall d a d', m d = Ok (a, d') -> evolves t d d'.

Lemma row_evolves_refl t r : row_evolves t r r.
Proof. split; try done. auto. Qed.
Lemma row_evolves_trans t a b c : row_evolves t a b -> row_evolves t b c -> row_evolves t a c.
Proof.
  intros [A1 A2 A3 A4 A5 A6 A7 A8] [B1 B2 B3 B4 B5 B6 B7 B8]. split; try congruence; [lia| |].
  - intros Ht. rewrite <- (A7 Ht). apply B7. by rewrite (A7 Ht).
  - destruct B8 as [?|[-> |?]]; auto.
Qed.
Lemma task_evolves_refl t d : evolves t d d.
Proof. intros id r Hr. eauto using row_evolves_refl. Qed.
Lemma task_evolves_trans t d1 d2 d3 : evolves t d1 d2 -> evolves t d2 d3 -> evolves t d1 d3.
Proof.
  intros H1 H2 id r Hr. destruct (H1 id r Hr) as (r1 & Hr1 & E1). destruct (H2 id r1 Hr1) as (r2 & Hr2 & E2).
  eauto using row_evolves_trans.
Qed.
Lemma evolves_same t d d' : tasks d' = tasks d -> evolves t d d'.
Proof. intros E id r Hr. rewrite E. eauto using row_evolves_refl. Qed.
Lemma evolves_insert t d d' id r r' : tasks d !! id = Some r -> tasks d' = <[id := r']> (tasks d) -> row_evolves t r r' ->
  evolves t d d'.
Proof.
  intros Hr Et He id0 r0 Hr0. rewrite Et. destruct (decide (id0 = id)) as [->|Hne].
  - rewrite lookup_insert_eq. simplify_eq. eauto.
  - rewrite lookup_insert_ne by done. eauto using row_evolves_refl.
Qed.

(** ** Along the structure of a transaction *)
Lemma evolving_bind {A B} t (m : Txn A) (f : A -> Txn B) : evolving t m -> (forall a, evolving t (f a)) -> evolving t (m ≫= f).
Proof. intros Hm Hf d b d' Hb. inv_txn. eapply task_evolves_trans; [by eapply Hm | by eapply Hf]. Qed.
Lemma evolving_ret {A} t (a : A) : evolving t (mret a).
Proof. intros d b d' Hb. inv_txn. apply task_evolves_refl. Qed.
Lemma evolving_fail {A} t e : evolving t (@txn_fail _ A e).
Proof. done. Qed.
Lemma evolving_get t : evolving t txn_get.
Proof. intros d b d' Hb. inv_txn. apply task_evolves_refl. Qed.
Lemma evolving_guard t b e : evolving t (txn_guard b e).
Proof. intros d u d' Hb. inv_txn. apply task_evolves_refl. Qed.
Lemma evolving_result {E A} t (r : result E A) e : evolving t (txn_result r e).
Proof. intros d u d' Hb. inv_txn. apply task_evolves_refl. Qed.
Lemma evolving_external t r : evolving t (txn_external r).
Proof. intros d u d' Hb. inv_txn. apply task_evolves_refl. Qed.
Lemma evolving_counter t n : evolving t (counter_to_i64 n).
Proof. apply evolving_guard. Qed.
(** A transaction that leaves the rows alone. *)
Definition leaves_rows {A} (m : Txn A) : Prop := forall d a d', m d = Ok (a, d') -> tasks d' = tasks d.
Lemma evolving_leaves {A} t (m : Txn A) : leaves_rows m -> evolving t m.
Proof. intros Hm d a d' Hd. eapply evolves_same, Hm, Hd. Qed.
Lemma leaves_event s k at_ : leaves_rows (insert_task_event s k at_).
Proof. intros d u d' ->%insert_event_ok. done. Qed.
Lemma leaves_outbox i : leaves_rows (append_outbox i).
Proof. intros d u d' ->%append_outbox_ok. done. Qed.
Lemma leaves_decode P r : leaves_rows (decode_task_record P r).
Proof. intros d u d' [_ ->]%decode_record_ok. done. Qed.
Lemma leaves_select id : leaves_rows (select_task_for_update id).
Proof. intros d u d' [_ ->]%select_task_ok. done. Qed.
Lemma leaves_select_owned own id : leaves_rows (select_owned_task_for_update own id).
Proof. intros d u d' [-> _]%select_owned_ok. done. Qed.
Lemma leaves_resume s job : leaves_rows (resume_delivery_receipt s job).
Proof. intros d u d' (-> & _)%resume_receipt_ok. done. Qed.
Lemma leaves_claim s job R : leaves_rows (claim_delivery_receipt s job R).
Proof. intros d u d' [(_ & -> & _)|(_ & _ & ->)]%claim_receipt_ok; done. Qed.
Lemma leaves_complete c R : leaves_rows (complete_delivery_receipt c R).
Proof. intros d u d' Hc. destruct c as [e at_|]; [by apply complete_receipt_ok in Hc as -> | done]. Qed.
Lemma leaves_release c : leaves_rows (release_delivery_receipt c).
Proof. intros d u d' Hc. destruct c as [e at_|]; [by apply release_receipt_ok in Hc as -> | done]. Qed.
Lemma leaves_complete_optional c R : leaves_rows (complete_optional c R).
Proof. destruct c; simpl; [apply leaves_complete | intros d u d' Hd; by inv_txn]. Qed.
Lemma leaves_resume_if_leased r : leaves_rows (resume_if_leased r).
Proof. intros d u d' [-> _]%resume_if_leased_ok. done. Qed.
Lemma leaves_history P s : leaves_rows (load_input_history P s).
Proof. intros d u d' ->%load_history_same. done. Qed.
Lemma leaves_insert_history P s g rd : leaves_rows (insert_input_history P s g rd).
Proof. intros d u d' (_ & _ & ->)%insert_history_ok. done. Qed.
Lemma leaves_keys id rd : leaves_rows (validate_new_input_keys id rd).
Proof. intros d u d' [-> _]%insert_keys_ok. done. Qed.
Lemma evolving_persist_lease t id ev l : (forall l', l = Some l' -> lease_claimed_at l' = t) -> evolving t (persist_lease id ev l).
Proof.
  intros Hl d u d' (old & Hold & Hnt & _ & ->)%persist_lease_ok. eapply evolves_insert; [done | done |].
  split; simpl; try done; [congruence|]. destruct l as [l|]; [right; right | by left]. eauto.
Qed.
Lemma allowed_evolves t r s x l : transition_allowed (snapshot r) s = true ->
  (l = None \/ l = lease r) -> row_evolves t r {| snapshot := s; execution := x; lease := l |}.
Proof.
  unfold transition_allowed. rewrite !andb_true_iff, !bool_decide_eq_true, !Z.eqb_eq. intros Ha Hl.
  destruct Ha as [[[[[[[[[[[[Hid Ho] Hc] Hk] Hf] Hcr] Hex] Hnt] Hv] _] _] _] _].
  split; simpl; try done; [|lia| |].
  - unfold idem_scope. by rewrite Ho, Hc, Hk.
  - apply negb_true_iff in Hnt. congruence.
  - tauto.
Qed.
Lemma evolving_persist P t s x ev : evolving t (persist_task P s x ev None).
Proof.
  intros d u d' (old & Hold & Ha & _ & _ & ->)%persist_task_ok. eapply evolves_insert; [done | done |].
  by apply allowed_evolves; [|left].
Qed.
End history.

Create HintDb evolving.
#[export] Hint Resolve evolving_ret evolving_fail evolving_get evolving_guard evolving_result
  evolving_external evolving_counter evolving_persist evolving_leaves leaves_event leaves_outbox leaves_decode leaves_select
  leaves_select_owned leaves_resume leaves_claim leaves_complete leaves_release leaves_complete_optional
  leaves_resume_if_leased leaves_history leaves_insert_history leaves_keys : evolving.
Ltac evolve := repeat first
  [ progress intros
  | match goal with |- evolving _ (@mbind Txn _ _ _ _ _) => apply evolving_bind end
  | match goal with |- evolving _ (match ?x with _ => _ end) => destruct x end
  | match goal with |- evolving _ (let _ := _ in _) => cbv zeta end
  | solve [eauto 2 with evolving] ].

Section operations.
Context `{TaskPayloads}.
Implicit Types (P : TaskProtector) (d : Db).
Lemma evolving_commit P t r tr at_ kind : evolving t (commit_transition P r tr at_ None kind).
Proof. unfold commit_transition. evolve. Qed.
Lemma evolving_expire_record P t r R : evolving t (expire_record P r R).
Proof. unfold expire_record. evolve. apply evolving_commit. Qed.
End operations.
#[export] Hint Resolve evolving_commit evolving_expire_record : evolving.

Section methods.
Context `{TaskPayloads}.
Implicit Types (P : TaskProtector) (d : Db).
Lemma evolving_get_method P own id R t : evolving t (get P own id R).
Proof. unfold get. evolve. Qed.
Lemma evolving_update P q R t : evolving t (update_input_atomic P q R).
Proof. unfold update_input_atomic. evolve. Qed.
Lemma evolving_claim P q R : evolving (now R) (claim_execution P q R).
Proof.
  unfold claim_execution, claim_inactive, claim_or_resume, release_stale. evolve.
  apply evolving_persist_lease. by intros l' [= <-].
Qed.
Lemma evolving_abandon P f R t : evolving t (abandon_execution P f R).
Proof. unfold abandon_execution. evolve. by apply evolving_persist_lease. Qed.
Lemma evolving_require P f rd R t : evolving t (require_input P f rd R).
Proof. unfold require_input. evolve. Qed.
Lemma evolving_settle P f s R t : evolving t (settle_execution P f s R).
Proof. unfold settle_execution. evolve. Qed.
Lemma evolving_expire_rows P at_ pf rows t : evolving t (expire_rows P at_ pf rows).
Proof. induction rows as [|r rows IH]; simpl; evolve. Qed.
Lemma evolving_expire_batch P limit locked at_ pf t : evolving t (expire_batch P limit locked at_ pf).
Proof. unfold expire_batch. evolve. apply evolving_expire_rows. Qed.
Lemma evolving_create P q R t : evolving t (create_atomic P q R).
Proof.
  intros d o d' Hc. unfold create_atomic in Hc. inv_txn.
  match goal with H : (match ?x with _ => _ end) _ = _ |- _ => rename H into Hm; destruct x as [[dig ex]|] end.
  - match type of Hm with ?m d = _ => assert (E : evolving t m) by evolve end. by eapply E.
  - unfold insert_task in Hm. inv_txn.
    match goal with H : append_outbox _ _ = _ |- _ => apply append_outbox_ok in H as -> end.
    match goal with H : insert_task_event _ _ _ _ = _ |- _ => apply insert_event_ok in H as -> end.
    match goal with H : bool_decide (is_Some _) = false |- _ => apply bool_decide_eq_false, eq_None_not_Some in H as Hn end.
    intros id r Hr. simpl. rewrite lookup_insert_ne by congruence. eauto using row_evolves_refl.
Qed.
(** A cancellation keeps the lease it found. *)
Lemma request_cancellation_evolves P d id r R kind n d' t : store_ok d -> tasks d !! id = Some r ->
  commit_transition P r RequestCancellation (now R) (lease r) kind d = Ok (n, d') -> evolves t d d'.
Proof.
  intros S Hr (Ht & _ & _ & (old & Hold & Ha) & ->)%commit_transition_ok.
  rewrite (same_task_id _ _ (transition_identity _ _ _ _ _ Ht)), (ro_id _ _ _ (so_rows _ S _ _ Hr)) in Hold.
  assert (old = r) as -> by congruence. apply (evolves_insert t d _ id r {| snapshot := n; execution := execution r; lease := lease r |}); [done | | ].
  - simpl. by rewrite (same_task_id _ _ (transition_identity _ _ _ _ _ Ht)), (ro_id _ _ _ (so_rows _ S _ _ Hr)).
  - apply allowed_evolves; auto.
Qed.
Lemma cancel_evolves P q R t d o d' : store_ok d -> cancel_atomic P q R d = Ok (o, d') -> evolves t d d'.
Proof.
  unfold cancel_atomic. intros S Hc. inv_txn.
  match goal with H : select_owned_task_for_update _ _ _ = Ok (?o, _) |- _ => apply select_owned_ok in H as [-> Hsel]; destruct o as [r|] end;
    [|inv_txn; apply task_evolves_refl].
  destruct (Hsel r eq_refl) as [Hr _]. inv_txn.
  match goal with H : decode_task_record _ _ _ = Ok _ |- _ => apply decode_record_ok in H as [-> ->] end.
  match goal with H : (if _ then _ else _) _ = _ |- _ => rename H into Hm end.
  destruct (lease_live (snapshot r) (lease r) (now R)).
  - match type of Hm with (if ?b then _ else _) _ = _ => destruct b end; [inv_txn; apply task_evolves_refl|].
    match type of Hm with (if ?b then _ else _) _ = _ => destruct b end; [inv_txn; apply task_evolves_refl|].
    match type of Hm with (if ?b then _ else _) _ = _ => destruct b end; [inv_txn; apply task_evolves_refl|].
    match type of Hm with (if ?b then _ else _) _ = _ => destruct b end; inv_txn.
    + match goal with H : expire_record _ _ _ _ = _ |- _ => by eapply evolving_expire_record in H end.
    + match goal with H : append_outbox _ _ = _ |- _ => apply append_outbox_ok in H as -> end.
      eapply task_evolves_trans; [by eapply request_cancellation_evolves | by apply evolves_same].
  - match type of Hm with ?m d = _ => assert (E : evolving t m) by evolve end. by eapply E.
Qed.
(** What a successful claim writes. *)
Lemma leaves_release_stale r job : leaves_rows (release_stale r job).
Proof.
  unfold release_stale. intros d u d' Hd. destruct (lease r); inv_txn; [|done].
  match goal with H : release_delivery_receipt _ _ = _ |- _ => rewrite (leaves_release _ _ _ _ H) end. by eapply leaves_resume.
Qed.
Lemma claim_leased P q R d l d' : store_ok d -> claim_execution P q R d = Ok (Leased l, d') ->
  exists r, tasks d !! claim_task_id q = Some r /\ st_snapshot (leased_task l) = snapshot r /\
    current_job_id (snapshot r) = claim_job_id q /\ generation (snapshot r) = claim_generation q /\
    is_working (state (snapshot r)) = true /\
    tasks d' !! claim_task_id q = Some (with_lease r (Some {| lease_job_id := claim_job_id q; lease_generation := claim_generation q;
      lease_version := version (snapshot r); lease_claimed_at := now R;
      lease_expires_at := postgres_timestamp (Z.min (saturating_add_time (now R) EXECUTION_TIMEOUT) (expires_at (snapshot r))) |})).
Proof.
  intros S Hc. unfold claim_execution in Hc. open_row r Hr. early E1.
  rewrite !orb_false_iff, !negb_false_iff, !Z.eqb_eq in E1. destruct E1 as [[Hj Hg] Hw]. early E2.
  match goal with H : (if ?b then _ else _) _ = Ok _ |- _ => destruct b eqn:E3 end.
  { unfold claim_inactive in *. inv_txn. match goal with H : match ?x with _ => _ end _ = Ok _ |- _ => destruct x; by inv_txn end. }
  inv_txn. match goal with H : match ?x with _ => _ end _ = Ok (Leased _, _) |- _ => destruct x; [|by inv_txn] end. inv_txn.
  match goal with H : Leased _ = Leased _ |- _ => injection H as -> end. exists r. repeat (split; [done|]).
  match goal with H : load_input_history _ _ _ = _ |- _ => apply leaves_history in H as L1 end.
  match goal with H : claim_delivery_receipt _ _ _ _ = _ |- _ => apply leaves_claim in H as L2 end.
  match goal with H : release_stale _ _ _ = _ |- _ => apply leaves_release_stale in H as L3 end.
  match goal with H : persist_lease _ _ _ _ = _ |- _ => apply persist_lease_ok in H as (old & Hold & _ & _ & ->) end.
  match goal with H : insert_task_event _ _ _ _ = _ |- _ => apply insert_event_ok in H as -> end. simpl.
  rewrite (ro_id _ _ _ (so_rows _ S _ _ Hr)), L1, L2, L3 in *. assert (old = r) as -> by congruence. apply lookup_insert_eq.
Qed.
End methods.
