(* ===== verification/TaskService.v ===== *)
(** * The task service and worker: [crates/mcp-tasks/src/service.rs], [worker.rs]

    Each method is a sequence of repository calls.  Between two calls of a method
    any other transaction may run: [env k] is what the rest of the system does to
    the tables before the [k]-th call, and [readings k] the database clock of that
    call.  Identifiers are the integers of their UUIDs; the ones the code draws at
    random are arguments.  The executor, the registration of cancellation tokens and
    the protocol adapters are parameters.  The sizes of the job payloads and the
    texts of their envelopes are fixed, so an envelope is refused only for an
    identifier that is not a version 7 UUID. *)
From S2P Require Import Prelude Machine Text Ordered AuthCore TaskDomain TaskStore TaskRepository.

#[global] Instance TenantMode_eq : EqDecision TenantMode.
Proof. solve_decision. Defined.
#[global] Instance BudgetBounds_eq : EqDecision BudgetBounds.
Proof. solve_decision. Defined.

Inductive TaskServiceError :=
| NotNegotiated | UnsupportedMethod | TaskNotFound | IdempotencyConflict | InvalidRequest | CancellationRace
| InvalidJob | Repository (e : RepositoryError).
Inductive TaskMethod := MethodGet | MethodUpdate | MethodCancel.
Definition TaskMethod_from_name (name : string) : option TaskMethod :=
  if bool_decide (name = "tasks/get") then Some MethodGet
  else if bool_decide (name = "tasks/update") then Some MethodUpdate
  else if bool_decide (name = "tasks/cancel") then Some MethodCancel
  else None.
Definition TaskMethod_as_str (m : TaskMethod) : string :=
  match m with MethodGet => "tasks/get" | MethodUpdate => "tasks/update" | MethodCancel => "tasks/cancel" end.

(** What the service reads of a request. *)
Record RequestContext := {
  negotiated : list (string * string);
  ctx_principal : Principal;
  ctx_tenant_mode : TenantMode;
  ctx_bounds : BudgetBounds;
  ctx_request_id : Z;
}.
Definition TASKS_EXTENSION_REVISION : string := "2026-07-28".
Definition advertised_tasks_extension (extension_id : string) (c : RequestContext) : option (string * string) :=
  head (filter (fun e => e = (extension_id, TASKS_EXTENSION_REVISION)) (negotiated c)).
Definition advertised_task_methods (extension_id : string) (c : RequestContext) : list TaskMethod :=
  match advertised_tasks_extension extension_id c with
  | Some _ => [MethodGet; MethodUpdate; MethodCancel]
  | None => []
  end.
Definition require_tasks_extension (extension_id : string) (c : RequestContext) : result TaskServiceError unit :=
  match advertised_tasks_extension extension_id c with Some _ => Ok tt | None => Err NotNegotiated end.
Definition authorize_task_method (extension_id : string) (c : RequestContext) (name : string)
    : result TaskServiceError TaskMethod :=
  _ ← require_tasks_extension extension_id c; ok_or (TaskMethod_from_name name) UnsupportedMethod.
Definition owner_from_context (c : RequestContext) : TaskOwner := from_principal (ctx_principal c).

(** [Uuid::get_version_num() == 7] *)
Definition uuid7 (id : Z) : bool := Z.land (Z.shiftr id 76) 15 =? 7.
#[global] Arguments uuid7 : simpl never.
(** [execution_intent] and [cancellation_intent] with the job envelope they carry. *)
Definition job_envelope (kind : IntentKind) (job id gen : Z) (own : TaskOwner) (ident : TaskIdentity)
    : result TaskServiceError Intent :=
  _ ← guard_err (negb (uuid7 (correlation_id ident))
                 || match causation_id ident with Some c => negb (uuid7 c) | None => false end) InvalidJob;
  Ok {| intent_kind := kind; intent_job_id := job; intent_task_id := id; intent_generation := gen;
        intent_tenant := owner_tenant_id own; intent_correlation := correlation_id ident;
        intent_causation := causation_id ident |}.
Definition execution_intent := job_envelope ExecutionIntent.
Definition cancellation_intent := job_envelope CancellationIntent.

Section service.
Context `{TaskPayloads} (P : TaskProtector) (extension_id : string).

Record World := { calls : nat; db : Db; signals : list (Z * Z) }.
Section interleaved.
Context (env : nat -> Db -> Db) (readings : nat -> Readings).

(** One repository call: a failed transaction leaves the tables as they were. *)
Definition call {A} (m : Readings -> Txn A) (w : World) : result RepositoryError A * World :=
  let d := env (calls w) (db w) in
  match m (readings (calls w)) d with
  | Ok (a, d') => (Ok a, {| calls := S (calls w); db := d'; signals := signals w |})
  | Err e => (Err e, {| calls := S (calls w); db := d; signals := signals w |})
  end.
Definition repository {A} (m : Readings -> Txn A) : ST World TaskServiceError A :=
  fun w => let '(r, w') := call m w in (map_err Repository r, w').
Definition lift_result {A} (r : result TaskServiceError A) : ST World TaskServiceError A := fun w => (r, w).
Definition signal (id gen : Z) : ST World TaskServiceError unit :=
  st_modify (fun w => {| calls := calls w; db := db w; signals := signals w ++ [(id, gen)] |}).

(** ** Creation *)
Record CreateTaskCommand := { cmd_execution : TaskExecution; cmd_idempotency : TaskIdempotency }.
Definition CreateTaskCommand_new (x : TaskExecution) : result TaskServiceError CreateTaskCommand :=
  digest ← map_err (fun _ => InvalidRequest) (for_invocation (ex_capability x) (ex_input x));
  Ok {| cmd_execution := x; cmd_idempotency := {| idem_key := ex_idempotency_key x; fingerprint := digest |} |}.
Definition validate_execution_context (c : RequestContext) (x : TaskExecution) : result TaskServiceError unit :=
  guard_err (negb (bool_decide (tenant_mode x = ctx_tenant_mode c) && bool_decide (bounds (ex_budget x) = ctx_bounds c)))
    InvalidRequest.
(** The task a command asks for, before the database gives its creation time. *)
Definition new_task (c : RequestContext) (cmd : CreateTaskCommand) (config : TaskConfig) (id job clock : Z)
    : result TaskServiceError AtomicCreate :=
  _ ← require_tasks_extension extension_id c;
  _ ← validate_execution_context c (cmd_execution cmd);
  let own := owner_from_context c in
  let ident := {| request_id := ctx_request_id c; correlation_id := ctx_request_id c; causation_id := None |} in
  intent ← execution_intent job id INITIAL own ident;
  let x := cmd_execution cmd in
  Ok {| create_task := {| st_snapshot := initial id own (ex_capability x) ident (cmd_idempotency cmd) (ex_budget x)
                                           job clock config;
                          st_execution := x |};
        execution_intent_of := intent |}.
Definition create (c : RequestContext) (cmd : CreateTaskCommand) (config : TaskConfig) (id job clock : Z)
    : ST World TaskServiceError TaskSnapshot :=
  q ← lift_result (new_task c cmd config id job clock);
  o ← repository (create_atomic P q);
  match o with
  | Created s | Existing s => mret s
  | FingerprintConflict => st_throw IdempotencyConflict
  end.

(** ** Reading, answering, cancelling *)
Definition fetch (own : TaskOwner) (id : Z) : ST World TaskServiceError TaskSnapshot :=
  o ← repository (get P own id);
  match o with Some s => mret s | None => st_throw TaskNotFound end.
Definition service_get (c : RequestContext) (id : Z) : ST World TaskServiceError TaskSnapshot :=
  _ ← lift_result (require_tasks_extension extension_id c);
  fetch (owner_from_context c) id.
Definition update (c : RequestContext) (id : Z) (rs : InputResponses) (job : Z) : ST World TaskServiceError unit :=
  _ ← lift_result (require_tasks_extension extension_id c);
  let own := owner_from_context c in
  s ← fetch own id;
  match state s with
  | InputRequired round =>
      next ← lift_result (ok_or (generation_next (generation s)) InvalidRequest);
      intent ← lift_result (execution_intent job id next own (identity s));
      o ← repository (update_input_atomic P {| up_owner := own; up_task_id := id; up_version := version s;
            up_generation := generation s; up_round := number round; up_responses := rs; resume_intent := intent |});
      match o with UpdateNotFound => st_throw TaskNotFound | Acknowledged _ | Resumed _ => mret tt end
  | _ => mret tt
  end.
(** Each attempt draws a new job identifier; a stale attempt appends nothing, so [job]
    is the one of the attempt that takes effect. *)
Definition MAX_CANCELLATION_ATTEMPTS : nat := 3.
Fixpoint cancel_loop (attempts : nat) (own : TaskOwner) (id job : Z) (s : TaskSnapshot) : ST World TaskServiceError unit :=
  match attempts with
  | O => st_throw CancellationRace
  | S attempts' =>
      if is_terminal (state s) then mret tt
      else
        intent ← lift_result (cancellation_intent job id (generation s) own (identity s));
        o ← repository (cancel_atomic P {| cn_owner := own; cn_task_id := id; cn_version := version s;
              cn_generation := generation s; cancellation_intent_of := intent |});
        match o with
        | CancelNotFound => st_throw TaskNotFound
        | CancelStale current => cancel_loop attempts' own id job current
        | Signalled n | AlreadyRequested n => signal (task_id n) (generation n)
        | CancelTerminal _ | CancelDone _ => mret tt
        end
  end.
Definition cancel (c : RequestContext) (id job : Z) : ST World TaskServiceError unit :=
  _ ← lift_result (require_tasks_extension extension_id c);
  let own := owner_from_context c in
  s ← fetch own id;
  cancel_loop MAX_CANCELLATION_ATTEMPTS own id job s.
(** [TaskExpiryRunner::run_once] with [ExpiryBatch::new]. *)
Definition run_once (config : TaskConfig) (locked : gset Z) (processed_for : Z -> Z) : ST World TaskServiceError ExpiryReport :=
  _ ← lift_result (guard_err ((expiry_batch_size config =? 0) || (1000 <? expiry_batch_size config)) (Repository Integrity));
  repository (fun R => expire_batch P (expiry_batch_size config) locked (now R) processed_for).

(** ** The worker *)
Inductive InvocationError :=
| UnknownCapability | CapabilityUnavailable | ExposureNotDeclared | InvocationDenied | TenantModeMismatch
| ConfirmationRequired | IdempotencyMismatch | InputBudgetExceeded | InputSchemaMismatch | OutputBudgetExceeded
| OutputSchemaMismatch | InvocationDeadlineExceeded | InvocationCancelled | HandlerFailed (code : string).
Definition failure_for_invocation (e : InvocationError) : TaskFailureCode :=
  match e with
  | InvocationDeadlineExceeded => DeadlineExceeded
  | HandlerFailed _ | OutputBudgetExceeded | OutputSchemaMismatch | InvocationCancelled => ExecutionFailed
  | UnknownCapability | CapabilityUnavailable | ExposureNotDeclared | InvocationDenied | TenantModeMismatch
  | ConfirmationRequired | IdempotencyMismatch | InputBudgetExceeded | InputSchemaMismatch => CapabilityRejected
  end.
(** What the executor returns once the protocol adapter has looked at it: a result
    that may not be representable, or the requests for input. *)
Inductive ToolOutcome :=
| ToolComplete (adapted : option ToolResult)
| ToolInputRequired (request_state : string) (adapted : option (gmap string Value)).
Inductive HandlerOutcome :=
| Succeeded | HandlerCancelled | Retryable (code : string) | Permanent (code : string).
Definition repository_outcome (e : RepositoryError) : HandlerOutcome :=
  match e with
  | Unavailable | TransactionConflict => Retryable "mcp_task_repository"
  | Integrity => Permanent "mcp_task_integrity"
  end.
Fixpoint pending_exchanges (l : list (string * Value)) : result TaskValueError (gmap string InputExchange) :=
  match l with
  | [] => Ok ∅
  | (k, v) :: l' =>
      _ ← InputKey_new k;
      e ← InputExchange_pending v;
      m ← pending_exchanges l';
      Ok (<[k := e]> m)
  end.
Definition from_tool_input_required (n : Z) (st : string) (adapted : option (gmap string Value))
    : result TaskValueError InputRound :=
  st' ← TaskRequestState_new st;
  reqs ← ok_or adapted ValueInvalid;
  m ← pending_exchanges (map_to_list reqs);
  InputRound_new n st' m.
Definition project_input_round (l : TaskLease) (st : string) (adapted : option (gmap string Value))
    : result TaskValueError InputRound :=
  n ← ok_or (match last (input_history l) with
             | None => Some 1
             | Some round => checked_add u64_max (number round) 1
             end) ValueInvalid;
  from_tool_input_required n st adapted.
Record ExecutionJob := { job_id : Z; job_task : Z; job_generation : Z }.
Definition fence_of (j : ExecutionJob) (l : TaskLease) : Fence :=
  {| fence_task := job_task j; fence_generation := job_generation j; fence_version := leased_version l;
     fence_claimed_at := leased_at l; fence_job := job_id j |}.
Definition settle (j : ExecutionJob) (l : TaskLease) (t : TerminalSettlement) (interrupted : bool) (w : World)
    : HandlerOutcome * World :=
  let '(r, w') := call (settle_execution P (fence_of j l) t) w in
  (match r with
   | Ok (Applied _) => if interrupted then HandlerCancelled else Succeeded
   | Ok SettleStale => Succeeded
   | Ok SettleNotFound => Permanent "mcp_task_missing"
   | Err e => repository_outcome e
   end, w').
Definition abandon (j : ExecutionJob) (l : TaskLease) (w : World) : HandlerOutcome * World :=
  let '(r, w') := call (abandon_execution P (fence_of j l)) w in
  (match r with
   | Ok Released => Retryable "mcp_task_cancel_registry"
   | Ok AbandonCancelled => HandlerCancelled
   | Ok AbandonStale => Succeeded
   | Ok AbandonNotFound => Permanent "mcp_task_missing"
   | Err e => repository_outcome e
   end, w').
(** [TaskExecutionJobHandler::handle]; [registered] says whether the cancellation
    token could be registered, [execute] is the executor. *)
Definition handle (registered : bool) (execute : TaskLease -> result InvocationError ToolOutcome) (j : ExecutionJob) (w : World)
    : HandlerOutcome * World :=
  let '(claimed, w1) := call (claim_execution P {| claim_task_id := job_task j; claim_generation := job_generation j;
                                                   claim_job_id := job_id j |}) w in
  match claimed with
  | Err e => (repository_outcome e, w1)
  | Ok (Inactive | ClaimStale) => (Succeeded, w1)
  | Ok ClaimNotFound => (Permanent "mcp_task_missing", w1)
  | Ok (Leased l) =>
      if negb registered then abandon j l w1
      else match execute l with
      | Ok (ToolComplete (Some result)) => settle j l (SettleCompleted result) false w1
      | Ok (ToolComplete None) => settle j l (SettleFailed InvalidResult) false w1
      | Ok (ToolInputRequired st adapted) =>
          match project_input_round l st adapted with
          | Err _ => settle j l (SettleFailed InvalidResult) false w1
          | Ok round =>
              let '(r, w2) := call (require_input P (fence_of j l) round) w1 in
              match r with
              | Ok (Applied _) => (Succeeded, w2)
              | Ok SettleStale => settle j l SettleCancelled true w2
              | Ok SettleNotFound => (Permanent "mcp_task_missing", w2)
              | Err e => (repository_outcome e, w2)
              end
          end
      | Err InvocationCancelled => settle j l SettleCancelled true w1
      | Err e => settle j l (SettleFailed (failure_for_invocation e)) false w1
      end
  end.
End interleaved.
End service.
