(* ===== verification/TaskTheorems.v ===== *)
(** * Theorems about durable tasks *)
From S2P Require Import Prelude Machine Text Ordered AuthCore TaskDomain TaskStore TaskRepository TaskFacts TaskInvariant.
From S2P Require Import TaskSteps TaskSafety TaskProgress TaskHistory TaskService.

Section steps.
Context `{TaskPayloads} (P : TaskProtector).
Implicit Types (d : Db).

(** One transaction at clock [t].  The hypotheses are what the types of the requests
    and the drawing of fresh job identifiers give, the numbering of rounds by the
    worker, and that answers fit ([answer_fits]). *)
Inductive step (t : Z) d : Db -> Prop :=
| step_create q R o d' : now R = t -> create_atomic P q R d = Ok (o, d') ->
    decode_stored_task (st_snapshot (create_task q)) (st_execution (create_task q)) = true ->
    fresh_job d (current_job_id (st_snapshot (create_task q))) ->
    intent_kind (execution_intent_of q) = ExecutionIntent -> step t d d'
| step_get own id R o d' : now R = t -> get P own id R d = Ok (o, d') -> step t d d'
| step_update q R o d' : now R = t -> update_input_atomic P q R d = Ok (o, d') ->
    responses_ok (up_responses q) -> fresh_job d (intent_job_id (resume_intent q)) ->
    intent_kind (resume_intent q) = ExecutionIntent ->
    (forall r round, tasks d !! up_task_id q = Some r -> state (snapshot r) = InputRequired round ->
       answer_fits round (up_responses q)) -> step t d d'
| step_cancel q R o d' : now R = t -> cancel_atomic P q R d = Ok (o, d') ->
    intent_kind (cancellation_intent_of q) = CancellationIntent -> step t d d'
| step_claim q R o d' : now R = t -> claim_execution P q R d = Ok (o, d') -> step t d d'
| step_abandon f R o d' : now R = t -> abandon_execution P f R d = Ok (o, d') -> step t d d'
| step_require f round R o d' : now R = t -> require_input P f round R d = Ok (o, d') ->
    asked_round round (fence_generation f) -> step t d d'
| step_settle f s R o d' : now R = t -> settle_execution P f s R d = Ok (o, d') -> step t d d'
| step_expire limit locked pf o d' : expire_batch P limit locked t pf d = Ok (o, d') -> step t d d'
| step_cleanup selected : step t d (cleanup_receipts selected d).
Definition any_step d d' : Prop := exists t, step t d d'.
Definition empty_db : Db :=
  {| tasks := ∅; idem_index := ∅; input_keys := ∅; input_rounds := ∅; receipts := ∅; outbox := []; task_events := [] |}.
(** Transactions whose clock readings increase. *)
Inductive run : Z -> Db -> Z -> Db -> Prop :=
| run_refl t d : run t d t d
| run_step t d t1 d1 t2 d2 : t < t1 -> step t1 d d1 -> run t1 d1 t2 d2 -> run t d t2 d2.

Lemma step_ok t d d' : step t d d' -> store_ok d -> store_ok d'.
Proof.
  destruct 1; intros S.
  - by eapply create_ok.
  - by eapply get_ok.
  - by eapply update_ok.
  - by eapply cancel_ok.
  - by eapply claim_ok.
  - by eapply abandon_ok.
  - by eapply require_ok.
  - by eapply settle_ok.
  - by eapply expire_batch_ok.
  - by apply cleanup_ok.
Qed.
Lemma steps_ok d d' : rtc any_step d d' -> store_ok d -> store_ok d'.
Proof. induction 1 as [|d d1 d' [t Hs] _ IH]; eauto using step_ok. Qed.
Lemma empty_ok : store_ok empty_db.
Proof. split; try done. Qed.
Lemma step_evolves t d d' : step t d d' -> store_ok d -> evolves t d d'.
Proof.
  destruct 1; intros S; subst; eauto using cancel_evolves.
  - by eapply evolving_create.
  - by eapply evolving_get_method.
  - by eapply evolving_update.
  - by eapply evolving_claim.
  - by eapply evolving_abandon.
  - by eapply evolving_require.
  - by eapply evolving_settle.
  - by eapply evolving_expire_batch.
  - by apply evolves_same.
Qed.
Lemma run_ok t d t' d' : run t d t' d' -> store_ok d -> store_ok d'.
Proof. induction 1; eauto using step_ok. Qed.


(** Lifetimes of whole microseconds. *)
Lemma whole_lifetimes_clear d t : t < postgres_timestamp time_max ->
  (forall id r, tasks d !! id = Some r -> expires_at (snapshot r) mod 1000 = 0) -> clear_microsecond d t.
Proof. intros Hend Hw. split; [done|]. intros id r Hr Ht. by rewrite postgres_timestamp_whole by by eapply Hw. Qed.

(** ** Tasks are only moved on *)
Lemma steps_evolve d d' id r : rtc any_step d d' -> store_ok d -> tasks d !! id = Some r ->
  exists r', tasks d' !! id = Some r' /\ idem_scope (snapshot r') = idem_scope (snapshot r) /\
    fingerprint (idempotency (snapshot r')) = fingerprint (idempotency (snapshot r)) /\
    version (snapshot r) <= version (snapshot r') /\ (is_terminal (state (snapshot r)) = true -> r' = r).
Proof.
  intros Hs. revert r. induction Hs as [|d d1 d' [t Hs] _ IH]; intros r S Hr; [eauto 10 with lia|].
  destruct (step_evolves _ _ _ Hs S _ _ Hr) as (r1 & Hr1 & E).
  destruct (IH r1 (step_ok _ _ _ Hs S) Hr1) as (r' & Hr' & E1 & E2 & E3 & E4). destruct E as [_ _ A3 A4 _ A6 A7 _].
  exists r'. repeat split; try congruence; [lia|]. intros Ht. rewrite <- (A7 Ht). apply E4. by rewrite (A7 Ht).
Qed.
(** A finished task never changes again: once its state is terminal, the row stays
    as it is whatever transactions follow. *)
Theorem finished_tasks_frozen d d' id r : rtc any_step empty_db d -> tasks d !! id = Some r ->
  is_terminal (state (snapshot r)) = true -> rtc any_step d d' -> tasks d' !! id = Some r.
Proof.
  intros Hs Hr Ht Hs'. destruct (steps_evolve d d' id r Hs') as (r' & Hr' & _ & _ & _ & E); [|done|by rewrite <- (E Ht)].
  by apply (steps_ok _ _ Hs), empty_ok.
Qed.

(** ** Creation is idempotent *)
(** A created task is created once: however the store has moved on, a request with
    the same owner, capability and key gets the task that exists, or a conflict when
    its input differs, and changes nothing. *)
Theorem create_idempotent d0 d1 d2 q R s q' R' o d3 : rtc any_step empty_db d0 ->
  create_atomic P q R d0 = Ok (Created s, d1) -> step (now R) d0 d1 -> rtc any_step d1 d2 ->
  idem_scope (st_snapshot (create_task q')) = idem_scope s ->
  create_atomic P q' R' d2 = Ok (o, d3) ->
  d3 = d2 /\ exists r, tasks d2 !! task_id s = Some r /\
    o = if decide (fingerprint (idempotency (st_snapshot (create_task q'))) = fingerprint (idempotency s))
        then Existing (snapshot r) else FingerprintConflict.
Proof.
  intros Hs Hcr Hst Hs' Hsc Hc. assert (S0 : store_ok d0) by (by apply (steps_ok _ _ Hs), empty_ok).
  pose proof (step_ok _ _ _ Hst S0) as S1. pose proof (steps_ok _ _ Hs' S1) as S2.
  assert (Hrow : exists r1, tasks d1 !! task_id s = Some r1 /\ snapshot r1 = s).
  { unfold create_atomic in Hcr. inv_txn. destruct (idem_index d0 !! _) as [[dig ex]|].
    - match goal with H : (if ?b then _ else _) _ = _ |- _ => destruct b; [by inv_txn|] end. inv_txn.
      match goal with H : (match ?x with _ => _ end) _ = _ |- _ => by destruct x; inv_txn end.
    - unfold insert_task in *. inv_txn. match goal with H : append_outbox _ _ = _ |- _ => apply append_outbox_ok in H as -> end.
      match goal with H : insert_task_event _ _ _ _ = _ |- _ => apply insert_event_ok in H as -> end.
      match goal with H : Created _ = Created _ |- _ => injection H as -> end. simpl. rewrite lookup_insert_eq. eauto. }
  destruct Hrow as (r1 & Hr1 & <-).
  destruct (steps_evolve d1 d2 _ r1 Hs' S1 Hr1) as (r2 & Hr2 & E1 & E2 & _ & _).
  pose proof (ro_index _ _ _ (so_rows _ S2 _ _ Hr2)) as Hidx. rewrite E1, E2 in Hidx.
  unfold create_atomic in Hc. inv_txn.
  match goal with H : with_authoritative_creation_time _ _ = Ok ?n |- _ => rename H into Hw; rename n into s' end.
  assert (idem_scope s' = idem_scope (snapshot r1) /\
          fingerprint (idempotency s') = fingerprint (idempotency (st_snapshot (create_task q')))) as [Esc Efp].
  { unfold with_authoritative_creation_time, checked_add_time in Hw. inv_ok. destruct (_ <=? time_max); [|done]. inv_ok. by subst s'. }
  rewrite Esc, Hidx, Efp in *. case_bool_decide as Eb; simpl in *; inv_txn.
  - match goal with H : select_task_for_update _ _ = _ |- _ => apply select_task_ok in H as [-> ->] end. rewrite Hr2 in *. inv_txn.
    match goal with H : decode_task_record _ _ _ = _ |- _ => apply decode_record_ok in H as [-> ->] end.
    split; [done|]. exists r2. split; [done|]. by rewrite decide_True.
  - split; [done|]. exists r2. split; [done|]. by rewrite decide_False by congruence.
Qed.

(** ** Fencing *)
(** No row is leased to the holder of the fence. *)
Definition unleased d (f : Fence) : Prop := forall r, tasks d !! fence_task f = Some r -> exact_lease (lease r) f = false.
Lemma unleased_evolves t d d' f r : tasks d !! fence_task f = Some r -> fence_claimed_at f < t -> evolves t d d' ->
  unleased d f -> unleased d' f.
Proof.
  intros Hr Ht He Hu r' Hr'. destruct (He _ _ Hr) as (r1 & Hr1 & E). simplify_eq. specialize (Hu r Hr).
  destruct (re_lease _ _ _ E) as [-> |[-> |(l & -> & Hl)]]; [done | done|]. simpl.
  destruct (Z.eqb_spec (lease_claimed_at l) (fence_claimed_at f)); [lia | by rewrite andb_false_r].
Qed.
Lemma run_unleased t d t' d' f r : run t d t' d' -> store_ok d -> tasks d !! fence_task f = Some r ->
  fence_claimed_at f <= t -> unleased d f -> unleased d' f.
Proof.
  intros Hrun. revert r. induction Hrun as [|t d t1 d1 t2 d2 Hlt Hs _ IH]; intros r S Hr Ht Hu; [done|].
  pose proof (step_evolves _ _ _ Hs S) as He. destruct (He _ _ Hr) as (r1 & Hr1 & _).
  apply (IH r1); [by eapply step_ok | done | lia|]. by eapply unleased_evolves; [| |exact He|]; [| lia |].
Qed.
Lemma run_row t d t' d' id r : run t d t' d' -> store_ok d -> tasks d !! id = Some r -> exists r', tasks d' !! id = Some r'.
Proof.
  intros Hrun. revert r. induction Hrun as [|t d t1 d1 t2 d2 _ Hs _ IH]; intros r S Hr; [eauto|].
  destruct (step_evolves _ _ _ Hs S _ _ Hr) as (r1 & Hr1 & _). by eapply IH; [eapply step_ok|].
Qed.
(** What a worker holding the fence may not do. *)
Definition refused d (f : Fence) : Prop := forall R,
  (forall s o d', settle_execution P f s R d = Ok (o, d') -> o = SettleStale /\ d' = d) /\
  (forall round o d', require_input P f round R d = Ok (o, d') -> o = SettleStale /\ d' = d) /\
  (forall o d', abandon_execution P f R d = Ok (o, d') -> o = AbandonStale /\ d' = d).
Lemma unleased_refused d f r : tasks d !! fence_task f = Some r -> unleased d f -> refused d f.
Proof.
  intros Hr Hu R. specialize (Hu r Hr). repeat split; intros; unfold settle_execution, require_input, abandon_execution in *; inv_txn;
    match goal with H : select_task_for_update _ _ = _ |- _ => apply select_task_ok in H as [-> ->] end; rewrite Hr in *; inv_txn;
    match goal with H : decode_task_record _ _ _ = _ |- _ => apply decode_record_ok in H as [-> ->] end;
    rewrite Hu in *; simpl in *; by inv_txn.
Qed.
(** How a fence is lost: its holder ended the execution, or another claim took over. *)
Inductive fence_lost d (f : Fence) (R : Readings) : Db -> Prop :=
| lost_settled s n d' : settle_execution P f s R d = Ok (Applied n, d') -> fence_lost d f R d'
| lost_asked round n d' : require_input P f round R d = Ok (Applied n, d') -> asked_round round (fence_generation f) ->
    fence_lost d f R d'
| lost_abandoned o d' : abandon_execution P f R d = Ok (o, d') -> o = Released \/ o = AbandonCancelled -> fence_lost d f R d'
| lost_taken q l d' : claim_execution P q R d = Ok (Leased l, d') -> claim_task_id q = fence_task f ->
    fence_claimed_at f < now R -> fence_lost d f R d'.
Lemma lost_unleased d f R d' : store_ok d -> fence_lost d f R d' ->
  exists r, tasks d' !! fence_task f = Some r /\ exact_lease (lease r) f = false.
Proof.
  intros S. assert (Hcommit : forall r tr kind n d1 d2, tasks d !! fence_task f = Some r -> tasks d1 = tasks d ->
    commit_transition P r tr (now R) None kind d1 = Ok (n, d2) -> exists r', tasks d2 !! fence_task f = Some r' /\ lease r' = None).
  { intros r tr kind n d1 d2 Hr E1 (Ht & _ & _ & _ & ->)%commit_transition_ok.
    exists {| snapshot := n; execution := execution r; lease := None |}. split; [|done]. simpl.
    rewrite (same_task_id _ _ (transition_identity _ _ _ _ _ Ht)), (ro_id _ _ _ (so_rows _ S _ _ Hr)), E1. apply lookup_insert_eq. }
  assert (Hdone : forall r c d2 u d3, complete_delivery_receipt c R d2 = Ok (u, d3) -> tasks d2 !! fence_task f = Some r ->
    tasks d3 !! fence_task f = Some r).
  { intros r c d2 u d3 Hc%leaves_complete Hr. by rewrite Hc. }
  intros [s n d2 Hs|rd n d2 Hs A|o d2 Hs Ho|q l d2 Hs Hq Hlt].
  - unfold settle_execution in Hs. open_row r Hr. early E1. inv_txn.
    match goal with H : resume_delivery_receipt _ _ _ = _ |- _ => apply leaves_resume in H as E2 end.
    edestruct Hcommit as (r' & Hr' & Hl); [done | done | done|]. exists r'. split; [by eapply Hdone | by rewrite Hl].
  - unfold require_input in Hs. open_row r Hr. early E1. inv_txn.
    match goal with H : validate_new_input_keys _ _ _ = _ |- _ => apply leaves_keys in H as E0 end.
    match goal with H : resume_delivery_receipt _ _ _ = _ |- _ => apply leaves_resume in H as E2 end.
    edestruct Hcommit as (r' & Hr' & Hl); [done | by rewrite E2 | done|]. exists r'. split; [by eapply Hdone | by rewrite Hl].
  - assert (o <> AbandonNotFound) as Hno1 by naive_solver. assert (o <> AbandonStale) as Hno2 by naive_solver. clear Ho.
    unfold abandon_execution in Hs. open_row r Hr. early E1. inv_txn.
    match goal with H : resume_delivery_receipt _ _ _ = _ |- _ => apply leaves_resume in H as E2 end.
    match goal with H : (if ?b then _ else _) _ = Ok _ |- _ => destruct b end; inv_txn.
    + match goal with H : persist_lease _ _ _ _ = _ |- _ => apply persist_lease_ok in H as (old & Hold & _ & _ & ->) end.
      match goal with H : insert_task_event _ _ _ _ = _ |- _ => apply insert_event_ok in H as -> end. simpl.
      rewrite (ro_id _ _ _ (so_rows _ S _ _ Hr)), lookup_insert_eq. eauto.
    + edestruct Hcommit as (r' & Hr' & Hl); [done | done | done|]. exists r'. split; [by eapply Hdone | by rewrite Hl].
  - destruct (claim_leased _ _ _ _ _ _ S Hs) as (r & _ & _ & _ & _ & _ & Hr'). rewrite Hq in Hr'. eexists. split; [done|]. simpl.
    destruct (Z.eqb_spec (now R) (fence_claimed_at f)); [lia | by rewrite andb_false_r].
Qed.
Lemma lost_step d f R d' : store_ok d -> fence_lost d f R d' -> store_ok d'.
Proof. intros S [s n d2 Hs|rd n d2 Hs A|o d2 Hs _|q l d2 Hs _ _]; [by eapply settle_ok | by eapply require_ok | by eapply abandon_ok | by eapply claim_ok]. Qed.
(** C6. Leases fence workers: once an execution was settled, paused for input or given
    up, or another worker claimed the task, whoever still holds the old lease can
    never settle, pause or give up the task again, whatever happens in between. *)
Theorem superseded_worker_fenced d f R d1 t d2 : rtc any_step empty_db d -> fence_claimed_at f <= now R ->
  fence_lost d f R d1 -> run (now R) d1 t d2 -> refused d2 f.
Proof.
  intros Hs Hc Hl Hrun. assert (S : store_ok d) by (by apply (steps_ok _ _ Hs), empty_ok).
  destruct (lost_unleased _ _ _ _ S Hl) as (r & Hr & Hx). pose proof (lost_step _ _ _ _ S Hl) as S1.
  assert (Hu : unleased d2 f).
  { eapply run_unleased; try done. intros r' Hr'. by simplify_eq. }
  assert (Hrow : exists r2, tasks d2 !! fence_task f = Some r2).
  { by eapply run_row. }
  destruct Hrow as (r2 & Hr2). by eapply unleased_refused.
Qed.

(** ** What a lease carries *)
Lemma decode_history_content s rows : forall n d h d', (forall m row, (m, row) ∈ rows -> round_row_ok s m row) ->
  decode_history P s n rows d = Ok (h, d') -> h = completed_round ∘ snd <$> rows.
Proof.
  induction rows as [|[m row] rows IH]; intros n d h d' Hall Hd; simpl in Hd; inv_txn; [done|].
  destruct (Hall m row) as (_ & _ & _ & _ & Hdec); [by left|]. 
  match goal with H : decode_completed_round _ = Ok ?x |- _ => assert (x = completed_round row) as -> by congruence end.
  rewrite fmap_cons. f_equal. eapply IH; [|done]. intros. apply Hall. by right.
Qed.
Lemma decoded_round_answered round : decode_completed_round round = Ok round -> all_answered (exchanges round) = true.
Proof.
  unfold decode_completed_round. intros Hd. inv_ok.
  match goal with H : updated_round (apply_responses ?p ?r) = round |- _ => destruct (apply_responses_fixed p r) as (_ & _ & Hc); rewrite H in Hc end.
  match goal with H : (_ || _) = false |- _ => apply orb_false_iff in H as [_ Hn%negb_false_iff] end. congruence.
Qed.
Lemma claim_history d q R l d' : store_ok d -> claim_execution P q R d = Ok (Leased l, d') ->
  exists r, tasks d !! claim_task_id q = Some r /\ leased_task l = {| st_snapshot := snapshot r; st_execution := execution r |} /\
    state (snapshot r) = Working /\ cancellation_requested (snapshot r) = false /\ now R < expires_at (snapshot r) /\
    lease_is_live (lease r) (now R) = false /\ generation (snapshot r) = claim_generation q /\
    length (input_history l) = Z.to_nat (generation (snapshot r) - 1) /\
    forall i round, input_history l !! i = Some round ->
      number round = Z.of_nat i + 1 /\ all_answered (exchanges round) = true.
Proof.
  intros S Hc. unfold claim_execution in Hc.
  open_row r Hr. early E1. rewrite !orb_false_iff, !negb_false_iff, !Z.eqb_eq in E1. destruct E1 as [[_ Hg] Hw]. early E2.
  match goal with H : (if ?b then _ else _) _ = Ok _ |- _ => destruct b eqn:E3 end.
  { unfold claim_inactive in *. inv_txn. match goal with H : match ?x with _ => _ end _ = Ok _ |- _ => destruct x; by inv_txn end. }
  apply orb_false_iff in E3 as [Hexp Hcan]. inv_txn. pose proof (so_rows _ S _ _ Hr) as [Rid _ _ _ Rh _ _ _].
  match goal with H : release_stale _ _ _ = _ |- _ => assert (Er1 := H) end.
  match goal with H : claim_delivery_receipt _ _ _ _ = _ |- _ => assert (Er2 := H) end.
  match goal with H : match ?x with _ => _ end _ = Ok (Leased _, _) |- _ => destruct x; [|by inv_txn] end. inv_txn.
  match goal with H : load_input_history _ _ _ = Ok (?h0, _) |- _ => rename H into Hload; rename h0 into hist end.
  match goal with H : Leased _ = Leased _ |- _ => injection H as -> end. simpl. exists r. repeat (split; [done|]).
  split; [by destruct (state (snapshot r))|]. split; [done|]. split; [lia|]. split; [done|]. split; [done|].
  match type of Hload with load_input_history _ _ ?dx = _ => assert (Erd : input_rounds dx = input_rounds d) end.
  { apply claim_receipt_ok in Er2 as [(_ & -> & _)|(_ & _ & ->)]; simpl; unfold release_stale in Er1; destruct (lease r); inv_txn; try done;
      match goal with H : resume_delivery_receipt _ _ _ = _ |- _ => apply resume_receipt_ok in H as (-> & rc & _ & _ & ->) end;
      match goal with H : release_delivery_receipt _ _ = _ |- _ => apply release_receipt_ok in H as -> end; done. }
  unfold load_input_history in Hload. inv_txn.
  match goal with H : decode_history _ _ _ ?rows _ = _ |- _ => assert (Hrr : rows = round_rows (claim_task_id q) d)
    by (unfold round_rows; by rewrite Erd, Rid); rewrite Hrr in * end.
  pose proof (round_rows_numbers d _ r S Hr) as Hnum.
  assert (Hrows : forall m row, (m, row) ∈ round_rows (claim_task_id q) d -> round_row_ok (snapshot r) m row).
  { intros m row Hin%round_rows_elem. specialize (Rh m). by rewrite Rid, Hin in Rh. }
  match goal with H : decode_history _ _ _ _ _ = _ |- _ => apply decode_history_content in H; [|done] end. subst hist.
  split. { rewrite length_fmap, <- (length_fmap fst), Hnum, length_seqZ. done. }
  intros i round. rewrite list_lookup_fmap. destruct (round_rows (claim_task_id q) d !! i) as [[m row]|] eqn:Ei; [|done].
  simpl. intros [= <-]. destruct (Hrows m row) as (_ & _ & Hn & _ & Hdec); [by eapply list_elem_of_lookup_2|].
  split; [|by apply decoded_round_answered]. rewrite Hn.
  assert (Em : (fst <$> round_rows (claim_task_id q) d) !! i = Some m) by (by rewrite list_lookup_fmap, Ei).
  rewrite Hnum in Em. apply lookup_seqZ in Em as [-> _]. lia.
Qed.
(** A claim hands the worker the task's answered rounds: an unexpired, uncancelled
    working task nobody else holds, with the completed rounds of all its earlier
    generations in order, each fully answered. *)
Theorem lease_carries_history d q R l d' : rtc any_step empty_db d -> claim_execution P q R d = Ok (Leased l, d') ->
  exists r, tasks d !! claim_task_id q = Some r /\ leased_task l = {| st_snapshot := snapshot r; st_execution := execution r |} /\
    state (snapshot r) = Working /\ cancellation_requested (snapshot r) = false /\ now R < expires_at (snapshot r) /\
    lease_is_live (lease r) (now R) = false /\ generation (snapshot r) = claim_generation q /\
    length (input_history l) = Z.to_nat (generation (snapshot r) - 1) /\
    forall i round, input_history l !! i = Some round ->
      number round = Z.of_nat i + 1 /\ all_answered (exchanges round) = true.
Proof. intros Hs. apply claim_history. by apply (steps_ok _ _ Hs), empty_ok. Qed.
End steps.
