(* ===== verification/TaskServiceTheorems.v ===== *)
(** * Theorems about the task service and worker *)
From S2P Require Import Prelude Machine Text Ordered AuthCore TaskDomain TaskStore TaskRepository TaskFacts TaskInvariant.
From S2P Require Import TaskSteps TaskSafety TaskProgress TaskHistory TaskService TaskTheorems.

Section service_theorems.
Context `{TaskPayloads} (P : TaskProtector) (extension_id : string).
Implicit Types (d : Db).

(** ** Cancellation *)
(** The task is over or will be: what a cancellation promises. *)
Definition cancellation_seen d (own : TaskOwner) (id : Z) : Prop :=
  exists r, tasks d !! id = Some r /\ owner (snapshot r) = own /\
    (is_terminal (state (snapshot r)) = true \/ cancellation_requested (snapshot r) = true).
Definition owned_row d (own : TaskOwner) (id : Z) (s : TaskSnapshot) : Prop :=
  exists r, tasks d !! id = Some r /\ owner (snapshot r) = own /\ snapshot r = s.

Lemma get_snapshot own id R d o d' : get P own id R d = Ok (o, d') -> store_ok d ->
  forall s, o = Some s -> owned_row d' own id s.
Proof.
  unfold get. intros Hg S s. inv_txn.
  match goal with H : select_owned_task_for_update _ _ _ = Ok (?o, _) |- _ => apply select_owned_ok in H as [-> Hsel]; destruct o as [r|] end;
    [|by inv_txn]. destruct (Hsel r eq_refl) as [Hr Ho]. inv_txn.
  match goal with H : decode_task_record _ _ _ = Ok _ |- _ => apply decode_record_ok in H as [-> ->] end.
  destruct (_ && _); inv_txn; intros [= <-].
  - match goal with H : expire_record _ _ _ _ = _ |- _ => apply (expire_record_ok _ _ _ _ _ _ _ S Hr) in H as [_ M] end.
    eexists. rewrite (mo_new _ _ _ _ _ _ _ _ M), lookup_insert_eq. split; [done|]. simpl. split; [|done].
    etrans; [apply (same_owner _ _ (transition_identity _ _ _ _ _ (mo_next _ _ _ _ _ _ _ _ M))) | done].
  - exists r. done.
Qed.
(** What the outcomes of a cancelling transaction say of the tables. *)
Lemma moved_seen d d' id r n tr t k l : moves_on d d' id r {| snapshot := n; execution := execution r; lease := l |} tr t k ->
  (is_terminal (state n) = true \/ cancellation_requested n = true) -> cancellation_seen d' (owner (snapshot r)) id.
Proof.
  intros M Hn. eexists. rewrite (mo_new _ _ _ _ _ _ _ _ M), lookup_insert_eq. split; [done|]. split; [|done]. simpl.
  apply (same_owner _ _ (transition_identity _ _ _ _ _ (mo_next _ _ _ _ _ _ _ _ M))).
Qed.
Lemma fail_terminal s ev f t n : transitioned s ev (Fail f) t = Ok n -> is_terminal (state n) = true.
Proof. intros (_ & _ & _ & _ & Hb)%transitioned_ok. unfold transition_body, to_state in Hb. inv_ok. by subst. Qed.
Lemma cancel_terminal s ev t n : transitioned s ev Cancel t = Ok n -> is_terminal (state n) = true.
Proof. intros (_ & _ & _ & _ & Hb)%transitioned_ok. unfold transition_body in Hb. inv_ok. by subst. Qed.
Lemma request_requested s ev t n : transitioned s ev RequestCancellation t = Ok n -> cancellation_requested n = true.
Proof.
  intros (_ & _ & _ & _ & Hb)%transitioned_ok. unfold transition_body in Hb.
  destruct (cancellation_requested s) eqn:E; inv_ok; by subst.
Qed.
Lemma cancel_atomic_seen q R d o d' : cancel_atomic P q R d = Ok (o, d') -> store_ok d ->
  match o with
  | CancelNotFound => True
  | CancelStale s => d' = d /\ owned_row d (cn_owner q) (cn_task_id q) s
  | _ => cancellation_seen d' (cn_owner q) (cn_task_id q)
  end.
Proof.
  unfold cancel_atomic. intros Hc S. inv_txn.
  match goal with H : select_owned_task_for_update _ _ _ = Ok (?o, _) |- _ => apply select_owned_ok in H as [-> Hsel]; destruct o as [r|] end;
    [|by inv_txn]. destruct (Hsel r eq_refl) as [Hr Ho]. inv_txn.
  match goal with H : decode_task_record _ _ _ = Ok _ |- _ => apply decode_record_ok in H as [-> ->] end.
  match goal with H : (if ?b then _ else _) _ = Ok _ |- _ => destruct b eqn:E1 end; [inv_txn; split; [done | by exists r]|].
  destruct (is_terminal (state (snapshot r))) eqn:Hnt; [inv_txn; exists r; auto|].
  destruct (cancellation_requested (snapshot r)) eqn:Hcan; [inv_txn; exists r; auto|]. rewrite <- Ho.
  destruct (_ <=? _); inv_txn.
  - match goal with H : expire_record _ _ _ _ = _ |- _ => apply (expire_record_ok _ _ _ _ _ _ _ S Hr) in H as [_ M] end.
    apply (moved_seen _ _ _ _ _ _ _ _ _ M). left. by eapply fail_terminal, (mo_next _ _ _ _ _ _ _ _ M).
  - destruct (lease_live _ _ _); inv_txn;
      match goal with H : append_outbox _ _ = _ |- _ => apply append_outbox_ok in H as -> end.
    + match goal with H : commit_transition _ _ _ _ _ _ _ = _ |- _ => apply commit_transition_ok in H as (Ht & Hcon & Hv & _ & ->) end.
      eexists. simpl. pose proof (transition_identity _ _ _ _ _ Ht) as I.
      rewrite (same_task_id _ _ I), (ro_id _ _ _ (so_rows _ S _ _ Hr)), lookup_insert_eq. split; [done|]. simpl.
      split; [apply (same_owner _ _ I)|]. right. by eapply request_requested.
    + match goal with H : resume_if_leased _ _ = _ |- _ => rename H into H1 end.
      match goal with H : commit_transition _ _ _ _ _ _ _ = _ |- _ => rename H into H2 end.
      match goal with H : complete_optional _ _ _ = _ |- _ => rename H into H3 end.
      destruct (close_optional_ok P d _ r Cancel (now R) R (fun _ => "cancelled"%string) _ _ _ _ _ _ S Hr eq_refl ltac:(done) I H1 H2 H3) as [_ M].
      destruct (moved_seen _ _ _ _ _ _ _ _ _ M) as (r' & Hr' & Hseen); [left; by eapply cancel_terminal, (mo_next _ _ _ _ _ _ _ _ M)|].
      by exists r'.
Qed.

(** Whatever the rest of the system does between two calls keeps the invariant. *)
Definition environment_ok (env : nat -> Db -> Db) : Prop := forall k d, store_ok d -> store_ok (env k d).
Lemma cancel_loop_seen env rs n : forall own id job s w u w', environment_ok env -> store_ok (db w) ->
  owned_row (db w) own id s -> cancel_loop P env rs n own id job s w = (Ok u, w') -> cancellation_seen (db w') own id.
Proof.
  induction n as [|n IH]; intros own id job s w u w' Henv S Hrow Hl; simpl in Hl; [done|].
  destruct (is_terminal (state s)) eqn:Ht.
  { injection Hl as _ <-. destruct Hrow as (r & Hr & Ho & <-). exists r. auto. }
  unfold mbind, st_bind, lift_result in Hl. destruct (cancellation_intent _ _ _ _ _) as [i|] eqn:Ei; [|done].
  unfold repository, call in Hl. pose proof (Henv (calls w) _ S) as S1.
  destruct (cancel_atomic P _ _ _) as [[o d']|] eqn:Ec; simpl in Hl; [|done].
  pose proof (cancel_atomic_seen _ _ _ _ _ Ec S1) as Hseen. simpl in Hseen.
  destruct o; try done.
  - destruct Hseen as [-> Hown]. by eapply IH in Hl.
  - injection Hl as _ <-. done.
  - injection Hl as _ <-. done.
  - injection Hl as _ <-. done.
  - injection Hl as _ <-. done.
Qed.
(** A successful [tasks/cancel] has stopped the task: whatever other transactions
    run between its calls, when it returns without an error the caller's task is
    finished or its cancellation is recorded. *)
Theorem cancel_takes_effect env rs c id job w u w' : environment_ok env -> store_ok (db w) ->
  cancel P extension_id env rs c id job w = (Ok u, w') -> cancellation_seen (db w') (owner_from_context c) id.
Proof.
  intros Henv S Hc. unfold cancel, fetch, repository, call, lift_result, mbind, st_bind in Hc.
  set (n := MAX_CANCELLATION_ATTEMPTS) in Hc. clearbody n.
  destruct (require_tasks_extension extension_id c) as [[]|]; [|done]. pose proof (Henv (calls w) _ S) as S1.
  destruct (get P _ _ _ _) as [[o d']|] eqn:Eg; simpl in Hc; [|done].
  destruct o as [s|]; simpl in Hc; [|done]. eapply cancel_loop_seen in Hc; try done.
  - simpl. by eapply get_ok.
  - simpl. by eapply get_snapshot.
Qed.

(** The identifiers of the task's request, as the envelopes of its jobs need them. *)
Definition identity_ok (ident : TaskIdentity) : bool :=
  uuid7 (correlation_id ident) && match causation_id ident with Some c => uuid7 c | None => true end.
Lemma envelope_ok kind job id gen own ident : identity_ok ident = true ->
  job_envelope kind job id gen own ident = Ok {| intent_kind := kind; intent_job_id := job; intent_task_id := id;
    intent_generation := gen; intent_tenant := owner_tenant_id own; intent_correlation := correlation_id ident;
    intent_causation := causation_id ident |}.
Proof.
  unfold identity_ok, job_envelope. rewrite andb_true_iff. intros [Hu Hc]. rewrite Hu.
  destruct (causation_id ident); [rewrite Hc|]; reflexivity.
Qed.
Lemma cancel_quiet_outcome q R d : healthy P d R ->
  forall r, tasks d !! cn_task_id q = Some r -> owner (snapshot r) = cn_owner q -> version (snapshot r) = cn_version q ->
  generation (snapshot r) = cn_generation q -> validate_cancellation_intent (snapshot r) (cancellation_intent_of q) = true ->
  exists o d', cancel_atomic P q R d = Ok (o, d') /\ (forall s, o <> CancelStale s) /\ o <> CancelNotFound.
Proof.
  intros He r Hr Ho Hv Hg Hval. destruct (cancel_runs P d R q He) as (o & d' & Hc); [intros r' Hr' _; by simplify_eq|].
  exists o, d'. split; [done|]. unfold cancel_atomic in Hc.
  assert (Hsel : select_owned_task_for_update (cn_owner q) (cn_task_id q) d = Ok (Some r, d)).
  { unfold select_owned_task_for_update, mbind, txn_bind, txn_get. by rewrite Hr, decide_True. }
  rewrite (bind_runs _ _ _ _ _ Hsel), (bind_runs _ _ _ _ _ (decode_runs P d _ r (he_protector _ _ _ He) (he_store _ _ _ He) Hr (he_documents _ _ _ He _ _ Hr))), Hv, Hg, !Z.eqb_refl in Hc.
  simpl in Hc. destruct (is_terminal _); [by inv_txn|]. destruct (cancellation_requested _); [by inv_txn|]. destruct (_ <=? _); [by inv_txn|].
  inv_txn. destruct (lease_live _ _ _); by inv_txn.
Qed.
(** Without concurrent writers a cancellation succeeds: on a healthy store the
    first attempt already takes effect, and the service never reports a race. *)
Theorem quiet_cancel_succeeds rs c id job w r : healthy P (db w) (rs (calls w)) -> healthy P (db w) (rs (S (calls w))) ->
  require_tasks_extension extension_id c = Ok tt -> tasks (db w) !! id = Some r ->
  owner (snapshot r) = owner_from_context c -> identity_ok (identity (snapshot r)) = true ->
  exists w', cancel P extension_id (fun _ d => d) rs c id job w = (Ok tt, w').
Proof.
  intros H1 H2 Hext Hr Ho Hid. pose proof (he_store _ _ _ H1) as S. unfold cancel, lift_result.
  unfold mbind at 1, st_bind at 1. rewrite Hext. destruct (get_runs P (db w) _ (owner_from_context c) id H1) as (o & d' & Eg).
  unfold fetch, repository, call. unfold mbind, st_bind. rewrite Eg. simpl map_err.
  assert (Hrow : exists s, o = Some s /\ (is_terminal (state s) = true \/ (d' = db w /\ s = snapshot r))).
  { unfold get in Eg. assert (Hsel : select_owned_task_for_update (owner_from_context c) id (db w) = Ok (Some r, db w)).
    { unfold select_owned_task_for_update, mbind, txn_bind, txn_get. by rewrite Hr, decide_True. }
    rewrite (bind_runs _ _ _ _ _ Hsel), (bind_runs _ _ _ _ _ (decode_runs P _ _ r (he_protector _ _ _ H1) S Hr (he_documents _ _ _ H1 _ _ Hr))) in Eg.
    destruct (_ && _); inv_txn; [|eauto]. eexists. split; [done|]. left.
    match goal with H : expire_record _ _ _ _ = _ |- _ => apply (expire_record_ok _ _ _ _ _ _ _ S Hr) in H as [_ M] end.
    by eapply fail_terminal, (mo_next _ _ _ _ _ _ _ _ M). }
  destruct Hrow as (s & -> & Hs). simpl. destruct (is_terminal (state s)) eqn:Ht; [by eexists|].
  destruct Hs as [|[-> ->]]; [done|]. unfold lift_result. unfold cancellation_intent. rewrite envelope_ok by done.
  unfold repository, call, mbind, st_bind. cbn [calls db signals].
  match goal with |- context [cancel_atomic P ?q ?R (db w)] => destruct (cancel_quiet_outcome q R (db w) H2 r) as (o & d2 & Ec & Hns & Hnf) end; try done.
  { unfold validate_cancellation_intent, validate_event_identity. rewrite Ho, (ro_id _ _ _ (so_rows _ S _ _ Hr)). simpl.
    by rewrite !Z.eqb_refl, !bool_decide_eq_true_2. }
  rewrite Ec. cbn [map_err]. destruct o as [|s0|s0|s0|s0|s0]; [done | by destruct (Hns s0) | eexists; reflexivity..].
Qed.

(** ** Rounds the worker asks *)
Lemma pending_exchanges_ok l : forall m, pending_exchanges l = Ok m ->
  forall k e, m !! k = Some e -> exchange_ok k e /\ is_pending e = true.
Proof.
  induction l as [|[k v] l IH]; intros m Hp; simpl in Hp; inv_ok; [subst; by intros|]. subst m. intros k' e'.
  rewrite lookup_insert_Some. intros [[<- <-]|[_ He]]; [|by eapply IH].
  match goal with H : InputExchange_pending v = Ok ?x |- _ => rename H into Hpe; rename x into e0 end.
  assert (He0 : e0 = {| request := v; response := None |}).
  { unfold InputExchange_pending in Hpe. inv_ok. destruct (normalized_request v); [|done]. inv_ok. done. }
  subst e0. split; [|done]. split; [by rewrite Hok|]. simpl. split; [by rewrite Hpe | done].
Qed.
Lemma from_tool_asked n st adapted round : from_tool_input_required n st adapted = Ok round -> asked_round round n.
Proof.
  unfold from_tool_input_required. intros Hf. inv_ok.
  match goal with H : TaskRequestState_new _ = Ok _ |- _ => pose proof (request_state_new _ _ H) as Est; rename H into Hst end.
  match goal with H : pending_exchanges _ = Ok _ |- _ => pose proof (pending_exchanges_ok _ _ H) as Hall end.
  match goal with H : InputRound_new _ _ _ = Ok _ |- _ => apply round_new_iff in H as (-> & Hn & Hsz & Hfit) end.
  split; [| |done].
  - apply restored_round_iff. split; [|done]. split; simpl; try done; [congruence | intros k e He; by apply Hall].
  - intros k e He. by apply (Hall k e).
Qed.
(** The worker numbers the rounds it asks as the store expects: a round projected
    from a tool's request under a lease is valid, unanswered and carries the number
    of the task's generation. *)
Theorem worker_rounds_admissible d q R l d' st adapted round : rtc (any_step P) empty_db d ->
  claim_execution P q R d = Ok (Leased l, d') -> project_input_round l st adapted = Ok round ->
  asked_round round (claim_generation q).
Proof.
  intros Hs Hc Hp. assert (S : store_ok d) by (by apply (steps_ok P _ _ Hs), empty_ok).
  destruct (claim_history P d q R l d' S Hc) as (r & Hr & _ & _ & _ & _ & _ & Hg & Hlen & Hhist).
  pose proof (constraints_positive _ (lo_constraints _ (ro_local _ _ _ (so_rows _ S _ _ Hr)))) as Hpos.
  unfold project_input_round in Hp. inv_ok. apply from_tool_asked in Hok0 as A.
  match goal with H : match last _ with _ => _ end = Some ?x |- _ => rename H into Hn; rename x into n end.
  assert (n = claim_generation q) as ->; [|done]. destruct (last (input_history l)) as [rd|] eqn:El.
  - apply checked_add_Some in Hn as [-> _]. rewrite last_lookup in El. destruct (Hhist _ _ El) as [Hnum _].
    rewrite Hnum, Hlen. assert (input_history l <> []) as Hne by (intros E; by rewrite E in El).
    destruct (input_history l); [done|]. simpl in Hlen. lia.
  - injection Hn as <-. apply last_None in El. rewrite El in Hlen. simpl in Hlen. lia.
Qed.

End service_theorems.
