(* ===== verification/TaskLimits.v ===== *)
(** * Where durable tasks get stuck

    Behaviour of the task repository and worker that the code does not intend,
    stated as theorems about the definitions that model it. *)
From S2P Require Import Prelude Machine Text Ordered AuthCore TaskDomain TaskStore TaskRepository TaskFacts TaskInvariant.
From S2P Require Import TaskSteps TaskSafety TaskProgress TaskHistory TaskService TaskTheorems.

Section limits.
Context `{TaskPayloads} (P : TaskProtector).
Implicit Types (d : Db).

(** ** A row that no longer decodes *)
Definition unreadable d (id : Z) : Prop :=
  exists r, tasks d !! id = Some r /\ decode_stored_task (snapshot r) (execution r) = false.
Lemma decode_unreadable r d : decode_stored_task (snapshot r) (execution r) = false -> is_ok (decode_task_record P r d) = false.
Proof.
  intros Hd. destruct (decode_task_record P r d) as [[r' d']|] eqn:E; [|done]. unfold decode_task_record in E. inv_txn.
  match goal with H : negb (_ && _) = false |- _ => by rewrite Hd in H end.
Qed.
Lemma bind_not_ok {A B} (m : Txn A) (f : A -> Txn B) d : is_ok (m d) = false -> is_ok ((m ≫= f) d) = false.
Proof. unfold mbind, txn_bind. by destruct (m d) as [[]|]. Qed.
Lemma unreadable_owned own id d r {A} (f : TaskRecord -> Txn A) (none : Txn A) : tasks d !! id = Some r -> owner (snapshot r) = own ->
  decode_stored_task (snapshot r) (execution r) = false ->
  is_ok ((select_owned_task_for_update own id ≫= fun row => match row with
    | None => none | Some row => decode_task_record P row ≫= f end) d) = false.
Proof.
  intros Hr Ho Hd. rewrite (bind_runs _ _ d (Some r) d).
  - by apply bind_not_ok, decode_unreadable.
  - unfold select_owned_task_for_update, mbind, txn_bind, txn_get. by rewrite Hr, decide_True.
Qed.
Lemma expire_rows_readable t pf rows : forall d o d', expire_rows P t pf rows d = Ok (o, d') ->
  forall r, r ∈ rows -> decode_stored_task (snapshot r) (execution r) = true.
Proof.
  induction rows as [|r0 rows IH]; intros d o d' He r; simpl in He; [by rewrite elem_of_nil|]. inv_txn.
  rewrite elem_of_cons. intros [->|Hin]; [|by eapply IH]. destruct (decode_stored_task _ _) eqn:Ed; [done|].
  match goal with H : decode_task_record _ r0 ?d1 = _ |- _ => pose proof (decode_unreadable r0 d1 Ed) as Hn; by rewrite H in Hn end.
Qed.
(** C39. A partial answer of a valid size that makes a round too large to read back ruins
    the task: the answer is acknowledged and stored, and from then on the task can neither be read
    nor cancelled, and no expiry batch that selects it succeeds. *)
Theorem oversized_answer_ruins_task d R q r round : healthy P d R -> tasks d !! up_task_id q = Some r ->
  owner (snapshot r) = up_owner q -> version (snapshot r) = up_version q -> generation (snapshot r) = up_generation q ->
  state (snapshot r) = InputRequired round -> number round = up_round q -> now R < expires_at (snapshot r) ->
  let u := apply_responses round (up_responses q) in
  responses_ok (up_responses q) -> changed u = true -> complete u = false -> ~ fits (exchanges_len (as_pairs (exchanges (updated_round u)))) ->
  exists n d', update_input_atomic P q R d = Ok (Acknowledged n, d') /\
    (forall R', is_ok (get P (up_owner q) (up_task_id q) R' d') = false) /\
    (forall q' R', cn_owner q' = up_owner q -> cn_task_id q' = up_task_id q -> is_ok (cancel_atomic P q' R' d') = false) /\
    (forall limit locked t pf, (exists r', r' ∈ take (Z.to_nat limit) (expiry_rows t locked d') /\
         task_id (snapshot r') = up_task_id q) -> is_ok (expire_batch P limit locked t pf d') = false).
Proof.
  intros He Hr Ho Hv Hg Hst Hn Hlt u Hrs Hch Hco Hbig. pose proof He as [C S Hdoc Hc _ _]. pose proof (healthy_row _ _ _ _ _ He Hr) as Hrow.
  destruct (apply_responses_fixed round (up_responses q)) as (_ & _ & Hcomp). fold u in Hcomp.
  assert (Htr : is_ok (transitioned (snapshot r) (version (snapshot r)) (RecordInput (updated_round u)) (now R)) = true).
  { apply (transition_runs P d _ _ _ (processed R)); try done; [by rewrite Hst|]. simpl. split; [done|]. exists round.
    rewrite <- Hcomp. split; [done|]. split; [apply apply_responses_successor | done]. }
  apply is_ok_ok in Htr as [n Htr]. pose proof (ro_local _ _ _ (so_rows _ S _ _ Hr)) as Rl.
  pose proof (transition_row_accepted _ _ (RecordInput (updated_round u)) _ _ Rl Htr I) as Hcon.
  assert (Hsn : state n = InputRequired (updated_round u)).
  { pose proof Htr as (_ & _ & _ & _ & Hb)%transitioned_ok. unfold transition_body, to_state in Hb. rewrite Hst in Hb. inv_ok. by subst. }
  assert (Hnf : document_fits P n (execution r) = Ok tt).
  { apply (Hdoc _ _ Hr); [by eapply transition_identity|]. right. by exists round, (up_responses q). }
  pose proof (commit_runs P d d _ r (RecordInput (updated_round u)) (now R) None (fun _ => "input_recorded"%string) n C S (Hc _ _ Hr) Hr eq_refl I Htr Hcon Hnf) as Hcom.
  set (r' := {| snapshot := n; execution := execution r; lease := None |}) in *. set (d' := put_row r' _ _ d) in Hcom.
  pose proof (transition_identity _ _ _ _ _ Htr) as Id.
  assert (Hr' : tasks d' !! up_task_id q = Some r').
  { simpl. rewrite (same_task_id _ _ Id), (ro_id _ _ _ (so_rows _ S _ _ Hr)). apply lookup_insert_eq. }
  assert (Ho' : owner (snapshot r') = up_owner q) by (rewrite <- Ho; apply (same_owner _ _ Id)).
  assert (Hdec : decode_stored_task (snapshot r') (execution r') = false).
  { apply not_true_is_false. intros (_ & _ & _ & Hval & _)%decode_spec. simpl in Hval. rewrite Hsn in Hval.
    by apply restored_round_iff in Hval as [_ ?]. }
  exists n, d'. split; [|split; [|split]].
  - unfold update_input_atomic. rewrite (bind_runs _ _ d (Some r) d)
      by (unfold select_owned_task_for_update, mbind, txn_bind, txn_get; by rewrite Hr, decide_True).
    rewrite (bind_runs _ _ _ _ _ (decode_runs P d _ r C S Hr (Hdoc _ _ Hr))), Hv, Hg, Hst, Hn, !Z.eqb_refl. simpl.
    destruct (Z.leb_spec (expires_at (snapshot r)) (now R)); [lia|]. fold u. rewrite Hch, Hco. simpl.
    by rewrite (bind_runs _ _ _ _ _ Hcom).
  - intros R'. by eapply unreadable_owned.
  - intros q' R' Eo Ei. unfold cancel_atomic. rewrite Eo, Ei. by eapply unreadable_owned.
  - intros limit locked t pf (r2 & Hin & Hid2). destruct (expire_batch P limit locked t pf d') as [[o d2]|] eqn:E; [|done].
    unfold expire_batch in E. inv_txn.
    match goal with H : expire_rows _ _ _ _ _ = _ |- _ => pose proof (expire_rows_readable _ _ _ _ _ _ H r2 Hin) as Hok end.
    apply subseteq_take in Hin. unfold expiry_rows in Hin. rewrite sort_by_perm, list_elem_of_filter, list_elem_of_fmap in Hin.
    destruct Hin as (_ & [id2 r3] & E2 & Hin%elem_of_map_to_list). cbn [snd] in E2. subst r2.
    destruct (decide (id2 = up_task_id q)) as [->|Hne].
    { assert (r3 = r') as -> by congruence. congruence. }
    simpl in Hin. rewrite (same_task_id _ _ Id), (ro_id _ _ _ (so_rows _ S _ _ Hr)), lookup_insert_ne in Hin by done.
    pose proof (ro_id _ _ _ (so_rows _ S _ _ Hin)). congruence.
Qed.

(** A redelivery that comes while the lease of an earlier attempt is live is
    acknowledged without running: a worker whose settlement failed for a transient
    reason reports that the job should be retried, but a retry before the lease ends,
    an hour later or when the task expires, is counted as done. *)
Theorem early_redelivery_acknowledged d q R l d1 R' registered execute k sg : rtc (any_step P) empty_db d ->
  claim_execution P q R d = Ok (Leased l, d1) -> (forall s, @open_task _ P s = Ok tt) ->
  now R' < postgres_timestamp (Z.min (saturating_add_time (now R) EXECUTION_TIMEOUT) (expires_at (st_snapshot (leased_task l)))) ->
  handle P (fun _ d => d) (fun _ => R') registered execute
    {| job_id := claim_job_id q; job_task := claim_task_id q; job_generation := claim_generation q |}
    {| calls := k; db := d1; signals := sg |} =
  (Succeeded, {| calls := S k; db := d1; signals := sg |}).
Proof.
  intros Hs Hc Hopen Hlt. assert (S0 : store_ok d) by (by apply (steps_ok P _ _ Hs), empty_ok).
  assert (S1 : store_ok d1) by (by eapply claim_ok). destruct (claim_leased _ _ _ _ _ _ S0 Hc) as (r & Hr & Hsn & Hj & Hg & Hw & Hr1).
  assert (Hfit : document_fits P (snapshot r) (execution r) = Ok tt).
  { unfold claim_execution in Hc. rewrite (bind_runs _ _ _ _ _ (select_runs _ _)), Hr in Hc. inv_txn. by eapply decode_record_fits. }
  rewrite Hsn in Hlt. set (r1 := with_lease r _) in Hr1. unfold handle, call. cbn [calls db signals].
  assert (Hcl : claim_execution P {| claim_task_id := claim_task_id q; claim_generation := claim_generation q; claim_job_id := claim_job_id q |}
                  R' d1 = Ok (ClaimStale, d1)).
  { unfold claim_execution. rewrite (bind_runs _ _ _ _ _ (select_runs _ _)). cbn [claim_task_id]. rewrite Hr1.
    rewrite (bind_runs _ _ d1 r1 d1).
    - simpl. rewrite Hj, Hg, Hw, !Z.eqb_refl. simpl. by destruct (Z.ltb_spec (now R')
        (postgres_timestamp (Z.min (saturating_add_time (now R) EXECUTION_TIMEOUT) (expires_at (snapshot r))))); [|lia].
    - destruct (ro_local _ _ _ (so_rows _ S1 _ _ Hr1)) as [L1 L2 _ _ _]. unfold decode_task_record.
      rewrite (bind_runs _ _ d1 tt d1) by (by rewrite Hopen). rewrite (bind_runs _ _ d1 tt d1) by (by unfold r1; simpl; rewrite Hfit).
      by rewrite (bind_runs _ _ d1 tt d1) by (by rewrite L1, L2). }
  cbn [job_task job_generation job_id]. by rewrite Hcl.
Qed.
(** A worker that gives up a cancelled execution after the task has expired fails:
    giving up always tries to cancel, which an expired task refuses. *)
Theorem late_abandon_fails d R f r : healthy P d R -> tasks d !! fence_task f = Some r -> exact_lease (lease r) f = true ->
  current_job_id (snapshot r) = fence_job f -> generation (snapshot r) = fence_generation f ->
  cancellation_requested (snapshot r) = true -> expires_at (snapshot r) <= now R ->
  abandon_execution P f R d = Err Integrity.
Proof.
  intros He Hr Hex Hj Hg Hcan Hlate. pose proof He as [C S Hdoc Hc _ _]. unfold abandon_execution.
  rewrite (bind_runs _ _ _ _ _ (select_runs _ _)), Hr, (bind_runs _ _ _ _ _ (decode_runs P d _ r C S Hr (Hdoc _ _ Hr))), Hex, Hj, Hg, !Z.eqb_refl.
  simpl. destruct (lease r) as [l|] eqn:Hl; [|done]. pose proof (lo_lease _ (ro_local _ _ _ (so_rows _ S _ _ Hr))) as Hlc.
  rewrite Hl in Hlc. unfold lease_consistent in Hlc. apply andb_true_iff in Hlc as [_ Hlc]. rewrite Hcan in Hlc |- *.
  destruct (is_working (state (snapshot r))); [|done]. simpl.
  apply bool_decide_eq_true, checked_add_Some in Hlc as [Hver Hmax].
  unfold exact_lease in Hex. rewrite !andb_true_iff, !Z.eqb_eq in Hex. destruct Hex as [[_ Hlv] _]. unfold saturating_add.
  rewrite Z.min_l, <- Hlv by lia. rewrite Hver, Z.eqb_refl. destruct (Z.eqb_spec (lease_version l + 1) (lease_version l)); [lia|]. simpl.
  rewrite (bind_runs _ _ d tt d) by done. destruct (resume_runs _ _ _ _ S Hr Hl) as (rc & _ & _ & _ & Hres). rewrite Hj in Hres.
  rewrite (bind_runs _ _ _ _ _ (Hres d eq_refl)). unfold commit_transition.
  assert (Htr : is_ok (transitioned (snapshot r) (version (snapshot r)) Cancel (now R)) = false).
  { unfold transitioned. rewrite Z.eqb_refl. simpl. destruct (is_terminal _); [done|]. simpl. destruct (_ <=? updated_at _); [done|]. simpl.
    destruct (checked_add _ _ _); [|done]. simpl. destruct (Z.leb_spec (expires_at (snapshot r)) (now R)); [done | lia]. }
  destruct (transitioned _ _ _ _) eqn:Et; [done|]. reflexivity.
Qed.
End limits.
