(* ===== verification/TaskExamples.v ===== *)
(** * A durable task from creation to completion

    A concrete instance of the payload and key-service parameters, one task that
    asks for input twice answered and resumed, and the theorems applied to it.
    A JSON value is its encoded length; objects are the values that are not negative. *)
From S2P Require Import Prelude Machine Text Ordered AuthCore TaskDomain TaskStore TaskRepository TaskFacts TaskInvariant.
From S2P Require Import TaskSteps TaskSafety TaskProgress TaskHistory TaskService TaskTheorems.
From S2P Require Import TaskServiceTheorems TaskLimits.
From Stdlib Require Import Ascii.

Definition demo_bytes (n : Z) : string := Z.iter n (String "a"%char) EmptyString.
Definition demo_sum {A} (f : A -> Z) (m : gmap string A) : Z := map_fold (fun _ x acc => f x + acc) 0 m.
Definition demo_exchange (e : Z * option Z) : Z := e.1 + match e.2 with Some v => v | None => 0 end.
#[local] Instance demo : TaskPayloads := {
  Value := Z; is_object v := 0 <=? v; to_vec v := Some (demo_bytes v); normalized_request v := Some v;
  exchanges_len m := Some (demo_sum demo_exchange m); responses_len m := Some (demo_sum (fun v => v) m);
  round_len _ _ m := Some (64 + demo_sum demo_exchange m); sha256_segments := String.concat "/"; ToolResult := string;
  time_max := 2 ^ 62 }.
#[local] Instance demo_protector : TaskProtector :=
  {| task_document_len _ x := Some (512 + ex_input x); seal_task _ _ := Ok tt; open_task _ := Ok tt; seal_round _ _ := Ok tt; open_round _ _ := Ok tt |}.

(** ** The requests *)
Definition demo_request : Z := 7 * 2 ^ 76 + 1.
Definition demo_context : RequestContext :=
  {| negotiated := [("tasks", TASKS_EXTENSION_REVISION)];
     ctx_principal := {| subject_id := 7; principal_kind := User; principal_tenant_id := Some 8; auth_method := Session;
       authenticated_at := 0; assurance := Aal1; scopes := [] |};
     ctx_tenant_mode := PrincipalScoped;
     ctx_bounds := {| max_input_bytes := 10; max_output_bytes := 10; max_work_units := 10 |};
     ctx_request_id := demo_request |}.
Definition demo_execution : TaskExecution :=
  {| ex_capability := {| capability_id := "tool"; capability_version := "1" |}; tenant_mode := PrincipalScoped;
     confirmation := Confirmed; ex_input := 3; ex_idempotency_key := "key";
     ex_budget := {| bounds := ctx_bounds demo_context; reservation := "reservation" |} |}.
Definition SECOND : Z := 1000000000.
Definition demo_config : TaskConfig := {| ttl := 7200 * SECOND; poll_interval := SECOND; expiry_batch_size := 10 |}.
Definition demo_command : CreateTaskCommand :=
  {| cmd_execution := demo_execution; cmd_idempotency := {| idem_key := "key"; fingerprint := "tool/1/aaa" |} |}.
Definition read_at (t : Z) : Readings := {| now := t; received := t; processed := t |}.
(** The tables after a transaction that is known to succeed. *)
Definition after {A} (m : Txn A) (d : Db) : Db := match m d with Ok (_, d') => d' | Err _ => d end.
Lemma after_ok {A} (m : Txn A) d : is_ok (m d) = true -> exists o, m d = Ok (o, after m d).
Proof. unfold after. destruct (m d) as [[o d']|]; [eauto | done]. Qed.

Definition demo_owner : TaskOwner := owner_from_context demo_context.
Definition demo_create : AtomicCreate :=
  match new_task "tasks" demo_context demo_command demo_config 1 101 1000 with
  | Ok q => q
  | Err _ => {| create_task := {| st_snapshot := initial 1 demo_owner (ex_capability demo_execution)
                  {| request_id := 0; correlation_id := 0; causation_id := None |} (cmd_idempotency demo_command)
                  (ex_budget demo_execution) 101 0 demo_config; st_execution := demo_execution |};
                execution_intent_of := {| intent_kind := ExecutionIntent; intent_job_id := 0; intent_task_id := 0;
                  intent_generation := 0; intent_tenant := None; intent_correlation := 0; intent_causation := None |} |}
  end.
Definition demo_claim (gen job : Z) : ExecutionClaim :=
  {| claim_task_id := 1; claim_generation := gen; claim_job_id := job |}.
Definition demo_fence (gen version at_ job : Z) : Fence :=
  {| fence_task := 1; fence_generation := gen; fence_version := version; fence_claimed_at := at_; fence_job := job |}.
Definition demo_round : InputRound :=
  {| number := 1; request_state := "state";
     exchanges := {["a" := {| request := 5; response := None |}; "b" := {| request := 6; response := None |}]} |}.
Definition demo_answer (version : Z) (rs : gmap string Z) : AtomicInputUpdate :=
  {| up_owner := demo_owner; up_task_id := 1; up_version := version; up_generation := 1; up_round := 1; up_responses := rs;
     resume_intent := {| intent_kind := ExecutionIntent; intent_job_id := 102; intent_task_id := 1; intent_generation := 2;
       intent_tenant := Some 8; intent_correlation := demo_request; intent_causation := None |} |}.

Definition demo_result : ToolResult := "done"%string.

(** Created, claimed, paused for input, answered in two parts, resumed, claimed again, settled. *)
Definition d1 : Db := after (create_atomic demo_protector demo_create (read_at 2000)) empty_db.
Definition d2 : Db := after (claim_execution demo_protector (demo_claim 1 101) (read_at 3000)) d1.
Definition d3 : Db := after (require_input demo_protector (demo_fence 1 1 3000 101) demo_round (read_at 4000)) d2.
Definition d4 : Db := after (update_input_atomic demo_protector (demo_answer 2 {["a" := 7]}) (read_at 5000)) d3.
Definition d5 : Db := after (update_input_atomic demo_protector (demo_answer 3 {["b" := 8]}) (read_at 6000)) d4.
Definition d6 : Db := after (claim_execution demo_protector (demo_claim 2 102) (read_at 7000)) d5.
Definition d7 : Db := after (settle_execution demo_protector (demo_fence 2 4 7000 102) (SettleCompleted demo_result) (read_at 8000)) d6.

Example demo_finished : (fun r => (version (snapshot r), generation (snapshot r), state (snapshot r))) <$> tasks d7 !! 1
  = Some (5, 2, Completed demo_result).
Proof. vm_compute. reflexivity. Qed.

(** ** The steps *)
Lemma fresh_check d job : bool_decide (receipts d !! job = None) &&
  bool_decide (map_Forall (fun _ r => current_job_id (snapshot r) <> job) (tasks d)) = true -> fresh_job d job.
Proof. rewrite andb_true_iff, !bool_decide_eq_true. intros [H1 H2]. split; [done|]. intros id r Hr. apply (H2 id r Hr). Qed.
Definition answer_fits_b (d : Db) (q : AtomicInputUpdate) : bool :=
  match tasks d !! up_task_id q with
  | Some r => match state (snapshot r) with
              | InputRequired round => let u := apply_responses round (up_responses q) in
                  is_ok (validate_len (if complete u then responses_len (omap response (exchanges (updated_round u)))
                           else exchanges_len (as_pairs (exchanges (updated_round u)))) MAX_TASK_INPUT_BYTES)
              | _ => true
              end
  | None => true
  end.
Lemma answer_check d q : answer_fits_b d q = true ->
  forall r round, tasks d !! up_task_id q = Some r -> state (snapshot r) = InputRequired round -> answer_fits round (up_responses q).
Proof.
  unfold answer_fits_b. intros Hc r round Hr Hs. rewrite Hr, Hs in Hc. unfold answer_fits, fits. cbv zeta in Hc.
  destruct (complete _); by destruct (validate_len _ _) as [[]|].
Qed.
Lemma asked_check round gen : validate_restored_state (InputRequired round) = Ok tt -> (number round =? gen) &&
  bool_decide (map_Forall (fun _ e => is_pending e = true) (exchanges round)) = true -> asked_round round gen.
Proof.
  rewrite andb_true_iff, bool_decide_eq_true, Z.eqb_eq. intros Hv [Hn Hp]. by split.
Qed.
Lemma demo_step1 : step demo_protector 2000 empty_db d1.
Proof.
  destruct (after_ok (create_atomic demo_protector demo_create (read_at 2000)) empty_db) as [o Ho]; [vm_compute; reflexivity|].
  eapply (step_create _ _ _ demo_create (read_at 2000)); [done | exact Ho | vm_compute; reflexivity | apply fresh_check; vm_compute; reflexivity | vm_compute; reflexivity].
Qed.
Lemma demo_step2 : step demo_protector 3000 d1 d2.
Proof.
  destruct (after_ok (claim_execution demo_protector (demo_claim 1 101) (read_at 3000)) d1) as [o Ho]; [vm_compute; reflexivity|].
  by eapply (step_claim _ _ _ (demo_claim 1 101) (read_at 3000)).
Qed.
Lemma demo_asked : asked_round demo_round 1.
Proof. apply asked_check; vm_compute; reflexivity. Qed.
Lemma demo_step3 : step demo_protector 4000 d2 d3.
Proof.
  destruct (after_ok (require_input demo_protector (demo_fence 1 1 3000 101) demo_round (read_at 4000)) d2) as [o Ho]; [vm_compute; reflexivity|].
  eapply (step_require _ _ _ (demo_fence 1 1 3000 101) demo_round (read_at 4000)); [done | exact Ho | apply demo_asked].
Qed.
Lemma demo_update_step t v rs d : is_ok (update_input_atomic demo_protector (demo_answer v rs) (read_at t) d) = true ->
  is_ok (InputResponses_new rs) = true ->
  bool_decide (receipts d !! 102 = None) && bool_decide (map_Forall (fun _ r => current_job_id (snapshot r) <> 102) (tasks d)) = true ->
  answer_fits_b d (demo_answer v rs) = true ->
  step demo_protector t d (after (update_input_atomic demo_protector (demo_answer v rs) (read_at t)) d).
Proof.
  intros [o Ho]%after_ok Hrs Hf Hfit. eapply (step_update _ _ _ (demo_answer v rs) (read_at t)); try done.
  - apply is_ok_ok in Hrs as [rs' Hrs]. apply responses_new_ok in Hrs as [_ Hrs]. exact Hrs.
  - by apply fresh_check.
  - by apply answer_check.
Qed.
Lemma demo_step4 : step demo_protector 5000 d3 d4.
Proof. apply demo_update_step; vm_compute; reflexivity. Qed.
Lemma demo_step5 : step demo_protector 6000 d4 d5.
Proof. apply demo_update_step; vm_compute; reflexivity. Qed.
Lemma demo_step6 : step demo_protector 7000 d5 d6.
Proof.
  destruct (after_ok (claim_execution demo_protector (demo_claim 2 102) (read_at 7000)) d5) as [o Ho]; [vm_compute; reflexivity|].
  by eapply (step_claim _ _ _ (demo_claim 2 102) (read_at 7000)).
Qed.
Lemma demo_step7 : step demo_protector 8000 d6 d7.
Proof.
  destruct (after_ok (settle_execution demo_protector (demo_fence 2 4 7000 102) (SettleCompleted demo_result) (read_at 8000)) d6) as [o Ho]; [vm_compute; reflexivity|].
  by eapply (step_settle _ _ _ (demo_fence 2 4 7000 102) (SettleCompleted demo_result) (read_at 8000)).
Qed.
Lemma reach1 : rtc (any_step demo_protector) empty_db d1.
Proof. eapply rtc_once. eexists. apply demo_step1. Qed.
Lemma reach3 : rtc (any_step demo_protector) d1 d3.
Proof. eapply rtc_l; [eexists; apply demo_step2|]. eapply rtc_once. eexists. apply demo_step3. Qed.
Lemma reach5 : rtc (any_step demo_protector) empty_db d5.
Proof.
  etrans; [apply reach1|]. etrans; [apply reach3|]. eapply rtc_l; [eexists; apply demo_step4|]. eapply rtc_once. eexists. apply demo_step5.
Qed.
Lemma reach7 : rtc (any_step demo_protector) empty_db d7.
Proof. etrans; [apply reach5|]. eapply rtc_l; [eexists; apply demo_step6|]. eapply rtc_once. eexists. apply demo_step7. Qed.
(** ** Healthy stores *)
Definition health_check (d : Db) (R : Readings) : bool :=
  bool_decide (map_Forall (fun _ r => version (snapshot r) < i64_max /\ updated_at (snapshot r) < now R
    /\ 512 + ex_input (execution r) <= TASK_DOCUMENT_MAX_BYTES) (tasks d))
  && bool_decide (map_Forall (fun _ rc => received_at rc <= processed R) (receipts d))
  && (now R <? time_max) && (received R <=? processed R).
Lemma health_checked d R : health_check d R = true -> documents_fit demo_protector d /\ counters_left d /\ clock_past d (now R) /\ now R < time_max /\
  receipts_past d (processed R) /\ received R <= processed R.
Proof.
  unfold health_check. rewrite !andb_true_iff, !bool_decide_eq_true. intros [[[H1 H2] H3] H4].
  repeat split; [|intros id r Hr; by apply (H1 id r Hr).. | lia | intros job rc Hrc; by apply (H2 job rc Hrc) | lia].
  intros id r Hr n _ _. destruct (H1 id r Hr) as (_ & _ & Hd). unfold document_fits, validate_len. simpl.
  unfold guard_err. by rewrite (proj2 (Z.ltb_ge _ _) Hd).
Qed.
Lemma demo_healthy d R : rtc (any_step demo_protector) empty_db d -> health_check d R = true -> healthy demo_protector d R.
Proof.
  intros Hr (H0 & H1 & H2 & H3 & H4 & H5)%health_checked. split; try done. by apply (steps_ok _ _ _ Hr), empty_ok.
Qed.
Lemma row_check d id (f : TaskRecord -> bool) : match tasks d !! id with Some r => f r | None => false end = true ->
  exists r, tasks d !! id = Some r /\ f r = true.
Proof. destruct (tasks d !! id); [eauto | done]. Qed.
Lemma outcome_check {A} (m : Txn A) d (f : A -> bool) : match m d with Ok (o, _) => f o | Err _ => false end = true ->
  exists o, m d = Ok (o, after m d) /\ f o = true.
Proof. unfold after. destruct (m d) as [[o d']|]; [eauto | done]. Qed.
Definition is_created (o : CreateOutcome) : bool := match o with Created s => task_id s =? 1 | _ => false end.
Definition is_leased (o : ClaimOutcome) : bool := match o with Leased _ => true | _ => false end.

Lemma finished_tasks_frozen_witness : exists r, tasks d7 !! 1 = Some r /\ tasks (cleanup_receipts {[101; 102]} d7) !! 1 = Some r.
Proof.
  destruct (row_check d7 1 (fun r => is_terminal (state (snapshot r)))) as (r & Hr & Ht); [vm_compute; reflexivity|].
  exists r. split; [done|]. apply (finished_tasks_frozen demo_protector d7 _ 1 r reach7 Hr Ht).
  apply rtc_once. exists 0. apply step_cleanup.
Defined.
Lemma create_idempotent_witness : exists o, create_atomic demo_protector demo_create (read_at 9000) d5 = Ok (o, d5) /\
  exists r, tasks d5 !! 1 = Some r /\ o = Existing (snapshot r).
Proof.
  destruct (outcome_check (create_atomic demo_protector demo_create (read_at 2000)) empty_db is_created) as (o1 & E1 & F1); [vm_compute; reflexivity|].
  destruct (after_ok (create_atomic demo_protector demo_create (read_at 9000)) d5) as [o2 E2]; [vm_compute; reflexivity|].
  destruct o1 as [s| |]; try discriminate F1. apply Z.eqb_eq in F1.
  assert (Hs : rtc (any_step demo_protector) d1 d5).
  { etrans; [apply reach3|]. eapply rtc_l; [eexists; apply demo_step4|]. eapply rtc_once. eexists. apply demo_step5. }
  assert (Hsc : idem_scope (st_snapshot (create_task demo_create)) = idem_scope s /\
                fingerprint (idempotency (st_snapshot (create_task demo_create))) = fingerprint (idempotency s)).
  { assert (E3 : match create_atomic demo_protector demo_create (read_at 2000) empty_db with
      | Ok (Created n, _) => bool_decide (idem_scope (st_snapshot (create_task demo_create)) = idem_scope n)
          && bool_decide (fingerprint (idempotency (st_snapshot (create_task demo_create))) = fingerprint (idempotency n))
      | _ => false end = true) by (vm_compute; reflexivity).
    rewrite E1 in E3. by rewrite andb_true_iff, !bool_decide_eq_true in E3. }
  destruct Hsc as [Hsc Hfp].
  destruct (create_idempotent demo_protector empty_db d1 d5 demo_create (read_at 2000) s demo_create (read_at 9000) o2 _
    (rtc_refl _ _) E1 demo_step1 Hs Hsc E2) as [Ed (r & Hr & Ho)].
  exists o2. rewrite Ed in E2. split; [exact E2|]. exists r. rewrite F1 in Hr. split; [exact Hr|]. by rewrite decide_True in Ho.
Defined.
Lemma superseded_worker_fenced_witness : refused demo_protector d7 (demo_fence 2 4 7000 102).
Proof.
  destruct (outcome_check (settle_execution demo_protector (demo_fence 2 4 7000 102) (SettleCompleted demo_result) (read_at 8000)) d6
    (fun o => match o with Applied _ => true | _ => false end)) as (o & E & F); [vm_compute; reflexivity|].
  destruct o as [n| |]; try discriminate F.
  assert (R6 : rtc (any_step demo_protector) empty_db d6).
  { etrans; [apply reach5|]. eapply rtc_once. eexists. apply demo_step6. }
  apply (superseded_worker_fenced demo_protector d6 (demo_fence 2 4 7000 102) (read_at 8000) d7 8000 d7 R6).
  - simpl. lia.
  - by eapply lost_settled.
  - apply run_refl.
Defined.
Lemma lease_carries_history_witness : exists l, claim_execution demo_protector (demo_claim 2 102) (read_at 7000) d5 = Ok (Leased l, d6) /\
  length (input_history l) = 1%nat.
Proof.
  destruct (outcome_check (claim_execution demo_protector (demo_claim 2 102) (read_at 7000)) d5 is_leased) as (o & E & F); [vm_compute; reflexivity|].
  destruct o as [l| | |]; try discriminate F. exists l. split; [exact E|].
  destruct (lease_carries_history demo_protector d5 _ _ l _ reach5 E) as (r & _ & _ & _ & _ & _ & _ & Hg & Hl & _).
  rewrite Hl, Hg. reflexivity.
Defined.
Definition demo_world (d : Db) : World := {| calls := 0; db := d; signals := [] |}.
Lemma cancel_takes_effect_witness : exists w', cancel demo_protector "tasks" (fun _ d => d) (fun k => read_at (9000 + 1000 * Z.of_nat k))
    demo_context 1 103 (demo_world d6) = (Ok tt, w') /\ cancellation_seen (db w') (owner_from_context demo_context) 1.
Proof.
  destruct (cancel demo_protector "tasks" (fun _ d => d) (fun k => read_at (9000 + 1000 * Z.of_nat k)) demo_context 1 103 (demo_world d6))
    as [r w'] eqn:E. assert (Er : fst (cancel demo_protector "tasks" (fun _ d => d) (fun k => read_at (9000 + 1000 * Z.of_nat k))
      demo_context 1 103 (demo_world d6)) = Ok tt) by (vm_compute; reflexivity).
  rewrite E in Er. simpl in Er. subst r. exists w'. split; [reflexivity|].
  apply (cancel_takes_effect demo_protector "tasks" (fun _ d => d) (fun k => read_at (9000 + 1000 * Z.of_nat k)) demo_context 1 103 (demo_world d6) tt w').
  - by intros k d.
  - apply (steps_ok demo_protector empty_db d6); [|apply empty_ok]. etrans; [apply reach5|]. eapply rtc_once. eexists. apply demo_step6.
  - exact E.
Defined.
Lemma quiet_cancel_succeeds_witness : exists w', cancel demo_protector "tasks" (fun _ d => d) (fun k => read_at (9000 + 1000 * Z.of_nat k))
    demo_context 1 103 (demo_world d5) = (Ok tt, w').
Proof.
  destruct (row_check d5 1 (fun r => bool_decide (owner (snapshot r) = demo_owner) && identity_ok (identity (snapshot r)))) as (r & Hr & Hf);
    [vm_compute; reflexivity|]. apply andb_true_iff in Hf as [Ho%bool_decide_eq_true Hid].
  apply (quiet_cancel_succeeds demo_protector "tasks" (fun k => read_at (9000 + 1000 * Z.of_nat k)) demo_context 1 103 (demo_world d5) r).
  - apply demo_healthy; [exact reach5 | vm_compute; reflexivity].
  - apply demo_healthy; [exact reach5 | vm_compute; reflexivity].
  - reflexivity.
  - exact Hr.
  - exact Ho.
  - exact Hid.
Defined.
Lemma worker_rounds_admissible_witness : exists l round, claim_execution demo_protector (demo_claim 2 102) (read_at 7000) d5 = Ok (Leased l, d6) /\
  project_input_round l "state" (Some {["k" := 4]}) = Ok round /\ asked_round round 2.
Proof.
  destruct (outcome_check (claim_execution demo_protector (demo_claim 2 102) (read_at 7000)) d5
    (fun o => match o with Leased l => is_ok (project_input_round l "state" (Some {["k" := 4]})) | _ => false end)) as (o & E & F);
    [vm_compute; reflexivity|].
  destruct o as [l| | |]; try discriminate F. apply is_ok_ok in F as [round F]. exists l, round. split; [exact E|]. split; [exact F|].
  apply (worker_rounds_admissible demo_protector d5 (demo_claim 2 102) (read_at 7000) l d6 "state" (Some {["k" := 4]}) round reach5 E F).
Defined.
Definition demo_large : AtomicInputUpdate := demo_answer 2 {["a" := 1048570]}.
Lemma oversized_answer_ruins_task_witness : exists n d', update_input_atomic demo_protector demo_large (read_at 5000) d3 = Ok (Acknowledged n, d') /\
  forall R', is_ok (get demo_protector demo_owner 1 R' d') = false.
Proof.
  assert (R3 : rtc (any_step demo_protector) empty_db d3) by (etrans; [apply reach1 | apply reach3]).
  destruct (row_check d3 1 (fun r => bool_decide (owner (snapshot r) = demo_owner) && (version (snapshot r) =? 2) && (generation (snapshot r) =? 1)
    && (5000 <? expires_at (snapshot r)) && match state (snapshot r) with InputRequired rd => (number rd =? 1)
         && changed (apply_responses rd (up_responses demo_large)) && negb (complete (apply_responses rd (up_responses demo_large)))
         && negb (is_ok (validate_len (exchanges_len (as_pairs (exchanges (updated_round (apply_responses rd (up_responses demo_large)))))) MAX_TASK_INPUT_BYTES))
       | _ => false end)) as (r & Hr & Hf); [vm_compute; reflexivity|].
  destruct (state (snapshot r)) as [|rd| | |] eqn:Es; rewrite !andb_true_iff in Hf; try (destruct Hf as [_ Hf]; discriminate Hf).
  rewrite bool_decide_eq_true, !Z.eqb_eq, !negb_true_iff in Hf. destruct Hf as [[[[Ho Hv] Hg] Hx] [[[Hn Hch] Hco] Hbig]].
  assert (He : healthy demo_protector d3 (read_at 5000)) by (apply demo_healthy; [exact R3 | vm_compute; reflexivity]).
  apply Z.ltb_lt in Hx.
  assert (Hfits : ~ fits (exchanges_len (as_pairs (exchanges (updated_round (apply_responses rd (up_responses demo_large)))))))
    by (unfold fits; intros Hfit; rewrite Hfit in Hbig; discriminate Hbig).
  assert (Hrs : responses_ok (up_responses demo_large)).
  { assert (Hok : is_ok (InputResponses_new (up_responses demo_large)) = true) by (vm_compute; reflexivity).
    apply is_ok_ok in Hok as [rs' Hok]. apply responses_new_ok in Hok as [_ Hok]. exact Hok. }
  destruct (oversized_answer_ruins_task demo_protector d3 (read_at 5000) demo_large r rd He Hr Ho Hv Hg Es Hn Hx Hrs Hch Hco Hfits)
    as (n & d' & E1 & E2 & _). exists n, d'. split; [exact E1 | exact E2].
Defined.
Lemma early_redelivery_acknowledged_witness : handle demo_protector (fun _ d => d) (fun _ => read_at 8000) true
    (fun _ => Ok (ToolComplete (Some demo_result))) {| job_id := 102; job_task := 1; job_generation := 2 |} (demo_world d6)
  = (Succeeded, {| calls := 1; db := d6; signals := [] |}).
Proof.
  destruct (outcome_check (claim_execution demo_protector (demo_claim 2 102) (read_at 7000)) d5
    (fun o => match o with Leased l => 8000 <? postgres_timestamp
        (Z.min (saturating_add_time 7000 EXECUTION_TIMEOUT) (expires_at (st_snapshot (leased_task l))))
              | _ => false end)) as (o & E & F); [vm_compute; reflexivity|].
  destruct o as [l| | |]; try discriminate F. apply Z.ltb_lt in F.
  apply (early_redelivery_acknowledged demo_protector d5 (demo_claim 2 102) (read_at 7000) l d6 (read_at 8000) true
    (fun _ => Ok (ToolComplete (Some demo_result))) 0 [] reach5 E); [done | exact F].
Defined.
Definition demo_cancel : AtomicCancellation :=
  {| cn_owner := demo_owner; cn_task_id := 1; cn_version := 4; cn_generation := 2;
     cancellation_intent_of := {| intent_kind := CancellationIntent; intent_job_id := 103; intent_task_id := 1; intent_generation := 2;
       intent_tenant := Some 8; intent_correlation := demo_request; intent_causation := None |} |}.
Definition d8 : Db := after (cancel_atomic demo_protector demo_cancel (read_at 7500)) d6.
Lemma late_abandon_fails_witness :
  abandon_execution demo_protector (demo_fence 2 4 7000 102) (read_at (7300 * SECOND)) d8 = Err Integrity.
Proof.
  assert (R8 : rtc (any_step demo_protector) empty_db d8).
  { etrans; [apply reach5|]. eapply rtc_l; [eexists; apply demo_step6|]. apply rtc_once. exists 7500.
    destruct (after_ok (cancel_atomic demo_protector demo_cancel (read_at 7500)) d6) as [o E]; [vm_compute; reflexivity|].
    by eapply (step_cancel _ _ _ demo_cancel (read_at 7500)). }
  destruct (row_check d8 1 (fun r => exact_lease (lease r) (demo_fence 2 4 7000 102) && (current_job_id (snapshot r) =? 102)
    && (generation (snapshot r) =? 2) && cancellation_requested (snapshot r) && (expires_at (snapshot r) <=? 7300 * SECOND))) as (r & Hr & Hf);
    [vm_compute; reflexivity|]. rewrite !andb_true_iff, !Z.eqb_eq, Z.leb_le in Hf. destruct Hf as [[[[Hex Hj] Hg] Hc] Hl].
  assert (He : healthy demo_protector d8 (read_at (7300 * SECOND))) by (apply demo_healthy; [exact R8 | vm_compute; reflexivity]).
  exact (late_abandon_fails demo_protector d8 (read_at (7300 * SECOND)) (demo_fence 2 4 7000 102) r He Hr Hex Hj Hg Hc Hl).
Defined.

(** ** The last microsecond of a lifetime *)
Definition odd_create : AtomicCreate :=
  match new_task "tasks" demo_context demo_command {| ttl := 7200 * SECOND + 500; poll_interval := SECOND; expiry_batch_size := 10 |}
          1 101 1000 with
  | Ok q => q
  | Err _ => demo_create
  end.
Definition d9 : Db := after (create_atomic demo_protector odd_create (read_at 2000)) empty_db.
(** A configuration may give a lifetime that is not a whole number of microseconds.
    The database keeps its end cut to the microsecond, so in the last, partial
    microsecond the batch selects the task, finds it alive after decoding and fails
    as a whole; and a worker's claim would be granted a lease that ends where it
    begins, which the constraint refuses.  One microsecond later both work. *)
Example partial_microsecond_fails :
  is_ok (TaskConfig_new (7200 * SECOND + 500) SECOND 10) = true /\
  let t := 2000 + 7200 * SECOND in
  expire_batch demo_protector 10 ∅ t (fun _ => t) d9 = Err Integrity /\
  claim_execution demo_protector (demo_claim 1 101) (read_at t) d9 = Err Integrity /\
  is_ok (expire_batch demo_protector 10 ∅ (t + 1000) (fun _ => t + 1000) d9) = true.
Proof. split; [vm_compute; reflexivity|]. split; [vm_compute; reflexivity|]. split; vm_compute; reflexivity. Qed.
