(* ===== verification/FlagValues.v ===== *)
(** * Feature flags, their keys and values: [crates/feature-flags/src/flag.rs]

    A [f64] is its 64-bit pattern: the code only asks whether it is finite.  Calendar
    dates are integers. *)
From S2P Require Import Prelude Machine Text Ordered.
From Stdlib Require Import Ascii.

Definition MAX_FLAG_KEY_BYTES : Z := 128.
Definition MAX_FLAG_STRING_BYTES : Z := 1024.
Definition MAX_FLAG_OWNER_BYTES : Z := 64.
Definition MAX_FLAG_OBJECT_FIELDS : Z := 16.
Definition MAX_FLAG_OBJECT_BYTES : Z := 4096.
Definition MAX_FLAG_OBJECT_KEY_BYTES : Z := 64.

(** ** Keys *)
Definition RESERVED_NAMESPACES : list string :=
  ["acl"; "auth"; "authn"; "authorization"; "authz"; "capabilities"; "capability"; "entitlement"; "entitlements";
   "migration"; "migrations"; "permission"; "permissions"; "policy"; "schema"; "security"].
Definition is_reserved_namespace (segment : string) : bool :=
  existsb (fun namespace => starts_with namespace segment) RESERVED_NAMESPACES.
Inductive FlagKeyError := KeyEmpty | KeyTooLong | KeyInvalidSyntax | KeyReservedNamespace.
Definition name_byte (c : ascii) : bool :=
  is_ascii_lowercase c || is_ascii_digit c || is_byte "_" c || is_byte "-" c.
Definition starts_lowercase (s : string) : bool :=
  match s with EmptyString => false | String c _ => is_ascii_lowercase c end.
Fixpoint validate_segments (segments : list string) : result FlagKeyError unit :=
  match segments with
  | [] => Ok tt
  | segment :: rest =>
      _ ← guard_err (negb (starts_lowercase segment) || negb (all_bytes name_byte segment)) KeyInvalidSyntax;
      _ ← guard_err (is_reserved_namespace segment) KeyReservedNamespace;
      validate_segments rest
  end.
Definition FlagKey_new (value : string) : result FlagKeyError string :=
  _ ← guard_err (is_empty value) KeyEmpty;
  _ ← guard_err (MAX_FLAG_KEY_BYTES <? len value) KeyTooLong;
  _ ← validate_segments (split (is_byte ".") value);
  Ok value.

Inductive FlagPurpose := ProductRollout | Experiment | UserExperience | OperationalTuning.
Definition FlagPurpose_label (p : FlagPurpose) : string :=
  match p with
  | ProductRollout => "product_rollout" | Experiment => "experiment"
  | UserExperience => "user_experience" | OperationalTuning => "operational_tuning"
  end.
Definition FlagPurpose_from_str (s : string) : option FlagPurpose :=
  if bool_decide (s = "product_rollout") then Some ProductRollout
  else if bool_decide (s = "experiment") then Some Experiment
  else if bool_decide (s = "user_experience") then Some UserExperience
  else if bool_decide (s = "operational_tuning") then Some OperationalTuning
  else None.

(** ** Values *)
Record FlagString := { flag_str : string }.
Inductive FlagStringError := StringEmpty | StringTooLong | StringControlCharacter.
Definition FlagString_new (value : string) : result FlagStringError FlagString :=
  _ ← guard_err (is_empty value) StringEmpty;
  _ ← guard_err (MAX_FLAG_STRING_BYTES <? len value) StringTooLong;
  _ ← guard_err (has_control value) StringControlCharacter;
  Ok {| flag_str := value |}.

Record f64 := { bits : Z }.
Definition is_finite (x : f64) : bool := negb (Z.land (Z.shiftr (bits x) 52) 2047 =? 2047).

Inductive FlagValueKind := KBoolean | KInteger | KFloat | KString | KObject.
#[global] Instance FlagValueKind_eq : EqDecision FlagValueKind.
Proof. solve_decision. Defined.
Inductive FlagValue :=
| VBoolean (b : bool)
| VInteger (n : Z)
| VFloat (x : f64)
| VString (s : FlagString)
| VObject (fields : gmap string FlagValue) (encoded_len : Z).
Record FlagObject := { object_fields : gmap string FlagValue; object_len : Z }.
Definition FlagValue_object (o : FlagObject) : FlagValue := VObject (object_fields o) (object_len o).
Inductive FlagValueError := NonFiniteFloat.
Definition FlagValue_float (x : f64) : result FlagValueError FlagValue :=
  if is_finite x then Ok (VFloat x) else Err NonFiniteFloat.
Definition kind (v : FlagValue) : FlagValueKind :=
  match v with
  | VBoolean _ => KBoolean | VInteger _ => KInteger | VFloat _ => KFloat | VString _ => KString | VObject _ _ => KObject
  end.
Definition value_encoded_len (v : FlagValue) : Z :=
  match v with
  | VBoolean _ => 1
  | VInteger _ | VFloat _ => 8
  | VString s => len (flag_str s)
  | VObject _ n => n
  end.

Inductive FlagObjectError :=
| EmptyKey | ObjectKeyTooLong | InvalidKey | SensitiveKey | DuplicateKey | TooManyFields | ObjectTooLarge | NestedValue.
Definition SENSITIVE_TOKENS : list string :=
  ["apikey"; "accesskey"; "clientsecret"; "credential"; "credentials"; "password"; "privatekey"; "secret"; "secretkey";
   "token"].
Definition SENSITIVE_COMPOUNDS : list string :=
  ["access_key"; "api_key"; "client_key"; "encryption_key"; "private_key"; "secret_key"; "signing_key"].
Fixpoint dashes_to_underscores (s : string) : string :=
  match s with
  | EmptyString => EmptyString
  | String c s' => String (if is_byte "-" c then "_"%char else c) (dashes_to_underscores s')
  end.
Definition normalized_object_key_eq (key expected : string) : bool :=
  bool_decide (dashes_to_underscores key = expected).
Definition validate_object_key (key : string) : result FlagObjectError unit :=
  _ ← guard_err (is_empty key) EmptyKey;
  _ ← guard_err (MAX_FLAG_OBJECT_KEY_BYTES <? len key) ObjectKeyTooLong;
  _ ← guard_err (negb (starts_lowercase key) || negb (all_bytes name_byte key)) InvalidKey;
  let contains_sensitive_token :=
    existsb (fun part => bool_decide (part ∈ SENSITIVE_TOKENS)) (split (fun c => is_byte "_" c || is_byte "-" c) key) in
  let is_sensitive_compound := existsb (normalized_object_key_eq key) SENSITIVE_COMPOUNDS in
  guard_err (contains_sensitive_token || is_sensitive_compound) SensitiveKey.
Definition empty_object : FlagObject := {| object_fields := ∅; object_len := 0 |}.
Fixpoint add_fields (o : FlagObject) (l : list (string * FlagValue)) : result FlagObjectError FlagObject :=
  match l with
  | [] => Ok o
  | (key, value) :: l' =>
      _ ← guard_err (MAX_FLAG_OBJECT_FIELDS <=? Z.of_nat (size (object_fields o))) TooManyFields;
      _ ← validate_object_key key;
      _ ← guard_err (bool_decide (kind value = KObject)) NestedValue;
      let next_len := saturating_add usize_max (saturating_add usize_max (object_len o) (len key))
                        (value_encoded_len value) in
      _ ← guard_err (MAX_FLAG_OBJECT_BYTES <? next_len) ObjectTooLarge;
      _ ← guard_err (bool_decide (is_Some (object_fields o !! key))) DuplicateKey;
      add_fields {| object_fields := <[key := value]> (object_fields o); object_len := next_len |} l'
  end.
Definition FlagObject_new (fields : list (string * FlagValue)) : result FlagObjectError FlagObject :=
  add_fields empty_object fields.

(** The sealed trait [FlagValueType] and its five implementations. *)
Class FlagValueType (T : Type) := {
  KIND : FlagValueKind;
  validate : T -> result FlagValueError unit;
  into_untyped : T -> FlagValue;
  from_untyped : FlagValue -> option T;
}.
Arguments KIND T {_}.
#[global] Instance bool_flag : FlagValueType bool := {|
  KIND := KBoolean; validate := fun _ => Ok tt; into_untyped := VBoolean;
  from_untyped := fun v => match v with VBoolean b => Some b | _ => None end |}.
#[global] Instance i64_flag : FlagValueType Z := {|
  KIND := KInteger; validate := fun _ => Ok tt; into_untyped := VInteger;
  from_untyped := fun v => match v with VInteger n => Some n | _ => None end |}.
#[global] Instance f64_flag : FlagValueType f64 := {|
  KIND := KFloat; validate := fun x => if is_finite x then Ok tt else Err NonFiniteFloat; into_untyped := VFloat;
  from_untyped := fun v => match v with VFloat x => Some x | _ => None end |}.
#[global] Instance string_flag : FlagValueType FlagString := {|
  KIND := KString; validate := fun _ => Ok tt; into_untyped := VString;
  from_untyped := fun v => match v with VString s => Some s | _ => None end |}.
#[global] Instance object_flag : FlagValueType FlagObject := {|
  KIND := KObject; validate := fun _ => Ok tt; into_untyped := FlagValue_object;
  from_untyped := fun v => match v with VObject m n => Some {| object_fields := m; object_len := n |} | _ => None end |}.

(** ** Flags *)
Inductive FlagOwnerError := OwnerEmpty | OwnerTooLong | OwnerInvalidCharacter.
Definition owner_byte (c : ascii) : bool :=
  is_ascii_alphanumeric c || is_byte "." c || is_byte "_" c || is_byte "-" c || is_byte "/" c || is_byte "@" c.
Definition FlagOwner_new (value : string) : result FlagOwnerError string :=
  _ ← guard_err (is_empty value) OwnerEmpty;
  _ ← guard_err (MAX_FLAG_OWNER_BYTES <? len value) OwnerTooLong;
  _ ← guard_err (negb (all_bytes owner_byte value)) OwnerInvalidCharacter;
  Ok value.
Inductive FlagLifecycle := Permanent | Temporary (owner : string) (remove_after : Z).
Inductive FlagDefinitionError := KeyError (e : FlagKeyError) | ValueError (e : FlagValueError) | OwnerError (e : FlagOwnerError).

Section flag.
Context `{FlagValueType T}.
Record Flag := {
  flag_key : string;
  flag_default : T;
  flag_purpose : FlagPurpose;
  flag_lifecycle : FlagLifecycle;
}.
Definition Flag_permanent (key : string) (default : T) (purpose : FlagPurpose) : result FlagDefinitionError Flag :=
  _ ← map_err ValueError (validate default);
  k ← map_err KeyError (FlagKey_new key);
  Ok {| flag_key := k; flag_default := default; flag_purpose := purpose; flag_lifecycle := Permanent |}.
Definition Flag_temporary (key : string) (default : T) (purpose : FlagPurpose) (owner : string) (remove_after : Z)
    : result FlagDefinitionError Flag :=
  _ ← map_err ValueError (validate default);
  k ← map_err KeyError (FlagKey_new key);
  o ← map_err OwnerError (FlagOwner_new owner);
  Ok {| flag_key := k; flag_default := default; flag_purpose := purpose; flag_lifecycle := Temporary o remove_after |}.
End flag.
Arguments Flag T : clear implicits.

(** ** What the constructors guarantee *)
(** A position of the key where a segment starts. *)
Definition segment_start (key rest : string) : Prop :=
  rest = key \/ exists before, key = before +:+ String "." rest.
