(* ===== verification/FlagEvaluation.v ===== *)
(** * Feature-flag evaluation: [context.rs], [provider.rs], [exposure.rs] and
    [evaluator.rs] of [crates/feature-flags/src/]

    The cache is behind a mutex that is only tried: an evaluation locks it once to
    look an answer up and once to store one, and other evaluations may run while it
    waits for the provider.  Instants are integers; adding a lifetime of at most ten
    minutes to one does not overflow.  The OpenFeature SDK is third-party code and a
    parameter ([SdkProvider]); metrics are left out. *)
From S2P Require Import Prelude Machine Text Ordered AuthCore FlagValues.
From Stdlib Require Import Ascii.

(** ** Contexts *)
Definition MAX_CONTEXT_ATTRIBUTES : Z := 6.
Definition MAX_CONTEXT_BYTES : Z := 1024.
Definition MAX_CONTEXT_VALUE_BYTES : Z := 256.

Inductive ContextAttribute := Environment | Cohort | Locale | AppVersion | Region | DeviceClass.
#[global] Instance ContextAttribute_eq : EqDecision ContextAttribute.
Proof. solve_decision. Defined.
Definition attribute_name (a : ContextAttribute) : string :=
  match a with
  | Environment => "environment" | Cohort => "cohort" | Locale => "locale"
  | AppVersion => "app_version" | Region => "region" | DeviceClass => "device_class"
  end.
Definition attribute_from_str (s : string) : option ContextAttribute :=
  if bool_decide (s = "environment") then Some Environment
  else if bool_decide (s = "cohort") then Some Cohort
  else if bool_decide (s = "locale") then Some Locale
  else if bool_decide (s = "app_version") then Some AppVersion
  else if bool_decide (s = "region") then Some Region
  else if bool_decide (s = "device_class") then Some DeviceClass
  else None.
#[global] Instance ContextAttribute_countable : Countable ContextAttribute.
Proof. refine (inj_countable attribute_name attribute_from_str _). by intros []. Defined.

Inductive ContextValue := CString (s : string) | CBoolean (b : bool) | CInteger (n : Z).
#[global] Instance ContextValue_eq : EqDecision ContextValue.
Proof. solve_decision. Defined.
#[global] Instance ContextValue_countable : Countable ContextValue.
Proof.
  refine (inj_countable'
    (fun v => match v with CString s => inl s | CBoolean b => inr (inl b) | CInteger n => inr (inr n) end)
    (fun c => match c with inl s => CString s | inr (inl b) => CBoolean b | inr (inr n) => CInteger n end) _).
  by intros [].
Defined.
Inductive ContextValueError := CValueEmpty | CValueTooLong | CValueControlCharacter.
Definition ContextValue_string (value : string) : result ContextValueError ContextValue :=
  _ ← guard_err (is_empty value) CValueEmpty;
  _ ← guard_err (MAX_CONTEXT_VALUE_BYTES <? len value) CValueTooLong;
  _ ← guard_err (has_control value) CValueControlCharacter;
  Ok (CString value).
Definition context_value_len (v : ContextValue) : Z :=
  match v with CString s => len s | CBoolean _ => 1 | CInteger _ => 8 end.

Inductive ContextError :=
| AttributeNotAllowed | DuplicateAttribute | TooManyAttributes | ContextTooLarge | ContextValueInvalid (e : ContextValueError).
Record EvaluationContext := {
  ctx_subject_id : option Z;
  ctx_tenant_id : option Z;
  ctx_principal_kind : option PrincipalKind;
  attributes : gmap ContextAttribute ContextValue;
  ctx_encoded_len : Z;
}.
Definition insert_attribute (a : ContextAttribute) (v : ContextValue) (c : EvaluationContext)
    : result ContextError EvaluationContext :=
  _ ← guard_err (bool_decide (is_Some (attributes c !! a))) DuplicateAttribute;
  _ ← guard_err (MAX_CONTEXT_ATTRIBUTES <=? Z.of_nat (size (attributes c))) TooManyAttributes;
  let added_len := saturating_add usize_max (len (attribute_name a)) (context_value_len v) in
  let next_len := saturating_add usize_max (ctx_encoded_len c) added_len in
  _ ← guard_err (MAX_CONTEXT_BYTES <? next_len) ContextTooLarge;
  Ok {| ctx_subject_id := ctx_subject_id c; ctx_tenant_id := ctx_tenant_id c; ctx_principal_kind := ctx_principal_kind c;
        attributes := <[a := v]> (attributes c); ctx_encoded_len := next_len |}.
Definition identity_len (s t : option Z) (k : option PrincipalKind) : Z :=
  (match s with Some _ => len "targeting_key" + 36 | None => 0 end)
  + (match t with Some _ => len "tenant_id" + 36 | None => 0 end)
  + (match k with Some _ => len "principal_kind" + 16 | None => 0 end).
Definition EvaluationContext_new (environment : string) (p : option Principal) : result ContextError EvaluationContext :=
  v ← map_err ContextValueInvalid (ContextValue_string environment);
  let s := subject_id <$> p in
  let t := p ≫= principal_tenant_id in
  let k := principal_kind <$> p in
  insert_attribute Environment v
    {| ctx_subject_id := s; ctx_tenant_id := t; ctx_principal_kind := k; attributes := ∅;
       ctx_encoded_len := identity_len s t k |}.
Definition with_attribute (a : ContextAttribute) (v : ContextValue) (c : EvaluationContext)
    : result ContextError EvaluationContext := insert_attribute a v c.
Definition with_raw_attribute (name : string) (v : ContextValue) (c : EvaluationContext)
    : result ContextError EvaluationContext :=
  a ← ok_or (attribute_from_str name) AttributeNotAllowed; with_attribute a v c.

(** ** Providers *)
Definition MAX_STATIC_FLAGS : Z := 1024.
Definition MAX_VARIANT_BYTES : Z := 64.
Inductive ProviderKind := StaticKind | OpenFeatureKind | CustomKind.
Inductive ProviderError := ProviderUnavailable | FlagNotFound | ContextRejected | InvalidResponse.
Inductive ProviderReason := ReasonStatic | ReasonTargetingMatch | ReasonSplit | ReasonDisabled | ReasonUnknown.
Inductive ProviderResponseError := InvalidVariant.
Definition variant_byte (c : ascii) : bool := is_ascii_alphanumeric c || is_byte "." c || is_byte "_" c || is_byte "-" c.
Definition Variant_new (value : string) : result ProviderResponseError string :=
  _ ← guard_err (is_empty value) InvalidVariant;
  _ ← guard_err (MAX_VARIANT_BYTES <? len value) InvalidVariant;
  _ ← guard_err (negb (all_bytes variant_byte value)) InvalidVariant;
  Ok value.
Record ProviderEvaluation := { pe_value : FlagValue; pe_variant : option string; pe_reason : ProviderReason }.
Definition ProviderEvaluation_new (v : FlagValue) : ProviderEvaluation :=
  {| pe_value := v; pe_variant := None; pe_reason := ReasonUnknown |}.
Definition with_variant (variant : string) (e : ProviderEvaluation) : result ProviderResponseError ProviderEvaluation :=
  v ← Variant_new variant; Ok {| pe_value := pe_value e; pe_variant := Some v; pe_reason := pe_reason e |}.
Definition with_reason (r : ProviderReason) (e : ProviderEvaluation) : ProviderEvaluation :=
  {| pe_value := pe_value e; pe_variant := pe_variant e; pe_reason := r |}.
Record ProviderRequest := { rq_key : string; rq_kind : FlagValueKind; rq_context : EvaluationContext }.

(** *** The static provider *)
Record StaticEntry := { se_value : FlagValue; se_variant : string }.
Definition StaticProvider : Type := gmap string StaticEntry.
Inductive StaticProviderError := StaticCapacity | StaticInvalidValue.
Definition static_set `{FlagValueType T} (flag : Flag T) (value : T) (p : StaticProvider)
    : result StaticProviderError StaticProvider :=
  _ ← map_err (fun _ => StaticInvalidValue) (validate value);
  let at_capacity := MAX_STATIC_FLAGS <=? Z.of_nat (size p) in
  let entry := {| se_value := into_untyped value; se_variant := "static" |} in
  match p !! flag_key flag with
  | Some _ => Ok (<[flag_key flag := entry]> p)
  | None => _ ← guard_err at_capacity StaticCapacity; Ok (<[flag_key flag := entry]> p)
  end.
Definition static_evaluate (p : StaticProvider) (q : ProviderRequest) : result ProviderError ProviderEvaluation :=
  entry ← ok_or (p !! rq_key q) FlagNotFound;
  _ ← guard_err (negb (bool_decide (kind (se_value entry) = rq_kind q))) InvalidResponse;
  Ok {| pe_value := se_value entry; pe_variant := Some (se_variant entry); pe_reason := ReasonStatic |}.

(** *** The OpenFeature adapter *)
Inductive SdkReason := SdkStatic | SdkTargetingMatch | SdkSplit | SdkDisabled | SdkDefault | SdkCached | SdkUnknown | SdkError | SdkOther (s : string).
Inductive SdkErrorCode :=
| SdkProviderNotReady | SdkGeneral (message : string) | SdkFlagNotFound | SdkTargetingKeyMissing | SdkInvalidContext
| SdkParseError | SdkTypeMismatch.
Inductive SdkValue := SdkBool (b : bool) | SdkInt (n : Z) | SdkFloat (x : f64) | SdkString (s : string) | SdkArray | SdkStruct.
(** A field of the SDK's context; an identifier is shown by the [uuid] crate. *)
Inductive SdkField := FieldUuid (id : Z) | FieldString (s : string) | FieldBool (b : bool) | FieldInt (n : Z).
Record SdkContext := { targeting_key : option Z; custom_fields : gmap string SdkField }.
Record SdkDetails (A : Type) := { sd_value : A; sd_variant : option string; sd_reason : option SdkReason }.
Arguments sd_value {A}.
Arguments sd_variant {A}.
Arguments sd_reason {A}.
(** What one call of the SDK's provider returns; the fields of a structure come in the
    order of the SDK's hash map. *)
Class SdkProvider := {
  sdk_ready : bool;
  resolve_bool_value : string -> SdkContext -> result SdkErrorCode (SdkDetails bool);
  resolve_int_value : string -> SdkContext -> result SdkErrorCode (SdkDetails Z);
  resolve_float_value : string -> SdkContext -> result SdkErrorCode (SdkDetails f64);
  resolve_string_value : string -> SdkContext -> result SdkErrorCode (SdkDetails string);
  resolve_struct_value : string -> SdkContext -> result SdkErrorCode (SdkDetails (list (string * SdkValue)));
}.
Definition sdk_field (v : ContextValue) : SdkField :=
  match v with CString s => FieldString s | CBoolean b => FieldBool b | CInteger n => FieldInt n end.
Definition add_custom_field (name : string) (f : SdkField) (m : gmap string SdkField) : gmap string SdkField := <[name := f]> m.
Definition sdk_context (c : EvaluationContext) : SdkContext :=
  let m := match ctx_tenant_id c with Some t => add_custom_field "tenant_id" (FieldUuid t) ∅ | None => ∅ end in
  let m := match ctx_principal_kind c with
           | Some k => add_custom_field "principal_kind"
                         (FieldString match k with User => "user" | ServiceAccount => "service_account" end) m
           | None => m
           end in
  {| targeting_key := ctx_subject_id c;
     custom_fields := map_fold (fun a v m => add_custom_field (attribute_name a) (sdk_field v) m) m (attributes c) |}.
Definition map_value {A B} (f : A -> result SdkErrorCode B) (d : SdkDetails A) : result SdkErrorCode (SdkDetails B) :=
  b ← f (sd_value d); Ok {| sd_value := b; sd_variant := sd_variant d; sd_reason := sd_reason d |}.
Definition sdk_scalar (v : SdkValue) : result SdkErrorCode FlagValue :=
  match v with
  | SdkBool b => Ok (VBoolean b)
  | SdkInt n => Ok (VInteger n)
  | SdkFloat x => map_err (fun _ => SdkTypeMismatch) (FlagValue_float x)
  | SdkString s => x ← map_err (fun _ => SdkTypeMismatch) (FlagString_new s); Ok (VString x)
  | SdkArray | SdkStruct => Err SdkTypeMismatch
  end.
Fixpoint sdk_fields (l : list (string * SdkValue)) : result SdkErrorCode (list (string * FlagValue)) :=
  match l with
  | [] => Ok []
  | (key, v) :: l' => x ← sdk_scalar v; rest ← sdk_fields l'; Ok ((key, x) :: rest)
  end.
Definition bounded_sdk_object (fields : list (string * SdkValue)) : result SdkErrorCode FlagObject :=
  _ ← guard_err (MAX_FLAG_OBJECT_FIELDS <? Z.of_nat (length fields)) SdkTypeMismatch;
  l ← sdk_fields fields;
  map_err (fun _ => SdkTypeMismatch) (FlagObject_new l).
Definition map_sdk_reason (r : option SdkReason) : ProviderReason :=
  match r with
  | Some SdkStatic => ReasonStatic
  | Some SdkTargetingMatch => ReasonTargetingMatch
  | Some SdkSplit => ReasonSplit
  | Some SdkDisabled => ReasonDisabled
  | Some (SdkDefault | SdkCached | SdkUnknown | SdkError | SdkOther _) | None => ReasonUnknown
  end.
Definition map_sdk_details (d : SdkDetails FlagValue) : result ProviderError ProviderEvaluation :=
  variant ← match sd_variant d with
            | Some v => x ← map_err (fun _ => InvalidResponse) (Variant_new v); Ok (Some x)
            | None => Ok None
            end;
  Ok {| pe_value := sd_value d; pe_variant := variant; pe_reason := map_sdk_reason (sd_reason d) |}.
Definition map_sdk_error (e : SdkErrorCode) : ProviderError :=
  match e with
  | SdkProviderNotReady | SdkGeneral _ => ProviderUnavailable
  | SdkFlagNotFound => FlagNotFound
  | SdkTargetingKeyMissing | SdkInvalidContext => ContextRejected
  | SdkParseError | SdkTypeMismatch => InvalidResponse
  end.
Definition open_feature_evaluate (sdk : SdkProvider) (q : ProviderRequest) : result ProviderError ProviderEvaluation :=
  _ ← guard_err (negb sdk_ready) ProviderUnavailable;
  let c := sdk_context (rq_context q) in
  let key := rq_key q in
  details ← map_err map_sdk_error
    match rq_kind q with
    | KBoolean => resolve_bool_value key c ≫= map_value (fun b => Ok (VBoolean b))
    | KInteger => resolve_int_value key c ≫= map_value (fun n => Ok (VInteger n))
    | KFloat => resolve_float_value key c ≫= map_value (fun x => map_err (fun _ => SdkTypeMismatch) (FlagValue_float x))
    | KString => resolve_string_value key c ≫=
                 map_value (fun s => x ← map_err (fun _ => SdkTypeMismatch) (FlagString_new s); Ok (VString x))
    | KObject => resolve_struct_value key c ≫= map_value (fun l => o ← bounded_sdk_object l; Ok (FlagValue_object o))
    end;
  map_sdk_details details.

(** ** Exposures *)
Definition MAX_MEMORY_EXPOSURES : Z := 4096.
Inductive FailureDefaultReason := FailTimeout | FailUnavailable | FailNotFound | FailContextRejected | FailInvalidResponse.
Inductive EvaluationSource := FromProvider | FromCache | FailureDefault (r : FailureDefaultReason).
Record ExposureRecord := {
  occurred_at : Z;
  xr_flag_key : string;
  xr_value_kind : FlagValueKind;
  xr_purpose : FlagPurpose;
  xr_provider : ProviderKind;
  xr_source : EvaluationSource;
  xr_reason : option ProviderReason;
  xr_variant : option string;
  xr_subject_id : option Z;
  xr_tenant_id : option Z;
  xr_temporary : bool;
}.
Inductive ExposureRecordError := ExposureFull | ExposureClosed.
(** A sink: it must answer at once, and may refuse. *)
Class ExposureRecorder (S : Type) := try_record : ExposureRecord -> ST S ExposureRecordError unit.
Inductive ExposureCapacityError := InvalidCapacity.
Definition validate_capacity (capacity maximum : Z) : result ExposureCapacityError unit :=
  if (1 <=? capacity) && (capacity <=? maximum) then Ok tt else Err InvalidCapacity.
(** What [try_lock] found. *)
Inductive TryLock := Acquired | WouldBlock | Poisoned.
Definition map_try_lock_error (l : TryLock) : option ExposureRecordError :=
  match l with Acquired => None | WouldBlock => Some ExposureFull | Poisoned => Some ExposureClosed end.
Record MemoryExposureRecorder := { xr_capacity : Z; records : list ExposureRecord; xr_lock : TryLock }.
Definition MemoryExposureRecorder_new (capacity : Z) : result ExposureCapacityError MemoryExposureRecorder :=
  _ ← validate_capacity capacity MAX_MEMORY_EXPOSURES;
  Ok {| xr_capacity := capacity; records := []; xr_lock := Acquired |}.
Definition memory_records (r : MemoryExposureRecorder) : result ExposureRecordError (list ExposureRecord) :=
  match map_try_lock_error (xr_lock r) with Some e => Err e | None => Ok (records r) end.
#[global] Instance memory_recorder : ExposureRecorder MemoryExposureRecorder := fun x r =>
  match map_try_lock_error (xr_lock r) with
  | Some e => (Err e, r)
  | None =>
      let kept := if Z.of_nat (length (records r)) =? xr_capacity r then tail (records r) else records r in
      (Ok tt, {| xr_capacity := xr_capacity r; records := kept ++ [x]; xr_lock := xr_lock r |})
  end.

(** ** The evaluator *)
Definition MAX_PROVIDER_TIMEOUT : Z := Duration.from_secs 10.
Definition MAX_CACHE_TTL : Z := Duration.from_secs 600.
Definition MAX_CACHE_ENTRIES : Z := 10000.
Record EvaluationPolicy := { provider_timeout : Z; cache_ttl : Z; cache_capacity : Z }.
Inductive EvaluationPolicyError := ZeroTimeout | TimeoutTooLong | CacheTtlTooLong | CacheCapacityTooLarge | InconsistentCache.
Definition EvaluationPolicy_new (timeout ttl capacity : Z) : result EvaluationPolicyError EvaluationPolicy :=
  _ ← guard_err (Duration.is_zero timeout) ZeroTimeout;
  _ ← guard_err (MAX_PROVIDER_TIMEOUT <? timeout) TimeoutTooLong;
  _ ← guard_err (MAX_CACHE_TTL <? ttl) CacheTtlTooLong;
  _ ← guard_err (MAX_CACHE_ENTRIES <? capacity) CacheCapacityTooLarge;
  _ ← guard_err (negb (Bool.eqb (Duration.is_zero ttl) (capacity =? 0))) InconsistentCache;
  Ok {| provider_timeout := timeout; cache_ttl := ttl; cache_capacity := capacity |}.
Definition without_cache (timeout : Z) : result EvaluationPolicyError EvaluationPolicy :=
  EvaluationPolicy_new timeout Duration.ZERO 0.
Definition EvaluationPolicy_default : EvaluationPolicy :=
  {| provider_timeout := Duration.from_millis 100; cache_ttl := Duration.from_secs 30; cache_capacity := 1024 |}.

Record CacheKey := { ck_flag_key : string; ck_value_kind : FlagValueKind; ck_context : EvaluationContext }.
#[global] Instance PrincipalKind_eq : EqDecision PrincipalKind.
Proof. solve_decision. Defined.
#[global] Instance EvaluationContext_eq : EqDecision EvaluationContext.
Proof. solve_decision. Defined.
#[global] Instance CacheKey_eq : EqDecision CacheKey.
Proof. solve_decision. Defined.
#[global] Instance PrincipalKind_countable : Countable PrincipalKind.
Proof.
  refine (inj_countable' (fun k => match k with User => true | ServiceAccount => false end)
            (fun b => if b then User else ServiceAccount) _). by intros [].
Defined.
#[global] Instance FlagValueKind_countable : Countable FlagValueKind.
Proof.
  refine (inj_countable (fun k => match k with KBoolean => 0%nat | KInteger => 1%nat | KFloat => 2%nat | KString => 3%nat | KObject => 4%nat end)
            (fun n => match n with 0 => Some KBoolean | 1 => Some KInteger | 2 => Some KFloat | 3 => Some KString | _ => Some KObject end%nat) _).
  by intros [].
Defined.
#[global] Instance EvaluationContext_countable : Countable EvaluationContext.
Proof.
  refine (inj_countable'
    (fun c => (ctx_subject_id c, ctx_tenant_id c, ctx_principal_kind c, attributes c, ctx_encoded_len c))
    (fun '(s, t, k, m, n) => {| ctx_subject_id := s; ctx_tenant_id := t; ctx_principal_kind := k; attributes := m;
                                ctx_encoded_len := n |}) _). by intros [].
Defined.
#[global] Instance CacheKey_countable : Countable CacheKey.
Proof.
  refine (inj_countable' (fun k => (ck_flag_key k, ck_value_kind k, ck_context k))
            (fun '(f, k, c) => {| ck_flag_key := f; ck_value_kind := k; ck_context := c |}) _). by intros [].
Defined.
Record CacheEntry := { ce_value : FlagValue; ce_reason : ProviderReason; ce_variant : option string; ce_expires_at : Z }.
Record EvaluationCache := { entries : gmap CacheKey CacheEntry; insertion_order : list CacheKey }.
Definition EvaluationCache_new : EvaluationCache := {| entries := ∅; insertion_order := [] |}.
Definition cache_get (key : CacheKey) (now : Z) (c : EvaluationCache) : option CacheEntry * EvaluationCache :=
  match entries c !! key with
  | Some e => if ce_expires_at e <=? now
              then (None, {| entries := delete key (entries c);
                             insertion_order := filter (fun k => k <> key) (insertion_order c) |})
              else (Some e, c)
  | None => (None, c)
  end.
(** The loop that makes room: the oldest keys go until the map is below its capacity. *)
Fixpoint evict (capacity : Z) (order : list CacheKey) (m : gmap CacheKey CacheEntry) : gmap CacheKey CacheEntry * list CacheKey :=
  if capacity <=? Z.of_nat (size m)
  then match order with
       | [] => (m, [])
       | oldest :: order' => evict capacity order' (delete oldest m)
       end
  else (m, order).
Definition cache_insert (key : CacheKey) (e : CacheEntry) (capacity : Z) (c : EvaluationCache) : EvaluationCache :=
  match entries c !! key with
  | Some _ => {| entries := <[key := e]> (entries c); insertion_order := insertion_order c |}
  | None =>
      let '(m, order) := evict capacity (insertion_order c) (entries c) in
      {| entries := <[key := e]> m; insertion_order := order ++ [key] |}
  end.

Record Evaluation (T : Type) := {
  ev_value : T;
  ev_source : EvaluationSource;
  ev_provider_reason : option ProviderReason;
  ev_variant : option string;
}.
Arguments ev_value {T}.
Arguments ev_source {T}.
Arguments ev_provider_reason {T}.
Arguments ev_variant {T}.
Definition map_provider_error (e : ProviderError) : FailureDefaultReason :=
  match e with
  | ProviderUnavailable => FailUnavailable
  | FlagNotFound => FailNotFound
  | ContextRejected => FailContextRejected
  | InvalidResponse => FailInvalidResponse
  end.

Section evaluator.
Context {S : Type} `{ExposureRecorder S} (policy : EvaluationPolicy) (provider : ProviderKind).
Record Evaluator := { cache : EvaluationCache; sink : S }.
Definition Evaluator_new (sink : S) : Evaluator := {| cache := EvaluationCache_new; sink := sink |}.
Definition with_cache (c : EvaluationCache) (s : Evaluator) : Evaluator := {| cache := c; sink := sink s |}.

Definition cached (acquired : bool) (key : CacheKey) (now : Z) (s : Evaluator) : option CacheEntry * Evaluator :=
  if acquired then let '(r, c) := cache_get key now (cache s) in (r, with_cache c s) else (None, s).
Definition cache_success (acquired : bool) (key : CacheKey) (d : ProviderEvaluation) (now : Z) (s : Evaluator) : Evaluator :=
  if acquired
  then with_cache (cache_insert key {| ce_value := pe_value d; ce_reason := pe_reason d; ce_variant := pe_variant d;
                                       ce_expires_at := now + cache_ttl policy |} (cache_capacity policy) (cache s)) s
  else s.

Context `{FlagValueType T}.
Definition failure_default (flag : Flag T) (r : FailureDefaultReason) : Evaluation T :=
  {| ev_value := flag_default flag; ev_source := FailureDefault r; ev_provider_reason := None; ev_variant := None |}.
(** A sink that refuses is only counted. *)
Definition emit_exposure (at_ : Z) (flag : Flag T) (c : EvaluationContext) (e : Evaluation T) (s : Evaluator) : Evaluator :=
  let x := {| occurred_at := at_; xr_flag_key := flag_key flag; xr_value_kind := KIND T; xr_purpose := flag_purpose flag;
              xr_provider := provider; xr_source := ev_source e; xr_reason := ev_provider_reason e;
              xr_variant := ev_variant e; xr_subject_id := ctx_subject_id c; xr_tenant_id := ctx_tenant_id c;
              xr_temporary := match flag_lifecycle flag with Temporary _ _ => true | Permanent => false end |} in
  {| cache := cache s; sink := snd (try_record x (sink s)) |}.

(** What happens around one evaluation: whether the locks are free, the readings of
    the clock, what other evaluations do while the provider works, and its answer,
    [None] when it is late. *)
Record Occasion := {
  lookup_acquired : bool;
  lookup_at : Z;
  meanwhile : Evaluator -> Evaluator;
  answer_of : ProviderRequest -> option (result ProviderError ProviderEvaluation);
  store_acquired : bool;
  store_at : Z;
  exposed_at : Z;
}.
Definition cache_key (flag : Flag T) (c : EvaluationContext) : CacheKey :=
  {| ck_flag_key := flag_key flag; ck_value_kind := KIND T; ck_context := c |}.
(** The cached answer that can be used, if there is one. *)
Definition lookup (o : Occasion) (flag : Flag T) (c : EvaluationContext) (s : Evaluator) : option (Evaluation T) * Evaluator :=
  if 0 <? cache_capacity policy then
    let '(hit, s') := cached (lookup_acquired o) (cache_key flag c) (lookup_at o) s in
    (match hit with
     | Some e => match from_untyped (ce_value e) with
                 | Some v => Some {| ev_value := v; ev_source := FromCache; ev_provider_reason := Some (ce_reason e);
                                     ev_variant := ce_variant e |}
                 | None => None
                 end
     | None => None
     end, s')
  else (None, s).
Definition evaluate_provider (o : Occasion) (flag : Flag T) (c : EvaluationContext) (s : Evaluator) : Evaluation T * Evaluator :=
  match answer_of o {| rq_key := flag_key flag; rq_kind := KIND T; rq_context := c |} with
  | None => (failure_default flag FailTimeout, s)
  | Some (Err e) => (failure_default flag (map_provider_error e), s)
  | Some (Ok d) =>
      match from_untyped (pe_value d) with
      | None => (failure_default flag FailInvalidResponse, s)
      | Some v =>
          ({| ev_value := v; ev_source := FromProvider; ev_provider_reason := Some (pe_reason d); ev_variant := pe_variant d |},
           if 0 <? cache_capacity policy
           then cache_success (store_acquired o) (cache_key flag c) d (store_at o) s else s)
      end
  end.
Definition evaluate (o : Occasion) (flag : Flag T) (c : EvaluationContext) (s : Evaluator) : Evaluation T * Evaluator :=
  let '(hit, s) := lookup o flag c s in
  match hit with
  | Some e => (e, emit_exposure (exposed_at o) flag c e s)
  | None =>
      let '(e, s) := evaluate_provider o flag c (meanwhile o s) in
      (e, emit_exposure (exposed_at o) flag c e s)
  end.
End evaluator.
