(* ===== verification/FlagEvaluationTheorems.v ===== *)
(** * Theorems about feature-flag evaluation: where values come from *)
From S2P Require Import Prelude Machine Text Ordered AuthCore FlagValues FlagEvaluation.
From Stdlib Require Import Ascii.

(** ** Theorems about feature flags *)

(** ** Keys *)
(** The part of a key before its first dot. *)
Fixpoint before (s : string) : string :=
  match s with
  | EmptyString => EmptyString
  | String c s' => if is_byte "." c then EmptyString else String c (before s')
  end.
Lemma is_byte_true a b : is_byte a b = true <-> a = b.
Proof. apply Ascii.eqb_eq. Qed.
Lemma split_segments s : exists rest, split (is_byte ".") s = before s :: rest /\
  forall x, x ∈ rest <-> exists b r, s = b +:+ String "." r /\ x = before r.
Proof.
  induction s as [|c s (rest & Hs & IH)]; cbn [split before].
  { exists []. split; [done|]. intros x. split; [by intros ?%not_elem_of_nil|]. by intros ([|? ?] & r & ? & _). }
  destruct (is_byte "." c) eqn:E.
  - apply is_byte_true in E as <-. eexists. split; [done|]. intros x. rewrite Hs, elem_of_cons, IH. split.
    + intros [->|(b & r & -> & ->)]; [by exists "", s|]. by exists (String "." b), r.
    + intros ([|d b] & r & Hb & ->); cbn in Hb; injection Hb as ?; subst; [by left|]. right. eauto.
  - rewrite Hs. eexists. split; [done|]. intros x. rewrite IH. split.
    + intros (b & r & -> & ->). by exists (String c b), r.
    + intros ([|d b] & r & Hb & ->); cbn in Hb; injection Hb as ?; subst; [by rewrite (proj2 (is_byte_true _ _) eq_refl) in E|]. eauto.
Qed.
Lemma elem_of_segments s x : x ∈ split (is_byte ".") s <-> exists rest, segment_start s rest /\ x = before rest.
Proof.
  destruct (split_segments s) as (rest & -> & Hr). rewrite elem_of_cons, Hr. unfold segment_start. split.
  - intros [->|(b & r & -> & ->)]; eauto.
  - intros (r & [->|[b ->]] & ->); eauto 6.
Qed.
Lemma starts_lowercase_before s : starts_lowercase (before s) = starts_lowercase s.
Proof.
  destruct s as [|c s]; [done|]. cbn [before starts_lowercase]. destruct (is_byte "." c) eqn:E; [|done].
  by apply is_byte_true in E as <-.
Qed.
Lemma starts_with_before ns s : all_bytes (fun c => negb (is_byte "." c)) ns = true -> starts_with ns (before s) = starts_with ns s.
Proof.
  revert s. induction ns as [|a ns IH]; intros [|c s]; cbn [all_bytes before starts_with]; try done. intros [Ha Hn]%andb_true_iff.
  destruct (is_byte "." c) eqn:E; cbn [starts_with]; [|destruct (ascii_dec a c); auto].
  apply is_byte_true in E as <-. destruct (ascii_dec a "."); [|done]. subst. by rewrite (proj2 (is_byte_true _ _) eq_refl) in Ha.
Qed.
Lemma reserved_before s : is_reserved_namespace (before s) = is_reserved_namespace s.
Proof.
  unfold is_reserved_namespace. assert (Hn : Forall (fun ns => all_bytes (fun c => negb (is_byte "." c)) ns = true) RESERVED_NAMESPACES)
    by (repeat constructor).
  induction Hn as [|ns l Hns _ IH]; [done|]. cbn [existsb]. by rewrite IH, starts_with_before.
Qed.
Definition key_byte (c : ascii) : bool := name_byte c || is_byte "." c.
Lemma segments_bytes s : Forall (fun x => all_bytes name_byte x = true) (split (is_byte ".") s) <-> all_bytes key_byte s = true.
Proof.
  induction s as [|c s IH]; cbn [split all_bytes]; [by rewrite Forall_singleton|].
  unfold key_byte at 1. destruct (is_byte "." c) eqn:E.
  - rewrite orb_true_r, Forall_cons, IH. tauto.
  - rewrite orb_false_r, andb_true_iff, <- IH. destruct (split_segments s) as (rest & -> & _).
    rewrite !Forall_cons. cbn [all_bytes]. rewrite andb_true_iff. tauto.
Qed.
Lemma validate_segments_ok l : validate_segments l = Ok tt <->
  Forall (fun x => all_bytes name_byte x = true /\ starts_lowercase x = true /\ is_reserved_namespace x = false) l.
Proof.
  induction l as [|x l IH]; [done|]. cbn [validate_segments]. rewrite Forall_cons, <- IH.
  destruct (starts_lowercase x), (all_bytes name_byte x), (is_reserved_namespace x); cbn; intuition congruence.
Qed.

(** A flag key is accepted exactly when it is one to 128 bytes of lowercase
    letters, digits, dashes, underscores and dots, and at every position where a
    segment starts stands a lowercase letter and no reserved security or compatibility
    namespace, so that no prefix hides one. *)
Theorem flag_key_exact key k : FlagKey_new key = Ok k <->
  k = key /\ 0 < len key <= MAX_FLAG_KEY_BYTES /\ all_bytes key_byte key = true /\
  forall rest, segment_start key rest ->
    starts_lowercase rest = true /\ forall ns, ns ∈ RESERVED_NAMESPACES -> starts_with ns rest = false.
Proof.
  assert (Hseg : validate_segments (split (is_byte ".") key) = Ok tt <-> all_bytes key_byte key = true /\
    forall rest, segment_start key rest -> starts_lowercase rest = true /\ is_reserved_namespace rest = false).
  { rewrite validate_segments_ok, <- segments_bytes, !Forall_forall. split.
    - intros Hf. split; [intros x Hx; by apply Hf|]. intros rest Hr.
      destruct (Hf (before rest)) as (_ & H1 & H2); [apply elem_of_segments; eauto|].
      by rewrite starts_lowercase_before in H1; rewrite reserved_before in H2.
    - intros [Hb Hr] x Hx. split; [by apply Hb|]. apply elem_of_segments in Hx as (rest & Hrest & ->).
      rewrite starts_lowercase_before, reserved_before. by apply Hr. }
  assert (Hres : forall s, is_reserved_namespace s = false <-> forall ns, ns ∈ RESERVED_NAMESPACES -> starts_with ns s = false).
  { intros s. unfold is_reserved_namespace. rewrite <- not_true_iff_false, existsb_exists. split.
    - intros Hn ns Hns. apply not_true_iff_false. intros Ht. apply Hn. exists ns. by rewrite <- list_elem_of_In.
    - intros Hn (ns & Hns%list_elem_of_In & Ht). by rewrite (Hn _ Hns) in Ht. }
  assert (Hfin : (forall rest, segment_start key rest -> starts_lowercase rest = true /\ is_reserved_namespace rest = false)
    <-> forall rest, segment_start key rest -> starts_lowercase rest = true /\ forall ns, ns ∈ RESERVED_NAMESPACES -> starts_with ns rest = false).
  { split; intros Hr rest Hs; destruct (Hr rest Hs) as [H1 H2]; split; auto; by apply Hres. }
  rewrite <- Hfin, <- Hseg. unfold FlagKey_new. pose proof (is_empty_len key) as He. pose proof (len_nonneg key).
  destruct (is_empty key); cbn [guard_err mbind result_bind].
  - split; [done|]. intros (_ & ? & _). destruct He as [He _]. specialize (He eq_refl). lia.
  - assert (len key <> 0) by (intros E0; by apply He in E0).
    destruct (MAX_FLAG_KEY_BYTES <? len key) eqn:El; cbn [guard_err mbind result_bind]; [split; [done|]; blia|].
    destruct (validate_segments _) as [[]|]; cbn; [|split; [done | intros (_ & _ & ?); done]].
    split; [intros [= <-]; split_and!; auto; blia | by intros (-> & _)].
Qed.
Lemma flag_key_exact_witness : FlagKey_new "checkout.new-flow" = Ok "checkout.new-flow" /\ starts_with "auth" "new-flow" = false.
Proof.
  split; [reflexivity|].
  refine (proj2 (proj2 (proj2 (proj2 (proj1 (flag_key_exact "checkout.new-flow" "checkout.new-flow") _))) "new-flow" _) "auth" _).
  - reflexivity.
  - right. by exists "checkout".
  - vm_compute. set_solver.
Defined.

(** ** The cache *)
(** The order lists exactly the cached keys, once each, within the capacity. *)
Record cache_wf (capacity : Z) (c : EvaluationCache) : Prop := {
  order_nodup : NoDup (insertion_order c);
  order_keys : forall k, k ∈ insertion_order c <-> is_Some (entries c !! k);
  within_capacity : Z.of_nat (size (entries c)) <= capacity;
}.
Lemma evict_spec capacity order m m' order' : 0 < capacity -> NoDup order ->
  (forall k, k ∈ order <-> is_Some (m !! k)) -> evict capacity order m = (m', order') ->
  order' `suffix_of` order /\ Z.of_nat (size m') < capacity /\ forall k e, m' !! k = Some e <-> m !! k = Some e /\ k ∈ order'.
Proof.
  intros Hc. revert m. induction order as [|o order IH]; intros m Hn Hk; cbn [evict].
  - assert (m = ∅) as -> by (apply map_empty; intros k; apply eq_None_not_Some; rewrite <- Hk; apply not_elem_of_nil).
    rewrite map_size_empty. case_match eqn:E; [apply Z.leb_le in E; change (Z.of_nat 0) with 0 in E; lia|]. intros [= <- <-]. split_and!; [done | by rewrite map_size_empty|].
    intros k e. rewrite lookup_empty. naive_solver.
  - case_match eqn:E.
    + apply NoDup_cons in Hn as [Ho Hn]. intros He. destruct (IH (delete o m)) as (Hs & Hz & Hl); auto.
      { intros k. rewrite lookup_delete_is_Some, <- Hk, elem_of_cons. set_solver. }
      split_and!; [by apply suffix_cons_r | done|]. intros k e. rewrite Hl, lookup_delete_Some.
      split; [tauto|]. intros [? Hin]. split_and!; auto. intros ->. by apply Ho, (elem_of_suffix _ _ _ Hin).
    + intros [= <- <-]. split_and!; [done | blia|]. intros k e. rewrite Hk. split; [|tauto]. intros He. by split; [|exists e].
Qed.
Lemma NoDup_suffix {A} (l k : list A) : l `suffix_of` k -> NoDup k -> NoDup l.
Proof. intros [x ->] Hn. by apply NoDup_app in Hn as (_ & _ & ?). Qed.

Lemma cache_get_wf capacity key now c r c' : cache_wf capacity c -> cache_get key now c = (r, c') -> cache_wf capacity c'.
Proof.
  intros [Hn Hk Hz]. unfold cache_get. repeat case_match; intros [= <- <-]; try by split.
  split; cbn.
  - by apply NoDup_filter.
  - intros k. rewrite list_elem_of_filter, Hk, lookup_delete_is_Some. naive_solver.
  - rewrite map_size_delete. case_match; cbn; lia.
Qed.
Lemma cache_get_hit key now c e c' : cache_get key now c = (Some e, c') ->
  entries c !! key = Some e /\ now < ce_expires_at e /\ c' = c.
Proof. unfold cache_get. repeat case_match; intros [= <- <-]. split_and!; auto; blia. Qed.
Lemma cache_get_entries key now c r c' : cache_get key now c = (r, c') -> entries c' ⊆ entries c.
Proof. unfold cache_get. repeat case_match; intros [= <- <-]; try done. cbn. apply delete_subseteq. Qed.
Lemma cache_insert_wf capacity key e c : 0 < capacity -> cache_wf capacity c -> cache_wf capacity (cache_insert key e capacity c).
Proof.
  intros Hc [Hn Hk Hz]. unfold cache_insert. destruct (entries c !! key) eqn:E.
  - assert (is_Some (entries c !! key)) as Hs by by eexists. split; cbn; [done | | by rewrite map_size_insert_Some].
    intros k. rewrite lookup_insert_is_Some, Hk. destruct (decide (key = k)) as [->|]; naive_solver.
  - destruct (evict _ _ _) as [m order] eqn:Ev. destruct (evict_spec _ _ _ _ _ Hc Hn Hk Ev) as (Hs & Hl & He).
    assert (Hord : forall k, k ∈ order <-> is_Some (m !! k)).
    { intros k. split; [|intros [x [_ Hx]%He]; done]. intros Hin.
      destruct (proj1 (Hk k) (elem_of_suffix _ _ _ Hin Hs)) as [x Hx]. exists x. by apply He. }
    assert (Hno : m !! key = None) by (apply eq_None_not_Some; intros [x [Hx _]%He]; congruence).
    split; cbn.
    + apply NoDup_app. split_and!; [by eapply NoDup_suffix | | apply NoDup_singleton].
      intros k Hin ->%list_elem_of_singleton. apply Hord in Hin as [x Hx]. congruence.
    + intros k. rewrite elem_of_app, list_elem_of_singleton, lookup_insert_is_Some, Hord. destruct (decide (key = k)); naive_solver.
    + rewrite map_size_insert_None by done. lia.
Qed.
Lemma cache_insert_entries capacity key e c k x : 0 < capacity -> cache_wf capacity c ->
  entries (cache_insert key e capacity c) !! k = Some x -> (k = key /\ x = e) \/ entries c !! k = Some x.
Proof.
  intros Hc [Hn Hk Hz]. unfold cache_insert. destruct (entries c !! key) eqn:E.
  - cbn. rewrite lookup_insert_Some. naive_solver.
  - destruct (evict _ _ _) as [m order] eqn:Ev. destruct (evict_spec _ _ _ _ _ Hc Hn Hk Ev) as (_ & _ & He).
    cbn. rewrite lookup_insert_Some, He. naive_solver.
Qed.
Lemma cache_insert_lookup capacity key e c : entries (cache_insert key e capacity c) !! key = Some e.
Proof. unfold cache_insert. repeat case_match; cbn; by rewrite lookup_insert_eq. Qed.

(** ** Histories of an evaluator *)
Section histories.
Context {S : Type} `{ExposureRecorder S} (policy : EvaluationPolicy).
(** An answer the provider gave: to which request, and when it came. *)
Definition Answer : Type := ProviderRequest * ProviderEvaluation * Z.
(** What evaluating [flag] in [c] asks, and what it learns if the provider answers in time. *)
Definition question `{FlagValueType T} (flag : Flag T) (c : EvaluationContext) : ProviderRequest :=
  {| rq_key := flag_key flag; rq_kind := KIND T; rq_context := c |}.
Definition learned `{FlagValueType T} (o : Occasion (S := S)) (flag : Flag T) (c : EvaluationContext) : list Answer :=
  match answer_of o (question flag c) with
  | Some (Ok d) => [(question flag c, d, store_at o)]
  | _ => []
  end.
(** The parts of evaluations between which others may run, for flags of any type,
    with the answers given so far: a look at the cache, the provider's answer and what
    is stored of it, and the exposure. *)
Inductive section : relation (Evaluator (S := S) * list Answer) :=
| section_lookup T (TV : FlagValueType T) o (flag : Flag T) c s h :
    section (s, h) (snd (lookup policy o flag c s), h)
| section_answer T (TV : FlagValueType T) o (flag : Flag T) c s h :
    section (s, h) (snd (evaluate_provider policy o flag c s), h ++ learned o flag c)
| section_expose T (TV : FlagValueType T) provider at_ (flag : Flag T) c e s h :
    section (s, h) (emit_exposure provider at_ flag c e s, h).
Definition reachable (s : Evaluator) (h : list Answer) : Prop :=
  exists x, rtc section (Evaluator_new x, []) (s, h).

(** Every entry is an answer of the provider to the request with the parts of its key. *)
Definition asked (k : CacheKey) : ProviderRequest :=
  {| rq_key := ck_flag_key k; rq_kind := ck_value_kind k; rq_context := ck_context k |}.
Definition entries_answered (s : Evaluator (S := S)) (h : list Answer) : Prop :=
  forall k e, entries (cache s) !! k = Some e -> exists d t, (asked k, d, t) ∈ h /\
    e = {| ce_value := pe_value d; ce_reason := pe_reason d; ce_variant := pe_variant d; ce_expires_at := t + cache_ttl policy |}.
Definition history_ok (s : Evaluator (S := S)) (h : list Answer) : Prop :=
  cache_wf (cache_capacity policy) (cache s) /\ entries_answered s h.
Lemma entries_answered_more s h h' : entries_answered s h -> h ⊆ h' -> entries_answered s h'.
Proof. intros Ha Hh k e He. destruct (Ha k e He) as (d & t & Hin & ->). eauto. Qed.
Lemma asked_cache_key `{FlagValueType T} (flag : Flag T) c : asked (cache_key flag c) = question flag c.
Proof. reflexivity. Qed.
Lemma cached_ok a k t s h : history_ok s h -> history_ok (snd (cached a k t s)) h.
Proof.
  intros [Hw Ha]. destruct a; cbn; [|done]. destruct (cache_get k t (cache s)) as [r c] eqn:E; cbn.
  split; [by eapply cache_get_wf|]. intros k' e He. apply Ha. eapply lookup_weaken; [exact He|]. by eapply cache_get_entries.
Qed.
Lemma cache_success_ok a k d t s h : 0 < cache_capacity policy -> history_ok s h -> (asked k, d, t) ∈ h ->
  history_ok (cache_success policy a k d t s) h.
Proof.
  intros Hc [Hw Ha] Hin. destruct a; cbn; [|done]. split; [by apply cache_insert_wf|]. intros k' e He.
  apply cache_insert_entries in He as [[-> ->]|He]; auto. by exists d, t.
Qed.
Lemma section_ok s h s' h' : 0 < cache_capacity policy -> section (s, h) (s', h') -> history_ok s h -> history_ok s' h'.
Proof.
  intros Hc Hs Hok. inversion Hs as [T TV o flag c s0 h0|T TV o flag c s0 h0|T TV prov t flag c e s0 h0]; subst; [| |done].
  - unfold lookup. rewrite (proj2 (Z.ltb_lt _ _) Hc). destruct (cached _ _ _ _) as [r s1] eqn:E. cbn.
    change s1 with (snd (r, s1)). rewrite <- E. by apply cached_ok.
  - assert (history_ok s (h ++ learned o flag c)) as Hok'.
    { destruct Hok as [? ?]. split; [done|]. eapply entries_answered_more; [done|]. set_solver. }
    unfold evaluate_provider, learned, question in *. destruct (answer_of _ _) as [[d|]|]; [|done|done].
    destruct (from_untyped _); [|done]. cbn [snd]. rewrite (proj2 (Z.ltb_lt _ _) Hc).
    apply cache_success_ok; [done | done |]. rewrite asked_cache_key. set_solver.
Qed.
Lemma reachable_ok s h : 0 < cache_capacity policy -> reachable s h -> history_ok s h.
Proof.
  intros Hc [x Hr]. assert (Hok : history_ok (Evaluator_new x) []).
  { split; [split; cbn | by intros k e; cbn; rewrite lookup_empty].
    - by apply NoDup_nil.
    - intros k. rewrite lookup_empty. split; [by intros ?%not_elem_of_nil | by intros []].
    - rewrite map_size_empty. lia. }
  remember (Evaluator_new x, []) as a eqn:Ea. remember (s, h) as b eqn:Eb.
  revert s h Eb. assert (Hp : history_ok a.1 a.2) by by subst. clear Ea Hok.
  induction Hr as [a|[s1 h1] [s2 h2] b Hs _ IH]; intros s h ->; [done|]. by eapply IH; [eapply section_ok|].
Qed.

(** ** One evaluation *)
Context `{FlagValueType T} (provider : ProviderKind).
Implicit Types (flag : Flag T) (c : EvaluationContext) (o : Occasion (S := S)) (e : Evaluation T).
(** Why the answer cannot be used. *)
Definition failure_of o flag c : option FailureDefaultReason :=
  match answer_of o (question flag c) with
  | None => Some FailTimeout
  | Some (Err x) => Some (map_provider_error x)
  | Some (Ok d) => match @from_untyped T _ (pe_value d) with None => Some FailInvalidResponse | Some _ => None end
  end.
(** The evaluation shows the answer [d]. *)
Definition shows e (d : ProviderEvaluation) : Prop :=
  from_untyped (pe_value d) = Some (ev_value e) /\ ev_provider_reason e = Some (pe_reason d) /\ ev_variant e = pe_variant d.

(** C37. The value of a flag always comes from where the evaluation says, whatever other
    evaluations, of flags of any type, do in between.  A
    cached value is an answer that the provider gave when some evaluation asked it for
    exactly this flag key, kind of value and context, still within its lifetime; a
    provider's value is its answer to this request; and any failure, late answers and
    answers of another type included, gives the flag's own default. *)
Theorem evaluation_justified o flag c s h e s' : reachable s h ->
  evaluate policy provider o flag c s = (e, s') ->
  let request := {| rq_key := flag_key flag; rq_kind := KIND T; rq_context := c |} in
  match ev_source e with
  | FromCache => exists d t, (request, d, t) ∈ h /\ lookup_at o < t + cache_ttl policy /\ shows e d
  | FromProvider => exists d, answer_of o request = Some (Ok d) /\ shows e d
  | FailureDefault r => ev_value e = flag_default flag /\ failure_of o flag c = Some r
  end.
Proof.
  intros Hr. unfold evaluate, lookup. destruct (Z.ltb_spec 0 (cache_capacity policy)) as [Hc|_].
  1: destruct (reachable_ok _ _ Hc Hr) as [_ Ha]; unfold cached; destruct (lookup_acquired o).
  1: destruct (cache_get _ _ _) as [[x|] c'] eqn:Eg.
  1: destruct (from_untyped (ce_value x)) as [v|] eqn:Ev.
  { intros [= <- <-]. cbn. apply cache_get_hit in Eg as (Hx & Hlt & _). destruct (Ha _ _ Hx) as (d & t & Hin & ->).
    exists d, t. by repeat split. }
  all: unfold evaluate_provider, failure_of, question; destruct (answer_of _ _) as [[d|]|].
  all: try destruct (from_untyped (pe_value d)) eqn:Ed; intros [= <- <-]; cbn; try done.
  all: exists d; by repeat split.
Qed.

(** An answer is served again from the cache: after an evaluation that asked the
    provider and could store the answer, the next one for the same flag and context
    within its lifetime returns the same value without asking the provider. *)
Theorem cached_answer_served_again o o' flag c s e s' : 0 < cache_capacity policy ->
  evaluate policy provider o flag c s = (e, s') -> ev_source e = FromProvider -> store_acquired o = true ->
  lookup_acquired o' = true -> lookup_at o' < store_at o + cache_ttl policy ->
  fst (evaluate policy provider o' flag c s') =
    {| ev_value := ev_value e; ev_source := FromCache; ev_provider_reason := ev_provider_reason e; ev_variant := ev_variant e |}.
Proof.
  intros Hc He Hsrc Hst Hl Ht. unfold evaluate in He. destruct (lookup _ _ _ _ _) as [[x|] s1] eqn:El.
  { exfalso. injection He as -> _. revert El. unfold lookup. repeat case_match; intros [= Hx ?]; subst; done. }
  unfold evaluate_provider in He. rewrite (proj2 (Z.ltb_lt _ _) Hc), Hst in He.
  destruct (answer_of _ _) as [[d|]|]; [|by injection He as <- _..].
  destruct (from_untyped (pe_value d)) as [v|] eqn:Ev; [|by injection He as <- _]. injection He as <- <-. cbn.
  unfold evaluate, lookup, cached. rewrite (proj2 (Z.ltb_lt _ _) Hc), Hl. unfold cache_get. cbn.
  rewrite cache_insert_lookup. cbn. rewrite (proj2 (Z.leb_gt _ _) Ht). cbn. by rewrite Ev.
Qed.

(** The cache keeps its order and its bound: whatever evaluations interleave, its
    insertion order lists exactly the cached keys, once each, and there are never more
    than the policy allows. *)
Theorem flag_cache_invariant s h : 0 < cache_capacity policy -> reachable s h -> cache_wf (cache_capacity policy) (cache s).
Proof. intros Hc Hr. by apply (reachable_ok _ _ Hc Hr). Qed.
End histories.

(** ** Typed values *)
(** What the evaluator relies on in [FlagValueType]. *)
Class FlagValueLaws (T : Type) `{FlagValueType T} := {
  from_into (v : T) : from_untyped (into_untyped v) = Some v;
  kind_into (v : T) : kind (into_untyped v) = KIND T;
  from_kind (x : FlagValue) : is_Some (@from_untyped T _ x) <-> kind x = KIND T;
}.
Ltac solve_flag_laws := split; [by intros [] || done | done | intros []; cbn; (split; intros Hk; [by destruct Hk | first [done | by eexists]])].
#[global] Instance bool_flag_laws : FlagValueLaws bool.
Proof. solve_flag_laws. Qed.
#[global] Instance i64_flag_laws : FlagValueLaws Z.
Proof. solve_flag_laws. Qed.
#[global] Instance f64_flag_laws : FlagValueLaws f64.
Proof. solve_flag_laws. Qed.
#[global] Instance string_flag_laws : FlagValueLaws FlagString.
Proof. solve_flag_laws. Qed.
#[global] Instance object_flag_laws : FlagValueLaws FlagObject.
Proof. solve_flag_laws. Qed.

(** Setting a flag in the static provider and evaluating it gives the value back,
    for every type of flag: without a cached answer the evaluator returns exactly the
    value that was set, and no other flag is affected. *)
Theorem static_provider_roundtrip {S} `{ExposureRecorder S} `{FlagValueLaws T} policy provider (o : Occasion (S := S))
    (flag : Flag T) v p p' c s : static_set flag v p = Ok p' ->
  (forall q, answer_of o q = Some (static_evaluate p' q)) -> lookup_acquired o = false ->
  let e := fst (evaluate policy provider o flag c s) in
  (ev_value e = v /\ ev_source e = FromProvider) /\
  forall q, rq_key q <> flag_key flag -> static_evaluate p' q = static_evaluate p q.
Proof.
  intros Hset Ho Hl. assert (Hp : p' = <[flag_key flag := {| se_value := into_untyped v; se_variant := "static" |}]> p).
  { revert Hset. unfold static_set. destruct (validate v); [|done]. cbn. repeat case_match; cbn; [by intros [=]|].
    intros Hg. inv_ok. done. }
  subst p'. split.
  - unfold evaluate, lookup, cached. rewrite Hl. destruct (0 <? cache_capacity policy) eqn:E; cbv beta iota.
    all: unfold evaluate_provider; rewrite Ho; unfold static_evaluate; cbn [rq_key rq_kind];
      rewrite (lookup_insert_eq (p : gmap string StaticEntry)); cbn [ok_or mbind result_bind se_value].
    all: rewrite kind_into, bool_decide_true by done; cbn; by rewrite from_into.
  - intros q Hq. unfold static_evaluate. by rewrite (lookup_insert_ne (p : gmap string StaticEntry)).
Qed.

(** ** The OpenFeature adapter *)
(** What the boundary allows a value to be. *)
Definition scalar_ok (v : FlagValue) : bool :=
  match v with
  | VBoolean _ | VInteger _ => true
  | VFloat x => is_finite x
  | VString s => is_ok (FlagString_new (flag_str s))
  | VObject _ _ => false
  end.
Definition value_ok (v : FlagValue) : Prop :=
  match v with
  | VObject m n => Z.of_nat (size m) <= MAX_FLAG_OBJECT_FIELDS /\ n <= MAX_FLAG_OBJECT_BYTES /\
      map_Forall (fun k x => validate_object_key k = Ok tt /\ scalar_ok x = true) m
  | v => scalar_ok v = true
  end.
Lemma float_ok x v : FlagValue_float x = Ok v -> scalar_ok v = true /\ kind v = KFloat.
Proof. unfold FlagValue_float. case_match eqn:E; intros [= <-]. done. Qed.
Lemma flag_string_ok s x : FlagString_new s = Ok x -> scalar_ok (VString x) = true.
Proof. intros Hx. assert (x = {| flag_str := s |}) as -> by (unfold FlagString_new in Hx; by inv_ok). cbn. by rewrite Hx. Qed.
Lemma sdk_scalar_ok v x : sdk_scalar v = Ok x -> scalar_ok x = true /\ kind x <> KObject.
Proof.
  destruct v; cbn [sdk_scalar]; [by intros [= <-] | by intros [= <-] | | | discriminate | discriminate].
  - intros Hx%map_err_ok. apply float_ok in Hx as [? Hk]. by rewrite Hk.
  - intros Hx. inv_ok. subst x. split; [by eapply flag_string_ok | done].
Qed.
Lemma sdk_fields_ok l l' : sdk_fields l = Ok l' -> Forall (fun kv => scalar_ok kv.2 = true) l'.
Proof.
  revert l'. induction l as [|[k v] l IH]; cbn [sdk_fields]; intros l' Hl; inv_ok; subst l'; [constructor|]. constructor; eauto.
  by eapply sdk_scalar_ok.
Qed.
Lemma add_fields_ok l o o' : Forall (fun kv => scalar_ok kv.2 = true) l -> value_ok (FlagValue_object o) ->
  add_fields o l = Ok o' -> value_ok (FlagValue_object o').
Proof.
  intros Hl. revert o. induction Hl as [|[k v] l Hv _ IH]; cbn [add_fields]; intros o Ho Ha; inv_ok; [by subst|].
  eapply IH; [|done]. destruct Ho as (Hs & Hn & Hf). repeat match goal with u : unit |- _ => destruct u end. cbn. split_and!.
  - rewrite map_size_insert. unfold MAX_FLAG_OBJECT_FIELDS in *. case_match; cbn; blia.
  - blia.
  - apply map_Forall_insert_2; [by split | done].
Qed.
Lemma bounded_object_ok l o : bounded_sdk_object l = Ok o -> value_ok (FlagValue_object o).
Proof.
  unfold bounded_sdk_object, FlagObject_new. intros Ho. inv_ok. eapply add_fields_ok; [by eapply sdk_fields_ok | | done].
  cbn. rewrite map_size_empty. by split_and!.
Qed.

Lemma scalar_value_ok v : scalar_ok v = true -> value_ok v.
Proof. by destruct v. Qed.
Lemma variant_new_id s v : Variant_new s = Ok v -> Variant_new v = Ok v.
Proof. intros Hv. assert (s = v) as <- by (unfold Variant_new in Hv; by inv_ok). done. Qed.

(** Whatever an OpenFeature provider returns, only bounded values of the requested
    type pass: a number is finite, a string non-empty and bounded, a structure flat
    with at most sixteen fields and 4096 bytes and without secret-bearing names, and a
    variation identifier is a bounded portable token. *)
Theorem open_feature_bounded sdk q d : open_feature_evaluate sdk q = Ok d ->
  kind (pe_value d) = rq_kind q /\ value_ok (pe_value d) /\ forall v, pe_variant d = Some v -> Variant_new v = Ok v.
Proof.
  unfold open_feature_evaluate, map_sdk_details. intros Hd. inv_ok. subst d. cbn [pe_value pe_variant]. split_and!.
  - destruct (rq_kind q); unfold map_value in *; inv_ok; subst; cbn [sd_value kind]; try done. by eapply float_ok.
  - destruct (rq_kind q); unfold map_value in *; inv_ok; subst; cbn [sd_value]; try done.
    + by apply scalar_value_ok; eapply float_ok.
    + by eapply flag_string_ok.
    + by eapply bounded_object_ok.
  - intros x ->. destruct (sd_variant _); inv_ok; simplify_eq. by eapply variant_new_id.
Qed.

(** ** Contexts *)
Definition all_attributes : list ContextAttribute := [Environment; Cohort; Locale; AppVersion; Region; DeviceClass].
Definition attribute_bytes (m : gmap ContextAttribute ContextValue) (a : ContextAttribute) : Z :=
  match m !! a with Some v => len (attribute_name a) + context_value_len v | None => 0 end.
Definition attribute_total (m : gmap ContextAttribute ContextValue) : Z :=
  foldr (fun a n => attribute_bytes m a + n) 0 all_attributes.
(** The contexts an application can build. *)
Inductive built : EvaluationContext -> Prop :=
| built_new environment p c : EvaluationContext_new environment p = Ok c -> built c
| built_with name v c c' : built c -> with_raw_attribute name v c = Ok c' -> built c'.
Lemma attribute_total_insert m a v : m !! a = None ->
  attribute_total (<[a := v]> m) = attribute_total m + (len (attribute_name a) + context_value_len v).
Proof.
  intros Hm. assert (Hb : forall b, attribute_bytes (<[a := v]> m) b =
    if decide (a = b) then attribute_bytes m b + (len (attribute_name a) + context_value_len v) else attribute_bytes m b).
  { intros b. unfold attribute_bytes. destruct (decide (a = b)) as [<-|]; [|by rewrite lookup_insert_ne].
    rewrite lookup_insert_eq, Hm. lia. }
  unfold attribute_total. cbn [foldr all_attributes]. rewrite !Hb. destruct a; cbn [decide]; repeat case_decide; try done; lia.
Qed.
Lemma attribute_total_nonneg m : 0 <= attribute_total m.
Proof.
  assert (Hb : forall a, 0 <= attribute_bytes m a).
  { intros a. unfold attribute_bytes, context_value_len. pose proof (len_nonneg (attribute_name a)).
    case_match; [|lia]. case_match; try lia. pose proof (len_nonneg s). lia. }
  unfold attribute_total. induction all_attributes as [|a l IH]; cbn [foldr]; [done|]. pose proof (Hb a). lia.
Qed.
Lemma identity_len_nonneg s t k : 0 <= identity_len s t k.
Proof. unfold identity_len. by repeat case_match. Qed.
Definition context_wf (c : EvaluationContext) : Prop :=
  ctx_encoded_len c = identity_len (ctx_subject_id c) (ctx_tenant_id c) (ctx_principal_kind c) + attribute_total (attributes c) /\
  ctx_encoded_len c <= MAX_CONTEXT_BYTES /\ Z.of_nat (size (attributes c)) <= MAX_CONTEXT_ATTRIBUTES.
Lemma insert_attribute_ok a v c c' : insert_attribute a v c = Ok c' ->
  ctx_encoded_len c = identity_len (ctx_subject_id c) (ctx_tenant_id c) (ctx_principal_kind c) + attribute_total (attributes c) ->
  context_wf c' /\ attributes c' = <[a := v]> (attributes c).
Proof.
  unfold insert_attribute. intros Hi Hlen. inv_ok. subst c'. split; [|done].
  apply bool_decide_eq_false in Hok. apply eq_None_not_Some in Hok.
  assert (Hmax : MAX_CONTEXT_BYTES < usize_max) by done. pose proof (attribute_total_nonneg (attributes c)).
  pose proof (identity_len_nonneg (ctx_subject_id c) (ctx_tenant_id c) (ctx_principal_kind c)). unfold saturating_add in *.
  split_and!; cbn [attributes ctx_encoded_len ctx_subject_id ctx_tenant_id ctx_principal_kind].
  - rewrite attribute_total_insert by done. blia.
  - blia.
  - rewrite map_size_insert_None by done. unfold MAX_CONTEXT_ATTRIBUTES in *. blia.
Qed.

(** Evaluation contexts stay within their bounds: however a context is built, its
    recorded size is exactly that of its identity fields and attributes, at most 1024
    bytes in at most six allowed attributes, and it names its environment. *)
Theorem context_bounded c : built c -> context_wf c /\ is_Some (attributes c !! Environment).
Proof.
  induction 1 as [environment p c Hn|name v c c' _ [Hwf Henv] Hw].
  - unfold EvaluationContext_new in Hn. inv_ok. eapply insert_attribute_ok in Hok0 as [? ->].
    + split; [done|]. rewrite lookup_insert_eq. by eexists.
    + cbn [attributes ctx_encoded_len ctx_subject_id ctx_tenant_id ctx_principal_kind].
      change (attribute_total ∅) with 0. lia.
  - unfold with_raw_attribute, with_attribute in Hw. inv_ok. apply insert_attribute_ok in Hok0 as [? ->]; [|by apply Hwf].
    split; [done|]. rewrite lookup_insert_is_Some'. by right.
Qed.

(** ** A concrete evaluator *)
Module FlagExamples.
Definition sink0 : MemoryExposureRecorder := {| xr_capacity := 2; records := []; xr_lock := Acquired |}.
Definition beta : Flag bool :=
  {| flag_key := "checkout.new-flow"; flag_default := false; flag_purpose := ProductRollout; flag_lifecycle := Permanent |}.
Definition context0 : EvaluationContext :=
  {| ctx_subject_id := None; ctx_tenant_id := None; ctx_principal_kind := None;
     attributes := {[Environment := CString "prod"]}; ctx_encoded_len := 15 |}.
Definition yes : ProviderEvaluation := {| pe_value := VBoolean true; pe_variant := Some "static"; pe_reason := ReasonStatic |}.
Definition static0 : StaticProvider := {["checkout.new-flow" := {| se_value := VBoolean true; se_variant := "static" |}]}.
(** The provider answers at [t], and the locks are free. *)
Definition at_time (t : Z) : Occasion (S := MemoryExposureRecorder) :=
  {| lookup_acquired := true; lookup_at := t; meanwhile := fun s => s; answer_of := fun q => Some (static_evaluate static0 q);
     store_acquired := true; store_at := t; exposed_at := t |}.
Definition run1 := evaluate EvaluationPolicy_default StaticKind (at_time 5) beta context0 (Evaluator_new sink0).
Definition run2 := evaluate EvaluationPolicy_default StaticKind (at_time 6) beta context0 (snd run1).
Definition asked0 : ProviderRequest :=
  {| rq_key := "checkout.new-flow"; rq_kind := KBoolean; rq_context := context0 |}.

Lemma run1_reachable : reachable EvaluationPolicy_default (snd run1) [(asked0, yes, 5)].
Proof.
  exists sink0. eapply rtc_l; [exact (section_answer _ _ _ (at_time 5) beta context0 _ _)|]. eapply rtc_l; [|apply rtc_refl].
  exact (section_expose _ _ _ StaticKind 5 beta context0 (fst run1) _ _).
Qed.
Lemma run1_source : ev_source (fst run1) = FromProvider.
Proof. vm_compute. reflexivity. Qed.
Lemma run2_source : ev_source (fst run2) = FromCache.
Proof. vm_compute. reflexivity. Qed.
Lemma evaluation_justified_witness : ev_source (fst run2) = FromCache /\
  exists d t, (asked0, d, t) ∈ [(asked0, yes, 5)] /\ 6 < t + cache_ttl EvaluationPolicy_default /\ shows (fst run2) d.
Proof.
  split; [apply run2_source|].
  pose proof (evaluation_justified EvaluationPolicy_default StaticKind (at_time 6) beta context0 (snd run1) [(asked0, yes, 5)]
    (fst run2) (snd run2) run1_reachable (surjective_pairing run2)) as J.
  rewrite run2_source in J. exact J.
Defined.
Lemma cached_answer_served_again_witness : ev_source (fst run1) = FromProvider /\
  fst run2 = {| ev_value := ev_value (fst run1); ev_source := FromCache; ev_provider_reason := ev_provider_reason (fst run1);
                ev_variant := ev_variant (fst run1) |}.
Proof.
  split; [apply run1_source|].
  exact (cached_answer_served_again EvaluationPolicy_default StaticKind (at_time 5) (at_time 6) beta context0
           (Evaluator_new sink0) (fst run1) (snd run1) ltac:(done) (surjective_pairing run1) run1_source
           ltac:(done) ltac:(done) ltac:(done)).
Defined.
Lemma flag_cache_invariant_witness : size (entries (cache (snd run1))) = 1%nat /\
  cache_wf (cache_capacity EvaluationPolicy_default) (cache (snd run1)).
Proof.
  split; [vm_compute; reflexivity|].
  exact (flag_cache_invariant EvaluationPolicy_default (snd run1) [(asked0, yes, 5)] ltac:(done) run1_reachable).
Defined.
Definition no_lock : Occasion (S := MemoryExposureRecorder) :=
  {| lookup_acquired := false; lookup_at := 5; meanwhile := fun s => s; answer_of := fun q => Some (static_evaluate static0 q);
     store_acquired := true; store_at := 5; exposed_at := 5 |}.
Lemma static0_set : static_set beta true ∅ = Ok static0.
Proof. vm_compute. reflexivity. Qed.
Lemma static_provider_roundtrip_witness : static_set beta true ∅ = Ok static0 /\
  ev_value (fst (evaluate EvaluationPolicy_default StaticKind no_lock beta context0 (Evaluator_new sink0))) = true.
Proof.
  split; [apply static0_set|].
  exact (proj1 (proj1 (static_provider_roundtrip EvaluationPolicy_default StaticKind no_lock beta true ∅ static0 context0
           (Evaluator_new sink0) static0_set (fun q => eq_refl) eq_refl))).
Defined.
Definition sdk0 : SdkProvider := {|
  sdk_ready := true;
  resolve_bool_value := fun _ _ => Err SdkFlagNotFound; resolve_int_value := fun _ _ => Err SdkFlagNotFound;
  resolve_float_value := fun _ _ => Err SdkFlagNotFound; resolve_string_value := fun _ _ => Err SdkFlagNotFound;
  resolve_struct_value := fun _ _ => Ok {| sd_value := [("limit", SdkInt 3)]; sd_variant := Some "a"; sd_reason := None |} |}.
Definition request0 : ProviderRequest := {| rq_key := "checkout.limits"; rq_kind := KObject; rq_context := context0 |}.
Definition structure0 : ProviderEvaluation :=
  {| pe_value := VObject {["limit" := VInteger 3]} 13; pe_variant := Some "a"; pe_reason := ReasonUnknown |}.
Lemma structure0_ok : open_feature_evaluate sdk0 request0 = Ok structure0.
Proof. vm_compute. reflexivity. Qed.
Lemma open_feature_bounded_witness : open_feature_evaluate sdk0 request0 = Ok structure0 /\ value_ok (pe_value structure0).
Proof.
  split; [apply structure0_ok|].
  exact (proj1 (proj2 (open_feature_bounded sdk0 request0 structure0 structure0_ok))).
Defined.
Lemma context0_ok : EvaluationContext_new "prod" None = Ok context0.
Proof. vm_compute. reflexivity. Qed.
Lemma context_bounded_witness : EvaluationContext_new "prod" None = Ok context0 /\ context_wf context0.
Proof.
  split; [apply context0_ok|].
  exact (proj1 (context_bounded context0 (built_new "prod" None context0 context0_ok))).
Defined.
End FlagExamples.
