(* ===== verification/JobPolicy.v ===== *)
(** * Job names, policies and retry delays: [crates/jobs-core/src/text.rs] and the
    policy part of [crates/jobs-core/src/lib.rs]

    A bounded string is its bytes: the validators are the constructors of the wrapper
    types.  A UUID is a 128-bit integer; the [uuid] crate's parser and its canonical
    lower-case printer are parameters. *)
From S2P Require Import Prelude Machine Text.
From Stdlib Require Import Ascii.

(** ** Byte ceilings *)
Module limits.
Definition JOB_NAME : Z := 128.
Definition EVENT_NAME : Z := 128.
Definition SOURCE : Z := 128.
Definition SUBJECT : Z := 256.
Definition TENANT : Z := 128.
Definition QUEUE : Z := 64.
Definition DESTINATION : Z := 256.
Definition IDEMPOTENCY_KEY : Z := 255.
Definition METADATA_KEY : Z := 64.
Definition METRICS_PREFIX : Z := 128.
Definition RUNBOOK : Z := 256.
Definition METADATA_ENTRIES : Z := 32.
Definition METADATA_BYTES : Z := 16 * 1024.
Definition METADATA_DEPTH : Z := 16.
Definition METADATA_NODES : Z := 1024.
Definition PAYLOAD_BYTES : Z := 1024 * 1024.
Definition ENVELOPE_BYTES : Z := 2 * 1024 * 1024.
Definition CAPTURED_JOBS : Z := 32.
End limits.

(** ** Portable text *)
Module text.
Inductive TextKind :=
| TkJobName | TkEventName | TkSource | TkSubject | TkTenant | TkQueue | TkDestination | TkTraceparent
| TkIdempotencyKey | TkMetadataKey | TkFailureCode.
Inductive TextError := TooShort (k : TextKind) | TooLong (k : TextKind) | Invalid (k : TextKind).

Definition is_ascii (c : ascii) : bool := byte_val c <? 128.
Definition portable (value : string) (k : TextKind) (min max : Z) (allowed : ascii -> bool) : result TextError unit :=
  _ ← guard_err (len value <? min) (TooShort k);
  _ ← guard_err (max <? len value) (TooLong k);
  guard_err (negb (all_bytes is_ascii value) || negb (all_bytes allowed value)) (Invalid k).
Definition name_byte (c : ascii) : bool :=
  is_ascii_lowercase c || is_ascii_digit c || is_byte "_" c || is_byte "." c || is_byte "-" c.
Definition word_byte (c : ascii) : bool :=
  is_ascii_alphanumeric c || is_byte "_" c || is_byte "." c || is_byte "-" c.
Definition path_byte (c : ascii) : bool := word_byte c || is_byte "/" c || is_byte ":" c.
Definition is_ascii_graphic (c : ascii) : bool := (33 <=? byte_val c) && (byte_val c <=? 126).
Definition is_ascii_hexdigit (c : ascii) : bool :=
  is_ascii_digit c || ((65 <=? byte_val c) && (byte_val c <=? 70)) || ((97 <=? byte_val c) && (byte_val c <=? 102)).
Definition is_ascii_uppercase (c : ascii) : bool := (65 <=? byte_val c) && (byte_val c <=? 90).
(** [value.as_bytes()[0].is_ascii_lowercase()]; the callers know the value is not empty. *)
Definition first_lowercase (value : string) : bool :=
  match value with EmptyString => false | String c _ => is_ascii_lowercase c end.

Definition job_name (value : string) : result TextError unit :=
  _ ← portable value TkJobName 2 limits.JOB_NAME name_byte;
  guard_err (negb (first_lowercase value)) (Invalid TkJobName).
(** [str::rsplit_once(".v")] splits at the last occurrence. *)
Fixpoint rsplit_once (pat s : string) : option (string * string) :=
  match s with
  | EmptyString => None
  | String c s' =>
      match rsplit_once pat s' with
      | Some (before, after) => Some (String c before, after)
      | None => if starts_with pat s then Some (EmptyString, String.substring (String.length pat) (String.length s) s) else None
      end
  end.
Fixpoint digits_value (acc : Z) (s : string) : Z :=
  match s with EmptyString => acc | String c s' => digits_value (10 * acc + (byte_val c - 48)) s' end.
(** [str::parse::<u16>] of a non-empty sequence of digits. *)
Definition parse_u16 (digits : string) : option Z :=
  let n := digits_value 0 digits in if n <=? u16_max then Some n else None.
Definition event_suffix (value : string) : option Z :=
  match rsplit_once ".v" value with
  | None => None
  | Some (base, version) =>
      if is_empty base || is_empty version || ((1 <? len version) && starts_with "0" version)
         || negb (all_bytes is_ascii_digit version)
      then None
      else match parse_u16 version with
           | Some n => if 0 <? n then Some n else None
           | None => None
           end
  end.
Definition event_name (value : string) : result TextError unit :=
  _ ← portable value TkEventName 5 limits.EVENT_NAME name_byte;
  guard_err (negb (first_lowercase value) || match event_suffix value with None => true | Some _ => false end)
    (Invalid TkEventName).
Definition source (value : string) : result TextError unit := portable value TkSource 1 limits.SOURCE word_byte.
Definition subject (value : string) : result TextError unit := portable value TkSubject 1 limits.SUBJECT path_byte.
Definition queue (value : string) : result TextError unit :=
  _ ← portable value TkQueue 1 limits.QUEUE name_byte;
  guard_err (negb (first_lowercase value)) (Invalid TkQueue).
Definition destination (value : string) : result TextError unit :=
  portable value TkDestination 1 limits.DESTINATION path_byte.
Definition idempotency_key (value : string) : result TextError unit :=
  portable value TkIdempotencyKey 1 limits.IDEMPOTENCY_KEY is_ascii_graphic.
Definition metadata_key (value : string) : result TextError unit :=
  portable value TkMetadataKey 1 limits.METADATA_KEY word_byte.
Definition failure_code (value : string) : result TextError unit := portable value TkFailureCode 1 64 name_byte.

(** Every byte but those at the given positions satisfies [p]. *)
Fixpoint all_bytes_but (skip : nat -> bool) (p : ascii -> bool) (i : nat) (s : string) : bool :=
  match s with
  | EmptyString => true
  | String c s' => (skip i || p c) && all_bytes_but skip p (S i) s'
  end.
Definition dash_at (i : nat) : bool := (i =? 2)%nat || (i =? 35)%nat || (i =? 52)%nat.
Definition byte_is (i : nat) (b : ascii) (s : string) : bool :=
  match String.get i s with Some c => is_byte b c | None => false end.
Definition lower_hexdigit (c : ascii) : bool := is_ascii_hexdigit c && negb (is_ascii_uppercase c).
Definition traceparent (value : string) : result TextError unit :=
  _ ← guard_err (len value <? 55) (TooShort TkTraceparent);
  _ ← guard_err (55 <? len value) (TooLong TkTraceparent);
  let valid_hex := all_bytes_but dash_at lower_hexdigit 0 value in
  guard_err (negb (starts_with "00" value) || negb (byte_is 2 "-" value) || negb (byte_is 35 "-" value)
             || negb (byte_is 52 "-" value) || negb valid_hex
             || all_bytes (is_byte "0") (String.substring 3 32 value)
             || all_bytes (is_byte "0") (String.substring 36 16 value)) (Invalid TkTraceparent).

End text.

(** ** Identifiers *)
(** [Uuid::get_version_num] *)
Definition get_version_num (id : Z) : Z := Z.land (Z.shiftr id 76) 15.
#[global] Arguments get_version_num : simpl never.
(** [Uuid::parse_str] and [Hyphenated]'s lower-case text. *)
Class UuidText := { parse_str : string -> option Z; hyphenated : Z -> string }.
(** The printed text reads back as the identifier. *)
Class UuidLaws `{UuidText} := {
  parse_hyphenated u : in_range u128_max u -> parse_str (hyphenated u) = Some u;
}.
Inductive IdError := IdInvalid | NotVersion7.
Definition from_uuid (u : Z) : result IdError Z := if get_version_num u =? 7 then Ok u else Err NotVersion7.
Definition id_from_str `{UuidText} (s : string) : result IdError Z := u ← ok_or (parse_str s) IdInvalid; from_uuid u.
Definition tenant_ok `{UuidText} (value : string) : result text.TextError unit :=
  _ ← guard_err (is_empty value) (text.TooShort text.TkTenant);
  _ ← guard_err (limits.TENANT <? len value) (text.TooLong text.TkTenant);
  _ ← guard_err (negb (len value =? 36)) (text.Invalid text.TkTenant);
  parsed ← ok_or (parse_str value) (text.Invalid text.TkTenant);
  guard_err (negb (get_version_num parsed =? 7) || negb (bool_decide (hyphenated parsed = value))) (text.Invalid text.TkTenant).

Inductive VersionError := ZeroVersion.
Definition Version_new (v : Z) : result VersionError Z := if v =? 0 then Err ZeroVersion else Ok v.

(** ** Policies *)
Inductive IdempotencyRequirement := Required | Optional.
#[global] Instance IdempotencyRequirement_eq : EqDecision IdempotencyRequirement.
Proof. solve_decision. Defined.
Inductive Jitter := Full | Equal.
Inductive DeadLetterPolicy := Retain | ToDestination (s : string).
Inductive CompatibilityPolicy := Exact | BackwardCompatible (minimum_version : Z).
Record JobPolicy := {
  idempotency : IdempotencyRequirement;
  max_attempts : Z;
  initial_backoff_ms : Z;
  max_backoff_ms : Z;
  multiplier : Z;
  jitter : Jitter;
  timeout_seconds : Z;
  max_concurrency : Z;
  rate_per_minute : option Z;
  policy_queue : string;
  priority : Z;
  retention_seconds : Z;
  dead_letter : DeadLetterPolicy;
  compatibility : CompatibilityPolicy;
  max_payload_bytes : Z;
}.
Inductive PolicyError :=
| PAttempts | PBackoff | PMultiplier | PTimeout | PConcurrency | PRate | PQueue | PPriority | PRetention | PDeadLetter
| PCompatibility | PPayload.
(** The [while] loops of the [const] validators walk the bytes in order. *)
Definition static_queue (value : string) : bool :=
  if is_empty value || (limits.QUEUE <? len value) || negb (text.first_lowercase value) then false
  else all_bytes text.name_byte value.
Definition static_destination (value : string) : bool :=
  if is_empty value || (limits.DESTINATION <? len value) then false else all_bytes text.path_byte value.
Definition static_metrics_prefix (value : string) : bool :=
  if is_empty value || (limits.METRICS_PREFIX <? len value) then false
  else all_bytes (fun c => is_ascii_lowercase c || is_ascii_digit c || is_byte "_" c) value.
Definition static_runbook (value : string) : bool :=
  if is_empty value || (limits.RUNBOOK <? len value) then false
  else all_bytes (fun c => text.path_byte c || is_byte "#" c) value.
(** [JobPolicyParams] has the fields of the policy. *)
Definition JobPolicy_new (p : JobPolicy) : result PolicyError JobPolicy :=
  _ ← guard_err ((max_attempts p =? 0) || (100 <? max_attempts p)) PAttempts;
  _ ← guard_err ((initial_backoff_ms p =? 0) || (86400000 <? initial_backoff_ms p)) PBackoff;
  _ ← guard_err ((max_backoff_ms p <? initial_backoff_ms p) || (86400000 <? max_backoff_ms p)) PBackoff;
  _ ← guard_err ((multiplier p <? 2) || (10 <? multiplier p)) PMultiplier;
  _ ← guard_err ((timeout_seconds p =? 0) || (86400 <? timeout_seconds p)) PTimeout;
  _ ← guard_err ((max_concurrency p =? 0) || (10000 <? max_concurrency p)) PConcurrency;
  _ ← guard_err match rate_per_minute p with Some r => (r =? 0) || (1000000 <? r) | None => false end PRate;
  _ ← guard_err (negb (static_queue (policy_queue p))) PQueue;
  _ ← guard_err (9 <? priority p) PPriority;
  _ ← guard_err ((retention_seconds p =? 0) || (31536000 <? retention_seconds p)) PRetention;
  _ ← guard_err match dead_letter p with ToDestination d => negb (static_destination d) | Retain => false end PDeadLetter;
  _ ← guard_err ((max_payload_bytes p =? 0) || (limits.PAYLOAD_BYTES <? max_payload_bytes p)) PPayload;
  Ok p.
Definition validate_for (p : JobPolicy) (version : Z) : result PolicyError unit :=
  _ ← guard_err (version =? 0) PCompatibility;
  guard_err match compatibility p with
            | BackwardCompatible m => (m =? 0) || (version <? m)
            | Exact => false
            end PCompatibility.

(** ** Retry delays *)
Definition shl64 (v n : Z) : Z := Z.land (Z.shiftl v n) u64_max.
Definition MIX_MULTIPLIER : Z := 2685821657736338717.
Definition xorshift (v : Z) : Z :=
  let v := Z.lxor v (Z.shiftr v 12) in
  let v := Z.lxor v (shl64 v 25) in
  Z.lxor v (Z.shiftr v 27).
Definition mix (v : Z) : Z := (xorshift v * MIX_MULTIPLIER) mod 2 ^ 64.
(** The loop that redraws a rejected sample; [None] is a loop that has not ended
    after [fuel] draws. *)
Fixpoint redraw (fuel : nat) (rejection_floor sample : Z) : option Z :=
  if rejection_floor <=? sample then
    match fuel with
    | O => None
    | S fuel' => redraw fuel' rejection_floor (mix sample)
    end
  else Some sample.
Definition uniform_inclusive (fuel : nat) (sample maximum : Z) : option Z :=
  if maximum =? u64_max then Some sample
  else
    let range := maximum + 1 in
    let rejection_floor := u64_max - u64_max mod range in
    sample ← redraw fuel rejection_floor sample;
    Some (sample mod range).
(** Eight random bytes of the operating system, or else the clock since the epoch. *)
Definition entropy (os : option Z) (secs subsec_nanos attempt : Z) : Z :=
  match os with
  | Some sample => sample
  | None => mix (Z.lxor (Z.lxor secs subsec_nanos) attempt)
  end.
Definition backoff_ceiling (p : JobPolicy) (attempt : Z) : Z :=
  Nat.iter (Z.to_nat (attempt - 1))
    (fun ceiling => Z.min (saturating_mul u64_max ceiling (multiplier p)) (max_backoff_ms p)) (initial_backoff_ms p).
Definition jittered_backoff (fuel : nat) (p : JobPolicy) (attempt sample : Z) : option Z :=
  let ceiling_ms := backoff_ceiling p attempt in
  delay_ms ← match jitter p with
             | Full => uniform_inclusive fuel sample ceiling_ms
             | Equal =>
                 let half := ceiling_ms / 2 in
                 u ← uniform_inclusive fuel sample (ceiling_ms - half); Some (half + u)
             end;
  Some (Duration.from_millis delay_ms).
