(* ===== verification/JobBackoff.v ===== *)
(** * Retry delays end and are bounded

    The rejection loop of [uniform_inclusive] redraws with [mix], which is no random
    source: that it ends has to be read off the function itself.  For the ranges a
    policy allows the rejected samples are among the largest [2 ^ 27] words, and [mix]
    maps none of these to another: a word with its upper 37 bits set keeps its upper 12
    bits set until the multiplication, so only the 32 770 multiples of the inverse
    multiplier that are small modulo [2 ^ 64] have to be looked at.  They are enumerated
    by their three distances. *)
From S2P Require Import Prelude Machine Text JobPolicy.

(** ** Undoing the shifts *)
Definition WORD : Z := 2 ^ 64.
Definition TOP : Z := 2 ^ 27.
Definition SMALL : Z := 2 ^ 52.
(** The inverse of the multiplier modulo [2 ^ 64]. *)
Definition INVERSE : Z := 6415128727920758069.
Definition unshift (v : Z) : Z :=
  let v := Z.lxor v (Z.lxor (Z.shiftr v 27) (Z.shiftr v 54)) in
  let v := Z.lxor v (Z.lxor (shl64 v 25) (shl64 v 50)) in
  Z.lxor v (Z.lxor (Z.shiftr v 12) (Z.lxor (Z.shiftr v 24) (Z.lxor (Z.shiftr v 36) (Z.lxor (Z.shiftr v 48) (Z.shiftr v 60))))).

Lemma testbit_high v i : 0 <= v < WORD -> 64 <= i -> Z.testbit v i = false.
Proof.
  intros Hv Hi. destruct (Z.eq_dec v 0) as [->|]; [apply Z.bits_0|]. apply Z.bits_above_log2; [lia|].
  assert (Z.log2 v < 64) by (apply Z.log2_lt_pow2; unfold WORD in Hv; lia). lia.
Qed.
Lemma shl64_bit v n i : 0 <= n -> 0 <= i -> Z.testbit (shl64 v n) i = (i <? 64) && (n <=? i) && Z.testbit v (i - n).
Proof.
  intros Hn Hi. unfold shl64. rewrite Z.land_spec, Z.shiftl_spec by done.
  change u64_max with (Z.ones 64). destruct (Z.ltb_spec i 64).
  - rewrite Z.ones_spec_low by lia. destruct (Z.leb_spec n i); simpl; [by rewrite andb_true_r|].
    by rewrite Z.testbit_neg_r by lia.
  - rewrite Z.ones_spec_high by lia. by rewrite andb_false_r.
Qed.
Ltac bit_spec := repeat (rewrite Z.lxor_spec || rewrite Z.shiftr_spec by lia || rewrite shl64_bit by lia).
(** Bit [i] of each stage, for a word. *)
Lemma word_ext v w : 0 <= v < WORD -> 0 <= w < WORD -> (forall i, 0 <= i < 64 -> Z.testbit v i = Z.testbit w i) -> v = w.
Proof.
  intros Hv Hw H. apply Z.bits_inj'. intros i Hi. destruct (decide (i < 64)); [apply H; lia|].
  by rewrite !testbit_high by lia.
Qed.
Lemma bits_bound v : 0 <= v -> (forall i, 64 <= i -> Z.testbit v i = false) -> v < WORD.
Proof.
  intros Hv H. destruct (decide (v < WORD)) as [|Hge]; [done|]. exfalso.
  assert (64 <= Z.log2 v) by (apply Z.log2_le_pow2; unfold WORD in *; lia).
  specialize (H (Z.log2 v) ltac:(lia)). rewrite Z.bit_log2 in H; [done | unfold WORD in *; lia].
Qed.
Lemma lxor_word v w : 0 <= v < WORD -> 0 <= w < WORD -> 0 <= Z.lxor v w < WORD.
Proof.
  intros Hv Hw. assert (0 <= Z.lxor v w) by (apply Z.lxor_nonneg; lia). split; [done|]. apply bits_bound; [done|].
  intros i Hi. by rewrite Z.lxor_spec, !testbit_high.
Qed.
Lemma shiftr_word v n : 0 <= v < WORD -> 0 <= n -> 0 <= Z.shiftr v n < WORD.
Proof.
  intros Hv Hn. assert (0 <= Z.shiftr v n) by (apply Z.shiftr_nonneg; lia). split; [done|]. apply bits_bound; [done|].
  intros i Hi. rewrite Z.shiftr_spec by lia. apply testbit_high; [done | lia].
Qed.
Lemma shl64_word v n : 0 <= v < WORD -> 0 <= n -> 0 <= shl64 v n < WORD.
Proof.
  intros Hv Hn. unfold shl64. change u64_max with (Z.ones 64). rewrite Z.land_ones by lia. apply Z.mod_pos_bound. done.
Qed.
Ltac word := repeat first [apply lxor_word | apply shiftr_word | apply shl64_word]; lia.

Lemma undo_shr27 v : 0 <= v < WORD ->
  let w := Z.lxor v (Z.shiftr v 27) in Z.lxor w (Z.lxor (Z.shiftr w 27) (Z.shiftr w 54)) = v.
Proof.
  intros Hv w. unfold w. apply word_ext; [word | done |]. intros i Hi. bit_spec.
  replace (i + 27 + 27) with (i + 54) by lia. rewrite (testbit_high v (i + 54 + 27)) by lia.
  destruct (Z.testbit v i), (Z.testbit v (i + 27)), (Z.testbit v (i + 54)); done.
Qed.
Lemma undo_shl25 v : 0 <= v < WORD ->
  let w := Z.lxor v (shl64 v 25) in Z.lxor w (Z.lxor (shl64 w 25) (shl64 w 50)) = v.
Proof.
  intros Hv w. unfold w. apply word_ext; [word | done |]. intros i Hi.
  rewrite !Z.lxor_spec, !shl64_bit by lia. rewrite (proj2 (Z.ltb_lt i 64)) by lia.
  destruct (Z.leb_spec 25 i); simpl.
  2: { rewrite (proj2 (Z.leb_gt 50 i)) by lia. simpl. by rewrite !xorb_false_r. }
  rewrite !Z.lxor_spec, (shl64_bit v 25 (i - 25)) by lia. rewrite (proj2 (Z.ltb_lt (i - 25) 64)) by lia. replace (i - 25 - 25) with (i - 50) by lia.
  destruct (Z.leb_spec 50 i); simpl.
  - rewrite (proj2 (Z.leb_le 25 (i - 25))), (shl64_bit v 25 (i - 50)) by lia.
    rewrite (proj2 (Z.leb_gt 25 (i - 50))) by lia. rewrite andb_false_r. simpl.
    destruct (Z.testbit v i), (Z.testbit v (i - 25)), (Z.testbit v (i - 50)); done.
  - rewrite (proj2 (Z.leb_gt 25 (i - 25))) by lia. simpl.
    destruct (Z.testbit v i), (Z.testbit v (i - 25)); done.
Qed.
Lemma undo_shr12 v : 0 <= v < WORD ->
  let w := Z.lxor v (Z.shiftr v 12) in
  Z.lxor w (Z.lxor (Z.shiftr w 12) (Z.lxor (Z.shiftr w 24) (Z.lxor (Z.shiftr w 36) (Z.lxor (Z.shiftr w 48) (Z.shiftr w 60))))) = v.
Proof.
  intros Hv w. unfold w. apply word_ext; [word | done |]. intros i Hi. bit_spec.
  replace (i + 12 + 12) with (i + 24) by lia. replace (i + 24 + 12) with (i + 36) by lia.
  replace (i + 36 + 12) with (i + 48) by lia. replace (i + 48 + 12) with (i + 60) by lia.
  rewrite (testbit_high v (i + 60 + 12)) by lia.
  destruct (Z.testbit v i), (Z.testbit v (i + 12)), (Z.testbit v (i + 24)), (Z.testbit v (i + 36)), (Z.testbit v (i + 48)),
    (Z.testbit v (i + 60)); done.
Qed.
Lemma xorshift_word v : 0 <= v < WORD -> 0 <= xorshift v < WORD.
Proof. intros Hv. unfold xorshift. cbv zeta. word. Qed.
Lemma unshift_xorshift v : 0 <= v < WORD -> unshift (xorshift v) = v.
Proof.
  intros Hv. unfold unshift, xorshift. cbv zeta. rewrite undo_shr27 by word. rewrite undo_shl25 by word. by apply undo_shr12.
Qed.

(** ** The largest words *)
Lemma top_bits n v i : 0 <= n <= 64 -> WORD - 2 ^ n <= v < WORD -> n <= i < 64 -> Z.testbit v i = true.
Proof.
  intros Hn Hv Hi. assert (2 ^ n <= WORD) by (apply (Z.pow_le_mono_r 2 n 64); lia). replace v with (Z.lnot (WORD - 1 - v) mod 2 ^ 64).
  - rewrite Z.mod_pow2_bits_low by lia. rewrite Z.lnot_spec by lia. apply negb_true_iff.
    destruct (Z.eq_dec (WORD - 1 - v) 0) as [->|]; [apply Z.bits_0|]. apply Z.bits_above_log2; [lia|].
    assert (Z.log2 (WORD - 1 - v) < n) by (apply Z.log2_lt_pow2; lia). lia.
  - unfold Z.lnot, Z.pred. change (2 ^ 64) with WORD. symmetry. apply Z.mod_unique with (-1); lia.
Qed.
Lemma top_bits_inv n v : 0 <= n <= 64 -> 0 <= v < WORD -> (forall i, n <= i < 64 -> Z.testbit v i = true) -> WORD - 2 ^ n <= v.
Proof.
  intros Hn Hv H. set (w := WORD - 1 - v). assert (Hw : 0 <= w) by lia. assert (w < 2 ^ n); [|lia].
  destruct (decide (w < 2 ^ n)) as [|Hge]; [done|]. exfalso.
  assert (0 < 2 ^ n) by (apply Z.pow_pos_nonneg; lia).
  assert (Hl : n <= Z.log2 w) by (apply Z.log2_le_pow2; lia).
  assert (Hh : Z.log2 w < 64) by (apply Z.log2_lt_pow2; unfold WORD in *; lia).
  specialize (H (Z.log2 w) ltac:(lia)). assert (Hv' : v = Z.lnot w mod 2 ^ 64).
  { unfold Z.lnot, Z.pred. change (2 ^ 64) with WORD. apply Z.mod_unique with (-1); lia. }
  rewrite Hv', Z.mod_pow2_bits_low, Z.lnot_spec, Z.bit_log2 in H by lia. done.
Qed.
(** A word whose upper 37 bits are set keeps its upper 12 bits through the shifts. *)
Lemma xorshift_top v : WORD - TOP <= v < WORD -> WORD - SMALL <= xorshift v.
Proof.
  intros Hv. assert (Hw : 0 <= v < WORD) by (unfold WORD, TOP in *; lia).
  apply (top_bits_inv 52); [lia | by apply xorshift_word |]. intros i Hi.
  assert (Hb : forall j, 27 <= j < 64 -> Z.testbit v j = true) by (intros; apply (top_bits 27); [lia | exact Hv | lia]).
  unfold xorshift. cbv zeta. set (a := Z.lxor v (Z.shiftr v 12)). set (b := Z.lxor a (shl64 a 25)).
  assert (Ha : 0 <= a < WORD) by (unfold a; word). rewrite Z.lxor_spec, Z.shiftr_spec by lia.
  rewrite (testbit_high b (i + 27)) by (unfold b; word || lia). rewrite xorb_false_r. unfold b.
  rewrite Z.lxor_spec, shl64_bit by lia. rewrite (proj2 (Z.ltb_lt i 64)), (proj2 (Z.leb_le 25 i)) by lia. simpl.
  unfold a. rewrite !Z.lxor_spec, !Z.shiftr_spec by lia.
  rewrite (Hb i), (Hb (i - 25)), (Hb (i - 25 + 12)), (testbit_high v (i + 12)) by lia. done.
Qed.

(** ** The multiples of the inverse that are small *)
Definition residue (x : Z) : Z := (INVERSE * x) mod WORD.
Definition small (u : Z) : bool := (0 <? u) && (u <=? SMALL).
(** [unshift] leaves the largest words; the bits it would have to match are looked at
    first. *)
Definition bit_fits (v i : Z) : bool := Bool.eqb (Z.testbit v i) (xorb (Z.testbit v (i + 25)) (Z.testbit v (i + 27))).
Definition escapes (u : Z) : bool :=
  let v := WORD - u in
  if bit_fits v 2 && bit_fits v 3 && bit_fits v 4 && bit_fits v 5 && bit_fits v 6 && bit_fits v 7
  then unshift v <? WORD - TOP else true.
(** What the two shorter distances add to a residue. *)
Definition STEP_2841 : Z := -2428802163322579.
Definition STEP_4966 : Z := 2247558088929822.
(** From one multiple with a small residue to the next. *)
Fixpoint walk (fuel : nat) (x u : Z) : bool :=
  if TOP <? x then true else
  match fuel with
  | O => false
  | S fuel' =>
      escapes u &&
      (let a := u + STEP_2841 in
       if small a then walk fuel' (x + 2841) a else
       let b := u + STEP_4966 in
       if small b then walk fuel' (x + 4966) b else
       let c := a + STEP_4966 in
       small c && walk fuel' (x + 7807) c)
  end.
(** The residues of [k], [k + 1], .. satisfy [p]. *)
Fixpoint scan (p : Z -> Z -> bool) (n : nat) (k r : Z) : bool :=
  match n with
  | O => true
  | S n' => p k r && (let s := r + INVERSE in scan p n' (k + 1) (if s <? WORD then s else s - WORD))
  end.
(** Up to the largest distance, only the two shorter ones separate small residues. *)
Definition only_gaps (k r : Z) : bool := ((SMALL <=? r) && (r <=? WORD - SMALL)) || (k =? 2841) || (k =? 4966).
Lemma short_gaps : scan only_gaps (Z.to_nat 7806) 1 INVERSE = true.
Proof. by vm_compute. Qed.
Lemma first_small : scan (fun _ r => SMALL <? r) (Z.to_nat 4965) 1 INVERSE = true.
Proof. by vm_compute. Qed.
Lemma whole_walk : walk (Z.to_nat 33000) 4966 STEP_4966 = true.
Proof. by vm_compute. Qed.

(** ** Why the enumeration is complete *)
Lemma residue_add x y : residue (x + y) = (residue x + residue y) mod WORD.
Proof. unfold residue. rewrite Z.mul_add_distr_l. by apply Z.add_mod. Qed.
Lemma residue_bound x : 0 <= residue x < WORD.
Proof. by apply Z.mod_pos_bound. Qed.
Lemma residue_succ x : residue (x + 1) = if residue x + INVERSE <? WORD then residue x + INVERSE else residue x + INVERSE - WORD.
Proof.
  pose proof (residue_bound x). rewrite residue_add. change (residue 1) with INVERSE.
  assert (0 < INVERSE < WORD) by done. destruct (Z.ltb_spec (residue x + INVERSE) WORD).
  - apply Z.mod_small. lia.
  - symmetry. apply Z.mod_unique with 1; lia.
Qed.
Lemma scan_sound p n k : scan p n k (residue k) = true -> forall j, k <= j < k + Z.of_nat n -> p j (residue j) = true.
Proof.
  revert k. induction n as [|n IH]; intros k H j Hj; [lia|]. simpl in H. rewrite <- residue_succ in H.
  apply andb_prop in H as [H1 H2]. destruct (decide (j = k)) as [->|]; [done|]. apply (IH _ H2). lia.
Qed.
Lemma small_true u : small u = true <-> 0 < u <= SMALL.
Proof. unfold small. lia. Qed.
Lemma small_mod a : - SMALL < a < WORD -> small (a mod WORD) = true -> small a = true.
Proof.
  rewrite !small_true. intros Ha H. destruct (decide (0 <= a)); [by rewrite Z.mod_small in H by lia|].
  assert (a mod WORD = a + WORD) as E by (symmetry; apply Z.mod_unique with (-1); unfold SMALL, WORD in *; lia).
  rewrite E in H. unfold SMALL, WORD in *. lia.
Qed.
Lemma residue_step x g s a : residue g = s mod WORD -> a = residue x + s -> small a = true -> residue (x + g) = a.
Proof.
  intros Hg -> Ha. apply small_true in Ha. rewrite residue_add, Hg, Z.add_mod_idemp_r by done.
  apply Z.mod_small. unfold SMALL, WORD in *. lia.
Qed.
(** Small residues closer than the largest distance are at one of the other two. *)
Lemma near_residues x k : small (residue x) = true -> small (residue (x + k)) = true -> 1 <= k < 7807 -> k = 2841 \/ k = 4966.
Proof.
  intros Hx Hy Hk. apply small_true in Hx, Hy.
  assert (Hs : only_gaps k (residue k) = true).
  { apply (scan_sound only_gaps (Z.to_nat 7806) 1 short_gaps). lia. }
  pose proof (residue_bound k). rewrite residue_add in Hy. unfold only_gaps in Hs.
  destruct (decide (residue x + residue k < WORD)).
  - rewrite Z.mod_small in Hy by lia. unfold SMALL, WORD in *. lia.
  - assert ((residue x + residue k) mod WORD = residue x + residue k - WORD) as E
      by (symmetry; apply Z.mod_unique with 1; unfold SMALL, WORD in *; lia).
    rewrite E in Hy. unfold SMALL, WORD in *. lia.
Qed.
Lemma walk_sound fuel x u : walk fuel x u = true -> residue x = u -> small u = true ->
  forall y, x <= y <= TOP -> small (residue y) = true -> escapes (residue y) = true.
Proof.
  revert x u. induction fuel as [|fuel IH]; intros x u Hw Hu Hsm y Hy Hys; cbn [walk] in Hw;
    (destruct (Z.ltb_spec TOP x); [lia|]); [done|].
  apply andb_prop in Hw as [He Hw]. destruct (decide (y = x)) as [->|]; [congruence|].
  assert (Hk : exists k, y = x + k /\ 1 <= k) by (exists (y - x); lia). destruct Hk as (k & -> & Hk).
  assert (Hn : k < 7807 -> k = 2841 \/ k = 4966) by (intros; apply (near_residues x); [congruence | done | lia]).
  assert (Hb : 0 < u <= SMALL) by (by apply small_true).
  assert (Hmod : forall g s, residue g = s mod WORD -> - SMALL < u + s < WORD -> small (u + s) = false -> k <> g).
  { intros g s Hg Hs Hf ->. rewrite residue_add, Hg, Z.add_mod_idemp_r, Hu in Hys by done.
    apply small_mod in Hys; [congruence | done]. }
  cbv zeta in Hw. destruct (small (u + STEP_2841)) eqn:E1.
  - apply (IH (x + 2841) _ Hw); [by eapply residue_step; [| by rewrite Hu |] | done | lia | done].
  - assert (k <> 2841) by (apply (Hmod _ STEP_2841); [done | unfold SMALL, STEP_2841, WORD in *; lia | done]).
    destruct (small (u + STEP_4966)) eqn:E2.
    + apply (IH (x + 4966) _ Hw); [by eapply residue_step; [| by rewrite Hu |] | done | lia | done].
    + assert (k <> 4966) by (apply (Hmod _ STEP_4966); [done | unfold SMALL, STEP_4966, WORD in *; lia | done]).
      apply andb_prop in Hw as [E3 Hw]. apply (IH (x + 7807) _ Hw); [| done | lia | done].
      apply (residue_step x 7807 (STEP_2841 + STEP_4966)); [done | lia | done].
Qed.

(** ** [mix] leaves the largest words *)
Lemma first_stage_bits v i : WORD - TOP <= v < WORD -> 27 <= i < 64 ->
  Z.testbit (Z.lxor v (Z.shiftr v 12)) i = (52 <=? i).
Proof.
  intros Hv Hi. assert (Hb : forall j, 27 <= j < 64 -> Z.testbit v j = true) by (intros; apply (top_bits 27); [lia | exact Hv | lia]).
  rewrite Z.lxor_spec, Z.shiftr_spec, Hb by lia. destruct (Z.leb_spec 52 i).
  - rewrite testbit_high; [done | unfold WORD, TOP in *; lia | lia].
  - rewrite Hb by lia. done.
Qed.
Lemma xorshift_fits v i : WORD - TOP <= v < WORD -> 2 <= i <= 9 -> bit_fits (xorshift v) i = true.
Proof.
  intros Hv Hi. assert (Hw : 0 <= v < WORD) by (unfold WORD, TOP in *; lia).
  pose proof (first_stage_bits v) as Ha. unfold bit_fits, xorshift. cbv zeta. set (a := Z.lxor v (Z.shiftr v 12)) in *.
  rewrite !Z.lxor_spec, !Z.shiftr_spec, !Z.lxor_spec by lia. rewrite !shl64_bit by lia.
  rewrite (proj2 (Z.ltb_lt i 64)), (proj2 (Z.leb_gt 25 i)), (proj2 (Z.ltb_lt (i + 27) 64)), (proj2 (Z.leb_le 25 (i + 27))),
    (proj2 (Z.ltb_lt (i + 25) 64)), (proj2 (Z.leb_le 25 (i + 25))), (proj2 (Z.ltb_lt (i + 25 + 27) 64)),
    (proj2 (Z.leb_le 25 (i + 25 + 27))), (proj2 (Z.ltb_lt (i + 27 + 27) 64)), (proj2 (Z.leb_le 25 (i + 27 + 27))) by lia.
  simpl. rewrite (Ha (i + 27)), (Ha (i + 25)), (Ha (i + 25 + 27)), (Ha (i + 25 + 27 - 25)), (Ha (i + 27 + 27)),
    (Ha (i + 27 + 27 - 25)) by lia.
  rewrite (proj2 (Z.leb_gt 52 (i + 27))), (proj2 (Z.leb_gt 52 (i + 25))), (proj2 (Z.leb_le 52 (i + 25 + 27))),
    (proj2 (Z.leb_gt 52 (i + 25 + 27 - 25))), (proj2 (Z.leb_le 52 (i + 27 + 27))), (proj2 (Z.leb_gt 52 (i + 27 + 27 - 25))) by lia.
  replace (i + 27 - 25) with (i + 2) by lia. replace (i + 25 - 25) with i by lia.
  destruct (Z.testbit a i), (Z.testbit a (i + 2)); done.
Qed.
Lemma escapes_sound v u : WORD - TOP <= v < WORD -> xorshift v = WORD - u -> escapes u = false.
Proof.
  intros Hv Hu. unfold escapes. rewrite <- Hu, !xorshift_fits by (done || lia). simpl.
  rewrite unshift_xorshift by (unfold WORD, TOP in *; lia). lia.
Qed.
Lemma mix_escapes v : WORD - TOP <= v < WORD -> mix v < WORD - TOP.
Proof.
  intros Hv. assert (Hw : 0 <= v < WORD) by (unfold WORD, TOP in *; lia).
  destruct (decide (mix v < WORD - TOP)) as [|Hge]; [done|]. exfalso.
  pose proof (xorshift_word v Hw) as Hx. pose proof (xorshift_top v Hv) as Htop.
  assert (Hm : 0 <= mix v < WORD) by (by apply Z.mod_pos_bound).
  set (u := WORD - xorshift v). assert (Hu : residue (WORD - mix v) = u).
  { unfold residue, mix, u. change (2 ^ 64) with WORD. symmetry.
    rewrite <- Zmult_mod_idemp_r, Zminus_mod_idemp_r, Zmult_mod_idemp_r.
    apply Z.mod_unique with (INVERSE - 1 - xorshift v * (INVERSE * MIX_MULTIPLIER / WORD)).
    - left. unfold u, SMALL, WORD in *. lia.
    - assert (INVERSE * MIX_MULTIPLIER = WORD * (INVERSE * MIX_MULTIPLIER / WORD) + 1) as E by done.
      transitivity (INVERSE * WORD - xorshift v * (INVERSE * MIX_MULTIPLIER)); [lia|]. rewrite E at 1. lia. }
  assert (Hs : small u = true) by (apply small_true; unfold u; lia).
  assert (Hlow : 4966 <= WORD - mix v).
  { destruct (decide (4966 <= WORD - mix v)) as [|Hlt]; [done|]. exfalso.
    pose proof (scan_sound _ (Z.to_nat 4965) 1 first_small (WORD - mix v) ltac:(lia)) as Hf. cbv beta in Hf.
    rewrite Hu in Hf. apply small_true in Hs. lia. }
  assert (He : escapes (residue (WORD - mix v)) = true).
  { apply (walk_sound (Z.to_nat 33000) 4966 STEP_4966 whole_walk); [done | done | lia |]. by rewrite Hu. }
  rewrite Hu, (escapes_sound v) in He; [done | done | unfold u; lia].
Qed.

(** ** Uniform samples *)
(** Of the samples that are accepted, every remainder has the same number. *)
Lemma floor_multiple range : 0 < range -> (range | u64_max - u64_max mod range).
Proof. intros Hr. exists (u64_max / range). pose proof (Z.div_mod u64_max range). lia. Qed.
Lemma redraw_once floor sample : WORD - TOP <= floor -> 0 <= sample < WORD ->
  exists s, redraw 1 floor sample = Some s /\ 0 <= s < floor.
Proof.
  intros Hf Hs. cbn [redraw]. destruct (Z.leb_spec floor sample); [|exists sample; split; [done | lia]].
  assert (Hm : mix sample < WORD - TOP) by (apply mix_escapes; lia).
  destruct (Z.leb_spec floor (mix sample)); [lia|]. exists (mix sample). split; [done|].
  assert (0 <= mix sample < 2 ^ 64) by (by apply Z.mod_pos_bound). lia.
Qed.
Lemma uniform_total sample maximum : 0 <= maximum < TOP -> is_u64 sample ->
  exists r, uniform_inclusive 1 sample maximum = Some r /\ 0 <= r <= maximum.
Proof.
  intros Hm Hs. unfold uniform_inclusive, TOP in *. rewrite (proj2 (Z.eqb_neq maximum u64_max)) by (unfold u64_max; lia).
  cbv zeta. destruct (redraw_once (u64_max - u64_max mod (maximum + 1)) sample) as (s & -> & _).
  - pose proof (Z.mod_pos_bound u64_max (maximum + 1)). unfold u64_max, WORD, TOP in *. lia.
  - unfold in_range, u64_max, WORD in *. lia.
  - exists (s mod (maximum + 1)). simpl. split; [done|]. pose proof (Z.mod_pos_bound s (maximum + 1)). lia.
Qed.

(** ** Delays *)
(** The ceiling the documentation gives: the initial delay times the multiplier for
    every attempt after the first, up to the maximum. *)
Definition documented_ceiling (p : JobPolicy) (attempt : Z) : Z :=
  Z.min (initial_backoff_ms p * multiplier p ^ (attempt - 1)) (max_backoff_ms p).
(** The least delay before the retry. *)
Definition least_delay (p : JobPolicy) (ceiling : Z) : Z := match jitter p with Full => 0 | Equal => ceiling / 2 end.
Lemma backoff_ceiling_formula p attempt : 1 <= initial_backoff_ms p <= max_backoff_ms p -> max_backoff_ms p <= 86400000 ->
  2 <= multiplier p <= 10 -> 1 <= attempt -> backoff_ceiling p attempt = documented_ceiling p attempt.
Proof.
  intros Hi Hx Hm Ha. unfold backoff_ceiling, documented_ceiling.
  replace (attempt - 1) with (Z.of_nat (Z.to_nat (attempt - 1))) at 2 by lia. generalize (Z.to_nat (attempt - 1)) as n.
  induction n as [|n IH]; [change (Z.of_nat 0) with 0; simpl; lia|].
  change (Nat.iter (S n) ?f ?x) with (f (Nat.iter n f x)). cbv beta. rewrite IH. clear IH.
  rewrite Nat2Z.inj_succ, Z.pow_succ_r by lia. unfold saturating_mul, u64_max.
  assert (0 < multiplier p ^ Z.of_nat n) by (apply Z.pow_pos_nonneg; lia).
  set (e := multiplier p ^ Z.of_nat n) in *. set (i := initial_backoff_ms p) in *. set (x := max_backoff_ms p) in *.
  set (m := multiplier p) in *. clearbody e i x m. destruct (Z.min_spec (i * e) x) as [[Hlt ->]|[Hge ->]].
  - assert (i * e * m <= x * 10) by nia. rewrite (Z.min_l (i * e * m)) by lia. f_equal. lia.
  - assert (x * m <= x * 10) by nia. rewrite (Z.min_l (x * m)) by lia. rewrite Z.min_r by nia. rewrite Z.min_r; nia.
Qed.

Lemma jittered_backoff_total params p attempt sample : JobPolicy_new params = Ok p ->
  0 <= initial_backoff_ms params -> 1 <= attempt <= u16_max -> is_u64 sample ->
  exists delay_ms, jittered_backoff 1 p attempt sample = Some (Duration.from_millis delay_ms)
    /\ least_delay p (documented_ceiling p attempt) <= delay_ms <= documented_ceiling p attempt
    /\ documented_ceiling p attempt <= max_backoff_ms p.
Proof.
  intros Hp H0 Ha Hs. unfold JobPolicy_new in Hp. inv_ok. subst p.
  assert (Hi : 1 <= initial_backoff_ms params <= max_backoff_ms params) by blia.
  assert (Hx : max_backoff_ms params <= 86400000) by blia. assert (Hm : 2 <= multiplier params <= 10) by blia.
  unfold jittered_backoff. cbv zeta. rewrite backoff_ceiling_formula by (done || lia).
  assert (Hc : 0 <= documented_ceiling params attempt <= max_backoff_ms params).
  { unfold documented_ceiling. assert (0 < multiplier params ^ (attempt - 1)) by (apply Z.pow_pos_nonneg; lia). nia. }
  set (c := documented_ceiling params attempt) in *. unfold least_delay.
  assert (Hh : 0 <= c / 2 <= c) by (split; [apply Z.div_pos; lia | apply Z.div_le_upper_bound; lia]).
  destruct (jitter params).
  - destruct (uniform_total sample c) as (r & -> & Hr); [unfold TOP; lia | done |]. exists r. simpl. split_and!; [done | lia..].
  - destruct (uniform_total sample (c - c / 2)) as (r & -> & Hr); [unfold TOP; lia | done |].
    exists (c / 2 + r). simpl. split_and!; [done | lia..].
Qed.
(** C26. Retry delays end and are bounded: for every policy that can be declared, every
    attempt and every sample, [jittered_backoff] returns after at most one redraw of its
    rejection loop, with a delay that is at most the documented exponential ceiling and,
    for equal jitter, at least half of it. *)
Theorem jittered_backoff_bounded params p attempt sample : JobPolicy_new params = Ok p ->
  0 <= initial_backoff_ms params -> 1 <= attempt <= u16_max -> is_u64 sample ->
  exists delay_ms, jittered_backoff 1 p attempt sample = Some (Duration.from_millis delay_ms)
    /\ least_delay p (documented_ceiling p attempt) <= delay_ms <= documented_ceiling p attempt
    /\ documented_ceiling p attempt <= max_backoff_ms p.
Proof. apply jittered_backoff_total. Qed.
Definition example_policy : JobPolicy :=
  {| idempotency := Optional; max_attempts := 5; initial_backoff_ms := 250; max_backoff_ms := 60000; multiplier := 2;
     jitter := Equal; timeout_seconds := 30; max_concurrency := 4; rate_per_minute := None; policy_queue := "mail";
     priority := 3; retention_seconds := 3600; dead_letter := Retain; compatibility := Exact; max_payload_bytes := 4096 |}.
Lemma jittered_backoff_bounded_witness : documented_ceiling example_policy 3 = 1000
  /\ exists delay_ms, jittered_backoff 1 example_policy 3 u64_max = Some (Duration.from_millis delay_ms) /\ 500 <= delay_ms <= 1000.
Proof.
  split; [done|].
  destruct (jittered_backoff_bounded example_policy example_policy 3 u64_max) as (d & Hd & Hb & _);
    [reflexivity | simpl; lia | unfold u16_max; lia | unfold in_range, u64_max; lia |].
  exists d. split; [exact Hd | exact Hb].
Defined.
