(* ===== verification/JobWire.v ===== *)
(** * Job envelopes and deliveries: the envelope part of [crates/jobs-core/src/lib.rs]

    [serde_json], the [uuid] parser and RFC 3339 times are third-party code and
    parameters; what the derives generate for the envelope types is written out: a
    struct is an object with its fields in order, and is read from an object that has
    every required field once, or from an array of all fields.  A job type is a
    [Serialize + DeserializeOwned] type of the application with its declaration.  The
    ten fields the envelope shares with its erased forms are one record.  The identifier
    and the time an envelope gets at its creation are arguments. *)
From S2P Require Import Prelude Machine Text JsonShape JobPolicy.
From Stdlib Require Import Ascii.

(** ** Third-party code *)
Record OffsetDateTime := { unix_nanos : Z; utc_offset : Z }.
(** The source text of the parts of a document. *)
Inductive Raw := RawObject (members : list (string * string)) | RawArray (items : list string) | RawScalar.
Class SerdeJson := {
  (** [serde_json::to_vec] of a tree, and the pieces its writer is handed *)
  to_text : Value -> string;
  writes : Value -> list string;
  (** the tree of a document, members in the order of the document *)
  from_slice : string -> option Value;
  (** the same with one member read as [IgnoredAny]: its value is skipped, whatever its
      depth, and stands as [Null] *)
  skim : string -> string -> option Value;
  raw : string -> option Raw;
  (** the [serde_json::Value] a tree is read as *)
  into_value : Value -> Value;
  show_uint : Z -> string;
  read_uint : string -> option Z;
  (** [time::serde::rfc3339] *)
  show_rfc3339 : OffsetDateTime -> option string;
  read_rfc3339 : string -> option OffsetDateTime;
}.
(** What [Serialize] hands to the serializer: the text written before it ended, and the
    tree if it did not fail. *)
Record Serialized := { written_text : list string; tree : option Value }.

(** ** Derived [Deserialize] of a struct *)
Fixpoint assoc {A} (name : string) (l : list (string * A)) : option A :=
  match l with
  | [] => None
  | (k, v) :: l' => if bool_decide (k = name) then Some v else assoc name l'
  end.
Definition occurrences {A} (name : string) (l : list (string * A)) : nat := length (filter (fun kv => kv.1 = name) l).
(** The values found for the fields; unknown members are ignored. *)
Definition struct_fields (names : list string) (v : Value) : option (list (option Value)) :=
  match v with
  | Object l => if forallb (fun n => (occurrences n l <=? 1)%nat) names then Some (map (fun n => assoc n l) names) else None
  | Array items => if (length items =? length names)%nat then Some (map Some items) else None
  | _ => None
  end.
Definition required {A} (de : Value -> option A) (v : option Value) : option A := v ≫= de.
(** An [Option] field may be missing. *)
Definition nullable {A} (de : Value -> option A) (v : Value) : option (option A) :=
  match v with Null => Some None | _ => a ← de v; Some (Some a) end.
Definition optional {A} (de : Value -> option A) (v : option Value) : option (option A) :=
  match v with None => Some None | Some v => nullable de v end.
Definition ok {E A} (r : result E A) : option A := match r with Ok a => Some a | Err _ => None end.

(** A job type of the application: its declaration and its [serde] implementations. *)
Class Job (J : Type) := {
  NAME : string;
  VERSION : Z;
  POLICY : JobPolicy;
  METRICS_PREFIX : string;
  RUNBOOK : string;
  serialize : J -> Serialized;
  deserialize : Value -> option J;
}.
Arguments NAME J {_}.
Arguments VERSION J {_}.
Arguments POLICY J {_}.
Arguments METRICS_PREFIX J {_}.
Arguments RUNBOOK J {_}.

Record AttemptPolicy := { ap_max_attempts : Z; ap_timeout_seconds : Z }.
#[global] Instance AttemptPolicy_eq : EqDecision AttemptPolicy.
Proof. solve_decision. Defined.
(** The fields of [EncodedJobHeader]. *)
Record Header := {
  job_id : Z;
  job_type : string;
  job_version : Z;
  tenant_id : option string;
  created_at : OffsetDateTime;
  not_before : option OffsetDateTime;
  correlation_id : Z;
  causation_id : option Z;
  job_key : option string;
  attempt_policy : AttemptPolicy;
}.
Record JobEnvelope (J : Type) := { env : Header; payload : J }.
Arguments env {J}.
Arguments payload {J}.

Section wire.
Context `{SerdeJson} `{UuidText}.
Definition de_string (v : Value) : option string := match v with Str s => Some s | _ => None end.
Definition de_text (check : string -> result text.TextError unit) (v : Value) : option string :=
  s ← de_string v; _ ← ok (check s); Some s.
Definition de_id (v : Value) : option Z := s ← de_string v; ok (id_from_str s).
Definition de_uuid (v : Value) : option Z := s ← de_string v; parse_str s.
Definition de_uint (max : Z) (v : Value) : option Z :=
  match v with Number t => n ← read_uint t; if n <=? max then Some n else None | _ => None end.
Definition de_version (v : Value) : option Z := n ← de_uint u16_max v; ok (Version_new n).
Definition de_time (v : Value) : option OffsetDateTime := s ← de_string v; read_rfc3339 s.
Definition ser_option {A} (ser : A -> Value) (o : option A) : Value := match o with Some a => ser a | None => Null end.

(** ** Envelopes *)
Inductive EnvelopeError :=
| DeclaredName | DeclaredVersion | DeclaredPolicy | EventSuffix | NameMismatch | VersionMismatch | AttemptPolicyMismatch
| IdempotencyRequired | CorrelationId | CausationId | PayloadShape | PayloadTooLarge | EnvelopeTooLarge | EncodeFailed
| DecodeFailed.
Definition AttemptPolicy_validate (a : AttemptPolicy) : result EnvelopeError unit :=
  guard_err ((ap_max_attempts a =? 0) || (100 <? ap_max_attempts a) || (ap_timeout_seconds a =? 0)
             || (86400 <? ap_timeout_seconds a)) AttemptPolicyMismatch.
Definition uuid7 (value : Z) (cause : bool) : result EnvelopeError unit :=
  if get_version_num value =? 7 then Ok tt else if cause then Err CausationId else Err CorrelationId.

(** [CappedWriter] *)
Record CappedWriter := { written : Z; max : Z; first : option ascii; exceeded : bool }.
Definition is_ascii_whitespace (c : ascii) : bool :=
  let b := byte_val c in (b =? 32) || (b =? 9) || (b =? 10) || (b =? 12) || (b =? 13).
Fixpoint first_significant (s : string) : option ascii :=
  match s with
  | EmptyString => None
  | String c s' => if is_ascii_whitespace c then first_significant s' else Some c
  end.
Definition write (bytes : string) (w : CappedWriter) : bool * CappedWriter :=
  let f := match first w with None => first_significant bytes | Some c => Some c end in
  match checked_add usize_max (written w) (len bytes) with
  | None => (false, {| written := written w; max := max w; first := f; exceeded := true |})
  | Some total =>
      if max w <? total then (false, {| written := written w; max := max w; first := f; exceeded := true |})
      else (true, {| written := total; max := max w; first := f; exceeded := exceeded w |})
  end.
Fixpoint write_all (pieces : list string) (w : CappedWriter) : bool * CappedWriter :=
  match pieces with
  | [] => (true, w)
  | p :: rest => let '(fine, w') := write p w in if fine then write_all rest w' else (false, w')
  end.
Definition capped (m : Z) : CappedWriter := {| written := 0; max := m; first := None; exceeded := false |}.
(** [serde_json::to_writer] into a capped writer. *)
Definition to_writer (s : Serialized) (m : Z) : bool * CappedWriter :=
  let '(fine, w) := write_all (written_text s) (capped m) in
  (fine && match tree s with Some _ => true | None => false end, w).
Definition payload_ok (s : Serialized) (m : Z) : result EnvelopeError unit :=
  let '(fine, w) := to_writer s m in
  if negb fine then if exceeded w then Err PayloadTooLarge else Err EncodeFailed
  else guard_err (negb (bool_decide (first w = Some "{"%char))) PayloadShape.
Definition raw_object_ok (value : string) (m : Z) : result EnvelopeError unit :=
  _ ← guard_err (m <? len value) PayloadTooLarge;
  guard_err (negb (bool_decide (first_significant value = Some "{"%char))) PayloadShape.

Definition job_declaration (J : Type) `{Job J} : result EnvelopeError (string * Z) :=
  _ ← map_err (fun _ => DeclaredName) (text.job_name (NAME J));
  version ← map_err (fun _ => DeclaredVersion) (Version_new (VERSION J));
  _ ← map_err (fun _ => DeclaredPolicy) (validate_for (POLICY J) (VERSION J));
  _ ← guard_err (negb (static_metrics_prefix (METRICS_PREFIX J)) || negb (static_runbook (RUNBOOK J))) DeclaredPolicy;
  Ok (NAME J, version).

Record JobEnvelopeOptions := {
  opt_tenant : option string;
  opt_not_before : option OffsetDateTime;
  opt_correlation : Z;
  opt_causation : option Z;
  opt_key : option string;
}.
Definition JobEnvelopeOptions_new (correlation : Z) : result EnvelopeError JobEnvelopeOptions :=
  _ ← uuid7 correlation false;
  Ok {| opt_tenant := None; opt_not_before := None; opt_correlation := correlation; opt_causation := None; opt_key := None |}.
Definition with_tenant (v : string) (o : JobEnvelopeOptions) : JobEnvelopeOptions :=
  {| opt_tenant := Some v; opt_not_before := opt_not_before o; opt_correlation := opt_correlation o;
     opt_causation := opt_causation o; opt_key := opt_key o |}.
Definition with_not_before (t : OffsetDateTime) (o : JobEnvelopeOptions) : JobEnvelopeOptions :=
  {| opt_tenant := opt_tenant o; opt_not_before := Some t; opt_correlation := opt_correlation o;
     opt_causation := opt_causation o; opt_key := opt_key o |}.
Definition with_causation (v : Z) (o : JobEnvelopeOptions) : result EnvelopeError JobEnvelopeOptions :=
  _ ← uuid7 v true;
  Ok {| opt_tenant := opt_tenant o; opt_not_before := opt_not_before o; opt_correlation := opt_correlation o;
        opt_causation := Some v; opt_key := opt_key o |}.
Definition with_idempotency_key (v : string) (o : JobEnvelopeOptions) : JobEnvelopeOptions :=
  {| opt_tenant := opt_tenant o; opt_not_before := opt_not_before o; opt_correlation := opt_correlation o;
     opt_causation := opt_causation o; opt_key := Some v |}.

Definition FIELDS : list string :=
  ["id"; "type"; "version"; "tenant_id"; "created_at"; "not_before"; "correlation_id"; "causation_id"; "idempotency_key";
   "attempt_policy"; "payload"].
Definition ser_attempts (a : AttemptPolicy) : Value :=
  Object [("max_attempts", Number (show_uint (ap_max_attempts a)));
          ("timeout_seconds", Number (show_uint (ap_timeout_seconds a)))].
Definition de_attempts (v : Value) : option AttemptPolicy :=
  l ← struct_fields ["max_attempts"; "timeout_seconds"] v;
  match l with
  | [a; t] =>
      a ← required (de_uint u16_max) a;
      t ← required (de_uint u32_max) t;
      Some {| ap_max_attempts := a; ap_timeout_seconds := t |}
  | _ => None
  end.
(** The tree of an envelope; a time outside RFC 3339 cannot be shown. *)
Definition ser_envelope (h : Header) (payload : Value) : option Value :=
  created ← show_rfc3339 (created_at h);
  due ← match not_before h with None => Some Null | Some t => s ← show_rfc3339 t; Some (Str s) end;
  Some (Object [("id", Str (hyphenated (job_id h)));
                ("type", Str (job_type h));
                ("version", Number (show_uint (job_version h)));
                ("tenant_id", ser_option Str (tenant_id h));
                ("created_at", Str created);
                ("not_before", due);
                ("correlation_id", Str (hyphenated (correlation_id h)));
                ("causation_id", ser_option (fun u => Str (hyphenated u)) (causation_id h));
                ("idempotency_key", ser_option Str (job_key h));
                ("attempt_policy", ser_attempts (attempt_policy h));
                ("payload", payload)]).
(** The header and the tree of the payload. *)
Definition de_envelope (v : Value) : option (Header * Value) :=
  l ← struct_fields FIELDS v;
  match l with
  | [id; ty; ver; tenant; created; due; corr; cause; key; attempts; payload] =>
      id ← required de_id id;
      ty ← required (de_text text.job_name) ty;
      ver ← required de_version ver;
      tenant ← optional (de_text tenant_ok) tenant;
      created ← required de_time created;
      due ← required (nullable de_time) due;
      corr ← required de_uuid corr;
      cause ← optional de_uuid cause;
      key ← optional (de_text text.idempotency_key) key;
      attempts ← required de_attempts attempts;
      payload ← payload;
      Some ({| job_id := id; job_type := ty; job_version := ver; tenant_id := tenant; created_at := created; not_before := due;
               correlation_id := corr; causation_id := cause; job_key := key; attempt_policy := attempts |}, payload)
  | _ => None
  end.

Definition header_validate (h : Header) : result EnvelopeError unit :=
  _ ← uuid7 (correlation_id h) false;
  _ ← match causation_id h with Some u => uuid7 u true | None => Ok tt end;
  AttemptPolicy_validate (attempt_policy h).

(** [EncodedJobEnvelope] *)
Record EncodedJobEnvelope := { bytes : string; queue : string; header : Header }.
Definition restore (b q : string) : result EnvelopeError EncodedJobEnvelope :=
  _ ← guard_err (limits.ENVELOPE_BYTES <? len b) EnvelopeTooLarge;
  hp ← ok_or (skim "payload" b ≫= de_envelope) DecodeFailed;
  _ ← header_validate (fst hp);
  Ok {| bytes := b; queue := q; header := fst hp |}.

Definition declared_attempts (J : Type) `{Job J} : AttemptPolicy :=
  {| ap_max_attempts := max_attempts (POLICY J); ap_timeout_seconds := timeout_seconds (POLICY J) |}.
Definition key_missing (J : Type) `{Job J} (key : option string) : bool :=
  bool_decide (idempotency (POLICY J) = Required) && match key with None => true | Some _ => false end.
Definition JobEnvelope_new `{Job J} (id : Z) (now : OffsetDateTime) (p : J) (o : JobEnvelopeOptions)
    : result EnvelopeError (JobEnvelope J) :=
  d ← job_declaration J;
  _ ← guard_err (key_missing J (opt_key o)) IdempotencyRequired;
  _ ← payload_ok (serialize p) (max_payload_bytes (POLICY J));
  Ok {| env := {| job_id := id; job_type := fst d; job_version := snd d; tenant_id := opt_tenant o; created_at := now;
                  not_before := opt_not_before o; correlation_id := opt_correlation o; causation_id := opt_causation o;
                  job_key := opt_key o; attempt_policy := declared_attempts J |};
        payload := p |}.
Definition validate `{Job J} (e : JobEnvelope J) : result EnvelopeError unit :=
  d ← job_declaration J;
  _ ← guard_err (negb (bool_decide (job_type (env e) = fst d))) NameMismatch;
  _ ← guard_err (negb (job_version (env e) =? snd d)) VersionMismatch;
  _ ← guard_err (negb (bool_decide (attempt_policy (env e) = declared_attempts J))) AttemptPolicyMismatch;
  _ ← guard_err (key_missing J (job_key (env e))) IdempotencyRequired;
  _ ← uuid7 (correlation_id (env e)) false;
  _ ← match causation_id (env e) with Some u => uuid7 u true | None => Ok tt end;
  payload_ok (serialize (payload e)) (max_payload_bytes (POLICY J)).
(** [serde_json::to_vec] of the envelope. *)
Definition to_vec `{Job J} (e : JobEnvelope J) : option string :=
  v ← tree (serialize (payload e)); t ← ser_envelope (env e) v; Some (to_text t).
Definition encode `{Job J} (e : JobEnvelope J) : result EnvelopeError EncodedJobEnvelope :=
  _ ← validate e;
  b ← ok_or (to_vec e) EncodeFailed;
  _ ← guard_err (limits.ENVELOPE_BYTES <? len b) EnvelopeTooLarge;
  _ ← map_err (fun _ => DeclaredPolicy) (text.queue (policy_queue (POLICY J)));
  Ok {| bytes := b; queue := policy_queue (POLICY J); header := env e |}.
(** [RawJobPayload]: the text of the only required field. *)
Definition raw_payload (b : string) : option string :=
  match raw b with
  | Some (RawObject l) => if (occurrences "payload" l <=? 1)%nat then assoc "payload" l else None
  | Some (RawArray [t]) => Some t
  | _ => None
  end.
Definition decode (J : Type) `{Job J} (b : string) : result EnvelopeError (JobEnvelope J) :=
  _ ← guard_err (limits.ENVELOPE_BYTES <? len b) EnvelopeTooLarge;
  r ← ok_or (raw_payload b) DecodeFailed;
  _ ← raw_object_ok r (max_payload_bytes (POLICY J));
  e ← ok_or (v ← from_slice b;
             hp ← de_envelope v;
             p ← deserialize (snd hp);
             Some {| env := fst hp; payload := p |}) DecodeFailed;
  _ ← validate e;
  Ok e.

(** ** Deliveries *)
Record EffectIdentity := { ef_job_id : Z; ef_job_name : string; ef_tenant : option string; ef_key : option string }.
Definition EffectIdentity_from (e : EncodedJobEnvelope) : EffectIdentity :=
  {| ef_job_id := job_id (header e); ef_job_name := job_type (header e); ef_tenant := tenant_id (header e);
     ef_key := job_key (header e) |}.
(** [PartialEq for EffectIdentity] *)
Definition effect_eqb (a b : EffectIdentity) : bool :=
  match ef_key a, ef_key b with
  | Some k, Some k' =>
      bool_decide (ef_job_name a = ef_job_name b) && bool_decide (ef_tenant a = ef_tenant b) && bool_decide (k = k')
  | None, None => ef_job_id a =? ef_job_id b
  | _, _ => false
  end.
Inductive DeliveryContextError := ZeroAttempt | AttemptExceeded.
(** [cancelled] is what the shared cancellation token says when it is asked. *)
Record DeliveryContext := {
  attempt : Z;
  cancelled : bool;
  deadline : OffsetDateTime;
  dc_tenant : option string;
  dc_correlation : Z;
  dc_causation : option Z;
  effect_identity : EffectIdentity;
}.
Definition DeliveryContext_from (e : EncodedJobEnvelope) (n : Z) (cancellation : bool) (until : OffsetDateTime)
    : result DeliveryContextError DeliveryContext :=
  _ ← guard_err (n =? 0) ZeroAttempt;
  _ ← guard_err (ap_max_attempts (attempt_policy (header e)) <? n) AttemptExceeded;
  Ok {| attempt := n; cancelled := cancellation; deadline := until; dc_tenant := tenant_id (header e);
        dc_correlation := correlation_id (header e); dc_causation := causation_id (header e);
        effect_identity := EffectIdentity_from e |}.
Definition matches (c : DeliveryContext) (e : EncodedJobEnvelope) : bool :=
  bool_decide (dc_tenant c = tenant_id (header e)) && (dc_correlation c =? correlation_id (header e))
  && bool_decide (dc_causation c = causation_id (header e)) && effect_eqb (effect_identity c) (EffectIdentity_from e).
Inductive HandlerOutcome := Succeeded | Retryable (code : string) | Permanent (code : string) | Cancelled.
(** [TypedJobHandlerAdapter::handle] *)
Definition handle `{Job J} (handler : J -> DeliveryContext -> HandlerOutcome) (e : EncodedJobEnvelope) (c : DeliveryContext)
    : HandlerOutcome :=
  if cancelled c then Cancelled
  else if negb (matches c e) then Permanent "context_mismatch"
  else match decode J (bytes e) with
       | Err _ => Permanent "invalid_envelope"
       | Ok envelope => handler (payload envelope) c
       end.

(** ** The capturing enqueuer *)
Record EnqueueReceipt := { rc_job_id : Z; rc_queue : string; accepted_at : OffsetDateTime }.
Inductive EnqueueError := InvalidEnvelope | Capacity | Unavailable | Rejected.
Inductive CaptureError := InvalidCapacity | CaptureUnavailable.
Class JobEnqueuer (Q : Type) := enqueue : EncodedJobEnvelope -> ST Q EnqueueError EnqueueReceipt.
Definition enqueue_typed `{JobEnqueuer Q} `{Job J} (e : JobEnvelope J) : ST Q EnqueueError EnqueueReceipt :=
  x ← st_read (fun _ => map_err (fun _ => InvalidEnvelope) (encode e)); enqueue x.
(** The time is the one read when a job is accepted. *)
Record CapturingJobEnqueuer := { capacity : Z; records : list EncodedJobEnvelope; poisoned : bool; clock : OffsetDateTime }.
Definition CapturingJobEnqueuer_new (c : Z) (t : OffsetDateTime) : result CaptureError CapturingJobEnqueuer :=
  _ ← guard_err ((c =? 0) || (limits.CAPTURED_JOBS <? c)) InvalidCapacity;
  Ok {| capacity := c; records := []; poisoned := false; clock := t |}.
#[global] Instance capturing : JobEnqueuer CapturingJobEnqueuer := fun e s =>
  if poisoned s then (Err Unavailable, s)
  else if Z.of_nat (length (records s)) =? capacity s then (Err Capacity, s)
  else (Ok {| rc_job_id := job_id (header e); rc_queue := queue e; accepted_at := clock s |},
        {| capacity := capacity s; records := records s ++ [e]; poisoned := poisoned s; clock := clock s |}).
Definition captured (s : CapturingJobEnqueuer) : result CaptureError (list EncodedJobEnvelope) :=
  if poisoned s then Err CaptureUnavailable else Ok (records s).
Definition drain_captured : ST CapturingJobEnqueuer CaptureError (list EncodedJobEnvelope) := fun s =>
  if poisoned s then (Err CaptureUnavailable, s)
  else (Ok (records s), {| capacity := capacity s; records := []; poisoned := poisoned s; clock := clock s |}).
End wire.
