(* ===== verification/JobTheorems.v ===== *)
(** * Theorems about job envelopes and deliveries *)
From S2P Require Import Prelude Machine Text JsonShape JobPolicy JobWire.
From Stdlib Require Import Ascii DecimalString DecimalPos DecimalZ.

(** ** What the third-party code promises *)
(** Nested containers; [serde_json] reads 127 of them. *)
Fixpoint depth (v : Value) : Z :=
  match v with
  | Array items => 1 + foldr (fun v n => Z.max (depth v) n) 0 items
  | Object members => 1 + foldr (fun kv n => Z.max (depth kv.2) n) 0 members
  | _ => 0
  end.
Definition DEPTH_LIMIT : Z := 127.
(** An object with the value of one member skipped. *)
Definition skipped (name : string) (l : list (string * Value)) : list (string * Value) :=
  map (fun kv => (kv.1, if bool_decide (kv.1 = name) then Null else kv.2)) l.
Class SerdeJsonLaws `{SerdeJson} := {
  (** what the Rust type allows: UTF-8 strings, numbers of the JSON grammar *)
  is_value : Value -> Prop;
  (** what a [serde_json::Value] holds: objects without repeated or private keys *)
  is_map_value : Value -> Prop;
  into_value_id v : is_map_value v -> into_value v = v;
  empty_text : to_text (Object []) = "{}";
  writes_text v : String.concat "" (writes v) = to_text v;
  from_slice_text v : is_value v -> depth v <= DEPTH_LIMIT -> from_slice (to_text v) = Some v;
  from_slice_deep v : is_value v -> DEPTH_LIMIT < depth v -> from_slice (to_text v) = None;
  skim_text name l : is_value (Object l) -> depth (Object (skipped name l)) <= DEPTH_LIMIT ->
    skim name (to_text (Object l)) = Some (Object (skipped name l));
  raw_text l : is_value (Object l) -> depth (Object l) <= DEPTH_LIMIT ->
    raw (to_text (Object l)) = Some (RawObject (map (fun kv => (kv.1, to_text kv.2)) l));
  read_show_uint n : is_u64 n -> read_uint (show_uint n) = Some n;
  read_show_rfc3339 t s : show_rfc3339 t = Some s -> read_rfc3339 s = Some t;
}.
(** What a job type promises: a policy made by [JobPolicy::new], values that are written
    as their tree and read back from it. *)
Class JobLaws (J : Type) `{SerdeJson} `{Job J} := {
  policy_declared : exists params, 0 <= max_attempts params /\ 0 <= timeout_seconds params /\ 0 <= max_payload_bytes params
    /\ JobPolicy_new params = Ok (POLICY J);
  version_u16 : is_u16 (VERSION J);
  serialize_text (j : J) v : tree (serialize j) = Some v -> String.concat "" (written_text (serialize j)) = to_text v;
  deserialize_serialize (j : J) v : tree (serialize j) = Some v -> deserialize v = Some j;
}.

(** ** Portable text *)
Lemma portable_ok value k lo hi allowed : text.portable value k lo hi allowed = Ok tt <->
  lo <= len value <= hi /\ all_bytes text.is_ascii value = true /\ all_bytes allowed value = true.
Proof.
  unfold text.portable, guard_err. destruct (Z.ltb_spec (len value) lo); simpl; [split; [done | lia]|].
  destruct (Z.ltb_spec hi (len value)); simpl; [split; [done | lia]|].
  destruct (all_bytes text.is_ascii value), (all_bytes allowed value); simpl; split; try done; try (by intros (_ & ? & ?)); lia.
Qed.
(** A property of every byte, by looking at all of them. *)
Ltac every_byte := let c := fresh "c" in intros c; destruct c as [[] [] [] [] [] [] [] []]; vm_compute; done.
Lemma name_byte_ascii c : text.name_byte c = true -> text.is_ascii c = true.
Proof. revert c. every_byte. Qed.
Lemma static_queue_ok q : static_queue q = true -> text.queue q = Ok tt.
Proof.
  unfold static_queue, text.queue. destruct (is_empty q || _ || _) eqn:E; [done|]. intros Hq.
  apply orb_false_elim in E as [[Ee El]%orb_false_elim Ef]. unfold guard_err.
  rewrite (proj2 (portable_ok _ _ _ _ _)); [simpl; by rewrite Ef|]. split_and!.
  - assert (len q <> 0) by (intros Hz; apply is_empty_len in Hz; congruence). pose proof (len_nonneg q). lia.
  - lia.
  - eapply all_bytes_mono; [apply name_byte_ascii | done].
  - done.
Qed.

(** ** The capped writer *)
Lemma first_significant_app s t : first_significant (s +:+ t) =
  match first_significant s with Some c => Some c | None => first_significant t end.
Proof.
  induction s as [|c s IH]; [done|]. change (String c s +:+ t) with (String c (s +:+ t)). simpl.
  by destruct (is_ascii_whitespace c).
Qed.
Lemma concat_cons p ps : String.concat "" (p :: ps) = p +:+ String.concat "" ps.
Proof. destruct ps; simpl; [|done]. induction p as [|c p IH]; [done|]. change (String c p +:+ "") with (String c (p +:+ "")). congruence. Qed.
Lemma write_all_spec ps w fine w' : write_all ps w = (fine, w') -> 0 <= written w <= max w -> max w <= usize_max ->
  exceeded w = false ->
  let total := written w + len (String.concat "" ps) in
  fine = (total <=? max w) /\ exceeded w' = negb fine
  /\ (fine = true -> written w' = total
        /\ first w' = match first w with Some c => Some c | None => first_significant (String.concat "" ps) end).
Proof.
  revert w. induction ps as [|p ps IH]; intros w Hw Hb Hm He; cbn [write_all] in Hw.
  - injection Hw as <- <-. change (len (String.concat "" [])) with 0. cbv zeta.
    split_and!; [lia | by rewrite He |]. intros _. split; [lia|]. simpl. by destruct (first w).
  - cbv zeta. rewrite concat_cons, len_app, first_significant_app. pose proof (len_nonneg p).
    pose proof (len_nonneg (String.concat "" ps)). unfold write in Hw.
    destruct (checked_add _ _ _) as [total|] eqn:Et.
    + apply checked_add_Some in Et as [-> Et]. destruct (Z.ltb_spec (max w) (written w + len p)) as [Hlt|Hge].
      * injection Hw as <- <-. split_and!; [symmetry; apply Z.leb_gt; lia | done | done].
      * apply IH in Hw; cbn [written max exceeded first] in *; [|lia|lia|done]. cbv zeta in Hw.
        destruct Hw as (-> & -> & Hf). split_and!; [f_equal; lia | done |]. intros Ht. destruct (Hf Ht) as [-> ->].
        split; [lia|]. by destruct (first w), (first_significant p).
    + apply checked_add_None in Et. injection Hw as <- <-. split_and!; [symmetry; apply Z.leb_gt; lia | done | done].
Qed.
(** [payload_ok] on a value that serializes: its text is an object within the limit. *)
Lemma payload_ok_spec s m v : tree s = Some v -> 0 <= m <= usize_max ->
  let t := String.concat "" (written_text s) in
  payload_ok s m = Ok tt <-> len t <= m /\ first_significant t = Some "{"%char.
Proof.
  intros Hv Hm t. unfold payload_ok, to_writer. destruct (write_all _ _) as [fine w] eqn:Ew.
  apply write_all_spec in Ew as (-> & He & Hf); cbn [written max exceeded first capped] in *; [|lia|lia|done]. rewrite Hv, andb_true_r. fold t in He, Hf |- *.
  change (0 + len t) with (len t) in *.
  destruct (Z.leb_spec (len t) m) as [Hle|Hgt]; simpl in *.
  - destruct (Hf eq_refl) as [_ ->]. case_bool_decide; simpl; split; [done | done | done | by intros []].
  - rewrite He. simpl. split; [done | lia].
Qed.
(** So writing through the cap and looking at the finished text agree. *)
Lemma payload_ok_raw s m v : tree s = Some v -> 0 <= m <= usize_max -> payload_ok s m = Ok tt ->
  raw_object_ok (String.concat "" (written_text s)) m = Ok tt.
Proof.
  intros Hv Hm Hp. apply (payload_ok_spec s m v Hv Hm) in Hp as [Hl Hf]. unfold raw_object_ok. rewrite Hf.
  unfold guard_err. destruct (Z.ltb_spec m (len (String.concat "" (written_text s)))); [lia | done].
Qed.

(** ** The header on the wire *)
Section roundtrip.
Context `{SerdeJsonLaws} `{UuidLaws}.

(** What the types of the fields guarantee. *)
Definition header_typed (h : Header) : Prop :=
  in_range u128_max (job_id h) /\ get_version_num (job_id h) = 7
  /\ (forall s, tenant_id h = Some s -> tenant_ok s = Ok tt)
  /\ in_range u128_max (correlation_id h)
  /\ (forall u, causation_id h = Some u -> in_range u128_max u)
  /\ (forall s, job_key h = Some s -> text.idempotency_key s = Ok tt).
(** What a valid envelope of a declared job adds. *)
Definition header_declared (h : Header) : Prop :=
  text.job_name (job_type h) = Ok tt /\ 1 <= job_version h <= u16_max
  /\ 1 <= ap_max_attempts (attempt_policy h) <= 100 /\ 1 <= ap_timeout_seconds (attempt_policy h) <= 86400.

Lemma fields_found a b c d e f g h i j k :
  struct_fields FIELDS (Object [("id", a); ("type", b); ("version", c); ("tenant_id", d); ("created_at", e);
    ("not_before", f); ("correlation_id", g); ("causation_id", h); ("idempotency_key", i); ("attempt_policy", j); ("payload", k)])
  = Some [Some a; Some b; Some c; Some d; Some e; Some f; Some g; Some h; Some i; Some j; Some k].
Proof. reflexivity. Qed.
Lemma attempts_found a b : struct_fields ["max_attempts"; "timeout_seconds"] (Object [("max_attempts", a); ("timeout_seconds", b)])
  = Some [Some a; Some b].
Proof. reflexivity. Qed.
Lemma de_uint_show n m : 0 <= n <= m -> m <= u64_max -> de_uint m (Number (show_uint n)) = Some n.
Proof.
  intros Hn Hm. unfold de_uint. rewrite read_show_uint by (unfold in_range; lia). simpl.
  by destruct (Z.leb_spec n m); [|lia].
Qed.
Lemma de_id_show u : in_range u128_max u -> get_version_num u = 7 -> de_id (Str (hyphenated u)) = Some u.
Proof.
  intros Hu Hv. unfold de_id, id_from_str, de_string, from_uuid. cbn [mbind option_bind result_bind]. rewrite parse_hyphenated by exact Hu.
  cbn [ok_or mbind result_bind]. by rewrite Hv.
Qed.
Lemma de_uuid_show u : in_range u128_max u -> de_uuid (Str (hyphenated u)) = Some u.
Proof. apply parse_hyphenated. Qed.
Lemma de_time_show x s : show_rfc3339 x = Some s -> de_time (Str s) = Some x.
Proof. apply read_show_rfc3339. Qed.
Lemma de_text_show check s : check s = Ok tt -> de_text check (Str s) = Some s.
Proof. intros Hs. unfold de_text. simpl. by rewrite Hs. Qed.
Lemma optional_show {A} (de : Value -> option A) (ser : A -> Value) o :
  (forall a, o = Some a -> de (ser a) = Some a /\ ser a <> Null) -> optional de (Some (ser_option ser o)) = Some o.
Proof.
  intros Ha. destruct o as [a|]; [|done]. destruct (Ha a eq_refl) as [Hd Hn]. simpl. unfold nullable.
  destruct (ser a) eqn:E; try done; by rewrite Hd.
Qed.
Lemma de_attempts_show a : 0 <= ap_max_attempts a <= u16_max -> 0 <= ap_timeout_seconds a <= u32_max ->
  de_attempts (ser_attempts a) = Some a.
Proof.
  intros Hmax Htime. unfold de_attempts, ser_attempts. rewrite attempts_found. cbn [mbind option_bind required].
  rewrite (de_uint_show (ap_max_attempts a)) by (unfold u16_max, u64_max in *; lia). cbn [mbind option_bind].
  rewrite de_uint_show by (unfold u32_max, u64_max in *; lia). by destruct a.
Qed.
Lemma envelope_tree_roundtrip h p t : header_typed h -> header_declared h -> ser_envelope h p = Some t ->
  de_envelope t = Some (h, p).
Proof.
  intros (T1 & T2 & T3 & T4 & T5 & T6) (D1 & D2 & D3 & D4) Ht. unfold ser_envelope in Ht.
  destruct (show_rfc3339 (created_at h)) as [created|] eqn:Ec; [|done]. simpl in Ht.
  assert (Hdue : exists due, match not_before h with None => Some Null | Some t => s ← show_rfc3339 t; Some (Str s) end = Some due
            /\ nullable de_time due = Some (not_before h)).
  { destruct (not_before h) as [n|]; [|eauto]. destruct (show_rfc3339 n) as [s|] eqn:Es; [|done].
    exists (Str s). split; [done|]. unfold nullable. by rewrite (de_time_show _ _ Es). }
  destruct Hdue as (due & Edue & Hdue). rewrite Edue in Ht. simpl in Ht. injection Ht as <-.
  unfold de_envelope. rewrite fields_found. cbn [mbind option_bind required].
  rewrite de_id_show by done. cbn [mbind option_bind]. rewrite de_text_show by done. cbn [mbind option_bind].
  unfold de_version. rewrite de_uint_show by (unfold u16_max, u64_max in *; lia). cbn [mbind option_bind].
  unfold Version_new. destruct (Z.eqb_spec (job_version h) 0); [lia|]. cbn [ok mbind option_bind].
  rewrite (optional_show (de_text tenant_ok) Str) by (intros s Hs; split; [by apply de_text_show, T3 | done]).
  cbn [mbind option_bind]. rewrite (de_time_show _ _ Ec).
  cbn [mbind option_bind]. rewrite Hdue. cbn [mbind option_bind].
  rewrite de_uuid_show by done. cbn [mbind option_bind].
  rewrite (optional_show de_uuid (fun u => Str (hyphenated u)))
    by (intros u Hu; split; [by apply de_uuid_show, T5 | done]).
  cbn [mbind option_bind]. rewrite (optional_show (de_text text.idempotency_key) Str)
    by (intros s Hs; split; [by apply de_text_show, T6 | done]).
  cbn [mbind option_bind]. rewrite de_attempts_show by (unfold u16_max, u32_max; lia). by destruct h.
Qed.
End roundtrip.

(** ** Envelopes *)
Section envelopes.
Context `{SerdeJsonLaws} `{UuidLaws} {J : Type} `{!Job J} `{!JobLaws J}.
Implicit Types e : JobEnvelope J.

Lemma declaration_ok d : job_declaration J = Ok d ->
  d = (NAME J, VERSION J) /\ text.job_name (NAME J) = Ok tt /\ 1 <= VERSION J <= u16_max.
Proof.
  intros Hd. unfold job_declaration, Version_new in Hd. pose proof version_u16 as Hv. unfold in_range in Hv. inv_ok.
  destruct v. destruct (Z.eqb_spec (VERSION J) 0); [done|]. simplify_eq. split_and!; [done | done | lia | lia].
Qed.
Lemma policy_bounds : 1 <= max_attempts (POLICY J) <= 100 /\ 1 <= timeout_seconds (POLICY J) <= 86400
  /\ 0 <= max_payload_bytes (POLICY J) <= usize_max /\ text.queue (policy_queue (POLICY J)) = Ok tt.
Proof.
  destruct policy_declared as (p & Ha & Ht & Hb & Hp). unfold JobPolicy_new in Hp. inv_ok. subst p.
  unfold limits.PAYLOAD_BYTES in *. split_and!; try (unfold usize_max, u64_max; blia). apply static_queue_ok. by apply negb_false_iff.
Qed.
Lemma uuid7_ok u b : uuid7 u b = Ok tt -> get_version_num u = 7.
Proof. unfold uuid7. destruct (Z.eqb_spec (get_version_num u) 7); [done|]. by destruct b. Qed.
Lemma validate_declared e : validate e = Ok tt -> header_declared (env e) /\ header_validate (env e) = Ok tt
  /\ payload_ok (serialize (payload e)) (max_payload_bytes (POLICY J)) = Ok tt.
Proof.
  intros Hv. unfold validate in Hv. destruct policy_bounds as (P1 & P2 & _). inv_ok.
  apply declaration_ok in Hok as (-> & Hn & Hver). simpl in *.
  repeat match goal with Hb : negb (bool_decide _) = false |- _ => apply negb_false_iff, bool_decide_eq_true in Hb end.
  repeat match goal with Hb : negb (_ =? _) = false |- _ => apply negb_false_iff, Z.eqb_eq in Hb end.
  repeat match goal with x : unit |- _ => destruct x end.
  split_and!; [| |done].
  - unfold header_declared. repeat match goal with Hx : _ (env e) = _ |- _ => rewrite Hx end. unfold declared_attempts. cbn [ap_max_attempts ap_timeout_seconds]. split; [done | lia].
  - unfold header_validate, AttemptPolicy_validate. repeat match goal with Hx : uuid7 _ _ = Ok _ |- _ => rewrite Hx; simpl end.
    repeat match goal with Hx : match causation_id _ with _ => _ end = Ok _ |- _ => rewrite Hx; simpl end.
    repeat match goal with Hx : attempt_policy (env e) = _ |- _ => rewrite Hx end. unfold guard_err, declared_attempts. simpl.
    destruct (Z.eqb_spec (max_attempts (POLICY J)) 0); [lia|]. destruct (Z.ltb_spec 100 (max_attempts (POLICY J))); [lia|].
    destruct (Z.eqb_spec (timeout_seconds (POLICY J)) 0); [lia|]. by destruct (Z.ltb_spec 86400 (timeout_seconds (POLICY J))); [lia|].
Qed.

(** The document of an envelope, how deep its containers nest, and that it is what the
    Rust types allow. *)
Definition document_of e : option Value := v ← tree (serialize (payload e)); ser_envelope (env e) v.
Definition nesting e : Z := match document_of e with Some t => depth t | None => 0 end.
Definition typed_document e : Prop := forall t, document_of e = Some t -> is_value t.
(** The document is one [serde_json] reads: with at most 127 nested containers. *)
Definition legible e : Prop := typed_document e /\ nesting e <= DEPTH_LIMIT.
Lemma envelope_skipped h v t : ser_envelope h v = Some t ->
  exists l, t = Object l /\ ser_envelope h Null = Some (Object (skipped "payload" l)) /\ depth (Object (skipped "payload" l)) <= DEPTH_LIMIT.
Proof.
  unfold ser_envelope. destruct (show_rfc3339 (created_at h)); [|done]. simpl.
  assert (Hdue : forall due, match not_before h with None => Some Null | Some t => s ← show_rfc3339 t; Some (Str s) end = Some due -> depth due = 0).
  { intros due. destruct (not_before h) as [n|]; [|by intros [= <-]]. destruct (show_rfc3339 n); [|done]. by intros [= <-]. }
  destruct (match not_before h with None => _ | Some _ => _ end) as [due|]; [|done]. simpl. intros [= <-]. eexists. split; [done|].
  unfold skipped. cbn [map fst snd]. repeat (case_bool_decide; try done). split; [done|].
  specialize (Hdue due eq_refl). destruct (tenant_id h), (causation_id h), (job_key h); cbn; rewrite Hdue; by vm_compute.
Qed.
Lemma to_vec_document e b : to_vec e = Some b -> legible e ->
  exists v t, tree (serialize (payload e)) = Some v /\ ser_envelope (env e) v = Some t /\ b = to_text t
    /\ from_slice b = Some t /\ raw_payload b = Some (to_text v).
Proof.
  unfold to_vec. intros Hb Hl. destruct (tree _) as [v|] eqn:Ev; [|done]. simpl in Hb.
  destruct (ser_envelope _ _) as [t|] eqn:Et; [|done]. simpl in Hb. injection Hb as <-.
  assert (Edoc : document_of e = Some t) by (unfold document_of; by rewrite Ev).
  destruct Hl as [Hv Hd]. specialize (Hv t Edoc). unfold nesting in Hd. rewrite Edoc in Hd. exists v, t. split_and!; [done | done | done | by apply from_slice_text |].
  unfold ser_envelope in Et. destruct (show_rfc3339 _); [|done]. simpl in Et.
  destruct (match not_before (env e) with None => _ | Some _ => _ end); [|done]. simpl in Et. injection Et as <-.
  unfold raw_payload. by rewrite raw_text.
Qed.
Lemma encode_parts e x : encode e = Ok x -> validate e = Ok tt /\ to_vec e = Some (bytes x) /\ len (bytes x) <= limits.ENVELOPE_BYTES
  /\ queue x = policy_queue (POLICY J) /\ header x = env e.
Proof.
  intros Hx. unfold encode in Hx. inv_ok. subst x. repeat match goal with u : unit |- _ => destruct u end.
  split_and!; try done. cbn [bytes]. lia.
Qed.

(** What [encode] accepts restores to the same erased form, whatever its depth, and a
    document too deep to be read is not decoded. *)
Lemma encode_restores e x : header_typed (env e) -> typed_document e -> encode e = Ok x ->
  restore (bytes x) (queue x) = Ok x /\ (DEPTH_LIMIT < nesting e -> exists err, decode J (bytes x) = Err err).
Proof.
  intros Ht Hty Hx. apply encode_parts in Hx as (Hv & Hb & Hlen & Hq & Hh).
  apply validate_declared in Hv as (Hdecl & Hhv & _). unfold to_vec in Hb.
  destruct (tree _) as [v|] eqn:Ev; [|done]. simpl in Hb. destruct (ser_envelope _ _) as [t|] eqn:Et; [|done]. injection Hb as Hb.
  assert (Edoc : document_of e = Some t) by (unfold document_of; by rewrite Ev).
  destruct (envelope_skipped _ _ _ Et) as (l & -> & Esk & Hd). pose proof (envelope_tree_roundtrip _ _ _ Ht Hdecl Esk) as Hde. split.
  - unfold restore, guard_err. rewrite (proj2 (Z.ltb_ge _ _)) by lia. cbn [mbind result_bind]. rewrite <- Hb, skim_text by auto. cbn [mbind option_bind].
    rewrite Hde. cbn [ok_or mbind result_bind fst]. rewrite Hhv. cbn [mbind result_bind]. rewrite <- Hh, Hb. by destruct x.
  - unfold nesting. rewrite Edoc. intros Hdeep. unfold decode. rewrite <- Hb, (from_slice_deep (Object l)) by auto. cbn [mbind option_bind ok_or].
    destruct (guard_err _ _); cbn; [|by eexists]. destruct (raw_payload _); cbn; [|by eexists]. destruct (raw_object_ok _ _); cbn; by eexists.
Qed.
(** What [encode] accepts and [serde_json] can read decodes to the same envelope. *)
Lemma encode_decodes e x : header_typed (env e) -> legible e -> encode e = Ok x -> decode J (bytes x) = Ok e.
Proof.
  intros Ht Hl Hx. apply encode_parts in Hx as (Hv & Hb & Hlen & Hq & Hh).
  apply validate_declared in Hv as Hd. destruct Hd as (Hdecl & Hhv & Hp).
  destruct (to_vec_document e _ Hb Hl) as (v & t & Etree & Et & Eb & Hslice & Hraw).
  pose proof (envelope_tree_roundtrip _ _ _ Ht Hdecl Et) as Hde. destruct policy_bounds as (_ & _ & Hm & _).
  assert (Hsize : guard_err (limits.ENVELOPE_BYTES <? len (bytes x)) EnvelopeTooLarge = Ok tt)
    by (unfold guard_err; destruct (Z.ltb_spec limits.ENVELOPE_BYTES (len (bytes x))); [lia | done]).
  unfold decode. rewrite Hsize. cbn [mbind result_bind]. rewrite Hraw. cbn [ok_or mbind result_bind].
    rewrite <- (serialize_text _ _ Etree), (payload_ok_raw _ _ v Etree Hm Hp). cbn [mbind result_bind].
    rewrite Hslice. cbn [mbind option_bind]. rewrite Hde. cbn [mbind option_bind snd fst].
    rewrite (deserialize_serialize _ _ Etree). cbn [ok_or mbind option_bind result_bind].
    replace {| env := env e; payload := payload e |} with e by (by destruct e). rewrite Hv. done.
Qed.

(** What the types of the options guarantee. *)
Definition options_typed (o : JobEnvelopeOptions) : Prop :=
  (forall s, opt_tenant o = Some s -> tenant_ok s = Ok tt) /\ in_range u128_max (opt_correlation o)
  /\ (forall u, opt_causation o = Some u -> in_range u128_max u)
  /\ (forall s, opt_key o = Some s -> text.idempotency_key s = Ok tt).
Lemma new_parts id now p o e : JobEnvelope_new id now p o = Ok e -> payload e = p /\ attempt_policy (env e) = declared_attempts J
  /\ (options_typed o -> in_range u128_max id -> get_version_num id = 7 -> header_typed (env e)).
Proof. intros He. unfold JobEnvelope_new in He. inv_ok. subst e. split_and!; [done | done |]. intros (O1 & O2 & O3 & O4) Hr Hv. by split_and!. Qed.
Lemma effect_eqb_refl a : effect_eqb a a = true.
Proof. unfold effect_eqb. destruct (ef_key a); [|apply Z.eqb_refl]. by rewrite !bool_decide_eq_true_2. Qed.

(** C25. A job reaches its handler intact, if its document nests at most 127 containers:
    for an envelope that was created and encoded, the erased form restored from the stored
    bytes and queue is the one that was encoded, and for every attempt the policy allows
    the delivery context is accepted.  Within that depth, which is the recursion limit of
    [serde_json], the envelope decodes to itself and the typed handler is called with the
    payload the job was created with; a deeper one is encoded all the same, is never
    decoded, and its delivery fails for good without the handler being called. *)
Theorem job_delivered_intact id now p o e x n until handler : options_typed o -> in_range u128_max id -> get_version_num id = 7 ->
  JobEnvelope_new id now p o = Ok e -> typed_document e -> encode e = Ok x -> 1 <= n <= max_attempts (POLICY J) ->
  restore (bytes x) (queue x) = Ok x
  /\ exists c, DeliveryContext_from x n false until = Ok c /\ attempt c = n
     /\ if nesting e <=? DEPTH_LIMIT
        then decode J (bytes x) = Ok e /\ handle handler x c = handler p c
        else (exists err, decode J (bytes x) = Err err) /\ handle handler x c = Permanent "invalid_envelope".
Proof.
  intros Ho Hid Hv He Hl Hx Hn. destruct (new_parts _ _ _ _ _ He) as (Hp & Ha & Hty). specialize (Hty Ho Hid Hv).
  destruct (encode_restores _ _ Hty Hl Hx) as [Hr Hdeep]. pose proof (fun Hd => encode_decodes e x Hty (conj Hl Hd) Hx) as Hdec. split; [done|].
  apply encode_parts in Hx as (_ & _ & _ & _ & Hh). unfold DeliveryContext_from, guard_err. rewrite Hh, Ha. cbn [declared_attempts ap_max_attempts].
  destruct (Z.eqb_spec n 0); [lia|]. destruct (Z.ltb_spec (max_attempts (POLICY J)) n); [lia|].
  eexists. split_and!; [reflexivity | done |]. unfold handle, matches. cbn [cancelled dc_tenant dc_correlation dc_causation effect_identity].
  rewrite Hh, !bool_decide_eq_true_2, Z.eqb_refl, effect_eqb_refl by done. cbn [negb andb].
  destruct (Z.leb_spec (nesting e) DEPTH_LIMIT) as [Hd|Hd]; [by rewrite Hdec, Hp|]. destruct (Hdeep Hd) as [err Herr]. rewrite Herr. split; [by eexists|done].
Qed.
End envelopes.

(** ** Effects *)
(** What identifies an effect: the application key in its name and tenant, or the job. *)
Definition effect_class (a : EffectIdentity) : (string * option string * string) + Z :=
  match ef_key a with Some k => inl (ef_job_name a, ef_tenant a, k) | None => inr (ef_job_id a) end.
Lemma effect_eqb_class a b : effect_eqb a b = true <-> effect_class a = effect_class b.
Proof.
  unfold effect_eqb, effect_class. destruct (ef_key a) as [k|], (ef_key b) as [k'|]; try done.
  - rewrite !andb_true_iff, !bool_decide_eq_true. split; [by intros [[-> ->] ->] | intros E; by simplify_eq].
  - rewrite Z.eqb_eq. split; [congruence | intros E; by simplify_eq].
Qed.
(** Duplicate deliveries have one effect identity: the comparison is an equivalence. *)
Definition same_effect (a b : EffectIdentity) : Prop := effect_eqb a b = true.
#[global] Instance same_effect_equivalence : Equivalence same_effect.
Proof.
  unfold same_effect. split.
  - intros a. by apply effect_eqb_class.
  - intros a b. rewrite !effect_eqb_class. congruence.
  - intros a b c. rewrite !effect_eqb_class. congruence.
Qed.
(** The handler runs only for the delivery its context was made for. *)
Lemma handler_runs_for_its_delivery `{SerdeJson} `{UuidText} {J} `{!Job J} (handler : J -> DeliveryContext -> HandlerOutcome) x y n b until c :
  DeliveryContext_from y n b until = Ok c -> handle handler x c = Succeeded ->
  b = false /\ correlation_id (header x) = correlation_id (header y) /\ tenant_id (header x) = tenant_id (header y)
  /\ same_effect (EffectIdentity_from y) (EffectIdentity_from x)
  /\ exists e, decode J (bytes x) = Ok e /\ handler (payload e) c = Succeeded.
Proof.
  intros Hc Hh. unfold DeliveryContext_from in Hc. inv_ok. subst c. unfold handle, matches in Hh. cbn [cancelled dc_tenant dc_correlation dc_causation effect_identity] in Hh.
  destruct b; [done|]. destruct (_ && _) eqn:Em in Hh; [|done]. cbn [negb] in Hh.
  rewrite !andb_true_iff, !bool_decide_eq_true, Z.eqb_eq in Em. destruct Em as [[[E1 E2] E3] E4].
  destruct (decode J (bytes x)) as [e|] eqn:Ed; [|done]. split_and!; [done | done | done | done |]. by exists e.
Qed.

(** ** A concrete job *)
Module JobExamples.
Definition show (n : Z) : string := NilZero.string_of_int (Z.to_int n).
Definition read (s : string) : option Z := i ← NilZero.int_of_string s; Some (Z.of_int i).
Lemma read_show n : read (show n) = Some n.
Proof.
  unfold read, show. rewrite NilZero.isi; [simpl; by rewrite DecimalZ.of_to | |].
  - destruct n; simpl; [done | |done]. intros [= E]. by apply (DecimalPos.Unsigned.to_uint_nonnil p).
  - destruct n; simpl; [done | done |]. intros [= E]. by apply (DecimalPos.Unsigned.to_uint_nonnil p).
Qed.
#[local] Instance uuids : UuidText := {| parse_str := read; hyphenated := show |}.
#[local] Instance uuid_laws : UuidLaws.
Proof. split. intros u _. apply read_show. Qed.
Definition ID : Z := Z.shiftl 7 76 + 5.
Definition now0 : OffsetDateTime := {| unix_nanos := 1000; utc_offset := 0 |}.
Definition header0 : Header :=
  {| job_id := ID; job_type := "mail.send"; job_version := 1; tenant_id := None; created_at := now0; not_before := None;
     correlation_id := ID; causation_id := None; job_key := Some "order-1";
     attempt_policy := {| ap_max_attempts := 5; ap_timeout_seconds := 30 |} |}.
(** The one document the example's [serde_json] knows. *)
Definition document : Value :=
  Object [("id", Str (show ID)); ("type", Str "mail.send"); ("version", Number (show 1)); ("tenant_id", Null);
          ("created_at", Str (show 1000)); ("not_before", Null); ("correlation_id", Str (show ID)); ("causation_id", Null);
          ("idempotency_key", Str "order-1");
          ("attempt_policy", Object [("max_attempts", Number (show 5)); ("timeout_seconds", Number (show 30))]);
          ("payload", Object [])].
Definition text_of (v : Value) : string := match v with Object [] => "{}" | Object _ => "{document}" | _ => "null" end.
#[local] Instance json : SerdeJson := {|
  to_text := text_of;
  writes v := [text_of v];
  from_slice s := if bool_decide (s = "{document}") then Some document else None;
  skim name s := if bool_decide (s = "{document}") then match document with Object l => Some (Object (skipped name l)) | _ => None end else None;
  raw s := match document with
           | Object l => if bool_decide (s = "{document}") then Some (RawObject (map (fun kv => (kv.1, text_of kv.2)) l)) else None
           | _ => None
           end;
  into_value v := v;
  show_uint := show;
  read_uint := read;
  show_rfc3339 t := if utc_offset t =? 0 then Some (show (unix_nanos t)) else None;
  read_rfc3339 s := n ← read s; Some {| unix_nanos := n; utc_offset := 0 |};
|}.
#[local] Instance json_laws : SerdeJsonLaws.
Proof.
  refine {| is_value v := v = document; is_map_value _ := True |}.
  - done.
  - done.
  - done.
  - by intros v ->.
  - intros v -> Hd. exfalso. revert Hd. by vm_compute.
  - intros name l Hl _. unfold document in Hl. by injection Hl as ->.
  - intros l Hl _. unfold document in Hl. by injection Hl as ->.
  - intros n _. apply read_show.
  - intros t s. unfold show_rfc3339, read_rfc3339, json. destruct (Z.eqb_spec (utc_offset t) 0) as [Ht|]; [|done]. intros [= <-].
    rewrite read_show. simpl. destruct t as [a b]. simpl in *. by subst.
Defined.
Definition policy0 : JobPolicy :=
  {| idempotency := Required; max_attempts := 5; initial_backoff_ms := 250; max_backoff_ms := 60000; multiplier := 2;
     jitter := Full; timeout_seconds := 30; max_concurrency := 4; rate_per_minute := Some 60; policy_queue := "mail";
     priority := 3; retention_seconds := 3600; dead_letter := Retain; compatibility := Exact; max_payload_bytes := 4096 |}.
#[local] Instance mail : Job unit := {|
  NAME := "mail.send"; VERSION := 1; POLICY := policy0; METRICS_PREFIX := "mail"; RUNBOOK := "runbooks/mail.md";
  serialize _ := {| written_text := ["{"; "}"]; tree := Some (Object []) |};
  deserialize _ := Some tt |}.
#[local] Instance mail_laws : JobLaws unit.
Proof.
  split.
  - exists policy0. by split_and!.
  - done.
  - intros j v [= <-]. done.
  - by intros [] v _.
Defined.
Definition options0 : JobEnvelopeOptions :=
  {| opt_tenant := None; opt_not_before := None; opt_correlation := ID; opt_causation := None; opt_key := Some "order-1" |}.
Definition envelope0 : JobEnvelope unit := {| env := header0; payload := tt |}.
Definition encoded0 : EncodedJobEnvelope := {| bytes := "{document}"; queue := "mail"; header := header0 |}.
Lemma options0_typed : options_typed options0.
Proof. split_and!; [done | done | done |]. by intros s [= <-]. Qed.
Lemma envelope0_new : JobEnvelope_new ID now0 tt options0 = Ok envelope0.
Proof. by vm_compute. Qed.
Lemma envelope0_typed : typed_document envelope0.
Proof. intros t Ht. vm_compute in Ht. injection Ht as <-. by vm_compute. Qed.
Lemma envelope0_encode : encode envelope0 = Ok encoded0.
Proof. by vm_compute. Qed.
Lemma job_delivered_intact_witness : encode envelope0 = Ok encoded0 /\ decode unit (bytes encoded0) = Ok envelope0.
Proof.
  split; [exact envelope0_encode|].
  destruct (job_delivered_intact ID now0 tt options0 envelope0 encoded0 2 now0 (fun _ _ => Succeeded)) as (_ & c & _ & _ & Hd);
    [exact options0_typed | done | done | exact envelope0_new | exact envelope0_typed | exact envelope0_encode | simpl; lia | exact (proj1 Hd)].
Defined.
End JobExamples.
