(* ===== verification/EventWire.v ===== *)
(** * Domain events: metadata and event envelopes of [crates/jobs-core/src/lib.rs]

    As in the model of job envelopes, the derived [serde] implementations are written
    out.  A [BTreeMap] is a finite map; its members are visited in the order of their
    keys. *)
From S2P Require Import Prelude Machine Text Ordered JsonShape JobPolicy JobWire.
From Stdlib Require Import Ascii.

Definition btree (m : gmap string Value) : list (string * Value) := sort_by (by_key fst) (map_to_list m).

(** ** Metadata *)
Inductive MetadataError := MEntries | MKey | MBytes | MComplexity | MEncode.
Definition metadata_visit (x : Value * Z) (stack : list (Value * Z)) (nodes : Z)
    : result MetadataError (list (Value * Z) * Z) :=
  let '(value, depth) := x in
  nodes ← ok_or (checked_add usize_max nodes 1) MComplexity;
  _ ← guard_err ((limits.METADATA_NODES <? nodes) || (limits.METADATA_DEPTH <? depth)) MComplexity;
  match value with
  | Array values => Ok (extend (fun v => (v, depth + 1)) values stack, nodes)
  | Object values => Ok (extend (fun kv => (kv.2, depth + 1)) values stack, nodes)
  | Null | Bool _ | Number _ | Str _ => Ok (stack, nodes)
  end.
(** Every iteration counts a node, so the loop ends within one more iteration than the
    limit on nodes; the [None] of the walk does not occur. *)
Definition metadata_value_ok (root : Value) : result MetadataError unit :=
  match drain metadata_visit (Z.to_nat (limits.METADATA_NODES + 1)) [(root, 0)] 0 with
  | Some (Ok _) => Ok tt
  | Some (Err e) => Err e
  | None => Err MComplexity
  end.

Record EventMetadata := { entries : gmap string Value; encoded_bytes : Z }.
Definition EventMetadata_new : EventMetadata := {| entries := ∅; encoded_bytes := 2 |}.

Section events.
Context `{SerdeJson} `{UuidText}.
Definition metadata_size (m : gmap string Value) : result MetadataError Z :=
  let members := Object (btree m) in
  let '(fine, w) := to_writer {| written_text := writes members; tree := Some members |} limits.METADATA_BYTES in
  if negb fine then if exceeded w then Err MBytes else Err MEncode
  else Ok (written w).
Fixpoint check_entries (l : list (string * Value)) : result MetadataError unit :=
  match l with
  | [] => Ok tt
  | (key, value) :: l' =>
      _ ← metadata_value_ok value;
      _ ← map_err (fun _ => MKey) (text.metadata_key key);
      check_entries l'
  end.
Definition try_from_map (m : gmap string Value) : result MetadataError EventMetadata :=
  _ ← guard_err (limits.METADATA_ENTRIES <? Z.of_nat (size m)) MEntries;
  _ ← check_entries (btree m);
  n ← metadata_size m;
  Ok {| entries := m; encoded_bytes := n |}.
(** [insert] works on the map in place and puts the old entry back when it does not fit. *)
Definition metadata_insert (key : string) (value : Value) : ST EventMetadata MetadataError (option Value) := fun s =>
  if bool_decide (entries s !! key = None) && (Z.of_nat (size (entries s)) =? limits.METADATA_ENTRIES) then (Err MEntries, s)
  else match metadata_value_ok value with
       | Err e => (Err e, s)
       | Ok _ =>
           let previous := entries s !! key in
           let m := <[key := value]> (entries s) in
           match metadata_size m with
           | Ok n => (Ok previous, {| entries := m; encoded_bytes := n |})
           | Err e =>
               (Err e, {| entries := match previous with Some old => <[key := old]> m | None => delete key m end;
                          encoded_bytes := encoded_bytes s |})
           end
       end.
Definition ser_metadata (m : EventMetadata) : Value := Object (btree (entries m)).
(** [BTreeMap::<String, Value>::deserialize]: a later member replaces an earlier one. *)
Definition de_map (v : Value) : option (gmap string Value) :=
  match v with
  | Object l => Some (foldl (fun m kv => <[kv.1 := into_value kv.2]> m) ∅ l)
  | _ => None
  end.
Definition de_metadata (v : Value) : option EventMetadata := m ← de_map v; ok (try_from_map m).

(** ** Limits and envelopes *)
Record EventLimits := { max_payload : Z; max_envelope : Z }.
Inductive EventLimitsError := LimitPayload | LimitEnvelope.
Definition EventLimits_new (p e : Z) : result EventLimitsError EventLimits :=
  _ ← guard_err ((p =? 0) || (limits.PAYLOAD_BYTES <? p)) LimitPayload;
  _ ← guard_err ((e <? p) || (limits.ENVELOPE_BYTES <? e)) LimitEnvelope;
  Ok {| max_payload := p; max_envelope := e |}.
Definition EventLimits_default : EventLimits := {| max_payload := 256 * 1024; max_envelope := 512 * 1024 |}.

Class DomainEvent (E : Type) := {
  EVENT_NAME : string;
  EVENT_VERSION : Z;
  event_serialize : E -> Serialized;
  event_deserialize : Value -> option E;
}.
#[global] Arguments EVENT_NAME E {_}.
#[global] Arguments EVENT_VERSION E {_}.
Definition event_declaration (E : Type) `{DomainEvent E} : result EnvelopeError (string * Z) :=
  _ ← map_err (fun _ => DeclaredName) (text.event_name (EVENT_NAME E));
  version ← map_err (fun _ => DeclaredVersion) (Version_new (EVENT_VERSION E));
  _ ← guard_err (negb (bool_decide (text.event_suffix (EVENT_NAME E) = Some (EVENT_VERSION E)))) EventSuffix;
  Ok (EVENT_NAME E, version).

Record EventEnvelopeOptions := {
  eo_source : string;
  eo_subject : string;
  eo_tenant : option string;
  eo_correlation : Z;
  eo_causation : option Z;
  eo_traceparent : option string;
  eo_metadata : EventMetadata;
}.
Definition EventEnvelopeOptions_new (source subject : string) (correlation : Z) : result EnvelopeError EventEnvelopeOptions :=
  _ ← uuid7 correlation false;
  Ok {| eo_source := source; eo_subject := subject; eo_tenant := None; eo_correlation := correlation; eo_causation := None;
        eo_traceparent := None; eo_metadata := EventMetadata_new |}.
Definition event_with_causation (v : Z) (o : EventEnvelopeOptions) : result EnvelopeError EventEnvelopeOptions :=
  _ ← uuid7 v true;
  Ok {| eo_source := eo_source o; eo_subject := eo_subject o; eo_tenant := eo_tenant o; eo_correlation := eo_correlation o;
        eo_causation := Some v; eo_traceparent := eo_traceparent o; eo_metadata := eo_metadata o |}.
(** The fields of an envelope but its data. *)
Record EventHeader := {
  event_id : Z;
  event_type : string;
  event_version : Z;
  event_source : string;
  event_subject : string;
  event_tenant : option string;
  occurred_at : OffsetDateTime;
  event_correlation : Z;
  event_causation : option Z;
  event_traceparent : option string;
  event_metadata : EventMetadata;
}.
Record EventEnvelope (E : Type) := { ev : EventHeader; data : E }.
#[global] Arguments ev {E}.
#[global] Arguments data {E}.
Definition EventEnvelope_new `{DomainEvent E} (id : Z) (now : OffsetDateTime) (d : E) (o : EventEnvelopeOptions) (l : EventLimits)
    : result EnvelopeError (EventEnvelope E) :=
  decl ← event_declaration E;
  _ ← payload_ok (event_serialize d) (max_payload l);
  Ok {| ev := {| event_id := id; event_type := fst decl; event_version := snd decl; event_source := eo_source o;
                 event_subject := eo_subject o; event_tenant := eo_tenant o; occurred_at := now;
                 event_correlation := eo_correlation o; event_causation := eo_causation o;
                 event_traceparent := eo_traceparent o; event_metadata := eo_metadata o |};
        data := d |}.
Definition event_validate `{DomainEvent E} (e : EventEnvelope E) (l : EventLimits) : result EnvelopeError unit :=
  decl ← event_declaration E;
  _ ← guard_err (negb (bool_decide (event_type (ev e) = fst decl))) NameMismatch;
  _ ← guard_err (negb (event_version (ev e) =? snd decl)) VersionMismatch;
  _ ← uuid7 (event_correlation (ev e)) false;
  _ ← match event_causation (ev e) with Some u => uuid7 u true | None => Ok tt end;
  payload_ok (event_serialize (data e)) (max_payload l).
Definition EVENT_FIELDS : list string :=
  ["id"; "type"; "version"; "source"; "subject"; "tenant_id"; "occurred_at"; "correlation_id"; "causation_id"; "traceparent";
   "data"; "metadata"].
Definition ser_event (h : EventHeader) (d : Value) : option Value :=
  at_ ← show_rfc3339 (occurred_at h);
  Some (Object [("id", Str (hyphenated (event_id h)));
                ("type", Str (event_type h));
                ("version", Number (show_uint (event_version h)));
                ("source", Str (event_source h));
                ("subject", Str (event_subject h));
                ("tenant_id", ser_option Str (event_tenant h));
                ("occurred_at", Str at_);
                ("correlation_id", Str (hyphenated (event_correlation h)));
                ("causation_id", ser_option (fun u => Str (hyphenated u)) (event_causation h));
                ("traceparent", ser_option Str (event_traceparent h));
                ("data", d);
                ("metadata", ser_metadata (event_metadata h))]).
(** The last field has a default: it may be missing from the object or from the end of
    the array. *)
Definition event_fields (v : Value) : option (list (option Value)) :=
  match v with
  | Array items => if (S (length items) =? length EVENT_FIELDS)%nat then Some (map Some items ++ [None])
                   else struct_fields EVENT_FIELDS v
  | _ => struct_fields EVENT_FIELDS v
  end.
Definition de_event (v : Value) : option (EventHeader * Value) :=
  l ← event_fields v;
  match l with
  | [id; ty; ver; src; subj; tenant; at_; corr; cause; trace; d; meta] =>
      id ← required de_id id;
      ty ← required (de_text text.event_name) ty;
      ver ← required de_version ver;
      src ← required (de_text text.source) src;
      subj ← required (de_text text.subject) subj;
      tenant ← optional (de_text tenant_ok) tenant;
      at_ ← required de_time at_;
      corr ← required de_uuid corr;
      cause ← optional de_uuid cause;
      trace ← optional (de_text text.traceparent) trace;
      d ← d;
      meta ← match meta with None => Some EventMetadata_new | Some m => de_metadata m end;
      Some ({| event_id := id; event_type := ty; event_version := ver; event_source := src; event_subject := subj;
               event_tenant := tenant; occurred_at := at_; event_correlation := corr; event_causation := cause;
               event_traceparent := trace; event_metadata := meta |}, d)
  | _ => None
  end.
Definition event_to_vec `{DomainEvent E} (e : EventEnvelope E) : option string :=
  d ← tree (event_serialize (data e)); t ← ser_event (ev e) d; Some (to_text t).
Definition event_encode `{DomainEvent E} (e : EventEnvelope E) (l : EventLimits) : result EnvelopeError string :=
  _ ← event_validate e l;
  b ← ok_or (event_to_vec e) EncodeFailed;
  _ ← guard_err (max_envelope l <? len b) EnvelopeTooLarge;
  Ok b.
(** [RawEventFields]: the text of the data, and of the metadata unless it is missing or
    [null]. *)
Definition raw_event (b : string) : option (string * option string) :=
  let text_of o := match o with Some t => if bool_decide (t = "null") then None else Some t | None => None end in
  match raw b with
  | Some (RawObject l) =>
      if (occurrences "data" l <=? 1)%nat && (occurrences "metadata" l <=? 1)%nat
      then d ← assoc "data" l; Some (d, text_of (assoc "metadata" l)) else None
  | Some (RawArray [d]) => Some (d, None)
  | Some (RawArray [d; m]) => Some (d, text_of (Some m))
  | _ => None
  end.
Definition event_decode (E : Type) `{DomainEvent E} (b : string) (l : EventLimits) : result EnvelopeError (EventEnvelope E) :=
  _ ← guard_err (max_envelope l <? len b) EnvelopeTooLarge;
  r ← ok_or (raw_event b) DecodeFailed;
  _ ← raw_object_ok (fst r) (max_payload l);
  _ ← guard_err match snd r with Some m => limits.METADATA_BYTES <? len m | None => false end PayloadTooLarge;
  e ← ok_or (v ← from_slice b;
             hd ← de_event v;
             d ← event_deserialize (snd hd);
             Some {| ev := fst hd; data := d |}) DecodeFailed;
  _ ← event_validate e l;
  Ok e.
End events.
