(* ===== verification/EventTheorems.v ===== *)
(** * Theorems about event metadata and event envelopes *)
From S2P Require Import Prelude Machine Text Ordered JsonShape JsonShapeTheorems JobPolicy JobWire JobTheorems EventWire.
From Stdlib Require Import Ascii.

(** ** The walk over a metadata value *)
Lemma metadata_visit_within x st n :
  metadata_visit x st n = map_err (fun _ => MComplexity) (within_visit limits.METADATA_DEPTH limits.METADATA_NODES x st n).
Proof.
  unfold metadata_visit, within_visit. destruct x as [v d]. destruct (checked_add usize_max n 1) as [k|]; simpl; [|done].
  unfold guard_err. destruct (Z.ltb_spec limits.METADATA_NODES k), (Z.leb_spec k limits.METADATA_NODES); simpl; try lia; try done.
  destruct (Z.ltb_spec limits.METADATA_DEPTH d); simpl; [done|].
  destruct (checked_add usize_max d 1) as [d'|] eqn:Ed; simpl.
  - apply checked_add_Some in Ed as [-> _]. by destruct v.
  - apply checked_add_None in Ed. unfold limits.METADATA_DEPTH, usize_max, u64_max in *. lia.
Qed.
Lemma metadata_drain fuel st n : drain metadata_visit fuel st n
  = map_err (fun _ => MComplexity) <$> drain (within_visit limits.METADATA_DEPTH limits.METADATA_NODES) fuel st n.
Proof.
  revert st n. induction fuel as [|fuel IH]; intros [|x st] n; simpl; try done. rewrite metadata_visit_within.
  destruct (within_visit _ _ _ _ _) as [[st' n']|[]]; simpl; [apply IH | done].
Qed.
Lemma drain_more {A S E} (visit : A -> list A -> S -> result E (list A * S)) f f' st s r :
  drain visit f st s = Some r -> (f <= f')%nat -> drain visit f' st s = Some r.
Proof.
  revert f' st s. induction f as [|f IH]; intros [|f'] [|x st] s Hd Hf; simpl in *; try done; try lia.
  destruct (visit x st s) as [[st' s']|e]; [|done]. apply IH; [done | lia].
Qed.
(** Every iteration counts one node. *)
Lemma within_drain_ends md mn fuel st n : n <= mn -> mn < n + Z.of_nat fuel -> drain (within_visit md mn) fuel st n <> None.
Proof.
  revert st n. induction fuel as [|fuel IH]; intros [|[v d] st] n Hn Hf; cbn [drain]; try done; try lia.
  destruct (within_visit _ _ _ _ _) as [[st' n']|e] eqn:Ev; [|done].
  apply within_visit_ok in Ev as (_ & _ & -> & Hle). apply IH; lia.
Qed.

(** The bounds on one metadata value: nodes and nesting. *)
Definition metadata_fits (v : Value) : Prop :=
  Forall (fun x => x.2 <= limits.METADATA_DEPTH) (flatten 0 v) /\ count (flatten 0 v) <= limits.METADATA_NODES.
Lemma metadata_value_exact v : metadata_value_ok v = Ok tt <-> metadata_fits v.
Proof.
  unfold metadata_value_ok. rewrite metadata_drain. set (fuel := Z.to_nat (limits.METADATA_NODES + 1)).
  set (visit := within_visit limits.METADATA_DEPTH limits.METADATA_NODES).
  destruct (drain visit fuel [(v, 0)] 0) as [r|] eqn:Er.
  2: { exfalso. by apply (within_drain_ends limits.METADATA_DEPTH limits.METADATA_NODES fuel [(v, 0)] 0). }
  destruct (within_drain limits.METADATA_DEPTH limits.METADATA_NODES ltac:(done) ltac:(done)
              (Nat.max fuel (length (flatten 0 v))) v ltac:(lia)) as (r' & Hr' & Hiff).
  pose proof (drain_more _ _ (Nat.max fuel (length (flatten 0 v))) _ _ _ Er ltac:(lia)) as Hr. fold visit in Hr'.
  assert (r' = r) as -> by congruence. unfold metadata_fits. rewrite <- Hiff. by destruct r.
Qed.

(** ** Metadata *)
Section metadata.
Context `{SerdeJsonLaws}.
Lemma metadata_size_spec m : metadata_size m =
  if len (to_text (Object (btree m))) <=? limits.METADATA_BYTES then Ok (len (to_text (Object (btree m)))) else Err MBytes.
Proof.
  unfold metadata_size, to_writer. cbn [written_text tree]. destruct (write_all _ _) as [fine w] eqn:Ew.
  apply write_all_spec in Ew as (-> & He & Hf); cbn [written max exceeded capped] in *; [|done..].
  rewrite writes_text in *. change (0 + ?x) with x in *. rewrite andb_true_r.
  destruct (_ <=? _); cbn [negb] in *; [|by rewrite He]. by destruct (Hf eq_refl) as [-> _].
Qed.
Lemma check_entries_ok l : check_entries l = Ok tt <->
  Forall (fun kv => metadata_fits kv.2 /\ text.metadata_key kv.1 = Ok tt) l.
Proof.
  induction l as [|[k v] l IH]; simpl; [done|]. rewrite Forall_cons, <- IH, <- metadata_value_exact. simpl.
  destruct (metadata_value_ok v) as [[]|]; simpl; [|naive_solver].
  destruct (text.metadata_key k) as [[]|]; simpl; naive_solver.
Qed.
Lemma btree_perm (m : gmap string Value) : btree m ≡ₚ map_to_list m.
Proof. apply sort_by_perm. Qed.
Lemma check_btree m : check_entries (btree m) = Ok tt <->
  map_Forall (fun k v => metadata_fits v /\ text.metadata_key k = Ok tt) m.
Proof. rewrite check_entries_ok, btree_perm, map_Forall_to_list. split; (intros Hl; eapply Forall_impl; [exact Hl|]; by intros [k v]). Qed.

(** What every value of the type satisfies. *)
Definition metadata_wf (m : EventMetadata) : Prop :=
  Z.of_nat (size (entries m)) <= limits.METADATA_ENTRIES
  /\ map_Forall (fun k v => metadata_fits v /\ text.metadata_key k = Ok tt) (entries m)
  /\ metadata_size (entries m) = Ok (encoded_bytes m).
Lemma try_from_map_iff m s : try_from_map m = Ok s <-> entries s = m /\ metadata_wf s.
Proof.
  unfold try_from_map, metadata_wf, guard_err. destruct (Z.ltb_spec limits.METADATA_ENTRIES (Z.of_nat (size m))); simpl.
  { split; [done|]. intros (<- & ? & _). lia. }
  destruct (check_entries (btree m)) as [[]|] eqn:Ec; simpl.
  - apply check_btree in Ec. destruct (metadata_size m) as [n|] eqn:En; simpl.
    + split; [intros [= <-]; by split_and! |]. intros (<- & _ & _ & E). destruct s as [a b]. simpl in *. congruence.
    + split; [done|]. intros (<- & _ & _ & E). congruence.
  - split; [done|]. intros (<- & _ & E & _). apply check_btree in E. congruence.
Qed.
(** Inserting is atomic, and keeps the metadata within its bounds. *)
Lemma metadata_insert_spec k v s r s' : metadata_wf s -> text.metadata_key k = Ok tt -> metadata_insert k v s = (r, s') ->
  metadata_wf s' /\ match r with
                    | Ok previous => previous = entries s !! k /\ entries s' = <[k := v]> (entries s)
                    | Err _ => s' = s
                    end.
Proof.
  intros Hwf Hk Hi. unfold metadata_insert in Hi. destruct (_ && _) eqn:Eg; [by injection Hi as <- <-|].
  destruct (metadata_value_ok v) as [[]|] eqn:Ev; [|by injection Hi as <- <-]. destruct Hwf as (Hn & Hall & Hs).
  destruct (metadata_size (<[k := v]> (entries s))) as [n|] eqn:En; injection Hi as <- <-.
  - split; [|done]. split_and!; [|by apply map_Forall_insert_2; [by split; [apply metadata_value_exact|] |]|done].
    cbn [entries]. destruct (entries s !! k) eqn:El.
    + by rewrite map_size_insert_Some by eauto.
    + rewrite map_size_insert_None by done. rewrite bool_decide_eq_true_2 in Eg by done. simpl in Eg. lia.
  - assert (Hback : match entries s !! k with Some old => <[k:=old]> (<[k:=v]> (entries s)) | None => delete k (<[k:=v]> (entries s)) end
              = entries s).
    { destruct (entries s !! k) eqn:El; [rewrite insert_insert_eq; by apply insert_id | by apply delete_insert_id]. }
    rewrite Hback. by destruct s.
Qed.
Lemma metadata_new_wf : metadata_wf EventMetadata_new.
Proof.
  split_and!; [done | apply map_Forall_empty |]. rewrite metadata_size_spec.
  replace (btree (entries EventMetadata_new)) with (@nil (string * Value)) by (by vm_compute). by rewrite empty_text.
Qed.
Lemma fold_members l : Forall (fun kv => is_map_value kv.2) l -> NoDup l.*1 -> forall m0 : gmap string Value,
  foldl (fun m kv => <[kv.1 := into_value kv.2]> m) m0 l = list_to_map l ∪ m0.
Proof.
  induction l as [|[k v] l IH]; intros Hv Hd m0; simpl; [by rewrite (left_id_L ∅ (∪))|].
  inversion Hv; inversion Hd; subst. simpl in *. rewrite into_value_id, IH by done.
  rewrite <- insert_union_l, insert_union_r; [done|]. by apply not_elem_of_list_to_map_1.
Qed.
Lemma de_metadata_ser m : metadata_wf m -> map_Forall (fun _ v => is_map_value v) (entries m) -> de_metadata (ser_metadata m) = Some m.
Proof.
  intros Hwf Hv. unfold de_metadata, ser_metadata, de_map. cbn [mbind option_bind].
  pose proof (btree_perm (entries m)) as Hp. assert (Hd : NoDup (btree (entries m)).*1) by (rewrite Hp; apply NoDup_fst_map_to_list).
  rewrite fold_members; [| |exact Hd].
  - rewrite (right_id_L ∅ (∪)). rewrite (list_to_map_proper _ _ Hd Hp), list_to_map_to_list.
    by rewrite (proj2 (try_from_map_iff (entries m) m)).
  - rewrite Hp. apply map_Forall_to_list in Hv. eapply Forall_impl; [exact Hv|]. by intros [].
Qed.
End metadata.

(** ** Envelopes *)
Class DomainEventLaws (E : Type) `{SerdeJson} `{DomainEvent E} := {
  event_version_u16 : is_u16 (EVENT_VERSION E);
  event_serialize_text (d : E) v :
    tree (event_serialize d) = Some v -> String.concat "" (written_text (event_serialize d)) = to_text v;
  event_deserialize_serialize (d : E) v : tree (event_serialize d) = Some v -> event_deserialize v = Some d;
}.
Section envelopes.
Context `{SerdeJsonLaws} `{UuidLaws} {E : Type} `{!DomainEvent E} `{!DomainEventLaws E}.
Implicit Types e : EventEnvelope E.

(** What the types of the fields guarantee. *)
Definition event_typed (h : EventHeader) : Prop :=
  in_range u128_max (event_id h) /\ get_version_num (event_id h) = 7
  /\ text.source (event_source h) = Ok tt /\ text.subject (event_subject h) = Ok tt
  /\ (forall s, event_tenant h = Some s -> tenant_ok s = Ok tt)
  /\ in_range u128_max (event_correlation h)
  /\ (forall u, event_causation h = Some u -> in_range u128_max u)
  /\ (forall s, event_traceparent h = Some s -> text.traceparent s = Ok tt)
  /\ metadata_wf (event_metadata h) /\ map_Forall (fun _ v => is_map_value v) (entries (event_metadata h)).
Definition event_declared (h : EventHeader) : Prop :=
  text.event_name (event_type h) = Ok tt /\ 1 <= event_version h <= u16_max
  /\ get_version_num (event_correlation h) = 7 /\ (forall u, event_causation h = Some u -> get_version_num u = 7).
Lemma event_declaration_ok d : event_declaration E = Ok d -> d = (EVENT_NAME E, EVENT_VERSION E)
  /\ text.event_name (EVENT_NAME E) = Ok tt /\ 1 <= EVENT_VERSION E <= u16_max.
Proof.
  intros Hd. unfold event_declaration, Version_new in Hd. pose proof event_version_u16 as Hv. unfold in_range in Hv. inv_ok.
  destruct v. destruct (Z.eqb_spec (EVENT_VERSION E) 0); [done|]. simplify_eq. split_and!; [done | done | lia | lia].
Qed.
Lemma event_validate_declared e l : event_validate e l = Ok tt ->
  event_declared (ev e) /\ payload_ok (event_serialize (data e)) (max_payload l) = Ok tt.
Proof.
  intros Hv. unfold event_validate in Hv. inv_ok. apply event_declaration_ok in Hok as (-> & Hn & Hver). simpl in *.
  repeat match goal with x : unit |- _ => destruct x end.
  repeat match goal with Hb : negb (bool_decide _) = false |- _ => apply negb_false_iff, bool_decide_eq_true in Hb end.
  repeat match goal with Hb : negb (_ =? _) = false |- _ => apply negb_false_iff, Z.eqb_eq in Hb end.
  split; [|done]. unfold event_declared. repeat match goal with Hx : _ (ev e) = _ |- _ => rewrite Hx end.
  split_and!; try done; try lia; [by eapply uuid7_ok|]. intros u Hu. rewrite Hu in *. by eapply uuid7_ok.
Qed.
Lemma event_fields_found (a b c d s f g h i j k m : Value) :
  event_fields (Object [("id", a); ("type", b); ("version", c); ("source", d); ("subject", s); ("tenant_id", f);
    ("occurred_at", g); ("correlation_id", h); ("causation_id", i); ("traceparent", j); ("data", k); ("metadata", m)])
  = Some [Some a; Some b; Some c; Some d; Some s; Some f; Some g; Some h; Some i; Some j; Some k; Some m].
Proof. reflexivity. Qed.
Lemma event_tree_roundtrip h d t : event_typed h -> event_declared h -> ser_event h d = Some t -> de_event t = Some (h, d).
Proof.
  intros (T1 & T2 & T3 & T4 & T5 & T6 & T7 & T8 & T9 & T10) (D1 & D2 & _ & _) Ht. unfold ser_event in Ht.
  destruct (show_rfc3339 (occurred_at h)) as [at_|] eqn:Ea; [|done]. cbn [mbind option_bind] in Ht. injection Ht as <-.
  unfold de_event. rewrite event_fields_found. cbn [mbind option_bind required].
  rewrite de_id_show by done. cbn [mbind option_bind]. rewrite (de_text_show text.event_name) by done. cbn [mbind option_bind].
  unfold de_version. rewrite de_uint_show by (unfold u16_max, u64_max in *; lia). cbn [mbind option_bind].
  unfold Version_new. destruct (Z.eqb_spec (event_version h) 0); [lia|]. cbn [ok mbind option_bind].
  rewrite (de_text_show text.source) by done. cbn [mbind option_bind]. rewrite (de_text_show text.subject) by done. cbn [mbind option_bind].
  rewrite (optional_show (de_text tenant_ok) Str) by (intros s Hs; split; [by apply de_text_show, T5 | done]).
  cbn [mbind option_bind]. rewrite (de_time_show _ _ Ea). cbn [mbind option_bind]. rewrite de_uuid_show by done. cbn [mbind option_bind].
  rewrite (optional_show de_uuid (fun u => Str (hyphenated u))) by (intros u Hu; split; [by apply de_uuid_show, T7 | done]).
  cbn [mbind option_bind]. rewrite (optional_show (de_text text.traceparent) Str)
    by (intros s Hs; split; [by apply de_text_show, T8 | done]).
  cbn [mbind option_bind]. rewrite de_metadata_ser by done. by destruct h.
Qed.
Definition event_legible e : Prop :=
  forall v t, tree (event_serialize (data e)) = Some v -> ser_event (ev e) v = Some t -> is_value t /\ depth t <= DEPTH_LIMIT.
Lemma event_document e b : event_to_vec e = Some b -> event_legible e ->
  exists v t, tree (event_serialize (data e)) = Some v /\ ser_event (ev e) v = Some t /\ b = to_text t /\ from_slice b = Some t
    /\ exists m, raw_event b = Some (to_text v, m) /\ (forall s, m = Some s -> s = to_text (ser_metadata (event_metadata (ev e)))).
Proof.
  unfold event_to_vec. intros Hb Hl. destruct (tree _) as [v|] eqn:Ev; [|done]. cbn [mbind option_bind] in Hb.
  destruct (ser_event _ _) as [t|] eqn:Et; [|done]. cbn [mbind option_bind] in Hb. injection Hb as <-.
  destruct (Hl v t Ev Et) as [Hv Hd]. exists v, t. split_and!; [done | done | done | by apply from_slice_text |].
  unfold ser_event in Et. destruct (show_rfc3339 _); [|done]. cbn [mbind option_bind] in Et. injection Et as <-.
  unfold raw_event. rewrite raw_text by done. eexists. split; [reflexivity|]. intros x Hx. cbv beta iota in Hx. split_matches Hx. simpl in E0. intros -> _. by injection E0 as <-.
Qed.

(** An event survives publication: what [encode] accepts decodes, within the same
    limits, to the same envelope, its bounded metadata included. *)
Theorem event_envelope_roundtrip e l b : event_typed (ev e) -> event_legible e -> 0 <= max_payload l <= usize_max ->
  event_encode e l = Ok b -> event_decode E b l = Ok e.
Proof.
  intros Ht Hl Hm He. unfold event_encode in He. inv_ok. repeat match goal with u : unit |- _ => destruct u end. subst.
  apply event_validate_declared in Hok as Hd. destruct Hd as (Hdecl & Hp).
  destruct (event_document e b) as (v & t & Etree & Et & Eb & Hslice & m & Hraw & Hmeta); [done | done |].
  pose proof (event_tree_roundtrip _ _ _ Ht Hdecl Et) as Hde. destruct Ht as (_ & _ & _ & _ & _ & _ & _ & _ & (_ & _ & Hsize) & _).
  rewrite metadata_size_spec in Hsize. unfold event_decode, guard_err. destruct (max_envelope l <? len b); [done|].
  cbn [mbind result_bind]. rewrite Hraw. cbn [ok_or mbind result_bind fst snd].
  rewrite <- (event_serialize_text _ _ Etree), (payload_ok_raw _ _ v Etree Hm Hp). cbn [mbind result_bind].
  assert (Hsmall : match m with Some s => limits.METADATA_BYTES <? len s | None => false end = false).
  { destruct m as [s|]; [|done]. rewrite (Hmeta s eq_refl). unfold ser_metadata.
    destruct (Z.leb_spec (len (to_text (Object (btree (entries (event_metadata (ev e))))))) limits.METADATA_BYTES); [lia | done]. }
  rewrite Hsmall. cbn [mbind result_bind]. rewrite Hslice. cbn [mbind option_bind]. rewrite Hde. cbn [mbind option_bind snd fst].
  rewrite (event_deserialize_serialize _ _ Etree). cbn [ok_or mbind option_bind result_bind].
  replace {| ev := ev e; data := data e |} with e by (by destruct e). by rewrite Hok.
Qed.
End envelopes.

(** ** A concrete event *)
Module EventExamples.
Import JobExamples.
#[local] Existing Instance uuids.
#[local] Existing Instance uuid_laws.
Definition metadata0 : EventMetadata := {| entries := {[ "region" := Bool true ]}; encoded_bytes := 10 |}.
Definition header0 : EventHeader :=
  {| event_id := ID; event_type := "order.paid.v2"; event_version := 2; event_source := "billing"; event_subject := "orders/1";
     event_tenant := None; occurred_at := now0; event_correlation := ID; event_causation := None; event_traceparent := None;
     event_metadata := metadata0 |}.
Definition document : Value :=
  Object [("id", Str (show ID)); ("type", Str "order.paid.v2"); ("version", Number (show 2)); ("source", Str "billing");
          ("subject", Str "orders/1"); ("tenant_id", Null); ("occurred_at", Str (show 1000)); ("correlation_id", Str (show ID));
          ("causation_id", Null); ("traceparent", Null); ("data", Object []); ("metadata", Object [("region", Bool true)])].
#[local] Instance event_json : SerdeJson := {|
  to_text := text_of;
  writes v := [text_of v];
  from_slice s := if bool_decide (s = "{document}") then Some document else None;
  skim name s := if bool_decide (s = "{document}") then match document with Object l => Some (Object (skipped name l)) | _ => None end else None;
  raw s := match document with
           | Object l => if bool_decide (s = "{document}") then Some (RawObject (map (fun kv => (kv.1, text_of kv.2)) l)) else None
           | _ => None
           end;
  into_value v := v;
  show_uint := show;
  read_uint := read;
  show_rfc3339 t := if utc_offset t =? 0 then Some (show (unix_nanos t)) else None;
  read_rfc3339 s := n ← read s; Some {| unix_nanos := n; utc_offset := 0 |};
|}.
#[local] Instance event_json_laws : SerdeJsonLaws.
Proof.
  refine {| is_value v := v = document; is_map_value _ := True |}.
  - done.
  - done.
  - done.
  - by intros v ->.
  - intros v -> Hd. exfalso. revert Hd. by vm_compute.
  - intros name l Hl _. unfold document in Hl. by injection Hl as ->.
  - intros l Hl _. unfold document in Hl. by injection Hl as ->.
  - intros n _. apply read_show.
  - apply (read_show_rfc3339 (SerdeJsonLaws := json_laws)).
Defined.
#[local] Instance paid : DomainEvent unit := {|
  EVENT_NAME := "order.paid.v2"; EVENT_VERSION := 2;
  event_serialize _ := {| written_text := ["{"; "}"]; tree := Some (Object []) |};
  event_deserialize _ := Some tt |}.
#[local] Instance paid_laws : DomainEventLaws unit.
Proof. split; [done | by intros j v [= <-] | by intros [] v _]. Defined.
Definition event0 : EventEnvelope unit := {| ev := header0; data := tt |}.
Lemma metadata0_wf : metadata_wf metadata0.
Proof.
  split; [by vm_compute|]. split; [|by vm_compute]. apply map_Forall_singleton.
  split; [apply metadata_value_exact; by vm_compute | by vm_compute].
Qed.
Lemma event0_typed : event_typed header0.
Proof.
  refine (conj _ (conj _ (conj _ (conj _ (conj _ (conj _ (conj _ (conj _ (conj metadata0_wf _))))))))).
  1, 6: split; by vm_compute.
  1, 2, 3: by vm_compute.
  1, 2, 3: done.
  by apply map_Forall_singleton.
Qed.
Lemma event0_legible : event_legible event0.
Proof. intros v t [= <-] Ht. vm_compute in Ht. injection Ht as <-. by vm_compute. Qed.
Lemma event0_encode : event_encode event0 EventLimits_default = Ok "{document}".
Proof. by vm_compute. Qed.
Lemma event_envelope_roundtrip_witness : event_encode event0 EventLimits_default = Ok "{document}"
  /\ event_decode unit "{document}" EventLimits_default = Ok event0.
Proof.
  split; [exact event0_encode|].
  apply (event_envelope_roundtrip event0 EventLimits_default); [exact event0_typed | exact event0_legible | done | exact event0_encode].
Defined.
End EventExamples.
