(* ===== verification/Outbox.v ===== *)
(** * The transactional outbox: [crates/outbox/src/lib.rs]

    The table [outbox_events] is a finite map from event identifiers to rows; the checks
    of its migration are [row_ok].  A statement is one atomic step.  Where it reads
    [clock_timestamp()] several times, the reading that selects rows and the one that is
    stored are two arguments.  Times are microseconds, as the database keeps them; a
    [Duration] is in nanoseconds.  The three lease columns are one option, since they
    are set and cleared together.  What the driver and the database do to a value ([sqlx]
    times, [jsonb]) is a parameter.  Metrics and logging are left out. *)
From S2P Require Import Prelude Machine Text Ordered JsonShape JobPolicy JobWire EventWire.
From Stdlib Require Import Ascii.

Definition MAX_CLAIM_BATCH : Z := 32.
Definition MAX_CLEANUP_BATCH : Z := 1000.
Definition MAX_ATTEMPTS : Z := 100.
Definition MAX_POLL_INTERVAL : Z := Duration.from_secs 60.
Definition MAX_LEASE_DURATION : Z := Duration.from_secs 3600.
Definition MAX_PUBLICATION_TIMEOUT : Z := Duration.from_secs 600.
Definition MAX_RETRY_DELAY : Z := Duration.from_secs 86400.
Definition MAX_SHUTDOWN_TIMEOUT : Z := Duration.from_secs 3600.
Definition MIN_RETENTION : Z := Duration.from_secs 3600.
Definition MAX_RETENTION : Z := Duration.from_secs 31536000.
Definition MAX_RESTARTS : Z := 32.
Definition MAX_RESTART_BACKOFF : Z := Duration.from_secs 60.
Definition MAX_JITTER_PERCENT : Z := 50.
Definition MAX_EVENT_JSON_BYTES : Z := 2 * 1024 * 1024.

(** ** Portable text *)
Definition portable_lower (value : string) (max : Z) : bool :=
  negb (is_empty value) && (len value <=? max)
  && match value with String c _ => is_ascii_lowercase c || is_ascii_digit c | EmptyString => false end
  && all_bytes text.name_byte value.
Definition portable_owner (value : string) : bool :=
  negb (is_empty value) && (len value <=? 128)
  && match value with String c _ => is_ascii_alphanumeric c | EmptyString => false end
  && all_bytes text.word_byte value.
Definition portable_source (value : string) : bool := portable_owner value.
Definition portable_subject (value : string) : bool :=
  negb (is_empty value) && (len value <=? 256) && all_bytes text.path_byte value.
Definition portable_destination (value : string) : bool := portable_subject value.
Definition bounded_identifier (value : string) (max : Z) : bool :=
  negb (is_empty value) && (len value <=? max) && negb (has_control value).
Definition valid_traceparent (value : string) : bool :=
  (len value =? 55) && starts_with "00" value && text.byte_is 2 "-" value && text.byte_is 35 "-" value
  && text.byte_is 52 "-" value && text.all_bytes_but text.dash_at text.lower_hexdigit 0 value
  && negb (all_bytes (is_byte "0") (String.substring 3 32 value))
  && negb (all_bytes (is_byte "0") (String.substring 36 16 value)).
Definition duration_micros (d : Z) : Z := Z.min (d / 1000) i64_max.

(** ** Configuration *)
Record OutboxRestartConfig := { max_restarts : Z; initial_backoff : Z; max_backoff : Z; jitter_percent : Z }.
Record OutboxConfig := {
  enabled : bool;
  lease_owner : string;
  claim_batch : Z;
  poll_interval : Z;
  lease_duration : Z;
  publication_timeout : Z;
  retry_delay : Z;
  shutdown_timeout : Z;
  cfg_max_attempts : Z;
  retention : Z;
  cleanup_batch : Z;
  restart : OutboxRestartConfig;
}.
Definition OutboxRestartConfig_default : OutboxRestartConfig :=
  {| max_restarts := 8; initial_backoff := Duration.from_millis 100; max_backoff := Duration.from_secs 5; jitter_percent := 20 |}.
Definition OutboxConfig_default : OutboxConfig :=
  {| enabled := false; lease_owner := "outbox-relay"; claim_batch := 16; poll_interval := Duration.from_millis 250;
     lease_duration := Duration.from_secs 120; publication_timeout := Duration.from_secs 5; retry_delay := Duration.from_secs 5;
     shutdown_timeout := Duration.from_secs 120; cfg_max_attempts := 20; retention := Duration.from_secs 2592000;
     cleanup_batch := 500; restart := OutboxRestartConfig_default |}.
Inductive OutboxConfigError :=
| InvalidLeaseOwner | InvalidClaimBatch | InvalidPollInterval | InvalidLeaseDuration | InvalidPublicationTimeout
| InvalidRetryDelay | InvalidShutdownTimeout | InvalidMaxAttempts | InvalidRetention | InvalidCleanupBatch
| InvalidRestartPolicy.
Definition between (lo hi x : Z) : bool := (lo <=? x) && (x <=? hi).
(** [Duration::checked_mul] and [Duration::checked_add]. *)
Definition checked_duration (d : Z) : option Z := if d <=? Duration.MAX then Some d else None.
Definition config_validate (c : OutboxConfig) : result OutboxConfigError unit :=
  _ ← guard_err (negb (portable_owner (lease_owner c))) InvalidLeaseOwner;
  _ ← guard_err (negb (between 1 MAX_CLAIM_BATCH (claim_batch c))) InvalidClaimBatch;
  _ ← guard_err (Duration.is_zero (poll_interval c) || (MAX_POLL_INTERVAL <? poll_interval c)) InvalidPollInterval;
  _ ← guard_err (Duration.is_zero (publication_timeout c) || (MAX_PUBLICATION_TIMEOUT <? publication_timeout c))
        InvalidPublicationTimeout;
  _ ← guard_err (Duration.is_zero (retry_delay c) || (MAX_RETRY_DELAY <? retry_delay c)) InvalidRetryDelay;
  batch ← ok_or (if claim_batch c <=? u32_max then Some (claim_batch c) else None) InvalidClaimBatch;
  batch_window ← ok_or (d ← checked_duration (publication_timeout c * batch);
                        checked_duration (d + Duration.from_secs 1)) InvalidLeaseDuration;
  _ ← guard_err ((lease_duration c <? batch_window) || (MAX_LEASE_DURATION <? lease_duration c)) InvalidLeaseDuration;
  _ ← guard_err ((shutdown_timeout c <? batch_window) || (MAX_SHUTDOWN_TIMEOUT <? shutdown_timeout c)) InvalidShutdownTimeout;
  _ ← guard_err (negb (between 1 MAX_ATTEMPTS (cfg_max_attempts c))) InvalidMaxAttempts;
  _ ← guard_err (negb (between MIN_RETENTION MAX_RETENTION (retention c))) InvalidRetention;
  _ ← guard_err (negb (between 1 MAX_CLEANUP_BATCH (cleanup_batch c))) InvalidCleanupBatch;
  guard_err (negb (between 1 MAX_RESTARTS (max_restarts (restart c))) || Duration.is_zero (initial_backoff (restart c))
             || (max_backoff (restart c) <? initial_backoff (restart c)) || (MAX_RESTART_BACKOFF <? max_backoff (restart c))
             || (MAX_JITTER_PERCENT <? jitter_percent (restart c))) InvalidRestartPolicy.
Inductive FailureClassError := BadFailureClass.
Definition FailureClass_try_from (value : string) : result FailureClassError string :=
  if portable_lower value 64 then Ok value else Err BadFailureClass.
Definition FailureClass_timeout : string := "timeout".

(** ** The table *)
Record Lease := { owner : string; token : Z; expires_at : Z }.
Record OutboxRow := {
  aggregate_type : string;
  aggregate_id : string;
  row_event_type : string;
  row_version : Z;
  row_source : string;
  row_subject : string;
  row_tenant : option Z;
  row_occurred_at : Z;
  row_correlation : Z;
  row_causation : option Z;
  row_traceparent : option string;
  row_payload : string;
  row_destination : string;
  available_at : Z;
  attempt_count : Z;
  lease : option Lease;
  published_at : option Z;
  last_error_class : option string;
  row_created_at : Z;
}.
Abbreviation OutboxTable := (gmap Z OutboxRow).
(** What the driver and the database do to values. *)
Record Jsonb := { jsonb_text : string; jsonb_is_object : bool }.
Class Database := {
  timestamptz : OffsetDateTime -> Z;
  (** the conversion [$13::jsonb]; [None] if the text is refused *)
  jsonb : string -> option Jsonb;
}.
(** The checks of the migration on a row that is inserted or updated; a string that
    passes has at most as many characters as bytes, so the lengths of the columns are
    bounds on bytes here. *)
Definition row_ok (id : Z) (r : OutboxRow) : bool :=
  (get_version_num id =? 7) && (0 <? row_version r) && (0 <=? attempt_count r)
  && (len (row_payload r) <=? 2097152)
  && first_byte (fun c => is_ascii_lowercase c || is_ascii_digit c) (aggregate_type r) && all_bytes text.name_byte (aggregate_type r)
  && first_byte (fun c => is_ascii_lowercase c || is_ascii_digit c) (row_event_type r) && all_bytes text.name_byte (row_event_type r)
  && first_byte is_ascii_alphanumeric (row_source r) && all_bytes text.word_byte (row_source r)
  && first_byte is_ascii_alphanumeric (row_destination r) && all_bytes text.path_byte (row_destination r)
  && match published_at r, lease r with Some _, Some _ => false | _, _ => true end
  && match last_error_class r with
     | Some c => first_byte (fun c => is_ascii_lowercase c || is_ascii_digit c) c && all_bytes text.name_byte c
     | None => true
     end.

Inductive OutboxError := InvalidAggregateType | InvalidAggregateId | InvalidEventVersion | OutboxEncode | InvalidRetryDelayGiven | LostLease | DatabaseError.

Section outbox.
Context `{SerdeJson} `{UuidText} `{Database}.
Definition with_lease (l : option Lease) (r : OutboxRow) : OutboxRow :=
  {| aggregate_type := aggregate_type r; aggregate_id := aggregate_id r; row_event_type := row_event_type r;
     row_version := row_version r; row_source := row_source r; row_subject := row_subject r; row_tenant := row_tenant r;
     row_occurred_at := row_occurred_at r; row_correlation := row_correlation r; row_causation := row_causation r;
     row_traceparent := row_traceparent r; row_payload := row_payload r; row_destination := row_destination r;
     available_at := available_at r; attempt_count := attempt_count r; lease := l; published_at := published_at r;
     last_error_class := last_error_class r; row_created_at := row_created_at r |}.
Definition with_state (available attempts : Z) (published : option Z) (error_class : option string) (r : OutboxRow) : OutboxRow :=
  {| aggregate_type := aggregate_type r; aggregate_id := aggregate_id r; row_event_type := row_event_type r;
     row_version := row_version r; row_source := row_source r; row_subject := row_subject r; row_tenant := row_tenant r;
     row_occurred_at := row_occurred_at r; row_correlation := row_correlation r; row_causation := row_causation r;
     row_traceparent := row_traceparent r; row_payload := row_payload r; row_destination := row_destination r;
     available_at := available; attempt_count := attempts; lease := lease r; published_at := published;
     last_error_class := error_class; row_created_at := row_created_at r |}.

(** [append] runs in the transaction of its caller; [created] is the default of the
    column [created_at]. *)
Definition append_row `{DomainEvent E} (created : Z) (e : EventEnvelope E) (agg_type agg_id destination : string)
    (available : OffsetDateTime) (l : EventLimits) : result OutboxError OutboxRow :=
  _ ← guard_err (negb (portable_lower agg_type 128)) InvalidAggregateType;
  _ ← guard_err (negb (bounded_identifier agg_id 256)) InvalidAggregateId;
  version ← ok_or (if event_version (ev e) <=? i16_max then Some (event_version (ev e)) else None) InvalidEventVersion;
  payload ← map_err (fun _ => OutboxEncode) (event_encode e l);
  tenant ← match event_tenant (ev e) with
           | Some t => u ← ok_or (parse_str t) OutboxEncode; Ok (Some u)
           | None => Ok None
           end;
  stored ← ok_or (jsonb payload) DatabaseError;
  _ ← guard_err (negb (jsonb_is_object stored)) DatabaseError;
  Ok {| aggregate_type := agg_type; aggregate_id := agg_id; row_event_type := event_type (ev e); row_version := version;
        row_source := event_source (ev e); row_subject := event_subject (ev e); row_tenant := tenant;
        row_occurred_at := timestamptz (occurred_at (ev e)); row_correlation := event_correlation (ev e);
        row_causation := event_causation (ev e); row_traceparent := event_traceparent (ev e); row_payload := jsonb_text stored;
        row_destination := destination; available_at := timestamptz available; attempt_count := 0; lease := None;
        published_at := None; last_error_class := None; row_created_at := created |}.
Definition append `{DomainEvent E} (created : Z) (e : EventEnvelope E) (agg_type agg_id destination : string)
    (available : OffsetDateTime) (l : EventLimits) : ST OutboxTable OutboxError Z := fun s =>
  match append_row created e agg_type agg_id destination available l with
  | Err x => (Err x, s)
  | Ok r =>
      let id := event_id (ev e) in
      match s !! id with
      | Some _ => (Err DatabaseError, s)
      | None => if row_ok id r then (Ok id, <[id := r]> s) else (Err DatabaseError, s)
      end
  end.

(** *** Claiming *)
Definition lease_over (now : Z) (r : OutboxRow) : bool := match lease r with None => true | Some l => expires_at l <=? now end.
Definition is_unpublished (r : OutboxRow) : bool := match published_at r with None => true | Some _ => false end.
Definition claimable (max_attempts now : Z) (r : OutboxRow) : bool :=
  is_unpublished r && (available_at r <=? now) && (attempt_count r <? max_attempts) && lease_over now r.
(** [ORDER BY available_at, occurred_at, id] *)
Definition claim_key (x : Z * OutboxRow) : Z * Z * Z := (available_at x.2, row_occurred_at x.2, x.1).
(** The rows [FOR UPDATE SKIP LOCKED LIMIT] returns; [locked] are the rows other
    transactions hold. *)
Definition locked_rows (locked : gset Z) (max_attempts batch now : Z) (s : OutboxTable) : list (Z * OutboxRow) :=
  take (Z.to_nat batch)
    (sort_by (by_key claim_key)
       (filter (fun x => (x.1 ∉ locked) /\ claimable max_attempts now x.2 = true) (map_to_list s))).
Definition leased_row (c : OutboxConfig) (leased_at tok : Z) (r : OutboxRow) : OutboxRow :=
  with_lease (Some {| owner := lease_owner c; token := tok; expires_at := leased_at + duration_micros (lease_duration c) |})
    (with_state (available_at r) (attempt_count r + 1) (published_at r) (last_error_class r) r).
(** The rows with the tokens of the same ordinal. *)
Definition claimed_rows (c : OutboxConfig) (tokens : list Z) (locked : gset Z) (now leased_at : Z) (s : OutboxTable)
    : list (Z * OutboxRow) :=
  zip_with (fun x tok => (x.1, leased_row c leased_at tok x.2)) (locked_rows locked (cfg_max_attempts c) (claim_batch c) now s) tokens.

Record LeasedOutboxEvent := {
  leased_id : Z;
  leased : OutboxRow;
  leased_owner : string;
  lease_token : Z;
  lease_expires_at : Z;
}.
Definition LeaseToken_from_database (u : Z) : result OutboxError Z := if get_version_num u =? 7 then Ok u else Err DatabaseError.
Definition decode_claimed (id : Z) (r : OutboxRow) : result OutboxError LeasedOutboxEvent :=
  l ← ok_or (lease r) DatabaseError;
  _ ← guard_err (negb (portable_lower (aggregate_type r) 128)
                 || negb (bounded_identifier (aggregate_id r) 256)
                 || negb (portable_lower (row_event_type r) 128)
                 || (row_version r <=? 0)
                 || negb (portable_source (row_source r))
                 || negb (portable_subject (row_subject r))
                 || negb (portable_destination (row_destination r))
                 || negb (portable_owner (owner l))
                 || (MAX_EVENT_JSON_BYTES <? len (row_payload r))
                 || negb (starts_with "{" (trim_start (row_payload r)))
                 || (attempt_count r <=? 0)
                 || match row_tenant r with Some u => negb (get_version_num u =? 7) | None => false end
                 || negb (get_version_num (row_correlation r) =? 7)
                 || match row_causation r with Some u => negb (u =? 0) && negb (get_version_num u =? 7) | None => false end
                 || match row_traceparent r with Some t => negb (valid_traceparent t) | None => false end) DatabaseError;
  event ← map_err (fun _ => DatabaseError) (from_uuid id);
  tok ← LeaseToken_from_database (token l);
  Ok {| leased_id := event; leased := r; leased_owner := owner l; lease_token := tok; lease_expires_at := expires_at l |}.
Fixpoint decode_all (l : list (Z * OutboxRow)) : result OutboxError (list LeasedOutboxEvent) :=
  match l with
  | [] => Ok []
  | (id, r) :: l' => e ← decode_claimed id r; rest ← decode_all l'; Ok (e :: rest)
  end.
(** The statement takes effect whether or not its rows decode. *)
Definition claim (c : OutboxConfig) (tokens : list Z) (locked : gset Z) (now leased_at : Z)
    : ST OutboxTable OutboxError (list LeasedOutboxEvent) := fun s =>
  if i32_max <? cfg_max_attempts c then (Err DatabaseError, s)
  else let rows := claimed_rows c tokens locked now leased_at s in
       (decode_all rows, list_to_map rows ∪ s).

(** *** Settling *)
(** The guard of both updates: unpublished, with this token, not expired. *)
Definition holds_lease (tok now : Z) (r : OutboxRow) : bool :=
  is_unpublished r && match lease r with Some l => (token l =? tok) && (now <? expires_at l) | None => false end.
Definition mark_published (id tok now published : Z) : ST OutboxTable OutboxError unit := fun s =>
  match s !! id with
  | Some r => if holds_lease tok now r
              then (Ok tt, <[id := with_lease None (with_state (available_at r) (attempt_count r) (Some published) None r)]> s)
              else (Err LostLease, s)
  | None => (Err LostLease, s)
  end.
Definition mark_failed (id tok : Z) (class : string) (delay now rescheduled : Z) : ST OutboxTable OutboxError unit := fun s =>
  if Duration.is_zero delay || (MAX_RETRY_DELAY <? delay) then (Err InvalidRetryDelayGiven, s)
  else match s !! id with
       | Some r =>
           if holds_lease tok now r
           then (Ok tt, <[id := with_lease None (with_state (rescheduled + duration_micros delay) (attempt_count r) (published_at r)
                                                   (Some class) r)]> s)
           else (Err LostLease, s)
       | None => (Err LostLease, s)
       end.

(** *** Retention *)
Definition retained_too_long (c : OutboxConfig) (now : Z) (r : OutboxRow) : bool :=
  let cutoff := now - duration_micros (retention c) in
  lease_over now r
  && match published_at r with
     | Some t => t <? cutoff
     | None => (cfg_max_attempts c <=? attempt_count r) && (available_at r <? cutoff)
     end.
Definition cleanup_key (x : Z * OutboxRow) : Z * Z :=
  (match published_at x.2 with Some t => t | None => available_at x.2 end, x.1).
Definition cleanup_candidates (c : OutboxConfig) (locked : gset Z) (now : Z) (s : OutboxTable) : list (Z * OutboxRow) :=
  take (Z.to_nat (cleanup_batch c))
    (sort_by (by_key cleanup_key)
       (filter (fun x => (x.1 ∉ locked) /\ retained_too_long c now x.2 = true) (map_to_list s))).
Definition cleanup_retained (c : OutboxConfig) (locked : gset Z) (now : Z) : ST OutboxTable OutboxError Z := fun s =>
  if i32_max <? cfg_max_attempts c then (Err DatabaseError, s)
  else let gone := cleanup_candidates c locked now s in
       (Ok (Z.of_nat (length gone)), s ∖ list_to_map gone).

(** *** The backlog *)
Record OutboxBacklogStatus := {
  unpublished_total : Z;
  ready : Z;
  delayed : Z;
  actively_leased : Z;
  exhausted : Z;
  oldest_unpublished_age : option Z;
}.
Definition count_rows (p : OutboxRow -> bool) (s : OutboxTable) : Z := Z.of_nat (length (filter (fun x => p x.2 = true) (map_to_list s))).
Definition oldest_created (s : OutboxTable) : option Z :=
  map_fold (fun _ r acc => if is_unpublished r
                           then Some (match acc with Some t => Z.min t (row_created_at r) | None => row_created_at r end)
                           else acc) None s.
(** [u64::try_from] of a [bigint]. *)
Definition decode_nonnegative_i64 (n : Z) : result OutboxError Z := if n <? 0 then Err DatabaseError else Ok n.
Definition decode_backlog_status (total r d a x : Z) (age : option Z) : result OutboxError OutboxBacklogStatus :=
  total ← decode_nonnegative_i64 total;
  r ← decode_nonnegative_i64 r;
  d ← decode_nonnegative_i64 d;
  a ← decode_nonnegative_i64 a;
  x ← decode_nonnegative_i64 x;
  age ← match age with
        | Some micros => m ← decode_nonnegative_i64 micros; Ok (Some (m * 1000))
        | None => Ok None
        end;
  categorized ← ok_or (n ← checked_add u64_max r d; n ← checked_add u64_max n a; checked_add u64_max n x) DatabaseError;
  _ ← guard_err (negb (categorized =? total)
                 || negb (Bool.eqb (total =? 0) match age with None => true | Some _ => false end)) DatabaseError;
  Ok {| unpublished_total := total; ready := r; delayed := d; actively_leased := a; exhausted := x;
        oldest_unpublished_age := age |}.
Definition backlog_status (c : OutboxConfig) (observed_at : Z) (s : OutboxTable) : result OutboxError OutboxBacklogStatus :=
  _ ← guard_err (i32_max <? cfg_max_attempts c) DatabaseError;
  let m := cfg_max_attempts c in
  let idle r := is_unpublished r && lease_over observed_at r in
  decode_backlog_status
    (count_rows is_unpublished s)
    (count_rows (fun r => idle r && (attempt_count r <? m) && (available_at r <=? observed_at)) s)
    (count_rows (fun r => idle r && (attempt_count r <? m) && (observed_at <? available_at r)) s)
    (count_rows (fun r => is_unpublished r && match lease r with Some l => observed_at <? expires_at l | None => false end) s)
    (count_rows (fun r => idle r && (m <=? attempt_count r)) s)
    ((fun t => observed_at - t) <$> oldest_created s).

(** ** The relay *)
(** What the publisher's future gives within its timeout. *)
Inductive Publication := Accepted | Refused (class : string) | TimedOut.
(** What happens around one event of a batch: what other transactions do before it is
    settled, the publisher's answer, and the clock readings of the settling statement;
    [db_fails] is a statement that fails, with or without having taken effect. *)
Record Turn := {
  meanwhile : OutboxTable -> OutboxTable;
  answer : Publication;
  now_at : Z;
  stored_at : Z;
  db_fails : option bool;
}.
Definition settle (c : OutboxConfig) (e : LeasedOutboxEvent) (t : Turn) : ST OutboxTable OutboxError unit :=
  match answer t with
  | Accepted => mark_published (leased_id e) (lease_token e) (now_at t) (stored_at t)
  | Refused class => mark_failed (leased_id e) (lease_token e) class (retry_delay c) (now_at t) (stored_at t)
  | TimedOut => mark_failed (leased_id e) (lease_token e) FailureClass_timeout (retry_delay c) (now_at t) (stored_at t)
  end.
(** The label the publication is counted under. *)
Definition settled_label (a : Publication) : string :=
  match a with Accepted => "ok" | Refused _ => "error" | TimedOut => "timeout" end.
(** The loop over a claimed batch: a lost lease is only counted, any other error ends the
    relay.  The result is the labels that were counted and whether the relay goes on. *)
Fixpoint relay_batch (c : OutboxConfig) (events : list (LeasedOutboxEvent * Turn)) (s : OutboxTable)
    : list string * bool * OutboxTable :=
  match events with
  | [] => ([], true, s)
  | (e, t) :: rest =>
      let s := meanwhile t s in
      match db_fails t with
      | Some effective => ([], false, if effective then snd (settle c e t s) else s)
      | None =>
          match settle c e t s with
          | (Ok _, s') => let '(l, b, s') := relay_batch c rest s' in (settled_label (answer t) :: l, b, s')
          | (Err LostLease, s') => let '(l, b, s') := relay_batch c rest s' in ("lost_lease" :: l, b, s')
          | (Err _, s') => ([], false, s')
          end
      end
  end.
End outbox.
