(* ===== verification/OutboxHistory.v ===== *)
(** * Histories of the outbox: every transaction that touches the table, in any order

    The table with the database's clock, and what happened so far: the events that were
    appended, the claims with their tokens (newest first), the events the publisher
    accepted, and the rows that retention removed unpublished, with the attempt limit
    they had reached. *)
From S2P Require Import Prelude Machine Text Ordered JsonShape JobPolicy JobWire JobTheorems EventWire.
From S2P Require Import EventTheorems Outbox.
From Stdlib Require Import Ascii.

(** ** Facts about the outbox: what an appended row keeps, and the operations one by one *)

(** [jsonb] shows an object as a text that starts with a brace. *)
Class DatabaseLaws `{Database} := {
  jsonb_object_text t j : jsonb t = Some j -> jsonb_is_object j = true -> starts_with "{" (jsonb_text j) = true;
}.

(** ** Text *)
Lemma valid_traceparent_iff s : text.traceparent s = Ok tt <-> valid_traceparent s = true.
Proof.
  unfold text.traceparent, valid_traceparent, guard_err.
  destruct (Z.ltb_spec (len s) 55), (Z.ltb_spec 55 (len s)), (Z.eqb_spec (len s) 55);
    cbn [mbind result_bind negb andb]; try lia; try (split; done).
  destruct (starts_with "00" s), (text.byte_is 2 "-" s), (text.byte_is 35 "-" s), (text.byte_is 52 "-" s),
    (text.all_bytes_but _ _ _ s), (all_bytes _ (String.substring 3 32 s)), (all_bytes _ (String.substring 36 16 s)); split; done.
Qed.
Lemma event_name_portable s : text.event_name s = Ok tt -> portable_lower s 128 = true.
Proof.
  intros Hs. unfold text.event_name in Hs. inv_ok. destruct v. apply portable_ok in Hok as (Hl & _ & Hb).
  unfold portable_lower. rewrite Hb. destruct s as [|c s]; [unfold len in Hl; simpl in Hl; lia|].
  unfold limits.EVENT_NAME in Hl. rewrite (proj2 (Z.leb_le _ _)) by lia. cbn [is_empty negb andb]. unfold guard_err in Hok0.
  cbn [text.first_lowercase] in Hok0. destruct (is_ascii_lowercase c); done.
Qed.
Lemma subject_portable s : text.subject s = Ok tt -> portable_subject s = true.
Proof.
  intros (Hl & _ & Hb)%portable_ok. unfold portable_subject. rewrite Hb, (proj2 (Z.leb_le _ _)) by (unfold limits.SUBJECT in Hl; lia).
  destruct s; [unfold len in Hl; simpl in Hl; lia | done].
Qed.
Lemma source_portable s : text.source s = Ok tt -> first_byte is_ascii_alphanumeric s = true -> portable_source s = true.
Proof.
  intros (Hl & _ & Hb)%portable_ok Hf. unfold portable_source, portable_owner.
  rewrite Hb, (proj2 (Z.leb_le _ _)) by (unfold limits.SOURCE in Hl; lia). destruct s as [|c s]; [done|].
  cbn [is_empty negb andb first_byte] in *. by rewrite Hf.
Qed.
Lemma destination_portable s : text.destination s = Ok tt -> portable_destination s = true.
Proof.
  intros (Hl & _ & Hb)%portable_ok. unfold portable_destination, portable_subject.
  rewrite Hb, (proj2 (Z.leb_le _ _)) by (unfold limits.DESTINATION in Hl; lia).
  destruct s; [unfold len in Hl; simpl in Hl; lia | done].
Qed.
Lemma trim_start_brace s : starts_with "{" s = true -> trim_start s = s.
Proof.
  destruct s as [|c s]; [done|]. unfold starts_with. destruct (ascii_dec _ _) as [<-|]; [|done]. intros _. simpl.
  destruct s as [|c2 s]; [done|]. destruct s; done.
Qed.

(** ** What never changes in a row *)
Definition static_ok (id : Z) (r : OutboxRow) : bool :=
  portable_lower (aggregate_type r) 128 && bounded_identifier (aggregate_id r) 256 && portable_lower (row_event_type r) 128
  && (0 <? row_version r) && portable_source (row_source r) && portable_subject (row_subject r)
  && portable_destination (row_destination r) && (len (row_payload r) <=? MAX_EVENT_JSON_BYTES)
  && starts_with "{" (trim_start (row_payload r))
  && match row_tenant r with Some u => get_version_num u =? 7 | None => true end
  && (get_version_num (row_correlation r) =? 7)
  && match row_causation r with Some u => get_version_num u =? 7 | None => true end
  && match row_traceparent r with Some t => valid_traceparent t | None => true end && (get_version_num id =? 7).
Section facts.
Context `{SerdeJsonLaws} `{UuidLaws} `{DatabaseLaws}.
Lemma tenant_version t : tenant_ok t = Ok tt -> exists u, parse_str t = Some u /\ get_version_num u = 7.
Proof.
  intros Ht. unfold tenant_ok in Ht. inv_ok. eexists. split; [done|]. blia.
Qed.
Lemma append_row_static {E} `{!DomainEvent E} `{!DomainEventLaws E} created (e : EventEnvelope E) ty aid dest av l r :
  event_typed (ev e) -> text.destination dest = Ok tt -> append_row created e ty aid dest av l = Ok r ->
  row_ok (event_id (ev e)) r = true -> static_ok (event_id (ev e)) r = true.
Proof.
  intros (T1 & T2 & T3 & T4 & T5 & T6 & T7 & T8 & T9 & T10) Hd Hr Hrow. unfold append_row in Hr. inv_ok. subst r.
  match goal with Hx : event_encode _ _ = Ok _ |- _ => unfold event_encode in Hx; inv_ok end.
  repeat match goal with u : unit |- _ => destruct u end.
  match goal with Hx : event_validate _ _ = Ok tt |- _ => apply event_validate_declared in Hx as [(D1 & D2 & D3 & D4) _] end.
  unfold row_ok in Hrow. cbn in Hrow.
  repeat match goal with Hx : (_ && _) = true |- _ => apply andb_prop in Hx as [Hx ?] end.
  repeat match goal with Hx : negb _ = false |- _ => apply negb_false_iff in Hx end.
  assert (Hsrc : portable_source (event_source (ev e)) = true) by (apply source_portable; done).
  assert (Hten : match v3 with Some u => get_version_num u =? 7 | None => true end = true).
  { destruct (event_tenant (ev e)) as [t|] eqn:Et; [|by injection Hok3 as <-]. destruct (tenant_version t (T5 t eq_refl)) as (u & Hu & Hv).
    rewrite Hu in Hok3. cbn in Hok3. injection Hok3 as <-. by rewrite Hv. }
  pose proof (jsonb_object_text _ _ Hok4 Hok5) as Hbrace.
  unfold static_ok. cbn [aggregate_type aggregate_id row_event_type row_version row_source row_subject row_destination row_payload
    row_tenant row_correlation row_causation row_traceparent].
  rewrite trim_start_brace, (event_name_portable (event_type (ev e))), Hsrc, subject_portable, destination_portable, Hbrace, Hten, D3, T2 by done.
  rewrite Hok, Hok1. repeat (apply andb_true_iff; split); try done.
  - destruct (event_causation (ev e)) as [u|]; [|done]. by rewrite (D4 u).
  - destruct (event_traceparent (ev e)) as [t|]; [|done]. by apply valid_traceparent_iff, T8.
Qed.

(** ** Rows and claims *)
Lemma static_with_lease id l r : static_ok id (with_lease l r) = static_ok id r.
Proof. done. Qed.
Lemma static_with_state id a n p c r : static_ok id (with_state a n p c r) = static_ok id r.
Proof. done. Qed.
Lemma decode_leased c id r at_ tok : static_ok id r = true -> 0 <= attempt_count r -> portable_owner (lease_owner c) = true ->
  get_version_num tok = 7 ->
  exists e, decode_claimed id (leased_row c at_ tok r) = Ok e /\ leased_id e = id /\ lease_token e = tok
    /\ lease_expires_at e = at_ + duration_micros (lease_duration c) /\ leased e = leased_row c at_ tok r.
Proof.
  intros Hs Ha Ho Ht. unfold static_ok in Hs. repeat match goal with Hx : (_ && _) = true |- _ => apply andb_prop in Hx as [Hx ?] end.
  unfold decode_claimed. cbn [leased_row with_lease with_state lease ok_or mbind result_bind aggregate_type aggregate_id row_event_type
    row_version row_source row_subject row_destination row_payload row_tenant row_correlation row_causation row_traceparent attempt_count
    owner token expires_at].
  repeat match goal with Hx : ?b = true |- context [?b] => rewrite Hx end.
  assert (Hcause : match row_causation r with Some u => negb (u =? 0) && negb (get_version_num u =? 7) | None => false end = false).
  { destruct (row_causation r) as [u|]; [|done]. match goal with Hx : (get_version_num u =? 7) = true |- _ => rewrite Hx end. by rewrite andb_false_r. }
  assert (Hten : match row_tenant r with Some u => negb (get_version_num u =? 7) | None => false end = false).
  { destruct (row_tenant r) as [u|]; [|done]. match goal with Hx : (get_version_num u =? 7) = true |- _ => by rewrite Hx end. }
  assert (Htrace : match row_traceparent r with Some t => negb (valid_traceparent t) | None => false end = false).
  { destruct (row_traceparent r) as [u|]; [|done]. match goal with Hx : valid_traceparent u = true |- _ => by rewrite Hx end. }
  rewrite Hcause, Hten, Htrace. unfold MAX_EVENT_JSON_BYTES, guard_err, from_uuid, LeaseToken_from_database in *.
  destruct (Z.leb_spec (row_version r) 0); [lia|]. destruct (Z.ltb_spec (2 * 1024 * 1024) (len (row_payload r))); [lia|].
  destruct (Z.leb_spec (attempt_count r + 1) 0); [lia|]. cbn [negb orb mbind result_bind].
  repeat match goal with Hx : (get_version_num _ =? 7) = true |- _ => rewrite Hx end. rewrite Ht. cbn. eexists. by split_and!.
Qed.
End facts.

(** ** What a claim selects *)
#[global] Instance claim_key_laws : OrdLaws (Z * Z * Z).
Proof. apply _. Qed.
Lemma zip_with_fst {A B C} (g : Z * A -> B -> C) (l : list (Z * A)) (ts : list B) : (length l <= length ts)%nat ->
  (zip_with (fun x t => (x.1, g x t)) l ts).*1 = l.*1.
Proof. revert ts. induction l as [|x l IH]; intros [|t ts] Hl; simpl in *; [done | done | lia |]. f_equal. apply IH. lia. Qed.
Section claims.
Context (c : OutboxConfig) (locked : gset Z) (now : Z) (s : OutboxTable).
Abbreviation selected := (locked_rows locked (cfg_max_attempts c) (claim_batch c) now s).
Lemma selected_elem id r : (id, r) ∈ selected -> s !! id = Some r /\ (id ∉ locked) /\ claimable (cfg_max_attempts c) now r = true.
Proof.
  intros Hx. unfold locked_rows in Hx. apply sort_take_elem in Hx. apply list_elem_of_filter in Hx as [[H1 H2] Hx].
  by apply elem_of_map_to_list in Hx.
Qed.
Lemma selected_nodup : NoDup selected.*1.
Proof.
  apply sort_take_nodup, nodup_fmap_filter, NoDup_fst_map_to_list.
Qed.
Lemma selected_length : (length selected <= Z.to_nat (claim_batch c))%nat.
Proof. unfold locked_rows. rewrite length_take. lia. Qed.
Context (tokens : list Z) (at_ : Z).
Hypothesis Htokens : length tokens = Z.to_nat (claim_batch c).
Abbreviation updated := (claimed_rows c tokens locked now at_ s).
Lemma updated_fst : updated.*1 = selected.*1.
Proof.
  apply zip_with_fst. rewrite Htokens. apply selected_length.
Qed.
Lemma updated_lookup_elem id r' : (id, r') ∈ updated ->
  exists r tok, s !! id = Some r /\ claimable (cfg_max_attempts c) now r = true /\ (id, tok) ∈ zip selected.*1 tokens
    /\ r' = leased_row c at_ tok r.
Proof.
  intros Hx. unfold claimed_rows in Hx. apply elem_of_lookup_zip_with_1 in Hx as (i & [id' r] & tok & Hr & Hi & Ht).
  injection Hr as -> ->. pose proof (list_elem_of_lookup_2 _ _ _ Hi) as Hel. apply selected_elem in Hel as (Hs & _ & Hc).
  exists r, tok. split_and!; [done | done | | done]. apply elem_of_lookup_zip_with. exists i, id', tok. split_and!; [done | | done].
  by rewrite list_lookup_fmap, Hi.
Qed.
(** The table after the statement, row by row. *)
Lemma claim_table id : (list_to_map updated ∪ s : OutboxTable) !! id =
    match (list_to_map updated : OutboxTable) !! id with Some r => Some r | None => s !! id end.
Proof. rewrite lookup_union. by destruct (_ !! id), (s !! id). Qed.
Lemma claim_table_cases id r' : (list_to_map updated ∪ s : OutboxTable) !! id = Some r' ->
  (exists r tok, s !! id = Some r /\ claimable (cfg_max_attempts c) now r = true /\ (id, tok) ∈ zip selected.*1 tokens
     /\ r' = leased_row c at_ tok r)
  \/ (s !! id = Some r' /\ id ∉ selected.*1).
Proof.
  rewrite claim_table. destruct (_ !! id) as [x|] eqn:E.
  - intros [= ->]. left. apply updated_lookup_elem. by apply elem_of_list_to_map_2.
  - intros Hs. right. split; [done|]. rewrite <- updated_fst. by apply not_elem_of_list_to_map_2.
Qed.
Lemma zip_token id tok tok' : (id, tok) ∈ zip selected.*1 tokens -> (id, tok') ∈ zip selected.*1 tokens -> tok = tok'.
Proof.
  intros (i & x & t & Hx & Hi & Ht)%elem_of_lookup_zip_with (j & x' & t' & Hx' & Hj & Ht')%elem_of_lookup_zip_with. simplify_eq.
  assert (i = j) as -> by (by eapply NoDup_lookup; [apply selected_nodup | ..]). congruence.
Qed.
Lemma zip_left_elem id : id ∈ selected.*1 -> exists tok, (id, tok) ∈ zip selected.*1 tokens.
Proof.
  intros [i Hi]%list_elem_of_lookup_1. pose proof (lookup_lt_Some _ _ _ Hi) as Hlt. pose proof selected_length.
  rewrite length_fmap in Hlt. destruct (lookup_lt_is_Some_2 tokens i ltac:(lia)) as [tok Ht]. exists tok.
  apply elem_of_lookup_zip_with. eauto 6.
Qed.
Lemma claim_table_selected id : id ∈ selected.*1 -> exists r tok, s !! id = Some r /\ (id, tok) ∈ zip selected.*1 tokens
  /\ (list_to_map updated ∪ s : OutboxTable) !! id = Some (leased_row c at_ tok r).
Proof.
  intros Hid. assert (Hd : NoDup updated.*1) by (rewrite updated_fst; apply selected_nodup).
  assert (Hx : exists r', (id, r') ∈ updated).
  { rewrite <- updated_fst in Hid. apply list_elem_of_fmap in Hid as ([id' r'] & -> & Hx). by exists r'. }
  destruct Hx as (r' & Hx). destruct (updated_lookup_elem _ _ Hx) as (r & tok & Hs & _ & Hz & ->). exists r, tok.
  split_and!; [done | done |]. rewrite claim_table. by rewrite (elem_of_list_to_map_1 _ _ _ Hd Hx).
Qed.
End claims.

Record System := {
  table : OutboxTable;
  clock : Z;
  appended : gset Z;
  claims : list (Z * Z);
  accepted : gset Z;
  dropped : list (Z * Z);
}.
Definition claims_of (id : Z) (l : list (Z * Z)) : list Z := (filter (fun x => x.1 = id) l).*2.
(** The token of the latest claim of an event. *)
Definition latest (id : Z) (l : list (Z * Z)) : option Z := head (claims_of id l).
(** What a claim adds to the history. *)
Definition claim_log (c : OutboxConfig) (tokens : list Z) (locked : gset Z) (now : Z) (s : OutboxTable) : list (Z * Z) :=
  zip (locked_rows locked (cfg_max_attempts c) (claim_batch c) now s).*1 tokens.
(** What a cleanup removes without its having been published. *)
Definition drop_log (c : OutboxConfig) (locked : gset Z) (now : Z) (s : OutboxTable) : list (Z * Z) :=
  map (fun x => (x.1, cfg_max_attempts c)) (filter (fun x => is_unpublished x.2 = true) (cleanup_candidates c locked now s)).
(** [Uuid::now_v7] gives identifiers that were never given before. *)
Definition fresh_tokens (c : OutboxConfig) (tokens : list Z) (l : list (Z * Z)) : Prop :=
  length tokens = Z.to_nat (claim_batch c) /\ NoDup tokens /\ Forall (fun t => get_version_num t = 7 /\ t ∉ l.*2) tokens.
Definition classified (a : Publication) : Prop :=
  match a with Refused class => FailureClass_try_from class = Ok class | Accepted | TimedOut => True end.

Section history.
Context `{SerdeJsonLaws} `{UuidLaws} `{DatabaseLaws}.

(** One transaction.  [mine] are the tokens whose holder does not act in it. *)
Inductive step (mine : Z -> Prop) : relation System :=
| step_append {E} (De : DomainEvent E) (Hl : DomainEventLaws E) created (e : EventEnvelope E) ty aid dest av l id s' x :
    event_typed (ev e) -> text.destination dest = Ok tt -> event_id (ev e) ∉ appended x -> clock x <= created ->
    append created e ty aid dest av l (table x) = (Ok id, s') ->
    step mine x {| table := s'; clock := created; appended := {[id]} ∪ appended x; claims := claims x; accepted := accepted x;
                   dropped := dropped x |}
| step_claim c tokens locked now at_ r s' x :
    config_validate c = Ok tt -> fresh_tokens c tokens (claims x) -> clock x <= now <= at_ ->
    claim c tokens locked now at_ (table x) = (r, s') ->
    step mine x {| table := s'; clock := at_; appended := appended x; claims := claim_log c tokens locked now (table x) ++ claims x;
                   accepted := accepted x; dropped := dropped x |}
| step_accept id x :
    step mine x {| table := table x; clock := clock x; appended := appended x; claims := claims x; accepted := {[id]} ∪ accepted x;
                   dropped := dropped x |}
| step_settle c e t r s' x :
    config_validate c = Ok tt -> ~ mine (lease_token e) -> (leased_id e, lease_token e) ∈ claims x ->
    (answer t = Accepted -> leased_id e ∈ accepted x) -> classified (answer t) -> clock x <= now_at t <= stored_at t ->
    settle c e t (table x) = (r, s') ->
    step mine x {| table := s'; clock := stored_at t; appended := appended x; claims := claims x; accepted := accepted x;
                   dropped := dropped x |}
| step_cleanup c locked now n s' x :
    config_validate c = Ok tt -> clock x <= now -> cleanup_retained c locked now (table x) = (Ok n, s') ->
    step mine x {| table := s'; clock := now; appended := appended x; claims := claims x; accepted := accepted x;
                   dropped := drop_log c locked now (table x) ++ dropped x |}.
Definition nobody : Z -> Prop := fun _ => False.
Definition empty_outbox (t : Z) : System :=
  {| table := ∅; clock := t; appended := ∅; claims := []; accepted := ∅; dropped := [] |}.
Definition reachable (x : System) : Prop := exists t, rtc (step nobody) (empty_outbox t) x.

(** ** The invariant *)
Definition row_inv (x : System) (id : Z) (r : OutboxRow) : Prop :=
  static_ok id r = true /\ row_ok id r = true /\ id ∈ appended x
  /\ attempt_count r = Z.of_nat (length (claims_of id (claims x)))
  /\ (forall l, lease r = Some l -> latest id (claims x) = Some (token l) /\ portable_owner (owner l) = true)
  /\ (is_unpublished r = false -> id ∈ accepted x)
  /\ row_created_at r <= clock x.
Definition system_inv (x : System) : Prop :=
  (forall id r, table x !! id = Some r -> row_inv x id r)
  /\ (forall id, id ∈ appended x -> is_Some (table x !! id) \/ id ∈ accepted x \/ exists m, (id, m) ∈ dropped x)
  /\ (forall id m, (id, m) ∈ dropped x -> 1 <= m <= Z.of_nat (length (claims_of id (claims x))))
  /\ NoDup (claims x).*2
  /\ (forall id, id ∉ appended x -> claims_of id (claims x) = []).

Lemma outbox_config_bounds c : config_validate c = Ok tt -> portable_owner (lease_owner c) = true /\ 1 <= claim_batch c <= 32
  /\ 1 <= cfg_max_attempts c <= 100.
Proof.
  intros Hc. unfold config_validate, between, MAX_CLAIM_BATCH, MAX_ATTEMPTS in Hc. inv_ok.
  repeat match goal with Hx : negb _ = false |- _ => apply negb_false_iff in Hx end. split; [done|]. lia.
Qed.
Lemma claims_of_app id l l' : claims_of id (l ++ l') = claims_of id l ++ claims_of id l'.
Proof. unfold claims_of. by rewrite filter_app, fmap_app. Qed.
Lemma claims_of_nil id l : id ∉ l.*1 -> claims_of id l = [].
Proof.
  intros Hn. unfold claims_of. induction l as [|[i t] l IH]; [done|]. rewrite fmap_cons, not_elem_of_cons in Hn. destruct Hn as [Hi Hl].
  rewrite filter_cons_False by (simpl in *; congruence). by apply IH.
Qed.
Lemma claims_of_one id tok l : NoDup l.*1 -> (id, tok) ∈ l -> claims_of id l = [tok].
Proof.
  intros Hd Hin. induction l as [|[i t] l IH]; [by apply not_elem_of_nil in Hin|]. rewrite fmap_cons, NoDup_cons in Hd. destruct Hd as [Hi Hd].
  unfold claims_of. apply elem_of_cons in Hin as [[= -> ->]|Hin].
  - rewrite filter_cons_True by done. rewrite fmap_cons. f_equal. by apply claims_of_nil.
  - assert (i <> id) by (intros ->; apply Hi; apply list_elem_of_fmap; by exists (id, tok)).
    rewrite filter_cons_False by (simpl; congruence). by apply IH.
Qed.
(** A claim adds one entry for each row it selects, and none for the others. *)
Lemma claim_log_fst c tokens locked now s : length tokens = Z.to_nat (claim_batch c) ->
  (claim_log c tokens locked now s).*1 = (locked_rows locked (cfg_max_attempts c) (claim_batch c) now s).*1.
Proof. intros Hl. unfold claim_log. rewrite fst_zip; [done|]. rewrite length_fmap, Hl. apply selected_length. Qed.
Lemma claim_log_snd c tokens locked now s l : NoDup tokens -> NoDup l.*2 -> Forall (fun t => get_version_num t = 7 /\ t ∉ l.*2) tokens ->
  NoDup (claim_log c tokens locked now s ++ l).*2.
Proof.
  intros Hd Hl Hf. rewrite fmap_app. apply NoDup_app. unfold claim_log.
  assert (Hsub : forall ids : list Z, (zip ids tokens).*2 `sublist_of` tokens).
  { intros ids. revert ids. clear. induction tokens as [|t ts IH]; intros [|i ids]; simpl; try constructor; [apply sublist_nil_l | apply IH]. }
  split_and!; [by eapply sublist_NoDup; [|apply Hsub] | | done].
  intros t Ht. rewrite Forall_forall in Hf. apply Hf. eapply sublist_subseteq; [apply Hsub | exact Ht].
Qed.

(** ** Every transaction keeps the invariant *)
Lemma row_ok_leased c at_ tok id r : row_ok id r = true -> is_unpublished r = true -> row_ok id (leased_row c at_ tok r) = true.
Proof.
  unfold row_ok, is_unpublished. cbn [leased_row with_lease with_state lease published_at attempt_count last_error_class row_version
    row_payload aggregate_type row_event_type row_source row_destination].
  intros Hr Hp. destruct (published_at r); [done|]. rewrite !andb_true_iff in *.
  destruct_and! Hr. split_and!; try done. lia.
Qed.
Lemma row_ok_settled id r a p cls : row_ok id r = true ->
  match cls with Some x => first_byte (fun c => is_ascii_lowercase c || is_ascii_digit c) x && all_bytes text.name_byte x | None => true end = true ->
  row_ok id (with_lease None (with_state a (attempt_count r) p cls r)) = true.
Proof.
  unfold row_ok. cbn [with_lease with_state lease published_at attempt_count last_error_class row_version
    row_payload aggregate_type row_event_type row_source row_destination].
  intros Hr Hc. rewrite !andb_true_iff in *. destruct_and! Hr. split_and!; try done. by destruct p.
Qed.
Lemma class_portable class : FailureClass_try_from class = Ok class ->
  first_byte (fun c => is_ascii_lowercase c || is_ascii_digit c) class && all_bytes text.name_byte class = true.
Proof.
  unfold FailureClass_try_from, portable_lower. destruct (_ && _) eqn:E; [|done]. intros _. rewrite !andb_true_iff in E.
  destruct E as [[_ Hf] Hb]. rewrite Hb, andb_true_r. by destruct class.
Qed.
Lemma row_inv_more x y id r : row_inv x id r -> claims y = claims x -> appended x ⊆ appended y -> accepted x ⊆ accepted y ->
  clock x <= clock y -> row_inv y id r.
Proof.
  intros (R1 & R2 & R3 & R4 & R5 & R6 & R7) Hc Ha Hb Hk. unfold row_inv. rewrite Hc. split_and!; [done | done | set_solver | done | done | set_solver | lia].
Qed.
Lemma inv_append {E} (De : DomainEvent E) (Hlaw : DomainEventLaws E) created (e : EventEnvelope E) ty aid dest av l id s' x :
  system_inv x -> event_typed (ev e) -> text.destination dest = Ok tt -> event_id (ev e) ∉ appended x -> clock x <= created ->
  append created e ty aid dest av l (table x) = (Ok id, s') ->
  system_inv {| table := s'; clock := created; appended := {[id]} ∪ appended x; claims := claims x; accepted := accepted x; dropped := dropped x |}.
Proof.
  intros (I1 & I2 & I3 & I4 & I5) Ht Hd Hfresh Hk Ha. unfold append in Ha.
  destruct (append_row _ _ _ _ _ _ _) as [r|] eqn:Er; [|done]. destruct (table x !! event_id (ev e)) eqn:El; [done|].
  destruct (row_ok _ r) eqn:Eok; [|done]. injection Ha as <- <-.
  split_and!; cbn [table appended claims accepted dropped]; [| | done | done |].
  - intros id r' Hr. apply lookup_insert_Some in Hr as [[<- <-]|[Hne Hr]].
    + pose proof (append_row_static _ _ _ _ _ _ _ _ Ht Hd Er Eok) as Hs. unfold append_row in Er. inv_ok. subst r.
      split_and!; cbn [attempt_count lease is_unpublished published_at row_created_at clock]; try done; [set_solver|].
      by rewrite I5.
    + eapply row_inv_more; [by apply I1 | done | set_solver | done | done].
  - intros id Hid. destruct (decide (id = event_id (ev e))) as [->|Hne]; [left; rewrite lookup_insert_eq; by eexists|].
    rewrite lookup_insert_ne by done. apply I2. set_solver.
  - intros id Hid. apply I5. set_solver.
Qed.
Lemma inv_claim c tokens locked now at_ r s' x : system_inv x -> config_validate c = Ok tt -> fresh_tokens c tokens (claims x) ->
  clock x <= now <= at_ -> claim c tokens locked now at_ (table x) = (r, s') ->
  system_inv {| table := s'; clock := at_; appended := appended x; claims := claim_log c tokens locked now (table x) ++ claims x;
                accepted := accepted x; dropped := dropped x |}.
Proof.
  intros (I1 & I2 & I3 & I4 & I5) Hc (F1 & F2 & F3) Hk Hr. unfold claim in Hr. destruct (outbox_config_bounds c Hc) as (Ho & Hb & Hm).
  destruct (Z.ltb_spec i32_max (cfg_max_attempts c)); [unfold i32_max in *; lia|]. injection Hr as _ <-.
  assert (Hfst : NoDup (claim_log c tokens locked now (table x)).*1) by (rewrite claim_log_fst by done; apply selected_nodup).
  split_and!; cbn [table appended claims accepted dropped].
  - intros id r' Hr'. apply (claim_table_cases c locked now (table x) tokens at_ F1) in Hr' as [(r0 & tok & Hr0 & Hcl & Hz & ->)|[Hr0 Hn]].
    + destruct (I1 _ _ Hr0) as (R1 & R2 & R3 & R4 & R5 & R6 & R7). unfold claimable in Hcl. rewrite !andb_true_iff in Hcl. destruct Hcl as [[[Hun _] _] _].
      assert (Hone : claims_of id (claim_log c tokens locked now (table x)) = [tok]) by (by apply claims_of_one).
      split_and!; cbn [claims appended accepted clock]; try done.
      * by apply row_ok_leased.
      * cbn [leased_row with_lease with_state attempt_count]. rewrite claims_of_app, Hone. cbn. lia.
      * intros l' [= <-]. unfold latest. rewrite claims_of_app, Hone. cbn. by split.
      * cbn [leased_row with_lease with_state row_created_at]. lia.
    + destruct (I1 _ _ Hr0) as (R1 & R2 & R3 & R4 & R5 & R6 & R7).
      assert (Hnone : claims_of id (claim_log c tokens locked now (table x)) = []) by (apply claims_of_nil; by rewrite claim_log_fst).
      split_and!; cbn [claims appended accepted clock]; try done; [| |lia]; unfold latest; rewrite claims_of_app, Hnone; done.
  - intros id Hid. destruct (I2 id Hid) as [[r0 Hr0]|Hrest]; [left|by right]. rewrite claim_table.
    rewrite Hr0. by destruct (list_to_map _ !! id); eexists.
  - intros id m Hd. specialize (I3 id m Hd). rewrite claims_of_app, length_app. lia.
  - by apply claim_log_snd.
  - intros id Hid. rewrite claims_of_app, I5, app_nil_r by done. apply claims_of_nil. rewrite claim_log_fst by done.
    intros ([id' r0] & -> & Hsel)%list_elem_of_fmap. apply selected_elem in Hsel as (Hr0 & _). destruct (I1 _ _ Hr0) as (_ & _ & Hin & _). done.
Qed.
(** What settling does: nothing, or it ends the lease it was made under. *)
Definition settled_row (c : OutboxConfig) (t : Turn) (r : OutboxRow) : OutboxRow :=
  match answer t with
  | Accepted => with_lease None (with_state (available_at r) (attempt_count r) (Some (stored_at t)) None r)
  | Refused class => with_lease None (with_state (stored_at t + duration_micros (retry_delay c)) (attempt_count r) (published_at r) (Some class) r)
  | TimedOut => with_lease None (with_state (stored_at t + duration_micros (retry_delay c)) (attempt_count r) (published_at r)
                                   (Some FailureClass_timeout) r)
  end.
Definition holder (e : LeasedOutboxEvent) (t : Turn) (s : OutboxTable) : bool :=
  match s !! leased_id e with Some r => holds_lease (lease_token e) (now_at t) r | None => false end.
Lemma settle_spec c e t s : config_validate c = Ok tt ->
  settle c e t s = if holder e t s then (Ok tt, alter (settled_row c t) (leased_id e) s) else (Err LostLease, s).
Proof.
  intros Hc. assert (Hdelay : Duration.is_zero (retry_delay c) || (MAX_RETRY_DELAY <? retry_delay c) = false)
    by (unfold config_validate in Hc; inv_ok; done).
  unfold settle, mark_published, mark_failed, holder, settled_row.
  destruct (answer t); cbv beta; rewrite ?Hdelay; (destruct (s !! leased_id e) as [r|] eqn:Er; [|done]);
    (destruct (holds_lease _ _ r); [|done]); f_equal; symmetry; apply map_eq; intros j; (destruct (decide (leased_id e = j)) as [<-|Hj];
    [by rewrite lookup_alter_eq, lookup_insert_eq, Er | by rewrite lookup_alter_ne, lookup_insert_ne by done]).
Qed.
Lemma settled_static id c t r : static_ok id (settled_row c t r) = static_ok id r.
Proof. unfold settled_row. by destruct (answer t). Qed.
Lemma settled_parts c t r : attempt_count (settled_row c t r) = attempt_count r /\ lease (settled_row c t r) = None
  /\ row_created_at (settled_row c t r) = row_created_at r
  /\ published_at (settled_row c t r) = match answer t with Accepted => Some (stored_at t) | _ => published_at r end.
Proof. unfold settled_row. by destruct (answer t). Qed.
Lemma inv_settle c e t r s' x : system_inv x -> config_validate c = Ok tt -> (answer t = Accepted -> leased_id e ∈ accepted x) ->
  classified (answer t) -> clock x <= now_at t <= stored_at t -> settle c e t (table x) = (r, s') ->
  system_inv {| table := s'; clock := stored_at t; appended := appended x; claims := claims x; accepted := accepted x; dropped := dropped x |}.
Proof.
  intros (I1 & I2 & I3 & I4 & I5) Hc Hacc Hcl Hk Hs. rewrite settle_spec in Hs by done.
  assert (Hsame : forall id r0, table x !! id = Some r0 ->
    row_inv {| table := s'; clock := stored_at t; appended := appended x; claims := claims x; accepted := accepted x; dropped := dropped x |} id r0)
    by (intros; eapply row_inv_more; [by apply I1 | done | done | done | cbn; lia]).
  destruct (holder e t (table x)) eqn:Eh; injection Hs as _ <-; [|by split_and!].
  split_and!; cbn [table appended claims accepted dropped]; [| | done | done | done].
  - intros id r' Hr'. apply lookup_alter_Some in Hr' as [(<- & r0 & Hr0 & ->)|[_ Hr0]]; [|by apply Hsame].
    destruct (Hsame _ _ Hr0) as (R1 & R2 & R3 & R4 & R5 & R6 & R7). destruct (settled_parts c t r0) as (P1 & P2 & P3 & P4).
    unfold row_inv. rewrite settled_static, P1, P2, P3. split_and!; try done.
    + unfold settled_row. destruct (answer t) eqn:Ea; apply row_ok_settled; try done. by apply class_portable.
    + unfold is_unpublished. rewrite P4. intros Hp. destruct (answer t) eqn:Ea; [by apply Hacc | by apply R6 | by apply R6].
  - intros id Hid. destruct (I2 id Hid) as [[r0 Hr0]|Hrest]; [left|by right]. 
    destruct (decide (leased_id e = id)) as [<-|]; [rewrite lookup_alter_eq, Hr0 | rewrite lookup_alter_ne, Hr0 by done]; by eexists.
Qed.
Lemma cleanup_elem c locked now s id r : (id, r) ∈ cleanup_candidates c locked now s ->
  s !! id = Some r /\ retained_too_long c now r = true.
Proof.
  intros Hx. unfold cleanup_candidates in Hx. apply sort_take_elem in Hx. apply list_elem_of_filter in Hx as [[_ Hx] Hin].
  by apply elem_of_map_to_list in Hin.
Qed.
Lemma inv_cleanup c locked now n s' x : system_inv x -> config_validate c = Ok tt -> clock x <= now ->
  cleanup_retained c locked now (table x) = (Ok n, s') ->
  system_inv {| table := s'; clock := now; appended := appended x; claims := claims x; accepted := accepted x;
                dropped := drop_log c locked now (table x) ++ dropped x |}.
Proof.
  intros (I1 & I2 & I3 & I4 & I5) Hc Hk Hr. unfold cleanup_retained in Hr. destruct (outbox_config_bounds c Hc) as (_ & _ & Hm).
  destruct (Z.ltb_spec i32_max (cfg_max_attempts c)); [done|]. injection Hr as _ <-.
  split_and!; cbn [table appended claims accepted dropped]; [| | | done | done].
  - intros id r Hr. apply lookup_difference_Some in Hr as [Hr _]. eapply row_inv_more; [by apply I1 | done | done | done | cbn; lia].
  - intros id Hid. destruct (I2 id Hid) as [[r Hr]|[Ha|[m Hm']]]; [|by right; left | right; right; exists m; apply elem_of_app; by right].
    destruct ((list_to_map (cleanup_candidates c locked now (table x)) : OutboxTable) !! id) as [r'|] eqn:El.
    + right. apply elem_of_list_to_map_2 in El as Hin. apply cleanup_elem in Hin as Hx. destruct Hx as [Hr' _].
      destruct (is_unpublished r') eqn:Eu; [right|left; by apply (I1 _ _ Hr')]. exists (cfg_max_attempts c).
      apply elem_of_app. left. unfold drop_log. apply list_elem_of_fmap. exists (id, r'). split; [done|]. apply list_elem_of_filter. by split.
    + left. exists r. by apply lookup_difference_Some.
  - intros id m Hd. apply elem_of_app in Hd as [Hd|Hd]; [|by apply I3]. unfold drop_log in Hd.
    apply list_elem_of_fmap in Hd as ([id' r] & [= -> ->] & Hd). apply list_elem_of_filter in Hd as [Hu Hin].
    apply cleanup_elem in Hin as [Hr Hret]. destruct (I1 _ _ Hr) as (_ & _ & _ & R4 & _). rewrite <- R4.
    unfold retained_too_long, is_unpublished in *. cbn in Hu. destruct (published_at r); [done|]. lia.
Qed.
Lemma step_keeps mine x y : step mine x y -> system_inv x -> system_inv y.
Proof.
  destruct 1; intros Hinv.
  - by eapply inv_append.
  - by eapply inv_claim.
  - destruct Hinv as (I1 & I2 & I3 & I4 & I5). split_and!; cbn [table appended claims accepted dropped]; try done.
    + intros i r Hr. eapply row_inv_more; [by apply I1 | done | done | set_solver | done].
    + intros i Hi. destruct (I2 i Hi) as [|[|]]; [by left | right; left; set_solver | by right; right].
  - by eapply inv_settle.
  - by eapply inv_cleanup.
Qed.
Lemma steps_keep mine x y : rtc (step mine) x y -> system_inv x -> system_inv y.
Proof. induction 1 as [|x y z Hs _ IH]; [done|]. intros Hx. apply IH. by eapply step_keeps. Qed.
Lemma outbox_reachable_inv x : reachable x -> system_inv x.
Proof.
  intros [t Ht]. eapply steps_keep; [exact Ht|]. split_and!; cbn; try set_solver. constructor.
Qed.
Lemma steps_clock mine x y : rtc (step mine) x y -> clock x <= clock y.
Proof. induction 1 as [|x y z Hs _ IH]; [done|]. assert (clock x <= clock y) by (destruct Hs; cbn; lia). lia. Qed.
End history.
