(* ===== verification/OutboxTheorems.v ===== *)
(** * Theorems about the outbox: no event is lost, leases fence, relays in time settle *)
From S2P Require Import Prelude Machine Text Ordered JsonShape JobPolicy JobWire JobTheorems EventWire EventTheorems.
From S2P Require Import Outbox OutboxHistory.

Section theorems.
Context `{SerdeJsonLaws} `{UuidLaws} `{DatabaseLaws}.

(** C8. No event is lost: whatever transactions run, and in whatever order, every event
    that was appended is in the table and unpublished, or the publisher has accepted it,
    or retention removed it after it had been claimed as often as the attempt limit
    allows. *)
Theorem no_event_lost x id : reachable x -> id ∈ appended x ->
  (exists r, table x !! id = Some r /\ is_unpublished r = true) \/ id ∈ accepted x
  \/ exists m, (id, m) ∈ dropped x /\ 1 <= m <= Z.of_nat (length (claims_of id (claims x))).
Proof.
  intros Hx Hid. apply outbox_reachable_inv in Hx as (I1 & I2 & I3 & _). destruct (I2 id Hid) as [[r Hr]|[Ha|[m Hm]]].
  - destruct (is_unpublished r) eqn:Eu; [left; by exists r|]. right. left. by apply (I1 _ _ Hr).
  - by right; left.
  - right. right. exists m. split; [done | by apply I3].
Qed.

(** C9. Leases fence: an outbox event's lease belongs to its latest claim only.  A relay
    whose claim was followed by another claim of the event can neither mark it published
    nor reschedule it, at any time, and changes nothing when it tries; and while a lease
    lasts, no claim takes its event. *)
Theorem leases_fence x id tok now stored class delay : reachable x ->
  (latest id (claims x) <> Some tok -> Duration.is_zero delay || (MAX_RETRY_DELAY <? delay) = false ->
     mark_published id tok now stored (table x) = (Err LostLease, table x)
     /\ mark_failed id tok class delay now stored (table x) = (Err LostLease, table x))
  /\ (forall r l c locked, table x !! id = Some r -> lease r = Some l -> now < expires_at l ->
        id ∉ (locked_rows locked (cfg_max_attempts c) (claim_batch c) now (table x)).*1).
Proof.
  intros Hx. apply outbox_reachable_inv in Hx as (I1 & _). split.
  - intros Hl Hd. unfold mark_published, mark_failed. rewrite Hd. destruct (table x !! id) as [r|] eqn:Er; [|done].
    destruct (I1 _ _ Er) as (_ & _ & _ & _ & R5 & _). unfold holds_lease. destruct (lease r) as [l|]; [|by rewrite andb_false_r].
    destruct (R5 l eq_refl) as [Hlat _]. destruct (Z.eqb_spec (token l) tok); [congruence|]. by rewrite andb_false_r.
  - intros r l c locked Hr Hl Hnow ([id' r'] & -> & Hs)%list_elem_of_fmap. apply selected_elem in Hs as (Hr' & _ & Hc).
    cbn in Hr. assert (r' = r) as -> by congruence. unfold claimable, lease_over in Hc. rewrite Hl in Hc. lia.
Qed.

(** ** Claims *)
Lemma decode_all_ok l : Forall (fun x => is_ok (decode_claimed x.1 x.2) = true) l ->
  exists es, decode_all l = Ok es /\ Forall2 (fun x e => decode_claimed x.1 x.2 = Ok e) l es.
Proof.
  induction l as [|[id r] l IH]; intros Hl; [by exists []|]. inversion Hl as [|? ? Hx Hl']; subst. cbn in Hx.
  destruct (decode_claimed id r) as [e|] eqn:E; [|done]. destruct (IH Hl') as (es & Hes & Hf). exists (e :: es).
  split; [by cbn; rewrite E, Hes | by constructor].
Qed.
Lemma zip_token_in {A} (ids : list A) (tokens : list Z) id tok : (id, tok) ∈ zip ids tokens -> tok ∈ tokens.
Proof. intros Hz. apply elem_of_lookup_zip_with in Hz as (i & a & b & [= <- <-] & _ & Hb). by eapply list_elem_of_lookup_2. Qed.
(** In a store the outbox produced, every claimed row decodes. *)
Lemma claimed_decode x c tokens locked now at_ id r' : system_inv x -> config_validate c = Ok tt -> fresh_tokens c tokens (claims x) ->
  (id, r') ∈ claimed_rows c tokens locked now at_ (table x) ->
  exists r tok e, table x !! id = Some r /\ claimable (cfg_max_attempts c) now r = true
    /\ (id, tok) ∈ zip (locked_rows locked (cfg_max_attempts c) (claim_batch c) now (table x)).*1 tokens
    /\ r' = leased_row c at_ tok r /\ decode_claimed id r' = Ok e /\ leased_id e = id /\ lease_token e = tok
    /\ lease_expires_at e = at_ + duration_micros (lease_duration c) /\ leased e = r'.
Proof.
  intros (I1 & _) Hc (_ & _ & Hf) Hx. apply updated_lookup_elem in Hx as (r & tok & Hr & Hcl & Hz & ->).
  destruct (I1 _ _ Hr) as (R1 & _ & _ & R4 & _). destruct (outbox_config_bounds c Hc) as (Ho & _).
  rewrite Forall_forall in Hf. destruct (Hf tok) as [Hv _]; [by eapply zip_token_in|].
  destruct (decode_leased c id r at_ tok) as (e & He & E1 & E2 & E3 & E4); [done | lia | done | done |].
  exists r, tok, e. by split_and!.
Qed.
Lemma claim_decodes x c tokens locked now at_ : system_inv x -> config_validate c = Ok tt -> fresh_tokens c tokens (claims x) ->
  exists events, claim c tokens locked now at_ (table x) = (Ok events, list_to_map (claimed_rows c tokens locked now at_ (table x)) ∪ table x)
    /\ Forall2 (fun y e => decode_claimed y.1 y.2 = Ok e) (claimed_rows c tokens locked now at_ (table x)) events.
Proof.
  intros Hinv Hc Ht. destruct (decode_all_ok (claimed_rows c tokens locked now at_ (table x))) as (es & Hes & Hf).
  - apply Forall_forall. intros [id r'] Hx. destruct (claimed_decode _ _ _ _ _ _ _ _ Hinv Hc Ht Hx) as (r & tok & e & _ & _ & _ & _ & He & _).
    cbn. by rewrite He.
  - exists es. split; [|done]. unfold claim. destruct (outbox_config_bounds c Hc) as (_ & _ & Hm).
    destruct (Z.ltb_spec i32_max (cfg_max_attempts c)); [unfold i32_max in *; lia|]. by rewrite Hes.
Qed.
Lemma decoded_ids l es : Forall2 (fun y e => decode_claimed y.1 y.2 = Ok e) l es -> map leased_id es = l.*1.
Proof.
  induction 1 as [|[id r] e l es He _ IH]; [done|]. simpl. rewrite IH. f_equal. cbn in He. unfold decode_claimed, from_uuid in He.
  inv_ok. destruct (get_version_num id =? 7); [|done]. by simplify_eq.
Qed.

(** One event a claim returned. *)
Lemma claim_event x c tokens locked now at_ events e : system_inv x -> config_validate c = Ok tt -> fresh_tokens c tokens (claims x) ->
  Forall2 (fun y e => decode_claimed y.1 y.2 = Ok e) (claimed_rows c tokens locked now at_ (table x)) events -> e ∈ events ->
  exists r, table x !! leased_id e = Some r /\ claimable (cfg_max_attempts c) now r = true /\ (leased_id e ∉ locked)
    /\ (list_to_map (claimed_rows c tokens locked now at_ (table x)) ∪ table x : OutboxTable) !! leased_id e = Some (leased e)
    /\ leased e = leased_row c at_ (lease_token e) r /\ lease_expires_at e = at_ + duration_micros (lease_duration c)
    /\ (leased_id e, lease_token e) ∈ claim_log c tokens locked now (table x).
Proof.
  intros Hx Hc Ht Hf [i Hi]%list_elem_of_lookup_1. destruct (Forall2_lookup_r _ _ _ _ _ Hf Hi) as ([id r'] & Hr' & He).
  pose proof (list_elem_of_lookup_2 _ _ _ Hr') as Hin. cbn in He.
  destruct (claimed_decode x c tokens locked now at_ id r' Hx Hc Ht Hin) as (r & tok & e' & Hr & Hcla & Hz & -> & Hd & E1 & E2 & E3 & E4).
  assert (e' = e) as -> by congruence. subst id tok. destruct Ht as (T1 & _). exists r. split_and!; try done.
  - assert (Hs : leased_id e ∈ (locked_rows locked (cfg_max_attempts c) (claim_batch c) now (table x)).*1).
    { rewrite <- (updated_fst c locked now (table x) tokens at_ T1). by apply (list_elem_of_fmap_2 fst _ _ Hin). }
    apply list_elem_of_fmap in Hs as ([i' r'] & Hi' & Hs). apply selected_elem in Hs as (_ & Hl & _). by rewrite Hi'.
  - rewrite claim_table, (elem_of_list_to_map_1 _ _ (leased_row c at_ (lease_token e) r)); [by rewrite E4 | | done].
    rewrite (updated_fst c locked now (table x) tokens at_ T1). apply selected_nodup.
Qed.

(** The order of the queue: availability, then occurrence, then identifier. *)
Definition before_or_same (x y : Z * OutboxRow) : Prop :=
  available_at x.2 < available_at y.2
  \/ available_at x.2 = available_at y.2
     /\ (row_occurred_at x.2 < row_occurred_at y.2 \/ row_occurred_at x.2 = row_occurred_at y.2 /\ x.1 <= y.1).
Lemma claim_key_order x y : key_le claim_key x y -> before_or_same x y.
Proof.
  unfold key_le, by_key, before_or_same, claim_key, cmp, pair_ord, cmp, pair_ord, cmp, Z_ord, then_cmp. cbn [fst snd].
  destruct (Z.compare_spec (available_at x.2) (available_at y.2)), (Z.compare_spec (row_occurred_at x.2) (row_occurred_at y.2)),
    (Z.compare_spec x.1 y.1); intros Hc; lia || (exfalso; by apply Hc).
Qed.

(** A claim serves the backlog in order: in every store the outbox can produce, with
    fresh tokens, the claimed rows decode, so that the claim succeeds; it returns distinct
    claimable rows no other transaction has locked, each with its attempt counted and
    leased in the table; and a claimable row is left out only when the batch is full of
    rows that come before it in the order of availability, occurrence and identifier. *)
Theorem claim_in_order x c tokens locked now at_ : reachable x -> config_validate c = Ok tt -> fresh_tokens c tokens (claims x) ->
  exists events s', claim c tokens locked now at_ (table x) = (Ok events, s') /\ NoDup (map leased_id events)
    /\ Forall (fun e => exists r, table x !! leased_id e = Some r /\ claimable (cfg_max_attempts c) now r = true
         /\ (leased_id e ∉ locked) /\ s' !! leased_id e = Some (leased e) /\ attempt_count (leased e) = attempt_count r + 1
         /\ lease (leased e) = Some {| owner := lease_owner c; token := lease_token e; expires_at := lease_expires_at e |}) events
    /\ (forall id, id ∉ map leased_id events -> s' !! id = table x !! id)
    /\ (forall id r, table x !! id = Some r -> claimable (cfg_max_attempts c) now r = true -> id ∉ locked -> id ∉ map leased_id events ->
          length events = Z.to_nat (claim_batch c)
          /\ Forall (fun e => forall r', table x !! leased_id e = Some r' -> before_or_same (leased_id e, r') (id, r)) events).
Proof.
  intros Hx Hc Ht. apply outbox_reachable_inv in Hx. destruct (claim_decodes x c tokens locked now at_ Hx Hc Ht) as (events & Hcl & Hf).
  eexists events, _. split; [exact Hcl|]. pose proof (decoded_ids _ _ Hf) as Hids. destruct Ht as (T1 & T2 & T3).
  rewrite (updated_fst c locked now (table x) tokens at_ T1) in Hids. rewrite Hids.
  set (sel := locked_rows locked (cfg_max_attempts c) (claim_batch c) now (table x)) in *. split_and!.
  - apply selected_nodup.
  - apply Forall_forall. intros e He.
    destruct (claim_event x c tokens locked now at_ events e Hx Hc (conj T1 (conj T2 T3)) Hf He) as (r & Hr & Hcla & Hl & Hs' & Hrow & Hexp & _).
    exists r. split_and!; try done; rewrite Hrow; [done|]. cbn. by rewrite Hexp.
  - intros id Hid. rewrite claim_table. rewrite (not_elem_of_list_to_map_1 _ id); [done|].
    by rewrite (updated_fst c locked now (table x) tokens at_ T1).
  - intros id r Hr Hcla Hl Hid. set (cand := filter (fun y => (y.1 ∉ locked) /\ claimable (cfg_max_attempts c) now y.2 = true) (map_to_list (table x))).
    assert (Hin : (id, r) ∈ cand) by (apply list_elem_of_filter; split; [done | by apply elem_of_map_to_list]).
    assert (Hout : (id, r) ∉ sel) by (intros Hs; apply Hid, list_elem_of_fmap; by exists (id, r)).
    assert (Hlen : length events = length sel).
    { rewrite <- (length_map leased_id), Hids. apply length_fmap. }
    split; [rewrite Hlen; by eapply sort_take_full|]. apply Forall_forall. intros e He r' Hr'.
    assert (Hs : leased_id e ∈ sel.*1) by (rewrite <- Hids; by apply list_elem_of_fmap_2).
    apply list_elem_of_fmap in Hs as ([i' r''] & Hi' & Hs). cbn in Hi'. subst i'. apply selected_elem in Hs as Hs'. destruct Hs' as (Hr'' & _).
    assert (r'' = r') as -> by congruence. by eapply claim_key_order, sort_take_first.
Qed.

(** ** Relays *)
(** The event's lease is in the table, under its token. *)
Definition held (s : OutboxTable) (e : LeasedOutboxEvent) : Prop :=
  exists r l, s !! leased_id e = Some r /\ is_unpublished r = true /\ lease r = Some l /\ token l = lease_token e
    /\ expires_at l = lease_expires_at e.
(** Until it expires, nobody but its holder ends a lease. *)
Lemma held_step mine x y e : step mine x y -> mine (lease_token e) -> held (table x) e -> clock y < lease_expires_at e -> held (table y) e.
Proof.
  intros Hs Hm (r & lo & Hr & Hu & Hl & Htok & Hexp) Hk. destruct Hs as [E De Hlaw created ev0 ty aid dest av l id s' x T D F K Ha
    | c tokens locked now at_ res s' x Hc Ht K Hcl | id x | c e' t res s' x Hc Hn Hin Hacc Hcls K Hset | c locked now n s' x Hc K Hcl]; cbn in *.
  - exists r, lo. split_and!; try done. unfold append in Ha. destruct (append_row _ _ _ _ _ _ _) as [r'|]; [|done].
    destruct (table x !! event_id (ev ev0)) eqn:El; [done|]. destruct (row_ok _ r'); [|done]. injection Ha as <- <-.
    rewrite lookup_insert_ne; [done|]. intros Heq. congruence.
  - exists r, lo. split_and!; try done. unfold claim in Hcl. destruct (i32_max <? cfg_max_attempts c); injection Hcl as _ <-; [done|].
    rewrite claim_table, (not_elem_of_list_to_map_1 _ (leased_id e)); [done|]. destruct Ht as (T1 & _).
    rewrite (updated_fst c locked now (table x) tokens at_ T1). intros ([i r'] & Hi & Hsel)%list_elem_of_fmap. apply selected_elem in Hsel as (Hr' & _ & Hcla).
    cbn in Hi. subst i. assert (r' = r) as -> by congruence. unfold claimable, lease_over in Hcla. rewrite Hl in Hcla. cbn in Hcla. lia.
  - by exists r, lo.
  - rewrite settle_spec in Hset by done. destruct (holder e' t (table x)) eqn:Eh; injection Hset as _ <-; [|by exists r, lo].
    destruct (decide (leased_id e' = leased_id e)) as [Heq|Hne]; [|exists r, lo; by rewrite lookup_alter_ne].
    exfalso. unfold holder in Eh. rewrite Heq, Hr in Eh. unfold holds_lease in Eh. rewrite Hl in Eh. cbn in Eh.
    apply Hn. assert (lease_token e = lease_token e') as <- by lia. done.
  - exists r, lo. split_and!; try done. unfold cleanup_retained in Hcl. destruct (i32_max <? cfg_max_attempts c); [done|]. injection Hcl as _ <-.
    apply lookup_difference_Some. split; [done|]. apply not_elem_of_list_to_map_1. intros ([i r'] & Hi & Hcand)%list_elem_of_fmap.
    apply cleanup_elem in Hcand as (Hr' & Hret). cbn in Hi. subst i. assert (r' = r) as -> by congruence.
    unfold retained_too_long, lease_over in Hret. rewrite Hl in Hret. cbn in Hret. lia.
Qed.
Lemma held_steps mine x y e : rtc (step mine) x y -> mine (lease_token e) -> held (table x) e -> clock y < lease_expires_at e -> held (table y) e.
Proof.
  induction 1 as [|x y z Hs Hr IH]; [done|]. intros Hm Hh Hk. pose proof (steps_clock _ _ _ Hr). apply IH; [done | | done].
  eapply held_step; [exact Hs | done | done | lia].
Qed.
Lemma held_holder s e t : held s e -> now_at t < lease_expires_at e -> holder e t s = true.
Proof.
  intros (r & l & Hr & Hu & Hl & Htok & Hexp) Hk. unfold holder. rewrite Hr. unfold holds_lease. rewrite Hu, Hl. cbn. lia.
Qed.

(** The system after the relay's claim, and after it settled one event. *)
Definition after_claim (c : OutboxConfig) (tokens : list Z) (locked : gset Z) (now at_ : Z) (x : System) : System :=
  {| table := (claim c tokens locked now at_ (table x)).2; clock := at_; appended := appended x;
     claims := claim_log c tokens locked now (table x) ++ claims x; accepted := accepted x; dropped := dropped x |}.
Definition after_settle (c : OutboxConfig) (e : LeasedOutboxEvent) (t : Turn) (x : System) : System :=
  {| table := (settle c e t (table x)).2; clock := stored_at t; appended := appended x; claims := claims x;
     accepted := match answer t with Accepted => {[leased_id e]} ∪ accepted x | _ => accepted x end; dropped := dropped x |}.
(** What runs alongside a batch: before each event is settled, any sequence of the
    transactions of others takes the system from where the relay left it to where the
    settling statement finds it. *)
Fixpoint alongside (mine : Z -> Prop) (c : OutboxConfig) (l : list (LeasedOutboxEvent * Turn)) (x : System) : Prop :=
  match l with
  | [] => True
  | (e, t) :: rest => exists y, rtc (step mine) x y /\ table y = meanwhile t (table x) /\ clock y <= now_at t
      /\ alongside mine c rest (after_settle c e t y)
  end.
(** The clock readings of the batch follow each other. *)
Fixpoint ordered (from : Z) (turns : list Turn) : Prop :=
  match turns with [] => True | t :: rest => from <= now_at t <= stored_at t /\ ordered (stored_at t) rest end.
(** Settled in time: every publication so far took at most its timeout, and everything
    else together less than a second. *)
Definition in_time (c : OutboxConfig) (leased_at : Z) (i : nat) (t : Turn) : Prop :=
  1000 * (now_at t - leased_at) <= (Z.of_nat i + 1) * publication_timeout c + 999999000.

(** A validated lease outlasts a batch that is in time. *)
Lemma lease_covers_batch c leased_at i t : config_validate c = Ok tt -> 0 <= publication_timeout c -> (i < Z.to_nat (claim_batch c))%nat -> in_time c leased_at i t ->
  now_at t < leased_at + duration_micros (lease_duration c).
Proof.
  intros Hc Hpos Hi Ht. unfold config_validate, checked_duration, Duration.from_secs, Duration.nanos_per_sec, between, MAX_CLAIM_BATCH,
    MAX_LEASE_DURATION, Duration.from_secs, Duration.nanos_per_sec in Hc. inv_ok.
  repeat match goal with Hx : (if ?b then Some ?a else None) = Some _ |- _ => destruct b eqn:?; [injection Hx as <-|done] end.
  match goal with Hx : _ ≫= _ = Some _ |- _ => rename Hx into Hw end.
  destruct (publication_timeout c * claim_batch c <=? Duration.MAX); [|done]. cbn in Hw. destruct (_ <=? _) in Hw; [|done].
  injection Hw as <-. unfold in_time in Ht. unfold duration_micros.
  assert (Hmul : (Z.of_nat i + 1) * publication_timeout c <= publication_timeout c * claim_batch c) by nia.
  pose proof (Z.div_mod (lease_duration c) 1000 ltac:(done)) as Hdiv. pose proof (Z.mod_pos_bound (lease_duration c) 1000 ltac:(done)).
  assert (lease_duration c / 1000 <= i64_max) by (unfold i64_max; lia). rewrite Z.min_l by done. lia.
Qed.
Lemma relay_settles mine c until : config_validate c = Ok tt -> forall l x from,
  clock x <= from -> ordered from (map snd l) -> NoDup (map (fun p => leased_id p.1) l) ->
  Forall (fun p => held (table x) p.1 /\ mine (lease_token p.1) /\ lease_expires_at p.1 = until) l ->
  Forall (fun p => db_fails p.2 = None /\ now_at p.2 < until) l -> alongside mine c l x ->
  exists s, relay_batch c l (table x) = (map (fun p => settled_label (answer p.2)) l, true, s).
Proof.
  intros Hc. induction l as [|[e t] l IH]; intros x from Hk Ho Hd Hh Ht Ha; [by eexists|]. cbn in Ho, Hd. destruct Ho as [Ho1 Ho2].
  apply NoDup_cons in Hd as [Hn Hd]. apply Forall_cons in Hh as [(Hhe & Hme & Hue) Hh]. apply Forall_cons in Ht as [(Hdb & Hnow) Ht].
  cbn in Ha. destruct Ha as (y & Hsteps & Htab & Hcy & Ha). cbn in *.
  assert (Hset : settle c e t (table y) = (Ok tt, alter (settled_row c t) (leased_id e) (table y))).
  { rewrite settle_spec by done. by rewrite (held_holder (table y) e t); [|by eapply held_steps; [| | |lia]|lia]. }
  rewrite Hdb, <- Htab, Hset. set (z := after_settle c e t y) in *.
  assert (Htz : table z = alter (settled_row c t) (leased_id e) (table y)) by (unfold z, after_settle; cbn; by rewrite Hset).
  destruct (IH z (stored_at t)) as (s & Hs); [cbn; lia | done | done | | done | done |].
  - rewrite Forall_forall in Hh |- *. intros [e' t'] Hin. destruct (Hh _ Hin) as (Hhe' & Hme' & Hue'). cbn in *. split_and!; [|done|done].
    assert (Hhy : held (table y) e') by (eapply held_steps; [exact Hsteps | done | done | lia]).
    destruct Hhy as (r & lo & Hr & Hrest). exists r, lo. split; [|done]. rewrite Htz, lookup_alter_ne; [done|]. intros Heq. apply Hn.
    apply list_elem_of_fmap. exists (e', t'). by split.
  - exists s. by rewrite <- Htz, Hs.
Qed.

(** C10. A relay that is in time settles its batch: when every publication keeps to its
    timeout, the rest takes less than a second in all and the settling statements do not
    fail, each lease of a claimed batch is still held when its event is settled, whatever
    other relays, appends and cleanups do between any two statements of the relay; so
    every accepted event is marked published, every other one is rescheduled, and no lease
    is lost. *)
Theorem relay_in_time_settles x c tokens locked now at_ events s' turns : reachable x -> config_validate c = Ok tt ->
  fresh_tokens c tokens (claims x) -> clock x <= now <= at_ -> claim c tokens locked now at_ (table x) = (Ok events, s') ->
  length turns = length events -> ordered at_ turns -> 0 <= publication_timeout c ->
  (forall i t, turns !! i = Some t -> in_time c at_ i t /\ db_fails t = None) ->
  alongside (fun tok => tok ∈ tokens) c (zip events turns) (after_claim c tokens locked now at_ x) ->
  exists s'', relay_batch c (zip events turns) s' = (map (fun t => settled_label (answer t)) turns, true, s'').
Proof.
  intros Hx Hc Hf Hk Hcl Hlen Ho Hpos Ht Hal. apply outbox_reachable_inv in Hx.
  destruct (claim_decodes x c tokens locked now at_ Hx Hc Hf) as (es & Hcl' & Hdec). set (y := after_claim c tokens locked now at_ x) in *.
  assert (Hty : table y = list_to_map (claimed_rows c tokens locked now at_ (table x)) ∪ table x) by (unfold y, after_claim; cbn; by rewrite Hcl').
  rewrite Hcl' in Hcl. injection Hcl as -> <-.
  set (s' := list_to_map (claimed_rows c tokens locked now at_ (table x)) ∪ table x).
  assert (Hsnd : map snd (zip events turns) = turns) by (apply snd_zip; lia).
  assert (Hfst : map fst (zip events turns) = events) by (apply fst_zip; lia).
  destruct (relay_settles (fun tok => tok ∈ tokens) c (at_ + duration_micros (lease_duration c)) Hc (zip events turns) y at_) as (s'' & Hs).
  - done.
  - by rewrite Hsnd.
  - rewrite <- (map_map fst leased_id), Hfst, (decoded_ids _ _ Hdec). destruct Hf as (T1 & _).
    rewrite (updated_fst c locked now (table x) tokens at_ T1). apply selected_nodup.
  - apply Forall_forall. intros [e t] Hin. assert (He : e ∈ events) by (rewrite <- Hfst; by apply (list_elem_of_fmap_2 fst _ (e, t))).
    destruct (claim_event x c tokens locked now at_ events e Hx Hc Hf Hdec He) as (r & Hr & Hcla & _ & Hs' & Hrow & Hexp & Hlog). cbn.
    split_and!; [|by eapply zip_token_in|done]. exists (leased e). eexists. split; [exact (eq_trans (f_equal (fun m : OutboxTable => m !! leased_id e) Hty) Hs')|]. rewrite Hrow.
    unfold claimable in Hcla. rewrite !andb_true_iff in Hcla. destruct Hcla as [[[Hu _] _] _]. split_and!; [done | done | done | by rewrite Hexp].
  - apply Forall_forall. intros [e t] [i Hi]%list_elem_of_lookup_1. assert (Hti : turns !! i = Some t) by (rewrite <- Hsnd, list_lookup_fmap, Hi; done).
    destruct (Ht i t Hti) as (Hin & Hdb). cbn. split; [done|]. apply (lease_covers_batch c at_ i t Hc Hpos); [|done].
    apply lookup_lt_Some in Hti. rewrite Hlen, <- (length_map leased_id), (decoded_ids _ _ Hdec) in Hti. destruct Hf as (T1 & _).
    rewrite (updated_fst c locked now (table x) tokens at_ T1), length_fmap in Hti.
    pose proof (selected_length c locked now (table x)). lia.
  - exact Hal.
  - exists s''. unfold s'. rewrite <- Hty, Hs, <- (map_map snd (fun t => settled_label (answer t))), Hsnd. done.
Qed.

(** ** The backlog *)
Definition count_in (p : OutboxRow -> bool) (l : list (Z * OutboxRow)) : Z := Z.of_nat (length (filter (fun x => p x.2 = true) l)).
Lemma count_in_cons p x l : count_in p (x :: l) = (if p x.2 then 1 else 0) + count_in p l.
Proof. unfold count_in. rewrite filter_cons. destruct (p x.2) eqn:E; case_decide; simpl; try congruence; lia. Qed.
Lemma count_split (u a b d e : OutboxRow -> bool) l :
  (forall r, (if u r then 1 else 0) = (if a r then 1 else 0) + (if b r then 1 else 0) + (if d r then 1 else 0) + (if e r then 1 else 0)) ->
  count_in u l = count_in a l + count_in b l + count_in d l + count_in e l.
Proof. intros Hr. induction l as [|x l IH]; [done|]. rewrite !count_in_cons, IH, Hr. lia. Qed.
Lemma count_in_le p l : 0 <= count_in p l <= Z.of_nat (length l).
Proof. unfold count_in. split; [lia|]. apply inj_le. apply length_filter. Qed.
Lemma count_in_ext p q l : (forall r, p r = q r) -> count_in p l = count_in q l.
Proof. intros Hpq. induction l as [|x l IH]; [done|]. by rewrite !count_in_cons, IH, Hpq. Qed.
Lemma oldest_created_spec s : match oldest_created s with
  | None => forall id r, s !! id = Some r -> is_unpublished r = false
  | Some t => (exists id r, s !! id = Some r /\ is_unpublished r = true /\ row_created_at r = t)
              /\ forall id r, s !! id = Some r -> is_unpublished r = true -> t <= row_created_at r
  end.
Proof.
  unfold oldest_created. apply (map_fold_weak_ind (fun acc (m : OutboxTable) => match acc with
    | None => forall id r, m !! id = Some r -> is_unpublished r = false
    | Some t => (exists id r, m !! id = Some r /\ is_unpublished r = true /\ row_created_at r = t)
                /\ forall id r, m !! id = Some r -> is_unpublished r = true -> t <= row_created_at r end)); [done|].
  intros i r m acc Hi IH. destruct (is_unpublished r) eqn:Eu.
  - destruct acc as [t|].
    + destruct IH as [(i' & r' & Hr' & Hu' & Hc') IH]. split.
      * destruct (Z.min_spec t (row_created_at r)) as [[_ ->]|[_ ->]]; [exists i', r' | exists i, r].
        { split; [|done]. rewrite lookup_insert_ne; [done|]. congruence. }
        { by rewrite lookup_insert_eq. }
      * intros j rj Hj Huj. apply lookup_insert_Some in Hj as [[<- <-]|[_ Hj]]; [lia|]. specialize (IH _ _ Hj Huj). lia.
    + split; [exists i, r; by rewrite lookup_insert_eq|]. intros j rj Hj Huj. apply lookup_insert_Some in Hj as [[<- <-]|[_ Hj]]; [lia|].
      by rewrite (IH _ _ Hj) in Huj.
  - destruct acc as [t|].
    + destruct IH as [(i' & r' & Hr' & Hu' & Hc') IH]. split.
      * exists i', r'. split; [|done]. rewrite lookup_insert_ne; [done|]. congruence.
      * intros j rj Hj Huj. apply lookup_insert_Some in Hj as [[<- <-]|[_ Hj]]; [congruence | by eapply IH].
    + intros j rj Hj. apply lookup_insert_Some in Hj as [[<- <-]|[_ Hj]]; [done | by eapply IH].
Qed.
Lemma count_zero p (s : OutboxTable) : count_rows p s = 0 <-> forall id r, s !! id = Some r -> p r = false.
Proof.
  unfold count_rows. split.
  - intros Hz id r Hr. destruct (p r) eqn:Ep; [|done]. exfalso.
    assert (Hin : (id, r) ∈ filter (fun x : Z * OutboxRow => p x.2 = true) (map_to_list s)) by (apply list_elem_of_filter; split; [done | by apply elem_of_map_to_list]).
    destruct (filter _ _); [by apply not_elem_of_nil in Hin | simpl in Hz; lia].
  - intros Hall. destruct (filter _ _) as [|[id r] l] eqn:Ef; [done|]. exfalso.
    assert (Hin : (id, r) ∈ filter (fun x : Z * OutboxRow => p x.2 = true) (map_to_list s)) by (rewrite Ef; by left).
    apply list_elem_of_filter in Hin as [Hp Hin]. apply elem_of_map_to_list in Hin. cbn in Hp. by rewrite (Hall _ _ Hin) in Hp.
Qed.

Lemma decode_nonnegative_ok n : 0 <= n -> decode_nonnegative_i64 n = Ok n.
Proof. intros Hn. unfold decode_nonnegative_i64. by rewrite (proj2 (Z.ltb_ge n 0)). Qed.
Lemma decode_backlog_ok total r d a x age : 0 <= r -> 0 <= d -> 0 <= a -> 0 <= x -> total = r + d + a + x -> total <= u64_max ->
  match age with Some n => 0 <= n /\ total <> 0 | None => total = 0 end ->
  decode_backlog_status total r d a x age = Ok {| unpublished_total := total; ready := r; delayed := d; actively_leased := a; exhausted := x;
                                                  oldest_unpublished_age := (fun n => n * 1000) <$> age |}.
Proof.
  intros Hr Hd Ha Hx Ht Hmax Hage. unfold decode_backlog_status.
  do 5 (rewrite decode_nonnegative_ok by lia; cbn [mbind result_bind]).
  assert (Hadd : (n ← checked_add u64_max r d; n ← checked_add u64_max n a; checked_add u64_max n x) = Some total).
  { assert (checked_add u64_max r d = Some (r + d)) as -> by (apply checked_add_Some; lia). cbn [mbind option_bind].
    assert (checked_add u64_max (r + d) a = Some (r + d + a)) as -> by (apply checked_add_Some; lia). cbn [mbind option_bind].
    apply checked_add_Some. lia. }
  destruct age as [n|]; [destruct Hage as [Hn Hne]; rewrite (decode_nonnegative_ok n) by done|];
    cbn [mbind result_bind]; rewrite Hadd; cbn [ok_or mbind result_bind]; rewrite Z.eqb_refl.
  - by rewrite (proj2 (Z.eqb_neq total 0)) by done.
  - by rewrite Hage.
Qed.

(** The backlog adds up: in every store the outbox can produce, [backlog_status]
    succeeds; its four categories are disjoint and sum to the unpublished rows, the ready
    ones are exactly those a claim at the same moment could take, and the age is that of
    the oldest unpublished row. *)
Theorem backlog_adds_up x c observed : reachable x -> config_validate c = Ok tt -> clock x <= observed ->
  Z.of_nat (size (table x)) <= i64_max ->
  exists b, backlog_status c observed (table x) = Ok b
    /\ unpublished_total b = count_rows is_unpublished (table x)
    /\ ready b = count_rows (claimable (cfg_max_attempts c) observed) (table x)
    /\ unpublished_total b = ready b + delayed b + actively_leased b + exhausted b
    /\ match oldest_unpublished_age b with
       | None => forall id r, table x !! id = Some r -> is_unpublished r = false
       | Some age => exists id r, table x !! id = Some r /\ is_unpublished r = true /\ age = 1000 * (observed - row_created_at r)
                       /\ forall id' r', table x !! id' = Some r' -> is_unpublished r' = true -> row_created_at r <= row_created_at r'
       end.
Proof.
  intros Hx Hc Hk Hsize. apply outbox_reachable_inv in Hx as (I1 & _). destruct (outbox_config_bounds c Hc) as (_ & _ & Hm).
  unfold backlog_status, guard_err. destruct (Z.ltb_spec i32_max (cfg_max_attempts c)); [unfold i32_max in *; lia|]. cbn [mbind result_bind].
  set (m := cfg_max_attempts c). set (l := map_to_list (table x)).
  assert (Hl : Z.of_nat (length l) <= i64_max) by (unfold l; by rewrite length_map_to_list).
  set (pr := fun r => is_unpublished r && lease_over observed r && (attempt_count r <? m) && (available_at r <=? observed)).
  set (pd := fun r => is_unpublished r && lease_over observed r && (attempt_count r <? m) && (observed <? available_at r)).
  set (pa := fun r => is_unpublished r && match lease r with Some l0 => observed <? expires_at l0 | None => false end).
  set (pe := fun r => is_unpublished r && lease_over observed r && (m <=? attempt_count r)).
  assert (Hsum : count_in is_unpublished l = count_in pr l + count_in pd l + count_in pa l + count_in pe l).
  { apply count_split. intros r. unfold pr, pd, pa, pe, lease_over. destruct (is_unpublished r); [|done]. destruct (lease r) as [lo|]; cbn.
    - destruct (Z.leb_spec (expires_at lo) observed), (Z.ltb_spec observed (expires_at lo)), (Z.ltb_spec (attempt_count r) m),
        (Z.leb_spec m (attempt_count r)), (Z.leb_spec (available_at r) observed), (Z.ltb_spec observed (available_at r)); cbn; lia.
    - destruct (Z.ltb_spec (attempt_count r) m), (Z.leb_spec m (attempt_count r)), (Z.leb_spec (available_at r) observed),
        (Z.ltb_spec observed (available_at r)); cbn; lia. }
  assert (Hready : count_in pr l = count_rows (claimable m observed) (table x)).
  { change (count_rows (claimable m observed) (table x)) with (count_in (claimable m observed) l). apply count_in_ext. intros r.
    unfold pr, claimable. destruct (is_unpublished r), (lease_over observed r), (attempt_count r <? m), (available_at r <=? observed); done. }
  pose proof (count_in_le is_unpublished l). pose proof (count_in_le pr l). pose proof (count_in_le pd l). pose proof (count_in_le pa l).
  pose proof (count_in_le pe l). pose proof (oldest_created_spec (table x)) as Hold. pose proof (count_zero is_unpublished (table x)) as Hzero.
  change (count_rows is_unpublished (table x)) with (count_in is_unpublished l) in *.
  eexists. split.
  - apply (decode_backlog_ok (count_in is_unpublished l) (count_in pr l) (count_in pd l) (count_in pa l) (count_in pe l)); try lia.
    + unfold i64_max, u64_max in *. lia.
    + destruct (oldest_created (table x)) as [t|]; cbn.
      * destruct Hold as [(id & r & Hr & Hu & <-) _]. destruct (I1 _ _ Hr) as (_ & _ & _ & _ & _ & _ & R7). split; [lia|].
        intros Hz. rewrite (proj1 Hzero Hz _ _ Hr) in Hu. done.
      * by apply Hzero.
  - cbn. split_and!; [done | done | done |]. destruct (oldest_created (table x)) as [t|]; cbn; [|done].
    destruct Hold as [(id & r & Hr & Hu & <-) Hmin]. exists id, r. split_and!; [done | done | lia | done].
Qed.

(** ** The relay's code is a history *)
(** What one relay does with a batch it claimed, whatever the database and the publisher
    do, is a sequence of the transactions above: so the events it handles are not lost
    either. *)
Lemma steps_claims mine x y id : rtc (step mine) x y -> id ∈ claims x -> id ∈ claims y.
Proof. induction 1 as [|x y z Hs _ IH]; [done|]. intros Hin. apply IH. destruct Hs; cbn; try done. apply elem_of_app. by right. Qed.
Lemma settle_is_step c e t x : config_validate c = Ok tt -> (leased_id e, lease_token e) ∈ claims x -> classified (answer t) ->
  clock x <= now_at t <= stored_at t ->
  rtc (step nobody) x (after_settle c e t x).
Proof.
  intros Hc Hin Hcl Hk. unfold after_settle. destruct (settle c e t (table x)) as [r s'] eqn:Es. cbn.
  set (y := {| table := table x; clock := clock x; appended := appended x; claims := claims x;
               accepted := match answer t with Accepted => {[leased_id e]} ∪ accepted x | _ => accepted x end; dropped := dropped x |}).
  assert (Hxy : rtc (step nobody) x y).
  { unfold y. destruct (answer t); [apply rtc_once, (step_accept nobody (leased_id e) x)|by destruct x..]. }
  eapply rtc_r; [exact Hxy|].
  apply (step_settle nobody c e t r s' y); [done | by intros [] | done | intros Hans; unfold y; cbn; rewrite Hans; set_solver | done | done | exact Es].
Qed.
Theorem relay_is_history c : config_validate c = Ok tt -> forall l x,
  clock x <= match l with [] => clock x | p :: _ => now_at p.2 end -> ordered (clock x) (map snd l) ->
  Forall (fun p => (leased_id p.1, lease_token p.1) ∈ claims x /\ classified (answer p.2)) l -> alongside nobody c l x ->
  exists y, rtc (step nobody) x y /\ table y = (relay_batch c l (table x)).2.
Proof.
  intros Hc. induction l as [|[e t] l IH]; intros x Hk Ho Hl Ha; [by exists x|]. cbn in Ho. destruct Ho as [Ho1 Ho2].
  apply Forall_cons in Hl as [(Hin & Hcl) Hl]. cbn in Ha. destruct Ha as (y & Hsteps & Htab & Hcy & Ha). cbn in *. rewrite <- Htab.
  pose proof (settle_is_step c e t y Hc (steps_claims _ _ _ _ Hsteps Hin) Hcl ltac:(lia)) as Hz. set (z := after_settle c e t y) in *.
  assert (Htz : table z = (settle c e t (table y)).2) by done. assert (Hcz : clock z = stored_at t) by done.
  destruct (db_fails t) as [eff|].
  { cbn. destruct eff; [|by exists y]. exists z. split; [by etrans | done]. }
  assert (Hxz : rtc (step nobody) x z) by (by etrans).
  assert (Hnext : exists w, rtc (step nobody) z w /\ table w = (relay_batch c l (table z)).2).
  { apply IH.
    - destruct l as [|[e' t'] l]; [lia|]. cbn in Ho2 |- *. lia.
    - by rewrite Hcz.
    - eapply Forall_impl; [exact Hl|]. intros [e' t'] (Hin' & Hcl'). split; [|done]. by eapply steps_claims.
    - exact Ha. }
  destruct Hnext as (w & Hw & Htw). rewrite Htz in Htw. rewrite settle_spec in Htw, Htz |- * by done.
  destruct (holder e t (table y)); cbn in Htw |- *; destruct (relay_batch c l _) as [[ls b] s''] eqn:Eb; cbn in *;
    exists w; (split; [by etrans | done]).
Qed.
End theorems.

(** ** A concrete outbox: one event appended, claimed, taken over and settled *)
Module OutboxExamples.
Import JobExamples EventExamples.
#[local] Existing Instance uuids.
#[local] Existing Instance uuid_laws.
#[local] Existing Instance event_json.
#[local] Existing Instance event_json_laws.
#[local] Existing Instance paid.
#[local] Existing Instance paid_laws.
#[local] Instance database : Database := {|
  timestamptz t := unix_nanos t / 1000;
  jsonb t := Some {| jsonb_text := t; jsonb_is_object := starts_with "{" t |};
|}.
#[local] Instance database_laws : DatabaseLaws.
Proof. split. by intros t j [= <-]. Defined.

(** A relay that claims one event at a time. *)
Definition config1 : OutboxConfig :=
  {| enabled := true; lease_owner := "relay-1"; claim_batch := 1; poll_interval := Duration.from_millis 250;
     lease_duration := Duration.from_secs 120; publication_timeout := Duration.from_secs 5; retry_delay := Duration.from_secs 5;
     shutdown_timeout := Duration.from_secs 120; cfg_max_attempts := 20; retention := Duration.from_secs 2592000;
     cleanup_batch := 500; restart := OutboxRestartConfig_default |}.
Definition token1 : Z := Z.shiftl 7 76 + 11.
Definition token2 : Z := Z.shiftl 7 76 + 12.
Definition table1 : OutboxTable := (append 20 event0 "order" "1" "events" now0 EventLimits_default ∅).2.
Definition x1 : System := {| table := table1; clock := 20; appended := {[ID]} ∪ ∅; claims := []; accepted := ∅; dropped := [] |}.
Definition x2 : System :=
  {| table := (claim config1 [token1] ∅ 30 31 table1).2; clock := 31; appended := {[ID]} ∪ ∅;
     claims := claim_log config1 [token1] ∅ 30 table1 ++ []; accepted := ∅; dropped := [] |}.
(** The first lease runs out, and another relay claims the event. *)
Definition late : Z := 31 + 120 * 1000000.
Definition x3 : System :=
  {| table := (claim config1 [token2] ∅ late late (table x2)).2; clock := late; appended := {[ID]} ∪ ∅;
     claims := claim_log config1 [token2] ∅ late (table x2) ++ claims x2; accepted := ∅; dropped := [] |}.
Lemma config1_valid : config_validate config1 = Ok tt.
Proof. by vm_compute. Qed.
Lemma tokens_fresh tok l : get_version_num tok = 7 -> tok ∉ l.*2 -> fresh_tokens config1 [tok] l.
Proof. intros Hv Hn. split; [done|]. split; [apply NoDup_singleton|]. by apply Forall_singleton. Qed.
Lemma token1_version : get_version_num token1 = 7.
Proof. by vm_compute. Qed.
Lemma token2_version : get_version_num token2 = 7.
Proof. by vm_compute. Qed.
Lemma claims2 : claims x2 = [(ID, token1)].
Proof. by vm_compute. Qed.
Lemma claims3 : claims x3 = [(ID, token2); (ID, token1)].
Proof. by vm_compute. Qed.
Lemma step1 : step nobody (empty_outbox 10) x1.
Proof.
  apply (step_append nobody paid paid_laws 20 event0 "order" "1" "events" now0 EventLimits_default ID table1 (empty_outbox 10)).
  - exact event0_typed.
  - by vm_compute.
  - apply not_elem_of_empty.
  - by vm_compute.
  - by vm_compute.
Qed.
Lemma step2 : step nobody x1 x2.
Proof.
  apply (step_claim nobody config1 [token1] ∅ 30 31 (claim config1 [token1] ∅ 30 31 table1).1 _ x1).
  - exact config1_valid.
  - apply tokens_fresh; [exact token1_version | apply not_elem_of_nil].
  - by vm_compute.
  - apply surjective_pairing.
Qed.
Lemma token2_new : token2 ∉ (claims x2).*2.
Proof. rewrite claims2. cbn [fmap list_fmap snd]. rewrite list_elem_of_singleton. by vm_compute. Qed.
Lemma step3 : step nobody x2 x3.
Proof.
  apply (step_claim nobody config1 [token2] ∅ late late (claim config1 [token2] ∅ late late (table x2)).1 _ x2).
  - exact config1_valid.
  - apply tokens_fresh; [exact token2_version | exact token2_new].
  - by vm_compute.
  - apply surjective_pairing.
Qed.
Lemma x1_reachable : reachable x1.
Proof. exists 10. apply rtc_once, step1. Qed.
Lemma x2_reachable : reachable x2.
Proof. exists 10. eapply rtc_r; [apply rtc_once, step1 | apply step2]. Qed.
Lemma x3_reachable : reachable x3.
Proof. exists 10. eapply rtc_r; [eapply rtc_r; [apply rtc_once, step1 | apply step2] | apply step3]. Qed.

Lemma no_event_lost_witness : ID ∈ appended x2
  /\ ((exists r, table x2 !! ID = Some r /\ is_unpublished r = true) \/ ID ∈ accepted x2
      \/ exists m, (ID, m) ∈ dropped x2 /\ 1 <= m <= Z.of_nat (length (claims_of ID (claims x2)))).
Proof.
  split; [cbn [appended x2]; set_solver|]. apply (no_event_lost x2 ID x2_reachable). cbn [appended x2]. set_solver.
Defined.
(** The first relay comes back after its lease ran out and another one took over. *)
Lemma leases_fence_witness : mark_published ID token1 late late (table x3) = (Err LostLease, table x3).
Proof.
  destruct (leases_fence x3 ID token1 late late "timeout" (Duration.from_secs 5) x3_reachable) as [Hf _].
  apply Hf; [rewrite claims3; by vm_compute | by vm_compute].
Defined.
Lemma claim_in_order_witness : exists events s', claim config1 [token2] ∅ late late (table x2) = (Ok events, s')
  /\ NoDup (map leased_id events).
Proof.
  destruct (claim_in_order x2 config1 [token2] ∅ late late) as (events & s' & Hc & Hd & _).
  - exact x2_reachable.
  - exact config1_valid.
  - apply tokens_fresh; [exact token2_version | exact token2_new].
  - exists events, s'. exact (conj Hc Hd).
Defined.
(** One publication that is accepted in time, while another event is appended and another
    relay claims it. *)
Definition event1 : EventEnvelope unit :=
  {| ev := {| event_id := ID + 1; event_type := "order.paid.v2"; event_version := 2; event_source := "billing"; event_subject := "orders/1";
              event_tenant := None; occurred_at := now0; event_correlation := ID; event_causation := None; event_traceparent := None;
              event_metadata := metadata0 |};
     data := tt |}.
Lemma event1_typed : event_typed (ev event1).
Proof.
  refine (conj _ (conj _ (conj _ (conj _ (conj _ (conj _ (conj _ (conj _ (conj metadata0_wf _))))))))).
  1, 6: split; by vm_compute.
  1, 2, 3: by vm_compute.
  1, 2, 3: done.
  by apply map_Forall_singleton.
Qed.
Definition rival_append (s : OutboxTable) : OutboxTable := (append 500 event1 "order" "1" "events" now0 EventLimits_default s).2.
Definition rival_claim (s : OutboxTable) : OutboxTable := (claim config1 [token2] ∅ 600 601 s).2.
Definition turn1 : Turn :=
  {| meanwhile := fun s => rival_claim (rival_append s); answer := Accepted; now_at := 1000; stored_at := 1001; db_fails := None |}.
Definition claimed1 : list LeasedOutboxEvent := match (claim config1 [token1] ∅ 30 31 table1).1 with Ok l => l | Err _ => [] end.
Definition y1 : System := after_claim config1 [token1] ∅ 30 31 x1.
Definition y2 : System :=
  {| table := rival_append (table y1); clock := 500; appended := {[ID + 1]} ∪ appended y1; claims := claims y1; accepted := ∅; dropped := [] |}.
Definition y3 : System :=
  {| table := rival_claim (table y2); clock := 601; appended := appended y2;
     claims := claim_log config1 [token2] ∅ 600 (table y2) ++ claims y2; accepted := ∅; dropped := [] |}.
Lemma rivals_run : rtc (step (fun tok => tok ∈ [token1])) y1 y3.
Proof.
  eapply rtc_l; [|apply rtc_once].
  - apply (step_append _ paid paid_laws 500 event1 "order" "1" "events" now0 EventLimits_default (ID + 1) (table y2) y1).
    + exact event1_typed.
    + by vm_compute.
    + cbn [appended y1 after_claim x1 event_id ev event1]. rewrite elem_of_union, elem_of_singleton. intros [E|[]%not_elem_of_empty]. clear -E. lia.
    + by vm_compute.
    + by vm_compute.
  - apply (step_claim _ config1 [token2] ∅ 600 601 (claim config1 [token2] ∅ 600 601 (table y2)).1 _ y2).
    + exact config1_valid.
    + apply tokens_fresh; [exact token2_version | exact token2_new].
    + by vm_compute.
    + apply surjective_pairing.
Qed.
Lemma rival_works : option_map token (table y3 !! (ID + 1) ≫= lease) = Some token2.
Proof. by vm_compute. Qed.
Lemma alongside_one mine c l t x y : rtc (step mine) x y -> table y = meanwhile t (table x) -> clock y <= now_at t ->
  alongside mine c (zip l [t]) x.
Proof. intros Hs Ht Hc. destruct l as [|e l]; [done|]. exists y. by destruct l. Qed.
Lemma relay_in_time_settles_witness : exists s, relay_batch config1 (zip claimed1 [turn1]) (table x2) = (["ok"], true, s).
Proof.
  apply (relay_in_time_settles x1 config1 [token1] ∅ 30 31 claimed1 (table x2) [turn1]).
  - exact x1_reachable.
  - exact config1_valid.
  - apply tokens_fresh; [exact token1_version | apply not_elem_of_nil].
  - by vm_compute.
  - by vm_compute.
  - by vm_compute.
  - by vm_compute.
  - by vm_compute.
  - intros i t Ht. apply list_lookup_singleton_Some in Ht as [-> <-]. split; [by vm_compute | done].
  - apply (alongside_one _ _ _ _ _ y3); [exact rivals_run | reflexivity | by vm_compute].
Defined.
Lemma backlog_adds_up_witness : exists b, backlog_status config1 40 (table x2) = Ok b
  /\ unpublished_total b = ready b + delayed b + actively_leased b + exhausted b.
Proof.
  destruct (backlog_adds_up x2 config1 40) as (b & Hb & _ & _ & Hs & _).
  - exact x2_reachable.
  - exact config1_valid.
  - by vm_compute.
  - by vm_compute.
  - exists b. exact (conj Hb Hs).
Defined.
(** A source may start with a dash, and such an event can be encoded, but the table
    refuses it. *)
Definition dashed : EventEnvelope unit :=
  {| ev := {| event_id := ID; event_type := "order.paid.v2"; event_version := 2; event_source := "-billing"; event_subject := "orders/1";
              event_tenant := None; occurred_at := now0; event_correlation := ID; event_causation := None; event_traceparent := None;
              event_metadata := metadata0 |};
     data := tt |}.
Lemma leading_dash_refused : text.source "-billing" = Ok tt /\ event_encode dashed EventLimits_default = Ok "{document}"
  /\ append 20 dashed "order" "1" "events" now0 EventLimits_default ∅ = (Err DatabaseError, ∅).
Proof. split_and!; by vm_compute. Qed.
End OutboxExamples.
