(* ===== verification/Transactions.v ===== *)
(** * Repeatable transactions: [crates/postgres/src/transaction.rs]

    What the pool, the database and rival transactions do around each execution of the
    closure is a script, one [Attempt] for each pass of the loop.  A transaction that is
    rolled back leaves the database as it found it; a commit that fails may have taken
    effect or not.  Metrics and logging are left out, and sleeping is the list of
    delays. *)
From S2P Require Import Prelude Machine Text.

Definition MAX_TX_ATTEMPTS : Z := 10.
Definition MAX_BASE_DELAY : Z := Duration.from_secs 5.
Definition MAX_DELAY : Z := Duration.from_secs 30.
Definition MAX_JITTER : Z := Duration.from_secs 5.

Inductive TransactionIsolation := ReadCommitted | RepeatableRead | Serializable.
Definition begin_statement (i : TransactionIsolation) : string :=
  match i with
  | ReadCommitted => "BEGIN ISOLATION LEVEL READ COMMITTED"
  | RepeatableRead => "BEGIN ISOLATION LEVEL REPEATABLE READ"
  | Serializable => "BEGIN ISOLATION LEVEL SERIALIZABLE"
  end.
Record TransactionRetryConfig := {
  tx_attempts : Z;
  base_delay : Z;
  max_delay : Z;
  max_jitter : Z;
  isolation : TransactionIsolation;
}.
Inductive TransactionRetryConfigError := InvalidAttempts | InvalidDelay.
Definition retry_config_validate (c : TransactionRetryConfig) : result TransactionRetryConfigError unit :=
  _ ← guard_err ((tx_attempts c =? 0) || (MAX_TX_ATTEMPTS <? tx_attempts c)) InvalidAttempts;
  guard_err ((base_delay c <? Duration.from_millis 1) || (MAX_BASE_DELAY <? base_delay c) || (max_delay c <? base_delay c)
             || (MAX_DELAY <? max_delay c) || (MAX_JITTER <? max_jitter c)) InvalidDelay.

(** A driver's error, as its SQLSTATE if the database gave one. *)
Abbreviation SqlxError := (option string).
Inductive RetryableSqlState := SerializationFailure | DeadlockDetected.
Definition from_sqlx (e : SqlxError) : option RetryableSqlState :=
  match e with
  | Some code =>
      if bool_decide (code = "40001") then Some SerializationFailure
      else if bool_decide (code = "40P01") then Some DeadlockDetected
      else None
  | None => None
  end.
Definition sql_state_str (s : RetryableSqlState) : string :=
  match s with SerializationFailure => "40001" | DeadlockDetected => "40P01" end.
Class RetryableTransactionError (E : Type) := retryable_sql_state : E -> option RetryableSqlState.
#[global] Instance sqlx_retryable : RetryableTransactionError SqlxError := from_sqlx.

(** ** Delays *)
Definition wrapping_mul64 (a b : Z) : Z := (a * b) mod 2 ^ 64.
Definition splitmix (value : Z) : Z :=
  let value := wrapping_mul64 (Z.lxor value (Z.shiftr value 30)) 13787848793156543929 in
  let value := wrapping_mul64 (Z.lxor value (Z.shiftr value 27)) 10723151780598845931 in
  Z.lxor value (Z.shiftr value 31).
Definition u64_or_max (n : Z) : Z := if n <=? u64_max then n else u64_max.
Definition retry_delay (c : TransactionRetryConfig) (attempt seed : Z) : Z :=
  let exponent := Z.min (Z.max (attempt - 1) 0) 31 in
  let backoff := Z.min (Duration.saturating_mul (base_delay c) (Z.shiftl 1 exponent)) (max_delay c) in
  let jitter_nanos := u64_or_max (max_jitter c) in
  let jitter := if jitter_nanos =? 0 then 0
                else splitmix (Z.lxor seed attempt) mod Z.min (jitter_nanos + 1) u64_max in
  Duration.saturating_add backoff jitter.
Definition jitter_seed (nanos process : Z) : Z :=
  let folded := if nanos <=? u64_max then nanos
                else Z.lxor (u64_or_max (Z.shiftr nanos 64)) (Z.land nanos u64_max) in
  splitmix (Z.lxor folded process).

(** ** The loop *)
Inductive TransactionRunError (E : Type) :=
| Acquire | Begin | Operation (e : E) | Rollback | Commit | RetryExhausted (attempts : Z) (last_error : E).
#[global] Arguments Acquire {E}.
#[global] Arguments Begin {E}.
#[global] Arguments Operation {E} e.
#[global] Arguments Rollback {E}.
#[global] Arguments Commit {E}.
#[global] Arguments RetryExhausted {E} attempts last_error.

(** One pass: whether a connection is acquired and the transaction begun, what rivals do
    until it is isolated, what the closure does, whether the rollback is confirmed, how
    the commit ends ([None]: well; [Some effective]: it fails, with or without effect),
    and the value of the shared sequence. *)
Record Attempt (S E T : Type) := {
  acquired : bool;
  begun : bool;
  rivals : S -> S;
  closure : S -> result E T * S;
  rolled_back : bool;
  commit_fails : option bool;
  sequence : Z;
}.
#[global] Arguments acquired {S E T} a.
#[global] Arguments begun {S E T} a.
#[global] Arguments rivals {S E T} a s : rename.
#[global] Arguments closure {S E T} a s : rename.
#[global] Arguments rolled_back {S E T} a.
#[global] Arguments commit_fails {S E T} a.
#[global] Arguments sequence {S E T} a.

Section run.
Context {S E T : Type} `{RetryableTransactionError E}.
(** [None] is the [unreachable!] after the loop. *)
Fixpoint run_from (c : TransactionRetryConfig) (todo : nat) (attempt : Z) (env : nat -> Attempt S E T) (s : S)
    : option (result (TransactionRunError E) T) * S * list Z :=
  match todo with
  | O => (None, s, [])
  | Datatypes.S todo' =>
      let a := env (Z.to_nat attempt) in
      if negb (acquired a) then (Some (Err Acquire), s, []) else
      if negb (begun a) then (Some (Err Begin), s, []) else
      let s := rivals a s in
      match closure a s with
      | (Ok value, s') =>
          match commit_fails a with
          | Some effective => (Some (Err Commit), if effective then s' else s, [])
          | None => (Some (Ok value), s', [])
          end
      | (Err error, _) =>
          if negb (rolled_back a) then (Some (Err Rollback), s, []) else
          match retryable_sql_state error with
          | None => (Some (Err (Operation error)), s, [])
          | Some _ =>
              if attempt =? tx_attempts c then (Some (Err (RetryExhausted attempt error)), s, [])
              else let '(r, s'', delays) := run_from c todo' (attempt + 1) env s in
                   (r, s'', retry_delay c attempt (sequence a) :: delays)
          end
      end
  end.
Definition run_repeatable (c : TransactionRetryConfig) (env : nat -> Attempt S E T) (s : S)
    : option (result (TransactionRunError E) T) * S * list Z :=
  run_from c (Z.to_nat (tx_attempts c)) 1 env s.
End run.

(** ** The closure takes effect once *)
Section once.
Context {S E T : Type} `{RetryableTransactionError E}.
(** The database after the rivals of the passes [from .. from + n - 1], and nothing else. *)
Fixpoint rivals_only (env : nat -> Attempt S E T) (from n : nat) (s : S) : S :=
  match n with
  | O => s
  | Datatypes.S n' => rivals_only env (1 + from) n' (rivals (env from) s)
  end.
Lemma rivals_only_last env from n s : rivals_only env from (1 + n) s = rivals (env (from + n)%nat) (rivals_only env from n s).
Proof.
  revert from s. induction n as [|n IH]; intros from s; [simpl; by rewrite Nat.add_0_r|].
  change (rivals_only env from (1 + Datatypes.S n) s) with (rivals_only env (1 + from) (1 + n) (rivals (env from) s)).
  rewrite IH. simpl. do 2 f_equal. lia.
Qed.
(** What a run that ends in its [k]-th pass says about the database. *)
Definition run_ends (a : Attempt S E T) (s0 db s' : S) (r : result (TransactionRunError E) T) : Prop :=
  match r with
  | Ok value => closure a db = (Ok value, s')
  | Err Commit => exists value post, closure a db = (Ok value, post) /\ (s' = db \/ s' = post)
  | Err (Acquire | Begin) => s' = s0
  | Err Rollback => s' = db /\ exists e, (closure a db).1 = Err e
  | Err (Operation e) => s' = db /\ (closure a db).1 = Err e /\ retryable_sql_state e = None
  | Err (RetryExhausted _ e) => s' = db /\ (closure a db).1 = Err e /\ is_Some (retryable_sql_state e)
  end.
Lemma retry_delay_bounded c attempt seed : retry_config_validate c = Ok tt -> 0 <= max_jitter c -> 0 <= attempt ->
  0 <= retry_delay c attempt seed <= max_delay c + max_jitter c.
Proof.
  intros Hc Hj Ha. unfold retry_config_validate in Hc. inv_ok. unfold retry_delay, Duration.saturating_add, Duration.saturating_mul.
  assert (Hb : 0 <= base_delay c) by (unfold Duration.from_millis in *; blia). assert (Hm : base_delay c <= max_delay c) by blia.
  assert (HM : max_delay c <= MAX_DELAY) by blia. assert (HJ : max_jitter c <= MAX_JITTER) by blia.
  assert (Hu : u64_or_max (max_jitter c) = max_jitter c).
  { unfold u64_or_max. destruct (Z.leb_spec (max_jitter c) u64_max); [done|]. unfold MAX_JITTER, Duration.from_secs, Duration.nanos_per_sec, u64_max in *. lia. }
  rewrite Hu. assert (0 <= Z.shiftl 1 (Z.min (Z.max (attempt - 1) 0) 31)) by (apply Z.shiftl_nonneg; lia).
  set (p := Z.shiftl 1 _) in *. set (x := splitmix _). clearbody p x.
  assert (Hd : 0 <= Z.min (Z.min (base_delay c * p) Duration.MAX) (max_delay c) <= max_delay c).
  { split; [|lia]. apply Z.min_glb; [|lia]. apply Z.min_glb; [nia|]. by vm_compute. }
  destruct (Z.eqb_spec (max_jitter c) 0) as [->|Hne].
  - unfold MAX_DELAY, Duration.from_secs, Duration.nanos_per_sec, Duration.MAX, u64_max in *. lia.
  - rewrite (Z.min_l (max_jitter c + 1)) by (unfold MAX_JITTER, Duration.from_secs, Duration.nanos_per_sec, u64_max in *; lia).
    pose proof (Z.mod_pos_bound x (max_jitter c + 1) ltac:(lia)).
    set (w := x mod _) in *. clearbody w. set (d := Z.min _ (max_delay c)) in *. clearbody d.
    unfold MAX_JITTER, MAX_DELAY, Duration.MAX, Duration.from_secs, Duration.nanos_per_sec, u64_max in *. lia.
Qed.
Lemma run_from_ends c env : retry_config_validate c = Ok tt -> 0 <= max_jitter c -> forall todo attempt s,
  1 <= attempt -> Z.of_nat todo = tx_attempts c - attempt + 1 -> (1 <= todo)%nat ->
  exists n r s' delays, (n < todo)%nat /\ run_from c todo attempt env s = (Some r, s', delays) /\ length delays = n
    /\ Forall (fun d => 0 <= d <= max_delay c + max_jitter c) delays
    /\ (forall i, (i < n)%nat -> exists e, (closure (env (Z.to_nat attempt + i)%nat) (rivals_only env (Z.to_nat attempt) (1 + i) s)).1 = Err e
                                  /\ is_Some (retryable_sql_state e))
    /\ (forall k e, r = Err (RetryExhausted k e) -> k = tx_attempts c /\ attempt + Z.of_nat n = k)
    /\ run_ends (env (Z.to_nat attempt + n)%nat) (rivals_only env (Z.to_nat attempt) n s) (rivals_only env (Z.to_nat attempt) (1 + n) s) s' r.
Proof.
  intros Hc Hj. induction todo as [|todo IH]; intros attempt s Ha Hn Hpos; [lia|]. cbn [run_from].
  set (a := env (Z.to_nat attempt)).
  assert (Hstop : forall r s', run_ends a s (rivals a s) s' r -> (forall k e, r = Err (RetryExhausted k e) -> k = tx_attempts c /\ attempt = k) ->
    exists n r' s'' delays, (n < 1 + todo)%nat /\ (Some r, s', []) = (Some r', s'', delays) /\ length delays = n
    /\ Forall (fun d => 0 <= d <= max_delay c + max_jitter c) delays
    /\ (forall i, (i < n)%nat -> exists e, (closure (env (Z.to_nat attempt + i)%nat) (rivals_only env (Z.to_nat attempt) (1 + i) s)).1 = Err e
                                  /\ is_Some (retryable_sql_state e))
    /\ (forall k e, r' = Err (RetryExhausted k e) -> k = tx_attempts c /\ attempt + Z.of_nat n = k)
    /\ run_ends (env (Z.to_nat attempt + n)%nat) (rivals_only env (Z.to_nat attempt) n s) (rivals_only env (Z.to_nat attempt) (1 + n) s) s'' r').
  { intros r s' He Hx. exists 0%nat, r, s', []. rewrite Nat.add_0_r. split_and!; try done; [lia |].
    intros k e Hr. destruct (Hx k e Hr) as [-> ->]. split; [done | lia]. }
  destruct (acquired a); [|by apply Hstop]. destruct (begun a); [|by apply Hstop]. cbn [negb].
  destruct (closure a (rivals a s)) as [[value|error] s'] eqn:Ea.
  - destruct (commit_fails a) as [eff|]; apply Hstop; try done. exists value, s'. split; [done|]. destruct eff; [by right | by left].
  - destruct (rolled_back a); [|apply Hstop; [|done]; split; [done|]; exists error; by rewrite Ea]. cbn [negb].
    destruct (retryable_sql_state error) as [st|] eqn:Er; [|apply Hstop; [unfold run_ends; by rewrite Ea|done]].
    destruct (Z.eqb_spec attempt (tx_attempts c)) as [Heq|Hne].
    { apply Hstop; [unfold run_ends; rewrite Ea; split_and!; [done | done | by exists st]|]. by intros k e [= <- _]. }
    destruct (IH (attempt + 1) (rivals a s)) as (n & r & s'' & delays & H1 & H2 & H3 & H4 & H5 & H6 & H7); [lia | lia | lia |].
    rewrite H2. replace (Z.to_nat (attempt + 1)) with (1 + Z.to_nat attempt)%nat in * by lia.
    exists (1 + n)%nat, r, s'', (retry_delay c attempt (sequence a) :: delays). split_and!; [lia | done | simpl; lia | | | |].
    + constructor; [apply retry_delay_bounded; [done | done | lia] | done].
    + intros [|i] Hi; [rewrite Nat.add_0_r; exists error; split; [change ((closure a (rivals a s)).1 = Err error); by rewrite Ea | by exists st]|].
      destruct (H5 i ltac:(lia)) as (e & He & Hs). exists e. split; [|done]. replace (Z.to_nat attempt + Datatypes.S i)%nat with (1 + Z.to_nat attempt + i)%nat by lia. exact He.
    + intros k e Hr. destruct (H6 k e Hr). split; [done | lia].
    + replace (Z.to_nat attempt + (1 + n))%nat with (1 + Z.to_nat attempt + n)%nat by lia. exact H7.
Qed.

(** C17. A repeated transaction takes effect once: with a valid policy the loop never runs
    off its end; it stops in some pass [k], all earlier passes having failed with a
    transient error and left no trace; a successful run applied the closure exactly once,
    to the database its rivals left; only a failed commit leaves open whether it did; and
    every wait is within the configured bounds. *)
Theorem transaction_applied_once c (env : nat -> Attempt S E T) s : retry_config_validate c = Ok tt -> 0 <= tx_attempts c -> 0 <= max_jitter c ->
  exists k r s' delays, 1 <= Z.of_nat k <= tx_attempts c /\ run_repeatable c env s = (Some r, s', delays)
    /\ length delays = (k - 1)%nat /\ Forall (fun d => 0 <= d <= max_delay c + max_jitter c) delays
    /\ (forall i, (1 <= i < k)%nat -> exists e, (closure (env i) (rivals_only env 1 i s)).1 = Err e /\ is_Some (retryable_sql_state e))
    /\ (forall n e, r = Err (RetryExhausted n e) -> n = tx_attempts c /\ Z.of_nat k = n)
    /\ run_ends (env k) (rivals_only env 1 (k - 1) s) (rivals_only env 1 k s) s' r.
Proof.
  intros Hc Hn Hj. pose proof Hc as Hv. unfold retry_config_validate in Hv. inv_ok.
  destruct (run_from_ends c env Hc Hj (Z.to_nat (tx_attempts c)) 1 s) as (n & r & s' & delays & H1 & H2 & H3 & H4 & H5 & H6 & H7); [lia | lia | blia |].
  exists (1 + n)%nat, r, s', delays. change (Z.to_nat 1) with 1%nat in *. split_and!; [lia | lia | done | lia | done | | |].
  - intros i Hi. destruct (H5 (i - 1)%nat ltac:(lia)) as (e & He & Hs). exists e. replace (1 + (i - 1))%nat with i in He by lia. done.
  - intros k e Hr. destruct (H6 k e Hr). split; [done | lia].
  - replace (1 + n - 1)%nat with n by lia. exact H7.
Qed.
End once.

(** A counter is incremented in the second pass, after a serialization failure. *)
Definition example_retry : TransactionRetryConfig :=
  {| tx_attempts := 3; base_delay := Duration.from_millis 10; max_delay := Duration.from_millis 20; max_jitter := Duration.from_millis 5;
     isolation := Serializable |}.
Definition example_env (i : nat) : Attempt Z SqlxError Z :=
  {| acquired := true; begun := true; rivals := fun n => n + 100;
     closure := fun n => if bool_decide (i = 1%nat) then (Err (Some "40001"), n + 7) else (Ok n, n + 1);
     rolled_back := true; commit_fails := None; sequence := 42 |}.
Lemma transaction_applied_once_witness : retry_config_validate example_retry = Ok tt
  /\ exists k r s' delays, 1 <= Z.of_nat k <= 3 /\ run_repeatable example_retry example_env 0 = (Some r, s', delays)
       /\ run_ends (example_env k) (rivals_only example_env 1 (k - 1) 0) (rivals_only example_env 1 k 0) s' r.
Proof.
  split; [by vm_compute|].
  destruct (transaction_applied_once example_retry example_env 0) as (k & r & s' & delays & Hk & Hr & _ & _ & _ & _ & He);
    [by vm_compute | by vm_compute | by vm_compute |].
  exists k, r, s', delays. exact (conj Hk (conj Hr He)).
Defined.
Example example_run : fst (run_repeatable example_retry example_env 0) = (Some (Ok 200), 201).
Proof. by vm_compute. Qed.
