(* ===== verification/Idempotency.v ===== *)
(** * Idempotent requests: [crates/idempotency/src/lib.rs]

    The table [idempotency_records] is a finite map from identities (principal, tenant,
    operation, key) to records; [record_ok] are the checks of its migration.  Clock
    readings and failures of each statement, and what other transactions do before a
    record is locked, are arguments.  Times are microseconds, a [Duration] is in
    nanoseconds, bytes and text are strings.  The reference service's creation handler,
    which claims, acts and completes in one transaction, is at the end.  SHA-256 and the
    float arithmetic that turns a lifetime into an interval are parameters; metrics are
    left out. *)
From S2P Require Import Prelude Machine Text Transactions.
From Stdlib Require Import Ascii.

Definition MAX_VALUE_BYTES : Z := 128.
Definition MAX_CONTENT_TYPE_BYTES : Z := 255.
Definition MAX_TTL : Z := Duration.from_secs 2592000.
Definition MAX_RESPONSE_BYTES : Z := 2 * 1024 * 1024.
Definition DEFAULT_TTL : Z := Duration.from_secs 86400.
Definition DEFAULT_RESPONSE_BYTES : Z := 64 * 1024.

(** ** Validated values *)
Inductive IdempotencyKeyError := KeyEmpty | KeyTooLong | KeyInvalidCharacter.
Definition visible (c : ascii) : bool := (33 <=? byte_val c) && (byte_val c <=? 126).
Definition IdempotencyKey_new (value : string) : result IdempotencyKeyError string :=
  _ ← guard_err (is_empty value) KeyEmpty;
  _ ← guard_err (MAX_VALUE_BYTES <? len value) KeyTooLong;
  _ ← guard_err (negb (all_bytes visible value)) KeyInvalidCharacter;
  Ok value.
Inductive IdempotencyScopeValueError := ScopeEmpty | ScopeTooLong | SurroundingWhitespace | ControlCharacter.
Definition IdempotencyScopeValue_new (value : string) : result IdempotencyScopeValueError string :=
  _ ← guard_err (is_empty value) ScopeEmpty;
  _ ← guard_err (MAX_VALUE_BYTES <? len value) ScopeTooLong;
  _ ← guard_err (negb (is_trimmed value)) SurroundingWhitespace;
  _ ← guard_err (has_control value) ControlCharacter;
  Ok value.
Inductive IdempotencyOperationError := OperationEmpty | OperationTooLong | OperationInvalidCharacter.
Definition operation_byte (c : ascii) : bool :=
  is_ascii_alphanumeric c || is_byte "." c || is_byte "-" c || is_byte "_" c || is_byte ":" c || is_byte "/" c.
Definition IdempotencyOperation_new (value : string) : result IdempotencyOperationError string :=
  _ ← guard_err (is_empty value) OperationEmpty;
  _ ← guard_err (MAX_VALUE_BYTES <? len value) OperationTooLong;
  _ ← guard_err (negb (all_bytes operation_byte value)) OperationInvalidCharacter;
  Ok value.
Record IdempotencyScope := { principal : option string; tenant : option string }.
Definition unscoped : IdempotencyScope := {| principal := None; tenant := None |}.
Inductive RequestFingerprintError := InvalidLength.
Definition from_digest (digest : string) : result RequestFingerprintError string :=
  if len digest =? 32 then Ok digest else Err InvalidLength.
Record IdempotencyRequest := { scope : IdempotencyScope; operation : string; key : string; fingerprint : string }.

Record SafeResponse := { res_status : Z; content_type : option string; body : string }.
#[global] Instance SafeResponse_eq_dec : EqDecision SafeResponse.
Proof. solve_decision. Defined.
Inductive SafeResponseError := InvalidStatus | InvalidContentType | BodyTooLarge.
Definition content_type_ok (value : string) : bool :=
  negb (is_empty value || (MAX_CONTENT_TYPE_BYTES <? len value) || negb (is_trimmed value)
        || negb (all_bytes (fun c => (32 <=? byte_val c) && (byte_val c <=? 126)) value)).
Definition SafeResponse_new (status : Z) (ct : option string) (b : string) : result SafeResponseError SafeResponse :=
  _ ← guard_err (negb ((100 <=? status) && (status <=? 599))) InvalidStatus;
  _ ← guard_err (match ct with Some value => negb (content_type_ok value) | None => false end) InvalidContentType;
  _ ← guard_err (MAX_RESPONSE_BYTES <? len b) BodyTooLarge;
  Ok {| res_status := status; content_type := ct; body := b |}.

(** ** Configuration *)
Record IdempotencyConfig := { enabled : bool; ttl : Z; max_response_bytes : Z }.
Definition IdempotencyConfig_default : IdempotencyConfig :=
  {| enabled := true; ttl := DEFAULT_TTL; max_response_bytes := DEFAULT_RESPONSE_BYTES |}.
Inductive IdempotencyConfigError := InvalidTtl | InvalidResponseBound.
Definition config_validate (c : IdempotencyConfig) : result IdempotencyConfigError IdempotencyConfig :=
  _ ← guard_err ((ttl c <? Duration.from_secs 1) || (MAX_TTL <? ttl c)) InvalidTtl;
  _ ← guard_err ((max_response_bytes c =? 0) || (MAX_RESPONSE_BYTES <? max_response_bytes c)) InvalidResponseBound;
  Ok c.

(** ** The table *)
Abbreviation Identity := (option string * option string * string * string)%type.
Definition identity (r : IdempotencyRequest) : Identity := (principal (scope r), tenant (scope r), operation r, key r).
Record IdempotencyRecord := {
  request_hash : string;
  status : string;
  response_status : option Z;
  response_content_type : option string;
  response_body : option string;
  expires_at : Z;
  created_at : Z;
  completed_at : option Z;
}.
Abbreviation Records := (gmap Identity IdempotencyRecord).
(** [char_length]: the bytes that are not continuations. *)
Fixpoint char_length (s : string) : Z :=
  match s with
  | EmptyString => 0
  | String c s' => (if (128 <=? byte_val c) && (byte_val c <=? 191) then 0 else 1) + char_length s'
  end.
(** [value = btrim(value)]: no space at either end. *)
Fixpoint last_byte (s : string) : option ascii :=
  match s with
  | EmptyString => None
  | String c EmptyString => Some c
  | String _ s' => last_byte s'
  end.
Definition btrimmed (s : string) : bool :=
  match s with String c _ => negb (is_byte " " c) | EmptyString => true end
  && match last_byte s with Some c => negb (is_byte " " c) | None => true end.
Definition column_ok (s : string) : bool := negb (is_empty s) && (char_length s <=? 128) && btrimmed s.
Definition is_none {A} (o : option A) : bool := match o with None => true | Some _ => false end.
Definition record_ok (id : Identity) (r : IdempotencyRecord) : bool :=
  let '(p, t, o, k) := id in
  match p with Some v => column_ok v | None => true end
  && match t with Some v => column_ok v | None => true end
  && column_ok o && column_ok k
  && (len (request_hash r) =? 32)
  && match response_status r with Some n => (100 <=? n) && (n <=? 599) | None => true end
  && match response_body r with Some b => len b <=? 2097152 | None => true end
  && (bool_decide (status r = "in_progress") && is_none (response_status r) && is_none (response_content_type r)
        && is_none (response_body r) && is_none (completed_at r)
      || bool_decide (status r = "completed") && negb (is_none (response_status r)) && negb (is_none (response_body r))
           && negb (is_none (completed_at r)))
  && (created_at r <? expires_at r)
  && match completed_at r with Some t => t <=? expires_at r | None => true end.

Inductive IdempotencyStoreError :=
| Conflict | ClaimLost | ClaimExpired | ResponseTooLarge | Transient (s : RetryableSqlState) | Unavailable
| ConstraintViolation | CorruptData.
#[global] Instance store_error_retryable : RetryableTransactionError IdempotencyStoreError := fun e =>
  match e with Transient s => Some s | _ => None end.
Definition map_sqlx_error (e : SqlxError) : IdempotencyStoreError :=
  match from_sqlx e with
  | Some s => Transient s
  | None => match e with
            | Some code => if bool_decide (code = "23505" \/ code = "23514" \/ code = "23502" \/ code = "22003")
                           then ConstraintViolation else Unavailable
            | None => Unavailable
            end
  end.
(** What the database answers when a check fails. *)
Definition check_violation : IdempotencyStoreError := map_sqlx_error (Some "23514").

Inductive ClaimOutcome := Started | Replay (r : SafeResponse) | InProgress.
Definition is_clean_in_progress (r : IdempotencyRecord) : bool :=
  is_none (response_status r) && is_none (response_content_type r) && is_none (response_body r) && is_none (completed_at r).
Definition restore_response (r : IdempotencyRecord) (configured_max : Z) : result IdempotencyStoreError SafeResponse :=
  st ← ok_or (n ← response_status r; if (0 <=? n) && (n <=? u16_max) then Some n else None) CorruptData;
  b ← ok_or (response_body r) CorruptData;
  _ ← guard_err (is_none (completed_at r) || (configured_max <? len b)) CorruptData;
  map_err (fun _ => CorruptData) (SafeResponse_new st (response_content_type r) b).

(** ** Claiming and completing *)
(** The clock readings and failures of a claim's statements, and what other transactions
    do between the insertion that finds the record and the lock. *)
Record ClaimTurn := {
  insert_fails : option SqlxError;
  insert_base : Z;
  insert_created : Z;
  claim_meanwhile : Records -> Records;
  claim_lock_fails : option SqlxError;
  claim_locked_at : Z;
  reclaim_fails : option SqlxError;
  reclaim_now : Z;
  reclaim_base : Z;
  reclaim_created : Z;
}.
Record CompleteTurn := {
  update_fails : option SqlxError;
  update_now : Z;
  update_completed : Z;
  complete_meanwhile : Records -> Records;
  complete_lock_fails : option SqlxError;
  complete_locked_at : Z;
}.
(** [as_secs_f64], its product with [1_000.0] and PostgreSQL's product with an interval. *)
Class TtlInterval := ttl_interval : Z -> Z.

Section store.
Context `{TtlInterval}.
Definition claimed_record (c : IdempotencyConfig) (hash : string) (base created : Z) : IdempotencyRecord :=
  {| request_hash := hash; status := "in_progress"; response_status := None; response_content_type := None; response_body := None;
     expires_at := base + ttl_interval (ttl c); created_at := created; completed_at := None |}.
(** A record that fails the table's checks fails the statement. *)
Definition write_record {A} (id : Identity) (r : IdempotencyRecord) (a : A) : ST Records IdempotencyStoreError A := fun s =>
  if record_ok id r then (Ok a, <[id := r]> s) else (Err check_violation, s).
(** What a live record says to a claim. *)
Definition classify (c : IdempotencyConfig) (req : IdempotencyRequest) (existing : IdempotencyRecord)
    : result IdempotencyStoreError ClaimOutcome :=
  stored ← map_err (fun _ => CorruptData) (from_digest (request_hash existing));
  _ ← guard_err (negb (bool_decide (stored = fingerprint req))) Conflict;
  if bool_decide (status existing = "in_progress") && is_clean_in_progress existing then Ok InProgress
  else if bool_decide (status existing = "completed")
       then r ← restore_response existing (max_response_bytes c); Ok (Replay r)
       else Err CorruptData.
Definition claim_inner (c : IdempotencyConfig) (req : IdempotencyRequest) (t : ClaimTurn)
    : ST Records IdempotencyStoreError ClaimOutcome := fun s =>
  if negb (enabled c) then (Ok Started, s) else
  match insert_fails t with
  | Some e => (Err (map_sqlx_error e), s)
  | None =>
      let id := identity req in
      match s !! id with
      | None => write_record id (claimed_record c (fingerprint req) (insert_base t) (insert_created t)) Started s
      | Some _ =>
          let s := claim_meanwhile t s in
          match claim_lock_fails t with
          | Some e => (Err (map_sqlx_error e), s)
          | None =>
              match s !! id with
              | None => (Err ClaimLost, s)
              | Some existing =>
                  if expires_at existing <=? claim_locked_at t then
                    match reclaim_fails t with
                    | Some e => (Err (map_sqlx_error e), s)
                    | None =>
                        if expires_at existing <=? reclaim_now t
                        then write_record id (claimed_record c (fingerprint req) (reclaim_base t) (reclaim_created t)) Started s
                        else (Err ClaimLost, s)
                    end
                  else (classify c req existing, s)
              end
          end
      end
  end.
Definition completed_record (resp : SafeResponse) (at_ : Z) (r : IdempotencyRecord) : IdempotencyRecord :=
  {| request_hash := request_hash r; status := "completed"; response_status := Some (res_status resp);
     response_content_type := content_type resp; response_body := Some (body resp);
     expires_at := expires_at r; created_at := created_at r; completed_at := Some at_ |}.
(** The guard of the completing update. *)
Definition completable (req : IdempotencyRequest) (now : Z) (r : IdempotencyRecord) : bool :=
  bool_decide (request_hash r = fingerprint req) && bool_decide (status r = "in_progress") && (now <? expires_at r).
Definition refused_completion (req : IdempotencyRequest) (now : Z) (existing : IdempotencyRecord) : IdempotencyStoreError :=
  if expires_at existing <=? now then ClaimExpired else
  match from_digest (request_hash existing) with
  | Err _ => CorruptData
  | Ok stored =>
      if negb (bool_decide (stored = fingerprint req)) then Conflict
      else if bool_decide (status existing = "in_progress" \/ status existing = "completed") then ClaimLost
      else CorruptData
  end.
Definition complete_inner (c : IdempotencyConfig) (req : IdempotencyRequest) (resp : SafeResponse) (t : CompleteTurn)
    : ST Records IdempotencyStoreError unit := fun s =>
  if negb (enabled c) then (Ok tt, s) else
  if max_response_bytes c <? len (body resp) then (Err ResponseTooLarge, s) else
  if 2 ^ 15 - 1 <? res_status resp then (Err CorruptData, s) else
  match update_fails t with
  | Some e => (Err (map_sqlx_error e), s)
  | None =>
      let id := identity req in
      let refused s :=
        let s := complete_meanwhile t s in
        match complete_lock_fails t with
        | Some e => (Err (map_sqlx_error e), s)
        | None =>
            match s !! id with
            | None => (Err ClaimLost, s)
            | Some existing => (Err (refused_completion req (complete_locked_at t) existing), s)
            end
        end in
      match s !! id with
      | Some r => if completable req (update_now t) r then write_record id (completed_record resp (update_completed t) r) tt s
                  else refused s
      | None => refused s
      end
  end.

(** ** The creation handler of the reference service *)
Inductive ApiError := ApiConflict (code : string) | DatabaseUnavailable | Internal | BusinessError.
Definition map_idempotency_error (e : IdempotencyStoreError) : ApiError :=
  match e with
  | Conflict => ApiConflict "IDEMPOTENCY_CONFLICT"
  | ClaimLost | ClaimExpired => ApiConflict "IDEMPOTENCY_CLAIM_LOST"
  | Transient _ | Unavailable => DatabaseUnavailable
  | ResponseTooLarge | ConstraintViolation | CorruptData => Internal
  end.
Inductive CreateTransactionOutcome := CreateStarted (b : string) | CreateReplay (r : SafeResponse) | CreateInProgress.
Definition JSON_CONTENT_TYPE : string := "application/json".
Definition CREATED : Z := 201.

Section handler.
Context {B : Type}.
(** [create] makes and stores the record and gives the encoded response. *)
Definition create_in_transaction (c : IdempotencyConfig) (req : IdempotencyRequest) (t : ClaimTurn) (create : B -> result ApiError (B * string))
    (t' : CompleteTurn) : ST (Records * B) ApiError CreateTransactionOutcome := fun s =>
  match claim_inner c req t s.1 with
  | (Err e, s1) => (Err (map_idempotency_error e), (s1, s.2))
  | (Ok (Replay r), s1) => (Ok (CreateReplay r), (s1, s.2))
  | (Ok InProgress, s1) => (Ok CreateInProgress, (s1, s.2))
  | (Ok Started, s1) =>
      match create s.2 with
      | Err e => (Err e, (s1, s.2))
      | Ok (b', bytes) =>
          match SafeResponse_new CREATED (Some JSON_CONTENT_TYPE) bytes with
          | Err _ => (Err Internal, (s1, b'))
          | Ok resp =>
              match complete_inner c req resp t' s1 with
              | (Err e, s2) => (Err (map_idempotency_error e), (s2, b'))
              | (Ok _, s2) => (Ok (CreateStarted bytes), (s2, b'))
              end
          end
      end
  end.
Record HttpResponse := { http_status : Z; http_content_type : option string; http_body : string }.
Definition json_bytes_response (st : Z) (b : string) : HttpResponse :=
  {| http_status := st; http_content_type := Some JSON_CONTENT_TYPE; http_body := b |}.
(** [StatusCode::from_u16] and [HeaderValue::from_str]. *)
Definition status_code (n : Z) : option Z := if (100 <=? n) && (n <=? 999) then Some n else None.
Definition header_value (s : string) : option string :=
  if all_bytes (fun c => ((32 <=? byte_val c) && (byte_val c <=? 126)) || (byte_val c =? 9)) s then Some s else None.
Definition replay_response (r : SafeResponse) : result ApiError HttpResponse :=
  st ← ok_or (status_code (res_status r)) Internal;
  ct ← match content_type r with
       | Some v => h ← ok_or (header_value v) Internal; Ok (Some h)
       | None => Ok None
       end;
  Ok {| http_status := st; http_content_type := ct; http_body := body r |}.
(** What happens around the transaction, as in [Transactions.Attempt]. *)
Record RequestTurn := {
  req_acquired : bool;
  req_begun : bool;
  req_rolled_back : bool;
  req_commit_fails : option bool;
}.
(** What a transaction that is rolled back leaves: what others did before it had the
    record's lock. *)
Definition rivals_left (c : IdempotencyConfig) (req : IdempotencyRequest) (t : ClaimTurn) (s : Records) : Records :=
  if enabled c && is_none (insert_fails t) && negb (is_none (s !! identity req)) then claim_meanwhile t s else s.
(** From the acquisition of a connection on. *)
Definition create_reference_record (c : IdempotencyConfig) (req : IdempotencyRequest) (t : ClaimTurn) (create : B -> result ApiError (B * string))
    (t' : CompleteTurn) (e : RequestTurn) : ST (Records * B) ApiError HttpResponse := fun s =>
  if negb (req_acquired e) then (Err DatabaseUnavailable, s) else
  if negb (req_begun e) then (Err DatabaseUnavailable, s) else
  match create_in_transaction c req t create t' s with
  | (Err err, _) => (Err (if req_rolled_back e then err else DatabaseUnavailable), (rivals_left c req t s.1, s.2))
  | (Ok outcome, s') =>
      match req_commit_fails e with
      | Some effective => (Err DatabaseUnavailable, if effective then s' else (rivals_left c req t s.1, s.2))
      | None =>
          (match outcome with
           | CreateStarted b => Ok (json_bytes_response CREATED b)
           | CreateReplay r => replay_response r
           | CreateInProgress => Err (ApiConflict "IDEMPOTENCY_IN_PROGRESS")
           end, s')
      end
  end.
End handler.
End store.
