(* ===== verification/IdempotencyTheorems.v ===== *)
(** * Theorems about idempotent requests: one effect per window, exact replays *)
From S2P Require Import Prelude Machine Text Transactions Idempotency.
From Stdlib Require Import Ascii.

(** A lifetime becomes an interval that is off by at most a microsecond. *)
Class TtlLaws `{TtlInterval} := {
  ttl_interval_close d : Duration.from_secs 1 <= d <= MAX_TTL -> d / 1000 - 1 <= ttl_interval d <= d / 1000 + 1;
}.

(** ** Validated values pass the table's checks *)
Lemma char_length_le s : char_length s <= len s.
Proof. unfold len. induction s as [|c s IH]; cbn [char_length String.length]; [done|]. destruct (_ && _); lia. Qed.
Lemma trim_start_le s : len (trim_start s) <= len s.
Proof.
  unfold len. enough (H : forall n s, (String.length s <= n)%nat -> (String.length (trim_start s) <= String.length s)%nat)
    by (specialize (H _ s (le_n _)); lia).
  clear s. induction n as [|n IH]; intros [|c1 s1] Hs; cbn [trim_start String.length] in *; try lia.
  destruct (blank1 _); [specialize (IH s1 ltac:(lia)); lia|]. destruct s1 as [|c2 s2]; [done|]. cbn [String.length] in *.
  destruct (blank2 _ _); [specialize (IH s2 ltac:(lia)); lia|]. destruct s2 as [|c3 s3]; [done|]. cbn [String.length] in *.
  destruct (blank3 _ _ _); [specialize (IH s3 ltac:(lia)); lia | done].
Qed.
Lemma ends_blank_last s : ends_blank s = false -> match last_byte s with Some c => negb (is_byte " " c) | None => true end = true.
Proof.
  induction s as [|c1 s1 IH]; [done|]. cbn [ends_blank last_byte]. destruct s1 as [|c2 s2].
  - intros Hb. unfold is_byte. destruct (Ascii.eqb_spec " " c1) as [<-|]; [done | done].
  - intros [_ Hb]%orb_false_elim. by apply IH.
Qed.
Lemma trimmed_btrimmed s : is_trimmed s = true -> btrimmed s = true.
Proof.
  unfold is_trimmed, btrimmed. intros [Hs He%negb_true_iff]%andb_prop. apply bool_decide_eq_true in Hs. rewrite (ends_blank_last s He), andb_true_r.
  destruct s as [|c s]; [done|]. unfold is_byte. destruct (Ascii.eqb_spec " " c) as [<-|]; [|done]. exfalso.
  change (trim_start (String " " s)) with (trim_start s) in Hs. pose proof (trim_start_le s) as Hl. rewrite Hs in Hl.
  unfold len in Hl. cbn [String.length] in Hl. lia.
Qed.
Lemma spaceless_btrimmed p s : all_bytes p s = true -> p " "%char = false -> btrimmed s = true.
Proof.
  intros Hs Hp. unfold btrimmed. assert (Hl : match last_byte s with Some c => negb (is_byte " " c) | None => true end = true).
  { induction s as [|c s IH]; [done|]. cbn in Hs. apply andb_prop in Hs as [Hc Hs]. cbn [last_byte]. destruct s; [|by apply IH].
    unfold is_byte. destruct (Ascii.eqb_spec " " c) as [<-|]; [congruence | done]. }
  rewrite Hl, andb_true_r. destruct s as [|c s]; [done|]. cbn in Hs. apply andb_prop in Hs as [Hc _].
  unfold is_byte. destruct (Ascii.eqb_spec " " c) as [<-|]; [congruence | done].
Qed.
Lemma column_ok_intro s : is_empty s = false -> (MAX_VALUE_BYTES <? len s) = false -> btrimmed s = true -> column_ok s = true.
Proof.
  intros He Hl Hb. unfold column_ok. rewrite He, Hb. pose proof (char_length_le s). unfold MAX_VALUE_BYTES in Hl. cbn. rewrite andb_true_r. lia.
Qed.
Lemma key_column s v : IdempotencyKey_new s = Ok v -> column_ok s = true.
Proof.
  unfold IdempotencyKey_new. intros Hs. inv_ok. apply column_ok_intro; [done | done |].
  apply (spaceless_btrimmed visible); [by apply negb_false_iff | done].
Qed.
Lemma scope_column s v : IdempotencyScopeValue_new s = Ok v -> column_ok s = true.
Proof.
  unfold IdempotencyScopeValue_new. intros Hs. inv_ok. apply column_ok_intro; [done | done |]. by apply trimmed_btrimmed, negb_false_iff.
Qed.
Lemma operation_column s v : IdempotencyOperation_new s = Ok v -> column_ok s = true.
Proof.
  unfold IdempotencyOperation_new. intros Hs. inv_ok. apply column_ok_intro; [done | done |].
  apply (spaceless_btrimmed operation_byte); [by apply negb_false_iff | done].
Qed.

(** A request made of validated values. *)
Definition request_ok (r : IdempotencyRequest) : Prop :=
  (forall v, principal (scope r) = Some v -> IdempotencyScopeValue_new v = Ok v)
  /\ (forall v, tenant (scope r) = Some v -> IdempotencyScopeValue_new v = Ok v)
  /\ IdempotencyOperation_new (operation r) = Ok (operation r) /\ IdempotencyKey_new (key r) = Ok (key r) /\ len (fingerprint r) = 32.
Definition response_ok (r : SafeResponse) : Prop := SafeResponse_new (res_status r) (content_type r) (body r) = Ok r.
Lemma response_ok_bounds r : response_ok r -> 100 <= res_status r <= 599 /\ len (body r) <= 2097152.
Proof. unfold response_ok, SafeResponse_new, MAX_RESPONSE_BYTES. intros Hr. inv_ok. split; blia. Qed.
(** The part of [record_ok] that is about the identity. *)
Definition columns_ok (id : Identity) : bool :=
  let '(p, t, o, k) := id in
  match p with Some v => column_ok v | None => true end && match t with Some v => column_ok v | None => true end && column_ok o && column_ok k.
Lemma request_columns r : request_ok r -> columns_ok (identity r) = true.
Proof.
  intros (Hp & Ht & Ho & Hk & _). unfold columns_ok, identity. rewrite (operation_column _ _ Ho), (key_column _ _ Hk), !andb_true_r.
  destruct (principal (scope r)) as [p|]; [rewrite (scope_column p p) by auto|]; destruct (tenant (scope r)) as [t|]; try done; by rewrite (scope_column t t) by auto.
Qed.

Section theorems.
Context `{TtlLaws}.
Lemma claimed_record_ok c req base created : request_ok req -> created < base + ttl_interval (ttl c) ->
  record_ok (identity req) (claimed_record c (fingerprint req) base created) = true.
Proof.
  intros Hr Hc. pose proof (request_columns req Hr) as Hcol. destruct Hr as (_ & _ & _ & _ & Hf). unfold record_ok. unfold columns_ok in Hcol.
  destruct (identity req) as [[[p t] o] k]. rewrite Hcol. cbn [claimed_record request_hash status response_status response_content_type
    response_body expires_at created_at completed_at is_none]. rewrite Hf, bool_decide_true by done. cbn [andb orb Z.eqb Pos.eqb]. lia.
Qed.
Lemma completed_record_ok id resp at_ r : record_ok id r = true -> response_ok resp -> at_ <= expires_at r ->
  record_ok id (completed_record resp at_ r) = true.
Proof.
  intros Hr Hresp Ha. apply response_ok_bounds in Hresp as [Hs Hb]. unfold record_ok in *. destruct id as [[[p t] o] k].
  cbn [completed_record request_hash status response_status response_content_type response_body expires_at created_at completed_at is_none negb].
  rewrite !andb_true_iff in Hr. destruct_and! Hr. rewrite !andb_true_iff. split_and!; try done; lia.
Qed.

(** ** Histories *)
Inductive Event :=
| EvStarted (id : Identity) (hash : string) (at_ expires : Z)
| EvCompleted (id : Identity) (hash : string) (resp : SafeResponse).
Definition ev_id (e : Event) : Identity := match e with EvStarted id _ _ _ | EvCompleted id _ _ => id end.
(** The events of one identity, newest first. *)
Definition events_of (id : Identity) (l : list Event) : list Event := filter (fun e => ev_id e = id) l.
(** What the newest events say: the fingerprint, the end of the window, the response. *)
Definition current (l : list Event) : option (string * Z * option SafeResponse) :=
  match l with
  | EvStarted _ h _ exp :: _ => Some (h, exp, None)
  | EvCompleted _ _ r :: EvStarted _ h _ exp :: _ => Some (h, exp, Some r)
  | _ => None
  end.
(** The records, what happened, and for each identity the latest clock reading under its
    record's lock. *)
Record System := { records : Records; log : list Event; clock : Identity -> Z }.
Definition claim_log (c : IdempotencyConfig) (req : IdempotencyRequest) (t : ClaimTurn) (s : Records) : list Event :=
  match (claim_inner c req t s).1 with
  | Ok Started =>
      if enabled c then
        let base := match s !! identity req with None => insert_base t | Some _ => reclaim_base t end in
        [EvStarted (identity req) (fingerprint req) base (base + ttl_interval (ttl c))]
      else []
  | _ => []
  end.
Definition complete_log (c : IdempotencyConfig) (req : IdempotencyRequest) (resp : SafeResponse) (t : CompleteTurn) (s : Records) : list Event :=
  match (complete_inner c req resp t s).1 with
  | Ok _ => if enabled c then [EvCompleted (identity req) (fingerprint req) resp] else []
  | Err _ => []
  end.
Definition at_clock (f : Identity -> Z) (id : Identity) (t : Z) : Identity -> Z := fun i => if decide (i = id) then t else f i.
(** The readings of a claim that starts when the record's clock shows [from], and ends by
    [until]. *)
Definition claim_readings (t : ClaimTurn) (from until : Z) : Prop :=
  from <= insert_base t <= until /\ from <= claim_locked_at t /\ claim_locked_at t <= reclaim_base t <= until.
Inductive step : relation System :=
| step_claim c req t r s' until x :
    config_validate c = Ok c -> request_ok req -> claim_readings t (clock x (identity req)) until ->
    (forall s, claim_meanwhile t s = s) -> claim_inner c req t (records x) = (r, s') ->
    step x {| records := s'; log := claim_log c req t (records x) ++ log x; clock := at_clock (clock x) (identity req) until |}
| step_complete c req resp t r s' until x :
    config_validate c = Ok c -> request_ok req -> response_ok resp -> clock x (identity req) <= until ->
    (forall s, complete_meanwhile t s = s) -> complete_inner c req resp t (records x) = (r, s') ->
    step x {| records := s'; log := complete_log c req resp t (records x) ++ log x; clock := at_clock (clock x) (identity req) until |}.
Definition no_records (f : Identity -> Z) : System := {| records := ∅; log := []; clock := f |}.
Definition reachable (x : System) : Prop := exists f, rtc step (no_records f) x.

(** ** The invariant *)
(** A record that shows these newest events. *)
Definition shows (r : IdempotencyRecord) (h : string) (exp : Z) (o : option SafeResponse) : Prop :=
  request_hash r = h /\ expires_at r = exp
  /\ match o with
     | None => status r = "in_progress" /\ is_clean_in_progress r = true
     | Some resp => status r = "completed" /\ response_status r = Some (res_status resp) /\ response_content_type r = content_type resp
                    /\ response_body r = Some (body resp) /\ is_none (completed_at r) = false /\ response_ok resp
     end.
(** Each completion directly follows its start, and windows do not overlap. *)
Fixpoint history_ok (l : list Event) : Prop :=
  match l with
  | [] => True
  | EvStarted _ _ at_ exp :: l' =>
      at_ + 999999 <= exp /\ (forall id h at' exp', EvStarted id h at' exp' ∈ l' -> exp' <= at_) /\ history_ok l'
  | EvCompleted _ h _ :: l' => match l' with EvStarted _ h' _ _ :: _ => h = h' | _ => False end /\ history_ok l'
  end.
Definition id_inv (x : System) (id : Identity) : Prop :=
  history_ok (events_of id (log x))
  /\ (forall h at_ exp, EvStarted id h at_ exp ∈ log x -> at_ <= clock x id)
  /\ match records x !! id with
     | None => events_of id (log x) = []
     | Some r => record_ok id r = true /\ exists h exp o, current (events_of id (log x)) = Some (h, exp, o) /\ shows r h exp o
     end.
Definition system_inv (x : System) : Prop := forall id, id_inv x id.

Lemma claim_cases c req t s r s' : (forall x, claim_meanwhile t x = x) -> claim_inner c req t s = (r, s') ->
  (s' = s /\ claim_log c req t s = []) \/ exists base created, let rec := claimed_record c (fingerprint req) base created in
    s' = <[identity req := rec]> s /\ record_ok (identity req) rec = true
    /\ claim_log c req t s = [EvStarted (identity req) (fingerprint req) base (base + ttl_interval (ttl c))]
    /\ (s !! identity req = None /\ base = insert_base t
        \/ exists old, s !! identity req = Some old /\ expires_at old <= claim_locked_at t /\ base = reclaim_base t).
Proof.
  intros Hm Hc. unfold claim_log. rewrite Hc. unfold claim_inner in Hc. destruct (enabled c); [|injection Hc as <- <-; by left].
  destruct (insert_fails t); [injection Hc as <- <-; by left|]. cbn [negb] in Hc.
  destruct (s !! identity req) as [old|] eqn:Es.
  - rewrite Hm in Hc. destruct (claim_lock_fails t); [injection Hc as <- <-; by left|]. rewrite Es in Hc.
    destruct (Z.leb_spec (expires_at old) (claim_locked_at t)).
    + destruct (reclaim_fails t); [injection Hc as <- <-; by left|]. destruct (_ <=? reclaim_now t); [|injection Hc as <- <-; by left].
      unfold write_record in Hc. destruct (record_ok _ _) eqn:Eok; injection Hc as <- <-; [|by left]. right.
      exists (reclaim_base t), (reclaim_created t). split_and!; try done. right. by exists old.
    + injection Hc as <- <-. left. split; [done|]. cbn. unfold classify. destruct (from_digest _); [|done]. cbn.
      destruct (negb _); [done|]. cbn. destruct (_ && _); [done|]. destruct (bool_decide _); [|done]. by destruct (restore_response _ _).
  - unfold write_record in Hc. destruct (record_ok _ _) eqn:Eok; injection Hc as <- <-; [|by left]. right.
    exists (insert_base t), (insert_created t). split_and!; try done. by left.
Qed.
Lemma complete_cases c req resp t s r s' : (forall x, complete_meanwhile t x = x) -> complete_inner c req resp t s = (r, s') ->
  (s' = s /\ complete_log c req resp t s = []) \/ exists old, s !! identity req = Some old /\ completable req (update_now t) old = true
    /\ s' = <[identity req := completed_record resp (update_completed t) old]> s
    /\ record_ok (identity req) (completed_record resp (update_completed t) old) = true
    /\ complete_log c req resp t s = [EvCompleted (identity req) (fingerprint req) resp].
Proof.
  intros Hm Hc. unfold complete_log. rewrite Hc. unfold complete_inner in Hc. destruct (enabled c); [|injection Hc as <- <-; by left].
  cbn [negb] in Hc. destruct (_ <? len _); [injection Hc as <- <-; by left|]. destruct (_ <? res_status _); [injection Hc as <- <-; by left|].
  destruct (update_fails t); [injection Hc as <- <-; by left|]. cbv zeta in Hc.
  rewrite !Hm in Hc. destruct (s !! identity req) as [old|] eqn:Es; [|destruct (complete_lock_fails t); injection Hc as <- <-; by left].
  destruct (completable _ _ old) eqn:Ec; [|destruct (complete_lock_fails t); injection Hc as <- <-; by left].
  unfold write_record in Hc. destruct (record_ok _ _) eqn:Eok; injection Hc as <- <-; [|by left]. right. exists old. by split_and!.
Qed.
Lemma events_of_other id e l : ev_id e <> id -> events_of id (e :: l) = events_of id l.
Proof. intros Hne. unfold events_of. by rewrite filter_cons_False. Qed.
Lemma events_of_same id e l : ev_id e = id -> events_of id (e :: l) = e :: events_of id l.
Proof. intros He. unfold events_of. by rewrite filter_cons_True. Qed.
Lemma started_events id h at_ exp l : EvStarted id h at_ exp ∈ l -> EvStarted id h at_ exp ∈ events_of id l.
Proof. intros Hin. unfold events_of. apply list_elem_of_filter. by split. Qed.
(** Every window of an identity ends no later than its current one. *)
Lemma windows_end l h exp o id' h' at' exp' : history_ok l -> current l = Some (h, exp, o) -> EvStarted id' h' at' exp' ∈ l -> exp' <= exp.
Proof.
  intros Hok Hc Hin. destruct l as [|[id h0 at0 exp0|id h0 r] l]; [done| |].
  - injection Hc as <- <- <-. cbn in Hok. destruct Hok as (Hw & Hall & _). apply elem_of_cons in Hin as [[= -> -> -> ->]|Hin]; [lia|].
    specialize (Hall _ _ _ _ Hin). lia.
  - cbn in Hc. destruct l as [|[id1 h1 at1 exp1|] l]; [done| |done]. injection Hc as <- <- <-. destruct Hok as (_ & Hw & Hall & _).
    apply elem_of_cons in Hin as [[=]|Hin]. apply elem_of_cons in Hin as [[= -> -> -> ->]|Hin]; [lia|].
    specialize (Hall _ _ _ _ Hin). lia.
Qed.
Lemma ttl_long c : config_validate c = Ok c -> 999999 <= ttl_interval (ttl c).
Proof.
  intros Hc. unfold config_validate in Hc. inv_ok. pose proof (ttl_interval_close (ttl c) ltac:(blia)) as Hl.
  assert (1000000 <= ttl c / 1000); [|lia]. apply Z.div_le_lower_bound; [lia|].
  unfold Duration.from_secs, Duration.nanos_per_sec in *. blia.
Qed.
Lemma id_inv_other x id e s' until id' : id_inv x id' -> id' <> id -> (forall y, y ∈ e -> ev_id y = id) -> s' !! id' = records x !! id' ->
  id_inv {| records := s'; log := e ++ log x; clock := at_clock (clock x) id until |} id'.
Proof.
  intros (H1 & H2 & H3) Hne He Hs. assert (Hev : events_of id' (e ++ log x) = events_of id' (log x)).
  { unfold events_of. rewrite filter_app. replace (filter _ e) with ([] : list Event); [done|]. symmetry.
    induction e as [|y e IH]; [done|]. rewrite filter_cons_False; [apply IH; set_solver|]. rewrite (He y) by set_solver. congruence. }
  unfold id_inv; cbn [records log clock app]; split_and!.
  - by rewrite Hev.
  - intros h at_ exp Hin. unfold at_clock. rewrite decide_False by done. apply (H2 h at_ exp).
    apply elem_of_app in Hin as [Hin|Hin]; [|done]. apply He in Hin. cbn in Hin. congruence.
  - by rewrite Hev, Hs.
Qed.
Lemma id_inv_quiet x id s' until : id_inv x id -> clock x id <= until -> s' = records x ->
  id_inv {| records := s'; log := [] ++ log x; clock := at_clock (clock x) id until |} id.
Proof.
  intros (H1 & H2 & H3) Hc ->. unfold id_inv; cbn [records log clock app]; split_and!; [done| |done]. intros h at_ exp Hin. unfold at_clock. rewrite decide_True by done.
  specialize (H2 h at_ exp Hin). lia.
Qed.
Lemma record_step_inv x y : step x y -> system_inv x -> system_inv y.
Proof.
  intros Hs Hx id'. destruct Hs as [c req t r s' until x Hc Hr (Ht1 & Ht2 & Ht3) Hm Hcl|c req resp t r s' until x Hc Hr Hresp Ht Hm Hco].
  - pose proof (claim_cases c req t _ _ _ Hm Hcl) as Hcases. destruct (decide (id' = identity req)) as [->|Hne].
    + destruct Hcases as [[-> Hl]|(base & created & -> & Hok & Hl & Hold)]; rewrite Hl; [apply id_inv_quiet; [apply Hx | lia | done]|].
      destruct (Hx (identity req)) as (H1 & H2 & H3). pose proof (ttl_long c Hc) as Httl. assert (Hbase : base <= until /\ clock x (identity req) <= base).
      { destruct Hold as [[_ ->]|(? & _ & _ & ->)]; lia. }
      unfold id_inv; cbn [records log clock app]; split_and!.
      * rewrite events_of_same by done. split; [lia|]. split; [|done]. intros id h at' exp' Hin. destruct Hold as [[Hn _]|(old & Hold & Hexp & ->)].
        { rewrite Hn in H3. rewrite H3 in Hin. by apply not_elem_of_nil in Hin. }
        rewrite Hold in H3. destruct H3 as (_ & h1 & exp1 & o & Hcur & _ & He & _).
        pose proof (windows_end _ _ _ _ _ _ _ _ H1 Hcur Hin). lia.
      * intros h at_ exp Hin. unfold at_clock. rewrite decide_True by done. apply elem_of_cons in Hin as [[= -> -> ->]|Hin]; [lia|].
        specialize (H2 _ _ _ Hin). lia.
      * rewrite lookup_insert_eq. split; [done|]. rewrite events_of_same by done. do 3 eexists. split; [reflexivity|]. by split_and!.
    + apply id_inv_other; [apply Hx | done | |].
      * intros e. destruct Hcases as [[_ ->]|(? & ? & _ & _ & -> & _)]; set_solver.
      * destruct Hcases as [[-> _]|(? & ? & -> & _)]; [done|]. by rewrite lookup_insert_ne.
  - pose proof (complete_cases c req resp t _ _ _ Hm Hco) as Hcases. destruct (decide (id' = identity req)) as [->|Hne].
    + destruct Hcases as [[-> Hl]|(old & Hold & Hg & -> & Hok & Hl)]; rewrite Hl; [by apply id_inv_quiet; [apply Hx | lia | done]|].
      destruct (Hx (identity req)) as (H1 & H2 & H3). rewrite Hold in H3. destruct H3 as (Hok0 & h & exp & o & Hcur & Hh & He & Ho).
      unfold completable in Hg. rewrite !andb_true_iff, !bool_decide_eq_true in Hg. destruct Hg as [[Hhash Hst] _].
      destruct o as [r0|]; [destruct Ho as [Ho _]; congruence|].
      assert (Hhead : exists id at_ l, events_of (identity req) (log x) = EvStarted id h at_ exp :: l).
      { destruct (events_of (identity req) (log x)) as [|[id h0 at0 exp0|id h0 r0] l]; [done| |].
        - injection Hcur as -> ->. by exists id, at0, l.
        - cbn in Hcur. by destruct l as [|[]]. }
      destruct Hhead as (id & at_ & l & Hhead). unfold id_inv; cbn [records log clock app]; split_and!.
      * rewrite events_of_same by done. rewrite Hhead in *. split; [congruence | done].
      * intros h' at' exp' Hin. unfold at_clock. rewrite decide_True by done. apply elem_of_cons in Hin as [[=]|Hin].
        specialize (H2 _ _ _ Hin). lia.
      * rewrite lookup_insert_eq. split; [done|]. rewrite events_of_same by done. rewrite Hhead. do 3 eexists. split; [reflexivity|]. by split_and!.
    + apply id_inv_other; [apply Hx | done | |].
      * intros e. destruct Hcases as [[_ ->]|(? & _ & _ & _ & _ & ->)]; set_solver.
      * destruct Hcases as [[-> _]|(? & _ & _ & -> & _)]; [done|]. by rewrite lookup_insert_ne.
Qed.
Lemma record_steps_inv x y : rtc step x y -> system_inv x -> system_inv y.
Proof. induction 1 as [|x y z Hs _ IH]; [done|]. intros Hx. by eapply IH, record_step_inv. Qed.
Lemma reachable_system x : reachable x -> system_inv x.
Proof.
  intros [f Hf]. eapply record_steps_inv; [exact Hf|]. intros id. split_and!; [done | | done]. intros h at_ exp Hin. by apply not_elem_of_nil in Hin.
Qed.

Lemma history_ok_suffix l l' : history_ok (l ++ l') -> history_ok l'.
Proof. induction l as [|[|] l IH]; [done| |]; cbn; [intros (_ & _ & Hl) | intros [_ Hl]]; by apply IH. Qed.

(** C16. One start per window: in every history of claims and completions, an identity is
    started anew only when the window of each earlier start is over, which lasts its
    lifetime (at least a second, to the microsecond); and a completion belongs to the
    latest start of its identity, with its fingerprint, and is the only one of that
    start. *)
Theorem one_start_per_window x id l1 l2 : reachable x ->
  (forall h at_ exp, log x = l1 ++ EvStarted id h at_ exp :: l2 ->
     forall h' at' exp', EvStarted id h' at' exp' ∈ l2 -> at' + 999999 <= exp' /\ exp' <= at_)
  /\ (forall h r, log x = l1 ++ EvCompleted id h r :: l2 -> exists at_ exp rest, events_of id l2 = EvStarted id h at_ exp :: rest).
Proof.
  intros Hx. destruct (reachable_system x Hx id) as (H1 & _). split.
  - intros h at_ exp Hl h' at' exp' Hin. rewrite Hl in H1. unfold events_of in H1. rewrite filter_app in H1. apply history_ok_suffix in H1.
    rewrite filter_cons_True in H1 by done. destruct H1 as (_ & Hall & Hok). fold (events_of id l2) in Hall, Hok.
    apply started_events in Hin. split; [|by apply (Hall _ _ _ _ Hin)]. apply list_elem_of_split in Hin as (k1 & k2 & Hk).
    rewrite Hk in Hok. apply history_ok_suffix in Hok. by destruct Hok as [Hok _].
  - intros h r Hl. rewrite Hl in H1. unfold events_of in H1. rewrite filter_app in H1. apply history_ok_suffix in H1.
    rewrite filter_cons_True in H1 by done. fold (events_of id l2) in H1. destruct H1 as [Hhead _].
    assert (Hids : forall e, e ∈ events_of id l2 -> ev_id e = id) by (intros e He; by apply list_elem_of_filter in He as [? _]).
    destruct (events_of id l2) as [|[id' h' at' exp'|] rest]; [done| |done]. subst h'. specialize (Hids (EvStarted id' h at' exp') ltac:(by left)).
    cbn in Hids. subst id'. by exists at', exp', rest.
Qed.

(** What a claim answers, told by the history alone. *)
Definition expected (c : IdempotencyConfig) (h : string) (now : Z) (l : list Event) : result IdempotencyStoreError ClaimOutcome :=
  match current l with
  | None => Ok Started
  | Some (h', exp, o) =>
      if exp <=? now then Ok Started
      else if negb (bool_decide (h' = h)) then Err Conflict
      else match o with
           | None => Ok InProgress
           | Some r => if len (body r) <=? max_response_bytes c then Ok (Replay r) else Err CorruptData
           end
  end.
(** The statements run, nothing comes between them, and a statement's own readings are
    less than a second apart. *)
Definition undisturbed (t : ClaimTurn) : Prop :=
  insert_fails t = None /\ claim_lock_fails t = None /\ reclaim_fails t = None /\ (forall s, claim_meanwhile t s = s)
  /\ claim_locked_at t <= reclaim_now t /\ insert_created t < insert_base t + 999999 /\ reclaim_created t < reclaim_base t + 999999.
Lemma classify_shown c req r exp o h : shows r h exp o -> len h = 32 ->
  classify c req r = if negb (bool_decide (h = fingerprint req)) then Err Conflict
                     else match o with
                          | None => Ok InProgress
                          | Some resp => if len (body resp) <=? max_response_bytes c then Ok (Replay resp) else Err CorruptData
                          end.
Proof.
  intros (Hh & _ & Ho) Hlen. unfold classify, from_digest. rewrite Hh, Hlen. cbn [Z.eqb Pos.eqb map_err mbind result_bind]. unfold guard_err.
  destruct (negb _); [done|]. cbn [mbind result_bind]. destruct o as [resp|].
  - destruct Ho as (Hs & H1 & H2 & H3 & H4 & H5). rewrite Hs. rewrite bool_decide_false, bool_decide_true by done. cbn [andb].
    unfold restore_response. pose proof (response_ok_bounds _ H5) as [Hb _]. rewrite H1. cbn [mbind option_bind].
    replace ((0 <=? res_status resp) && (res_status resp <=? u16_max)) with true by (unfold u16_max; lia).
    cbn [ok_or mbind result_bind]. rewrite H3. cbn [ok_or mbind result_bind]. rewrite H4, H2. cbn [orb]. unfold guard_err.
    destruct (Z.ltb_spec (max_response_bytes c) (len (body resp))), (Z.leb_spec (len (body resp)) (max_response_bytes c)); try lia; [done|].
    cbn [mbind result_bind]. by rewrite H5.
  - destruct Ho as [-> ->]. by rewrite bool_decide_true.
Qed.
Lemma record_hash id r : record_ok id r = true -> len (request_hash r) = 32.
Proof. unfold record_ok. destruct id as [[[p t] o] k]. rewrite !andb_true_iff. intros Hr. destruct_and! Hr. lia. Qed.

(** A claim's answer is its history: in every reachable store, an undisturbed claim
    answers what the events of its identity say.  It starts when there is no live window,
    conflicts when the window belongs to another fingerprint, is in progress until that
    start is completed, and then replays exactly the response it was completed with. *)
Theorem claim_by_history x c req t : reachable x -> config_validate c = Ok c -> enabled c = true -> request_ok req -> undisturbed t ->
  (claim_inner c req t (records x)).1 = expected c (fingerprint req) (claim_locked_at t) (events_of (identity req) (log x)).
Proof.
  intros Hx Hc He Hr (U1 & U2 & U3 & U4 & U5 & U6 & U7). destruct (reachable_system x Hx (identity req)) as (_ & _ & H3).
  pose proof (ttl_long c Hc) as Httl. unfold claim_inner, expected. rewrite He, U1. cbn [negb].
  destruct (records x !! identity req) as [r|] eqn:Er.
  - rewrite U4, U2, Er. destruct H3 as (Hok & h & exp & o & Hcur & Hsh). rewrite Hcur. pose proof Hsh as (Hh & Hexp & _). rewrite Hexp.
    destruct (Z.leb_spec exp (claim_locked_at t)).
    + rewrite U3. destruct (Z.leb_spec exp (reclaim_now t)); [|lia]. unfold write_record. rewrite claimed_record_ok by (done || lia). done.
    + cbn. rewrite (classify_shown c req r exp o h Hsh); [done|]. rewrite <- Hh. by eapply record_hash.
  - rewrite H3. cbn [current]. unfold write_record. rewrite claimed_record_ok by (done || lia). done.
Qed.



End theorems.

(** ** A concrete request *)
Module IdempotencyExamples.
#[local] Instance micros : TtlInterval := fun d => d / 1000.
#[local] Instance micros_laws : TtlLaws.
Proof. split. unfold ttl_interval, micros. lia. Defined.
Definition request0 : IdempotencyRequest :=
  {| scope := {| principal := None; tenant := Some "acme" |}; operation := "widgets.create"; key := "order-1";
     fingerprint := "0123456789abcdef0123456789abcdef" |}.
Lemma request0_ok : request_ok request0.
Proof. split_and!; [done | by intros v [= <-] | done | done | done]. Qed.
Definition turn0 (t : Z) : ClaimTurn :=
  {| insert_fails := None; insert_base := t; insert_created := t; claim_meanwhile := fun s => s; claim_lock_fails := None; claim_locked_at := t;
     reclaim_fails := None; reclaim_now := t; reclaim_base := t; reclaim_created := t |}.
Definition done0 (t : Z) : CompleteTurn :=
  {| update_fails := None; update_now := t; update_completed := t; complete_meanwhile := fun s => s; complete_lock_fails := None;
     complete_locked_at := t |}.
Definition all_well : RequestTurn := {| req_acquired := true; req_begun := true; req_rolled_back := true; req_commit_fails := None |}.
(** The commit takes effect, but its answer is lost. *)
Definition answer_lost : RequestTurn := {| req_acquired := true; req_begun := true; req_rolled_back := true; req_commit_fails := Some true |}.
Definition create0 (n : Z) : result ApiError (Z * string) := Ok (n + 1, "{}").
Definition x0 : System := no_records (fun _ => 0).
Definition c0 : IdempotencyConfig := IdempotencyConfig_default.
(** The first try loses its answer, the second one gets the first one's response. *)
Definition try1 : result ApiError HttpResponse * (Records * Z) := create_reference_record c0 request0 (turn0 10) create0 (done0 12) answer_lost (∅, 0).
Example second_try_replays :
  (try1.1, try1.2.2) = (Err DatabaseUnavailable, 1)
  /\ let try2 := create_reference_record c0 request0 (turn0 20) create0 (done0 22) all_well try1.2 in
     (try2.1, try2.2.2) = (Ok (json_bytes_response 201 "{}"), 1).
Proof. by vm_compute. Qed.
Definition x1 : System :=
  {| records := (claim_inner c0 request0 (turn0 10) ∅).2; log := claim_log c0 request0 (turn0 10) ∅ ++ []; clock := at_clock (fun _ => 0) (identity request0) 11 |}.
Lemma started_reachable : reachable x1.
Proof.
  exists (fun _ => 0). apply rtc_once. apply (step_claim c0 request0 (turn0 10) (claim_inner c0 request0 (turn0 10) ∅).1 _ 11 x0).
  - by vm_compute.
  - exact request0_ok.
  - split_and!; by vm_compute.
  - done.
  - apply surjective_pairing.
Qed.
Lemma one_start_per_window_witness : exists h at_ exp, log x1 = [] ++ EvStarted (identity request0) h at_ exp :: []
  /\ forall h' at' exp', EvStarted (identity request0) h' at' exp' ∈ ([] : list Event) -> at' + 999999 <= exp' /\ exp' <= at_.
Proof.
  eexists _, _, _. split; [reflexivity|]. eapply (proj1 (one_start_per_window x1 (identity request0) [] [] started_reachable)). reflexivity.
Defined.
Lemma claim_by_history_witness : (claim_inner c0 request0 (turn0 20) (records x1)).1 = Ok InProgress.
Proof.
  rewrite (claim_by_history x1 c0 request0 (turn0 20)); [by vm_compute | exact started_reachable | by vm_compute | by vm_compute | exact request0_ok |].
  split_and!; by vm_compute || done.
Defined.
End IdempotencyExamples.
