(* ===== verification/SchedulerTypes.v ===== *)
(** * Schedules: [crates/scheduler/src/types.rs] and [calendar.rs]

    Validated values, the configuration and the evaluation of misfired occurrences.
    Instants are microseconds, as the database keeps them, and a [Duration] is in
    nanoseconds.  Cron expressions and time zones belong to other crates: the class
    [Calendar] says which expressions and names they accept and which instant comes
    next. *)
From S2P Require Import Prelude Machine Text JobPolicy.
From Stdlib Require Import Ascii.

Definition MAX_CLAIM_BATCH : Z := 256.
Definition MAX_POLL_INTERVAL : Z := Duration.from_secs 60.
Definition MAX_ENQUEUE_TIMEOUT : Z := Duration.from_secs 300.
Definition MAX_RETRY_DELAY : Z := Duration.from_secs 3600.
Definition MAX_SHUTDOWN_TIMEOUT : Z := Duration.from_secs 600.
Definition MAX_DISPATCH_LEASE : Z := Duration.from_secs 86400.
Definition MAX_RESTARTS : Z := 100.
Definition MAX_BACKOFF : Z := Duration.from_secs 300.
Definition MAX_SCHEDULE_LEASE : Z := Duration.from_secs 86400.
Definition MAX_EXECUTION_LEASE : Z := Duration.from_secs 604800.
Definition MAX_IDEMPOTENCY_WINDOW : Z := Duration.from_secs 2678400.

Inductive SchedulerError :=
| InvalidDefinition | InvalidActor | InvalidReason | CalendarFailed | EnvelopeFactory | InvalidEnvelope | DatabaseFailed | NotFound
| RevisionConflict | LostLease | Provider.
#[global] Instance SchedulerError_eq_dec : EqDecision SchedulerError.
Proof. solve_decision. Defined.

(** ** Text *)
Definition portable (value : string) (minimum maximum : Z) (allowed : ascii -> bool) : bool :=
  (minimum <=? len value) && (len value <=? maximum) && first_byte is_ascii_alphanumeric value && all_bytes allowed value.
Definition name_byte (c : ascii) : bool :=
  is_ascii_lowercase c || is_ascii_digit c || is_byte "_" c || is_byte "." c || is_byte "-" c.
Definition actor_byte (c : ascii) : bool :=
  is_ascii_alphanumeric c || is_byte "_" c || is_byte "." c || is_byte ":" c || is_byte "@" c || is_byte "/" c || is_byte "-" c.
Definition is_ascii_control (c : ascii) : bool := (byte_val c <? 32) || (byte_val c =? 127).
Definition control_free (value : string) : bool := all_bytes (fun c => negb (is_ascii_control c)) value.
Definition reason_ok (value : string) : bool := (1 <=? len value) && (len value <=? 256) && control_free value.
Definition ScheduleName_try_from (value : string) : result SchedulerError string :=
  if portable value 1 128 name_byte then Ok value else Err InvalidDefinition.
Definition ScheduleActor_new (value : string) : result SchedulerError string :=
  if portable value 1 128 actor_byte then Ok value else Err InvalidActor.
Definition ScheduleReason_new (value : string) : result SchedulerError string :=
  if reason_ok value then Ok value else Err InvalidReason.
Definition id_from_database (u : Z) : result SchedulerError Z := if get_version_num u =? 7 then Ok u else Err DatabaseFailed.

(** ** Definitions *)
Inductive MisfirePolicy := Skip | FireOnce | CatchUp (max_runs : Z).
Definition database_parts (p : MisfirePolicy) : string * option Z :=
  match p with
  | Skip => ("skip", None)
  | FireOnce => ("fire_once", None)
  | CatchUp max_runs => ("catch_up", Some max_runs)
  end.
Definition policy_from_database (kind : string) (maximum : option Z) : result SchedulerError MisfirePolicy :=
  match maximum with
  | None => if bool_decide (kind = "skip") then Ok Skip
            else if bool_decide (kind = "fire_once") then Ok FireOnce else Err DatabaseFailed
  | Some value =>
      if bool_decide (kind = "catch_up") then
        _ ← guard_err ((value <? 0) || (u16_max <? value)) DatabaseFailed;
        _ ← guard_err (value =? 0) DatabaseFailed;
        if value <=? 1000 then Ok (CatchUp value) else Err DatabaseFailed
      else Err DatabaseFailed
  end.
Record ScheduleDefinition := {
  def_name : string;
  expression : string;
  timezone : string;
  misfire_policy : MisfirePolicy;
  max_concurrent_runs : Z;
  scheduler_lease_duration : Z;
  execution_lease_duration : Z;
  idempotency_window : Z;
  def_paused : bool;
}.
(** [croner::Cron::from_str] succeeds; the zone [Tz::from_str] finds, as its name; and
    [Cron::find_next_occurrence] with the conversions around it. *)
Class Calendar := {
  cron_valid : string -> bool;
  zone : string -> option string;
  find_next : string -> string -> Z -> option Z;
}.
Section calendar.
Context `{Calendar}.
Definition ScheduleDefinition_new (name expr tz : string) (policy : MisfirePolicy) (concurrent lease execution window : Z) (paused : bool)
    : result SchedulerError ScheduleDefinition :=
  _ ← guard_err (negb ((1 <=? len expr) && (len expr <=? 512)) || negb (control_free expr) || negb (cron_valid expr)) InvalidDefinition;
  z ← ok_or (zone tz) InvalidDefinition;
  _ ← guard_err ((1000 <? concurrent) || (lease <? Duration.from_secs 1) || (MAX_SCHEDULE_LEASE <? lease)
                 || (execution <? Duration.from_secs 2) || (MAX_EXECUTION_LEASE <? execution)
                 || (window <? Duration.from_secs 1) || (MAX_IDEMPOTENCY_WINDOW <? window)) InvalidDefinition;
  _ ← guard_err (match policy with CatchUp max_runs => 1000 <? max_runs | Skip | FireOnce => false end) InvalidDefinition;
  Ok {| def_name := name; expression := expr; timezone := z; misfire_policy := policy; max_concurrent_runs := concurrent;
        scheduler_lease_duration := lease; execution_lease_duration := execution; idempotency_window := window; def_paused := paused |}.

(** ** Occurrences *)
Record OccurrencePlan := { occurrences : list Z; plan_next : Z }.
Definition next_occurrence (d : ScheduleDefinition) (after : Z) : result SchedulerError Z :=
  _ ← guard_err (negb (cron_valid (expression d))) CalendarFailed;
  ok_or (find_next (expression d) (timezone d) after) CalendarFailed.
(** The loop of [CatchUp], which runs at most [max_runs] times. *)
Fixpoint catch_up (d : ScheduleDefinition) (todo : nat) (next now : Z) : result SchedulerError OccurrencePlan :=
  match todo with
  | O => Ok {| occurrences := []; plan_next := next |}
  | S todo' =>
      if next <=? now then
        after ← next_occurrence d next;
        rest ← catch_up d todo' after now;
        Ok {| occurrences := next :: occurrences rest; plan_next := plan_next rest |}
      else Ok {| occurrences := []; plan_next := next |}
  end.
Definition evaluate_occurrences (d : ScheduleDefinition) (cursor now : Z) : result SchedulerError OccurrencePlan :=
  _ ← guard_err (now <? cursor) CalendarFailed;
  match misfire_policy d with
  | Skip => next ← next_occurrence d now; Ok {| occurrences := []; plan_next := next |}
  | FireOnce => next ← next_occurrence d now; Ok {| occurrences := [cursor]; plan_next := next |}
  | CatchUp max_runs => catch_up d (Z.to_nat max_runs) cursor now
  end.
End calendar.

(** ** Configuration *)
Record SchedulerRestartConfig := { max_restarts : Z; initial_backoff : Z; max_backoff : Z; jitter_percent : Z }.
Definition SchedulerRestartConfig_default : SchedulerRestartConfig :=
  {| max_restarts := 8; initial_backoff := Duration.from_millis 100; max_backoff := Duration.from_secs 5; jitter_percent := 20 |}.
Record SchedulerConfig := {
  enabled : bool;
  lease_owner : string;
  schedule_claim_batch : Z;
  dispatch_claim_batch : Z;
  poll_interval : Z;
  enqueue_timeout : Z;
  dispatch_lease_duration : Z;
  dispatch_retry_delay : Z;
  shutdown_timeout : Z;
  restart : SchedulerRestartConfig;
}.
Definition SchedulerConfig_default : SchedulerConfig :=
  {| enabled := false; lease_owner := "scheduler"; schedule_claim_batch := 16; dispatch_claim_batch := 32;
     poll_interval := Duration.from_millis 250; enqueue_timeout := Duration.from_secs 5; dispatch_lease_duration := Duration.from_secs 30;
     dispatch_retry_delay := Duration.from_secs 5; shutdown_timeout := Duration.from_secs 120; restart := SchedulerRestartConfig_default |}.
Inductive SchedulerConfigError :=
| InvalidLeaseOwner | InvalidScheduleClaimBatch | InvalidDispatchClaimBatch | InvalidPollInterval | InvalidEnqueueTimeout
| InvalidDispatchLease | InvalidRetryDelay | InvalidShutdownTimeout | InvalidRestart.
Definition config_validate (c : SchedulerConfig) : result SchedulerConfigError unit :=
  _ ← guard_err (negb (portable (lease_owner c) 1 128 actor_byte)) InvalidLeaseOwner;
  _ ← guard_err (negb ((1 <=? schedule_claim_batch c) && (schedule_claim_batch c <=? MAX_CLAIM_BATCH))) InvalidScheduleClaimBatch;
  _ ← guard_err (negb ((1 <=? dispatch_claim_batch c) && (dispatch_claim_batch c <=? MAX_CLAIM_BATCH))) InvalidDispatchClaimBatch;
  _ ← guard_err (Duration.is_zero (poll_interval c) || (MAX_POLL_INTERVAL <? poll_interval c)) InvalidPollInterval;
  _ ← guard_err (Duration.is_zero (enqueue_timeout c) || (MAX_ENQUEUE_TIMEOUT <? enqueue_timeout c)) InvalidEnqueueTimeout;
  _ ← guard_err ((MAX_DISPATCH_LEASE <? dispatch_lease_duration c)
                 || (dispatch_lease_duration c <? Duration.saturating_add (enqueue_timeout c) (Duration.from_secs 1))) InvalidDispatchLease;
  _ ← guard_err (Duration.is_zero (dispatch_retry_delay c) || (MAX_RETRY_DELAY <? dispatch_retry_delay c)) InvalidRetryDelay;
  _ ← guard_err (Duration.is_zero (shutdown_timeout c) || (MAX_SHUTDOWN_TIMEOUT <? shutdown_timeout c)) InvalidShutdownTimeout;
  guard_err ((MAX_RESTARTS <? max_restarts (restart c)) || Duration.is_zero (initial_backoff (restart c))
             || (max_backoff (restart c) <? initial_backoff (restart c)) || (MAX_BACKOFF <? max_backoff (restart c))
             || (100 <? jitter_percent (restart c))) InvalidRestart.

(** ** Runs *)
Inductive RunStatus := PendingDispatch | Dispatching | Dispatched | Running | Completed | Failed.
#[global] Instance RunStatus_eq_dec : EqDecision RunStatus.
Proof. solve_decision. Defined.
Definition status_from_database (value : string) : result SchedulerError RunStatus :=
  if bool_decide (value = "pending_dispatch") then Ok PendingDispatch
  else if bool_decide (value = "dispatching") then Ok Dispatching
  else if bool_decide (value = "dispatched") then Ok Dispatched
  else if bool_decide (value = "running") then Ok Running
  else if bool_decide (value = "completed") then Ok Completed
  else if bool_decide (value = "failed") then Ok Failed
  else Err DatabaseFailed.
Definition duration_micros (d : Z) : result SchedulerError Z := if d / 1000 <=? i64_max then Ok (d / 1000) else Err DatabaseFailed.
Definition duration_from_micros (value : Z) : result SchedulerError Z := if value <? 0 then Err DatabaseFailed else Ok (value * 1000).

(** ** Execution leases *)
Definition EXECUTION_FINISH_SAFETY : Z := Duration.from_millis 50.
Definition EXECUTION_FINISH_SAFETY_MICROS : Z := 50000.
(** [Duration::try_from(deadline - now)], in nanoseconds. *)
Definition remaining (deadline now : Z) : option Z := if now <=? deadline then Some ((deadline - now) * 1000) else None.
Definition deadline_capped_lease (schedule_lease deadline now : Z) : option Z :=
  r ← remaining deadline now;
  deadline_lease ← checked_sub r EXECUTION_FINISH_SAFETY;
  let whole_micros := Z.min schedule_lease deadline_lease / 1000 in
  if whole_micros <=? u64_max then if whole_micros =? 0 then None else Some (whole_micros * 1000) else None.
Definition bounded_execution_budget (lease_duration deadline now : Z) : option Z :=
  lease_budget ← checked_sub lease_duration EXECUTION_FINISH_SAFETY;
  r ← remaining deadline now;
  deadline_budget ← checked_sub r EXECUTION_FINISH_SAFETY;
  let budget := Z.min lease_budget deadline_budget in
  if Duration.is_zero budget then None else Some budget.
