(* ===== verification/Scheduler.v ===== *)
(** * The durable scheduler: [crates/scheduler/src/repository.rs] and [handler.rs]

    The three tables are [schedules], [runs] (by their unique job identifier) and the
    append-only [audits], newest first; the checks of the migration are [schedule_ok],
    [run_ok] and [audit_ok], and what its trigger makes immutable is [RunIdentity].  A
    [Tx] is a transaction: an error leaves the store unchanged.  A statement outside a
    transaction is one step.  Statements that fail for outside reasons change nothing and
    are not modelled; clock readings and fresh identifiers are arguments.  Metrics,
    logging and the supervision of the task are left out. *)
From S2P Require Import Prelude Machine Text Ordered JsonShape JobPolicy JobWire SchedulerTypes.
From Stdlib Require Import Ascii.

(** ** Tables *)
Record Lease := { owner : string; token : Z; expires_at : Z }.
Record Columns := {
  col_name : string;
  col_cron : string;
  col_timezone : string;
  col_policy : string;
  col_catch_up : option Z;
  col_concurrent : Z;
  col_lease_micros : Z;
  col_execution_micros : Z;
  col_window_micros : Z;
}.
Record Schedule := {
  columns : Columns;
  paused : bool;
  revision : Z;
  next_run_at : Z;
  sch_lease : option Lease;
  created_at : Z;
  updated_at : Z;
}.
Record RunIdentity := {
  run_id : Z;
  schedule_id : Z;
  scheduled_for : Z;
  replay_sequence : Z;
  replay_of : option Z;
  run_queue : string;
  envelope_json : string;
  run_created_at : Z;
}.
Record RunState := {
  status : RunStatus;
  available_at : Z;
  dispatch_attempt_count : Z;
  dispatch_lease : option Lease;
  dispatched_at : option Z;
  last_dispatch_error : option string;
  execution_attempt_count : Z;
  execution_lease : option (Z * Z);
  started_at : option Z;
  completed_at : option Z;
  failed_at : option Z;
  failure_code : option string;
}.
Record Run := { identity : RunIdentity; state : RunState }.
Record Audit := {
  audit_id : Z;
  audit_schedule : Z;
  action : string;
  actor : string;
  reason : string;
  previous_revision : option Z;
  new_revision : Z;
  occurred_at : Z;
}.
Record Store := { schedules : gmap Z Schedule; runs : gmap Z Run; audits : list Audit }.
Definition with_schedules (m : gmap Z Schedule) (s : Store) : Store := {| schedules := m; runs := runs s; audits := audits s |}.
Definition with_runs (m : gmap Z Run) (s : Store) : Store := {| schedules := schedules s; runs := m; audits := audits s |}.
Definition with_audits (l : list Audit) (s : Store) : Store := {| schedules := schedules s; runs := runs s; audits := l |}.

(** ** Checks of the migration *)
Definition uuid_v7 (u : Z) : bool := (get_version_num u =? 7) && (Z.land (Z.shiftr u 62) 3 =? 2).
Definition between (lo hi x : Z) : bool := (lo <=? x) && (x <=? hi).
Definition lower_first (s : string) : bool := first_byte (fun c => is_ascii_lowercase c || is_ascii_digit c) s.
Definition lease_ok (l : option Lease) : bool := match l with Some l => uuid_v7 (token l) | None => true end.
Definition zone_byte (c : ascii) : bool := is_ascii_alphanumeric c || is_byte "_" c || is_byte "+" c || is_byte "-" c.
(** [^[A-Za-z0-9_+-]+(/[A-Za-z0-9_+-]+)*$] *)
Definition zone_portable (s : string) : bool := forallb (fun part => negb (is_empty part) && all_bytes zone_byte part) (split (is_byte "/") s).
Definition schedule_ok (id : Z) (r : Schedule) : bool :=
  let c := columns r in
  uuid_v7 id && (len (col_name c) <=? 128) && lower_first (col_name c) && all_bytes name_byte (col_name c)
  && between 1 512 (len (col_cron c)) && control_free (col_cron c)
  && (len (col_timezone c) <=? 128) && zone_portable (col_timezone c)
  && match col_catch_up c with
     | None => bool_decide (col_policy c = "skip" \/ col_policy c = "fire_once")
     | Some n => bool_decide (col_policy c = "catch_up") && between 1 1000 n
     end
  && between 1 1000 (col_concurrent c) && between 1000000 86400000000 (col_lease_micros c)
  && between 2000000 604800000000 (col_execution_micros c) && between 1000000 2678400000000 (col_window_micros c)
  && (0 <? revision r) && (revision r <=? i64_max) && lease_ok (sch_lease r)
  && negb (paused r && match sch_lease r with Some _ => true | None => false end)
  && (created_at r <=? updated_at r).
Definition is_none {A} (o : option A) : bool := match o with None => true | Some _ => false end.
Definition is_some {A} (o : option A) : bool := negb (is_none o).
Definition code_portable (s : string) : bool := (len s <=? 64) && lower_first s && all_bytes name_byte s.
(** The columns each state may and must have. *)
Definition state_complete (s : RunState) : bool :=
  match status s with
  | PendingDispatch => is_none (dispatch_lease s) && is_none (execution_lease s) && is_none (dispatched_at s) && is_none (started_at s)
                       && is_none (completed_at s) && is_none (failed_at s) && is_none (failure_code s)
  | Dispatching => is_some (dispatch_lease s) && is_none (execution_lease s) && is_none (completed_at s) && is_none (failed_at s)
                   && is_none (failure_code s)
  | Dispatched => is_none (dispatch_lease s) && is_none (execution_lease s) && is_some (dispatched_at s) && is_none (completed_at s)
                  && is_none (failed_at s) && is_none (failure_code s)
  | Running => is_none (dispatch_lease s) && is_some (execution_lease s) && is_some (dispatched_at s) && is_some (started_at s)
               && is_none (completed_at s) && is_none (failed_at s) && is_none (failure_code s)
  | Completed => is_none (dispatch_lease s) && is_none (execution_lease s) && is_some (dispatched_at s) && is_some (started_at s)
                 && is_some (completed_at s) && is_none (failed_at s) && is_none (failure_code s)
  | Failed => is_none (dispatch_lease s) && is_none (execution_lease s) && is_some (dispatched_at s) && is_some (started_at s)
              && is_none (completed_at s) && is_some (failed_at s) && is_some (failure_code s)
  end.
Definition state_ok (s : RunState) : bool :=
  between 0 i32_max (dispatch_attempt_count s) && between 0 i32_max (execution_attempt_count s)
  && match last_dispatch_error s with Some e => code_portable e | None => true end
  && match failure_code s with Some e => code_portable e | None => true end
  && lease_ok (dispatch_lease s) && match execution_lease s with Some (t, _) => uuid_v7 t | None => true end && state_complete s.
(** [jsonb_typeof(envelope_json::jsonb) = 'object'] *)
Class JsonColumn := json_object : string -> bool.
Definition queue_byte (c : ascii) : bool := is_ascii_alphanumeric c || is_byte "_" c || is_byte "." c || is_byte "-" c.
Definition run_ok `{JsonColumn} (job : Z) (r : Run) : bool :=
  let i := identity r in
  uuid_v7 (run_id i) && uuid_v7 job && (len (run_queue i) <=? 64) && first_byte is_ascii_alphanumeric (run_queue i)
  && all_bytes queue_byte (run_queue i)
  && between 2 2097152 (len (envelope_json i)) && json_object (envelope_json i)
  && ((replay_sequence i =? 0) && is_none (replay_of i) || between 1 1000000 (replay_sequence i) && is_some (replay_of i))
  && state_ok (state r).
Definition audit_ok (a : Audit) : bool :=
  uuid_v7 (audit_id a)
  && bool_decide (action a = "create" \/ action a = "update" \/ action a = "pause" \/ action a = "resume" \/ action a = "replay")
  && portable (actor a) 1 128 actor_byte && reason_ok (reason a)
  && (0 <? new_revision a) && match previous_revision a with Some p => 0 <? p | None => true end
  && Bool.eqb (bool_decide (action a = "create")) (is_none (previous_revision a)).

(** ** Transactions *)
Definition Tx (A : Type) : Type := Store -> result SchedulerError (A * Store).
#[global] Instance tx_ret : MRet Tx := fun A a s => Ok (a, s).
#[global] Instance tx_bind : MBind Tx := fun A B f m s => match m s with Ok (a, s') => f a s' | Err e => Err e end.
Definition tx_get : Tx Store := fun s => Ok (s, s).
Definition tx_fail {A} (e : SchedulerError) : Tx A := fun _ => Err e.
Definition tx_lift {A} (r : result SchedulerError A) : Tx A := fun s => match r with Ok a => Ok (a, s) | Err e => Err e end.
Definition tx_guard (bad : bool) (e : SchedulerError) : Tx unit := if bad then tx_fail e else mret tt.
(** [finish]: commit or roll back. *)
Definition atomically {A} (m : Tx A) : ST Store SchedulerError A := fun s =>
  match m s with Ok (a, s') => (Ok a, s') | Err e => (Err e, s) end.

(** What a new audit event, run or fence gets from outside. *)
Record Stamp := { stamp_id : Z; stamp_at : Z }.

Section scheduler.
Context `{Calendar} `{JsonColumn} `{SerdeJson} `{UuidText}.

(** A row that fails its checks, or takes another schedule's name. *)
Definition put_schedule (id : Z) (r : Schedule) : Tx unit := fun s =>
  if schedule_ok id r && bool_decide (map_Forall (fun i r' => i = id \/ col_name (columns r') <> col_name (columns r)) (schedules s))
  then Ok (tt, with_schedules (<[id := r]> (schedules s)) s) else Err DatabaseFailed.
Definition append_audit (st : Stamp) (schedule : Z) (act who why : string) (previous : option Z) (new : Z) : Tx unit := fun s =>
  let a := {| audit_id := stamp_id st; audit_schedule := schedule; action := act; actor := who; reason := why;
              previous_revision := previous; new_revision := new; occurred_at := stamp_at st |} in
  if audit_ok a && negb (bool_decide (stamp_id st ∈ map audit_id (audits s))) && is_some (schedules s !! schedule)
  then Ok (tt, with_audits (a :: audits s) s) else Err DatabaseFailed.
Definition new_state (available : Z) : RunState :=
  {| status := PendingDispatch; available_at := available; dispatch_attempt_count := 0; dispatch_lease := None; dispatched_at := None;
     last_dispatch_error := None; execution_attempt_count := 0; execution_lease := None; started_at := None; completed_at := None;
     failed_at := None; failure_code := None |}.
(** The unique indexes: run identifier, occurrence and replay. *)
Definition run_unique (i : RunIdentity) (m : gmap Z Run) : bool :=
  bool_decide (map_Forall (fun _ r =>
    run_id (identity r) <> run_id i
    /\ (schedule_id (identity r), scheduled_for (identity r), replay_sequence (identity r)) <> (schedule_id i, scheduled_for i, replay_sequence i)
    /\ (is_some (replay_of i) = true -> (replay_of (identity r), replay_sequence (identity r)) <> (replay_of i, replay_sequence i))) m).
Definition insert_run (st : Stamp) (schedule at_ seq : Z) (original : option Z) (e : EncodedJobEnvelope) : Tx unit := fun s =>
  let job := job_id (header e) in
  if negb (get_version_num job =? 7) then Err InvalidEnvelope else
  let i := {| run_id := stamp_id st; schedule_id := schedule; scheduled_for := at_; replay_sequence := seq; replay_of := original;
              run_queue := queue e; envelope_json := bytes e; run_created_at := stamp_at st |} in
  let r := {| identity := i; state := new_state (stamp_at st) |} in
  if run_ok job r && is_none (runs s !! job) && run_unique i (runs s) && is_some (schedules s !! schedule)
  then Ok (tt, with_runs (<[job := r]> (runs s)) s) else Err DatabaseFailed.

(** ** Snapshots *)
Definition columns_of (d : ScheduleDefinition) : result SchedulerError Columns :=
  l ← duration_micros (scheduler_lease_duration d);
  e ← duration_micros (execution_lease_duration d);
  w ← duration_micros (idempotency_window d);
  let '(policy, catch) := database_parts (misfire_policy d) in
  Ok {| col_name := def_name d; col_cron := expression d; col_timezone := timezone d; col_policy := policy; col_catch_up := catch;
        col_concurrent := max_concurrent_runs d; col_lease_micros := l; col_execution_micros := e; col_window_micros := w |}.
Record ScheduleSnapshot := {
  snap_id : Z;
  definition : ScheduleDefinition;
  snap_revision : Z;
  snap_next_run_at : Z;
  snap_created_at : Z;
  snap_updated_at : Z;
}.
Definition decode_snapshot (id : Z) (r : Schedule) : result SchedulerError ScheduleSnapshot :=
  let c := columns r in
  id ← id_from_database id;
  name ← map_err (fun _ => DatabaseFailed) (ScheduleName_try_from (col_name c));
  _ ← guard_err ((col_concurrent c <=? 0) || (u16_max <? col_concurrent c)) DatabaseFailed;
  policy ← policy_from_database (col_policy c) (col_catch_up c);
  l ← duration_from_micros (col_lease_micros c);
  e ← duration_from_micros (col_execution_micros c);
  w ← duration_from_micros (col_window_micros c);
  d ← map_err (fun _ => DatabaseFailed)
        (ScheduleDefinition_new name (col_cron c) (col_timezone c) policy (col_concurrent c) l e w (paused r));
  Ok {| snap_id := id; definition := d; snap_revision := revision r; snap_next_run_at := next_run_at r;
        snap_created_at := created_at r; snap_updated_at := updated_at r |}.

(** ** Administration *)
Definition create_schedule (now created updated id : Z) (st : Stamp) (d : ScheduleDefinition) (who why : string)
    : ST Store SchedulerError ScheduleSnapshot := atomically (
  next ← tx_lift (next_occurrence d now);
  c ← tx_lift (columns_of d);
  let r := {| columns := c; paused := def_paused d; revision := 1; next_run_at := next; sch_lease := None;
              created_at := created; updated_at := updated |} in
  s ← tx_get;
  _ ← tx_guard (is_some (schedules s !! id)) DatabaseFailed;
  _ ← put_schedule id r;
  _ ← append_audit st id "create" who why None 1;
  tx_lift (decode_snapshot id r)).
(** The row if [expected] is its revision; otherwise why not. *)
Definition require_revision (id expected : Z) : Tx Schedule := fun s =>
  match schedules s !! id with
  | Some r => if revision r =? expected then Ok (r, s) else Err RevisionConflict
  | None => Err NotFound
  end.
Definition update_schedule (id expected now updated : Z) (st : Stamp) (d : ScheduleDefinition) (who why : string)
    : ST Store SchedulerError ScheduleSnapshot := atomically (
  _ ← tx_guard (expected <=? 0) RevisionConflict;
  old ← require_revision id expected;
  next ← tx_lift (next_occurrence d now);
  c ← tx_lift (columns_of d);
  let r := {| columns := c; paused := def_paused d; revision := revision old + 1; next_run_at := next; sch_lease := None;
              created_at := created_at old; updated_at := updated |} in
  _ ← put_schedule id r;
  _ ← append_audit st id "update" who why (Some expected) (expected + 1);
  tx_lift (decode_snapshot id r)).
Definition set_paused (id expected : Z) (pause : bool) (now updated : Z) (st : Stamp) (who why : string)
    : ST Store SchedulerError ScheduleSnapshot := atomically (
  _ ← tx_guard (expected <=? 0) RevisionConflict;
  old ← require_revision id expected;
  current ← tx_lift (decode_snapshot id old);
  next ← tx_lift (if pause then Ok (snap_next_run_at current) else next_occurrence (definition current) now);
  let r := {| columns := columns old; paused := pause; revision := revision old + 1; next_run_at := next; sch_lease := None;
              created_at := created_at old; updated_at := updated |} in
  _ ← put_schedule id r;
  _ ← append_audit st id (if pause then "pause" else "resume") who why (Some expected) (expected + 1);
  tx_lift (decode_snapshot id r)).
(** [ScheduleEnvelopeFactory::build], with the number of the call. *)
Definition Factory : Type := nat -> Z -> Z -> Z -> option EncodedJobEnvelope.
Definition max_replay (original : Z) (m : gmap Z Run) : Z :=
  map_fold (fun _ r acc => if bool_decide (replay_of (identity r) = Some original) then Z.max acc (replay_sequence (identity r)) else acc) 0 m.
Definition original_run (schedule at_ : Z) (m : gmap Z Run) : option Z :=
  head (map (fun x => run_id (identity x.2))
          (filter (fun x => schedule_id (identity x.2) = schedule /\ scheduled_for (identity x.2) = at_ /\ replay_sequence (identity x.2) = 0)
             (map_to_list m))).
Definition replay (schedule at_ : Z) (factory : Factory) (run audit : Stamp) (who why : string) : ST Store SchedulerError Z := atomically (
  s ← tx_get;
  row ← tx_lift (ok_or (schedules s !! schedule) NotFound);
  original ← tx_lift (ok_or (original_run schedule at_ (runs s)) NotFound);
  seq ← tx_lift (ok_or (checked_add i32_max (max_replay original (runs s)) 1) DatabaseFailed);
  e ← tx_lift (ok_or (factory 0%nat schedule at_ seq) EnvelopeFactory);
  _ ← insert_run run schedule at_ seq (Some original) e;
  _ ← append_audit audit schedule "replay" who why (Some (revision row)) (revision row);
  mret (stamp_id run)).

(** ** Claiming and materializing *)
Record DueSchedule := { snapshot : ScheduleSnapshot; fence : Z; claimed_at : Z; due_lease_expires_at : Z }.
Definition due (now : Z) (r : Schedule) : bool :=
  negb (paused r) && (next_run_at r <=? now) && match sch_lease r with Some l => expires_at l <=? now | None => true end.
(** [ORDER BY next_run_at, id] *)
Definition due_key (x : Z * Schedule) : Z * Z := (next_run_at x.2, x.1).
(** [FOR UPDATE SKIP LOCKED LIMIT] *)
Definition due_rows (c : SchedulerConfig) (locked : gset Z) (now : Z) (m : gmap Z Schedule) : list (Z * Schedule) :=
  take (Z.to_nat (schedule_claim_batch c))
    (sort_by (by_key due_key) (filter (fun x => (x.1 ∉ locked) /\ due now x.2 = true) (map_to_list m))).
Definition with_sch_lease (l : option Lease) (next updated : Z) (r : Schedule) : Schedule :=
  {| columns := columns r; paused := paused r; revision := revision r; next_run_at := next; sch_lease := l;
     created_at := created_at r; updated_at := updated |}.
Definition claimed_schedule (c : SchedulerConfig) (now tok : Z) (r : Schedule) : Schedule :=
  with_sch_lease (Some {| owner := lease_owner c; token := tok; expires_at := now + col_lease_micros (columns r) |})
    (next_run_at r) (updated_at r) r.
Definition claimed_schedules (c : SchedulerConfig) (tokens : list Z) (locked : gset Z) (now : Z) (m : gmap Z Schedule) : list (Z * Schedule) :=
  zip_with (fun x tok => (x.1, claimed_schedule c now tok x.2)) (due_rows c locked now m) tokens.
Definition decode_due (now id : Z) (r : Schedule) : result SchedulerError DueSchedule :=
  snap ← decode_snapshot id r;
  l ← ok_or (sch_lease r) DatabaseFailed;
  f ← id_from_database (token l);
  Ok {| snapshot := snap; fence := f; claimed_at := now; due_lease_expires_at := expires_at l |}.
Fixpoint collect {A B} (f : A -> result SchedulerError B) (l : list A) : result SchedulerError (list B) :=
  match l with
  | [] => Ok []
  | x :: l' => y ← f x; ys ← collect f l'; Ok (y :: ys)
  end.
Definition claim_due_schedules (c : SchedulerConfig) (tokens : list Z) (locked : gset Z) (now : Z)
    : ST Store SchedulerError (list DueSchedule) := fun s =>
  let rows := claimed_schedules c tokens locked now (schedules s) in
  if forallb (fun x => schedule_ok x.1 x.2) rows
  then (collect (fun x => decode_due now x.1 x.2) rows, with_schedules (list_to_map rows ∪ schedules s) s)
  else (Err DatabaseFailed, s).
(** The envelopes of a plan: fresh ones, with their run identifiers. *)
Fixpoint prepare (factory : Factory) (schedule : Z) (calls : nat) (used : gset Z) (times : list Z)
    : result SchedulerError (list (Z * EncodedJobEnvelope)) :=
  match times with
  | [] => Ok []
  | t :: times' =>
      e ← ok_or (factory calls schedule t 0) EnvelopeFactory;
      _ ← guard_err (bool_decide (job_id (header e) ∈ used)) InvalidEnvelope;
      rest ← prepare factory schedule (S calls) ({[job_id (header e)]} ∪ used) times';
      Ok ((t, e) :: rest)
  end.
Fixpoint insert_runs (schedule : Z) (l : list (Z * EncodedJobEnvelope)) (stamps : nat -> Stamp) (n : nat) : Tx (list Z) :=
  match l with
  | [] => mret []
  | (t, e) :: l' =>
      _ ← insert_run (stamps n) schedule t 0 None e;
      ids ← insert_runs schedule l' stamps (S n);
      mret (stamp_id (stamps n) :: ids)
  end.
Definition owned (claim : DueSchedule) (r : Schedule) : bool :=
  (revision r =? snap_revision (snapshot claim)) && (next_run_at r =? snap_next_run_at (snapshot claim))
  && match sch_lease r with Some l => token l =? fence claim | None => false end.
Definition materialize_due (claim : DueSchedule) (factory : Factory) (stamps : nat -> Stamp) (updated : Z) : ST Store SchedulerError (list Z) :=
  let snap := snapshot claim in
  atomically (
    plan ← tx_lift (evaluate_occurrences (definition snap) (snap_next_run_at snap) (claimed_at claim));
    prepared ← tx_lift (prepare factory (snap_id snap) 0 ∅ (occurrences plan));
    s ← tx_get;
    row ← tx_lift (match schedules s !! snap_id snap with
                   | Some r => if owned claim r then Ok r else Err LostLease
                   | None => Err LostLease
                   end);
    ids ← insert_runs (snap_id snap) prepared stamps 0;
    _ ← put_schedule (snap_id snap) (with_sch_lease None (plan_next plan) updated row);
    mret ids).

(** ** Dispatching *)
Record LeasedRun := {
  leased_id : Z;
  leased_schedule : Z;
  leased_for : Z;
  leased_sequence : Z;
  leased_job : Z;
  leased_envelope : EncodedJobEnvelope;
  attempt : Z;
  leased_fence : Z;
  lease_expires_at : Z;
}.
Definition dispatchable (now : Z) (r : Run) : bool :=
  let s := state r in
  (available_at s <=? now)
  && match status s with
     | PendingDispatch => true
     | Dispatching => match dispatch_lease s with Some l => expires_at l <=? now | None => false end
     | _ => false
     end.
Definition dispatch_key (x : Z * Run) : Z * Z * Z := (available_at (state x.2), scheduled_for (identity x.2), run_id (identity x.2)).
Definition dispatch_rows (c : SchedulerConfig) (locked : gset Z) (now : Z) (m : gmap Z Run) : list (Z * Run) :=
  take (Z.to_nat (dispatch_claim_batch c))
    (sort_by (by_key dispatch_key) (filter (fun x => (x.1 ∉ locked) /\ dispatchable now x.2 = true) (map_to_list m))).
Definition claimed_run (c : SchedulerConfig) (now micros tok : Z) (r : Run) : Run :=
  let s := state r in
  {| identity := identity r;
     state := {| status := Dispatching; available_at := available_at s; dispatch_attempt_count := dispatch_attempt_count s + 1;
                 dispatch_lease := Some {| owner := lease_owner c; token := tok; expires_at := now + micros |};
                 dispatched_at := dispatched_at s; last_dispatch_error := last_dispatch_error s;
                 execution_attempt_count := execution_attempt_count s; execution_lease := execution_lease s; started_at := started_at s;
                 completed_at := completed_at s; failed_at := failed_at s; failure_code := failure_code s |} |}.
Definition decode_leased_run (job : Z) (r : Run) : result SchedulerError LeasedRun :=
  let i := identity r in
  _ ← map_err (fun _ => InvalidEnvelope) (text.queue (run_queue i));
  e ← map_err (fun _ => InvalidEnvelope) (restore (envelope_json i) (run_queue i));
  _ ← guard_err (negb (job_id (header e) =? job)) InvalidEnvelope;
  id ← id_from_database (run_id i);
  sched ← id_from_database (schedule_id i);
  _ ← guard_err (replay_sequence i <? 0) DatabaseFailed;
  _ ← guard_err (dispatch_attempt_count (state r) <? 0) DatabaseFailed;
  l ← ok_or (dispatch_lease (state r)) DatabaseFailed;
  f ← id_from_database (token l);
  Ok {| leased_id := id; leased_schedule := sched; leased_for := scheduled_for i; leased_sequence := replay_sequence i;
        leased_job := job_id (header e); leased_envelope := e; attempt := dispatch_attempt_count (state r); leased_fence := f;
        lease_expires_at := expires_at l |}.
Definition claimed_runs (c : SchedulerConfig) (micros : Z) (tokens : list Z) (locked : gset Z) (now : Z) (m : gmap Z Run) : list (Z * Run) :=
  zip_with (fun x tok => (x.1, claimed_run c now micros tok x.2)) (dispatch_rows c locked now m) tokens.
Definition claim_pending_runs (c : SchedulerConfig) (tokens : list Z) (locked : gset Z) (now : Z) : ST Store SchedulerError (list LeasedRun) := fun s =>
  match duration_micros (dispatch_lease_duration c) with
  | Err e => (Err e, s)
  | Ok micros =>
      let rows := claimed_runs c micros tokens locked now (runs s) in
      if forallb (fun x => run_ok x.1 x.2) rows
      then (collect (fun x => decode_leased_run x.1 x.2) rows, with_runs (list_to_map rows ∪ runs s) s)
      else (Err DatabaseFailed, s)
  end.
(** The guard of both acknowledgements. *)
Definition holds_dispatch (run : LeasedRun) (now : Z) (r : Run) : bool :=
  (run_id (identity r) =? leased_id run) && bool_decide (status (state r) = Dispatching)
  && match dispatch_lease (state r) with Some l => (token l =? leased_fence run) && (now <? expires_at l) | None => false end.
(** A guarded [UPDATE] of one run: [rows_affected() == 1]. *)
Definition update_run (job : Z) (guard : Run -> bool) (f : RunState -> RunState) : ST Store SchedulerError unit := fun s =>
  match runs s !! job with
  | Some r =>
      if guard r then
        let r' := {| identity := identity r; state := f (state r) |} in
        if run_ok job r' then (Ok tt, with_runs (<[job := r']> (runs s)) s) else (Err DatabaseFailed, s)
      else (Err LostLease, s)
  | None => (Err LostLease, s)
  end.
Definition or_default (o : option Z) (t : Z) : option Z := match o with Some x => Some x | None => Some t end.
Definition dispatched_state (now : Z) (s : RunState) : RunState :=
  {| status := Dispatched; available_at := available_at s; dispatch_attempt_count := dispatch_attempt_count s; dispatch_lease := None;
     dispatched_at := or_default (dispatched_at s) now; last_dispatch_error := None; execution_attempt_count := execution_attempt_count s;
     execution_lease := execution_lease s; started_at := started_at s; completed_at := completed_at s; failed_at := failed_at s;
     failure_code := failure_code s |}.
Definition mark_dispatched (run : LeasedRun) (now stored : Z) : ST Store SchedulerError unit :=
  update_run (leased_job run) (holds_dispatch run now) (dispatched_state stored).
Definition retry_state (available : Z) (class : string) (s : RunState) : RunState :=
  {| status := PendingDispatch; available_at := available; dispatch_attempt_count := dispatch_attempt_count s; dispatch_lease := None;
     dispatched_at := dispatched_at s; last_dispatch_error := Some class; execution_attempt_count := execution_attempt_count s;
     execution_lease := execution_lease s; started_at := started_at s; completed_at := completed_at s; failed_at := failed_at s;
     failure_code := failure_code s |}.
Definition mark_dispatch_retry (c : SchedulerConfig) (run : LeasedRun) (class : string) (now stored : Z) : ST Store SchedulerError unit := fun s =>
  match duration_micros (dispatch_retry_delay c) with
  | Err e => (Err e, s)
  | Ok micros => update_run (leased_job run) (holds_dispatch run now) (retry_state (stored + micros) class) s
  end.
Definition enqueue_class (e : EnqueueError) : string :=
  match e with
  | JobWire.InvalidEnvelope => "invalid_envelope"
  | Capacity => "capacity"
  | Unavailable => "unavailable"
  | Rejected => "rejected"
  end.
(** What the enqueuer's future gives within its timeout. *)
Inductive Handoff := Receipt (r : EnqueueReceipt) | EnqueueFailed (e : EnqueueError) | EnqueueTimedOut.
Definition dispatch_claimed (c : SchedulerConfig) (run : LeasedRun) (h : Handoff) (now stored : Z) : ST Store SchedulerError unit :=
  match h with
  | Receipt r =>
      if (rc_job_id r =? leased_job run) && bool_decide (rc_queue r = queue (leased_envelope run)) then mark_dispatched run now stored
      else _ ← mark_dispatch_retry c run "receipt_mismatch" now stored; st_throw Provider
  | EnqueueFailed e => _ ← mark_dispatch_retry c run (enqueue_class e) now stored; st_throw Provider
  | EnqueueTimedOut => _ ← mark_dispatch_retry c run "timeout" now stored; st_throw Provider
  end.

(** ** Reading *)
Definition schedule (id : Z) (s : Store) : result SchedulerError (option ScheduleSnapshot) :=
  match schedules s !! id with
  | Some r => x ← decode_snapshot id r; Ok (Some x)
  | None => Ok None
  end.
Definition run_status (job : Z) (s : Store) : option RunStatus := status ∘ state <$> runs s !! job.
Definition count_runs (p : RunState -> bool) (s : Store) : Z := Z.of_nat (size (filter (fun x : Z * Run => p (state x.2) = true) (runs s))).
Record SchedulerStatus := { due_schedules : Z; pending_dispatch : Z; active_executions : Z; failed_runs : Z }.
Definition live_execution (now : Z) (s : RunState) : bool :=
  bool_decide (status s = Running) && match execution_lease s with Some (_, e) => now <? e | None => false end.
Definition scheduler_status (now now' : Z) (s : Store) : SchedulerStatus :=
  {| due_schedules := Z.of_nat (length (filter (fun x => negb (paused x.2) && (next_run_at x.2 <=? now) = true) (map_to_list (schedules s))));
     pending_dispatch := count_runs (fun r => bool_decide (status r = PendingDispatch \/ status r = Dispatching)) s;
     active_executions := count_runs (live_execution now') s;
     failed_runs := count_runs (fun r => bool_decide (status r = Failed)) s |}.
Definition decode_audit (a : Audit) : result SchedulerError Audit := _ ← id_from_database (audit_schedule a); Ok a.
Definition audit_records (id : Z) (s : Store) : result SchedulerError (list Audit) :=
  collect decode_audit (sort_by (by_key (fun a => (occurred_at a, audit_id a))) (filter (fun a => audit_schedule a = id) (audits s))).

(** ** Executing: [handler.rs] *)
(** [AlreadyCompleted] and [AlreadyFailed] are [Completed] and [Failed] in the code. *)
Inductive Acquisition := AlreadyCompleted | AlreadyFailed | Busy | DeadlineExpired | Missing | Acquired (fence lease_duration : Z).
(** The other live executions of the schedule. *)
Definition active_execution_count (schedule job now : Z) (m : gmap Z Run) : Z :=
  Z.of_nat (size (filter (fun x : Z * Run => schedule_id (identity x.2) = schedule /\ x.1 <> job /\ live_execution now (state x.2) = true) m)).
Definition running_state (fence expires now : Z) (s : RunState) : RunState :=
  {| status := Running; available_at := available_at s; dispatch_attempt_count := dispatch_attempt_count s; dispatch_lease := None;
     dispatched_at := or_default (dispatched_at s) now; last_dispatch_error := last_dispatch_error s;
     execution_attempt_count := execution_attempt_count s + 1; execution_lease := Some (fence, expires);
     started_at := or_default (started_at s) now; completed_at := completed_at s; failed_at := failed_at s; failure_code := failure_code s |}.
Definition executable (s : RunState) : bool := match status s with Dispatching | Dispatched | Running => true | _ => false end.
Definition claim_guard (deadline now : Z) (r : Run) : bool :=
  executable (state r)
  && negb (bool_decide (status (state r) = Running) && match execution_lease (state r) with Some (_, e) => negb (e <=? now) | None => true end)
  && (now <? deadline - EXECUTION_FINISH_SAFETY_MICROS).
Definition claim_execution (job fence micros deadline now : Z) : Tx bool := fun s =>
  match runs s !! job with
  | Some r =>
      if claim_guard deadline now r then
        let r' := {| identity := identity r;
                     state := running_state fence (Z.min (now + micros) (deadline - EXECUTION_FINISH_SAFETY_MICROS)) now (state r) |} in
        if run_ok job r' then Ok (true, with_runs (<[job := r']> (runs s)) s) else Err DatabaseFailed
      else Ok (false, s)
  | None => Ok (false, s)
  end.
(** The clock readings of an acquisition, in their order. *)
Record AcquireClock := { looked_at : Z; counted_at : Z; leased_at : Z; claimed_now : Z }.
Definition acquire_execution_in_transaction (job deadline fence : Z) (t : AcquireClock) : Tx Acquisition :=
  s ← tx_get;
  match runs s !! job with
  | None => mret Missing
  | Some r =>
      match status (state r) with
      | Completed => mret AlreadyCompleted
      | Failed => mret AlreadyFailed
      | PendingDispatch => mret Busy
      | Dispatching | Dispatched | Running =>
          if bool_decide (status (state r) = Running) && match execution_lease (state r) with Some (_, e) => looked_at t <? e | None => false end
          then mret Busy
          else
            sched ← tx_lift (ok_or (schedules s !! schedule_id (identity r)) DatabaseFailed);
            if col_concurrent (columns sched) <=? active_execution_count (schedule_id (identity r)) job (counted_at t) (runs s)
            then mret Busy
            else
              lease ← tx_lift (duration_from_micros (col_execution_micros (columns sched)));
              match deadline_capped_lease lease deadline (leased_at t) with
              | None => mret DeadlineExpired
              | Some d =>
                  micros ← tx_lift (duration_micros d);
                  claimed ← claim_execution job fence micros deadline (claimed_now t);
                  mret (if (claimed : bool) then Acquired fence d else DeadlineExpired)
              end
      end
  end.
Definition acquire_execution (job deadline fence : Z) (t : AcquireClock) : ST Store SchedulerError Acquisition :=
  atomically (acquire_execution_in_transaction job deadline fence t).
Definition holds_execution (fence now : Z) (r : Run) : bool :=
  bool_decide (status (state r) = Running)
  && match execution_lease (state r) with Some (t, e) => (t =? fence) && (now <? e) | None => false end.
Definition with_execution_lease (l : option (Z * Z)) (s : RunState) : RunState :=
  {| status := status s; available_at := available_at s; dispatch_attempt_count := dispatch_attempt_count s; dispatch_lease := dispatch_lease s;
     dispatched_at := dispatched_at s; last_dispatch_error := last_dispatch_error s; execution_attempt_count := execution_attempt_count s;
     execution_lease := l; started_at := started_at s; completed_at := completed_at s; failed_at := failed_at s; failure_code := failure_code s |}.
Definition renew_execution (job fence lease_duration deadline now : Z) : ST Store SchedulerError unit := fun s =>
  match duration_micros lease_duration with
  | Err e => (Err e, s)
  | Ok micros =>
      update_run job (fun r => holds_execution fence now r && (now <? deadline - EXECUTION_FINISH_SAFETY_MICROS))
        (with_execution_lease (Some (fence, Z.min (now + micros) (deadline - EXECUTION_FINISH_SAFETY_MICROS)))) s
  end.
Definition finished_state (o : HandlerOutcome) (at_ : Z) (s : RunState) : RunState :=
  let '(st, code) := match o with
                     | Succeeded => (Completed, None)
                     | Retryable _ | Cancelled => (Dispatched, None)
                     | Permanent c => (Failed, Some c)
                     end in
  {| status := st; available_at := available_at s; dispatch_attempt_count := dispatch_attempt_count s; dispatch_lease := dispatch_lease s;
     dispatched_at := dispatched_at s; last_dispatch_error := last_dispatch_error s; execution_attempt_count := execution_attempt_count s;
     execution_lease := None; started_at := started_at s;
     completed_at := match st with Completed => Some at_ | _ => None end;
     failed_at := match st with Failed => Some at_ | _ => None end;
     failure_code := code |}.
Definition finish_execution (job fence : Z) (o : HandlerOutcome) (now stored : Z) : ST Store SchedulerError unit :=
  update_run job (holds_execution fence now) (finished_state o stored).

(** What ends the loop around the inner handler. *)
Inductive Ending := HandlerDone (o : HandlerOutcome) | HandlerPanicked | ExecutionTimedOut | ExecutionCancelled.
(** What happens around one delivery: whether each statement reaches the database, what
    other transactions do before it, and its clock readings. *)
Record Delivery := {
  acquire_runs : bool;
  acquire_clock : AcquireClock;
  new_fence : Z;
  budget_now : Z;
  renewals : list (bool * (Store -> Store) * Z);
  ending : Ending;
  before_finish : Store -> Store;
  finish_runs : bool;
  finish_now : Z;
  finish_stored : Z;
}.
Definition ending_outcome (e : Ending) : HandlerOutcome :=
  match e with
  | HandlerDone o => o
  | HandlerPanicked => Permanent "scheduled_handler_panic"
  | ExecutionTimedOut => Retryable "scheduled_execution_timeout"
  | ExecutionCancelled => Cancelled
  end.
(** The renewals that happen before the loop ends; the first that fails ends it. *)
Fixpoint execute (job fence lease deadline : Z) (l : list (bool * (Store -> Store) * Z)) (e : Ending) (s : Store) : HandlerOutcome * Store :=
  match l with
  | [] => (ending_outcome e, s)
  | (ok, rivals, now) :: l' =>
      let s := rivals s in
      if ok then match renew_execution job fence lease deadline now s with
                 | (Ok _, s') => execute job fence lease deadline l' e s'
                 | (Err _, s') => (Retryable "scheduled_execution_lease_lost", s')
                 end
      else (Retryable "scheduled_execution_lease_lost", s)
  end.
Definition scheduled_handle (J : Type) `{Job J} (e : EncodedJobEnvelope) (ctx : DeliveryContext) (deadline : Z) (d : Delivery) (s : Store)
    : HandlerOutcome * Store :=
  if cancelled ctx then (Cancelled, s) else
  if negb (job_id (header e) =? ef_job_id (effect_identity ctx)) || negb (bool_decide (job_type (header e) = NAME J))
  then (Permanent "scheduled_context_mismatch", s) else
  match decode J (bytes e) with
  | Err _ => (Permanent "scheduled_invalid_envelope", s)
  | Ok _ =>
      let job := ef_job_id (effect_identity ctx) in
      if negb (acquire_runs d) then (Retryable "scheduler_gate_unavailable", s) else
      match acquire_execution job deadline (new_fence d) (acquire_clock d) s with
      | (Err _, s) => (Retryable "scheduler_gate_unavailable", s)
      | (Ok AlreadyCompleted, s) => (Succeeded, s)
      | (Ok AlreadyFailed, s) => (Permanent "scheduled_run_failed", s)
      | (Ok Busy, s) => (Retryable "scheduled_execution_busy", s)
      | (Ok DeadlineExpired, s) => (Retryable "scheduled_execution_timeout", s)
      | (Ok Missing, s) => (Permanent "unscheduled_job", s)
      | (Ok (Acquired f lease), s) =>
          let '(outcome, s) := match bounded_execution_budget lease deadline (budget_now d) with
                               | None => (Retryable "scheduled_execution_timeout", s)
                               | Some _ => execute job f lease deadline (renewals d) (ending d) s
                               end in
          let s := before_finish d s in
          if finish_runs d then
            match finish_execution job f outcome (finish_now d) (finish_stored d) s with
            | (Ok _, s) => (outcome, s)
            | (Err _, s) => (Retryable "scheduled_execution_lease_lost", s)
            end
          else (Retryable "scheduled_execution_lease_lost", s)
      end
  end.
End scheduler.
