(* ===== verification/SchedulerFacts.v ===== *)
(** * What each transaction of the scheduler does to the store *)
From S2P Require Import Prelude Machine Text Ordered JsonShape JobPolicy JobWire SchedulerTypes Scheduler.

(** ** Transactions *)
Lemma tx_bind_ok {A B} (m : Tx A) (f : A -> Tx B) s r : (m ≫= f) s = Ok r -> exists a s1, m s = Ok (a, s1) /\ f a s1 = Ok r.
Proof. unfold mbind, tx_bind. destruct (m s) as [[a s1]|]; [eauto | done]. Qed.
Lemma tx_lift_ok {A} (r : result SchedulerError A) s a s' : tx_lift r s = Ok (a, s') -> r = Ok a /\ s' = s.
Proof. unfold tx_lift. destruct r; [|done]. by intros [= -> ->]. Qed.
Lemma tx_guard_ok b e s u s' : tx_guard b e s = Ok (u, s') -> b = false /\ s' = s.
Proof. unfold tx_guard. destruct b; [done|]. by intros [= _ ->]. Qed.
Lemma atomically_ok {A} (m : Tx A) s a s' : atomically m s = (Ok a, s') -> m s = Ok (a, s').
Proof. unfold atomically. destruct (m s) as [[a' s1]|]; [|done]. by intros [= -> ->]. Qed.
(** Peels a transaction that succeeded. *)
Ltac inv_tx := repeat match goal with
  | H : atomically _ _ = (Ok _, _) |- _ => apply atomically_ok in H
  | H : _ ≫= _ = _ |- _ => fail 1
  | H : (_ ≫= _) _ = Ok _ |- _ =>
      let a := fresh "a" in let s := fresh "s" in let H1 := fresh "Htx" in let H2 := fresh "Htx" in
      apply tx_bind_ok in H as (a & s & H1 & H2)
  | H : tx_lift _ _ = Ok _ |- _ => let H1 := fresh "Hl" in let H2 := fresh "Hs" in apply tx_lift_ok in H as [H1 H2]
  | H : tx_guard _ _ _ = Ok _ |- _ => let H1 := fresh "Hg" in let H2 := fresh "Hs" in apply tx_guard_ok in H as [H1 H2]
  | H : tx_get _ = Ok _ |- _ => injection H as H
  | H : mret _ _ = Ok _ |- _ => injection H as H
  end; simplify_eq/=.

Section facts.
Context `{Calendar} `{JsonColumn} `{SerdeJson} `{UuidText}.
Lemma put_schedule_ok id r s u s' : put_schedule id r s = Ok (u, s') -> schedule_ok id r = true
  /\ map_Forall (fun i r' => i = id \/ col_name (columns r') <> col_name (columns r)) (schedules s)
  /\ s' = with_schedules (<[id := r]> (schedules s)) s.
Proof.
  unfold put_schedule. destruct (schedule_ok id r); [|done]. cbn [andb]. case_bool_decide; [|done]. by intros [= _ <-].
Qed.
Lemma append_audit_ok st id act who why prev new s u s' : append_audit st id act who why prev new s = Ok (u, s') ->
  exists a, audit_schedule a = id /\ action a = act /\ previous_revision a = prev /\ new_revision a = new /\ actor a = who /\ reason a = why
    /\ is_Some (schedules s !! id) /\ s' = with_audits (a :: audits s) s.
Proof.
  unfold append_audit. set (a := {| audit_id := _ |}). destruct (audit_ok a && _ && _) eqn:E; [|done]. intros [= _ <-]. exists a.
  rewrite !andb_true_iff in E. destruct E as [_ E]. unfold is_some, is_none in E. split_and!; try done. by destruct (schedules s !! id); [eexists|].
Qed.
Lemma create_schedule_ok now created updated id st d who why s snap s' : create_schedule now created updated id st d who why s = (Ok snap, s') ->
  exists c next a r, next_occurrence d now = Ok next /\ columns_of d = Ok c
    /\ r = {| columns := c; paused := def_paused d; revision := 1; next_run_at := next; sch_lease := None; created_at := created; updated_at := updated |}
    /\ schedules s !! id = None /\ schedule_ok id r = true /\ decode_snapshot id r = Ok snap
    /\ map_Forall (fun i r' => i = id \/ col_name (columns r') <> col_name c) (schedules s)
    /\ audit_schedule a = id /\ action a = "create" /\ previous_revision a = None /\ new_revision a = 1 /\ actor a = who /\ reason a = why
    /\ s' = {| schedules := <[id := r]> (schedules s); runs := runs s; audits := a :: audits s |}.
Proof.
  unfold create_schedule. intros Hc. inv_tx.
  match goal with Hp : put_schedule _ _ _ = _ |- _ => apply put_schedule_ok in Hp as (Hok & Hn & ->) end.
  match goal with Ha : append_audit _ _ _ _ _ _ _ _ = _ |- _ => apply append_audit_ok in Ha as (au & A1 & A2 & A3 & A4 & A5 & A6 & _ & ->) end.
  eexists _, _, au, _. split_and!; try done. unfold is_some, is_none in *. by destruct (schedules _ !! id).
Qed.
Lemma require_revision_ok id n s r s' : require_revision id n s = Ok (r, s') -> schedules s !! id = Some r /\ revision r = n /\ s' = s.
Proof. unfold require_revision. destruct (schedules s !! id) as [r'|]; [|done]. destruct (Z.eqb_spec (revision r') n); [|done]. by intros [= -> ->]. Qed.
(** What the two updates of a schedule have in common. *)
Definition revised (act : string) (id : Z) (old r : Schedule) (a : Audit) (s s' : Store) : Prop :=
  schedules s !! id = Some old /\ revision r = revision old + 1 /\ sch_lease r = None /\ schedule_ok id r = true
  /\ map_Forall (fun i r' => i = id \/ col_name (columns r') <> col_name (columns r)) (schedules s)
  /\ audit_schedule a = id /\ action a = act /\ previous_revision a = Some (revision old) /\ new_revision a = revision r
  /\ s' = {| schedules := <[id := r]> (schedules s); runs := runs s; audits := a :: audits s |}.
Lemma update_schedule_ok id n now updated st d who why s snap s' : update_schedule id n now updated st d who why s = (Ok snap, s') ->
  exists c next a old r, next_occurrence d now = Ok next /\ columns_of d = Ok c /\ columns r = c /\ paused r = def_paused d
    /\ next_run_at r = next /\ revision old = n /\ decode_snapshot id r = Ok snap /\ actor a = who /\ reason a = why /\ revised "update" id old r a s s'.
Proof.
  unfold update_schedule. intros Hc. inv_tx.
  match goal with Hp : require_revision _ _ _ = _ |- _ => apply require_revision_ok in Hp as (Hold & Hrev & ->) end.
  match goal with Hp : put_schedule _ _ _ = _ |- _ => apply put_schedule_ok in Hp as (Hok & Hn & ->) end.
  match goal with Ha : append_audit _ _ _ _ _ _ _ _ = _ |- _ => apply append_audit_ok in Ha as (au & A1 & A2 & A3 & A4 & A5 & A6 & _ & ->) end.
  eexists _, _, au, _, _. unfold revised. split_and!; try done; cbn; congruence.
Qed.
Lemma set_paused_ok id n p now updated st who why s snap s' : set_paused id n p now updated st who why s = (Ok snap, s') ->
  exists current a old r, decode_snapshot id old = Ok current /\ columns r = columns old /\ paused r = p
    /\ (if p then next_run_at r = next_run_at old else next_occurrence (definition current) now = Ok (next_run_at r))
    /\ revision old = n /\ decode_snapshot id r = Ok snap /\ actor a = who /\ reason a = why
    /\ revised (if p then "pause" else "resume") id old r a s s'.
Proof.
  unfold set_paused. intros Hc. inv_tx.
  match goal with Hp : require_revision _ _ _ = _ |- _ => apply require_revision_ok in Hp as (Hold & Hrev & ->) end.
  match goal with Hp : put_schedule _ _ _ = _ |- _ => apply put_schedule_ok in Hp as (Hok & Hn & ->) end.
  match goal with Ha : append_audit _ _ _ _ _ _ _ _ = _ |- _ => apply append_audit_ok in Ha as (au & A1 & A2 & A3 & A4 & A5 & A6 & _ & ->) end.
  match goal with Hd : decode_snapshot id ?o = Ok ?cur, Hold : schedules _ !! id = Some ?o, Hd' : decode_snapshot id ?r = Ok snap |- _ =>
    exists cur, au, o, r; assert (Hnext : snap_next_run_at cur = next_run_at o) by (unfold decode_snapshot in Hd; inv_ok; by subst) end.
  unfold revised. split_and!; try done; cbn; try congruence; destruct p; simpl in *; done || congruence.
Qed.
Lemma insert_run_ok st sched t seq orig e s u s' : insert_run st sched t seq orig e s = Ok (u, s') ->
  exists r, identity r = {| run_id := stamp_id st; schedule_id := sched; scheduled_for := t; replay_sequence := seq; replay_of := orig;
                            run_queue := queue e; envelope_json := bytes e; run_created_at := stamp_at st |}
    /\ state r = new_state (stamp_at st) /\ runs s !! job_id (header e) = None /\ run_unique (identity r) (runs s) = true
    /\ run_ok (job_id (header e)) r = true /\ is_Some (schedules s !! sched) /\ s' = with_runs (<[job_id (header e) := r]> (runs s)) s.
Proof.
  unfold insert_run. destruct (negb _); [done|]. set (i := {| run_id := _ |}). set (r := {| identity := i; state := _ |}).
  destruct (run_ok _ r && _ && _ && _) eqn:E; [|done]. rewrite !andb_true_iff in E. destruct E as [[[E1 E2] E3] E4]. intros [= _ <-].
  exists r. unfold is_some, is_none in *. split_and!; try done; [by destruct (runs s !! _) | by destruct (schedules s !! sched); [eexists|]].
Qed.
Lemma update_run_ok job g f s u s' : update_run job g f s = (Ok u, s') -> exists r, runs s !! job = Some r /\ g r = true
  /\ run_ok job {| identity := identity r; state := f (state r) |} = true
  /\ s' = with_runs (<[job := {| identity := identity r; state := f (state r) |}]> (runs s)) s.
Proof.
  unfold update_run. destruct (runs s !! job) as [r|] eqn:Er; [|done]. destruct (g r) eqn:Eg; [|done]. cbv zeta.
  destruct (run_ok job _) eqn:Eok; [|done]. intros [= <-]. by exists r.
Qed.
Lemma update_run_cases job g f s r s' : update_run job g f s = (r, s') -> s' = s \/ exists u, update_run job g f s = (Ok u, s').
Proof.
  intros Hu. destruct r as [u|e]; [right; by exists u|]. left. unfold update_run in Hu. destruct (runs s !! job) as [r|]; [|by injection Hu].
  destruct (g r); [|by injection Hu]. cbv zeta in Hu. destruct (run_ok job _); by injection Hu.
Qed.
(** An acquisition of the run by the fence. *)
Definition acquired (job deadline fence : Z) (t : AcquireClock) (s s' : Store) : Prop :=
  exists r sched expires, runs s !! job = Some r /\ schedules s !! schedule_id (identity r) = Some sched
    /\ executable (state r) = true /\ claim_guard deadline (claimed_now t) r = true
    /\ active_execution_count (schedule_id (identity r)) job (counted_at t) (runs s) < col_concurrent (columns sched)
    /\ run_ok job {| identity := identity r; state := running_state fence expires (claimed_now t) (state r) |} = true
    /\ s' = with_runs (<[job := {| identity := identity r; state := running_state fence expires (claimed_now t) (state r) |}]> (runs s)) s.
Lemma claim_execution_ok job fence micros deadline now s b s' : claim_execution job fence micros deadline now s = Ok (b, s') ->
  (b = false /\ s' = s) \/ exists r expires, b = true /\ runs s !! job = Some r /\ claim_guard deadline now r = true
    /\ run_ok job {| identity := identity r; state := running_state fence expires now (state r) |} = true
    /\ s' = with_runs (<[job := {| identity := identity r; state := running_state fence expires now (state r) |}]> (runs s)) s.
Proof.
  unfold claim_execution. destruct (runs s !! job) as [r|]; [|intros [= <- <-]; by left].
  destruct (claim_guard deadline now r) eqn:Eg; [|intros [= <- <-]; by left]. cbv zeta.
  destruct (run_ok job _) eqn:Eok; [|done]. intros [= <- <-]. right. by eexists r, _.
Qed.
Lemma acquire_tx_ok job deadline fence t s a s' : acquire_execution_in_transaction job deadline fence t s = Ok (a, s') ->
  (s' = s /\ forall f d, a <> Acquired f d) \/ exists d, a = Acquired fence d /\ acquired job deadline fence t s s'.
Proof.
  unfold acquire_execution_in_transaction. intros Ha. apply tx_bind_ok in Ha as (s0 & s1 & [= <- <-] & Ha).
  destruct (runs s !! job) as [r|] eqn:Er; [|injection Ha as <- <-; by left].
  destruct (status (state r)) eqn:Est; try (injection Ha as <- <-; by left).
  all: destruct (_ && _) in Ha; [injection Ha as <- <-; by left|]; apply tx_bind_ok in Ha as (sched & s1 & Hl & Ha);
    apply tx_lift_ok in Hl as [Hl ->]; apply ok_or_ok in Hl;
    destruct (Z.leb_spec (col_concurrent (columns sched)) (active_execution_count (schedule_id (identity r)) job (counted_at t) (runs s)));
    [injection Ha as <- <-; by left|]; apply tx_bind_ok in Ha as (lease & s1 & Hd & Ha); apply tx_lift_ok in Hd as [_ ->];
    destruct (deadline_capped_lease _ _ _) as [d|]; [|injection Ha as <- <-; by left];
    apply tx_bind_ok in Ha as (micros & s1 & Hm & Ha); apply tx_lift_ok in Hm as [_ ->]; apply tx_bind_ok in Ha as (b & s1 & Hc & Ha);
    injection Ha as <- <-; apply claim_execution_ok in Hc as [[-> ->]|(r' & expires & -> & Hr' & Hg & Hok & ->)]; [by left|right];
    rewrite Er in Hr'; injection Hr' as <-; exists d; split; [done|]; exists r, sched, expires; split_and!; try done; unfold executable; by rewrite Est.
Qed.
Lemma acquire_ok job deadline fence t s f d s' : acquire_execution job deadline fence t s = (Ok (Acquired f d), s') ->
  f = fence /\ acquired job deadline fence t s s'.
Proof. intros Ha. apply atomically_ok, acquire_tx_ok in Ha as [[_ Hn]|(d' & [= -> _] & Ha)]; [by destruct (Hn f d) | done]. Qed.
Lemma acquire_cases job deadline fence t s r s' : acquire_execution job deadline fence t s = (r, s') ->
  s' = s \/ acquired job deadline fence t s s'.
Proof.
  unfold acquire_execution, atomically. destruct (acquire_execution_in_transaction job deadline fence t s) as [[a s1]|e] eqn:Ea.
  - intros [= _ <-]. apply acquire_tx_ok in Ea as [[-> _]|(d & _ & Ha)]; [by left | by right].
  - intros [= _ <-]. by left.
Qed.

(** ** Materializing *)
(** An occurrence, and not a replay, of the schedule at the instant. *)
Definition normal_run (sched t : Z) (r : Run) : Prop :=
  schedule_id (identity r) = sched /\ scheduled_for (identity r) = t /\ replay_sequence (identity r) = 0.
Lemma prepare_times factory sched calls used times l : prepare factory sched calls used times = Ok l -> l.*1 = times.
Proof.
  revert calls used l. induction times as [|t times IH]; intros calls used l Hp; [by injection Hp as <-|]. cbn in Hp. inv_ok. subst l.
  cbn. f_equal. by eapply IH.
Qed.
Lemma insert_runs_ok sched l stamps n s ids s' : insert_runs sched l stamps n s = Ok (ids, s') ->
  schedules s' = schedules s /\ audits s' = audits s /\ runs s ⊆ runs s'
  /\ (forall j r, runs s' !! j = Some r -> runs s !! j = Some r
        \/ exists t at_, t ∈ l.*1 /\ normal_run sched t r /\ state r = new_state at_ /\ run_ok j r = true)
  /\ (forall t, t ∈ l.*1 -> exists j r, runs s' !! j = Some r /\ normal_run sched t r).
Proof.
  revert n s ids. induction l as [|[t e] l IH]; intros n s ids Hi.
  - injection Hi as <- <-; split_and!; [done | done | done | by left | by intros t ?%not_elem_of_nil].
  - cbn [insert_runs] in Hi. apply tx_bind_ok in Hi as (u & s1 & Hins & Hi).
    apply tx_bind_ok in Hi as (ids' & s2 & Hrest & Hi). injection Hi as <- <-. apply insert_run_ok in Hins as (r & Hid & Hst & Hnone & Hu & Hok & _ & ->).
    destruct (IH _ _ _ Hrest) as (I1 & I2 & I3 & I4 & I5). cbn in *.
    assert (Hsub : runs s ⊆ runs s2) by (etrans; [by apply insert_subseteq|exact I3]).
    assert (Hn : normal_run sched t r) by (unfold normal_run; by rewrite Hid). split_and!; [done | done | done | |].
    + intros j r' Hr'. destruct (I4 _ _ Hr') as [Hr''|(t' & at_ & Ht' & Hr'')]; [|right; exists t', at_; split; [by right | done]].
      apply lookup_insert_Some in Hr'' as [[<- <-]|[_ Hr'']]; [|by left]. right. exists t, (stamp_at (stamps n)). split; [by left | done].
    + intros t' Ht'. apply elem_of_cons in Ht' as [->|Ht']; [|by apply I5]. exists (job_id (header e)), r. split; [|done].
      eapply lookup_weaken; [|exact I3]. by rewrite lookup_insert_eq.
Qed.
(** No two runs for one occurrence, nor for one replay of it. *)
Definition occurrences_unique (m : gmap Z Run) : Prop := forall j r j' r', m !! j = Some r -> m !! j' = Some r' ->
  (schedule_id (identity r), scheduled_for (identity r), replay_sequence (identity r))
  = (schedule_id (identity r'), scheduled_for (identity r'), replay_sequence (identity r')) -> j = j'.
Lemma insert_unique m j r : run_unique (identity r) m = true -> occurrences_unique m -> occurrences_unique (<[j := r]> m).
Proof.
  unfold run_unique. rewrite bool_decide_eq_true. intros Hu Hm j1 r1 j2 r2 [[<- <-]|[N1 L1]]%lookup_insert_Some [[<- <-]|[N2 L2]]%lookup_insert_Some Heq.
  - done.
  - by destruct (Hu _ _ L2) as (_ & [] & _).
  - by destruct (Hu _ _ L1) as (_ & [] & _).
  - by eapply Hm.
Qed.
Lemma insert_runs_unique sched l stamps n s ids s' : insert_runs sched l stamps n s = Ok (ids, s') -> occurrences_unique (runs s) -> occurrences_unique (runs s').
Proof.
  revert n s ids. induction l as [|[t e] l IH]; intros n s ids Hi Hu; [by injection Hi as <- <-|].
  cbn [insert_runs] in Hi. apply tx_bind_ok in Hi as (u & s1 & Hins & Hi). apply tx_bind_ok in Hi as (ids' & s2 & Hrest & Hi). injection Hi as <- <-.
  apply insert_run_ok in Hins as (r & _ & _ & _ & Hr & _ & _ & ->). eapply IH; [done|]. by apply insert_unique.
Qed.
Lemma materialize_ok claim factory stamps updated s ids s' : materialize_due claim factory stamps updated s = (Ok ids, s') ->
  exists plan prepared row s1, evaluate_occurrences (definition (snapshot claim)) (snap_next_run_at (snapshot claim)) (claimed_at claim) = Ok plan
    /\ prepared.*1 = occurrences plan /\ schedules s !! snap_id (snapshot claim) = Some row /\ owned claim row = true
    /\ insert_runs (snap_id (snapshot claim)) prepared stamps 0 s = Ok (ids, s1)
    /\ schedule_ok (snap_id (snapshot claim)) (with_sch_lease None (plan_next plan) updated row) = true
    /\ map_Forall (fun i r' => i = snap_id (snapshot claim) \/ col_name (columns r') <> col_name (columns row)) (schedules s1)
    /\ s' = with_schedules (<[snap_id (snapshot claim) := with_sch_lease None (plan_next plan) updated row]> (schedules s1)) s1.
Proof.
  unfold materialize_due. intros Hm. apply atomically_ok in Hm. apply tx_bind_ok in Hm as (plan & s1 & Hp & Hm). apply tx_lift_ok in Hp as [Hp ->].
  apply tx_bind_ok in Hm as (prepared & s1 & Hpr & Hm). apply tx_lift_ok in Hpr as [Hpr ->].
  apply tx_bind_ok in Hm as (s0 & s1 & [= <- <-] & Hm). apply tx_bind_ok in Hm as (row & s1 & Hrow & Hm). apply tx_lift_ok in Hrow as [Hrow ->].
  destruct (schedules s !! _) as [row'|] eqn:Es; [|done]. destruct (owned claim row') eqn:Eo; [|done]. injection Hrow as ->.
  apply tx_bind_ok in Hm as (ids' & s1 & Hi & Hm). apply tx_bind_ok in Hm as (u & s2 & Hput & Hm). injection Hm as <- <-.
  apply put_schedule_ok in Hput as (Hok & Hn & ->). exists plan, prepared, row, s1. split_and!; try done. by eapply prepare_times.
Qed.
Lemma replay_ok sched t factory st st' who why s id s' : replay sched t factory st st' who why s = (Ok id, s') ->
  exists row a j r at_, schedules s !! sched = Some row /\ audit_schedule a = sched /\ action a = "replay"
    /\ runs s !! j = None /\ run_unique (identity r) (runs s) = true /\ schedule_id (identity r) = sched
    /\ 1 <= replay_sequence (identity r) /\ state r = new_state at_ /\ run_ok j r = true
    /\ s' = {| schedules := schedules s; runs := <[j := r]> (runs s); audits := a :: audits s |}.
Proof.
  unfold replay. intros Hr. apply atomically_ok in Hr. apply tx_bind_ok in Hr as (s0 & s1 & [= <- <-] & Hr).
  apply tx_bind_ok in Hr as (row & s1 & Hrow & Hr). apply tx_lift_ok in Hrow as [Hrow ->]. apply ok_or_ok in Hrow.
  apply tx_bind_ok in Hr as (orig & s1 & Ho & Hr). apply tx_lift_ok in Ho as [_ ->].
  apply tx_bind_ok in Hr as (seq & s1 & Hseq & Hr). apply tx_lift_ok in Hseq as [Hseq ->]. apply ok_or_ok in Hseq.
  apply tx_bind_ok in Hr as (e & s1 & He & Hr). apply tx_lift_ok in He as [_ ->].
  apply tx_bind_ok in Hr as (u & s1 & Hi & Hr). apply tx_bind_ok in Hr as (u' & s2 & Ha & Hr). injection Hr as <- <-.
  apply insert_run_ok in Hi as (r & Hid & Hst & Hn & Hu & Hok & _ & ->). apply append_audit_ok in Ha as (a & A1 & A2 & A3 & A4 & _ & _ & _ & ->).
  exists row, a, (job_id (header e)), r, (stamp_at st). split_and!; try done; [by rewrite Hid|]. rewrite Hid. cbn.
  unfold run_ok in Hok. rewrite Hid in Hok. cbn in Hok. rewrite !andb_true_iff, orb_true_iff, !andb_true_iff in Hok. unfold between in Hok.
  destruct Hok as [[_ [[_ ?]|[? _]]] _]; [done | blia].
Qed.
End facts.
