(* ===== verification/SchedulerHistory.v ===== *)
(** * The scheduler over time

    A [System] is the store, the database clock and the claims handed to schedulers.  A
    [step] is one transaction or statement of [repository.rs] or [handler.rs]; its clock
    readings lie between the clock before and after it.  Acquiring an execution locks the
    run and then its schedule, so that acquisitions for one schedule exclude each other
    and the whole transaction is one step.  [step_moves] sorts the steps by what they do
    to the store. *)
From S2P Require Import Prelude Machine Text Ordered JsonShape JobPolicy JobWire SchedulerTypes Scheduler.
From S2P Require Import SchedulerFacts.

Record System := { store : Store; clock : Z; claims : list DueSchedule }.
(** [find_next_occurrence] gives the first matching instant strictly after its argument,
    and the name of a time zone names it. *)
Class CalendarLaws `{Calendar} := {
  fires : string -> string -> Z -> Prop;
  find_next_first : forall e z t n, find_next e z t = Some n -> t < n /\ fires e z n /\ forall u, t < u < n -> ~ fires e z u;
  zone_name : forall s z, zone s = Some z -> zone z = Some z;
}.

Abbreviation fires_for d := (fires (expression d) (timezone d)).

Section history.
Context `{CalendarLaws} `{JsonColumn} `{SerdeJson} `{UuidText}.
(** What [ScheduleDefinition::new] builds. *)
Definition valid_definition (d : ScheduleDefinition) : Prop :=
  exists name expr tz policy concurrent lease execution window p,
    ScheduleDefinition_new name expr tz policy concurrent lease execution window p = Ok d.
Inductive step (x : System) : System -> Prop :=
| do_create now created updated id st d who why r s' t :
    clock x <= now -> now <= t -> valid_definition d -> create_schedule now created updated id st d who why (store x) = (r, s') ->
    step x {| store := s'; clock := t; claims := claims x |}
| do_update id n now updated st d who why r s' t :
    clock x <= now -> now <= t -> valid_definition d -> update_schedule id n now updated st d who why (store x) = (r, s') ->
    step x {| store := s'; clock := t; claims := claims x |}
| do_set_paused id n p now updated st who why r s' t :
    clock x <= now -> now <= t -> set_paused id n p now updated st who why (store x) = (r, s') ->
    step x {| store := s'; clock := t; claims := claims x |}
| do_replay sched at_ factory st st' who why r s' t :
    clock x <= t -> replay sched at_ factory st st' who why (store x) = (r, s') ->
    step x {| store := s'; clock := t; claims := claims x |}
| do_claim c tokens locked now r s' t :
    clock x <= now -> now <= t -> claim_due_schedules c tokens locked now (store x) = (r, s') ->
    step x {| store := s'; clock := t; claims := match r with Ok l => l ++ claims x | Err _ => claims x end |}
| do_materialize claim factory stamps updated r s' t :
    clock x <= t -> claim ∈ claims x -> materialize_due claim factory stamps updated (store x) = (r, s') ->
    step x {| store := s'; clock := t; claims := claims x |}
| do_claim_runs c tokens locked now r s' t :
    clock x <= now -> now <= t -> claim_pending_runs c tokens locked now (store x) = (r, s') ->
    step x {| store := s'; clock := t; claims := claims x |}
| do_handoff c run h now stored r s' t :
    clock x <= now -> now <= t -> dispatch_claimed c run h now stored (store x) = (r, s') ->
    step x {| store := s'; clock := t; claims := claims x |}
| do_acquire job deadline f u r s' t :
    clock x <= counted_at u -> counted_at u <= claimed_now u -> claimed_now u <= t -> acquire_execution job deadline f u (store x) = (r, s') ->
    step x {| store := s'; clock := t; claims := claims x |}
| do_renew job f lease deadline now r s' t :
    clock x <= now -> now <= t -> renew_execution job f lease deadline now (store x) = (r, s') ->
    step x {| store := s'; clock := t; claims := claims x |}
| do_finish job f o now stored r s' t :
    clock x <= now -> now <= t -> finish_execution job f o now stored (store x) = (r, s') ->
    step x {| store := s'; clock := t; claims := claims x |}.
Definition initial : System := {| store := {| schedules := ∅; runs := ∅; audits := [] |}; clock := 0; claims := [] |}.
Definition reachable (x : System) : Prop := rtc step initial x.

(** ** What a step does *)
Definition settled (r : Run) : Prop := status (state r) = Completed \/ status (state r) = Failed.
(** Runs keep their identity, settled ones stay as they are, and none becomes live. *)
Definition runs_move (now : Z) (m m' : gmap Z Run) : Prop :=
  (forall j r, m !! j = Some r -> is_Some (m' !! j))
  /\ forall j r', m' !! j = Some r' -> exists r, m !! j = Some r /\ identity r' = identity r /\ (run_ok j r = true -> run_ok j r' = true)
       /\ (settled r -> r' = r) /\ forall t, now <= t -> live_execution t (state r') = true -> live_execution now (state r) = true.
Inductive moves (x y : System) : Prop :=
| moves_none : store y = store x -> claims y = claims x -> moves x y
| moves_create i r a snap now : clock x <= now <= clock y -> schedules (store x) !! i = None -> decode_snapshot i r = Ok snap ->
    next_occurrence (definition snap) now = Ok (next_run_at r) -> revision r = 1 -> schedule_ok i r = true ->
    map_Forall (fun i' r' => i' = i \/ col_name (columns r') <> col_name (columns r)) (schedules (store x)) ->
    audit_schedule a = i -> action a = "create" -> new_revision a = 1 ->
    store y = {| schedules := <[i := r]> (schedules (store x)); runs := runs (store x); audits := a :: audits (store x) |} ->
    claims y = claims x -> moves x y
| moves_revise act i old r a snap : act <> "replay" -> revised act i old r a (store x) (store y) -> decode_snapshot i r = Ok snap ->
    ((exists now, clock x <= now <= clock y /\ next_occurrence (definition snap) now = Ok (next_run_at r))
     \/ columns r = columns old /\ next_run_at r = next_run_at old /\ paused r = true) ->
    claims y = claims x -> moves x y
| moves_replay a j r at_ : is_Some (schedules (store x) !! schedule_id (identity r)) -> action a = "replay" -> runs (store x) !! j = None ->
    run_unique (identity r) (runs (store x)) = true ->
    1 <= replay_sequence (identity r) -> state r = new_state at_ -> run_ok j r = true ->
    store y = {| schedules := schedules (store x); runs := <[j := r]> (runs (store x)); audits := a :: audits (store x) |} ->
    claims y = claims x -> moves x y
| moves_claim c tokens locked now l : clock x <= now <= clock y ->
    forallb (fun z => schedule_ok z.1 z.2) (claimed_schedules c tokens locked now (schedules (store x))) = true ->
    store y = with_schedules (list_to_map (claimed_schedules c tokens locked now (schedules (store x))) ∪ schedules (store x)) (store x) ->
    Forall (fun claim => exists r, (snap_id (snapshot claim), r) ∈ claimed_schedules c tokens locked now (schedules (store x))
                            /\ decode_due now (snap_id (snapshot claim)) r = Ok claim) l ->
    claims y = l ++ claims x -> moves x y
| moves_materialize claim factory stamps updated ids : claim ∈ claims x ->
    materialize_due claim factory stamps updated (store x) = (Ok ids, store y) -> claims y = claims x -> moves x y
| moves_runs : schedules (store y) = schedules (store x) -> audits (store y) = audits (store x) ->
    runs_move (clock x) (runs (store x)) (runs (store y)) -> claims y = claims x -> moves x y
| moves_acquire job deadline f u : clock x <= counted_at u <= claimed_now u -> claimed_now u <= clock y ->
    acquired job deadline f u (store x) (store y) -> claims y = claims x -> moves x y.

(** ** Snapshots *)
Lemma decode_snapshot_ok i r snap : decode_snapshot i r = Ok snap ->
  snap_id snap = i /\ snap_revision snap = revision r /\ snap_next_run_at snap = next_run_at r
  /\ expression (definition snap) = col_cron (columns r) /\ zone (col_timezone (columns r)) = Some (timezone (definition snap))
  /\ policy_from_database (col_policy (columns r)) (col_catch_up (columns r)) = Ok (misfire_policy (definition snap)).
Proof.
  unfold decode_snapshot. intros Hd. inv_ok. unfold id_from_database in *. case_match; [|done]. inv_ok. subst snap. cbn.
  unfold map_err in *. repeat (case_match; simplify_eq/=). unfold ScheduleDefinition_new in *. inv_ok. subst. cbn. by split_and!.
Qed.
Lemma decode_snapshot_same i r r' : columns r' = columns r -> paused r' = paused r ->
  decode_snapshot i r' = snap ← decode_snapshot i r; Ok {| snap_id := snap_id snap; definition := definition snap; snap_revision := revision r';
                                  snap_next_run_at := next_run_at r'; snap_created_at := created_at r'; snap_updated_at := updated_at r' |}.
Proof.
  intros Hc Hp. unfold decode_snapshot. rewrite Hc, Hp. unfold mbind, result_bind. by repeat (case_match; simplify_eq/=).
Qed.
Lemma next_occurrence_ok d t n : next_occurrence d t = Ok n ->
  t < n /\ fires (expression d) (timezone d) n /\ forall u, t < u < n -> ~ fires (expression d) (timezone d) u.
Proof. unfold next_occurrence. intros Hn. inv_ok. by apply find_next_first. Qed.
Lemma next_occurrence_stored d c i r snap now : valid_definition d -> columns_of d = Ok c -> columns r = c -> decode_snapshot i r = Ok snap ->
  next_occurrence (definition snap) now = next_occurrence d now.
Proof.
  intros (name & expr & tz & policy & k & l & e & w & p & Hd) Hc Hr Hs. apply decode_snapshot_ok in Hs as (_ & _ & _ & He & Hz & _).
  unfold columns_of in Hc. inv_ok. destruct (database_parts _). inv_ok. rewrite Hr in He, Hz. subst c. cbn in He, Hz.
  unfold ScheduleDefinition_new in Hd. inv_ok. subst d. cbn in *. unfold next_occurrence. cbn. rewrite He. erewrite zone_name in Hz by done.
  injection Hz as <-. done.
Qed.

(** ** Moving runs *)
Lemma live_execution_earlier t t' s : t <= t' -> live_execution t' s = true -> live_execution t s = true.
Proof. unfold live_execution. destruct (execution_lease s) as [[]|]; destruct (bool_decide _); cbn; blia. Qed.
Lemma runs_move_refl now m : runs_move now m m.
Proof. split; [by eauto|]. intros j r Hr. exists r. split_and!; try done. intros t Ht. by apply live_execution_earlier. Qed.
Lemma runs_move_update now m job r s' : m !! job = Some r -> ~ settled r -> run_ok job {| identity := identity r; state := s' |} = true ->
  (forall t, now <= t -> live_execution t s' = true -> live_execution now (state r) = true) ->
  runs_move now m (<[job := {| identity := identity r; state := s' |}]> m).
Proof.
  intros Hr Hs Hok Hl. split.
  - intros j r' Hr'. rewrite lookup_insert_is_Some'. by right.
  - intros j r' [[<- <-]|[Hne Hr']]%lookup_insert_Some; [by exists r; split_and!|].
    destruct (runs_move_refl now m) as [_ Hm]. by apply Hm.
Qed.
Lemma runs_move_rows now m rows : (forall j r', (j, r') ∈ rows -> exists r, m !! j = Some r /\ identity r' = identity r /\ run_ok j r' = true
    /\ ~ settled r /\ forall t, live_execution t (state r') = false) -> runs_move now m (list_to_map rows ∪ m).
Proof.
  intros Hrows. split.
  - intros j r Hr. rewrite lookup_union_is_Some. by right.
  - intros j r' [Hj|[_ Hj]]%lookup_union_Some_raw; [|destruct (runs_move_refl now m) as [_ Hm]; by apply Hm].
    apply elem_of_list_to_map_2 in Hj. destruct (Hrows _ _ Hj) as (r & Hr & Hi & Hok & Hs & Hl). exists r. split_and!; try done.
    intros t _ Ht. by rewrite Hl in Ht.
Qed.
Lemma claimed_runs_elem c micros tokens locked now m j r' : (j, r') ∈ claimed_runs c micros tokens locked now m ->
  exists r tok, m !! j = Some r /\ dispatchable now r = true /\ r' = claimed_run c now micros tok r.
Proof.
  unfold claimed_runs. rewrite list_elem_of_In, zip_with_zip, in_map_iff. intros ([[j0 r] tok] & [= -> <-] & Hin). apply in_combine_l in Hin. rewrite <- list_elem_of_In in Hin.
  unfold dispatch_rows in Hin. apply sort_take_elem in Hin. apply list_elem_of_filter in Hin as [[_ Hd] Hin]. apply elem_of_map_to_list in Hin. by exists r, tok.
Qed.
Lemma claimed_schedules_elem c tokens locked now m i r' : (i, r') ∈ claimed_schedules c tokens locked now m ->
  exists r tok, m !! i = Some r /\ due now r = true /\ r' = claimed_schedule c now tok r.
Proof.
  unfold claimed_schedules. rewrite list_elem_of_In, zip_with_zip, in_map_iff. intros ([[i0 r] tok] & [= -> <-] & Hin). apply in_combine_l in Hin. rewrite <- list_elem_of_In in Hin.
  unfold due_rows in Hin. apply sort_take_elem in Hin. apply list_elem_of_filter in Hin as [[_ Hd] Hin]. apply elem_of_map_to_list in Hin. by exists r, tok.
Qed.
Lemma collect_elem {A B} (f : A -> result SchedulerError B) l l' : collect f l = Ok l' -> Forall (fun y => exists x, x ∈ l /\ f x = Ok y) l'.
Proof.
  revert l'. induction l as [|x l IH]; intros l' Hc; cbn in Hc; inv_ok; subst l'; constructor.
  - exists x. by split; [left|].
  - eapply Forall_impl; [by apply IH|]. intros y (x' & Hx' & Hy). exists x'. by split; [right|].
Qed.

(** ** The steps, sorted *)
Lemma atomically_cases {A} (m : Tx A) s r s' : atomically m s = (r, s') -> s' = s \/ exists a, atomically m s = (Ok a, s').
Proof. unfold atomically. destruct (m s) as [[a s1]|]; intros [= <- <-]; [right; by eexists | by left]. Qed.
Lemma update_run_moves now job g f s r s' : update_run job g f s = (r, s') -> (forall x, g x = true -> ~ settled x) ->
  (forall x t, g x = true -> now <= t -> live_execution t (f (state x)) = true -> live_execution now (state x) = true) ->
  schedules s' = schedules s /\ audits s' = audits s /\ runs_move now (runs s) (runs s').
Proof.
  intros Hu Hs Hl. destruct (update_run_cases _ _ _ _ _ _ Hu) as [->|[u Hu']]; [split_and!; [done..|by apply runs_move_refl]|].
  apply update_run_ok in Hu' as (x & Hx & Hg & Hok & ->). split_and!; [done..|]. apply runs_move_update; try done; [by apply Hs | by eauto].
Qed.
Lemma holds_dispatch_ok run now r : holds_dispatch run now r = true -> status (state r) = Dispatching.
Proof. unfold holds_dispatch. rewrite !andb_true_iff, bool_decide_eq_true. tauto. Qed.
Lemma holds_execution_ok f now r : holds_execution f now r = true ->
  status (state r) = Running /\ forall t, t <= now -> live_execution t (state r) = true.
Proof.
  unfold holds_execution, live_execution. rewrite andb_true_iff, bool_decide_eq_true. intros [-> Hl]. split; [done|]. intros t Ht.
  destruct (execution_lease (state r)) as [[]|]; [|done]. cbn. rewrite bool_decide_true by done. cbn. blia.
Qed.
Lemma dispatch_claimed_moves t c run h now stored s r s' : dispatch_claimed c run h now stored s = (r, s') ->
  schedules s' = schedules s /\ audits s' = audits s /\ runs_move t (runs s) (runs s').
Proof.
  assert (Hu : forall g r s', update_run (leased_job run) (holds_dispatch run now) g s = (r, s') -> (forall x, status (g x) <> Running) ->
    schedules s' = schedules s /\ audits s' = audits s /\ runs_move t (runs s) (runs s')).
  { intros g r0 s0 Hu Hg. eapply update_run_moves; [done| |].
    - intros x Hx%holds_dispatch_ok [Hx'|Hx']; congruence.
    - intros x t' _ _ Hx. unfold live_execution in Hx. rewrite bool_decide_false in Hx by apply Hg. done. }
  assert (Hretry : forall class r s', (_ ← mark_dispatch_retry c run class now stored; st_throw (A := unit) Provider) s = (r, s') ->
    schedules s' = schedules s /\ audits s' = audits s /\ runs_move t (runs s) (runs s')).
  { intros class r0 s0 Hr. unfold mbind, st_bind, mark_dispatch_retry in Hr. destruct (duration_micros _) as [micros|].
    - destruct (update_run _ _ _ s) as [[] s1] eqn:E; (eapply Hu; [rewrite E; by injection Hr as _ <-|done]).
    - injection Hr as _ <-. split_and!; [done..|by apply runs_move_refl]. }
  unfold dispatch_claimed. destruct h as [rc|e|]; [destruct (_ && _)|..]; intros Hd; [by eapply Hu | by eapply Hretry..].
Qed.
Lemma claim_pending_moves t c tokens locked now s r s' : claim_pending_runs c tokens locked now s = (r, s') ->
  schedules s' = schedules s /\ audits s' = audits s /\ runs_move t (runs s) (runs s').
Proof.
  unfold claim_pending_runs. destruct (duration_micros _) as [micros|]; [|intros [= _ <-]; split_and!; [done..|by apply runs_move_refl]].
  cbv zeta. destruct (forallb _ _) eqn:Ef; intros [= _ <-]; (split_and!; [done..|]); [|by apply runs_move_refl].
  apply runs_move_rows. intros j r' Hj. pose proof Hj as (r0 & tok & Hr & Hd & Hr')%claimed_runs_elem. exists r0. split_and!; [done|by subst| | |by subst].
  - rewrite forallb_forall in Ef. rewrite list_elem_of_In in Hj. by apply (Ef (j, r')).
  - unfold dispatchable in Hd. intros [Hs|Hs]; rewrite Hs in Hd; cbn in Hd; by rewrite andb_false_r in Hd.
Qed.
Lemma step_create x now created updated id st d who why r s' t : clock x <= now -> now <= t -> valid_definition d ->
  create_schedule now created updated id st d who why (store x) = (r, s') -> moves x {| store := s'; clock := t; claims := claims x |}.
Proof.
  intros Hx Ht Hd Hc. destruct (atomically_cases _ _ _ _ Hc) as [->|[snap Hs]]; [by apply moves_none|].
  apply create_schedule_ok in Hs as (c & next & a & row & Hn & Hcol & Hrow & Hnone & Hok & Hdec & Hname & A1 & A2 & A3 & A4 & A5 & A6 & ->).
  eapply (moves_create _ _ id row a snap now); cbn; try done; [|by subst row..]. transitivity (next_occurrence d now); [|by rewrite Hn, Hrow].
  apply (next_occurrence_stored d c id row snap now); try done; by subst row.
Qed.
Lemma step_update x id n now updated st d who why r s' t : clock x <= now -> now <= t -> valid_definition d ->
  update_schedule id n now updated st d who why (store x) = (r, s') -> moves x {| store := s'; clock := t; claims := claims x |}.
Proof.
  intros Hx Ht Hd Hc. destruct (atomically_cases _ _ _ _ Hc) as [->|[snap Hs]]; [by apply moves_none|].
  apply update_schedule_ok in Hs as (c & next & a & old & row & Hn & Hcol & Hrow & _ & Hnext & _ & Hdec & _ & _ & Hrev).
  eapply (moves_revise _ _ "update" id old row a snap); cbn; try done. left. exists now. split; [done|]. rewrite Hnext, <- Hn.
  by eapply next_occurrence_stored.
Qed.
Lemma step_set_paused x id n p now updated st who why r s' t : clock x <= now -> now <= t ->
  set_paused id n p now updated st who why (store x) = (r, s') -> moves x {| store := s'; clock := t; claims := claims x |}.
Proof.
  intros Hx Ht Hc. destruct (atomically_cases _ _ _ _ Hc) as [->|[snap Hs]]; [by apply moves_none|].
  apply set_paused_ok in Hs as (current & a & old & row & Hcur & Hcol & Hp & Hnext & _ & Hdec & _ & _ & Hrev).
  eapply (moves_revise _ _ _ id old row a snap); cbn; try done; [by destruct p|]. destruct p; [by right|left]. exists now. split; [done|].
  rewrite <- Hnext. apply decode_snapshot_ok in Hcur as (_ & _ & _ & He & Hz & _). apply decode_snapshot_ok in Hdec as (_ & _ & _ & He' & Hz' & _).
  rewrite Hcol in He', Hz'. rewrite Hz in Hz'. injection Hz' as Hz'. unfold next_occurrence. by rewrite He, He', Hz'.
Qed.
Lemma step_claim x c tokens locked now r s' t : clock x <= now -> now <= t -> claim_due_schedules c tokens locked now (store x) = (r, s') ->
  moves x {| store := s'; clock := t; claims := match r with Ok l => l ++ claims x | Err _ => claims x end |}.
Proof.
  unfold claim_due_schedules. intros Hx Ht. destruct (forallb _ _) eqn:Ef; intros [= <- <-]; [|by apply moves_none].
  destruct (collect _ _) as [l|e] eqn:Ec.
  - eapply (moves_claim _ _ c tokens locked now l); cbn; try done. eapply Forall_impl; [by apply collect_elem in Ec|]. cbn. intros claim ([i row] & Hin & Hdec). cbn in Hdec.
    assert (Hi : snap_id (snapshot claim) = i) by (unfold decode_due in Hdec; inv_ok; subst claim; cbn; by eapply decode_snapshot_ok).
    rewrite Hi. by exists row.
  - by eapply (moves_claim _ _ c tokens locked now []).
Qed.
(** Every step is one of the moves. *)
Lemma step_moves x y : step x y -> clock x <= clock y /\ moves x y.
Proof.
  intros Hs; destruct Hs; (split; [cbn; lia|]).
  - by eapply step_create.
  - by eapply step_update.
  - by eapply step_set_paused.
  - match goal with Hr : replay _ _ _ _ _ _ _ _ = _ |- _ => destruct (atomically_cases _ _ _ _ Hr) as [->|[u Hs]]; [by apply moves_none|] end.
    apply replay_ok in Hs as (row & a & j & run & at' & Hrow & A1 & A2 & Hj & Hu & Hsched & Hseq & Hst & Hok & ->).
    eapply (moves_replay _ _ a j run); cbn; try done. rewrite Hsched. by eexists.
  - by eapply step_claim.
  - match goal with Hr : materialize_due _ _ _ _ _ = _ |- _ => destruct (atomically_cases _ _ _ _ Hr) as [->|[u Hs]]; [by apply moves_none|] end.
    by eapply moves_materialize.
  - match goal with Hr : claim_pending_runs _ _ _ _ _ = _ |- _ => apply (claim_pending_moves (clock x)) in Hr as (? & ? & ?) end. by apply moves_runs.
  - match goal with Hr : dispatch_claimed _ _ _ _ _ _ = _ |- _ => apply (dispatch_claimed_moves (clock x)) in Hr as (? & ? & ?) end. by apply moves_runs.
  - match goal with Hr : acquire_execution _ _ _ _ _ = _ |- _ => apply acquire_cases in Hr as [->|Ha] end; [by apply moves_none | by eapply moves_acquire].
  - match goal with Hr : renew_execution _ _ _ _ _ _ = _ |- _ => unfold renew_execution in Hr; destruct (duration_micros _) as [micros|];
      [apply (update_run_moves (clock x)) in Hr as (? & ? & ?); [by apply moves_runs|..] | injection Hr as _ <-; by apply moves_none] end.
    + intros z [[Hz _]%holds_execution_ok _]%andb_true_iff [?|?]; congruence.
    + intros z u [[_ Hz]%holds_execution_ok _]%andb_true_iff _ _. by apply Hz.
  - match goal with Hr : finish_execution _ _ _ _ _ _ = _ |- _ => apply (update_run_moves (clock x)) in Hr as (? & ? & ?); [by apply moves_runs|..] end.
    + intros z [Hz _]%holds_execution_ok [?|?]; congruence.
    + intros z u [_ Hz]%holds_execution_ok _ _. by apply Hz.
Qed.
End history.

(** ** What every reachable state of the scheduler satisfies *)
Section invariant.
Context `{CalendarLaws} `{JsonColumn} `{SerdeJson} `{UuidText}.

(** ** Plans *)
Lemma catch_up_ok d n next now plan : catch_up d n next now = Ok plan -> fires_for d next ->
  next <= plan_next plan /\ fires_for d (plan_next plan)
  /\ forall t, t ∈ occurrences plan <-> next <= t < plan_next plan /\ fires_for d t.
Proof.
  revert next plan. induction n as [|n IH]; intros next plan Hc Hf; cbn in Hc.
  - inv_ok. subst plan. cbn. split_and!; [lia|done|]. intros t. split; [by intros ?%not_elem_of_nil | lia].
  - destruct (Z.leb_spec next now) as [Hle|Hgt].
    + inv_ok. subst plan. cbn. match goal with Hn : next_occurrence _ _ = Ok _ |- _ => apply next_occurrence_ok in Hn as (Hlt & Hfn & Hnone) end.
      destruct (IH _ _ ltac:(eassumption) Hfn) as (I1 & I2 & I3). split_and!; [lia|done|]. intros t. rewrite elem_of_cons, I3. split.
      * intros [->|[? ?]]; [split; [lia|done] | split; [lia|done]].
      * intros [Ht Hft]. destruct (decide (t = next)) as [->|Hne]; [by left|right]. split; [|done]. destruct (decide (v <= t)); [lia|].
        exfalso. apply (Hnone t); [lia|done].
    + inv_ok. subst plan. cbn. split_and!; [lia|done|]. intros t. split; [by intros ?%not_elem_of_nil | lia].
Qed.
Lemma catch_up_due d n next now plan t : catch_up d n next now = Ok plan -> t ∈ occurrences plan -> t <= now.
Proof.
  revert next plan. induction n as [|n IH]; intros next plan Hc; cbn in Hc; [inv_ok; subst plan; by intros ?%not_elem_of_nil|].
  destruct (Z.leb_spec next now) as [Hle|Hgt]; inv_ok; subst plan; cbn; [|by intros ?%not_elem_of_nil].
  intros [->|Ht]%elem_of_cons; [done | by eapply IH].
Qed.
(** A plan emits due instants of the calendar from the cursor on, and moves the cursor
    past them to one that has not been emitted. *)
Lemma evaluate_ok d cursor now plan : evaluate_occurrences d cursor now = Ok plan -> fires_for d cursor ->
  cursor <= now /\ cursor <= plan_next plan /\ fires_for d (plan_next plan)
  /\ (forall t, t ∈ occurrences plan -> cursor <= t < plan_next plan /\ t <= now /\ fires_for d t)
  /\ match misfire_policy d with
     | Skip => occurrences plan = []
     | FireOnce => occurrences plan = [cursor]
     | CatchUp _ => forall t, cursor <= t < plan_next plan -> fires_for d t -> t ∈ occurrences plan
     end.
Proof.
  unfold evaluate_occurrences. intros He Hf. apply bind_ok in He as (u & Hg%guard_ok & He). apply Z.ltb_ge in Hg.
  destruct (misfire_policy d) as [| |max_runs].
  - inv_ok. subst plan. match goal with Hn : next_occurrence _ _ = Ok _ |- _ => apply next_occurrence_ok in Hn as (? & ? & _) end. cbn.
    split_and!; try done; [lia|]. by intros t ?%not_elem_of_nil.
  - inv_ok. subst plan. match goal with Hn : next_occurrence _ _ = Ok _ |- _ => apply next_occurrence_ok in Hn as (? & ? & _) end. cbn.
    split_and!; try done; [lia|]. intros t ->%list_elem_of_singleton. split_and!; done || lia.
  - pose proof He as (C1 & C2 & C3)%catch_up_ok; [|done]. split_and!; try done.
    + intros t Ht. pose proof (proj1 (C3 t) Ht) as [? ?]. split_and!; try done; try lia. by eapply catch_up_due.
    + intros t Ht Hft. by apply C3.
Qed.
Lemma catch_up_progress d n next now plan : catch_up d (S n) next now = Ok plan -> fires_for d next -> next <= now -> next < plan_next plan.
Proof.
  intros Hc Hf Hle. cbn in Hc. destruct (Z.leb_spec next now); [|lia]. inv_ok. subst plan. cbn.
  match goal with Hn : next_occurrence _ _ = Ok _ |- _ => apply next_occurrence_ok in Hn as (Hlt & Hfn & _) end.
  match goal with Hr : catch_up _ _ _ _ = Ok _ |- _ => apply catch_up_ok in Hr as (? & _); [lia|done] end.
Qed.

(** ** The invariant *)
Definition fires_at (r : Schedule) : Prop :=
  exists z, zone (col_timezone (columns r)) = Some z /\ fires (col_cron (columns r)) z (next_run_at r).
Record Inv (x : System) : Prop := {
  inv_rows : forall i r, schedules (store x) !! i = Some r -> (exists snap, decode_snapshot i r = Ok snap) /\ fires_at r;
  inv_runs : forall j r, runs (store x) !! j = Some r -> run_ok j r = true /\ exists row,
    schedules (store x) !! schedule_id (identity r) = Some row
    /\ (replay_sequence (identity r) = 0 -> scheduled_for (identity r) <= clock x /\ scheduled_for (identity r) < next_run_at row);
  inv_claims : forall c, c ∈ claims x -> claimed_at c <= clock x /\ exists row,
    schedules (store x) !! snap_id (snapshot c) = Some row /\ snap_revision (snapshot c) <= revision row
    /\ (revision row = snap_revision (snapshot c) -> exists snap, decode_snapshot (snap_id (snapshot c)) row = Ok snap
          /\ definition snap = definition (snapshot c));
}.
Lemma fires_at_decoded i r snap : decode_snapshot i r = Ok snap -> fires_at r <-> fires_for (definition snap) (next_run_at r).
Proof.
  intros (_ & _ & _ & He & Hz & _)%decode_snapshot_ok. unfold fires_at. rewrite He. split.
  - intros (z & Hz' & Hf). rewrite Hz in Hz'. by injection Hz' as ->.
  - intros Hf. by eexists.
Qed.
Lemma next_occurrence_fires i r snap now : decode_snapshot i r = Ok snap -> next_occurrence (definition snap) now = Ok (next_run_at r) ->
  fires_at r /\ now < next_run_at r.
Proof. intros Hd Hn. apply next_occurrence_ok in Hn as (Hlt & Hf & _). split; [by eapply fires_at_decoded | done]. Qed.
(** What an update of the table keeps of each row that is not revised. *)
Definition kept (r r' : Schedule) : Prop := columns r' = columns r /\ paused r' = paused r /\ revision r' = revision r /\ next_run_at r <= next_run_at r'.
Lemma kept_decode i r r' snap : kept r r' -> decode_snapshot i r = Ok snap -> exists snap', decode_snapshot i r' = Ok snap' /\ definition snap' = definition snap.
Proof. intros (Hc & Hp & _) Hd. rewrite (decode_snapshot_same i r r') by done. rewrite Hd. by eexists. Qed.
Definition row_follows (now : Z) (r r' : Schedule) : Prop :=
  kept r r' \/ revision r < revision r' /\ (now < next_run_at r' \/ next_run_at r <= next_run_at r').
Definition run_placed (y : System) (j : Z) (r : Run) : Prop := run_ok j r = true /\ exists row,
  schedules (store y) !! schedule_id (identity r) = Some row
  /\ (replay_sequence (identity r) = 0 -> scheduled_for (identity r) <= clock y /\ scheduled_for (identity r) < next_run_at row).
Definition claim_current (y : System) (c : DueSchedule) : Prop := claimed_at c <= clock y /\ exists row snap,
  schedules (store y) !! snap_id (snapshot c) = Some row /\ revision row = snap_revision (snapshot c)
  /\ decode_snapshot (snap_id (snapshot c)) row = Ok snap /\ definition snap = definition (snapshot c).
Lemma kept_refl r : kept r r.
Proof. by unfold kept. Qed.
Lemma row_follows_refl now r : row_follows now r r.
Proof. left. apply kept_refl. Qed.
#[local] Hint Resolve kept_refl row_follows_refl : core.
Lemma inv_change x y : Inv x -> clock x <= clock y ->
  (forall i r, schedules (store y) !! i = Some r -> (exists snap, decode_snapshot i r = Ok snap) /\ fires_at r) ->
  (forall i r, schedules (store x) !! i = Some r -> exists r', schedules (store y) !! i = Some r' /\ row_follows (clock x) r r') ->
  (forall j r', runs (store y) !! j = Some r' ->
     (exists r, runs (store x) !! j = Some r /\ identity r' = identity r /\ (run_ok j r = true -> run_ok j r' = true)) \/ run_placed y j r') ->
  (forall c, c ∈ claims y -> c ∈ claims x \/ claim_current y c) -> Inv y.
Proof.
  intros Hx Hclk Hrows Hold Hruns Hclaims. split; [done| |].
  - intros j r' Hr'. destruct (Hruns _ _ Hr') as [(r & Hr & Hi & Hok)|Hp]; [|done]. destruct (inv_runs x Hx _ _ Hr) as (Hok' & row & Hrow & Hn).
    split; [by apply Hok|]. rewrite Hi. destruct (Hold _ _ Hrow) as (row' & Hrow' & Hf). exists row'. split; [done|]. intros Hs. specialize (Hn Hs).
    destruct Hf as [(_ & _ & _ & ?)|[_ [?|?]]]; lia.
  - intros c Hc. destruct (Hclaims _ Hc) as [Hc'|(Hat & row & snap & Hrow & Hrev & Hdec)]; [|split; [done|]; exists row; split_and!; [done|lia|by exists snap]].
    destruct (inv_claims x Hx _ Hc') as (Hat & row & Hrow & Hle & Hsame). split; [lia|]. destruct (Hold _ _ Hrow) as (row' & Hrow' & Hf).
    exists row'. split; [done|]. destruct Hf as [Hk|[Hlt _]]; [|split; lia]. pose proof Hk as (_ & _ & Hr & _). rewrite Hr. split; [done|].
    intros Hr'. destruct (Hsame Hr') as (snap & Hdec & Hd). destruct (kept_decode _ _ _ _ Hk Hdec) as (snap' & Hdec' & Hd'). exists snap'. split; [done|congruence].
Qed.
(** Moves that leave the table of schedules and the claims. *)
Lemma inv_same_schedules x y : Inv x -> clock x <= clock y -> schedules (store y) = schedules (store x) -> claims y = claims x ->
  (forall j r', runs (store y) !! j = Some r' ->
     (exists r, runs (store x) !! j = Some r /\ identity r' = identity r /\ (run_ok j r = true -> run_ok j r' = true)) \/ run_placed y j r') -> Inv y.
Proof.
  intros Hx Hclk Hs Hc Hr. eapply inv_change; [done..| | |done|].
  - rewrite Hs. apply inv_rows, Hx.
  - rewrite Hs. intros i r Hi. by exists r.
  - rewrite Hc. by left.
Qed.
Lemma inv_insert x y i r : Inv x -> clock x <= clock y -> schedules (store y) = <[i := r]> (schedules (store x)) ->
  (exists snap, decode_snapshot i r = Ok snap) -> fires_at r ->
  (forall old, schedules (store x) !! i = Some old -> row_follows (clock x) old r) -> runs (store y) = runs (store x) -> claims y = claims x -> Inv y.
Proof.
  intros Hx Hclk Hs Hdec Hf Hold Hr Hc. eapply inv_change; [done..| | | |].
  - rewrite Hs. intros i' r' [[<- <-]|[_ Hi]]%lookup_insert_Some; [done | by apply (inv_rows x Hx)].
  - rewrite Hs. intros i' r' Hi'. destruct (decide (i' = i)) as [->|Hne]; [exists r; split; [by simplify_map_eq | by apply Hold]|].
    exists r'. by rewrite lookup_insert_ne.
  - rewrite Hr. intros j r' Hj. left. by exists r'.
  - rewrite Hc. by left.
Qed.
Lemma claimed_schedule_kept c now tok r : kept r (claimed_schedule c now tok r).
Proof. unfold kept. by cbn. Qed.
Lemma inv_claim_due x y c tokens locked now l : Inv x -> clock x <= now <= clock y ->
  store y = with_schedules (list_to_map (claimed_schedules c tokens locked now (schedules (store x))) ∪ schedules (store x)) (store x) ->
  Forall (fun claim => exists r, (snap_id (snapshot claim), r) ∈ claimed_schedules c tokens locked now (schedules (store x))
                          /\ decode_due now (snap_id (snapshot claim)) r = Ok claim) l ->
  claims y = l ++ claims x -> Inv y.
Proof.
  intros Hx Hclk Hs Hl Hc. set (rows := claimed_schedules c tokens locked now (schedules (store x))) in *.
  assert (Hold : forall i r, schedules (store x) !! i = Some r -> exists r', schedules (store y) !! i = Some r' /\ kept r r').
  { intros i r Hi. rewrite Hs. cbn. destruct (list_to_map (M := gmap Z Schedule) rows !! i) as [r'|] eqn:E.
    - exists r'. split; [by apply lookup_union_Some_l|]. apply elem_of_list_to_map_2, claimed_schedules_elem in E as (r0 & tok & Hr0 & _ & ->).
      simplify_eq. apply claimed_schedule_kept.
    - exists r. split; [by rewrite lookup_union_r|done]. }
  assert (Hkept : forall i r', schedules (store y) !! i = Some r' -> exists r, schedules (store x) !! i = Some r /\ kept r r' /\ next_run_at r' = next_run_at r).
  { intros i r'. rewrite Hs. cbn. intros [E|[_ E]]%lookup_union_Some_raw; [|by exists r'].
    apply elem_of_list_to_map_2, claimed_schedules_elem in E as (r0 & tok & Hr0 & _ & ->). exists r0. by split; [|split; [apply claimed_schedule_kept|]]. }
  eapply inv_change; [done|lia| | | |].
  - intros i r' Hi. destruct (Hkept _ _ Hi) as (r & Hr & Hk & Hn). destruct (inv_rows x Hx _ _ Hr) as [[snap Hdec] (z & Hz & Hf)].
    destruct (kept_decode _ _ _ _ Hk Hdec) as (snap' & Hdec' & _). split; [by exists snap'|]. destruct Hk as (Hcol & _). exists z. by rewrite Hcol, Hn.
  - intros i r Hi. destruct (Hold _ _ Hi) as (r' & Hr' & Hk). exists r'. by split; [|left].
  - rewrite Hs. cbn. intros j r' Hj. left. by exists r'.
  - rewrite Hc. intros claim [Hin|Hin]%elem_of_app; [right|by left]. rewrite Forall_forall in Hl. destruct (Hl _ Hin) as (r & Hr & Hdue).
    pose proof Hr as (r0 & tok & Hr0 & _ & Heq)%claimed_schedules_elem. destruct (Hold _ _ Hr0) as (r' & Hr' & Hk).
    unfold decode_due in Hdue. inv_ok. subst claim. cbn in *. split; [cbn; lia|].
    assert (Hk' : kept r r') by (subst r; unfold kept in *; cbn; tauto). pose proof (kept_decode _ _ _ _ Hk' ltac:(eassumption)) as (snap' & Hdec' & Hd').
    exists r', snap'. cbn. split_and!; try done. match goal with Hd : decode_snapshot _ _ = Ok v |- _ => apply decode_snapshot_ok in Hd as (_ & -> & _) end. by destruct Hk' as (_ & _ & -> & _).
Qed.
(** A claim that still owns its schedule emits a plan of the row's own definition. *)
Lemma materialize_effect x claim factory stamps updated ids s' : Inv x -> claim ∈ claims x ->
  materialize_due claim factory stamps updated (store x) = (Ok ids, s') ->
  exists i row snap plan, schedules (store x) !! i = Some row /\ decode_snapshot i row = Ok snap
    /\ claimed_at claim <= clock x /\ evaluate_occurrences (definition snap) (next_run_at row) (claimed_at claim) = Ok plan
    /\ schedules s' = <[i := with_sch_lease None (plan_next plan) updated row]> (schedules (store x)) /\ audits s' = audits (store x)
    /\ runs (store x) ⊆ runs s'
    /\ (forall j r, runs s' !! j = Some r -> runs (store x) !! j = Some r
          \/ exists t at_, t ∈ occurrences plan /\ normal_run i t r /\ state r = new_state at_ /\ run_ok j r = true)
    /\ (forall t, t ∈ occurrences plan -> exists j r, runs s' !! j = Some r /\ normal_run i t r).
Proof.
  intros Hx Hc Hm. apply materialize_ok in Hm as (plan & prepared & row & s1 & He & Hp & Hrow & Ho & Hi & _ & _ & ->).
  apply insert_runs_ok in Hi as (I1 & I2 & I3 & I4 & I5). rewrite Hp in I4, I5. destruct (inv_claims x Hx _ Hc) as (Hat & row' & Hrow' & _ & Hsame).
  rewrite Hrow in Hrow'. injection Hrow' as <-. unfold owned in Ho. rewrite !andb_true_iff, !Z.eqb_eq in Ho. destruct Ho as [[Hr Hn] _].
  destruct (Hsame Hr) as (snap & Hdec & Hd). exists (snap_id (snapshot claim)), row, snap, plan. rewrite Hd, Hn. cbn. rewrite I1. by split_and!.
Qed.
Lemma row_fires x i row snap : Inv x -> schedules (store x) !! i = Some row -> decode_snapshot i row = Ok snap -> fires_for (definition snap) (next_run_at row).
Proof. intros Hx Hrow Hdec. eapply fires_at_decoded; [done|]. by eapply inv_rows. Qed.
Lemma inv_materialize x y claim factory stamps updated ids : Inv x -> clock x <= clock y -> claim ∈ claims x ->
  materialize_due claim factory stamps updated (store x) = (Ok ids, store y) -> claims y = claims x -> Inv y.
Proof.
  intros Hx Hclk Hc Hm Hcl. pose proof Hm as (i & row & snap & plan & Hrow & Hdec & Hat & He & Hs & _ & _ & Hr & _)%materialize_effect; [|done..].
  pose proof (row_fires _ _ _ _ Hx Hrow Hdec) as Hf. apply evaluate_ok in He as (He1 & He2 & He3 & He4 & _); [|done].
  set (row' := with_sch_lease None (plan_next plan) updated row) in *. assert (Hk : kept row row') by (unfold kept; by cbn).
  pose proof (kept_decode _ _ _ _ Hk Hdec) as (snap' & Hdec' & Hd'). eapply inv_change; [done..| | | |].
  - rewrite Hs. intros i' r' [[<- <-]|[_ Hi]]%lookup_insert_Some; [|by apply (inv_rows x Hx)]. split; [by exists snap'|].
    rewrite fires_at_decoded by done. by rewrite Hd'.
  - rewrite Hs. intros i' r' Hi'. destruct (decide (i' = i)) as [->|Hne]; [exists row'; simplify_map_eq; by split; [|left]|].
    exists r'. by rewrite lookup_insert_ne.
  - intros j r' Hj. destruct (Hr _ _ Hj) as [Hj'|(t & at_ & Ht & (N1 & N2 & N3) & _ & Hok)]; [left; by exists r'|right]. split; [done|].
    exists row'. rewrite Hs, N1, N2. split; [by simplify_map_eq|]. destruct (He4 _ Ht) as (? & ? & _). cbn. lia.
  - rewrite Hcl. by left.
Qed.
Lemma scheduler_step_inv x y : Inv x -> step x y -> Inv y.
Proof.
  intros Hx [Hclk Hm]%step_moves. destruct Hm.
  - match goal with Hy : store y = _ |- _ => apply (inv_same_schedules x y Hx Hclk); rewrite ?Hy; [done..|] end. intros j r' Hj. left. by exists r'.
  - match goal with Hd : decode_snapshot _ _ = Ok _, Hn : next_occurrence _ _ = Ok _, Hy : store y = _ |- _ =>
      pose proof (next_occurrence_fires _ _ _ _ Hd Hn) as [Hf Hlt]; eapply (inv_insert x y i r Hx Hclk); rewrite ?Hy; cbn; try done; [by exists snap|congruence] end.
  - match goal with Hr : revised _ _ _ _ _ _ _ |- _ => destruct Hr as (Hold & Hrev & _ & _ & _ & _ & _ & _ & _ & Hy) end.
    match goal with Hn : _ \/ _ |- _ => rename Hn into Hnext end. match goal with Hd : decode_snapshot _ _ = Ok _ |- _ => rename Hd into Hdec end.
    assert (Hf : fires_at r).
    { destruct Hnext as [(now & _ & Hn)|(Hcol & Hn & _)]; [by eapply next_occurrence_fires|]. destruct (inv_rows x Hx _ _ Hold) as [_ (z & Hz & Hfz)].
      exists z. by rewrite Hcol, Hn. }
    eapply (inv_insert x y i r Hx Hclk); rewrite ?Hy; cbn; try done; [by exists snap|]. intros old' Hold'. rewrite Hold in Hold'. injection Hold' as <-.
    right. split; [lia|]. destruct Hnext as [(now & ? & Hn)|(_ & -> & _)]; [left|right; lia]. apply next_occurrence_ok in Hn as [? _]. lia.
  - match goal with Hy : store y = _, Hs : is_Some (schedules _ !! schedule_id _) |- _ => destruct Hs as [row Hrow];
      apply (inv_same_schedules x y Hx Hclk); rewrite ?Hy; cbn; [done|done|] end.
    intros j' r' [[<- <-]|[_ Hj]]%lookup_insert_Some; [right|left; by exists r']. split; [done|]. exists row. split; [|lia].
    match goal with Hy : store y = _ |- _ => by rewrite Hy end.
  - by eapply inv_claim_due.
  - by eapply inv_materialize.
  - match goal with Hr : runs_move _ _ _ |- _ => destruct Hr as [_ Hmv]; apply (inv_same_schedules x y Hx Hclk); [done..|] end.
    intros j r' Hj. destruct (Hmv _ _ Hj) as (r & ? & ? & ? & _). left. by exists r.
  - match goal with Ha : acquired _ _ _ _ _ _ |- _ => destruct Ha as (r & sched & expires & Hr & _ & _ & _ & _ & Hok & Hy) end.
    apply (inv_same_schedules x y Hx Hclk); rewrite ?Hy; cbn; [done..|]. intros j r' [[<- <-]|[_ Hj]]%lookup_insert_Some; left; [by exists r | by exists r'].
Qed.
Lemma scheduler_inv x : reachable x -> Inv x.
Proof.
  intros Hr. unfold reachable in Hr. remember initial as x0 eqn:E. assert (Hi : Inv x0) by (subst; split; cbn; [done|done|by intros c ?%not_elem_of_nil]).
  clear E. induction Hr as [|x1 x2 x3 Hs _ IH]; [done|]. by apply IH, (scheduler_step_inv x1).
Qed.
End invariant.
