(* ===== verification/SchedulerTheorems.v ===== *)
(** * Schedules follow their calendars, and executions their limits *)
From S2P Require Import Prelude Machine Text Ordered JsonShape JobPolicy JobWire SchedulerTypes Scheduler.
From S2P Require Import SchedulerFacts SchedulerHistory.

Section theorems.
Context `{CalendarLaws} `{JsonColumn} `{SerdeJson} `{UuidText}.

(** ** Occurrences *)
Lemma runs_kept_unique m m' : (forall j r', m' !! j = Some r' -> exists r, m !! j = Some r /\ identity r' = identity r) ->
  occurrences_unique m -> occurrences_unique m'.
Proof.
  intros Hm Hu j1 r1 j2 r2 L1 L2 Heq. destruct (Hm _ _ L1) as (r1' & L1' & I1). destruct (Hm _ _ L2) as (r2' & L2' & I2).
  rewrite I1, I2 in Heq. by eapply Hu.
Qed.
Lemma step_unique x y : step x y -> occurrences_unique (runs (store x)) -> occurrences_unique (runs (store y)).
Proof.
  intros [_ Hm]%step_moves. destruct Hm.
  - match goal with Hy : store y = _ |- _ => by rewrite Hy end.
  - match goal with Hy : store y = _ |- _ => by rewrite Hy end.
  - match goal with Hr : revised _ _ _ _ _ _ _ |- _ => destruct Hr as (_ & _ & _ & _ & _ & _ & _ & _ & _ & ->) end. done.
  - match goal with Hy : store y = _ |- _ => rewrite Hy end. by apply insert_unique.
  - match goal with Hy : store y = _ |- _ => by rewrite Hy end.
  - match goal with Hm : materialize_due _ _ _ _ _ = _ |- _ => apply materialize_ok in Hm as (? & ? & ? & s1 & _ & _ & _ & _ & Hi & _ & _ & ->) end.
    intros Hu. by eapply insert_runs_unique in Hi.
  - match goal with Hr : runs_move _ _ _ |- _ => destruct Hr as [_ Hmv] end. apply runs_kept_unique. intros j r' Hj.
    destruct (Hmv _ _ Hj) as (r & ? & ? & _). by exists r.
  - match goal with Ha : acquired _ _ _ _ _ _ |- _ => destruct Ha as (r & sched & expires & Hr & _ & _ & _ & _ & _ & ->) end. apply runs_kept_unique.
    cbn. intros j r' [[<- <-]|[_ Hj]]%lookup_insert_Some; [by exists r | by exists r'].
Qed.
Lemma reachable_unique x : reachable x -> occurrences_unique (runs (store x)).
Proof.
  intros Hr. unfold reachable in Hr. remember initial as x0 eqn:E. assert (Hi : occurrences_unique (runs (store x0))) by (by subst).
  clear E. induction Hr as [|x1 x2 x3 Hs _ IH]; [done|]. by apply IH, (step_unique x1).
Qed.
(** The schedule has a run, other than a replay, for the instant. *)
Definition emitted (y : System) (i t : Z) : Prop := exists j r, runs (store y) !! j = Some r /\ normal_run i t r.
(** What the runs from the instant [c] on are when the cursor has come to [c']. *)
Definition covered (d : ScheduleDefinition) (y : System) (i c c' : Z) : Prop :=
  c <= c'
  /\ (forall t, c <= t -> emitted y i t -> t < c' /\ fires_for d t)
  /\ match misfire_policy d with
     | Skip => forall t, c <= t -> ~ emitted y i t
     | FireOnce => c < c' -> emitted y i c
     | CatchUp _ => forall t, c <= t < c' -> fires_for d t -> emitted y i t
     end.
Lemma covered_same d x y i c c' : (forall t, emitted y i t <-> emitted x i t) -> covered d x i c c' -> covered d y i c c'.
Proof.
  intros He (C1 & C2 & C3). split_and!; [done| |].
  - intros t Ht. rewrite He. by apply C2.
  - destruct (misfire_policy d); [intros t Ht; rewrite He; by apply C3 | rewrite He; by apply C3 | intros t Ht Hf; rewrite He; by apply C3].
Qed.
Lemma covered_start d x i r : Inv x -> schedules (store x) !! i = Some r -> covered d x i (next_run_at r) (next_run_at r).
Proof.
  intros Hx Hr. assert (Hno : forall t, next_run_at r <= t -> ~ emitted x i t).
  { intros t Ht (j & run & Hj & N1 & N2 & N3). destruct (inv_runs x Hx _ _ Hj) as (_ & row & Hrow & Hs). rewrite N1, Hr in Hrow. injection Hrow as <-.
    rewrite N2 in Hs. specialize (Hs N3). lia. }
  split_and!; [lia| |].
  - intros t Ht He. by destruct (Hno t Ht).
  - destruct (misfire_policy d); [done|lia|lia].
Qed.
Lemma emitted_same x y i : (forall j r', runs (store y) !! j = Some r' -> (exists r, runs (store x) !! j = Some r /\ identity r' = identity r)
    \/ schedule_id (identity r') <> i \/ replay_sequence (identity r') <> 0) ->
  (forall j r, runs (store x) !! j = Some r -> exists r', runs (store y) !! j = Some r' /\ identity r' = identity r) ->
  forall t, emitted y i t <-> emitted x i t.
Proof.
  intros Hyx Hxy t. unfold emitted, normal_run. split.
  - intros (j & r' & Hj & N1 & N2 & N3). destruct (Hyx _ _ Hj) as [(r & Hr & Hi)|[Hne|Hne]]; [|done..]. exists j, r. by rewrite <- Hi.
  - intros (j & r & Hj & N1 & N2 & N3). destruct (Hxy _ _ Hj) as (r' & Hr' & Hi). exists j, r'. by rewrite Hi.
Qed.
Lemma emitted_runs x y i : runs (store y) = runs (store x) -> forall t, emitted y i t <-> emitted x i t.
Proof. intros Hr t. unfold emitted. by rewrite Hr. Qed.
(** One plan extends the cover by what it emits. *)
Lemma covered_plan d x y i c row now plan : Inv x -> schedules (store x) !! i = Some row -> fires_for d (next_run_at row) ->
  evaluate_occurrences d (next_run_at row) now = Ok plan -> runs (store x) ⊆ runs (store y) ->
  (forall j r, runs (store y) !! j = Some r -> runs (store x) !! j = Some r \/ exists t, t ∈ occurrences plan /\ normal_run i t r) ->
  (forall t, t ∈ occurrences plan -> emitted y i t) ->
  covered d x i c (next_run_at row) -> covered d y i c (plan_next plan).
Proof.
  intros Hx Hrow Hf He Hsub Hnew Hall (C1 & C2 & C3). apply evaluate_ok in He as (E1 & E2 & E3 & E4 & E5); [|done].
  assert (Hold : forall t, emitted x i t -> emitted y i t) by (intros t (j & r & Hj & Hn); exists j, r; split; [by eapply lookup_weaken|done]).
  assert (Hinv : forall t, emitted y i t -> emitted x i t \/ t ∈ occurrences plan).
  { intros t (j & r & Hj & Hn). destruct (Hnew _ _ Hj) as [Hj'|(t' & Ht' & Hn')]; [left; by exists j, r|right].
    destruct Hn as (_ & <- & _), Hn' as (_ & -> & _). done. }
  split_and!; [lia| |].
  - intros t Ht [Het|Het]%Hinv; [destruct (C2 t Ht Het); split; [lia|done] | destruct (E4 t Het) as (? & _ & ?); split; [lia|done]].
  - destruct (misfire_policy d) as [| |m].
    + intros t Ht [Het|Het]%Hinv; [by eapply C3|]. rewrite E5 in Het. by apply not_elem_of_nil in Het.
    + intros Hlt. destruct (decide (c < next_run_at row)) as [Hc|Hc]; [by apply Hold, C3|]. assert (c = next_run_at row) as -> by lia.
      apply Hall. rewrite E5. by apply list_elem_of_singleton.
    + intros t Ht Hft. destruct (decide (t < next_run_at row)) as [Hc|Hc]; [apply Hold, C3; [lia|done] | apply Hall, E5; [lia|done]].
Qed.
(** The schedule has been revised, or has the definition and is covered since. *)
Definition tracks (d : ScheduleDefinition) (i n c : Z) (y : System) : Prop := exists r, schedules (store y) !! i = Some r /\ n <= revision r
  /\ (revision r = n -> (exists snap, decode_snapshot i r = Ok snap /\ definition snap = d) /\ covered d y i c (next_run_at r)).
Lemma tracks_keep d i n c x y : tracks d i n c x -> (forall t, emitted y i t <-> emitted x i t) ->
  (forall r, schedules (store x) !! i = Some r -> exists r', schedules (store y) !! i = Some r' /\ kept r r' /\ next_run_at r' = next_run_at r) ->
  tracks d i n c y.
Proof.
  intros (r & Hr & Hn & Ht) He Hk. destruct (Hk _ Hr) as (r' & Hr' & Hkept & Hnext). exists r'. pose proof Hkept as (_ & _ & Hrev & _).
  rewrite Hrev, Hnext. split_and!; [done..|]. intros Heq. destruct (Ht Heq) as ((snap & Hdec & Hd) & Hc). split; [|by eapply covered_same].
  destruct (kept_decode _ _ _ _ Hkept Hdec) as (snap' & Hdec' & Hd'). exists snap'. split; [done|congruence].
Qed.
Lemma tracks_rows d i n c x y : tracks d i n c x -> (forall t, emitted y i t <-> emitted x i t) ->
  schedules (store y) !! i = schedules (store x) !! i -> tracks d i n c y.
Proof. intros Ht He Hs. eapply tracks_keep; [done..|]. rewrite Hs. intros r Hr. exists r. by split_and!; [|apply kept_refl|]. Qed.
Lemma tracks_materialize d i n c x y claim factory stamps updated ids : Inv x -> claim ∈ claims x ->
  materialize_due claim factory stamps updated (store x) = (Ok ids, store y) -> tracks d i n c x -> tracks d i n c y.
Proof.
  intros Hx Hc Hm Ht. apply materialize_effect in Hm as (i' & row & snap & plan & Hrow & Hdec & _ & He & Hs & _ & Hsub & Hnew & Hall); [|done..].
  destruct (decide (i' = i)) as [->|Hne].
  - destruct Ht as (r & Hr & Hn & Ht). rewrite Hr in Hrow. injection Hrow as <-. exists (with_sch_lease None (plan_next plan) updated r).
    rewrite Hs. split_and!; [by simplify_map_eq|done|]. cbn. intros Heq. destruct (Ht Heq) as ((snap' & Hdec' & Hd) & Hcov).
    rewrite Hdec in Hdec'. injection Hdec' as <-. split.
    + erewrite (decode_snapshot_same i r) by done. rewrite Hdec. by eexists.
    + subst d. eapply (covered_plan _ x); try done; [by eapply row_fires|]. intros j run Hj. destruct (Hnew _ _ Hj) as [?|(t & ? & ? & ? & _)]; [by left|right; by exists t].
  - eapply tracks_rows; [done| |by rewrite Hs, lookup_insert_ne]. apply emitted_same.
    + intros j r' Hj. destruct (Hnew _ _ Hj) as [Hj'|(t & at_ & _ & (N1 & _) & _)]; [left; by exists r'|right; left; by rewrite N1].
    + intros j r Hj. exists r. split; [by eapply lookup_weaken|done].
Qed.
Lemma tracks_step d i n c x y : Inv x -> step x y -> tracks d i n c x -> tracks d i n c y.
Proof.
  intros Hx [_ Hm]%step_moves Ht. destruct Hm.
  - match goal with Hy : store y = _ |- _ => eapply tracks_rows; [done|apply emitted_runs|]; by rewrite Hy end.
  - match goal with Hy : store y = _ |- _ => eapply tracks_rows; [done|apply emitted_runs|]; rewrite Hy; cbn; [done|] end.
    destruct Ht as (r' & Hr' & _). rewrite lookup_insert_ne by congruence. done.
  - match goal with Hr : revised _ _ _ _ _ _ _ |- _ => destruct Hr as (Hold & Hrev & _ & _ & _ & _ & _ & _ & _ & Hy) end.
    destruct (decide (i0 = i)) as [->|Hne].
    + destruct Ht as (r' & Hr' & Hn & _). rewrite Hold in Hr'. injection Hr' as <-. exists r. rewrite Hy. cbn. split_and!; [by simplify_map_eq|lia|lia].
    + eapply tracks_rows; [done|apply emitted_runs|]; rewrite Hy; cbn; [done|by rewrite lookup_insert_ne].
  - match goal with Hy : store y = _ |- _ => eapply tracks_rows; [done| |by rewrite Hy]; apply emitted_same; rewrite Hy; cbn end.
    + intros j' r' [[<- <-]|[_ Hj]]%lookup_insert_Some; [right; right; lia | left; by exists r'].
    + intros j' r' Hj. exists r'. split; [|done]. rewrite lookup_insert_ne by congruence. done.
  - match goal with Hy : store y = _ |- _ => eapply tracks_keep; [done|apply emitted_runs; by rewrite Hy|]; rewrite Hy; cbn end. intros r Hr.
    destruct (list_to_map (M := gmap Z Schedule) (claimed_schedules c0 tokens locked now (schedules (store x))) !! i) as [r'|] eqn:E.
    + exists r'. split; [by apply lookup_union_Some_l|]. apply elem_of_list_to_map_2, claimed_schedules_elem in E as (r0 & tok & Hr0 & _ & ->).
      simplify_eq. by split; [apply claimed_schedule_kept|].
    + exists r. rewrite lookup_union_r by done. by split_and!; [|apply kept_refl|].
  - by eapply tracks_materialize.
  - match goal with Hr : runs_move _ _ _ |- _ => destruct Hr as [Hmv1 Hmv2] end. eapply tracks_rows; [done| |congruence]. apply emitted_same.
    + intros j r' Hj. destruct (Hmv2 _ _ Hj) as (r & ? & ? & _). left. by exists r.
    + intros j r Hj. destruct (Hmv1 _ _ Hj) as [r' Hr']. exists r'. split; [done|]. destruct (Hmv2 _ _ Hr') as (r0 & ? & ? & _). congruence.
  - match goal with Ha : acquired _ _ _ _ _ _ |- _ => destruct Ha as (r & sched & expires & Hr & _ & _ & _ & _ & _ & Hy) end.
    eapply tracks_rows; [done| |by rewrite Hy]. apply emitted_same; rewrite Hy; cbn.
    + intros j r' [[<- <-]|[_ Hj]]%lookup_insert_Some; left; [by exists r | by exists r'].
    + intros j r' Hj. destruct (decide (j = job)) as [->|Hne]; [|exists r'; by rewrite lookup_insert_ne]. rewrite Hr in Hj. injection Hj as <-.
      eexists. by rewrite lookup_insert_eq.
Qed.
(** C11. While a schedule keeps its revision its runs follow its calendar, whatever else
    happens in between: from the cursor it had on, every run is for an instant the
    calendar fires and lies before the cursor it has come to; with the catch-up policy
    there is exactly one run for every such instant, none is lost however often the
    schedulers stop; with the skip policy there is none; with fire-once the instant that
    was due gets its run when the cursor moves.  No occurrence has two runs. *)
Theorem calendar_covered x y i r r' snap : reachable x -> rtc step x y -> schedules (store x) !! i = Some r -> schedules (store y) !! i = Some r' ->
  revision r' = revision r -> decode_snapshot i r = Ok snap ->
  covered (definition snap) y i (next_run_at r) (next_run_at r') /\ occurrences_unique (runs (store y)).
Proof.
  intros Hx Hxy Hr Hr' Hrev Hdec. split; [|apply reachable_unique; unfold reachable in *; by etrans].
  assert (Ht : tracks (definition snap) i (revision r) (next_run_at r) x).
  { exists r. split_and!; [done|done|]. intros _. split; [by exists snap|]. apply covered_start; [by apply scheduler_inv|done]. }
  apply scheduler_inv in Hx. clear Hr Hdec. induction Hxy as [|x z y Hs _ IH].
  - destruct Ht as (r0 & Hr0 & _ & Ht). rewrite Hr' in Hr0. injection Hr0 as <-. by destruct (Ht Hrev).
  - apply IH; eauto using tracks_step, scheduler_step_inv.
Qed.

(** ** Concurrent executions *)
(** The executions of the schedule whose lease has not expired. *)
Definition live_runs (i t : Z) (m : gmap Z Run) : gmap Z Run :=
  filter (fun z => schedule_id (identity z.2) = i /\ live_execution t (state z.2) = true) m.
Lemma live_runs_le i t t' m m' : (forall j r', m' !! j = Some r' -> live_execution t' (state r') = true ->
    exists r, m !! j = Some r /\ identity r = identity r' /\ live_execution t (state r) = true) -> (size (live_runs i t' m') <= size (live_runs i t m))%nat.
Proof.
  intros Hm. rewrite <- !(size_dom (D := gset Z)). apply subseteq_size. intros j. rewrite !elem_of_dom. intros [r' [Hr' [Hi Hl]]%map_lookup_filter_Some].
  destruct (Hm _ _ Hr' Hl) as (r & Hr & Hid & Hlr). exists r. apply map_lookup_filter_Some. cbn. rewrite Hid. by split_and!.
Qed.
Lemma live_runs_acquire i job t u m r' : t <= u ->
  (size (live_runs i u (<[job := r']> m))
   <= S (size (filter (fun z : Z * Run => schedule_id (identity z.2) = i /\ z.1 <> job /\ live_execution t (state z.2) = true) m)))%nat.
Proof.
  intros Htu. rewrite <- !(size_dom (D := gset Z)).
  transitivity (size ({[job]} ∪ dom (D := gset Z) (filter (fun z : Z * Run => schedule_id (identity z.2) = i /\ z.1 <> job /\ live_execution t (state z.2) = true) m))).
  - apply subseteq_size. intros j. rewrite elem_of_union, elem_of_singleton, !elem_of_dom.
    intros [r [Hj [Hi Hl]]%map_lookup_filter_Some]. destruct (decide (j = job)) as [->|Hne]; [by left|right]. rewrite lookup_insert_ne in Hj by done.
    exists r. apply map_lookup_filter_Some. cbn in *. split_and!; try done. by eapply live_execution_earlier.
  - rewrite size_union_alt, size_singleton. apply le_n_S, subseteq_size, subseteq_difference_l. done.
Qed.
Lemma step_live x y i : step x y -> (size (live_runs i (clock y) (runs (store y))) <= size (live_runs i (clock x) (runs (store x))))%nat
  \/ exists r, schedules (store y) !! i = Some r /\ Z.of_nat (size (live_runs i (clock y) (runs (store y)))) <= col_concurrent (columns r).
Proof.
  intros [Hclk Hm]%step_moves.
  assert (Hsame : forall m', (forall j r', m' !! j = Some r' -> runs (store x) !! j = Some r' \/ exists at_, state r' = new_state at_) ->
    (size (live_runs i (clock y) m') <= size (live_runs i (clock x) (runs (store x))))%nat).
  { intros m' Hm'. apply live_runs_le. intros j r' Hj Hl. destruct (Hm' _ _ Hj) as [Hj'|[at_ Hn]]; [|by rewrite Hn in Hl].
    exists r'. split_and!; try done. by eapply live_execution_earlier. }
  destruct Hm.
  - match goal with Hy : store y = _ |- _ => rewrite Hy end. left. apply Hsame. by left.
  - match goal with Hy : store y = _ |- _ => rewrite Hy end. left. apply Hsame. by left.
  - match goal with Hr : revised _ _ _ _ _ _ _ |- _ => destruct Hr as (_ & _ & _ & _ & _ & _ & _ & _ & _ & ->) end. left. apply Hsame. by left.
  - match goal with Hy : store y = _ |- _ => rewrite Hy end. left. apply Hsame. cbn. intros j' r' [[<- <-]|[_ Hj]]%lookup_insert_Some; [right; by eexists | by left].
  - match goal with Hy : store y = _ |- _ => rewrite Hy end. left. apply Hsame. by left.
  - match goal with Hm : materialize_due _ _ _ _ _ = _ |- _ => apply materialize_ok in Hm as (? & ? & ? & s1 & _ & _ & _ & _ & Hi & _ & _ & ->) end.
    apply insert_runs_ok in Hi as (_ & _ & _ & Hnew & _). left. apply Hsame. cbn. intros j r' Hj.
    destruct (Hnew _ _ Hj) as [?|(? & at_ & _ & _ & ? & _)]; [by left | right; by exists at_].
  - match goal with Hr : runs_move _ _ _ |- _ => destruct Hr as [_ Hmv] end. left. apply live_runs_le. intros j r' Hj Hl.
    destruct (Hmv _ _ Hj) as (r & ? & ? & _ & _ & Hlive). exists r. split_and!; try done. by apply (Hlive (clock y)).
  - match goal with Ha : acquired _ _ _ _ _ _ |- _ => destruct Ha as (r & sched & expires & Hr & Hsched & _ & _ & Hcount & _ & ->) end. cbn.
    destruct (decide (schedule_id (identity r) = i)) as [<-|Hne].
    + right. exists sched. split; [done|]. unfold active_execution_count in Hcount. etrans; [|apply Z.le_succ_l, Hcount].
      rewrite <- Nat2Z.inj_succ. apply inj_le, live_runs_acquire. lia.
    + left. rewrite <- !(size_dom (D := gset Z)). apply subseteq_size. intros j. rewrite !elem_of_dom.
      intros [r' [[[<- <-]|[Hj' Hj]]%lookup_insert_Some [Hi Hl]]%map_lookup_filter_Some]; [done|].
      exists r'. apply map_lookup_filter_Some. split_and!; try done. by eapply live_execution_earlier.
Qed.
(** The schedule never allows more than [limit] executions at once. *)
Definition allows (i limit : Z) (x : System) : Prop := forall r, schedules (store x) !! i = Some r -> col_concurrent (columns r) <= limit.
(** C12. Executions of one schedule never outnumber what its definition has allowed: over
    any history in which its limit stays within a bound, whatever is delivered twice,
    acquired, renewed, expired or finished in between, the leases that are live at the
    database clock never exceed the bound. *)
Theorem concurrency_bounded i limit x : rtc (fun a b => step a b /\ allows i limit b) initial x -> 0 <= limit ->
  Z.of_nat (size (live_runs i (clock x) (runs (store x)))) <= limit.
Proof.
  intros Hx Hlimit. remember initial as x0 eqn:E.
  assert (Hi : Z.of_nat (size (live_runs i (clock x0) (runs (store x0)))) <= limit) by (subst; unfold live_runs; cbn; by rewrite map_filter_empty).
  clear E. induction Hx as [|x1 x2 x3 [Hs Ha] _ IH]; [done|]. apply IH. destruct (step_live _ _ i Hs) as [Hle|(r & Hr & Hle)]; [lia|].
  specialize (Ha _ Hr). lia.
Qed.

(** ** The audit trail *)
(** The revisions the audit records of a schedule tell of, newest first. *)
Definition audited_revisions (i : Z) (s : Store) : list Z :=
  new_revision <$> filter (fun a => audit_schedule a = i /\ action a <> "replay") (audits s).
(** The revisions from [n] down to 1. *)
Definition down_from (n : Z) : list Z := reverse (seqZ 1 n).
Lemma down_from_S n : 0 <= n -> down_from (n + 1) = (n + 1) :: down_from n.
Proof. intros Hn. unfold down_from. rewrite <- (Z2Nat.id n Hn), Z.add_1_r, <- Nat2Z.inj_succ, seqZ_S, reverse_snoc. f_equal. lia. Qed.
Definition audited (i : Z) (x : System) : Prop :=
  match schedules (store x) !! i with
  | Some r => 0 < revision r /\ audited_revisions i (store x) = down_from (revision r)
  | None => audited_revisions i (store x) = []
  end.
Lemma audited_cons i s a s' : audits s' = a :: audits s -> action a <> "replay" ->
  audited_revisions i s' = if decide (audit_schedule a = i) then new_revision a :: audited_revisions i s else audited_revisions i s.
Proof. intros Hs Ha. unfold audited_revisions. rewrite Hs, filter_cons. destruct (decide (audit_schedule a = i)); [rewrite decide_True by done|rewrite decide_False by tauto]; done. Qed.
Lemma audited_same i x y : audited_revisions i (store y) = audited_revisions i (store x) ->
  revision <$> schedules (store y) !! i = revision <$> schedules (store x) !! i -> audited i x -> audited i y.
Proof. unfold audited. intros -> Hs. destruct (schedules (store y) !! i), (schedules (store x) !! i); cbn in Hs; simplify_eq; by rewrite ?Hs. Qed.
Lemma step_audited i x y : step x y -> audited i x -> audited i y.
Proof.
  intros [_ Hm]%step_moves Hx. destruct Hm.
  - match goal with Hy : store y = _ |- _ => by apply (audited_same i x); rewrite ?Hy end.
  - match goal with Hy : store y = _, Hn : schedules _ !! _ = None, Hr : revision r = 1, Ha : new_revision a = 1 |- _ =>
      unfold audited in *; erewrite audited_cons by (rewrite ?Hy; done || congruence); rewrite Hy; cbn [schedules];
      destruct (decide (audit_schedule a = i)) as [<-|Hne]; [|by rewrite lookup_insert_ne by congruence] end.
    match goal with Hi : audit_schedule a = i0 |- _ => rewrite Hi in *; rewrite lookup_insert_eq end.
    match goal with Hn : schedules _ !! _ = None, Hr : revision r = 1, Ha : new_revision a = 1 |- _ => rewrite Hn in Hx; rewrite Hx, Ha, Hr; by split end.
  - match goal with Hr : revised _ _ _ _ _ _ _ |- _ => destruct Hr as (Hold & Hrev & _ & _ & _ & Ha & Hact & _ & Hnew & Hy) end.
    unfold audited in *. erewrite audited_cons by (rewrite ?Hy; done || congruence). rewrite Hy, Ha. cbn [schedules].
    destruct (decide (i0 = i)) as [->|Hne]; [|by rewrite lookup_insert_ne]. rewrite lookup_insert_eq. rewrite Hold in Hx. destruct Hx as [Hpos Hx].
    rewrite Hnew, Hrev, Hx, down_from_S by lia. split; [lia|done].
  - match goal with Hy : store y = _, Ha : action a = "replay" |- _ => apply (audited_same i x); [|by rewrite ?Hy|done]; unfold audited_revisions;
      rewrite Hy; cbn [audits]; rewrite filter_cons, decide_False by tauto; done end.
  - match goal with Hy : store y = _ |- _ => apply (audited_same i x); [by rewrite Hy| |done]; rewrite Hy; cbn [schedules with_schedules] end.
    destruct (list_to_map (M := gmap Z Schedule) (claimed_schedules c tokens locked now (schedules (store x))) !! i) as [r'|] eqn:E.
    + rewrite (lookup_union_Some_l _ _ _ r') by done. apply elem_of_list_to_map_2, claimed_schedules_elem in E as (r0 & tok & -> & _ & ->). done.
    + by rewrite lookup_union_r.
  - match goal with Hm : materialize_due _ _ _ _ _ = _ |- _ => apply materialize_ok in Hm as (plan & ? & row & s1 & _ & _ & Hrow & _ & Hi & _ & _ & Hy) end.
    apply insert_runs_ok in Hi as (Hs & Ha & _). apply (audited_same i x); [unfold audited_revisions; by rewrite Hy; cbn [audits with_schedules]; rewrite Ha| |done].
    rewrite Hy. cbn [schedules with_schedules]. rewrite Hs. destruct (decide (snap_id (snapshot claim) = i)) as [<-|Hne]; [by rewrite lookup_insert_eq, Hrow | by rewrite lookup_insert_ne].
  - apply (audited_same i x); [unfold audited_revisions; congruence|congruence|done].
  - match goal with Ha : acquired _ _ _ _ _ _ |- _ => destruct Ha as (r & sched & expires & _ & _ & _ & _ & _ & _ & Hy) end.
    by apply (audited_same i x); rewrite ?Hy.
Qed.
(** Every change of a schedule is audited, and nothing else is: the records of a
    schedule other than replays tell of each of its revisions from 1 to the current one,
    once and in order. *)
Theorem audit_trail_complete x i : reachable x ->
  audited_revisions i (store x) = match schedules (store x) !! i with Some r => down_from (revision r) | None => [] end.
Proof.
  intros Hx. assert (Ha : audited i x); [|unfold audited in Ha; by destruct (schedules (store x) !! i); [destruct Ha|]].
  unfold reachable in Hx. remember initial as x0 eqn:E. assert (Hi : audited i x0) by (by subst). clear E.
  induction Hx as [|x1 x2 x3 Hs _ IH]; [done|]. by apply IH, (step_audited i x1).
Qed.
End theorems.

(** ** Scheduled work that succeeded stays done *)
Section handling.
Context `{CalendarLaws} `{JsonColumn} `{SerdeJson} `{UuidText}.
Lemma step_settled x y j r : step x y -> runs (store x) !! j = Some r -> settled r -> runs (store y) !! j = Some r.
Proof.
  intros [_ Hm]%step_moves Hj Hr. destruct Hm.
  - match goal with Hy : store y = _ |- _ => by rewrite Hy end.
  - match goal with Hy : store y = _ |- _ => by rewrite Hy end.
  - match goal with Hr : revised _ _ _ _ _ _ _ |- _ => destruct Hr as (_ & _ & _ & _ & _ & _ & _ & _ & _ & ->) end. done.
  - match goal with Hy : store y = _ |- _ => rewrite Hy end. cbn. by rewrite lookup_insert_ne by congruence.
  - match goal with Hy : store y = _ |- _ => by rewrite Hy end.
  - match goal with Hm : materialize_due _ _ _ _ _ = _ |- _ => apply materialize_ok in Hm as (? & ? & ? & s1 & _ & _ & _ & _ & Hi & _ & _ & ->) end.
    apply insert_runs_ok in Hi as (_ & _ & Hsub & _). cbn. by eapply lookup_weaken.
  - match goal with Hr : runs_move _ _ _ |- _ => destruct Hr as [Hmv1 Hmv2] end. destruct (Hmv1 _ _ Hj) as [r' Hr'].
    destruct (Hmv2 _ _ Hr') as (r0 & Hr0 & _ & _ & Hs & _). rewrite Hj in Hr0. injection Hr0 as <-. by rewrite Hr', Hs.
  - match goal with Ha : acquired _ _ _ _ _ _ |- _ => destruct Ha as (r0 & sched & expires & Hr0 & _ & He & _ & _ & _ & ->) end. cbn.
    destruct (decide (j = job)) as [->|Hne]; [|by rewrite lookup_insert_ne]. rewrite Hj in Hr0. injection Hr0 as <-. unfold executable in He.
    destruct Hr as [Hr|Hr]; by rewrite Hr in He.
Qed.
Lemma steps_settled x y j r : rtc step x y -> runs (store x) !! j = Some r -> settled r -> runs (store y) !! j = Some r.
Proof. induction 1 as [|x z y Hs _ IH]; [done|]. intros Hj Hr. apply IH; [|done]. by eapply step_settled. Qed.
Lemma acquire_completed job deadline f u s r : runs s !! job = Some r -> status (state r) = Completed ->
  acquire_execution job deadline f u s = (Ok AlreadyCompleted, s).
Proof. intros Hr Hs. unfold acquire_execution, atomically, acquire_execution_in_transaction, mbind, tx_bind, tx_get. by rewrite Hr, Hs. Qed.
Lemma acquire_completed_inv job deadline f u s s' : acquire_execution job deadline f u s = (Ok AlreadyCompleted, s') ->
  s' = s /\ exists r, runs s !! job = Some r /\ status (state r) = Completed.
Proof.
  intros Ha. pose proof Ha as [[-> _]|(d & ? & _)]%atomically_ok%acquire_tx_ok; [|done]. split; [done|]. apply atomically_ok in Ha.
  unfold acquire_execution_in_transaction in Ha. apply tx_bind_ok in Ha as (s0 & s1 & [= <- <-] & Ha).
  destruct (runs s !! job) as [r|]; [|done]. exists r. split; [done|]. destruct (status (state r)); try done.
  all: destruct (_ && _) in Ha; [done|]; apply tx_bind_ok in Ha as (sched & s1 & [_ ->]%tx_lift_ok & Ha);
    destruct (_ <=? _) in Ha; [done|]; apply tx_bind_ok in Ha as (lease & s1 & [_ ->]%tx_lift_ok & Ha);
    destruct (deadline_capped_lease _ _ _) as [d|]; [|done]; apply tx_bind_ok in Ha as (micros & s1 & [_ ->]%tx_lift_ok & Ha);
    apply tx_bind_ok in Ha as (b & s1 & _ & Ha); injection Ha as Ha _; by destruct b.
Qed.
(** A delivery of the job that the handler accepts and that reaches the database. *)
Definition deliverable (J : Type) `{Job J} (job : Z) (e : EncodedJobEnvelope) (ctx : DeliveryContext) (d : Delivery) : Prop :=
  cancelled ctx = false /\ job_id (header e) = job /\ ef_job_id (effect_identity ctx) = job /\ job_type (header e) = NAME J
  /\ (exists p, decode J (bytes e) = Ok p) /\ acquire_runs d = true.
Lemma handle_succeeded (J : Type) `{Job J} e ctx deadline d s s' : scheduled_handle J e ctx deadline d s = (Succeeded, s') ->
  exists r, runs s' !! ef_job_id (effect_identity ctx) = Some r /\ status (state r) = Completed.
Proof.
  unfold scheduled_handle. set (job := ef_job_id _). destruct (cancelled ctx); [done|]. destruct (_ || _); [done|]. destruct (decode J _); [|done].
  destruct (acquire_runs d); [|done]. cbn [negb]. destruct (acquire_execution job deadline _ _ s) as [[acq|er] s1] eqn:Ea; [|done].
  destruct acq as [| | | | |f lease]; try done.
  - intros [= <-]. by apply acquire_completed_inv in Ea as [-> Hr].
  - destruct (match bounded_execution_budget _ _ _ with None => _ | Some _ => _ end) as [o s2]. destruct (finish_runs d); [|done].
    destruct (finish_execution job f o _ _ _) as [[u|er] s3] eqn:Ef; [|done]. intros [= -> <-].
    apply update_run_ok in Ef as (r & Hr & _ & _ & ->). eexists. cbn. rewrite lookup_insert_eq. by split.
Qed.
(** C14. Success is durable: when the handler reports a scheduled job as succeeded the
    run is completed in the database, however many rivals there are; no later step
    changes it, and every later delivery of the job is answered with success without
    touching the store, so that the work is not done again. *)
Theorem success_is_durable (J : Type) `{Job J} e ctx deadline d s s' x y : scheduled_handle J e ctx deadline d s = (Succeeded, s') ->
  store x = s' -> rtc step x y ->
  (exists r, runs (store x) !! ef_job_id (effect_identity ctx) = Some r /\ status (state r) = Completed
     /\ runs (store y) !! ef_job_id (effect_identity ctx) = Some r)
  /\ forall e' ctx' deadline' d', deliverable J (ef_job_id (effect_identity ctx)) e' ctx' d' ->
       scheduled_handle J e' ctx' deadline' d' (store y) = (Succeeded, store y).
Proof.
  intros (r & Hr & Hs)%handle_succeeded <- Hxy. assert (Hy : runs (store y) !! ef_job_id (effect_identity ctx) = Some r) by (eapply steps_settled; [done..|by left]).
  split; [by exists r|]. intros e' ctx' deadline' d' (Hc & Hj & Hj' & Hn & [p Hp] & Ha). unfold scheduled_handle.
  rewrite Hc, Hj, Hj', Z.eqb_refl, bool_decide_true, Hp, Ha by done. cbn [negb orb]. by erewrite acquire_completed.
Qed.
End handling.
