(* ===== verification/SchedulerLiveness.v ===== *)
(** * A claim that still owns its schedule materializes

    Nothing in the tables can stand in its way: the rows keep the checks of the migration
    and their names apart, a claim is of a cursor that was due, and no run exists from the
    cursor on, so that the unique indexes accept what the plan emits. *)
From S2P Require Import Prelude Machine Text Ordered JsonShape JobPolicy JobWire JobTheorems SchedulerTypes Scheduler.
From S2P Require Import SchedulerFacts SchedulerHistory SchedulerTheorems.

Section liveness.
Context `{CalendarLaws} `{JsonColumn} `{SerdeJson} `{UuidText}.

(** ** Rows *)
Definition rows_ok (m : gmap Z Schedule) : Prop :=
  (forall i r, m !! i = Some r -> schedule_ok i r = true)
  /\ forall i r i' r', m !! i = Some r -> m !! i' = Some r' -> col_name (columns r) = col_name (columns r') -> i = i'.
Lemma rows_ok_insert m i r : rows_ok m -> schedule_ok i r = true ->
  map_Forall (fun i' r' => i' = i \/ col_name (columns r') <> col_name (columns r)) m -> rows_ok (<[i := r]> m).
Proof.
  intros [Hm Hu] Hok Hn. split.
  - intros i' r' [[<- <-]|[_ Hi]]%lookup_insert_Some; [done | by apply Hm].
  - intros i1 r1 i2 r2 [[<- <-]|[N1 L1]]%lookup_insert_Some [[<- <-]|[N2 L2]]%lookup_insert_Some Heq; [done| | |by eapply Hu].
    + by destruct (Hn _ _ L2) as [?|?].
    + by destruct (Hn _ _ L1) as [?|?].
Qed.
Lemma rows_ok_names m i r : rows_ok m -> m !! i = Some r -> map_Forall (fun i' r' => i' = i \/ col_name (columns r') <> col_name (columns r)) m.
Proof. intros [_ Hu] Hr i' r' Hr'. destruct (decide (i' = i)) as [->|Hne]; [by left|right]. intros Heq. by destruct Hne; eapply Hu. Qed.
Lemma rows_ok_kept m m' : rows_ok m -> (forall i r', m' !! i = Some r' -> exists r, m !! i = Some r /\ columns r' = columns r /\ schedule_ok i r' = true) -> rows_ok m'.
Proof.
  intros [Hm Hu] Hk. split.
  - intros i r' Hr'. by destruct (Hk _ _ Hr') as (? & _ & _ & ?).
  - intros i1 r1 i2 r2 L1 L2 Heq. destruct (Hk _ _ L1) as (r1' & ? & Hc1 & _), (Hk _ _ L2) as (r2' & ? & Hc2 & _). rewrite Hc1, Hc2 in Heq. by eapply Hu.
Qed.
Lemma step_rows_ok x y : step x y -> rows_ok (schedules (store x)) -> rows_ok (schedules (store y)).
Proof.
  intros [_ Hm]%step_moves Hx. destruct Hm.
  - match goal with Hy : store y = _ |- _ => by rewrite Hy end.
  - match goal with Hy : store y = _ |- _ => rewrite Hy end. by apply rows_ok_insert.
  - match goal with Hr : revised _ _ _ _ _ _ _ |- _ => destruct Hr as (_ & _ & _ & Hok & Hn & _ & _ & _ & _ & ->) end. by apply rows_ok_insert.
  - match goal with Hy : store y = _ |- _ => by rewrite Hy end.
  - match goal with Hy : store y = _, Hf : forallb _ _ = true |- _ => rewrite Hy; cbn; rewrite forallb_forall in Hf; rename Hf into Hall end.
    eapply rows_ok_kept; [done|]. intros i r' [E|[_ E]]%lookup_union_Some_raw; [|exists r'; split_and!; try done; by apply Hx].
    apply elem_of_list_to_map_2 in E. pose proof E as (r & tok & Hr & _ & ->)%claimed_schedules_elem. exists r. split_and!; try done.
    rewrite list_elem_of_In in E. apply (Hall _ E).
  - match goal with Hm : materialize_due _ _ _ _ _ = _ |- _ => apply materialize_ok in Hm as (plan & ? & row & s1 & _ & _ & Hrow & _ & Hi & Hok & Hn & ->) end.
    apply insert_runs_ok in Hi as (Hs & _). cbn. rewrite Hs in *. by apply rows_ok_insert.
  - congruence.
  - match goal with Ha : acquired _ _ _ _ _ _ |- _ => by destruct Ha as (r & sched & expires & _ & _ & _ & _ & _ & _ & ->) end.
Qed.
(** ** Claims *)
Definition claims_due (x : System) : Prop := forall c, c ∈ claims x -> snap_next_run_at (snapshot c) <= claimed_at c.
Lemma step_claims_due x y : step x y -> claims_due x -> claims_due y.
Proof.
  intros [_ Hm]%step_moves Hx. destruct Hm; try (match goal with Hc : claims y = claims x |- _ => unfold claims_due in *; by rewrite Hc end).
  match goal with Hc : claims y = _, Hl : Forall _ l |- _ => intros claim Hin; rewrite Hc in Hin; rewrite Forall_forall in Hl; apply elem_of_app in Hin as [Hin|Hin]; [|by apply Hx];
    destruct (Hl _ Hin) as (r & Hr & Hdue) end.
  apply claimed_schedules_elem in Hr as (r0 & tok & _ & Hd & ->). unfold decode_due in Hdue. inv_ok. subst claim. cbn.
  match goal with Hd : decode_snapshot _ _ = Ok v |- _ => apply decode_snapshot_ok in Hd as (_ & _ & -> & _) end. cbn.
  unfold due in Hd. rewrite !andb_true_iff, Z.leb_le in Hd. tauto.
Qed.
Lemma reachable_rows x : reachable x -> rows_ok (schedules (store x)) /\ claims_due x.
Proof.
  intros Hr. unfold reachable in Hr. remember initial as x0 eqn:E.
  assert (Hi : rows_ok (schedules (store x0)) /\ claims_due x0) by (subst; split; [split; done|by intros c ?%not_elem_of_nil]).
  clear E. induction Hr as [|x1 x2 x3 Hs _ IH]; [done|]. destruct Hi. apply IH. split; [by eapply step_rows_ok | by eapply step_claims_due].
Qed.

(** ** Plans always exist *)
Definition endless (d : ScheduleDefinition) : Prop := cron_valid (expression d) = true /\ forall t, is_Some (find_next (expression d) (timezone d) t).
Lemma next_occurrence_total d t : endless d -> exists n, next_occurrence d t = Ok n.
Proof. intros [Hv Hn]. destruct (Hn t) as [n Ht]. exists n. unfold next_occurrence. by rewrite Hv, Ht. Qed.
Lemma catch_up_total d n next now : endless d -> exists plan, catch_up d n next now = Ok plan.
Proof.
  intros Hd. revert next. induction n as [|n IH]; intros next; cbn; [by eexists|]. destruct (next <=? now); [|by eexists].
  destruct (next_occurrence_total d next Hd) as [v ->]. cbn. destruct (IH v) as [plan ->]. by eexists.
Qed.
Lemma evaluate_total d cursor now : endless d -> cursor <= now -> exists plan, evaluate_occurrences d cursor now = Ok plan.
Proof.
  intros Hd Hle. unfold evaluate_occurrences. rewrite (proj2 (Z.ltb_ge _ _)) by done. cbn. destruct (next_occurrence_total d now Hd) as [v Hv].
  destruct (misfire_policy d); rewrite ?Hv; [by eexists..|by apply catch_up_total].
Qed.
Lemma catch_up_nodup d n next now plan : catch_up d n next now = Ok plan -> fires_for d next -> NoDup (occurrences plan).
Proof.
  revert next plan. induction n as [|n IH]; intros next plan Hc Hf; cbn in Hc; [inv_ok; subst plan; constructor|].
  destruct (next <=? now); inv_ok; subst plan; cbn; [|constructor].
  match goal with Hn : next_occurrence _ _ = Ok _ |- _ => apply next_occurrence_ok in Hn as (Hlt & Hfn & _) end.
  constructor; [|by eapply IH]. match goal with Hr : catch_up _ _ _ _ = Ok _ |- _ => apply catch_up_ok in Hr as (_ & _ & Hall); [|done] end.
  rewrite Hall. lia.
Qed.
Lemma evaluate_nodup d cursor now plan : evaluate_occurrences d cursor now = Ok plan -> fires_for d cursor -> NoDup (occurrences plan).
Proof.
  unfold evaluate_occurrences. intros He Hf. apply bind_ok in He as (u & _ & He). destruct (misfire_policy d); [inv_ok; subst plan..|by eapply catch_up_nodup].
  - constructor.
  - apply NoDup_singleton.
Qed.

(** ** Insertions *)
(** The row [insert_run] writes for an occurrence. *)
Definition occurrence_run (st : Stamp) (i t : Z) (e : EncodedJobEnvelope) : Run :=
  {| identity := {| run_id := stamp_id st; schedule_id := i; scheduled_for := t; replay_sequence := 0; replay_of := None;
                    run_queue := queue e; envelope_json := bytes e; run_created_at := stamp_at st |};
     state := new_state (stamp_at st) |}.
(** What the factory and the clock must supply: envelopes the table accepts, with job
    identifiers and run identifiers that are new, for as many occurrences as one plan can
    have. *)
Definition MAX_PLAN : nat := 1000.
Record supplies (factory : Factory) (env : nat -> Z -> EncodedJobEnvelope) (stamps : nat -> Stamp) (i : Z) (s : Store) : Prop := {
  supply_built : forall n t, (n < MAX_PLAN)%nat -> factory n i t 0 = Some (env n t);
  supply_ok : forall n t, (n < MAX_PLAN)%nat -> run_ok (job_id (header (env n t))) (occurrence_run (stamps n) i t (env n t)) = true;
  supply_job_new : forall n t, (n < MAX_PLAN)%nat -> runs s !! job_id (header (env n t)) = None;
  supply_job_inj : forall n t n' t', (n < MAX_PLAN)%nat -> (n' < MAX_PLAN)%nat -> job_id (header (env n t)) = job_id (header (env n' t')) -> n = n';
  supply_id_new : forall n j r, (n < MAX_PLAN)%nat -> runs s !! j = Some r -> run_id (identity r) <> stamp_id (stamps n);
  supply_id_inj : forall n n', (n < MAX_PLAN)%nat -> (n' < MAX_PLAN)%nat -> stamp_id (stamps n) = stamp_id (stamps n') -> n = n';
}.
Fixpoint built (env : nat -> Z -> EncodedJobEnvelope) (n : nat) (times : list Z) : list (Z * EncodedJobEnvelope) :=
  match times with
  | [] => []
  | t :: times' => (t, env n t) :: built env (S n) times'
  end.
Section supplied.
Context (factory : Factory) (env : nat -> Z -> EncodedJobEnvelope) (stamps : nat -> Stamp) (i : Z) (s0 : Store) (Hsup : supplies factory env stamps i s0).
Lemma prepare_built times n used : (n + length times <= MAX_PLAN)%nat -> (forall k t, (n <= k < MAX_PLAN)%nat -> job_id (header (env k t)) ∉ used) ->
  prepare factory i n used times = Ok (built env n times).
Proof.
  revert n used. induction times as [|t times IH]; intros n used Hn Hu; [done|]. cbn in *. rewrite (supply_built _ _ _ _ _ Hsup) by lia. cbn.
  rewrite bool_decide_false by (apply Hu; lia). cbn. rewrite IH; [done|lia|]. intros k t' Hk. rewrite not_elem_of_union, not_elem_of_singleton. split; [|apply Hu; lia].
  intros Heq. apply (supply_job_inj _ _ _ _ _ Hsup) in Heq; lia.
Qed.
(** What has been inserted before call [n]. *)
Definition open_for (n : nat) (times : list Z) (s : Store) : Prop :=
  is_Some (schedules s !! i) /\ (forall k t, (n <= k < MAX_PLAN)%nat -> runs s !! job_id (header (env k t)) = None)
  /\ forall j r, runs s !! j = Some r -> (forall k, (n <= k < MAX_PLAN)%nat -> run_id (identity r) <> stamp_id (stamps k)) /\ forall t, t ∈ times -> ~ normal_run i t r.
Lemma insert_run_total n t times s : (n < MAX_PLAN)%nat -> open_for n (t :: times) s ->
  insert_run (stamps n) i t 0 None (env n t) s
  = Ok (tt, with_runs (<[job_id (header (env n t)) := occurrence_run (stamps n) i t (env n t)]> (runs s)) s).
Proof.
  intros Hn ([row Hrow] & Hj & Hr). unfold insert_run. pose proof (supply_ok _ _ _ _ _ Hsup n t Hn) as Hok.
  assert (Hv : (get_version_num (job_id (header (env n t))) =? 7) = true).
  { unfold run_ok in Hok. rewrite !andb_true_iff in Hok. unfold uuid_v7 in Hok. rewrite !andb_true_iff in Hok. tauto. }
  rewrite Hv. cbn [negb]. cbv zeta. unfold occurrence_run in *. rewrite Hok, (Hj n t), Hrow by lia. cbn [is_some is_none negb andb].
  rewrite andb_true_r. unfold run_unique. rewrite bool_decide_true; [done|]. intros j r Hjr. destruct (Hr _ _ Hjr) as [Hid Ht]. cbn. split_and!; [by apply Hid; lia| |done].
  intros [= E1 E2 E3]. apply (Ht t); [by left|done].
Qed.
Lemma insert_runs_total times n s : (n + length times <= MAX_PLAN)%nat -> NoDup times -> open_for n times s -> exists ids s', insert_runs i (built env n times) stamps n s = Ok (ids, s').
Proof.
  revert n s. induction times as [|t times IH]; intros n s Hn Hd Ho; [by eexists _, _|]. apply NoDup_cons in Hd as [Hnot Hd]. cbn in *. unfold mbind, tx_bind.
  rewrite (insert_run_total n t times) by (done || lia). destruct Ho as (Hrow & Hj & Hr). edestruct (IH (S n)) as (ids & s' & ->); [lia|done| |by eexists _, _].
  split_and!; [done| |].
  - intros k t' Hk. cbn. rewrite lookup_insert_ne; [apply Hj; lia|]. intros Heq. apply (supply_job_inj _ _ _ _ _ Hsup) in Heq; lia.
  - cbn. intros j r [[<- <-]|[_ Hjr]]%lookup_insert_Some; cbn.
    + split; [intros k Hk Heq; apply (supply_id_inj _ _ _ _ _ Hsup) in Heq; lia|]. intros t' Ht' (_ & E & _). cbn in E. congruence.
    + destruct (Hr _ _ Hjr) as [Hid Ht]. split; [intros k Hk; apply Hid; lia|]. intros t' Ht'. apply Ht. by right.
Qed.
End supplied.
Lemma schedule_ok_release i r next updated : schedule_ok i r = true -> created_at r <= updated -> schedule_ok i (with_sch_lease None next updated r) = true.
Proof.
  unfold schedule_ok. cbn [with_sch_lease columns paused revision sch_lease lease_ok created_at updated_at]. rewrite !andb_true_iff, andb_false_r.
  intros Hok Hle. destruct_and! Hok. split_and!; try done. by apply Z.leb_le.
Qed.
Lemma catch_up_length d n next now plan : catch_up d n next now = Ok plan -> (length (occurrences plan) <= n)%nat.
Proof.
  revert next plan. induction n as [|n IH]; intros next plan Hc; cbn in Hc; [inv_ok; by subst plan|].
  destruct (next <=? now); inv_ok; subst plan; cbn; [|lia]. apply le_n_S. by eapply IH.
Qed.
Lemma catch_up_policy kind v m : policy_from_database kind v = Ok (CatchUp m) -> 1 <= m <= 1000.
Proof.
  unfold policy_from_database. intros Hp. destruct v as [v|]; [|repeat (case_bool_decide; [done|]); done]. case_bool_decide; [|done].
  apply bind_ok in Hp as (? & Hneg%guard_ok%orb_false_iff & Hp). apply bind_ok in Hp as (? & Hz%guard_ok & Hp).
  destruct (Z.leb_spec v 1000); [|done]. injection Hp as ->. blia.
Qed.
Lemma evaluate_length i r snap cursor now plan : decode_snapshot i r = Ok snap ->
  evaluate_occurrences (definition snap) cursor now = Ok plan -> (length (occurrences plan) <= MAX_PLAN)%nat.
Proof.
  intros (_ & _ & _ & _ & _ & Hp)%decode_snapshot_ok He. unfold evaluate_occurrences in He. apply bind_ok in He as (u & _ & He). unfold MAX_PLAN.
  destruct (misfire_policy (definition snap)) as [| |m]; [inv_ok; subst plan; cbn; lia..|]. apply catch_up_policy in Hp. apply catch_up_length in He. lia.
Qed.
Lemma evaluate_progress i r snap now plan : decode_snapshot i r = Ok snap -> fires_for (definition snap) (next_run_at r) ->
  evaluate_occurrences (definition snap) (next_run_at r) now = Ok plan -> next_run_at r < plan_next plan.
Proof.
  intros (_ & _ & _ & _ & _ & Hp)%decode_snapshot_ok Hf He. unfold evaluate_occurrences in He. apply bind_ok in He as (u & Hg%guard_ok & He). apply Z.ltb_ge in Hg.
  destruct (misfire_policy (definition snap)) as [| |m] eqn:Em.
  1, 2: inv_ok; subst plan; match goal with Hn : next_occurrence _ _ = Ok _ |- _ => apply next_occurrence_ok in Hn as (? & _) end; cbn; lia.
  apply catch_up_policy in Hp.
  destruct (Z.to_nat m) as [|k] eqn:Ek; [lia|]. by eapply catch_up_progress.
Qed.
(** C13. A claim that still owns its schedule materializes: when the calendar has a next
    instant and the factory supplies new, storable envelopes, the transaction commits; no
    check or unique index of the tables can refuse it.  The schedule is released and its
    cursor has moved on, so that a due schedule never gets stuck. *)
Theorem owned_claim_materializes x claim row factory env stamps updated : reachable x -> claim ∈ claims x ->
  schedules (store x) !! snap_id (snapshot claim) = Some row -> owned claim row = true -> endless (definition (snapshot claim)) ->
  supplies factory env stamps (snap_id (snapshot claim)) (store x) -> created_at row <= updated ->
  exists ids s' row', materialize_due claim factory stamps updated (store x) = (Ok ids, s')
    /\ schedules s' !! snap_id (snapshot claim) = Some row' /\ sch_lease row' = None /\ next_run_at row < next_run_at row'.
Proof.
  intros Hx Hc Hrow Ho Hend Hsup Hup. pose proof (reachable_rows x Hx) as [Hrows Hdue]. pose proof (scheduler_inv x Hx) as Hinv. set (i := snap_id (snapshot claim)) in *.
  pose proof Ho as Ho'. unfold owned in Ho'. rewrite !andb_true_iff, !Z.eqb_eq in Ho'. destruct Ho' as [[Hrev Hnext] _].
  destruct (inv_claims x Hinv _ Hc) as (_ & row0 & Hrow0 & _ & Hsame). fold i in Hrow0, Hsame. rewrite Hrow in Hrow0. injection Hrow0 as <-.
  destruct (Hsame Hrev) as (snap & Hdec & Hd). pose proof (row_fires x i row snap Hinv Hrow Hdec) as Hf.
  destruct (evaluate_total (definition (snapshot claim)) (next_run_at row) (claimed_at claim)) as [plan He]; [done|rewrite Hnext; by apply Hdue|].
  assert (Hlen : (length (occurrences plan) <= MAX_PLAN)%nat) by (rewrite <- Hd in He; by eapply evaluate_length).
  pose proof He as Hnd. rewrite Hd in Hf. apply evaluate_nodup in Hnd; [|done].
  destruct (insert_runs_total factory env stamps i (store x) Hsup (occurrences plan) 0 (store x)) as (ids & s1 & Hins); [exact Hlen|done| |].
  { split_and!; [by eexists|intros k t [_ Hk]; by apply (supply_job_new _ _ _ _ _ Hsup)|]. intros j r Hj.
    split; [intros k [_ Hk]; by eapply (supply_id_new _ _ _ _ _ Hsup)|].
    intros t Ht (N1 & N2 & N3). apply evaluate_ok in He as (_ & _ & _ & E4 & _); [|done]. destruct (E4 _ Ht) as [? _].
    destruct (inv_runs x Hinv _ _ Hj) as (_ & row0 & Hrow0 & Hs). rewrite N1, Hrow in Hrow0. injection Hrow0 as <-. specialize (Hs N3). lia. }
  pose proof Hins as (Hs1 & _)%insert_runs_ok. exists ids, (with_schedules (<[i := with_sch_lease None (plan_next plan) updated row]> (schedules s1)) s1).
  exists (with_sch_lease None (plan_next plan) updated row). cbn. rewrite lookup_insert_eq. split_and!; try done.
  - unfold materialize_due, atomically. cbv zeta. fold i. rewrite <- Hnext, He. unfold mbind, tx_bind, tx_lift, tx_get. rewrite (prepare_built factory env stamps i (store x)) by (exact Hlen || done || set_solver).
    rewrite Hrow, Ho, Hins. unfold put_schedule. rewrite schedule_ok_release by (done || by apply Hrows). rewrite bool_decide_true; [done|]. cbn. rewrite Hs1. by apply rows_ok_names.
  - rewrite <- Hd in He, Hf. by eapply evaluate_progress.
Qed.
End liveness.

(** ** A concrete scheduler: one schedule that missed its minutes, claimed, caught up and executed *)
Module SchedulerExamples.
Import JobExamples.
#[local] Existing Instance uuids.
#[local] Existing Instance json.
#[local] Existing Instance mail.
Definition MINUTE : Z := 60000000.
(** One expression, which fires at the start of every minute. *)
#[local] Instance minutes : Calendar := {|
  cron_valid e := bool_decide (e = "* * * * *");
  zone s := if bool_decide (s = "UTC" \/ s = "Etc/UTC") then Some "Etc/UTC" else None;
  find_next _ _ t := Some ((t / MINUTE + 1) * MINUTE);
|}.
#[local] Instance minutes_laws : CalendarLaws.
Proof.
  refine {| fires _ _ t := t mod MINUTE = 0 |}; unfold MINUTE.
  - intros e z t n [= <-]. unfold MINUTE. pose proof (Z.div_mod t 60000000 ltac:(lia)). pose proof (Z.mod_pos_bound t 60000000 ltac:(lia)).
    split_and!; [lia | by rewrite Z_mod_mult|]. intros u Hu Hm. pose proof (Z.div_mod u 60000000 ltac:(lia)). lia.
  - intros s z. unfold zone, minutes. case_bool_decide; [|done]. by intros [= <-].
Defined.
#[local] Instance any_json : JsonColumn := fun _ => true.
Definition uuid (n : Z) : Z := Z.shiftl 7 76 + Z.shiftl 2 62 + n.
Definition definition0 : ScheduleDefinition :=
  {| def_name := "nightly"; expression := "* * * * *"; timezone := "Etc/UTC"; misfire_policy := CatchUp 2; max_concurrent_runs := 1;
     scheduler_lease_duration := Duration.from_secs 60; execution_lease_duration := Duration.from_secs 60;
     idempotency_window := Duration.from_secs 60; def_paused := false |}.
Lemma definition0_valid : valid_definition definition0.
Proof.
  exists "nightly", "* * * * *", "UTC", (CatchUp 2), 1, (Duration.from_secs 60), (Duration.from_secs 60), (Duration.from_secs 60), false. by vm_compute.
Qed.
Definition envelope (n : nat) : EncodedJobEnvelope :=
  {| bytes := "{document}"; queue := "mail";
     header := {| job_id := uuid (100 + Z.of_nat n); job_type := "mail.send"; job_version := 1; tenant_id := None; JobWire.created_at := now0; not_before := None;
                  correlation_id := ID; causation_id := None; job_key := Some "order-1"; attempt_policy := attempt_policy header0 |} |}.
Definition factory0 : Factory := fun n _ _ _ => Some (envelope n).
Definition stamps0 (n : nat) : Stamp := {| stamp_id := uuid (2000 + Z.of_nat n); stamp_at := 3 * MINUTE + 2 |}.
Definition tick (s : Store) (t : Z) (l : list DueSchedule) : System := {| store := s; clock := t; claims := l |}.
Definition created : ST Store SchedulerError ScheduleSnapshot :=
  create_schedule 10 11 11 (uuid 1) {| stamp_id := uuid 2; stamp_at := 12 |} definition0 "ops" "first".
Definition x1 : System := tick (created (store initial)).2 12 [].
(** Three minutes have been missed when a scheduler comes back. *)
Definition due0 : ST Store SchedulerError (list DueSchedule) := claim_due_schedules SchedulerConfig_default [uuid 3] ∅ (3 * MINUTE + 1).
Definition claim0 : DueSchedule :=
  {| snapshot := {| snap_id := uuid 1; definition := definition0; snap_revision := 1; snap_next_run_at := MINUTE; snap_created_at := 11; snap_updated_at := 11 |};
     fence := uuid 3; claimed_at := 3 * MINUTE + 1; due_lease_expires_at := 3 * MINUTE + 1 + 60000000 |}.
Definition x2 : System := tick (due0 (store x1)).2 (3 * MINUTE + 1) match (due0 (store x1)).1 with Ok l => l ++ [] | Err _ => [] end.
Definition x3 : System := tick (materialize_due claim0 factory0 stamps0 (3 * MINUTE + 2) (store x2)).2 (3 * MINUTE + 2) (claims x2).
Definition x4 : System := tick (claim_pending_runs SchedulerConfig_default [uuid 4; uuid 5] ∅ (3 * MINUTE + 3) (store x3)).2 (3 * MINUTE + 3) (claims x2).
Definition acquire0 : AcquireClock :=
  {| looked_at := 3 * MINUTE + 4; counted_at := 3 * MINUTE + 4; leased_at := 3 * MINUTE + 5; claimed_now := 3 * MINUTE + 5 |}.
Definition x5 : System := tick (acquire_execution (uuid 100) (5 * MINUTE) (uuid 6) acquire0 (store x4)).2 (3 * MINUTE + 6) (claims x2).
Lemma sched_claims2 : claims x2 = [claim0].
Proof. by vm_compute. Qed.
Lemma sched_step1 : step initial x1.
Proof. eapply (do_create initial 10); [by vm_compute | by vm_compute | exact definition0_valid | apply surjective_pairing]. Qed.
Lemma sched_step2 : step x1 x2.
Proof. eapply (do_claim x1 SchedulerConfig_default [uuid 3] ∅ (3 * MINUTE + 1)); [by vm_compute | by vm_compute | apply surjective_pairing]. Qed.
Lemma claim0_issued : claim0 ∈ claims x2.
Proof. rewrite sched_claims2. by left. Qed.
Lemma sched_step3 : step x2 x3.
Proof. eapply (do_materialize x2 claim0); [by vm_compute | exact claim0_issued | apply surjective_pairing]. Qed.
Lemma sched_step4 : step x3 x4.
Proof. eapply (do_claim_runs x3 SchedulerConfig_default [uuid 4; uuid 5] ∅ (3 * MINUTE + 3)); [by vm_compute | by vm_compute | apply surjective_pairing]. Qed.
Lemma sched_step5 : step x4 x5.
Proof. eapply (do_acquire x4 (uuid 100) (5 * MINUTE) (uuid 6) acquire0); [by vm_compute | by vm_compute | by vm_compute | apply surjective_pairing]. Qed.
Lemma sched_x2_reachable : reachable x2.
Proof. eapply rtc_r; [apply rtc_once, sched_step1 | apply sched_step2]. Qed.
Definition columns0 : Columns :=
  {| col_name := "nightly"; col_cron := "* * * * *"; col_timezone := "Etc/UTC"; col_policy := "catch_up"; col_catch_up := Some 2; col_concurrent := 1;
     col_lease_micros := 60000000; col_execution_micros := 60000000; col_window_micros := 60000000 |}.
Definition row (next updated : Z) (l : option Lease) : Schedule :=
  {| columns := columns0; paused := false; revision := 1; next_run_at := next; sch_lease := l; created_at := 11; updated_at := updated |}.
Lemma row1 : schedules (store x1) !! uuid 1 = Some (row MINUTE 11 None).
Proof. by vm_compute. Qed.
Definition leased : option Lease := Some {| owner := "scheduler"; token := uuid 3; expires_at := 3 * MINUTE + 1 + 60000000 |}.
Lemma row2 : schedules (store x2) !! uuid 1 = Some (row MINUTE 11 leased).
Proof. by vm_compute. Qed.
Lemma row5 : schedules (store x5) !! uuid 1 = Some (row (3 * MINUTE) (3 * MINUTE + 2) None).
Proof. by vm_compute. Qed.
Lemma run_states : run_status (uuid 100) (store x5) = Some Running /\ run_status (uuid 101) (store x5) = Some Dispatching.
Proof. split; by vm_compute. Qed.
Lemma x1_to_x5 : rtc step x1 x5.
Proof. eapply rtc_l; [apply sched_step2|]. eapply rtc_l; [apply sched_step3|]. eapply rtc_l; [apply sched_step4|]. apply rtc_once, sched_step5. Qed.
Definition snap1 : ScheduleSnapshot :=
  {| snap_id := uuid 1; definition := definition0; snap_revision := 1; snap_next_run_at := MINUTE; snap_created_at := 11; snap_updated_at := 11 |}.
Lemma calendar_covered_witness : covered definition0 x5 (uuid 1) MINUTE (3 * MINUTE) /\ occurrences_unique (runs (store x5)).
Proof.
  apply (calendar_covered x1 x5 (uuid 1) (row MINUTE 11 None) (row (3 * MINUTE) (3 * MINUTE + 2) None) snap1).
  - apply rtc_once, sched_step1.
  - exact x1_to_x5.
  - exact row1.
  - exact row5.
  - done.
  - by vm_compute.
Defined.
Lemma allows_row x r : schedules (store x) !! uuid 1 = Some r -> col_concurrent (columns r) = 1 -> allows (uuid 1) 1 x.
Proof. intros Hr Hc r' Hr'. rewrite Hr in Hr'. injection Hr' as <-. lia. Qed.
Lemma concurrency_bounded_witness : Z.of_nat (size (live_runs (uuid 1) (clock x5) (runs (store x5)))) <= 1.
Proof.
  apply (concurrency_bounded (uuid 1) 1 x5); [|lia].
  eapply rtc_l; [split; [apply sched_step1 | exact (allows_row _ _ row1 eq_refl)]|].
  eapply rtc_l; [split; [apply sched_step2 | exact (allows_row _ _ row2 eq_refl)]|].
  eapply rtc_l; [split; [apply sched_step3 | apply (allows_row _ (row (3 * MINUTE) (3 * MINUTE + 2) None)); by vm_compute]|].
  eapply rtc_l; [split; [apply sched_step4 | apply (allows_row _ (row (3 * MINUTE) (3 * MINUTE + 2) None)); by vm_compute]|].
  apply rtc_once. split; [apply sched_step5 | exact (allows_row _ _ row5 eq_refl)].
Defined.
Lemma audit_trail_complete_witness : audited_revisions (uuid 1) (store x2) = down_from 1.
Proof. pose proof (audit_trail_complete x2 (uuid 1) sched_x2_reachable) as Ha. rewrite row2 in Ha. exact Ha. Defined.

(** *** A delivery *)
Definition context0 : DeliveryContext :=
  {| JobWire.attempt := 1; cancelled := false; deadline := now0; dc_tenant := None; dc_correlation := ID; dc_causation := None;
     effect_identity := EffectIdentity_from (envelope 0) |}.
Definition delivery0 : Delivery :=
  {| acquire_runs := true; acquire_clock := acquire0; new_fence := uuid 6; budget_now := 3 * MINUTE + 6; renewals := [];
     ending := HandlerDone Succeeded; before_finish := fun s => s; finish_runs := true; finish_now := 3 * MINUTE + 7; finish_stored := 3 * MINUTE + 7 |}.
Definition done0 : HandlerOutcome * Store := scheduled_handle unit (envelope 0) context0 (5 * MINUTE) delivery0 (store x4).
Lemma done0_ok : done0.1 = Succeeded.
Proof. by vm_compute. Qed.
Lemma success_is_durable_witness : scheduled_handle unit (envelope 0) context0 (5 * MINUTE) delivery0 done0.2 = (Succeeded, done0.2).
Proof.
  destruct (success_is_durable unit (envelope 0) context0 (5 * MINUTE) delivery0 (store x4) done0.2 (tick done0.2 0 []) (tick done0.2 0 [])) as [_ Hd].
  - rewrite <- done0_ok. apply surjective_pairing.
  - done.
  - apply rtc_refl.
  - apply Hd. split_and!; [done | done | done | done | | done]. exists envelope0. by vm_compute.
Defined.

(** *** Liveness *)
Lemma runs2 : runs (store x2) = ∅.
Proof. by vm_compute. Qed.
Lemma envelopes_ok : forallb (fun n => run_ok (uuid (100 + Z.of_nat n)) (occurrence_run (stamps0 n) (uuid 1) 0 (envelope n))) (seq 0 1000) = true.
Proof. by vm_compute. Qed.
Lemma supplies0 : supplies factory0 (fun n _ => envelope n) stamps0 (uuid 1) (store x2).
Proof.
  split.
  - done.
  - intros n t Hn. pose proof envelopes_ok as Hok. rewrite forallb_forall in Hok. apply (Hok n). apply in_seq. unfold MAX_PLAN in Hn. lia.
  - intros n t _. by rewrite runs2.
  - intros n _ n' _ _ _. cbn [envelope header job_id]. unfold uuid. lia.
  - intros n j r _. by rewrite runs2.
  - intros n n' _ _. cbn [stamps0 stamp_id]. unfold uuid. lia.
Qed.
Lemma owned_claim_materializes_witness : exists ids s' row',
  materialize_due claim0 factory0 stamps0 (3 * MINUTE + 2) (store x2) = (Ok ids, s')
  /\ schedules s' !! uuid 1 = Some row' /\ sch_lease row' = None /\ MINUTE < next_run_at row'.
Proof.
  apply (owned_claim_materializes x2 claim0 (row MINUTE 11 leased) factory0 (fun n _ => envelope n)).
  - exact sched_x2_reachable.
  - exact claim0_issued.
  - exact row2.
  - by vm_compute.
  - split; [done|]. intros t. by eexists.
  - exact supplies0.
  - by vm_compute.
Defined.

(** A failure code may start with a dash, which the table of runs refuses: the failure is
    not recorded, and the job is executed again. *)
Definition failing : Delivery :=
  {| acquire_runs := true; acquire_clock := acquire0; new_fence := uuid 6; budget_now := 3 * MINUTE + 6; renewals := [];
     ending := HandlerDone (Permanent "-rejected"); before_finish := fun s => s; finish_runs := true; finish_now := 3 * MINUTE + 7;
     finish_stored := 3 * MINUTE + 7 |}.
Lemma leading_dash_repeats : text.failure_code "-rejected" = Ok tt /\ let '(o, s) := scheduled_handle unit (envelope 0) context0 (5 * MINUTE) failing (store x4) in
  o = Retryable "scheduled_execution_lease_lost" /\ run_status (uuid 100) s = Some Running.
Proof. split; by vm_compute. Qed.
End SchedulerExamples.
