(* ===== verification/Supervisor.v ===== *)
(** * The supervisor of long-lived tasks: [crates/runtime/src/lib.rs]

    The system is the shared tokens, one [Task] per registration, the shutdown coordinator
    and the clock.  Threads interleave between any two accesses to shared state: [pc] says
    which access [run_task] makes next, and [exec] performs one access of a task, of the
    coordinator or of a control handle.  The futures of tasks, the pre-drain hook, wall
    clocks and the scheduler of the runtime are the labels' choice.  Aborting drops a task
    where it awaits.  Times are nanoseconds. *)
From S2P Require Import Prelude Machine Text Ordered.
From Stdlib Require Import Ascii.

(** ** Restart policies *)
Inductive Criticality := Required | Degraded | BestEffort.
#[global] Instance Criticality_eq_dec : EqDecision Criticality.
Proof. solve_decision. Defined.
Inductive RestartMode := Never | OnFailure | Always.
Record RestartPolicy := {
  mode : RestartMode;
  max_restarts : Z;
  initial_backoff : Z;
  max_backoff : Z;
  jitter_percent : Z;
}.
Definition NEVER : RestartPolicy :=
  {| mode := Never; max_restarts := 0; initial_backoff := 0; max_backoff := 0; jitter_percent := 0 |}.
Definition bounded (m : RestartMode) (restarts initial max jitter : Z) : RestartPolicy :=
  {| mode := m; max_restarts := restarts; initial_backoff := initial; max_backoff := Z.max max initial; jitter_percent := Z.min jitter 50 |}.
Definition on_failure : Z -> Z -> Z -> Z -> RestartPolicy := bounded OnFailure.
Definition always : Z -> Z -> Z -> Z -> RestartPolicy := bounded Always.
(** [base.mul_f64(f64::from(percent) / 100.0)], in binary floating point; it panics when
    the product is no duration. *)
Class FloatDuration := { mul_percent : Z -> Z -> option Z }.
(** The wall clock since the epoch, in seconds and nanoseconds, unless it is before it. *)
Definition entropy (clock : option (Z * Z)) : Z :=
  match clock with
  | Some (secs, nanos) => Z.lxor (Z.lor (Z.shiftl secs 17 mod 2 ^ 64) (Z.shiftr secs 47)) nanos
  | None => 0
  end.
Fixpoint name_hash (name : string) (hash : Z) : Z :=
  match name with
  | EmptyString => hash
  | String c rest => name_hash rest (wrapping_add u64_max (hash * 1099511628211 mod 2 ^ 64) (byte_val c))
  end.
Definition delay `{FloatDuration} (p : RestartPolicy) (name : string) (restart : Z) (clock : option (Z * Z)) : option Z :=
  let exponent := Z.min (saturating_sub restart 1) 31 in
  let base := Z.min (Duration.saturating_mul (initial_backoff p) (Z.shiftl 1 exponent)) (max_backoff p) in
  if (jitter_percent p =? 0) || Duration.is_zero base then Some base else
  let hash := name_hash name (Z.lxor restart (entropy clock)) in
  let width := jitter_percent p * 2 + 1 in
  let sample := let n := hash mod width in if n <=? u8_max then n else 0 in
  let percent := 100 + sample - jitter_percent p in
  d ← mul_percent base percent; Some (Z.min d (max_backoff p)).

(** ** Registrations *)
Inductive HeartbeatPolicy := NoHeartbeat | Expected (stale_after : Z).
Record TaskSpec := {
  name : string;
  module_ : string;
  criticality : Criticality;
  restart_policy : RestartPolicy;
  heartbeat_policy : HeartbeatPolicy;
  shutdown_timeout : Z;
}.
Inductive RegisterError := EmptyIdentity | DuplicateName (name : string).
Record Supervisor := { specs : list TaskSpec; names : gset string }.
Definition Supervisor_new : Supervisor := {| specs := []; names := ∅ |}.
Definition register (s : TaskSpec) : ST Supervisor RegisterError unit := fun v =>
  if is_blank (name s) || is_blank (module_ s) then (Err EmptyIdentity, v)
  else if bool_decide (name s ∈ names v) then (Err (DuplicateName (name s)), v)
  else (Ok tt, {| specs := specs v ++ [s]; names := {[name s]} ∪ names v |}).

(** ** The state of a task *)
Inductive TaskExit := Success | Failure (code : string) | Panic | Cancelled | Aborted.
#[global] Instance TaskExit_eq_dec : EqDecision TaskExit.
Proof. solve_decision. Defined.
Inductive TaskStatus := StRegistered | StRunning | StRestarting | StExited | StDegraded | StFailed | StCancelled | StPanicked | StAborted.
#[global] Instance TaskStatus_eq_dec : EqDecision TaskStatus.
Proof. solve_decision. Defined.
(** The registration's fields stay as they are; the tokens are what has been cancelled. *)
Record TaskState := {
  spec : TaskSpec;
  started_at : option Z;
  heartbeat_at : option Z;
  restarts : Z;
  status : TaskStatus;
  last_exit : option TaskExit;
  cancellation : bool;
  completed : bool;
}.
Record TaskSnapshot := {
  sn_spec : TaskSpec;
  sn_started_at : option Z;
  sn_heartbeat_at : option Z;
  sn_restarts : Z;
  sn_status : TaskStatus;
  sn_last_exit : option TaskExit;
  cancellation_requested : bool;
}.
Definition snapshot (s : TaskState) : TaskSnapshot :=
  {| sn_spec := spec s; sn_started_at := started_at s; sn_heartbeat_at := heartbeat_at s; sn_restarts := restarts s; sn_status := status s;
     sn_last_exit := last_exit s; cancellation_requested := cancellation s |}.
(** [duration_since] fails when the clock has gone back. *)
Definition heartbeat_is_stale (s : TaskSnapshot) (now : Z) : bool :=
  match heartbeat_policy (sn_spec s), sn_heartbeat_at s with
  | Expected after, Some last => (last <=? now) && (after <? now - last)
  | Expected after, None => match sn_started_at s with Some t => (t <=? now) && (after <? now - t) | None => false end
  | NoHeartbeat, _ => false
  end.
Definition should_restart (p : RestartPolicy) (exit : TaskExit) (completed_restarts : Z) : bool :=
  if max_restarts p <=? completed_restarts then false
  else match mode p, exit with
       | OnFailure, (Failure _ | Panic) => true
       | Always, (Success | Failure _ | Panic) => true
       | _, _ => false
       end.
Definition finished_status (exit : TaskExit) (c : Criticality) (shutting_down : bool) : TaskStatus :=
  match exit with
  | Success => if bool_decide (c = Degraded) && negb shutting_down then StDegraded else StExited
  | Cancelled => StCancelled
  | Panic => if bool_decide (c = Degraded) then StDegraded else StPanicked
  | Failure _ => if bool_decide (c = Degraded) then StDegraded else StFailed
  | Aborted => StAborted
  end.
Definition with_status (st : TaskStatus) (exit : option TaskExit) (s : TaskState) : TaskState :=
  {| spec := spec s; started_at := started_at s; heartbeat_at := heartbeat_at s; restarts := restarts s; status := st; last_exit := exit;
     cancellation := cancellation s; completed := completed s |}.
Definition finish (exit : TaskExit) (c : Criticality) (shutting_down : bool) (s : TaskState) : TaskState :=
  with_status (finished_status exit c shutting_down) (Some exit) s.
Definition start_attempt (wall : Z) (s : TaskState) : TaskState :=
  {| spec := spec s; started_at := Some wall; heartbeat_at := None; restarts := restarts s; status := StRunning; last_exit := None;
     cancellation := cancellation s; completed := completed s |}.
Definition start_backoff (exit : TaskExit) (s : TaskState) : TaskState :=
  {| spec := spec s; started_at := started_at s; heartbeat_at := heartbeat_at s; restarts := restarts s + 1; status := StRestarting;
     last_exit := Some exit; cancellation := cancellation s; completed := completed s |}.
Definition heartbeat (wall : Z) (s : TaskState) : TaskState :=
  {| spec := spec s; started_at := started_at s; heartbeat_at := Some wall; restarts := restarts s; status := status s; last_exit := last_exit s;
     cancellation := cancellation s; completed := completed s |}.
Definition cancel (s : TaskState) : TaskState :=
  {| spec := spec s; started_at := started_at s; heartbeat_at := heartbeat_at s; restarts := restarts s; status := status s;
     last_exit := last_exit s; cancellation := true; completed := completed s |}.
Definition complete (s : TaskState) : TaskState :=
  {| spec := spec s; started_at := started_at s; heartbeat_at := heartbeat_at s; restarts := restarts s; status := status s;
     last_exit := last_exit s; cancellation := cancellation s; completed := true |}.

(** ** The system *)
Record Shared := {
  draining : bool;
  shutdown_requested : bool;
  force : bool;
  fatal : bool;
  (** whether there is a hook, and if so whether it returns *)
  pre_drain_hook : option bool;
}.
Definition set_draining (s : Shared) : Shared :=
  {| draining := true; shutdown_requested := shutdown_requested s; force := force s; fatal := fatal s; pre_drain_hook := pre_drain_hook s |}.
Definition set_shutdown (s : Shared) : Shared :=
  {| draining := draining s; shutdown_requested := true; force := force s; fatal := fatal s; pre_drain_hook := pre_drain_hook s |}.
Definition set_force (s : Shared) : Shared :=
  {| draining := draining s; shutdown_requested := shutdown_requested s; force := true; fatal := fatal s; pre_drain_hook := pre_drain_hook s |}.
Definition set_fatal (s : Shared) : Shared :=
  {| draining := draining s; shutdown_requested := shutdown_requested s; force := force s; fatal := true; pre_drain_hook := pre_drain_hook s |}.
(** How the future of an attempt ends. *)
Inductive Outcome := Returns | Fails (code : string) | Panics.
(** What [run_task] does next. *)
Inductive Pc :=
| Spawned                                          (* not polled yet *)
| Starting                                         (* the head of the loop *)
| Attempting                                       (* awaiting the future of the task *)
| Ended (r : Outcome)                              (* reads the task's cancellation *)
| Classified (exit : TaskExit) (cancelled : bool)  (* reads whether shutdown is requested *)
| Backing (exit : TaskExit)                        (* counts the restart *)
| Waiting (until : Z)                              (* awaiting the backoff or shutdown *)
| Leaving                                          (* shutdown came during the backoff *)
| Ending (exit : TaskExit)                         (* reads whether shutdown is requested, again *)
| Recording (exit : TaskExit) (shutting_down : bool)
| Escalating                                       (* a required task is gone: stores [fatal] *)
| Hooking
| Draining
| Requesting
| Returning                                        (* drops the completion guard *)
| Gone.
Inductive Deadline := Pending | Cancelling | Aborting | Marking | Settled.
Record Task := { state : TaskState; pc : Pc; abort_requested : bool; deadline : Deadline }.
Inductive Coordinator := Idle | Announcing | Deadlines (since : Z) | Joined | CoordinatorAborted.
Record System := { shared : Shared; tasks : list Task; coordinator : Coordinator; now : Z }.

Definition new_task (s : TaskSpec) : Task :=
  {| state := {| spec := s; started_at := None; heartbeat_at := None; restarts := 0; status := StRegistered; last_exit := None;
                 cancellation := false; completed := false |};
     pc := Spawned; abort_requested := false; deadline := Pending |}.
Definition start_inner (v : Supervisor) (hook : option bool) (t : Z) : System :=
  {| shared := {| draining := false; shutdown_requested := false; force := false; fatal := false; pre_drain_hook := hook |};
     tasks := map new_task (specs v); coordinator := Idle; now := t |}.

(** ** One access of [run_task] *)
Definition at_pc (p : Pc) (s : TaskState) (t : Task) : Task :=
  {| state := s; pc := p; abort_requested := abort_requested t; deadline := deadline t |}.
Definition exit_of (r : Outcome) : TaskExit := match r with Returns => Success | Fails c => Failure c | Panics => Panic end.
Definition can_restart (sh : Shared) (s : TaskState) (exit : TaskExit) (cancelled : bool) : bool :=
  negb (bool_decide (criticality (spec s) = Required)) && negb (shutdown_requested sh) && negb cancelled
  && should_restart (restart_policy (spec s)) exit (restarts s).
Definition run_task `{FloatDuration} (wall : Z) (clock : option (Z * Z)) (at_ : Z) (sh : Shared) (t : Task) : option (Shared * Task) :=
  let s := state t in
  match pc t with
  | Spawned => Some (sh, at_pc Starting s t)
  | Starting => Some (sh, at_pc Attempting (start_attempt wall s) t)
  | Ended r => Some (sh, at_pc (Classified (if cancellation s then Cancelled else exit_of r) (cancellation s)) s t)
  | Classified exit cancelled => Some (sh, at_pc (if can_restart sh s exit cancelled then Backing exit else Ending exit) s t)
  | Backing exit =>
      let s' := start_backoff exit s in
      Some (sh, at_pc (match delay (restart_policy (spec s)) (name (spec s)) (restarts s') clock with
                       | Some d => Waiting (at_ + d)
                       | None => Returning
                       end) s' t)
  | Leaving => Some (sh, at_pc Returning (finish Cancelled (criticality (spec s)) true s) t)
  | Ending exit => Some (sh, at_pc (Recording exit (shutdown_requested sh)) s t)
  | Recording exit shutting_down =>
      let escalates := bool_decide (criticality (spec s) = Required) && negb (bool_decide (exit = Cancelled)) && negb shutting_down in
      Some (sh, at_pc (if escalates then Escalating else Returning) (finish exit (criticality (spec s)) shutting_down s) t)
  | Escalating => Some (set_fatal sh, at_pc Hooking s t)
  | Hooking => Some (sh, at_pc (match pre_drain_hook sh with Some false => Returning | _ => Draining end) s t)
  | Draining => Some (set_draining sh, at_pc Requesting s t)
  | Requesting => Some (set_shutdown sh, at_pc Returning s t)
  | Returning => Some (sh, at_pc Gone (complete s) t)
  | Attempting | Waiting _ | Gone => None
  end.
(** The select of the backoff, and the runtime dropping an aborted task where it awaits;
    the completion guard is made when the task is first polled. *)
Definition backoff_over (at_ : Z) (t : Task) : option Task :=
  match pc t with Waiting until => if until <=? at_ then Some (at_pc Starting (state t) t) else None | _ => None end.
Definition shutdown_seen (sh : Shared) (t : Task) : option Task :=
  match pc t with Waiting _ => if shutdown_requested sh then Some (at_pc Leaving (state t) t) else None | _ => None end.
Definition drop_aborted (t : Task) : option Task :=
  if abort_requested t then
    match pc t with
    | Spawned => Some (at_pc Gone (state t) t)
    | Attempting | Waiting _ => Some (at_pc Gone (complete (state t)) t)
    | _ => None
    end
  else None.
Definition resolve (r : Outcome) (t : Task) : option Task :=
  match pc t with Attempting => Some (at_pc (Ended r) (state t) t) | _ => None end.

(** ** One access of the coordinator *)
Definition with_deadline (d : Deadline) (s : TaskState) (abort : bool) (t : Task) : Task :=
  {| state := s; pc := pc t; abort_requested := abort; deadline := d |}.
Definition unfinished (s : TaskStatus) : bool := bool_decide (s ∈ [StRegistered; StRunning; StRestarting]).
Definition deadline_step (sh : Shared) (since at_ : Z) (saw_completed : bool) (t : Task) : option Task :=
  let s := state t in
  match deadline t with
  | Pending =>
      if saw_completed then if completed s then Some (with_deadline Settled s (abort_requested t) t) else None
      else if (since + shutdown_timeout (spec s) <=? at_) || force sh then Some (with_deadline Cancelling s (abort_requested t) t) else None
  | Cancelling => Some (with_deadline Aborting (cancel s) (abort_requested t) t)
  | Aborting => Some (with_deadline Marking s true t)
  | Marking => Some (with_deadline Settled (if unfinished (status s) then with_status StAborted (Some Aborted) s else s) (abort_requested t) t)
  | Settled => None
  end.
Definition settled (t : Task) : bool := match deadline t with Settled => true | _ => false end.
Definition coordinator_step (x : System) : option System :=
  match coordinator x with
  | Idle => if shutdown_requested (shared x) then Some {| shared := shared x; tasks := tasks x; coordinator := Announcing; now := now x |} else None
  | Announcing => Some {| shared := set_draining (shared x); tasks := tasks x; coordinator := Deadlines (now x); now := now x |}
  | Deadlines _ =>
      if forallb settled (tasks x) then Some {| shared := shared x; tasks := tasks x; coordinator := Joined; now := now x |} else None
  | Joined | CoordinatorAborted => None
  end.

(** ** Every access *)
Inductive Label :=
| Run (i : nat) (wall : Z) (clock : option (Z * Z))
| BackoffOver (i : nat) | ShutdownSeen (i : nat) | DropAborted (i : nat)
| CoordinatorStep | DeadlineStep (i : nat) (saw_completed : bool)
| Resolve (i : nat) (r : Outcome) | Heartbeat (i : nat) (wall : Z)
| BeginDrain | RequestShutdown | Force | CancelTask (i : nat) | AbortCoordinator | AbortTask (i : nat)
| Tick (d : Z).
Definition with_shared (sh : Shared) (x : System) : System :=
  {| shared := sh; tasks := tasks x; coordinator := coordinator x; now := now x |}.
Definition put_task (i : nat) (t : Task) (x : System) : System :=
  {| shared := shared x; tasks := <[i := t]> (tasks x); coordinator := coordinator x; now := now x |}.
Definition on_task (i : nat) (f : Task -> option Task) (x : System) : option System := t ← tasks x !! i; t' ← f t; Some (put_task i t' x).
(** [force_cancel] is [BeginDrain], [RequestShutdown], [Force] and a [CancelTask] for
    each task, in this order; dropping the handle goes on with the aborts. *)
Definition exec `{FloatDuration} (l : Label) (x : System) : option System :=
  match l with
  | Run i wall clock =>
      t ← tasks x !! i; r ← run_task wall clock (now x) (shared x) t; Some (put_task i r.2 (with_shared r.1 x))
  | BackoffOver i => on_task i (backoff_over (now x)) x
  | ShutdownSeen i => on_task i (shutdown_seen (shared x)) x
  | DropAborted i => on_task i drop_aborted x
  | CoordinatorStep => coordinator_step x
  | DeadlineStep i b => match coordinator x with Deadlines since => on_task i (deadline_step (shared x) since (now x) b) x | _ => None end
  | Resolve i r => on_task i (resolve r) x
  | Heartbeat i wall => on_task i (fun t => Some (at_pc (pc t) (heartbeat wall (state t)) t)) x
  | BeginDrain => Some (with_shared (set_draining (shared x)) x)
  | RequestShutdown => Some (with_shared (set_shutdown (shared x)) x)
  | Force => if draining (shared x) && shutdown_requested (shared x) then Some (with_shared (set_force (shared x)) x) else None
  | CancelTask i => if force (shared x) then on_task i (fun t => Some (at_pc (pc t) (cancel (state t)) t)) x else None
  | AbortCoordinator =>
      match coordinator x with
      | Joined => None
      | _ => if force (shared x) then Some {| shared := shared x; tasks := tasks x; coordinator := CoordinatorAborted; now := now x |} else None
      end
  | AbortTask i => if force (shared x) then on_task i (fun t => Some (with_deadline (deadline t) (state t) true t)) x else None
  | Tick d => if 0 <=? d then Some {| shared := shared x; tasks := tasks x; coordinator := coordinator x; now := now x + d |} else None
  end.
Fixpoint execs `{FloatDuration} (ls : list Label) (x : System) : option System :=
  match ls with [] => Some x | l :: ls => y ← exec l x; execs ls y end.
(** ** Diagnostics *)
Definition snapshots (x : System) : list TaskSnapshot :=
  map (fun t => snapshot (state t)) (sort_by (by_key (fun t => name (spec (state t)))) (tasks x)).
Record ShutdownReport := { rp_snapshots : list TaskSnapshot; forced : list string; rp_fatal : bool }.
(** [shutdown] requests shutdown, joins the coordinator and every task, and reports. *)
Definition shutdown_report (x : System) : option ShutdownReport :=
  match coordinator x with
  | Joined | CoordinatorAborted =>
      if forallb (fun t => match pc t with Gone => true | _ => false end) (tasks x) then
        Some {| rp_snapshots := snapshots x;
                forced := map (fun s => name (sn_spec s)) (filter (fun s => sn_status s = StAborted) (snapshots x));
                rp_fatal := fatal (shared x) |}
      else None
  | _ => None
  end.

(** ** The invariant *)
Record spec_ok (s : TaskSpec) : Prop := {
  spec_restarts : 0 <= max_restarts (restart_policy s);
  spec_backoff : 0 <= max_backoff (restart_policy s);
}.
Definition sh_le (a b : Shared) : Prop :=
  (draining a = true -> draining b = true) /\ (shutdown_requested a = true -> shutdown_requested b = true)
  /\ (force a = true -> force b = true) /\ (fatal a = true -> fatal b = true) /\ pre_drain_hook a = pre_drain_hook b.
#[global] Instance sh_le_preorder : PreOrder sh_le.
Proof. split; [by intros a; repeat split | intros a b c (H1 & H2 & H3 & H4 & H5) (K1 & K2 & K3 & K4 & K5); repeat split; auto; congruence]. Qed.
(** An exit of the task's own. *)
Definition own_exit (o : option TaskExit) : bool := match o with Some (Success | Failure _ | Panic) => true | _ => false end.
Definition recorded (s : TaskState) : Prop := own_exit (last_exit s) = true /\ unfinished (status s) = false.
Abbreviation required t := (criticality (spec (state t)) = Required).
Definition pc_ok (sh : Shared) (at_ : Z) (t : Task) : Prop :=
  let s := state t in
  match pc t with
  | Backing _ => ~ required t /\ restarts s < max_restarts (restart_policy (spec s))
  | Waiting until => ~ required t /\ until <= at_ + max_backoff (restart_policy (spec s))
  | Leaving => ~ required t
  | Classified x c => x <> Aborted /\ (x = Cancelled \/ c = true -> shutdown_requested sh = true)
  | Ending x => x <> Aborted /\ (x = Cancelled -> shutdown_requested sh = true)
  | Recording x sd => x <> Aborted /\ (x = Cancelled \/ sd = true -> shutdown_requested sh = true)
  | Escalating => required t /\ recorded s
  | Hooking | Draining => required t /\ recorded s /\ fatal sh = true
  | Requesting => required t /\ recorded s /\ fatal sh = true /\ draining sh = true
  | Returning | Gone => required t -> shutdown_requested sh = true \/ pre_drain_hook sh = Some false /\ fatal sh = true
  | Spawned | Starting | Attempting | Ended _ => True
  end.
Record task_ok (sh : Shared) (at_ : Z) (t : Task) : Prop := {
  ok_spec : spec_ok (spec (state t));
  ok_restarts : 0 <= restarts (state t) <= max_restarts (restart_policy (spec (state t)));
  ok_required : required t -> restarts (state t) = 0;
  ok_pc : pc_ok sh at_ t;
  ok_cancelled : cancellation (state t) = true \/ abort_requested t = true \/ deadline t <> Pending -> shutdown_requested sh = true;
  ok_completed : completed (state t) = true -> pc t = Gone;
  ok_settled : deadline t = Marking \/ deadline t = Settled -> abort_requested t = true \/ completed (state t) = true;
}.
Lemma task_ok_mono sh sh' at_ at_' t : sh_le sh sh' -> at_ <= at_' -> task_ok sh at_ t -> task_ok sh' at_' t.
Proof.
  intros (L1 & L2 & L3 & L4 & L5) Hat [H1 H2 H3 H4 H5 H6 H7]. split; auto. revert H4. unfold pc_ok. destruct (pc t); rewrite <- ?L5; naive_solver lia.
Qed.
Section supervision.
Context `{FloatDuration}.
Lemma delay_bounded p n r c d : delay p n r c = Some d -> d <= max_backoff p.
Proof.
  unfold delay. destruct (_ || _); [intros [= <-]; lia|]. destruct (mul_percent _ _) as [m|]; [|done]. intros [= <-]. lia.
Qed.
Lemma should_restart_counts p x n : should_restart p x n = true -> n < max_restarts p.
Proof. unfold should_restart. destruct (Z.leb_spec (max_restarts p) n); [done | lia]. Qed.
(** A task that is not gone moves on. *)
Lemma moved_ok sh at_ t p s : task_ok sh at_ t -> pc t <> Gone -> spec s = spec (state t) -> cancellation s = cancellation (state t) ->
  0 <= restarts s <= max_restarts (restart_policy (spec s)) -> (required t -> restarts s = 0) ->
  (completed s = completed (state t) \/ completed s = true /\ p = Gone) -> pc_ok sh at_ (at_pc p s t) -> task_ok sh at_ (at_pc p s t).
Proof.
  intros Ht Hg Hs Hc Hn Hr Hd Hp. assert (Hf : completed (state t) = false).
  { destruct (completed (state t)) eqn:E; [|done]. by apply (ok_completed _ _ _ Ht) in E. }
  destruct Ht as [H1 H2 H3 H4 H5 H6 H7]. split; cbn; rewrite ?Hs, ?Hc; try done; [naive_solver congruence..].
Qed.
Lemma run_task_le wall clock at_ sh t sh' t' : run_task wall clock at_ sh t = Some (sh', t') -> sh_le sh sh'.
Proof. unfold run_task. destruct (pc t); try done; intros [= <- <-]; by repeat split. Qed.
Lemma run_task_ok wall clock at_ sh t sh' t' : task_ok sh at_ t ->
  run_task wall clock at_ sh t = Some (sh', t') -> task_ok sh' at_ t'.
Proof.
  intros Ht0 Hr. pose proof (run_task_le _ _ _ _ _ _ _ Hr) as Hle.
  assert (Ht : task_ok sh' at_ t) by (by eapply task_ok_mono; [..|exact Ht0]; [|lia]). clear Ht0.
  pose proof (ok_pc _ _ _ Ht) as Hp. pose proof (ok_restarts _ _ _ Ht) as Hn. pose proof (ok_required _ _ _ Ht) as Hq.
  pose proof (ok_cancelled _ _ _ Ht) as Hc. unfold run_task in Hr. unfold pc_ok in Hp.
  destruct (pc t) eqn:Epc; try done; cbv zeta in Hr; injection Hr as <- <-; apply moved_ok; cbn; rewrite ?Epc; try done; try (by left); try (by right).
  - destruct (cancellation (state t)); [naive_solver|]. destruct r; naive_solver.
  - destruct Hp as [Hx Hs]. destruct (can_restart _ _ _ _) eqn:Er; [|by split; auto]. unfold can_restart in Er. rewrite !andb_true_iff in Er.
    destruct Er as [[[Er%negb_true_iff _] _] Es]. apply bool_decide_eq_false in Er. split; [done|]. by eapply should_restart_counts.
  - lia.
  - naive_solver.
  - unfold pc_ok. destruct (delay _ _ _ _) as [d|] eqn:Ed; cbn; [|naive_solver]. apply delay_bounded in Ed. split; [naive_solver | lia].
  - naive_solver.
  - unfold pc_ok, recorded. case_bool_decide as Ereq; cbn; [|done]. case_bool_decide; cbn; [naive_solver|]. destruct shutting_down; cbn; [naive_solver|].
    rewrite Ereq. split; [done|]. destruct exit; naive_solver.
  - naive_solver.
  - unfold pc_ok. destruct (pre_drain_hook sh) as [[]|] eqn:Eh; cbn; rewrite ?Eh; naive_solver.
  - naive_solver.
Qed.
(** A required task that has ended by itself and raises the alarm. *)
Definition alarm (sh : Shared) (t : Task) : Prop :=
  required t /\ recorded (state t) /\ match pc t with
                                    | Hooking | Draining => True
                                    | Requesting => draining sh = true
                                    | Returning | Gone => draining sh = true \/ pre_drain_hook sh = Some false
                                    | _ => False
                                    end.
Lemma alarm_mono sh sh' t : sh_le sh sh' -> alarm sh t -> alarm sh' t.
Proof. intros (L & _ & _ & _ & E) (H1 & H2 & H3). unfold alarm. split_and!; [done..|]. rewrite <- E. destruct (pc t); naive_solver. Qed.
Lemma alarm_run wall clock at_ sh t sh' t' : run_task wall clock at_ sh t = Some (sh', t') -> alarm sh t -> alarm sh' t'.
Proof.
  intros Hr (H1 & H2 & H3). unfold run_task in Hr. destruct (pc t) eqn:E; try done; injection Hr as <- <-; unfold alarm, recorded in *; cbn; try done; auto.
  destruct (pre_drain_hook sh) as [[]|]; auto.
Qed.
(** What an access other than [run_task]'s may do to one task. *)
Definition sound (sh : Shared) (at_ : Z) (joined : Prop) (f : Task -> option Task) : Prop :=
  forall t t', task_ok sh at_ t -> f t = Some t' -> task_ok sh at_ t' /\ (alarm sh t -> alarm sh t') /\ (joined -> deadline t' = deadline t).
Ltac moved := apply moved_ok; cbn; try done; try (by left); try (by right);
  try match goal with Ht : task_ok _ _ _ |- _ => by apply Ht end.
Lemma sound_backoff sh at_ j : sound sh at_ j (backoff_over at_).
Proof.
  intros t t' Ht Hf. unfold backoff_over in Hf. destruct (pc t) eqn:E; try done. destruct (_ <=? _); [|done]. injection Hf as <-.
  split_and!; [moved; by rewrite E | intros (_ & _ & Ha); by rewrite E in Ha | done].
Qed.
Lemma sound_shutdown sh at_ j : sound sh at_ j (shutdown_seen sh).
Proof.
  intros t t' Ht Hf. unfold shutdown_seen in Hf. destruct (pc t) eqn:E; try done. destruct (shutdown_requested sh); [|done]. injection Hf as <-.
  pose proof (ok_pc _ _ _ Ht) as Hp. unfold pc_ok in Hp. rewrite E in Hp.
  split_and!; [moved; [by rewrite E | by destruct Hp] | intros (_ & _ & Ha); by rewrite E in Ha | done].
Qed.
Lemma sound_resolve sh at_ j r : sound sh at_ j (resolve r).
Proof.
  intros t t' Ht Hf. unfold resolve in Hf. destruct (pc t) eqn:E; try done. injection Hf as <-.
  split_and!; [moved; by rewrite E | intros (_ & _ & Ha); by rewrite E in Ha | done].
Qed.
Lemma sound_drop sh at_ j : sound sh at_ j drop_aborted.
Proof.
  intros t t' Ht Hf. unfold drop_aborted in Hf. destruct (abort_requested t) eqn:Ea; [|done].
  assert (Hs : shutdown_requested sh = true) by (apply (ok_cancelled _ _ _ Ht); auto).
  destruct (pc t) eqn:E; try done; injection Hf as <-; (split_and!; [moved; by rewrite E | intros (_ & _ & Ha); by rewrite E in Ha | done]).
Qed.
Lemma sound_heartbeat sh at_ j wall : sound sh at_ j (fun t => Some (at_pc (pc t) (heartbeat wall (state t)) t)).
Proof. intros t t' [] [= <-]. split_and!; [by split|by intros|done]. Qed.
Lemma sound_cancel sh at_ j : shutdown_requested sh = true -> sound sh at_ j (fun t => Some (at_pc (pc t) (cancel (state t)) t)).
Proof. intros Hs t t' [] [= <-]. split_and!; [by split|by intros|done]. Qed.
Lemma sound_abort sh at_ j : shutdown_requested sh = true -> sound sh at_ j (fun t => Some (with_deadline (deadline t) (state t) true t)).
Proof. intros Hs t t' [] [= <-]. split_and!; [split; cbn; auto|by intros|done]. Qed.
Lemma deadline_ok sh at_ t d s a : task_ok sh at_ t -> shutdown_requested sh = true -> spec s = spec (state t) -> restarts s = restarts (state t) ->
  completed s = completed (state t) -> pc_ok sh at_ (with_deadline d s a t) -> (d = Marking \/ d = Settled -> a = true \/ completed (state t) = true) ->
  task_ok sh at_ (with_deadline d s a t).
Proof. intros [H1 H2 H3 H4 H5 H6 H7] Hs Es Er Ec Hp Hd. split; cbn; rewrite ?Es, ?Er, ?Ec; auto. Qed.
(** Marking a task aborted leaves what it has recorded. *)
Lemma mark_keeps_recorded s : recorded s -> (if unfinished (status s) then with_status StAborted (Some Aborted) s else s) = s.
Proof. by intros [_ ->]. Qed.
Lemma sound_deadline sh at_ since b : shutdown_requested sh = true -> sound sh at_ False (deadline_step sh since at_ b).
Proof.
  intros Hs t t' Ht Hf. pose proof (ok_settled _ _ _ Ht) as Hd. pose proof (ok_pc _ _ _ Ht) as Hp. unfold deadline_step in Hf. split_and!; [| |done].
  - destruct (deadline t) eqn:Ed; [destruct b; [destruct (completed _) eqn:Ec|destruct (_ || _)]|..]; try done; injection Hf as <-;
      (apply deadline_ok; [done | done | by try destruct (unfinished _) | by try destruct (unfinished _) | by try destruct (unfinished _) | |]); try (by intros []); auto.
    + unfold pc_ok in *. cbn. destruct (pc t); first [exact Hp | destruct (unfinished _); exact Hp | rewrite mark_keeps_recorded by tauto; exact Hp].
  - intros (A1 & A2 & A3). destruct (deadline t) eqn:Ed; [destruct b; [destruct (completed _)|destruct (_ || _)]|..]; try done; injection Hf as <-;
      unfold alarm; cbn; by rewrite ?mark_keeps_recorded.
Qed.

Record sys_ok (x : System) : Prop := {
  sys_tasks : Forall (task_ok (shared x) (now x)) (tasks x);
  sys_force : force (shared x) = true -> shutdown_requested (shared x) = true;
  sys_started : coordinator x <> Idle -> shutdown_requested (shared x) = true;
  sys_joined : coordinator x = Joined -> Forall (fun t => deadline t = Settled) (tasks x);
  sys_fatal : fatal (shared x) = true -> Exists (alarm (shared x)) (tasks x);
}.
(** The flags and the clock move on. *)
Lemma sys_ok_later x y : sys_ok x -> sh_le (shared x) (shared y) -> now x <= now y -> tasks y = tasks x ->
  (force (shared y) = true -> shutdown_requested (shared y) = true) -> (coordinator y <> Idle -> shutdown_requested (shared y) = true) ->
  (coordinator y = Joined -> Forall (fun t => deadline t = Settled) (tasks x)) -> fatal (shared y) = fatal (shared x) -> sys_ok y.
Proof.
  intros [H1 H2 H3 H4 H5] Hle Hn Ht Hf Hs Hj Hft. split; rewrite ?Ht; try done.
  - eapply Forall_impl; [exact H1|]. intros t. by apply task_ok_mono.
  - rewrite Hft. intros Hx. eapply Exists_impl; [by apply H5|]. intros t. by apply alarm_mono.
Qed.
Lemma Exists_put {A} (P Q : A -> Prop) l i t t' : l !! i = Some t -> (P t -> Q t') -> (forall u, P u -> Q u) -> Exists P l -> Exists Q (<[i := t']> l).
Proof.
  intros Hi Ht Hu (w & Hw & Ha)%Exists_exists. apply list_elem_of_lookup in Hw as [j Hj]. apply Exists_exists. destruct (decide (i = j)) as [->|Hne].
  - exists t'. split; [|naive_solver]. apply list_elem_of_lookup. exists j. apply list_lookup_insert_eq. by eapply lookup_lt_Some.
  - exists w. split; [|auto]. apply list_elem_of_lookup. exists j. by rewrite list_lookup_insert_ne.
Qed.
Lemma sys_ok_on_task i f x y : sys_ok x -> sound (shared x) (now x) (coordinator x = Joined) f -> on_task i f x = Some y -> sys_ok y.
Proof.
  intros [H1 H2 H3 H4 H5] Hf Hy. unfold on_task in Hy. destruct (tasks x !! i) as [t|] eqn:Ei; [|done]. cbn in Hy.
  destruct (f t) as [t'|] eqn:Ef; [|done]. injection Hy as <-. destruct (Hf t t') as (F1 & F2 & F3); [by eapply Forall_lookup_1 | done |].
  split; cbn; try done.
  - by apply Forall_insert.
  - intros Hj. apply Forall_insert; [by apply H4|]. rewrite F3 by done. by eapply (Forall_lookup_1 _ _ i t) in H4.
  - intros Hx. by eapply Exists_put; [done | exact F2 | | by apply H5].
Qed.
Lemma sys_ok_run i wall clock x y : sys_ok x -> exec (Run i wall clock) x = Some y -> sys_ok y.
Proof.
  intros [H1 H2 H3 H4 H5] Hy. cbn in Hy. destruct (tasks x !! i) as [t|] eqn:Ei; [|done]. cbn in Hy.
  destruct (run_task _ _ _ _ t) as [[sh' t']|] eqn:Er; [|done]. cbn in Hy. injection Hy as <-. pose proof (run_task_le _ _ _ _ _ _ _ Er) as Hle.
  assert (Ht : task_ok (shared x) (now x) t) by (by eapply Forall_lookup_1). pose proof (run_task_ok _ _ _ _ _ _ _ Ht Er) as Ht'.
  pose proof Hle as (L1 & L2 & L3 & L4 & L5).
  assert (Hl : (i < length (tasks x))%nat) by (by eapply lookup_lt_Some).
  split; cbn.
  - apply Forall_insert; [|done]. eapply Forall_impl; [exact H1|]. intros u. by apply task_ok_mono.
  - assert (force sh' = force (shared x)) as -> by (unfold run_task in Er; destruct (pc t); try done; by injection Er as <- <-). auto.
  - auto.
  - intros Hj. apply Forall_insert; [by apply H4|]. assert (deadline t' = deadline t) as -> by (unfold run_task in Er; destruct (pc t); try done; by injection Er as <- <-).
    by eapply (Forall_lookup_1 _ _ i t) in H4.
  - intros Hx. destruct (fatal (shared x)) eqn:Ef.
    + eapply Exists_put; [done | | |by apply H5]; [by eapply alarm_run | intros u; by apply alarm_mono].
    + apply Exists_exists. exists t'. split; [apply list_elem_of_lookup; exists i; by apply list_lookup_insert_eq|].
      unfold run_task in Er. pose proof (ok_pc _ _ _ Ht) as Hp. unfold pc_ok in Hp. destruct (pc t) eqn:Epc; try done; injection Er as <- <-; cbn in Hx; try congruence.
      destruct Hp. by split_and!.
Qed.
Ltac later x := eapply (sys_ok_later x); [done|..]; try done; try (by repeat split); cbn; auto; try lia; try (by apply sys_joined).
Lemma exec_ok l x y : sys_ok x -> exec l x = Some y -> sys_ok y.
Proof.
  intros Hx Hy. pose proof (sys_force x Hx) as Hf. pose proof (sys_started x Hx) as Hst. destruct l; try (by eapply sys_ok_run); cbn in Hy.
  - eapply sys_ok_on_task; [done | apply sound_backoff | done].
  - eapply sys_ok_on_task; [done | apply sound_shutdown | done].
  - eapply sys_ok_on_task; [done | apply sound_drop | done].
  - unfold coordinator_step in Hy. destruct (coordinator x) eqn:Ec; try done.
    + destruct (shutdown_requested (shared x)) eqn:Es; [|done]. injection Hy as <-. later x.
    + injection Hy as <-. later x.
    + destruct (forallb settled (tasks x)) eqn:Ej; [|done]. injection Hy as <-. later x.
      intros _. apply Forall_forall. intros t Ht. rewrite forallb_forall in Ej. specialize (Ej t (proj1 (list_elem_of_In _ _) Ht)). unfold settled in Ej. by destruct (deadline t).
  - destruct (coordinator x) eqn:Ec; try done. eapply sys_ok_on_task; [done | rewrite Ec | done]. intros t t' Ht Hd.
    destruct (sound_deadline (shared x) (now x) since saw_completed (Hst ltac:(done)) t t' Ht Hd) as (? & ? & _). by split_and!.
  - eapply sys_ok_on_task; [done | apply sound_resolve | done].
  - eapply sys_ok_on_task; [done | apply sound_heartbeat | done].
  - injection Hy as <-. later x.
  - injection Hy as <-. later x.
  - destruct (draining _ && _) eqn:E; [|done]. apply andb_true_iff in E as [_ E]. injection Hy as <-. later x.
  - destruct (force (shared x)); [|done]. eapply sys_ok_on_task; [done | apply sound_cancel; auto | done].
  - destruct (force (shared x)) eqn:Ef; [|by destruct (coordinator x)]. destruct (coordinator x); try done; injection Hy as <-;
      later x.
  - destruct (force (shared x)); [|done]. eapply sys_ok_on_task; [done | apply sound_abort; auto | done].
  - destruct (Z.leb_spec 0 d); [|done]. injection Hy as <-. later x.
Qed.
Lemma execs_ok ls x y : sys_ok x -> execs ls x = Some y -> sys_ok y.
Proof.
  revert x. induction ls as [|l ls IH]; intros x Hx Hy; [by injection Hy as <-|]. cbn in Hy. destruct (exec l x) as [z|] eqn:E; [|done].
  eapply IH; [|exact Hy]. by eapply exec_ok.
Qed.
(** Runs of a supervisor, without a hook, with one that returns or with one that panics. *)
Definition reaches (v : Supervisor) (x : System) : Prop :=
  Forall spec_ok (specs v) /\ exists hook t ls, execs ls (start_inner v hook t) = Some x.
Lemma reaches_ok v x : reaches v x -> sys_ok x.
Proof.
  intros (Hv & hook & t & ls & Hx). eapply execs_ok; [|exact Hx]. split; try done. cbn. apply Forall_map. eapply Forall_impl; [exact Hv|].
  intros s Hs. pose proof (spec_restarts _ Hs). split; cbn; try done; try lia; [by intros [?|[?|?]] | by intros [?|?]].
Qed.

(** C22. The exit of a required task stops the service, unless the pre-drain hook panics:
    in every interleaving of tasks, coordinator and controls, as long as shutdown has not
    been requested every required task is still there, and none is ever restarted.
    [fatal] is reported only when a required task ended by itself, with its exit and final
    status on record; once that task's own run is over, the service is draining and
    shutdown is requested.  Other tasks are restarted at most as often as their policy
    allows, after a backoff of at most its maximum.  A hook that panics is the one
    exception: then the required task may be gone with [fatal] reported and neither
    draining nor shutdown requested. *)
Theorem required_exit_stops v x : reaches v x ->
  (forall t, t ∈ tasks x -> required t -> restarts (state t) = 0
      /\ (pc t = Gone -> shutdown_requested (shared x) = true \/ pre_drain_hook (shared x) = Some false /\ fatal (shared x) = true))
  /\ (fatal (shared x) = true -> exists t, t ∈ tasks x /\ required t /\ own_exit (last_exit (state t)) = true /\ unfinished (status (state t)) = false
        /\ (pc t = Gone -> pre_drain_hook (shared x) <> Some false -> draining (shared x) = true /\ shutdown_requested (shared x) = true))
  /\ forall t, t ∈ tasks x -> restarts (state t) <= max_restarts (restart_policy (spec (state t)))
       /\ forall u, pc t = Waiting u -> u - now x <= max_backoff (restart_policy (spec (state t))).
Proof.
  intros Hx%reaches_ok. pose proof (sys_tasks x Hx) as Ht. rewrite Forall_forall in Ht. split_and!.
  - intros t Hin Hq. specialize (Ht t Hin). split; [by apply Ht|]. intros Hg. pose proof (ok_pc _ _ _ Ht) as Hp. unfold pc_ok in Hp. rewrite Hg in Hp. auto.
  - intros Hf. apply (sys_fatal x Hx), Exists_exists in Hf as (t & Hin & Hq & [H1 H2] & Hp). exists t. split_and!; try done. intros Hg Hh. rewrite Hg in Hp.
    split; [by destruct Hp|]. pose proof (ok_pc _ _ _ (Ht t Hin)) as Hk. unfold pc_ok in Hk. rewrite Hg in Hk. destruct (Hk Hq) as [|[? _]]; done.
  - intros t Hin. specialize (Ht t Hin). split; [by apply Ht|]. intros u Hw. pose proof (ok_pc _ _ _ Ht) as Hp. unfold pc_ok in Hp. rewrite Hw in Hp. lia.
Qed.

(** ** Shutdown ends *)
Definition rank (p : Pc) : nat :=
  match p with
  | Backing _ => 16 | Waiting _ => 15 | Spawned => 14 | Starting => 13 | Attempting => 12 | Ended _ => 11 | Classified _ _ => 10 | Ending _ => 9
  | Recording _ _ => 8 | Leaving => 7 | Escalating => 6 | Hooking => 5 | Draining => 4 | Requesting => 3 | Returning => 2 | Gone => 0
  end.
Definition deadline_rank (d : Deadline) : nat := match d with Pending => 4 | Cancelling => 3 | Aborting => 2 | Marking => 1 | Settled => 0 end.
Definition coordinator_rank (c : Coordinator) : nat := match c with Idle => 3 | Announcing => 2 | Deadlines _ => 1 | Joined | CoordinatorAborted => 0 end.
Definition task_rank (t : Task) : nat := rank (pc t) + deadline_rank (deadline t).
Definition work (x : System) : nat := coordinator_rank (coordinator x) + sum_list_with task_rank (tasks x).
(** The accesses the supervisor makes itself, without a future of a task or a control. *)
Definition own (l : Label) : bool :=
  match l with Run _ _ _ | BackoffOver _ | ShutdownSeen _ | DropAborted _ | CoordinatorStep | DeadlineStep _ _ => true | _ => false end.
Lemma sum_list_insert {A} (f : A -> nat) l i t t' : l !! i = Some t -> (sum_list_with f (<[i := t']> l) + f t = sum_list_with f l + f t')%nat.
Proof.
  intros Hi. rewrite <- (take_drop_middle l i t Hi) at 2. rewrite insert_take_drop by (by eapply lookup_lt_Some). rewrite !sum_list_with_app. cbn. lia.
Qed.
Lemma on_task_work i f x y : on_task i f x = Some y -> shared y = shared x /\ length (tasks y) = length (tasks x)
  /\ exists t t', f t = Some t' /\ (work y + task_rank t = work x + task_rank t')%nat.
Proof.
  unfold on_task. destruct (tasks x !! i) as [t|] eqn:Ei; [|done]. cbn. destruct (f t) as [t'|] eqn:Ef; [|done]. intros [= <-].
  split_and!; [done | apply length_insert | exists t, t'; split; [done|]].
  unfold work. cbn. pose proof (sum_list_insert task_rank (tasks x) i t t' Ei). lia.
Qed.
Lemma on_task_lowers i f x y n : on_task i f x = Some y -> (forall t t', f t = Some t' -> (task_rank t' + n <= task_rank t)%nat) ->
  shared y = shared x /\ length (tasks y) = length (tasks x) /\ (work y + n <= work x)%nat.
Proof. intros (H1 & H2 & t & t' & Hf & Hw)%on_task_work Hn. specialize (Hn t t' Hf). split_and!; [done..|lia]. Qed.
Lemma run_task_rank wall clock at_ sh t sh' t' : shutdown_requested sh = true -> run_task wall clock at_ sh t = Some (sh', t') ->
  (task_rank t' < task_rank t)%nat.
Proof.
  intros Hs Hr. unfold run_task in Hr. unfold task_rank. destruct (pc t) eqn:E; try done; injection Hr as <- <-; cbn; try lia.
  - unfold can_restart. rewrite Hs, andb_false_r. cbn. lia.
  - destruct (delay _ _ _ _); cbn; lia.
  - destruct (_ && _); cbn; lia.
  - destruct (pre_drain_hook sh) as [[]|]; cbn; lia.
Qed.
Lemma deadline_step_rank sh since at_ b t t' : deadline_step sh since at_ b t = Some t' -> (task_rank t' < task_rank t)%nat.
Proof.
  unfold deadline_step, task_rank. destruct (deadline t); [destruct b; [destruct (completed _)|destruct (_ || _)]|..]; try done; intros [= <-]; cbn; lia.
Qed.
Lemma exec_work l x y : shutdown_requested (shared x) = true -> exec l x = Some y ->
  shutdown_requested (shared y) = true /\ length (tasks y) = length (tasks x) /\ (work y + (if own l then 1 else 0) <= work x)%nat.
Proof.
  intros Hs Hy.
  assert (Hon : forall i f n, on_task i f x = Some y -> (forall t t', f t = Some t' -> (task_rank t' + n <= task_rank t)%nat) ->
    shutdown_requested (shared y) = true /\ length (tasks y) = length (tasks x) /\ (work y + n <= work x)%nat).
  { intros i f n Hf Hn. destruct (on_task_lowers i f x y n Hf Hn) as (-> & H2 & H3). done. }
  destruct l; cbn [own]; cbn [exec] in Hy.
  - destruct (tasks x !! i) as [t|] eqn:Ei; [|done]. cbn in Hy. destruct (run_task _ _ _ _ t) as [[sh' t']|] eqn:Er; [|done]. cbn in Hy. injection Hy as <-.
    pose proof (run_task_le _ _ _ _ _ _ _ Er) as (_ & L & _). pose proof (run_task_rank _ _ _ _ _ _ _ Hs Er). split_and!; [by apply L | apply length_insert |].
    unfold work. cbn. pose proof (sum_list_insert task_rank (tasks x) i t t' Ei). lia.
  - eapply Hon; [exact Hy|]. intros t t'. unfold backoff_over, task_rank. destruct (pc t); try done. destruct (_ <=? _); [|done]. intros [= <-]. cbn. lia.
  - eapply Hon; [exact Hy|]. intros t t'. unfold shutdown_seen, task_rank. destruct (pc t); try done. rewrite Hs. intros [= <-]. cbn. lia.
  - eapply Hon; [exact Hy|]. intros t t'. unfold drop_aborted, task_rank. destruct (abort_requested t); [|done]. destruct (pc t); try done; intros [= <-]; cbn; lia.
  - unfold coordinator_step in Hy. unfold work. destruct (coordinator x); try done; [rewrite Hs in Hy| |destruct (forallb _ _); [|done]]; injection Hy as <-; cbn; split_and!; (done || lia).
  - destruct (coordinator x); try done. eapply Hon; [exact Hy|]. intros t t' Hd%deadline_step_rank. lia.
  - eapply Hon; [exact Hy|]. intros t t'. unfold resolve, task_rank. destruct (pc t); try done. intros [= <-]. cbn. lia.
  - eapply Hon; [exact Hy|]. intros t t' [= <-]. unfold task_rank. cbn. lia.
  - injection Hy as <-. unfold work. cbn. split_and!; (done || lia).
  - injection Hy as <-. unfold work. cbn. split_and!; (done || lia).
  - destruct (_ && _); [|done]. injection Hy as <-. unfold work. cbn. split_and!; (done || lia).
  - destruct (force _); [|done]. eapply Hon; [exact Hy|]. intros t t' [= <-]. unfold task_rank. cbn. lia.
  - unfold work. destruct (coordinator x); try done; destruct (force _); try done; injection Hy as <-; cbn; split_and!; (done || lia).
  - destruct (force _); [|done]. eapply Hon; [exact Hy|]. intros t t' [= <-]. unfold task_rank. cbn. lia.
  - destruct (0 <=? d); [|done]. injection Hy as <-. unfold work. cbn. split_and!; (done || lia).
Qed.
Lemma execs_work ls x y : shutdown_requested (shared x) = true -> execs ls x = Some y ->
  shutdown_requested (shared y) = true /\ (work y + length (filter (fun l => own l = true) ls) <= work x)%nat.
Proof.
  revert x. induction ls as [|l ls IH]; intros x Hs Hy; [injection Hy as <-; cbn; split; [done | lia]|]. cbn in Hy. destruct (exec l x) as [z|] eqn:E; [|done].
  destruct (exec_work l x z Hs E) as (Hz & _ & Hw). destruct (IH z Hz Hy) as [H1 H2]. split; [done|]. rewrite filter_cons.
  destruct (own l) eqn:Eo; [rewrite decide_True by done | rewrite decide_False by congruence]; cbn; lia.
Qed.
Lemma work_bounded x : (work x <= 20 * length (tasks x) + 3)%nat.
Proof.
  unfold work. assert (Hl : forall l, (sum_list_with task_rank l <= 20 * length l)%nat).
  { induction l as [|t l IH]; [done|]. cbn. assert (task_rank t <= 20)%nat by (unfold task_rank; destruct (pc t), (deadline t); cbn; lia). lia. }
  specialize (Hl (tasks x)). destruct (coordinator x); cbn; lia.
Qed.
(** Nothing the supervisor does itself is left to do. *)
Definition at_rest (x : System) : Prop := forall l, own l = true -> exec l x = None.
Lemma at_rest_task x i t : at_rest x -> tasks x !! i = Some t ->
  (forall wall clock, run_task wall clock (now x) (shared x) t = None) /\ drop_aborted t = None
  /\ forall since b, coordinator x = Deadlines since -> deadline_step (shared x) since (now x) b t = None.
Proof.
  intros Hr Ht. split_and!.
  - intros wall clock. specialize (Hr (Run i wall clock) eq_refl). cbn in Hr. rewrite Ht in Hr. cbn in Hr. by destruct (run_task _ _ _ _ t).
  - specialize (Hr (DropAborted i) eq_refl). cbn in Hr. unfold on_task in Hr. rewrite Ht in Hr. cbn in Hr. by destruct (drop_aborted t).
  - intros since b Hc. specialize (Hr (DeadlineStep i b) eq_refl). cbn in Hr. rewrite Hc in Hr. unfold on_task in Hr. rewrite Ht in Hr. cbn in Hr.
    by destruct (deadline_step _ _ _ _ t).
Qed.
Definition deadlines_over (x : System) : Prop :=
  forall since t, coordinator x = Deadlines since -> t ∈ tasks x -> since + shutdown_timeout (spec (state t)) <= now x \/ force (shared x) = true.
Lemma at_rest_joined x : at_rest x -> shutdown_requested (shared x) = true -> deadlines_over x -> coordinator x <> CoordinatorAborted -> coordinator x = Joined.
Proof.
  intros Hr Hs Hd Ha. pose proof (Hr CoordinatorStep eq_refl) as Hc. cbn in Hc. unfold coordinator_step in Hc. destruct (coordinator x) as [| |since| |] eqn:Ec; try done; [by rewrite Hs in Hc|].
  destruct (forallb settled (tasks x)) eqn:Ej; [done|]. exfalso. apply not_true_iff_false in Ej. apply Ej, forallb_forall. intros t Ht%list_elem_of_In.
  pose proof Ht as [i Hi]%list_elem_of_lookup. destruct (at_rest_task x i t Hr Hi) as (_ & _ & Hdl). specialize (Hdl since false Ec). unfold settled. unfold deadline_step in Hdl.
  destruct (deadline t); try done. destruct (Hd since t Ec Ht) as [Hx|Hx]; [|by rewrite Hx, orb_true_r in Hdl]. by rewrite (proj2 (Z.leb_le _ _)) in Hdl.
Qed.
Lemma at_rest_gone x t : sys_ok x -> at_rest x -> coordinator x = Joined -> t ∈ tasks x -> pc t = Gone.
Proof.
  intros Hx Hr Hj Ht. pose proof (proj1 (Forall_forall _ _) (sys_joined x Hx Hj) t Ht) as Hd. cbn in Hd.
  pose proof (proj1 (Forall_forall _ _) (sys_tasks x Hx) t Ht) as Hk. pose proof Ht as [i Hi]%list_elem_of_lookup.
  destruct (at_rest_task x i t Hr Hi) as (H1 & H2 & _). destruct (ok_settled _ _ _ Hk) as [Ha|Hc]; [by right| |by apply Hk].
  specialize (H1 0 None). unfold run_task in H1. unfold drop_aborted in H2. rewrite Ha in H2. by destruct (pc t).
Qed.

(** C21. Shutdown is bounded: once shutdown is requested, the supervisor makes at most 20
    accesses per task and 3 more, whatever the futures of the tasks do and however
    threads interleave, restarts that were under way included.  When it has nothing left
    to do and the deadlines of the tasks are over or the shutdown was forced, the
    coordinator has been joined and every task is gone, also those whose future never
    returned: [shutdown] returns its report. *)
Theorem shutdown_bounded v x : reaches v x -> shutdown_requested (shared x) = true -> forall ls y, execs ls x = Some y ->
  (length (filter (fun l => own l = true) ls) <= 20 * length (tasks x) + 3)%nat
  /\ (at_rest y -> deadlines_over y -> coordinator y <> CoordinatorAborted ->
      (forall t, t ∈ tasks y -> pc t = Gone) /\ exists r, shutdown_report y = Some r).
Proof.
  intros Hx%reaches_ok Hs ls y Hy. destruct (execs_work ls x y Hs Hy) as [Hs' Hw]. pose proof (work_bounded x). split; [lia|]. intros Hr Hd Ha.
  pose proof (execs_ok ls x y Hx Hy) as Hok. pose proof (at_rest_joined y Hr Hs' Hd Ha) as Hj.
  assert (Hg : forall t, t ∈ tasks y -> pc t = Gone) by (intros t; by apply at_rest_gone). split; [done|].
  unfold shutdown_report. rewrite Hj. replace (forallb _ (tasks y)) with true; [by eexists|]. symmetry. apply forallb_forall. intros t Ht%list_elem_of_In. by rewrite Hg.
Qed.

(** ** What the report says *)
(** The backoff of a policy never overflows. *)
Definition steady (p : RestartPolicy) : Prop := forall n r c, delay p n r c <> None.
Definition status_ok (t : Task) : Prop :=
  steady (restart_policy (spec (state t))) /\
  (abort_requested t = false -> deadline t <> Marking /\
   match pc t with
   | Escalating | Hooking | Draining | Requesting | Returning | Gone => unfinished (status (state t)) = false /\ exists e, last_exit (state t) = Some e /\ e <> Aborted
   | Classified e _ | Ending e | Recording e _ => e <> Aborted
   | _ => True
   end).
Lemma run_task_status wall clock at_ sh t sh' t' : status_ok t -> run_task wall clock at_ sh t = Some (sh', t') -> status_ok t'.
Proof.
  intros [Hst Hp] Hr. unfold run_task in Hr. destruct (pc t) eqn:E; try done; injection Hr as <- <-; (split; [done|]); cbn; intros Ha;
    destruct (Hp Ha) as [Hd Hq]; (split; [done|]); try done.
  - destruct (cancellation _); [done|]. by destruct r.
  - by destruct (can_restart _ _ _ _).
  - destruct (delay _ _ _ _) eqn:Ed; [done|]. by apply Hst in Ed.
  - split; [done | by eexists].
  - assert (unfinished (finished_status exit (criticality (spec (state t))) shutting_down) = false)
      by (destruct exit; cbn; try done; [destruct (_ && _)|case_bool_decide|case_bool_decide]; done).
    destruct (_ && _); cbn; (split; [done | by eexists]).
  - by destruct (pre_drain_hook sh) as [[]|].
Qed.
Lemma deadline_status sh since at_ b t t' : status_ok t -> deadline_step sh since at_ b t = Some t' -> status_ok t'.
Proof.
  intros [Hst Hp] Hf. unfold deadline_step in Hf. destruct (deadline t) eqn:Ed; [destruct b; [destruct (completed _)|destruct (_ || _)]|..]; try done; injection Hf as <-;
    (split; [by try destruct (unfinished _)|]); cbn; try done; intros Ha; destruct (Hp Ha) as [Hd Hq]; done.
Qed.
Lemma on_task_status i f x y : (forall t t', status_ok t -> f t = Some t' -> status_ok t') -> Forall status_ok (tasks x) -> on_task i f x = Some y ->
  Forall status_ok (tasks y).
Proof.
  intros Hf Hx Hy. unfold on_task in Hy. destruct (tasks x !! i) as [t|] eqn:Ei; [|done]. cbn in Hy. destruct (f t) as [t'|] eqn:Ef; [|done]. injection Hy as <-.
  apply Forall_insert; [done|]. eapply Hf; [|exact Ef]. by eapply Forall_lookup_1.
Qed.
Lemma exec_status l x y : Forall status_ok (tasks x) -> exec l x = Some y -> Forall status_ok (tasks y).
Proof.
  intros Hx Hy. destruct l; cbn in Hy; try (revert Hy; apply on_task_status; [|done]; intros t t' [Hst Hp] Hf).
  - destruct (tasks x !! i) as [t|] eqn:Ei; [|done]. cbn in Hy. destruct (run_task _ _ _ _ t) as [[sh' t']|] eqn:Er; [|done]. cbn in Hy. injection Hy as <-.
    apply Forall_insert; [done|]. eapply run_task_status; [|exact Er]. by eapply Forall_lookup_1.
  - unfold backoff_over in Hf. destruct (pc t); try done. destruct (_ <=? _); [|done]. injection Hf as <-. split; [done|]. cbn. naive_solver.
  - unfold shutdown_seen in Hf. destruct (pc t); try done. destruct (shutdown_requested _); [|done]. injection Hf as <-. split; [done|]. cbn. naive_solver.
  - unfold drop_aborted in Hf. destruct (abort_requested t) eqn:Ea; [|done]. destruct (pc t); try done; injection Hf as <-; (split; [done|]); cbn; by rewrite Ea.
  - unfold coordinator_step in Hy. destruct (coordinator x); try done; [destruct (shutdown_requested _)| |destruct (forallb _ _)]; try done; by injection Hy as <-.
  - destruct (coordinator x); try done. revert Hy. apply on_task_status; [|done]. intros t t'. apply deadline_status.
  - unfold resolve in Hf. destruct (pc t); try done. injection Hf as <-. split; [done|]. cbn. naive_solver.
  - by injection Hf as <-.
  - by injection Hy as <-.
  - by injection Hy as <-.
  - destruct (_ && _); [|done]. by injection Hy as <-.
  - destruct (force _); [|done]. revert Hy. apply on_task_status; [|done]. intros t t' [Hst Hp] Hf. by injection Hf as <-.
  - destruct (coordinator x); try done; (destruct (force _); [|done]); by injection Hy as <-.
  - destruct (force _); [|done]. revert Hy. apply on_task_status; [|done]. intros t t' [Hst Hp] Hf. injection Hf as <-. by split.
  - destruct (0 <=? d); [|done]. by injection Hy as <-.
Qed.
Lemma execs_status ls x y : Forall status_ok (tasks x) -> execs ls x = Some y -> Forall status_ok (tasks y).
Proof.
  revert x. induction ls as [|l ls IH]; intros x Hx Hy; [by injection Hy as <-|]. cbn in Hy. destruct (exec l x) as [z|] eqn:E; [|done].
  eapply IH; [|exact Hy]. by eapply exec_status.
Qed.

(** The task is polled again, or for the first time, just when its deadline is over: it
    marks itself running after the coordinator has marked it aborted, and is dropped. *)
Definition race (timeout : Z) : list Label :=
  [Run 0 0 None; RequestShutdown; CoordinatorStep; CoordinatorStep; Tick timeout; DeadlineStep 0 false; DeadlineStep 0 false; DeadlineStep 0 false;
   DeadlineStep 0 false; CoordinatorStep; Run 0 0 None; DropAborted 0].
Lemma race_runs s : 0 <= shutdown_timeout s -> exists x, execs (race (shutdown_timeout s)) (start_inner {| specs := [s]; names := {[name s]} |} None 0) = Some x
  /\ coordinator x = Joined /\ exists t, tasks x = [t] /\ pc t = Gone /\ abort_requested t = true /\ spec (state t) = s
  /\ status (state t) = StRunning /\ last_exit (state t) = None /\ fatal (shared x) = false.
Proof.
  intros Ht. unfold race. cbn. rewrite (proj2 (Z.leb_le _ _) Ht). cbn. rewrite Z.leb_refl. cbn. eexists. split; [reflexivity|]. split; [done|]. by eexists.
Qed.

(** C40. The report covers every task that was not aborted: under policies whose backoff
    is always a duration, each has a final status and its last exit when [shutdown]
    reports, and is not reported as aborted.  Of an aborted task this does not hold:
    however long its deadline is, it can be reported as running, without an exit, and be
    missing from the forced ones, because it may record the start of an attempt after the
    coordinator has recorded the abort. *)
Theorem report_covers_unaborted :
  (forall v hook t0 ls x r t, Forall (fun s => steady (restart_policy s)) (specs v) -> execs ls (start_inner v hook t0) = Some x -> shutdown_report x = Some r ->
     t ∈ tasks x -> abort_requested t = false ->
     snapshot (state t) ∈ rp_snapshots r /\ unfinished (status (state t)) = false /\ exists e, last_exit (state t) = Some e /\ e <> Aborted)
  /\ forall s, 0 <= shutdown_timeout s -> exists ls x r sn, execs ls (start_inner {| specs := [s]; names := {[name s]} |} None 0) = Some x
       /\ shutdown_report x = Some r /\ rp_snapshots r = [sn] /\ sn_spec sn = s /\ sn_status sn = StRunning /\ sn_last_exit sn = None /\ forced r = [].
Proof.
  split.
  - intros v hook t0 ls x r t Hv Hx Hr Ht Ha. assert (Hs : Forall status_ok (tasks x)).
    { eapply execs_status; [|exact Hx]. cbn. apply Forall_map. eapply Forall_impl; [exact Hv|]. intros s Hs. by split. }
    destruct (proj1 (Forall_forall _ _) Hs t Ht) as [_ Hst]. destruct (Hst Ha) as [_ Hp].
    assert (Hg : pc t = Gone /\ rp_snapshots r = snapshots x).
    { unfold shutdown_report in Hr. destruct (forallb _ _) eqn:Ef; [|by destruct (coordinator x)]. rewrite forallb_forall in Ef.
      specialize (Ef t (proj1 (list_elem_of_In _ _) Ht)). split; [by destruct (pc t)|]. destruct (coordinator x); try done; by injection Hr as <-. }
    destruct Hg as [Hg Hsn]. rewrite Hg in Hp. split_and!; [|apply Hp..]. rewrite Hsn. unfold snapshots. apply list_elem_of_fmap. exists t. split; [done|].
    rewrite sort_by_perm. done.
  - intros s (x & Hx & Hj & t & Ht & Hg & Ha & Hsp & Hst & Hle & Hf)%race_runs. exists (race (shutdown_timeout s)), x. eexists _, (snapshot (state t)).
    split; [done|]. unfold shutdown_report, snapshots. rewrite Hj, Ht. cbn. rewrite Hg. cbn. split; [reflexivity|]. cbn. by rewrite Hst.
Qed.
End supervision.

(** ** Registration *)
(** The names of the registrations are distinct, and the set knows them. *)
Definition registered (v : Supervisor) : Prop := NoDup (map name (specs v)) /\ forall n, n ∈ names v <-> n ∈ map name (specs v).
Lemma register_registered s v r v' : registered v -> register s v = (r, v') -> registered v' /\ (r = Ok tt -> s ∈ specs v') /\ (r <> Ok tt -> v' = v).
Proof.
  intros [Hd Hn] Hr. unfold register in Hr. destruct (_ || _); [by injection Hr as <- <-|]. case_bool_decide as Hin; [by injection Hr as <- <-|].
  injection Hr as <- <-. split_and!; [|set_solver|done]. split; cbn; rewrite map_app; cbn.
  - apply NoDup_app. split_and!; [done | intros n Hx ->%list_elem_of_singleton; by apply Hin, Hn | apply NoDup_singleton].
  - intros n. rewrite elem_of_union, elem_of_app, elem_of_singleton, list_elem_of_singleton, Hn. tauto.
Qed.
Lemma bounded_spec_ok n m c h st mode restarts initial max jitter : 0 <= restarts -> 0 <= initial ->
  spec_ok {| name := n; module_ := m; criticality := c; restart_policy := bounded mode restarts initial max jitter; heartbeat_policy := h; shutdown_timeout := st |}.
Proof. intros. split; cbn; lia. Qed.

(** ** A service of two tasks *)
Module SupervisorExamples.
#[local] Instance exact_percent : FloatDuration := {| mul_percent d p := Some (d * p / 100) |}.
Definition api : TaskSpec :=
  {| name := "api"; module_ := "http"; criticality := Required; restart_policy := NEVER; heartbeat_policy := NoHeartbeat; shutdown_timeout := 10 |}.
Definition sweep : TaskSpec :=
  {| name := "sweep"; module_ := "inbox"; criticality := BestEffort; restart_policy := on_failure 3 100 1000 20; heartbeat_policy := Expected 50;
     shutdown_timeout := 20 |}.
Definition service : Supervisor := {| specs := [sweep; api]; names := {["api"; "sweep"]} |}.
Definition run (i : nat) : Label := Run i 0 None.
(** The required task panics and the other one fails and waits for its backoff. *)
Definition failing : list Label :=
  [run 0; run 0; run 1; run 1; Resolve 0 (Fails "unavailable"); run 0; run 0; run 0; Resolve 1 Panics] ++ replicate 9 (run 1).
Definition stopping : list Label :=
  [CoordinatorStep; CoordinatorStep; DeadlineStep 1 true; ShutdownSeen 0; run 0; run 0; DeadlineStep 0 true; CoordinatorStep].
Definition after (ls : list Label) (x : System) : System := default x (execs ls x).
Definition alarmed : System := after failing (start_inner service (Some true) 0).
Definition stopped : System := after stopping alarmed.
Lemma service_ok : Forall spec_ok (specs service).
Proof. repeat constructor; vm_compute; discriminate. Qed.
Lemma failing_runs : execs failing (start_inner service (Some true) 0) = Some alarmed.
Proof. vm_compute. reflexivity. Qed.
Lemma alarmed_reached : reaches service alarmed.
Proof. split; [exact service_ok|]. exists (Some true), 0, failing. exact failing_runs. Qed.
(** The same run with a hook that panics: the required task is gone and the service runs on. *)
Lemma hook_panic_strands : exists x t, execs (take 16 failing) (start_inner service (Some false) 0) = Some x
  /\ t ∈ tasks x /\ required t /\ pc t = Gone
  /\ fatal (shared x) = true /\ draining (shared x) = false /\ shutdown_requested (shared x) = false.
Proof.
  eexists _, _. split; [vm_compute; reflexivity|]. split; [right; left|]. by vm_compute.
Qed.
Lemma stopping_runs : execs stopping alarmed = Some stopped.
Proof. vm_compute. reflexivity. Qed.
Lemma stopped_at_rest : at_rest stopped.
Proof. intros l Hl. destruct l; try done; (destruct i as [|[|]]; vm_compute; reflexivity) || (vm_compute; reflexivity). Qed.
Lemma stopped_joined : coordinator stopped = Joined.
Proof. vm_compute. reflexivity. Qed.
Lemma required_exit_stops_witness : fatal (shared alarmed) = true /\ exists t, t ∈ tasks alarmed /\ required t /\ own_exit (last_exit (state t)) = true.
Proof.
  split; [vm_compute; reflexivity|]. destruct (proj1 (proj2 (required_exit_stops service alarmed alarmed_reached))) as (t & H1 & H2 & H3 & _);
    [vm_compute; reflexivity|]. by exists t.
Defined.
Lemma shutdown_bounded_witness : (length (filter (fun l => own l = true) stopping) <= 43)%nat /\ exists r, shutdown_report stopped = Some r.
Proof.
  destruct (shutdown_bounded service alarmed alarmed_reached eq_refl stopping stopped stopping_runs) as [Hn Hr]. split; [exact Hn|].
  apply Hr; [exact stopped_at_rest | intros since t Hc | intros Hc]; rewrite stopped_joined in Hc; discriminate.
Defined.
Lemma sweep_steady : steady (restart_policy sweep).
Proof. intros n r c. unfold delay. by destruct (_ || _). Qed.
Lemma report_covers_unaborted_witness : unfinished (status (state (nth 0 (tasks stopped) (new_task sweep)))) = false
  /\ exists ls x r, execs ls (start_inner {| specs := [api]; names := {["api"]} |} None 0) = Some x /\ shutdown_report x = Some r /\ forced r = [].
Proof.
  split.
  - assert (Hall : execs (failing ++ stopping) (start_inner service (Some true) 0) = Some stopped) by (vm_compute; reflexivity).
    destruct (shutdown_report stopped) as [r|] eqn:Er; [|vm_compute in Er; discriminate].
    apply (proj1 report_covers_unaborted service (Some true) 0 (failing ++ stopping) stopped r); [|exact Hall | exact Er | vm_compute; left | vm_compute; reflexivity].
    repeat constructor; [exact sweep_steady | intros n r' c; discriminate].
  - destruct (proj2 report_covers_unaborted api) as (ls & x & r & sn & H1 & H2 & _ & _ & _ & _ & H3); [vm_compute; discriminate|]. by exists ls, x, r.
Defined.
End SupervisorExamples.
