(* ===== verification/Inbox.v ===== *)
(** * The transactional inbox: [crates/inbox/src/lib.rs]

    The table [inbox_receipts] is a finite map from the producer and the identifier of an
    event to its receipt; [receipt_ok] are the checks of its migration.  The inbox works
    inside its caller's transaction: clock readings and failures of each statement, and
    what other transactions do before a receipt is locked, are arguments.  Times are
    microseconds, as the database keeps them (a caller's instant is compared with stored
    ones only, which its rounding does not disturb), and a [Duration] is in nanoseconds.
    SHA-256 and the scan of a raw JSON value are parameters; metrics are left out.  The
    order of producers in a cleanup is the order of their bytes. *)
From S2P Require Import Prelude Machine Text Ordered Supervisor JsonShape JobPolicy JobWire EventWire Transactions.
From Stdlib Require Import Ascii.

Definition MAX_PRODUCER_BYTES : Z := 128.
Definition MAX_CANONICAL_PAYLOAD_BYTES : Z := 2 * 1024 * 1024.
Definition MAX_RETENTION : Z := Duration.from_secs 31536000.
Definition MIN_RETENTION : Z := Duration.from_secs 1.
Definition MAX_CLEANUP_BATCH_SIZE : Z := 1000.
Definition MAX_CLEANUP_INTERVAL : Z := Duration.from_secs 86400.
Definition MAX_CLEANUP_SHUTDOWN : Z := Duration.from_secs 300.

(** ** Validated values *)
Inductive InboxCleanupConfigError := InvalidInterval | InvalidShutdownTimeout.
Record InboxCleanupConfig := { batch_size : Z; interval : Z; cleanup_shutdown : Z; cleanup_restart : RestartPolicy }.
Definition InboxCleanupConfig_new (batch every shutdown : Z) (restart : RestartPolicy) : result InboxCleanupConfigError InboxCleanupConfig :=
  _ ← guard_err (Duration.is_zero every || (MAX_CLEANUP_INTERVAL <? every)) InvalidInterval;
  _ ← guard_err (Duration.is_zero shutdown || (MAX_CLEANUP_SHUTDOWN <? shutdown)) InvalidShutdownTimeout;
  Ok {| batch_size := batch; interval := every; cleanup_shutdown := shutdown; cleanup_restart := restart |}.
Inductive ProducerError := ProducerEmpty | ProducerTooLong | ProducerInvalid.
Definition producer_byte (c : ascii) : bool := is_ascii_alphanumeric c || is_byte "_" c || is_byte "." c || is_byte "-" c.
Definition Producer_validate (value : string) : result ProducerError unit :=
  _ ← guard_err (is_empty value) ProducerEmpty;
  _ ← guard_err (MAX_PRODUCER_BYTES <? len value) ProducerTooLong;
  guard_err (negb (first_byte is_ascii_alphanumeric value) || negb (all_bytes producer_byte value)) ProducerInvalid.
Definition Producer_try_from (value : string) : result ProducerError string := _ ← Producer_validate value; Ok value.
Inductive RetentionError := RetentionOutOfRange | RetentionPrecision.
Record Retention := { duration : Z; milliseconds : Z }.
#[global] Instance Retention_eq_dec : EqDecision Retention.
Proof. solve_decision. Defined.
Definition Retention_new (d : Z) : result RetentionError Retention :=
  _ ← guard_err (negb ((MIN_RETENTION <=? d) && (d <=? MAX_RETENTION))) RetentionOutOfRange;
  _ ← guard_err (negb (d mod 1000000000 mod 1000000 =? 0)) RetentionPrecision;
  _ ← guard_err (i64_max <? d / 1000000) RetentionOutOfRange;
  Ok {| duration := d; milliseconds := d / 1000000 |}.
Inductive CleanupBatchSizeError := CleanupBatchSizeInvalid.
Definition CleanupBatchSize_new (value : Z) : result CleanupBatchSizeError Z :=
  _ ← guard_err ((value =? 0) || (MAX_CLEANUP_BATCH_SIZE <? value)) CleanupBatchSizeInvalid; Ok value.

(** ** Events *)
Inductive InboxEventError := EvVersion | EvProducer | EvTenantId | EvCorrelationId | EvCausationId | EvPayload | EvPayloadTooLarge.
(** [Sha256::digest], and the text of [serde_json::from_slice::<&RawValue>]. *)
Class PayloadDigest := { sha256 : string -> string; raw_value : string -> option string }.
Fixpoint find_byte (p : ascii -> bool) (s : string) : option ascii :=
  match s with EmptyString => None | String c s' => if p c then Some c else find_byte p s' end.
Definition from_canonical_payload `{PayloadDigest} (payload : string) : result InboxEventError string :=
  _ ← guard_err (is_empty payload) EvPayload;
  _ ← guard_err (MAX_CANONICAL_PAYLOAD_BYTES <? len payload) EvPayloadTooLarge;
  raw ← ok_or (raw_value payload) EvPayload;
  _ ← guard_err (match find_byte (fun c => negb (is_ascii_whitespace c)) raw with Some c => negb (is_byte "{" c) | None => true end) EvPayload;
  Ok (sha256 payload).
Record InboxEvent := {
  producer : string;
  ie_event_id : Z;
  ie_event_type : string;
  ie_event_version : Z;
  ie_tenant_id : option Z;
  ie_correlation_id : Z;
  ie_causation_id : option Z;
  payload_sha256 : string;
  retention : Retention;
}.
(** [str::parse::<u16>] *)
Definition parse_u16_text (s : string) : option Z :=
  let digits := match s with String c s' => if is_byte "+" c then s' else s | EmptyString => s end in
  if is_empty digits || negb (all_bytes is_ascii_digit digits) then None else text.parse_u16 digits.
Section inbox.
Context `{PayloadDigest} `{SerdeJson} `{UuidText}.
Definition version7 (o : option Z) : bool := match o with Some u => get_version_num u =? 7 | None => true end.
Definition tenant_uuid (t : option string) : result InboxEventError (option Z) :=
  match t with
  | None => Ok None
  | Some s => u ← ok_or (parse_str s) EvTenantId; Ok (Some u)
  end.
Definition InboxEvent_new (prod : string) (id : Z) (type : string) (version : Z) (tenant : option string) (correlation : Z)
    (causation : option Z) (payload : string) (r : Retention) : result InboxEventError InboxEvent :=
  _ ← guard_err ((i16_max <? version)
                 || negb (bool_decide ((x ← text.rsplit_once ".v" type; parse_u16_text x.2) = Some version))) EvVersion;
  _ ← guard_err (negb (get_version_num correlation =? 7)) EvCorrelationId;
  _ ← guard_err (negb (version7 causation)) EvCausationId;
  t ← tenant_uuid tenant;
  _ ← guard_err (negb (version7 t)) EvTenantId;
  h ← from_canonical_payload payload;
  Ok {| producer := prod; ie_event_id := id; ie_event_type := type; ie_event_version := version; ie_tenant_id := t;
        ie_correlation_id := correlation; ie_causation_id := causation; payload_sha256 := h; retention := r |}.
Definition from_envelope `{DomainEvent E} (e : EventEnvelope E) (l : EventLimits) (r : Retention) : result InboxEventError InboxEvent :=
  payload ← map_err (fun _ => EvPayload) (event_encode e l);
  prod ← map_err (fun _ => EvProducer) (Producer_try_from (event_source (ev e)));
  InboxEvent_new prod (event_id (ev e)) (event_type (ev e)) (event_version (ev e)) (event_tenant (ev e)) (event_correlation (ev e))
    (event_causation (ev e)) payload r.
End inbox.

(** ** The table *)
Abbreviation ReceiptKey := (string * Z)%type.
Record Receipt := {
  row_type : string;
  row_version : Z;
  row_tenant : option Z;
  row_correlation : Z;
  row_causation : option Z;
  row_sha256 : string;
  received_at : Z;
  processed_at : option Z;
  expires_at : Z;
}.
Abbreviation Receipts := (gmap ReceiptKey Receipt).
Definition event_key (e : InboxEvent) : ReceiptKey := (producer e, ie_event_id e).
Definition receipt_ok (k : ReceiptKey) (r : Receipt) : bool :=
  (get_version_num k.2 =? 7) && (0 <? row_version r) && (row_version r <=? i16_max)
  && (len k.1 <=? 128) && first_byte is_ascii_alphanumeric k.1 && all_bytes producer_byte k.1
  && (len (row_type r) <=? 128) && first_byte (fun c => is_ascii_lowercase c || is_ascii_digit c) (row_type r)
  && all_bytes text.name_byte (row_type r)
  && (len (row_sha256 r) =? 32) && (received_at r <? expires_at r)
  && match processed_at r with Some t => received_at r <=? t | None => true end.

Inductive InboxStoreError := CorruptInput | ClaimLost | InvalidProcessedAt | Transient | Unavailable | ConstraintViolation | CorruptData.
#[global] Instance InboxStoreError_eq_dec : EqDecision InboxStoreError.
Proof. solve_decision. Defined.
Definition map_sqlx_error (e : SqlxError) : InboxStoreError :=
  match e with
  | Some code =>
      if bool_decide (code ∈ ["40001"; "40P01"; "55P03"]) then Transient
      else if bool_decide (code ∈ ["22003"; "22007"; "22008"; "23502"; "23505"; "23514"]) then ConstraintViolation
      else Unavailable
  | None => Unavailable
  end.
(** What a statement that would store a row the table refuses answers: text over its
    column's width is another error than a failed check. *)
Definition violation (k : ReceiptKey) (r : Receipt) : InboxStoreError :=
  map_sqlx_error (Some (if (len k.1 <=? 128) && (len (row_type r) <=? 128) then "23514" else "22001")).
Definition database_version (e : InboxEvent) : result InboxStoreError Z :=
  if ie_event_version e <=? i16_max then Ok (ie_event_version e) else Err CorruptInput.
Definition is_well_formed (r : Receipt) : bool :=
  (0 <? row_version r) && (len (row_sha256 r) =? 32) && (get_version_num (row_correlation r) =? 7)
  && version7 (row_causation r) && version7 (row_tenant r).
(** [u16::try_from(self.event_version).ok() == Some(..)] *)
Definition immutable_matches (e : InboxEvent) (r : Receipt) : bool :=
  bool_decide (row_type r = ie_event_type e) && (0 <=? row_version r) && (row_version r =? ie_event_version e)
  && bool_decide (row_tenant r = ie_tenant_id e) && (row_correlation r =? ie_correlation_id e)
  && bool_decide (row_causation r = ie_causation_id e) && bool_decide (row_sha256 r = payload_sha256 e).

(** ** Operations *)
Record ClaimedInboxEvent := { claimed_event : InboxEvent; claimed_received_at : Z }.
Inductive ClaimOutcome := Claimed (c : ClaimedInboxEvent) | Duplicate | InProgress | Conflict.
(** The statements of one operation: the first fails or not; other transactions run while
    the receipt's lock is awaited; and the lock fails or not. *)
Record Turn := { first_fails : option SqlxError; meanwhile : Receipts -> Receipts; lock_fails : option SqlxError }.
Definition lock_receipt (e : InboxEvent) (t : Turn) : ST Receipts InboxStoreError (option Receipt) := fun s =>
  let s := meanwhile t s in
  match lock_fails t with
  | Some err => (Err (map_sqlx_error err), s)
  | None => (Ok (s !! event_key e), s)
  end.
(** The row of a claim, and the two readings of the clock it takes; the checks of the
    table come before the conflict with a row that is there. *)
Definition new_receipt (e : InboxEvent) (version received base : Z) : Receipt :=
  {| row_type := ie_event_type e; row_version := version; row_tenant := ie_tenant_id e; row_correlation := ie_correlation_id e;
     row_causation := ie_causation_id e; row_sha256 := payload_sha256 e; received_at := received; processed_at := None;
     expires_at := base + milliseconds (retention e) * 1000 |}.
Definition claim_inner (e : InboxEvent) (received base : Z) (t : Turn) : ST Receipts InboxStoreError ClaimOutcome := fun s =>
  match database_version e with
  | Err err => (Err err, s)
  | Ok version =>
      match first_fails t with
      | Some err => (Err (map_sqlx_error err), s)
      | None =>
          let r := new_receipt e version received base in
          if negb (receipt_ok (event_key e) r) then (Err (violation (event_key e) r), s) else
          match s !! event_key e with
          | None => (Ok (Claimed {| claimed_event := e; claimed_received_at := received |}), <[event_key e := r]> s)
          | Some _ =>
              match lock_receipt e t s with
              | (Err err, s) => (Err err, s)
              | (Ok None, s) => (Err ClaimLost, s)
              | (Ok (Some existing), s) =>
                  (if negb (is_well_formed existing) then Err CorruptData
                   else if negb (immutable_matches e existing) then Ok Conflict
                   else match processed_at existing with Some _ => Ok Duplicate | None => Ok InProgress end, s)
              end
          end
      end
  end.
(** The guard of completion and release: every immutable column, the time of receipt, and
    no completion. *)
Definition held (c : ClaimedInboxEvent) (version : Z) (r : Receipt) : bool :=
  let e := claimed_event c in
  (received_at r =? claimed_received_at c) && bool_decide (row_type r = ie_event_type e) && (row_version r =? version)
  && bool_decide (row_tenant r = ie_tenant_id e) && (row_correlation r =? ie_correlation_id e)
  && bool_decide (row_causation r = ie_causation_id e) && bool_decide (row_sha256 r = payload_sha256 e)
  && match processed_at r with None => true | Some _ => false end.
(** Why a completion or release found no row. *)
Definition refused (c : ClaimedInboxEvent) (t : Turn) : ST Receipts InboxStoreError unit := fun s =>
  match lock_receipt (claimed_event c) t s with
  | (Err err, s) => (Err err, s)
  | (Ok None, s) => (Err ClaimLost, s)
  | (Ok (Some existing), s) =>
      (if is_well_formed existing && (received_at existing =? claimed_received_at c) && immutable_matches (claimed_event c) existing
       then Err ClaimLost else Err CorruptData, s)
  end.
Definition with_processed (t : Z) (r : Receipt) : Receipt :=
  {| row_type := row_type r; row_version := row_version r; row_tenant := row_tenant r; row_correlation := row_correlation r;
     row_causation := row_causation r; row_sha256 := row_sha256 r; received_at := received_at r; processed_at := Some t;
     expires_at := expires_at r |}.
(** The first statement of both: what the row becomes. *)
Definition fenced (c : ClaimedInboxEvent) (t : Turn) (f : Receipt -> option Receipt) : ST Receipts InboxStoreError unit := fun s =>
  let k := event_key (claimed_event c) in
  match database_version (claimed_event c) with
  | Err err => (Err err, s)
  | Ok version =>
      match first_fails t with
      | Some err => (Err (map_sqlx_error err), s)
      | None =>
          match s !! k with
          | Some r =>
              if held c version r then
                match f r with
                | Some r' => if receipt_ok k r' then (Ok tt, <[k := r']> s) else (Err (violation k r'), s)
                | None => (Ok tt, delete k s)
                end
              else refused c t s
          | None => refused c t s
          end
      end
  end.
Definition complete_inner (c : ClaimedInboxEvent) (at_ : Z) (t : Turn) : ST Receipts InboxStoreError unit := fun s =>
  if at_ <? claimed_received_at c then (Err InvalidProcessedAt, s) else fenced c t (fun r => Some (with_processed at_ r)) s.
Definition release_inner (c : ClaimedInboxEvent) (t : Turn) : ST Receipts InboxStoreError unit := fenced c t (fun _ => None).
Definition resume_inner (e : InboxEvent) (t : Turn) : ST Receipts InboxStoreError ClaimedInboxEvent := fun s =>
  match lock_receipt e t s with
  | (Err err, s) => (Err err, s)
  | (Ok None, s) => (Err ClaimLost, s)
  | (Ok (Some existing), s) =>
      (if negb (is_well_formed existing) || negb (immutable_matches e existing) then Err CorruptData
       else match processed_at existing with
            | Some _ => Err ClaimLost
            | None => Ok {| claimed_event := e; claimed_received_at := received_at existing |}
            end, s)
  end.
(** [ORDER BY expires_at, producer, event_id LIMIT $1 FOR UPDATE SKIP LOCKED] *)
Definition expired (now : Z) (r : Receipt) : bool := match processed_at r with Some _ => expires_at r <=? now | None => false end.
Definition expiry_key (x : ReceiptKey * Receipt) : Z * string * Z := (expires_at x.2, x.1.1, x.1.2).
Definition expired_rows (batch : Z) (locked : gset ReceiptKey) (now : Z) (s : Receipts) : list (ReceiptKey * Receipt) :=
  take (Z.to_nat batch) (sort_by (by_key expiry_key) (filter (fun x => (x.1 ∉ locked) /\ expired now x.2 = true) (map_to_list s))).
Definition cleanup_expired (batch : Z) (locked : gset ReceiptKey) (now : Z) (fails : option SqlxError) : ST Receipts InboxStoreError Z := fun s =>
  match fails with
  | Some err => (Err (map_sqlx_error err), s)
  | None =>
      let rows := expired_rows batch locked now s in
      (Ok (Z.of_nat (length rows)), s ∖ list_to_map rows)
  end.
(** ** The cleanup task *)
Definition CLEANUP_TASK_NAME : string := "inbox-cleanup".
Definition MODULE_NAME : string := "inbox".
Definition CLEANUP_ERROR_CODE : string := "INBOX_CLEANUP_UNAVAILABLE".
Definition cleanup_task (c : InboxCleanupConfig) : TaskSpec :=
  {| name := CLEANUP_TASK_NAME; module_ := MODULE_NAME; criticality := BestEffort; restart_policy := cleanup_restart c;
     heartbeat_policy := NoHeartbeat; shutdown_timeout := cleanup_shutdown c |}.
(** One turn of its loop: whether the task is asked to stop before it or while it waits,
    whether it gets a connection, and what others do to the table before its statement. *)
Record CleanupPass := {
  stop_before : bool;
  acquire_fails : bool;
  rivals : Receipts -> Receipts;
  pass_locked : gset ReceiptKey;
  pass_now : Z;
  pass_fails : option SqlxError;
  stop_waiting : bool;
}.
(** [None]: the task waits for its interval. *)
Fixpoint run_cleanup (c : InboxCleanupConfig) (ps : list CleanupPass) (s : Receipts) : option (result string unit) * Receipts :=
  match ps with
  | [] => (None, s)
  | p :: ps =>
      if stop_before p then (Some (Ok tt), s)
      else if acquire_fails p then (Some (Err CLEANUP_ERROR_CODE), s)
      else match cleanup_expired (batch_size c) (pass_locked p) (pass_now p) (pass_fails p) (rivals p s) with
           | (Err _, s) => (Some (Err CLEANUP_ERROR_CODE), s)
           | (Ok _, s) => if stop_waiting p then (Some (Ok tt), s) else run_cleanup c ps s
           end
  end.
