(* ===== verification/InboxTheorems.v ===== *)
(** * An event is processed once in its retention

    A [System] is the table, the database clock, the claims handed out and the log of what
    has been processed, newest first.  A [step] is one committed operation of a consumer
    or of the cleanup; a transaction that rolls back is no step, and one that claims, acts
    and completes is two steps in a row.  What rivals do while a lock is awaited are steps
    before it. *)
From S2P Require Import Prelude Machine Text Ordered JsonShape JobPolicy JobWire JobTheorems EventWire EventTheorems Transactions Inbox.
From Stdlib Require Import Ascii.

(** A receipt that was completed, and the event its claim was for. *)
Record Processed := { pr_event : InboxEvent; pr_received : Z; pr_expires : Z }.
Record System := { receipts : Receipts; clock : Z; claims : list ClaimedInboxEvent; log : list Processed }.

(** What the validated types of an event promise. *)
Record event_valid (e : InboxEvent) : Prop := {
  valid_producer : Producer_validate (producer e) = Ok tt;
  valid_id : get_version_num (ie_event_id e) = 7;
  valid_type : text.event_name (ie_event_type e) = Ok tt;
  valid_version : 1 <= ie_event_version e <= i16_max;
  valid_tenant : version7 (ie_tenant_id e) = true;
  valid_correlation : get_version_num (ie_correlation_id e) = 7;
  valid_causation : version7 (ie_causation_id e) = true;
  valid_sha256 : len (payload_sha256 e) = 32;
  valid_retention : exists d, Retention_new d = Ok (retention e);
}.
Definition calm (t : Turn) : Prop := forall s, meanwhile t s = s.
Definition smooth (t : Turn) : Prop := calm t /\ first_fails t = None /\ lock_fails t = None.

Inductive step (x : System) : System -> Prop :=
| do_claim e received base t r s' now : event_valid e -> calm t -> clock x <= received -> received <= base -> base <= now ->
    claim_inner e received base t (receipts x) = (r, s') ->
    step x {| receipts := s'; clock := now; claims := match r with Ok (Claimed c) => c :: claims x | _ => claims x end; log := log x |}
| do_resume e t r s' now : event_valid e -> calm t -> clock x <= now -> resume_inner e t (receipts x) = (r, s') ->
    step x {| receipts := s'; clock := now; claims := match r with Ok c => c :: claims x | Err _ => claims x end; log := log x |}
| do_complete c at_ t r s' now : c ∈ claims x -> calm t -> clock x <= now -> complete_inner c at_ t (receipts x) = (r, s') ->
    step x {| receipts := s'; clock := now; claims := claims x;
              log := match r, receipts x !! event_key (claimed_event c) with
                     | Ok _, Some row => {| pr_event := claimed_event c; pr_received := received_at row; pr_expires := expires_at row |} :: log x
                     | _, _ => log x
                     end |}
| do_release c t r s' now : c ∈ claims x -> calm t -> clock x <= now -> release_inner c t (receipts x) = (r, s') ->
    step x {| receipts := s'; clock := now; claims := claims x; log := log x |}
| do_cleanup batch locked at_ fails r s' now : clock x <= at_ -> at_ <= now -> cleanup_expired batch locked at_ fails (receipts x) = (r, s') ->
    step x {| receipts := s'; clock := now; claims := claims x; log := log x |}.
Definition empty_inbox (now : Z) : System := {| receipts := ∅; clock := now; claims := []; log := [] |}.
Definition reachable (x : System) : Prop := exists now, rtc step (empty_inbox now) x.

(** ** What the operations do *)
Lemma lock_receipt_calm e t s r s' : calm t -> lock_receipt e t s = (r, s') -> s' = s /\ (lock_fails t = None -> r = Ok (s !! event_key e)).
Proof. intros Hc. unfold lock_receipt. rewrite Hc. by destruct (lock_fails t); intros [= <- <-]. Qed.
Lemma inbox_claim_cases e received base t s r s' : calm t -> claim_inner e received base t s = (r, s') ->
  (s' = s /\ (forall c, r <> Ok (Claimed c)))
  \/ s !! event_key e = None /\ r = Ok (Claimed {| claimed_event := e; claimed_received_at := received |})
     /\ receipt_ok (event_key e) (new_receipt e (ie_event_version e) received base) = true
     /\ s' = <[event_key e := new_receipt e (ie_event_version e) received base]> s.
Proof.
  intros Hc. unfold claim_inner, database_version. destruct (_ <=? i16_max); [|intros [= <- <-]; by left].
  destruct (first_fails t); [intros [= <- <-]; by left|]. cbv zeta. destruct (receipt_ok _ _) eqn:Eok; cbn [negb]; [|intros [= <- <-]; by left].
  destruct (s !! event_key e) as [r0|] eqn:Er.
  - destruct (lock_receipt e t s) as [[o|err] s1] eqn:El; apply lock_receipt_calm in El as [-> _]; try done; [|intros [= <- <-]; by left].
    destruct o; intros [= <- <-]; left; (split; [done|]); [|done]. intros c. repeat case_match; done.
  - intros [= <- <-]. by right.
Qed.
Lemma refused_calm c t s r s' : calm t -> refused c t s = (r, s') -> s' = s /\ exists e, r = Err e.
Proof.
  intros Hc. unfold refused. destruct (lock_receipt _ t s) as [[o|err] s1] eqn:El; apply lock_receipt_calm in El as [-> _]; try done.
  - destruct o; [destruct (_ && _)|]; intros [= <- <-]; (split; [done|by eexists]).
  - intros [= <- <-]. split; [done|by eexists].
Qed.
Lemma fenced_cases c t f s r s' : calm t -> fenced c t f s = (r, s') -> (s' = s /\ exists e, r = Err e)
  \/ exists row, r = Ok tt /\ s !! event_key (claimed_event c) = Some row /\ held c (ie_event_version (claimed_event c)) row = true
     /\ match f row with
        | Some row' => receipt_ok (event_key (claimed_event c)) row' = true /\ s' = <[event_key (claimed_event c) := row']> s
        | None => s' = delete (event_key (claimed_event c)) s
        end.
Proof.
  intros Hc. unfold fenced, database_version. destruct (_ <=? i16_max); [|intros [= <- <-]; left; by split; [|eexists]].
  destruct (first_fails t); [intros [= <- <-]; left; by split; [|eexists]|].
  destruct (s !! event_key (claimed_event c)) as [row|] eqn:Er; [|intros Hr; left; by eapply refused_calm].
  destruct (held c _ row) eqn:Eh; [|intros Hr; left; by eapply refused_calm]. destruct (f row) as [row'|] eqn:Ef.
  - destruct (receipt_ok _ _) eqn:Eok; intros [= <- <-]; [right; exists row; by rewrite Ef | left; by split; [|eexists]].
  - intros [= <- <-]. right. exists row. by rewrite Ef.
Qed.
Lemma held_unprocessed c v r : held c v r = true -> processed_at r = None /\ received_at r = claimed_received_at c.
Proof. unfold held. rewrite !andb_true_iff, Z.eqb_eq. intros Hh. destruct (processed_at r); simpl in Hh; naive_solver. Qed.
Lemma expired_rows_elem batch locked now s k r : (k, r) ∈ expired_rows batch locked now s -> s !! k = Some r /\ expired now r = true.
Proof. intros Hx. apply sort_take_elem in Hx. apply list_elem_of_filter in Hx as [[_ He] Hx]. by apply elem_of_map_to_list in Hx. Qed.
Lemma cleanup_keeps batch locked now s k r : s !! k = Some r ->
  (s ∖ list_to_map (expired_rows batch locked now s)) !! k = Some r
  \/ (s ∖ list_to_map (expired_rows batch locked now s)) !! k = None /\ expired now r = true.
Proof.
  intros Hr. rewrite lookup_difference. destruct (list_to_map (M := Receipts) (expired_rows batch locked now s) !! k) as [r'|] eqn:E; [right|by left].
  apply elem_of_list_to_map_2, expired_rows_elem in E as [Hr' He]. split; [done|]. congruence.
Qed.

(** ** The invariant *)
(** A processed receipt is still there, or its retention is over and whatever came after
    was received later. *)
Definition accounted (x : System) (p : Processed) : Prop :=
  (exists r at_, receipts x !! event_key (pr_event p) = Some r /\ processed_at r = Some at_ /\ received_at r = pr_received p
     /\ expires_at r = pr_expires p /\ immutable_matches (pr_event p) r = true)
  \/ pr_expires p <= clock x /\ forall r, receipts x !! event_key (pr_event p) = Some r -> pr_expires p <= received_at r.
Record Inv (x : System) : Prop := {
  inv_row : forall k r, receipts x !! k = Some r -> receipt_ok k r = true /\ is_well_formed r = true /\ received_at r <= clock x;
  inv_log : forall p, p ∈ log x -> accounted x p;
  inv_order : forall l1 q l2, log x = l1 ++ q :: l2 -> forall p, p ∈ l2 -> event_key (pr_event p) = event_key (pr_event q) ->
    pr_expires p <= pr_received q;
  inv_held : forall c, c ∈ claims x -> event_valid (claimed_event c);
}.
Lemma claimed_well_formed e received base : event_valid e -> is_well_formed (new_receipt e (ie_event_version e) received base) = true.
Proof.
  intros Hv. pose proof (valid_version _ Hv). unfold is_well_formed. cbn. rewrite (valid_tenant _ Hv), (valid_causation _ Hv), (valid_correlation _ Hv), (valid_sha256 _ Hv).
  rewrite (proj2 (Z.ltb_lt _ _)) by lia. done.
Qed.
Lemma accounted_same x y p : clock x <= clock y -> receipts y !! event_key (pr_event p) = receipts x !! event_key (pr_event p) -> accounted x p -> accounted y p.
Proof. intros Hc Hr [(r & at_ & H1 & H2)|[H1 H2]]; [left; exists r, at_; by rewrite Hr | right; rewrite Hr; split; [lia | done]]. Qed.
Lemma held_matches c r : event_valid (claimed_event c) -> held c (ie_event_version (claimed_event c)) r = true -> immutable_matches (claimed_event c) r = true.
Proof.
  intros Hv. pose proof (valid_version _ Hv). unfold held, immutable_matches. rewrite !andb_true_iff, !Z.eqb_eq, Z.leb_le. intuition lia.
Qed.
(** The receipts with one key changed, and no other processed. *)
Lemma inv_put x k row now : Inv x -> clock x <= now -> receipt_ok k row = true -> is_well_formed row = true -> received_at row <= now ->
  (forall p, p ∈ log x -> event_key (pr_event p) = k -> pr_expires p <= clock x /\ pr_expires p <= received_at row) ->
  forall l, (forall c, c ∈ l -> event_valid (claimed_event c)) -> Inv {| receipts := <[k := row]> (receipts x); clock := now; claims := l; log := log x |}.
Proof.
  intros Hx Hclk Hok Hwf Hrec Hp l Hl. split; [| | apply (inv_order x Hx) | done]; cbn.
  - intros k' r [[<- <-]|[_ Hr]]%lookup_insert_Some; [done|]. destruct (inv_row x Hx _ _ Hr) as (? & ? & ?). split_and!; try done; lia.
  - intros p Hin. destruct (decide (event_key (pr_event p) = k)) as [E|E].
    + destruct (Hp p Hin E). right. cbn. rewrite E. split; [lia|]. intros r. rewrite lookup_insert_eq. by intros [= <-].
    + eapply accounted_same; [|..|by apply (inv_log x Hx)]; [done|]. cbn. by rewrite lookup_insert_ne.
Qed.
Lemma inv_clock x now : Inv x -> clock x <= now -> forall l, (forall c, c ∈ l -> event_valid (claimed_event c)) ->
  Inv {| receipts := receipts x; clock := now; claims := l; log := log x |}.
Proof.
  intros Hx Hclk l Hl. split; [| | apply (inv_order x Hx) | done]; cbn.
  - intros k r Hr. destruct (inv_row x Hx _ _ Hr) as (? & ? & ?). split_and!; try done; lia.
  - intros p Hin. eapply accounted_same; [|..|by apply (inv_log x Hx)]; done.
Qed.
(** An unprocessed receipt has been received after everything processed under its key. *)
Lemma unprocessed_later x k r p : Inv x -> receipts x !! k = Some r -> processed_at r = None -> p ∈ log x -> event_key (pr_event p) = k ->
  pr_expires p <= clock x /\ pr_expires p <= received_at r.
Proof.
  intros Hx Hr Hn Hp <-. destruct (inv_log x Hx p Hp) as [(r' & at_ & Hr' & Hpr & _)|[Hc Hl]]; [|split; [done|by apply Hl]].
  rewrite Hr in Hr'. injection Hr' as <-. congruence.
Qed.
Lemma inv_complete x c at_ t r s' now : Inv x -> c ∈ claims x -> calm t -> clock x <= now -> complete_inner c at_ t (receipts x) = (r, s') ->
  Inv {| receipts := s'; clock := now; claims := claims x;
         log := match r, receipts x !! event_key (claimed_event c) with
                | Ok _, Some row => {| pr_event := claimed_event c; pr_received := received_at row; pr_expires := expires_at row |} :: log x
                | _, _ => log x
                end |}.
Proof.
  intros Hx Hc Ht Hclk Hr. pose proof (inv_held x Hx) as Hheld. unfold complete_inner in Hr.
  destruct (at_ <? claimed_received_at c); [injection Hr as <- <-; by apply inv_clock|].
  apply fenced_cases in Hr as [(-> & e & ->)|(row & -> & Hrow & Hh & Hok & ->)]; [by apply inv_clock| |done].
  rewrite Hrow. destruct (held_unprocessed _ _ _ Hh) as [Hn Hrec]. pose proof (held_matches _ _ (Hheld _ Hc) Hh) as Hm.
  set (k := event_key (claimed_event c)) in *. set (q := {| pr_event := claimed_event c; pr_received := received_at row; pr_expires := expires_at row |}).
  destruct (inv_row x Hx _ _ Hrow) as (_ & Hwf & Hle). split; cbn; [| | |done].
  - intros k' r [[<- <-]|[_ Hr]]%lookup_insert_Some; [by split_and!; [done|done|cbn; lia]|]. destruct (inv_row x Hx _ _ Hr) as (? & ? & ?). split_and!; try done; lia.
  - intros p [->|Hp]%elem_of_cons.
    + left. exists (with_processed at_ row), at_. cbn. fold k. by rewrite lookup_insert_eq.
    + destruct (decide (event_key (pr_event p) = k)) as [E|E].
      * destruct (unprocessed_later x k row p Hx Hrow Hn Hp E). right. cbn. rewrite E. split; [lia|]. intros r. rewrite lookup_insert_eq. by intros [= <-].
      * eapply accounted_same; [|..|by apply (inv_log x Hx)]; [done|]. cbn. by rewrite lookup_insert_ne.
  - intros [|q' l1] q0 l2 Hl p Hp Hk; cbn in Hl; injection Hl as <- Hl; [|by eapply (inv_order x Hx)]. subst l2. cbn in *.
    by destruct (unprocessed_later x k row p Hx Hrow Hn Hp Hk).
Qed.
Lemma inbox_step_inv x y : Inv x -> step x y -> Inv y.
Proof.
  intros Hx Hs. pose proof (inv_held x Hx) as Hheld. destruct Hs as [e received base t r s' now Hv Ht H1 H2 H3 Hr|e t r s' now Hv Ht H1 Hr|c at_ t r s' now Hc Ht H1 Hr|c t r s' now Hc Ht H1 Hr|batch locked at_ fails r s' now H1 H2 Hr].
  - apply inbox_claim_cases in Hr as [(-> & Hno)|(Hnone & -> & Hok & ->)]; [| |done].
    + apply inv_clock; [done|lia|]. destruct r as [[]|]; try done. by destruct (Hno c).
    + apply inv_put; try done; [lia | by apply claimed_well_formed | cbn; lia | |].
      * intros p Hp E. destruct (inv_log x Hx p Hp) as [(r' & ? & Hr' & _)|[Hc _]]; [rewrite E in Hr'; congruence|]. cbn. lia.
      * intros c [->|Hc]%elem_of_cons; [done | by apply Hheld].
  - unfold resume_inner in Hr. destruct (lock_receipt e t _) as [[o|err] s1] eqn:El; apply lock_receipt_calm in El as [-> _]; try done.
    + assert (Hcl : s' = receipts x /\ forall c, r = Ok c -> claimed_event c = e).
      { destruct o as [row|]; [|by injection Hr as <- <-]. injection Hr as <- <-. split; [done|]. intros c Hc. destruct (_ || _); [done|].
        destruct (processed_at row); [done|]. by injection Hc as <-. }
      destruct Hcl as [-> Hcl]. apply inv_clock; try done. destruct r as [c|]; [|done]. intros c' [->|Hc]%elem_of_cons; [by rewrite (Hcl c) | by apply Hheld].
    + injection Hr as <- <-. by apply inv_clock.
  - by eapply inv_complete.
  - apply fenced_cases in Hr as [(-> & _)|(row & -> & Hrow & Hh & ->)]; [by apply inv_clock| |done]. destruct (held_unprocessed _ _ _ Hh) as [Hn _].
    split; cbn; [| |apply (inv_order x Hx)|done].
    + intros k r [_ Hr]%lookup_delete_Some. destruct (inv_row x Hx _ _ Hr) as (? & ? & ?). split_and!; try done; lia.
    + intros p Hp. destruct (decide (event_key (pr_event p) = event_key (claimed_event c))) as [E|E].
      * destruct (unprocessed_later x _ row p Hx Hrow Hn Hp E). right. cbn. rewrite E, lookup_delete_eq. split; [lia|done].
      * eapply accounted_same; [|..|by apply (inv_log x Hx)]; [done|]. cbn. by rewrite lookup_delete_ne.
  - unfold cleanup_expired in Hr. destruct fails; injection Hr as <- <-; [apply inv_clock; done || lia|]. split; cbn; [| |apply (inv_order x Hx)|done].
    + intros k r [Hr _]%lookup_difference_Some. destruct (inv_row x Hx _ _ Hr) as (? & ? & ?). split_and!; try done; lia.
    + intros p Hp. destruct (inv_log x Hx p Hp) as [(r & a & Hr & Hpr & Hrec & Hexp & Hm)|[Hc Hl]].
      * destruct (cleanup_keeps batch locked at_ _ _ _ Hr) as [Hr'|[Hr' He]]; [left; by exists r, a|right]. cbn. rewrite Hr'. split; [|done].
        unfold expired in He. rewrite Hpr in He. blia.
      * right. cbn. split; [lia|]. intros r [Hr _]%lookup_difference_Some. by apply Hl.
Qed.
Lemma inbox_inv x : reachable x -> Inv x.
Proof.
  intros [now Hr]. remember (empty_inbox now) as x0 eqn:E. assert (Hi : Inv x0).
  { subst. split; cbn; [done | by intros p ?%not_elem_of_nil | intros [] q l2 Hl; done | by intros c ?%not_elem_of_nil]. }
  clear E. induction Hr as [|x1 x2 x3 Hs _ IH]; [done|]. by apply IH, (inbox_step_inv x1).
Qed.

(** The cleanup task is a sequence of cleanups. *)
Fixpoint passes_from (now : Z) (ps : list CleanupPass) : Prop :=
  match ps with [] => True | p :: ps => now <= pass_now p /\ (forall s, rivals p s = s) /\ passes_from (pass_now p) ps end.
Lemma run_cleanup_steps c ps x : reachable x -> passes_from (clock x) ps ->
  exists y, reachable y /\ receipts y = (run_cleanup c ps (receipts x)).2 /\ claims y = claims x /\ log y = log x.
Proof.
  revert x. induction ps as [|p ps IH]; intros x Hx Hp; [by exists x|]. destruct Hp as (Hn & Hr & Hp). cbn. destruct (stop_before p); [by exists x|].
  destruct (acquire_fails p); [by exists x|]. rewrite Hr. destruct (cleanup_expired _ _ _ _ _) as [r s'] eqn:Ec.
  set (y := {| receipts := s'; clock := pass_now p; claims := claims x; log := log x |}).
  assert (Hy : reachable y). { destruct Hx as [t Ht]. exists t. eapply rtc_r; [exact Ht|]. by eapply do_cleanup; [..|exact Ec]. }
  destruct r as [n|e]; [|by exists y]. destruct (stop_waiting p); [by exists y|]. by apply (IH y).
Qed.
Lemma event_name_row value : text.event_name value = Ok tt ->
  len value <= 128 /\ first_byte (fun c => is_ascii_lowercase c || is_ascii_digit c) value = true /\ all_bytes text.name_byte value = true.
Proof.
  intros Hs. unfold text.event_name in Hs. inv_ok. destruct v. apply portable_ok in Hok as (Hl & _ & Hb). unfold limits.EVENT_NAME in Hl.
  apply orb_false_iff in Hok0 as [Hf _]. apply negb_false_iff in Hf. split_and!; [lia| |done]. destruct value; [done|]. cbn in *. by rewrite Hf.
Qed.
Lemma producer_row value : Producer_validate value = Ok tt -> len value <= 128 /\ first_byte is_ascii_alphanumeric value = true /\ all_bytes producer_byte value = true.
Proof.
  unfold Producer_validate. intros Hp. inv_ok. unfold MAX_PRODUCER_BYTES in *. match goal with Hx : _ || _ = false |- _ => apply orb_false_iff in Hx as [H1 H2] end.
  apply negb_false_iff in H1, H2. split_and!; [blia|done|done].
Qed.
Lemma retention_positive d r : Retention_new d = Ok r -> 1000 <= milliseconds r.
Proof.
  unfold Retention_new. intros Hr. inv_ok. subst r. apply negb_false_iff, andb_true_iff in Hok as [Hd _]. apply Z.leb_le in Hd. unfold MIN_RETENTION in Hd.
  cbn. change (Duration.from_secs 1) with 1000000000 in Hd. apply Z.div_le_lower_bound; lia.
Qed.
(** The table accepts the receipt of a valid event. *)
Lemma new_receipt_ok e received base : event_valid e -> received <= base -> receipt_ok (event_key e) (new_receipt e (ie_event_version e) received base) = true.
Proof.
  intros Hv Hb. pose proof (valid_version _ Hv). destruct (valid_retention _ Hv) as [d Hd]. pose proof (retention_positive _ _ Hd).
  destruct (producer_row _ (valid_producer _ Hv)) as (P1 & P2 & P3). destruct (event_name_row _ (valid_type _ Hv)) as (N1 & N2 & N3).
  unfold receipt_ok. cbn [new_receipt event_key fst snd row_version row_type row_sha256 received_at processed_at expires_at].
  rewrite (valid_id _ Hv), (valid_sha256 _ Hv), P2, P3, N2, N3. rewrite !(proj2 (Z.leb_le _ _)), !(proj2 (Z.ltb_lt _ _)) by lia. done.
Qed.

(** C23. An event is processed once in its retention: in every history of claims,
    completions, releases, resumptions and cleanups by any number of consumers, when the
    same event of the same producer has been processed twice, the second receipt was
    taken only after the retention of the first was over.  While a processed receipt is
    retained, a claim of its event is answered as a duplicate if every header and the
    payload agree and as a conflict otherwise, and changes nothing. *)
Theorem processed_once x : reachable x ->
  (forall l1 q l2 p, log x = l1 ++ q :: l2 -> p ∈ l2 -> event_key (pr_event p) = event_key (pr_event q) -> pr_expires p <= pr_received q)
  /\ forall p e received base t, p ∈ log x -> event_key e = event_key (pr_event p) -> event_valid e -> smooth t -> received <= base -> clock x < pr_expires p ->
       (claim_inner e received base t (receipts x)).2 = receipts x
       /\ exists r, receipts x !! event_key e = Some r /\ immutable_matches (pr_event p) r = true
            /\ (claim_inner e received base t (receipts x)).1 = Ok (if immutable_matches e r then Duplicate else Conflict).
Proof.
  intros Hx%inbox_inv. split; [intros l1 q l2 p Hl Hp Hk; by eapply (inv_order x Hx)|].
  intros p e received base t Hp Hk Hv (Ht & Hf & Hlk) Hb Hlt. destruct (inv_log x Hx p Hp) as [(r & at_ & Hr & Hpr & _ & _ & Hm)|[Hc _]]; [|lia].
  destruct (inv_row x Hx _ _ Hr) as (_ & Hwf & _). pose proof (valid_version _ Hv) as Hver.
  unfold claim_inner, database_version. rewrite (proj2 (Z.leb_le _ _)) by lia. rewrite Hf. cbv zeta. rewrite new_receipt_ok by done. cbn [negb].
  rewrite Hk, Hr. unfold lock_receipt. rewrite Ht, Hlk, Hk, Hr, Hwf, Hpr. cbn.
  split; [done|]. exists r. split_and!; try done. by destruct (immutable_matches e r).
Qed.

(** ** From the envelope to the receipt *)
Class PayloadLaws `{SerdeJsonLaws} `{PayloadDigest} := {
  sha256_length s : len (sha256 s) = 32;
  (** what [serde_json] writes for an object is one raw value, its brace first *)
  raw_value_text l : is_value (Object l) -> raw_value (to_text (Object l)) = Some (to_text (Object l));
  object_text l : is_value (Object l) -> starts_with "{" (to_text (Object l)) = true;
}.
(** One delivery of a valid event, without rivals or failures. *)
Section delivery.
Context (i : InboxEvent) (received base at_ : Z) (t : Turn).
Context (valid : event_valid i) (calm_turn : smooth t) (ordered : received <= base).
Let row := new_receipt i (ie_event_version i) received base.
End delivery.

Section envelopes.
Context `{SerdeJsonLaws} `{UuidLaws} `{!PayloadDigest} `{!PayloadLaws} {E : Type} `{!DomainEvent E} `{!DomainEventLaws E}.
Implicit Types e : EventEnvelope E.
End envelopes.

(** ** A concrete event *)
Module InboxExamples.
Import JobExamples EventExamples.
#[local] Existing Instances uuids uuid_laws event_json event_json_laws paid paid_laws.
Definition digest : string := "0123456789abcdef0123456789abcdef".
#[local] Instance payloads : PayloadDigest := {| sha256 _ := digest; raw_value s := Some s |}.
#[local] Instance payload_laws : PayloadLaws.
Proof. split; [done | done |]. intros l Hl. by injection Hl as ->. Defined.
Definition day : Retention := {| duration := Duration.from_secs 86400; milliseconds := 86400000 |}.
Definition paid_event : InboxEvent :=
  {| producer := "billing"; ie_event_id := ID; ie_event_type := "order.paid.v2"; ie_event_version := 2; ie_tenant_id := None;
     ie_correlation_id := ID; ie_causation_id := None; payload_sha256 := digest; retention := day |}.
Definition quiet : Turn := {| first_fails := None; meanwhile s := s; lock_fails := None |}.
Definition claim0 : ClaimedInboxEvent := {| claimed_event := paid_event; claimed_received_at := 100 |}.
Definition row0 : Receipt := new_receipt paid_event 2 100 100.
Definition processed0 : Processed := {| pr_event := paid_event; pr_received := 100; pr_expires := 86400000100 |}.
Definition after_claim : System := {| receipts := {[event_key paid_event := row0]}; clock := 100; claims := [claim0]; log := [] |}.
Definition after_complete : System :=
  {| receipts := {[event_key paid_event := with_processed 150 row0]}; clock := 200; claims := [claim0]; log := [processed0] |}.
Lemma quiet_smooth : smooth quiet.
Proof. done. Qed.
Lemma paid_event_valid : event_valid paid_event.
Proof.
  split; [reflexivity | reflexivity | reflexivity | split; vm_compute; discriminate | reflexivity | reflexivity | reflexivity | reflexivity |].
  exists (Duration.from_secs 86400). reflexivity.
Qed.
Lemma after_complete_reachable : reachable after_complete.
Proof.
  exists 100. eapply rtc_l; [|eapply rtc_l; [|apply rtc_refl]].
  - eapply (do_claim (empty_inbox 100) paid_event 100 100 quiet (Ok (Claimed claim0)) (receipts after_claim) 100); [exact paid_event_valid | apply quiet_smooth | cbn; lia.. | vm_compute; reflexivity].
  - apply (do_complete after_claim claim0 150 quiet (Ok tt) (receipts after_complete) 200); [by left | apply quiet_smooth | cbn; lia | vm_compute; reflexivity].
Qed.
Lemma processed_once_witness : (claim_inner paid_event 300 300 quiet (receipts after_complete)).2 = receipts after_complete
  /\ clock after_complete < pr_expires processed0.
Proof.
  split; [|vm_compute; reflexivity]. apply (proj2 (processed_once after_complete after_complete_reachable) processed0);
    [by left | reflexivity | exact paid_event_valid | exact quiet_smooth | lia | vm_compute; reflexivity].
Defined.
End InboxExamples.
