(* ===== verification/Pgmq.v ===== *)
(** * Jobs on PGMQ: [crates/jobs-pgmq/src/lib.rs]

    PGMQ is an extension of the database: its [send], [read] and [archive] are parameters
    with the documented laws of [PgmqLaws].  The statements the crate runs itself on
    PGMQ's tables are written out.  A queue table is a finite map from message
    identifiers to rows, with the last identifier it has issued.  A transaction is given a
    [Turn]: what others commit before it has its locks, the clock, and whether it commits,
    fails, or commits without its caller learning of it.  The clock of the database and
    the monotonic clock of the worker are one time line in nanoseconds.  The end of a
    handler's future (its outcome, a panic, its timeout, cancellation) is an argument.
    The worker's loop with its local limits, metadata checks and grants are left out. *)
From S2P Require Import Prelude Machine Text Ordered JsonShape JobPolicy JobWire.
From Stdlib Require Import Ascii.

Definition MAX_OPERATION_TIMEOUT : Z := Duration.from_secs 60.
Definition MAX_POLL_INTERVAL : Z := Duration.from_secs 30.
Definition MIN_SERVER_TIMEOUT : Z := Duration.from_millis 1.
Definition MAX_LEASE_GRACE : Z := Duration.from_secs 300.
Definition MAX_SHUTDOWN_TIMEOUT : Z := Duration.from_secs 300.
Definition MAX_CLEANUP_INTERVAL : Z := Duration.from_secs 300.
Definition MAX_CLEANUP_BATCH_SIZE : Z := 1000.
Definition PHYSICAL_QUEUE_MAX_BYTES : Z := 46.
Definition FINGERPRINT_BYTES : nat := 19.
Definition NANOS_PER_SECOND : Z := 1000000000.
Definition MAX_DEAD_RECORDS : Z := 1000.
Definition MAX_STORED_JSON_BYTES : Z := limits.ENVELOPE_BYTES * 2.

(** ** Configuration *)
Record PgmqJobConfig := {
  operation_timeout : Z;
  poll_interval : Z;
  lease_grace : Z;
  shutdown_timeout : Z;
  cleanup_interval : Z;
  cleanup_batch_size : Z;
}.
Inductive PgmqJobConfigError := OperationTimeout | PollInterval | LeaseGrace | ShutdownTimeout | CleanupInterval | LeaseTiming | CleanupBatchSize.
Definition bounded_duration (value maximum : Z) (e : PgmqJobConfigError) : result PgmqJobConfigError unit :=
  guard_err (Duration.is_zero value || (maximum <? value)) e.
Definition pgmq_config_validate (c : PgmqJobConfig) : result PgmqJobConfigError unit :=
  _ ← bounded_duration (operation_timeout c) MAX_OPERATION_TIMEOUT OperationTimeout;
  _ ← bounded_duration (poll_interval c) MAX_POLL_INTERVAL PollInterval;
  _ ← bounded_duration (lease_grace c) MAX_LEASE_GRACE LeaseGrace;
  _ ← bounded_duration (shutdown_timeout c) MAX_SHUTDOWN_TIMEOUT ShutdownTimeout;
  _ ← bounded_duration (cleanup_interval c) MAX_CLEANUP_INTERVAL CleanupInterval;
  _ ← guard_err ((lease_grace c <=? operation_timeout c) || (lease_grace c <? shutdown_timeout c)) LeaseTiming;
  guard_err ((cleanup_batch_size c =? 0) || (MAX_CLEANUP_BATCH_SIZE <? cleanup_batch_size c)) CleanupBatchSize.
Definition PgmqJobConfig_default : PgmqJobConfig :=
  {| operation_timeout := Duration.from_secs 5; poll_interval := Duration.from_millis 250; lease_grace := Duration.from_secs 10;
     shutdown_timeout := Duration.from_secs 10; cleanup_interval := Duration.from_secs 30; cleanup_batch_size := 128 |}.

(** ** Physical queues *)
(** [Sha256] *)
Class Sha256 := { digest : string -> string }.
(** [to_be_bytes] of an integer of [n] bytes. *)
Fixpoint be_bytes (n : nat) (v : Z) : string :=
  match n with O => EmptyString | S n => be_bytes n (v / 256) +:+ String (ascii_of_N (Z.to_N (v mod 256))) EmptyString end.
Definition hash_bytes (value : string) : string := be_bytes 8 (len value) +:+ value.
Definition one (v : Z) : string := be_bytes 1 v.
Definition rate_bytes (r : option Z) : string := match r with Some r => one 1 +:+ be_bytes 4 r | None => one 0 end.
Definition dead_letter_bytes (d : DeadLetterPolicy) : string := match d with Retain => one 0 | ToDestination s => one 1 +:+ hash_bytes s end.
Definition compatibility_bytes (c : CompatibilityPolicy) : string :=
  match c with Exact => one 0 | BackwardCompatible m => one 1 +:+ be_bytes 2 m end.
(** What the hasher is fed. *)
Definition dispatch_policy_bytes (J : Type) `{Job J} : string :=
  let p := POLICY J in
  hash_bytes (NAME J) +:+ be_bytes 2 (VERSION J) +:+ one (match idempotency p with Required => 0 | Optional => 1 end)
  +:+ be_bytes 2 (max_attempts p) +:+ be_bytes 16 (initial_backoff_ms p) +:+ be_bytes 16 (max_backoff_ms p) +:+ one (multiplier p)
  +:+ one (match jitter p with Full => 0 | Equal => 1 end) +:+ be_bytes 8 (timeout_seconds p) +:+ be_bytes 2 (max_concurrency p)
  +:+ rate_bytes (rate_per_minute p) +:+ hash_bytes (policy_queue p) +:+ one (priority p) +:+ be_bytes 8 (retention_seconds p)
  +:+ dead_letter_bytes (dead_letter p) +:+ compatibility_bytes (compatibility p) +:+ be_bytes 8 (max_payload_bytes p).
Definition hex_digit (n : N) : ascii := default zero (String.get (N.to_nat n) "0123456789abcdef").
Fixpoint hex_string (s : string) : string :=
  match s with
  | EmptyString => EmptyString
  | String c s => String (hex_digit (N_of_ascii c / 16)) (String (hex_digit (N_of_ascii c mod 16)) (hex_string s))
  end.
Definition dispatch_policy_fingerprint (J : Type) `{Job J} `{Sha256} : string :=
  hex_string (String.substring 0 FINGERPRINT_BYTES (digest (dispatch_policy_bytes J))).
(** [Display] of a [u16]. *)
Fixpoint decimal (fuel : nat) (n : Z) : string :=
  let digit := String (ascii_of_N (Z.to_N (48 + n mod 10))) EmptyString in
  match fuel with O => digit | S fuel => if n <? 10 then digit else decimal fuel (n / 10) +:+ digit end.
Definition valid_physical_queue (value : string) : bool :=
  negb (is_empty value) && (len value <=? PHYSICAL_QUEUE_MAX_BYTES) && first_byte is_ascii_lowercase value
  && all_bytes (fun c => is_ascii_lowercase c || is_ascii_digit c || is_byte "_" c) value.
Definition valid_metrics_prefix (value : string) : bool :=
  negb (is_empty value) && (len value <=? limits.METRICS_PREFIX)
  && all_bytes (fun c => is_ascii_lowercase c || is_ascii_digit c || is_byte "_" c) value.
Definition valid_runbook (value : string) : bool :=
  negb (is_empty value) && (len value <=? limits.RUNBOOK)
  && all_bytes (fun c => is_ascii_alphanumeric c || is_byte "/" c || is_byte "." c || is_byte "_" c || is_byte "-" c || is_byte ":" c || is_byte "#" c) value.
Inductive PgmqJobDefinitionError := InvalidDeclaration | UnsupportedDeadLetterDestination | InvalidPhysicalQueue.
Definition physical_queue_name (kind : ascii) (version : Z) (fingerprint : string) : result PgmqJobDefinitionError string :=
  let value := String kind (decimal 4 version +:+ String "_" fingerprint) in
  if valid_physical_queue value then Ok value else Err InvalidPhysicalQueue.
Record PgmqJobDefinition := { def_name : string; def_version : Z; def_queue : string; def_source : string; def_dead : string }.
Definition PgmqJobDefinition_new (J : Type) `{Job J} `{Sha256} : result PgmqJobDefinitionError PgmqJobDefinition :=
  _ ← map_err (fun _ => InvalidDeclaration) (text.job_name (NAME J));
  version ← map_err (fun _ => InvalidDeclaration) (Version_new (VERSION J));
  _ ← guard_err (match dead_letter (POLICY J) with ToDestination _ => true | Retain => false end) UnsupportedDeadLetterDestination;
  _ ← map_err (fun _ => InvalidDeclaration) (validate_for (POLICY J) (VERSION J));
  _ ← guard_err (negb (valid_metrics_prefix (METRICS_PREFIX J)) || negb (valid_runbook (RUNBOOK J))) InvalidDeclaration;
  _ ← map_err (fun _ => InvalidDeclaration) (text.queue (policy_queue (POLICY J)));
  source ← physical_queue_name "j" (VERSION J) (dispatch_policy_fingerprint J);
  dead ← physical_queue_name "d" (VERSION J) (dispatch_policy_fingerprint J);
  Ok {| def_name := NAME J; def_version := version; def_queue := policy_queue (POLICY J); def_source := source; def_dead := dead |}.

(** ** Queues *)
(** [headers] is the attempt a dead letter was made by. *)
Record Row := { read_ct : Z; enqueued_at : Z; vt : Z; message : Value; headers : option Z }.
Record Table := { rows : gmap Z Row; issued : Z }.
Record Archived := { ar_row : Row; archived_at : Z }.
Abbreviation Archive := (gmap Z Archived).
Record Db := { source : Table; dead : Table; archive : Archive; control : option (bool * Z) }.
Definition with_rows (m : gmap Z Row) (t : Table) : Table := {| rows := m; issued := issued t |}.
Definition with_source (q : Table) (d : Db) : Db := {| source := q; dead := dead d; archive := archive d; control := control d |}.
Definition with_dead (q : Table) (d : Db) : Db := {| source := source d; dead := q; archive := archive d; control := control d |}.
Definition with_archive (a : Archive) (d : Db) : Db := {| source := source d; dead := dead d; archive := a; control := control d |}.
(** The functions of the extension: [send] with headers and a delay in seconds, unless
    the message is no [jsonb]; [read] of one message with a lease in seconds, past the
    rows others have locked; [archive]; and the length of a [jsonb]'s text. *)
Class Pgmq := {
  pgmq_send : Table -> Value -> option Z -> Z -> Z -> option (Z * Table);
  pgmq_read : Table -> gset Z -> Z -> Z -> option (Z * Row) * Table;
  pgmq_archive : Table -> Archive -> Z -> Z -> option (Table * Archive);
  jsonb_length : Value -> Z;
}.
Inductive Fate := Commits | Fails | CommitsUnseen.
Record Turn := { meanwhile : Db -> Db; clock : Z; fate : Fate }.
Definition commit {A} (t : Turn) (a : A) (before after : Db) : result unit A * Db :=
  match fate t with Commits => (Ok a, after) | Fails => (Err tt, before) | CommitsUnseen => (Err tt, after) end.
(** What is read or refused without a change is known without a commit. *)
Definition answer {A} (t : Turn) (r : result unit A) (d : Db) : result unit A * Db :=
  match fate t with Fails => (Err tt, d) | _ => (r, d) end.

(** ** Time *)
Definition ceil_nanos_seconds (nanos : Z) : option Z :=
  if 2 ^ 128 <=? nanos + (NANOS_PER_SECOND - 1) then None
  else let seconds := (nanos + (NANOS_PER_SECOND - 1)) / NANOS_PER_SECOND in if seconds <=? i32_max then Some seconds else None.
Definition eligibility_delay_seconds (not_before : option OffsetDateTime) (now : OffsetDateTime) : result EnqueueError Z :=
  match not_before with
  | None => Ok 0
  | Some t => if unix_nanos t <=? unix_nanos now then Ok 0 else ok_or (ceil_nanos_seconds (unix_nanos t - unix_nanos now)) Rejected
  end.
Definition timeout (J : Type) `{Job J} : Z := Duration.from_secs (timeout_seconds (POLICY J)).
(** The rejection loop of the jitter ends after one redraw, as [JobBackoff] shows. *)
Definition retry_delay_seconds (J : Type) `{Job J} (attempt sample : Z) : result unit Z :=
  delay ← ok_or (jittered_backoff 1 (POLICY J) attempt sample) tt;
  ok_or (ceil_nanos_seconds (Z.max delay (Duration.from_millis 1))) tt.
Definition lease_seconds (J : Type) `{Job J} (c : PgmqJobConfig) : result unit Z :=
  total ← ok_or (if timeout J + lease_grace c <=? Duration.MAX then Some (timeout J + lease_grace c) else None) tt;
  seconds ← ok_or (ceil_nanos_seconds total) tt;
  if seconds + 1 <=? i32_max then Ok (seconds + 1) else Err tt.
Definition rate_interval (rate_per_minute : Z) : Z :=
  Z.max (if rate_per_minute =? 0 then 1 else saturating_mul u64_max 60 1000000000 / rate_per_minute) 1.
Definition remaining_operation_budget (deadline now operation_timeout : Z) : result unit Z :=
  if deadline <? now then Err tt
  else let budget := Z.min (deadline - now) operation_timeout in
       if budget <? MIN_SERVER_TIMEOUT then Err tt else Ok budget.

Section provider.
Context `{SerdeJson} `{UuidText} `{Pgmq} {J : Type} `{!Job J}.
Implicit Types (c : PgmqJobConfig) (t : Turn) (d : Db).
(** ** Enqueueing *)
Definition header_matches (x : EncodedJobEnvelope) : bool :=
  bool_decide (job_type (header x) = NAME J) && (job_version (header x) =? VERSION J) && bool_decide (queue x = policy_queue (POLICY J))
  && (ap_max_attempts (attempt_policy (header x)) =? max_attempts (POLICY J))
  && (ap_timeout_seconds (attempt_policy (header x)) =? timeout_seconds (POLICY J)).
Definition accepts (x : EncodedJobEnvelope) : bool :=
  header_matches x && match decode J (bytes x) with
                      | Err _ => false
                      | Ok typed => match encode typed with Err _ => false | Ok canonical => bool_decide (bytes canonical = bytes x) end
                      end.
Definition is_object (v : Value) : bool := match v with Object _ => true | _ => false end.
Record PreparedEnvelope := { prepared_id : Z; prepared_message : Value; delay_seconds : Z }.
Definition prepare_enqueue (x : EncodedJobEnvelope) (now : OffsetDateTime) : result EnqueueError PreparedEnvelope :=
  _ ← guard_err (negb (accepts x)) InvalidEnvelope;
  m ← ok_or (v ← from_slice (bytes x); Some (into_value v)) InvalidEnvelope;
  _ ← guard_err (negb (is_object m)) InvalidEnvelope;
  delay ← eligibility_delay_seconds (not_before (header x)) now;
  Ok {| prepared_id := job_id (header x); prepared_message := m; delay_seconds := delay |}.
(** [enqueue_with], inside the caller's transaction, and [enqueue]. *)
Definition enqueue_with (x : EncodedJobEnvelope) (now : OffsetDateTime) (t : Turn) : ST Db EnqueueError Z := fun d =>
  match prepare_enqueue x now with
  | Err e => (Err e, d)
  | Ok p =>
      let d := meanwhile t d in
      match pgmq_send (source d) (prepared_message p) None (delay_seconds p) (clock t) with
      | None => (Err Unavailable, d)
      | Some (_, q) => match commit t (prepared_id p) d (with_source q d) with (Ok id, d) => (Ok id, d) | (Err _, d) => (Err Unavailable, d) end
      end
  end.
Definition pgmq_enqueue (x : EncodedJobEnvelope) (now accepted : OffsetDateTime) (t : Turn) : ST Db EnqueueError EnqueueReceipt := fun d =>
  match enqueue_with x now t d with
  | (Ok id, d) => (Ok {| rc_job_id := id; rc_queue := policy_queue (POLICY J); accepted_at := accepted |}, d)
  | (Err e, d) => (Err e, d)
  end.
(** ** Leases *)
Inductive SourceLease := LeasedMessage (id : Z) (r : Row) | QueueEmpty | Paused.
Definition lease_source (seconds : Z) (locked : gset Z) (t : Turn) : ST Db unit SourceLease := fun d =>
  let d := meanwhile t d in
  match control d with
  | None => (Err tt, d)
  | Some (true, _) => commit t Paused d d
  | Some (false, _) =>
      match pgmq_read (source d) locked seconds (clock t) with
      | (Some (id, r), q) => commit t (LeasedMessage id r) d (with_source q d)
      | (None, q) => commit t QueueEmpty d (with_source q d)
      end
  end.

(** ** Settling a lease *)
(** [fence_sql]: the row, if its read count is still the leased one. *)
Definition fence (id count : Z) (d : Db) : option Row := r ← rows (source d) !! id; if read_ct r =? count then Some r else None.
(** The deadline of the attempt bounds every transaction that settles it. *)
Definition settling {A} (c : PgmqJobConfig) (deadline at_ : Z) (op : ST Db unit A) : ST Db unit A := fun d =>
  match remaining_operation_budget deadline at_ (operation_timeout c) with Err _ => (Err tt, d) | Ok _ => op d end.
Definition archive_success c (id count deadline at_ : Z) (t : Turn) : ST Db unit unit := settling c deadline at_ (fun d =>
  let d := meanwhile t d in
  match fence id count d with
  | None => answer t (Ok tt) d
  | Some _ =>
      match pgmq_archive (source d) (archive d) id (clock t) with
      | None => (Err tt, d)
      | Some (q, a) => commit t tt d (with_archive a (with_source q d))
      end
  end).
Definition with_vt (at_ : Z) (r : Row) : Row :=
  {| read_ct := read_ct r; enqueued_at := enqueued_at r; vt := at_; message := message r; headers := headers r |}.
Definition change_visibility c (id count delay deadline at_ : Z) (t : Turn) : ST Db unit unit := settling c deadline at_ (fun d =>
  let d := meanwhile t d in
  match fence id count d with
  | None => answer t (Ok tt) d
  | Some r => commit t tt d (with_source (with_rows (<[id := with_vt (clock t + Duration.from_secs delay) r]> (rows (source d))) (source d)) d)
  end).
Definition terminal_transfer c (id count : Z) (m : Value) (deadline at_ : Z) (t : Turn) : ST Db unit unit := settling c deadline at_ (fun d =>
  let d := meanwhile t d in
  match fence id count d with
  | None => answer t (Ok tt) d
  | Some _ =>
      match pgmq_send (dead d) m (Some count) 0 (clock t) with
      | None => (Err tt, d)
      | Some (_, q) => commit t tt d (with_source (with_rows (delete id (rows (source d))) (source d)) (with_dead q d))
      end
  end).

(** ** An attempt *)
Inductive Plan := Transfer | Invoke (x : EncodedJobEnvelope) (attempt : Z).
Definition plan_attempt (r : Row) : result unit Plan :=
  if negb ((0 <=? read_ct r) && (read_ct r <=? u16_max)) then Err tt
  else if (read_ct r =? 0) || (max_attempts (POLICY J) <? read_ct r) then Ok Transfer
  else match restore (to_text (message r)) (policy_queue (POLICY J)) with
       | Ok x => if header_matches x && match decode J (bytes x) with Ok _ => true | Err _ => false end then Ok (Invoke x (read_ct r)) else Ok Transfer
       | Err _ => Ok Transfer
       end.
Inductive AttemptOutcome := HandlerDid (o : HandlerOutcome) | Panicked | TimedOut | AttemptCancelled.
(** How the future of the handler ends, and whether dropping it panics. *)
Inductive Ending := Finished | EndPanic | EndTimeout | EndCancelled.
Definition attempt_outcome (handler : J -> DeliveryContext -> HandlerOutcome) (x : EncodedJobEnvelope) (ctx : DeliveryContext) (e : Ending)
    (drop_panics : bool) : AttemptOutcome :=
  if drop_panics then Panicked
  else match e with
       | Finished => HandlerDid (handle handler x ctx)
       | EndPanic => Panicked
       | EndTimeout => TimedOut
       | EndCancelled => AttemptCancelled
       end.
Inductive Action := Archiving | Burying | Delaying (seconds : Z).
Definition settle_action (attempt sample : Z) (o : AttemptOutcome) : result unit Action :=
  match o with
  | HandlerDid Succeeded => Ok Archiving
  | HandlerDid (Permanent _) | Panicked => Ok Burying
  | HandlerDid (Retryable _) | TimedOut =>
      if max_attempts (POLICY J) <=? attempt then Ok Burying else (delay ← retry_delay_seconds J attempt sample; Ok (Delaying delay))
  | HandlerDid Cancelled | AttemptCancelled => Ok (Delaying 0)
  end.
Definition settle c (a : Action) (id count : Z) (m : Value) (deadline at_ : Z) (t : Turn) : ST Db unit unit :=
  match a with
  | Archiving => archive_success c id count deadline at_ t
  | Burying => terminal_transfer c id count m deadline at_ t
  | Delaying s => change_visibility c id count s deadline at_ t
  end.
Definition storage_deadline c (lease_started : Z) : Z := lease_started + timeout J + lease_grace c.
Definition deadline_after (now : OffsetDateTime) : OffsetDateTime := {| unix_nanos := unix_nanos now + timeout J; utc_offset := 0 |}.
(** One attempt: [at_] is when it comes to its storage, [run] what becomes of the handler. *)
Definition process_message c (run : EncodedJobEnvelope -> DeliveryContext -> AttemptOutcome) (cancelled : bool) (now : OffsetDateTime)
    (lease_started sample at_ id : Z) (r : Row) (t : Turn) : ST Db unit unit := fun d =>
  let until := storage_deadline c lease_started in
  match plan_attempt r with
  | Err _ => (Err tt, d)
  | Ok Transfer => terminal_transfer c id (read_ct r) (message r) until at_ t d
  | Ok (Invoke x attempt) =>
      match DeliveryContext_from x attempt cancelled (deadline_after now) with
      | Err _ => (Err tt, d)
      | Ok ctx =>
          match settle_action attempt sample (run x ctx) with
          | Err _ => (Err tt, d)
          | Ok a => settle c a id (read_ct r) (message r) until at_ t d
          end
      end
  end.

(** ** Administration *)
Inductive PgmqAdminError := InvalidLimit | RevisionConflict | NotPaused | RecordNotFound | CorruptRecord | AdminUnavailable.
Definition admin {A} (r : result unit A * Db) : result PgmqAdminError A * Db :=
  match r with (Ok a, d) => (Ok a, d) | (Err _, d) => (Err AdminUnavailable, d) end.
Definition set_paused (paused : bool) (expected : Z) (t : Turn) : ST Db PgmqAdminError (bool * Z) := fun d =>
  if expected <? 0 then (Err RevisionConflict, d) else
  let d := meanwhile t d in
  match fate t, control d with
  | Fails, _ | _, None => (Err AdminUnavailable, d)
  | _, Some (_, revision) =>
      if negb (revision =? expected) then (Err RevisionConflict, d)
      else if i64_max <? revision + 1 then (Err AdminUnavailable, d)
      else admin (commit t (paused, revision + 1) d
                    {| source := source d; dead := dead d; archive := archive d; control := Some (paused, revision + 1) |})
  end.
Fixpoint value_eqb (v w : Value) : bool :=
  let fix items (l m : list Value) : bool :=
    match l, m with [], [] => true | a :: l, b :: m => value_eqb a b && items l m | _, _ => false end in
  let fix members (l m : list (string * Value)) : bool :=
    match l, m with [], [] => true | (k, a) :: l, (k', b) :: m => bool_decide (k = k') && value_eqb a b && members l m | _, _ => false end in
  match v, w with
  | Null, Null => true
  | Bool a, Bool b => bool_decide (a = b)
  | Number a, Number b | Str a, Str b => bool_decide (a = b)
  | Array l, Array m => items l m
  | Object l, Object m => members l m
  | _, _ => false
  end.
Definition validate_replay_message (m : Value) : result PgmqAdminError Z :=
  _ ← guard_err (negb (is_object m)) CorruptRecord;
  _ ← guard_err (limits.ENVELOPE_BYTES <? len (to_text m)) CorruptRecord;
  x ← map_err (fun _ => CorruptRecord) (restore (to_text m) (policy_queue (POLICY J)));
  _ ← guard_err (negb (header_matches x)) CorruptRecord;
  typed ← map_err (fun _ => CorruptRecord) (decode J (bytes x));
  canonical ← map_err (fun _ => CorruptRecord) (encode typed);
  v ← ok_or (v ← from_slice (bytes canonical); Some (into_value v)) CorruptRecord;
  _ ← guard_err (negb (value_eqb v m)) CorruptRecord;
  Ok (job_id (header x)).
Record PgmqReplayReceipt := { rp_job_id : Z; prior_dead_message_id : Z; new_source_message_id : Z; rp_revision : Z }.
Definition replay_dead (dead_id expected : Z) (t : Turn) : ST Db PgmqAdminError PgmqReplayReceipt := fun d =>
  if expected <? 0 then (Err RevisionConflict, d)
  else if dead_id <=? 0 then (Err RecordNotFound, d) else
  let d := meanwhile t d in
  match fate t, control d with
  | Fails, _ | _, None => (Err AdminUnavailable, d)
  | _, Some (paused, revision) =>
      if negb (revision =? expected) then (Err RevisionConflict, d)
      else if negb paused then (Err NotPaused, d)
      else match rows (dead d) !! dead_id with
           | None => (Err RecordNotFound, d)
           | Some r =>
               if (jsonb_length (message r) <? 0) || (MAX_STORED_JSON_BYTES <? jsonb_length (message r)) then (Err CorruptRecord, d)
               else match validate_replay_message (message r) with
                    | Err e => (Err e, d)
                    | Ok job =>
                        match pgmq_send (source d) (message r) None 0 (clock t) with
                        | None => (Err AdminUnavailable, d)
                        | Some (id, q) =>
                            if id <=? 0 then (Err AdminUnavailable, d)
                            else admin (commit t {| rp_job_id := job; prior_dead_message_id := dead_id; new_source_message_id := id; rp_revision := revision |} d
                                          (with_dead (with_rows (delete dead_id (rows (dead d))) (dead d)) (with_source q d)))
                        end
                    end
           end
  end.
(** [message->>'name'] *)
Definition json_text (name : string) (v : Value) : option string :=
  match v with
  | Object l => match assoc name l with Some (Str s) => Some s | Some Null | None => None | Some w => Some (to_text w) end
  | _ => None
  end.
Record PgmqDeadRecord := { record_id : Z; dr_job_id : Z; dr_created_at : OffsetDateTime; failed_at : Z; dr_attempt : Z; envelope_bytes : Z }.
Definition dead_record (x : Z * Row) : result PgmqAdminError PgmqDeadRecord :=
  let r := x.2 in
  id ← ok_or (json_text "id" (message r)) CorruptRecord;
  job ← map_err (fun _ => CorruptRecord) (id_from_str id);
  text ← ok_or (json_text "created_at" (message r)) CorruptRecord;
  created ← ok_or (read_rfc3339 text) CorruptRecord;
  let historical := if (1 <=? read_ct r) && (read_ct r <=? max_attempts (POLICY J)) then read_ct r else max_attempts (POLICY J) in
  attempt ← match headers r with
            | Some a => if (0 <=? a) && (a <=? u16_max) then Ok a else Err CorruptRecord
            | None => Ok historical
            end;
  let bytes := jsonb_length (message r) in
  _ ← guard_err ((bytes <? 0) || (x.1 <=? 0) || (attempt =? 0) || (bytes =? 0) || (MAX_STORED_JSON_BYTES <? bytes)) CorruptRecord;
  Ok {| record_id := x.1; dr_job_id := job; dr_created_at := created; failed_at := enqueued_at r; dr_attempt := attempt; envelope_bytes := bytes |}.
Fixpoint collect_records (l : list (Z * Row)) : result PgmqAdminError (list PgmqDeadRecord) :=
  match l with [] => Ok [] | x :: l => r ← dead_record x; rest ← collect_records l; Ok (r :: rest) end.
Definition dead_records (limit : Z) (t : Turn) : ST Db PgmqAdminError (list PgmqDeadRecord) := fun d =>
  if negb ((1 <=? limit) && (limit <=? MAX_DEAD_RECORDS)) then (Err InvalidLimit, d)
  else match fate t with
       | Fails => (Err AdminUnavailable, d)
       | _ => (collect_records (take (Z.to_nat limit) (sort_by (by_key (fun x : Z * Row => (enqueued_at x.2, x.1))) (map_to_list (rows (dead d))))), d)
       end.
Record PgmqJobDiagnostics := {
  source_total : Z; source_visible : Z; source_leased : Z; source_delayed : Z;
  dead_total : Z; dead_visible : Z; completed : Z; oldest_age : option Z;
  diag_paused : bool; control_revision : Z;
}.
Definition count_rows (f : Row -> bool) (q : Table) : Z := Z.of_nat (length (filter (fun x : Z * Row => f x.2 = true) (map_to_list (rows q)))).
(** The age in milliseconds, which the client makes a duration of. *)
Definition oldest (now : Z) (q : Table) : option Z :=
  match map (fun x : Z * Row => enqueued_at x.2) (map_to_list (rows q)) with
  | [] => None
  | a :: l => Some (Duration.from_millis (Z.max 0 ((now - foldr Z.min a l) / 1000000)))
  end.
Definition diagnostics (t : Turn) : ST Db unit PgmqJobDiagnostics := fun d =>
  let now := clock t in
  match fate t, control d with
  | Fails, _ | _, None => (Err tt, d)
  | _, Some (paused, revision) =>
      let total := count_rows (fun _ => true) (source d) in
      let visible := count_rows (fun r => vt r <=? now) (source d) in
      let leased := count_rows (fun r => (now <? vt r) && (0 <? read_ct r)) (source d) in
      let delayed := count_rows (fun r => (now <? vt r) && (read_ct r =? 0)) (source d) in
      if negb (visible + leased + delayed =? total) || (revision <? 0) then (Err tt, d)
      else (Ok {| source_total := total; source_visible := visible; source_leased := leased; source_delayed := delayed;
                  dead_total := count_rows (fun _ => true) (dead d); dead_visible := count_rows (fun r => vt r <=? now) (dead d);
                  completed := Z.of_nat (size (archive d)); oldest_age := oldest now (source d); diag_paused := paused;
                  control_revision := revision |}, d)
  end.
Definition control_state (t : Turn) : ST Db PgmqAdminError (bool * Z) := fun d =>
  match fate t, control d with
  | Fails, _ | _, None => (Err AdminUnavailable, d)
  | _, Some (paused, revision) => if revision <? 0 then (Err AdminUnavailable, d) else (Ok (paused, revision), d)
  end.
(** ** Retention *)
Definition retention_nanos : Z := Duration.from_secs (retention_seconds (POLICY J)).
Definition expired_archives (batch now : Z) (a : Archive) : list (Z * Archived) :=
  take (Z.to_nat batch) (sort_by (by_key (fun x : Z * Archived => (archived_at x.2, x.1)))
    (filter (fun x => archived_at x.2 < now - retention_nanos) (map_to_list a))).
Definition expired_dead (batch now : Z) (q : gmap Z Row) : list (Z * Row) :=
  take (Z.to_nat batch) (sort_by (by_key (fun x : Z * Row => (enqueued_at x.2, x.1)))
    (filter (fun x => enqueued_at x.2 < now - retention_nanos /\ vt x.2 <= now) (map_to_list q))).
Inductive CleanupTarget := CompletedRecords | DeadRecords.
Definition cleanup_batch c (target : CleanupTarget) (t : Turn) : ST Db unit Z := fun d =>
  let d := meanwhile t d in
  match target with
  | CompletedRecords =>
      let l := expired_archives (cleanup_batch_size c) (clock t) (archive d) in
      commit t (Z.of_nat (length l)) d (with_archive (archive d ∖ list_to_map l) d)
  | DeadRecords =>
      let l := expired_dead (cleanup_batch_size c) (clock t) (rows (dead d)) in
      commit t (Z.of_nat (length l)) d (with_dead (with_rows (rows (dead d) ∖ list_to_map l) (dead d)) d)
  end.
Record PgmqCleanupResult := { completed_removed : Z; dead_removed : Z }.
(** One round of the loop: the clock before each of its two statements, and their turns.
    The loop answers [None] while it still runs after the rounds it is given. *)
Record CleanupRound := { first_at : Z; first_turn : Turn; second_at : Z; second_turn : Turn }.
Definition cleanup_part c (target : CleanupTarget) (deadline at_ : Z) (t : Turn) (drained : bool) : ST Db unit (Z * bool) := fun d =>
  if drained then (Ok (0, true), d)
  else if deadline <=? at_ then (Err tt, d)
  else match cleanup_batch c target t d with
       | (Err _, d) => (Err tt, d)
       | (Ok n, d) => (Ok (n, n <? cleanup_batch_size c), d)
       end.
Fixpoint cleanup_retention_until c (deadline : Z) (l : list CleanupRound) (archive_drained dead_drained : bool) (r : PgmqCleanupResult)
    : ST Db unit (option PgmqCleanupResult) := fun d =>
  if archive_drained && dead_drained then (Ok (Some r), d)
  else match l with
  | [] => (Ok None, d)
  | x :: l =>
      if deadline <=? first_at x then (Ok (Some r), d)
      else match cleanup_part c CompletedRecords deadline (first_at x) (first_turn x) archive_drained d with
           | (Err _, d) => (Err tt, d)
           | (Ok (n, archive_drained), d) =>
               let r := {| completed_removed := saturating_add u64_max (completed_removed r) n; dead_removed := dead_removed r |} in
               if deadline <=? second_at x then (Ok (Some r), d)
               else match cleanup_part c DeadRecords deadline (second_at x) (second_turn x) dead_drained d with
                    | (Err _, d) => (Err tt, d)
                    | (Ok (n, dead_drained), d) =>
                        cleanup_retention_until c deadline l archive_drained dead_drained
                          {| completed_removed := completed_removed r; dead_removed := saturating_add u64_max (dead_removed r) n |} d
                    end
           end
  end.
End provider.
