(* ===== verification/PgmqTheorems.v ===== *)
(** * Jobs on PGMQ are neither lost nor run too often

    A [System] is the database, its clock, the attempts in flight in any number of
    workers, and a history: what was sent to the source queue, which attempts started and
    succeeded, and where messages went.  A [step] is one transaction of the provider or
    one local step of a worker; a worker that dies drops its attempts.  A transaction may
    fail, or commit unseen. *)
From S2P Require Import Prelude Machine Text Ordered JsonShape JobPolicy JobBackoff JobWire JobTheorems Pgmq.
From Stdlib Require Import Ascii.

(** ** What PGMQ promises *)
Definition fresh_row (m : Value) (h : option Z) (delay now : Z) : Row :=
  {| read_ct := 0; enqueued_at := now; vt := now + Duration.from_secs delay; message := m; headers := h |}.
Definition leased_row (seconds now : Z) (r : Row) : Row :=
  {| read_ct := read_ct r + 1; enqueued_at := enqueued_at r; vt := now + Duration.from_secs seconds; message := message r; headers := headers r |}.
Class PgmqLaws `{Pgmq} := {
  (** what a value sent as [jsonb] is read back as; the second time it is itself *)
  stored : Value -> Value -> Prop;
  stored_again v m m' : stored v m -> stored m m' -> m' = m;
  send_law q v h delay now id q' : pgmq_send q v h delay now = Some (id, q') ->
    Z.max 0 (issued q) < id /\ exists m, stored v m /\ q' = {| rows := <[id := fresh_row m h delay now]> (rows q); issued := id |};
  read_some q locked s now id r q' : pgmq_read q locked s now = (Some (id, r), q') ->
    exists r0, rows q !! id = Some r0 /\ vt r0 <= now /\ (id ∉ locked) /\ r = leased_row s now r0 /\ q' = with_rows (<[id := r]> (rows q)) q;
  read_none q locked s now q' : pgmq_read q locked s now = (None, q') ->
    q' = q /\ forall id r, rows q !! id = Some r -> id ∉ locked -> now < vt r;
  archive_law q a id now : pgmq_archive q a id now =
    (rows q !! id) ≫= (fun r => Some (with_rows (delete id (rows q)) q, <[id := {| ar_row := r; archived_at := now |}]> a));
}.

Section system.
Context `{SerdeJson} `{UuidText} `{PgmqLaws} {J : Type} `{!Job J}.
Implicit Types (c : PgmqJobConfig) (t : Turn) (d : Db).
(** ** The system *)
Inductive Phase := AtLease | AtHandler | AtStorage (a : Action).
Record Flight := { fl_id : Z; fl_row : Row; fl_phase : Phase }.
Definition key (f : Flight) : Z * Z := (fl_id f, read_ct (fl_row f)).
Record Burial := { b_source : Z; b_count : Z; b_dead : Z; b_message : Value }.
(** A record removed by retention: since when it was kept and when it was removed. *)
Record Removal := { rm_id : Z; rm_since : Z; rm_at : Z }.
Record System := {
  db : Db;
  now : Z;
  flights : list Flight;
  sent : list (Z * Value);
  started : list (Z * Z);
  succeeded : list (Z * Z);
  burials : list Burial;
  replays : list (Z * Z);
  gone_archive : list Removal;
  gone_dead : list Removal;
}.
Definition calm t : Prop := forall d, meanwhile t d = d.
(** What a transaction sent to the source queue. *)
Definition newly_sent (d d' : Db) : list (Z * Value) :=
  if issued (source d') =? issued (source d) then []
  else match rows (source d') !! issued (source d') with Some r => [(issued (source d'), message r)] | None => [] end.
Definition newly_buried (f : Flight) (d d' : Db) : list Burial :=
  if issued (dead d') =? issued (dead d) then []
  else [{| b_source := fl_id f; b_count := read_ct (fl_row f); b_dead := issued (dead d'); b_message := message (fl_row f) |}].
Definition removed_archives (at_ : Z) (d d' : Db) : list Removal :=
  map (fun x => {| rm_id := x.1; rm_since := archived_at x.2; rm_at := at_ |}) (map_to_list (archive d ∖ archive d')).
Definition removed_dead (at_ : Z) (d d' : Db) : list Removal :=
  map (fun x => {| rm_id := x.1; rm_since := enqueued_at x.2; rm_at := at_ |}) (map_to_list (rows (dead d) ∖ rows (dead d'))).
Definition with_flights (l : list Flight) (x : System) : System :=
  {| db := db x; now := now x; flights := l; sent := sent x; started := started x; succeeded := succeeded x; burials := burials x;
     replays := replays x; gone_archive := gone_archive x; gone_dead := gone_dead x |}.
Definition with_db (d : Db) (at_ : Z) (x : System) : System :=
  {| db := d; now := at_; flights := flights x; sent := newly_sent (db x) d ++ sent x; started := started x; succeeded := succeeded x;
     burials := burials x; replays := replays x; gone_archive := gone_archive x; gone_dead := gone_dead x |}.

Inductive step (x : System) : System -> Prop :=
| do_enqueue e at_utc t r d' : calm t -> now x <= clock t -> enqueue_with (J := J) e at_utc t (db x) = (r, d') -> step x (with_db d' (clock t) x)
| do_lease c s locked t r d' : calm t -> now x <= clock t -> lease_seconds J c = Ok s -> lease_source s locked t (db x) = (r, d') ->
    step x (with_flights (match r with Ok (LeasedMessage id row) => {| fl_id := id; fl_row := row; fl_phase := AtLease |} :: flights x | _ => flights x end)
              (with_db d' (clock t) x))
| do_invoke l1 f l2 e n : flights x = l1 ++ f :: l2 -> fl_phase f = AtLease -> plan_attempt (J := J) (fl_row f) = Ok (Invoke e n) ->
    step x {| db := db x; now := now x; flights := l1 ++ {| fl_id := fl_id f; fl_row := fl_row f; fl_phase := AtHandler |} :: l2; sent := sent x;
              started := (fl_id f, n) :: started x; succeeded := succeeded x; burials := burials x; replays := replays x;
              gone_archive := gone_archive x; gone_dead := gone_dead x |}
| do_finish l1 f l2 o sample a : flights x = l1 ++ f :: l2 -> fl_phase f = AtHandler -> settle_action (J := J) (read_ct (fl_row f)) sample o = Ok a ->
    step x {| db := db x; now := now x; flights := l1 ++ {| fl_id := fl_id f; fl_row := fl_row f; fl_phase := AtStorage a |} :: l2; sent := sent x;
              started := started x; succeeded := match o with HandlerDid Succeeded => key f :: succeeded x | _ => succeeded x end;
              burials := burials x; replays := replays x; gone_archive := gone_archive x; gone_dead := gone_dead x |}
| do_settle l1 f l2 c a deadline at_ t r d' : flights x = l1 ++ f :: l2 ->
    fl_phase f = AtStorage a \/ fl_phase f = AtLease /\ plan_attempt (J := J) (fl_row f) = Ok Transfer /\ a = Burying ->
    calm t -> now x <= clock t -> settle c a (fl_id f) (read_ct (fl_row f)) (message (fl_row f)) deadline at_ t (db x) = (r, d') ->
    step x {| db := d'; now := clock t; flights := l1 ++ l2; sent := sent x; started := started x; succeeded := succeeded x;
              burials := newly_buried f (db x) d' ++ burials x; replays := replays x; gone_archive := gone_archive x; gone_dead := gone_dead x |}
| do_drop l1 f l2 : flights x = l1 ++ f :: l2 -> step x (with_flights (l1 ++ l2) x)
| do_pause paused revision t r d' : calm t -> now x <= clock t -> set_paused paused revision t (db x) = (r, d') -> step x (with_db d' (clock t) x)
| do_replay id revision t r d' : calm t -> now x <= clock t -> replay_dead (J := J) id revision t (db x) = (r, d') ->
    step x {| db := d'; now := clock t; flights := flights x; sent := newly_sent (db x) d' ++ sent x; started := started x; succeeded := succeeded x;
              burials := burials x; replays := map (fun s => (id, s.1)) (newly_sent (db x) d') ++ replays x; gone_archive := gone_archive x;
              gone_dead := gone_dead x |}
| do_cleanup c target t r d' : calm t -> now x <= clock t -> cleanup_batch (J := J) c target t (db x) = (r, d') ->
    step x {| db := d'; now := clock t; flights := flights x; sent := sent x; started := started x; succeeded := succeeded x; burials := burials x;
              replays := replays x; gone_archive := removed_archives (clock t) (db x) d' ++ gone_archive x;
              gone_dead := removed_dead (clock t) (db x) d' ++ gone_dead x |}.
Definition empty_table : Table := {| rows := ∅; issued := 0 |}.
(** What provisioning leaves. *)
Definition provisioned (at_ : Z) : System :=
  {| db := {| source := empty_table; dead := empty_table; archive := ∅; control := Some (false, 0) |}; now := at_; flights := []; sent := [];
     started := []; succeeded := []; burials := []; replays := []; gone_archive := []; gone_dead := [] |}.
Definition reachable (x : System) : Prop := exists at_, rtc step (provisioned at_) x.

(** ** What the transactions do *)
Lemma commit_cases {A} t (a : A) d d1 r d' : commit t a d d1 = (r, d') -> d' = d /\ r = Err tt \/ d' = d1 /\ (r = Ok a \/ r = Err tt).
Proof. unfold commit. destruct (fate t); intros [= <- <-]; auto. Qed.
Lemma answer_same {A} t (a : result unit A) d r d' : answer t a d = (r, d') -> d' = d.
Proof. unfold answer. by destruct (fate t); intros [= <- <-]. Qed.
Lemma settling_cases {A} c deadline at_ (op : ST Db unit A) d r d' : settling c deadline at_ op d = (r, d') -> d' = d \/ op d = (r, d').
Proof. unfold settling. destruct (remaining_operation_budget _ _ _); [by right|]. intros [= <- <-]. by left. Qed.
(** A transaction that settles a lease changes nothing, or owns the row it settles. *)
Definition settled (a : Action) (id n : Z) (m : Value) (at_ : Z) (row : Row) (d d' : Db) : Prop :=
  match a with
  | Archiving => d' = with_archive (<[id := {| ar_row := row; archived_at := at_ |}]> (archive d)) (with_source (with_rows (delete id (rows (source d))) (source d)) d)
  | Burying => exists did m', Z.max 0 (issued (dead d)) < did /\ stored m m'
      /\ d' = with_source (with_rows (delete id (rows (source d))) (source d))
               (with_dead {| rows := <[did := fresh_row m' (Some n) 0 at_]> (rows (dead d)); issued := did |} d)
  | Delaying s => d' = with_source (with_rows (<[id := with_vt (at_ + Duration.from_secs s) row]> (rows (source d))) (source d)) d
  end.
Lemma fence_Some id n d row : fence id n d = Some row <-> rows (source d) !! id = Some row /\ read_ct row = n.
Proof.
  unfold fence. destruct (rows (source d) !! id) as [r|]; cbn; [|naive_solver]. destruct (Z.eqb_spec (read_ct r) n); naive_solver.
Qed.
Lemma settle_cases c a id n m deadline at_ t d r d' : calm t -> settle c a id n m deadline at_ t d = (r, d') ->
  d' = d \/ exists row, rows (source d) !! id = Some row /\ read_ct row = n /\ settled a id n m (clock t) row d d'.
Proof.
  intros Hc Hs. destruct a; apply settling_cases in Hs as [->|Hs]; auto; cbv zeta in Hs; rewrite Hc in Hs;
    (destruct (fence id n d) as [row|] eqn:Ef; [apply fence_Some in Ef as [Hr Hn] | apply answer_same in Hs; auto]).
  - rewrite archive_law, Hr in Hs. cbn in Hs. apply commit_cases in Hs as [[-> _]|[-> _]]; [auto|]. right. by exists row.
  - destruct (pgmq_send _ _ _ _ _) as [[did q]|] eqn:Es; [|injection Hs as <- <-; auto]. apply send_law in Es as (Hd & m' & Hm & ->).
    apply commit_cases in Hs as [[-> _]|[-> _]]; [auto|]. right. exists row. split_and!; try done. by exists did, m'.
  - apply commit_cases in Hs as [[-> _]|[-> _]]; [auto|]. right. by exists row.
Qed.
Lemma lease_cases s locked t d r d' : calm t -> lease_source s locked t d = (r, d') ->
  (d' = d /\ forall id row, r <> Ok (LeasedMessage id row))
  \/ exists id r0, rows (source d) !! id = Some r0 /\ vt r0 <= clock t /\ control d <> None
     /\ d' = with_source (with_rows (<[id := leased_row s (clock t) r0]> (rows (source d))) (source d)) d
     /\ forall id' row, r = Ok (LeasedMessage id' row) -> id' = id /\ row = leased_row s (clock t) r0.
Proof.
  intros Hc Hl. unfold lease_source in Hl. cbv zeta in Hl. rewrite Hc in Hl. destruct (control d) as [[[] rev]|] eqn:Ec.
  - left. unfold commit in Hl. destruct (fate t); injection Hl as <- <-; by split.
  - destruct (pgmq_read _ _ _ _) as [[[id row]|] q] eqn:Er.
    + apply read_some in Er as (r0 & Hr & Hv & _ & -> & ->). apply commit_cases in Hl as [[-> ->]|[-> Hok]]; [by left|]. right. exists id, r0. split_and!; try done.
      intros id' row' ->. by destruct Hok as [[= <- <-]|].
    + apply read_none in Er as [-> _]. left. apply commit_cases in Hl as [[-> ->]|[-> [->| ->]]]; (split; [|done]); [done|by destruct d..].
  - injection Hl as <- <-. by left.
Qed.
(** Sending to the source queue. *)
Definition sends (d d' : Db) (v : Value) (at_ delay : Z) : Prop :=
  exists id m, Z.max 0 (issued (source d)) < id /\ stored v m
    /\ source d' = {| rows := <[id := fresh_row m None delay at_]> (rows (source d)); issued := id |} /\ archive d' = archive d.
Lemma enqueue_cases e at_utc t d r d' : calm t -> enqueue_with (J := J) e at_utc t d = (r, d') ->
  d' = d \/ exists v delay, sends d d' v (clock t) delay /\ dead d' = dead d.
Proof.
  intros Hc He. unfold enqueue_with in He. destruct (prepare_enqueue e at_utc) as [p|]; [|injection He as <- <-; auto]. cbv zeta in He. rewrite Hc in He.
  destruct (pgmq_send _ _ _ _ _) as [[id q]|] eqn:Es; [|injection He as <- <-; auto]. apply send_law in Es as (Hid & m & Hm & ->).
  destruct (commit _ _ _ _) as [r0 d0] eqn:Ec. apply commit_cases in Ec as [[-> ->]|[-> Hr]]; [injection He as <- <-; auto|].
  right. exists (prepared_message p), (delay_seconds p). split; [|by destruct r0; injection He as <- <-]. exists id, m. by destruct r0; injection He as <- <-.
Qed.
Lemma replay_cases id rev t d r d' : calm t -> replay_dead (J := J) id rev t d = (r, d') ->
  d' = d \/ exists row, rows (dead d) !! id = Some row /\ control d = Some (true, rev) /\ sends d d' (message row) (clock t) 0
     /\ dead d' = with_rows (delete id (rows (dead d))) (dead d).
Proof.
  intros Hc He. unfold replay_dead in He. destruct (rev <? 0); [injection He as <- <-; auto|]. destruct (id <=? 0); [injection He as <- <-; auto|].
  cbv zeta in He. rewrite Hc in He.
  destruct (fate t) eqn:Ef; [|injection He as <- <-; auto|].
  all: destruct (control d) as [[paused revision]|] eqn:Ect; [|injection He as <- <-; auto].
  all: destruct (Z.eqb_spec revision rev) as [->|]; cbn [negb] in He; [|injection He as <- <-; auto].
  all: destruct paused; cbn [negb] in He; [|injection He as <- <-; auto].
  all: destruct (rows (dead d) !! id) as [row|] eqn:Er; [|injection He as <- <-; auto].
  all: destruct (_ || (MAX_STORED_JSON_BYTES <? _)); [injection He as <- <-; auto|].
  all: destruct (validate_replay_message _) as [job|]; [|injection He as <- <-; auto].
  all: destruct (pgmq_send _ _ _ _ _) as [[id' q]|] eqn:Es; [|injection He as <- <-; auto]; apply send_law in Es as (Hid & m & Hm & ->).
  all: destruct (id' <=? 0); [injection He as <- <-; auto|].
  all: destruct (commit _ _ _ _) as [r0 d0] eqn:Ec; apply commit_cases in Ec as [[-> ->]|[-> Hr]]; [injection He as <- <-; auto|].
  all: right; exists row; (split; [done|]); (split; [done|]).
  all: split; [exists id', m; by destruct r0; injection He as <- <- | by destruct r0; injection He as <- <-].
Qed.
Lemma pause_cases paused rev t d r d' : calm t -> set_paused paused rev t d = (r, d') ->
  source d' = source d /\ dead d' = dead d /\ archive d' = archive d.
Proof.
  intros Hc He. unfold set_paused in He. destruct (rev <? 0); [by injection He as <- <-|]. cbv zeta in He. rewrite Hc in He.
  destruct (fate t) eqn:Ef, (control d) as [[b revision]|]; try (by injection He as <- <-).
  all: destruct (negb _); [by injection He as <- <-|]; destruct (i64_max <? _); [by injection He as <- <-|].
  all: unfold admin, commit in He; rewrite Ef in He; by injection He as <- <-.
Qed.
Lemma cleanup_cases c target t d r d' : calm t -> cleanup_batch (J := J) c target t d = (r, d') ->
  source d' = source d /\ issued (dead d') = issued (dead d)
  /\ (forall id ar, archive d !! id = Some ar -> archive d' !! id = Some ar \/ archive d' !! id = None /\ archived_at ar < clock t - retention_nanos (J := J))
  /\ (forall id ar, archive d' !! id = Some ar -> archive d !! id = Some ar)
  /\ (forall id row, rows (dead d) !! id = Some row ->
        rows (dead d') !! id = Some row \/ rows (dead d') !! id = None /\ enqueued_at row < clock t - retention_nanos (J := J))
  /\ (forall id row, rows (dead d') !! id = Some row -> rows (dead d) !! id = Some row).
Proof.
  intros Hc He. unfold cleanup_batch in He. cbv zeta in He. rewrite Hc in He. destruct target; apply commit_cases in He as [[-> _]|[-> _]]; try (by split_and!; auto).
  - split_and!; cbn; auto; intros id ar Ha; [|by apply lookup_difference_Some in Ha as [? _]]. rewrite lookup_difference. destruct (list_to_map _ !! id) eqn:E; [|by left].
    right. split; [done|]. apply elem_of_list_to_map_2, sort_take_elem, list_elem_of_filter in E as [Hx Hin]. apply elem_of_map_to_list in Hin. cbn in Hx, Hin. congruence.
  - split_and!; cbn; auto; intros id row Ha; [|by apply lookup_difference_Some in Ha as [? _]]. rewrite lookup_difference. destruct (list_to_map _ !! id) eqn:E; [|by left].
    right. split; [done|]. apply elem_of_list_to_map_2, sort_take_elem, list_elem_of_filter in E as [[Hx _] Hin]. apply elem_of_map_to_list in Hin. cbn in Hx, Hin. congruence.
Qed.

(** ** The first invariant: identifiers, read counts and leases *)
Definition flight_ok (d : Db) (at_ : Z) (f : Flight) : Prop :=
  fl_id f <= issued (source d) /\ 1 <= read_ct (fl_row f) /\ (exists v, stored v (message (fl_row f)))
  /\ (forall r, rows (source d) !! fl_id f = Some r -> read_ct (fl_row f) <= read_ct r /\ message r = message (fl_row f))
  /\ (at_ < vt (fl_row f) -> rows (source d) !! fl_id f = Some (fl_row f)).
Definition row_ok (d : Db) (snt : list (Z * Value)) (id : Z) (r : Row) : Prop :=
  id <= issued (source d) /\ 0 <= read_ct r /\ (exists v, stored v (message r)) /\ (id, message r) ∈ snt.
Definition start_ok (d : Db) (s : Z * Z) : Prop :=
  s.1 <= issued (source d) /\ 1 <= s.2 <= max_attempts (POLICY J) /\ forall r, rows (source d) !! s.1 = Some r -> s.2 <= read_ct r.
Record Inv (d : Db) (at_ : Z) (fl : list Flight) (snt : list (Z * Value)) (st su : list (Z * Z)) : Prop := {
  inv_issued : 0 <= issued (source d);
  inv_rows : forall id r, rows (source d) !! id = Some r -> row_ok d snt id r;
  inv_sent : NoDup snt.*1 /\ forall p, p ∈ snt -> p.1 <= issued (source d);
  inv_flights : forall f, f ∈ fl -> flight_ok d at_ f;
  inv_keys : NoDup (map key fl);
  inv_started : NoDup st /\ forall s, s ∈ st -> start_ok d s;
  inv_waiting : forall f, f ∈ fl -> fl_phase f = AtLease -> key f ∉ st;
  inv_success : forall f, f ∈ fl -> fl_phase f = AtStorage Archiving -> key f ∈ su;
}.
(** The source queue after a step: rows go, are counted on, or are new. *)
Definition grows (d d' : Db) : Prop :=
  issued (source d) <= issued (source d') /\ forall id r', rows (source d') !! id = Some r' ->
    match rows (source d) !! id with
    | Some r => read_ct r <= read_ct r' /\ message r' = message r
    | None => issued (source d) < id /\ id = issued (source d') /\ read_ct r' = 0 /\ exists v, stored v (message r')
    end.
Lemma inv_grow d d' at_ at_' fl snt st su : Inv d at_ fl snt st su -> at_ <= at_' -> grows d d' ->
  (forall f, f ∈ fl -> at_' < vt (fl_row f) -> rows (source d') !! fl_id f = Some (fl_row f)) ->
  Inv d' at_' fl (newly_sent d d' ++ snt) st su.
Proof.
  intros [I1 I2 [I3 I3'] I4 I5 [I6 I6'] I7 I8] Hat [Hi Hg] Hex.
  assert (Hnew : newly_sent d d' = [] \/ exists m, newly_sent d d' = [(issued (source d'), m)] /\ issued (source d) < issued (source d')).
  { unfold newly_sent. destruct (Z.eqb_spec (issued (source d')) (issued (source d))); [auto|]. destruct (rows _ !! _); [right; eexists; split; [done|lia] | auto]. }
  split; try done; [lia|..].
  - intros id r' Hr. specialize (Hg id r' Hr). destruct (rows (source d) !! id) as [r|] eqn:Er.
    + destruct (I2 id r Er) as (A1 & A2 & A3 & A4). destruct Hg as [G1 G2]. unfold row_ok. rewrite G2. split_and!; [lia|lia|done|]. apply elem_of_app. auto.
    + destruct Hg as (G1 & -> & G3 & G4). split_and!; [lia|lia|done|]. apply elem_of_app. left. unfold newly_sent. rewrite (proj2 (Z.eqb_neq _ _)) by lia. rewrite Hr. by apply list_elem_of_singleton.
  - assert (Hle : forall p, p ∈ snt -> p.1 <= issued (source d)) by done. destruct Hnew as [->|(m & -> & Hlt)]; cbn; [split; [done|intros p Hp; specialize (Hle p Hp); lia]|].
    split; [|intros p [->|Hp]%elem_of_cons; [cbn; lia | specialize (Hle p Hp); lia]]. apply NoDup_cons. split; [|done].
    intros (p & E & Hp)%list_elem_of_fmap. specialize (Hle p Hp). lia.
  - intros f Hf. destruct (I4 f Hf) as (A1 & A2 & A3 & A4 & A5). split_and!; [lia|done|done| |by apply Hex]. intros r' Hr. specialize (Hg _ _ Hr).
    destruct (rows (source d) !! fl_id f) as [r|]; [|lia]. destruct (A4 r eq_refl), Hg. split; [lia|congruence].
  - split; [done|]. intros s Hs. destruct (I6' s Hs) as (A1 & A2 & A3). split_and!; [lia|lia|lia|]. intros r' Hr. specialize (Hg _ _ Hr).
    destruct (rows (source d) !! s.1) as [r|]; [|lia]. specialize (A3 r eq_refl). destruct Hg. lia.
Qed.
Lemma newly_sent_none d d' : issued (source d') = issued (source d) -> newly_sent d d' = [].
Proof. intros E. unfold newly_sent. by rewrite E, Z.eqb_refl. Qed.
Lemma grows_same d d' : source d' = source d -> grows d d'.
Proof. intros E. unfold grows. rewrite E. split; [lia|]. intros id r ->. by split. Qed.
Lemma grows_sends d d' v at_ delay : (forall id r, rows (source d) !! id = Some r -> id <= issued (source d)) -> sends d d' v at_ delay -> grows d d'.
Proof.
  intros Hi (id & m & Hid & Hm & Es & _). unfold grows. rewrite Es. cbn. split; [lia|]. intros id' r' [[<- <-]|[Hne Hr]]%lookup_insert_Some.
  - destruct (rows (source d) !! id) as [r|] eqn:Er; [specialize (Hi _ _ Er); lia|]. cbn. split_and!; [lia|done|done|by eexists].
  - by rewrite Hr.
Qed.
Lemma grows_put d d' id r r' : rows (source d) !! id = Some r -> source d' = with_rows (<[id := r']> (rows (source d))) (source d) ->
  read_ct r <= read_ct r' -> message r' = message r -> grows d d'.
Proof.
  intros Hr Es Hc Hm. unfold grows. rewrite Es. cbn. split; [lia|]. intros id' r1 [[<- <-]|[Hne H']]%lookup_insert_Some; [by rewrite Hr | by rewrite H'].
Qed.
Lemma grows_delete d d' id : source d' = with_rows (delete id (rows (source d))) (source d) -> grows d d'.
Proof. intros Es. unfold grows. rewrite Es. cbn. split; [lia|]. intros id' r1 [_ H']%lookup_delete_Some. by rewrite H'. Qed.
Lemma settled_grows a id n m at_ row d d' : rows (source d) !! id = Some row -> settled a id n m at_ row d d' ->
  grows d d' /\ issued (source d') = issued (source d) /\ forall id', id' <> id -> rows (source d') !! id' = rows (source d) !! id'.
Proof.
  intros Hr Hs. destruct a; cbn in Hs; [subst d'|destruct Hs as (did & m' & _ & _ & ->)|subst d']; cbn; split_and!; try done;
    try (by eapply grows_delete); try (intros id' Hne; by rewrite ?lookup_delete_ne, ?lookup_insert_ne).
  by eapply grows_put.
Qed.
Lemma inv_fewer d at_ fl fl' snt st su : Inv d at_ fl snt st su -> sublist fl' fl -> Inv d at_ fl' snt st su.
Proof.
  intros [I1 I2 I3 I4 I5 I6 I7 I8] Hs. assert (Hin : forall f, f ∈ fl' -> f ∈ fl) by (intros f Hf; by eapply elem_of_sublist).
  split; auto. eapply sublist_NoDup; [exact I5|]. by apply (fmap_sublist key).
Qed.
Lemma drop_sublist {A} (l1 : list A) f l2 : sublist (l1 ++ l2) (l1 ++ f :: l2).
Proof. apply sublist_app; [done|]. by apply sublist_cons. Qed.
(** Another flight has another key, and its row is not the one that is settled. *)
Lemma other_flight d at_ l1 f l2 snt st su g : Inv d at_ (l1 ++ f :: l2) snt st su -> g ∈ l1 ++ l2 -> key g <> key f.
Proof.
  intros Hi Hg E. pose proof (inv_keys _ _ _ _ _ _ Hi) as Hn. rewrite map_app in Hn. cbn in Hn. apply NoDup_app in Hn as (N1 & N2 & N3%NoDup_cons).
  apply elem_of_app in Hg as [Hg|Hg]; apply (list_elem_of_fmap_2 key) in Hg; rewrite E in Hg.
  - apply (N2 (key f)); [done|]. by left.
  - by destruct N3.
Qed.
Lemma pgmq_inv_settle d d' at_ at_' l1 f l2 snt st su a m c deadline lt t r : Inv d at_ (l1 ++ f :: l2) snt st su -> at_ <= at_' -> clock t = at_' -> calm t ->
  settle c a (fl_id f) (read_ct (fl_row f)) m deadline lt t d = (r, d') -> Inv d' at_' (l1 ++ l2) snt st su.
Proof.
  intros Hi Hat <- Hc Hs. assert (Hi' : Inv d at_ (l1 ++ l2) snt st su) by (eapply inv_fewer; [exact Hi | apply drop_sublist]).
  assert (Hex : forall g, g ∈ l1 ++ l2 -> clock t < vt (fl_row g) -> rows (source d) !! fl_id g = Some (fl_row g)) by (intros g Hg Hv; apply (inv_flights _ _ _ _ _ _ Hi' g Hg); lia).
  apply settle_cases in Hs as [->|(row & Hr & Hn & Hs)]; [| |done].
  - pose proof (inv_grow d d at_ (clock t) _ _ _ _ Hi' Hat (grows_same d d eq_refl) Hex) as Hg. by rewrite newly_sent_none in Hg.
  - destruct (settled_grows _ _ _ _ _ _ _ _ Hr Hs) as (G1 & G2 & G3). rewrite <- (app_nil_l snt). rewrite <- (newly_sent_none d d' G2). apply (inv_grow d d' at_); try done.
    intros g Hg Hv. destruct (decide (fl_id g = fl_id f)) as [E|E]; [|by rewrite G3; [apply Hex|]]. exfalso. specialize (Hex g Hg Hv).
    apply (other_flight _ _ _ _ _ _ _ _ g Hi Hg). unfold key. rewrite E, Hr in Hex. injection Hex as ->. by rewrite E, Hn.
Qed.
Lemma inv_lease d d' at_ fl snt st su s locked t r : Inv d at_ fl snt st su -> at_ <= clock t -> calm t -> lease_source s locked t d = (r, d') ->
  Inv d' (clock t) (match r with Ok (LeasedMessage id row) => {| fl_id := id; fl_row := row; fl_phase := AtLease |} :: fl | _ => fl end) (newly_sent d d' ++ snt) st su.
Proof.
  intros Hi Hat Hc Hs.
  assert (Hex : forall g, g ∈ fl -> clock t < vt (fl_row g) -> rows (source d) !! fl_id g = Some (fl_row g)) by (intros g Hg Hv; apply (inv_flights _ _ _ _ _ _ Hi g Hg); lia).
  apply lease_cases in Hs as [[-> Hno]|(id & r0 & Hr & Hv & _ & -> & Hl)]; [| |done].
  - assert (Hg : Inv d (clock t) fl (newly_sent d d ++ snt) st su) by (by eapply inv_grow; [..|apply grows_same|]). destruct r as [[]|]; try done. by destruct (Hno id r).
  - set (d' := with_source _ d).
    assert (Hg : Inv d' (clock t) fl (newly_sent d d' ++ snt) st su).
    { eapply inv_grow; [done|done| |].
      - eapply grows_put; [exact Hr|done|cbn; lia|done].
      - intros g Hg Hvg. specialize (Hex g Hg Hvg). cbn. rewrite lookup_insert_ne; [done|]. intros E. rewrite <- E, Hr in Hex. injection Hex as ->. lia. }
    destruct r as [[id' row| |]|]; try done. destruct (Hl id' row eq_refl) as [-> ->]. clear Hl.
    destruct (inv_rows _ _ _ _ _ _ Hi id r0 Hr) as (R1 & R2 & R3 & R4).
    assert (Hfl : forall g, g ∈ fl -> fl_id g = id -> read_ct (fl_row g) <= read_ct r0) by (intros g Hin <-; by apply (inv_flights _ _ _ _ _ _ Hi g Hin)).
    assert (Hst : forall n, (id, n) ∈ st -> n <= read_ct r0) by (intros n Hin; by apply (proj2 (inv_started _ _ _ _ _ _ Hi) (id, n) Hin)).
    destruct Hg as [I1 I2 I3 I4 I5 I6 I7 I8]. split; try done.
    + intros g [->|Hin]%elem_of_cons; [|by apply I4]. unfold flight_ok. cbn. split_and!; [lia|lia|done| |]; rewrite lookup_insert_eq; [|done]. intros r1 [= <-]. cbn. split; [lia|done].
    + cbn. apply NoDup_cons. split; [|done]. intros (g & E & Hin)%list_elem_of_fmap. unfold key in E. cbn in E. injection E as E1 E2. specialize (Hfl g Hin (eq_sym E1)). lia.
    + intros g [->|Hin]%elem_of_cons Hp; [|by apply I7]. unfold key. cbn. intros Hin%Hst. lia.
    + intros g [->|Hin]%elem_of_cons Hp; [done | by apply I8].
Qed.
Lemma inv_phase d at_ l1 f f' l2 snt st st' su su' : Inv d at_ (l1 ++ f :: l2) snt st su -> fl_id f' = fl_id f -> fl_row f' = fl_row f ->
  fl_phase f' <> AtLease -> (fl_phase f' = AtStorage Archiving -> key f ∈ su') -> su ⊆ su' -> NoDup st' -> (forall s, s ∈ st' -> start_ok d s) ->
  (forall g, g ∈ l1 ++ l2 -> fl_phase g = AtLease -> key g ∉ st') -> Inv d at_ (l1 ++ f' :: l2) snt st' su'.
Proof.
  intros [I1 I2 I3 I4 I5 I6 I7 I8] Ei Er Hp Ha Hsu Hn Hs Hw. assert (Ek : key f' = key f) by (unfold key; congruence).
  assert (Hcase : forall g, g ∈ l1 ++ f' :: l2 -> g = f' \/ g ∈ l1 ++ l2 /\ g ∈ l1 ++ f :: l2) by (intros g; rewrite !elem_of_app, !elem_of_cons; tauto).
  assert (Hf : f ∈ l1 ++ f :: l2) by (rewrite elem_of_app, elem_of_cons; auto). split; try done.
  - intros g [->|[_ Hg]]%Hcase; [|by apply I4]. specialize (I4 f Hf). unfold flight_ok in *. by rewrite Ei, Er.
  - rewrite map_app in *. cbn in *. by rewrite Ek.
  - intros g [->|[Hg _]]%Hcase Hph; [done | by apply Hw].
  - intros g [->|[_ Hg]]%Hcase Hph; [rewrite Ek; by apply Ha | by apply Hsu, I8].
Qed.
Lemma admit_invoke r e n : plan_attempt (J := J) r = Ok (Invoke e n) -> n = read_ct r /\ 1 <= n <= max_attempts (POLICY J).
Proof.
  unfold plan_attempt. destruct (negb _) eqn:E1; [done|]. destruct (_ || _) eqn:E2; [done|]. destruct (restore _ _) as [x|]; [|done]. destruct (header_matches x && _); [|done].
  intros Hx. injection Hx. intros <- _. split; [done|]. blia.
Qed.
Abbreviation inv x := (Inv (db x) (now x) (flights x) (sent x) (started x) (succeeded x)).
Lemma pgmq_step_inv x y : inv x -> step x y -> inv y.
Proof.
  intros Hi Hs. pose proof (fun id r Hr => proj1 (inv_rows _ _ _ _ _ _ Hi id r Hr)) as Hids.
  assert (Hgrow : forall d' t, now x <= clock t -> grows (db x) d' -> (forall f r, f ∈ flights x -> rows (source (db x)) !! fl_id f = Some r -> rows (source d') !! fl_id f = Some r) ->
    Inv d' (clock t) (flights x) (newly_sent (db x) d' ++ sent x) (started x) (succeeded x)).
  { intros d' t Hn Hg Hk. eapply inv_grow; [exact Hi|done|done|]. intros f Hf Hv. apply Hk; [done|]. apply (inv_flights _ _ _ _ _ _ Hi f Hf). lia. }
  assert (Hsend : forall d' v t delay, now x <= clock t -> sends (db x) d' v (clock t) delay -> Inv d' (clock t) (flights x) (newly_sent (db x) d' ++ sent x) (started x) (succeeded x)).
  { intros d' v t delay Hn Hsd. apply Hgrow; [done|by eapply grows_sends|]. destruct Hsd as (id & m & Hid & _ & -> & _). intros f r _ Hr. cbn. rewrite lookup_insert_ne; [done|].
    intros E. specialize (Hids _ _ Hr). lia. }
  assert (Hsame : forall d' t, now x <= clock t -> source d' = source (db x) -> Inv d' (clock t) (flights x) (sent x) (started x) (succeeded x)).
  { intros d' t Hn E. assert (Hg := Hgrow d' t Hn (grows_same _ _ E)). rewrite newly_sent_none in Hg by (by rewrite E). apply Hg. by rewrite E. }
  destruct Hs as [e at_utc t r d' Hc Hn He|c s locked t r d' Hc Hn Hls He|l1 f l2 e n Hf Hp Ha|l1 f l2 o sample a Hf Hp Ha|l1 f l2 c a deadline at_ t r d' Hf Hp Hc Hn He|l1 f l2 Hf|paused rev t r d' Hc Hn He|id rev t r d' Hc Hn He|c target t r d' Hc Hn He]; cbn.
  - apply enqueue_cases in He as [->|(v & delay & He & _)]; [|by eapply Hsend|done]. rewrite newly_sent_none by done. by apply Hsame.
  - by eapply inv_lease.
  - rewrite Hf in *. apply admit_invoke in Ha as [-> Hb]. destruct (inv_started _ _ _ _ _ _ Hi) as [S1 S2].
    assert (Hin : f ∈ l1 ++ f :: l2) by (rewrite elem_of_app, elem_of_cons; auto).
    eapply (inv_phase _ _ _ f); try done.
    + apply NoDup_cons. split; [by apply (inv_waiting _ _ _ _ _ _ Hi f)|done].
    + intros s [->|Hs]%elem_of_cons; [|by apply S2]. destruct (inv_flights _ _ _ _ _ _ Hi f Hin) as (F1 & _ & _ & F4 & _). split_and!; cbn; try lia. intros r' Hr. by apply F4.
    + intros g Hg Hpg [E|Hin']%elem_of_cons; [by eapply (other_flight _ _ _ f)|]. apply (inv_waiting _ _ _ _ _ _ Hi g) in Hin'; try done.
      eapply elem_of_sublist; [exact Hg | apply drop_sublist].
  - rewrite Hf in *. destruct (inv_started _ _ _ _ _ _ Hi) as [S1 S2]. eapply (inv_phase _ _ _ f); try done.
    + cbn. intros [= ->]. destruct o as [[]| | |]; cbn in Ha; try done; [by left|..]; destruct (_ <=? _) in Ha; try done; by destruct (retry_delay_seconds _ _ _).
    + destruct o as [[]| | |]; try done. intros z Hz. by right.
    + intros g Hg Hpg. apply (inv_waiting _ _ _ _ _ _ Hi g); [|done]. eapply elem_of_sublist; [exact Hg | apply drop_sublist].
  - rewrite Hf in Hi. by eapply pgmq_inv_settle.
  - rewrite Hf in Hi. eapply inv_fewer; [exact Hi | apply drop_sublist].
  - apply pause_cases in He as (E & _); [|done]. rewrite newly_sent_none by (by rewrite E). by apply Hsame.
  - apply replay_cases in He as [->|(row & _ & _ & He & _)]; [|by eapply Hsend|done]. rewrite newly_sent_none by done. by apply Hsame.
  - apply cleanup_cases in He as (E & _); [|done]. by apply Hsame.
Qed.
Lemma pgmq_inv x : reachable x -> inv x.
Proof.
  intros [at_ Hr]. remember (provisioned at_) as x0 eqn:E. assert (Hi : inv x0).
  { subst. split; cbn; try done; try (by intros f ?%not_elem_of_nil); [by split; [apply NoDup_nil_2|intros p ?%not_elem_of_nil]|apply NoDup_nil_2|by split; [apply NoDup_nil_2|intros p ?%not_elem_of_nil]]. }
  clear E. induction Hr as [|x1 x2 x3 Hs _ IH]; [done|]. by apply IH, (pgmq_step_inv x1).
Qed.

(** ** The second invariant: where every message is *)
Definition overdue (id : Z) (l : list Removal) : Prop := exists m, m ∈ l /\ rm_id m = id /\ rm_since m + retention_nanos (J := J) < rm_at m.
Definition buried_fate (x : System) (b : Burial) : Prop :=
  (exists r, rows (dead (db x)) !! b_dead b = Some r /\ message r = b_message b /\ headers r = Some (b_count b))
  \/ overdue (b_dead b) (gone_dead x) \/ exists id, (b_dead b, id) ∈ replays x /\ (id, b_message b) ∈ sent x.
Definition archived_fate (x : System) (p : Z * Value) : Prop :=
  (exists a, archive (db x) !! p.1 = Some a /\ message (ar_row a) = p.2) \/ overdue p.1 (gone_archive x).
Definition accounted (x : System) (p : Z * Value) : Prop :=
  (exists r, rows (source (db x)) !! p.1 = Some r /\ message r = p.2)
  \/ (exists n, (p.1, n) ∈ succeeded x /\ archived_fate x p)
  \/ exists b, b ∈ burials x /\ b_source b = p.1 /\ b_message b = p.2 /\ buried_fate x b.
Record Kept (x : System) : Prop := {
  kept_sent : forall p, p ∈ sent x -> accounted x p;
  kept_burials : forall b, b ∈ burials x -> b_dead b <= issued (dead (db x));
  kept_dead : forall id r, rows (dead (db x)) !! id = Some r -> id <= issued (dead (db x)) /\ exists v, stored v (message r);
}.
Lemma overdue_mono id l l' : l ⊆ l' -> overdue id l -> overdue id l'.
Proof. intros Hl (m & Hm & Hr). exists m. split; [by apply Hl | done]. Qed.
Lemma buried_mono x y b : (forall r, rows (dead (db x)) !! b_dead b = Some r -> message r = b_message b -> headers r = Some (b_count b) -> buried_fate y b) ->
  gone_dead x ⊆ gone_dead y -> replays x ⊆ replays y -> sent x ⊆ sent y -> buried_fate x b -> buried_fate y b.
Proof.
  intros Hd Hg Hr Hs [(r & H1' & H2' & H3')|[Ho|(id & H1' & H2')]]; [by eapply Hd | right; left; by eapply overdue_mono | right; right; exists id; split; [by apply Hr | by apply Hs]].
Qed.
Lemma accounted_mono x y p : (forall r, rows (source (db x)) !! p.1 = Some r -> message r = p.2 -> accounted y p) -> succeeded x ⊆ succeeded y ->
  (forall a, archive (db x) !! p.1 = Some a -> message (ar_row a) = p.2 -> archived_fate y p) -> gone_archive x ⊆ gone_archive y -> burials x ⊆ burials y ->
  (forall b, b ∈ burials x -> buried_fate x b -> buried_fate y b) -> accounted x p -> accounted y p.
Proof.
  intros Hr Hs Ha Hg Hb Hf [(r & E & Em)|[(n & Hn & Hx)|(b & B1 & B2 & B3 & B4)]]; [by eapply Hr | right; left; exists n | right; right; exists b; split_and!; auto].
  split; [by apply Hs|]. destruct Hx as [(a & E & Em)|Ho]; [by eapply Ha | right; by eapply overdue_mono].
Qed.
(** A step that leaves what the queues and the history hold. *)
Lemma kept_frame x y : Kept x -> (forall id r, rows (source (db x)) !! id = Some r -> exists r', rows (source (db y)) !! id = Some r' /\ message r' = message r) ->
  sent y = sent x -> succeeded x ⊆ succeeded y -> archive (db y) = archive (db x) -> dead (db y) = dead (db x) -> burials y = burials x -> replays y = replays x ->
  gone_archive y = gone_archive x -> gone_dead y = gone_dead x -> Kept y.
Proof.
  intros [K1 K2 K3] Hr Es Hsu Ea Ed Eb Er Ega Egd. split; rewrite ?Ed, ?Eb; try done. rewrite Es. intros p Hp. apply (accounted_mono x y); rewrite ?Ega, ?Eb; try done; [| | |by apply K1].
  - intros r E Em. left. destruct (Hr _ _ E) as (r' & E' & Em'). exists r'. split; [done | congruence].
  - intros a E Em. left. exists a. by rewrite Ea.
  - intros b _. apply buried_mono; rewrite ?Egd, ?Er, ?Es; try done. intros r E Em Eh. left. exists r. by rewrite Ed.
Qed.
Lemma newly_sent_sends d d' v at_ delay : sends d d' v at_ delay -> exists id m, newly_sent d d' = [(id, m)] /\ Z.max 0 (issued (source d)) < id /\ stored v m
  /\ rows (source d') = <[id := fresh_row m None delay at_]> (rows (source d)) /\ archive d' = archive d.
Proof.
  intros (id & m & Hid & Hm & Es & Ea). exists id, m. unfold newly_sent. rewrite Es. cbn. rewrite (proj2 (Z.eqb_neq _ _)) by lia. by rewrite lookup_insert_eq.
Qed.
Lemma kept_send x y v at_ delay : Kept x -> inv x -> sends (db x) (db y) v at_ delay -> sent y = newly_sent (db x) (db y) ++ sent x ->
  succeeded y = succeeded x -> burials y = burials x -> gone_archive y = gone_archive x -> issued (dead (db y)) = issued (dead (db x)) ->
  (forall b, b ∈ burials x -> buried_fate x b -> buried_fate y b) ->
  (forall id r, rows (dead (db y)) !! id = Some r -> rows (dead (db x)) !! id = Some r) -> Kept y.
Proof.
  intros [K1 K2 K3] Hi Hs Es Esu Eb Ega Edi Hf Hd. destruct (newly_sent_sends _ _ _ _ _ Hs) as (id & m & En & Hid & Hm & Er & Ea). rewrite En in Es. split.
  - rewrite Es. cbn. intros p [->|Hp]%elem_of_cons.
    + left. eexists. cbn. rewrite Er, lookup_insert_eq. by split.
    + apply (accounted_mono x y); rewrite ?Esu, ?Ega, ?Eb; try done; [| |by apply K1].
      * intros r E Em. left. exists r. rewrite Er, lookup_insert_ne; [done|]. pose proof (proj2 (inv_sent _ _ _ _ _ _ Hi) p Hp). lia.
      * intros a E Em. left. exists a. by rewrite Ea.
  - by rewrite Eb, Edi.
  - intros id' r E. rewrite Edi. by apply (K3 id' r), Hd.
Qed.
Lemma kept_settle x l1 f l2 a t d' : Kept x -> inv x -> flights x = l1 ++ f :: l2 -> (a = Archiving -> key f ∈ succeeded x) ->
  (exists row, rows (source (db x)) !! fl_id f = Some row /\ read_ct row = read_ct (fl_row f)
     /\ settled a (fl_id f) (read_ct (fl_row f)) (message (fl_row f)) (clock t) row (db x) d') ->
  Kept {| db := d'; now := clock t; flights := l1 ++ l2; sent := sent x; started := started x; succeeded := succeeded x;
          burials := newly_buried f (db x) d' ++ burials x; replays := replays x; gone_archive := gone_archive x; gone_dead := gone_dead x |}.
Proof.
  intros Hk Hi Hf Hsu (row & Hr & Hn & Hs). set (y := {| db := d' |}).
  assert (Hin : f ∈ flights x) by (rewrite Hf, elem_of_app, elem_of_cons; auto).
  destruct (inv_flights _ _ _ _ _ _ Hi f Hin) as (_ & _ & [v Hv] & F4 & _). destruct (F4 row Hr) as [_ Hm].
  destruct (inv_rows _ _ _ _ _ _ Hi _ _ Hr) as (_ & _ & _ & Hsent).
  (** there is one message under this identifier *)
  assert (Hone : forall p, p ∈ sent x -> p.1 = fl_id f -> p.2 = message (fl_row f)).
  { intros [i m] Hp E. cbn in *. subst i. rewrite Hm in Hsent. destruct (inv_sent _ _ _ _ _ _ Hi) as [Hnd _]. apply (elem_of_list_to_map_1 (M := gmap Z)) in Hp, Hsent; [congruence|done..]. }
  pose proof Hk as [K1 K2 K3]. destruct a as [| |s]; cbn in Hs.
  - subst d'. assert (Eb : newly_buried f (db x) (db y) = []) by (unfold newly_buried; cbn; by rewrite Z.eqb_refl). cbn in Eb. subst y. rewrite Eb. split; try done. cbn. intros p Hp.
    destruct (decide (p.1 = fl_id f)) as [E|E].
    + right. left. exists (read_ct (fl_row f)). rewrite E. split; [by apply Hsu|]. left. eexists. rewrite E. cbn. rewrite lookup_insert_eq. split; [done|]. cbn. by rewrite Hm, Hone.
    + eapply accounted_mono; [| | | | | |by apply K1]; cbn; try done.
      * intros r E' Em. left. exists r. cbn. by rewrite lookup_delete_ne.
      * intros a E' Em. left. exists a. cbn. by rewrite lookup_insert_ne.
  - destruct Hs as (did & m' & Hd & Hm' & ->). assert (m' = message (fl_row f)) as -> by (by eapply stored_again).
    assert (Eb : newly_buried f (db x) (db y) = [{| b_source := fl_id f; b_count := read_ct (fl_row f); b_dead := did; b_message := message (fl_row f) |}])
      by (unfold newly_buried; cbn; by rewrite (proj2 (Z.eqb_neq _ _)) by lia). cbn in Eb. subst y. rewrite Eb. cbn.
    assert (Hold : forall b, b ∈ burials x -> b_dead b <> did) by (intros b Hb; specialize (K2 b Hb); lia). split; cbn.
    + intros p Hp. destruct (decide (p.1 = fl_id f)) as [E|E].
      * right. right. eexists. split; [by left|]. split; [done|]. split; [symmetry; by apply Hone|]. left. eexists. cbn. by rewrite lookup_insert_eq.
      * eapply accounted_mono; [| | | | | |by apply K1]; cbn; try done.
        -- intros r E' Em. left. exists r. cbn. by rewrite lookup_delete_ne.
        -- intros a E' Em. left. by exists a.
        -- intros b Hb. by right.
        -- intros b Hb. apply buried_mono; cbn; try done. intros r E' Em Eh. left. exists r. cbn. rewrite lookup_insert_ne; [done|]. by apply not_eq_sym, Hold.
    + intros b [->|Hb]%elem_of_cons; [done|]. specialize (K2 b Hb). lia.
    + intros id r [[<- <-]|[_ E]]%lookup_insert_Some; [split; [lia | by exists v]|]. destruct (K3 id r E). split; [lia|done].
  - subst d'. assert (Eb : newly_buried f (db x) (db y) = []) by (unfold newly_buried; cbn; by rewrite Z.eqb_refl). cbn in Eb. subst y. rewrite Eb.
    apply (kept_frame x); try done. cbn. intros id r E. destruct (decide (id = fl_id f)) as [->|Hne].
    + rewrite lookup_insert_eq. eexists. split; [done|]. cbn. congruence.
    + rewrite lookup_insert_ne by done. by exists r.
Qed.
Lemma gone_overdue {A} (m m' : gmap Z A) (since : A -> Z) (at_ id : Z) (a : A) l : m !! id = Some a -> m' !! id = None -> since a < at_ - retention_nanos (J := J) ->
  overdue id (map (fun x => {| rm_id := x.1; rm_since := since x.2; rm_at := at_ |}) (map_to_list (m ∖ m')) ++ l).
Proof.
  intros Hm Hm' Hs. eexists. split; [apply elem_of_app; left; apply list_elem_of_fmap; exists (id, a); split; [done|]|].
  - apply elem_of_map_to_list, lookup_difference_Some. by split.
  - cbn. split; [done|lia].
Qed.
Lemma pgmq_step_kept x y : inv x -> Kept x -> step x y -> Kept y.
Proof.
  intros Hi Hk Hs. pose proof Hk as [K1 K2 K3].
  destruct Hs as [e at_utc t r d' Hc Hn He|c s locked t r d' Hc Hn Hls He|l1 f l2 e n Hf Hp Ha|l1 f l2 o sample a Hf Hp Ha|l1 f l2 c a deadline at_ t r d' Hf Hp Hc Hn He|l1 f l2 Hf|paused rev t r d' Hc Hn He|id rev t r d' Hc Hn He|c target t r d' Hc Hn He].
  - apply enqueue_cases in He as [->|(v & delay & He & Ed)]; [| |done].
    + apply (kept_frame x); try done; [by eauto | cbn; by rewrite newly_sent_none].
    + eapply (kept_send x); [done|done|exact He|done..|cbn; by rewrite Ed| |cbn; by rewrite Ed].
      intros b Hb. apply buried_mono; cbn; try done; [|by intros z Hz; apply elem_of_app; right]. intros r' E Em Eh. left. exists r'. cbn. by rewrite Ed.
  - apply lease_cases in He as [[-> _]|(id & r0 & Hr & Hv & _ & -> & _)]; [| |done].
    + apply (kept_frame x); try done; [by eauto | cbn; by rewrite newly_sent_none].
    + apply (kept_frame x); try done; [|cbn; by rewrite newly_sent_none]. cbn. intros id' r' E. destruct (decide (id' = id)) as [->|Hne].
      * rewrite lookup_insert_eq. eexists. split; [done|]. cbn. congruence.
      * rewrite lookup_insert_ne by done. by exists r'.
  - apply (kept_frame x); try done. by eauto.
  - apply (kept_frame x); try done; [by eauto|]. cbn. destruct o as [[]| | |]; try done. intros z Hz. by right.
  - apply settle_cases in He as [->|He]; [| |done].
    + replace (newly_buried f (db x) (db x)) with (@nil Burial) by (unfold newly_buried; by rewrite Z.eqb_refl). apply (kept_frame x); try done. by eauto.
    + eapply kept_settle; try done. intros ->. destruct Hp as [Hp|(_ & _ & [=])]. apply (inv_success _ _ _ _ _ _ Hi f); [|done]. rewrite Hf, elem_of_app, elem_of_cons. auto.
  - apply (kept_frame x); try done. by eauto.
  - apply pause_cases in He as (E1 & E2 & E3); [|done]. apply (kept_frame x); try done; cbn; rewrite ?E1; [by eauto | by rewrite newly_sent_none by (by rewrite E1)].
  - apply replay_cases in He as [->|(row & Hr & _ & He & Ed)]; [| |done].
    + apply (kept_frame x); try done; cbn; rewrite ?newly_sent_none by done; try done. by eauto.
    + destruct (K3 id row Hr) as [_ [v Hv]]. destruct (newly_sent_sends _ _ _ _ _ He) as (id' & m & En & _ & Hm & _). assert (m = message row) as -> by (by eapply stored_again).
      eapply (kept_send x); [done|done|exact He|done..|cbn; by rewrite Ed| |cbn; rewrite Ed; cbn; by intros i r' [_ ?]%lookup_delete_Some].
      intros b Hb. apply buried_mono; cbn; try done; [|by intros z Hz; apply elem_of_app; right..]. intros r' E Em Eh. destruct (decide (b_dead b = id)) as [Eid|Eid].
      * right. right. exists id'. cbn. rewrite En, Eid. cbn. rewrite Eid, Hr in E. injection E as <-. rewrite Em. split; by left.
      * left. exists r'. cbn. rewrite Ed. cbn. by rewrite lookup_delete_ne.
  - apply cleanup_cases in He as (E1 & E2 & A1 & A2 & D1 & D2); [|done]. split; cbn.
    + intros p Hp. eapply accounted_mono; [| | | | | |by apply K1]; cbn; try done.
      * intros r' E Em. left. exists r'. cbn. by rewrite E1.
      * intros a E Em. destruct (A1 _ _ E) as [E'|[E' Ho]]; [left; by exists a | right; by eapply gone_overdue].
      * by intros z Hz; apply elem_of_app; right.
      * intros b Hb. apply buried_mono; cbn; try done; [|by intros z Hz; apply elem_of_app; right]. intros r' E Em Eh.
        destruct (D1 _ _ E) as [E'|[E' Ho]]; [left; by exists r' | right; left; by eapply (gone_overdue _ _ enqueued_at)].
    + intros b Hb. rewrite E2. by apply K2.
    + intros id r' E. rewrite E2. by apply (K3 id r'), D2.
Qed.
Lemma pgmq_kept x : reachable x -> Kept x.
Proof.
  intros [at_ Hr]. assert (Hi : inv (provisioned at_)) by (apply pgmq_inv; by exists at_).
  assert (Hk : Kept (provisioned at_)) by (split; cbn; try done; by intros p ?%not_elem_of_nil).
  induction Hr as [|x1 x2 x3 Hs _ IH]; [done|]. apply IH; [by apply (pgmq_step_inv x1) | by apply (pgmq_step_kept x1)].
Qed.

(** C18. No job is lost: in every history of enqueues, leases, attempts, settlements,
    pauses, replays and cleanups by any number of workers, with workers that die and
    transactions that fail or commit unseen, a message that was sent to the source queue
    is still there unchanged; or an attempt of it succeeded and it is archived, until its
    retention is over; or it is in the dead queue unchanged, under the attempt that put it
    there, until its retention is over or it was sent again, unchanged. *)
Theorem job_accounted x id m : reachable x -> (id, m) ∈ sent x -> accounted x (id, m).
Proof. intros Hx Hin. by apply (kept_sent x (pgmq_kept x Hx)). Qed.

Lemma settle_superseded c a id n m deadline at_ t d : calm t -> fence id n d = None -> (settle c a id n m deadline at_ t d).2 = d.
Proof.
  intros Hc Hf. destruct (settle c a id n m deadline at_ t d) as [r d'] eqn:E. apply settle_cases in E as [->|(row & Hr & Hn & _)]; [done| |done].
  assert (fence id n d = Some row) by (by apply fence_Some). congruence.
Qed.
Lemma bounded_counts (l : list Z) k : 0 <= k -> NoDup l -> (forall n, n ∈ l -> 1 <= n <= k) -> Z.of_nat (length l) <= k.
Proof.
  intros Hk Hn Hl. assert (Hs : l ⊆+ seqZ 1 k) by (apply NoDup_submseteq; [done|]; intros n Hin; apply elem_of_seqZ; specialize (Hl n Hin); lia).
  apply submseteq_length in Hs. rewrite length_seqZ in Hs. lia.
Qed.

(** C19. A message is attempted at most as often as its policy allows, each attempt under
    its own read count: the handler never runs twice for one lease, nor for a count
    outside the policy, so that at most [max_attempts] of its runs start.  An attempt
    whose lease was superseded or settled cannot archive, delay or bury the message any
    more. *)
Theorem attempts_fenced x : reachable x -> 0 <= max_attempts (POLICY J) ->
  NoDup (started x) /\ (forall id, Z.of_nat (length (filter (fun s => s.1 = id) (started x))) <= max_attempts (POLICY J))
  /\ (forall f g, f ∈ flights x -> g ∈ flights x -> key f = key g -> f = g)
  /\ forall f c a deadline at_ t, f ∈ flights x -> calm t ->
       (forall r, rows (source (db x)) !! fl_id f = Some r -> read_ct r <> read_ct (fl_row f)) ->
       (settle c a (fl_id f) (read_ct (fl_row f)) (message (fl_row f)) deadline at_ t (db x)).2 = db x.
Proof.
  intros Hx%pgmq_inv Hm. destruct (inv_started _ _ _ _ _ _ Hx) as [S1 S2]. split_and!; [done|..].
  - intros id. set (l := filter _ _). assert (Hnd : NoDup l) by (by apply NoDup_filter). rewrite <- (length_fmap snd). apply bounded_counts; [done|..].
    + apply NoDup_fmap_2_strong; [|done]. intros [a b] [a' b'] [Ea _]%list_elem_of_filter [Ea' _]%list_elem_of_filter E. cbn in *. congruence.
    + intros n (s & -> & Hs)%list_elem_of_fmap. apply list_elem_of_filter in Hs as [_ Hs]. apply (S2 s Hs).
  - intros f g Hf Hg E. pose proof (inv_keys _ _ _ _ _ _ Hx) as Hk. apply list_elem_of_lookup in Hf as [i Hi], Hg as [j Hj].
    assert (i = j) as ->; [|congruence]. apply (NoDup_lookup _ _ _ (key f) Hk); rewrite list_lookup_fmap; [by rewrite Hi | by rewrite Hj, E].
  - intros f c a deadline at_ t Hf Hc Hr. apply settle_superseded; [done|]. unfold fence. destruct (rows (source (db x)) !! fl_id f) as [r|]; [|done]. cbn.
    by rewrite (proj2 (Z.eqb_neq _ _)) by (by apply Hr).
Qed.

(** ** An attempt in time settles its lease *)
Lemma ceil_covers n k : ceil_nanos_seconds n = Some k -> n <= Duration.from_secs k.
Proof.
  unfold ceil_nanos_seconds, Duration.from_secs, NANOS_PER_SECOND, Duration.nanos_per_sec. destruct (2 ^ 128 <=? _); [done|]. cbv zeta. destruct (_ <=? i32_max); [|done]. intros [= <-].
  pose proof (Z.div_mod (n + (1000000000 - 1)) 1000000000). pose proof (Z.mod_pos_bound (n + (1000000000 - 1)) 1000000000). lia.
Qed.
Lemma ceil_total n : 0 <= n <= Duration.from_secs 86400 -> exists k, ceil_nanos_seconds n = Some k /\ 0 <= k <= 86400.
Proof.
  unfold ceil_nanos_seconds, Duration.from_secs, NANOS_PER_SECOND, Duration.nanos_per_sec. intros Hn. rewrite (proj2 (Z.leb_gt _ _)) by lia. cbv zeta.
  assert (0 <= (n + (1000000000 - 1)) / 1000000000 <= 86400) by (split; [apply Z.div_pos; lia|]; apply Z.lt_succ_r, Z.div_lt_upper_bound; lia).
  rewrite (proj2 (Z.leb_le _ _)) by (unfold i32_max; lia). by eexists.
Qed.
(** A lease outlasts the deadline of the attempt by a second. *)
Lemma lease_covers c s : lease_seconds J c = Ok s -> timeout J + lease_grace c + Duration.from_secs 1 <= Duration.from_secs s.
Proof.
  unfold lease_seconds. destruct (_ <=? Duration.MAX); cbn; [|done]. destruct (ceil_nanos_seconds _) as [k|] eqn:E; cbn; [|done]. destruct (_ <=? i32_max); [|done]. intros [= <-].
  apply ceil_covers in E. unfold Duration.from_secs, Duration.nanos_per_sec in *. lia.
Qed.
Lemma budget_left c deadline at_ : MIN_SERVER_TIMEOUT <= operation_timeout c -> at_ + MIN_SERVER_TIMEOUT <= deadline ->
  exists b, remaining_operation_budget deadline at_ (operation_timeout c) = Ok b.
Proof.
  unfold remaining_operation_budget, MIN_SERVER_TIMEOUT. change (Duration.from_millis 1) with 1000000. intros Ho Hd. rewrite (proj2 (Z.ltb_ge _ _)) by lia. cbv zeta.
  rewrite (proj2 (Z.ltb_ge _ _)) by lia. by eexists.
Qed.
Lemma settle_owned c a id m deadline at_ t d row : calm t -> fate t = Commits -> rows (source d) !! id = Some row ->
  MIN_SERVER_TIMEOUT <= operation_timeout c -> at_ + MIN_SERVER_TIMEOUT <= deadline ->
  (a = Burying -> pgmq_send (dead d) m (Some (read_ct row)) 0 (clock t) <> None) ->
  exists d', settle c a id (read_ct row) m deadline at_ t d = (Ok tt, d') /\ settled a id (read_ct row) m (clock t) row d d'.
Proof.
  intros Hc Hf Hr Ho Hd Hs. destruct (budget_left c deadline at_ Ho Hd) as [b Hb]. assert (Hfe : fence id (read_ct row) d = Some row) by (by apply fence_Some).
  destruct a; cbn; unfold archive_success, terminal_transfer, change_visibility, settling; rewrite Hb; cbv zeta; rewrite Hc, Hfe; unfold commit; rewrite ?Hf.
  - rewrite archive_law, Hr. cbn. by eexists.
  - destruct (pgmq_send _ _ _ _ _) as [[did q]|] eqn:E; [|by destruct (Hs eq_refl)]. apply send_law in E as (H1' & m' & H2' & ->). eexists. split; [done|]. by exists did, m'.
  - by eexists.
Qed.
(** What should become of a message whose handler ended so. *)
Definition due_action (n : Z) (o : AttemptOutcome) (a : Action) : Prop :=
  match o with
  | HandlerDid Succeeded => a = Archiving
  | HandlerDid (Permanent _) | Panicked => a = Burying
  | HandlerDid (Retryable _) | TimedOut => if n <? max_attempts (POLICY J) then exists s, a = Delaying s /\ 0 <= s <= 86400 else a = Burying
  | HandlerDid Cancelled | AttemptCancelled => a = Delaying 0
  end.
Lemma action_due params n sample o : JobPolicy_new params = Ok (POLICY J) -> 0 <= initial_backoff_ms params -> 1 <= n <= u16_max -> is_u64 sample ->
  exists a, settle_action (J := J) n sample o = Ok a /\ due_action n o a.
Proof.
  intros Hp H0' Hn Hs. assert (Hretry : exists s, retry_delay_seconds J n sample = Ok s /\ 0 <= s <= 86400).
  { destruct (jittered_backoff_total params (POLICY J) n sample Hp H0' Hn Hs) as (ms & E & Hb & Hc). unfold retry_delay_seconds. rewrite E. cbn [ok_or mbind result_bind].
    assert (max_backoff_ms (POLICY J) <= 86400000) by (unfold JobPolicy_new in Hp; inv_ok; subst params; blia).
    destruct (ceil_total (Z.max (Duration.from_millis ms) (Duration.from_millis 1))) as (k & -> & Hk); [unfold Duration.from_millis, Duration.from_secs, Duration.nanos_per_sec; lia|]. by exists k. }
  destruct Hretry as (s & Hr & Hs'). unfold settle_action, due_action. destruct o as [[]| | |]; try (by eexists); rewrite ?Hr; cbn;
    (destruct (Z.leb_spec (max_attempts (POLICY J)) n); [rewrite (proj2 (Z.ltb_ge _ _)) by lia; by eexists | rewrite (proj2 (Z.ltb_lt _ _)) by lia]);
    eexists; (split; [done|]); by exists s.
Qed.
Lemma admit_context r e n cancelled until : plan_attempt (J := J) r = Ok (Invoke e n) -> exists ctx, DeliveryContext_from e n cancelled until = Ok ctx.
Proof.
  intros Ha. pose proof (admit_invoke _ _ _ Ha) as [Hn Hb]. unfold plan_attempt in Ha. destruct (negb _); [done|]. destruct (_ || _); [done|]. destruct (restore _ _) as [x|]; [|done].
  destruct (header_matches x) eqn:Eh; [|done]. destruct (match decode J (bytes x) with Ok _ => true | Err _ => false end); [|done]. cbn in Ha. injection Ha as <- <-.
  unfold header_matches in Eh. rewrite !andb_true_iff, !Z.eqb_eq in Eh. destruct Eh as [[_ Eh] _]. unfold DeliveryContext_from. rewrite (proj2 (Z.eqb_neq _ _)) by lia. cbn.
  rewrite (proj2 (Z.ltb_ge _ _)) by lia. by eexists.
Qed.

(** C20. An attempt in time settles: for a declared policy, a handler however it ends, and
    an attempt that comes to its storage at least a millisecond before its deadline, with
    an operation timeout of at least a millisecond and a database that works,
    [process_message] succeeds and its lease still holds the message, whatever other
    workers did since.  The message is archived if the handler succeeded, put in the dead
    queue if it failed for good, panicked, or failed or ran out of time at the last
    attempt, and otherwise made visible again, at once if the attempt was cancelled and
    after a delay of at most a day if not.  A message that is no job of this type or was
    read too often goes to the dead queue without its handler being run; one that was read
    more than 65535 times makes [process_message] fail and stays where it is. *)
Theorem attempt_settles x f params c s lease_started leased_at run cancelled now_utc sample at_ t :
  JobPolicy_new params = Ok (POLICY J) -> 0 <= initial_backoff_ms params -> reachable x -> f ∈ flights x ->
  lease_seconds J c = Ok s -> MIN_SERVER_TIMEOUT <= operation_timeout c -> lease_started <= leased_at -> vt (fl_row f) = leased_at + Duration.from_secs s ->
  calm t -> fate t = Commits -> is_u64 sample -> now x <= clock t -> clock t <= storage_deadline (J := J) c lease_started ->
  at_ + MIN_SERVER_TIMEOUT <= storage_deadline (J := J) c lease_started ->
  pgmq_send (dead (db x)) (message (fl_row f)) (Some (read_ct (fl_row f))) 0 (clock t) <> None ->
  if u16_max <? read_ct (fl_row f)
  then process_message (J := J) c run cancelled now_utc lease_started sample at_ (fl_id f) (fl_row f) t (db x) = (Err tt, db x)
  else exists a d', process_message (J := J) c run cancelled now_utc lease_started sample at_ (fl_id f) (fl_row f) t (db x) = (Ok tt, d')
    /\ settled a (fl_id f) (read_ct (fl_row f)) (message (fl_row f)) (clock t) (fl_row f) (db x) d'
    /\ match plan_attempt (J := J) (fl_row f) with
       | Ok (Invoke e n) => n = read_ct (fl_row f) /\ exists ctx, DeliveryContext_from e n cancelled (deadline_after (J := J) now_utc) = Ok ctx /\ due_action n (run e ctx) a
       | Ok Transfer => a = Burying
       | Err _ => False
       end.
Proof.
  intros Hp Hi0 Hx%pgmq_inv Hf Hs Ho Hst Hv Hc Hft Hsm Hn Hcl Hat Hsend. apply lease_covers in Hs. unfold storage_deadline in *.
  destruct (inv_flights _ _ _ _ _ _ Hx f Hf) as (_ & F2 & _ & _ & F5).
  destruct (Z.ltb_spec u16_max (read_ct (fl_row f))) as [Hu|Hu].
  { unfold process_message, plan_attempt. by rewrite (proj2 (Z.leb_gt (read_ct (fl_row f)) u16_max)), andb_false_r by lia. }
  assert (Hr : rows (source (db x)) !! fl_id f = Some (fl_row f)) by (apply F5; unfold Duration.from_secs, Duration.nanos_per_sec in *; lia).
  assert (Hown : forall a, exists d', settle c a (fl_id f) (read_ct (fl_row f)) (message (fl_row f)) (lease_started + timeout J + lease_grace c) at_ t (db x) = (Ok tt, d')
      /\ settled a (fl_id f) (read_ct (fl_row f)) (message (fl_row f)) (clock t) (fl_row f) (db x) d') by (intros a; by apply settle_owned).
  unfold process_message. cbv zeta. unfold storage_deadline. destruct (plan_attempt (fl_row f)) as [[|e n]|[]] eqn:Ea.
  - destruct (Hown Burying) as (d' & E & Hd). exists Burying, d'. by split_and!.
  - pose proof (admit_invoke _ _ _ Ea) as [-> Hb]. destruct (admit_context _ _ _ cancelled (deadline_after (J := J) now_utc) Ea) as [ctx Hctx]. rewrite Hctx.
    destruct (action_due params (read_ct (fl_row f)) sample (run e ctx) Hp Hi0) as (a & E & Hd); [lia|done|]. rewrite E. destruct (Hown a) as (d' & Es & Hset).
    exists a, d'. split_and!; try done. by exists ctx.
  - exfalso. unfold plan_attempt in Ea. rewrite (proj2 (Z.leb_le 0 _)), (proj2 (Z.leb_le _ u16_max)) in Ea by lia. cbn [negb andb] in Ea.
    destruct (_ || _); [done|]. destruct (restore _ _); [|done]. by destruct (header_matches _ && _).
Qed.
End system.

(** ** A job through a concrete queue *)
Module PgmqExamples.
Import JobExamples.
#[local] Existing Instances uuids json mail mail_laws.
Definition visible (now : Z) (locked : gset Z) (x : Z * Row) : bool := (vt x.2 <=? now) && negb (bool_decide (x.1 ∈ locked)).
#[local] Instance extension : Pgmq := {|
  pgmq_send q v h delay now := let id := Z.max 0 (issued q) + 1 in Some (id, {| rows := <[id := fresh_row v h delay now]> (rows q); issued := id |});
  pgmq_read q locked s now :=
    match filter (fun x => visible now locked x = true) (map_to_list (rows q)) with
    | [] => (None, q)
    | (id, r) :: _ => (Some (id, leased_row s now r), with_rows (<[id := leased_row s now r]> (rows q)) q)
    end;
  pgmq_archive q a id now := (rows q !! id) ≫= (fun r => Some (with_rows (delete id (rows q)) q, <[id := {| ar_row := r; archived_at := now |}]> a));
  jsonb_length _ := 10;
|}.
#[local] Instance extension_laws : PgmqLaws.
Proof.
  refine {| stored v m := m = v |}.
  - by intros v m m' -> ->.
  - intros q v h delay now id q' [= <- <-]. split; [lia|]. by exists v.
  - intros q locked s now id r q'. cbn. destruct (filter _ _) as [|[id0 r0] l] eqn:E; [done|]. intros [= <- <- <-]. exists r0.
    assert (Hin : (id0, r0) ∈ (id0, r0) :: l) by (by left). rewrite <- E in Hin. apply list_elem_of_filter in Hin as [Hv Hin]. apply elem_of_map_to_list in Hin.
    apply andb_true_iff in Hv as [Hv Hl%negb_true_iff]. apply Z.leb_le in Hv. apply bool_decide_eq_false in Hl. by split_and!.
  - intros q locked s now q'. cbn. destruct (filter _ _) as [|[id0 r0] l] eqn:E; [|done]. intros [= <-]. split; [done|]. intros id r Hr Hl.
    destruct (Z.ltb_spec now (vt r)); [done|]. exfalso. assert (Hin : (id, r) ∈ filter (fun x => visible now locked x = true) (map_to_list (rows q))).
    { apply list_elem_of_filter. split; [|by apply elem_of_map_to_list]. unfold visible. cbn. rewrite (proj2 (Z.leb_le _ _)), bool_decide_eq_false_2 by done. done. }
    rewrite E in Hin. by apply not_elem_of_nil in Hin.
  - done.
Defined.
Definition turn (at_ : Z) : Turn := {| meanwhile d := d; clock := at_; fate := Commits |}.
Definition config : PgmqJobConfig := PgmqJobConfig_default.
Definition LEASE : Z := 41.
Definition d1 : Db := (enqueue_with (J := unit) encoded0 now0 (turn 1000) (db (provisioned 0))).2.
Definition d2 : Db := (lease_source LEASE ∅ (turn 2000) d1).2.
Definition leased : Row := leased_row LEASE 2000 (fresh_row document None 0 1000).
Definition flight (p : Phase) : Flight := {| fl_id := 1; fl_row := leased; fl_phase := p |}.
Definition sent1 : System := with_db d1 1000 (provisioned 0).
Definition leased1 : System := with_flights [flight AtLease] (with_db d2 2000 sent1).
Lemma sent1_reachable : reachable (J := unit) sent1.
Proof.
  exists 0. eapply rtc_l; [|apply rtc_refl]. apply (do_enqueue (J := unit) (provisioned 0) encoded0 now0 (turn 1000) (Ok ID) d1); [done | cbn; lia | vm_compute; reflexivity].
Qed.
Lemma leased1_reachable : reachable (J := unit) leased1.
Proof.
  destruct sent1_reachable as [t Ht]. exists t. eapply rtc_r; [exact Ht|].
  apply (do_lease (J := unit) sent1 config LEASE ∅ (turn 2000) (Ok (LeasedMessage 1 leased)) d2); [done | cbn; lia | vm_compute; reflexivity | vm_compute; reflexivity].
Qed.
Lemma job_accounted_witness : (1, document) ∈ sent leased1 /\ accounted (J := unit) leased1 (1, document).
Proof.
  assert (Hin : (1, document) ∈ sent leased1) by (vm_compute; left). split; [exact Hin|]. apply (job_accounted leased1 1 document); [exact leased1_reachable | exact Hin].
Defined.
Lemma attempts_fenced_witness : NoDup (started leased1).
Proof. apply (attempts_fenced (J := unit) leased1); [exact leased1_reachable | vm_compute; discriminate]. Defined.
Lemma attempt_settles_witness : exists d', process_message (J := unit) config (fun e ctx => attempt_outcome (fun _ _ => Succeeded) e ctx Finished false) false now0 1500 7 3000 1 leased (turn 4000) d2 = (Ok tt, d').
Proof.
  destruct (attempt_settles (J := unit) leased1 (flight AtLease) policy0 config LEASE 1500 2000
      (fun e ctx => attempt_outcome (fun _ _ => Succeeded) e ctx Finished false) false now0 7 3000 (turn 4000)) as (a & d' & E & _);
    [vm_compute; reflexivity | discriminate | exact leased1_reachable | apply elem_of_cons; by left | vm_compute; reflexivity | discriminate | discriminate
     | vm_compute; reflexivity | by intros d | reflexivity | by split | discriminate | vm_compute; discriminate | vm_compute; discriminate | vm_compute; discriminate |].
  - by exists d'.
Defined.
End PgmqExamples.
